(* ===== verification/_CoqProject ===== *)
-Q . S2P
Prelude.v
Varint.v
Net.v
AddrText.v
Capsule.v
CapsuleStream.v
Datagram.v
IpPacket.v
AddressPool.v
Routing.v
ClientIdentity.v
Lease.v
Policy.v
Scheduler.v
Admission.v
Listener.v
Retry.v
Uri.v
ConnectIp.v
Auth.v
Config.v
Tls.v
TcpTunnel.v
TcpRelay.v
TargetUdp.v
UdpTunnel.v
Quiche.v
QuicBatch.v
Validation.v
Request.v
Reload.v
ReloadProps.v
Pacing.v
Connection.v
CapsuleIo.v
CapsuleIoProps.v
Client.v
Handlers.v
Relay.v
Totality.v
ClientLogic.v
HandlersInv.v
ServeInv.v
ResultsInv.v
RelayInv.v
ClientProps.v
Ingress.v
IngressInv.v
IngressProps.v
Shard.v
ShardInv.v
Server.v
ServerInv.v
ServerProps.v
