(* ===== verification/Prelude.v ===== *)
(** * A verification library for masque-server

    masque-server is a MASQUE proxy: over HTTP/3 (and HTTP/2) clients open
    CONNECT (TCP), CONNECT-UDP and CONNECT-IP tunnels, and the server relays
    bytes, datagrams and IP packets.  This library models the program as
    executable Rocq functions, file by file, and proves what makes each part
    correct.  Paths below are relative to [src/src/].

    ** Conventions

    A fallible function returns [result E A] with a third constructor for a
    panic, so "does not panic" is a statement about the model.  A loop whose
    recursion is not structural runs under [while] with a measure and panics
    when the measure is used up: a proof that it does not panic is also a proof
    that it ends, and no theorem is stated only "if it returns".  Machine
    integers are [Z] with their wrap-around written out, byte strings are lists
    of integers, hash maps are [gmap] and, where the order in which a map is
    walked matters, the order is a parameter.  Concurrent tasks are program
    counters that step on shared cells, one atomic operation at a time.

    Third-party code is an interface: the quiche library is the class [Quiche]
    of [Quiche], an oracle that answers every call from the whole history of
    calls, with documented behaviour as separate law classes; the address
    library, the AEAD, the allocator, the kernel's segmentation offload and the
    password hash are parameters with named laws.  Theorems that use laws come
    with a witness at a concrete instance.

    ** Files and what they prove

    - Prelude: results, integers, bytes, record updates, loops and their rules.
    - Varint (varint.rs), Capsule (capsule/mod.rs, encoder.rs, decoder.rs),
      CapsuleStream (capsule/datagram.rs, capsule/ip.rs), Datagram
      (datagram.rs): codecs.  Round trips, independence of how the input is cut
      into chunks, bounds on what is buffered, rejection of malformed input.
    - Net, AddrText: addresses and their textual forms.
    - IpPacket (ip_packet.rs): header parsing and the check for source routing.
    - AddressPool (address_pool.rs), Routing (routing.rs), ClientIdentity
      (client_identity.rs), Lease (leases in server/mod.rs, server/shard_tunnels.rs
      and server/http2/ip.rs): an address is routed to at most one tunnel and
      every address is returned, under any interleaving of the critical sections
      of the two locks; [setup_ip_tunnel] and [teardown_ip_tunnel] refine those
      steps.
    - Policy (policy.rs, tunnel/target.rs): which targets are allowed, for any
      spelling of an address and for every address of a DNS answer.
    - Scheduler (scheduler.rs), Admission (admission.rs), Listener
      (server/listener_address.rs, server/validation.rs).
    - Retry (server/retry.rs): tokens bind address, connection and time.
    - Uri, ConnectIp (uri.rs, uri/connect_ip.rs): request targets and scopes.
    - Auth (auth.rs): single-flight password verification; nothing is accepted
      that was not hashed.
    - TcpTunnel, TcpRelay (tunnel/tcp.rs): the connection race, and the reader
      and writer tasks of a tunnel against the shard: bytes are delivered in
      order without loss, buffers stay bounded and no wake-up is lost.
    - TargetUdp, UdpTunnel (net/target_udp.rs, tunnel/udp.rs): batched sends and
      receives carry each datagram exactly once; early datagrams stay within
      their byte budget.
    - Quiche: the interface of the QUIC and HTTP/3 library.
    - QuicBatch (net/quic.rs), Pacing (connection.rs, server/shard_output.rs):
      packets leave in the order the library made them, not before their time.
    - Connection (connection.rs, connection/error_responses.rs): every rejected
      request is answered once or reset.
    - CapsuleIo, CapsuleIoProps (server/capsules.rs): staged capsules are
      bounded and counted exactly, and a stream ends with FIN only between two
      capsules.
    - Ingress, IngressInv, IngressProps (server/shard_packets.rs and the shared
      state of server/mod.rs): packets reach the connection that owns their
      connection ID, across shards; timers, source admission and forwarding.
    - Config (config.rs), Tls (server/tls.rs), Validation
      (server/validation.rs), Reload, ReloadProps (reload_configuration in
      server/mod.rs, runtime_status.rs): a configuration that is accepted meets
      every limit and leaves no listener open; a connection gets the certificate,
      key and chain of one snapshot; a reload happens whole or not at all, and
      the status tells what is in force.
    - Request, Client, Handlers, Relay (server/request.rs, authentication.rs,
      shard_packets.rs, shard_tunnels.rs, shard_datagrams.rs,
      shard_lifecycle.rs, shard_output.rs, capsules.rs and connection.rs): one
      connection with everything it owns, and its handlers in a state monad over
      it.  Calls of the QUIC library are appended to [quic], effects outside the
      connection (credentials, tasks, sockets, leases, routes, the TUN device) to
      [world]; both are oracles over their histories.
    - Totality: loops of the handlers and their rules.  ClientLogic: the laws of
      the two oracles, weakest preconditions and the invariant [conn_inv] with
      the elementary changes that keep it.  HandlersInv, ServeInv, ResultsInv,
      RelayInv: every handler keeps the invariant and returns.
    - ClientProps: the step relation of a connection and what follows for every
      reachable connection: a stream is answered once; tunnels are opened and
      addresses leased only for requests with good credentials; packets reach the
      TUN device only from a leased source to an allowed destination; the state
      is well formed and bounded; the handlers return.  A concrete library and
      world run a CONNECT-IP request from its headers to a packet on the device.
    - Shard, ShardInv ([Shard::run] of server/mod.rs with the loops over several
      connections in shard_datagrams.rs, shard_tunnels.rs, shard_lifecycle.rs and
      shard_output.rs): one iteration of a shard's event loop over its whole
      table.  A connection there is its transport side of [Ingress] and what it
      owns of [Client].  A round returns, moves the tables by steps of
      [IngressProps] and each connection by steps of [ClientProps], and keeps what
      other shards rely on.
    - Server, ServerInv, ServerProps (what the shards share, and the accesses of
      server/http2/connection.rs and server/http2/ip.rs to it): a server step is a
      round of one shard or one access of an HTTP/2 task.  In every interleaving
      rounds return, connections are those of [ClientProps], a packet of the TUN
      device reaches only the stream its destination is leased to, queues keep
      their bounds, and a drain ends by its deadline.  A run from the first packet
      to a leased address is evaluated.

    ** Bounds and fuel

    Measures are taken from the data (bytes left, packets queued, the library's
    pending work), so fuel is never a constant chosen in advance.  A library
    that never stops producing events is excluded by the law that its pending
    work decreases with each event it hands out.

    ** Not modelled

    Editing of configuration files (config_edit.rs) and how the toml and serde
    crates read them, certificate issuance (enroll.rs), metrics and log output
    (metrics.rs, observability.rs), the process, host and TUN device set-up
    (main.rs, host.rs, support.rs, systemd.rs, tun.rs), the binding of sockets and
    the spawning of tasks (the rest of server/mod.rs), the asynchronous HTTP/2
    relay loops over the h2 crate (server/http2/), and the client programs under
    tools/ are calls into other crates and the operating system with little
    state of their own.  Shards interleave round by round: the locks of the
    shared tables, which the code holds for single operations, are not steps of
    their own there (Lease has them for addresses and routes), so a run in which
    two shards look up the same new connection id before either publishes it is
    outside [IngressProps] and [ServerProps].  So is a run with a replay
    ([IngressInv.replays]): an Initial whose Retry token is still valid and made
    the id of a live connection that the peer has since retired, the packet of
    [retired_replay_panics].  Ingress treats
    one listener: a shard's index among all shards is its index in the listener's
    socket group. *)

From Stdlib Require Import ZArith Lia.
From stdpp Require Export prelude gmap.

#[global] Open Scope Z_scope.

(** ** Results

    A fallible Rust function returns [Result<A, E>].  The third constructor
    stands for a panic (an out-of-range index, [unwrap] on [None],
    [unreachable!]), so that freedom from panics is a statement about the
    model and not an assumption of it. *)

Inductive result (E A : Type) : Type :=
| Ok (a : A)
| Err (e : E)
| Panic.
Arguments Ok {E A} a.
Arguments Err {E A} e.
Arguments Panic {E A}.

#[global] Instance result_ret E : MRet (result E) := fun A a => Ok a.
#[global] Instance result_bind E : MBind (result E) := fun A B f m =>
  match m with Ok a => f a | Err e => Err e | Panic => Panic end.
#[global] Instance result_fmap E : FMap (result E) := fun A B f m =>
  match m with Ok a => Ok (f a) | Err e => Err e | Panic => Panic end.

#[global] Instance result_eq_dec E A `{EqDecision E, EqDecision A} :
  EqDecision (result E A).
Proof. solve_decision. Defined.

(** [map_err]: the [?] operator with a conversion of the error. *)
Definition map_err {E F A} (f : E -> F) (m : result E A) : result F A :=
  match m with Ok a => Ok a | Err e => Err (f e) | Panic => Panic end.

(** Code that cannot fail, used where something else can. *)
Definition noerr {E A} (m : result Empty_set A) : result E A :=
  match m with Ok a => Ok a | Err e => match e with end | Panic => Panic end.

(** [opt.ok_or(e)?] and [opt.unwrap()]. *)
Definition ok_or {E A} (e : E) (o : option A) : result E A :=
  match o with Some a => Ok a | None => Err e end.
Definition unwrap {E A} (o : option A) : result E A :=
  match o with Some a => Ok a | None => Panic end.

Definition is_ok {E A} (m : result E A) : bool :=
  match m with Ok _ => true | _ => false end.

Lemma bind_Ok {E A B} (m : result E A) (f : A -> result E B) b :
  m ≫= f = Ok b <-> exists a, m = Ok a /\ f a = Ok b.
Proof.
  destruct m as [a|e|]; cbn; split; try (intros (?&?&?)); try naive_solver.
Qed.

Lemma bind_Err {E A B} (m : result E A) (f : A -> result E B) e :
  m ≫= f = Err e <-> m = Err e \/ exists a, m = Ok a /\ f a = Err e.
Proof. destruct m as [a|e'|]; cbn; naive_solver. Qed.

Lemma bind_Panic {E A B} (m : result E A) (f : A -> result E B) :
  m ≫= f = Panic <-> m = Panic \/ exists a, m = Ok a /\ f a = Panic.
Proof. destruct m as [a|e'|]; cbn; naive_solver. Qed.

Lemma map_err_Ok {E F A} (f : E -> F) (m : result E A) a :
  map_err f m = Ok a <-> m = Ok a.
Proof. destruct m; cbn; naive_solver. Qed.

Lemma ok_or_Ok {E A} (e : E) (o : option A) a : ok_or e o = Ok a <-> o = Some a.
Proof. destruct o; cbn; naive_solver. Qed.

(** Invert every monadic hypothesis in the context. *)
Ltac inv_res :=
  repeat match goal with
  | H : _ ≫= _ = Ok _ |- _ =>
      apply bind_Ok in H; destruct H as (? & ? & H); simplify_eq/=
  | H : map_err _ _ = Ok _ |- _ => apply map_err_Ok in H
  | H : ok_or _ ?o = Ok _ |- _ => destruct o eqn:?; simplify_eq/=
  | H : unwrap ?o = Ok _ |- _ => destruct o eqn:?; simplify_eq/=
  | H : Ok _ = Ok _ |- _ => simplify_eq/=
  | H : Err _ = Ok _ |- _ => discriminate H
  | H : Panic = Ok _ |- _ => discriminate H
  | x : _ * _ |- _ => destruct x
  end.

(** ** Record updates

    [r <| f := v |>] is the record [r] with another value in the field [f]; the
    fields of a record are listed once, in its [Eta] instance. *)

Class Eta (R : Type) := eta : R -> R.
Class Setter {R T} (proj : R -> T) := set_field : (T -> T) -> R -> R.

Ltac solve_setter :=
  match goal with
  | |- @Setter ?R ?T ?proj =>
      let inst := constr:(_ : Eta R) in
      let e := eval red in inst in
      match eval pattern proj in e with
      | ?k _ => exact (fun (f : T -> T) => k (fun r => f (proj r)))
      end
  end.
#[export] Hint Extern 0 (Setter _) => solve_setter : typeclass_instances.

Notation "r <| f := v |>" := (set_field (proj:=f) (fun _ => v) r)
  (at level 12, left associativity, f constr at next level, v at level 200, format "r  <| f  :=  v |>").
Notation "r <| f ::= v |>" := (set_field (proj:=f) v r)
  (at level 12, left associativity, f constr at next level, v at level 200, format "r  <| f  ::=  v |>").

(** ** Machine integers and bytes

    A [w]-bit unsigned integer is a [Z]; wrap-around is written out with
    [mod].  A byte string is a [list Z]; [bytes_ok] says its elements are
    bytes.  [usize] lengths and indices are [nat]. *)

Abbreviation bytes := (list Z).

Definition U8_MAX : Z := 2 ^ 8 - 1.
Definition U16_MAX : Z := 2 ^ 16 - 1.
Definition U32_MAX : Z := 2 ^ 32 - 1.
Definition U64_MAX : Z := 2 ^ 64 - 1.
Definition U128_MAX : Z := 2 ^ 128 - 1.
(** The server is built for 64-bit targets. *)
Definition USIZE_MAX : Z := U64_MAX.

Definition byte_ok (b : Z) : Prop := 0 <= b < 256.
Definition bytes_ok (l : bytes) : Prop := Forall byte_ok l.

#[global] Instance byte_ok_dec b : Decision (byte_ok b).
Proof. unfold byte_ok. apply _. Defined.
#[global] Instance bytes_ok_dec l : Decision (bytes_ok l).
Proof. unfold bytes_ok. apply _. Defined.

(** [slice.len()] as an integer, for sizes compared with large limits. *)
Definition zlen {A} (l : list A) : Z := Z.of_nat (length l).
#[global] Arguments zlen : simpl never.

(** [a - b] on [usize]. *)
Definition usize_sub (a b : Z) : result Empty_set Z := if bool_decide (b <= a) then Ok (a - b) else Panic.

(** [instant.elapsed()], which saturates at zero.  Instants are integers. *)
Definition elapsed (now since : Z) : Z := Z.max 0 (now - since).

(** [uN::from_be_bytes] and [uN::to_be_bytes]. *)
Definition be_val (l : bytes) : Z := fold_left (fun acc b => acc * 256 + b) l 0.
Fixpoint be_bytes (n : nat) (v : Z) : bytes :=
  match n with
  | O => []
  | S n' => (v / 256 ^ Z.of_nat n') mod 256 :: be_bytes n' v
  end.

(** [buf[i]] and [buf[a..b]], which panic out of range. *)
Definition index {E A} (buf : list A) (i : nat) : result E A := unwrap (buf !! i).
Definition slice {E A} (buf : list A) (a b : nat) : result E (list A) :=
  if bool_decide (a <= b /\ b <= length buf)%nat
  then Ok (take (b - a) (drop a buf)) else Panic.
Definition slice_from {E A} (buf : list A) (a : nat) : result E (list A) :=
  slice buf a (length buf).
(** [buf.get(a..b)]. *)
Definition get_range {A} (buf : list A) (a b : nat) : option (list A) :=
  if bool_decide (a <= b /\ b <= length buf)%nat
  then Some (take (b - a) (drop a buf)) else None.
(** [buf[i] = b0; buf[i+1] = b1; ...], each store panicking out of range. *)
Fixpoint store_from {E A} (i : nat) (l : list A) (buf : list A) : result E (list A) :=
  match l with
  | [] => Ok buf
  | b :: l' =>
      if bool_decide (i < length buf)%nat
      then store_from (S i) l' (<[i:=b]> buf) else Panic
  end.

(** [slice.chunks(n)], which panics when [n] is zero; the last chunk may be
    shorter. *)
Fixpoint chunks_fuel {A} (fuel n : nat) (l : list A) : list (list A) :=
  match l, fuel with
  | [], _ | _, O => []
  | _, S fuel' => take n l :: chunks_fuel fuel' n (drop n l)
  end.
Definition chunks {A} (n : nat) (l : list A) : list (list A) := chunks_fuel (length l) n l.

(** ** Lemmas on big-endian integers *)

Lemma bytes_ok_app l k : bytes_ok (l ++ k) <-> bytes_ok l /\ bytes_ok k.
Proof. apply Forall_app. Qed.

Lemma bytes_ok_cons b l : bytes_ok (b :: l) <-> byte_ok b /\ bytes_ok l.
Proof. apply Forall_cons_iff. Qed.

Lemma bytes_ok_take n l : bytes_ok l -> bytes_ok (take n l).
Proof. apply Forall_take. Qed.

Lemma bytes_ok_drop n l : bytes_ok l -> bytes_ok (drop n l).
Proof. apply Forall_drop. Qed.

Lemma bytes_ok_singleton b : bytes_ok [b] <-> byte_ok b.
Proof. apply Forall_singleton. Qed.

Lemma bytes_ok_concat ls : Forall bytes_ok ls -> bytes_ok (concat ls).
Proof. intros H. apply Forall_concat. exact H. Qed.

Lemma elem_of_concat {A} (x : A) ls : x ∈ concat ls <-> exists l, x ∈ l /\ l ∈ ls.
Proof.
  rewrite list_elem_of_In, in_concat. setoid_rewrite list_elem_of_In. naive_solver.
Qed.

Lemma be_val_acc l a :
  fold_left (fun acc b => acc * 256 + b) l a
  = a * 256 ^ Z.of_nat (length l) + be_val l.
Proof.
  unfold be_val. revert a. induction l as [|b l IH]; intros a; cbn [fold_left length].
  - rewrite Z.pow_0_r. lia.
  - rewrite (IH (a * 256 + b)), (IH (0 * 256 + b)), Nat2Z.inj_succ, Z.pow_succ_r by lia.
    lia.
Qed.

Lemma be_val_cons b l : be_val (b :: l) = b * 256 ^ Z.of_nat (length l) + be_val l.
Proof. unfold be_val at 1. simpl. apply be_val_acc. Qed.

Lemma be_val_app l k :
  be_val (l ++ k) = be_val l * 256 ^ Z.of_nat (length k) + be_val k.
Proof. unfold be_val at 1. rewrite fold_left_app. apply be_val_acc. Qed.

Lemma be_val_bound l : bytes_ok l -> 0 <= be_val l < 256 ^ Z.of_nat (length l).
Proof.
  induction 1 as [|b l Hb Hl IH]; [done|].
  rewrite be_val_cons. simpl length. rewrite Nat2Z.inj_succ, Z.pow_succ_r by lia.
  unfold byte_ok in Hb. nia.
Qed.

Lemma be_val_take_bound n l :
  bytes_ok l -> (n <= length l)%nat -> 0 <= be_val (take n l) < 256 ^ Z.of_nat n.
Proof.
  intros Hok Hle. pose proof (be_val_bound (take n l) (bytes_ok_take n l Hok)) as H.
  by rewrite length_take_le in H.
Qed.

Lemma length_be_bytes n v : length (be_bytes n v) = n.
Proof. induction n; simpl; congruence. Qed.

Lemma be_bytes_ok n v : bytes_ok (be_bytes n v).
Proof.
  induction n; simpl; constructor; [|done].
  apply Z.mod_pos_bound. lia.
Qed.

Lemma be_val_be_bytes n v : be_val (be_bytes n v) = v mod 256 ^ Z.of_nat n.
Proof.
  induction n as [|n IH]; simpl be_bytes.
  - rewrite Z.pow_0_r, Z.mod_1_r. done.
  - rewrite be_val_cons, length_be_bytes, IH, Nat2Z.inj_succ, Z.pow_succ_r by lia.
    rewrite (Z.mul_comm 256), Z.rem_mul_r by lia. lia.
Qed.

(** Bytes above the ones that are kept do not matter. *)
Lemma be_bytes_high m n b v :
  (m <= n)%nat -> be_bytes m (b * 256 ^ Z.of_nat n + v) = be_bytes m v.
Proof.
  induction m as [|m IHm]; intros Hle; [done|].
  simpl. rewrite IHm by lia. f_equal.
  replace (Z.of_nat n) with (Z.of_nat (n - S m) + 1 + Z.of_nat m) by lia.
  rewrite !Z.pow_add_r by lia.
  replace (b * (256 ^ Z.of_nat (n - S m) * 256 ^ 1 * 256 ^ Z.of_nat m) + v)
    with (b * 256 ^ Z.of_nat (n - S m) * 256 * 256 ^ Z.of_nat m + v) by lia.
  rewrite Z.div_add_l by lia.
  rewrite Z.add_comm, Z.mod_add by lia. done.
Qed.

Lemma be_bytes_be_val l : bytes_ok l -> be_bytes (length l) (be_val l) = l.
Proof.
  induction 1 as [|b l Hb Hl IH]; [done|].
  simpl. pose proof (be_val_bound l Hl) as Hv. rewrite be_val_cons.
  rewrite be_bytes_high, IH by lia. f_equal.
  rewrite Z.div_add_l, Z.div_small, Z.add_0_r by lia. apply Z.mod_small. done.
Qed.

Lemma be_val_inj l k :
  bytes_ok l -> bytes_ok k -> length l = length k -> be_val l = be_val k -> l = k.
Proof.
  intros Hl Hk Hlen Hv.
  rewrite <- (be_bytes_be_val l Hl), <- (be_bytes_be_val k Hk). congruence.
Qed.

(** ** Bit masks *)

Lemma land_ones_mod a n : 0 <= n -> Z.land a (2 ^ n - 1) = a mod 2 ^ n.
Proof.
  intros Hn. rewrite <- Z.land_ones by done. f_equal.
  rewrite Z.ones_equiv. lia.
Qed.

(** A flag in bits the value does not use is an addition. *)
Lemma lor_disjoint a n c : 0 <= n -> 0 <= a < 2 ^ n -> Z.lor a (c * 2 ^ n) = a + c * 2 ^ n.
Proof.
  intros Hn Ha. symmetry. apply Z.add_nocarry_lor.
  apply Z.bits_inj'. intros i Hi. rewrite Z.land_spec, Z.bits_0.
  rewrite <- Z.shiftl_mul_pow2 by done. rewrite Z.shiftl_spec by done.
  destruct (decide (i < n)) as [Hlt|Hge].
  - rewrite (Z.testbit_neg_r c) by lia. apply andb_false_r.
  - rewrite <- (Z.mod_small a (2 ^ n)) by done.
    rewrite Z.mod_pow2_bits_high by lia. done.
Qed.

(** ** Slices *)

Lemma slice_Ok {E A} (buf : list A) a b :
  (a <= b)%nat -> (b <= length buf)%nat ->
  slice (E:=E) buf a b = Ok (take (b - a) (drop a buf)).
Proof. intros. unfold slice. rewrite bool_decide_true by done. done. Qed.

Lemma slice_from_Ok {E A} (buf : list A) a :
  (a <= length buf)%nat -> slice_from (E:=E) buf a = Ok (drop a buf).
Proof.
  intros. unfold slice_from. rewrite slice_Ok by lia.
  f_equal. apply take_ge. rewrite length_drop. lia.
Qed.

Lemma index_Ok {E A} (buf : list A) i x :
  buf !! i = Some x -> index (E:=E) buf i = Ok x.
Proof. unfold index. by intros ->. Qed.

Lemma store_from_app {E A} (pre l old tl : list A) :
  length l = length old ->
  store_from (E:=E) (length pre) l (pre ++ old ++ tl) = Ok (pre ++ l ++ tl).
Proof.
  revert pre old. induction l as [|b l IH]; intros pre [|o old] Hlen; simpl; try done.
  rewrite bool_decide_true by (rewrite length_app; simpl; lia).
  replace (length pre) with (length pre + 0)%nat at 2 by lia.
  rewrite insert_app_r. simpl.
  specialize (IH (pre ++ [b]) old ltac:(simpl in Hlen; lia)).
  rewrite length_app in IH. simpl in IH.
  rewrite Nat.add_1_r in IH. rewrite <- !app_assoc in IH. done.
Qed.

Lemma store_from_front {E A} (l buf : list A) :
  (length l <= length buf)%nat ->
  store_from (E:=E) 0 l buf = Ok (l ++ drop (length l) buf).
Proof.
  intros Hle. rewrite <- (take_drop (length l) buf) at 1.
  apply (store_from_app []). rewrite length_take. lia.
Qed.

(** ** Chunks *)

Lemma chunks_fuel_enough {A} f1 f2 n (l : list A) :
  (0 < n)%nat -> (length l <= f1)%nat -> (length l <= f2)%nat -> chunks_fuel f1 n l = chunks_fuel f2 n l.
Proof.
  intros Hn. revert f2 l. induction f1 as [|f1 IH]; intros [|f2] [|x l] H1 H2; simpl in *; try done; try lia.
  f_equal. apply IH; rewrite length_drop; simpl; lia.
Qed.

Lemma chunks_app {A} n (p l : list A) :
  (0 < n)%nat -> length p = n -> chunks n (p ++ l) = p :: chunks n l.
Proof.
  intros Hn Hp. unfold chunks. rewrite length_app.
  assert (exists f, length p + length l = S f)%nat as [f Hf] by (exists (length p + length l - 1)%nat; lia).
  rewrite Hf. assert (p ++ l <> []) as Hne by (destruct p; simpl in *; [lia|done]).
  assert (forall m : list A, m <> [] -> chunks_fuel (S f) n m = take n m :: chunks_fuel f n (drop n m)) as Hstep
    by (by intros [|]).
  rewrite Hstep, take_app_length', drop_app_length' by done. f_equal. apply chunks_fuel_enough; lia.
Qed.

Lemma chunks_short {A} n (p : list A) : (0 < length p <= n)%nat -> chunks n p = [p].
Proof.
  intros Hp. unfold chunks. destruct p as [|x p]; [simpl in Hp; lia|]. cbn [length chunks_fuel].
  rewrite take_ge, drop_ge by (simpl in *; lia). by destruct (length p).
Qed.

(** Equal pieces and one last piece that is not longer are recovered. *)
Lemma chunks_concat {A} n (full : list (list A)) (tail : list A) :
  (0 < n)%nat -> Forall (fun p => length p = n) full -> (0 < length tail <= n)%nat ->
  chunks n (concat full ++ tail) = full ++ [tail].
Proof.
  intros Hn Hf Ht. induction Hf as [|p full Hp _ IH]; simpl; [by apply chunks_short|].
  by rewrite <- app_assoc, chunks_app, IH.
Qed.

Create HintDb masque.
#[export] Hint Resolve bytes_ok_take bytes_ok_drop be_bytes_ok : masque.
#[export] Hint Rewrite @length_app @length_take @length_drop length_be_bytes : masque_len.
Ltac solve_len := autorewrite with masque_len in *; simpl in *; lia.

Lemma zlen_app {A} (l k : list A) : zlen (l ++ k) = zlen l + zlen k.
Proof. unfold zlen. rewrite length_app. lia. Qed.
Lemma zlen_nonneg {A} (l : list A) : 0 <= zlen l.
Proof. unfold zlen. lia. Qed.
Lemma zlen_nil {A} : zlen (@nil A) = 0.
Proof. done. Qed.
Lemma zlen_cons {A} (x : A) l : zlen (x :: l) = 1 + zlen l.
Proof. unfold zlen. simpl. lia. Qed.
Lemma zlen_take {A} n (l : list A) : 0 <= n -> zlen (take (Z.to_nat n) l) <= n.
Proof. intros. unfold zlen. rewrite length_take. lia. Qed.
Lemma zlen_pos {A} (l : list A) : l <> [] -> 0 < zlen l.
Proof. destruct l; [done|]. intros _. rewrite zlen_cons. pose proof (zlen_nonneg l). lia. Qed.
#[export] Hint Rewrite @zlen_app @zlen_nil : masque_zlen.
Ltac zlens := autorewrite with masque_zlen in *.

Lemma concat_snoc {A} (ls : list (list A)) l : concat (ls ++ [l]) = concat ls ++ l.
Proof. rewrite concat_app. simpl. by rewrite app_nil_r. Qed.

(** The sum of a list. *)
Definition sum_of {A} (f : A -> Z) (l : list A) : Z := foldr (fun x n => f x + n) 0 l.

Lemma sum_of_app {A} (f : A -> Z) l k : sum_of f (l ++ k) = sum_of f l + sum_of f k.
Proof. unfold sum_of. induction l; simpl; lia. Qed.

Lemma sum_of_nonneg {A} (f : A -> Z) l : Forall (fun x => 0 <= f x) l -> 0 <= sum_of f l.
Proof. unfold sum_of. induction 1; simpl; lia. Qed.

(** [lia] on quotients and remainders by constants. *)
Ltac div_lia := Z.to_euclidean_division_equations; lia.

(** ** Loops

    A [while]/[loop] body maps the loop state to the next state ([inl]) or to
    the value the loop ends with ([inr]); an error or panic leaves it.  A loop
    that would not end within [fuel] iterations yields [Panic], so a proof that
    a loop does not panic also proves that it terminates. *)

Fixpoint loop {E S A} (fuel : nat) (body : S -> result E (S + A)) (s : S) : result E A :=
  match fuel with
  | O => Panic
  | Datatypes.S fuel' =>
      r ← body s;
      match r with inl s' => loop fuel' body s' | inr a => Ok a end
  end.

(** The loop with one more iteration than its measure allows. *)
Definition while {E S A} (m : S -> nat) (body : S -> result E (S + A)) (s : S) : result E A :=
  loop (Datatypes.S (m s)) body s.

(** What a loop that ended established, step by step. *)
Lemma while_Ok {E S A} (m : S -> nat) (body : S -> result E (S + A)) (I : S -> Prop) (P : A -> Prop) s a :
  (forall s, I s -> match body s with Ok (inl s') => I s' | Ok (inr a) => P a | _ => True end) ->
  I s -> while m body s = Ok a -> P a.
Proof.
  intros Hb. unfold while. generalize (Datatypes.S (m s)) as fuel. intros fuel. revert s.
  induction fuel as [|fuel IH]; intros s Hs; [done|]. cbn [loop]. specialize (Hb s Hs).
  destruct (body s) as [[s'|a']|e|]; cbn [mbind result_bind]; [by apply IH| |done|done]. by intros [= <-].
Qed.

Section while.
  Context {E S A : Type} (m : S -> nat) (body : S -> result E (S + A)).
  Context (Hdec : forall s s', body s = Ok (inl s') -> (m s' < m s)%nat).

Lemma loop_fuel f1 f2 s :
  (m s < f1)%nat -> (m s < f2)%nat -> loop f1 body s = loop f2 body s.
Proof.
  revert f2 s. induction f1 as [|f1 IH]; intros f2 s H1 H2; [lia|].
  destruct f2 as [|f2]; [lia|]. simpl.
  destruct (body s) as [[s'|a]|e|] eqn:Hb; simpl; [|done..].
  apply Hdec in Hb. apply IH; lia.
Qed.

(** The defining equation of the loop, free of fuel. *)
Lemma while_unfold s :
  while m body s
  = (r ← body s; match r with inl s' => while m body s' | inr a => Ok a end).
Proof.
  unfold while at 1. cbn [loop].
  destruct (body s) as [[s'|a]|e|] eqn:Hb; simpl; [|done..].
  apply Hdec in Hb. apply loop_fuel; lia.
Qed.

(** Induction over the iterations of a loop. *)
Lemma while_ind (P : S -> Prop) :
  (forall s, (forall s', body s = Ok (inl s') -> P s') -> P s) -> forall s, P s.
Proof.
  intros Hstep s. remember (m s) as n eqn:Hn. revert s Hn.
  induction n as [n IH] using lt_wf_ind. intros s ->.
  apply Hstep. intros s' Hb. eapply (IH (m s')); [by apply Hdec|done].
Qed.

Lemma while_no_panic (P : S -> Prop) :
  (forall s, P s -> body s <> Panic) ->
  (forall s s', P s -> body s = Ok (inl s') -> P s') ->
  forall s, P s -> while m body s <> Panic.
Proof.
  intros Hnp Hpres. apply (while_ind (fun s => P s -> while m body s <> Panic)).
  intros s IH HP. rewrite while_unfold.
  destruct (body s) as [[s'|a]|e|] eqn:Hb; simpl; [|done..|].
  - by apply IH; [|eapply Hpres].
  - by apply Hnp in HP.
Qed.
End while.

(** ** Postconditions

    [post m P]: [m] does not panic, and a successful result satisfies [P]. *)

Definition post {E A} (m : result E A) (P : A -> Prop) : Prop :=
  match m with Ok a => P a | Err _ => True | Panic => False end.

Lemma post_Ok {E A} (m : result E A) (P : A -> Prop) a : post m P -> m = Ok a -> P a.
Proof. by intros H ->. Qed.

Lemma post_no_panic {E A} (m : result E A) (P : A -> Prop) : post m P -> m <> Panic.
Proof. by intros H ->. Qed.

Lemma post_bind {E A B} (m : result E A) (f : A -> result E B) (P : B -> Prop) :
  post m (fun a => post (f a) P) -> post (m ≫= f) P.
Proof. by destruct m. Qed.

Lemma post_mono {E A} (m : result E A) (P Q : A -> Prop) :
  post m P -> (forall a, P a -> Q a) -> post m Q.
Proof. destruct m; simpl; auto. Qed.

Lemma post_map_err {E F A} (f : E -> F) (m : result E A) (P : A -> Prop) :
  post m P -> post (map_err f m) P.
Proof. by destruct m. Qed.

Lemma post_noerr {E A} (m : result Empty_set A) (P : A -> Prop) : post m P -> post (noerr (E:=E) m) P.
Proof. by destruct m as [|[]|]. Qed.

Lemma post_slice {E A} (l : list A) a b (P : list A -> Prop) :
  (a <= b)%nat -> (b <= length l)%nat -> P (take (b - a) (drop a l)) -> post (slice (E:=E) l a b) P.
Proof. intros. by rewrite slice_Ok. Qed.

Lemma post_slice_from {E A} (l : list A) a (P : list A -> Prop) :
  (a <= length l)%nat -> P (drop a l) -> post (slice_from (E:=E) l a) P.
Proof. intros. by rewrite slice_from_Ok. Qed.

Lemma post_index {E A} (l : list A) i (P : A -> Prop) :
  (i < length l)%nat -> (forall x, l !! i = Some x -> P x) -> post (index (E:=E) l i) P.
Proof.
  intros Hi HP. destruct (lookup_lt_is_Some_2 l i Hi) as [x Hx].
  rewrite (index_Ok _ _ _ Hx). by apply HP.
Qed.

Lemma post_while {E S A} (m : S -> nat) (body : S -> result E (S + A)) (I : S -> Prop)
    (P : A -> Prop) s :
  (forall s s', body s = Ok (inl s') -> (m s' < m s)%nat) ->
  (forall s, I s -> post (body s) (fun r => match r with inl s' => I s' | inr a => P a end)) ->
  I s -> post (while m body s) P.
Proof.
  intros Hdec Hbody. revert s. apply (while_ind m body Hdec (fun s => I s -> post (while m body s) P)).
  intros s IH HI. rewrite (while_unfold m body Hdec). apply post_bind.
  specialize (Hbody s HI). destruct (body s) as [[s'|a]|e|] eqn:Hb; simpl in *; auto.
Qed.

(** The same where only states of the invariant make progress. *)
Lemma post_while_inv {E S A} (m : S -> nat) (body : S -> result E (S + A)) (I : S -> Prop)
    (P : A -> Prop) s :
  (forall s, I s ->
     post (body s) (fun r => match r with inl s' => I s' /\ (m s' < m s)%nat | inr a => P a end)) ->
  I s -> post (while m body s) P.
Proof.
  intros Hbody HI. unfold while. generalize (Nat.lt_succ_diag_r (m s)).
  generalize (Datatypes.S (m s)) as f. intros f. revert s HI.
  induction f as [|f IH]; intros s HI Hf; [lia|]. cbn [loop]. apply post_bind.
  specialize (Hbody s HI). destruct (body s) as [[s'|a]|e|]; simpl in *; [|done..].
  apply IH; [apply Hbody|]. destruct Hbody. lia.
Qed.

Lemma slice_inv {E A} (l r : list A) a b :
  slice (E:=E) l a b = Ok r ->
  (a <= b /\ b <= length l)%nat /\ r = take (b - a) (drop a l).
Proof. unfold slice. case_bool_decide; naive_solver. Qed.

Lemma slice_no_err {E A} (l : list A) a b (e : E) : slice l a b = Err e -> False.
Proof. unfold slice. by case_bool_decide. Qed.

Lemma slice_from_inv {E A} (l r : list A) a :
  slice_from (E:=E) l a = Ok r -> (a <= length l)%nat /\ r = drop a l.
Proof.
  intros H. pose proof H as H'. apply slice_inv in H' as [[? _] _].
  rewrite slice_from_Ok in H by done. by simplify_eq.
Qed.

Lemma index_inv {E A} (l : list A) i x : index (E:=E) l i = Ok x -> l !! i = Some x.
Proof. unfold index. destruct (l !! i); simpl; congruence. Qed.

(** [inv_res] with slices, indices and guards. *)
Ltac inv_step :=
  match goal with
  | H : slice _ _ _ = Ok _ |- _ => apply slice_inv in H as [[? ?] ->]
  | H : slice_from _ _ = Ok _ |- _ => apply slice_from_inv in H as [? ->]
  | H : index _ _ = Ok _ |- _ => apply index_inv in H
  | H : (if bool_decide ?P then _ else _) = Ok _ |- _ => case_bool_decide
  | H : (if ?b then _ else _) = Ok _ |- _ => destruct b eqn:?
  | H : (let '(_, _) := ?x in _) = Ok _ |- _ => destruct x eqn:?
  end.
Ltac inv_all := inv_res; repeat (inv_step; inv_res; simplify_eq/=).

Lemma nonempty_length {A} (l : list A) : l <> [] -> (0 < length l)%nat.
Proof. destruct l; simpl; [done|lia]. Qed.

Lemma bytes_ok_lookup l i b : l !! i = Some b -> bytes_ok l -> byte_ok b.
Proof. intros Hl Hok. by apply (Forall_lookup_1 _ _ _ _ Hok Hl). Qed.

(** Forward symbolic execution of a [post] goal. *)
Ltac wp_step :=
  match goal with
  | H : _ <> [] |- post _ _ => apply nonempty_length in H
  | |- post (_ ≫= _) _ => apply post_bind
  | |- post (map_err _ _) _ => apply post_map_err
  | |- post (Ok _) _ => cbn [post]
  | |- post (Err _) _ => exact I
  | |- post (if bool_decide ?P then _ else _) _ => case_bool_decide
  | |- post (if ?b then _ else _) _ => destruct b eqn:?
  | |- post (slice_from _ _) _ => apply post_slice_from; [try solve_len|]
  | |- post (slice _ _ _) _ => apply post_slice; [try solve_len|try solve_len|]
  | |- post (index _ _) _ => apply post_index; [try solve_len|intros ? ?]
  | |- post (let '(_, _) := ?x in _) _ => destruct x eqn:?
  end.
Ltac wp := repeat wp_step.

(** Turn the lookups in the context into bounds. *)
Ltac lookup_lens :=
  repeat match goal with H : _ !! _ = Some _ |- _ => apply lookup_lt_Some in H end.

(** [errs m Q]: an error of [m] satisfies [Q]. *)
Definition errs {E A} (m : result E A) (Q : E -> Prop) : Prop :=
  match m with Err e => Q e | _ => True end.

Lemma errs_bind {E A B} (m : result E A) (f : A -> result E B) (Q : E -> Prop) :
  errs m Q -> (forall a, m = Ok a -> errs (f a) Q) -> errs (m ≫= f) Q.
Proof. destruct m; simpl; auto. Qed.

Lemma errs_map_err {E F A} (f : E -> F) (m : result E A) (Q : F -> Prop) :
  (forall e, m = Err e -> Q (f e)) -> errs (map_err f m) Q.
Proof. destruct m; simpl; auto. Qed.

Lemma errs_slice {E A} (l : list A) a b (Q : E -> Prop) : errs (slice l a b) Q.
Proof. unfold slice. by case_bool_decide. Qed.
Lemma errs_slice_from {E A} (l : list A) a (Q : E -> Prop) : errs (slice_from l a) Q.
Proof. apply errs_slice. Qed.
Lemma errs_index {E A} (l : list A) i (Q : E -> Prop) : errs (index l i) Q.
Proof. unfold index. by destruct (l !! i). Qed.

Lemma errs_while {E S A} (m : S -> nat) (body : S -> result E (S + A)) (Q : E -> Prop) s :
  (forall s s', body s = Ok (inl s') -> (m s' < m s)%nat) ->
  (forall s, errs (body s) Q) -> errs (while m body s) Q.
Proof.
  intros Hdec Hbody. revert s. apply (while_ind m body Hdec).
  intros s IH. rewrite (while_unfold m body Hdec). apply errs_bind; [done|].
  intros [s'|a] Hb; [by apply IH|done].
Qed.

Ltac errs_step :=
  match goal with
  | |- errs (_ ≫= _) _ => apply errs_bind; [|intros ? ?]
  | |- errs (map_err _ _) _ => apply errs_map_err; intros ? ?
  | |- errs (Ok _) _ => exact I
  | |- errs Panic _ => exact I
  | |- errs (Err _) _ => cbn [errs]
  | |- errs (slice_from _ _) _ => apply errs_slice_from
  | |- errs (slice _ _ _) _ => apply errs_slice
  | |- errs (index _ _) _ => apply errs_index
  | |- errs (if bool_decide ?P then _ else _) _ => case_bool_decide
  | |- errs (if ?b then _ else _) _ => destruct b eqn:?
  | |- errs (match ?x with _ => _ end) _ => destruct x
  end.
Ltac errs_tac := repeat errs_step.
