(* ===== verification/Varint.v ===== *)
(** * QUIC variable-length integers

    Models [src/varint.rs]: [decode], [encoded_len], [encode] and
    [encode_to_vec]. *)

From S2P Require Import Prelude.

Definition MAX_VALUE : Z := 2 ^ 62 - 1.

Inductive Error := BufferTooShort | Overflow.
#[global] Instance Error_eq_dec : EqDecision Error.
Proof. solve_decision. Defined.

Definition decode (buf : bytes) : result Error (Z * nat) :=
  match buf with
  | [] => Err BufferTooShort
  | first :: _ =>
      let len := Z.to_nat (Z.shiftl 1 (Z.shiftr first 6)) in
      if bool_decide (length buf < len)%nat then Err BufferTooShort
      else
        value ← match len with
          | 1%nat => Ok (Z.land first 0x3f)
          | 2%nat => b1 ← index buf 1; Ok (be_val [Z.land first 0x3f; b1])
          | 4%nat =>
              b1 ← index buf 1; b2 ← index buf 2; b3 ← index buf 3;
              Ok (be_val [Z.land first 0x3f; b1; b2; b3])
          | 8%nat =>
              b1 ← index buf 1; b2 ← index buf 2; b3 ← index buf 3;
              b4 ← index buf 4; b5 ← index buf 5; b6 ← index buf 6;
              b7 ← index buf 7;
              Ok (be_val [Z.land first 0x3f; b1; b2; b3; b4; b5; b6; b7])
          | _ => Panic
          end;
        Ok (value, len)
  end.

Definition encoded_len (value : Z) : result Error nat :=
  if bool_decide (value <= 63) then Ok 1%nat
  else if bool_decide (value <= 16383) then Ok 2%nat
  else if bool_decide (value <= 1073741823) then Ok 4%nat
  else if bool_decide (value <= MAX_VALUE) then Ok 8%nat
  else Err Overflow.

(** [bytes[0] |= flag]. *)
Definition or_first (flag : Z) (l : bytes) : bytes :=
  match l with [] => [] | b :: t => Z.lor b flag :: t end.

(** Returns the number of bytes written and the buffer after the stores. *)
Definition encode (value : Z) (buf : bytes) : result Error (nat * bytes) :=
  len ← encoded_len value;
  if bool_decide (length buf < len)%nat then Err BufferTooShort
  else
    buf' ← match len with
      | 1%nat => store_from 0 [value mod 2 ^ 8] buf
      | 2%nat => store_from 0 (or_first 0x40 (be_bytes 2 (value mod 2 ^ 16))) buf
      | 4%nat => store_from 0 (or_first 0x80 (be_bytes 4 (value mod 2 ^ 32))) buf
      | 8%nat => store_from 0 (or_first 0xc0 (be_bytes 8 value)) buf
      | _ => Panic
      end;
    Ok (len, buf').

(** Encodes into an 8-byte scratch array and appends its used prefix. *)
Definition encode_to_vec (value : Z) (vec : bytes) : result Error (nat * bytes) :=
  '(len, scratch) ← encode value (replicate 8 0);
  used ← slice scratch 0 len;
  Ok (len, vec ++ used).

(** ** The wire format

    [wire value] is the minimal encoding: the value in 1, 2, 4 or 8 bytes with
    the two-bit length tag above it. *)

Definition tag (value : Z) : Z :=
  if bool_decide (value <= 63) then 0
  else if bool_decide (value <= 16383) then 1
  else if bool_decide (value <= 1073741823) then 2 else 3.
Definition wire_len (value : Z) : nat := Z.to_nat (2 ^ tag value).
Definition wire (value : Z) : bytes :=
  be_bytes (wire_len value) (value + tag value * 2 ^ (8 * Z.of_nat (wire_len value) - 2)).

(** The length a first byte announces. *)
Definition announced (first : Z) : nat := Z.to_nat (2 ^ (first / 64)).

Definition varint_ok (value : Z) : Prop := 0 <= value <= MAX_VALUE.
#[global] Instance varint_ok_dec value : Decision (varint_ok value).
Proof. unfold varint_ok. apply _. Defined.

Lemma tag_cases value : varint_ok value ->
  (tag value = 0 /\ wire_len value = 1%nat /\ value < 2 ^ 6) \/
  (tag value = 1 /\ wire_len value = 2%nat /\ 2 ^ 6 <= value < 2 ^ 14) \/
  (tag value = 2 /\ wire_len value = 4%nat /\ 2 ^ 14 <= value < 2 ^ 30) \/
  (tag value = 3 /\ wire_len value = 8%nat /\ 2 ^ 30 <= value < 2 ^ 62).
Proof.
  unfold varint_ok, MAX_VALUE, wire_len, tag. intros.
  repeat case_bool_decide; [left|right;left|right;right;left|right;right;right];
    (split; [done|split; [done|lia]]).
Qed.

Lemma length_wire value : length (wire value) = wire_len value.
Proof. apply length_be_bytes. Qed.

#[export] Hint Rewrite length_wire : masque_len.

Lemma wire_ok value : bytes_ok (wire value).
Proof. apply be_bytes_ok. Qed.

Lemma wire_len_bounds value : (1 <= wire_len value <= 8)%nat.
Proof. unfold wire_len, tag. repeat case_bool_decide; vm_compute; lia. Qed.

Lemma encoded_len_wire value : varint_ok value -> encoded_len value = Ok (wire_len value).
Proof.
  unfold varint_ok, encoded_len, wire_len, tag. intros.
  repeat case_bool_decide; try done; lia.
Qed.

Lemma or_first_be_bytes n value k :
  0 <= k < 4 -> 0 <= value < 2 ^ (8 * Z.of_nat n + 6) ->
  or_first (k * 64) (be_bytes (S n) value)
  = be_bytes (S n) (value + k * 2 ^ (8 * Z.of_nat n + 6)).
Proof.
  intros Hk Hv. cbn [be_bytes or_first].
  assert (256 ^ Z.of_nat n = 2 ^ (8 * Z.of_nat n)) as Hpow
    by (change 256 with (2 ^ 8); rewrite <- Z.pow_mul_r by lia; done).
  assert (value + k * 2 ^ (8 * Z.of_nat n + 6)
          = k * 64 * 256 ^ Z.of_nat n + value) as -> by (rewrite Hpow, Z.pow_add_r by lia; lia).
  rewrite be_bytes_high by lia. f_equal.
  rewrite Z.div_add_l by lia.
  assert (0 <= value / 256 ^ Z.of_nat n < 64) as Hq.
  { rewrite Hpow. split; [apply Z.div_pos; lia|].
    apply Z.div_lt_upper_bound; [lia|]. rewrite Z.pow_add_r in Hv by lia. lia. }
  rewrite (Z.mod_small (value / _)) by lia.
  rewrite (Z.mod_small (k * 64 + _)) by lia.
  rewrite (lor_disjoint _ 6 k) by lia. lia.
Qed.

Lemma encode_wire value buf :
  varint_ok value -> (wire_len value <= length buf)%nat ->
  encode value buf = Ok (wire_len value, wire value ++ drop (wire_len value) buf).
Proof.
  intros Hv Hle. unfold encode. rewrite encoded_len_wire by done. cbn [mbind result_bind].
  rewrite bool_decide_false by lia.
  unfold wire, varint_ok in *.
  destruct (tag_cases value Hv) as [(Ht&Hw&?)|[(Ht&Hw&?)|[(Ht&Hw&?)|(Ht&Hw&?)]]];
    rewrite Ht, Hw in *; cbn [mbind result_bind].
  - rewrite store_from_front by done. cbn. rewrite Z.div_1_r, Z.add_0_r. done.
  - rewrite (or_first_be_bytes 1 _ 1) by (rewrite ?Z.mod_small; lia).
    rewrite store_from_front, length_be_bytes, Z.mod_small
      by (rewrite ?length_be_bytes; lia). done.
  - rewrite (or_first_be_bytes 3 _ 2) by (rewrite ?Z.mod_small; lia).
    rewrite store_from_front, length_be_bytes, Z.mod_small
      by (rewrite ?length_be_bytes; lia). done.
  - rewrite (or_first_be_bytes 7 _ 3) by lia.
    rewrite store_from_front, length_be_bytes by (rewrite ?length_be_bytes; lia). done.
Qed.

Lemma encode_to_vec_wire value vec :
  varint_ok value -> encode_to_vec value vec = Ok (wire_len value, vec ++ wire value).
Proof.
  intros Hv. unfold encode_to_vec. pose proof (wire_len_bounds value).
  rewrite encode_wire by (rewrite ?length_replicate; lia || done).
  cbn [mbind result_bind].
  rewrite slice_Ok by solve_len. cbn [mbind result_bind].
  rewrite drop_0, Nat.sub_0_r, take_app_length' by (symmetry; apply length_wire). done.
Qed.

Lemma encode_to_vec_overflow value vec :
  MAX_VALUE < value -> encode_to_vec value vec = Err Overflow.
Proof.
  unfold MAX_VALUE, encode_to_vec, encode, encoded_len. intros.
  rewrite !bool_decide_false by (unfold MAX_VALUE; lia). done.
Qed.

(** ** Decoding *)

Lemma byte_tag first : byte_ok first ->
  Z.shiftr first 6 = first / 64 /\ 0 <= first / 64 <= 3 /\ Z.land first 0x3f = first mod 64.
Proof.
  unfold byte_ok. intros. rewrite Z.shiftr_div_pow2 by lia.
  change 0x3f with (2 ^ 6 - 1). rewrite land_ones_mod by lia. change (2 ^ 6) with 64. split; [done|split; [div_lia|done]].
Qed.

Lemma announced_bounds first : byte_ok first -> (1 <= announced first <= 8)%nat.
Proof.
  intros Hb. destruct (byte_tag _ Hb) as (_ & Hk & _). unfold announced.
  assert (first / 64 = 0 \/ first / 64 = 1 \/ first / 64 = 2 \/ first / 64 = 3) as Hc by lia.
  destruct Hc as [-> | [-> | [-> | ->]]]; vm_compute; lia.
Qed.

(** What [decode] computes, on every non-empty buffer. *)
Lemma decode_cons first rest : byte_ok first ->
  decode (first :: rest)
  = if bool_decide (S (length rest) < announced first)%nat then Err BufferTooShort
    else Ok (be_val (first mod 64 :: take (announced first - 1) rest), announced first).
Proof.
  intros Hb. destruct (byte_tag _ Hb) as (Hs & Hk & Hl).
  unfold decode, announced. rewrite Hs, Hl, Z.shiftl_1_l. cbn [length].
  assert (first / 64 = 0 \/ first / 64 = 1 \/ first / 64 = 2 \/ first / 64 = 3) as Hc by lia.
  destruct Hc as [-> | [-> | [-> | ->]]];
    (match goal with |- context [Z.to_nat ?e] =>
       let v := eval vm_compute in (Z.to_nat e) in change (Z.to_nat e) with v end);
    case_bool_decide; try done;
    do 7 (try (destruct rest as [|? rest]; [simpl in *; try lia|]));
    cbn -[Z.div Z.modulo Z.mul Z.add]; rewrite ?take_0; cbn -[Z.div Z.modulo Z.mul Z.add];
    try done.
  all: repeat f_equal; lia.
Qed.

Lemma tagged_bytes n value t :
  0 <= t < 4 -> 0 <= value < 2 ^ (8 * Z.of_nat n + 6) ->
  be_bytes (S n) (value + t * 2 ^ (8 * Z.of_nat (S n) - 2))
    = (t * 64 + value / 256 ^ Z.of_nat n) :: be_bytes n value
  /\ 0 <= value / 256 ^ Z.of_nat n < 64.
Proof.
  intros Ht Hv.
  assert (256 ^ Z.of_nat n = 2 ^ (8 * Z.of_nat n)) as Hpow
    by (change 256 with (2 ^ 8); rewrite <- Z.pow_mul_r by lia; done).
  replace (8 * Z.of_nat (S n) - 2) with (6 + 8 * Z.of_nat n) by lia.
  rewrite Z.pow_add_r, <- Hpow by lia. change (2 ^ 6) with 64.
  assert (0 <= value / 256 ^ Z.of_nat n < 64) as Hq.
  { rewrite Hpow. split; [apply Z.div_pos; lia|].
    apply Z.div_lt_upper_bound; [lia|]. rewrite Z.pow_add_r in Hv by lia. lia. }
  split; [|done]. cbn [be_bytes].
  replace (value + t * (64 * 256 ^ Z.of_nat n))
    with (t * 64 * 256 ^ Z.of_nat n + value) by lia.
  rewrite be_bytes_high, Z.div_add_l, Z.mod_small by lia. done.
Qed.

Lemma wire_cons value : varint_ok value ->
  exists first n, wire_len value = S n /\
    wire value = first :: be_bytes n value /\
    byte_ok first /\ announced first = S n /\
    first mod 64 = value / 256 ^ Z.of_nat n.
Proof.
  intros Hv. unfold wire, varint_ok, byte_ok, announced in *.
  destruct (tag_cases value Hv) as [(Ht&Hw&?)|[(Ht&Hw&?)|[(Ht&Hw&?)|(Ht&Hw&?)]]];
    rewrite Ht, Hw;
    match goal with |- context [be_bytes (S ?n) (_ + ?t * _)] =>
      destruct (tagged_bytes n value t) as [-> Hq]; [lia..|];
      exists (t * 64 + value / 256 ^ Z.of_nat n), n;
      (split; [done|split; [done|]]);
      revert Hq; generalize (value / 256 ^ Z.of_nat n); intros q Hq end;
    rewrite Z.div_add_l, Z.div_small, Z.add_0_r by lia;
    (split; [lia|split; [done|]]);
    rewrite Z.add_comm, Z.mod_add, Z.mod_small by lia; done.
Qed.

Lemma decode_wire value rest :
  varint_ok value -> decode (wire value ++ rest) = Ok (value, wire_len value).
Proof.
  intros Hv. destruct (wire_cons value Hv) as (first & n & Hw & -> & Hb & Ha & Hm).
  cbn [app]. rewrite decode_cons, Ha by done.
  rewrite bool_decide_false by solve_len. simpl.
  rewrite Nat.sub_0_r, take_app_length' by (by rewrite length_be_bytes).
  rewrite be_val_cons, length_be_bytes, be_val_be_bytes, Hm, Hw.
  do 2 f_equal. rewrite Z.mul_comm, <- Z.div_mod by lia. done.
Qed.

(** A value that fits in fewer bytes has a smaller length class. *)
Lemma wire_len_le value k :
  0 <= k <= 3 -> 0 <= value < 2 ^ (8 * 2 ^ k - 2) -> (wire_len value <= Z.to_nat (2 ^ k))%nat.
Proof.
  intros Hk Hv. unfold wire_len, tag.
  assert (k = 0 \/ k = 1 \/ k = 2 \/ k = 3) as [-> | [-> | [-> | ->]]] by lia;
    simpl in Hv; repeat case_bool_decide; try lia; vm_compute; lia.
Qed.

Lemma decode_value buf value n :
  bytes_ok buf -> decode buf = Ok (value, n) ->
  varint_ok value /\ (wire_len value <= n <= 8)%nat /\ (n <= length buf)%nat.
Proof.
  intros Hok H. destruct buf as [|first buf]; [done|].
  apply bytes_ok_cons in Hok as [Hb Hok]. rewrite decode_cons in H by done.
  case_bool_decide as Hlt; simplify_eq. pose proof (announced_bounds first Hb).
  destruct (byte_tag first Hb) as (_ & Hk & _).
  assert (0 <= be_val (first mod 64 :: take (announced first - 1) buf)
          < 2 ^ (8 * 2 ^ (first / 64) - 2)) as Hv.
  { rewrite be_val_cons, length_take_le by lia.
    pose proof (be_val_bound _ (bytes_ok_take (announced first - 1) _ Hok)) as Hr.
    rewrite length_take_le in Hr by lia.
    assert (0 <= first mod 64 < 64) as Hm by (apply Z.mod_pos_bound; lia).
    revert Hr. generalize (be_val (take (announced first - 1) buf)). unfold announced.
    assert (first / 64 = 0 \/ first / 64 = 1 \/ first / 64 = 2 \/ first / 64 = 3)
      as [-> | [-> | [-> | ->]]] by lia; simpl; lia. }
  split; [|split; [split; [|lia]|simpl; lia]].
  - unfold varint_ok, MAX_VALUE.
    assert (2 ^ (8 * 2 ^ (first / 64) - 2) <= 2 ^ 62); [|lia].
    apply Z.pow_le_mono_r; [lia|].
    assert (2 ^ (first / 64) <= 2 ^ 3) by (apply Z.pow_le_mono_r; lia). lia.
  - apply wire_len_le; done.
Qed.

(** Only the announced prefix of a buffer is read. *)
Lemma decode_prefix buf value n rest :
  bytes_ok buf -> decode buf = Ok (value, n) ->
  (n <= length buf)%nat /\ decode (take n buf ++ rest) = Ok (value, n).
Proof.
  intros Hok H. destruct buf as [|first buf]; [done|].
  apply bytes_ok_cons in Hok as [Hb Hok]. rewrite decode_cons in H by done.
  case_bool_decide as Hlt; simplify_eq. pose proof (announced_bounds first Hb).
  split; [simpl; lia|].
  destruct (announced first) as [|n] eqn:Hn; [lia|]. cbn [take app].
  rewrite decode_cons, Hn by done. rewrite bool_decide_false by solve_len.
  do 3 f_equal. simpl. rewrite Nat.sub_0_r, take_app_length' by solve_len. done.
Qed.

Lemma decode_no_panic buf : bytes_ok buf -> decode buf <> Panic.
Proof.
  intros Hok. destruct buf as [|first buf]; [done|].
  apply bytes_ok_cons in Hok as [Hb Hok]. rewrite decode_cons by done. by case_bool_decide.
Qed.

Lemma decode_Err buf e : bytes_ok buf -> decode buf = Err e ->
  e = BufferTooShort /\ (length buf < 8)%nat.
Proof.
  intros Hok. destruct buf as [|first buf]; [simpl; intros; simplify_eq; split; [done|lia]|].
  apply bytes_ok_cons in Hok as [Hb Hok]. rewrite decode_cons by done.
  pose proof (announced_bounds _ Hb). case_bool_decide; intros; simplify_eq/=.
  split; [done|lia].
Qed.

(** Bytes arriving after a complete integer do not change it. *)
Lemma decode_app buf more value n :
  bytes_ok buf -> decode buf = Ok (value, n) -> decode (buf ++ more) = Ok (value, n).
Proof.
  intros Hok H. destruct (decode_prefix _ _ _ (drop n buf ++ more) Hok H) as [Hle Hd].
  by rewrite app_assoc, take_drop in Hd.
Qed.

(** [encode_to_vec] appends an encoding of every value up to 2^62 - 1 that
    [decode] reads back exactly, whatever bytes follow it, and no encoding
    that [decode] accepts for that value is shorter. *)
Theorem varint_roundtrip (value : Z) (vec rest : bytes) :
  0 <= value <= MAX_VALUE ->
  exists w, encode_to_vec value vec = Ok (length w, vec ++ w) /\
    decode (w ++ rest) = Ok (value, length w) /\
    forall buf n, bytes_ok buf -> decode buf = Ok (value, n) -> (length w <= n)%nat.
Proof.
  intros Hv. exists (wire value). rewrite length_wire.
  split; [by apply encode_to_vec_wire|split; [by apply decode_wire|]].
  intros buf n Hok H. destruct (decode_value _ _ _ Hok H) as (_ & ? & _). lia.
Qed.

Lemma varint_roundtrip_witness :
  exists w, encode_to_vec 15293 [7] = Ok (length w, [7] ++ w) /\
    decode (w ++ [1; 2]) = Ok (15293, length w) /\
    forall buf n, bytes_ok buf -> decode buf = Ok (15293, n) -> (length w <= n)%nat.
Proof. apply (varint_roundtrip 15293 [7] [1; 2]). unfold MAX_VALUE. lia. Defined.

(** On any byte string [decode] does not panic; it fails, with
    [BufferTooShort], exactly when the string is empty or shorter than its
    first byte announces; and a success consumes only bytes that are there,
    yields a value that fits 62 bits, and depends on the consumed bytes alone. *)
Theorem varint_decode_total (buf : bytes) :
  bytes_ok buf ->
  match decode buf with
  | Panic => False
  | Err e => e = BufferTooShort /\
      match buf with [] => True | b :: _ => (length buf < announced b)%nat end
  | Ok (value, n) => 0 <= value <= MAX_VALUE /\ (1 <= n <= length buf)%nat /\
      forall rest, decode (take n buf ++ rest) = Ok (value, n)
  end.
Proof.
  intros Hok. destruct (decode buf) as [[value n]|e|] eqn:H.
  - destruct (decode_value _ _ _ Hok H) as (? & ? & ?).
    pose proof (wire_len_bounds value). split; [done|split; [lia|]].
    intros rest. by apply (decode_prefix buf value n rest).
  - destruct buf as [|b buf]; [simpl in H; by simplify_eq|].
    apply bytes_ok_cons in Hok as [Hb Hok]. rewrite decode_cons in H by done.
    case_bool_decide; by simplify_eq.
  - by apply (decode_no_panic buf).
Qed.

Lemma varint_decode_total_witness :
  bytes_ok [0x7b; 0xbd; 9] /\ decode [0x7b; 0xbd; 9] = Ok (15293, 2%nat) /\
  match decode [0x7b; 0xbd; 9] with
  | Panic => False
  | Err e => e = BufferTooShort /\ (3 < announced 0x7b)%nat
  | Ok (value, n) => 0 <= value <= MAX_VALUE /\ (1 <= n <= 3)%nat /\
      forall rest, decode (take n [0x7b; 0xbd; 9] ++ rest) = Ok (value, n)
  end.
Proof.
  assert (bytes_ok [0x7b; 0xbd; 9]) as Hok by (by apply (bool_decide_unpack _)).
  split; [done|split; [reflexivity|]].
  exact (varint_decode_total [0x7b; 0xbd; 9] Hok).
Defined.

(** Later files reason about encodings through the lemmas above. *)
#[global] Opaque be_bytes be_val wire wire_len.
#[global] Arguments Z.pow : simpl never.
