(* ===== verification/Net.v ===== *)
(** * Addresses of the Rust standard library

    Models what the server uses of [std::net]: [IpAddr], [SocketAddr] and their
    predicates and conversions.  An address is its integer value. *)

From S2P Require Import Prelude.

Inductive IpAddr := IpV4 (ip : Z) | IpV6 (ip : Z).

#[global] Instance IpAddr_eq_dec : EqDecision IpAddr.
Proof. solve_decision. Defined.
#[global] Program Instance IpAddr_countable : Countable IpAddr :=
  inj_countable' (fun a => match a with IpV4 z => inl z | IpV6 z => inr z end)
    (fun s => match s with inl z => IpV4 z | inr z => IpV6 z end) _.
Next Obligation. by intros []. Qed.

Definition ipaddr_ok (a : IpAddr) : Prop :=
  match a with IpV4 z => 0 <= z < 2 ^ 32 | IpV6 z => 0 <= z < 2 ^ 128 end.
#[global] Instance ipaddr_ok_dec a : Decision (ipaddr_ok a).
Proof. destruct a; simpl; apply _. Defined.

Definition is_ipv4 (a : IpAddr) : bool := match a with IpV4 _ => true | IpV6 _ => false end.
Definition is_ipv6 (a : IpAddr) : bool := negb (is_ipv4 a).

Definition UNSPECIFIED_V4 : IpAddr := IpV4 0.
Definition UNSPECIFIED_V6 : IpAddr := IpV6 0.

(** [Ipv6Addr::to_ipv4_mapped]: the addresses [::ffff:a.b.c.d]. *)
Definition to_ipv4_mapped (v6 : Z) : option Z :=
  if bool_decide (v6 / 2 ^ 32 = 0xffff) then Some (v6 mod 2 ^ 32) else None.

(** [IpAddr::to_canonical]. *)
Definition to_canonical (a : IpAddr) : IpAddr :=
  match a with
  | IpV4 z => IpV4 z
  | IpV6 z => match to_ipv4_mapped z with Some v4 => IpV4 v4 | None => IpV6 z end
  end.

(** [Ipv4Addr::to_ipv6_mapped]. *)
Definition to_ipv6_mapped (v4 : Z) : Z := 0xffff * 2 ^ 32 + v4.

Definition is_unspecified (a : IpAddr) : bool :=
  match a with IpV4 z => bool_decide (z = 0) | IpV6 z => bool_decide (z = 0) end.

(** 127.0.0.0/8 and ::1. *)
Definition is_loopback (a : IpAddr) : bool :=
  match a with
  | IpV4 z => bool_decide (z / 2 ^ 24 = 127)
  | IpV6 z => bool_decide (z = 1)
  end.

(** fe80::/10. *)
Definition is_unicast_link_local (v6 : Z) : bool :=
  bool_decide (Z.land (v6 / 2 ^ 112) 0xffc0 = 0xfe80).

Definition ip_octets (a : IpAddr) : bytes :=
  match a with IpV4 z => be_bytes 4 z | IpV6 z => be_bytes 16 z end.

Inductive SocketAddr :=
| SockV4 (ip port : Z)
| SockV6 (ip port flowinfo scope_id : Z).

#[global] Instance SocketAddr_eq_dec : EqDecision SocketAddr.
Proof. solve_decision. Defined.

Definition sock_ip (s : SocketAddr) : IpAddr :=
  match s with SockV4 ip _ => IpV4 ip | SockV6 ip _ _ _ => IpV6 ip end.
Definition sock_port (s : SocketAddr) : Z :=
  match s with SockV4 _ p => p | SockV6 _ p _ _ => p end.

(** [SocketAddr::new(ip, port)]. *)
Definition sock_new (ip : IpAddr) (port : Z) : SocketAddr :=
  match ip with IpV4 z => SockV4 z port | IpV6 z => SockV6 z port 0 0 end.

Definition port_ok (p : Z) : Prop := 0 <= p < 2 ^ 16.

Definition socket_ok (s : SocketAddr) : Prop :=
  ipaddr_ok (sock_ip s) /\ port_ok (sock_port s) /\
  match s with
  | SockV4 _ _ => True
  | SockV6 _ _ flow scope => 0 <= flow < 2 ^ 32 /\ 0 <= scope < 2 ^ 32
  end.

(** ** Facts *)

Lemma to_ipv4_mapped_spec v6 v4 :
  0 <= v4 < 2 ^ 32 -> to_ipv4_mapped v6 = Some v4 <-> v6 = to_ipv6_mapped v4.
Proof.
  intros Hv. unfold to_ipv4_mapped, to_ipv6_mapped. case_bool_decide as Hd.
  - split; [intros [= <-]|intros ->].
    + rewrite (Z.div_mod v6 (2 ^ 32)) at 1 by lia. lia.
    + rewrite Z.add_comm, Z.mod_add, Z.mod_small by lia. done.
  - split; [done|]. intros ->. destruct Hd.
    rewrite Z.div_add_l, Z.div_small by lia. lia.
Qed.

Lemma to_canonical_ok a : ipaddr_ok a -> ipaddr_ok (to_canonical a).
Proof.
  destruct a as [z|z]; simpl; [done|]. unfold to_ipv4_mapped.
  case_bool_decide; simpl; [|done]. intros. apply Z.mod_pos_bound. lia.
Qed.

Lemma to_canonical_idem a : to_canonical (to_canonical a) = to_canonical a.
Proof. destruct a as [z|z]; simpl; [done|]. by destruct (to_ipv4_mapped z) eqn:H; simpl; rewrite ?H. Qed.

Lemma to_canonical_mapped v4 :
  0 <= v4 < 2 ^ 32 -> to_canonical (IpV6 (to_ipv6_mapped v4)) = IpV4 v4.
Proof.
  intros. simpl. by rewrite (proj2 (to_ipv4_mapped_spec _ v4 ltac:(done)) eq_refl).
Qed.

(** ** Networks of the ipnet crate

    [Ipv4Net] and [Ipv6Net] are a third-party crate's.  The server uses the
    operations of [NetOps]; [NetLaws] states their documented behaviour for
    addresses of [w] bits.  [Cidr] is a concrete implementation. *)

Class NetOps (net : Type) := {
  network : net -> Z;
  netmask : net -> Z;
  prefix : net -> Z;
  contains : net -> Z -> bool;
}.

Class NetLaws (w : Z) (net : Type) {ops : NetOps net} : Prop := {
  prefix_range : forall n : net, 0 <= prefix n <= w;
  netmask_spec : forall n : net, netmask n = 2 ^ w - 2 ^ (w - prefix n);
  network_range : forall n : net, 0 <= network n < 2 ^ w;
  network_aligned : forall n : net, (2 ^ (w - prefix n) | network n);
  contains_spec : forall (n : net) a, 0 <= a < 2 ^ w ->
    contains n a = true <-> network n <= a < network n + 2 ^ (w - prefix n);
}.

(** The size of the host part. *)
Definition host_size (w : Z) {net} `{NetOps net} (n : net) : Z := 2 ^ (w - prefix n).

Section net_facts.
  Context (w : Z) {net : Type} `{NetLaws w net}.

Lemma host_size_pos (n : net) : 0 < host_size w n.
Proof. unfold host_size. pose proof (prefix_range n). apply Z.pow_pos_nonneg; lia. Qed.

(** The host bits of the mask's complement. *)
Lemma host_mask_spec (n : net) : 2 ^ w - 1 - netmask n = host_size w n - 1.
Proof. rewrite netmask_spec. unfold host_size. lia. Qed.

Lemma network_end (n : net) : network n + host_size w n <= 2 ^ w.
Proof.
  pose proof (network_range n) as Hn. pose proof (prefix_range n) as Hp.
  destruct (network_aligned n) as [q Hq].
  pose proof (host_size_pos n) as Hpos. unfold host_size in *.
  assert (2 ^ w = 2 ^ prefix n * 2 ^ (w - prefix n)) as Hw
    by (rewrite <- Z.pow_add_r by lia; f_equal; lia).
  rewrite Hq, Hw in Hn |- *. destruct Hn as [_ Hn].
  apply Z.mul_lt_mono_pos_r in Hn; [|done].
  rewrite <- (Z.mul_1_l (2 ^ (w - prefix n))) at 2. rewrite <- Z.mul_add_distr_r.
  apply Z.mul_le_mono_nonneg_r; lia.
Qed.

(** [network | offset] for an offset in the host part. *)
Lemma network_lor (n : net) o :
  0 <= o < host_size w n -> Z.lor (network n) o = network n + o.
Proof.
  intros Ho. destruct (network_aligned n) as [q Hq]. rewrite Hq.
  pose proof (prefix_range n). unfold host_size in Ho.
  rewrite Z.lor_comm, lor_disjoint by lia. lia.
Qed.

Lemma contains_offset (n : net) o :
  0 <= o < host_size w n -> contains n (network n + o) = true.
Proof.
  intros Ho. pose proof (network_range n). pose proof (network_end n).
  apply contains_spec; [lia|]. unfold host_size in *. lia.
Qed.
End net_facts.

(** Addresses with a prefix length, of at most [w] bits. *)
Record Cidr := { cidr_addr : Z; cidr_len : Z }.
#[global] Instance Cidr_eq_dec : EqDecision Cidr.
Proof. solve_decision. Defined.

Definition cidr_ops (w : Z) : NetOps Cidr := {|
  prefix n := Z.max 0 (Z.min w (cidr_len n));
  netmask n := 2 ^ w - 2 ^ (w - Z.max 0 (Z.min w (cidr_len n)));
  network n := let s := 2 ^ (w - Z.max 0 (Z.min w (cidr_len n))) in
               cidr_addr n mod 2 ^ w / s * s;
  contains n a := let s := 2 ^ (w - Z.max 0 (Z.min w (cidr_len n))) in
               bool_decide (a / s = cidr_addr n mod 2 ^ w / s);
|}.

Lemma cidr_laws w : 0 <= w -> NetLaws w Cidr (ops:=cidr_ops w).
Proof.
  intros Hw.
  assert (forall n, 0 < 2 ^ (w - Z.max 0 (Z.min w (cidr_len n)))) as Hs
    by (intros; apply Z.pow_pos_nonneg; lia).
  assert (forall n, 0 <= cidr_addr n mod 2 ^ w < 2 ^ w) as Ha
    by (intros; apply Z.mod_pos_bound, Z.pow_pos_nonneg; lia).
  split; intros n; simpl; specialize (Hs n); specialize (Ha n).
  - lia.
  - done.
  - set (s := 2 ^ _) in *. set (a := cidr_addr n mod 2 ^ w) in *.
    pose proof (Z.mul_div_le a s Hs). pose proof (Z.div_pos a s ltac:(lia) Hs). nia.
  - exists (cidr_addr n mod 2 ^ w / 2 ^ (w - Z.max 0 (Z.min w (cidr_len n)))). done.
  - intros a Har. set (s := 2 ^ _) in *. set (b := cidr_addr n mod 2 ^ w) in *.
    rewrite bool_decide_eq_true. split.
    + intros <-. pose proof (Z.div_mod a s ltac:(lia)). pose proof (Z.mod_pos_bound a s Hs). nia.
    + intros Hin. symmetry. apply (Z.div_unique_pos a s _ (a - b / s * s)); lia.
Qed.

(** The two families as types of their own. *)
#[global] Instance ops4 : NetOps Cidr := cidr_ops 32.
#[global] Instance laws4 : NetLaws 32 Cidr := cidr_laws 32 ltac:(lia).

Record Cidr6 := { cidr6 : Cidr }.
#[global] Instance ops6 : NetOps Cidr6 := {|
  network n := @network _ (cidr_ops 128) (cidr6 n);
  netmask n := @netmask _ (cidr_ops 128) (cidr6 n);
  prefix n := @prefix _ (cidr_ops 128) (cidr6 n);
  contains n := @contains _ (cidr_ops 128) (cidr6 n) |}.
#[global] Instance laws6 : NetLaws 128 Cidr6.
Proof.
  destruct (cidr_laws 128 ltac:(lia)) as [H1 H2 H3 H4 H5].
  split; intros n; simpl; [apply (H1 (cidr6 n))|apply (H2 (cidr6 n))|apply (H3 (cidr6 n))
    |apply (H4 (cidr6 n))|apply (H5 (cidr6 n))].
Qed.
