(* ===== verification/AddrText.v ===== *)
(** * Textual addresses of the Rust standard library

    [str::parse] for [Ipv4Addr], [Ipv6Addr] and the unsigned integers, on the
    bytes of a string.  The parsers follow the standard library's: maximal runs
    of digits, no leading zero in a decimal octet, at most one [::] and an
    embedded IPv4 address only at the end. *)

From S2P Require Import Prelude Net.

(** A parser consumes a prefix of the text. *)
Definition parser (A : Type) : Type := bytes -> option (A * bytes).

(** [char::to_digit] for radix 10 and 16. *)
Definition to_digit (radix c : Z) : option Z :=
  let d := if bool_decide (48 <= c <= 57) then Some (c - 48)
           else if bool_decide (97 <= c <= 102) then Some (c - 97 + 10)
           else if bool_decide (65 <= c <= 70) then Some (c - 65 + 10)
           else None in
  match d with
  | Some v => if bool_decide (v < radix) then Some v else None
  | None => None
  end.

(** The maximal run of digits at the front. *)
Fixpoint span_digits (radix : Z) (text : bytes) : list Z * bytes :=
  match text with
  | [] => ([], [])
  | c :: rest =>
      match to_digit radix c with
      | Some d => let '(ds, rest') := span_digits radix rest in (d :: ds, rest')
      | None => ([], text)
      end
  end.

Definition digits_value (radix : Z) (ds : list Z) : Z :=
  fold_left (fun acc d => acc * radix + d) ds 0.

(** [read_number]: between one and [max_digits] digits, no value above [top]. *)
Definition read_number (radix : Z) (max_digits : nat) (allow_zero_prefix : bool) (top : Z)
    : parser Z := fun text =>
  let '(ds, rest) := span_digits radix text in
  if bool_decide (ds = []) then None
  else if bool_decide (max_digits < length ds)%nat then None
  else if negb allow_zero_prefix && bool_decide (head ds = Some 0)
          && bool_decide (1 < length ds)%nat then None
  else if bool_decide (top < digits_value radix ds) then None
  else Some (digits_value radix ds, rest).

Definition read_given_char (c : Z) : parser unit := fun text =>
  match text with
  | x :: rest => if bool_decide (x = c) then Some (tt, rest) else None
  | [] => None
  end.

(** [read_separator]: the separator before every element but the first. *)
Definition read_separator {A} (sep : Z) (index : nat) (inner : parser A) : parser A := fun text =>
  if bool_decide (index = 0%nat) then inner text
  else match read_given_char sep text with
       | Some (_, rest) => inner rest
       | None => None
       end.

Definition DOT : Z := 46.
Definition COLON : Z := 58.

Fixpoint read_octets (n index : nat) (acc : Z) : parser Z := fun text =>
  match n with
  | O => Some (acc, text)
  | S n' =>
      match read_separator DOT index (read_number 10 3 false 255) text with
      | Some (octet, rest) => read_octets n' (S index) (acc * 256 + octet) rest
      | None => None
      end
  end.

Definition read_ipv4_addr : parser Z := read_octets 4 0 0.

(** [read_groups]: up to [limit] 16-bit groups; the flag says that an IPv4
    address was read as the last two. *)
Fixpoint read_groups (n limit index : nat) (text : bytes) : list Z * bool * bytes :=
  match n with
  | O => ([], false, text)
  | S n' =>
      let v4 := if bool_decide (index < limit - 1)%nat
                then read_separator COLON index read_ipv4_addr text else None in
      match v4 with
      | Some (a, rest) => ([a / 2 ^ 16; a mod 2 ^ 16], true, rest)
      | None =>
          match read_separator COLON index (read_number 16 4 true 0xffff) text with
          | Some (g, rest) =>
              let '(gs, v4, rest') := read_groups n' limit (S index) rest in
              (g :: gs, v4, rest')
          | None => ([], false, text)
          end
      end
  end.

(** Eight groups as one 128-bit value. *)
Definition groups_value (gs : list Z) : Z := fold_left (fun acc g => acc * 2 ^ 16 + g) gs 0.

Definition read_ipv6_addr : parser Z := fun text =>
  let '(head_, head_ipv4, rest) := read_groups 8 8 0 text in
  if bool_decide (length head_ = 8%nat) then Some (groups_value head_, rest)
  else if (head_ipv4 : bool) then None
  else match read_given_char COLON rest with
  | None => None
  | Some (_, rest) =>
      match read_given_char COLON rest with
      | None => None
      | Some (_, rest) =>
          let limit := (8 - (length head_ + 1))%nat in
          let '(tail_, _, rest) := read_groups limit limit 0 rest in
          Some (groups_value (head_ ++ replicate (8 - length head_ - length tail_) 0 ++ tail_), rest)
      end
  end.

(** [parse_with]: the parser must consume the whole text. *)
Definition parse_all {A} (p : parser A) (text : bytes) : option A :=
  match p text with Some (a, []) => Some a | _ => None end.

Definition parse_ipv4 (text : bytes) : option Z :=
  if bool_decide (15 < length text)%nat then None else parse_all read_ipv4_addr text.
Definition parse_ipv6 (text : bytes) : option Z := parse_all read_ipv6_addr text.
Definition parse_ip (text : bytes) : option IpAddr :=
  match parse_ipv4 text with
  | Some z => Some (IpV4 z)
  | None => IpV6 <$> parse_ipv6 text
  end.

(** [str::parse] for an unsigned integer up to [top]: an optional [+], then
    one or more decimal digits. *)
Definition parse_uint (top : Z) (text : bytes) : option Z :=
  let digits := match text with 43 :: rest => rest | _ => text end in
  let '(ds, rest) := span_digits 10 digits in
  if bool_decide (ds = []) || negb (bool_decide (rest = [])) then None
  else if bool_decide (top < digits_value 10 ds) then None
  else Some (digits_value 10 ds).

(** ** Parsed addresses are addresses *)

Lemma span_digits_range radix text : Forall (fun d => 0 <= d < radix) (span_digits radix text).1.
Proof.
  induction text as [|c text IH]; simpl; [constructor|].
  unfold to_digit. repeat case_bool_decide; simpl; try constructor;
    destruct (span_digits radix text); constructor; (lia || done).
Qed.

Lemma digits_value_nonneg radix ds :
  0 <= radix -> Forall (fun d => 0 <= d < radix) ds -> 0 <= digits_value radix ds.
Proof.
  intros Hr Hds. unfold digits_value.
  enough (forall acc, 0 <= acc -> 0 <= fold_left (fun acc d => acc * radix + d) ds acc) as H
    by (by apply H).
  induction Hds as [|d ds Hd Hds IH]; intros acc Hacc; simpl; [done|]. apply IH. nia.
Qed.

Lemma read_number_range radix n z top text v rest :
  0 <= radix -> read_number radix n z top text = Some (v, rest) -> 0 <= v <= top.
Proof.
  intros Hr. unfold read_number. pose proof (span_digits_range radix text) as Hds.
  destruct (span_digits radix text) as [ds r]; simpl in Hds.
  repeat (case_bool_decide; try done); simpl; repeat (destruct z; simpl; try done);
    repeat (case_bool_decide; simpl; try done); intros; simplify_eq;
    pose proof (digits_value_nonneg radix ds Hr Hds); lia.
Qed.

Lemma read_separator_inner {A} sep i (p : parser A) text r :
  read_separator sep i p text = Some r -> exists text', p text' = Some r.
Proof.
  unfold read_separator. case_bool_decide; [eauto|].
  destruct (read_given_char sep text) as [[? ?]|]; [eauto|done].
Qed.

Lemma read_ipv4_range text v rest : read_ipv4_addr text = Some (v, rest) -> 0 <= v < 2 ^ 32.
Proof.
  unfold read_ipv4_addr.
  enough (forall n i acc text, 0 <= acc -> read_octets n i acc text = Some (v, rest) ->
    0 <= v < (acc + 1) * 256 ^ Z.of_nat n) as H by (intros E; by apply (H 4%nat) in E).
  clear text. induction n as [|n IH]; intros i acc text Hacc; cbn [read_octets].
  { intros. simplify_eq. rewrite Z.pow_0_r. lia. }
  destruct (read_separator DOT i _ text) as [[o r]|] eqn:Ho; [|done].
  apply read_separator_inner in Ho as [t' Ho]. apply read_number_range in Ho; [|lia].
  intros E. apply IH in E; [|lia]. rewrite Nat2Z.inj_succ, Z.pow_succ_r by lia.
  pose proof (Z.pow_pos_nonneg 256 (Z.of_nat n)). nia.
Qed.

Definition group_ok (g : Z) : Prop := 0 <= g < 2 ^ 16.

Lemma read_groups_range n limit i text :
  let '(gs, _, _) := read_groups n limit i text in
  Forall group_ok gs /\ (i + n <= limit -> i + length gs <= limit)%nat.
Proof.
  revert i text. induction n as [|n IH]; intros i text; cbn [read_groups]; [by split; [constructor|simpl; lia]|].
  case_bool_decide as Hi.
  - destruct (read_separator COLON i read_ipv4_addr text) as [[a r]|] eqn:H4.
    { apply read_separator_inner in H4 as [t' H4]. apply read_ipv4_range in H4.
      split; [|simpl; lia]. unfold group_ok. repeat constructor; div_lia. }
    destruct (read_separator COLON i (read_number 16 4 true 0xffff) text) as [[g r]|] eqn:Hg;
      [|split; [constructor|simpl; lia]].
    apply read_separator_inner in Hg as [t' Hg]. apply read_number_range in Hg; [|lia].
    specialize (IH (S i) r). destruct (read_groups n limit (S i) r) as [[gs v4] r'].
    destruct IH as [IH1 IH2]. split; [constructor; [unfold group_ok; lia|done]|simpl; lia].
  - destruct (read_separator COLON i (read_number 16 4 true 0xffff) text) as [[g r]|] eqn:Hg;
      [|split; [constructor|simpl; lia]].
    apply read_separator_inner in Hg as [t' Hg]. apply read_number_range in Hg; [|lia].
    specialize (IH (S i) r). destruct (read_groups n limit (S i) r) as [[gs v4] r'].
    destruct IH as [IH1 IH2]. split; [constructor; [unfold group_ok; lia|done]|simpl; lia].
Qed.

Lemma groups_value_range gs :
  Forall group_ok gs -> 0 <= groups_value gs < 2 ^ (16 * Z.of_nat (length gs)).
Proof.
  intros Hgs. unfold groups_value.
  enough (forall acc, 0 <= acc -> 0 <= fold_left (fun acc g => acc * 2 ^ 16 + g) gs acc
     < (acc + 1) * 2 ^ (16 * Z.of_nat (length gs))) as H by (specialize (H 0); lia).
  induction Hgs as [|g gs Hg Hgs IH]; intros acc Hacc; cbn [fold_left length].
  { rewrite Z.mul_0_r, Z.pow_0_r. lia. }
  unfold group_ok in Hg. specialize (IH (acc * 2 ^ 16 + g) ltac:(lia)).
  replace (16 * Z.of_nat (S (length gs))) with (16 + 16 * Z.of_nat (length gs)) by lia.
  rewrite Z.pow_add_r by lia. pose proof (Z.pow_pos_nonneg 2 (16 * Z.of_nat (length gs))). nia.
Qed.

Lemma read_ipv6_range text v rest : read_ipv6_addr text = Some (v, rest) -> 0 <= v < 2 ^ 128.
Proof.
  unfold read_ipv6_addr. pose proof (read_groups_range 8 8 0 text) as Hh.
  destruct (read_groups 8 8 0 text) as [[gs v4] r]. destruct Hh as [Hgs Hlen].
  case_bool_decide as H8.
  { intros. simplify_eq. pose proof (groups_value_range gs Hgs) as Hv. by rewrite H8 in Hv. }
  destruct v4; [done|].
  destruct (read_given_char COLON r) as [[_ r1]|]; [|done].
  destruct (read_given_char COLON r1) as [[_ r2]|]; [|done].
  pose proof (read_groups_range (8 - (length gs + 1)) (8 - (length gs + 1)) 0 r2) as Ht.
  destruct (read_groups _ _ 0 r2) as [[ts v4] r3]. destruct Ht as [Hts Htl].
  intros. simplify_eq.
  set (all := gs ++ replicate (8 - length gs - length ts) 0 ++ ts).
  assert (Forall group_ok all) as Hall.
  { apply Forall_app; split; [done|]. apply Forall_app; split; [|done].
    apply Forall_replicate. unfold group_ok. lia. }
  pose proof (groups_value_range all Hall) as Hv.
  replace (length all) with 8%nat in Hv by (unfold all; rewrite !length_app, length_replicate; lia).
  done.
Qed.

Lemma parse_all_Some {A} (p : parser A) text a : parse_all p text = Some a -> exists r, p text = Some (a, r).
Proof. unfold parse_all. repeat case_match; naive_solver. Qed.

Lemma parse_ipv4_ok text v : parse_ipv4 text = Some v -> 0 <= v < 2 ^ 32.
Proof.
  unfold parse_ipv4. case_bool_decide; [done|]. intros (r & Hr)%parse_all_Some.
  by eapply read_ipv4_range.
Qed.

Lemma parse_ipv6_ok text v : parse_ipv6 text = Some v -> 0 <= v < 2 ^ 128.
Proof. intros (r & Hr)%parse_all_Some. by eapply read_ipv6_range. Qed.

Lemma parse_ip_ok text a : parse_ip text = Some a -> ipaddr_ok a.
Proof.
  unfold parse_ip. destruct (parse_ipv4 text) as [z|] eqn:H4.
  - intros. simplify_eq. by apply parse_ipv4_ok in H4.
  - destruct (parse_ipv6 text) as [z|] eqn:H6; [|done]. intros. simplify_eq/=.
    by apply parse_ipv6_ok in H6.
Qed.
