(* ===== verification/Capsule.v ===== *)
(** * Capsule protocol codec

    Models [src/capsule/mod.rs] (frames), [src/capsule/encoder.rs] and
    [src/capsule/decoder.rs] (the buffered decoder and the value parsers). *)

From stdpp Require Import strings pretty sorting.
From S2P Require Import Prelude Varint.
Open Scope Z_scope.

(** ** Frames *)

Definition CAPSULE_DATAGRAM : Z := 0x00.
Definition CAPSULE_ADDRESS_ASSIGN : Z := 0x01.
Definition CAPSULE_ADDRESS_REQUEST : Z := 0x02.
Definition CAPSULE_ROUTE_ADVERTISEMENT : Z := 0x03.

(** Addresses are their integer values, 32 and 128 bits wide. *)
Inductive IpAddress := V4 (ip : Z) | V6 (ip : Z).

Record AssignedAddress := {
  request_id : Z;
  ip : IpAddress;
  prefix_len : Z;
}.

Record IpAddressRange := {
  start : IpAddress;
  end_ : IpAddress;
  ip_protocol : Z;
}.

Inductive CapsuleFrame :=
| Datagram (payload : bytes)
| AddressAssign (addrs : list AssignedAddress)
| AddressRequest (addrs : list AssignedAddress)
| RouteAdvertisement (ranges : list IpAddressRange)
| Unknown (capsule_type : Z) (value : bytes).

#[global] Instance IpAddress_eq_dec : EqDecision IpAddress.
Proof. solve_decision. Defined.
#[global] Instance AssignedAddress_eq_dec : EqDecision AssignedAddress.
Proof. solve_decision. Defined.
#[global] Instance IpAddressRange_eq_dec : EqDecision IpAddressRange.
Proof. solve_decision. Defined.
#[global] Instance CapsuleFrame_eq_dec : EqDecision CapsuleFrame.
Proof. solve_decision. Defined.

(** ** Encoder: each function appends to [buf] *)

(** [varint::encode_to_vec(v, buf).expect(..)]. *)
Definition push_varint {E} (v : Z) (buf : bytes) : result E bytes :=
  match encode_to_vec v buf with Ok (_, buf') => Ok buf' | _ => Panic end.

Definition encode_raw {E} (capsule_type : Z) (value buf : bytes) : result E bytes :=
  buf ← push_varint capsule_type buf;
  buf ← push_varint (Z.of_nat (length value)) buf;
  Ok (buf ++ value).

Definition encode_assigned_address {E} (addr : AssignedAddress) (value : bytes)
    : result E bytes :=
  value ← push_varint (request_id addr) value;
  let value := match ip addr with
    | V4 v4 => value ++ [4] ++ be_bytes 4 v4
    | V6 v6 => value ++ [6] ++ be_bytes 16 v6
    end in
  Ok (value ++ [prefix_len addr]).

Fixpoint encode_assigned_addresses_onto {E} (addrs : list AssignedAddress) (value : bytes)
    : result E bytes :=
  match addrs with
  | [] => Ok value
  | addr :: addrs' =>
      value ← encode_assigned_address addr value;
      encode_assigned_addresses_onto addrs' value
  end.
Definition encode_assigned_addresses {E} (addrs : list AssignedAddress) : result E bytes :=
  encode_assigned_addresses_onto addrs [].

Definition encode_address_range {E} (range : IpAddressRange) (value : bytes)
    : result E bytes :=
  value ← match start range, end_ range with
    | V4 s, V4 e => Ok (value ++ [4] ++ be_bytes 4 s ++ be_bytes 4 e)
    | V6 s, V6 e => Ok (value ++ [6] ++ be_bytes 16 s ++ be_bytes 16 e)
    | _, _ => Panic
    end;
  Ok (value ++ [ip_protocol range]).

Fixpoint encode_address_ranges_onto {E} (ranges : list IpAddressRange) (value : bytes)
    : result E bytes :=
  match ranges with
  | [] => Ok value
  | range :: ranges' =>
      value ← encode_address_range range value;
      encode_address_ranges_onto ranges' value
  end.
Definition encode_address_ranges {E} (ranges : list IpAddressRange) : result E bytes :=
  encode_address_ranges_onto ranges [].

Definition encode {E} (frame : CapsuleFrame) (buf : bytes) : result E bytes :=
  match frame with
  | Datagram payload => encode_raw CAPSULE_DATAGRAM payload buf
  | AddressAssign addrs =>
      value ← encode_assigned_addresses addrs;
      encode_raw CAPSULE_ADDRESS_ASSIGN value buf
  | AddressRequest addrs =>
      value ← encode_assigned_addresses addrs;
      encode_raw CAPSULE_ADDRESS_REQUEST value buf
  | RouteAdvertisement ranges =>
      value ← encode_address_ranges ranges;
      encode_raw CAPSULE_ROUTE_ADVERTISEMENT value buf
  | Unknown capsule_type value => encode_raw capsule_type value buf
  end.

Definition encode_datagram {E} (payload buf : bytes) : result E bytes :=
  encode_raw CAPSULE_DATAGRAM payload buf.

Definition encode_datagram_context_zero {E} (payload buf : bytes) : result E bytes :=
  buf ← push_varint CAPSULE_DATAGRAM buf;
  buf ← push_varint (Z.of_nat (length payload) + 1) buf;
  Ok (buf ++ [0] ++ payload).

(** ** Decoder errors *)

Inductive DecodeError :=
| Incomplete
| Malformed (msg : string)
| TooLarge (length : Z) (max : Z).
#[global] Instance DecodeError_eq_dec : EqDecision DecodeError.
Proof. solve_decision. Defined.

(** ** Value parsers

    [buf] is the unread rest of the value; an iteration of each [while] loop
    reads one entry. *)

Definition valid_prefix (addr : IpAddress) (prefix_len : Z) : bool :=
  match addr with
  | V4 ip => bool_decide (prefix_len <= 32)
      && (bool_decide (prefix_len = 32)
          || bool_decide (Z.land ip (Z.shiftr U32_MAX prefix_len) = 0))
  | V6 ip => bool_decide (prefix_len <= 128)
      && (bool_decide (prefix_len = 128)
          || bool_decide (Z.land ip (Z.shiftr U128_MAX prefix_len) = 0))
  end.

Definition parse_assigned_address (buf : bytes) : result DecodeError (AssignedAddress * bytes) :=
  '(request_id, rlen) ← map_err (fun _ => Malformed "truncated request_id") (Varint.decode buf);
  buf ← slice_from buf rlen;
  if bool_decide (buf = []) then Err (Malformed "missing ip_version") else
  ip_version ← index buf 0;
  buf ← slice_from buf 1;
  '(ip, addr_len) ←
    (if bool_decide (ip_version = 4) then
       if bool_decide (length buf < 4)%nat then Err (Malformed "truncated IPv4")
       else octets ← slice buf 0 4; Ok (V4 (be_val octets), 4%nat)
     else if bool_decide (ip_version = 6) then
       if bool_decide (length buf < 16)%nat then Err (Malformed "truncated IPv6")
       else octets ← slice buf 0 16; Ok (V6 (be_val octets), 16%nat)
     else Err (Malformed ("invalid ip_version: " +:+ pretty ip_version)));
  buf ← slice_from buf addr_len;
  if bool_decide (buf = []) then Err (Malformed "missing prefix_len") else
  prefix_len ← index buf 0;
  buf ← slice_from buf 1;
  if negb (valid_prefix ip prefix_len) then Err (Malformed "invalid address prefix") else
  Ok ({| request_id := request_id; ip := ip; prefix_len := prefix_len |}, buf).

(** The [while !buf.is_empty()] loop; the state is [(buf, addrs)]. *)
Definition parse_assigned_addresses_body (s : bytes * list AssignedAddress)
    : result DecodeError (bytes * list AssignedAddress + list AssignedAddress) :=
  let '(buf, addrs) := s in
  if bool_decide (buf = []) then Ok (inr addrs) else
  '(addr, buf) ← parse_assigned_address buf;
  Ok (inl (buf, addrs ++ [addr])).
Definition parse_assigned_addresses (buf : bytes) : result DecodeError (list AssignedAddress) :=
  while (fun s => length s.1) parse_assigned_addresses_body (buf, []).

Definition parse_requested_addresses (value : bytes) : result DecodeError (list AssignedAddress) :=
  addresses ← parse_assigned_addresses value;
  if bool_decide (addresses = []) then Err (Malformed "empty ADDRESS_REQUEST") else
  if existsb (fun address => bool_decide (request_id address = 0)) addresses
  then Err (Malformed "zero ADDRESS_REQUEST identifier") else
  Ok addresses.

(** [(version, protocol) > (version', protocol')] on pairs of bytes. *)
Definition pair_gt (a b : Z * Z) : bool :=
  bool_decide (a.1 > b.1) || (bool_decide (a.1 = b.1) && bool_decide (a.2 > b.2)).

(** The comparison with the previous entry: version, protocol, end value. *)
Definition previous_conflicts (previous : option (Z * Z * Z)) (ip_version ip_protocol start_value : Z)
    : bool :=
  match previous with
  | None => false
  | Some (version, protocol, end_value) =>
      pair_gt (version, protocol) (ip_version, ip_protocol)
      || (bool_decide (version = ip_version /\ protocol = ip_protocol)
          && bool_decide (end_value >= start_value))
  end.

(** The bytes of one entry, with its version and the values of its ends. *)
Definition parse_address_range (buf : bytes) (previous : option (Z * Z * Z))
    : result DecodeError (IpAddressRange * (Z * Z * Z) * bytes) :=
  if bool_decide (buf = []) then Err (Malformed "missing ip_version") else
  ip_version ← index buf 0;
  buf ← slice_from buf 1;
  '(start, end_, addr_len) ←
    (if bool_decide (ip_version = 4) then
       if bool_decide (length buf < 8)%nat then Err (Malformed "truncated IPv4 range")
       else s ← slice buf 0 4; e ← slice buf 4 8;
            Ok (V4 (be_val s), V4 (be_val e), 8%nat)
     else if bool_decide (ip_version = 6) then
       if bool_decide (length buf < 32)%nat then Err (Malformed "truncated IPv6 range")
       else s ← slice buf 0 16; e ← slice buf 16 32;
            Ok (V6 (be_val s), V6 (be_val e), 32%nat)
     else Err (Malformed ("invalid ip_version: " +:+ pretty ip_version)));
  buf ← slice_from buf addr_len;
  if bool_decide (buf = []) then Err (Malformed "missing ip_protocol") else
  ip_protocol ← index buf 0;
  buf ← slice_from buf 1;
  '(start_value, end_value) ←
    match start, end_ with
    | V4 s, V4 e => Ok (s, e)
    | V6 s, V6 e => Ok (s, e)
    | _, _ => Panic
    end;
  if bool_decide (start_value > end_value)
     || previous_conflicts previous ip_version ip_protocol start_value
  then Err (Malformed "invalid route range ordering") else
  Ok ({| start := start; end_ := end_; ip_protocol := ip_protocol |},
      (ip_version, ip_protocol, end_value), buf).

Definition parse_address_ranges_body (s : bytes * option (Z * Z * Z) * list IpAddressRange)
    : result DecodeError (bytes * option (Z * Z * Z) * list IpAddressRange + list IpAddressRange) :=
  let '(buf, previous, ranges) := s in
  if bool_decide (buf = []) then Ok (inr ranges) else
  '(range, last, buf) ← parse_address_range buf previous;
  Ok (inl (buf, Some last, ranges ++ [range])).
Definition parse_address_ranges (buf : bytes) : result DecodeError (list IpAddressRange) :=
  while (fun s => length s.1.1) parse_address_ranges_body (buf, None, []).

Definition parse_capsule_value (capsule_type : Z) (value : bytes) : result DecodeError CapsuleFrame :=
  if bool_decide (capsule_type = CAPSULE_DATAGRAM) then Ok (Datagram value)
  else if bool_decide (capsule_type = CAPSULE_ADDRESS_ASSIGN) then
    addrs ← parse_assigned_addresses value; Ok (AddressAssign addrs)
  else if bool_decide (capsule_type = CAPSULE_ADDRESS_REQUEST) then
    addrs ← parse_requested_addresses value; Ok (AddressRequest addrs)
  else if bool_decide (capsule_type = CAPSULE_ROUTE_ADVERTISEMENT) then
    ranges ← parse_address_ranges value; Ok (RouteAdvertisement ranges)
  else Ok (Unknown capsule_type value).

(** ** The buffered decoder *)

Definition try_decode_one (buf : bytes) (max_capsule_size : nat)
    : result DecodeError (CapsuleFrame * nat) :=
  '(capsule_type, tlen) ← map_err (fun _ => Incomplete) (Varint.decode buf);
  rest ← slice_from buf tlen;
  '(length_, llen) ← map_err (fun _ => Incomplete) (Varint.decode rest);
  if bool_decide (length_ > Z.of_nat max_capsule_size)
  then Err (TooLarge length_ (Z.of_nat max_capsule_size)) else
  let header_len := (tlen + llen)%nat in
  total_len ←
    (if bool_decide (Z.of_nat header_len + length_ <= USIZE_MAX)
     then Ok (header_len + Z.to_nat length_)%nat
     else Err (Malformed "capsule length overflows usize"));
  if bool_decide (length buf < total_len)%nat then Err Incomplete else
  value ← slice buf header_len total_len;
  frame ← parse_capsule_value capsule_type value;
  Ok (frame, total_len).

Record CapsuleDecoder := {
  buf : bytes;
  consumed : nat;
  max_capsule_size : nat;
}.

Definition COMPACT_THRESHOLD : nat := 16 * 1024.
Definition DEFAULT_MAX_CAPSULE_SIZE : nat := 1024 * 1024.

Definition with_max_capsule_size (max_capsule_size : nat) : CapsuleDecoder :=
  {| buf := []; consumed := 0; max_capsule_size := max_capsule_size |}.
Definition new : CapsuleDecoder := with_max_capsule_size DEFAULT_MAX_CAPSULE_SIZE.

(** Dropping the decoded prefix before more bytes are appended. *)
Definition compact (d : CapsuleDecoder) : CapsuleDecoder :=
  if bool_decide (0 < consumed d)%nat
     && (bool_decide (COMPACT_THRESHOLD <= consumed d)%nat
         || bool_decide (consumed d = length (buf d)))
  then {| buf := drop (consumed d) (buf d); consumed := 0;
          max_capsule_size := max_capsule_size d |}
  else d.

(** The decode loop moves [consumed]; it ends at [Incomplete] or an error. *)
Fixpoint decode_loop (fuel : nat) (buf : bytes) (max consumed : nat) (frames : list CapsuleFrame)
    : nat * result DecodeError (list CapsuleFrame) :=
  match fuel with
  | O => (consumed, Panic)
  | S fuel' =>
      match (rest ← slice_from buf consumed; try_decode_one rest max) with
      | Ok (frame, n) => decode_loop fuel' buf max (consumed + n) (frames ++ [frame])
      | Err Incomplete => (consumed, Ok frames)
      | Err e => (consumed, Err e)
      | Panic => (consumed, Panic)
      end
  end.

Definition decode (d : CapsuleDecoder) (data : bytes)
    : CapsuleDecoder * result DecodeError (list CapsuleFrame) :=
  let d := compact d in
  let buf' := buf d ++ data in
  let '(consumed', r) := decode_loop (S (length buf')) buf' (max_capsule_size d) (consumed d) [] in
  ({| buf := buf'; consumed := consumed'; max_capsule_size := max_capsule_size d |}, r).

Definition buffered (d : CapsuleDecoder) : nat := length (buf d) - consumed d.

(** ** Well-formed frames *)

Definition ip_ok (addr : IpAddress) : Prop :=
  match addr with V4 ip => 0 <= ip < 2 ^ 32 | V6 ip => 0 <= ip < 2 ^ 128 end.

(** An address entry: a varint identifier, and no host bits below the prefix. *)
Definition assigned_ok (a : AssignedAddress) : Prop :=
  varint_ok (request_id a) /\ ip_ok (ip a) /\ byte_ok (prefix_len a) /\
  match ip a with
  | V4 z => prefix_len a <= 32 /\ (2 ^ (32 - prefix_len a) | z)
  | V6 z => prefix_len a <= 128 /\ (2 ^ (128 - prefix_len a) | z)
  end.

(** The wire version and integer value of an address. *)
Definition version (addr : IpAddress) : Z := match addr with V4 _ => 4 | V6 _ => 6 end.
Definition ip_value (addr : IpAddress) : Z := match addr with V4 z => z | V6 z => z end.
Definition octets (addr : IpAddress) : bytes :=
  match addr with V4 z => be_bytes 4 z | V6 z => be_bytes 16 z end.

Definition range_ok (r : IpAddressRange) : Prop :=
  ip_ok (start r) /\ ip_ok (end_ r) /\ version (start r) = version (end_ r) /\
  ip_value (start r) <= ip_value (end_ r) /\ byte_ok (ip_protocol r).

(** RFC 9484's order: by version, then protocol, then disjoint addresses. *)
Definition range_before (r1 r2 : IpAddressRange) : Prop :=
  version (start r1) < version (start r2) \/
  (version (start r1) = version (start r2) /\
   (ip_protocol r1 < ip_protocol r2 \/
    (ip_protocol r1 = ip_protocol r2 /\ ip_value (end_ r1) < ip_value (start r2)))).

Definition frame_ok (f : CapsuleFrame) : Prop :=
  match f with
  | Datagram payload => bytes_ok payload
  | AddressAssign addrs => Forall assigned_ok addrs
  | AddressRequest addrs =>
      Forall assigned_ok addrs /\ addrs <> [] /\ Forall (fun a => request_id a <> 0) addrs
  | RouteAdvertisement ranges => Forall range_ok ranges /\ StronglySorted range_before ranges
  | Unknown capsule_type value =>
      varint_ok capsule_type /\ 3 < capsule_type /\ bytes_ok value
  end.

(** ** Address entries *)

Lemma land_low_zero z n : 0 <= n ->
  Z.land z (2 ^ n - 1) = 0 <-> (2 ^ n | z).
Proof.
  intros Hn. rewrite land_ones_mod by done. apply Z.mod_divide. lia.
Qed.

Lemma shiftr_max w p : 0 <= p <= w -> Z.shiftr (2 ^ w - 1) p = 2 ^ (w - p) - 1.
Proof.
  intros Hp. replace (2 ^ w - 1) with (Z.ones w) by (rewrite Z.ones_equiv; lia).
  rewrite Z.shiftr_div_pow2 by lia.
  rewrite Z.ones_div_pow2, Z.ones_equiv by lia. lia.
Qed.

(** The mask test of the decoder is divisibility by the block size. *)
Lemma mask_test w z p : 0 <= p ->
  bool_decide (p <= w) && (bool_decide (p = w) || bool_decide (Z.land z (Z.shiftr (2 ^ w - 1) p) = 0))
  = true <-> p <= w /\ (2 ^ (w - p) | z).
Proof.
  intros Hp. rewrite andb_true_iff, orb_true_iff, !bool_decide_eq_true.
  split; intros [Hle Hz]; (split; [done|]).
  - destruct Hz as [->|Hz]; [rewrite Z.sub_diag; apply Z.divide_1_l|].
    rewrite shiftr_max in Hz by lia. apply land_low_zero in Hz; [done|lia].
  - destruct (decide (p = w)); [by left|right].
    rewrite shiftr_max by lia. apply land_low_zero; [lia|done].
Qed.

Lemma valid_prefix_spec addr p : 0 <= p ->
  valid_prefix addr p = true <->
  match addr with
  | V4 z => p <= 32 /\ (2 ^ (32 - p) | z)
  | V6 z => p <= 128 /\ (2 ^ (128 - p) | z)
  end.
Proof. intros. destruct addr; by apply (mask_test _ _ _). Qed.

#[local] Arguments valid_prefix : simpl never.

Definition assigned_wire (a : AssignedAddress) : bytes :=
  wire (request_id a) ++ [version (ip a)] ++ octets (ip a) ++ [prefix_len a].

Lemma parse_assigned_address_dec buf a rest :
  parse_assigned_address buf = Ok (a, rest) -> (length rest < length buf)%nat.
Proof.
  intros H. unfold parse_assigned_address in H. inv_all.
  all: lookup_lens; solve_len.
Qed.

Lemma parse_assigned_address_post buf :
  bytes_ok buf ->
  post (parse_assigned_address buf) (fun '(a, rest) => assigned_ok a /\ bytes_ok rest).
Proof.
  intros Hok. unfold parse_assigned_address. wp.
  destruct (Varint.decode buf) as [[rid rlen]|e|] eqn:Hd; simpl; [|done|by apply (decode_no_panic buf)].
  apply decode_value in Hd as (Hrid & ? & ?); [|done]. wp.
  all: apply negb_false_iff in Heqb.
  all: match goal with H : _ !! 0%nat = Some ?p |- assigned_ok (Build_AssignedAddress _ _ ?p) /\ _ =>
         apply bytes_ok_lookup in H; [|by auto with masque] end.
  all: apply valid_prefix_spec in Heqb; [|unfold byte_ok in *; lia].
  all: split; [|by auto with masque].
  all: repeat (split; [done|]); split; [simpl|by split].
  all: apply be_val_take_bound; [by auto with masque|solve_len].
Qed.

Lemma octets_ok addr : bytes_ok (octets addr).
Proof. destruct addr; apply be_bytes_ok. Qed.

Lemma be_val_octets4 z : 0 <= z < 2 ^ 32 -> be_val (be_bytes 4 z) = z.
Proof. intros. rewrite be_val_be_bytes. by apply Z.mod_small. Qed.
Lemma be_val_octets16 z : 0 <= z < 2 ^ 128 -> be_val (be_bytes 16 z) = z.
Proof. intros. rewrite be_val_be_bytes. by apply Z.mod_small. Qed.

Lemma slice_from_app {E A} (l r : list A) n :
  length l = n -> slice_from (E:=E) (l ++ r) n = Ok r.
Proof. intros <-. rewrite slice_from_Ok by solve_len. by rewrite drop_app_length. Qed.

Lemma slice_from_cons {E A} (x : A) l : slice_from (E:=E) (x :: l) 1 = Ok l.
Proof. by apply (slice_from_app [x]). Qed.

Lemma slice_app {E A} (l m r : list A) a b :
  length l = a -> (length l + length m)%nat = b -> slice (E:=E) (l ++ m ++ r) a b = Ok m.
Proof.
  intros <- <-. rewrite slice_Ok by solve_len. rewrite drop_app_length.
  f_equal. apply take_app_length'. lia.
Qed.

Lemma slice_app_0 {E A} (m r : list A) b :
  length m = b -> slice (E:=E) (m ++ r) 0 b = Ok m.
Proof. by apply (slice_app []). Qed.

Lemma parse_assigned_address_wire a rest :
  assigned_ok a -> parse_assigned_address (assigned_wire a ++ rest) = Ok (a, rest).
Proof.
  intros (Hid & Hip & Hp & Hv). unfold parse_assigned_address, assigned_wire.
  destruct a as [rid addr p]; cbn [request_id ip prefix_len] in *.
  rewrite <- app_assoc, decode_wire by done.
  simpl. rewrite slice_from_app by apply length_wire. simpl.
  rewrite slice_from_cons. simpl.
  pose proof (proj2 (valid_prefix_spec addr p (proj1 Hp)) Hv) as Hvp.
  destruct addr as [z|z]; simpl.
  - rewrite bool_decide_false by solve_len.
    rewrite <- app_assoc, slice_app_0 by apply length_be_bytes. cbn [mbind result_bind].
    rewrite slice_from_app by apply length_be_bytes. simpl. rewrite slice_from_cons. simpl.
    rewrite be_val_octets4, Hvp by done. done.
  - rewrite bool_decide_false by solve_len.
    rewrite <- app_assoc, slice_app_0 by apply length_be_bytes. cbn [mbind result_bind].
    rewrite slice_from_app by apply length_be_bytes. simpl. rewrite slice_from_cons. simpl.
    rewrite be_val_octets16, Hvp by done. done.
Qed.

Lemma addresses_body_dec s s' :
  parse_assigned_addresses_body s = Ok (inl s') -> (length s'.1 < length s.1)%nat.
Proof.
  destruct s as [b addrs]. unfold parse_assigned_addresses_body.
  case_bool_decide; [done|]. intros H'. inv_res.
  by eapply parse_assigned_address_dec.
Qed.

Lemma parse_assigned_addresses_post value :
  bytes_ok value -> post (parse_assigned_addresses value) (Forall assigned_ok).
Proof.
  intros Hok. unfold parse_assigned_addresses.
  eapply (post_while _ _ (fun s => bytes_ok s.1 /\ Forall assigned_ok s.2));
    [apply addresses_body_dec| |done].
  intros [b addrs] [Hb Ha]; simpl in *. wp; [done|].
  eapply post_mono; [by apply parse_assigned_address_post|].
  intros [a rest] [??]; simpl. by rewrite Forall_app, Forall_singleton.
Qed.

Definition assigned_wires (addrs : list AssignedAddress) : bytes :=
  concat (assigned_wire <$> addrs).

Lemma assigned_wire_nonempty a rest : assigned_wire a ++ rest <> [].
Proof.
  unfold assigned_wire. intros H. apply (f_equal length) in H.
  pose proof (wire_len_bounds (request_id a)). solve_len.
Qed.

Lemma parse_assigned_addresses_wire addrs :
  Forall assigned_ok addrs -> parse_assigned_addresses (assigned_wires addrs) = Ok addrs.
Proof.
  intros Hok. unfold parse_assigned_addresses.
  enough (forall acc, while (fun s => length s.1) parse_assigned_addresses_body
            (assigned_wires addrs, acc) = Ok (acc ++ addrs)) as H by apply H.
  induction Hok as [|a addrs Ha Hok IH]; intros acc;
    rewrite (while_unfold _ _ addresses_body_dec); simpl.
  - by rewrite app_nil_r.
  - unfold assigned_wires. cbn [fmap list_fmap concat].
    rewrite bool_decide_false by apply assigned_wire_nonempty.
    rewrite parse_assigned_address_wire by done. simpl.
    fold (assigned_wires addrs). rewrite IH, <- app_assoc. done.
Qed.

Lemma push_varint_Ok {E} v l : varint_ok v -> push_varint (E:=E) v l = Ok (l ++ wire v).
Proof. intros. unfold push_varint. by rewrite encode_to_vec_wire. Qed.

Lemma encode_assigned_addresses_Ok {E} addrs :
  Forall assigned_ok addrs -> encode_assigned_addresses (E:=E) addrs = Ok (assigned_wires addrs).
Proof.
  intros Hok. unfold encode_assigned_addresses.
  enough (forall acc, encode_assigned_addresses_onto (E:=E) addrs acc
          = Ok (acc ++ assigned_wires addrs)) as H by apply H.
  induction Hok as [|a addrs Ha Hok IH]; intros acc; simpl; [by rewrite app_nil_r|].
  unfold encode_assigned_address. rewrite push_varint_Ok by apply Ha. simpl. rewrite IH.
  unfold assigned_wires. cbn [fmap list_fmap concat]. unfold assigned_wire.
  destruct (ip a); simpl; rewrite <- !app_assoc; simpl; rewrite <- !app_assoc; done.
Qed.

(** ** Route entries *)

Definition range_wire (r : IpAddressRange) : bytes :=
  [version (start r)] ++ octets (start r) ++ octets (end_ r) ++ [ip_protocol r].

(** The key the parser keeps of the last entry. *)
Definition range_key (r : IpAddressRange) : Z * Z * Z :=
  (version (start r), ip_protocol r, ip_value (end_ r)).

Definition follows (previous : option (Z * Z * Z)) (r : IpAddressRange) : Prop :=
  match previous with
  | None => True
  | Some (v, p, e) =>
      v < version (start r) \/
      (v = version (start r) /\ (p < ip_protocol r \/ (p = ip_protocol r /\ e < ip_value (start r))))
  end.

Lemma previous_conflicts_spec previous r :
  previous_conflicts previous (version (start r)) (ip_protocol r) (ip_value (start r)) = false
  <-> follows previous r.
Proof.
  unfold previous_conflicts, pair_gt, follows. destruct previous as [[[v p] e]|]; [|done].
  simpl. rewrite !orb_false_iff, !andb_false_iff, !bool_decide_eq_false. lia.
Qed.

Lemma parse_address_range_dec buf previous r last rest :
  parse_address_range buf previous = Ok (r, last, rest) -> (length rest < length buf)%nat.
Proof.
  intros H. unfold parse_address_range in H. inv_all.
  all: lookup_lens; solve_len.
Qed.

Lemma parse_address_range_post buf previous :
  bytes_ok buf -> buf <> [] ->
  post (parse_address_range buf previous) (fun '(r, last, rest) =>
    range_ok r /\ last = range_key r /\ follows previous r /\ bytes_ok rest).
Proof.
  intros Hok Hne. unfold parse_address_range. wp.
  all: subst x; apply orb_false_iff in Heqb as [Hle Hprev]; apply bool_decide_eq_false in Hle.
  - split; [|split; [done|split; [by apply previous_conflicts_spec|by auto with masque]]].
    split; [|split; [|split; [done|split; [cbn [start end_ ip_value]; lia|]]]]; simpl.
    1,2: apply be_val_take_bound; [by auto with masque|solve_len].
    eapply bytes_ok_lookup; [done|by auto with masque].
  - split; [|split; [done|split; [by apply previous_conflicts_spec|by auto with masque]]].
    split; [|split; [|split; [done|split; [cbn [start end_ ip_value]; lia|]]]]; simpl.
    1,2: apply be_val_take_bound; [by auto with masque|solve_len].
    eapply bytes_ok_lookup; [done|by auto with masque].
Qed.

Lemma parse_address_range_wire previous r rest :
  range_ok r -> follows previous r ->
  parse_address_range (range_wire r ++ rest) previous = Ok (r, range_key r, rest).
Proof.
  intros (Hs & He & Hver & Hle & Hp) Hf. apply previous_conflicts_spec in Hf.
  destruct r as [s e p]. unfold parse_address_range, range_wire, range_key.
  cbn [start end_ ip_protocol] in *.
  destruct s as [s|s], e as [e|e]; try done; simpl in *.
  - rewrite slice_from_cons. simpl. rewrite bool_decide_false by solve_len.
    rewrite <- !app_assoc, slice_app_0 by apply length_be_bytes. simpl.
    rewrite slice_app by (rewrite ?length_be_bytes; lia). simpl.
    rewrite app_assoc, slice_from_app by (by rewrite length_app, !length_be_bytes). simpl.
    rewrite slice_from_cons. simpl. rewrite !be_val_octets4, Hf by done.
    by rewrite bool_decide_false by lia.
  - rewrite slice_from_cons. simpl. rewrite bool_decide_false by solve_len.
    rewrite <- !app_assoc, slice_app_0 by apply length_be_bytes. simpl.
    rewrite slice_app by (rewrite ?length_be_bytes; lia). simpl.
    rewrite app_assoc, slice_from_app by (by rewrite length_app, !length_be_bytes). simpl.
    rewrite slice_from_cons. simpl. rewrite !be_val_octets16, Hf by done.
    by rewrite bool_decide_false by lia.
Qed.

Lemma range_before_trans r1 r2 r3 :
  range_ok r2 -> range_before r1 r2 -> range_before r2 r3 -> range_before r1 r3.
Proof.
  unfold range_before. intros (_ & _ & _ & Hle & _) H12 H23. lia.
Qed.

(** An entry that follows the last one follows all of them. *)
Lemma sorted_snoc ranges r :
  Forall range_ok ranges -> StronglySorted range_before ranges ->
  follows (range_key <$> last ranges) r ->
  StronglySorted range_before (ranges ++ [r]).
Proof.
  intros Hok Hs Hf. induction Hs as [|x l Hs IH Hx]; simpl; [by repeat constructor|].
  apply Forall_cons_1 in Hok as [Hxok Hok].
  destruct l as [|y l].
  { constructor; [by repeat constructor|by apply Forall_singleton]. }
  constructor; [by apply IH|].
  apply Forall_app; split; [done|]. constructor; [|done].
  assert (exists z, last (y :: l) = Some z /\ range_ok z /\ range_before x z) as (z & Hz & Hzok & Hxz).
  { destruct (last (y :: l)) as [z|] eqn:Hz; [|by apply last_None in Hz].
    apply last_Some_elem_of in Hz. exists z. rewrite Forall_forall in Hok, Hx. auto. }
  eapply (range_before_trans x z r); [done..|].
  change (last (x :: y :: l)) with (last (y :: l)) in Hf. by rewrite Hz in Hf.
Qed.

Lemma ranges_body_dec s s' :
  parse_address_ranges_body s = Ok (inl s') -> (length s'.1.1 < length s.1.1)%nat.
Proof.
  destruct s as [[b previous] ranges]. unfold parse_address_ranges_body.
  case_bool_decide; [done|]. intros H'. inv_res.
  by eapply parse_address_range_dec.
Qed.

Lemma parse_address_ranges_post value :
  bytes_ok value ->
  post (parse_address_ranges value)
    (fun ranges => Forall range_ok ranges /\ StronglySorted range_before ranges).
Proof.
  intros Hok. unfold parse_address_ranges.
  eapply (post_while _ _ (fun s => bytes_ok s.1.1 /\ s.1.2 = range_key <$> last s.2 /\
    Forall range_ok s.2 /\ StronglySorted range_before s.2)); [apply ranges_body_dec| |].
  - intros [[b previous] ranges] (Hb & Hp & Hr & Hs); simpl in *.
    case_bool_decide; [done|]. apply post_bind.
    eapply post_mono; [by apply parse_address_range_post|].
    intros [[r lst] rest] (Hrok & -> & Hf & Hrest); simpl in *. subst.
    split; [done|split; [by rewrite last_snoc|split]].
    + by rewrite Forall_app, Forall_singleton.
    + by apply sorted_snoc.
  - simpl. split; [done|split; [done|split; constructor]].
Qed.

Definition range_wires (ranges : list IpAddressRange) : bytes := concat (range_wire <$> ranges).

Lemma parse_address_ranges_wire ranges :
  Forall range_ok ranges -> StronglySorted range_before ranges ->
  parse_address_ranges (range_wires ranges) = Ok ranges.
Proof.
  intros Hok Hs. unfold parse_address_ranges.
  enough (forall previous acc, match ranges with [] => True | r :: _ => follows previous r end ->
            while (fun s => length s.1.1) parse_address_ranges_body
              (range_wires ranges, previous, acc) = Ok (acc ++ ranges)) as H
    by (apply H; by destruct ranges).
  induction Hs as [|r ranges Hs IH Hr]; intros previous acc Hf;
    rewrite (while_unfold _ _ ranges_body_dec);
    unfold range_wires; cbn [parse_address_ranges_body fmap list_fmap concat];
    [simpl; by rewrite app_nil_r|].
  apply Forall_cons_1 in Hok as [Hrok Hok].
  rewrite bool_decide_false by done.
  rewrite parse_address_range_wire by done. simpl.
  fold (range_wires ranges). rewrite IH, <- app_assoc; [done|done|].
  destruct ranges; [done|]. by apply Forall_cons_1 in Hr as [Hr _].
Qed.

Lemma encode_address_ranges_Ok {E} ranges :
  Forall range_ok ranges -> encode_address_ranges (E:=E) ranges = Ok (range_wires ranges).
Proof.
  intros Hok. unfold encode_address_ranges.
  enough (forall acc, encode_address_ranges_onto (E:=E) ranges acc
          = Ok (acc ++ range_wires ranges)) as H by apply H.
  induction Hok as [|r ranges Hr Hok IH]; intros acc; simpl; [by rewrite app_nil_r|].
  destruct Hr as (_ & _ & Hver & _). unfold encode_address_range.
  destruct r as [[s|s] [e|e] p]; try done; simpl; rewrite IH;
    unfold range_wires; cbn [fmap list_fmap concat]; unfold range_wire;
    simpl; rewrite <- !app_assoc; simpl; rewrite <- !app_assoc; done.
Qed.

(** ** Whole capsules *)

(** The type and value bytes of a frame. *)
Definition frame_type (f : CapsuleFrame) : Z :=
  match f with
  | Datagram _ => CAPSULE_DATAGRAM
  | AddressAssign _ => CAPSULE_ADDRESS_ASSIGN
  | AddressRequest _ => CAPSULE_ADDRESS_REQUEST
  | RouteAdvertisement _ => CAPSULE_ROUTE_ADVERTISEMENT
  | Unknown t _ => t
  end.
Definition frame_value (f : CapsuleFrame) : bytes :=
  match f with
  | Datagram payload => payload
  | AddressAssign addrs | AddressRequest addrs => assigned_wires addrs
  | RouteAdvertisement ranges => range_wires ranges
  | Unknown _ value => value
  end.
Definition capsule_wire (t : Z) (value : bytes) : bytes :=
  wire t ++ wire (Z.of_nat (length value)) ++ value.

Lemma parse_requested_addresses_post value :
  bytes_ok value -> post (parse_requested_addresses value) (fun addrs =>
    Forall assigned_ok addrs /\ addrs <> [] /\ Forall (fun a => request_id a <> 0) addrs).
Proof.
  intros Hok. unfold parse_requested_addresses. apply post_bind.
  eapply post_mono; [by apply parse_assigned_addresses_post|]. intros addrs Ha.
  case_bool_decide; [done|]. destruct (existsb _ addrs) eqn:Hex; [done|].
  split; [done|split; [done|]]. apply Forall_forall. intros a Hin Hz.
  apply not_true_iff_false in Hex. apply Hex, existsb_exists. exists a.
  by rewrite bool_decide_eq_true, <- list_elem_of_In.
Qed.

Lemma parse_capsule_value_post t value :
  varint_ok t -> bytes_ok value -> post (parse_capsule_value t value) frame_ok.
Proof.
  intros Ht Hok. unfold parse_capsule_value, CAPSULE_DATAGRAM, CAPSULE_ADDRESS_ASSIGN,
    CAPSULE_ADDRESS_REQUEST, CAPSULE_ROUTE_ADVERTISEMENT.
  wp; [done|..].
  - eapply post_mono; [by apply parse_assigned_addresses_post|done].
  - eapply post_mono; [by apply parse_requested_addresses_post|done].
  - eapply post_mono; [by apply parse_address_ranges_post|done].
  - split; [done|]. unfold varint_ok in *. split; [lia|done].
Qed.

Lemma parse_requested_addresses_wire addrs :
  frame_ok (AddressRequest addrs) -> parse_requested_addresses (assigned_wires addrs) = Ok addrs.
Proof.
  intros (Ha & Hne & Hz). unfold parse_requested_addresses.
  rewrite parse_assigned_addresses_wire by done. simpl. rewrite bool_decide_false by done.
  destruct (existsb _ addrs) eqn:Hex; [|done].
  apply existsb_exists in Hex as (a & Hin & Hid). apply bool_decide_eq_true in Hid.
  apply list_elem_of_In in Hin. rewrite Forall_forall in Hz. by destruct (Hz a Hin).
Qed.

Lemma parse_capsule_value_wire f :
  frame_ok f -> parse_capsule_value (frame_type f) (frame_value f) = Ok f.
Proof.
  destruct f as [payload|addrs|addrs|ranges|t value]; intros Hok;
    unfold parse_capsule_value; cbn [frame_type frame_value].
  - done.
  - rewrite bool_decide_false, bool_decide_true by done.
    by rewrite parse_assigned_addresses_wire.
  - rewrite !bool_decide_false, bool_decide_true by done.
    by rewrite parse_requested_addresses_wire.
  - rewrite !bool_decide_false, bool_decide_true by done.
    destruct Hok. by rewrite parse_address_ranges_wire.
  - destruct Hok as (_ & Ht & _).
    rewrite !bool_decide_false; [done|unfold CAPSULE_ROUTE_ADVERTISEMENT,
      CAPSULE_ADDRESS_REQUEST, CAPSULE_ADDRESS_ASSIGN, CAPSULE_DATAGRAM; lia..].
Qed.

Lemma encode_raw_Ok {E} t value l :
  varint_ok t -> Z.of_nat (length value) <= MAX_VALUE ->
  encode_raw (E:=E) t value l = Ok (l ++ capsule_wire t value).
Proof.
  intros Ht Hl. unfold encode_raw, capsule_wire. rewrite push_varint_Ok by done. simpl.
  rewrite push_varint_Ok by (unfold varint_ok; lia). simpl. by rewrite <- !app_assoc.
Qed.

Lemma frame_type_ok f : frame_ok f -> varint_ok (frame_type f).
Proof.
  destruct f; try (intros _; unfold varint_ok, MAX_VALUE; simpl;
    unfold CAPSULE_ROUTE_ADVERTISEMENT, CAPSULE_ADDRESS_REQUEST, CAPSULE_ADDRESS_ASSIGN,
      CAPSULE_DATAGRAM; lia).
  by intros (? & _).
Qed.

Lemma encode_frame_wire {E} f l :
  frame_ok f -> Z.of_nat (length (frame_value f)) <= MAX_VALUE ->
  encode (E:=E) f l = Ok (l ++ capsule_wire (frame_type f) (frame_value f)).
Proof.
  intros Hok Hl. pose proof (frame_type_ok f Hok) as Ht.
  destruct f as [payload|addrs|addrs|ranges|t value]; simpl in *.
  - by apply encode_raw_Ok.
  - rewrite encode_assigned_addresses_Ok by done. by apply encode_raw_Ok.
  - rewrite encode_assigned_addresses_Ok by apply Hok. by apply encode_raw_Ok.
  - rewrite encode_address_ranges_Ok by apply Hok. by apply encode_raw_Ok.
  - by apply encode_raw_Ok.
Qed.

(** What [try_decode_one] computes on a byte string: the [usize] overflow
    branch is not taken, because a varint is below 2^62. *)
Lemma try_decode_one_eq b max :
  bytes_ok b ->
  try_decode_one b max =
  match Varint.decode b with
  | Ok (t, tlen) =>
      match Varint.decode (drop tlen b) with
      | Ok (len, llen) =>
          if bool_decide (len > Z.of_nat max) then Err (TooLarge len (Z.of_nat max))
          else if bool_decide (length b < tlen + llen + Z.to_nat len)%nat then Err Incomplete
          else f ← parse_capsule_value t (take (Z.to_nat len) (drop (tlen + llen) b));
               Ok (f, tlen + llen + Z.to_nat len)%nat
      | _ => Err Incomplete
      end
  | _ => Err Incomplete
  end.
Proof.
  intros Hok. unfold try_decode_one.
  destruct (Varint.decode b) as [[t tlen]|e|] eqn:Ht; simpl; [|done|by apply decode_no_panic in Ht].
  apply decode_value in Ht as (_ & Htl & Hle); [|done].
  rewrite slice_from_Ok by done. simpl.
  destruct (Varint.decode (drop tlen b)) as [[len llen]|e|] eqn:Hl; simpl;
    [|done|apply decode_no_panic in Hl; by auto with masque].
  apply decode_value in Hl as (Hlen & Hll & Hlle); [|by auto with masque].
  case_bool_decide; [done|].
  unfold varint_ok, MAX_VALUE in Hlen. unfold USIZE_MAX, U64_MAX.
  rewrite bool_decide_true by lia. simpl. case_bool_decide; [done|].
  rewrite slice_Ok by lia. simpl. do 3 f_equal. lia.
Qed.

Lemma try_decode_one_wire f max rest :
  frame_ok f -> (length (frame_value f) <= max)%nat ->
  Z.of_nat (length (frame_value f)) <= MAX_VALUE -> bytes_ok rest -> bytes_ok (frame_value f) ->
  try_decode_one (capsule_wire (frame_type f) (frame_value f) ++ rest) max
  = Ok (f, length (capsule_wire (frame_type f) (frame_value f))).
Proof.
  intros Hok Hmax Hl Hr Hv. pose proof (frame_type_ok f Hok) as Ht.
  assert (varint_ok (Z.of_nat (length (frame_value f)))) as Hlen by (unfold varint_ok; lia).
  unfold capsule_wire. rewrite <- !app_assoc.
  rewrite try_decode_one_eq by (rewrite !bytes_ok_app; auto using wire_ok).
  rewrite decode_wire, drop_app_length', decode_wire by auto using length_wire.
  rewrite bool_decide_false by lia. rewrite bool_decide_false by solve_len.
  rewrite app_assoc, drop_app_length', Nat2Z.id, take_app_length by solve_len.
  rewrite parse_capsule_value_wire by done. simpl. do 2 f_equal. solve_len.
Qed.

Lemma try_decode_one_post b max :
  bytes_ok b -> post (try_decode_one b max) (fun '(f, n) => frame_ok f /\ (1 <= n <= length b)%nat).
Proof.
  intros Hok. rewrite try_decode_one_eq by done.
  destruct (Varint.decode b) as [[t tlen]|e|] eqn:Ht; [|done..].
  apply decode_value in Ht as (Htok & Htl & Hle); [|done].
  destruct (Varint.decode (drop tlen b)) as [[len llen]|e|] eqn:Hl; [|done..].
  apply decode_value in Hl as (Hlen & Hll & Hlle); [|by auto with masque].
  pose proof (wire_len_bounds t). wp.
  eapply post_mono; [apply parse_capsule_value_post; by auto with masque|].
  intros f Hf. simpl. split; [done|lia].
Qed.

(** A decision of [try_decode_one] is not changed by more bytes. *)
Lemma try_decode_one_app b more max :
  bytes_ok b -> bytes_ok more -> try_decode_one b max <> Err Incomplete ->
  try_decode_one (b ++ more) max = try_decode_one b max.
Proof.
  intros Hb Hm. rewrite !try_decode_one_eq by (try apply bytes_ok_app; done).
  destruct (Varint.decode b) as [[t tlen]|e|] eqn:Ht; [|done..].
  rewrite (decode_app _ _ _ _ Hb Ht).
  apply decode_value in Ht as (_ & Htl & Hle); [|done].
  rewrite drop_app_le by done.
  destruct (Varint.decode (drop tlen b)) as [[len llen]|e|] eqn:Hl; [|done..].
  rewrite (decode_app (drop tlen b) _ len llen) by auto with masque.
  apply decode_value in Hl as (Hlen & Hll & Hlle); [|by auto with masque].
  case_bool_decide; [done|]. case_bool_decide; [done|]. intros _.
  rewrite bool_decide_false by solve_len. rewrite drop_app_le by solve_len.
  rewrite take_app_le by solve_len. done.
Qed.

(** The value parsers see whole values: they never ask for more bytes. *)
Lemma parse_capsule_value_errs t value :
  errs (parse_capsule_value t value) (fun e => e <> Incomplete).
Proof.
  assert (forall v, errs (parse_assigned_addresses v) (fun e => e <> Incomplete)) as Ha.
  { intros v. apply errs_while; [apply addresses_body_dec|]. intros [b l].
    unfold parse_assigned_addresses_body, parse_assigned_address. errs_tac; done. }
  assert (forall v, errs (parse_address_ranges v) (fun e => e <> Incomplete)) as Hr.
  { intros v. apply errs_while; [apply ranges_body_dec|]. intros [[b p] l].
    unfold parse_address_ranges_body, parse_address_range. errs_tac; done. }
  unfold parse_capsule_value, parse_requested_addresses. errs_tac; auto.
Qed.

(** Pending bytes that decode to nothing are short. *)
Lemma incomplete_bound b max :
  bytes_ok b -> try_decode_one b max = Err Incomplete -> (length b < 16 + max)%nat.
Proof.
  intros Hb. rewrite try_decode_one_eq by done.
  destruct (Varint.decode b) as [[t tlen]|e|] eqn:Ht;
    [|apply decode_Err in Ht; [lia|done]|by apply decode_no_panic in Ht].
  apply decode_value in Ht as (_ & Htl & Hle); [|done].
  destruct (Varint.decode (drop tlen b)) as [[len llen]|e|] eqn:Hl;
    [|apply decode_Err in Hl; [solve_len|by auto with masque]
     |apply decode_no_panic in Hl; by auto with masque].
  apply decode_value in Hl as (Hlen & Hll & Hlle); [|by auto with masque].
  case_bool_decide; [done|]. case_bool_decide; [lia|].
  destruct (parse_capsule_value _ _) as [?|e|] eqn:Hp; [done| |done].
  intros [= ->]. pose proof (parse_capsule_value_errs t
    (take (Z.to_nat len) (drop (tlen + llen) b))) as He. by rewrite Hp in He.
Qed.

(** ** The decode loop as a function of the pending bytes *)

Definition run (max : nat) (p : bytes) : nat * result DecodeError (list CapsuleFrame) :=
  decode_loop (S (length p)) p max 0 [].

(** Prefix the outcome of a run: [n] more bytes consumed, [fs] decoded before. *)
Definition after (n : nat) (fs : list CapsuleFrame)
    (o : nat * result DecodeError (list CapsuleFrame)) : nat * result DecodeError (list CapsuleFrame) :=
  ((n + o.1)%nat, app fs <$> o.2).

Lemma after_after n m fs gs o : after n fs (after m gs o) = after (n + m) (fs ++ gs) o.
Proof.
  destruct o as [c [r|e|]]; unfold after; simpl; rewrite ?Nat.add_assoc, ?app_assoc; done.
Qed.

Lemma after_0 o : after 0 [] o = o.
Proof. by destruct o as [c [r|e|]]. Qed.

Lemma decode_loop_shift fuel b max c fs :
  bytes_ok b -> (c <= length b)%nat ->
  decode_loop fuel b max c fs = after c fs (decode_loop fuel (drop c b) max 0 []).
Proof.
  revert b c fs. induction fuel as [|fuel IH]; intros b c fs Hok Hc.
  { unfold after; simpl. by rewrite Nat.add_0_r. }
  simpl. rewrite !slice_from_Ok by lia. rewrite drop_0. cbn [mbind result_bind].
  pose proof (try_decode_one_post (drop c b) max ltac:(by auto with masque)) as Hp.
  destruct (try_decode_one (drop c b) max) as [[f n]|e|]; cbn [post] in *.
  - destruct Hp as [_ Hn]. rewrite length_drop in Hn.
    rewrite IH by (done || lia).
    rewrite (IH (drop c b)) by (solve_len || by auto with masque).
    rewrite after_after, drop_drop. done.
  - unfold after; destruct e; simpl; by rewrite ?Nat.add_0_r, ?app_nil_r.
  - done.
Qed.

Lemma decode_loop_fuel f1 f2 b max :
  bytes_ok b -> (length b < f1)%nat -> (length b < f2)%nat ->
  decode_loop f1 b max 0 [] = decode_loop f2 b max 0 [].
Proof.
  revert f2 b. induction f1 as [|f1 IH]; intros f2 b Hok H1 H2; [lia|].
  destruct f2 as [|f2]; [lia|]. simpl. rewrite slice_from_Ok, drop_0 by lia.
  cbn [mbind result_bind].
  pose proof (try_decode_one_post b max Hok) as Hp.
  destruct (try_decode_one b max) as [[f n]|e|]; [|done..]. destruct Hp as [_ Hn].
  rewrite !(decode_loop_shift _ b) by (done || lia). f_equal.
  apply IH; [by auto with masque|solve_len..].
Qed.

Lemma run_unfold max p :
  bytes_ok p ->
  run max p =
  match try_decode_one p max with
  | Ok (f, n) => after n [f] (run max (drop n p))
  | Err Incomplete => (0%nat, Ok [])
  | Err e => (0%nat, Err e)
  | Panic => (0%nat, Panic)
  end.
Proof.
  intros Hok. unfold run at 1. cbn [decode_loop]. rewrite slice_from_Ok, drop_0 by lia.
  cbn [mbind result_bind].
  pose proof (try_decode_one_post p max Hok) as Hp.
  destruct (try_decode_one p max) as [[f n]|e|]; [|done..]. destruct Hp as [_ Hn].
  rewrite decode_loop_shift by (done || lia). f_equal. unfold run.
  apply decode_loop_fuel; [by auto with masque|solve_len..].
Qed.

(** Induction on the number of pending bytes, one capsule at a time. *)
Lemma run_ind max (P : bytes -> Prop) :
  (forall p, bytes_ok p ->
     (forall f n, try_decode_one p max = Ok (f, n) -> P (drop n p)) -> P p) ->
  forall p, bytes_ok p -> P p.
Proof.
  intros Hstep p. remember (length p) as k eqn:Hk. revert p Hk.
  induction k as [k IH] using lt_wf_ind. intros p -> Hok. apply Hstep; [done|].
  intros f n Hf. pose proof (try_decode_one_post p max Hok) as Hp.
  rewrite Hf in Hp. destruct Hp as [_ Hn].
  eapply IH; [|done|by auto with masque]. solve_len.
Qed.

Lemma run_post max p :
  bytes_ok p ->
  ((run max p).1 <= length p)%nat /\
  post (run max p).2 (fun fs => Forall frame_ok fs /\
    try_decode_one (drop (run max p).1 p) max = Err Incomplete) /\
  errs (run max p).2 (fun e => e <> Incomplete).
Proof.
  revert p. apply (run_ind max). intros p Hok IH. rewrite (run_unfold max p) by done.
  pose proof (try_decode_one_post p max Hok) as Hp.
  destruct (try_decode_one p max) as [[f n]|[]|] eqn:Hf; cbn [fst snd post errs];
    try (by rewrite ?drop_0; repeat split; lia || done || constructor).
  destruct Hp as [Hfok Hn]. destruct (IH f n eq_refl) as (Hc & Hpo & He).
  unfold after. cbn [fst snd]. rewrite length_drop in Hc. split; [lia|].
  rewrite <- drop_drop.
  destruct (run max (drop n p)) as [c [fs|e|]]; simpl in *; [|done..].
  split; [|done]. destruct Hpo as [? ?]. split; [by constructor|done].
Qed.

Lemma run_app_Ok max p q c fs :
  bytes_ok p -> bytes_ok q -> run max p = (c, Ok fs) ->
  run max (p ++ q) = after c fs (run max (drop c p ++ q)).
Proof.
  intros Hp Hq. revert c fs. revert p Hp. apply (run_ind max (fun p => forall c fs, _ -> _)).
  intros p Hok IH c fs Hr. rewrite (run_unfold max p) in Hr by done.
  destruct (try_decode_one p max) as [[f n]|[]|] eqn:Hf; simplify_eq.
  - rewrite (run_unfold max (p ++ q)) by (by apply bytes_ok_app).
    rewrite try_decode_one_app, Hf by (done || congruence).
    pose proof (try_decode_one_post p max Hok) as Hpo. rewrite Hf in Hpo. destruct Hpo as [_ Hn].
    destruct (run max (drop n p)) as [c' [fs'|e|]] eqn:Hr'; unfold after in Hr; simplify_eq/=.
    rewrite drop_app_le by lia. rewrite (IH f n eq_refl c' fs' Hr'), after_after, drop_drop. done.
  - by rewrite drop_0, after_0.
Qed.

Lemma run_app_Err max p q c e :
  bytes_ok p -> bytes_ok q -> run max p = (c, Err e) -> run max (p ++ q) = (c, Err e).
Proof.
  intros Hp Hq. revert c. revert p Hp. apply (run_ind max (fun p => forall c, _ -> _)).
  intros p Hok IH c Hr. rewrite (run_unfold max p) in Hr by done.
  rewrite (run_unfold max (p ++ q)) by (by apply bytes_ok_app).
  pose proof (try_decode_one_post p max Hok) as Hpo.
  rewrite try_decode_one_app by (done || intros Hi; rewrite Hi in Hr; done).
  destruct (try_decode_one p max) as [[f n]|[]|] eqn:Hf; simplify_eq; [|done..].
  destruct Hpo as [_ Hn].
  destruct (run max (drop n p)) as [c' [fs'|e'|]] eqn:Hr'; unfold after in Hr; simplify_eq/=.
  rewrite drop_app_le by lia. by rewrite (IH f n eq_refl c' Hr').
Qed.

(** ** The decoder *)

Definition pending (d : CapsuleDecoder) : bytes := drop (consumed d) (buf d).

Lemma compact_threshold_pos : (0 < COMPACT_THRESHOLD)%nat.
Proof. apply Nat.ltb_lt. vm_compute. done. Qed.
#[global] Opaque COMPACT_THRESHOLD DEFAULT_MAX_CAPSULE_SIZE.

(** A decoder between calls: the cursor is in the buffer, and what is left of
    the buffer does not hold a whole capsule. *)
Definition decoder_ok (d : CapsuleDecoder) : Prop :=
  bytes_ok (buf d) /\ (consumed d <= length (buf d))%nat /\
  try_decode_one (pending d) (max_capsule_size d) = Err Incomplete.

Lemma with_max_ok max : decoder_ok (with_max_capsule_size max).
Proof. repeat split; [constructor|simpl; lia]. Qed.

Lemma compact_pending d :
  pending (compact d) = pending d /\ max_capsule_size (compact d) = max_capsule_size d.
Proof. unfold compact, pending. by destruct (_ && _). Qed.

Lemma compact_bounds d :
  decoder_ok d ->
  bytes_ok (buf (compact d)) /\ (consumed (compact d) <= length (buf (compact d)))%nat /\
  (consumed (compact d) < COMPACT_THRESHOLD)%nat.
Proof.
  intros (Hb & Hc & _). unfold compact. pose proof compact_threshold_pos.
  destruct (bool_decide (0 < consumed d)%nat) eqn:H0; cbn [andb].
  - apply bool_decide_eq_true in H0.
    destruct (bool_decide (COMPACT_THRESHOLD <= consumed d)%nat) eqn:H1; cbn [orb].
    { cbn [buf consumed]. split; [by auto with masque|]. split; [lia|lia]. }
    apply bool_decide_eq_false in H1. case_bool_decide; cbn [buf consumed].
    + split; [by auto with masque|]. split; [lia|lia].
    + split; [done|split; [done|lia]].
  - apply bool_decide_eq_false in H0. split; [done|split; [done|lia]].
Qed.

(** [decode] runs on the pending bytes followed by the new ones. *)
Lemma decode_run d data :
  decoder_ok d -> bytes_ok data ->
  let o := run (max_capsule_size d) (pending d ++ data) in
  (decode d data).2 = o.2 /\
  pending (decode d data).1 = drop o.1 (pending d ++ data) /\
  max_capsule_size (decode d data).1 = max_capsule_size d /\
  bytes_ok (buf (decode d data).1) /\
  (consumed (decode d data).1 <= length (buf (decode d data).1))%nat /\
  (length (buf (decode d data).1) <= COMPACT_THRESHOLD + length (pending d) + length data)%nat.
Proof.
  intros Hd Hdata. destruct (compact_pending d) as [Hp Hm].
  destruct (compact_bounds d Hd) as (Hb & Hc & Ht).
  assert (bytes_ok (buf (compact d) ++ data)) as Hok by (by apply bytes_ok_app).
  unfold decode. rewrite Hm. set (c := consumed (compact d)) in *.
  assert (drop c (buf (compact d) ++ data) = pending d ++ data) as Hdrop
    by (rewrite drop_app_le by done; by rewrite <- Hp).
  rewrite decode_loop_shift, Hdrop by (done || solve_len).
  rewrite (decode_loop_fuel _ (S (length (pending d ++ data))))
    by (rewrite <- Hdrop; by auto with masque || (rewrite <- Hdrop; solve_len) || solve_len).
  fold (run (max_capsule_size d) (pending d ++ data)).
  destruct (run_post (max_capsule_size d) (pending d ++ data)) as (Hle & _);
    [rewrite <- Hdrop; by auto with masque|].
  assert (length (pending d) = length (buf (compact d)) - c)%nat as Hlp
    by (rewrite <- Hp; unfold pending; by rewrite length_drop).
  rewrite length_app in Hle.
  destruct (run _ (pending d ++ data)) as [n r]; unfold after; simpl in *.
  split; [by destruct r|]. unfold pending at 1; simpl.
  rewrite <- drop_drop, Hdrop. repeat split; [done|solve_len..].
Qed.

Lemma decode_ok d data :
  decoder_ok d -> bytes_ok data ->
  post (decode d data).2 (fun fs => Forall frame_ok fs /\ decoder_ok (decode d data).1).
Proof.
  intros Hd Hdata. destruct (decode_run d data Hd Hdata) as (Hr & Hp & Hm & Hb & Hc & _).
  assert (bytes_ok (pending d ++ data)) as Hok
    by (apply bytes_ok_app; destruct Hd; unfold pending; by auto with masque).
  destruct (run_post (max_capsule_size d) _ Hok) as (_ & Hpost & _). rewrite Hr.
  eapply post_mono; [exact Hpost|]. intros fs [? Hi]. split; [done|].
  unfold decoder_ok. by rewrite Hp, Hm.
Qed.

(** Feeding a stream chunk by chunk, as the stream readers do: the first error
    ends it. *)
Fixpoint feed (d : CapsuleDecoder) (chunks : list bytes)
    : CapsuleDecoder * result DecodeError (list CapsuleFrame) :=
  match chunks with
  | [] => (d, Ok [])
  | chunk :: chunks' =>
      match decode d chunk with
      | (d', Ok fs) => let '(d'', r) := feed d' chunks' in (d'', app fs <$> r)
      | (d', r) => (d', r)
      end
  end.

(** Encoding frames one after the other into the same buffer. *)
Fixpoint encode_all {E} (frames : list CapsuleFrame) (buf : bytes) : result E bytes :=
  match frames with
  | [] => Ok buf
  | f :: frames' => buf ← encode f buf; encode_all frames' buf
  end.

Lemma pending_ok d : decoder_ok d -> bytes_ok (pending d).
Proof. intros (Hb & _). unfold pending. by auto with masque. Qed.

Lemma run_incomplete max p :
  bytes_ok p -> try_decode_one p max = Err Incomplete -> run max p = (0%nat, Ok []).
Proof. intros Hok Hi. by rewrite run_unfold, Hi. Qed.

(** The refinement behind chunking: [feed] is one run over all the bytes. *)
Lemma feed_run d chunks :
  decoder_ok d -> Forall bytes_ok chunks ->
  let o := run (max_capsule_size d) (pending d ++ concat chunks) in
  (feed d chunks).2 = o.2 /\
  (is_ok o.2 = true -> pending (feed d chunks).1 = drop o.1 (pending d ++ concat chunks) /\
     decoder_ok (feed d chunks).1 /\ max_capsule_size (feed d chunks).1 = max_capsule_size d).
Proof.
  intros Hd Hch. revert d Hd. induction Hch as [|chunk chunks Hc Hch IH]; intros d Hd; simpl.
  { rewrite app_nil_r, run_incomplete by (by apply pending_ok || apply Hd).
    simpl. by rewrite drop_0. }
  pose proof (pending_ok d Hd) as Hp.
  assert (bytes_ok (concat chunks)) as Hcc by (by apply bytes_ok_concat).
  destruct (decode_run d chunk Hd Hc) as (Hr & Hpd & Hm & _).
  pose proof (decode_ok d chunk Hd Hc) as Hdok.
  assert (bytes_ok (pending d ++ chunk)) as Hpc by (by apply bytes_ok_app).
  rewrite app_assoc. destruct (decode d chunk) as [d' r] eqn:Hdec; simpl in *. subst r.
  destruct (run (max_capsule_size d) (pending d ++ chunk)) as [c [fs|e|]] eqn:Hrun; simpl in *.
  - rewrite (run_app_Ok _ _ _ c fs) by done. destruct Hdok as [_ Hd'].
    destruct (IH d' Hd') as [IHr IHp]. rewrite Hm, Hpd in *.
    destruct (feed d' chunks) as [d'' r]; simpl in *. subst r. split; [done|].
    intros Hok. destruct (run _ (drop c _ ++ _)) as [c' [fs'|?|]]; try done; simpl in *.
    destruct (IHp eq_refl) as (-> & ? & ?).
    split; [|done]. rewrite <- drop_drop. f_equal. rewrite (drop_app_le (pending d ++ chunk)); [done|].
    destruct (run_post (max_capsule_size d) _ Hpc) as [Hle _]. rewrite Hrun in Hle. done.
  - by rewrite (run_app_Err _ _ _ c e).
  - done.
Qed.

Lemma assigned_wires_ok addrs : Forall assigned_ok addrs -> bytes_ok (assigned_wires addrs).
Proof.
  induction 1 as [|a addrs (Hid & Hip & Hp & _) Ha IH]; [constructor|].
  unfold assigned_wires. cbn [fmap list_fmap concat]. apply bytes_ok_app. split; [|done].
  unfold assigned_wire. rewrite !bytes_ok_app. split; [apply wire_ok|].
  rewrite !bytes_ok_singleton. split; [destruct (ip a); unfold byte_ok; simpl; lia|].
  split; [apply octets_ok|done].
Qed.

Lemma range_wires_ok ranges : Forall range_ok ranges -> bytes_ok (range_wires ranges).
Proof.
  induction 1 as [|r ranges (_ & _ & _ & _ & Hp) Hr IH]; [constructor|].
  unfold range_wires. cbn [fmap list_fmap concat]. apply bytes_ok_app. split; [|done].
  unfold range_wire. rewrite !bytes_ok_app.
  rewrite !bytes_ok_singleton. split; [destruct (start r); unfold byte_ok; simpl; lia|].
  split; [apply octets_ok|split; [apply octets_ok|done]].
Qed.

Lemma frame_value_ok f : frame_ok f -> bytes_ok (frame_value f).
Proof.
  destruct f; simpl; try done.
  - apply assigned_wires_ok.
  - intros (? & _). by apply assigned_wires_ok.
  - intros (? & _). by apply range_wires_ok.
  - intros (_ & _ & ?). done.
Qed.

Definition frame_wire (f : CapsuleFrame) : bytes := capsule_wire (frame_type f) (frame_value f).

Lemma frame_wire_ok f : frame_ok f -> bytes_ok (frame_wire f).
Proof.
  intros Hf. unfold frame_wire, capsule_wire. rewrite !bytes_ok_app.
  auto using wire_ok, frame_value_ok.
Qed.

(** The frames a sender may encode for a receiver that accepts [max] bytes. *)
Definition sendable (max : nat) (f : CapsuleFrame) : Prop :=
  frame_ok f /\ (length (frame_value f) <= max)%nat /\
  Z.of_nat (length (frame_value f)) <= MAX_VALUE.

Lemma encode_all_Ok {E} max frames l :
  Forall (sendable max) frames ->
  encode_all (E:=E) frames l = Ok (l ++ concat (frame_wire <$> frames)).
Proof.
  intros Hf. revert l. induction Hf as [|f frames (Hok & _ & Hl) Hf IH]; intros l; simpl.
  - by rewrite app_nil_r.
  - rewrite encode_frame_wire by done. simpl. by rewrite IH, <- app_assoc.
Qed.

Lemma run_frames max frames :
  Forall (sendable max) frames ->
  let w := concat (frame_wire <$> frames) in
  bytes_ok w /\ run max w = (length w, Ok frames).
Proof.
  induction 1 as [|f frames (Hok & Hmax & Hl) Hf [IHb IH]];
    cbn [fmap list_fmap concat]; [by split; [constructor|]|].
  assert (bytes_ok (frame_wire f ++ concat (frame_wire <$> frames))) as Hb
    by (apply bytes_ok_app; auto using frame_wire_ok).
  split; [done|]. rewrite run_unfold by done.
  assert (try_decode_one (frame_wire f ++ concat (frame_wire <$> frames)) max
          = Ok (f, length (frame_wire f))) as ->
    by (apply try_decode_one_wire; auto using frame_value_ok).
  rewrite drop_app_length, IH. unfold after. simpl. by rewrite length_app.
Qed.

Lemma frames_delivered max frames chunks :
  Forall (sendable max) frames -> concat chunks = concat (frame_wire <$> frames) ->
  (feed (with_max_capsule_size max) chunks).2 = Ok frames /\
  buffered (feed (with_max_capsule_size max) chunks).1 = 0%nat.
Proof.
  intros Hf Henc. destruct (run_frames max frames Hf) as [Hb Hr]. rewrite <- Henc in *.
  assert (Forall bytes_ok chunks) as Hch by (by apply Forall_concat in Hb).
  destruct (feed_run _ chunks (with_max_ok max) Hch) as [H1 H2]. simpl in *.
  change (pending (with_max_capsule_size max)) with (@nil Z) in *. simpl in *.
  rewrite Hr in H1, H2. split; [done|].
  destruct (H2 eq_refl) as [Hp _]. simpl in Hp. apply (f_equal length) in Hp.
  unfold pending in Hp. unfold buffered. rewrite !length_drop in Hp. lia.
Qed.

(** ** Properties of the codec *)

(** How the bytes of a stream are cut into reads does not matter: feeding
    the chunks to the incremental decoder one after the other yields the same
    frames, or the same error, as decoding all the bytes in one call. *)
Theorem decoder_chunking (max : nat) (chunks : list bytes) :
  Forall bytes_ok chunks ->
  (feed (with_max_capsule_size max) chunks).2
  = (decode (with_max_capsule_size max) (concat chunks)).2.
Proof.
  intros Hch. destruct (feed_run _ chunks (with_max_ok max) Hch) as [-> _].
  destruct (decode_run _ (concat chunks) (with_max_ok max)) as [-> _];
    [by apply bytes_ok_concat|done].
Qed.

Lemma decoder_chunking_witness :
  (feed (with_max_capsule_size 8) [[0]; [2; 7]; [9; 0x21]; [0]]).2
    = Ok [Datagram [7; 9]; Unknown 0x21 []] /\
  (decode (with_max_capsule_size 8) [0; 2; 7; 9; 0x21; 0]).2
    = Ok [Datagram [7; 9]; Unknown 0x21 []].
Proof.
  assert (Forall bytes_ok [[0]; [2; 7]; [9; 0x21]; [0]]) as Hok
    by (by apply (bool_decide_unpack _)).
  rewrite (decoder_chunking 8 [[0]; [2; 7]; [9; 0x21]; [0]] Hok).
  split; reflexivity.
Defined.

(** C22: any sequence of well-formed frames that fit the receiver's limit
    survives the wire: encoding them one after the other does not panic, and
    however the encoded bytes are cut into chunks, a fresh decoder yields
    exactly these frames and keeps no byte back. *)
Theorem capsule_roundtrip (max : nat) (frames : list CapsuleFrame) :
  Forall (sendable max) frames ->
  exists w, encode_all frames [] = Ok (E:=DecodeError) w /\
    forall chunks, concat chunks = w ->
      (feed (with_max_capsule_size max) chunks).2 = Ok frames /\
      buffered (feed (with_max_capsule_size max) chunks).1 = 0%nat.
Proof.
  intros Hf. exists (concat (frame_wire <$> frames)). rewrite (encode_all_Ok max) by done.
  split; [done|]. intros chunks. by apply frames_delivered.
Qed.

Definition sample_frames : list CapsuleFrame :=
  [AddressAssign [{| request_id := 1; ip := V4 0x0a000002; prefix_len := 32 |}];
   RouteAdvertisement
     [{| start := V4 0; end_ := V4 0xffffffff; ip_protocol := 0 |};
      {| start := V6 0; end_ := V6 1; ip_protocol := 17 |}];
   Datagram [0; 1; 2]].

Lemma capsule_roundtrip_witness :
  exists w, encode_all sample_frames [] = Ok (E:=DecodeError) w /\
    forall chunks, concat chunks = w ->
      (feed (with_max_capsule_size 64) chunks).2 = Ok sample_frames /\
      buffered (feed (with_max_capsule_size 64) chunks).1 = 0%nat.
Proof.
  apply (capsule_roundtrip 64 sample_frames).
  repeat constructor; vm_compute; try done; try (by intros).
  all: try (exists 0x0a000002; reflexivity).
  all: by left.
Defined.

(** Whatever bytes a peer sends, in whatever chunks, the decoder does not
    panic; every frame it accepts is well formed (addresses without host bits,
    request identifiers non-zero, route ranges pairwise ordered and disjoint);
    and the bytes it holds back stay below the limit plus one header. *)
Theorem decoder_sound (max : nat) (chunks : list bytes) :
  Forall bytes_ok chunks ->
  post (feed (with_max_capsule_size max) chunks).2 (fun frames =>
    Forall frame_ok frames /\
    (buffered (feed (with_max_capsule_size max) chunks).1 < 16 + max)%nat).
Proof.
  intros Hch. destruct (feed_run _ chunks (with_max_ok max) Hch) as [Hr Hd]. rewrite Hr.
  assert (bytes_ok (pending (with_max_capsule_size max) ++ concat chunks)) as Hb
    by (by apply bytes_ok_concat).
  destruct (run_post max _ Hb) as (_ & Hp & _). simpl in *.
  destruct (run max _) as [c [fs|e|]]; simpl in *; [|done..].
  split; [apply Hp|]. destruct (Hd eq_refl) as (_ & (Hbok & Hc & Hi) & Hm).
  rewrite Hm in Hi. apply incomplete_bound in Hi; [|unfold pending; by auto with masque].
  unfold pending in Hi. rewrite length_drop in Hi. done.
Qed.

Definition sample_chunks : list bytes := [[0]; [2; 7]; [9; 0x21]].

Lemma decoder_sound_witness :
  post (feed (with_max_capsule_size 8) sample_chunks).2 (fun frames =>
    Forall frame_ok frames /\
    (buffered (feed (with_max_capsule_size 8) sample_chunks).1 < 16 + 8)%nat).
Proof.
  apply (decoder_sound 8 sample_chunks). by apply (bool_decide_unpack _).
Defined.
