(* ===== verification/CapsuleStream.v ===== *)
(** * Streaming capsule readers

    Models [src/capsule/datagram.rs] (the incremental DATAGRAM reader, which
    skips other capsules without buffering them) and [src/capsule/ip.rs] (the
    CONNECT-IP control reader and the ADDRESS_REQUEST responder). *)

From stdpp Require Import strings.
From S2P Require Import Prelude Varint Net Capsule.
Open Scope Z_scope.

(** ** The DATAGRAM reader *)

Record DatagramCapsules := {
  header : bytes;
  header_len : nat;
  remaining : Z;
  value : option bytes;
  limit : nat;
  control_limit : option nat;
  kind : Z;
}.

Definition datagrams_new (limit : nat) : DatagramCapsules :=
  {| header := replicate 16 0; header_len := 0; remaining := 0; value := None;
     limit := limit; control_limit := None; kind := CAPSULE_DATAGRAM |}.

Definition with_ip_controls (limit control_limit : nat) : DatagramCapsules :=
  {| header := replicate 16 0; header_len := 0; remaining := 0; value := None;
     limit := limit; control_limit := Some control_limit; kind := CAPSULE_DATAGRAM |}.

Definition is_partial (s : DatagramCapsules) : bool :=
  negb (bool_decide (header_len s = 0%nat)) || negb (bool_decide (remaining s = 0)).

(** The two [let Ok(..) = varint::decode(..) else continue]. *)
Definition parse_header (header : bytes) (header_len : nat)
    : result DecodeError (option (Z * Z)) :=
  h ← slice header 0 header_len;
  match Varint.decode h with
  | Ok (kind, type_len) =>
      l ← slice header type_len header_len;
      match Varint.decode l with
      | Ok (length, _) => Ok (Some (kind, length))
      | Err _ => Ok None
      | Panic => Panic
      end
  | Err _ => Ok None
  | Panic => Panic
  end.

(** The bound on a value of this kind; [None] is a kind that is skipped. *)
Definition kind_limit (s : DatagramCapsules) (kind : Z) : option nat :=
  if bool_decide (kind = CAPSULE_DATAGRAM) then Some (limit s)
  else if bool_decide (kind = CAPSULE_ADDRESS_ASSIGN \/ kind = CAPSULE_ADDRESS_REQUEST \/
                       kind = CAPSULE_ROUTE_ADVERTISEMENT) then control_limit s
  else None.

Section decode_with.
  (** [receive] is the caller's closure; [T] is what it captures. *)
  Context {T : Type} (receive : T -> Z -> bytes -> result DecodeError T).

(** One iteration that reads a header byte. *)
Definition header_step (s : DatagramCapsules) (data : bytes) (acc : T)
    : DatagramCapsules * result DecodeError (bytes * T) :=
  match data with
  | [] => (s, Panic)
  | b :: data' =>
      if bool_decide (header_len s < length (header s))%nat then
        let s1 := {| header := <[header_len s := b]> (header s);
                     header_len := S (header_len s); remaining := remaining s;
                     value := value s; limit := limit s; control_limit := control_limit s;
                     kind := kind s |} in
        match parse_header (header s1) (header_len s1) with
        | Ok None => (s1, Ok (data', acc))
        | Ok (Some (k, len)) =>
            let s2 v := {| header := header s1; header_len := 0; remaining := len; value := v;
                           limit := limit s; control_limit := control_limit s; kind := k |} in
            match kind_limit s k with
            | Some lim =>
                if bool_decide (len > Z.of_nat lim)
                then (s2 (value s), Err (TooLarge len (Z.of_nat lim)))
                else if bool_decide (len = 0)
                then (s2 None, acc' ← receive acc k []; Ok (data', acc'))
                else (s2 (Some []), Ok (data', acc))
            | None => (s2 None, Ok (data', acc))
            end
        | Err e => (s1, Err e)
        | Panic => (s1, Panic)
        end
      else (s, Panic)
  end.

(** One iteration that collects or skips value bytes. *)
Definition value_step (s : DatagramCapsules) (data : bytes) (acc : T)
    : DatagramCapsules * result DecodeError (bytes * T) :=
  let take_ := Z.to_nat (remaining s `min` Z.of_nat (length data)) in
  let value' := (fun v => v ++ take take_ data) <$> value s in
  let remaining' := remaining s - Z.of_nat take_ in
  let data' := drop take_ data in
  let s' v := {| header := header s; header_len := header_len s; remaining := remaining';
                 value := v; limit := limit s; control_limit := control_limit s;
                 kind := kind s |} in
  match value' with
  | Some v =>
      if bool_decide (remaining' = 0)
      then (s' None, acc' ← receive acc (kind s) v; Ok (data', acc'))
      else (s' (Some v), Ok (data', acc))
  | None => (s' None, Ok (data', acc))
  end.

Fixpoint decode_with_loop (fuel : nat) (s : DatagramCapsules) (data : bytes) (acc : T)
    : DatagramCapsules * result DecodeError T :=
  match fuel with
  | O => (s, Panic)
  | S fuel' =>
      if bool_decide (data = []) then (s, Ok acc) else
      match (if bool_decide (remaining s = 0) then header_step s data acc
             else value_step s data acc) with
      | (s', Ok (data', acc')) => decode_with_loop fuel' s' data' acc'
      | (s', Err e) => (s', Err e)
      | (s', Panic) => (s', Panic)
      end
  end.

Definition decode_with (s : DatagramCapsules) (data : bytes) (acc : T)
    : DatagramCapsules * result DecodeError T :=
  decode_with_loop (S (length data)) s data acc.
End decode_with.

Definition datagrams_decode (s : DatagramCapsules) (data : bytes)
    : DatagramCapsules * result DecodeError (list bytes) :=
  decode_with (fun datagrams _ value => Ok (datagrams ++ [value])) s data [].

(** ** The CONNECT-IP reader *)

Definition MAX_ADDRESS_REQUEST_SIZE : nat := 16 * 1024.
Definition MAX_ADDRESS_REQUEST_IDS : nat := 1024.

Record IpCapsules := { decoder : DatagramCapsules }.

Definition ip_capsules_new (max_datagram : nat) : IpCapsules :=
  {| decoder := with_ip_controls max_datagram MAX_ADDRESS_REQUEST_SIZE |}.

Definition ip_is_partial (s : IpCapsules) : bool := is_partial (decoder s).

Definition ip_receive (frames : list CapsuleFrame) (kind : Z) (value : bytes)
    : result DecodeError (list CapsuleFrame) :=
  frame ← (if bool_decide (kind = CAPSULE_DATAGRAM) then Ok (Datagram value)
           else parse_capsule_value kind value);
  Ok (frames ++ [frame]).

Definition ip_decode (s : IpCapsules) (data : bytes)
    : IpCapsules * result DecodeError (list CapsuleFrame) :=
  let '(d, r) := decode_with ip_receive (decoder s) data [] in
  ({| decoder := d |}, r).

(** ** Address requests *)

Record AddressRequests := { seen : gset Z }.

Definition assignment (request_id : Z) (ip : IpAddr) : AssignedAddress :=
  match ip with
  | IpV4 z => {| request_id := request_id; ip := V4 z; prefix_len := 32 |}
  | IpV6 z => {| request_id := request_id; ip := V6 z; prefix_len := 128 |}
  end.

(** The identifiers are recorded one by one; the set keeps those recorded
    before a repeated one. *)
Fixpoint record_ids (seen : gset Z) (requests : list AssignedAddress) : gset Z * bool :=
  match requests with
  | [] => (seen, true)
  | request :: requests' =>
      if bool_decide (request_id request = 0) || bool_decide (request_id request ∈ seen)
      then (seen, false)
      else record_ids ({[request_id request]} ∪ seen) requests'
  end.

Definition grants (request : AssignedAddress) (lease_ip : IpAddr) : bool :=
  match lease_ip, ip request with
  | IpV4 a, V4 wanted =>
      bool_decide (prefix_len request = 32) && (bool_decide (wanted = 0) || bool_decide (a = wanted))
  | IpV6 a, V6 wanted =>
      bool_decide (prefix_len request = 128) && (bool_decide (wanted = 0) || bool_decide (a = wanted))
  | _, _ => false
  end.

Definition rejected (request : AssignedAddress) : IpAddr :=
  match ip request with V4 _ => UNSPECIFIED_V4 | V6 _ => UNSPECIFIED_V6 end.

Definition answer (lease : list IpAddr) (request : AssignedAddress) : AssignedAddress :=
  assignment (request_id request) (default (rejected request) (List.find (grants request) lease)).

(** Every leased address that no answer mentions, with identifier zero. *)
Fixpoint complete_snapshot (lease : list IpAddr) (assigned : list AssignedAddress)
    : list AssignedAddress :=
  match lease with
  | [] => assigned
  | a :: lease' =>
      let entry := assignment 0 a in
      if existsb (fun address => bool_decide (ip address = ip entry)) assigned
      then complete_snapshot lease' assigned
      else complete_snapshot lease' (assigned ++ [entry])
  end.

(** [MAX_ADDRESS_REQUEST_IDS - self.seen.len()] would overflow with more
    identifiers than the limit; the model panics there. *)
Definition respond (s : AddressRequests) (requests : list AssignedAddress) (lease : list IpAddr)
    : AddressRequests * result DecodeError CapsuleFrame :=
  if bool_decide (requests = []) then (s, Err (Malformed "ADDRESS_REQUEST limit exceeded"))
  else if bool_decide (MAX_ADDRESS_REQUEST_IDS < size (seen s))%nat then (s, Panic)
  else if bool_decide (MAX_ADDRESS_REQUEST_IDS - size (seen s) < length requests)%nat
  then (s, Err (Malformed "ADDRESS_REQUEST limit exceeded"))
  else
    let '(seen', fresh) := record_ids (seen s) requests in
    if fresh
    then ({| seen := seen' |},
          Ok (AddressAssign (complete_snapshot lease (answer lease <$> requests))))
    else ({| seen := seen' |}, Err (Malformed "reused ADDRESS_REQUEST identifier")).

(** ** The reader between bytes *)

(** A header is being read ([remaining = 0]) and does not decode yet, or a
    value is: then the header is empty and a kept value plus what is missing
    fits the limit of its kind. *)
Definition reader_ok (s : DatagramCapsules) : Prop :=
  length (header s) = 16%nat /\ bytes_ok (header s) /\ 0 <= remaining s /\ varint_ok (kind s) /\
  parse_header (header s) (header_len s) = Ok None /\
  match value s with
  | None => True
  | Some v => 0 < remaining s /\ bytes_ok v /\
      exists lim, kind_limit s (kind s) = Some lim /\
        Z.of_nat (length v) + remaining s <= Z.of_nat lim
  end /\
  (0 < remaining s -> header_len s = 0%nat).

(** Sixteen bytes always hold a complete header. *)
Lemma parse_header_None h n :
  bytes_ok h -> length h = 16%nat -> parse_header h n = Ok None -> (n < 16)%nat.
Proof.
  intros Hok Hlen H. unfold parse_header in H.
  destruct (slice h 0 n) as [h0|e|] eqn:Hs; try done. simpl in H.
  apply slice_inv in Hs as [[_ Hn] ->]. rewrite drop_0, Nat.sub_0_r in H.
  destruct (decide (n = 16%nat)) as [->|]; [exfalso|lia].
  rewrite take_ge in H by lia.
  destruct (Varint.decode h) as [[k tl]|e|] eqn:Hd;
    [|apply decode_Err in Hd as [_ ?]; [lia|done]|by apply decode_no_panic in Hd].
  apply decode_value in Hd as (_ & ? & ?); [|done].
  rewrite slice_Ok in H by lia. simpl in H. rewrite take_ge in H by solve_len.
  destruct (Varint.decode (drop tl h)) as [[len ll]|e|] eqn:Hd;
    [done|apply decode_Err in Hd as [_ ?]; [solve_len|by auto with masque]|done].
Qed.

Lemma parse_header_post h n :
  bytes_ok h -> (n <= length h)%nat ->
  post (parse_header h n) (fun o => match o with None => True | Some (k, len) => varint_ok k /\ varint_ok len end).
Proof.
  intros Hok Hn. unfold parse_header. wp.
  destruct (Varint.decode (take (n - 0) (drop 0 h))) as [[k tl]|e|] eqn:Hd; [|done|].
  2: { apply decode_no_panic in Hd; by auto with masque. }
  apply decode_value in Hd as (? & ? & Hle); [|by auto with masque].
  wp. destruct (Varint.decode (take (n - tl) (drop tl h))) as [[len ll]|e|] eqn:Hl; [|done|].
  2: { apply decode_no_panic in Hl; by auto with masque. }
  apply decode_value in Hl as (? & _); [done|by auto with masque].
Qed.

Lemma parse_header_errs h n e : parse_header h n <> Err e.
Proof.
  unfold parse_header. destruct (slice h 0 n) as [h0|e'|] eqn:Hs; simpl; [|apply slice_no_err in Hs; done|done].
  destruct (Varint.decode h0) as [[k tl]|e'|]; [|done..].
  destruct (slice h tl n) as [h1|e'|] eqn:Hs'; simpl; [|apply slice_no_err in Hs'; done|done].
  by destruct (Varint.decode h1) as [[]|e''|].
Qed.

Lemma parse_header_0 h : parse_header h 0 = Ok None.
Proof. unfold parse_header. rewrite slice_Ok by lia. done. Qed.

Lemma reader_new_ok limit control :
  reader_ok {| header := replicate 16 0; header_len := 0; remaining := 0; value := None;
               limit := limit; control_limit := control; kind := CAPSULE_DATAGRAM |}.
Proof.
  repeat split; try done. apply Forall_replicate. done.
Qed.

(** Close the fields of [reader_ok] that follow from the context. *)
Ltac reader_tac :=
  unfold reader_ok; cbn [header header_len remaining value limit control_limit kind];
  split_and!; rewrite ?length_insert; try done; try lia; try apply parse_header_0.

Section bytewise.
  Context {T : Type} (receive : T -> Z -> bytes -> result DecodeError T).

(** The reference: one byte per step. *)
Definition byte_step (s : DatagramCapsules) (b : Z) (acc : T)
    : DatagramCapsules * result DecodeError T :=
  let '(s', r) := if bool_decide (remaining s = 0) then header_step receive s [b] acc
                  else value_step receive s [b] acc in
  (s', snd <$> r).

Fixpoint bytewise (s : DatagramCapsules) (data : bytes) (acc : T)
    : DatagramCapsules * result DecodeError T :=
  match data with
  | [] => (s, Ok acc)
  | b :: data' =>
      match byte_step s b acc with
      | (s', Ok acc') => bytewise s' data' acc'
      | o => o
      end
  end.

Lemma bytewise_app s data more acc :
  bytewise s (data ++ more) acc =
  match bytewise s data acc with
  | (s', Ok acc') => bytewise s' more acc'
  | o => o
  end.
Proof.
  revert s acc. induction data as [|b data IH]; intros s acc; simpl; [done|].
  destruct (byte_step s b acc) as [s' [acc'|e|]]; [apply IH|done..].
Qed.

Lemma header_step_cons s b data acc :
  header_step receive s (b :: data) acc
  = let '(s', r) := header_step receive s [b] acc in (s', (fun p => (data, snd p)) <$> r).
Proof.
  unfold header_step. case_bool_decide; [|done].
  destruct (parse_header _ _) as [[[k len]|]|e|]; simpl; [|done..].
  destruct (kind_limit s k) as [lim|]; simpl; [|done].
  case_bool_decide; [done|]. case_bool_decide; [|done]. by destruct (receive acc k []).
Qed.

Lemma value_step_cons s b data acc :
  0 < remaining s ->
  value_step receive s (b :: data) acc =
  match value_step receive s [b] acc with
  | (s1, Ok (_, acc1)) =>
      if bool_decide (remaining s1 = 0) then (s1, Ok (data, acc1))
      else value_step receive s1 data acc1
  | o => o
  end.
Proof.
  intros Hr. unfold value_step. cbn [length].
  replace (Z.to_nat (remaining s `min` Z.of_nat 1)) with 1%nat by lia.
  destruct (decide (remaining s = 1)) as [H1|H1].
  - replace (Z.to_nat (remaining s `min` Z.of_nat (S (length data)))) with 1%nat by lia.
    rewrite H1. destruct (value s) as [v|]; simpl; [|by rewrite drop_0].
    rewrite take_0, drop_0. by destruct (receive acc (kind s) (v ++ [b])).
  - replace (Z.to_nat (remaining s `min` Z.of_nat (S (length data))))
      with (S (Z.to_nat ((remaining s - 1) `min` Z.of_nat (length data)))) by lia.
    destruct (value s) as [v|]; cbn [fmap option_fmap option_map take drop];
      rewrite ?take_0.
    + rewrite (bool_decide_false (remaining s - Z.of_nat 1 = 0)) by lia. simpl.
      rewrite (bool_decide_false (remaining s - 1 = 0)) by lia. simpl.
      set (n := Z.to_nat ((remaining s - 1) `min` Z.of_nat (length data))).
      replace (remaining s - Z.of_nat (S n)) with (remaining s - 1 - Z.of_nat n) by lia.
      by rewrite <- app_assoc.
    + simpl. rewrite (bool_decide_false (remaining s - 1 = 0)) by lia. simpl.
      set (n := Z.to_nat ((remaining s - 1) `min` Z.of_nat (length data))).
      replace (remaining s - Z.of_nat (S n)) with (remaining s - 1 - Z.of_nat n) by lia.
      done.
Qed.

(** A value the reader may hand to [receive]. *)
Definition deliverable (s : DatagramCapsules) (k : Z) (v : bytes) : Prop :=
  varint_ok k /\ bytes_ok v /\ exists lim, kind_limit s k = Some lim /\ (length v <= lim)%nat.

(** How a step can end: nothing delivered, one value delivered, a value too
    large for its kind, or a failure of [receive]. *)
Definition outcome (s : DatagramCapsules) (acc : T) (r : result DecodeError T) : Prop :=
  match r with
  | Ok acc' => acc' = acc \/ exists k v, deliverable s k v /\ receive acc k v = Ok acc'
  | Err e =>
      (exists k len lim, e = TooLarge len (Z.of_nat lim) /\ kind_limit s k = Some lim /\
         len > Z.of_nat lim) \/
      exists k v, deliverable s k v /\ receive acc k v = Err e
  | Panic => exists k v, deliverable s k v /\ receive acc k v = Panic
  end.

Lemma value_step_ok s data acc s' r :
  reader_ok s -> bytes_ok data -> 0 < remaining s -> value_step receive s data acc = (s', r) ->
  limit s' = limit s /\ control_limit s' = control_limit s /\
  match r with Ok _ => reader_ok s' | _ => True end /\ outcome s acc (snd <$> r).
Proof.
  intros (Hlen & Hbok & Hrem & Hkind & Hnone & Hval & Hh) Hd H0. unfold value_step.
  set (n := Z.to_nat _). specialize (Hh H0).
  assert (Z.of_nat n <= remaining s) as Hn by lia.
  assert (n <= length data)%nat as Hnl by lia. clearbody n.
  destruct (value s) as [v|] eqn:Hv; simpl.
  - destruct Hval as (_ & Hvok & lim & Hlim & Hle).
    assert (bytes_ok (v ++ take n data)) as Hvok' by (apply bytes_ok_app; by auto with masque).
    assert (length (v ++ take n data) = length v + n)%nat as Hvl
      by (rewrite length_app, length_take_le by done; lia).
    case_bool_decide.
    { assert (deliverable s (kind s) (v ++ take n data)) as Hdel
        by (split_and!; [done..|]; exists lim; split; [done|lia]).
      destruct (receive acc (kind s) (v ++ take n data)) as [a|e|] eqn:Hrv; simpl;
        intros [= <- <-]; split_and!; [done|done|by reader_tac|simpl; by eauto 6|..]; simpl;
        by eauto 6. }
    intros [= <- <-]. split_and!; [done..| |by left]. reader_tac.
    exists lim. split; [done|]. rewrite Hvl. lia.
  - intros [= <- <-]. split_and!; [done..|by reader_tac|by left].
Qed.

(** What one byte does to a reader in order. *)
Lemma byte_step_ok s b acc s' r :
  reader_ok s -> byte_ok b -> byte_step s b acc = (s', r) ->
  limit s' = limit s /\ control_limit s' = control_limit s /\
  match r with Ok _ => reader_ok s' | _ => True end /\ outcome s acc r.
Proof.
  intros Hs Hb. pose proof Hs as (Hlen & Hbok & Hrem & Hkind & Hnone & Hval & Hh).
  unfold byte_step.
  pose proof (parse_header_None _ _ Hbok Hlen Hnone) as Hlt.
  case_bool_decide as H0.
  - unfold header_step. rewrite bool_decide_true by lia. cbn [header header_len].
    assert (bytes_ok (<[header_len s:=b]> (header s))) as Hbok' by (by apply Forall_insert).
    pose proof (parse_header_post _ (S (header_len s)) Hbok') as Hp.
    rewrite length_insert in Hp. specialize (Hp ltac:(lia)).
    destruct (value s) as [v|] eqn:Hv; [lia|].
    revert Hp. destruct (parse_header (<[_:=_]> _) _) as [[[k len]|]|e|] eqn:Hph; intros Hp; try done.
    + destruct Hp as [Hk Hl]. unfold varint_ok in *.
      destruct (kind_limit s k) as [lim|] eqn:Hlim.
      * case_bool_decide.
        { intros [= <- <-]. split_and!; try done. left. by exists k, len, lim. }
        case_bool_decide.
        { assert (deliverable s k []) as Hdel
            by (split_and!; [done|constructor|]; exists lim; split; [done|simpl; lia]).
          destruct (receive acc k []) as [a|e|] eqn:Hrv; simpl; intros [= <- <-];
            split_and!; [done|done|by reader_tac|simpl; by eauto 6|..]; simpl; by eauto 6. }
        intros [= <- <-]. split_and!; [done..| |by left]. reader_tac; [constructor|].
        exists lim. split; [done|simpl; lia].
      * intros [= <- <-]. split_and!; [done..|by reader_tac|by left].
    + intros [= <- <-]. split_and!; [done..|by reader_tac|by left].
    + exfalso. by apply (parse_header_errs (<[header_len s:=b]> (header s)) (S (header_len s)) e).
  - intros Hst. destruct (value_step receive s [b] acc) as [s1 r1] eqn:Hv. simplify_eq.
    destruct (value_step_ok s [b] acc s' r1) as (? & ? & Hr1 & Ho);
      [done|by apply bytes_ok_singleton|lia|done|].
    split_and!; [done..| |done]. by destruct r1 as [[]|e|].
Qed.

(** The bulk loop is the byte-at-a-time reader. *)
Lemma value_step_bytewise s data acc :
  0 < remaining s -> data <> [] ->
  bytewise s data acc =
  match value_step receive s data acc with
  | (s', Ok (data', acc')) => bytewise s' data' acc'
  | (s', Err e) => (s', Err e)
  | (s', Panic) => (s', Panic)
  end.
Proof.
  revert s acc. induction data as [|b data IH]; intros s acc Hr Hne; [done|].
  rewrite value_step_cons by done. simpl. unfold byte_step.
  rewrite bool_decide_false by lia.
  destruct (value_step receive s [b] acc) as [s1 [[d1 a1]|e|]] eqn:Hv; simpl; [|done..].
  case_bool_decide as H0; [done|].
  assert (0 < remaining s1) as Hr1.
  { revert Hv. unfold value_step. cbn [length].
    replace (Z.to_nat (remaining s `min` Z.of_nat 1)) with 1%nat by lia.
    destruct (value s) as [v|]; simpl; repeat case_bool_decide;
      try (destruct (receive acc (kind s) (v ++ [b])); simpl); intros; simplify_eq/=; lia. }
  destruct data as [|b' data]; [|by apply IH].
  simpl. unfold value_step. simpl. rewrite Z.min_r by lia. simpl.
  rewrite Z.sub_0_r. rewrite bool_decide_false by done.
  destruct s1 as [h hl rm [v|] lm cl k]; simpl; by rewrite ?app_nil_r.
Qed.

Lemma value_step_data s data acc s' data' acc' :
  0 < remaining s -> data <> [] ->
  value_step receive s data acc = (s', Ok (data', acc')) ->
  (length data' < length data)%nat /\ data' `suffix_of` data.
Proof.
  intros Hr Hne. apply nonempty_length in Hne. unfold value_step.
  set (n := Z.to_nat _). assert (1 <= n)%nat as Hn by lia. clearbody n.
  intros H. assert (data' = drop n data) as ->.
  { destruct (value s) as [v|]; simpl in H; repeat case_bool_decide;
      try (destruct (receive acc (kind s) (v ++ take n data)); simpl in H); simplify_eq/=; done. }
  split; [solve_len|]. exists (take n data). by rewrite take_drop.
Qed.

Lemma decode_with_bytewise s data acc :
  reader_ok s -> bytes_ok data -> decode_with receive s data acc = bytewise s data acc.
Proof.
  unfold decode_with. intros Hs Hd.
  assert (length data < S (length data))%nat as Hfuel by lia. revert Hfuel.
  generalize (S (length data)) as fuel. intros fuel. revert s data acc Hs Hd.
  induction fuel as [|fuel IH]; intros s data acc Hs Hd Hfuel; [lia|]. simpl.
  case_bool_decide as Hdata; [by subst|].
  case_bool_decide as H0.
  - destruct data as [|b data]; [done|]. apply bytes_ok_cons in Hd as [Hb Hd].
    rewrite header_step_cons. cbn [bytewise]. pose proof (byte_step_ok s b acc) as Hok.
    unfold byte_step in Hok |- *. rewrite (bool_decide_true _ H0) in Hok |- *.
    destruct (header_step receive s [b] acc) as [s1 [[d1 a1]|e|]]; simpl in *; [|done..].
    apply IH; [|done|simpl in Hfuel; lia]. by destruct (Hok _ _ Hs Hb eq_refl) as (_ & _ & ? & _).
  - assert (0 < remaining s) as Hr by (destruct Hs as (_ & _ & ? & _); lia).
    rewrite value_step_bytewise by done.
    destruct (value_step receive s data acc) as [s1 [[d1 a1]|e|]] eqn:Hv; [|done..].
    destruct (value_step_data _ _ _ _ _ _ Hr Hdata Hv) as [Hlt [pre ->]].
    destruct (value_step_ok _ _ _ _ _ Hs Hd Hr Hv) as (_ & _ & Hs1 & _).
    apply IH; [done| |lia]. by apply bytes_ok_app in Hd as [_ ?].
Qed.

Lemma bytewise_ok s data acc s' acc' :
  reader_ok s -> bytes_ok data -> bytewise s data acc = (s', Ok acc') ->
  reader_ok s' /\ limit s' = limit s /\ control_limit s' = control_limit s.
Proof.
  intros Hs Hd. revert s acc Hs. induction Hd as [|b data Hb Hd IH]; intros s acc Hs; simpl.
  { intros. by simplify_eq. }
  destruct (byte_step s b acc) as [s1 [a1|e|]] eqn:Hst; intros H; simplify_eq.
  destruct (byte_step_ok _ _ _ _ _ Hs Hb Hst) as (? & ? & ? & _).
  destruct (IH _ _ ltac:(done) H) as (? & ? & ?). split_and!; congruence.
Qed.
End bytewise.

(** ** Whole capsules *)

(** [h] is a capsule header for type [t] and a value of [len] bytes, in any
    varint form, minimal or not. *)
Definition header_of (h : bytes) (t len : Z) : Prop :=
  bytes_ok h /\ exists tl ll, Varint.decode h = Ok (t, tl) /\
    Varint.decode (drop tl h) = Ok (len, ll) /\ length h = (tl + ll)%nat.

Definition capsule_bytes (c : Z * bytes) (w : bytes) : Prop :=
  bytes_ok c.2 /\ exists h, w = h ++ c.2 /\ header_of h c.1 (Z.of_nat (length c.2)).

Lemma decode_short p v n k :
  bytes_ok p -> Varint.decode p = Ok (v, n) -> (k < n)%nat ->
  Varint.decode (take k p) = Err BufferTooShort.
Proof.
  intros Hok Hd Hk. destruct p as [|b p]; [done|]. destruct k as [|k]; [done|].
  apply bytes_ok_cons in Hok as [Hb Hok]. rewrite decode_cons in Hd by done.
  case_bool_decide; simplify_eq. cbn [take]. rewrite decode_cons by done.
  rewrite bool_decide_true; [done|]. rewrite length_take. lia.
Qed.

Lemma header_of_length h t len : header_of h t len -> (1 <= length h <= 16)%nat.
Proof.
  intros (Hok & tl & ll & Ht & Hl & ->).
  apply decode_value in Ht as (_ & ? & _); [|done].
  apply decode_value in Hl as (_ & ? & _); [|by auto with masque].
  pose proof (wire_len_bounds t). lia.
Qed.

Lemma take_split {A} (l : list A) n k : (n <= k)%nat -> take n l ++ drop n (take k l) = take k l.
Proof.
  intros. rewrite <- (take_drop n (take k l)) at 2. by rewrite take_take, Nat.min_l by lia.
Qed.

(** A header decodes when its last byte is in, and not before. *)
Lemma parse_header_prefix h t len hd k :
  header_of h t len -> take k hd = take k h -> (k <= length h)%nat -> (k <= length hd)%nat ->
  parse_header hd k = Ok (if bool_decide (k = length h) then Some (t, len) else None).
Proof.
  intros (Hok & tl & ll & Ht & Hl & Hlen) Hk Hle Hlehd. unfold parse_header.
  rewrite slice_Ok, drop_0, Nat.sub_0_r, Hk by lia. simpl.
  destruct (decide (k < tl)%nat) as [Hlt|Hge].
  - rewrite (decode_short h t tl) by done. by rewrite bool_decide_false by lia.
  - destruct (decode_prefix h t tl (drop tl (take k h)) Hok Ht) as [_ Hp].
    rewrite take_split in Hp by lia. rewrite Hp, slice_Ok by lia. simpl.
    rewrite <- skipn_firstn_comm, Hk, skipn_firstn_comm.
    case_bool_decide as Hkl.
    + rewrite (take_ge (drop tl h)) by solve_len. by rewrite Hl.
    + rewrite (decode_short (drop tl h) len ll) by (lia || by auto with masque). done.
Qed.

(** A reader at a capsule boundary. *)
Definition idle (s : DatagramCapsules) : Prop :=
  reader_ok s /\ header_len s = 0%nat /\ remaining s = 0 /\ value s = None.

Section capsules.
  Context {T : Type} (receive : T -> Z -> bytes -> result DecodeError T).

(** The reader after [k] header bytes of [h]. *)
Definition in_header (s : DatagramCapsules) (h : bytes) (k : nat) : DatagramCapsules :=
  {| header := take k h ++ drop k (header s); header_len := k; remaining := 0; value := None;
     limit := limit s; control_limit := control_limit s; kind := kind s |}.

(** The reader after the header of a capsule of type [t]. *)
Definition in_value (s : DatagramCapsules) (h : bytes) (t len : Z) (v : option bytes)
    : DatagramCapsules :=
  {| header := h ++ drop (length h) (header s); header_len := 0; remaining := len; value := v;
     limit := limit s; control_limit := control_limit s; kind := t |}.

Lemma insert_header (h hd : bytes) k b :
  h !! k = Some b -> (k < length hd)%nat ->
  <[k:=b]> (take k h ++ drop k hd) = take (S k) h ++ drop (S k) hd.
Proof.
  intros Hb Hk. pose proof (lookup_lt_Some _ _ _ Hb) as Hlt.
  rewrite insert_app_r_alt by (rewrite length_take; lia).
  rewrite length_take_le, Nat.sub_diag by lia.
  destruct (lookup_lt_is_Some_2 hd k Hk) as [x Hx].
  rewrite (drop_S hd x k Hx), (take_S_r h k b Hb), <- app_assoc. done.
Qed.

Lemma header_byte s h t len k b acc :
  length (header s) = 16%nat -> header_of h t len -> h !! k = Some b ->
  byte_step receive (in_header s h k) b acc =
  if bool_decide (S k = length h) then
    match kind_limit s t with
    | Some lim =>
        if bool_decide (len > Z.of_nat lim)
        then (in_value s h t len None, Err (TooLarge len (Z.of_nat lim)))
        else if bool_decide (len = 0) then (in_value s h t len None, receive acc t [])
        else (in_value s h t len (Some []), Ok acc)
    | None => (in_value s h t len None, Ok acc)
    end
  else (in_header s h (S k), Ok acc).
Proof.
  intros Hlen Hh Hb. pose proof (header_of_length _ _ _ Hh) as Hhl.
  pose proof (lookup_lt_Some _ _ _ Hb) as Hk.
  unfold byte_step, header_step. cbn [remaining in_header header header_len].
  rewrite bool_decide_true by done.
  rewrite bool_decide_true by (rewrite length_app, length_take, length_drop; lia).
  rewrite insert_header by (done || lia).
  rewrite (parse_header_prefix h t len); [|done|
    by rewrite take_app_length' by (rewrite length_take; lia)|lia
    |rewrite length_app, length_take, length_drop; lia].
  case_bool_decide as Hlast; [|done].
  change (kind_limit (in_header s h k) t) with (kind_limit s t).
  unfold in_value. rewrite Hlast, firstn_all.
  destruct (kind_limit s t) as [lim|]; [|done].
  case_bool_decide; [done|]. case_bool_decide; [|done]. by destruct (receive acc t []).
Qed.

Lemma bytewise_in_header s h t len k acc :
  idle s -> header_of h t len -> (k < length h)%nat ->
  bytewise receive s (take k h) acc = (in_header s h k, Ok acc).
Proof.
  intros (Hok & Hl0 & Hr & Hv) Hh. induction k as [|k IH]; intros Hk.
  { rewrite take_0. simpl. unfold in_header. rewrite take_0, drop_0.
    destruct s; simpl in *; by subst. }
  destruct (lookup_lt_is_Some_2 h k) as [b Hb]; [lia|].
  rewrite (take_S_r h k b Hb), bytewise_app, IH by lia. simpl.
  rewrite (header_byte s h t len) by (done || apply Hok).
  by rewrite bool_decide_false by lia.
Qed.

Lemma bytewise_header s h t len acc :
  idle s -> header_of h t len ->
  bytewise receive s h acc =
  match kind_limit s t with
  | Some lim =>
      if bool_decide (len > Z.of_nat lim)
      then (in_value s h t len None, Err (TooLarge len (Z.of_nat lim)))
      else if bool_decide (len = 0) then (in_value s h t len None, receive acc t [])
      else (in_value s h t len (Some []), Ok acc)
  | None => (in_value s h t len None, Ok acc)
  end.
Proof.
  intros Hs Hh. pose proof (header_of_length _ _ _ Hh) as Hhl.
  destruct (lookup_lt_is_Some_2 h (length h - 1)) as [b Hb]; [lia|].
  assert (take (length h - 1) h ++ [b] = h) as Hsplit.
  { rewrite <- (take_S_r h _ b Hb). apply take_ge. lia. }
  rewrite <- Hsplit at 1. rewrite bytewise_app.
  rewrite (bytewise_in_header s h t len) by (done || lia). simpl.
  rewrite (header_byte s h t len) by (done || apply Hs).
  rewrite bool_decide_true by lia. destruct (kind_limit s t) as [lim|]; [|done].
  case_bool_decide; [done|]. case_bool_decide; [|done]. by destruct (receive acc t []).
Qed.

(** A whole capsule takes a reader from boundary to boundary, and delivers its
    value when the reader keeps values of its type. *)
Lemma bytewise_capsule s c w acc :
  idle s -> capsule_bytes c w ->
  match kind_limit s c.1 with Some lim => (length c.2 <= lim)%nat | None => True end ->
  exists s', bytewise receive s w acc
      = (s', match kind_limit s c.1 with Some _ => receive acc c.1 c.2 | None => Ok acc end) /\
    idle s' /\ limit s' = limit s /\ control_limit s' = control_limit s.
Proof.
  intros Hs (Hvok & h & -> & Hh) Hlim. destruct c as [t v]; simpl in *.
  pose proof (header_of_length _ _ _ Hh) as Hhl. pose proof Hs as ((Hlen & Hhok & _) & _).
  assert (idle (in_value s h t 0 None)) as Hi.
  { unfold idle. split_and!; try done. unfold in_value. reader_tac.
    - rewrite length_app, length_drop. lia.
    - apply bytes_ok_app. destruct Hh. by auto with masque.
    - destruct Hh as (Hok & tl & ll & Ht & _). by apply decode_value in Ht as (? & _). }
  rewrite bytewise_app, (bytewise_header s h t (Z.of_nat (length v))) by done.
  destruct v as [|b0 v].
  - exists (in_value s h t 0 None). destruct (kind_limit s t) as [lim|]; simpl; [|done].
    rewrite bool_decide_false by lia. by destruct (receive acc t []).
  - destruct (kind_limit s t) as [lim|] eqn:Hlm.
    + rewrite bool_decide_false by lia. rewrite bool_decide_false by done.
      rewrite value_step_bytewise by done. unfold value_step.
      cbn [remaining in_value value header header_len limit control_limit kind].
      rewrite Z.min_l, Nat2Z.id, firstn_all, drop_all, Z.sub_diag by lia. simpl.
      exists (in_value s h t 0 None). by destruct (receive acc t (b0 :: v)).
    + rewrite value_step_bytewise by done. unfold value_step.
      cbn [remaining in_value value header header_len limit control_limit kind].
      rewrite Z.min_l, Nat2Z.id, drop_all, Z.sub_diag by lia. simpl.
      by exists (in_value s h t 0 None).
Qed.
End capsules.

(** ** Streams of capsules *)

(** Feeding a stream chunk by chunk; the first error ends it. *)
Fixpoint feed_chunks {S A} (dec : S -> bytes -> S * result DecodeError (list A))
    (s : S) (chunks : list bytes) : S * result DecodeError (list A) :=
  match chunks with
  | [] => (s, Ok [])
  | chunk :: chunks' =>
      match dec s chunk with
      | (s', Ok l) => let '(s'', r) := feed_chunks dec s' chunks' in (s'', app l <$> r)
      | o => o
      end
  end.

Section streams.
  Context {A : Type} (receive : list A -> Z -> bytes -> result DecodeError (list A)).
  (** The closure only appends to what it captured. *)
  Hypothesis receive_app : forall x y k v, receive (x ++ y) k v = app x <$> receive y k v.

Definition under (x : list A) (o : DatagramCapsules * result DecodeError (list A))
    : DatagramCapsules * result DecodeError (list A) := (o.1, app x <$> o.2).

Lemma byte_step_app s b x y :
  byte_step receive s b (x ++ y) = under x (byte_step receive s b y).
Proof.
  unfold byte_step, under. case_bool_decide.
  - unfold header_step. case_bool_decide; [|done].
    destruct (parse_header _ _) as [[[k len]|]|e|]; simpl; [|done..].
    destruct (kind_limit s k) as [lim|]; simpl; [|done].
    case_bool_decide; [done|]. case_bool_decide; [|done]. simpl.
    rewrite receive_app. by destruct (receive y k []).
  - unfold value_step. destruct (value s) as [v|]; simpl; [|done].
    case_bool_decide; [|done]. simpl. rewrite receive_app.
    by destruct (receive y (kind s) _).
Qed.

Lemma bytewise_acc s data x y :
  bytewise receive s data (x ++ y) = under x (bytewise receive s data y).
Proof.
  revert s y. induction data as [|b data IH]; intros s y; simpl; [done|].
  rewrite byte_step_app. destruct (byte_step receive s b y) as [s' [a|e|]]; [apply IH|done..].
Qed.

Lemma feed_bytewise s chunks :
  reader_ok s -> Forall bytes_ok chunks ->
  feed_chunks (fun s data => decode_with receive s data []) s chunks
  = bytewise receive s (concat chunks) [].
Proof.
  intros Hs Hch. revert s Hs. induction Hch as [|c chunks Hc Hch IH]; intros s Hs; simpl; [done|].
  rewrite decode_with_bytewise, bytewise_app by done.
  destruct (bytewise receive s c []) as [s' [l|e|]] eqn:Hbw; [|done..].
  rewrite IH by (by eapply bytewise_ok).
  pose proof (bytewise_acc s' (concat chunks) l []) as Ha. rewrite app_nil_r in Ha. rewrite Ha.
  by destruct (bytewise receive s' (concat chunks) []).
Qed.

(** What a reader with these limits delivers of a list of capsules. *)
Fixpoint deliveries (s : DatagramCapsules) (caps : list (Z * bytes)) : result DecodeError (list A) :=
  match caps with
  | [] => Ok []
  | (t, v) :: caps' =>
      match kind_limit s t with
      | Some _ => l ← receive [] t v; app l <$> deliveries s caps'
      | None => deliveries s caps'
      end
  end.

Definition within_limits (s : DatagramCapsules) (c : Z * bytes) : Prop :=
  match kind_limit s c.1 with Some lim => (length c.2 <= lim)%nat | None => True end.

Lemma bytewise_capsules s caps ws :
  idle s -> Forall2 capsule_bytes caps ws -> Forall (within_limits s) caps ->
  (bytewise receive s (concat ws) []).2 = deliveries s caps /\
  (is_ok (deliveries s caps) = true ->
     idle (bytewise receive s (concat ws) []).1 /\
     limit (bytewise receive s (concat ws) []).1 = limit s /\
     control_limit (bytewise receive s (concat ws) []).1 = control_limit s).
Proof.
  intros Hs Hcw. revert s Hs.
  induction Hcw as [|[t v] w caps ws Hc Hcw IH]; intros s Hs Hlim; simpl; [done|].
  apply Forall_cons_1 in Hlim as [Hl Hlim]. rewrite bytewise_app.
  destruct (bytewise_capsule receive s (t, v) w [] Hs Hc Hl) as (s' & -> & Hs' & El & Ec).
  assert (forall k, kind_limit s' k = kind_limit s k) as Hkl
    by (intros k; unfold kind_limit; by rewrite El, Ec).
  assert (forall cs, deliveries s' cs = deliveries s cs) as Hdel.
  { induction cs as [|[k u] cs IHc]; simpl; [done|]. by rewrite Hkl, IHc. }
  assert (Forall (within_limits s') caps) as Hlim'.
  { eapply Forall_impl; [exact Hlim|]. intros c. unfold within_limits. by rewrite Hkl. }
  destruct (IH s' Hs' Hlim') as [IH1 IH2]. rewrite Hdel in *. cbn [fst snd].
  destruct (kind_limit s t) as [lim|].
  - destruct (receive [] t v) as [l|e|]; simpl; [|done..].
    pose proof (bytewise_acc s' (concat ws) l []) as Ha. rewrite app_nil_r in Ha. rewrite Ha.
    unfold under. simpl. rewrite IH1.
    split; [done|]. intros Hok. destruct IH2 as (? & ? & ?); [by destruct (deliveries s caps)|].
    split_and!; [done|congruence..].
  - split; [done|]. intros Hok. destruct IH2 as (? & ? & ?); [done|].
    split_and!; [done|congruence..].
Qed.
End streams.

Section safety.
  Context {T : Type} (receive : T -> Z -> bytes -> result DecodeError T) (P : T -> Prop).
  Context (s0 : DatagramCapsules).
  Hypothesis receive_P : forall acc k v acc',
    P acc -> deliverable s0 k v -> receive acc k v = Ok acc' -> P acc'.

(** The outcomes of a run are those of its steps. *)
Lemma bytewise_outcome s data acc :
  reader_ok s -> limit s = limit s0 -> control_limit s = control_limit s0 ->
  bytes_ok data -> P acc ->
  match bytewise receive s data acc with
  | (s', Ok acc') => reader_ok s' /\ P acc'
  | (s', r) => exists acc1, P acc1 /\ outcome receive s0 acc1 r
  end.
Proof.
  intros Hs Hl Hc Hd. revert s acc Hs Hl Hc.
  induction Hd as [|b data Hb Hd IH]; intros s acc Hs Hl Hc HP; simpl; [done|].
  destruct (byte_step receive s b acc) as [s1 r1] eqn:Hst.
  destruct (byte_step_ok receive _ _ _ _ _ Hs Hb Hst) as (El & Ec & Hs1 & Ho).
  assert (forall k, kind_limit s k = kind_limit s0 k) as Hk
    by (intros k; unfold kind_limit; by rewrite Hl, Hc).
  assert (forall k v, deliverable s k v -> deliverable s0 k v) as Hdel
    by (intros k v; unfold deliverable; by rewrite Hk).
  destruct r1 as [a1|e|]; simpl in Ho.
  - apply IH; [done|congruence..|]. destruct Ho as [->|(k & v & ? & ?)]; [done|].
    eapply receive_P; eauto.
  - exists acc. split; [done|]. simpl. destruct Ho as [(k & len & lim & -> & Hlim & ?)|(k & v & ? & ?)].
    + left. exists k, len, lim. by rewrite <- Hk.
    + right. eauto.
  - exists acc. split; [done|]. destruct Ho as (k & v & ? & ?). simpl. eauto.
Qed.
End safety.

Lemma idle_new limit control :
  idle {| header := replicate 16 0; header_len := 0; remaining := 0; value := None;
          limit := limit; control_limit := control; kind := CAPSULE_DATAGRAM |}.
Proof. split_and!; [apply reader_new_ok|done..]. Qed.

Lemma idle_not_partial s : idle s -> is_partial s = false.
Proof. intros (_ & H1 & H2 & _). unfold is_partial. by rewrite H1, H2. Qed.

(** Inside a capsule nothing is delivered and the reader says it is partial. *)
Lemma bytewise_partial {T} (receive : T -> Z -> bytes -> result DecodeError T) s c w k acc :
  idle s -> capsule_bytes c w -> within_limits s c -> (0 < k < length w)%nat ->
  exists s', bytewise receive s (take k w) acc = (s', Ok acc) /\ is_partial s' = true.
Proof.
  intros Hs (Hvok & h & -> & Hh) Hlim Hk. destruct c as [t v]; simpl in *.
  pose proof (header_of_length _ _ _ Hh) as Hhl. pose proof Hs as ((Hlen & Hhok & _) & _).
  destruct (decide (k < length h)%nat) as [Hkh|Hkh].
  { exists (in_header s h k). rewrite take_app_le by lia.
    rewrite (bytewise_in_header receive s h t (Z.of_nat (length v))) by done.
    split; [done|]. unfold is_partial. simpl. by rewrite bool_decide_false by lia. }
  rewrite length_app in Hk. rewrite take_app_ge, bytewise_app by lia.
  set (j := (k - length h)%nat). assert (j < length v)%nat as Hj by lia.
  rewrite (bytewise_header receive s h t (Z.of_nat (length v))) by done.
  unfold within_limits in Hlim. simpl in Hlim.
  assert (forall o, exists s', bytewise receive (in_value s h t (Z.of_nat (length v)) o) (take j v) acc
     = (s', Ok acc) /\ is_partial s' = true) as Hval.
  { intros o. destruct (decide (j = 0%nat)) as [->|Hj0].
    { rewrite take_0. eexists. split; [done|]. unfold is_partial. simpl.
      by rewrite bool_decide_false by lia. }
    rewrite value_step_bytewise; [|simpl; lia|intros E; apply (f_equal length) in E; solve_len].
    unfold value_step. cbn [remaining in_value value header header_len limit control_limit kind].
    rewrite length_take_le, Z.min_r, Nat2Z.id by lia.
    rewrite (drop_ge (take j v)) by (rewrite length_take; lia).
    destruct o as [o|]; simpl; [rewrite bool_decide_false by lia|]; simpl.
    all: eexists; split; [done|]; unfold is_partial; simpl; by rewrite bool_decide_false by lia. }
  destruct (kind_limit s t) as [lim|]; [|apply Hval].
  rewrite bool_decide_false by lia. rewrite bool_decide_false by lia. apply Hval.
Qed.

(** ** The two readers *)

Lemma datagram_receive_app (x y : list bytes) (k : Z) v :
  (Ok ((x ++ y) ++ [v]) : result DecodeError (list bytes)) = app x <$> Ok (y ++ [v]).
Proof. simpl. by rewrite <- app_assoc. Qed.

Lemma ip_receive_app x y k v : ip_receive (x ++ y) k v = app x <$> ip_receive y k v.
Proof.
  unfold ip_receive. destruct (if bool_decide _ then _ else _) as [f|e|]; simpl; [|done..].
  by rewrite <- app_assoc.
Qed.

(** The DATAGRAM values of a list of capsules. *)
Definition datagram_values (caps : list (Z * bytes)) : list bytes :=
  snd <$> filter (fun c : Z * bytes => c.1 = CAPSULE_DATAGRAM) caps.

Lemma datagram_deliveries limit caps :
  deliveries (fun datagrams _ value => Ok (datagrams ++ [value])) (datagrams_new limit) caps
  = Ok (datagram_values caps).
Proof.
  unfold datagram_values. induction caps as [|[t v] caps IH]; [done|]. simpl.
  unfold kind_limit. case_bool_decide as Ht.
  - simpl. rewrite IH, filter_cons_True by done. done.
  - rewrite filter_cons_False by done. by case_bool_decide.
Qed.

(** The frames the IP reader must deliver: known kinds parsed, others skipped. *)
Fixpoint ip_frames (caps : list (Z * bytes)) : result DecodeError (list CapsuleFrame) :=
  match caps with
  | [] => Ok []
  | (t, v) :: caps' =>
      if bool_decide (t <= 3) then f ← parse_capsule_value t v; cons f <$> ip_frames caps'
      else ip_frames caps'
  end.

Lemma ip_deliveries max caps :
  Forall (fun c => 0 <= c.1) caps ->
  deliveries ip_receive (decoder (ip_capsules_new max)) caps = ip_frames caps.
Proof.
  induction 1 as [|[t v] caps Ht Hc IH]; [done|]. simpl in *.
  unfold kind_limit, CAPSULE_DATAGRAM, CAPSULE_ADDRESS_ASSIGN, CAPSULE_ADDRESS_REQUEST,
    CAPSULE_ROUTE_ADVERTISEMENT in *.
  rewrite IH. unfold ip_receive, CAPSULE_DATAGRAM. case_bool_decide; simpl.
  - subst. by destruct (ip_frames caps).
  - case_bool_decide; simpl.
    + rewrite bool_decide_true by lia. by destruct (parse_capsule_value t v).
    + by rewrite bool_decide_false by lia.
Qed.

Lemma feed_ip_decode s chunks :
  feed_chunks ip_decode s chunks
  = (Build_IpCapsules (feed_chunks (fun s data => decode_with ip_receive s data []) (decoder s) chunks).1,
     (feed_chunks (fun s data => decode_with ip_receive s data []) (decoder s) chunks).2).
Proof.
  revert s. induction chunks as [|c chunks IH]; intros s; simpl; [by destruct s|].
  unfold ip_decode at 1. destruct (decode_with ip_receive (decoder s) c []) as [d [l|e|]]; [|done..].
  rewrite IH. simpl. by destruct (feed_chunks _ d chunks).
Qed.

Lemma capsule_bytes_nonneg c w : capsule_bytes c w -> 0 <= c.1.
Proof.
  intros (_ & h & _ & Hok & tl & ll & Ht & _).
  apply decode_value in Ht as (Hv & _); [|done]. apply Hv.
Qed.

Lemma capsule_bytes_ok c w : capsule_bytes c w -> bytes_ok w.
Proof. intros (Hv & h & -> & Hok & _). by apply bytes_ok_app. Qed.

(** What the IP reader keeps of a deliverable value. *)
Lemma ip_receive_frames max acc k v acc' :
  Forall (fun f => frame_ok f /\
    match f with Datagram payload => (length payload <= max)%nat | _ => True end) acc ->
  deliverable (decoder (ip_capsules_new max)) k v -> ip_receive acc k v = Ok acc' ->
  Forall (fun f => frame_ok f /\
    match f with Datagram payload => (length payload <= max)%nat | _ => True end) acc'.
Proof.
  intros Hacc (Hk & Hv & lim & Hlim & Hle) Hr. unfold ip_receive in Hr. inv_res.
  apply Forall_app. split; [done|]. apply Forall_singleton.
  unfold kind_limit in Hlim. case_bool_decide as H0; simplify_eq/=; [done|].
  pose proof (parse_capsule_value_post k v Hk Hv) as Hp. rewrite H in Hp. split; [done|].
  unfold parse_capsule_value in H. rewrite bool_decide_false in H by done.
  repeat case_bool_decide; inv_res; done.
Qed.

(** The streaming DATAGRAM reader delivers exactly the values of the
    DATAGRAM capsules of a stream, in order and whole, whatever their varint
    forms, whatever other capsules are between them and however the stream is
    cut into chunks; and when the stream stops [k] bytes into a capsule it
    reports a truncated capsule if and only if [k] is not zero. *)
Theorem datagram_reader_correct (lim : nat) (caps : list (Z * bytes)) (ws chunks : list bytes)
    (c : Z * bytes) (w : bytes) (k : nat) :
  Forall2 capsule_bytes caps ws -> capsule_bytes c w -> (k < length w)%nat ->
  Forall (fun c => c.1 = CAPSULE_DATAGRAM -> (length c.2 <= lim)%nat) (c :: caps) ->
  concat chunks = concat ws ++ take k w ->
  (feed_chunks datagrams_decode (datagrams_new lim) chunks).2 = Ok (datagram_values caps) /\
  is_partial (feed_chunks datagrams_decode (datagrams_new lim) chunks).1 = bool_decide (k <> 0%nat).
Proof.
  intros Hcw Hc Hk Hlims Hcat. set (s := datagrams_new lim).
  assert (idle s) as Hs by apply idle_new.
  assert (Forall (within_limits s) (c :: caps)) as Hw.
  { eapply Forall_impl; [exact Hlims|]. intros c' H. unfold within_limits, kind_limit.
    case_bool_decide; [by apply H|]. by case_bool_decide. }
  apply Forall_cons_1 in Hw as [Hwc Hw].
  assert (bytes_ok (concat chunks)) as Hok.
  { rewrite Hcat. apply bytes_ok_app. split; [|by eapply bytes_ok_take, capsule_bytes_ok].
    apply bytes_ok_concat. eapply Forall2_Forall_r; [exact Hcw|].
    apply Forall_true. intros c' w'. by apply capsule_bytes_ok. }
  unfold datagrams_decode.
  rewrite (feed_bytewise (fun datagrams _ value => Ok (datagrams ++ [value])));
    [|apply datagram_receive_app|apply Hs|by apply Forall_concat in Hok].
  rewrite Hcat, bytewise_app.
  destruct (bytewise_capsules (fun datagrams _ value => Ok (datagrams ++ [value]))
    datagram_receive_app s caps ws Hs Hcw Hw) as [Hr Hi].
  unfold s in Hr, Hi. rewrite datagram_deliveries in Hr, Hi.
  destruct (bytewise _ _ (concat ws) []) as [s1 r1]; simpl in Hr, Hi. subst r1.
  destruct (Hi eq_refl) as (Hs1 & El & Ec).
  destruct (decide (k = 0%nat)) as [->|Hk0].
  { rewrite take_0. simpl. by rewrite idle_not_partial. }
  destruct (bytewise_partial (fun datagrams _ value => Ok (datagrams ++ [value]))
    s1 c w k (datagram_values caps)) as (s' & -> & Hp); [done..| |lia|].
  { unfold within_limits, kind_limit in *. by rewrite El, Ec. }
  simpl. split; [done|]. by rewrite Hp, bool_decide_true by done.
Qed.

Lemma datagram_reader_correct_witness :
  (feed_chunks datagrams_decode (datagrams_new 4) [[0; 2; 7]; [9; 0x21; 1; 1; 0; 0x40]]).2
    = Ok [[7; 9]] /\
  is_partial (feed_chunks datagrams_decode (datagrams_new 4) [[0; 2; 7]; [9; 0x21; 1; 1; 0; 0x40]]).1
    = bool_decide (2 <> 0)%nat.
Proof.
  apply (datagram_reader_correct 4 [(0, [7; 9]); (0x21, [1])] [[0; 2; 7; 9]; [0x21; 1; 1]]
           [[0; 2; 7]; [9; 0x21; 1; 1; 0; 0x40]] (0, [5]) [0; 0x40; 1; 5] 2).
  - constructor; [|constructor; [|constructor]].
    + split; [by apply (bool_decide_unpack _)|]. exists [0; 2]. split; [done|].
      split; [by apply (bool_decide_unpack _)|]. exists 1%nat, 1%nat. done.
    + split; [by apply (bool_decide_unpack _)|]. exists [0x21; 1]. split; [done|].
      split; [by apply (bool_decide_unpack _)|]. exists 1%nat, 1%nat. done.
  - split; [by apply (bool_decide_unpack _)|]. exists [0; 0x40; 1]. split; [done|].
    split; [by apply (bool_decide_unpack _)|]. exists 1%nat, 2%nat. done.
  - simpl. lia.
  - repeat constructor; simpl; lia.
  - reflexivity.
Defined.



(** Whatever bytes a peer sends on a CONNECT-IP stream, in whatever chunks,
    the reader does not panic (its 16-byte header never overflows); every frame
    it delivers is well formed; every DATAGRAM it delivers fits the negotiated
    size; and what it has buffered of a value never exceeds the larger limit. *)
Theorem ip_reader_safe (max : nat) (chunks : list bytes) :
  Forall bytes_ok chunks ->
  let s := (feed_chunks ip_decode (ip_capsules_new max) chunks).1 in
  post (feed_chunks ip_decode (ip_capsules_new max) chunks).2 (fun frames =>
    Forall (fun f => frame_ok f /\
      match f with Datagram payload => (length payload <= max)%nat | _ => True end) frames /\
    (header_len (decoder s) < 16)%nat /\
    match value (decoder s) with
    | Some v => (length v <= max `max` MAX_ADDRESS_REQUEST_SIZE)%nat
    | None => True
    end).
Proof.
  intros Hch. rewrite feed_ip_decode. cbn [fst snd decoder].
  set (s0 := decoder (ip_capsules_new max)). assert (idle s0) as Hs by apply idle_new.
  rewrite (feed_bytewise ip_receive ip_receive_app) by (done || apply Hs).
  pose proof (bytewise_outcome ip_receive (fun frames => Forall (fun f => frame_ok f /\
      match f with Datagram payload => (length payload <= max)%nat | _ => True end) frames) s0) as Ho.
  specialize (Ho (ip_receive_frames max) s0 (concat chunks) []).
  specialize (Ho (proj1 Hs) eq_refl eq_refl (bytes_ok_concat _ Hch) ltac:(constructor)).
  assert (Hlims := bytewise_ok ip_receive s0 (concat chunks) []).
  destruct (bytewise ip_receive s0 (concat chunks) []) as [s' [fs|e|]]; simpl in *; [|done|].
  - destruct Ho as [Hs' Hfs]. destruct (Hlims s' fs (proj1 Hs) (bytes_ok_concat _ Hch) eq_refl)
      as (_ & El & Ec).
    split; [done|]. destruct Hs' as (Hlen & Hbok & _ & _ & Hnone & Hval & _).
    split; [by eapply parse_header_None|].
    destruct (value s') as [v|]; [|done]. destruct Hval as (Hrem & _ & lim & Hlim & Hle).
    unfold kind_limit in Hlim. rewrite El, Ec in Hlim.
    case_bool_decide; [simplify_eq/=; lia|]. case_bool_decide; simplify_eq/=. lia.
  - destruct Ho as (acc & _ & k & v & (Hk & Hv & _) & Hp). exfalso. revert Hp.
    unfold ip_receive. case_bool_decide; [done|].
    pose proof (parse_capsule_value_post k v Hk Hv) as Hpost. by destruct (parse_capsule_value k v).
Qed.

Lemma ip_reader_safe_witness :
  let s := (feed_chunks ip_decode (ip_capsules_new 4) [[0; 1]; [7; 2]]).1 in
  post (feed_chunks ip_decode (ip_capsules_new 4) [[0; 1]; [7; 2]]).2 (fun frames =>
    Forall (fun f => frame_ok f /\
      match f with Datagram payload => (length payload <= 4)%nat | _ => True end) frames /\
    (header_len (decoder s) < 16)%nat /\
    match value (decoder s) with
    | Some v => (length v <= 4 `max` MAX_ADDRESS_REQUEST_SIZE)%nat
    | None => True
    end).
Proof.
  apply (ip_reader_safe 4 [[0; 1]; [7; 2]]). by apply (bool_decide_unpack _).
Defined.

(** ** Answers to address requests *)

Lemma record_ids_spec seen requests :
  let '(seen', fresh) := record_ids seen requests in
  (size seen' <= size seen + length requests)%nat /\
  (fresh = true ->
     seen' = list_to_set (request_id <$> requests) ∪ seen /\
     NoDup (request_id <$> requests) /\
     Forall (fun r => request_id r <> 0 /\ request_id r ∉ seen) requests).
Proof.
  revert seen. induction requests as [|r requests IH]; intros seen; simpl.
  { split; [lia|]. intros _. split_and!; [set_solver|constructor|constructor]. }
  destruct (bool_decide (request_id r = 0)) eqn:H0; simpl; [split; [lia|done]|].
  destruct (bool_decide (request_id r ∈ seen)) eqn:H1; [split; [lia|done]|].
  apply bool_decide_eq_false in H0, H1.
  specialize (IH ({[request_id r]} ∪ seen)).
  destruct (record_ids _ requests) as [seen' fresh]. destruct IH as [Hsz Hfr].
  rewrite size_union in Hsz by set_solver. rewrite size_singleton in Hsz.
  split; [lia|]. intros Hf. destruct (Hfr Hf) as (-> & Hnd & Hall).
  rewrite Forall_forall in Hall.
  split_and!; [set_solver| |].
  - constructor; [|done]. intros (r' & Hid & Hin)%list_elem_of_fmap.
    destruct (Hall r' Hin) as [_ Hn]. set_solver.
  - constructor; [done|]. apply Forall_forall. intros r' Hin. destruct (Hall r' Hin). set_solver.
Qed.

Lemma complete_snapshot_spec lease assigned :
  exists extra, complete_snapshot lease assigned = assigned ++ extra /\
    Forall (fun e => exists a, a ∈ lease /\ e = assignment 0 a) extra /\
    (forall a, a ∈ lease -> exists e, e ∈ assigned ++ extra /\ ip e = ip (assignment 0 a)).
Proof.
  revert assigned. induction lease as [|a lease IH]; intros assigned; simpl.
  { exists []. split_and!; [by rewrite app_nil_r|constructor|by intros a Ha%elem_of_nil]. }
  destruct (existsb _ assigned) eqn:Hex.
  - destruct (IH assigned) as (extra & -> & Hx & Hall). exists extra. split_and!; [done| |].
    + eapply Forall_impl; [exact Hx|]. intros e (b & ? & ?). exists b. set_solver.
    + intros b [->|Hb]%elem_of_cons; [|by apply Hall].
      apply existsb_exists in Hex as (e & Hin & He). apply bool_decide_eq_true in He.
      exists e. apply list_elem_of_In in Hin. set_solver.
  - destruct (IH (assigned ++ [assignment 0 a])) as (extra & -> & Hx & Hall).
    exists (assignment 0 a :: extra). split_and!; [by rewrite <- app_assoc| |].
    + constructor; [exists a; set_solver|].
      eapply Forall_impl; [exact Hx|]. intros e (b & ? & ?). exists b. set_solver.
    + intros b [->|Hb]%elem_of_cons.
      * exists (assignment 0 a). set_solver.
      * destruct (Hall b Hb) as (e & He & ?). exists e. split; [|done].
        by rewrite <- app_assoc in He.
Qed.

(** An answer carries a leased address or is the rejection of its family. *)
Lemma answer_spec lease request :
  request_id (answer lease request) = request_id request /\
  ((exists a, a ∈ lease /\ answer lease request = assignment (request_id request) a) \/
   answer lease request = assignment (request_id request) (rejected request)).
Proof.
  unfold answer. split; [by destruct (default _ _)|].
  destruct (List.find (grants request) lease) as [a|] eqn:Hf; simpl; [left|by right].
  exists a. apply find_some in Hf as [Hin _]. by apply list_elem_of_In in Hin.
Qed.

(** A reply to an ADDRESS_REQUEST stays inside the lease.  From a state
    with at most 1024 recorded identifiers [respond] never panics and keeps
    that bound.  When it answers, the identifiers are new, non-zero and
    distinct, and all recorded; the answers come first, in the order of the
    requests; every entry names a leased address or is an unspecified-address
    rejection; and every leased address is in the reply. *)
Theorem address_response (s : AddressRequests) (requests : list AssignedAddress)
    (lease : list IpAddr) :
  (size (seen s) <= MAX_ADDRESS_REQUEST_IDS)%nat ->
  let '(s', r) := respond s requests lease in
  (size (seen s') <= MAX_ADDRESS_REQUEST_IDS)%nat /\
  post r (fun f => exists assigned, f = AddressAssign assigned /\
    NoDup (request_id <$> requests) /\
    Forall (fun q => request_id q <> 0 /\ request_id q ∉ seen s) requests /\
    seen s' = list_to_set (request_id <$> requests) ∪ seen s /\
    request_id <$> take (length requests) assigned = request_id <$> requests /\
    Forall (fun e => (exists a, a ∈ lease /\ ip e = ip (assignment 0 a)) \/
                     (exists q, q ∈ requests /\ e = assignment (request_id q) (rejected q))) assigned /\
    (forall a, a ∈ lease -> exists e, e ∈ assigned /\ ip e = ip (assignment 0 a))).
Proof.
  intros Hsz. unfold respond. case_bool_decide; [done|].
  rewrite bool_decide_false by lia. case_bool_decide as Hn; [done|].
  pose proof (record_ids_spec (seen s) requests) as Hr.
  destruct (record_ids (seen s) requests) as [seen' fresh]. destruct Hr as [Hsz' Hfr].
  destruct fresh; cbn [seen]; (split; [lia|]); [|done].
  destruct (Hfr eq_refl) as (-> & Hnd & Hall). cbn [post].
  destruct (complete_snapshot_spec lease (answer lease <$> requests)) as (extra & -> & Hx & Hc).
  eexists. split; [reflexivity|]. split_and!; [done..| | |done].
  - rewrite take_app_length' by (by rewrite length_fmap).
    rewrite <- list_fmap_compose. apply list_fmap_ext. intros i q _. apply answer_spec.
  - apply Forall_app. split.
    + apply Forall_fmap, Forall_forall. intros q Hq. simpl.
      destruct (answer_spec lease q) as [_ [(a & Ha & ->)| ->]].
      * left. exists a. split; [done|]. by destruct a.
      * right. by exists q.
    + eapply Forall_impl; [exact Hx|]. intros e (a & Ha & ->). left. by exists a.
Qed.

Lemma address_response_witness :
  let requests := [{| request_id := 5; ip := V4 0; prefix_len := 32 |};
                   {| request_id := 6; ip := V4 0x0a000009; prefix_len := 32 |}] in
  let lease := [IpV4 0x0a000002; IpV6 7] in
  (respond {| seen := ∅ |} requests lease).2
  = Ok (AddressAssign [{| request_id := 5; ip := V4 0x0a000002; prefix_len := 32 |};
                       {| request_id := 6; ip := V4 0; prefix_len := 32 |};
                       {| request_id := 0; ip := V6 7; prefix_len := 128 |}]) /\
  let '(s', r) := respond {| seen := ∅ |} requests lease in
  (size (seen s') <= MAX_ADDRESS_REQUEST_IDS)%nat /\
  post r (fun f => exists assigned, f = AddressAssign assigned /\
    NoDup (request_id <$> requests) /\
    Forall (fun q => request_id q <> 0 /\ request_id q ∉ (∅ : gset Z)) requests /\
    seen s' = list_to_set (request_id <$> requests) ∪ ∅ /\
    request_id <$> take (length requests) assigned = request_id <$> requests /\
    Forall (fun e => (exists a, a ∈ lease /\ ip e = ip (assignment 0 a)) \/
                     (exists q, q ∈ requests /\ e = assignment (request_id q) (rejected q))) assigned /\
    (forall a, a ∈ lease -> exists e, e ∈ assigned /\ ip e = ip (assignment 0 a))).
Proof.
  intros requests lease. split; [vm_compute; reflexivity|].
  apply (address_response {| seen := ∅ |} requests lease). vm_compute. lia.
Defined.
