(* ===== verification/Datagram.v ===== *)
(** * HTTP Datagram framing

    Models [src/datagram.rs]: a quarter stream identifier, a context identifier
    and a payload, with the cached header of the relay path. *)

From S2P Require Import Prelude Varint.

Definition MAX_QUARTER_STREAM_ID : Z := 2 ^ 60 - 1.
Definition H3_DATAGRAM_ERROR : Z := 0x33.

Inductive DatagramError :=
| TooShort
| MissingQuarterStreamId
| InvalidQuarterStreamId (id : Z)
| InvalidStreamId (id : Z).
#[global] Instance DatagramError_eq_dec : EqDecision DatagramError.
Proof. solve_decision. Defined.

Definition is_connection_error (e : DatagramError) : bool :=
  match e with MissingQuarterStreamId | InvalidQuarterStreamId _ => true | _ => false end.

(** [HttpDatagram]; the borrowed [HttpDatagramRef] has the same fields. *)
Record HttpDatagram := {
  stream_id : Z;
  context_id : Z;
  payload : bytes;
}.

Definition decode_ref (buf : bytes) : result DatagramError HttpDatagram :=
  '(qsid, qlen) ← map_err (fun _ => MissingQuarterStreamId) (Varint.decode buf);
  if bool_decide (qsid > MAX_QUARTER_STREAM_ID) then Err (InvalidQuarterStreamId qsid) else
  rest ← slice_from buf qlen;
  '(context_id, clen) ← map_err (fun _ => TooShort) (Varint.decode rest);
  payload ← slice_from buf (qlen + clen);
  Ok {| stream_id := (qsid * 4) mod 2 ^ 64; context_id := context_id; payload := payload |}.

Definition decode (buf : bytes) : result DatagramError HttpDatagram :=
  dgram ← decode_ref buf;
  Ok {| stream_id := stream_id dgram; context_id := context_id dgram; payload := payload dgram |}.

Definition encode (dgram : HttpDatagram) : result DatagramError bytes :=
  if negb (bool_decide (stream_id dgram mod 4 = 0)) || bool_decide (stream_id dgram > MAX_VALUE)
  then Err (InvalidStreamId (stream_id dgram)) else
  let qsid := stream_id dgram / 4 in
  qlen ← map_err (fun _ => InvalidStreamId (stream_id dgram)) (encoded_len qsid);
  clen ← map_err (fun _ => TooShort) (encoded_len (context_id dgram));
  '(_, buf) ← map_err (fun _ => InvalidStreamId (stream_id dgram)) (encode_to_vec qsid []);
  '(_, buf) ← map_err (fun _ => TooShort) (encode_to_vec (context_id dgram) buf);
  Ok (buf ++ payload dgram).

(** ** The cached header *)

Record DatagramHeader := {
  header_bytes : bytes;
  len : Z;
}.

Definition header_new (stream_id : Z) : result DatagramError DatagramHeader :=
  if negb (bool_decide (stream_id mod 4 = 0)) || bool_decide (stream_id > MAX_VALUE)
  then Err (InvalidStreamId stream_id) else
  '(qlen, bytes) ← map_err (fun _ => InvalidStreamId stream_id)
                     (Varint.encode (stream_id / 4) (replicate 9 0));
  Ok {| header_bytes := bytes; len := (Z.of_nat qlen + 1) mod 2 ^ 8 |}.

Definition as_bytes {E} (h : DatagramHeader) : result E bytes :=
  slice (header_bytes h) 0 (Z.to_nat (len h)).

Definition header_encode {E} (h : DatagramHeader) (payload : bytes) : result E bytes :=
  prefix ← as_bytes h;
  Ok ([] ++ prefix ++ payload).

(** [buf.clear()] comes first, so the old contents of [buf] do not matter. *)
Definition header_encode_into {E} (h : DatagramHeader) (payload buf : bytes) : result E bytes :=
  let buf := take 0 buf in
  prefix ← as_bytes h;
  Ok ((buf ++ prefix) ++ payload).

Definition encode_payload (stream_id : Z) (payload : bytes) : result DatagramError bytes :=
  h ← header_new stream_id;
  header_encode h payload.

Definition encode_payload_into (stream_id : Z) (payload buf : bytes) : result DatagramError bytes :=
  h ← header_new stream_id;
  header_encode_into h payload buf.

(** ** Lemmas *)

(** Identifiers of client-initiated bidirectional streams. *)
Definition stream_ok (id : Z) : Prop := 0 <= id <= MAX_VALUE /\ id mod 4 = 0.
#[global] Instance stream_ok_dec id : Decision (stream_ok id).
Proof. unfold stream_ok. apply _. Defined.

Lemma stream_quarter id : stream_ok id -> varint_ok (id / 4) /\ id / 4 <= MAX_QUARTER_STREAM_ID /\ id / 4 * 4 = id.
Proof.
  unfold stream_ok, varint_ok, MAX_VALUE, MAX_QUARTER_STREAM_ID. intros [? ?]. div_lia.
Qed.

Lemma wire_zero : wire 0 = [0].
Proof. reflexivity. Qed.

(** The fixed path of both encoders. *)
Lemma encode_Ok id ctx p :
  stream_ok id -> varint_ok ctx ->
  encode {| stream_id := id; context_id := ctx; payload := p |}
  = Ok (wire (id / 4) ++ wire ctx ++ p).
Proof.
  intros Hid Hctx. destruct (stream_quarter id Hid) as (Hq & _ & _).
  unfold encode. simpl. destruct Hid as [? Hm].
  rewrite bool_decide_true, bool_decide_false by (done || lia). simpl.
  rewrite !encoded_len_wire by done. simpl.
  rewrite encode_to_vec_wire by done. simpl. rewrite encode_to_vec_wire by done. simpl.
  by rewrite <- app_assoc.
Qed.

Lemma header_new_Ok id :
  stream_ok id -> exists h, header_new id = Ok h /\
    forall E, as_bytes (E:=E) h = Ok (wire (id / 4) ++ [0]).
Proof.
  intros Hid. destruct (stream_quarter id Hid) as (Hq & _ & _).
  pose proof (wire_len_bounds (id / 4)) as Hw. destruct Hid as [? Hm].
  unfold header_new. rewrite bool_decide_true, bool_decide_false by (done || lia).
  cbn [negb orb].
  rewrite encode_wire by (done || (rewrite length_replicate; lia)).
  cbn [map_err mbind result_bind].
  eexists. split; [reflexivity|]. intros E. unfold as_bytes. cbn [header_bytes len].
  rewrite Z.mod_small by lia.
  replace (Z.to_nat (Z.of_nat (wire_len (id / 4)) + 1)) with (wire_len (id / 4) + 1)%nat by lia.
  rewrite slice_Ok, drop_0, Nat.sub_0_r by (rewrite ?length_app, ?length_wire, ?length_drop, ?length_replicate; simpl; lia).
  rewrite <- (length_wire (id / 4)) at 1. rewrite take_app_add. do 2 f_equal.
  rewrite drop_replicate, take_replicate.
  replace (1 `min` (9 - wire_len (id / 4)))%nat with 1%nat by lia. done.
Qed.

Lemma encode_invalid d :
  0 <= stream_id d -> ~ stream_ok (stream_id d) ->
  encode d = Err (InvalidStreamId (stream_id d)) /\
  header_new (stream_id d) = Err (InvalidStreamId (stream_id d)).
Proof.
  intros H0 Hn. unfold encode, header_new.
  assert (negb (bool_decide (stream_id d mod 4 = 0)) || bool_decide (stream_id d > MAX_VALUE) = true)
    as ->; [|done].
  rewrite orb_true_iff, negb_true_iff, bool_decide_eq_true, bool_decide_eq_false.
  unfold stream_ok in Hn. lia.
Qed.

(** ** Properties *)

(** A datagram of a client-initiated bidirectional stream survives the
    wire, and any other stream identifier is refused by the encoder. *)
Theorem datagram_roundtrip (d : HttpDatagram) :
  0 <= stream_id d -> varint_ok (context_id d) -> bytes_ok (payload d) ->
  if bool_decide (stream_id d mod 4 = 0 /\ stream_id d <= MAX_VALUE)
  then exists w, encode d = Ok w /\ decode w = Ok d
  else encode d = Err (InvalidStreamId (stream_id d)).
Proof.
  intros H0 Hctx Hp. case_bool_decide as Hid.
  - destruct d as [id ctx p]; cbn [stream_id context_id payload] in *.
    assert (stream_ok id) as Hok by (split; [lia|apply Hid]).
    destruct (stream_quarter id Hok) as (Hq & Hmax & Hmul).
    rewrite encode_Ok by done. eexists. split; [reflexivity|].
    unfold decode, decode_ref. rewrite decode_wire by done. simpl.
    rewrite bool_decide_false by lia.
    rewrite slice_from_Ok by solve_len. simpl.
    rewrite drop_app_length', decode_wire by (by rewrite ?length_wire). simpl.
    rewrite app_assoc, slice_from_Ok by solve_len. simpl.
    rewrite drop_app_length', Hmul by solve_len.
    rewrite Z.mod_small by (unfold MAX_VALUE in *; lia). done.
  - apply encode_invalid; [done|]. unfold stream_ok. lia.
Qed.

Lemma datagram_roundtrip_witness :
  exists w, encode {| stream_id := 40; context_id := 0; payload := [1; 2; 3] |} = Ok w /\
    decode w = Ok {| stream_id := 40; context_id := 0; payload := [1; 2; 3] |}.
Proof.
  apply (datagram_roundtrip {| stream_id := 40; context_id := 0; payload := [1; 2; 3] |});
    by apply (bool_decide_unpack _).
Defined.

(** The header cached per tunnel is an optimisation of the encoder: for
    every stream identifier and payload, encoding behind it gives the bytes, or
    the error, that encoding a context-zero datagram gives, and the buffer
    reused between packets keeps nothing of the previous one. *)
Theorem cached_header_equiv (id : Z) (p buf : bytes) :
  0 <= id ->
  encode_payload id p = encode {| stream_id := id; context_id := 0; payload := p |} /\
  encode_payload_into id p buf = encode {| stream_id := id; context_id := 0; payload := p |}.
Proof.
  intros H0. unfold encode_payload, encode_payload_into, header_encode, header_encode_into.
  destruct (decide (stream_ok id)) as [Hid|Hid].
  - rewrite encode_Ok by (done || (unfold varint_ok, MAX_VALUE; lia)).
    destruct (header_new_Ok id Hid) as (h & -> & Hh). simpl. rewrite !Hh, wire_zero. simpl.
    by rewrite <- app_assoc.
  - destruct (encode_invalid {| stream_id := id; context_id := 0; payload := p |} H0 Hid)
      as [-> He]. simpl in He. by rewrite He.
Qed.

Lemma cached_header_equiv_witness :
  encode_payload 65536 [9] = Ok [0x80; 0; 0x40; 0; 0; 9] /\
  encode_payload_into 65536 [9] [5; 5] = Ok [0x80; 0; 0x40; 0; 0; 9].
Proof. exact (cached_header_equiv 65536 [9] [5; 5] ltac:(lia)). Defined.

(** Decoding an arbitrary QUIC DATAGRAM payload does not panic.  What it
    accepts names a client-initiated bidirectional stream, without overflow of
    the multiplication by four; the connection-fatal errors are exactly a
    missing or out-of-range quarter stream identifier. *)
Theorem datagram_decode_total (buf : bytes) :
  bytes_ok buf ->
  match decode buf with
  | Ok d => stream_ok (stream_id d) /\ varint_ok (context_id d) /\
      exists h, buf = h ++ payload d /\ (2 <= length h <= 16)%nat
  | Err e => is_connection_error e =
      match Varint.decode buf with
      | Ok (qsid, _) => bool_decide (MAX_QUARTER_STREAM_ID < qsid)
      | _ => true
      end
  | Panic => False
  end.
Proof.
  intros Hok. unfold decode, decode_ref.
  destruct (Varint.decode buf) as [[qsid qlen]|e|] eqn:Hq; simpl; [|done|by apply decode_no_panic in Hq].
  apply decode_value in Hq as (Hqv & Hql & Hqle); [|done].
  case_bool_decide as Hmax; simpl; [by rewrite bool_decide_true by lia|].
  rewrite slice_from_Ok by done. simpl.
  destruct (Varint.decode (drop qlen buf)) as [[ctx clen]|e|] eqn:Hc; simpl;
    [|by rewrite bool_decide_false by lia|apply decode_no_panic in Hc; by auto with masque].
  apply decode_value in Hc as (Hcv & Hcl & Hcle); [|by auto with masque].
  rewrite slice_from_Ok by solve_len. simpl.
  unfold varint_ok, MAX_QUARTER_STREAM_ID, stream_ok, MAX_VALUE in *.
  split; [rewrite Z.mod_small by lia; split; [lia|apply Z.mod_mul; lia]|split; [done|]].
  exists (take (qlen + clen) buf). rewrite take_drop. split; [done|].
  pose proof (wire_len_bounds qsid). pose proof (wire_len_bounds ctx). solve_len.
Qed.

Lemma datagram_decode_total_witness :
  match decode [10; 0; 7] with
  | Ok d => stream_ok (stream_id d) /\ varint_ok (context_id d) /\
      exists h, [10; 0; 7] = h ++ payload d /\ (2 <= length h <= 16)%nat
  | Err e => is_connection_error e = false
  | Panic => False
  end.
Proof.
  exact (datagram_decode_total [10; 0; 7] ltac:(by apply (bool_decide_unpack _))).
Defined.
