(* ===== verification/IpPacket.v ===== *)
(** * IP packet inspection

    Models [src/ip_packet.rs]: header parsing, the single-address fast paths and
    the check that a packet cannot be re-routed after the destination check. *)

From S2P Require Import Prelude Net.

Record IpPacketInfo := {
  version : Z;
  src : IpAddr;
  dst : IpAddr;
  protocol : Z;
  total_len : Z;
}.

Inductive ParseError :=
| TooShort
| UnknownVersion (v : Z)
| InvalidIhl (ihl : Z)
| Truncated.
#[global] Instance ParseError_eq_dec : EqDecision ParseError.
Proof. solve_decision. Defined.

Definition parse_v4 (packet : bytes) : result ParseError IpPacketInfo :=
  if bool_decide (length packet < 20)%nat then Err TooShort else
  b0 ← index packet 0;
  let ihl := Z.land b0 0x0f in
  if bool_decide (ihl < 5) then Err (InvalidIhl ihl) else
  let header_len := (Z.to_nat ihl * 4)%nat in
  if bool_decide (length packet < header_len)%nat then Err Truncated else
  b2 ← index packet 2; b3 ← index packet 3;
  protocol ← index packet 9;
  b12 ← index packet 12; b13 ← index packet 13; b14 ← index packet 14; b15 ← index packet 15;
  b16 ← index packet 16; b17 ← index packet 17; b18 ← index packet 18; b19 ← index packet 19;
  Ok {| version := 4; src := IpV4 (be_val [b12; b13; b14; b15]);
        dst := IpV4 (be_val [b16; b17; b18; b19]); protocol := protocol;
        total_len := be_val [b2; b3] |}.

Definition parse_v6 (packet : bytes) : result ParseError IpPacketInfo :=
  if bool_decide (length packet < 40)%nat then Err TooShort else
  b4 ← index packet 4; b5 ← index packet 5;
  let payload_len := be_val [b4; b5] in
  next_header ← index packet 6;
  src_bytes ← slice packet 8 24;
  dst_bytes ← slice packet 24 40;
  let total_len := (40 + payload_len) `min` U16_MAX in
  Ok {| version := 6; src := IpV6 (be_val src_bytes); dst := IpV6 (be_val dst_bytes);
        protocol := next_header; total_len := total_len |}.

Definition parse (packet : bytes) : result ParseError IpPacketInfo :=
  if bool_decide (packet = []) then Err TooShort else
  b0 ← index packet 0;
  let version := Z.shiftr b0 4 in
  if bool_decide (version = 4) then parse_v4 packet
  else if bool_decide (version = 6) then parse_v6 packet
  else Err (UnknownVersion version).

Definition addr_at (packet : bytes) (v4_offset v6_offset : nat) : result ParseError IpAddr :=
  first ← ok_or TooShort (head packet);
  let version := Z.shiftr first 4 in
  if bool_decide (version = 4) then
    if bool_decide (length packet < 20)%nat then Err TooShort else
    b0 ← index packet 0;
    let ihl := Z.land b0 0x0f in
    if bool_decide (ihl < 5) then Err (InvalidIhl ihl) else
    if bool_decide (length packet < Z.to_nat ihl * 4)%nat then Err Truncated else
    octets ← slice packet v4_offset (v4_offset + 4);
    Ok (IpV4 (be_val octets))
  else if bool_decide (version = 6) then
    if bool_decide (length packet < 40)%nat then Err TooShort else
    octets ← slice packet v6_offset (v6_offset + 16);
    Ok (IpV6 (be_val octets))
  else Err (UnknownVersion version).

Definition src_addr (packet : bytes) : result ParseError IpAddr := addr_at packet 12 8.
Definition dst_addr (packet : bytes) : result ParseError IpAddr := addr_at packet 16 24.

(** ** Routing options and headers *)

(** One iteration of the walk over IPv4 options; the state is [offset]. *)
Definition v4_option_step {E} (packet : bytes) (header_len : nat) (offset : nat)
    : result E (nat + bool) :=
  if bool_decide (offset < header_len)%nat then
    b ← index packet offset;
    if bool_decide (b = 0) then Ok (inr true)
    else if bool_decide (b = 1) then Ok (inl (offset + 1)%nat)
    else if bool_decide (b = 131 \/ b = 137) then Ok (inr false)
    else
      match packet !! (offset + 1)%nat with
      | None => Ok (inr false)
      | Some length_ =>
          if bool_decide (length_ < 2)
             || bool_decide (header_len < offset + Z.to_nat length_)%nat
          then Ok (inr false)
          else Ok (inl (offset + Z.to_nat length_)%nat)
      end
  else Ok (inr true).

Definition v6_extension (next : Z) : bool :=
  bool_decide (next = 0 \/ next = 60 \/ next = 44 \/ next = 51).

Definition extension_length (next hdr_ext_len : Z) : nat :=
  if bool_decide (next = 44) then 8
  else if bool_decide (next = 51) then (Z.to_nat hdr_ext_len + 2) * 4
  else (Z.to_nat hdr_ext_len + 1) * 8.

(** One iteration of the walk over IPv6 extension headers; the state is
    [(next, offset)]. *)
Definition v6_header_step {E} (packet : bytes) (s : Z * nat) : result E (Z * nat + bool) :=
  let '(next, offset) := s in
  if bool_decide (next = 43) then Ok (inr false)
  else if negb (v6_extension next) then Ok (inr true)
  else
    match get_range packet offset (length packet) with
    | Some header =>
        if bool_decide (8 <= length header)%nat then
          b2 ← index header 2; b3 ← index header 3;
          if bool_decide (next = 44) && negb (bool_decide (Z.land (be_val [b2; b3]) 0xfff8 = 0))
          then Ok (inr true) else
          b1 ← index header 1;
          let length_ := extension_length next b1 in
          if bool_decide (length header < length_)%nat then Ok (inr false) else
          b0 ← index header 0;
          Ok (inl (b0, offset + length_)%nat)
        else Ok (inr false)
    | None => Ok (inr false)
    end.

Definition has_safe_routing {E} (packet : bytes) : result E bool :=
  match head packet with
  | None => Ok false
  | Some byte =>
      let version := Z.shiftr byte 4 in
      if bool_decide (version = 4) then
        b0 ← index packet 0;
        let header_len := (Z.to_nat (Z.land b0 15) * 4)%nat in
        if bool_decide (header_len < 20)%nat || bool_decide (length packet < header_len)%nat
        then Ok false
        else while (fun offset => header_len - offset)%nat (v4_option_step packet header_len) 20%nat
      else if bool_decide (version = 6) && bool_decide (40 <= length packet)%nat then
        next ← index packet 6;
        while (fun s => length packet - s.2)%nat (v6_header_step packet) (next, 40%nat)
      else Ok false
  end.

(** ** Parsing *)

Lemma slice4 {E} (packet : bytes) n b0 b1 b2 b3 :
  packet !! n = Some b0 -> packet !! (n + 1)%nat = Some b1 ->
  packet !! (n + 2)%nat = Some b2 -> packet !! (n + 3)%nat = Some b3 ->
  slice (E:=E) packet n (n + 4) = Ok [b0; b1; b2; b3].
Proof.
  intros H0 H1 H2 H3. pose proof (lookup_lt_Some _ _ _ H3).
  rewrite slice_Ok by lia. replace (n + 4 - n)%nat with 4%nat by lia.
  rewrite (drop_S _ _ _ H0).
  replace (n + 1)%nat with (S n) in H1 by lia. rewrite (drop_S _ _ _ H1).
  replace (n + 2)%nat with (S (S n)) in H2 by lia. rewrite (drop_S _ _ _ H2).
  replace (n + 3)%nat with (S (S (S n))) in H3 by lia. rewrite (drop_S _ _ _ H3).
  done.
Qed.

(** Replace every index below the known length by the byte that is there. *)
Ltac read_bytes packet :=
  repeat match goal with
  | |- context [index packet ?i] =>
      let b := fresh "b" in let Hb := fresh "Hb" in
      destruct (lookup_lt_is_Some_2 packet i) as [b Hb]; [lia|];
      rewrite !(index_Ok packet i b Hb); cbn [mbind result_bind]
  end.

(** The relay's fast paths read what the full parser reads: on every
    packet [src_addr] and [dst_addr] give the source and destination of
    [parse], or its error, and none of them panics. *)
Theorem addr_fast_path (packet : bytes) :
  src_addr packet = src <$> parse packet /\ dst_addr packet = dst <$> parse packet /\
  parse packet <> Panic.
Proof.
  unfold src_addr, dst_addr, addr_at, parse.
  destruct packet as [|first rest]; [done|]. rewrite (bool_decide_false (first :: rest = [])) by done.
  cbn [head ok_or mbind result_bind]. change (index (first :: rest) 0) with (Ok (E:=ParseError) first).
  cbn [mbind result_bind]. case_bool_decide as H4.
  - unfold parse_v4. case_bool_decide as Hlen; [done|].
    change (index (first :: rest) 0) with (Ok (E:=ParseError) first). cbn [mbind result_bind].
    case_bool_decide; [done|]. case_bool_decide; [done|].
    revert Hlen. generalize (first :: rest) as packet. intros packet Hlen.
    read_bytes packet.
    erewrite (slice4 packet 12), (slice4 packet 16) by eassumption. done.
  - case_bool_decide as H6; [|done]. unfold parse_v6. case_bool_decide as Hlen; [done|].
    revert Hlen. generalize (first :: rest) as packet. intros packet Hlen.
    read_bytes packet. rewrite !slice_Ok by lia. done.
Qed.

(** ** The IPv4 option walk *)

(** The options of a header, independent of the checks: from one option to the
    next. *)
Inductive v4_hop (packet : bytes) (header_len : nat) : nat -> nat -> Prop :=
| v4_nop o : (o < header_len)%nat -> packet !! o = Some 1 ->
    v4_hop packet header_len o (o + 1)
| v4_opt o b l : (o < header_len)%nat -> packet !! o = Some b -> b <> 0 -> b <> 1 ->
    packet !! (o + 1)%nat = Some l -> 2 <= l -> v4_hop packet header_len o (o + Z.to_nat l).

(** An option that cannot be stepped over inside the header. *)
Definition v4_malformed (packet : bytes) (header_len o : nat) : Prop :=
  (o < header_len)%nat /\ (exists b, packet !! o = Some b /\ b <> 0 /\ b <> 1) /\
  match packet !! (o + 1)%nat with
  | None => True
  | Some l => l < 2 \/ (header_len < o + Z.to_nat l)%nat
  end.

Definition v4_source_route (packet : bytes) (header_len o : nat) : Prop :=
  (o < header_len)%nat /\ (packet !! o = Some 131 \/ packet !! o = Some 137).

Section v4.
  Context (packet : bytes) (header_len : nat).
  Context (Hlen : (header_len <= length packet)%nat).

Lemma v4_step_dec {E} o o' :
  v4_option_step (E:=E) packet header_len o = Ok (inl o') ->
  (header_len - o' < header_len - o)%nat.
Proof.
  unfold v4_option_step. case_bool_decide; [|done].
  destruct (lookup_lt_is_Some_2 packet o) as [b Hb]; [lia|]. rewrite (index_Ok _ _ _ Hb). simpl.
  repeat (case_bool_decide; try done); intros; simplify_eq; [lia|].
  destruct (packet !! (o + 1)%nat) as [l|]; [|done].
  destruct (bool_decide (l < 2)) eqn:Hl; simpl in *; [done|]. apply bool_decide_eq_false in Hl.
  case_bool_decide; simplify_eq. lia.
Qed.

Definition v4_walk {E} (o : nat) : result E bool :=
  while (fun offset => header_len - offset)%nat (v4_option_step packet header_len) o.

Lemma v4_walk_unfold {E} o :
  v4_walk (E:=E) o = (r ← v4_option_step packet header_len o;
    match r with inl o' => v4_walk o' | inr b => Ok b end).
Proof. apply while_unfold. apply v4_step_dec. Qed.

Lemma v4_walk_total {E} : forall o, v4_walk (E:=E) o = Ok true \/
  (v4_walk (E:=E) o = Ok false /\ exists o', rtc (v4_hop packet header_len) o o' /\
    (v4_source_route packet header_len o' \/ v4_malformed packet header_len o')).
Proof.
  apply (while_ind _ (v4_option_step (E:=E) packet header_len) v4_step_dec).
  intros o IH. rewrite v4_walk_unfold.
  unfold v4_option_step in *. case_bool_decide as Ho; [|by left].
  destruct (lookup_lt_is_Some_2 packet o) as [b Hb]; [lia|].
  rewrite (index_Ok _ _ _ Hb) in *. simpl in *.
  case_bool_decide as H0; [by left|]. case_bool_decide as H1.
  { subst. destruct (IH _ eq_refl) as [?|(? & o' & Hr & ?)]; [by left|right]. split; [done|].
    exists o'. split; [|done]. eapply rtc_l; [by apply v4_nop|done]. }
  case_bool_decide as H2.
  { right. split; [done|]. exists o. split; [done|]. left. split; [done|].
    destruct H2 as [-> | ->]; eauto. }
  destruct (packet !! (o + 1)%nat) as [l|] eqn:Hl.
  2: { right. split; [done|]. exists o. split; [done|]. right. split_and!; [done|eauto|by rewrite Hl]. }
  destruct (bool_decide (l < 2)) eqn:Hl2; simpl in *.
  { apply bool_decide_eq_true in Hl2. right. split; [done|]. exists o. split; [done|]. right.
    split_and!; [done|eauto|rewrite Hl; lia]. }
  apply bool_decide_eq_false in Hl2. case_bool_decide.
  { right. split; [done|]. exists o. split; [done|]. right.
    split_and!; [done|eauto|rewrite Hl; lia]. }
  destruct (IH _ eq_refl) as [?|(? & o' & Hr & ?)]; [by left|right]. split; [done|].
  exists o'. split; [|done]. eapply rtc_l; [by apply (v4_opt _ _ o b l); (lia || done)|done].
Qed.

Lemma v4_walk_hop {E} o o' :
  v4_walk (E:=E) o = Ok true -> v4_hop packet header_len o o' -> v4_walk (E:=E) o' = Ok true.
Proof.
  intros Hw Hh. rewrite v4_walk_unfold in Hw. unfold v4_option_step in Hw.
  destruct Hh as [o Ho Hb|o b l Ho Hb H0 H1 Hl H2]; rewrite bool_decide_true in Hw by done;
    rewrite (index_Ok _ _ _ Hb) in Hw; simpl in Hw; [done|].
  rewrite !bool_decide_false in Hw by done.
  case_bool_decide; [done|]. rewrite Hl in Hw.
  rewrite (bool_decide_false (l < 2)) in Hw by lia. simpl in Hw. by case_bool_decide.
Qed.

Lemma v4_walk_sound {E} o o' :
  v4_walk (E:=E) o = Ok true -> rtc (v4_hop packet header_len) o o' ->
  ~ v4_source_route packet header_len o'.
Proof.
  intros Hw Hr. induction Hr as [o|o o1 o' Hh Hr IH]; [|by apply IH; eapply v4_walk_hop].
  intros [Ho Hb]. rewrite v4_walk_unfold in Hw. unfold v4_option_step in Hw.
  rewrite bool_decide_true in Hw by done.
  destruct Hb as [Hb|Hb]; rewrite (index_Ok _ _ _ Hb) in Hw; done.
Qed.
End v4.

(** ** The IPv6 header chain *)

(** The fragment offset field of the fragment header at [o], in 8-byte units
    shifted left by three, without the reserved bits and the M flag. *)
Definition fragment_offset (packet : bytes) (o : nat) : Z :=
  match packet !! (o + 2)%nat, packet !! (o + 3)%nat with
  | Some b2, Some b3 => Z.land (be_val [b2; b3]) 0xfff8
  | _, _ => 0
  end.

(** From one header of the chain to the next; a later fragment ends it. *)
Inductive v6_hop (packet : bytes) : Z * nat -> Z * nat -> Prop :=
| v6_ext n o b0 b1 : v6_extension n = true ->
    packet !! o = Some b0 -> packet !! (o + 1)%nat = Some b1 ->
    ~ (n = 44 /\ fragment_offset packet o <> 0) ->
    v6_hop packet (n, o) (b0, o + extension_length n b1)%nat.

(** An extension header that does not fit the packet. *)
Definition v6_truncated (packet : bytes) (s : Z * nat) : Prop :=
  v6_extension s.1 = true /\
  ((length packet < s.2 + 8)%nat \/
   exists b1, packet !! (s.2 + 1)%nat = Some b1 /\
     (length packet < s.2 + extension_length s.1 b1)%nat).

Section v6.
  Context (packet : bytes).

Definition v6_walk {E} (s : Z * nat) : result E bool :=
  while (fun s => length packet - s.2)%nat (v6_header_step packet) s.

(** A step in normal form. *)
Lemma v6_step_eq {E} n o :
  v6_header_step (E:=E) packet (n, o) =
  if bool_decide (n = 43) then Ok (inr false)
  else if negb (v6_extension n) then Ok (inr true)
  else
    match packet !! o, packet !! (o + 1)%nat with
    | Some b0, Some b1 =>
        if bool_decide (length packet < o + 8)%nat then Ok (inr false)
        else if bool_decide (n = 44 /\ fragment_offset packet o <> 0) then Ok (inr true)
        else if bool_decide (length packet < o + extension_length n b1)%nat then Ok (inr false)
        else Ok (inl (b0, o + extension_length n b1)%nat)
    | _, _ => Ok (inr false)
    end.
Proof.
  unfold v6_header_step, get_range. case_bool_decide; [done|].
  destruct (v6_extension n); [|done]. simpl.
  case_bool_decide as Ho.
  2: { rewrite (lookup_ge_None_2 packet o) by lia. done. }
  rewrite (take_ge (drop o packet)), length_drop by solve_len.
  case_bool_decide as H8.
  2: { rewrite (bool_decide_true (length packet < o + 8)%nat) by lia.
       by destruct (packet !! o), (packet !! (o + 1)%nat). }
  rewrite (bool_decide_false (length packet < o + 8)%nat) by lia.
  assert (forall i b, packet !! (o + i)%nat = Some b -> index (E:=E) (drop o packet) i = Ok b) as Hix.
  { intros i b Hb. apply index_Ok. by rewrite lookup_drop. }
  destruct (lookup_lt_is_Some_2 packet o) as [b0 H0]; [lia|].
  destruct (lookup_lt_is_Some_2 packet (o + 1)%nat) as [b1 H1]; [lia|].
  destruct (lookup_lt_is_Some_2 packet (o + 2)%nat) as [b2 H2]; [lia|].
  destruct (lookup_lt_is_Some_2 packet (o + 3)%nat) as [b3 H3]; [lia|].
  unfold fragment_offset.
  rewrite (Hix 2%nat b2), (Hix 3%nat b3), (Hix 1%nat b1), (Hix 0%nat b0), H0, H1, H2, H3
    by (by rewrite ?Nat.add_0_r).
  simpl. destruct (bool_decide (n = 44)) eqn:Hn; simpl.
  - apply bool_decide_eq_true in Hn. case_bool_decide as Hf; simpl.
    + rewrite (bool_decide_false (n = 44 /\ _)) by tauto.
      by rewrite (bool_decide_ext (length packet - o < _)%nat (length packet < o + extension_length n b1)%nat) by lia.
    + by rewrite (bool_decide_true (n = 44 /\ _)) by tauto.
  - apply bool_decide_eq_false in Hn. rewrite (bool_decide_false (n = 44 /\ _)) by tauto.
    by rewrite (bool_decide_ext (length packet - o < _)%nat (length packet < o + extension_length n b1)%nat) by lia.
Qed.

Lemma extension_length_pos n b : (8 <= extension_length n b)%nat.
Proof. unfold extension_length. repeat case_bool_decide; lia. Qed.

Lemma v6_step_dec {E} s s' :
  v6_header_step (E:=E) packet s = Ok (inl s') -> (length packet - s'.2 < length packet - s.2)%nat.
Proof.
  destruct s as [n o]. rewrite v6_step_eq. case_bool_decide; [done|].
  destruct (negb _); [done|]. destruct (packet !! o) as [b0|]; [|done].
  destruct (packet !! (o + 1)%nat) as [b1|]; [|done].
  pose proof (extension_length_pos n b1).
  do 3 (case_bool_decide; [done|]). intros. simplify_eq/=. lia.
Qed.

Lemma v6_walk_unfold {E} s :
  v6_walk (E:=E) s = (r ← v6_header_step packet s;
    match r with inl s' => v6_walk s' | inr b => Ok b end).
Proof. apply while_unfold. apply v6_step_dec. Qed.

Lemma v6_walk_total {E} : forall s, v6_walk (E:=E) s = Ok true \/
  (v6_walk (E:=E) s = Ok false /\ exists s', rtc (v6_hop packet) s s' /\
    (s'.1 = 43 \/ v6_truncated packet s')).
Proof.
  apply (while_ind _ (v6_header_step (E:=E) packet) v6_step_dec).
  intros [n o] IH. rewrite v6_walk_unfold. rewrite v6_step_eq in *.
  case_bool_decide as H43; [right; split; [done|]; exists (n, o); split; [done|by left]|].
  destruct (v6_extension n) eqn:Hext; simpl in *; [|by left].
  assert (forall P : Prop, P -> (length packet < o + 8)%nat ->
    P /\ exists s', rtc (v6_hop packet) (n, o) s' /\ (s'.1 = 43 \/ v6_truncated packet s')) as Htr.
  { intros P HP Hl. split; [done|]. exists (n, o). split; [done|]. right. split; [done|by left]. }
  destruct (packet !! o) as [b0|] eqn:H0; [|right; apply Htr; [done|]; apply lookup_ge_None in H0; lia].
  destruct (packet !! (o + 1)%nat) as [b1|] eqn:H1;
    [|right; apply Htr; [done|]; apply lookup_ge_None in H1; lia].
  case_bool_decide; [right; by apply Htr|]. case_bool_decide as Hf; [by left|].
  case_bool_decide.
  { right. split; [done|]. exists (n, o). split; [done|]. right. split; [done|]. right. eauto. }
  simpl in *. destruct (IH _ eq_refl) as [?|(? & s' & Hr & ?)]; [by left|right]. split; [done|].
  exists s'. split; [|done]. eapply rtc_l; [by apply (v6_ext _ n o b0 b1)|done].
Qed.

Lemma v6_walk_sound {E} s s' :
  v6_walk (E:=E) s = Ok true -> rtc (v6_hop packet) s s' -> s'.1 <> 43.
Proof.
  intros Hw Hr. revert Hw. induction Hr as [[n o]|s s1 s' Hh Hr IH]; intros Hw.
  - rewrite v6_walk_unfold, v6_step_eq in Hw. simpl. by case_bool_decide.
  - apply IH. destruct Hh as [n o b0 b1 Hext H0 H1 Hf].
    rewrite v6_walk_unfold, v6_step_eq in Hw.
    case_bool_decide; [done|]. rewrite Hext, H0, H1 in Hw. simpl in Hw.
    rewrite (bool_decide_false (n = 44 /\ _)) in Hw by done.
    case_bool_decide; [done|]. by case_bool_decide.
Qed.
End v6.

(** ** The routing check *)

(** Where the routing information of a packet starts. *)
Definition v4_header_len (packet : bytes) : nat :=
  match packet with [] => 0 | b :: _ => Z.to_nat (Z.land b 15) * 4 end.

(** The routing check is sound.  When [has_safe_routing] accepts an IPv4
    packet, no option reachable by walking its options is a source route; when
    it accepts an IPv6 packet, no header of its extension chain is a routing
    header, up to a non-initial fragment whose payload is opaque. *)
Theorem safe_routing_sound (packet : bytes) :
  has_safe_routing packet = Ok (E:=ParseError) true ->
  match packet with
  | [] => False
  | b :: _ =>
      (Z.shiftr b 4 = 4 /\ (20 <= v4_header_len packet <= length packet)%nat /\
       forall o, rtc (v4_hop packet (v4_header_len packet)) 20%nat o ->
         ~ v4_source_route packet (v4_header_len packet) o) \/
      (Z.shiftr b 4 = 6 /\ (40 <= length packet)%nat /\
       forall next s, packet !! 6%nat = Some next -> rtc (v6_hop packet) (next, 40%nat) s -> s.1 <> 43)
  end.
Proof.
  destruct packet as [|b rest]; [done|]. unfold has_safe_routing. cbn [head].
  set (packet := b :: rest). case_bool_decide as H4.
  - change (index packet 0) with (Ok (E:=ParseError) b). cbn [mbind result_bind].
    change (Z.to_nat (Z.land b 15) * 4)%nat with (v4_header_len packet).
    destruct (bool_decide (v4_header_len packet < 20)%nat) eqn:Hl; [done|].
    apply bool_decide_eq_false in Hl. cbn [orb]. case_bool_decide; [done|]. intros Hw. left.
    split_and!; [done|lia..|]. intros o Hr.
    eapply (v4_walk_sound packet (v4_header_len packet)); [lia|exact Hw|done].
  - case_bool_decide as H6; cbn [andb]; [|done]. case_bool_decide as Hl; [|done].
    intros Hw. right. split_and!; [done..|]. intros next s Hn Hr.
    rewrite (index_Ok _ _ _ Hn) in Hw. cbn [mbind result_bind] in Hw.
    eapply v6_walk_sound; [exact Hw|done].
Qed.

(** An IPv6 packet with a hop-by-hop header before UDP. *)
Definition sample_v6 : bytes :=
  [0x60; 0; 0; 0; 0; 8; 0; 64] ++ replicate 32 0 ++ [17; 0; 1; 4; 0; 0; 0; 0].

Lemma safe_routing_sound_witness :
  has_safe_routing sample_v6 = Ok (E:=ParseError) true /\
  forall next s, sample_v6 !! 6%nat = Some next -> rtc (v6_hop sample_v6) (next, 40%nat) s -> s.1 <> 43.
Proof.
  assert (has_safe_routing sample_v6 = Ok (E:=ParseError) true) as H by (vm_compute; reflexivity).
  split; [exact H|].
  destruct (safe_routing_sound sample_v6 H) as [(H4 & _)|(_ & _ & Hs)]; [vm_compute in H4; discriminate|].
  exact Hs.
Defined.

(** The routing check always answers, and refuses only with a reason: the
    packet is empty, of another version or shorter than its header; or its walk
    reaches a source route or routing header, or an option or extension header
    that does not fit. *)
Theorem safe_routing_complete (packet : bytes) :
  has_safe_routing packet = Ok (E:=ParseError) true \/
  (has_safe_routing packet = Ok (E:=ParseError) false /\
   match packet with
   | [] => True
   | b :: _ =>
       if bool_decide (Z.shiftr b 4 = 4) then
         (v4_header_len packet < 20)%nat \/ (length packet < v4_header_len packet)%nat \/
         exists o, rtc (v4_hop packet (v4_header_len packet)) 20%nat o /\
           (v4_source_route packet (v4_header_len packet) o \/
            v4_malformed packet (v4_header_len packet) o)
       else if bool_decide (Z.shiftr b 4 = 6) then
         (length packet < 40)%nat \/
         exists next s, packet !! 6%nat = Some next /\ rtc (v6_hop packet) (next, 40%nat) s /\
           (s.1 = 43 \/ v6_truncated packet s)
       else True
   end).
Proof.
  destruct packet as [|b rest]; [by right|]. unfold has_safe_routing. cbn [head].
  set (packet := b :: rest). case_bool_decide as H4.
  - change (index packet 0) with (Ok (E:=ParseError) b). cbn [mbind result_bind].
    change (Z.to_nat (Z.land b 15) * 4)%nat with (v4_header_len packet).
    destruct (bool_decide (v4_header_len packet < 20)%nat) eqn:Hl; cbn [orb].
    { apply bool_decide_eq_true in Hl. right. split; [done|tauto]. }
    destruct (bool_decide (length packet < v4_header_len packet)%nat) eqn:Hlen.
    { apply bool_decide_eq_true in Hlen. right. split; [done|tauto]. }
    apply bool_decide_eq_false in Hlen.
    assert (v4_header_len packet <= length packet)%nat as Hle by (by apply Nat.nlt_ge).
    destruct (v4_walk_total packet (v4_header_len packet) Hle (E:=ParseError) 20%nat)
      as [Hw|[Hw Hx]]; [by left|right]. split; [done|tauto].
  - case_bool_decide as H6; cbn [andb]; [|by right]. case_bool_decide as Hl; [|right; split; [done|left; lia]].
    destruct (lookup_lt_is_Some_2 packet 6) as [next Hn]; [lia|].
    rewrite (index_Ok _ _ _ Hn). cbn [mbind result_bind].
    destruct (v6_walk_total packet (E:=ParseError) (next, 40%nat)) as [Hw|[Hw (s & Hr & Hx)]];
      [by left|right]. split; [done|]. right. by exists next, s.
Qed.
