(* ===== verification/AddressPool.v ===== *)
(** * Address pool

    Models [src/address_pool.rs]: dynamic allocation by a wrapping scan, static
    reservations, reference-counted claims and release.  The two networks are
    the ipnet crate's, through the [NetOps]/[NetLaws] interface. *)

From stdpp Require Import strings.
From S2P Require Import Prelude Net.
Open Scope Z_scope.

Inductive PoolError :=
| Exhausted
| OutOfRange (addr : IpAddr)
| AlreadyAllocated (addr : IpAddr)
| NotReserved (addr : IpAddr)
| InvalidCidr (s : string).
#[global] Instance PoolError_eq_dec : EqDecision PoolError.
Proof. solve_decision. Defined.

(** One live lease; a public key is a byte string. *)
Record Allocation := {
  claims : nat;
  owner : option bytes;
}.
Definition dynamic : Allocation := {| claims := 1; owner := None |}.
Definition pinned (owner : bytes) : Allocation := {| claims := 1; owner := Some owner |}.

(** [!x] on unsigned integers of [w] bits. *)
Definition complement (w x : Z) : Z := 2 ^ w - 1 - x.

Section pool.
  Context {N4 N6 : Type} `{NetOps N4, NetOps N6}.

Record AddressPool := {
  v4_net : option N4;
  v6_net : option N6;
  allocated : gmap IpAddr Allocation;
  reserved : gmap IpAddr bytes;
  v4_next : Z;
  v6_next : Z;
}.

(** Field updates. *)
Definition set_allocated (p : AddressPool) (m : gmap IpAddr Allocation) : AddressPool :=
  {| v4_net := v4_net p; v6_net := v6_net p; allocated := m; reserved := reserved p;
     v4_next := v4_next p; v6_next := v6_next p |}.
Definition set_reserved (p : AddressPool) (m : gmap IpAddr bytes) : AddressPool :=
  {| v4_net := v4_net p; v6_net := v6_net p; allocated := allocated p; reserved := m;
     v4_next := v4_next p; v6_next := v6_next p |}.
Definition set_v4_next (p : AddressPool) (n : Z) : AddressPool :=
  {| v4_net := v4_net p; v6_net := v6_net p; allocated := allocated p; reserved := reserved p;
     v4_next := n; v6_next := v6_next p |}.
Definition set_v6_next (p : AddressPool) (n : Z) : AddressPool :=
  {| v4_net := v4_net p; v6_net := v6_net p; allocated := allocated p; reserved := reserved p;
     v4_next := v4_next p; v6_next := n |}.

(** The crate's CIDR parsers are parameters. *)
Definition new (parse_v4 : string -> option N4) (parse_v6 : string -> option N6)
    (v4_cidr v6_cidr : string) : result PoolError AddressPool :=
  v4 ← (if bool_decide (v4_cidr = EmptyString) then Ok None
        else net ← ok_or (InvalidCidr v4_cidr) (parse_v4 v4_cidr); Ok (Some net));
  v6 ← (if bool_decide (v6_cidr = EmptyString) then Ok None
        else net ← ok_or (InvalidCidr v6_cidr) (parse_v6 v6_cidr); Ok (Some net));
  Ok {| v4_net := v4; v6_net := v6; allocated := ∅; reserved := ∅; v4_next := 2; v6_next := 2 |}.

Definition in_range (p : AddressPool) (addr : IpAddr) : bool :=
  match addr with
  | IpV4 v4 => match v4_net p with Some net => contains net v4 | None => false end
  | IpV6 v6 => match v6_net p with Some net => contains net v6 | None => false end
  end.

Definition is_gateway (p : AddressPool) (addr : IpAddr) : bool :=
  match addr with
  | IpV4 v4 => match v4_net p with
               | Some net => bool_decide (Z.lor (network net) 1 = v4) | None => false end
  | IpV6 v6 => match v6_net p with
               | Some net => bool_decide (Z.lor (network net) 1 = v6) | None => false end
  end.

Definition reserve_static (p : AddressPool) (addr : IpAddr) (key : bytes)
    : AddressPool * result PoolError unit :=
  if negb (in_range p addr) then (p, Err (OutOfRange addr))
  else if is_gateway p addr then (p, Err (AlreadyAllocated addr))
  else if bool_decide (addr ∈ dom (reserved p)) then (p, Err (AlreadyAllocated addr))
  else (set_reserved p (<[addr:=key]> (reserved p)), Ok tt).

(** The loop that validates the new reservations. *)
Fixpoint collect_reservations (p : AddressPool) (next : gmap IpAddr bytes)
    (reservations : list (IpAddr * bytes)) : result PoolError (gmap IpAddr bytes) :=
  match reservations with
  | [] => Ok next
  | (addr, key) :: rest =>
      if negb (in_range p addr) then Err (OutOfRange addr)
      else if is_gateway p addr then Err (AlreadyAllocated addr)
      else if bool_decide (addr ∈ dom next) then Err (AlreadyAllocated addr)
      else collect_reservations p (<[addr:=key]> next) rest
  end.

Definition set_static_reservations (p : AddressPool) (reservations : list (IpAddr * bytes))
    : AddressPool * result PoolError unit :=
  match collect_reservations p ∅ reservations with
  | Ok next => (set_reserved p next, Ok tt)
  | Err e => (p, Err e)
  | Panic => (p, Panic)
  end.

Definition claim (p : AddressPool) (addr : IpAddr) (key : bytes)
    : AddressPool * result PoolError unit :=
  if negb (in_range p addr) then (p, Err (OutOfRange addr))
  else if is_gateway p addr then (p, Err (AlreadyAllocated addr))
  else if negb (bool_decide (reserved p !! addr = Some key)) then (p, Err (NotReserved addr))
  else match allocated p !! addr with
  | Some allocation =>
      if bool_decide (owner allocation <> Some key) then (p, Err (AlreadyAllocated addr))
      else (set_allocated p (<[addr := {| claims := S (claims allocation);
                                          owner := owner allocation |}]> (allocated p)), Ok tt)
  | None => (set_allocated p (<[addr := pinned key]> (allocated p)), Ok tt)
  end.

(** ** Dynamic allocation: the scan loops, with state [(pool, checked)] *)

Definition is_free (p : AddressPool) (addr : IpAddr) : bool :=
  negb (bool_decide (addr ∈ dom (allocated p))) && negb (bool_decide (addr ∈ dom (reserved p))).

Definition allocate_v4_step (net_addr max_hosts total_usable : Z) (s : AddressPool * Z)
    : result PoolError (AddressPool * Z + AddressPool * result PoolError Z) :=
  let '(p, checked) := s in
  if bool_decide (checked < total_usable) then
    let p := if bool_decide (v4_next p >= max_hosts) then set_v4_next p 2 else p in
    let addr := Z.lor net_addr (v4_next p) in
    let p := set_v4_next p (v4_next p + 1) in
    let checked := checked + 1 in
    if is_free p (IpV4 addr)
    then Ok (inr (set_allocated p (<[IpV4 addr := dynamic]> (allocated p)), Ok addr))
    else Ok (inl (p, checked))
  else Ok (inr (p, Err Exhausted)).

Definition allocate_v4 (p : AddressPool) : AddressPool * result PoolError Z :=
  match v4_net p with
  | None => (p, Err Exhausted)
  | Some net =>
      let host_mask := complement 32 (netmask net) in
      let net_addr := network net in
      let max_hosts := host_mask in
      if bool_decide (max_hosts <= 2) then (p, Err Exhausted) else
      let total_usable := max_hosts - 2 in
      match while (fun s => Z.to_nat (total_usable - s.2))
              (allocate_v4_step net_addr max_hosts total_usable) (p, 0) with
      | Ok o => o
      | Err e => (p, Err e)
      | Panic => (p, Panic)
      end
  end.

Definition allocate_v6_step (net_bits host_mask max_iter : Z) (s : AddressPool * Z)
    : result PoolError (AddressPool * Z + AddressPool * result PoolError Z) :=
  let '(p, checked) := s in
  if bool_decide (checked < max_iter) then
    let p := if bool_decide (v6_next p > host_mask) then set_v6_next p 2 else p in
    let addr := Z.lor net_bits (v6_next p) in
    let p := set_v6_next p (if bool_decide (v6_next p = host_mask) then 2 else v6_next p + 1) in
    let checked := checked + 1 in
    if is_free p (IpV6 addr)
    then Ok (inr (set_allocated p (<[IpV6 addr := dynamic]> (allocated p)), Ok addr))
    else Ok (inl (p, checked))
  else Ok (inr (p, Err Exhausted)).

Definition allocate_v6 (p : AddressPool) : AddressPool * result PoolError Z :=
  match v6_net p with
  | None => (p, Err Exhausted)
  | Some net =>
      let net_bits := network net in
      let host_mask := complement 128 (netmask net) in
      if bool_decide (host_mask <= 1) then (p, Err Exhausted) else
      let total_usable := host_mask - 1 in
      let max_iter := total_usable `min` U64_MAX in
      match while (fun s => Z.to_nat (max_iter - s.2))
              (allocate_v6_step net_bits host_mask max_iter) (p, 0) with
      | Ok o => o
      | Err e => (p, Err e)
      | Panic => (p, Panic)
      end
  end.

(** ** Release *)

Definition release (p : AddressPool) (addr : IpAddr) : AddressPool * bool :=
  match allocated p !! addr with
  | None => (p, false)
  | Some allocation =>
      if bool_decide (1 < claims allocation)%nat
      then (set_allocated p (<[addr := {| claims := (claims allocation - 1)%nat;
                                          owner := owner allocation |}]> (allocated p)), true)
      else (set_allocated p (delete addr (allocated p)), true)
  end.

Fixpoint release_all (p : AddressPool) (addrs : list IpAddr) : AddressPool :=
  match addrs with
  | [] => p
  | addr :: addrs' => release_all (release p addr).1 addrs'
  end.

Definition allocated_count (p : AddressPool) : nat := size (allocated p).
Definition is_allocated (p : AddressPool) (addr : IpAddr) : bool :=
  bool_decide (addr ∈ dom (allocated p)).
End pool.
Arguments AddressPool : clear implicits.

(** ** The wrapping scan

    Both loops visit the offsets [ring q K 0], [ring q K 1], ...: the offsets
    [2 .. K+1] in order, from wherever the last call stopped, wrapping around. *)

Definition ring (q K i : Z) : Z := 2 + (q + i) mod K.

Lemma ring_range q K i : 0 < K -> 2 <= ring q K i < 2 + K.
Proof. intros. unfold ring. pose proof (Z.mod_pos_bound (q + i) K). lia. Qed.

Lemma ring_succ q K i : 0 < K ->
  ring q K (i + 1) = if bool_decide (ring q K i + 1 >= 2 + K) then 2 else ring q K i + 1.
Proof.
  intros HK. unfold ring. pose proof (Z.mod_pos_bound (q + i) K HK) as Hm.
  pose proof (Z.div_mod (q + i) K ltac:(lia)) as Hd.
  case_bool_decide.
  - replace (q + (i + 1)) with (0 + ((q + i) / K + 1) * K) by lia.
    rewrite Z.mod_add, Z.mod_0_l by lia. done.
  - replace (q + (i + 1)) with ((q + i) mod K + 1 + (q + i) / K * K) by lia.
    rewrite Z.mod_add, Z.mod_small by lia. lia.
Qed.

(** In [K] steps every offset comes by. *)
Lemma ring_onto q K o : 0 < K -> 2 <= o < 2 + K -> exists i, 0 <= i < K /\ ring q K i = o.
Proof.
  intros HK Ho. exists ((o - 2 - q) mod K). split; [by apply Z.mod_pos_bound|].
  unfold ring. rewrite Z.add_mod_idemp_r by lia.
  replace (q + (o - 2 - q)) with (o - 2) by lia. rewrite Z.mod_small by lia. lia.
Qed.

Lemma ring_start q K : 0 < K -> 0 <= q < K -> ring q K 0 = 2 + q.
Proof. intros. unfold ring. rewrite Z.mod_small by lia. lia. Qed.

Section pool_facts.
  Context {N4 N6 : Type} `{!NetOps N4, !NetLaws 32 N4, !NetOps N6, !NetLaws 128 N6}.
  Implicit Types p : AddressPool N4 N6.

(** Where the next scan of each family starts. *)
Definition norm (next bound : Z) : Z := if bool_decide (next >= bound) then 2 else next.

Definition taken p (addr : IpAddr) : Prop :=
  addr ∈ dom (allocated p) \/ addr ∈ dom (reserved p).

Lemma is_free_false p addr : is_free p addr = false <-> taken p addr.
Proof.
  unfold is_free, taken. rewrite andb_false_iff, !negb_false_iff, !bool_decide_eq_true. done.
Qed.

Lemma is_free_true p addr : is_free p addr = true <-> ~ taken p addr.
Proof.
  unfold is_free, taken. rewrite andb_true_iff, !negb_true_iff, !bool_decide_eq_false. tauto.
Qed.

(** What a v4 scan over the offsets [2 .. K+1] of a network can return. *)
Definition scan_result p (family : Z -> IpAddr) (base K : Z)
    (visited : Z -> Prop) (o : AddressPool N4 N6 * result PoolError Z) : Prop :=
  v4_net o.1 = v4_net p /\ v6_net o.1 = v6_net p /\ reserved o.1 = reserved p /\
  2 <= v4_next o.1 /\ 2 <= v6_next o.1 /\
  match o.2 with
  | Ok a => exists off, 2 <= off < 2 + K /\ a = base + off /\ ~ taken p (family a) /\
      allocated o.1 = <[family a := dynamic]> (allocated p)
  | Err e => e = Exhausted /\ allocated o.1 = allocated p /\
      forall off, visited off -> taken p (family (base + off))
  | Panic => False
  end.

Lemma allocate_v4_step_dec base maxh total (s s' : AddressPool N4 N6 * Z) :
  allocate_v4_step base maxh total s = Ok (inl s') ->
  (Z.to_nat (total - s'.2) < Z.to_nat (total - s.2))%nat.
Proof.
  destruct s as [p c]. unfold allocate_v4_step. case_bool_decide; [|done].
  destruct (is_free _ _); intros; simplify_eq/=. lia.
Qed.

Lemma allocate_v6_step_dec base mask total (s s' : AddressPool N4 N6 * Z) :
  allocate_v6_step base mask total s = Ok (inl s') ->
  (Z.to_nat (total - s'.2) < Z.to_nat (total - s.2))%nat.
Proof.
  destruct s as [p c]. unfold allocate_v6_step. case_bool_decide; [|done].
  destruct (is_free _ _); intros; simplify_eq/=. lia.
Qed.

Lemma v4_while_no_err m base maxh total (s : AddressPool N4 N6 * Z) e :
  (forall s s', allocate_v4_step base maxh total s = Ok (inl s') -> (m s' < m s)%nat) ->
  while m (allocate_v4_step (N4:=N4) (N6:=N6) base maxh total) s <> Err e.
Proof.
  intros Hdec He. assert (errs (while m (allocate_v4_step base maxh total) s) (fun _ => False)) as Hx.
  { apply errs_while; [done|]. intros [p c]. unfold allocate_v4_step. errs_tac. }
  by rewrite He in Hx.
Qed.

Lemma v6_while_no_err m base mask total (s : AddressPool N4 N6 * Z) e :
  (forall s s', allocate_v6_step base mask total s = Ok (inl s') -> (m s' < m s)%nat) ->
  while m (allocate_v6_step (N4:=N4) (N6:=N6) base mask total) s <> Err e.
Proof.
  intros Hdec He. assert (errs (while m (allocate_v6_step base mask total) s) (fun _ => False)) as Hx.
  { apply errs_while; [done|]. intros [p c]. unfold allocate_v6_step. errs_tac. }
  by rewrite He in Hx.
Qed.

Lemma v4_scan p (net : N4) K :
  host_size 32 net = K + 3 -> 0 < K -> 2 <= v4_next p -> 2 <= v6_next p ->
  post (while (fun s => Z.to_nat (K - s.2)) (allocate_v4_step (network net) (K + 2) K) (p, 0))
    (scan_result p IpV4 (network net) K (fun off => 2 <= off < 2 + K)).
Proof.
  intros Hsize HK H4 H6. set (q := norm (v4_next p) (K + 2) - 2).
  assert (0 <= q < K) as Hq by (unfold q, norm; case_bool_decide; lia).
  apply (post_while _ _ (fun s => exists n, s.1 = set_v4_next p n /\ 2 <= n /\ 0 <= s.2 <= K /\
    norm n (K + 2) = ring q K s.2 /\
    forall i, 0 <= i < s.2 -> taken p (IpV4 (network net + ring q K i)))).
  - apply allocate_v4_step_dec.
  - intros [p' c] (n & Hp' & Hn & Hc & Hnorm & Hvis); simpl in *; subst p'.
    case_bool_decide as Hlt.
    2: { simpl. unfold scan_result. simpl. split_and!; try done.
         intros off Hoff. destruct (ring_onto q K off) as (i & Hi & <-); [lia..|].
         apply Hvis. lia. }
    assert ((if bool_decide (v4_next (set_v4_next p n) >= K + 2)
             then set_v4_next (set_v4_next p n) 2 else set_v4_next p n)
            = set_v4_next p (ring q K c)) as ->.
    { rewrite <- Hnorm. unfold norm. simpl. by case_bool_decide. }
    pose proof (ring_range q K c HK) as Hr. cbn [v4_next set_v4_next].
    rewrite (network_lor 32) by lia.
    destruct (is_free _ _) eqn:Hfree; simpl.
    + apply is_free_true in Hfree. unfold scan_result; simpl. split_and!; try done; [lia|].
      exists (ring q K c). split_and!; try done; lia.
    + apply is_free_false in Hfree. exists (ring q K c + 1).
      split_and!; try done; try lia.
      * rewrite ring_succ by done. unfold norm.
        by replace (K + 2) with (2 + K) by lia.
      * intros i Hi. destruct (decide (i = c)) as [->|]; [done|]. apply Hvis. lia.
  - exists (v4_next p). simpl. split_and!; try lia; [by destruct p|].
    rewrite ring_start by lia. unfold q. lia.
Qed.

Lemma v6_scan p (net : N6) K iter :
  host_size 128 net = K + 2 -> 0 < K -> 0 <= iter <= K -> 2 <= v4_next p -> 2 <= v6_next p ->
  post (while (fun s => Z.to_nat (iter - s.2)) (allocate_v6_step (network net) (K + 1) iter) (p, 0))
    (scan_result p IpV6 (network net) K (fun off => exists i, 0 <= i < iter /\
       off = ring (norm (v6_next p) (K + 2) - 2) K i)).
Proof.
  intros Hsize HK Hiter H4 H6. set (q := norm (v6_next p) (K + 2) - 2).
  assert (0 <= q < K) as Hq by (unfold q, norm; case_bool_decide; lia).
  apply (post_while _ _ (fun s => exists n, s.1 = set_v6_next p n /\ 2 <= n /\ 0 <= s.2 <= iter /\
    norm n (K + 2) = ring q K s.2 /\
    forall i, 0 <= i < s.2 -> taken p (IpV6 (network net + ring q K i)))).
  - apply allocate_v6_step_dec.
  - intros [p' c] (n & Hp' & Hn & Hc & Hnorm & Hvis); simpl in *; subst p'.
    case_bool_decide as Hlt.
    2: { simpl. unfold scan_result. simpl. split_and!; try done.
         intros off (i & Hi & ->). apply Hvis. lia. }
    assert ((if bool_decide (v6_next (set_v6_next p n) > K + 1)
             then set_v6_next (set_v6_next p n) 2 else set_v6_next p n)
            = set_v6_next p (ring q K c)) as ->.
    { rewrite <- Hnorm. unfold norm. simpl.
      rewrite (bool_decide_ext (n > K + 1) (n >= K + 2)) by lia. by case_bool_decide. }
    pose proof (ring_range q K c HK) as Hr. cbn [v6_next set_v6_next].
    rewrite (network_lor 128) by lia.
    destruct (is_free _ _) eqn:Hfree; simpl.
    + apply is_free_true in Hfree. unfold scan_result; simpl.
      split_and!; try done; [case_bool_decide; lia|].
      exists (ring q K c). split_and!; try done; lia.
    + apply is_free_false in Hfree.
      exists (if bool_decide (ring q K c = K + 1) then 2 else ring q K c + 1).
      split_and!; try done; try lia; [case_bool_decide; lia| |].
      * rewrite ring_succ by done. unfold norm. repeat case_bool_decide; lia.
      * intros i Hi. destruct (decide (i = c)) as [->|]; [done|]. apply Hvis. lia.
  - exists (v6_next p). simpl. split_and!; try lia; [by destruct p|].
    rewrite ring_start by lia. unfold q. lia.
Qed.

(** ** The invariant of the pool *)

Definition assignable p (addr : IpAddr) : Prop :=
  in_range p addr = true /\ is_gateway p addr = false.

Definition allocation_ok (al : Allocation) : Prop :=
  (1 <= claims al)%nat /\ (owner al = None -> claims al = 1%nat).

Definition pool_ok p : Prop :=
  2 <= v4_next p /\ 2 <= v6_next p /\
  map_Forall (fun addr al => assignable p addr /\ allocation_ok al) (allocated p) /\
  map_Forall (fun addr _ => assignable p addr) (reserved p).

Lemma gateway_offset (w : Z) {net} `{NetLaws w net} (n : net) off :
  2 <= off < host_size w n -> Z.lor (network n) 1 <> network n + off.
Proof. intros Ho. rewrite (network_lor w) by lia. lia. Qed.

Lemma assignable_v4 p net off :
  v4_net p = Some net -> 2 <= off < host_size 32 net -> assignable p (IpV4 (network net + off)).
Proof.
  intros Hn Ho. unfold assignable. simpl. rewrite Hn. split; [apply (contains_offset 32); lia|].
  apply bool_decide_eq_false. by apply (gateway_offset 32).
Qed.

Lemma assignable_v6 p net off :
  v6_net p = Some net -> 2 <= off < host_size 128 net -> assignable p (IpV6 (network net + off)).
Proof.
  intros Hn Ho. unfold assignable. simpl. rewrite Hn. split; [apply (contains_offset 128); lia|].
  apply bool_decide_eq_false. by apply (gateway_offset 128).
Qed.

(** The invariant only depends on the networks, the maps and the cursors. *)
Lemma pool_ok_maps p p' :
  v4_net p' = v4_net p -> v6_net p' = v6_net p -> 2 <= v4_next p' -> 2 <= v6_next p' ->
  map_Forall (fun addr al => assignable p addr /\ allocation_ok al) (allocated p') ->
  map_Forall (fun addr _ => assignable p addr) (reserved p') -> pool_ok p'.
Proof.
  intros E4 E6 H4 H6 Ha Hr.
  assert (forall addr, assignable p addr -> assignable p' addr) as Has.
  { intros addr. unfold assignable, in_range, is_gateway. by rewrite E4, E6. }
  split_and!; [done..| |].
  - eapply map_Forall_impl; [exact Ha|]. intros addr al [? ?]. auto.
  - eapply map_Forall_impl; [exact Hr|]. auto.
Qed.

Lemma allocate_v4_result p net :
  pool_ok p -> v4_net p = Some net ->
  scan_result p IpV4 (network net) (host_size 32 net - 3)
    (fun off => 2 <= off < host_size 32 net - 1) (allocate_v4 p).
Proof.
  intros (H4 & H6 & _) Hn. unfold allocate_v4. rewrite Hn.
  pose proof (host_mask_spec 32 net) as Hmask. unfold complement. rewrite Hmask.
  case_bool_decide as Hsmall.
  { unfold scan_result. simpl. split_and!; try done. intros off Hoff. lia. }
  replace (host_size 32 net - 1 - 2) with (host_size 32 net - 3) by lia.
  pose proof (v4_scan p net (host_size 32 net - 3)) as Hscan.
  replace (host_size 32 net - 3 + 2) with (host_size 32 net - 1) in Hscan by lia.
  specialize (Hscan ltac:(lia) ltac:(lia) H4 H6).
  destruct (while _ _ _) as [o|e|] eqn:Hw; simpl in Hscan;
    [|by apply v4_while_no_err in Hw; [|apply allocate_v4_step_dec]|done].
  replace (2 + (host_size 32 net - 3)) with (host_size 32 net - 1) in Hscan by lia.
  done.
Qed.

Lemma allocate_v6_result p net :
  pool_ok p -> v6_net p = Some net ->
  scan_result p IpV6 (network net) (host_size 128 net - 2)
    (fun off => exists i, 0 <= i < (host_size 128 net - 2) `min` U64_MAX /\
       off = ring (norm (v6_next p) (host_size 128 net) - 2) (host_size 128 net - 2) i)
    (allocate_v6 p).
Proof.
  intros (H4 & H6 & _) Hn. unfold allocate_v6. rewrite Hn.
  pose proof (host_mask_spec 128 net) as Hmask. unfold complement. rewrite Hmask.
  case_bool_decide as Hsmall.
  { unfold scan_result. simpl. split_and!; try done. intros off (i & Hi & _). lia. }
  replace (host_size 128 net - 1 - 1) with (host_size 128 net - 2) by lia.
  pose proof (v6_scan p net (host_size 128 net - 2) ((host_size 128 net - 2) `min` U64_MAX)) as Hscan.
  replace (host_size 128 net - 2 + 1) with (host_size 128 net - 1) in Hscan by lia.
  replace (host_size 128 net - 2 + 2) with (host_size 128 net) in Hscan by lia.
  specialize (Hscan ltac:(lia) ltac:(lia) ltac:(unfold U64_MAX; lia) H4 H6).
  destruct (while _ _ _) as [o|e|] eqn:Hw; simpl in Hscan;
    [done|by apply v6_while_no_err in Hw; [|apply allocate_v6_step_dec]|done].
Qed.

(** ** Every operation keeps the invariant *)

Lemma scan_ok p family base K vis o :
  pool_ok p -> scan_result p family base K vis o ->
  (forall off, 2 <= off < 2 + K -> assignable p (family (base + off))) -> pool_ok o.1.
Proof.
  intros (H4 & H6 & Ha & Hr) (E4 & E6 & Er & N4' & N6' & Ho) Has.
  apply (pool_ok_maps p); [done..| |by rewrite Er].
  destruct o.2 as [a|e|]; [|by destruct Ho as (_ & -> & _)|done].
  destruct Ho as (off & Hoff & -> & Hfree & ->).
  apply map_Forall_insert_2; [|done]. split; [by apply Has|]. split; simpl; [lia|done].
Qed.

Lemma allocate_v4_ok p : pool_ok p -> pool_ok (allocate_v4 p).1.
Proof.
  intros Hp. destruct (v4_net p) as [net|] eqn:Hn; [|unfold allocate_v4; by rewrite Hn].
  eapply scan_ok; [done|by apply allocate_v4_result|].
  intros off Hoff. apply assignable_v4; [done|lia].
Qed.

Lemma allocate_v6_ok p : pool_ok p -> pool_ok (allocate_v6 p).1.
Proof.
  intros Hp. destruct (v6_net p) as [net|] eqn:Hn; [|unfold allocate_v6; by rewrite Hn].
  eapply scan_ok; [done|by apply allocate_v6_result|].
  intros off Hoff. apply assignable_v6; [done|lia].
Qed.

Lemma collect_ok p next l :
  map_Forall (fun addr _ => assignable p addr) next ->
  post (collect_reservations p next l) (fun next' =>
    map_Forall (fun addr _ => assignable p addr) next' /\
    NoDup (l.*1) /\ Forall (fun r => assignable p r.1 /\ next !! r.1 = None) l /\
    next' = list_to_map l ∪ next).
Proof.
  revert next. induction l as [|[addr key] l IH]; intros next Hn; simpl.
  { split_and!; [done|constructor|constructor|]. by rewrite (left_id_L ∅ (∪)). }
  destruct (in_range p addr) eqn:Hr; simpl; [|done].
  destruct (is_gateway p addr) eqn:Hg; [done|]. case_bool_decide as Hd; [done|].
  assert (assignable p addr) as Has by done.
  eapply post_mono; [apply IH; by apply map_Forall_insert_2|].
  intros next' (Hn' & Hnd & Hall & ->). apply not_elem_of_dom in Hd.
  rewrite Forall_forall in Hall.
  assert (addr ∉ l.*1) as Hni.
  { intros (r & -> & Hin)%list_elem_of_fmap. destruct (Hall r Hin) as [_ Hx].
    by rewrite lookup_insert_eq in Hx. }
  split_and!; [done|by constructor| |].
  - constructor; [done|]. apply Forall_forall. intros r Hin. destruct (Hall r Hin) as [? Hx].
    split; [done|]. apply lookup_insert_None in Hx. tauto.
  - rewrite <- insert_union_l. rewrite insert_union_r; [done|].
    by apply not_elem_of_list_to_map_1.
Qed.

Lemma set_static_reservations_ok p l : pool_ok p -> pool_ok (set_static_reservations p l).1.
Proof.
  intros Hp. pose proof Hp as (H4 & H6 & Ha & Hr). unfold set_static_reservations.
  pose proof (collect_ok p ∅ l (map_Forall_empty _)) as Hc.
  destruct (collect_reservations p ∅ l) as [next|e|]; [|done..]. destruct Hc as [Hn _].
  by apply (pool_ok_maps p).
Qed.

Lemma reserve_static_ok p addr key : pool_ok p -> pool_ok (reserve_static p addr key).1.
Proof.
  intros Hp. pose proof Hp as (H4 & H6 & Ha & Hr). unfold reserve_static.
  destruct (in_range p addr) eqn:Hin; simpl; [|done].
  destruct (is_gateway p addr) eqn:Hg; [done|]. case_bool_decide; [done|].
  apply (pool_ok_maps p); try done. by apply map_Forall_insert_2.
Qed.

Lemma claim_ok p addr key : pool_ok p -> pool_ok (claim p addr key).1.
Proof.
  intros Hp. pose proof Hp as (H4 & H6 & Ha & Hr). unfold claim.
  destruct (in_range p addr) eqn:Hin; simpl; [|done].
  destruct (is_gateway p addr) eqn:Hg; [done|]. case_bool_decide; simpl; [|done].
  destruct (allocated p !! addr) as [al|] eqn:Hal.
  - case_bool_decide as Ho; [done|]. apply (pool_ok_maps p); try done. simpl.
    apply map_Forall_insert_2; [|done]. split; [done|]. split; simpl; [lia|].
    rewrite Ho. done.
  - apply (pool_ok_maps p); try done. simpl.
    apply map_Forall_insert_2; [|done]. split; [done|]. split; simpl; [lia|done].
Qed.

Lemma release_ok p addr : pool_ok p -> pool_ok (release p addr).1.
Proof.
  intros Hp. pose proof Hp as (H4 & H6 & Ha & Hr). unfold release.
  destruct (allocated p !! addr) as [al|] eqn:Hal; [|done].
  destruct (Ha addr al Hal) as [Has [Hc Ho]].
  case_bool_decide; apply (pool_ok_maps p); try done; simpl.
  - apply map_Forall_insert_2; [|done]. split; [done|]. split; simpl; [lia|].
    intros Hn. specialize (Ho Hn). lia.
  - by apply map_Forall_delete.
Qed.

Lemma release_all_ok p addrs : pool_ok p -> pool_ok (release_all p addrs).
Proof.
  revert p. induction addrs as [|a addrs IH]; intros p Hp; simpl; [done|].
  apply IH. by apply release_ok.
Qed.

(** The operations a server performs on its pool. *)
Inductive pool_op :=
| OpReserve (addr : IpAddr) (key : bytes)
| OpSetReservations (l : list (IpAddr * bytes))
| OpClaim (addr : IpAddr) (key : bytes)
| OpAllocateV4
| OpAllocateV6
| OpRelease (addr : IpAddr)
| OpReleaseAll (addrs : list IpAddr).

Definition pool_apply p (op : pool_op) : AddressPool N4 N6 :=
  match op with
  | OpReserve addr key => (reserve_static p addr key).1
  | OpSetReservations l => (set_static_reservations p l).1
  | OpClaim addr key => (claim p addr key).1
  | OpAllocateV4 => (allocate_v4 p).1
  | OpAllocateV6 => (allocate_v6 p).1
  | OpRelease addr => (release p addr).1
  | OpReleaseAll addrs => release_all p addrs
  end.

Lemma pool_apply_ok p op : pool_ok p -> pool_ok (pool_apply p op).
Proof.
  destruct op; simpl; auto using reserve_static_ok, set_static_reservations_ok, claim_ok,
    allocate_v4_ok, allocate_v6_ok, release_ok, release_all_ok.
Qed.

Lemma new_ok parse_v4 parse_v6 c4 c6 p :
  new parse_v4 parse_v6 c4 c6 = Ok p -> pool_ok p /\ allocated p = ∅ /\ reserved p = ∅.
Proof.
  unfold new. intros Hn. inv_res. repeat split; try done; simpl; apply map_Forall_empty.
Qed.

Lemma ring_inj q K i j : 0 < K -> 0 <= i < K -> 0 <= j < K -> ring q K i = ring q K j -> i = j.
Proof.
  unfold ring. intros HK Hi Hj Heq.
  assert ((q + i) mod K = (q + j) mod K) as Hm by lia.
  pose proof (Z.div_mod (q + i) K ltac:(lia)). pose proof (Z.div_mod (q + j) K ltac:(lia)).
  assert (i - j = K * ((q + i) / K - (q + j) / K)) as Hd by lia.
  revert Hd. generalize ((q + i) / K - (q + j) / K). intros d Hd. assert (d = 0) by nia. nia.
Qed.

(** Distinct taken addresses are counted by the two maps. *)
Lemma taken_count p (f : Z -> IpAddr) n :
  0 <= n -> (forall i j, 0 <= i < n -> 0 <= j < n -> f i = f j -> i = j) ->
  (forall i, 0 <= i < n -> taken p (f i)) ->
  n <= Z.of_nat (size (dom (allocated p) ∪ dom (reserved p))).
Proof.
  intros Hn Hinj Ht.
  assert (NoDup (f <$> seqZ 0 n)) as Hnd.
  { apply NoDup_fmap_2_strong; [|apply NoDup_seqZ]. intros i j Hi Hj.
    apply elem_of_seqZ in Hi, Hj. apply Hinj; lia. }
  assert (list_to_set (f <$> seqZ 0 n) ⊆ dom (allocated p) ∪ dom (reserved p)) as Hsub.
  { intros a Ha. apply elem_of_list_to_set, list_elem_of_fmap in Ha as (i & -> & Hi).
    apply elem_of_seqZ in Hi. apply elem_of_union. apply Ht. lia. }
  apply subseteq_size in Hsub. rewrite size_list_to_set, length_fmap, length_seqZ in Hsub by done.
  lia.
Qed.

(** ** Properties of the pool *)

(** IPv4 allocation gives out the host addresses of the network other than
    the network address, the gateway and the broadcast address, and only
    addresses that no lease and no reservation holds; it reports exhaustion
    exactly when every such address is held.  Nothing else of the pool changes. *)
Theorem allocate_v4_spec p (net : N4) :
  pool_ok p -> v4_net p = Some net ->
  let usable off := 2 <= off < host_size 32 net - 1 in
  reserved (allocate_v4 p).1 = reserved p /\
  match (allocate_v4 p).2 with
  | Ok a => exists off, usable off /\ a = network net + off /\ ~ taken p (IpV4 a) /\
      allocated (allocate_v4 p).1 = <[IpV4 a := dynamic]> (allocated p)
  | Err e => e = Exhausted /\ allocated (allocate_v4 p).1 = allocated p /\
      forall off, usable off -> taken p (IpV4 (network net + off))
  | Panic => False
  end.
Proof.
  intros Hp Hn usable. destruct (allocate_v4_result p net Hp Hn) as (_ & _ & Hr & _ & _ & Ho).
  split; [done|]. destruct (allocate_v4 p).2 as [a|e|]; [|done..].
  destruct Ho as (off & Hoff & Ha & Hfree & Hal). exists off. unfold usable. split_and!; [lia..|done|done|done].
Qed.

(** IPv6 allocation gives out the host addresses other than the
    subnet-router anycast address and the gateway, and only free ones.  When it
    reports exhaustion, every usable address is held if there are at most
    2^64 - 1 of them, and in any case at least that many addresses are held, so
    the cap on the scan never refuses a pool that a machine could exhaust. *)
Theorem allocate_v6_spec p (net : N6) :
  pool_ok p -> v6_net p = Some net ->
  let usable off := 2 <= off < host_size 128 net in
  reserved (allocate_v6 p).1 = reserved p /\
  match (allocate_v6 p).2 with
  | Ok a => exists off, usable off /\ a = network net + off /\ ~ taken p (IpV6 a) /\
      allocated (allocate_v6 p).1 = <[IpV6 a := dynamic]> (allocated p)
  | Err e => e = Exhausted /\ allocated (allocate_v6 p).1 = allocated p /\
      (host_size 128 net - 2 <= U64_MAX ->
       forall off, usable off -> taken p (IpV6 (network net + off))) /\
      (host_size 128 net - 2) `min` U64_MAX
        <= Z.of_nat (size (dom (allocated p) ∪ dom (reserved p)))
  | Panic => False
  end.
Proof.
  intros Hp Hn usable. destruct (allocate_v6_result p net Hp Hn) as (_ & _ & Hr & _ & _ & Ho).
  pose proof (host_size_pos 128 net) as Hpos.
  split; [done|]. destruct (allocate_v6 p).2 as [a|e|]; [| |done].
  - destruct Ho as (off & Hoff & Ha & Hfree & Hal). exists off. unfold usable. split_and!; [lia..|done|done|done].
  - destruct Ho as (-> & Hal & Hvis). split_and!; [done|done| |].
    + intros Hsmall off Hoff. unfold usable in Hoff.
      destruct (ring_onto (norm (v6_next p) (host_size 128 net) - 2) (host_size 128 net - 2) off)
        as (i & Hi & Hri); [lia..|].
      apply Hvis. exists i. split; [lia|done].
    + destruct (decide ((host_size 128 net - 2) `min` U64_MAX <= 0)) as [|Hgt]; [lia|].
      apply (taken_count p (fun i => IpV6 (network net +
        ring (norm (v6_next p) (host_size 128 net) - 2) (host_size 128 net - 2) i))); [lia| |].
      * intros i j Hi Hj Heq. simplify_eq.
        apply (ring_inj (norm (v6_next p) (host_size 128 net) - 2) (host_size 128 net - 2)); lia.
      * intros i Hi. apply Hvis. by exists i.
Qed.

(** From a fresh pool, whatever sequence of reservations, claims,
    allocations and releases a server performs, every leased and every reserved
    address lies in the configured range and is not the gateway, every lease
    counts at least one claim, and a dynamic lease counts exactly one. *)
Theorem pool_invariant parse_v4 parse_v6 c4 c6 p (ops : list pool_op) :
  new parse_v4 parse_v6 c4 c6 = Ok p ->
  let p' := fold_left pool_apply ops p in
  (forall addr al, allocated p' !! addr = Some al ->
     in_range p' addr = true /\ is_gateway p' addr = false /\ (1 <= claims al)%nat /\
     (owner al = None -> claims al = 1%nat)) /\
  (forall addr key, reserved p' !! addr = Some key ->
     in_range p' addr = true /\ is_gateway p' addr = false).
Proof.
  intros Hn p'. assert (pool_ok p') as (_ & _ & Ha & Hr).
  { unfold p'. destruct (new_ok _ _ _ _ _ Hn) as [Hp _]. clear Hn p'. revert p Hp.
    induction ops as [|op ops IH]; intros p Hp; simpl; [done|]. apply IH. by apply pool_apply_ok. }
  split.
  - intros addr al Hal. destruct (Ha addr al Hal) as [[? ?] [? ?]]. done.
  - intros addr key Hk. apply (Hr addr key Hk).
Qed.

(** Replacing the pinned addresses is all or nothing.  An error leaves the
    whole pool as it was; a success means the list had no duplicate, every
    address was assignable, the reservations are exactly the list and live
    leases are untouched. *)
Theorem set_reservations_transactional p (l : list (IpAddr * bytes)) :
  match set_static_reservations p l with
  | (p', Ok _) => NoDup (l.*1) /\ reserved p' = list_to_map l /\
      Forall (fun r => in_range p r.1 = true /\ is_gateway p r.1 = false) l /\
      allocated p' = allocated p
  | (p', Err e) => p' = p
  | (_, Panic) => False
  end.
Proof.
  unfold set_static_reservations.
  pose proof (collect_ok p ∅ l (map_Forall_empty _)) as Hc.
  destruct (collect_reservations p ∅ l) as [next|e|]; simpl in *; [|done..].
  destruct Hc as (_ & Hnd & Hall & ->). split_and!; [done| | |done].
  - by rewrite (right_id_L ∅ (∪)).
  - eapply Forall_impl; [exact Hall|]. intros r [? _]. done.
Qed.
End pool_facts.

(** ** Witnesses over concrete networks *)

(** 10.0.0.0/29 and fd00::/125. *)
Definition net4 : Cidr := {| cidr_addr := 0x0a000000; cidr_len := 29 |}.
Definition net6 : Cidr6 := {| cidr6 := {| cidr_addr := 0xfd * 2 ^ 120; cidr_len := 125 |} |}.
Definition sample_new : result PoolError (AddressPool Cidr Cidr6) :=
  new (fun _ => Some net4) (fun _ => Some net6) "10.0.0.0/29" "fd00::/125".
Definition sample_pool : AddressPool Cidr Cidr6 :=
  {| v4_net := Some net4; v6_net := Some net6; allocated := ∅; reserved := ∅;
     v4_next := 2; v6_next := 2 |}.

Lemma sample_pool_ok : pool_ok sample_pool.
Proof. by repeat split. Qed.

Lemma allocate_v4_spec_witness :
  (allocate_v4 sample_pool).2 = Ok 0x0a000002 /\
  reserved (allocate_v4 sample_pool).1 = ∅ /\
  match (allocate_v4 sample_pool).2 with
  | Ok a => exists off, 2 <= off < host_size 32 net4 - 1 /\ a = network net4 + off /\
      ~ taken sample_pool (IpV4 a) /\
      allocated (allocate_v4 sample_pool).1 = <[IpV4 a := dynamic]> ∅
  | Err e => e = Exhausted /\ allocated (allocate_v4 sample_pool).1 = ∅ /\
      forall off, 2 <= off < host_size 32 net4 - 1 -> taken sample_pool (IpV4 (network net4 + off))
  | Panic => False
  end.
Proof.
  split; [vm_compute; reflexivity|].
  exact (allocate_v4_spec sample_pool net4 sample_pool_ok eq_refl).
Defined.

Lemma allocate_v6_spec_witness :
  (allocate_v6 sample_pool).2 = Ok (0xfd * 2 ^ 120 + 2) /\
  reserved (allocate_v6 sample_pool).1 = ∅ /\
  match (allocate_v6 sample_pool).2 with
  | Ok a => exists off, 2 <= off < host_size 128 net6 /\ a = network net6 + off /\
      ~ taken sample_pool (IpV6 a) /\
      allocated (allocate_v6 sample_pool).1 = <[IpV6 a := dynamic]> ∅
  | Err e => e = Exhausted /\ allocated (allocate_v6 sample_pool).1 = ∅ /\
      (host_size 128 net6 - 2 <= U64_MAX ->
       forall off, 2 <= off < host_size 128 net6 -> taken sample_pool (IpV6 (network net6 + off))) /\
      (host_size 128 net6 - 2) `min` U64_MAX
        <= Z.of_nat (size (dom (allocated sample_pool) ∪ dom (reserved sample_pool)))
  | Panic => False
  end.
Proof.
  split; [vm_compute; reflexivity|].
  exact (allocate_v6_spec sample_pool net6 sample_pool_ok eq_refl).
Defined.

Lemma pool_invariant_witness :
  let p' := fold_left pool_apply
    [OpSetReservations [(IpV4 0x0a000003, [1])]; OpAllocateV4; OpClaim (IpV4 0x0a000003) [1];
     OpAllocateV4; OpRelease (IpV4 0x0a000002)] sample_pool in
  (forall addr al, allocated p' !! addr = Some al ->
     in_range p' addr = true /\ is_gateway p' addr = false /\ (1 <= claims al)%nat /\
     (owner al = None -> claims al = 1%nat)) /\
  (forall addr key, reserved p' !! addr = Some key ->
     in_range p' addr = true /\ is_gateway p' addr = false).
Proof.
  apply (pool_invariant (fun _ => Some net4) (fun _ => Some net6) "10.0.0.0/29" "fd00::/125"
           sample_pool).
  reflexivity.
Defined.
