(* ===== verification/Routing.v ===== *)
(** * Routing table

    Models [src/routing.rs]: the map from client addresses to tunnels.  The
    order in which [retain] visits a hash map is unspecified; the removed
    addresses are listed in the order of the model's map. *)

From S2P Require Import Prelude Net.

Record TunnelOwner := {
  conn_id : Z;
  stream_id : Z;
}.
#[global] Instance TunnelOwner_eq_dec : EqDecision TunnelOwner.
Proof. solve_decision. Defined.
#[global] Program Instance TunnelOwner_countable : Countable TunnelOwner :=
  inj_countable' (fun o => (conn_id o, stream_id o))
    (fun p => {| conn_id := p.1; stream_id := p.2 |}) _.
Next Obligation. by intros []. Qed.

Record RoutingTable := { entries : gmap IpAddr TunnelOwner }.

Definition new : RoutingTable := {| entries := ∅ |}.

Definition insert (t : RoutingTable) (addr : IpAddr) (owner : TunnelOwner)
    : RoutingTable * option TunnelOwner :=
  ({| entries := <[addr := owner]> (entries t) |}, entries t !! addr).

Definition lookup (t : RoutingTable) (addr : IpAddr) : option TunnelOwner := entries t !! addr.

Definition remove (t : RoutingTable) (addr : IpAddr) : RoutingTable * option TunnelOwner :=
  ({| entries := delete addr (entries t) |}, entries t !! addr).

Fixpoint remove_owned (t : RoutingTable) (addrs : list IpAddr) (owner : TunnelOwner) : RoutingTable :=
  match addrs with
  | [] => t
  | addr :: addrs' =>
      if bool_decide (entries t !! addr = Some owner)
      then remove_owned {| entries := delete addr (entries t) |} addrs' owner
      else remove_owned t addrs' owner
  end.

(** [retain] with the complement, collecting the removed keys. *)
Definition remove_where (t : RoutingTable) (P : TunnelOwner -> bool) : RoutingTable * list IpAddr :=
  ({| entries := filter (fun kv : IpAddr * TunnelOwner => P kv.2 = false) (entries t) |},
   (map_to_list (filter (fun kv : IpAddr * TunnelOwner => P kv.2 = true) (entries t))).*1).

Definition remove_by_owner (t : RoutingTable) (owner : TunnelOwner) : RoutingTable * list IpAddr :=
  remove_where t (fun o => bool_decide (o = owner)).

Definition remove_by_connection (t : RoutingTable) (conn : Z) : RoutingTable * list IpAddr :=
  remove_where t (fun o => bool_decide (conn_id o = conn)).

Definition len (t : RoutingTable) : nat := size (entries t).
Definition is_empty (t : RoutingTable) : bool := bool_decide (entries t = ∅).

(** ** Lemmas *)

Lemma remove_owned_lookup t addrs owner a :
  lookup (remove_owned t addrs owner) a
  = if bool_decide (a ∈ addrs /\ lookup t a = Some owner) then None else lookup t a.
Proof.
  unfold lookup. revert t. induction addrs as [|x addrs IH]; intros t; cbn [remove_owned].
  { rewrite bool_decide_false; [done|]. rewrite elem_of_nil. tauto. }
  case_bool_decide as Hx; rewrite IH; cbn [entries].
  - destruct (decide (a = x)) as [->|Hne].
    + rewrite lookup_delete_eq. rewrite (bool_decide_true (x ∈ x :: addrs /\ _)) by set_solver.
      by case_bool_decide.
    + rewrite lookup_delete_ne by done. repeat case_bool_decide; set_solver.
  - repeat case_bool_decide; set_solver.
Qed.

Lemma remove_where_spec t P :
  (forall a, lookup (remove_where t P).1 a
     = (o ← lookup t a; if P o then None else Some o)) /\
  (forall a, a ∈ (remove_where t P).2 <-> exists o, lookup t a = Some o /\ P o = true) /\
  NoDup (remove_where t P).2.
Proof.
  unfold lookup, remove_where. simpl. split_and!.
  - intros a. rewrite map_lookup_filter. destruct (entries t !! a) as [o|]; simpl; [|done].
    by destruct (P o).
  - intros a. rewrite list_elem_of_fmap. split.
    + intros ([a' o] & -> & Hin). apply elem_of_map_to_list, map_lookup_filter_Some in Hin. by exists o.
    + intros (o & Ho & HP). exists (a, o). split; [done|].
      by apply elem_of_map_to_list, map_lookup_filter_Some.
  - apply NoDup_fst_map_to_list.
Qed.

(** The table's removals touch exactly what they should.  After
    [remove_owned] an address is unrouted if it was listed and routed to the
    owner, and keeps its route otherwise; removing by owner or by connection
    drops exactly the routes of that owner or connection and reports each
    removed address once. *)
Theorem routing_removal (t : RoutingTable) (addrs : list IpAddr) (owner : TunnelOwner) (conn : Z) :
  (forall a, lookup (remove_owned t addrs owner) a
     = if bool_decide (a ∈ addrs /\ lookup t a = Some owner) then None else lookup t a) /\
  (forall a, a ∈ (remove_by_owner t owner).2 <-> lookup t a = Some owner) /\
  (forall a, lookup (remove_by_owner t owner).1 a = lookup t a \/
             (lookup t a = Some owner /\ lookup (remove_by_owner t owner).1 a = None)) /\
  (forall a, a ∈ (remove_by_connection t conn).2 <->
             exists o, lookup t a = Some o /\ conn_id o = conn) /\
  (forall a o, lookup (remove_by_connection t conn).1 a = Some o <->
             lookup t a = Some o /\ conn_id o <> conn) /\
  NoDup (remove_by_owner t owner).2 /\ NoDup (remove_by_connection t conn).2.
Proof.
  destruct (remove_where_spec t (fun o => bool_decide (o = owner))) as (L1 & R1 & N1).
  destruct (remove_where_spec t (fun o => bool_decide (conn_id o = conn))) as (L2 & R2 & N2).
  unfold remove_by_owner, remove_by_connection. split_and!; [apply remove_owned_lookup|..|done|done].
  - intros a. rewrite R1. setoid_rewrite bool_decide_eq_true. naive_solver.
  - intros a. rewrite L1. destruct (lookup t a) as [o|]; simpl; [|by left].
    case_bool_decide; [right|left]; by subst.
  - intros a. rewrite R2. by setoid_rewrite bool_decide_eq_true.
  - intros a o. rewrite L2. destruct (lookup t a) as [o'|]; simpl; [|naive_solver].
    case_bool_decide; naive_solver.
Qed.
