(* ===== verification/ClientIdentity.v ===== *)
(** * Client identities

    Models [src/client_identity.rs]: the roster of pre-registered clients and
    its replaceable shared copy.  Certificate and public-key parsing is
    BoringSSL's and is a parameter of the functions that use it. *)

From stdpp Require Import strings pretty.
From S2P Require Import Prelude Net AddrText.
Open Scope Z_scope.

(** [ClientEntry] of the configuration file; texts are their bytes. *)
Record ClientEntry := {
  entry_name : string;
  public_key : bytes;
  entry_ipv4 : option bytes;
  entry_ipv6 : option bytes;
}.

Record ClientIdentity := {
  name : string;
  key : bytes;
  ipv4 : option Z;
  ipv6 : option Z;
}.
#[global] Instance ClientIdentity_eq_dec : EqDecision ClientIdentity.
Proof. solve_decision. Defined.

Definition static_addresses (c : ClientIdentity) : list IpAddr :=
  match ipv4 c with Some z => [IpV4 z] | None => [] end
  ++ match ipv6 c with Some z => [IpV6 z] | None => [] end.

Definition has_static_addresses (c : ClientIdentity) : bool :=
  bool_decide (is_Some (ipv4 c)) || bool_decide (is_Some (ipv6 c)).

Record ClientRegistry := { by_spki : gmap bytes ClientIdentity }.

Inductive RosterError :=
| InvalidPublicKey (label : string)
| InvalidIpv4 (label : string)
| InvalidIpv6 (label : string)
| SharedPublicKey (existing label : string)
| SharedAddress (other name : string) (addr : IpAddr).

(** [text.map(parse).transpose()?]. *)
Definition parse_optional {E} (parse : bytes -> option Z) (e : E) (text : option bytes)
    : result E (option Z) :=
  match text with
  | None => Ok None
  | Some t => z ← ok_or e (parse t); Ok (Some z)
  end.

Section roster.
  Context (parse_public_key : bytes -> option bytes).

Fixpoint collect_clients (position : nat) (entries : list ClientEntry)
    (by_spki : gmap bytes ClientIdentity) : result RosterError (gmap bytes ClientIdentity) :=
  match entries with
  | [] => Ok by_spki
  | entry :: entries' =>
      let label := if bool_decide (entry_name entry = EmptyString)
                   then ("clients[" +:+ pretty position +:+ "]")%string else entry_name entry in
      spki ← ok_or (InvalidPublicKey label) (parse_public_key (public_key entry));
      v4 ← parse_optional parse_ipv4 (InvalidIpv4 label) (entry_ipv4 entry);
      v6 ← parse_optional parse_ipv6 (InvalidIpv6 label) (entry_ipv6 entry);
      let identity := {| name := label; key := spki; ipv4 := v4; ipv6 := v6 |} in
      match by_spki !! spki with
      | Some existing => Err (SharedPublicKey (name existing) label)
      | None => collect_clients (S position) entries' (<[spki := identity]> by_spki)
      end
  end.

Fixpoint check_addresses (owner_name : string) (addrs : list IpAddr) (seen : gmap IpAddr string)
    : result RosterError (gmap IpAddr string) :=
  match addrs with
  | [] => Ok seen
  | addr :: addrs' =>
      match seen !! addr with
      | Some other => Err (SharedAddress other owner_name addr)
      | None => check_addresses owner_name addrs' (<[addr := owner_name]> seen)
      end
  end.

Fixpoint check_identities (ids : list ClientIdentity) (seen : gmap IpAddr string)
    : result RosterError (gmap IpAddr string) :=
  match ids with
  | [] => Ok seen
  | c :: ids' =>
      seen ← check_addresses (name c) (static_addresses c) seen;
      check_identities ids' seen
  end.

(** The values of a hash map, in the order of the model's map. *)
Definition identities (m : gmap bytes ClientIdentity) : list ClientIdentity := (map_to_list m).*2.

Definition from_config (entries : list ClientEntry) : result RosterError ClientRegistry :=
  by_spki ← collect_clients 0 entries ∅;
  _ ← check_identities (identities by_spki) ∅;
  Ok {| by_spki := by_spki |}.
End roster.

Definition is_empty (r : ClientRegistry) : bool := bool_decide (by_spki r = ∅).
Definition len (r : ClientRegistry) : nat := size (by_spki r).
Definition lookup_key (r : ClientRegistry) (k : bytes) : option ClientIdentity := by_spki r !! k.
Definition still_authorizes (r : ClientRegistry) (c : ClientIdentity) : bool :=
  match lookup_key r (key c) with Some current => bool_decide (current = c) | None => false end.

Definition all_static_addresses (r : ClientRegistry) : list IpAddr :=
  concat (static_addresses <$> identities (by_spki r)).
Definition static_reservations (r : ClientRegistry) : list (IpAddr * bytes) :=
  concat ((fun c => (fun a => (a, key c)) <$> static_addresses c) <$> identities (by_spki r)).

Inductive IdentityError := MalformedCertificate | UnknownKey (encoded : bytes).

(** [spki_from_cert_der] and the base64 encoder are parameters. *)
Definition identify (spki_from_cert_der : bytes -> option bytes) (encode : bytes -> bytes)
    (r : ClientRegistry) (cert_der : bytes) : result IdentityError ClientIdentity :=
  spki ← ok_or MalformedCertificate (spki_from_cert_der cert_der);
  match by_spki r !! spki with
  | Some c => Ok c
  | None => Err (UnknownKey (encode spki))
  end.

(** ** The replaceable roster *)

Record SharedRoster := { current : ClientRegistry; generation : Z }.
Definition roster_new (registry : ClientRegistry) : SharedRoster :=
  {| current := registry; generation := 0 |}.
Definition load (s : SharedRoster) : ClientRegistry := current s.
Definition replace (s : SharedRoster) (registry : ClientRegistry) : SharedRoster * Z :=
  let g := (generation s + 1) mod 2 ^ 64 in
  ({| current := registry; generation := g |}, g).

(** ** Lemmas *)

Lemma check_addresses_post n addrs seen :
  post (check_addresses n addrs seen) (fun seen' =>
    NoDup addrs /\ Forall (fun a => seen !! a = None) addrs /\
    forall a, is_Some (seen' !! a) <-> a ∈ addrs \/ is_Some (seen !! a)).
Proof.
  revert seen. induction addrs as [|a addrs IH]; intros seen; simpl.
  { split_and!; [constructor|constructor|]. intros a. rewrite elem_of_nil. tauto. }
  destruct (seen !! a) as [o|] eqn:Ha; [done|].
  eapply post_mono; [apply IH|]. intros seen' (Hnd & Hf & Hs). rewrite Forall_forall in Hf.
  split_and!.
  - constructor; [|done]. intros Hin. specialize (Hf a Hin). by rewrite lookup_insert_eq in Hf.
  - constructor; [done|]. apply Forall_forall. intros b Hb. specialize (Hf b Hb).
    apply lookup_insert_None in Hf. tauto.
  - intros b. rewrite Hs, lookup_insert_is_Some'. set_solver.
Qed.

Lemma check_identities_post ids seen :
  post (check_identities ids seen) (fun _ =>
    NoDup (concat (static_addresses <$> ids)) /\
    Forall (fun a => seen !! a = None) (concat (static_addresses <$> ids))).
Proof.
  revert seen. induction ids as [|c ids IH]; intros seen; simpl; [by split; constructor|].
  apply post_bind. eapply post_mono; [apply check_addresses_post|].
  intros seen1 (Hnd & Hf & Hs). eapply post_mono; [apply IH|].
  intros _ [Hnd' Hf']. rewrite Forall_forall in Hf, Hf'.
  assert (forall a, a ∈ concat (static_addresses <$> ids) -> a ∉ static_addresses c /\ seen !! a = None) as Hfr.
  { intros a Ha. specialize (Hf' a Ha). apply eq_None_not_Some in Hf'. rewrite Hs in Hf'.
    rewrite eq_None_not_Some. tauto. }
  split.
  - apply NoDup_app. split_and!; [done| |done]. intros a Ha Ha'. by destruct (Hfr a Ha').
  - apply Forall_app. split; apply Forall_forall; [done|]. intros a Ha. by apply Hfr.
Qed.

Lemma collect_clients_post parse pos entries m :
  map_Forall (fun k c => key c = k) m ->
  post (collect_clients parse pos entries m) (fun m' =>
    map_Forall (fun k c => key c = k) m' /\
    Forall (fun e => exists k c, parse (public_key e) = Some k /\ m' !! k = Some c) entries /\
    forall k c, m !! k = Some c -> m' !! k = Some c).
Proof.
  revert pos m. induction entries as [|e entries IH]; intros pos m Hm; cbn [collect_clients].
  { split_and!; [done|constructor|done]. }
  destruct (parse (public_key e)) as [spki|] eqn:Hk; simpl; [|done].
  destruct (parse_optional parse_ipv4 _ _) as [v4|?|] eqn:H4; simpl; [|done|].
  2: { unfold parse_optional in H4. destruct (entry_ipv4 e) as [t|]; [|done]. by destruct (parse_ipv4 t). }
  destruct (parse_optional parse_ipv6 _ _) as [v6|?|] eqn:H6; simpl; [|done|].
  2: { unfold parse_optional in H6. destruct (entry_ipv6 e) as [t|]; [|done]. by destruct (parse_ipv6 t). }
  destruct (m !! spki) as [ex|] eqn:Hs; [done|].
  eapply post_mono; [apply IH; by apply map_Forall_insert_2|].
  intros m' (Hm' & Hall & Hsub). split_and!; [done| |].
  - constructor; [|done]. eexists spki, _. split; [done|]. apply Hsub. by rewrite lookup_insert_eq.
  - intros k c Hc. apply Hsub. rewrite lookup_insert_ne; [done|]. intros <-. congruence.
Qed.

Lemma static_reservations_addresses r :
  (static_reservations r).*1 = all_static_addresses r.
Proof.
  unfold static_reservations, all_static_addresses.
  induction (identities (by_spki r)) as [|c ids IH]; [done|].
  cbn [fmap list_fmap concat]. rewrite fmap_app. f_equal; [|exact IH].
  rewrite <- list_fmap_compose. rewrite <- list_fmap_id. done.
Qed.

(** An accepted roster identifies clients unambiguously.  Every entry's key
    is registered under itself; no address is pinned twice, so the reservations
    handed to the address pool have distinct addresses and each names the key of
    the one identity that pins it; and an identity is still authorised exactly
    when the roster holds it unchanged. *)
Theorem roster_unambiguous parse (entries : list ClientEntry) (r : ClientRegistry) :
  from_config parse entries = Ok r ->
  Forall (fun e => exists k c, parse (public_key e) = Some k /\ lookup_key r k = Some c /\ key c = k) entries /\
  NoDup ((static_reservations r).*1) /\
  (forall a k, (a, k) ∈ static_reservations r ->
     exists c, lookup_key r k = Some c /\ a ∈ static_addresses c) /\
  (forall c, still_authorizes r c = true <-> lookup_key r (key c) = Some c).
Proof.
  unfold from_config. intros H.
  apply bind_Ok in H as (m & Hcoll & H). apply bind_Ok in H as (seen & Hcheck & H). simplify_eq/=.
  pose proof (collect_clients_post parse 0 entries ∅ (map_Forall_empty _)) as Hc.
  pose proof (check_identities_post (identities m) ∅) as Hi. rewrite Hcoll in Hc. rewrite Hcheck in Hi.
  destruct Hc as (Hm & Hall & _). destruct Hi as [Hnd _]. split_and!.
  - eapply Forall_impl; [exact Hall|]. intros e (k & c & Hk & Hc). exists k, c.
    split_and!; [done|done|by apply (Hm k c)].
  - rewrite static_reservations_addresses. done.
  - intros a k Hin. unfold static_reservations in Hin. cbn [by_spki] in Hin.
    apply elem_of_concat in Hin as (l & Hin & Hl).
    apply list_elem_of_fmap in Hl as (c & -> & Hc). apply list_elem_of_fmap in Hin as (a' & Ha & Hin).
    simplify_eq. apply list_elem_of_fmap in Hc as ([k' c'] & -> & Hc). apply elem_of_map_to_list in Hc.
    exists c'. split; [|done]. unfold lookup_key. simpl. by rewrite (Hm k' c' Hc).
  - intros c. unfold still_authorizes. destruct (lookup_key _ (key c)) as [c'|]; [|done].
    rewrite bool_decide_eq_true. naive_solver.
Qed.

Definition sample_entries : list ClientEntry :=
  [{| entry_name := "phone"; public_key := [1]; entry_ipv4 := Some [49; 46; 50; 46; 51; 46; 52];
      entry_ipv6 := None |};
   {| entry_name := EmptyString; public_key := [2]; entry_ipv4 := None;
      entry_ipv6 := Some [58; 58; 55] |}].
Definition sample_registry : ClientRegistry :=
  {| by_spki :=
       {[ [1] := {| name := "phone"; key := [1]; ipv4 := Some 0x01020304; ipv6 := None |};
          [2] := {| name := "clients[1]"; key := [2]; ipv4 := None; ipv6 := Some 7 |} ]} |}.

Lemma roster_unambiguous_witness :
  from_config Some sample_entries = Ok sample_registry /\
  NoDup ((static_reservations sample_registry).*1).
Proof.
  assert (from_config Some sample_entries = Ok sample_registry) as H by (vm_compute; reflexivity).
  split; [exact H|]. apply (roster_unambiguous Some sample_entries sample_registry H).
Defined.
