(* ===== verification/Lease.v ===== *)
(** * Address leases of CONNECT-IP tunnels

    Models how tunnels take and give back addresses: [claim_static_addresses],
    [allocate_pool_addresses] and [encode_ip_setup_capsules] of
    [src/server/mod.rs], [setup_ip_tunnel] and [teardown_ip_tunnel] of
    [src/server/shard_tunnels.rs], the [Http2IpLease] guard of
    [src/server/http2/ip.rs] and the tunnel record of [src/tunnel/ip.rs].

    The shards and the HTTP/2 tasks run concurrently.  The second part of the
    file is a step relation in which each step is one critical section of the
    pool lock or of the routing-table lock. *)

From S2P Require Import Prelude Varint Net Capsule Datagram AddressPool Routing ClientIdentity.
Open Scope Z_scope.

(** ** Tunnels *)

Record IpTunnel := {
  tunnel_stream : Z;
  assigned_addrs : list IpAddr;
  last_activity : Z;
  header : DatagramHeader;
}.

(** [DatagramHeader::new(0).unwrap()] is the fallback header. *)
Definition tunnel_new (stream_id now : Z) : result DatagramError IpTunnel :=
  header ← match header_new stream_id with
           | Ok h => Ok h
           | Err _ => match header_new 0 with Ok h => Ok h | _ => Panic end
           | Panic => Panic
           end;
  Ok {| tunnel_stream := stream_id; assigned_addrs := []; last_activity := now; header := header |}.

Definition owns_address (t : IpTunnel) (addr : IpAddr) : bool := bool_decide (addr ∈ assigned_addrs t).

Definition is_idle (t : IpTunnel) (now timeout : Z) : bool := bool_decide (now - last_activity t > timeout).

Definition to_capsule_address (a : IpAddr) : AssignedAddress :=
  match a with
  | IpV4 z => {| Capsule.request_id := 0; Capsule.ip := V4 z; Capsule.prefix_len := 32 |}
  | IpV6 z => {| Capsule.request_id := 0; Capsule.ip := V6 z; Capsule.prefix_len := 128 |}
  end.

Definition default_routes : list IpAddressRange :=
  [{| start := V4 0; end_ := V4 0xffffffff; ip_protocol := 0 |};
   {| start := V6 0; end_ := V6 (2 ^ 128 - 1); ip_protocol := 0 |}].

Definition encode_ip_setup_capsules {E} (addresses : list IpAddr) : result E bytes :=
  capsules ← Capsule.encode (AddressAssign (to_capsule_address <$> addresses)) [];
  Capsule.encode (RouteAdvertisement default_routes) capsules.

Section lease.
  Context {N4 N6 : Type} `{!NetOps N4, !NetOps N6}.

(** ** Taking addresses, each under one lock of the pool *)

Fixpoint claim_loop (p : AddressPool N4 N6) (key : bytes) (addrs claimed : list IpAddr)
    : AddressPool N4 N6 * result PoolError (list IpAddr) :=
  match addrs with
  | [] => (p, Ok claimed)
  | addr :: addrs' =>
      match claim p addr key with
      | (p', Ok _) => claim_loop p' key addrs' (claimed ++ [addr])
      | (p', Err e) => (release_all p' claimed, Err e)
      | (p', Panic) => (p', Panic)
      end
  end.

Definition claim_static_addresses (p : AddressPool N4 N6) (c : ClientIdentity)
    : AddressPool N4 N6 * result PoolError (list IpAddr) :=
  claim_loop p (key c) (static_addresses c) [].

Definition allocate_pool_addresses (p : AddressPool N4 N6) : AddressPool N4 N6 * list IpAddr :=
  let '(p, r4) := allocate_v4 p in
  let addresses := match r4 with Ok v4 => [IpV4 v4] | _ => [] end in
  let '(p, r6) := allocate_v6 p in
  (p, match r6 with Ok v6 => addresses ++ [IpV6 v6] | _ => addresses end).

(** ** Setup and teardown on an HTTP/3 connection *)

Record Shared := {
  address_pool : AddressPool N4 N6;
  routing_table : RoutingTable;
}.

(** The part of [ClientConnection] that setup touches; [errors] records error
    responses and [shutdowns] the streams reset in both directions. *)
Record ClientState := {
  identity : option ClientIdentity;
  has_h3 : bool;
  ip_tunnels : gmap Z IpTunnel;
  pending_ip_responses : gmap Z Z;
  capsule_streams : gset Z;
  capsule_readable : gset Z;
  errors : list (Z * Z);
  shutdowns : list Z;
}.

(** The outcome of [h3.send_response]. *)
Inductive SendOutcome := Sent | StreamBlocked | SendFailed.

Definition send_error (c : ClientState) (stream status : Z) : ClientState :=
  if has_h3 c then
    {| identity := identity c; has_h3 := has_h3 c; ip_tunnels := ip_tunnels c;
       pending_ip_responses := pending_ip_responses c; capsule_streams := capsule_streams c;
       capsule_readable := capsule_readable c; errors := errors c ++ [(stream, status)];
       shutdowns := shutdowns c |}
  else c.

Fixpoint insert_routes (t : RoutingTable) (addrs : list IpAddr) (o : TunnelOwner) : RoutingTable :=
  match addrs with
  | [] => t
  | a :: addrs' => insert_routes (Routing.insert t a o).1 addrs' o
  end.

Definition teardown_ip_tunnel (sh : Shared) (c : ClientState) (stream conn : Z) : Shared * ClientState :=
  match ip_tunnels c !! stream with
  | None => (sh, c)
  | Some tunnel =>
      let c := {| identity := identity c; has_h3 := has_h3 c;
                  ip_tunnels := delete stream (ip_tunnels c);
                  pending_ip_responses := pending_ip_responses c;
                  capsule_streams := capsule_streams c ∖ {[stream]};
                  capsule_readable := capsule_readable c ∖ {[stream]};
                  errors := errors c; shutdowns := shutdowns c |} in
      let pool := release_all (address_pool sh) (assigned_addrs tunnel) in
      let routes := remove_owned (routing_table sh) (assigned_addrs tunnel)
                      {| conn_id := conn; Routing.stream_id := stream |} in
      ({| address_pool := pool; routing_table := routes |}, c)
  end.

(** [sent] is what [send_response] returns if it is reached, [queued] what
    [queue_capsule_bytes] returns, [now] the clock. *)
Definition setup_ip_tunnel (sh : Shared) (c : ClientState) (stream conn : Z)
    (sent : SendOutcome) (queued : bool) (now : Z) : result DatagramError (Shared * ClientState) :=
  tunnel ← tunnel_new stream now;
  let pinned := match identity c with
                | Some i => if has_static_addresses i then Some i else None
                | None => None
                end in
  let '(pool, leased) :=
    match pinned with
    | Some i => claim_static_addresses (address_pool sh) i
    | None => let '(pool, addrs) := allocate_pool_addresses (address_pool sh) in (pool, Ok addrs)
    end in
  let sh := {| address_pool := pool; routing_table := routing_table sh |} in
  match leased with
  | Panic => Panic
  | Err _ => Ok (sh, send_error c stream 503)
  | Ok addresses =>
      if bool_decide (addresses = []) then Ok (sh, send_error c stream 503) else
      let tunnel := {| tunnel_stream := tunnel_stream tunnel;
                       assigned_addrs := assigned_addrs tunnel ++ addresses;
                       last_activity := last_activity tunnel; header := header tunnel |} in
      let released := {| address_pool := release_all pool addresses;
                         routing_table := routing_table sh |} in
      if negb (has_h3 c) then Ok (released, c) else
      match sent with
      | StreamBlocked =>
          Ok (released,
              {| identity := identity c; has_h3 := has_h3 c; ip_tunnels := ip_tunnels c;
                 pending_ip_responses :=
                   match pending_ip_responses c !! stream with
                   | Some _ => pending_ip_responses c
                   | None => <[stream := now]> (pending_ip_responses c)
                   end;
                 capsule_streams := capsule_streams c; capsule_readable := capsule_readable c;
                 errors := errors c; shutdowns := shutdowns c |})
      | SendFailed => Ok (released, c)
      | Sent =>
          let routes := insert_routes (routing_table sh) addresses
                          {| conn_id := conn; Routing.stream_id := stream |} in
          capsules ← encode_ip_setup_capsules addresses;
          let sh := {| address_pool := pool; routing_table := routes |} in
          let c := {| identity := identity c; has_h3 := has_h3 c;
                      ip_tunnels := <[stream := tunnel]> (ip_tunnels c);
                      pending_ip_responses := delete stream (pending_ip_responses c);
                      capsule_streams := {[stream]} ∪ capsule_streams c;
                      capsule_readable := {[stream]} ∪ capsule_readable c;
                      errors := errors c; shutdowns := shutdowns c |} in
          if queued then Ok (sh, c)
          else
            let '(sh, c) := teardown_ip_tunnel sh c stream conn in
            Ok (sh, {| identity := identity c; has_h3 := has_h3 c; ip_tunnels := ip_tunnels c;
                       pending_ip_responses := pending_ip_responses c;
                       capsule_streams := capsule_streams c;
                       capsule_readable := capsule_readable c; errors := errors c;
                       shutdowns := shutdowns c ++ [stream] |})
      end
  end.

(** Dropping an HTTP/2 lease: routes first, then the addresses. *)
Definition drop_http2_lease (sh : Shared) (addrs : list IpAddr) (o : TunnelOwner) : Shared :=
  let routes := remove_owned (routing_table sh) addrs o in
  let pool := release_all (address_pool sh) addrs in
  {| address_pool := pool; routing_table := routes |}.
End lease.
Arguments Shared : clear implicits.

(** ** The effect of the pool operations on the leases *)

Section effects.
  Context {N4 N6 : Type} `{!NetOps N4, !NetLaws 32 N4, !NetOps N6, !NetLaws 128 N6}.
  Implicit Types p : AddressPool N4 N6.

(** One claim more, and one less, on an entry of the allocation map. *)
Definition bump (key : bytes) (al : option Allocation) : option Allocation :=
  match al with
  | Some al => Some {| claims := S (claims al); owner := owner al |}
  | None => Some (pinned key)
  end.
Definition drop1 (al : option Allocation) : option Allocation :=
  match al with
  | Some al => if bool_decide (1 < claims al)%nat
               then Some {| claims := (claims al - 1)%nat; owner := owner al |} else None
  | None => None
  end.

Lemma release_lookup p a b :
  allocated (release p a).1 !! b
  = if bool_decide (b = a) then drop1 (allocated p !! b) else allocated p !! b.
Proof.
  unfold release. case_bool_decide as Hb.
  - subst b. destruct (allocated p !! a) as [al|] eqn:Ha; simpl; [|by rewrite Ha].
    case_bool_decide; simpl; [by rewrite lookup_insert_eq|by rewrite lookup_delete_eq].
  - destruct (allocated p !! a) as [al|]; simpl; [|done].
    case_bool_decide; simpl; [by rewrite lookup_insert_ne by done|by rewrite lookup_delete_ne by done].
Qed.

Lemma release_all_lookup p addrs b :
  NoDup addrs ->
  allocated (release_all p addrs) !! b
  = if bool_decide (b ∈ addrs) then drop1 (allocated p !! b) else allocated p !! b.
Proof.
  intros Hnd. revert p. induction Hnd as [|a addrs Ha Hnd IH]; intros p; cbn [release_all].
  { by rewrite bool_decide_false by apply not_elem_of_nil. }
  rewrite IH, release_lookup. repeat case_bool_decide; set_solver.
Qed.

Lemma claim_lookup p a key p' :
  claim p a key = (p', Ok tt) ->
  match allocated p !! a with Some al => owner al = Some key | None => True end /\
  reserved p !! a = Some key /\ reserved p' = reserved p /\
  forall b, allocated p' !! b = if bool_decide (b = a) then bump key (allocated p !! b) else allocated p !! b.
Proof.
  unfold claim. destruct (in_range p a); simpl; [|done]. destruct (is_gateway p a); [done|].
  destruct (bool_decide (reserved p !! a = Some key)) eqn:Hr; simpl; [|done].
  apply bool_decide_eq_true in Hr.
  destruct (allocated p !! a) as [al|] eqn:Ha.
  - case_bool_decide as Ho; intros; simplify_eq; simpl.
    split_and!; [done|done|done|]. intros b. case_bool_decide; [subst|].
    + by rewrite lookup_insert_eq, Ha.
    + by rewrite lookup_insert_ne by done.
  - intros. simplify_eq; simpl. split_and!; [done|done|done|]. intros b. case_bool_decide; [subst|].
    + by rewrite lookup_insert_eq, Ha.
    + by rewrite lookup_insert_ne by done.
Qed.

Lemma claim_fail p a key p' e : claim p a key = (p', Err e) -> p' = p.
Proof.
  unfold claim. destruct (in_range p a); simpl; [|by intros; simplify_eq].
  destruct (is_gateway p a); [by intros; simplify_eq|].
  destruct (bool_decide _); simpl; [|by intros; simplify_eq].
  destruct (allocated p !! a) as [al|]; [|done]. case_bool_decide; intros; by simplify_eq.
Qed.

Lemma claim_no_panic p a key p' : claim p a key <> (p', Panic).
Proof.
  unfold claim. destruct (in_range p a); simpl; [|done]. destruct (is_gateway p a); [done|].
  destruct (bool_decide _); simpl; [|done].
  destruct (allocated p !! a) as [al|]; [|done]. by case_bool_decide.
Qed.

(** The allocation map after claiming [done_] for [key]. *)
Definition claimed_map (m : gmap IpAddr Allocation) (key : bytes) (done_ : list IpAddr)
    (m' : gmap IpAddr Allocation) : Prop :=
  forall b, m' !! b = (if bool_decide (b ∈ done_) then bump key (m !! b) else m !! b) /\
    (b ∈ done_ -> match m !! b with Some al => owner al = Some key | None => True end).

Lemma claim_loop_spec p0 p key addrs claimed :
  pool_ok p0 -> pool_ok p -> NoDup (claimed ++ addrs) ->
  claimed_map (allocated p0) key claimed (allocated p) -> reserved p = reserved p0 ->
  let '(p', r) := claim_loop p key addrs claimed in
  pool_ok p' /\ reserved p' = reserved p0 /\
  match r with
  | Ok l => l = claimed ++ addrs /\ claimed_map (allocated p0) key (claimed ++ addrs) (allocated p')
  | Err _ => allocated p' = allocated p0
  | Panic => False
  end.
Proof.
  intros Hok0. revert p claimed. induction addrs as [|a addrs IH]; intros p claimed Hok Hnd Hm Hres;
    cbn [claim_loop].
  { rewrite app_nil_r. done. }
  destruct (claim p a key) as [p1 [[]|e|]] eqn:Hc; [| |by apply claim_no_panic in Hc].
  - apply claim_lookup in Hc as Hl. destruct Hl as (Hown & _ & Hres1 & Hl).
    assert (pool_ok p1) as Hok1 by (pose proof (claim_ok p a key Hok) as Hx; by rewrite Hc in Hx).
    replace (claimed ++ a :: addrs) with ((claimed ++ [a]) ++ addrs) in * by (by rewrite <- app_assoc).
    apply IH; [done|done| |congruence].
    assert (a ∉ claimed) as Hna.
    { apply NoDup_app in Hnd as (Hnd & _). apply NoDup_app in Hnd as (_ & Hd & _).
      intros Hin. apply (Hd a Hin). set_solver. }
    intros b. rewrite Hl. destruct (Hm b) as [Hb Hob]. split.
    + destruct (decide (b = a)) as [->|Hba].
      * rewrite (bool_decide_true (a = a)), Hb, (bool_decide_false (a ∈ claimed)) by done.
        by rewrite bool_decide_true by set_solver.
      * rewrite (bool_decide_false (b = a)), Hb by done.
        by rewrite (bool_decide_ext (b ∈ claimed ++ [a]) (b ∈ claimed)) by set_solver.
    + intros [Hin|Hin]%elem_of_app; [by apply Hob|]. apply list_elem_of_singleton in Hin. subst b.
      destruct (Hm a) as [Ha _]. rewrite bool_decide_false in Ha by done. by rewrite Ha in Hown.
  - apply claim_fail in Hc. subst p1. split; [by apply release_all_ok|].
    split.
    { clear -Hres. revert p Hres. induction claimed as [|c claimed IHc]; intros p Hres; cbn [release_all]; [done|].
      apply IHc. rewrite <- Hres. unfold release. destruct (allocated p !! c); [|done]. by case_bool_decide. }
    apply map_eq. intros b. apply NoDup_app in Hnd as (Hnd & _).
    rewrite release_all_lookup by done. destruct (Hm b) as [Hb Hob]. rewrite Hb.
    case_bool_decide as Hin; [|done]. destruct Hok0 as (_ & _ & Hal & _).
    destruct (allocated p0 !! b) as [al|] eqn:Hal0; simpl; [|done].
    destruct (Hal b al Hal0) as [_ [Hc1 _]]. rewrite bool_decide_true by lia.
    destruct al as [n o]; simpl in *. by rewrite Nat.sub_0_r.
Qed.

Lemma static_addresses_nodup c : NoDup (static_addresses c).
Proof.
  unfold static_addresses. destruct (ipv4 c), (ipv6 c); simpl.
  all: repeat (apply NoDup_cons; split); try apply NoDup_nil; set_solver.
Qed.

Lemma claim_static_spec p c :
  pool_ok p ->
  let '(p', r) := claim_static_addresses p c in
  pool_ok p' /\ reserved p' = reserved p /\
  match r with
  | Ok l => l = static_addresses c /\ claimed_map (allocated p) (key c) l (allocated p')
  | Err _ => allocated p' = allocated p
  | Panic => False
  end.
Proof.
  intros Hok. unfold claim_static_addresses.
  pose proof (claim_loop_spec p p (key c) (static_addresses c) [] Hok Hok) as H.
  specialize (H (static_addresses_nodup c)).
  assert (claimed_map (allocated p) (key c) [] (allocated p)) as Hm.
  { intros b. split; [by rewrite bool_decide_false by apply not_elem_of_nil|by intros ?%elem_of_nil]. }
  specialize (H Hm eq_refl). destruct (claim_loop _ _ _ _) as [p' [l|e|]]; [|done..].
  destruct H as (? & ? & -> & ?). done.
Qed.

(** What dynamic allocation adds. *)
Definition fresh_map (m : gmap IpAddr Allocation) (addrs : list IpAddr) (m' : gmap IpAddr Allocation) : Prop :=
  forall b, m' !! b = (if bool_decide (b ∈ addrs) then Some dynamic else m !! b) /\
    (b ∈ addrs -> m !! b = None).

Lemma allocate_v4_fresh p :
  pool_ok p ->
  reserved (allocate_v4 p).1 = reserved p /\
  match (allocate_v4 p).2 with
  | Ok a => ~ taken p (IpV4 a) /\ allocated (allocate_v4 p).1 = <[IpV4 a := dynamic]> (allocated p)
  | _ => allocated (allocate_v4 p).1 = allocated p
  end.
Proof.
  intros Hok. destruct (v4_net p) as [net|] eqn:Hn; [|unfold allocate_v4; by rewrite Hn].
  destruct (allocate_v4_result p net Hok Hn) as (_ & _ & ? & _ & _ & H).
  split; [done|]. destruct (allocate_v4 p).2; naive_solver.
Qed.

Lemma allocate_v6_fresh p :
  pool_ok p ->
  reserved (allocate_v6 p).1 = reserved p /\
  match (allocate_v6 p).2 with
  | Ok a => ~ taken p (IpV6 a) /\ allocated (allocate_v6 p).1 = <[IpV6 a := dynamic]> (allocated p)
  | _ => allocated (allocate_v6 p).1 = allocated p
  end.
Proof.
  intros Hok. destruct (v6_net p) as [net|] eqn:Hn; [|unfold allocate_v6; by rewrite Hn].
  destruct (allocate_v6_result p net Hok Hn) as (_ & _ & ? & _ & _ & H).
  split; [done|]. destruct (allocate_v6 p).2; naive_solver.
Qed.

Lemma fresh_map_nil m : fresh_map m [] m.
Proof.
  intros b. split; [by rewrite bool_decide_false by apply not_elem_of_nil|by intros ?%elem_of_nil].
Qed.

Lemma fresh_map_snoc m m' addrs a :
  fresh_map m addrs m' -> m' !! a = None -> fresh_map m (addrs ++ [a]) (<[a := dynamic]> m').
Proof.
  intros Hf Ha b. destruct (Hf b) as [Hb Hbn]. split.
  - destruct (decide (b = a)) as [->|Hne].
    + by rewrite lookup_insert_eq, bool_decide_true by set_solver.
    + rewrite lookup_insert_ne, Hb by done.
      by rewrite (bool_decide_ext (b ∈ addrs ++ [a]) (b ∈ addrs)) by set_solver.
  - intros [Hin|Hin]%elem_of_app; [by apply Hbn|]. apply list_elem_of_singleton in Hin. subst b.
    rewrite Hb in Ha. by case_bool_decide.
Qed.

Lemma allocate_pool_spec p :
  pool_ok p ->
  let '(p', addrs) := allocate_pool_addresses p in
  pool_ok p' /\ reserved p' = reserved p /\ NoDup addrs /\
  fresh_map (allocated p) addrs (allocated p') /\
  Forall (fun a => reserved p !! a = None) addrs.
Proof.
  intros Hok. unfold allocate_pool_addresses, taken.
  pose proof (allocate_v4_ok p Hok) as Hok4. pose proof (allocate_v4_fresh p Hok) as [Hr4 H4].
  destruct (allocate_v4 p) as [p1 r4]; simpl in *.
  pose proof (allocate_v6_ok p1 Hok4) as Hok6. pose proof (allocate_v6_fresh p1 Hok4) as [Hr6 H6].
  destruct (allocate_v6 p1) as [p2 r6]; simpl in *.
  unfold taken in *.
  assert (let l := match r4 with Ok v4 => [IpV4 v4] | _ => [] end in
    fresh_map (allocated p) l (allocated p1) /\ Forall (fun a => reserved p !! a = None) l /\
    NoDup l /\ forall z, IpV6 z ∉ l) as (Hf & Hres & Hnd & Hv6).
  { destruct r4 as [v4|e|]; simpl.
    - destruct H4 as [Hn ->]. split_and!; [| |apply NoDup_singleton|set_solver].
      + apply (fresh_map_snoc _ _ []); [apply fresh_map_nil|].
        apply not_elem_of_dom. tauto.
      + apply Forall_singleton, not_elem_of_dom. tauto.
    - rewrite H4. split_and!; [apply fresh_map_nil|constructor|constructor|set_solver].
    - rewrite H4. split_and!; [apply fresh_map_nil|constructor|constructor|set_solver]. }
  split; [done|]. split; [congruence|].
  destruct r6 as [v6|e|]; [|by rewrite H6..].
  destruct H6 as [Hn ->]. split_and!.
  - apply NoDup_app. split_and!; [done| |apply NoDup_singleton].
    intros a Ha ->%list_elem_of_singleton. by apply (Hv6 v6).
  - apply fresh_map_snoc; [done|]. apply not_elem_of_dom. tauto.
  - apply Forall_app. split; [done|]. apply Forall_singleton. rewrite <- Hr4.
    apply not_elem_of_dom. tauto.
Qed.
End effects.

(** ** Concurrent tunnels

    A tunnel is named by its connection and stream.  Each step is one critical
    section: taking addresses, routing one address, releasing the addresses,
    removing the routes.  HTTP/3 teardown releases and then unroutes; HTTP/2
    teardown unroutes and then releases; a setup whose response cannot be sent
    releases at once.  Roster reloads replace the reservations at any time. *)

Inductive Phase :=
| Routing_ (n : nat)  (** the first [n] addresses are routed *)
| Active
| Released            (** HTTP/3: released, routes not yet removed *)
| Unrouted.           (** HTTP/2: routes removed, not yet released *)

Record Lease := {
  addrs : list IpAddr;
  lease_key : option bytes;
  phase : Phase;
}.

Section interleaving.
  Context {N4 N6 : Type} `{!NetOps N4, !NetLaws 32 N4, !NetOps N6, !NetLaws 128 N6}.

Record World := {
  pool : AddressPool N4 N6;
  routes : RoutingTable;
  tunnels : gmap TunnelOwner Lease;
}.

Definition with_phase (l : Lease) (ph : Phase) : Lease :=
  {| addrs := addrs l; lease_key := lease_key l; phase := ph |}.

Inductive step : World -> World -> Prop :=
| step_reload w l :
    step w {| pool := (set_static_reservations (pool w) l).1; routes := routes w; tunnels := tunnels w |}
| step_claim w o c p' l :
    tunnels w !! o = None -> has_static_addresses c = true ->
    claim_static_addresses (pool w) c = (p', Ok l) ->
    step w {| pool := p'; routes := routes w;
              tunnels := <[o := {| addrs := l; lease_key := Some (key c); phase := Routing_ 0 |}]> (tunnels w) |}
| step_claim_fail w c p' e :
    claim_static_addresses (pool w) c = (p', Err e) ->
    step w {| pool := p'; routes := routes w; tunnels := tunnels w |}
| step_allocate w o p' l :
    tunnels w !! o = None -> allocate_pool_addresses (pool w) = (p', l) -> l <> [] ->
    step w {| pool := p'; routes := routes w;
              tunnels := <[o := {| addrs := l; lease_key := None; phase := Routing_ 0 |}]> (tunnels w) |}
| step_allocate_fail w p' :
    allocate_pool_addresses (pool w) = (p', []) ->
    step w {| pool := p'; routes := routes w; tunnels := tunnels w |}
| step_abort w o l :
    tunnels w !! o = Some l -> phase l = Routing_ 0 ->
    step w {| pool := release_all (pool w) (addrs l); routes := routes w;
              tunnels := delete o (tunnels w) |}
| step_route w o l n a :
    tunnels w !! o = Some l -> phase l = Routing_ n -> addrs l !! n = Some a ->
    step w {| pool := pool w; routes := (Routing.insert (routes w) a o).1;
              tunnels := <[o := with_phase l (Routing_ (S n))]> (tunnels w) |}
| step_active w o l :
    tunnels w !! o = Some l -> phase l = Routing_ (length (addrs l)) ->
    step w {| pool := pool w; routes := routes w; tunnels := <[o := with_phase l Active]> (tunnels w) |}
| step_release w o l :
    tunnels w !! o = Some l -> phase l = Active ->
    step w {| pool := release_all (pool w) (addrs l); routes := routes w;
              tunnels := <[o := with_phase l Released]> (tunnels w) |}
| step_unroute_released w o l :
    tunnels w !! o = Some l -> phase l = Released ->
    step w {| pool := pool w; routes := remove_owned (routes w) (addrs l) o;
              tunnels := delete o (tunnels w) |}
| step_unroute w o l :
    tunnels w !! o = Some l -> phase l = Active ->
    step w {| pool := pool w; routes := remove_owned (routes w) (addrs l) o;
              tunnels := <[o := with_phase l Unrouted]> (tunnels w) |}
| step_release_unrouted w o l :
    tunnels w !! o = Some l -> phase l = Unrouted ->
    step w {| pool := release_all (pool w) (addrs l); routes := routes w;
              tunnels := delete o (tunnels w) |}.

(** A tunnel holds its addresses until it has released them. *)
Definition holds (l : Lease) (a : IpAddr) : Prop :=
  a ∈ addrs l /\ match phase l with Released => False | _ => True end.
#[local] Instance holds_dec l a : Decision (holds l a).
Proof. unfold holds. destruct (phase l); apply _. Defined.

Definition holders (t : gmap TunnelOwner Lease) (a : IpAddr) : gset TunnelOwner :=
  dom (filter (fun kv : TunnelOwner * Lease => holds kv.2 a) t).

(** The addresses of a tunnel that its own steps have routed and not unrouted. *)
Definition routed (l : Lease) : list IpAddr :=
  match phase l with
  | Routing_ n => take n (addrs l)
  | Active | Released => addrs l
  | Unrouted => []
  end.

Definition accounts (al : option Allocation) (t : gmap TunnelOwner Lease) (a : IpAddr) : Prop :=
  match al with
  | None => holders t a = ∅
  | Some al => claims al = size (holders t a) /\
      forall o l, t !! o = Some l -> holds l a -> lease_key l = owner al
  end.

Definition world_ok (w : World) : Prop :=
  pool_ok (pool w) /\
  (forall o l, tunnels w !! o = Some l -> NoDup (addrs l)) /\
  (forall a, accounts (allocated (pool w) !! a) (tunnels w) a) /\
  (forall a o, Routing.lookup (routes w) a = Some o ->
     exists l, tunnels w !! o = Some l /\ a ∈ routed l) /\
  (forall o l a, tunnels w !! o = Some l -> lease_key l = None -> holds l a -> a ∈ routed l ->
     Routing.lookup (routes w) a = Some o).

(** ** Lemmas on holders *)

Lemma elem_of_holders t a o : o ∈ holders t a <-> exists l, t !! o = Some l /\ holds l a.
Proof.
  unfold holders. rewrite elem_of_dom. unfold is_Some.
  setoid_rewrite map_lookup_filter_Some. naive_solver.
Qed.

(** Replacing a lease by one that holds the same addresses changes nothing. *)
Lemma accounts_same t o l l' a al :
  t !! o = Some l -> lease_key l' = lease_key l -> (holds l' a <-> holds l a) ->
  accounts al t a -> accounts al (<[o := l']> t) a.
Proof.
  intros Ho Hk Hh. assert (holders (<[o := l']> t) a = holders t a) as Heq.
  { apply set_eq. intros o'. rewrite !elem_of_holders.
    destruct (decide (o' = o)) as [->|]; [rewrite lookup_insert_eq, Ho|by rewrite lookup_insert_ne by done].
    naive_solver. }
  unfold accounts. rewrite Heq. destruct al as [al|]; [|done]. intros [Hc Hall]. split; [done|].
  intros o' l1 Hl1 Hh1. destruct (decide (o' = o)) as [->|].
  - rewrite lookup_insert_eq in Hl1. simplify_eq. rewrite Hk. apply (Hall o l); [done|by apply Hh].
  - rewrite lookup_insert_ne in Hl1 by done. eauto.
Qed.

(** A new lease. *)
Lemma accounts_add t o l a al k :
  t !! o = None -> lease_key l = k -> accounts al t a -> holds l a ->
  match al with Some al => owner al = k | None => True end ->
  accounts (Some {| claims := S (match al with Some al => claims al | None => 0 end); owner := k |})
    (<[o := l]> t) a.
Proof.
  intros Ho Hk Hacc Hh Hown.
  assert (holders (<[o := l]> t) a = {[o]} ∪ holders t a) as Heq.
  { apply set_eq. intros o'. rewrite elem_of_union, elem_of_singleton, !elem_of_holders.
    destruct (decide (o' = o)) as [->|]; [rewrite lookup_insert_eq, Ho|rewrite lookup_insert_ne by done].
    - naive_solver.
    - naive_solver. }
  assert (o ∉ holders t a) as Hno by (rewrite elem_of_holders, Ho; naive_solver).
  split; simpl.
  - rewrite Heq, size_union, size_singleton by set_solver.
    destruct al as [al|]; simpl in Hacc; [destruct Hacc as [-> _]; done|by rewrite Hacc, size_empty].
  - intros o' l1 Hl1 Hh1. destruct (decide (o' = o)) as [->|].
    + rewrite lookup_insert_eq in Hl1. by simplify_eq.
    + rewrite lookup_insert_ne in Hl1 by done. destruct al as [al|]; simpl in Hacc.
      * destruct Hacc as [_ Hall]. rewrite <- Hown. eauto.
      * assert (o' ∈ holders t a) as Hin by (apply elem_of_holders; eauto). set_solver.
Qed.

Lemma accounts_skip t o l a al :
  t !! o = None -> ~ holds l a -> accounts al t a -> accounts al (<[o := l]> t) a.
Proof.
  intros Ho Hh Hacc. assert (holders (<[o := l]> t) a = holders t a) as Heq.
  { apply set_eq. intros o'. rewrite !elem_of_holders.
    destruct (decide (o' = o)) as [->|]; [rewrite lookup_insert_eq, Ho|by rewrite lookup_insert_ne by done].
    naive_solver. }
  unfold accounts in *. rewrite Heq. destruct al as [al|]; [|done]. destruct Hacc as [Hc Hall].
  split; [done|]. intros o' l1 Hl1 Hh1. destruct (decide (o' = o)) as [->|].
  - rewrite lookup_insert_eq in Hl1. by simplify_eq.
  - rewrite lookup_insert_ne in Hl1 by done. eauto.
Qed.

(** A tunnel gives an address back: its entry loses one claim. *)
Lemma accounts_drop t o l t' a al :
  t !! o = Some l -> holds l a ->
  (forall o' l', t' !! o' = Some l' -> o' <> o -> t !! o' = Some l') ->
  (forall o' l', t !! o' = Some l' -> o' <> o -> t' !! o' = Some l') ->
  (forall l', t' !! o = Some l' -> ~ holds l' a) ->
  accounts al t a -> accounts (drop1 al) t' a.
Proof.
  intros Ho Hh Hsub Hsup Hnew Hacc.
  assert (o ∈ holders t a) as Hin by (apply elem_of_holders; eauto).
  assert (holders t' a = holders t a ∖ {[o]}) as Heq.
  { apply set_eq. intros o'. rewrite elem_of_difference, elem_of_singleton, !elem_of_holders.
    split.
    - intros (l' & Hl' & Hh'). destruct (decide (o' = o)) as [->|Hne]; [by destruct (Hnew l')|].
      split; [|done]. exists l'. eauto.
    - intros [(l' & Hl' & Hh') Hne]. exists l'. eauto. }
  destruct al as [al|]; simpl in *; [|set_solver]. destruct Hacc as [Hc Hall].
  assert (size (holders t' a) = claims al - 1)%nat as Hsz.
  { rewrite Heq, size_difference, size_singleton by set_solver. lia. }
  case_bool_decide as H1; simpl.
  - split; [done|]. intros o' l' Hl' Hh'. destruct (decide (o' = o)) as [->|Hne]; [by destruct (Hnew l')|].
    eapply Hall; eauto.
  - apply size_empty_inv in Hsz || apply leibniz_equiv, size_empty_inv. lia.
Qed.

Lemma accounts_keep t o t' a al :
  (forall o' l', o' <> o -> t' !! o' = Some l' <-> t !! o' = Some l') ->
  (forall l, t !! o = Some l -> ~ holds l a) -> (forall l, t' !! o = Some l -> ~ holds l a) ->
  accounts al t a -> accounts al t' a.
Proof.
  intros Hs H1 H2 Hacc. assert (holders t' a = holders t a) as Heq.
  { apply set_eq. intros o'. rewrite !elem_of_holders.
    destruct (decide (o' = o)) as [->|]; [naive_solver|]. setoid_rewrite Hs; [done|done]. }
  unfold accounts in *. rewrite Heq. destruct al as [al|]; [|done]. destruct Hacc as [Hc Hall].
  split; [done|]. intros o' l' Hl' Hh'. destruct (decide (o' = o)) as [->|]; [naive_solver|].
  apply Hs in Hl'; [|done]. eauto.
Qed.

(** ** Preservation *)

(** Any two holders of an address are pinned to the same key; so a dynamic
    address has one holder. *)
Lemma shared_address w a o1 l1 o2 l2 :
  world_ok w -> tunnels w !! o1 = Some l1 -> tunnels w !! o2 = Some l2 ->
  holds l1 a -> holds l2 a -> o1 <> o2 -> lease_key l1 = lease_key l2 /\ lease_key l1 <> None.
Proof.
  intros ((_ & _ & Hal & _) & _ & Hacc & _) H1 H2 Hh1 Hh2 Hne. specialize (Hacc a).
  assert (o1 ∈ holders (tunnels w) a) as Hi1 by (apply elem_of_holders; eauto).
  assert (o2 ∈ holders (tunnels w) a) as Hi2 by (apply elem_of_holders; eauto).
  destruct (allocated (pool w) !! a) as [al|] eqn:Ha; simpl in Hacc; [|set_solver].
  destruct Hacc as [Hc Hall]. rewrite (Hall o1 l1), (Hall o2 l2) by done. split; [done|].
  intros Hn. destruct (Hal a al Ha) as [_ [_ Hone]]. specialize (Hone Hn).
  assert (size ({[o1; o2]} : gset TunnelOwner) <= size (holders (tunnels w) a))%nat as Hsz
    by (apply subseteq_size; set_solver).
  rewrite size_union, !size_singleton in Hsz by set_solver. lia.
Qed.

Lemma accounts_release w o l t' a :
  world_ok w -> tunnels w !! o = Some l -> phase l <> Released ->
  (forall o' l', o' <> o -> t' !! o' = Some l' <-> tunnels w !! o' = Some l') ->
  (forall l' a, t' !! o = Some l' -> ~ holds l' a) ->
  accounts (allocated (release_all (pool w) (addrs l)) !! a) t' a.
Proof.
  intros (_ & Hnd & Hacc & _) Ho Hph Hs Hnew. specialize (Hacc a).
  rewrite release_all_lookup by eauto. case_bool_decide as Hin.
  - eapply accounts_drop; [exact Ho| | | | |exact Hacc].
    + split; [done|]. by destruct (phase l).
    + intros. by apply Hs.
    + intros. by apply Hs.
    + intros l'. apply Hnew.
  - eapply accounts_keep; [exact Hs| | |exact Hacc]; [|intros l'; apply Hnew].
    intros l' Hl' [Hi _]. by simplify_eq.
Qed.

(** Adding a lease whose addresses the pool has just given. *)
Lemma accounts_take w o l (m' : gmap IpAddr Allocation) :
  world_ok w -> tunnels w !! o = None -> phase l = Routing_ 0 ->
  (forall a, m' !! a =
     (if bool_decide (a ∈ addrs l)
      then Some {| claims := S (match allocated (pool w) !! a with Some al => claims al | None => 0 end);
                   owner := lease_key l |}
      else allocated (pool w) !! a) /\
     (a ∈ addrs l -> match allocated (pool w) !! a with Some al => owner al = lease_key l | None => True end)) ->
  forall a, accounts (m' !! a) (<[o := l]> (tunnels w)) a.
Proof.
  intros (_ & _ & Hacc & _) Ho Hph Hm a. destruct (Hm a) as [-> Hown]. specialize (Hacc a).
  case_bool_decide as Hin.
  - apply accounts_add; [done|done|done|split; [done|by rewrite Hph]|by apply Hown].
  - apply accounts_skip; [done| |done]. intros [Hi _]. done.
Qed.

(** A tunnel that takes a step other than routing keeps the route facts. *)
Lemma routes_update w o l' :
  (forall a o', Routing.lookup (routes w) a = Some o' ->
     exists l, tunnels w !! o' = Some l /\ a ∈ routed l) ->
  (forall l, tunnels w !! o = Some l -> forall a, a ∈ routed l -> a ∈ routed l') ->
  (forall a, tunnels w !! o = None -> Routing.lookup (routes w) a <> Some o) ->
  forall a o', Routing.lookup (routes w) a = Some o' ->
    exists l, <[o := l']> (tunnels w) !! o' = Some l /\ a ∈ routed l.
Proof.
  intros Hr Hsub Hnone a o' Ha. destruct (Hr a o' Ha) as (l & Hl & Hin).
  destruct (decide (o' = o)) as [->|]; [rewrite lookup_insert_eq|rewrite lookup_insert_ne by done]; eauto.
Qed.

Lemma world_new_lease w o l p' :
  world_ok w -> tunnels w !! o = None -> pool_ok p' -> NoDup (addrs l) -> phase l = Routing_ 0 ->
  (forall a, accounts (allocated p' !! a) (<[o := l]> (tunnels w)) a) ->
  world_ok {| pool := p'; routes := routes w; tunnels := <[o := l]> (tunnels w) |}.
Proof.
  intros (_ & Hnd & _ & Hr & He) Ho Hp' Hnl Hph Hacc.
  assert (routed l = []) as Hrl by (unfold routed; by rewrite Hph).
  split_and!; simpl; [done| |done| |].
  - intros o' l' Hl'. destruct (decide (o' = o)) as [->|].
    + rewrite lookup_insert_eq in Hl'. by simplify_eq.
    + rewrite lookup_insert_ne in Hl' by done. eauto.
  - apply routes_update; [done| |].
    + intros l0 Hl0. congruence.
    + intros a _ Ha. destruct (Hr a o Ha) as (l0 & ? & _). congruence.
  - intros o' l' a Hl' Hk Hh Hin. destruct (decide (o' = o)) as [->|].
    + rewrite lookup_insert_eq in Hl'. simplify_eq. rewrite Hrl in Hin. by apply elem_of_nil in Hin.
    + rewrite lookup_insert_ne in Hl' by done. eauto.
Qed.

(** The tunnel [o] stops holding: it is replaced by a non-holding lease that
    still accounts for its routes, or removed when it has none. *)
Lemma world_release w o l t' :
  world_ok w -> tunnels w !! o = Some l -> phase l <> Released ->
  (forall o' l', o' <> o -> t' !! o' = Some l' <-> tunnels w !! o' = Some l') ->
  (forall l', t' !! o = Some l' -> addrs l' = addrs l /\ phase l' = Released) ->
  (forall a, a ∈ routed l -> exists l', t' !! o = Some l' /\ a ∈ routed l') ->
  world_ok {| pool := release_all (pool w) (addrs l); routes := routes w; tunnels := t' |}.
Proof.
  intros Hw Ho Hph Hs Hnew Hrt. pose proof Hw as (Hp & Hnd & _ & Hr & He).
  assert (forall l' a, t' !! o = Some l' -> ~ holds l' a) as Hnh.
  { intros l' a Hl' [_ Hx]. destruct (Hnew l' Hl') as [_ Hrel]. by rewrite Hrel in Hx. }
  split_and!; simpl; [by apply release_all_ok| | | |].
  - intros o' l' Hl'. destruct (decide (o' = o)) as [->|].
    + destruct (Hnew l' Hl') as [-> _]. eauto.
    + apply Hs in Hl'; eauto.
  - intros a. eapply accounts_release; eauto.
  - intros a o' Ha. destruct (Hr a o' Ha) as (l0 & Hl0 & Hin). destruct (decide (o' = o)) as [->|].
    + simplify_eq. eauto.
    + exists l0. split; [by apply Hs|done].
  - intros o' l' a Hl' Hk Hh Hin. destruct (decide (o' = o)) as [->|].
    + by destruct (Hnh l' a).
    + apply Hs in Hl'; eauto.
Qed.

(** The tunnel [o] removes its routes. *)
Lemma world_unroute w o l t' :
  world_ok w -> tunnels w !! o = Some l -> routed l = addrs l ->
  (forall o' l', o' <> o -> t' !! o' = Some l' <-> tunnels w !! o' = Some l') ->
  (forall l', t' !! o = Some l' -> addrs l' = addrs l /\ routed l' = []) ->
  (forall a, accounts (allocated (pool w) !! a) t' a) ->
  world_ok {| pool := pool w; routes := remove_owned (routes w) (addrs l) o; tunnels := t' |}.
Proof.
  intros Hw Ho Hrd Hs Hnew Hacc. pose proof Hw as (Hp & Hnd & _ & Hr & He).
  split_and!; simpl; [done| |done| |].
  - intros o' l' Hl'. destruct (decide (o' = o)) as [->|].
    + destruct (Hnew l' Hl') as [-> _]. eauto.
    + apply Hs in Hl'; eauto.
  - intros a o'. rewrite remove_owned_lookup. case_bool_decide as Hrm; [done|]. intros Ha.
    destruct (Hr a o' Ha) as (l0 & Hl0 & Hin). destruct (decide (o' = o)) as [->|].
    + simplify_eq. destruct Hrm. rewrite <- Hrd. done.
    + exists l0. split; [by apply Hs|done].
  - intros o' l' a Hl' Hk Hh Hin. destruct (decide (o' = o)) as [->|].
    + destruct (Hnew l' Hl') as [_ Hx]. rewrite Hx in Hin. by apply elem_of_nil in Hin.
    + apply Hs in Hl'; [|done]. rewrite remove_owned_lookup, bool_decide_false; [eauto|].
      intros [_ Hx]. rewrite (He o' l' a Hl' Hk Hh Hin) in Hx. congruence.
Qed.

Lemma same_allocated w p' :
  world_ok w -> pool_ok p' -> allocated p' = allocated (pool w) ->
  world_ok {| pool := p'; routes := routes w; tunnels := tunnels w |}.
Proof. intros (_ & ? & ? & ? & ?) Hp Ha. split_and!; simpl; [done|done| |done|done]. by rewrite Ha. Qed.

Lemma set_reservations_allocated (p : AddressPool N4 N6) l :
  allocated (set_static_reservations p l).1 = allocated p.
Proof. unfold set_static_reservations. by destruct (collect_reservations p ∅ l). Qed.

Lemma step_claim_ok w o c p' l :
  world_ok w -> tunnels w !! o = None -> claim_static_addresses (pool w) c = (p', Ok l) ->
  world_ok {| pool := p'; routes := routes w;
              tunnels := <[o := {| addrs := l; lease_key := Some (key c); phase := Routing_ 0 |}]> (tunnels w) |}.
Proof.
  intros Hw Ho Hc. pose proof (claim_static_spec (pool w) c (proj1 Hw)) as Hs. rewrite Hc in Hs.
  destruct Hs as (Hp' & _ & -> & Hm).
  apply world_new_lease; [done|done|done|apply static_addresses_nodup|done|].
  apply accounts_take; [done|done|done|]. intros a. destruct (Hm a) as [-> Hown]. simpl.
  split; [|done]. case_bool_decide as Hin; [|done]. specialize (Hown Hin).
  destruct (allocated (pool w) !! a) as [al|]; simpl; [by rewrite Hown|done].
Qed.

Lemma step_allocate_ok w o p' l :
  world_ok w -> tunnels w !! o = None -> allocate_pool_addresses (pool w) = (p', l) ->
  world_ok {| pool := p'; routes := routes w;
              tunnels := <[o := {| addrs := l; lease_key := None; phase := Routing_ 0 |}]> (tunnels w) |}.
Proof.
  intros Hw Ho Ha. pose proof (allocate_pool_spec (pool w) (proj1 Hw)) as Hs. rewrite Ha in Hs.
  destruct Hs as (Hp' & _ & Hnd & Hm & _).
  apply world_new_lease; [done..|]. apply accounts_take; [done|done|done|].
  intros a. destruct (Hm a) as [-> Hnone]. simpl. split.
  - case_bool_decide as Hin; [|done]. by rewrite (Hnone Hin).
  - intros Hin. by rewrite (Hnone Hin).
Qed.

Lemma step_route_ok w o l n a :
  world_ok w -> tunnels w !! o = Some l -> phase l = Routing_ n -> addrs l !! n = Some a ->
  world_ok {| pool := pool w; routes := (Routing.insert (routes w) a o).1;
              tunnels := <[o := with_phase l (Routing_ (S n))]> (tunnels w) |}.
Proof.
  intros Hw Ho Hph Hn. pose proof Hw as (Hp & Hnd & Hacc & Hr & He).
  assert (holds l a) as Hha by (split; [by eapply list_elem_of_lookup_2|by rewrite Hph]).
  assert (routed l = take n (addrs l)) as Hrd by (unfold routed; by rewrite Hph).
  assert (routed (with_phase l (Routing_ (S n))) = routed l ++ [a]) as Hrd'
    by (rewrite Hrd; unfold routed; simpl; by apply take_S_r).
  split_and!; simpl; [done| | | |].
  - intros o' l' Hl'. destruct (decide (o' = o)) as [->|].
    + rewrite lookup_insert_eq in Hl'. simplify_eq. simpl. eauto.
    + rewrite lookup_insert_ne in Hl' by done. eauto.
  - intros b. eapply accounts_same; [exact Ho|done| |apply Hacc].
    unfold holds. simpl. by rewrite Hph.
  - intros b o'. unfold Routing.lookup. simpl. destruct (decide (b = a)) as [->|].
    + rewrite lookup_insert_eq. intros [= <-]. exists (with_phase l (Routing_ (S n))).
      rewrite lookup_insert_eq, Hrd'. split; [done|]. set_solver.
    + rewrite lookup_insert_ne by done. intros Hb. destruct (Hr b o' Hb) as (l0 & Hl0 & Hin).
      destruct (decide (o' = o)) as [->|]; [|exists l0; by rewrite lookup_insert_ne by done].
      simplify_eq. exists (with_phase l (Routing_ (S n))).
      rewrite lookup_insert_eq, Hrd'. split; [done|]. set_solver.
  - intros o' l' b Hl' Hk Hh Hin. unfold Routing.lookup. simpl.
    destruct (decide (o' = o)) as [->|Hne].
    + rewrite lookup_insert_eq in Hl'. simplify_eq. simpl in Hk. rewrite Hrd' in Hin.
      destruct (decide (b = a)) as [->|]; [by rewrite lookup_insert_eq|].
      rewrite lookup_insert_ne by done. eapply (He o l b); [done|done| |set_solver].
      destruct Hh as [Hh _]. split; [done|by rewrite Hph].
    + rewrite lookup_insert_ne in Hl' by done. destruct (decide (b = a)) as [->|].
      * destruct (shared_address w a o' l' o l) as [_ Hx]; done.
      * rewrite lookup_insert_ne by done. eauto.
Qed.

Lemma step_active_ok w o l :
  world_ok w -> tunnels w !! o = Some l -> phase l = Routing_ (length (addrs l)) ->
  world_ok {| pool := pool w; routes := routes w; tunnels := <[o := with_phase l Active]> (tunnels w) |}.
Proof.
  intros Hw Ho Hph. pose proof Hw as (Hp & Hnd & Hacc & Hr & He).
  assert (routed l = addrs l) as Hrd by (unfold routed; rewrite Hph; by apply take_ge).
  split_and!; simpl; [done| | | |].
  - intros o' l' Hl'. destruct (decide (o' = o)) as [->|].
    + rewrite lookup_insert_eq in Hl'. simplify_eq. simpl. eauto.
    + rewrite lookup_insert_ne in Hl' by done. eauto.
  - intros b. eapply accounts_same; [exact Ho|done| |apply Hacc].
    unfold holds. simpl. by rewrite Hph.
  - apply routes_update; [done| |congruence].
    intros l0 Hl0 b. simplify_eq. by rewrite Hrd.
  - intros o' l' b Hl' Hk Hh Hin. destruct (decide (o' = o)) as [->|].
    + rewrite lookup_insert_eq in Hl'. simplify_eq. apply (He o l b); [done|done| |by rewrite Hrd].
      destruct Hh as [Hh _]. split; [done|by rewrite Hph].
    + rewrite lookup_insert_ne in Hl' by done. eauto.
Qed.

Lemma step_ok w w' : world_ok w -> step w w' -> world_ok w'.
Proof.
  intros Hw Hst.
  destruct Hst as [w l|w o c p' l Ho Hst Hc|w c p' e Hc|w o p' l Ho Ha Hne|w p' Ha|w o l Ho Hph
    |w o l n a Ho Hph Hn|w o l Ho Hph|w o l Ho Hph|w o l Ho Hph|w o l Ho Hph|w o l Ho Hph].
  - apply same_allocated; [done|by apply set_static_reservations_ok; destruct Hw
      |apply set_reservations_allocated].
  - by apply step_claim_ok.
  - pose proof (claim_static_spec (pool w) c (proj1 Hw)) as Hs. rewrite Hc in Hs.
    destruct Hs as (? & _ & ?). by apply same_allocated.
  - by apply step_allocate_ok.
  - pose proof (allocate_pool_spec (pool w) (proj1 Hw)) as Hs. rewrite Ha in Hs.
    destruct Hs as (? & _ & _ & Hm & _). apply same_allocated; [done..|].
    apply map_eq. intros b. destruct (Hm b) as [-> _].
    by rewrite bool_decide_false by apply not_elem_of_nil.
  - apply (world_release w o); [done|done|by rewrite Hph| | |].
    + intros. by rewrite lookup_delete_ne.
    + intros l'. by rewrite lookup_delete_eq.
    + intros a. unfold routed. rewrite Hph. simpl. by intros ?%elem_of_nil.
  - by apply step_route_ok.
  - by apply step_active_ok.
  - apply (world_release w o); [done|done|by rewrite Hph| | |].
    + intros. by rewrite lookup_insert_ne.
    + intros l'. rewrite lookup_insert_eq. by intros [= <-].
    + intros a Hin. exists (with_phase l Released). rewrite lookup_insert_eq. split; [done|].
      unfold routed in *. rewrite Hph in Hin. done.
  - apply (world_unroute w o); [done|done|unfold routed; by rewrite Hph| | |].
    + intros. by rewrite lookup_delete_ne.
    + intros l'. by rewrite lookup_delete_eq.
    + intros a. destruct Hw as (_ & _ & Hacc & _). eapply (accounts_keep _ o); [|..|apply Hacc].
      * intros. by rewrite lookup_delete_ne.
      * intros l' Hl' [_ Hx]. simplify_eq. by rewrite Hph in Hx.
      * intros l'. by rewrite lookup_delete_eq.
  - apply (world_unroute w o); [done|done|unfold routed; by rewrite Hph| | |].
    + intros. by rewrite lookup_insert_ne.
    + intros l'. rewrite lookup_insert_eq. by intros [= <-].
    + intros a. destruct Hw as (_ & _ & Hacc & _).
      eapply accounts_same; [exact Ho|done| |apply Hacc]. unfold holds. simpl. by rewrite Hph.
  - apply (world_release w o); [done|done|by rewrite Hph| | |].
    + intros. by rewrite lookup_delete_ne.
    + intros l'. by rewrite lookup_delete_eq.
    + intros a. unfold routed. rewrite Hph. by intros ?%elem_of_nil.
Qed.

Definition initial (p : AddressPool N4 N6) : World :=
  {| pool := p; routes := Routing.new; tunnels := ∅ |}.

Lemma initial_ok p : pool_ok p -> allocated p = ∅ -> world_ok (initial p).
Proof.
  intros Hp Ha. split_and!; simpl; [done|done| |done|done].
  intros a. rewrite Ha, lookup_empty. simpl. apply set_eq. intros o. rewrite elem_of_holders.
  set_solver.
Qed.

Lemma reachable_ok p w : pool_ok p -> allocated p = ∅ -> rtc step (initial p) w -> world_ok w.
Proof.
  intros Hp Ha Hr. assert (world_ok (initial p)) as Hi by (by apply initial_ok).
  induction Hr as [|w w1 w2 Hs Hr IH]; [done|]. apply IH. by eapply step_ok.
Qed.

(** ** The handlers are runs of the step relation *)

Lemma route_steps w o l k :
  tunnels w !! o = Some l -> phase l = Routing_ k -> (k <= length (addrs l))%nat ->
  rtc step w {| pool := pool w; routes := insert_routes (routes w) (drop k (addrs l)) o;
                tunnels := <[o := with_phase l (Routing_ (length (addrs l)))]> (tunnels w) |}.
Proof.
  remember (length (addrs l) - k)%nat as d eqn:Hd. revert w l k Hd.
  induction d as [|d IH]; intros w l k Hd Ho Hph Hk.
  - rewrite drop_ge by lia. simpl. destruct w as [p r t]; simpl in *.
    rewrite insert_id; [done|]. rewrite Ho. f_equal. destruct l as [a key ph]; simpl in *.
    unfold with_phase; simpl. f_equal. rewrite Hph. f_equal. lia.
  - destruct (lookup_lt_is_Some_2 (addrs l) k) as [a Ha]; [lia|].
    eapply rtc_l; [by eapply step_route|].
    rewrite (drop_S _ _ _ Ha). cbn [insert_routes].
    set (w1 := {| pool := pool w; routes := _; tunnels := <[o := with_phase l (Routing_ (S k))]> _ |}).
    pose proof (IH w1 (with_phase l (Routing_ (S k))) (S k)) as Hrec. simpl in Hrec.
    rewrite lookup_insert_eq, insert_insert_eq in Hrec. apply Hrec; [lia|done|done|lia].
Qed.

(** Turning fresh addresses into an active tunnel. *)
Lemma activate w o l :
  tunnels w !! o = Some l -> phase l = Routing_ 0 ->
  rtc step w {| pool := pool w; routes := insert_routes (routes w) (addrs l) o;
                tunnels := <[o := with_phase l Active]> (tunnels w) |}.
Proof.
  intros Ho Hph. eapply rtc_r; [apply (route_steps w o l 0); [done|done|lia]|].
  rewrite drop_0. set (w1 := {| pool := pool w; routes := _; tunnels := _ |}).
  pose proof (step_active w1 o (with_phase l (Routing_ (length (addrs l))))) as Hs. simpl in Hs.
  rewrite lookup_insert_eq, insert_insert_eq in Hs. by apply Hs.
Qed.

Definition shared_of (w : World) : Shared N4 N6 :=
  {| address_pool := pool w; routing_table := routes w |}.

(** The identity whose pinned addresses a connection gets. *)
Definition pinned_identity (c : ClientState) : option ClientIdentity :=
  match identity c with
  | Some i => if has_static_addresses i then Some i else None
  | None => None
  end.

(** Taking addresses is a step, whatever comes of it. *)
Lemma take_step w o c :
  tunnels w !! o = None ->
  let '(p, leased) :=
    match pinned_identity c with
    | Some i => claim_static_addresses (pool w) i
    | None => let '(pool, l) := allocate_pool_addresses (pool w) in (pool, Ok l)
    end in
  match leased with
  | Ok l =>
      if bool_decide (l = [])
      then rtc step w {| pool := p; routes := routes w; tunnels := tunnels w |}
      else rtc step w {| pool := p; routes := routes w;
             tunnels := <[o := {| addrs := l; lease_key := key <$> pinned_identity c;
                                  phase := Routing_ 0 |}]> (tunnels w) |}
  | Err _ => rtc step w {| pool := p; routes := routes w; tunnels := tunnels w |}
  | Panic => True
  end.
Proof.
  intros Ho. destruct (pinned_identity c) as [i|] eqn:Hi.
  - assert (has_static_addresses i = true) as Hst.
    { unfold pinned_identity in Hi. repeat case_match; naive_solver. }
    destruct (claim_static_addresses (pool w) i) as [p [l|e|]] eqn:Hc; [| |done].
    + case_bool_decide as Hl; [|by apply rtc_once, step_claim].
      exfalso. subst l. unfold claim_static_addresses, static_addresses, has_static_addresses in *.
      assert (forall p ads acc p' l, claim_loop (N4:=N4) (N6:=N6) p (key i) ads acc = (p', Ok l) -> l = acc ++ ads) as Hcl.
      { intros q ads. revert q. induction ads as [|a ads IH]; intros q acc p' l H; simpl in H;
          [simplify_eq; by rewrite app_nil_r|].
        destruct (claim q a (key i)) as [q' [[]|?|]]; simplify_eq.
        apply IH in H. by rewrite <- app_assoc in H. }
      apply Hcl in Hc. destruct (ipv4 i), (ipv6 i); try done.
    + by eapply rtc_once, step_claim_fail.
  - destruct (allocate_pool_addresses (pool w)) as [p l] eqn:Ha. case_bool_decide as Hl.
    + subst. by apply rtc_once, step_allocate_fail.
    + by apply rtc_once, step_allocate.
Qed.

(** ** Properties *)

(** C7: tunnels are isolated from each other in every interleaving.  In every
    state reachable from an unused pool, whatever setups, teardowns and roster
    reloads run concurrently: two tunnels that hold the same address are pinned
    to the same client key, so a dynamic address has one holder; the pool counts
    exactly the holders of every address, so nothing leaks and nothing is freed
    early; an address is only ever routed to a tunnel that took it; and every
    address of an established dynamic tunnel is routed to that tunnel. *)
Theorem lease_isolation (p : AddressPool N4 N6) (w : World) :
  pool_ok p -> allocated p = ∅ -> rtc step (initial p) w ->
  (forall o1 o2 l1 l2 a, tunnels w !! o1 = Some l1 -> tunnels w !! o2 = Some l2 ->
     holds l1 a -> holds l2 a -> o1 <> o2 ->
     lease_key l1 = lease_key l2 /\ lease_key l1 <> None) /\
  (forall a, match allocated (pool w) !! a with
             | Some al => claims al = size (holders (tunnels w) a)
             | None => holders (tunnels w) a = ∅
             end) /\
  (forall a o, Routing.lookup (routes w) a = Some o ->
     exists l, tunnels w !! o = Some l /\ a ∈ addrs l) /\
  (forall o l a, tunnels w !! o = Some l -> phase l = Active -> lease_key l = None ->
     a ∈ addrs l -> Routing.lookup (routes w) a = Some o).
Proof.
  intros Hp Ha Hr. assert (world_ok w) as Hw by (by eapply reachable_ok). split_and!.
  - intros o1 o2 l1 l2 a. by apply shared_address.
  - intros a. destruct Hw as (_ & _ & Hacc & _). specialize (Hacc a).
    destruct (allocated (pool w) !! a); [apply Hacc|done].
  - intros a o Hl. destruct Hw as (_ & _ & _ & Hrt & _). destruct (Hrt a o Hl) as (l & ? & Hin).
    exists l. split; [done|]. unfold routed in Hin.
    destruct (phase l); [by apply (subseteq_take n (addrs l))|done|done|by apply elem_of_nil in Hin].
  - intros o l a Ho Hph Hk Hin. destruct Hw as (_ & _ & _ & _ & He).
    apply (He o l a); [done|done| |]; [split; [done|by rewrite Hph]|unfold routed; by rewrite Hph].
Qed.

(** C38: the setup handler is a run of the step relation: whatever the response
    and the capsule queue do, it ends with the pool and the routes of a state
    reachable by steps of its own tunnel, in which the tunnel is established
    exactly when the handler installed it, and gone otherwise. *)
Theorem setup_refines_steps (w : World) (c : ClientState) (stream conn : Z)
    (sent : SendOutcome) (queued : bool) (now : Z) (sh' : Shared N4 N6) (c' : ClientState) :
  let o := {| conn_id := conn; Routing.stream_id := stream |} in
  tunnels w !! o = None -> ip_tunnels c !! stream = None ->
  setup_ip_tunnel (shared_of w) c stream conn sent queued now = Ok (sh', c') ->
  exists w', rtc step w w' /\ shared_of w' = sh' /\
    tunnels w' = match ip_tunnels c' !! stream with
                 | Some t => <[o := {| addrs := assigned_addrs t; lease_key := key <$> pinned_identity c;
                                       phase := Active |}]> (tunnels w)
                 | None => tunnels w
                 end.
Proof.
  intros o Ho Hc. unfold setup_ip_tunnel, tunnel_new. intros H.
  apply bind_Ok in H as (t0 & Ht0 & H). apply bind_Ok in Ht0 as (hd & _ & Ht0). simplify_eq.
  pose proof (take_step w o c Ho) as Htake. unfold pinned_identity in Htake at 1.
  cbn [shared_of address_pool routing_table] in H. revert Htake H.
  destruct (match match identity c with Some i => if has_static_addresses i then Some i else None
    | None => None end with Some i => _ | None => _ end) as [p [l|e|]]; intros Htake H; [| |done].
  2: { simplify_eq. exists {| pool := p; routes := routes w; tunnels := tunnels w |}.
       split; [done|]. split; [done|]. unfold send_error. destruct (has_h3 c); simpl; by rewrite Hc. }
  case_bool_decide as Hl.
  { simplify_eq. exists {| pool := p; routes := routes w; tunnels := tunnels w |}.
    split; [done|]. split; [done|]. unfold send_error. destruct (has_h3 c); simpl; by rewrite Hc. }
  set (le := {| addrs := l; lease_key := key <$> pinned_identity c; phase := Routing_ 0 |}) in *.
  set (w1 := {| pool := p; routes := routes w; tunnels := <[o := le]> (tunnels w) |}) in *.
  assert (rtc step w {| pool := release_all p l; routes := routes w; tunnels := tunnels w |}) as Habort.
  { eapply rtc_r; [exact Htake|]. pose proof (step_abort w1 o le) as Hs. simpl in Hs.
    rewrite lookup_insert_eq, delete_insert_id in Hs by done. by apply Hs. }
  assert (rtc step w {| pool := p; routes := insert_routes (routes w) l o;
                        tunnels := <[o := with_phase le Active]> (tunnels w) |}) as Hact.
  { etrans; [exact Htake|]. pose proof (activate w1 o le) as Hs. simpl in Hs.
    rewrite lookup_insert_eq, insert_insert_eq in Hs. by apply Hs. }
  destruct (has_h3 c) eqn:Hh3; simpl in H.
  2: { simplify_eq. eexists. split; [exact Habort|]. by rewrite Hc. }
  destruct sent; simpl in H.
  - apply bind_Ok in H as (caps & _ & H). destruct queued; simpl in H.
    + simplify_eq. eexists. split; [exact Hact|]. simpl. rewrite lookup_insert_eq. done.
    + unfold teardown_ip_tunnel in H. simpl in H. rewrite lookup_insert_eq in H. simpl in H. simplify_eq.
      exists {| pool := release_all p l; routes := remove_owned (insert_routes (routes w) l o) l o;
                tunnels := tunnels w |}.
      split; [|simpl; by rewrite lookup_delete_eq].
      set (w2 := {| pool := p; routes := insert_routes (routes w) l o;
                    tunnels := <[o := with_phase le Active]> (tunnels w) |}) in *.
      pose proof (step_release w2 o (with_phase le Active)) as Hs. simpl in Hs.
      rewrite lookup_insert_eq, insert_insert_eq in Hs. specialize (Hs eq_refl eq_refl).
      eapply rtc_r; [eapply rtc_r; [exact Hact|exact Hs]|].
      set (w3 := {| pool := release_all p l; routes := _; tunnels := <[o := _]> _ |}).
      pose proof (step_unroute_released w3 o (with_phase (with_phase le Active) Released)) as Hs'.
      simpl in Hs'. rewrite lookup_insert_eq, delete_insert_id in Hs' by done. by apply Hs'.
  - simplify_eq. eexists. split; [exact Habort|]. simpl. by rewrite Hc.
  - simplify_eq. eexists. split; [exact Habort|]. by rewrite Hc.
Qed.

(** Closing a tunnel is a run of the step relation, in either of the two
    orders the code uses: an HTTP/3 teardown gives the addresses back before it
    removes the routes, a dropped HTTP/2 lease removes the routes first.  Both
    end in the same pool and the same routes with the tunnel gone. *)
Theorem teardown_refines_steps (w : World) (c : ClientState) (stream conn : Z) (t : IpTunnel) (l : Lease) :
  let o := {| conn_id := conn; Routing.stream_id := stream |} in
  ip_tunnels c !! stream = Some t ->
  tunnels w !! o = Some l -> addrs l = assigned_addrs t -> phase l = Active ->
  exists w', rtc step w w' /\ tunnels w' = delete o (tunnels w) /\
    (teardown_ip_tunnel (shared_of w) c stream conn).1 = shared_of w' /\
    drop_http2_lease (shared_of w) (addrs l) o = shared_of w' /\
    ip_tunnels (teardown_ip_tunnel (shared_of w) c stream conn).2 !! stream = None.
Proof.
  intros o Hc Ho Ha Hph. unfold teardown_ip_tunnel. rewrite Hc. simpl. rewrite <- Ha.
  exists {| pool := release_all (pool w) (addrs l); routes := remove_owned (routes w) (addrs l) o;
            tunnels := delete o (tunnels w) |}.
  split; [|by rewrite lookup_delete_eq].
  eapply rtc_l; [by eapply step_release|].
  set (w1 := {| pool := release_all _ _; routes := _; tunnels := _ |}).
  pose proof (step_unroute_released w1 o (with_phase l Released)) as Hs. simpl in Hs.
  rewrite lookup_insert_eq, delete_insert_eq in Hs. by apply rtc_once, Hs.
Qed.
End interleaving.

(** ** The capsules a fresh tunnel gets *)

Lemma to_capsule_address_ok a : ipaddr_ok a -> assigned_ok (to_capsule_address a).
Proof.
  unfold assigned_ok, varint_ok, byte_ok. destruct a as [z|z]; simpl; intros Ha;
    split_and!; try done; try (unfold MAX_VALUE; lia); exists z; lia.
Qed.

Lemma assigned_wires_short l :
  (length (assigned_wires (to_capsule_address <$> l)) <= 19 * length l)%nat.
Proof.
  induction l as [|a l IH]; [done|]. rewrite fmap_cons.
  change (assigned_wires (to_capsule_address a :: _))
    with (assigned_wire (to_capsule_address a) ++ assigned_wires (to_capsule_address <$> l)).
  rewrite length_app. cbn [length].
  assert (length (assigned_wire (to_capsule_address a)) <= 19)%nat; [|lia].
  pose proof (wire_len_le 0 0 ltac:(lia) ltac:(lia)) as Hw. change (Z.to_nat (2 ^ 0)) with 1%nat in Hw.
  unfold assigned_wire, octets. destruct a; cbn [to_capsule_address Capsule.request_id Capsule.ip Capsule.prefix_len];
    rewrite !length_app, length_wire, length_be_bytes; simpl; lia.
Qed.

Lemma default_routes_sendable max : (44 <= max)%nat -> sendable max (RouteAdvertisement default_routes).
Proof.
  intros Hmax. assert (length (frame_value (RouteAdvertisement default_routes)) = 44%nat) as Hl.
  { unfold frame_value, range_wires, range_wire, octets, default_routes.
    cbn [fmap list_fmap concat start end_ ip_protocol].
    rewrite !length_app, !length_be_bytes. reflexivity. }
  unfold sendable. rewrite Hl. split; [|unfold MAX_VALUE; lia].
  split; [by repeat constructor|].
  constructor; [by repeat constructor|]. apply Forall_singleton. by left.
Qed.

(** The bytes a fresh tunnel queues announce exactly its addresses, as
    single hosts, and the two default routes: encoding them does not panic, and
    a peer that accepts capsules of 44 bytes decodes them to these two frames
    however the bytes are cut. *)
Theorem setup_capsules_announce (addresses : list IpAddr) (max : nat) :
  Forall ipaddr_ok addresses -> (length addresses <= 2)%nat -> (44 <= max)%nat ->
  exists w, encode_ip_setup_capsules (E:=DecodeError) addresses = Ok w /\
    forall chunks, concat chunks = w ->
      (feed (with_max_capsule_size max) chunks).2
        = Ok [AddressAssign (to_capsule_address <$> addresses); RouteAdvertisement default_routes] /\
      buffered (feed (with_max_capsule_size max) chunks).1 = 0%nat.
Proof.
  intros Hok Hlen Hmax.
  set (frames := [AddressAssign (to_capsule_address <$> addresses); RouteAdvertisement default_routes]).
  assert (Forall (sendable max) frames) as Hf.
  { pose proof (assigned_wires_short addresses). apply Forall_cons_2; [|apply Forall_singleton].
    - split_and!; [|unfold frame_value; lia|unfold frame_value, MAX_VALUE; lia].
      apply Forall_fmap. eapply Forall_impl; [exact Hok|]. apply to_capsule_address_ok.
    - by apply default_routes_sendable. }
  exists (concat (frame_wire <$> frames)). split.
  - pose proof (encode_all_Ok (E:=DecodeError) max frames [] Hf) as He. rewrite app_nil_l in He.
    rewrite <- He. unfold encode_ip_setup_capsules, frames. cbn [encode_all].
    destruct (Capsule.encode _ []) as [b| |]; [|done|done].
    cbn [mbind result_bind]. by destruct (Capsule.encode _ b).
  - intros chunks. by apply frames_delivered.
Qed.


(** ** Witnesses *)

Definition sample_owner : TunnelOwner := {| conn_id := 7; Routing.stream_id := 4 |}.
Definition sample_addrs : list IpAddr := [IpV4 0x0a000002; IpV6 (0xfd * 2 ^ 120 + 2)].
Definition sample_lease : Lease := {| addrs := sample_addrs; lease_key := None; phase := Active |}.
Definition sample_world : World :=
  {| pool := (allocate_pool_addresses sample_pool).1;
     routes := insert_routes Routing.new sample_addrs sample_owner;
     tunnels := {[ sample_owner := sample_lease ]} |}.

Lemma sample_reachable : rtc step (initial sample_pool) sample_world.
Proof.
  eapply rtc_l.
  { apply (step_allocate (initial sample_pool) sample_owner
             (allocate_pool_addresses sample_pool).1 sample_addrs); [done|by vm_compute|done]. }
  exact (activate {| pool := (allocate_pool_addresses sample_pool).1; routes := Routing.new;
      tunnels := <[sample_owner := {| addrs := sample_addrs; lease_key := None; phase := Routing_ 0 |}]> ∅ |}
    sample_owner {| addrs := sample_addrs; lease_key := None; phase := Routing_ 0 |} eq_refl eq_refl).
Qed.

Lemma lease_isolation_witness :
  rtc step (initial sample_pool) sample_world /\
  Routing.lookup (routes sample_world) (IpV4 0x0a000002) = Some sample_owner.
Proof.
  split; [exact sample_reachable|].
  destruct (lease_isolation sample_pool sample_world sample_pool_ok eq_refl sample_reachable)
    as (_ & _ & _ & H).
  apply (H sample_owner sample_lease); [done|done|done|by constructor].
Defined.

Lemma setup_capsules_announce_witness :
  exists w, encode_ip_setup_capsules (E:=DecodeError) sample_addrs = Ok w /\
    (feed (with_max_capsule_size 65536) [w]).2
      = Ok [AddressAssign (to_capsule_address <$> sample_addrs); RouteAdvertisement default_routes].
Proof.
  destruct (setup_capsules_announce sample_addrs (Z.to_nat 65536)) as (w & He & Hd);
    [by apply Forall_cons_2, Forall_singleton|simpl; lia|lia|].
  exists w. split; [exact He|]. apply Hd. simpl. apply app_nil_r.
Defined.

Definition sample_client : ClientState :=
  {| identity := None; has_h3 := true; ip_tunnels := ∅; pending_ip_responses := ∅;
     capsule_streams := ∅; capsule_readable := ∅; errors := []; shutdowns := [] |}.

Definition sample_setup : Shared Cidr Cidr6 * ClientState :=
  match setup_ip_tunnel (shared_of (initial sample_pool)) sample_client 4 7 Sent true 100 with
  | Ok r => r
  | _ => (shared_of (initial sample_pool), sample_client)
  end.

Lemma setup_refines_steps_witness :
  setup_ip_tunnel (shared_of (initial sample_pool)) sample_client 4 7 Sent true 100 = Ok sample_setup /\
  exists w', rtc step (initial sample_pool) w' /\ shared_of w' = sample_setup.1.
Proof.
  assert (setup_ip_tunnel (shared_of (initial sample_pool)) sample_client 4 7 Sent true 100
    = Ok sample_setup) as H by (vm_compute; reflexivity).
  split; [exact H|].
  destruct (setup_refines_steps (initial sample_pool) sample_client 4 7 Sent true 100
    sample_setup.1 sample_setup.2 eq_refl eq_refl) as (w' & Hr & Hs & _);
    [rewrite H; by destruct sample_setup|].
  by exists w'.
Defined.

Definition sample_tunnel : IpTunnel :=
  {| tunnel_stream := 4; assigned_addrs := sample_addrs; last_activity := 0;
     header := {| header_bytes := [1]; Datagram.len := 1 |} |}.

Lemma teardown_refines_steps_witness :
  exists w', rtc step sample_world w' /\ tunnels w' = ∅ /\ routes w' = Routing.new.
Proof.
  destruct (teardown_refines_steps sample_world
    {| identity := None; has_h3 := true; ip_tunnels := {[ 4 := sample_tunnel ]};
       pending_ip_responses := ∅; capsule_streams := {[ 4 ]}; capsule_readable := ∅;
       errors := []; shutdowns := [] |} 4 7 sample_tunnel sample_lease)
    as (w' & Hr & Ht & Hs & _); [done|done|done|done|].
  exists w'. split; [exact Hr|]. split; [rewrite Ht; vm_compute; reflexivity|].
  apply (f_equal routing_table) in Hs. change (routing_table (shared_of w')) with (routes w') in Hs.
  rewrite <- Hs. vm_compute. reflexivity.
Defined.
