(* ===== verification/Policy.v ===== *)
(** * Target policy and one-shot target resolution

    Models [src/policy.rs], the allow and deny lists that every proxied target
    is judged by, and [resolve_allowed_with] of [src/tunnel/target.rs], which
    checks one DNS snapshot against the policy.  The [IpNet] type and its text
    parser are the ipnet crate's: an interface with laws and a parameter. *)

From stdpp Require Import sorting strings.
From S2P Require Import Prelude Net AddrText.
Open Scope Z_scope.

(** [Ipv4Net::new(addr, len)]: fails for a length above 32 and keeps the host
    bits of [addr] out of [network]. *)
Class NetNew (net : Type) := net_new : Z -> Z -> option net.
Class NetNewLaws (w : Z) (net : Type) `{NetOps net, NetNew net} : Prop :=
  net_new_spec a len : 0 <= a < 2 ^ w -> 0 <= len <= w ->
    exists n, net_new a len = Some n /\ prefix n = len /\
      network n = a / 2 ^ (w - len) * 2 ^ (w - len).

Inductive IpNet (N4 N6 : Type) :=
| NetV4 (n : N4)
| NetV6 (n : N6).
Arguments NetV4 {N4 N6}.
Arguments NetV6 {N4 N6}.

Inductive PolicyError :=
| InvalidRule (field : string) (index : nat) (rule : string)
| InvalidRestriction (rule : string)
| PortZero.

(** [TargetRestrictionSection] of [src/config.rs]. *)
Record TargetRestrictionSection := {
  allow_targets : option (list string);
  deny_targets : list string;
  allow_ports : option (list Z);
}.

(** ** Slices of the standard library *)

(** [Vec::dedup]. *)
Fixpoint dedup (l : list Z) : list Z :=
  match l with
  | x :: (y :: _) as l' => if bool_decide (x = y) then dedup l' else x :: dedup l'
  | _ => l
  end.

(** [slice::binary_search(..).is_ok()]: [size] halves until one element is left. *)
Definition search_step (l : list Z) (x : Z) (s : nat * nat) : result unit ((nat * nat) + bool) :=
  let '(base, size) := s in
  if bool_decide (1 < size)%nat then
    let half := (size / 2)%nat in
    let mid := (base + half)%nat in
    v ← index l mid;
    Ok (inl (if bool_decide (v > x) then base else mid, (size - half)%nat))
  else
    v ← index l base;
    Ok (inr (bool_decide (v = x))).

Definition binary_search_ok (l : list Z) (x : Z) : result unit bool :=
  if bool_decide (length l = 0%nat) then Ok false
  else while (fun s => s.2) (search_step l x) (0%nat, length l).

Section policy.
  Context {N4 N6 : Type} `{!NetOps N4, !NetOps N6, !NetNew N4}.
  Context (parse_net : string -> option (IpNet N4 N6)).
  Notation IpNet := (IpNet N4 N6).

(** [IpNet::contains]: the families must agree. *)
Definition net_contains (net : IpNet) (addr : IpAddr) : bool :=
  match net, addr with
  | NetV4 n, IpV4 z => contains n z
  | NetV6 n, IpV6 z => contains n z
  | _, _ => false
  end.

Definition canonical_net (net : IpNet) : result PolicyError IpNet :=
  match net with
  | NetV6 v6 =>
      if bool_decide (prefix v6 >= 96) then
        match to_ipv4_mapped (network v6) with
        | Some v4 =>
            match net_new v4 (prefix v6 - 96) with
            | Some n => Ok (NetV4 n)
            | None => Panic
            end
        | None => Ok net
        end
      else Ok net
  | NetV4 _ => Ok net
  end.

Fixpoint parse_cidrs_from (field : string) (index : nat) (rules : list string)
    : result PolicyError (list IpNet) :=
  match rules with
  | [] => Ok []
  | rule :: rules' =>
      net ← ok_or (InvalidRule field index rule) (parse_net rule);
      net ← canonical_net net;
      nets ← parse_cidrs_from field (S index) rules';
      Ok (net :: nets)
  end.

Definition parse_cidrs (rules : list string) (field : string) : result PolicyError (list IpNet) :=
  parse_cidrs_from field 0 rules.

(** ** Per-user restrictions *)

Record TargetRestrictions := {
  r_allow : option (list IpNet);
  r_deny : list IpNet;
  r_ports : option (list Z);
}.

Fixpoint parse_rules (rules : list string) : result PolicyError (list IpNet) :=
  match rules with
  | [] => Ok []
  | rule :: rules' =>
      net ← ok_or (InvalidRestriction rule) (parse_net rule);
      net ← canonical_net net;
      nets ← parse_rules rules';
      Ok (net :: nets)
  end.

Definition from_section (section : TargetRestrictionSection) : result PolicyError TargetRestrictions :=
  ports ← match allow_ports section with
          | None => Ok None
          | Some ports =>
              if bool_decide (0 ∈ ports) then Err PortZero
              else Ok (Some (dedup (merge_sort Z.le ports)))
          end;
  allow ← match allow_targets section with
          | None => Ok None
          | Some rules => nets ← parse_rules rules; Ok (Some nets)
          end;
  deny ← parse_rules (deny_targets section);
  Ok {| r_allow := allow; r_deny := deny; r_ports := ports |}.

(** ** The policy *)

Record TargetPolicy := {
  allow : list IpNet;
  deny : list IpNet;
  restrictions : option TargetRestrictions;
}.

Definition policy_new (allow deny : list string) : result PolicyError TargetPolicy :=
  allow ← parse_cidrs allow "allow_targets";
  deny ← parse_cidrs deny "deny_targets";
  Ok {| allow := allow; deny := deny; restrictions := None |}.

Definition with_restrictions (p : TargetPolicy) (r : option TargetRestrictions) : TargetPolicy :=
  {| allow := allow p; deny := deny p; restrictions := r |}.

Definition allows_port (p : TargetPolicy) (port : Z) : result unit bool :=
  match restrictions p with
  | Some r => match r_ports r with Some ports => binary_search_ok ports port | None => Ok true end
  | None => Ok true
  end.

Definition is_allowed (p : TargetPolicy) (addr : IpAddr) : bool :=
  let addr := to_canonical addr in
  if match restrictions p with
     | Some rules =>
         existsb (fun net => net_contains net addr) (r_deny rules)
         || match r_allow rules with
            | Some nets => negb (existsb (fun net => net_contains net addr) nets)
            | None => false
            end
     | None => false
     end then false
  else if existsb (fun net => net_contains net addr) (deny p) then false
  else existsb (fun net => net_contains net addr) (allow p).

Definition any_allowed (p : TargetPolicy) (addrs : list IpAddr) : bool := existsb (is_allowed p) addrs.
Definition all_allowed (p : TargetPolicy) (addrs : list IpAddr) : bool := forallb (is_allowed p) addrs.

(** ** Resolution *)

(** What the lookup of a name ends in before the deadline, or the deadline. *)
Inductive Lookup :=
| Resolved (addresses : list SocketAddr)
| LookupFailed
| LookupTimeout.

Fixpoint push_unique (unique addresses : list SocketAddr) : list SocketAddr :=
  match addresses with
  | [] => unique
  | a :: addresses' =>
      push_unique (if bool_decide (a ∈ unique) then unique else unique ++ [a]) addresses'
  end.

(** The error is the HTTP status of [TargetSetupFailure]. *)
Definition resolve_allowed_with (host : bytes) (port : Z) (p : TargetPolicy)
    (resolver : bytes -> Z -> Lookup) : result Z (list SocketAddr) :=
  allowed ← match allows_port p port with Ok b => Ok b | _ => Panic end;
  if negb allowed then Err 403 else
  addresses ← match parse_ip host with
              | Some ip => Ok [sock_new ip port]
              | None => match resolver host port with
                        | Resolved l => Ok l
                        | LookupFailed => Err 502
                        | LookupTimeout => Err 504
                        end
              end;
  let unique := push_unique [] addresses in
  if bool_decide (unique = []) then Err 502
  else if negb (forallb (fun a =>
              negb (is_unspecified (to_canonical (sock_ip a))) && is_allowed p (sock_ip a)) unique)
  then Err 403
  else Ok unique.
End policy.
Arguments TargetPolicy : clear implicits.
Arguments TargetRestrictions : clear implicits.

(** ** The search finds every port of a sorted list *)

Lemma sorted_lookup (l : list Z) i j a b :
  StronglySorted Z.le l -> (i <= j)%nat -> l !! i = Some a -> l !! j = Some b -> a <= b.
Proof.
  intros Hs. revert i j. induction Hs as [|x l Hs IH Hx]; intros i j Hij Hi Hj; [done|].
  destruct i as [|i], j as [|j]; simplify_eq/=; try lia.
  - rewrite Forall_forall in Hx. by eapply Hx, list_elem_of_lookup_2.
  - apply (IH i j); [lia|done|done].
Qed.

#[local] Arguments Nat.div : simpl never.

Lemma search_step_halve l x base size v :
  (1 < size)%nat -> l !! (base + size / 2)%nat = Some v ->
  search_step l x (base, size)
  = Ok (inl (if bool_decide (v > x) then base else (base + size / 2)%nat, (size - size / 2)%nat)).
Proof.
  intros Hsz Hv. unfold search_step. rewrite bool_decide_true by done. by rewrite (index_Ok _ _ _ Hv).
Qed.

Lemma search_step_dec l x s s' :
  search_step l x s = Ok (inl s') -> (s'.2 < s.2)%nat.
Proof.
  destruct s as [base size]. unfold search_step. case_bool_decide as Hsz; intros H.
  - pose proof (Nat.div_str_pos size 2 ltac:(lia)). inv_all. simpl. lia.
  - inv_all.
Qed.

Lemma binary_search_spec l x :
  StronglySorted Z.le l -> binary_search_ok l x = Ok (bool_decide (x ∈ l)).
Proof.
  intros Hs. unfold binary_search_ok. case_bool_decide as Hl.
  { apply nil_length_inv in Hl as ->. rewrite bool_decide_false; [done|by apply not_elem_of_nil]. }
  assert (forall s, (1 <= s.2)%nat -> (s.1 + s.2 <= length l)%nat ->
    (x ∈ l -> exists i, (s.1 <= i < s.1 + s.2)%nat /\ l !! i = Some x) ->
    while (fun s => s.2) (search_step l x) s = Ok (bool_decide (x ∈ l))) as Hw.
  { refine (while_ind _ _ (search_step_dec l x) _ _). intros [base size] IH H1 H2 Hin. simpl in *.
    rewrite while_unfold by apply search_step_dec.
    destruct (decide (1 < size)%nat) as [Hsz|Hsz].
    - assert (1 <= size / 2 < size)%nat as Hh.
      { split; [by apply Nat.div_str_pos; lia|apply Nat.div_lt; lia]. }
      pose proof (Nat.Div0.mul_div_le size 2).
      destruct (lookup_lt_is_Some_2 l (base + size / 2)) as [v Hv]; [lia|].
      pose proof (search_step_halve l x base size v Hsz Hv) as Hstep. rewrite Hstep. cbn [mbind result_bind].
      apply (IH _ Hstep); cbn [fst snd].
      + lia.
      + case_bool_decide; lia.
      + intros Hx. destruct (Hin Hx) as (i & Hi & Hlx). case_bool_decide as Hc.
        * exists i. split; [|done]. split; [lia|].
          destruct (decide (i < base + size / 2)%nat); [lia|].
          pose proof (sorted_lookup l (base + size / 2) i v x Hs ltac:(lia) Hv Hlx). lia.
        * destruct (decide (base + size / 2 <= i)%nat); [exists i; split; [lia|done]|].
          pose proof (sorted_lookup l i (base + size / 2) x v Hs ltac:(lia) Hlx Hv).
          assert (v = x) as -> by lia. exists (base + size / 2)%nat. split; [lia|done].
    - assert (size = 1%nat) as -> by lia. unfold search_step. rewrite bool_decide_false by lia.
      destruct (lookup_lt_is_Some_2 l base) as [v Hv]; [lia|].
      rewrite (index_Ok l _ v) by done. simpl. f_equal. apply bool_decide_ext. split.
      + intros ->. by eapply list_elem_of_lookup_2.
      + intros Hx. destruct (Hin Hx) as (i & Hi & Hlx). assert (i = base) as -> by lia. congruence. }
  apply Hw; simpl; [lia|lia|]. intros Hx. apply list_elem_of_lookup in Hx as [i Hi].
  exists i. split; [|done]. apply lookup_lt_Some in Hi. lia.
Qed.

Lemma dedup_sorted l : StronglySorted Z.le l -> StronglySorted Z.le (dedup l) /\ forall x, x ∈ dedup l <-> x ∈ l.
Proof.
  induction 1 as [|x l Hs [IH1 IH2] Hx]; [by split; [constructor|]|].
  destruct l as [|y l]; [by split; [constructor; [constructor|]|]|].
  cbn [dedup]. case_bool_decide as Hxy.
  - subst y. split; [done|]. intros z. rewrite IH2, !elem_of_cons. naive_solver.
  - split.
    + constructor; [done|]. apply Forall_forall. intros z Hz. rewrite Forall_forall in Hx. by apply Hx, IH2.
    + intros z. rewrite !(elem_of_cons _ _ x), IH2. done.
Qed.

(** The ports a restriction stores are searchable and are the configured ones. *)
Lemma stored_ports ports port :
  binary_search_ok (dedup (merge_sort Z.le ports)) port = Ok (bool_decide (port ∈ ports)).
Proof.
  destruct (dedup_sorted (merge_sort Z.le ports)) as [Hs Hin]; [apply StronglySorted_merge_sort; apply _|].
  rewrite binary_search_spec by done. f_equal. apply bool_decide_ext.
  by rewrite Hin, merge_sort_Permutation.
Qed.

Lemma push_unique_spec l acc :
  NoDup acc -> NoDup (push_unique acc l) /\ (forall a, a ∈ push_unique acc l <-> a ∈ acc \/ a ∈ l).
Proof.
  revert acc. induction l as [|x l IH]; intros acc Hn; simpl.
  - split; [done|]. intros a. rewrite elem_of_nil. naive_solver.
  - case_bool_decide as Hx.
    + destruct (IH acc Hn) as [H1 H2]. split; [done|]. intros a. rewrite H2, elem_of_cons. naive_solver.
    + destruct (IH (acc ++ [x])) as [H1 H2].
      { apply NoDup_app. split; [done|]. split; [|apply NoDup_singleton].
        intros y Hy Hyx. apply list_elem_of_singleton in Hyx as ->. done. }
      split; [done|]. intros a. rewrite H2. set_solver.
Qed.

Lemma forallb_false {A} (f : A -> bool) l : forallb f l = false -> exists x, x ∈ l /\ f x = false.
Proof.
  induction l as [|y l IH]; [done|]. simpl. destruct (f y) eqn:Hy; simpl.
  - intros (x & Hx & Hf)%IH. exists x. split; [by constructor|done].
  - intros _. exists y. split; [by constructor|done].
Qed.

Section policy_facts.
  Context {N4 N6 : Type} `{NetLaws 32 N4, NetLaws 128 N6, !NetNew N4, !NetNewLaws 32 N4}.
  Context (parse_net : string -> option (IpNet N4 N6)).

(** ** Which addresses a rule means

    An IPv4 address and its mapped IPv6 spelling are one target.  A rule inside
    ::ffff:0:0/96 means the IPv4 targets it spells; any other IPv6 rule means
    proper IPv6 targets only. *)

Definition in_net (w : Z) {net} `{NetOps net} (n : net) (z : Z) : Prop :=
  network n <= z < network n + 2 ^ (w - prefix n).

Definition covers (net : IpNet N4 N6) (a : IpAddr) : Prop :=
  match net, to_canonical a with
  | NetV4 n, IpV4 z => in_net 32 n z
  | NetV6 n, IpV6 z => in_net 128 n z
  | NetV6 n, IpV4 z => 96 <= prefix n /\ in_net 128 n (to_ipv6_mapped z)
  | NetV4 _, IpV6 _ => False
  end.

(** Networks of at least 96 bits lie inside one block of [2 ^ 32] addresses. *)
Lemma in_net_block (n : N6) z :
  96 <= prefix n -> in_net 128 n z -> z / 2 ^ 32 = network n / 2 ^ 32.
Proof.
  intros Hp [Hl Hu]. pose proof (prefix_range n). destruct (network_aligned n) as [q Hq].
  assert (2 ^ 32 = 2 ^ (prefix n - 96) * 2 ^ (128 - prefix n)) as E
    by (rewrite <- Z.pow_add_r by lia; f_equal; lia).
  assert (0 < 2 ^ (128 - prefix n)) by (apply Z.pow_pos_nonneg; lia).
  assert (0 < 2 ^ (prefix n - 96)) by (apply Z.pow_pos_nonneg; lia).
  rewrite E, (Z.mul_comm (2 ^ (prefix n - 96))), <- !Z.div_div by lia. f_equal.
  rewrite Hq, Z.div_mul by lia. symmetry.
  apply (Z.div_unique_pos z _ q (z - q * 2 ^ (128 - prefix n))); lia.
Qed.

Lemma net_contains_spec (net : IpNet N4 N6) a :
  ipaddr_ok a -> net_contains net a = true <->
  match net, a with NetV4 n, IpV4 z => in_net 32 n z | NetV6 n, IpV6 z => in_net 128 n z | _, _ => False end.
Proof. destruct net, a; simpl; intros Ha; (by split) || by apply contains_spec. Qed.

(** The IPv4 half of a mapped network keeps its alignment. *)
Lemma mapped_network (n : N6) :
  96 <= prefix n ->
  network n mod 2 ^ 32 / 2 ^ (32 - (prefix n - 96)) * 2 ^ (32 - (prefix n - 96)) = network n mod 2 ^ 32.
Proof.
  intros Hp. pose proof (prefix_range n). destruct (network_aligned n) as [q Hq].
  replace (32 - (prefix n - 96)) with (128 - prefix n) by lia.
  assert (2 ^ 32 = 2 ^ (prefix n - 96) * 2 ^ (128 - prefix n)) as E
    by (rewrite <- Z.pow_add_r by lia; f_equal; lia).
  assert (0 < 2 ^ (128 - prefix n)) by (apply Z.pow_pos_nonneg; lia).
  assert (0 < 2 ^ (prefix n - 96)) by (apply Z.pow_pos_nonneg; lia).
  rewrite Hq, E, Z.mul_mod_distr_r by lia. by rewrite Z.div_mul by lia.
Qed.

Lemma canonical_net_spec (net : IpNet N4 N6) :
  exists net', canonical_net net = Ok net' /\
    forall a, ipaddr_ok a -> net_contains net' (to_canonical a) = true <-> covers net a.
Proof.
  assert (forall a, ipaddr_ok a -> ipaddr_ok (to_canonical a)) as Hc by apply to_canonical_ok.
  destruct net as [n|n]; simpl.
  { exists (NetV4 n). split; [done|]. intros a Ha. rewrite net_contains_spec by auto.
    unfold covers. by destruct (to_canonical a). }
  case_bool_decide as Hp.
  2: { exists (NetV6 n). split; [done|]. intros a Ha. rewrite net_contains_spec by auto.
       unfold covers. destruct (to_canonical a); [|done]. naive_solver lia. }
  assert (forall a z, to_canonical a = IpV6 z -> z / 2 ^ 32 <> 0xffff) as Hnm.
  { intros [|y] z; simpl; [done|]. unfold to_ipv4_mapped. case_bool_decide; naive_solver. }
  assert (forall z, 0 <= z < 2 ^ 32 -> to_ipv6_mapped z / 2 ^ 32 = 0xffff) as Hmap.
  { intros z Hz. unfold to_ipv6_mapped. rewrite Z.div_add_l, Z.div_small by lia. lia. }
  pose proof (network_range n) as Hr. pose proof (prefix_range n) as Hpr.
  unfold to_ipv4_mapped. case_bool_decide as Hm.
  - destruct (net_new_spec (net:=N4) (network n mod 2 ^ 32) (prefix n - 96)) as (n4 & -> & Hp4 & Hn4);
      [apply Z.mod_pos_bound; lia|lia|].
    exists (NetV4 n4). split; [done|]. intros a Ha. rewrite net_contains_spec by auto.
    unfold covers. destruct (to_canonical a) as [z|z] eqn:Hca.
    + assert (0 <= z < 2 ^ 32) as Hz by (specialize (Hc a Ha); by rewrite Hca in Hc).
      unfold in_net. rewrite Hp4. rewrite mapped_network in Hn4 by lia.
      replace (32 - (prefix n - 96)) with (128 - prefix n) in * by lia.
      pose proof (Z.div_mod (network n) (2 ^ 32) ltac:(lia)). unfold to_ipv6_mapped. lia.
    + split; [done|]. intros Hin. apply in_net_block in Hin; [|lia].
      apply Hnm in Hca. lia.
  - exists (NetV6 n). split; [done|]. intros a Ha. rewrite net_contains_spec by auto.
    unfold covers. destruct (to_canonical a) as [z|z] eqn:Hca; [|done].
    assert (0 <= z < 2 ^ 32) as Hz by (specialize (Hc a Ha); by rewrite Hca in Hc).
    split; [done|]. intros [_ Hin]. apply in_net_block in Hin; [|lia]. rewrite Hmap in Hin by done. lia.
Qed.

(** ** Rule lists *)

Definition valid_rule (rule : string) : Prop := is_Some (parse_net rule).
Definition matches (rules : list string) (a : IpAddr) : Prop :=
  exists rule net, rule ∈ rules /\ parse_net rule = Some net /\ covers net a.

Definition nets_for (rules : list string) (nets : list (IpNet N4 N6)) : Prop :=
  forall a, ipaddr_ok a ->
    existsb (fun net => net_contains net (to_canonical a)) nets = true <-> matches rules a.

(** One more rule in front of a list. *)
Lemma nets_for_cons rule net net' rules nets :
  parse_net rule = Some net ->
  (forall a, ipaddr_ok a -> net_contains net' (to_canonical a) = true <-> covers net a) ->
  nets_for rules nets -> nets_for (rule :: rules) (net' :: nets).
Proof.
  intros Hp Hn Hr a Ha. simpl. rewrite orb_true_iff, (Hn a Ha), (Hr a Ha). unfold matches. split.
  - intros [Hc|(r & m & Hin & Hm & Hc)].
    + exists rule, net. split_and!; [by constructor|done|done].
    + exists r, m. split_and!; [by constructor|done|done].
  - intros (r & m & [-> |Hin]%elem_of_cons & Hm & Hc); [left; congruence|right; by exists r, m].
Qed.

Definition parsed (rules : list string) (r : result PolicyError (list (IpNet N4 N6))) : Prop :=
  match r with
  | Ok nets => Forall valid_rule rules /\ nets_for rules nets
  | Err _ => ~ Forall valid_rule rules
  | Panic => False
  end.

Lemma nets_for_nil : nets_for [] [].
Proof. intros a Ha. split; [done|]. by intros (r & m & Hin%elem_of_nil & _). Qed.

(** The common shape of the two rule parsers. *)
Lemma parsed_cons rule rules e rest :
  parsed rules rest ->
  parsed (rule :: rules) (net ← ok_or e (parse_net rule); net ← canonical_net net;
                          nets ← rest; Ok (net :: nets)).
Proof.
  intros Hrest. destruct (parse_net rule) as [net|] eqn:Hp; simpl.
  - destruct (canonical_net_spec net) as (net' & -> & Hn). simpl.
    destruct rest as [nets|e'|]; simpl in *; [|rewrite Forall_cons; tauto|done].
    destruct Hrest as [Hv Hr]. split; [constructor; [by exists net|done]|].
    by eapply nets_for_cons.
  - rewrite Forall_cons. intros [[? Hv] _]. congruence.
Qed.

Lemma parse_cidrs_from_spec field index rules :
  parsed rules (parse_cidrs_from parse_net field index rules).
Proof.
  revert index. induction rules as [|rule rules IH]; intros index; [split; [constructor|apply nets_for_nil]|].
  apply parsed_cons, IH.
Qed.

Lemma parse_rules_spec rules : parsed rules (parse_rules parse_net rules).
Proof.
  induction rules as [|rule rules IH]; [split; [constructor|apply nets_for_nil]|]. by apply parsed_cons.
Qed.

(** What a restriction section says of an address and of a port. *)
Definition restriction_permits (s : TargetRestrictionSection) (a : IpAddr) : Prop :=
  ~ matches (deny_targets s) a /\ (forall rules, allow_targets s = Some rules -> matches rules a).
Definition port_permitted (s : TargetRestrictionSection) (port : Z) : Prop :=
  forall ports, allow_ports s = Some ports -> port ∈ ports.
Definition valid_section (s : TargetRestrictionSection) : Prop :=
  Forall valid_rule (deny_targets s) /\
  (forall rules, allow_targets s = Some rules -> Forall valid_rule rules) /\
  (forall ports, allow_ports s = Some ports -> 0 ∉ ports).

Lemma from_section_spec s :
  match from_section parse_net s with
  | Ok r => valid_section s /\ nets_for (deny_targets s) (r_deny r) /\
      match allow_targets s, r_allow r with
      | Some rules, Some nets => nets_for rules nets
      | None, None => True
      | _, _ => False
      end /\ r_ports r = dedup ∘ merge_sort Z.le <$> allow_ports s
  | Err _ => ~ valid_section s
  | Panic => False
  end.
Proof.
  unfold from_section, valid_section. pose proof (parse_rules_spec (deny_targets s)) as Hd.
  destruct (allow_ports s) as [ports|]; [case_bool_decide as Hz|]; simpl.
  1: naive_solver.
  all: destruct (allow_targets s) as [rules|]; simpl;
    [pose proof (parse_rules_spec rules) as Ha; destruct (parse_rules parse_net rules) as [nets|e|]; simpl in *;
      [|naive_solver|done]|];
    destruct (parse_rules parse_net (deny_targets s)) as [dn|e|]; simpl in *; naive_solver.
Qed.

(** ** Properties *)

(** C9: the verdict on a target is what the configured rules say.  For a policy
    built from any rule texts and any restriction section, an address is allowed
    exactly when an allow rule covers it, no deny rule does, and the section's
    own lists agree.  The texts count as written: a rule and an address mean the
    same whether they spell an IPv4 target directly or as a mapped IPv6 one. *)
Theorem policy_decides (al dl : list string) (p : TargetPolicy N4 N6)
    (s : TargetRestrictionSection) (r : TargetRestrictions N4 N6) (a : IpAddr) :
  policy_new parse_net al dl = Ok p -> from_section parse_net s = Ok r -> ipaddr_ok a ->
  (is_allowed p a = true <-> matches al a /\ ~ matches dl a) /\
  (is_allowed (with_restrictions p (Some r)) a = true <->
     matches al a /\ ~ matches dl a /\ restriction_permits s a) /\
  (forall v4, 0 <= v4 < 2 ^ 32 -> is_allowed p (IpV6 (to_ipv6_mapped v4)) = is_allowed p (IpV4 v4)).
Proof.
  intros Hp Hs Ha. unfold policy_new, parse_cidrs in Hp.
  pose proof (parse_cidrs_from_spec "allow_targets" 0 al) as Hal.
  pose proof (parse_cidrs_from_spec "deny_targets" 0 dl) as Hdl.
  destruct (parse_cidrs_from parse_net "allow_targets" 0 al) as [an| |]; [|done|done].
  destruct (parse_cidrs_from parse_net "deny_targets" 0 dl) as [dn| |]; simpl in Hp; [|done|done].
  simplify_eq. destruct Hal as [_ Hal], Hdl as [_ Hdl]. specialize (Hal a Ha). specialize (Hdl a Ha).
  pose proof (from_section_spec s) as Hsec. rewrite Hs in Hsec. destruct Hsec as (_ & Hrd & Hra & _).
  specialize (Hrd a Ha). unfold restriction_permits. unfold is_allowed; simpl. split_and!.
  - rewrite <- Hal, <- Hdl. destruct (existsb _ dn), (existsb _ an); intuition discriminate.
  - rewrite <- Hal, <- Hdl, <- Hrd.
    destruct (allow_targets s) as [rules|], (r_allow r) as [rn|]; try done.
    + assert ((forall rules', Some rules = Some rules' -> matches rules' a) <-> matches rules a) as ->
        by naive_solver. rewrite <- (Hra a Ha).
      destruct (existsb _ (r_deny r)), (existsb _ rn), (existsb _ dn), (existsb _ an); simpl; intuition discriminate.
    + assert ((forall rules', None = Some rules' -> matches rules' a) <-> True) as -> by naive_solver.
      destruct (existsb _ (r_deny r)), (existsb _ dn), (existsb _ an); simpl; intuition discriminate.
  - intros v4 Hv. by rewrite (proj2 (to_ipv4_mapped_spec _ v4 Hv) eq_refl).
Qed.

(** A policy or a restriction section is built exactly when every rule in it
    is a valid network and no port is zero, so no rule is silently dropped;
    building never panics.  A port is then allowed exactly when the section
    does not list ports or lists this one, the binary search never failing. *)
Theorem policy_rules_all_kept (al dl : list string) (s : TargetRestrictionSection) :
  match policy_new parse_net al dl with
  | Ok p => Forall valid_rule al /\ Forall valid_rule dl /\
      match from_section parse_net s with
      | Ok r => valid_section s /\
          forall port, exists b, allows_port (with_restrictions p (Some r)) port = Ok b /\
            (b = true <-> port_permitted s port)
      | Err _ => ~ valid_section s
      | Panic => False
      end
  | Err _ => ~ (Forall valid_rule al /\ Forall valid_rule dl)
  | Panic => False
  end.
Proof.
  unfold policy_new, parse_cidrs.
  pose proof (parse_cidrs_from_spec "allow_targets" 0 al) as Hal.
  pose proof (parse_cidrs_from_spec "deny_targets" 0 dl) as Hdl.
  destruct (parse_cidrs_from parse_net "allow_targets" 0 al) as [an| |]; simpl in *; [|tauto|done].
  destruct (parse_cidrs_from parse_net "deny_targets" 0 dl) as [dn| |]; simpl in *; [|tauto|done].
  split; [tauto|]. split; [tauto|]. pose proof (from_section_spec s) as Hsec.
  destruct (from_section parse_net s) as [r| |]; [|done|done]. destruct Hsec as (Hv & _ & _ & Hports).
  split; [done|]. intros port. unfold allows_port, with_restrictions; simpl. rewrite Hports.
  unfold port_permitted. destruct (allow_ports s) as [ports|]; simpl.
  - rewrite stored_ports. eexists. split; [done|]. rewrite bool_decide_eq_true. naive_solver.
  - exists true. naive_solver.
Qed.
End policy_facts.

(** The addresses of a successful resolution: some, each distinct, each allowed. *)
Lemma resolve_allowed_Ok {N4 N6 : Type} `{!NetOps N4, !NetOps N6} host port (p : TargetPolicy N4 N6) resolver l :
  resolve_allowed_with host port p resolver = Ok l ->
  l <> [] /\ NoDup l /\
  Forall (fun x => is_unspecified (to_canonical (sock_ip x)) = false /\ is_allowed p (sock_ip x) = true) l.
Proof.
  intros H. unfold resolve_allowed_with in H. apply bind_Ok in H as (b & _ & H). destruct b; simpl in H; [|done].
  apply bind_Ok in H as (found & _ & H). destruct (push_unique_spec found [] NoDup_nil_2) as [Hnd _].
  case_bool_decide; [done|]. destruct (forallb _ _) eqn:Hall; simplify_eq/=. split_and!; [done|done|].
  apply Forall_forall. intros x Hx. rewrite forallb_forall in Hall. apply list_elem_of_In in Hx.
  specialize (Hall x Hx). apply andb_true_iff in Hall. by rewrite negb_true_iff in Hall.
Qed.

Lemma resolve_allowed_total {N4 N6 : Type} `{!NetOps N4, !NetOps N6} host port (p : TargetPolicy N4 N6)
    resolver permitted :
  allows_port p port = Ok permitted ->
  match resolve_allowed_with host port p resolver with
  | Ok _ => True | Err status => status = 403 \/ status = 502 \/ status = 504 | Panic => False end.
Proof.
  intros Hperm. unfold resolve_allowed_with. rewrite Hperm. simpl. destruct permitted; simpl; [|auto].
  destruct (parse_ip host); [|destruct (resolver host port)]; simpl; auto;
    repeat case_match; simplify_eq; auto.
Qed.

(** C11: a target is connected to only through a snapshot that passed the policy
    as a whole.  If resolution succeeds, it returns every distinct address of the
    literal or of the one lookup, at least one, each allowed by the policy and
    none unspecified in either spelling; a single refused address refuses the
    whole snapshot with 403, an empty or failed lookup gives 502 and a late one
    504.  It never panics where the port check does not. *)
Theorem resolve_checks_snapshot {N4 N6 : Type} `{!NetOps N4, !NetOps N6} (host : bytes) (port : Z)
    (p : TargetPolicy N4 N6) (resolver : bytes -> Z -> Lookup) (permitted : bool) :
  allows_port p port = Ok permitted ->
  let snapshot := match parse_ip host with
                  | Some ip => Resolved [sock_new ip port]
                  | None => resolver host port
                  end in
  let passes x := is_unspecified (to_canonical (sock_ip x)) = false /\ is_allowed p (sock_ip x) = true in
  match resolve_allowed_with host port p resolver with
  | Ok l => permitted = true /\ l <> [] /\ NoDup l /\ Forall passes l /\
      exists found, snapshot = Resolved found /\ forall x, x ∈ l <-> x ∈ found
  | Err status =>
      (status = 403 /\ (permitted = false \/
         exists found x, snapshot = Resolved found /\ x ∈ found /\ ~ passes x)) \/
      (status = 502 /\ (snapshot = LookupFailed \/ snapshot = Resolved [])) \/
      (status = 504 /\ snapshot = LookupTimeout)
  | Panic => False
  end.
Proof.
  intros Hperm snapshot passes. unfold resolve_allowed_with. rewrite Hperm. simpl.
  destruct permitted; simpl; [|naive_solver].
  assert (match parse_ip host with
          | Some ip => Ok [sock_new ip port]
          | None => match resolver host port with
                    | Resolved l => Ok l | LookupFailed => Err 502 | LookupTimeout => Err 504 end
          end = match snapshot with
                | Resolved l => Ok l | LookupFailed => Err 502 | LookupTimeout => Err 504 end) as ->
    by (unfold snapshot; by destruct (parse_ip host)).
  destruct snapshot as [found| |] eqn:Hs; simpl; [|naive_solver|naive_solver].
  destruct (push_unique_spec found [] (NoDup_nil_2)) as [Hnd Hin].
  assert (forall x, x ∈ push_unique [] found <-> x ∈ found) as Hin' by (intros x; rewrite Hin; set_solver).
  case_bool_decide as He.
  { right. left. split; [done|]. right. f_equal. apply elem_of_nil_inv. intros x Hx.
    apply Hin' in Hx. rewrite He in Hx. by apply elem_of_nil in Hx. }
  destruct (forallb _ _) eqn:Hall; simpl.
  - split_and!; [done|done|done| |by exists found]. apply Forall_forall. intros x Hx.
    rewrite forallb_forall in Hall. apply list_elem_of_In in Hx. specialize (Hall x Hx).
    apply andb_true_iff in Hall. by rewrite negb_true_iff in Hall.
  - left. split; [done|]. right. apply forallb_false in Hall as (x & Hx & Hf).
    exists found, x. split_and!; [done|by apply Hin'|]. unfold passes. intros [H1 H2].
    by rewrite H1, H2 in Hf.
Qed.

(** ** Witnesses *)

#[global] Instance cidr_new : NetNew Cidr :=
  fun a len => if bool_decide (0 <= len <= 32) then Some {| cidr_addr := a; cidr_len := len |} else None.

#[global] Instance cidr_new_laws : NetNewLaws 32 Cidr.
Proof.
  intros a len Ha Hl. exists {| cidr_addr := a; cidr_len := len |}. unfold net_new, cidr_new.
  rewrite bool_decide_true by done. split; [done|]. unfold prefix, network; simpl.
  rewrite Z.min_r, Z.max_r, Z.mod_small by lia. done.
Qed.

(** 0.0.0.0/0, ::/0, the loopback network and its mapped spelling. *)
Definition sample_parse (rule : string) : option (IpNet Cidr Cidr6) :=
  if bool_decide (rule = "0.0.0.0/0") then Some (NetV4 {| cidr_addr := 0; cidr_len := 0 |})
  else if bool_decide (rule = "::/0") then Some (NetV6 {| cidr6 := {| cidr_addr := 0; cidr_len := 0 |} |})
  else if bool_decide (rule = "127.0.0.0/8") then Some (NetV4 {| cidr_addr := 127 * 2 ^ 24; cidr_len := 8 |})
  else if bool_decide (rule = "::ffff:10.0.0.0/104") then
    Some (NetV6 {| cidr6 := {| cidr_addr := to_ipv6_mapped (10 * 2 ^ 24); cidr_len := 104 |} |})
  else None.

Definition sample_policy : TargetPolicy Cidr Cidr6 :=
  {| allow := [NetV4 {| cidr_addr := 0; cidr_len := 0 |}; NetV6 {| cidr6 := {| cidr_addr := 0; cidr_len := 0 |} |}];
     deny := [NetV4 {| cidr_addr := 127 * 2 ^ 24; cidr_len := 8 |}]; restrictions := None |}.
Definition sample_section : TargetRestrictionSection :=
  {| allow_targets := None; deny_targets := ["::ffff:10.0.0.0/104"]; allow_ports := Some [443; 80; 443] |}.
Definition sample_restrictions : TargetRestrictions Cidr Cidr6 :=
  {| r_allow := None; r_deny := [NetV4 {| cidr_addr := 10 * 2 ^ 24; cidr_len := 8 |}]; r_ports := Some [80; 443] |}.

Lemma policy_decides_witness :
  policy_new sample_parse ["0.0.0.0/0"; "::/0"] ["127.0.0.0/8"] = Ok sample_policy /\
  from_section sample_parse sample_section = Ok sample_restrictions /\
  is_allowed (with_restrictions sample_policy (Some sample_restrictions)) (IpV4 0x0a000001) = false /\
  ~ (matches sample_parse ["0.0.0.0/0"; "::/0"] (IpV4 0x0a000001) /\
     ~ matches sample_parse ["127.0.0.0/8"] (IpV4 0x0a000001) /\
     restriction_permits sample_parse sample_section (IpV4 0x0a000001)).
Proof.
  assert (policy_new sample_parse ["0.0.0.0/0"; "::/0"] ["127.0.0.0/8"] = Ok sample_policy) as Hp
    by (vm_compute; reflexivity).
  assert (from_section sample_parse sample_section = Ok sample_restrictions) as Hs
    by (vm_compute; reflexivity).
  split; [exact Hp|]. split; [exact Hs|]. split; [vm_compute; reflexivity|]. intros Hm.
  destruct (policy_decides sample_parse _ _ _ _ _ (IpV4 0x0a000001) Hp Hs ltac:(simpl; lia)) as (_ & H & _).
  apply H in Hm. vm_compute in Hm. discriminate Hm.
Defined.

Lemma policy_rules_all_kept_witness :
  exists b, allows_port (with_restrictions sample_policy (Some sample_restrictions)) 443 = Ok b /\
    (b = true <-> port_permitted sample_section 443).
Proof.
  pose proof (policy_rules_all_kept sample_parse ["0.0.0.0/0"; "::/0"] ["127.0.0.0/8"] sample_section) as H.
  assert (policy_new sample_parse ["0.0.0.0/0"; "::/0"] ["127.0.0.0/8"] = Ok sample_policy) as Hp
    by (vm_compute; reflexivity).
  assert (from_section sample_parse sample_section = Ok sample_restrictions) as Hs
    by (vm_compute; reflexivity).
  rewrite Hp, Hs in H. exact (proj2 (proj2 (proj2 H)) 443).
Defined.

(** A name that answers with a public and a loopback address is refused. *)
Lemma resolve_checks_snapshot_witness :
  resolve_allowed_with [0x61] 80 sample_policy (fun _ port => Resolved [SockV4 0x01010101 port; SockV4 0x7f000001 port])
  = Err 403 /\
  (exists found x, Resolved [SockV4 0x01010101 80; SockV4 0x7f000001 80] = Resolved found /\ x ∈ found /\
     ~ (is_unspecified (to_canonical (sock_ip x)) = false /\ is_allowed sample_policy (sock_ip x) = true)).
Proof.
  split; [vm_compute; reflexivity|].
  pose proof (resolve_checks_snapshot [0x61] 80 sample_policy
    (fun _ port => Resolved [SockV4 0x01010101 port; SockV4 0x7f000001 port]) true eq_refl) as H.
  cbv zeta in H.
  replace (resolve_allowed_with [0x61] 80 sample_policy
    (fun _ port => Resolved [SockV4 0x01010101 port; SockV4 0x7f000001 port])) with (Err (A:=list SocketAddr) 403) in H
    by (vm_compute; reflexivity).
  destruct H as [[_ [H|H]]|[[H _]|[H _]]]; [discriminate H| |discriminate H|discriminate H]. exact H.
Defined.
