(* ===== verification/Scheduler.v ===== *)
(** * Wakeups of the connection event loop

    Models [src/scheduler.rs]: the set of connections with pending work and the
    indexed binary heap of deadlines.  The heap is a list with a map from
    connection index to heap position; every index operation that would panic
    does so in the model. *)

From stdpp Require Import sorting.
From S2P Require Import Prelude.
Open Scope Z_scope.

(** ** The connections with work in the current round *)

Record DirtySet := {
  pending : list Z;
  seen : gset Z;
}.

Definition dirty_new : DirtySet := {| pending := []; seen := ∅ |}.

Definition mark (d : DirtySet) (index : Z) : DirtySet :=
  if bool_decide (index ∈ seen d) then d
  else {| pending := pending d ++ [index]; seen := {[index]} ∪ seen d |}.

(** The pending connections move to the end of [out]. *)
Definition take_into (d : DirtySet) (out : list Z) : DirtySet * list Z :=
  ({| pending := []; seen := seen d |}, out ++ pending d).

Definition end_round (d : DirtySet) : DirtySet := {| pending := []; seen := ∅ |}.

(** ** The queue of deadlines *)

Record Timer := {
  at_ : Z;
  timer_index : Z;
}.
#[global] Instance Timer_eq_dec : EqDecision Timer.
Proof. solve_decision. Defined.

(** The derived order: by deadline, then by index. *)
Definition timer_le (a b : Timer) : bool :=
  bool_decide (at_ a < at_ b \/ (at_ a = at_ b /\ timer_index a <= timer_index b)).
Definition timer_lt (a b : Timer) : bool :=
  bool_decide (at_ a < at_ b \/ (at_ a = at_ b /\ timer_index a < timer_index b)).

Record TimerQueue := {
  heap : list Timer;
  positions : gmap Z nat;
}.

Definition queue_new : TimerQueue := {| heap := []; positions := ∅ |}.

(** No operation returns an error. *)
Abbreviation op := (result Empty_set).

(** [*self.positions.get_mut(&index).unwrap() = position]. *)
Definition set_position (m : gmap Z nat) (index : Z) (position : nat) : op (gmap Z nat) :=
  match m !! index with Some _ => Ok (<[index := position]> m) | None => Panic end.

Definition swap (q : TimerQueue) (a b : nat) : op TimerQueue :=
  x ← index (heap q) a;
  y ← index (heap q) b;
  let heap := <[a := y]> (<[b := x]> (heap q)) in
  ta ← index heap a;
  positions ← set_position (positions q) (timer_index ta) a;
  tb ← index heap b;
  positions ← set_position positions (timer_index tb) b;
  Ok {| heap := heap; positions := positions |}.

Definition sift_up_step (s : TimerQueue * nat) : op (TimerQueue * nat + TimerQueue) :=
  let '(q, position) := s in
  if bool_decide (0 < position)%nat then
    let parent := ((position - 1) / 2)%nat in
    x ← index (heap q) parent;
    y ← index (heap q) position;
    if timer_le x y then Ok (inr q)
    else q ← swap q parent position; Ok (inl (q, parent))
  else Ok (inr q).

Definition sift_up (q : TimerQueue) (position : nat) : op TimerQueue :=
  while (fun s => s.2) sift_up_step (q, position).

Definition sink_step (s : TimerQueue * nat) : op (TimerQueue * nat + TimerQueue) :=
  let '(q, position) := s in
  let left := (2 * position + 1)%nat in
  if bool_decide (length (heap q) <= left)%nat then Ok (inr q) else
  let right := (left + 1)%nat in
  child ← (if bool_decide (right < length (heap q))%nat then
             r ← index (heap q) right;
             l ← index (heap q) left;
             Ok (if timer_lt r l then right else left)
           else Ok left : op nat);
  x ← index (heap q) position;
  y ← index (heap q) child;
  if timer_le x y then Ok (inr q)
  else q ← swap q position child; Ok (inl (q, child)).

(** The loop of [repair]: the position only grows, up to the heap's length. *)
Definition sink (q : TimerQueue) (position : nat) : op TimerQueue :=
  while (fun s => length (heap s.1) - s.2)%nat sink_step (q, position).

Definition repair (q : TimerQueue) (position : nat) : op TimerQueue :=
  up ← (if bool_decide (0 < position)%nat then
          x ← index (heap q) position;
          y ← index (heap q) ((position - 1) / 2)%nat;
          Ok (timer_lt x y)
        else Ok false : op bool);
  if up : bool then sift_up q position else sink q position.

Definition schedule (q : TimerQueue) (index_ at' : Z) : op TimerQueue :=
  match positions q !! index_ with
  | Some position =>
      t ← index (heap q) position;
      repair {| heap := <[position := {| at_ := at'; timer_index := timer_index t |}]> (heap q);
                positions := positions q |} position
  | None =>
      let position := length (heap q) in
      sift_up {| heap := heap q ++ [{| at_ := at'; timer_index := index_ |}];
                 positions := <[index_ := position]> (positions q) |} position
  end.

(** [Vec::swap_remove]: the last element takes the place of the removed one. *)
Definition swap_remove {A} (l : list A) (i : nat) : op (list A) :=
  _ ← index l i;
  match last l with
  | Some x => Ok (removelast (<[i := x]> l))
  | None => Panic
  end.

Definition cancel (q : TimerQueue) (index_ : Z) : op TimerQueue :=
  match positions q !! index_ with
  | None => Ok q
  | Some position =>
      heap ← swap_remove (heap q) position;
      let positions := delete index_ (positions q) in
      if bool_decide (position < length heap)%nat then
        t ← index heap position;
        positions ← set_position positions (timer_index t) position;
        repair {| heap := heap; positions := positions |} position
      else Ok {| heap := heap; positions := positions |}
  end.

Definition next_wakeup (q : TimerQueue) : option (Z * Z) :=
  (fun t => (timer_index t, at_ t)) <$> head (heap q).

(** [fired] collects the calls of the callback. *)
Definition expire_step (now : Z) (s : TimerQueue * list (Z * Z))
    : op (TimerQueue * list (Z * Z) + TimerQueue * list (Z * Z)) :=
  let '(q, fired) := s in
  match head (heap q) with
  | None => Ok (inr (q, fired))
  | Some t =>
      if bool_decide (at_ t > now) then Ok (inr (q, fired))
      else q ← cancel q (timer_index t); Ok (inl (q, fired ++ [(timer_index t, at_ t)]))
  end.

Definition expire (q : TimerQueue) (now : Z) : op (TimerQueue * list (Z * Z)) :=
  while (fun s => length (heap s.1)) (expire_step now) (q, []).

(** ** Heap order

    [edge p c] says that [c] is a child of [p].  An operation breaks the order
    around one position only: [hole h p] orders every edge that avoids [p], and
    [p]'s parent before [p]'s children. *)

Definition edge (p c : nat) : Prop := c = (2 * p + 1)%nat \/ c = (2 * p + 2)%nat.

Definition tle (a b : Timer) : Prop :=
  at_ a < at_ b \/ (at_ a = at_ b /\ timer_index a <= timer_index b).

Definition before (h : list Timer) (i j : nat) : Prop :=
  forall a b, h !! i = Some a -> h !! j = Some b -> tle a b.

Definition ordered (h : list Timer) : Prop := forall i j, edge i j -> before h i j.

Definition hole (h : list Timer) (p : nat) : Prop :=
  (forall i j, edge i j -> i <> p -> j <> p -> before h i j) /\
  (forall i j, edge i p -> edge p j -> before h i j).
Definition below (h : list Timer) (p : nat) : Prop := forall j, edge p j -> before h p j.
Definition above (h : list Timer) (p : nat) : Prop := forall i, edge i p -> before h i p.

Definition exchange (h : list Timer) (a b : nat) (x y : Timer) : list Timer :=
  <[a := y]> (<[b := x]> h).

Lemma timer_le_spec a b : timer_le a b = true <-> tle a b.
Proof. apply bool_decide_eq_true. Qed.
Lemma timer_le_false a b : timer_le a b = false -> tle b a.
Proof. unfold timer_le, tle. rewrite bool_decide_eq_false. lia. Qed.
Lemma timer_lt_true a b : timer_lt a b = true -> tle a b.
Proof. unfold timer_lt, tle. rewrite bool_decide_eq_true. lia. Qed.
Lemma timer_lt_false a b : timer_lt a b = false -> tle b a.
Proof. unfold timer_lt, tle. rewrite bool_decide_eq_false. lia. Qed.

Lemma tle_trans a b c : tle a b -> tle b c -> tle a c.
Proof. unfold tle. lia. Qed.

Lemma edge_parent p : (0 < p)%nat -> edge ((p - 1) / 2) p.
Proof.
  intros Hp. unfold edge. pose proof (Nat.div_mod_eq (p - 1) 2).
  pose proof (Nat.mod_upper_bound (p - 1) 2 ltac:(lia)). lia.
Qed.

Lemma edge_inj i j p : edge i p -> edge j p -> i = j.
Proof. unfold edge. lia. Qed.

Lemma edge_lt i j : edge i j -> (i < j)%nat.
Proof. unfold edge. lia. Qed.

Lemma ordered_hole h p : hole h p /\ below h p /\ above h p <-> ordered h.
Proof.
  split.
  - intros ((H1 & _) & H2 & H3) i j He. destruct (decide (i = p)) as [-> |]; [by apply H2|].
    destruct (decide (j = p)) as [-> |]; [by apply H3|by apply H1].
  - intros Ho. split_and!; [split|..].
    + auto.
    + intros i j Hi Hj a b Ha Hb. destruct (h !! p) as [c|] eqn:Hc.
      * apply (tle_trans a c b); [by apply (Ho i p)|by apply (Ho p j)].
      * apply lookup_lt_Some in Hb. apply lookup_ge_None in Hc. apply edge_lt in Hj. lia.
    + intros j. apply Ho.
    + intros i. apply Ho.
Qed.

Lemma lookup_exchange h a b x y k :
  (a < length h)%nat -> (b < length h)%nat ->
  exchange h a b x y !! k
  = if decide (k = a) then Some y else if decide (k = b) then Some x else h !! k.
Proof.
  intros Ha Hb. unfold exchange. destruct (decide (k = a)) as [-> |Hka].
  - rewrite list_lookup_insert_eq; [done|by rewrite length_insert].
  - rewrite list_lookup_insert_ne by done. destruct (decide (k = b)) as [-> |Hkb].
    + by rewrite list_lookup_insert_eq.
    + by rewrite list_lookup_insert_ne.
Qed.

Lemma length_exchange h a b x y : length (exchange h a b x y) = length h.
Proof. unfold exchange. by rewrite !length_insert. Qed.

(** Case analysis on which positions of an exchanged heap an edge touches. *)
Ltac exchange_cases :=
  repeat match goal with
  | H : exchange ?h ?a ?b _ _ !! _ = Some _ |- _ => rewrite (lookup_exchange h a b) in H by done
  end;
  repeat match goal with
  | H : (if decide ?P then _ else _) = Some _ |- _ => destruct (decide P); [subst|]
  end; simplify_eq; try (unfold edge in *; lia).

(** Moving the smaller entry of [p] up across the edge to its parent [r]. *)
Lemma hole_up h r p x y :
  edge r p -> h !! r = Some x -> h !! p = Some y -> tle y x ->
  hole h p -> below h p ->
  hole (exchange h r p x y) r /\ below (exchange h r p x y) r.
Proof.
  intros He Hx Hy Hyx [H1 H2] Hb.
  pose proof (lookup_lt_Some _ _ _ Hx). pose proof (lookup_lt_Some _ _ _ Hy).
  pose proof (edge_lt _ _ He). split; [split|].
  - intros i j Hij Hir Hjr a b Ha Hb'. exchange_cases.
    + by apply (H2 r j).
    + by apply (H1 i j).
  - intros i j Hir Hrj a b Ha Hb'. exchange_cases.
    + apply (H1 i r); [done|unfold edge in *; lia|unfold edge in *; lia|done|done].
    + apply (tle_trans a x b).
      * apply (H1 i r); [done|unfold edge in *; lia|unfold edge in *; lia|done|done].
      * apply (H1 r j); [done|lia|done|done|done].
  - intros j Hrj a b Ha Hb'. exchange_cases; [done|].
    apply (tle_trans a x b); [done|]. apply (H1 r j); [done|lia|done|done|done].
Qed.

(** Moving the smaller entry of the child [c] up to [p]. *)
Lemma hole_down h p c x y :
  edge p c -> h !! p = Some x -> h !! c = Some y -> tle y x ->
  (forall j, edge p j -> before h c j) -> hole h p -> above h p ->
  hole (exchange h p c x y) c /\ above (exchange h p c x y) c.
Proof.
  intros He Hx Hy Hyx Hmin [H1 H2] Ha.
  pose proof (lookup_lt_Some _ _ _ Hx). pose proof (lookup_lt_Some _ _ _ Hy).
  pose proof (edge_lt _ _ He). split; [split|].
  - intros i j Hij Hic Hjc a b Ha' Hb'. exchange_cases.
    + by apply (H2 i c).
    + by apply (Hmin j).
    + by apply (H1 i j).
  - intros i j Hic Hcj a b Ha' Hb'. exchange_cases.
    apply (H1 c j); [done|lia|unfold edge in *; lia|done|done].
  - intros i Hic a b Ha' Hb'. exchange_cases. done.
Qed.

(** The root of an ordered heap is its least entry. *)
Lemma ordered_root h t i t' : ordered h -> h !! 0%nat = Some t -> h !! i = Some t' -> tle t t'.
Proof.
  intros Ho Ht. revert t'. induction i as [i IH] using lt_wf_ind. intros t' Hi.
  destruct (decide (i = 0%nat)) as [-> |Hne]; [simplify_eq; unfold tle; lia|].
  pose proof (edge_parent i ltac:(lia)) as He. pose proof (edge_lt _ _ He).
  destruct (lookup_lt_is_Some_2 h ((i - 1) / 2)%nat) as [u Hu].
  { apply lookup_lt_Some in Hi. lia. }
  apply (tle_trans t u t'); [by apply (IH ((i - 1) / 2)%nat)|by apply (Ho _ _ He)].
Qed.

(** ** The position map *)

Definition consistent (q : TimerQueue) : Prop :=
  forall idx i, positions q !! idx = Some i <-> exists at', heap q !! i = Some {| at_ := at'; timer_index := idx |}.

Definition queue_ok (q : TimerQueue) : Prop := consistent q /\ ordered (heap q).

(** The deadline of each scheduled connection. *)
Definition deadlines (q : TimerQueue) : gmap Z Z :=
  omap (fun i => at_ <$> heap q !! i) (positions q).

Lemma heap_position q i t : consistent q -> heap q !! i = Some t -> positions q !! timer_index t = Some i.
Proof. intros Hc Ht. apply Hc. exists (at_ t). by destruct t. Qed.

Lemma heap_unique q i j t t' :
  consistent q -> heap q !! i = Some t -> heap q !! j = Some t' -> timer_index t = timer_index t' -> i = j.
Proof.
  intros Hc Hi Hj He. apply (heap_position q) in Hi, Hj; [|done|done]. congruence.
Qed.

Lemma deadlines_lookup q idx at' :
  consistent q -> deadlines q !! idx = Some at' <-> {| at_ := at'; timer_index := idx |} ∈ heap q.
Proof.
  intros Hc. unfold deadlines. rewrite lookup_omap, bind_Some. setoid_rewrite fmap_Some.
  rewrite list_elem_of_lookup. split.
  - intros (i & Hp & t & Ht & ->). apply Hc in Hp as [at' Hp]. exists i. by simplify_eq.
  - intros [i Hi]. exists i. split; [by apply (heap_position q i _ Hc) in Hi|]. eexists. by split.
Qed.

(** Queues with the same entries have the same deadlines. *)
Lemma deadlines_members q q' :
  consistent q -> consistent q' -> (forall t, t ∈ heap q' <-> t ∈ heap q) -> deadlines q' = deadlines q.
Proof.
  intros Hc Hc' Hm. apply map_eq. intros idx. apply option_eq. intros at'.
  by rewrite !deadlines_lookup, Hm by done.
Qed.

Lemma exchange_members h a b x y t :
  h !! a = Some x -> h !! b = Some y -> t ∈ exchange h a b x y <-> t ∈ h.
Proof.
  intros Hx Hy. pose proof (lookup_lt_Some _ _ _ Hx). pose proof (lookup_lt_Some _ _ _ Hy).
  rewrite !list_elem_of_lookup. split; intros [i Hi].
  - rewrite lookup_exchange in Hi by done. repeat case_decide; simplify_eq; eauto.
  - destruct (decide (i = a)) as [-> |]; [exists b|destruct (decide (i = b)) as [-> |]; [exists a|exists i]];
      rewrite lookup_exchange by done; repeat case_decide; simplify_eq; done.
Qed.

Lemma swap_spec q a b x y :
  consistent q -> a <> b -> heap q !! a = Some x -> heap q !! b = Some y ->
  exists q', swap q a b = Ok q' /\ heap q' = exchange (heap q) a b x y /\ consistent q'.
Proof.
  intros Hc Hab Hx Hy. pose proof (lookup_lt_Some _ _ _ Hx). pose proof (lookup_lt_Some _ _ _ Hy).
  assert (timer_index x <> timer_index y) as Hne by (intros He; by eapply Hab, heap_unique).
  unfold swap. rewrite (index_Ok _ _ _ Hx). cbn [mbind result_bind].
  rewrite (index_Ok _ _ _ Hy). cbn [mbind result_bind]. fold (exchange (heap q) a b x y).
  rewrite (index_Ok _ a y), (index_Ok _ b x) by (rewrite lookup_exchange by done; repeat case_decide; congruence).
  cbn [mbind result_bind]. unfold set_position.
  rewrite (heap_position q b y) by done. cbn [mbind result_bind].
  rewrite lookup_insert_ne, (heap_position q a x) by done. cbn [mbind result_bind].
  eexists. split; [done|]. split; [done|]. intros idx i. cbn [heap positions].
  rewrite lookup_exchange by done. destruct (decide (idx = timer_index x)) as [-> |Hix].
  - rewrite lookup_insert_eq. split.
    + intros [= <-]. rewrite decide_False, decide_True by done. exists (at_ x). by destruct x.
    + intros [at' Hi]. repeat case_decide; simplify_eq/=; [done|].
      apply (heap_position q) in Hi; [|done]. simpl in Hi. rewrite (heap_position q a x) in Hi by done. congruence.
  - rewrite lookup_insert_ne by done. destruct (decide (idx = timer_index y)) as [-> |Hiy].
    + rewrite lookup_insert_eq. split.
      * intros [= <-]. rewrite decide_True by done. exists (at_ y). by destruct y.
      * intros [at' Hi]. repeat case_decide; simplify_eq/=; [done|].
        apply (heap_position q) in Hi; [|done]. simpl in Hi. rewrite (heap_position q b y) in Hi by done. congruence.
    + rewrite lookup_insert_ne by done. split.
      * intros Hp. assert (i <> a /\ i <> b) as [Hia Hib].
        { apply Hc in Hp as [at' Hp]. split; intros ->; rewrite Hp in *; simplify_eq. }
        rewrite !decide_False by done. by apply Hc.
      * intros [at' Hi]. repeat case_decide; simplify_eq/=. apply Hc. eauto.
Qed.

Lemma op_total {A} (m : op A) (P : A -> Prop) : post m P -> exists a, m = Ok a /\ P a.
Proof. destruct m as [a|[]|]; simpl; [by exists a|done]. Qed.

(** ** Restoring the order *)

#[local] Arguments Nat.div : simpl never.
#[local] Arguments swap : simpl never.

(** The same entries in a consistent queue. *)
Definition reorders (q q' : TimerQueue) : Prop :=
  consistent q' /\ (forall t, t ∈ heap q' <-> t ∈ heap q) /\ length (heap q') = length (heap q).

Lemma reorders_swap q a b x y :
  consistent q -> a <> b -> heap q !! a = Some x -> heap q !! b = Some y ->
  exists q', swap q a b = Ok q' /\ heap q' = exchange (heap q) a b x y /\ reorders q q'.
Proof.
  intros Hc Hab Hx Hy. destruct (swap_spec q a b x y Hc Hab Hx Hy) as (q' & Hs & Hh & Hc').
  exists q'. split_and!; [done|done|]. unfold reorders. rewrite Hh, length_exchange.
  split_and!; [done| |done]. intros t. by apply exchange_members.
Qed.

Lemma reorders_trans q1 q2 q3 : reorders q1 q2 -> reorders q2 q3 -> reorders q1 q3.
Proof.
  intros (? & Hm & Hl) (? & Hm' & Hl'). split_and!; [done| |by rewrite Hl'].
  intros t. by rewrite Hm', Hm.
Qed.

Lemma parent_lt p : (0 < p)%nat -> ((p - 1) / 2 < p)%nat.
Proof. intros Hp. by apply edge_lt, edge_parent. Qed.

Lemma swap_length q a b q' : swap q a b = Ok q' -> length (heap q') = length (heap q).
Proof. unfold swap. intros H. inv_all. simpl. by rewrite !length_insert. Qed.

Lemma sift_up_dec s s' : sift_up_step s = Ok (inl s') -> (s'.2 < s.2)%nat.
Proof.
  destruct s as [q p]. unfold sift_up_step. case_bool_decide as Hp; [|done].
  pose proof (parent_lt p Hp) as Hlt. intros H. inv_all. destruct (timer_le _ _); [done|]. inv_all. done.
Qed.

Lemma sift_up_spec q p :
  consistent q -> hole (heap q) p -> below (heap q) p -> (p < length (heap q))%nat ->
  exists q', sift_up q p = Ok q' /\ reorders q q' /\ ordered (heap q').
Proof.
  intros Hc Hh Hb Hp. apply op_total. unfold sift_up.
  eapply (post_while _ _ (fun s => reorders q s.1 /\ hole (heap s.1) s.2 /\ below (heap s.1) s.2 /\
    (s.2 < length (heap s.1))%nat)); [apply sift_up_dec| |by split_and!].
  intros [q1 p1] (Hr & Hh1 & Hb1 & Hp1). simpl in *. unfold sift_up_step. case_bool_decide as H0; simpl.
  2: { split; [done|]. apply (ordered_hole _ p1). split_and!; [done|done|].
       intros i He. apply edge_lt in He. lia. }
  pose proof (edge_parent p1 H0) as He. set (r := ((p1 - 1) / 2)%nat) in *. pose proof (edge_lt _ _ He).
  destruct (lookup_lt_is_Some_2 (heap q1) p1) as [y Hy]; [done|].
  destruct (lookup_lt_is_Some_2 (heap q1) r) as [x Hx]; [lia|].
  rewrite (index_Ok _ _ _ Hx). cbn [mbind result_bind]. rewrite (index_Ok _ _ _ Hy). cbn [mbind result_bind].
  destruct (timer_le x y) eqn:Hle; simpl.
  - split; [done|]. apply (ordered_hole _ p1). split_and!; [done|done|].
    intros i Hi a b Ha Hb'. rewrite (edge_inj _ _ _ Hi He) in Ha. simplify_eq. by apply timer_le_spec.
  - apply timer_le_false in Hle. assert (consistent q1) as Hc1 by apply Hr.
    destruct (reorders_swap q1 r p1 x y) as (q2 & -> & Hq2 & Hr2); [done|lia|done|done|].
    simpl. rewrite Hq2, length_exchange.
    destruct (hole_up (heap q1) r p1 x y) as [??]; [done..|].
    split_and!; [by eapply reorders_trans|done|done|lia].
Qed.

Lemma sink_dec s s' : sink_step s = Ok (inl s') -> (length (heap s'.1) - s'.2 < length (heap s.1) - s.2)%nat.
Proof.
  destruct s as [q p]. unfold sink_step. case_bool_decide as Hl; [done|]. intros H.
  apply bind_Ok in H as (child & Hch & H).
  assert (child = 2 * p + 1 \/ child = 2 * p + 1 + 1)%nat as Hcase.
  { case_bool_decide; inv_all; [|by left]. destruct (timer_lt _ _); auto. }
  apply bind_Ok in H as (x & _ & H). apply bind_Ok in H as (y & _ & H).
  destruct (timer_le x y); [done|]. apply bind_Ok in H as (q' & Hs & H). simplify_eq. simpl.
  apply swap_length in Hs. rewrite Hs. lia.
Qed.

(** The child that [sink_step] compares with is the smaller one. *)
Lemma smaller_child h p l :
  h !! (2 * p + 1)%nat = Some l ->
  exists c y,
    (if bool_decide (2 * p + 1 + 1 < length h)%nat then
       r ← index h (2 * p + 1 + 1)%nat; l ← index h (2 * p + 1)%nat;
       Ok (if timer_lt r l then (2 * p + 1 + 1)%nat else (2 * p + 1)%nat)
     else Ok (2 * p + 1)%nat : op nat) = Ok c /\
    edge p c /\ h !! c = Some y /\ forall j, edge p j -> before h c j.
Proof.
  intros Hl. assert (forall t, tle t t) as Hrefl by (intros t; unfold tle; lia).
  case_bool_decide as Hr.
  - destruct (lookup_lt_is_Some_2 h _ Hr) as [r Hrr].
    rewrite (index_Ok _ _ _ Hrr). cbn [mbind result_bind]. rewrite (index_Ok _ _ _ Hl). cbn [mbind result_bind].
    destruct (timer_lt r l) eqn:Hlt.
    + exists (2 * p + 1 + 1)%nat, r. split_and!; [done|unfold edge; lia|done|].
      intros j [-> | ->] a b Ha Hb; simplify_eq; [by apply timer_lt_true|].
      replace (2 * p + 2)%nat with (2 * p + 1 + 1)%nat in Hb by lia. simplify_eq. apply Hrefl.
    + exists (2 * p + 1)%nat, l. split_and!; [done|unfold edge; lia|done|].
      intros j [-> | ->] a b Ha Hb; simplify_eq; [apply Hrefl|].
      replace (2 * p + 2)%nat with (2 * p + 1 + 1)%nat in Hb by lia. simplify_eq. by apply timer_lt_false.
  - exists (2 * p + 1)%nat, l. split_and!; [done|unfold edge; lia|done|].
    intros j [-> | ->] a b Ha Hb; simplify_eq; [apply Hrefl|]. apply lookup_lt_Some in Hb. lia.
Qed.

Lemma sink_spec q p :
  consistent q -> hole (heap q) p -> above (heap q) p -> (p < length (heap q))%nat ->
  exists q', sink q p = Ok q' /\ reorders q q' /\ ordered (heap q').
Proof.
  intros Hc Hh Ha Hp. apply op_total. unfold sink.
  eapply (post_while _ _ (fun s => reorders q s.1 /\ hole (heap s.1) s.2 /\ above (heap s.1) s.2 /\
    (s.2 < length (heap s.1))%nat)); [apply sink_dec| |by split_and!].
  intros [q1 p1] (Hr & Hh1 & Ha1 & Hp1). simpl fst in *. simpl snd in *. unfold sink_step.
  case_bool_decide as H0.
  { cbn [post]. split; [done|]. apply (ordered_hole _ p1). split_and!; [done| |done].
    intros j He a b Hp' Hb. apply lookup_lt_Some in Hb. unfold edge in He. lia. }
  destruct (lookup_lt_is_Some_2 (heap q1) (2 * p1 + 1)%nat) as [l Hl]; [lia|].
  destruct (smaller_child (heap q1) p1 l Hl) as (c & y & -> & He & Hy & Hmin). cbn [mbind result_bind].
  destruct (lookup_lt_is_Some_2 (heap q1) p1) as [x Hx]; [done|].
  rewrite (index_Ok _ _ _ Hx). cbn [mbind result_bind]. rewrite (index_Ok _ _ _ Hy). cbn [mbind result_bind].
  destruct (timer_le x y) eqn:Hle; simpl.
  - split; [done|]. apply (ordered_hole _ p1). split_and!; [done| |done].
    intros j Hj a b Ha' Hb. simplify_eq. apply timer_le_spec in Hle.
    apply (tle_trans _ y); [done|by apply (Hmin j)].
  - apply timer_le_false in Hle. assert (consistent q1) as Hc1 by apply Hr. pose proof (edge_lt _ _ He).
    destruct (reorders_swap q1 p1 c x y) as (q2 & -> & Hq2 & Hr2); [done|lia|done|done|].
    simpl. rewrite Hq2, length_exchange.
    destruct (hole_down (heap q1) p1 c x y) as [??]; [done..|].
    split_and!; [by eapply reorders_trans|done|done|by apply lookup_lt_Some in Hy].
Qed.

Lemma repair_spec q p :
  consistent q -> hole (heap q) p -> (p < length (heap q))%nat ->
  exists q', repair q p = Ok q' /\ reorders q q' /\ ordered (heap q').
Proof.
  intros Hc Hh Hp. unfold repair. case_bool_decide as H0; cbn [mbind result_bind].
  - pose proof (edge_parent p H0) as He. set (r := ((p - 1) / 2)%nat) in *. pose proof (edge_lt _ _ He).
    destruct (lookup_lt_is_Some_2 (heap q) p) as [y Hy]; [done|].
    destruct (lookup_lt_is_Some_2 (heap q) r) as [x Hx]; [lia|].
    rewrite (index_Ok _ _ _ Hy). cbn [mbind result_bind]. rewrite (index_Ok _ _ _ Hx). cbn [mbind result_bind].
    destruct (timer_lt y x) eqn:Hlt.
    + apply sift_up_spec; [done|done| |done]. intros j Hj a b Ha Hb. simplify_eq.
      apply (tle_trans _ x); [by apply timer_lt_true|]. by apply (proj2 Hh r j).
    + apply sink_spec; [done|done| |done]. intros i Hi a b Ha Hb.
      rewrite (edge_inj _ _ _ Hi He) in Ha. simplify_eq. by apply timer_lt_false.
  - apply sink_spec; [done|done| |done]. intros i Hi. apply edge_lt in Hi. lia.
Qed.

(** ** The operations on the deadline map *)

Lemma deadlines_insert q q' idx at' :
  consistent q -> consistent q' ->
  (forall t, t ∈ heap q' <-> t = {| at_ := at'; timer_index := idx |} \/ (t ∈ heap q /\ timer_index t <> idx)) ->
  deadlines q' = <[idx := at']> (deadlines q).
Proof.
  intros Hc Hc' Hm. apply map_eq. intros k. apply option_eq. intros b.
  rewrite deadlines_lookup, Hm by done. destruct (decide (k = idx)) as [-> |Hk].
  - rewrite lookup_insert_eq. split; [intros [?|[_ ?]]|intros ?]; simplify_eq/=; auto.
  - rewrite lookup_insert_ne, deadlines_lookup by done. split; [intros [?|[? _]]|intros ?]; simplify_eq/=; auto.
Qed.

Lemma deadlines_delete q q' idx :
  consistent q -> consistent q' -> (forall t, t ∈ heap q' <-> t ∈ heap q /\ timer_index t <> idx) ->
  deadlines q' = delete idx (deadlines q).
Proof.
  intros Hc Hc' Hm. apply map_eq. intros k. apply option_eq. intros b.
  rewrite deadlines_lookup, Hm by done. destruct (decide (k = idx)) as [-> |Hk].
  - rewrite lookup_delete_eq. split; [intros [_ ?]; simplify_eq/=|done].
  - rewrite lookup_delete_ne, deadlines_lookup by done. split; [by intros [? _]|auto].
Qed.

(** Replacing the deadline at [p]. *)
Lemma replace_at q p t at' :
  queue_ok q -> heap q !! p = Some t ->
  let t' := {| at_ := at'; timer_index := timer_index t |} in
  let q1 := {| heap := <[p := t']> (heap q); positions := positions q |} in
  consistent q1 /\ hole (heap q1) p /\ deadlines q1 = <[timer_index t := at']> (deadlines q).
Proof.
  intros [Hc Ho] Ht t' q1. pose proof (lookup_lt_Some _ _ _ Ht) as Hp.
  assert (forall i, i <> p -> heap q1 !! i = heap q !! i) as Hne by (intros; by apply list_lookup_insert_ne).
  assert (heap q1 !! p = Some t') as Heq by (by apply list_lookup_insert_eq).
  assert (consistent q1) as Hc1.
  { intros idx i. change (positions q1) with (positions q). destruct (decide (i = p)) as [-> |Hip].
    - rewrite Heq, (Hc idx p), Ht. split; intros [b Hb]; simplify_eq/=; [by eexists|].
      exists (at_ t). by destruct t.
    - rewrite Hne by done. apply Hc. }
  split_and!; [done| |].
  - apply (ordered_hole _ p) in Ho as ([H1 H2] & _ & _). split; intros i j Hi Hj.
    + intros Hjp a b. rewrite !Hne by done. by apply H1.
    + intros a b. pose proof (edge_lt _ _ Hi). pose proof (edge_lt _ _ Hj).
      rewrite !Hne by lia. by apply H2.
  - apply deadlines_insert; [done|done|]. intros u. rewrite !list_elem_of_lookup. split.
    + intros [i Hi]. destruct (decide (i = p)) as [-> |Hip]; [left; rewrite Heq in Hi; by injection Hi as <-|].
      rewrite Hne in Hi by done. right. split; [eauto|]. intros He. destruct Hip.
      by apply (heap_unique q i p u t).
    + intros [-> |[[i Hi] Hu]]; [eauto|]. exists i. rewrite Hne; [done|]. intros ->. congruence.
Qed.

Lemma push_back q idx at' :
  queue_ok q -> positions q !! idx = None ->
  let t := {| at_ := at'; timer_index := idx |} in
  let q1 := {| heap := heap q ++ [t]; positions := <[idx := length (heap q)]> (positions q) |} in
  consistent q1 /\ hole (heap q1) (length (heap q)) /\ below (heap q1) (length (heap q)) /\
  deadlines q1 = <[idx := at']> (deadlines q).
Proof.
  intros [Hc Ho] Hn t q1.
  assert (forall i b, heap q !! i <> Some {| at_ := b; timer_index := idx |}) as Hfresh.
  { intros i b Hi. apply (heap_position q) in Hi; [|done]. simpl in Hi. congruence. }
  assert (forall i, (i < length (heap q))%nat -> heap q1 !! i = heap q !! i) as Hold
    by (intros; by apply lookup_app_l).
  assert (forall i u, heap q1 !! i = Some u ->
    heap q !! i = Some u \/ (i = length (heap q) /\ u = t)) as Hinv.
  { intros i u. simpl. rewrite lookup_app_Some, list_lookup_singleton_Some. intros [?|(? & ? & ->)]; [by left|].
    right. split; [lia|done]. }
  assert (heap q1 !! length (heap q) = Some t) as Hlast by (simpl; by apply list_lookup_middle).
  assert (consistent q1) as Hc1.
  { intros k i. change (positions q1) with (<[idx := length (heap q)]> (positions q)).
    destruct (decide (k = idx)) as [-> |Hk].
    - rewrite lookup_insert_eq. split; [intros [= <-]; by exists at'|].
      intros [b Hb]. apply Hinv in Hb as [Hb|[-> _]]; [by destruct (Hfresh i b)|done].
    - rewrite lookup_insert_ne, (Hc k i) by done. split; intros [b Hb]; exists b.
      + rewrite Hold; [done|by apply lookup_lt_Some in Hb].
      + apply Hinv in Hb as [Hb|[_ Hb]]; [done|]. unfold t in Hb. congruence. }
  split_and!; [done|split| |].
  - intros i j He Hi Hj a b Ha Hb. apply Hinv in Ha as [Ha|[? _]]; [|done].
    apply Hinv in Hb as [Hb|[? _]]; [|done]. by apply (Ho i j).
  - intros i j _ He a b _ Hb. apply edge_lt in He. apply lookup_lt_Some in Hb. simpl in Hb.
    rewrite length_app in Hb. simpl in Hb. lia.
  - intros j He a b _ Hb. apply edge_lt in He. apply lookup_lt_Some in Hb. simpl in Hb.
    rewrite length_app in Hb. simpl in Hb. lia.
  - apply deadlines_insert; [done|done|]. intros u. simpl. rewrite elem_of_app, list_elem_of_singleton.
    split; [intros [Hu| ->]; [right; split; [done|]|by left]|naive_solver].
    apply list_elem_of_lookup in Hu as [i Hi]. intros <-. destruct (Hfresh i (at_ u)). by destruct u.
Qed.

Lemma schedule_spec q idx at' :
  queue_ok q ->
  exists q', schedule q idx at' = Ok q' /\ queue_ok q' /\ deadlines q' = <[idx := at']> (deadlines q).
Proof.
  intros Hq. unfold schedule. destruct (positions q !! idx) as [p|] eqn:Hp.
  - pose proof Hp as Ht. apply (proj1 Hq) in Ht as [b Ht]. rewrite (index_Ok _ _ _ Ht). cbn [mbind result_bind].
    destruct (replace_at q p _ at' Hq Ht) as (Hc & Hh & Hd). simpl in Hd.
    destruct (repair_spec _ p Hc Hh) as (q' & Hr & (Hc' & Hm & _) & Ho').
    { simpl. rewrite length_insert. by apply lookup_lt_Some in Ht. }
    exists q'. split_and!; [done|by split|]. rewrite <- Hd. by apply deadlines_members.
  - destruct (push_back q idx at' Hq Hp) as (Hc & Hh & Hb & Hd).
    destruct (sift_up_spec _ _ Hc Hh Hb) as (q' & Hr & (Hc' & Hm & _) & Ho').
    { simpl. rewrite length_app. simpl. lia. }
    exists q'. split_and!; [done|by split|]. rewrite <- Hd. by apply deadlines_members.
Qed.

Lemma swap_remove_spec {A} (l : list A) x i :
  (i < length (l ++ [x]))%nat -> swap_remove (l ++ [x]) i = Ok (<[i := x]> l).
Proof.
  intros Hi. unfold swap_remove. destruct (lookup_lt_is_Some_2 _ _ Hi) as [y Hy].
  rewrite (index_Ok _ _ _ Hy). cbn [mbind result_bind]. rewrite last_snoc. f_equal.
  rewrite length_app in Hi. simpl in Hi. destruct (decide (i < length l)%nat) as [Hl|Hl].
  - rewrite insert_app_l by done. rewrite removelast_app by done. simpl. by rewrite app_nil_r.
  - assert (i = length l + 0)%nat as -> by lia. rewrite insert_app_r. simpl.
    rewrite removelast_app by done. simpl. rewrite app_nil_r. rewrite list_insert_ge by lia. done.
Qed.

(** Filling the position [p] with the last entry [x] of [l ++ [x]]. *)
Lemma removed_lookup (l : list Timer) x p i :
  <[p := x]> l !! i = if decide (i = p /\ (p < length l)%nat) then Some x else l !! i.
Proof.
  destruct (decide _) as [[-> Hp]|Hn]; [by apply list_lookup_insert_eq|].
  destruct (decide (i = p)) as [-> |]; [|by apply list_lookup_insert_ne].
  rewrite list_insert_ge by lia. done.
Qed.

Section remove_last.
  Context (q : TimerQueue) (p : nat) (t x : Timer) (l : list Timer).
  Context (Hc : consistent q) (Ho : ordered (heap q)) (Hl : heap q = l ++ [x]) (Ht : heap q !! p = Some t).

Lemma removed_length : (p <= length l)%nat.
Proof. apply lookup_lt_Some in Ht. rewrite Hl, length_app in Ht. simpl in Ht. lia. Qed.

Lemma last_entry : heap q !! length l = Some x.
Proof. rewrite Hl. by apply list_lookup_middle. Qed.

(** What is left: the entries before the last one, and the last one at [p]. *)
Lemma removed_inv i u :
  <[p := x]> l !! i = Some u <->
  (i = p /\ (p < length l)%nat /\ u = x) \/ (i <> p /\ (i < length l)%nat /\ heap q !! i = Some u).
Proof.
  pose proof removed_length. rewrite removed_lookup. destruct (decide _) as [[-> Hp]|Hn].
  - split; [intros [= <-]; by left|naive_solver].
  - split.
    + intros Hi. pose proof (lookup_lt_Some _ _ _ Hi). right. rewrite Hl, lookup_app_l by done.
      split_and!; [|done|done]. intros ->. naive_solver.
    + intros [(-> & ? & _)|(_ & Hi & Hu)]; [naive_solver|]. by rewrite Hl, lookup_app_l in Hu.
Qed.

Lemma removed_other i u : i <> p -> <[p := x]> l !! i = Some u -> heap q !! i = Some u.
Proof. intros Hi Hu%removed_inv. naive_solver. Qed.

Lemma removed_hole : hole (<[p := x]> l) p.
Proof.
  split; intros i j Hi Hj.
  - intros Hjp a b Ha%removed_other Hb%removed_other; [|done|done]. by apply (Ho i j).
  - pose proof (edge_lt _ _ Hi). pose proof (edge_lt _ _ Hj).
    intros a b Ha%removed_other Hb%removed_other; [|lia|lia].
    destruct (proj2 (ordered_hole _ p) Ho) as ([_ H2] & _). by apply (H2 i j).
Qed.

Lemma removed_ordered : ~ (p < length l)%nat -> ordered (<[p := x]> l).
Proof.
  intros Hp i j He a b. rewrite list_insert_ge by lia. intros Ha Hb.
  pose proof (lookup_lt_Some _ _ _ Ha). pose proof (lookup_lt_Some _ _ _ Hb).
  apply (Ho i j He); by rewrite Hl, lookup_app_l.
Qed.

Lemma removed_members u : u ∈ <[p := x]> l <-> u ∈ heap q /\ timer_index u <> timer_index t.
Proof.
  pose proof last_entry as Hx. rewrite !list_elem_of_lookup. split.
  - intros [i [(-> & Hp & ->)|(Hi & _ & Hu)]%removed_inv]; (split; [eauto|]); intros He.
    + pose proof (heap_unique q _ _ _ _ Hc Hx Ht He). lia.
    + destruct Hi. by apply (heap_unique q i p u t).
  - intros [[i Hi] Hne]. assert (i <> p) as Hip by (intros ->; congruence).
    pose proof (lookup_lt_Some _ _ _ Hi) as Hlt. rewrite Hl, length_app in Hlt. simpl in Hlt.
    destruct (decide (i = length l)) as [-> |Hil].
    + exists p. apply removed_inv. left. pose proof removed_length. split_and!; [done|lia|congruence].
    + exists i. apply removed_inv. right. split_and!; [done|lia|done].
Qed.

Lemma removed_consistent :
  let pos := delete (timer_index t) (positions q) in
  consistent {| heap := <[p := x]> l;
                positions := if bool_decide (p < length l)%nat then <[timer_index x := p]> pos else pos |}.
Proof.
  intros pos k i. cbn [heap positions]. pose proof last_entry as Hx. pose proof removed_length as Hp.
  assert (forall k i, pos !! k = Some i <-> i <> p /\ positions q !! k = Some i) as Hpos.
  { intros k' i'. unfold pos. rewrite lookup_delete_Some. split; intros [Hn Hk]; (split; [|done]).
    - intros ->. apply Hc in Hk as [b Hb]. rewrite Ht in Hb. by simplify_eq.
    - intros <-. rewrite (heap_position q p t) in Hk by done. congruence. }
  assert (forall k i, (positions q !! k = Some i /\ i <> length l) <->
    ((i < length l)%nat /\ exists b, heap q !! i = Some {| at_ := b; timer_index := k |})) as Hin.
  { intros k' i'. rewrite <- (Hc k' i'). split; [intros [Hk Hi]|intros [Hi Hk]]; (split; [|done || lia]).
    - apply Hc in Hk as [b Hb]. apply lookup_lt_Some in Hb. rewrite Hl, length_app in Hb. simpl in Hb. lia.
    - done. }
  setoid_rewrite removed_inv. case_bool_decide as Hlt.
  - destruct (decide (k = timer_index x)) as [-> |Hkx].
    + rewrite lookup_insert_eq. split.
      * intros [= <-]. exists (at_ x). left. by destruct x.
      * intros (b & [(-> & _)|(Hi & Hil & Hb)]); [done|].
        pose proof (heap_unique q _ _ _ _ Hc Hx Hb eq_refl). lia.
    + rewrite lookup_insert_ne, Hpos by done. split.
      * intros [Hip Hk]. destruct (proj1 (Hin k i)) as [Hi [b Hb]]; [|exists b; by right].
        split; [done|]. intros ->. apply Hc in Hk as [b Hb].
        rewrite Hx in Hb. injection Hb as Hb. apply Hkx. by rewrite Hb.
      * intros (b & [(_ & _ & Hb)|(Hip & Hi & Hb)]); [destruct Hkx; by rewrite <- Hb|]. split; [done|]. apply Hin. eauto.
  - assert (p = length l) as Hpl by lia. rewrite Hpos. split.
    + intros [Hip Hk]. destruct (proj1 (Hin k i)) as [Hi [b Hb]]; [naive_solver|exists b; by right].
    + intros (b & [(_ & ? & _)|(Hip & Hi & Hb)]); [done|]. split; [done|]. apply Hin. eauto.
Qed.
End remove_last.

Lemma cancel_spec q idx :
  queue_ok q ->
  exists q', cancel q idx = Ok q' /\ queue_ok q' /\ deadlines q' = delete idx (deadlines q) /\
    (positions q !! idx <> None -> (length (heap q') < length (heap q))%nat).
Proof.
  intros [Hc Ho]. unfold cancel. destruct (positions q !! idx) as [p|] eqn:Hp.
  2: { exists q. split_and!; [done|by split| |done]. symmetry. apply delete_id.
       unfold deadlines. by rewrite lookup_omap, Hp. }
  apply Hc in Hp as [b Ht]. pose proof (lookup_lt_Some _ _ _ Ht) as Hlt.
  destruct (exists_last (l:=heap q)) as (l & x & Hl); [by intros E; rewrite E in Ht|].
  rewrite Hl, swap_remove_spec by (by rewrite <- Hl). cbn [mbind result_bind].
  pose proof (removed_consistent q p _ x l Hc Hl Ht) as Hc1. simpl in Hc1.
  pose proof (removed_members q p _ x l Hc Hl Ht) as Hm. simpl in Hm.
  rewrite length_insert, length_app. simpl length.
  destruct (bool_decide (p < length l)%nat) eqn:Hpl.
  - apply bool_decide_eq_true in Hpl.
    rewrite (index_Ok _ p x) by (by apply list_lookup_insert_eq). cbn [mbind result_bind].
    unfold set_position. 
    assert (delete idx (positions q) !! timer_index x = Some (length l)) as ->.
    { rewrite lookup_delete_ne.
      - apply heap_position; [done|by apply (last_entry q x l)].
      - intros He. pose proof (heap_unique q p (length l) _ x Hc Ht (last_entry q x l Hl) He). lia. }
    cbn [mbind result_bind].
    destruct (repair_spec _ p Hc1) as (q' & Hr & (Hc' & Hm' & Hl') & Ho').
    { by eapply (removed_hole q p). } { simpl. by rewrite length_insert. }
    exists q'. split_and!; [done|by split| |].
    + apply deadlines_delete; [done|done|]. intros u. rewrite Hm'. apply Hm.
    + intros _. rewrite Hl'. simpl. rewrite length_insert. lia.
  - apply bool_decide_eq_false in Hpl. eexists. split; [done|]. split_and!.
    + split; [done|by eapply (removed_ordered q p)].
    + apply deadlines_delete; [done|done|]. apply Hm.
    + intros _. simpl. rewrite length_insert. lia.
Qed.

(** ** Expiry *)

Definition pair_le (a b : Z * Z) : Prop := a.2 < b.2 \/ (a.2 = b.2 /\ a.1 <= b.1).

(** What the callback has seen, against the deadlines at the start. *)
Definition fired_ok (now : Z) (d : gmap Z Z) (s : TimerQueue * list (Z * Z)) : Prop :=
  queue_ok s.1 /\
  (forall i a, d !! i = Some a <-> deadlines s.1 !! i = Some a \/ (i, a) ∈ s.2) /\
  NoDup s.2 /\ StronglySorted pair_le s.2 /\
  (forall i a, (i, a) ∈ s.2 -> a <= now /\ deadlines s.1 !! i = None /\
     forall j b, deadlines s.1 !! j = Some b -> pair_le (i, a) (j, b)).

Lemma head_lookup {A} (l : list A) : head l = l !! 0%nat.
Proof. by destruct l. Qed.

Lemma root_deadline q t :
  queue_ok q -> head (heap q) = Some t ->
  deadlines q !! timer_index t = Some (at_ t) /\ positions q !! timer_index t = Some 0%nat /\
  forall j b, deadlines q !! j = Some b -> pair_le (timer_index t, at_ t) (j, b).
Proof.
  intros [Hc Ho] Ht. rewrite head_lookup in Ht. split_and!.
  - apply deadlines_lookup; [done|]. apply list_elem_of_lookup. exists 0%nat. by destruct t.
  - by apply heap_position.
  - intros j b Hb. apply deadlines_lookup in Hb; [|done]. apply list_elem_of_lookup in Hb as [i Hi].
    by apply (ordered_root _ t i _ Ho Ht) in Hi.
Qed.

Lemma empty_deadlines q : head (heap q) = None -> deadlines q = ∅.
Proof.
  intros Hh. apply map_eq. intros i. unfold deadlines. rewrite lookup_omap, lookup_empty.
  destruct (heap q); [|done]. by destruct (positions q !! i).
Qed.

Lemma sorted_snoc_all {A} (R : A -> A -> Prop) l x :
  StronglySorted R l -> (forall y, y ∈ l -> R y x) -> StronglySorted R (l ++ [x]).
Proof.
  induction 1 as [|y l Hs IH Hy]; intros Hx; simpl; [by repeat constructor|].
  constructor; [apply IH; intros z Hz; apply Hx; by constructor|].
  apply Forall_app. split; [done|]. apply Forall_singleton, Hx. by constructor.
Qed.

Lemma fired_step now d q q' fired t :
  fired_ok now d (q, fired) -> head (heap q) = Some t -> at_ t <= now ->
  queue_ok q' -> deadlines q' = delete (timer_index t) (deadlines q) ->
  fired_ok now d (q', fired ++ [(timer_index t, at_ t)]).
Proof.
  intros (Hq & Hd & Hn & Hs & Hf) Ht Hnow Hq' Hd'. simpl in *.
  destruct (root_deadline q t Hq Ht) as (Hdt & _ & Hmin).
  assert (forall a, (timer_index t, a) ∉ fired) as Hnew.
  { intros a (_ & Hno & _)%Hf. congruence. }
  unfold fired_ok; simpl. rewrite Hd'. split_and!; [done| | | |].
  - intros i a. rewrite Hd, elem_of_app, list_elem_of_singleton.
    destruct (decide (i = timer_index t)) as [-> |Hne].
    + rewrite lookup_delete_eq. split; [|naive_solver]. intros [Ha|Ha]; [|by destruct (Hnew a)].
      right. right. congruence.
    + rewrite lookup_delete_ne by done. naive_solver.
  - apply NoDup_app. split_and!; [done| |apply NoDup_singleton].
    intros y Hy ->%list_elem_of_singleton. by destruct (Hnew (at_ t)).
  - apply sorted_snoc_all; [done|]. intros [i a] (_ & _ & Hle)%Hf. by apply Hle.
  - intros i a. rewrite elem_of_app, list_elem_of_singleton. intros [(H1 & H2 & H3)%Hf|[= -> ->]].
    + split; [done|]. split; [by apply lookup_delete_None; right|].
      intros j b [_ Hb]%lookup_delete_Some. by apply H3.
    + split; [done|]. split; [apply lookup_delete_eq|]. intros j b [_ Hb]%lookup_delete_Some. by apply Hmin.
Qed.

Lemma expire_spec q now :
  queue_ok q -> exists q' fired, expire q now = Ok (q', fired) /\ fired_ok now (deadlines q) (q', fired) /\
    forall j b, deadlines q' !! j = Some b -> now < b.
Proof.
  intros Hq. assert (post (expire q now) (fun r => fired_ok now (deadlines q) r /\
    forall j b, deadlines r.1 !! j = Some b -> now < b)) as H.
  { unfold expire. eapply (post_while_inv _ _ (fired_ok now (deadlines q))).
    2: { split_and!; simpl; [done| |constructor|constructor|]; intros i a.
         - rewrite elem_of_nil. tauto.
         - by intros ?%elem_of_nil. }
    intros [q1 fired] Hok. pose proof Hok as (Hq1 & _). simpl in Hq1. unfold expire_step.
    destruct (head (heap q1)) as [t|] eqn:Ht.
    - destruct (root_deadline q1 t Hq1 Ht) as (_ & Hpos & Hmin). case_bool_decide as Hat.
      + split; [done|]. intros j b Hb%Hmin. unfold pair_le in Hb. simpl in Hb. lia.
      + destruct (cancel_spec q1 (timer_index t) Hq1) as (q2 & -> & Hq2 & Hd2 & Hlt).
        cbn [mbind result_bind post fst]. split; [|apply Hlt; congruence].
        by eapply fired_step; [done|done|lia|..].
    - split; [done|]. intros j b Hb. simpl in Hb. by rewrite (empty_deadlines q1 Ht) in Hb. }
  apply op_total in H as ([q' fired] & He & Hf & Hr). by exists q', fired.
Qed.

(** ** Dirty connections *)

Inductive dirty_op := Mark (index : Z) | TakeInto | EndRound.

(** A round's run: [out] is what the loop has been handed to service. *)
Definition dirty_step (s : DirtySet * list Z) (o : dirty_op) : DirtySet * list Z :=
  match o with
  | Mark index => (mark s.1 index, s.2)
  | TakeInto => take_into s.1 s.2
  | EndRound => (end_round s.1, [])
  end.

(** The marks of the current round, in order. *)
Definition round_marks (marks : list Z) (o : dirty_op) : list Z :=
  match o with Mark index => marks ++ [index] | TakeInto => marks | EndRound => [] end.

(** First occurrences only. *)
Fixpoint firsts (acc l : list Z) : list Z :=
  match l with
  | [] => acc
  | x :: l' => firsts (if bool_decide (x ∈ acc) then acc else acc ++ [x]) l'
  end.

Lemma firsts_snoc acc l x :
  firsts acc (l ++ [x]) = if bool_decide (x ∈ firsts acc l) then firsts acc l else firsts acc l ++ [x].
Proof. revert acc. induction l as [|y l IH]; intros acc; simpl; [done|]. apply IH. Qed.

Lemma firsts_nodup acc l : NoDup acc -> NoDup (firsts acc l).
Proof.
  revert acc. induction l as [|x l IH]; intros acc Ha; simpl; [done|]. apply IH.
  case_bool_decide; [done|]. apply NoDup_app. split; [done|]. split; [|apply NoDup_singleton].
  intros y Hy ->%list_elem_of_singleton. done.
Qed.

Definition dirty_inv (marks : list Z) (s : DirtySet * list Z) : Prop :=
  s.2 ++ pending s.1 = firsts [] marks /\ forall x, x ∈ seen s.1 <-> x ∈ firsts [] marks.

Lemma dirty_step_inv marks s o : dirty_inv marks s -> dirty_inv (round_marks marks o) (dirty_step s o).
Proof.
  destruct s as [d out]. intros [Hf Hs]. unfold dirty_inv in *. destruct o as [x| |]; simpl in *.
  - unfold mark. rewrite firsts_snoc. case_bool_decide as Hx; simpl.
    + rewrite bool_decide_true by (by apply Hs). done.
    + rewrite bool_decide_false by (by rewrite <- Hs). rewrite <- Hf, app_assoc. split; [done|].
      intros y. rewrite elem_of_union, elem_of_singleton, Hs, <- Hf. set_solver.
  - rewrite app_nil_r. done.
  - split; [done|]. intros x. rewrite elem_of_nil. set_solver.
Qed.

Lemma dirty_run_inv ops marks s :
  dirty_inv marks s -> dirty_inv (foldl round_marks marks ops) (foldl dirty_step s ops).
Proof.
  revert marks s. induction ops as [|o ops IH]; intros marks s Hi; simpl; [done|].
  by apply IH, dirty_step_inv.
Qed.

(** ** Properties *)

(** C26: the indexed heap implements a map from connections to deadlines.  On a
    well-formed queue, rescheduling and cancelling never panic, keep it
    well-formed and change exactly the one deadline, whether it moves up or
    down; the next wakeup is the earliest deadline, and none exactly when nothing
    is scheduled. *)
Theorem timer_queue_refines (q : TimerQueue) (idx at' : Z) :
  queue_ok q ->
  (exists q', schedule q idx at' = Ok q' /\ queue_ok q' /\ deadlines q' = <[idx := at']> (deadlines q)) /\
  (exists q', cancel q idx = Ok q' /\ queue_ok q' /\ deadlines q' = delete idx (deadlines q)) /\
  match next_wakeup q with
  | Some (i, a) => deadlines q !! i = Some a /\
      forall j b, deadlines q !! j = Some b -> a < b \/ (a = b /\ i <= j)
  | None => deadlines q = ∅
  end.
Proof.
  intros Hq. split; [by apply schedule_spec|]. split.
  - destruct (cancel_spec q idx Hq) as (q' & ? & ? & ? & _). by exists q'.
  - unfold next_wakeup. destruct (head (heap q)) as [t|] eqn:Ht; simpl; [|by apply empty_deadlines].
    destruct (root_deadline q t Hq Ht) as (Hd & _ & Hmin). split; [done|]. intros j b Hb. by apply Hmin.
Qed.

(** Expiry fires exactly the due timers.  Popping at [now] ends without a
    panic; the callback sees every connection whose deadline is not after [now],
    once each and in deadline order, and the queue keeps exactly the others. *)
Theorem timer_expiry (q : TimerQueue) (now : Z) :
  queue_ok q ->
  exists q' fired, expire q now = Ok (q', fired) /\ queue_ok q' /\
    deadlines q' = filter (fun e => now < e.2) (deadlines q) /\
    NoDup fired /\ StronglySorted pair_le fired /\
    forall i a, (i, a) ∈ fired <-> deadlines q !! i = Some a /\ a <= now.
Proof.
  intros Hq. destruct (expire_spec q now Hq) as (q' & fired & He & (Hq' & Hd & Hn & Hs & Hf) & Hr).
  simpl in *. exists q', fired. split_and!; [done|done| |done|done|].
  - apply map_eq. intros i. apply option_eq. intros a. rewrite map_lookup_filter_Some, Hd. simpl. split.
    + intros Ha. split; [by left|by apply (Hr i)].
    + intros [[Ha|Ha] Hlt]; [done|]. destruct (Hf i a Ha). lia.
  - intros i a. rewrite Hd. split.
    + intros Ha. split; [by right|by apply (Hf i)].
    + intros [[Ha|Ha] Hle]; [apply Hr in Ha; lia|done].
Qed.

(** A round services each marked connection once, in the order of its
    first mark.  After any sequence of marks, hand-overs and round ends, what the
    loop was handed in this round followed by what is still pending is the list
    of first marks of the round, without repetition. *)
Theorem dirty_round (ops : list dirty_op) :
  let s := foldl dirty_step (dirty_new, []) ops in
  let marks := foldl round_marks [] ops in
  s.2 ++ pending s.1 = firsts [] marks /\ NoDup (s.2 ++ pending s.1).
Proof.
  intros s marks. assert (dirty_inv marks s) as [-> _]; [|split; [done|apply firsts_nodup; constructor]].
  apply dirty_run_inv. split; [done|set_solver].
Qed.

(** ** Witnesses *)

Definition sample_queue : TimerQueue :=
  {| heap := [{| at_ := 3; timer_index := 7 |}; {| at_ := 9; timer_index := 1 |}; {| at_ := 4; timer_index := 2 |}];
     positions := {[ 7 := 0%nat; 1 := 1%nat; 2 := 2%nat ]} |}.

Lemma sample_queue_ok : queue_ok sample_queue.
Proof.
  assert (exists q, schedule queue_new 1 9 = Ok q /\ exists q', schedule q 2 4 = Ok q' /\
    schedule q' 7 3 = Ok sample_queue) as (q1 & H1 & q2 & H2 & H3).
  { do 2 (eexists; split; [vm_compute; reflexivity|]). vm_compute. reflexivity. }
  assert (queue_ok queue_new) as H0.
  { split; [|done]. intros i k. simpl. rewrite lookup_empty. split; [done|by intros [? ?]]. }
  destruct (schedule_spec _ 1 9 H0) as (? & E1 & Hq1 & _). rewrite H1 in E1. injection E1 as <-.
  destruct (schedule_spec _ 2 4 Hq1) as (? & E2 & Hq2 & _). rewrite H2 in E2. injection E2 as <-.
  destruct (schedule_spec _ 7 3 Hq2) as (? & E3 & Hq3 & _). rewrite H3 in E3. by injection E3 as <-.
Qed.

Lemma timer_queue_refines_witness :
  exists q', schedule sample_queue 7 20 = Ok q' /\ next_wakeup q' = Some (2, 4) /\
    deadlines q' = <[7 := 20]> (deadlines sample_queue).
Proof.
  destruct (timer_queue_refines sample_queue 7 20 sample_queue_ok) as ((q' & He & _ & Hd) & _).
  exists q'. split; [exact He|]. split; [|exact Hd].
  vm_compute in He. injection He as <-. reflexivity.
Defined.

Lemma timer_expiry_witness :
  exists q', expire sample_queue 4 = Ok (q', [(7, 3); (2, 4)]) /\
    deadlines q' = filter (fun e => 4 < e.2) (deadlines sample_queue).
Proof.
  destruct (timer_expiry sample_queue 4 sample_queue_ok) as (q' & fired & He & _ & Hd & _).
  exists q'. split; [|exact Hd]. rewrite He. vm_compute in He. injection He as <- <-. reflexivity.
Defined.
