(* ===== verification/Admission.v ===== *)
(** * Connection admission per source address

    Models [src/admission.rs]: the process-wide limit of live connections per
    source.  The table is shared by every shard and every HTTP/2 task; each
    operation runs under its lock, so a step is one operation and the live
    guards are a map from guard to the source it is counted under. *)

From S2P Require Import Prelude Net.
Open Scope Z_scope.

Definition canonical_ip (ip : IpAddr) : IpAddr :=
  match ip with
  | IpV6 z => match to_ipv4_mapped z with Some v4 => IpV4 v4 | None => IpV6 z end
  | ip => ip
  end.

Record Inner := {
  max_per_ip : nat;
  counts : gmap IpAddr nat;
}.

Definition limiter_new (max : nat) : Inner := {| max_per_ip := max; counts := ∅ |}.

Definition set_counts (i : Inner) (m : gmap IpAddr nat) : Inner :=
  {| max_per_ip := max_per_ip i; counts := m |}.

(** The source of the new guard, or [None].  The entry exists afterwards even
    when the limit refuses it. *)
Definition try_acquire (i : Inner) (source : IpAddr) : Inner * option IpAddr :=
  let source := canonical_ip source in
  let count := default 0%nat (counts i !! source) in
  if bool_decide (max_per_ip i <= count)%nat then (set_counts i (<[source := count]> (counts i)), None)
  else (set_counts i (<[source := S count]> (counts i)), Some source).

(** Moves the guard counted under [current]; returns its source afterwards and
    the verdict. *)
Definition try_rebind (i : Inner) (current source : IpAddr) : result unit (Inner * IpAddr * bool) :=
  let source := canonical_ip source in
  if bool_decide (source = current) then Ok (i, current, true) else
  if negb (match counts i !! current with Some count => bool_decide (0 < count)%nat | None => false end)
  then Ok (i, current, false) else
  if bool_decide (max_per_ip i <= default 0%nat (counts i !! source))%nat then Ok (i, current, false) else
  let m := <[source := S (default 0%nat (counts i !! source))]> (counts i) in
  match m !! current with
  | None => Panic
  | Some previous =>
      if bool_decide (previous = 0%nat) then Panic else
      let previous := (previous - 1)%nat in
      let m := <[current := previous]> m in
      let m := if bool_decide (previous = 0%nat) then delete current m else m in
      Ok (set_counts i m, source, true)
  end.

(** [Drop]: subtracting from zero would overflow. *)
Definition drop_admission (i : Inner) (source : IpAddr) : result unit Inner :=
  match counts i !! source with
  | None => Ok i
  | Some count =>
      if bool_decide (count = 0%nat) then Panic else
      let count := (count - 1)%nat in
      let m := <[source := count]> (counts i) in
      Ok (set_counts i (if bool_decide (count = 0%nat) then delete source m else m))
  end.

(** ** Runs of the limiter *)

Record Admissions := {
  limiter : Inner;
  guards : gmap nat IpAddr;
}.

Inductive admission_step : Admissions -> Admissions -> Prop :=
| step_acquire s g source i src :
    guards s !! g = None -> try_acquire (limiter s) source = (i, Some src) ->
    admission_step s {| limiter := i; guards := <[g := src]> (guards s) |}
| step_refuse s source i :
    try_acquire (limiter s) source = (i, None) ->
    admission_step s {| limiter := i; guards := guards s |}
| step_rebind s g current source i src verdict :
    guards s !! g = Some current -> try_rebind (limiter s) current source = Ok (i, src, verdict) ->
    admission_step s {| limiter := i; guards := <[g := src]> (guards s) |}
| step_drop s g source i :
    guards s !! g = Some source -> drop_admission (limiter s) source = Ok i ->
    admission_step s {| limiter := i; guards := delete g (guards s) |}.

(** The guards counted under a source. *)
Definition live (gs : gmap nat IpAddr) (source : IpAddr) : gset nat :=
  dom (filter (fun e => e.2 = source) gs).

(** Every entry counts the live guards of its source, of which there are some,
    and no source has more than the limit. *)
Definition admissions_ok (s : Admissions) : Prop :=
  (0 < max_per_ip (limiter s))%nat /\
  (forall a, match counts (limiter s) !! a with
             | Some n => n = size (live (guards s) a) /\ (0 < n <= max_per_ip (limiter s))%nat
             | None => live (guards s) a = ∅
             end).

Lemma elem_of_live gs a g : g ∈ live gs a <-> gs !! g = Some a.
Proof.
  unfold live. rewrite elem_of_dom. split.
  - intros [b Hb]. apply map_lookup_filter_Some in Hb as [Hb Ha]. simpl in Ha. by subst.
  - intros Hg. exists a. by apply map_lookup_filter_Some.
Qed.

Lemma live_insert gs g a : gs !! g = None -> live (<[g := a]> gs) a = {[g]} ∪ live gs a /\ g ∉ live gs a.
Proof.
  intros Hg. split; [|rewrite elem_of_live; congruence]. apply set_eq. intros h.
  rewrite elem_of_union, elem_of_singleton, !elem_of_live.
  destruct (decide (h = g)) as [-> |Hne]; [rewrite lookup_insert_eq; naive_solver|].
  rewrite lookup_insert_ne by done. naive_solver.
Qed.

Lemma live_insert_ne gs g a b : gs !! g = None -> a <> b -> live (<[g := a]> gs) b = live gs b.
Proof.
  intros Hg Hab. apply set_eq. intros h. rewrite !elem_of_live.
  destruct (decide (h = g)) as [-> |Hne]; [rewrite lookup_insert_eq; naive_solver|by rewrite lookup_insert_ne].
Qed.

Lemma live_delete gs g a : gs !! g = Some a -> live (delete g gs) a = live gs a ∖ {[g]} /\ g ∈ live gs a.
Proof.
  intros Hg. split; [|by rewrite elem_of_live]. apply set_eq. intros h.
  rewrite elem_of_difference, elem_of_singleton, !elem_of_live, lookup_delete_Some. naive_solver.
Qed.

Lemma live_delete_ne gs g a b : gs !! g = Some a -> a <> b -> live (delete g gs) b = live gs b.
Proof.
  intros Hg Hab. apply set_eq. intros h. rewrite !elem_of_live, lookup_delete_Some. naive_solver.
Qed.

Lemma size_add (X : gset nat) g : g ∉ X -> size ({[g]} ∪ X) = S (size X).
Proof. intros Hg. rewrite size_union, size_singleton by set_solver. done. Qed.
Lemma size_remove (X : gset nat) g : g ∈ X -> size X = S (size (X ∖ {[g]})).
Proof.
  intros Hg. rewrite size_difference by set_solver. rewrite size_singleton.
  assert (size X <> 0%nat); [|lia]. apply size_non_empty_iff. set_solver.
Qed.

(** [n] counts the guards of [a] in [gs]. *)
Definition counted (max : nat) (n : option nat) (X : gset nat) : Prop :=
  match n with
  | Some n => n = size X /\ (0 < n <= max)%nat
  | None => X = ∅
  end.

Lemma counted_default max n X : counted max n X -> default 0%nat n = size X /\ (size X <= max)%nat.
Proof.
  destruct n as [n|]; simpl; [lia|]. intros ->. rewrite size_empty. lia.
Qed.

Lemma counted_add max n X g :
  counted max n X -> (default 0%nat n < max)%nat -> g ∉ X ->
  counted max (Some (S (default 0%nat n))) ({[g]} ∪ X).
Proof.
  intros Hn Hlt Hg. destruct (counted_default _ _ _ Hn) as [Hd _]. simpl. rewrite size_add by done. lia.
Qed.

(** Decrementing a count, with removal at zero, as the source does it. *)
Lemma counted_remove max n X g :
  counted max (Some n) X -> g ∈ X ->
  counted max (if bool_decide (n - 1 = 0)%nat then None else Some (n - 1)%nat) (X ∖ {[g]}).
Proof.
  intros [-> Hn] Hg. pose proof (size_remove X g Hg). case_bool_decide; simpl; [|lia].
  apply leibniz_equiv, size_empty_inv. lia.
Qed.

Lemma decrement_lookup (m : gmap IpAddr nat) a n b :
  (if bool_decide (n = 0%nat) then delete a (<[a := n]> m) else <[a := n]> m) !! b
  = if decide (a = b) then (if bool_decide (n = 0%nat) then None else Some n) else m !! b.
Proof.
  case_bool_decide; case_decide; subst; by simplify_map_eq.
Qed.

Lemma acquire_ok s source i src g :
  admissions_ok s -> guards s !! g = None -> try_acquire (limiter s) source = (i, Some src) ->
  admissions_ok {| limiter := i; guards := <[g := src]> (guards s) |} /\ src = canonical_ip source.
Proof.
  intros [Hm Hc] Hg. unfold try_acquire. case_bool_decide as Hle; intros H; [done|]. simplify_eq.
  split; [|done]. split; [done|]. intros a. simpl.
  destruct (decide (canonical_ip source = a)) as [<- |Hne].
  - rewrite lookup_insert_eq. destruct (live_insert (guards s) g (canonical_ip source) Hg) as [-> Hn].
    apply (counted_add _ _ _ _ (Hc _)); [lia|done].
  - rewrite lookup_insert_ne, live_insert_ne by done. apply Hc.
Qed.

Lemma refuse_ok s source i :
  admissions_ok s -> try_acquire (limiter s) source = (i, None) -> i = limiter s.
Proof.
  intros [Hm Hc]. unfold try_acquire. case_bool_decide as Hle; intros H; simplify_eq.
  specialize (Hc (canonical_ip source)).
  destruct (counts (limiter s) !! canonical_ip source) as [n|] eqn:Hn; simpl in *; [|lia].
  unfold set_counts. rewrite insert_id by done. by destruct (limiter s).
Qed.

Lemma drop_ok s g source :
  admissions_ok s -> guards s !! g = Some source ->
  exists i, drop_admission (limiter s) source = Ok i /\
    admissions_ok {| limiter := i; guards := delete g (guards s) |}.
Proof.
  intros [Hm Hc] Hg. destruct (live_delete _ _ _ Hg) as [Hl Hin]. unfold drop_admission.
  pose proof (Hc source) as Hs. destruct (counts (limiter s) !! source) as [n|] eqn:Hn.
  2: { rewrite Hs in Hin. set_solver. }
  rewrite bool_decide_false by lia. eexists. split; [done|]. split; [done|]. intros a. simpl.
  rewrite decrement_lookup. case_decide as Ha.
  - subst a. rewrite Hl. by apply counted_remove.
  - rewrite (live_delete_ne _ _ source) by done. apply Hc.
Qed.

Lemma rebind_ok s g current source :
  admissions_ok s -> guards s !! g = Some current ->
  exists i src verdict, try_rebind (limiter s) current source = Ok (i, src, verdict) /\
    admissions_ok {| limiter := i; guards := <[g := src]> (guards s) |} /\
    src = (if verdict then canonical_ip source else current) /\ (verdict = false -> i = limiter s).
Proof.
  intros Hok Hg. pose proof Hok as [Hm Hc]. destruct (live_delete _ _ _ Hg) as [Hl Hin]. unfold try_rebind.
  assert (admissions_ok {| limiter := limiter s; guards := <[g := current]> (guards s) |}) as Hsame.
  { rewrite insert_id by done. by destruct s. }
  case_bool_decide as Heq. { exists (limiter s), current, true. rewrite Heq. by split_and!. }
  pose proof (Hc current) as Hcur. destruct (counts (limiter s) !! current) as [n|] eqn:Hn.
  2: { rewrite Hcur in Hin. set_solver. }
  rewrite bool_decide_true by lia. simpl. case_bool_decide as Hfull.
  { exists (limiter s), current, false. by split_and!. }
  rewrite lookup_insert_ne, Hn by done. rewrite bool_decide_false by lia.
  eexists _, _, true. split; [done|]. split_and!; [|done|done]. split; [done|]. intros a. simpl.
  rewrite decrement_lookup, <- (insert_delete_eq (guards s)).
  assert (delete g (guards s) !! g = None) as Hdel by apply lookup_delete_eq.
  case_decide as Ha.
  - subst a. rewrite live_insert_ne, Hl by done. by apply counted_remove.
  - destruct (decide (canonical_ip source = a)) as [<- |Hne].
    + rewrite lookup_insert_eq. destruct (live_insert _ _ (canonical_ip source) Hdel) as [-> Hn'].
      rewrite (live_delete_ne _ _ current) in * by done. apply (counted_add _ _ _ _ (Hc _)); [lia|done].
    + rewrite lookup_insert_ne by done. rewrite live_insert_ne by done.
      rewrite (live_delete_ne _ _ current) by done. apply Hc.
Qed.

Lemma admission_step_ok s s' : admissions_ok s -> admission_step s s' -> admissions_ok s'.
Proof.
  intros Hok Hs. destruct Hs as [s g source i src Hg Ha|s source i Ha|s g current source i src v Hg Hr|s g source i Hg Hd].
  - by eapply acquire_ok.
  - rewrite (refuse_ok s source i) by done. by destruct s.
  - destruct (rebind_ok s g current source Hok Hg) as (i' & src' & v' & E & H & _). rewrite Hr in E. by simplify_eq.
  - destruct (drop_ok s g source Hok Hg) as (i' & E & H). rewrite Hd in E. by simplify_eq.
Qed.

Definition admissions_new (max : nat) : Admissions := {| limiter := limiter_new max; guards := ∅ |}.

Lemma reachable_admissions_ok max s : (0 < max)%nat -> rtc admission_step (admissions_new max) s -> admissions_ok s.
Proof.
  intros Hmax Hr. assert (admissions_ok (admissions_new max)) as H0.
  { split; [done|]. intros a. simpl. rewrite lookup_empty. apply set_eq. intros g.
    rewrite elem_of_live. simpl. rewrite lookup_empty. set_solver. }
  revert H0. induction Hr; eauto using admission_step_ok.
Qed.

(** The per-source limit holds through every acquire, rebind and drop.  In
    every reachable state of a limiter with a positive limit, the table holds for
    each canonical source exactly the number of its live guards, no entry is left
    without a guard, and no source exceeds the limit; dropping or rebinding a live
    guard never panics, a refused rebind changes nothing, and a new connection is
    admitted exactly when its source, in either spelling, is below the limit. *)
Theorem admission_limit (max : nat) (s : Admissions) :
  (0 < max)%nat -> rtc admission_step (admissions_new max) s ->
  (forall a, default 0%nat (counts (limiter s) !! a) = size (live (guards s) a)) /\
  (forall a, counts (limiter s) !! a <> Some 0%nat) /\
  (forall a, (size (live (guards s) a) <= max_per_ip (limiter s))%nat) /\
  (forall source, (try_acquire (limiter s) source).2
     = if bool_decide (size (live (guards s) (to_canonical source)) < max_per_ip (limiter s))%nat
       then Some (to_canonical source) else None) /\
  (forall g current source, guards s !! g = Some current ->
     drop_admission (limiter s) current <> Panic /\
     exists i src verdict, try_rebind (limiter s) current source = Ok (i, src, verdict) /\
       (verdict = true -> src = to_canonical source) /\ (verdict = false -> i = limiter s /\ src = current)).
Proof.
  intros Hmax Hr. pose proof (reachable_admissions_ok max s Hmax Hr) as Hok. pose proof Hok as [Hm Hc].
  assert (forall ip, canonical_ip ip = to_canonical ip) as Hcan by (by intros []).
  split_and!.
  - intros a. apply (counted_default _ _ _ (Hc a)).
  - intros a Ha. specialize (Hc a). rewrite Ha in Hc. lia.
  - intros a. apply (counted_default _ _ _ (Hc a)).
  - intros source. destruct (counted_default _ _ _ (Hc (canonical_ip source))) as [Hd _].
    unfold try_acquire. rewrite Hcan in *. rewrite Hd.
    case_bool_decide; simpl; [by rewrite bool_decide_false by lia|by rewrite bool_decide_true by lia].
  - intros g current source Hg. split.
    + destruct (drop_ok s g current Hok Hg) as (i & -> & _). done.
    + destruct (rebind_ok s g current source Hok Hg) as (i & src & v & E & _ & Hs & Hv).
      exists i, src, v. rewrite <- Hcan. destruct v; naive_solver.
Qed.

Definition sample_admissions : Admissions :=
  {| limiter := {| max_per_ip := 1; counts := {[ IpV4 0x0a000001 := 1%nat ]} |};
     guards := {[ 0%nat := IpV4 0x0a000001 ]} |}.

(** A second connection in the mapped spelling is refused. *)
Lemma admission_limit_witness :
  rtc admission_step (admissions_new 1) sample_admissions /\
  (try_acquire (limiter sample_admissions) (IpV6 (to_ipv6_mapped 0x0a000001))).2 = None.
Proof.
  assert (rtc admission_step (admissions_new 1) sample_admissions) as Hr.
  { apply rtc_once. apply (step_acquire (admissions_new 1) 0 (IpV4 0x0a000001) _ (IpV4 0x0a000001)); [done|].
    vm_compute. reflexivity. }
  split; [exact Hr|]. destruct (admission_limit 1 sample_admissions ltac:(lia) Hr) as (_ & _ & _ & H & _).
  rewrite H. vm_compute. reflexivity.
Defined.
