(* ===== verification/Listener.v ===== *)
(** * Listener addresses and listener planning

    Models [src/server/listener_address.rs], the overlap rules of two listening
    sockets, and of [src/server/validation.rs] the loopback test, the shard
    counts and [plan_listeners].  The number of cores and the operating system
    are parameters. *)

From stdpp Require Import strings.
From S2P Require Import Prelude Net Policy.
Open Scope Z_scope.

(** ** Address overlap *)

Definition address_covers (wildcard other : IpAddr) : bool :=
  match wildcard with
  | IpV4 _ => is_unspecified wildcard && is_ipv4 other
  | IpV6 _ => is_unspecified wildcard
  end.

Definition canonical_ip (ip : IpAddr) : IpAddr :=
  match ip with
  | IpV6 v6 => match to_ipv4_mapped v6 with Some v4 => IpV4 v4 | None => ip end
  | IpV4 _ => ip
  end.

Definition same_canonical_address (a b : SocketAddr) : bool :=
  let canonical_a := canonical_ip (sock_ip a) in
  let canonical_b := canonical_ip (sock_ip b) in
  if negb (bool_decide (canonical_a = canonical_b)) then false else
  match canonical_a, a, b with
  | IpV6 ip, SockV6 _ _ _ scope_a, SockV6 _ _ _ scope_b =>
      if is_unicast_link_local ip then
        bool_decide (scope_a = 0) || bool_decide (scope_b = 0) || bool_decide (scope_a = scope_b)
      else true
  | _, _, _ => true
  end.

Inductive AddressConflict := Identical | SameAddress | WildcardCovers.

Definition listen_address_conflict (a b : SocketAddr) : option AddressConflict :=
  if negb (bool_decide (sock_port a = sock_port b)) then None
  else if bool_decide (sock_port a = 0) then None
  else if bool_decide (a = b) then Some Identical
  else
    let canonical_a := canonical_ip (sock_ip a) in
    let canonical_b := canonical_ip (sock_ip b) in
    if same_canonical_address a b then Some SameAddress
    else if address_covers canonical_a canonical_b || address_covers canonical_b canonical_a
    then Some WildcardCovers
    else None.

Definition is_loopback_listener (ip : IpAddr) : bool :=
  match ip with
  | IpV4 _ => is_loopback ip
  | IpV6 v6 => match to_ipv4_mapped v6 with Some v4 => is_loopback (IpV4 v4) | None => is_loopback ip end
  end.

(** ** Planning *)

Inductive ListenerTransport := Http3 | Http2.
#[global] Instance ListenerTransport_eq_dec : EqDecision ListenerTransport.
Proof. solve_decision. Defined.

Inductive AuthMode := Basic | ClientCert.
#[global] Instance AuthMode_eq_dec : EqDecision AuthMode.
Proof. solve_decision. Defined.

Record BasicUser := { user_name : string; user_hash : string }.

Record AuthSection := {
  enabled : bool;
  mode : AuthMode;
  stealth : bool;
  username : string;
  password_hash : string;
  users : list BasicUser;
}.

Definition basic_enabled (a : AuthSection) : bool := enabled a && bool_decide (mode a = Basic).
Definition client_cert_enabled (a : AuthSection) : bool := enabled a && bool_decide (mode a = ClientCert).

Record ListenerSection := {
  listen_addr : SocketAddr;
  transport : ListenerTransport;
  shards : Z;
  max_datagram_size : option Z;
  tcp_targets : option TargetRestrictionSection;
  udp_targets : option TargetRestrictionSection;
  auth : AuthSection;
}.

Definition MAX_SHARDS : Z := 32.

Inductive PlanError :=
| NoListeners
| Conflict (existing new : SocketAddr) (c : AddressConflict)
| Http2Shards (a : SocketAddr)
| AutoShardsShared (a : SocketAddr)
| ReuseportNeeded (a : SocketAddr) (shards : Z)
| TcpTargets (a : SocketAddr) (e : PolicyError)
| UdpTargets (a : SocketAddr) (e : PolicyError)
| TooManyShards (listeners : nat) (total : Z).

Section planning.
  Context {N4 N6 : Type} `{!NetOps N4, !NetOps N6, !NetNew N4}.
  Context (parse_net : string -> option (IpNet N4 N6)).
  (** [cfg!(target_os = "linux")] and [available_parallelism()]. *)
  Context (linux : bool) (cores : option Z).

Record ResolvedListener := {
  r_listen_addr : SocketAddr;
  r_transport : ListenerTransport;
  r_shards : Z;
  r_max_datagram_size : option Z;
  r_tcp_targets : option (TargetRestrictions N4 N6);
  r_udp_targets : option (TargetRestrictions N4 N6);
  r_auth : AuthSection;
}.

Definition effective_quic_max_datagram_size (l : ResolvedListener) (default_ : Z) : Z :=
  default default_ (r_max_datagram_size l).

Definition resolve_shard_count (configured : Z) : Z :=
  if bool_decide (configured > 0) then Z.min configured MAX_SHARDS
  else if negb linux then 1
  else Z.min (default 1 cores) MAX_SHARDS.

(** The first plan of the same transport that the address conflicts with. *)
Fixpoint find_conflict (plans : list ResolvedListener) (l : ListenerSection)
    : option (SocketAddr * AddressConflict) :=
  match plans with
  | [] => None
  | plan :: plans' =>
      let found :=
        if negb (bool_decide (r_transport plan = transport l)) then None
        else listen_address_conflict (r_listen_addr plan) (listen_addr l) in
      match found with
      | Some c => Some (r_listen_addr plan, c)
      | None => find_conflict plans' l
      end
  end.

Definition resolve_targets (e : PolicyError -> PlanError) (s : option TargetRestrictionSection)
    : result PlanError (option (TargetRestrictions N4 N6)) :=
  match s with
  | None => Ok None
  | Some section => r ← map_err e (from_section parse_net section); Ok (Some r)
  end.

(** One iteration of the loop over the listeners, of which there are [count]. *)
Definition plan_listener (count : nat) (plans : list ResolvedListener) (total : Z) (l : ListenerSection)
    : result PlanError (list ResolvedListener * Z) :=
  match find_conflict plans l with
  | Some (existing, c) => Err (Conflict existing (listen_addr l) c)
  | None =>
      if bool_decide (transport l = Http2) && negb (bool_decide (shards l = 1))
      then Err (Http2Shards (listen_addr l))
      else if bool_decide (transport l = Http3) && bool_decide (shards l = 0) && bool_decide (1 < count)%nat
      then Err (AutoShardsShared (listen_addr l))
      else
        let shards := if bool_decide (transport l = Http3) then resolve_shard_count (shards l) else 1 in
        if bool_decide (transport l = Http3) && bool_decide (shards > 1) && negb linux
        then Err (ReuseportNeeded (listen_addr l) shards)
        else
          let total := if bool_decide (transport l = Http3) then total + shards else total in
          tcp ← resolve_targets (TcpTargets (listen_addr l)) (tcp_targets l);
          udp ← resolve_targets (UdpTargets (listen_addr l)) (udp_targets l);
          Ok (plans ++ [{| r_listen_addr := listen_addr l; r_transport := transport l; r_shards := shards;
                           r_max_datagram_size := max_datagram_size l; r_tcp_targets := tcp;
                           r_udp_targets := udp; r_auth := auth l |}], total)
  end.

Fixpoint plan_loop (count : nat) (plans : list ResolvedListener) (total : Z) (ls : list ListenerSection)
    : result PlanError (list ResolvedListener * Z) :=
  match ls with
  | [] => Ok (plans, total)
  | l :: ls' => s ← plan_listener count plans total l; plan_loop count s.1 s.2 ls'
  end.

Definition plan_listeners (listeners : list ListenerSection) : result PlanError (list ResolvedListener) :=
  if bool_decide (listeners = []) then Err NoListeners else
  s ← plan_loop (length listeners) [] 0 listeners;
  let '(plans, total_shards) := s : list ResolvedListener * Z in
  if bool_decide (total_shards > MAX_SHARDS) then Err (TooManyShards (length plans) total_shards)
  else Ok plans.

Definition basic_shard_count (plans : list ResolvedListener) : Z :=
  foldr Z.add 0 (r_shards <$> filter (fun p => basic_enabled (r_auth p) = true) plans).
End planning.
Arguments ResolvedListener : clear implicits.

(** ** What a listening socket receives

    A packet is addressed to a canonical destination and arrives on a link.  An
    IPv4 wildcard takes every IPv4 destination, [::] takes every destination, and
    a link-local address with a scope takes its packets of that link only. *)

Definition receives (s : SocketAddr) (dst : IpAddr) (link : Z) : Prop :=
  let ip := canonical_ip (sock_ip s) in
  if is_unspecified ip then (is_ipv4 ip = true -> is_ipv4 dst = true)
  else dst = ip /\
    match ip, s with
    | IpV6 v6, SockV6 _ _ _ scope => is_unicast_link_local v6 = true -> scope = 0 \/ scope = link
    | _, _ => True
    end.

Lemma canonical_scope s v6 :
  canonical_ip (sock_ip s) = IpV6 v6 -> exists port flow scope, s = SockV6 v6 port flow scope.
Proof.
  destruct s as [z p|z p f sc]; simpl; [done|]. destruct (to_ipv4_mapped z); [done|].
  intros [= ->]. by eexists _, _, _.
Qed.

Lemma address_covers_receives a b link :
  address_covers (canonical_ip (sock_ip a)) (canonical_ip (sock_ip b)) = true ->
  receives a (canonical_ip (sock_ip b)) link.
Proof.
  unfold address_covers, receives. destruct (canonical_ip (sock_ip a)) as [z|z].
  - intros [-> Hb]%andb_true_iff. auto.
  - intros ->. done.
Qed.

(** A socket receives what it is bound to, on the link of its scope. *)
Definition link_of (s : SocketAddr) : Z := match s with SockV6 _ _ _ scope => scope | SockV4 _ _ => 0 end.

Lemma receives_self s link :
  link_of s = 0 \/ link_of s = link -> receives s (canonical_ip (sock_ip s)) link.
Proof.
  intros Hl. unfold receives. destruct (is_unspecified _); [done|]. split; [done|].
  destruct (canonical_ip (sock_ip s)) as [z|z] eqn:Hc; [done|].
  apply canonical_scope in Hc as (p & f & sc & ->). auto.
Qed.

Lemma same_canonical_receives a b :
  same_canonical_address a b = true -> exists dst link, receives a dst link /\ receives b dst link.
Proof.
  unfold same_canonical_address. case_bool_decide as He; simpl; [|done]. intros Hs.
  exists (canonical_ip (sock_ip a)), (if bool_decide (link_of a = 0) then link_of b else link_of a).
  destruct (canonical_ip (sock_ip a)) as [z|z] eqn:Ha.
  - unfold receives. rewrite Ha, <- He. by destruct (is_unspecified (IpV4 z)).
  - symmetry in He. unfold receives. rewrite He, Ha. apply canonical_scope in Ha as (pa & fa & sa & ->).
    apply canonical_scope in He as (pb & fb & sb & ->). simpl link_of. destruct (is_unspecified (IpV6 z)); [done|].
    destruct (is_unicast_link_local z); [|done].
    rewrite !orb_true_iff, !bool_decide_eq_true in Hs. case_bool_decide; naive_solver.
Qed.

(** A wildcard and a socket that receive the same packet. *)
Lemma wildcard_covers a b dst link :
  is_unspecified (canonical_ip (sock_ip a)) = true -> receives a dst link -> receives b dst link ->
  address_covers (canonical_ip (sock_ip a)) (canonical_ip (sock_ip b)) = true \/
  address_covers (canonical_ip (sock_ip b)) (canonical_ip (sock_ip a)) = true.
Proof.
  intros Hu. unfold receives, address_covers. rewrite Hu.
  destruct (canonical_ip (sock_ip a)) as [za|za]; [|by left]. intros Hd Hb.
  destruct (is_unspecified (canonical_ip (sock_ip b))) eqn:Hub.
  - destruct (canonical_ip (sock_ip b)); [by left|by right].
  - destruct Hb as [-> _]. left. by rewrite Hd.
Qed.

Lemma receives_conflict a b dst link :
  receives a dst link -> receives b dst link ->
  same_canonical_address a b = true \/
  address_covers (canonical_ip (sock_ip a)) (canonical_ip (sock_ip b)) = true \/
  address_covers (canonical_ip (sock_ip b)) (canonical_ip (sock_ip a)) = true.
Proof.
  intros Ha Hb. destruct (is_unspecified (canonical_ip (sock_ip a))) eqn:Hua.
  { right. by eapply wildcard_covers. }
  destruct (is_unspecified (canonical_ip (sock_ip b))) eqn:Hub.
  { right. apply or_comm. by eapply wildcard_covers. }
  left. unfold receives in *. rewrite Hua in Ha. rewrite Hub in Hb. destruct Ha as [-> Ha], Hb as [Heq Hb].
  unfold same_canonical_address. rewrite bool_decide_true by done. simpl.
  destruct (canonical_ip (sock_ip a)) as [z|z] eqn:Hca; [done|].
  apply canonical_scope in Hca as (pa & fa & sa & ->). symmetry in Heq. rewrite Heq in Hb.
  apply canonical_scope in Heq as (pb & fb & sb & ->).
  destruct (is_unicast_link_local z); [|done].
  rewrite !orb_true_iff, !bool_decide_eq_true. destruct (Ha eq_refl), (Hb eq_refl); naive_solver.
Qed.

Lemma conflict_spec a b :
  listen_address_conflict a b <> None <->
  sock_port a = sock_port b /\ sock_port a <> 0 /\ exists dst link, receives a dst link /\ receives b dst link.
Proof.
  unfold listen_address_conflict. case_bool_decide as Hp; simpl; [|naive_solver].
  case_bool_decide as H0; [naive_solver|]. split.
  - intros Hc. split_and!; [done|done|]. case_bool_decide as Heq.
    { subst b. eexists _, (link_of a). split; apply receives_self; auto. }
    destruct (same_canonical_address a b) eqn:Hs; [by apply same_canonical_receives|].
    destruct (address_covers _ _) eqn:Hab; simpl in Hc.
    { eexists _, (link_of b). split; [by apply address_covers_receives|apply receives_self; auto]. }
    destruct (address_covers _ _) eqn:Hba in Hc; [|done].
    eexists _, (link_of a). split; [apply receives_self; auto|by apply address_covers_receives].
  - intros (_ & _ & dst & link & Ha & Hb). case_bool_decide; [done|].
    destruct (receives_conflict a b dst link Ha Hb) as [-> |[-> | ->]]; [done| |];
      destruct (same_canonical_address a b); rewrite ?orb_true_r; done.
Qed.

Lemma conflict_sym a b : listen_address_conflict a b <> None -> listen_address_conflict b a <> None.
Proof.
  rewrite !conflict_spec. intros (Hp & H0 & dst & link & Ha & Hb).
  split_and!; [done|congruence|by exists dst, link].
Qed.

Section plan_facts.
  Context {N4 N6 : Type} `{NetLaws 32 N4, NetLaws 128 N6, !NetNew N4, !NetNewLaws 32 N4}.
  Context (parse_net : string -> option (IpNet N4 N6)) (linux : bool) (cores : option Z).
  Context (Hcores : forall n, cores = Some n -> 1 <= n).
  Notation plan := (ResolvedListener N4 N6).

(** The total of the QUIC shards. *)
Definition quic_shards (plans : list plan) : Z :=
  foldr Z.add 0 ((fun p => if bool_decide (r_transport p = Http3) then r_shards p else 0) <$> plans).

Definition contend (p q : plan) : Prop :=
  r_transport p = r_transport q /\ sock_port (r_listen_addr p) = sock_port (r_listen_addr q) /\
  sock_port (r_listen_addr p) <> 0 /\
  exists dst link, receives (r_listen_addr p) dst link /\ receives (r_listen_addr q) dst link.

Definition plan_of (l : ListenerSection) (p : plan) : Prop :=
  r_listen_addr p = listen_addr l /\ r_transport p = transport l /\
  r_max_datagram_size p = max_datagram_size l /\ r_auth p = auth l /\
  1 <= r_shards p <= MAX_SHARDS /\ (transport l = Http2 -> shards l = 1 /\ r_shards p = 1) /\
  (transport l = Http3 -> shards l > 0 -> r_shards p = Z.min (shards l) MAX_SHARDS).

Definition plans_ok (plans : list plan) (total : Z) : Prop :=
  total = quic_shards plans /\
  forall i j p q, (i < j)%nat -> plans !! i = Some p -> plans !! j = Some q -> ~ contend p q.

Lemma resolve_shard_count_range n : 1 <= resolve_shard_count linux cores n <= MAX_SHARDS.
Proof.
  unfold resolve_shard_count, MAX_SHARDS. case_bool_decide; [lia|]. destruct linux; simpl; [|lia].
  destruct cores as [c|]; simpl; [specialize (Hcores c eq_refl); lia|lia].
Qed.

Lemma find_conflict_None (plans : list plan) l i p :
  find_conflict plans l = None -> plans !! i = Some p -> r_transport p = transport l ->
  listen_address_conflict (r_listen_addr p) (listen_addr l) = None.
Proof.
  revert i. induction plans as [|q plans IH]; intros i Hf Hi Ht; [done|]. simpl in Hf.
  destruct i as [|i]; simplify_eq/=.
  - rewrite bool_decide_true in Hf by done. simpl in Hf.
    by destruct (listen_address_conflict (r_listen_addr p) (listen_addr l)).
  - apply (IH i); [|done|done]. destruct (negb _); [done|].
    by destruct (listen_address_conflict (r_listen_addr q) (listen_addr l)).
Qed.

Lemma resolve_targets_no_panic e s : resolve_targets parse_net e s <> Panic.
Proof.
  destruct s as [s|]; [|done]. unfold resolve_targets.
  pose proof (from_section_spec parse_net s) as Hs. by destruct (from_section parse_net s).
Qed.

Lemma quic_shards_app plans p :
  quic_shards (plans ++ [p]) = quic_shards plans + if bool_decide (r_transport p = Http3) then r_shards p else 0.
Proof.
  unfold quic_shards. rewrite fmap_app, foldr_app. simpl.
  induction (_ <$> plans) as [|z zs IH]; simpl; [lia|]. rewrite IH. lia.
Qed.

Lemma plan_listener_spec count plans total l :
  plans_ok plans total ->
  post (plan_listener parse_net linux cores count plans total l) (fun s =>
    exists p, s.1 = plans ++ [p] /\ plan_of l p /\ plans_ok s.1 s.2).
Proof.
  intros [Ht Hd]. unfold plan_listener. destruct (find_conflict plans l) as [[? ?]|] eqn:Hf; [done|].
  case_match eqn:Hh2; [done|]. case_match; [done|]. case_match; [done|].
  pose proof (resolve_targets_no_panic (TcpTargets (listen_addr l)) (tcp_targets l)) as Hn1.
  pose proof (resolve_targets_no_panic (UdpTargets (listen_addr l)) (udp_targets l)) as Hn2.
  destruct (resolve_targets parse_net (TcpTargets _) _) as [tcp| |]; [|done|done].
  destruct (resolve_targets parse_net (UdpTargets _) _) as [udp| |]; [|done|done].
  cbn [mbind result_bind post fst snd]. eexists. split; [done|].
  pose proof (resolve_shard_count_range (shards l)) as Hr. split.
  - unfold plan_of; simpl. split_and!; try done.
    + case_bool_decide; unfold MAX_SHARDS in *; lia.
    + case_bool_decide; unfold MAX_SHARDS in *; lia.
    + intros Ht2. rewrite Ht2 in *. split; [|done].
      destruct (bool_decide (shards l = 1)) eqn:Hs1; [by apply bool_decide_eq_true in Hs1|done].
    + intros Ht3 Hs. rewrite bool_decide_true by done. unfold resolve_shard_count. by rewrite bool_decide_true.
  - split.
    + rewrite quic_shards_app, <- Ht. simpl. case_bool_decide; lia.
    + intros i j p q Hij Hi Hj Hc. rewrite lookup_app_Some in Hj. destruct Hj as [Hj|[Hlen Hj]].
      * rewrite lookup_app_l in Hi by (apply lookup_lt_Some in Hj; lia). by apply (Hd i j p q).
      * apply list_lookup_singleton_Some in Hj as [Hj0 <-]. rewrite lookup_app_l in Hi by lia.
        destruct Hc as (Hct & Hc). simpl in *. by apply conflict_spec in Hc; apply Hc, (find_conflict_None plans l i).
Qed.

Lemma plan_loop_spec count plans total ls :
  plans_ok plans total ->
  post (plan_loop parse_net linux cores count plans total ls) (fun s =>
    exists new, s.1 = plans ++ new /\ Forall2 plan_of ls new /\ plans_ok s.1 s.2).
Proof.
  revert plans total. induction ls as [|l ls IH]; intros plans total Hok; simpl.
  - exists []. rewrite app_nil_r. split_and!; [done|constructor|done].
  - apply post_bind. eapply post_mono; [by apply plan_listener_spec|].
    intros [ps t] (p & Hp & Hpl & Hok'). simpl in *. eapply post_mono; [by apply IH|].
    intros s (new & Hs & Hf & Hok2). exists (p :: new). rewrite Hs, Hp, <- app_assoc.
    split_and!; [done|by constructor|]. by rewrite Hs, Hp, <- app_assoc in Hok2.
Qed.

(** C37: two sockets conflict exactly when some packet would reach both.  For
    listeners of one transport and non-zero port, the overlap test reports a
    conflict, in whichever order and spelling, exactly when there is a
    destination and a link on which both would receive, wildcards and scoped
    link-local addresses included. *)
Theorem listener_conflict_exact (a b : SocketAddr) :
  (listen_address_conflict a b <> None <->
   sock_port a = sock_port b /\ sock_port a <> 0 /\
   exists dst link, receives a dst link /\ receives b dst link) /\
  (listen_address_conflict a b = None <-> listen_address_conflict b a = None).
Proof.
  split; [apply conflict_spec|]. pose proof (conflict_sym a b) as Hab. pose proof (conflict_sym b a) as Hba.
  split; intros He; destruct (listen_address_conflict _ _) eqn:E in |- *; try done; exfalso.
  - by apply Hba; [rewrite E|].
  - by apply Hab; [rewrite E|].
Qed.

(** An accepted plan is servable.  Planning never panics; the plans follow
    the configured listeners one for one with their addresses, transports and
    authentication; no packet reaches two listeners of one transport; every
    shard count is between one and the cap, HTTP/2 listeners have one, and the
    QUIC shards together stay within the cap. *)
Theorem plan_servable (ls : list ListenerSection) :
  post (plan_listeners parse_net linux cores ls) (fun plans =>
    Forall2 plan_of ls plans /\ ls <> [] /\ quic_shards plans <= MAX_SHARDS /\
    forall i j p q, i <> j -> plans !! i = Some p -> plans !! j = Some q -> ~ contend p q).
Proof.
  unfold plan_listeners. case_bool_decide as Hne; [done|]. apply post_bind.
  eapply post_mono; [apply plan_loop_spec; by split|]. intros [plans total] (new & Hs & Hf & Ht & Hd).
  simpl in *. subst new. case_bool_decide as Hmax; [done|]. split_and!; [done|done|lia|].
  intros i j p q Hij Hi Hj Hc. destruct (decide (i < j)%nat); [by eapply (Hd i j)|].
  apply (Hd j i q p); [lia|done|done|]. destruct Hc as (? & ? & ? & dst & link & ? & ?).
  split_and!; [done|done|congruence|by exists dst, link].
Qed.
End plan_facts.

(** ** Witnesses *)

Definition sample_listener (a : SocketAddr) (t : ListenerTransport) (n : Z) : ListenerSection :=
  {| listen_addr := a; transport := t; shards := n; max_datagram_size := None; tcp_targets := None;
     udp_targets := None;
     auth := {| enabled := true; mode := Basic; stealth := true; username := "u"; password_hash := "h"; users := [] |} |}.

(** 0.0.0.0:443 over both transports, and 10.0.0.1:8443. *)
Definition sample_listeners : list ListenerSection :=
  [sample_listener (SockV4 0 443) Http3 4; sample_listener (SockV4 0 443) Http2 1;
   sample_listener (SockV4 0x0a000001 8443) Http3 2].

Lemma plan_servable_witness :
  exists plans, plan_listeners sample_parse true (Some 8) sample_listeners = Ok plans /\
    quic_shards plans = 6 /\ quic_shards plans <= MAX_SHARDS.
Proof.
  assert (forall n, Some 8 = Some n -> 1 <= n) as Hc by (intros n E; injection E as <-; lia).
  pose proof (plan_servable sample_parse true (Some 8) Hc sample_listeners) as H.
  destruct (plan_listeners sample_parse true (Some 8) sample_listeners) as [plans|e|] eqn:E.
  - exists plans. split; [reflexivity|]. simpl in H. destruct H as (_ & _ & H & _). split; [|exact H].
    vm_compute in E. injection E as <-. vm_compute. reflexivity.
  - exfalso. vm_compute in E. discriminate E.
  - exfalso. exact H.
Defined.
