(* ===== verification/Retry.v ===== *)
(** * QUIC Retry tokens

    Models [src/server/retry.rs]: the plaintext layout of a token, minting,
    validation and the decision to require a Retry.  The AEAD of the ring crate,
    keyed when the codec is made, is a pair of functions with the laws of an
    authenticated cipher; the random nonce and the clock are arguments. *)

From S2P Require Import Prelude Net.
Open Scope Z_scope.

Definition TOKEN_VERSION : Z := 1.
Definition NONCE_LEN : nat := 12.
Definition TAG_LEN : nat := 16.
Definition MIN_BODY_LEN : nat := 1 + 8 + (1 + 4) + (1 + 4 + 2 + 4) + 1 + 1.
Definition MIN_TOKEN_LEN : nat := NONCE_LEN + MIN_BODY_LEN + TAG_LEN.
(** "quic retry address validation" *)
Definition TOKEN_CONTEXT : bytes :=
  [113; 117; 105; 99; 32; 114; 101; 116; 114; 121; 32; 97; 100; 100; 114; 101; 115; 115; 32;
   118; 97; 108; 105; 100; 97; 116; 105; 111; 110].

Inductive QuicRetryMode := Adaptive | Off | Always.
#[global] Instance QuicRetryMode_eq_dec : EqDecision QuicRetryMode.
Proof. solve_decision. Defined.

Definition retry_required (mode : QuicRetryMode) (active_connections adaptive_threshold : Z) : bool :=
  match mode with
  | Off => false
  | Always => true
  | Adaptive => bool_decide (active_connections >= adaptive_threshold)
  end.

Definition canonical_ip (ip : IpAddr) : IpAddr :=
  match ip with
  | IpV6 z => match to_ipv4_mapped z with Some v4 => IpV4 v4 | None => IpV6 z end
  | ip => ip
  end.

Definition canonical_socket (address : SocketAddr) : SocketAddr :=
  match address with
  | SockV4 _ _ => address
  | SockV6 ip port _ scope =>
      match to_ipv4_mapped ip with
      | Some v4 => sock_new (IpV4 v4) port
      | None => SockV6 ip port 0 scope
      end
  end.

(** ** Fields *)

(** [checked_add] fails only where [get] would as well. *)
Definition take_field (bytes_ : bytes) (cursor len : nat) : option (bytes * nat) :=
  v ← get_range bytes_ cursor (cursor + len);
  Some (v, (cursor + len)%nat).

Definition encode_ip (ip : IpAddr) (out : bytes) : bytes :=
  match ip with
  | IpV4 z => out ++ [4] ++ be_bytes 4 z
  | IpV6 z => out ++ [6] ++ be_bytes 16 z
  end.

Definition decode_ip (body : bytes) (cursor : nat) : option (IpAddr * nat) :=
  '(v, cursor) ← take_field body cursor 1;
  family ← head v;
  if bool_decide (family = 4) then '(v, cursor) ← take_field body cursor 4; Some (IpV4 (be_val v), cursor)
  else if bool_decide (family = 6) then '(v, cursor) ← take_field body cursor 16; Some (IpV6 (be_val v), cursor)
  else None.

Definition encode_socket (address : SocketAddr) (out : bytes) : bytes :=
  let out := encode_ip (sock_ip address) out in
  let out := out ++ be_bytes 2 (sock_port address) in
  let scope_id := match address with SockV4 _ _ => 0 | SockV6 _ _ _ scope => scope end in
  out ++ be_bytes 4 scope_id.

Definition decode_socket (body : bytes) (cursor : nat) : option (SocketAddr * nat) :=
  '(ip, cursor) ← decode_ip body cursor;
  '(p, cursor) ← take_field body cursor 2;
  '(s, cursor) ← take_field body cursor 4;
  match ip with
  | IpV4 _ => if bool_decide (be_val s = 0) then Some (sock_new ip (be_val p), cursor) else None
  | IpV6 z => Some (SockV6 z (be_val p) 0 (be_val s), cursor)
  end.

(** ** The codec *)

(** [seal nonce aad plaintext] appends the tag; [open nonce aad ciphertext]. *)
Class Aead := {
  seal : bytes -> bytes -> bytes -> option bytes;
  open : bytes -> bytes -> bytes -> option bytes;
}.

(** An authenticated cipher: what is sealed opens to itself, only sealed text
    opens, and the tag takes [TAG_LEN] bytes. *)
Class AeadLaws `{Aead} : Prop := {
  seal_open n a p c : seal n a p = Some c -> open n a c = Some p;
  open_seal n a p c : bytes_ok c -> open n a c = Some p -> bytes_ok p /\ seal n a p = Some c;
  seal_bytes n a p c : bytes_ok p -> seal n a p = Some c -> bytes_ok c /\ length c = (length p + TAG_LEN)%nat;
}.

Section codec.
  Context `{Aead}.
  (** [quiche::MAX_CONN_ID_LEN] and the lifetime of a token in seconds. *)
  Context (max_conn_id_len : nat) (ttl : Z).

Definition MAX_BODY_LEN : nat := 1 + 8 + (1 + 16) + (1 + 16 + 2 + 4) + 1 + max_conn_id_len.
Definition MAX_TOKEN_LEN : nat := NONCE_LEN + MAX_BODY_LEN + TAG_LEN.

Definition mint_body (now : Z) (source local : SocketAddr) (original_dcid : bytes) : bytes :=
  let body := [TOKEN_VERSION] in
  let body := body ++ be_bytes 8 now in
  let body := encode_ip (canonical_ip (sock_ip source)) body in
  let body := encode_socket (canonical_socket local) body in
  let body := body ++ [Z.of_nat (length original_dcid) mod 256] in
  body ++ original_dcid.

(** [nonce] is what the random generator fills in, [now] the codec's age. *)
Definition mint (nonce : option bytes) (now : Z) (source local : SocketAddr) (original_dcid : bytes)
    : result unit bytes :=
  if negb (bool_decide (1 <= length original_dcid <= max_conn_id_len)%nat) then Err tt else
  nonce ← ok_or tt nonce;
  body ← ok_or tt (seal nonce TOKEN_CONTEXT (mint_body now source local original_dcid));
  Ok (nonce ++ body).

Definition validate_at (source local : SocketAddr) (token : bytes) (now : Z) : option bytes :=
  if negb (bool_decide (MIN_TOKEN_LEN <= length token <= MAX_TOKEN_LEN)%nat) then None else
  let nonce := take NONCE_LEN token in
  let ciphertext := drop NONCE_LEN token in
  body ← open nonce TOKEN_CONTEXT ciphertext;
  let cursor := 0%nat in
  '(v, cursor) ← take_field body cursor 1;
  version ← head v;
  if negb (bool_decide (version = TOKEN_VERSION)) then None else
  '(v, cursor) ← take_field body cursor 8;
  let issued := be_val v in
  if bool_decide (issued > now) || bool_decide (now - issued > ttl) then None else
  '(ip, cursor) ← decode_ip body cursor;
  if negb (bool_decide (ip = canonical_ip (sock_ip source))) then None else
  '(address, cursor) ← decode_socket body cursor;
  if negb (bool_decide (address = canonical_socket local)) then None else
  '(v, cursor) ← take_field body cursor 1;
  odcid_len ← head v;
  let odcid_len := Z.to_nat odcid_len in
  if negb (bool_decide (1 <= odcid_len <= max_conn_id_len)%nat) then None else
  '(odcid, cursor) ← take_field body cursor odcid_len;
  if negb (bool_decide (cursor = length body)) then None else
  Some odcid.

Definition validate (source local : SocketAddr) (token : bytes) (elapsed : Z) : option bytes :=
  validate_at source local token elapsed.
End codec.

#[local] Opaque be_bytes be_val.

(** ** Reading fields

    [reads body c w c'] says that [w] stands in [body] from [c] up to [c']. *)

Definition reads (body : bytes) (c : nat) (w : bytes) (c' : nat) : Prop :=
  c' = (c + length w)%nat /\ (c' <= length body)%nat /\ drop c body = w ++ drop c' body.

Lemma reads_app body c w1 w2 c' :
  reads body c (w1 ++ w2) c' <->
  reads body c w1 (c + length w1) /\ reads body (c + length w1) w2 c'.
Proof.
  unfold reads. rewrite length_app. split.
  - intros (-> & Hl & Hd).
    assert (drop (c + length w1) body = w2 ++ drop (c + (length w1 + length w2)) body) as Hd2.
    { rewrite <- drop_drop, Hd, <- app_assoc, drop_app_length. done. }
    split_and!; [done|lia|by rewrite Hd2, app_assoc, Hd|lia|lia|].
    by rewrite Hd2, Nat.add_assoc.
  - intros [(_ & Hl1 & Hd1) (-> & Hl2 & Hd2)]. split_and!; [lia|lia|].
    rewrite Hd1, Hd2, app_assoc. done.
Qed.

Lemma reads_inj body c w w' c1 c2 :
  reads body c w c1 -> reads body c w' c2 -> length w = length w' -> w = w' /\ c1 = c2.
Proof.
  intros (-> & _ & H1) (-> & _ & H2) Hl. rewrite H1 in H2.
  apply app_inj_1 in H2 as [-> _]; [done|done].
Qed.

Lemma reads_ok body c w c' : bytes_ok body -> reads body c w c' -> bytes_ok w.
Proof.
  intros Hb (_ & _ & Hd). assert (bytes_ok (drop c body)) as H by auto using bytes_ok_drop.
  rewrite Hd in H. by apply Forall_app in H as [H _].
Qed.

Lemma reads_all body w : reads body 0 w (length body) <-> body = w.
Proof.
  unfold reads. rewrite drop_all, app_nil_r, drop_0. split; [by intros (_ & _ & ->)|].
  intros ->. split_and!; lia || done.
Qed.

Lemma take_field_reads body c n v c' :
  take_field body c n = Some (v, c') <-> length v = n /\ reads body c v c'.
Proof.
  unfold take_field, get_range, reads. case_bool_decide as Hb; simpl.
  - replace (c + n - c)%nat with n by lia. split.
    + intros [= <- <-]. rewrite length_take, length_drop. split_and!; [lia|lia|lia|].
      by rewrite <- drop_drop, take_drop.
    + intros (<- & -> & Hl & ->). rewrite take_app_length. done.
  - split; [done|]. intros (<- & -> & Hl & _). destruct Hb. lia.
Qed.

Lemma head_one (v : bytes) x : length v = 1%nat -> head v = Some x <-> v = [x].
Proof. destruct v as [|y [|]]; simpl; [done| |done]. intros _. split; congruence. Qed.

(** A one-byte field. *)
Lemma byte_field body c x c' :
  (exists v, take_field body c 1 = Some (v, c') /\ head v = Some x) <-> reads body c [x] c'.
Proof.
  split.
  - intros (v & [Hl Hr]%take_field_reads & Hh). apply head_one in Hh; [|done]. by subst v.
  - intros Hr. exists [x]. split; [by apply take_field_reads|done].
Qed.

Definition ip_wire (ip : IpAddr) : bytes :=
  match ip with IpV4 z => [4] ++ be_bytes 4 z | IpV6 z => [6] ++ be_bytes 16 z end.

Lemma encode_ip_wire ip out : encode_ip ip out = out ++ ip_wire ip.
Proof. by destruct ip. Qed.

Lemma number_read body c n z c' :
  reads body c (be_bytes n z) c' -> 0 <= z < 256 ^ Z.of_nat n ->
  exists v, take_field body c n = Some (v, c') /\ be_val v = z.
Proof.
  intros Hr Hz. exists (be_bytes n z). rewrite take_field_reads, length_be_bytes.
  split; [done|]. rewrite be_val_be_bytes. by apply Z.mod_small.
Qed.

(** A fixed-width big-endian field. *)
Lemma number_field body c n z c' :
  bytes_ok body ->
  (exists v, take_field body c n = Some (v, c') /\ be_val v = z) <->
  0 <= z < 256 ^ Z.of_nat n /\ reads body c (be_bytes n z) c'.
Proof.
  intros Hb. split.
  - intros (v & [Hl Hr]%take_field_reads & <-). pose proof (reads_ok _ _ _ _ Hb Hr) as Hv.
    rewrite <- Hl at 1. split; [by apply be_val_bound|]. rewrite <- Hl. by rewrite be_bytes_be_val.
  - intros [Hz Hr]. by apply number_read.
Qed.

Lemma decode_ip_reads body c ip c' :
  bytes_ok body -> decode_ip body c = Some (ip, c') <-> ipaddr_ok ip /\ reads body c (ip_wire ip) c'.
Proof.
  intros Hb. unfold decode_ip. split.
  - rewrite bind_Some. intros ([v c1] & Ht & H). apply bind_Some in H as (f & Hf & H).
    assert (reads body c [f] c1) as Hr1 by (apply byte_field; eauto).
    assert (c1 = (c + length [f])%nat) as -> by apply Hr1.
    case_bool_decide as H4; [|case_bool_decide as H6; [|done]];
      apply bind_Some in H as ([v2 c2] & Ht2 & [= <- <-]); subst f.
    + destruct (proj1 (number_field body (c + 1) 4 (be_val v2) c2 Hb)) as [Hz Hr2]; [by exists v2|].
      split; [simpl; lia|]. apply reads_app. done.
    + destruct (proj1 (number_field body (c + 1) 16 (be_val v2) c2 Hb)) as [Hz Hr2]; [by exists v2|].
      split; [simpl; lia|]. apply reads_app. done.
  - intros [Hok Hr]. destruct ip as [z|z]; unfold ip_wire in Hr; apply reads_app in Hr as [Hr1 Hr2];
      cbn [length] in Hr1, Hr2; apply byte_field in Hr1 as (v & Hv & Hh); rewrite Hv; cbn [mbind option_bind]; rewrite Hh;
      cbn [mbind option_bind].
    + rewrite bool_decide_true by done.
      destruct (number_read _ _ _ _ _ Hr2) as (v2 & -> & <-); [simpl in Hok; lia|].
      done.
    + rewrite bool_decide_false, bool_decide_true by done.
      destruct (number_read _ _ _ _ _ Hr2) as (v2 & -> & <-); [simpl in Hok; lia|].
      done.
Qed.

(** The sockets that [decode_socket] yields carry no flow information. *)
Definition plain (s : SocketAddr) : Prop :=
  socket_ok s /\ match s with SockV4 _ _ => True | SockV6 _ _ flow _ => flow = 0 end.

Definition socket_wire (s : SocketAddr) : bytes :=
  ip_wire (sock_ip s) ++ be_bytes 2 (sock_port s) ++
  be_bytes 4 (match s with SockV4 _ _ => 0 | SockV6 _ _ _ scope => scope end).

Lemma encode_socket_wire s out : encode_socket s out = out ++ socket_wire s.
Proof. unfold encode_socket, socket_wire. rewrite encode_ip_wire, <- !app_assoc. done. Qed.

Lemma decode_socket_reads body c s c' :
  bytes_ok body -> decode_socket body c = Some (s, c') <-> plain s /\ reads body c (socket_wire s) c'.
Proof.
  intros Hb. unfold decode_socket. split.
  - rewrite bind_Some. intros ([ip c1] & Hip & H).
    apply bind_Some in H as ([p c2] & Hp & H). apply bind_Some in H as ([sc c3] & Hs & H).
    apply decode_ip_reads in Hip as [Hok Hr1]; [|done].
    destruct (proj1 (number_field body c1 2 (be_val p) c2 Hb)) as [Hpz Hr2]; [by exists p|].
    destruct (proj1 (number_field body c2 4 (be_val sc) c3 Hb)) as [Hsz Hr3]; [by exists sc|].
    assert (reads body c (ip_wire ip ++ be_bytes 2 (be_val p) ++ be_bytes 4 (be_val sc)) c3) as Hr.
    { apply reads_app. assert (c1 = (c + length (ip_wire ip))%nat) as <- by apply Hr1. split; [done|].
      apply reads_app. assert (c2 = (c1 + length (be_bytes 2 (be_val p)))%nat) as <- by apply Hr2. done. }
    unfold plain, socket_ok, port_ok. destruct ip as [z|z]; [case_bool_decide as H0; [|done]|]; injection H as <- <-.
    + unfold socket_wire; cbn [sock_new sock_ip sock_port]. rewrite H0 in Hr. split_and!; done || lia.
    + unfold socket_wire; cbn [sock_ip sock_port]. split_and!; done || lia.
  - intros [[[Hok [Hport Hsc]] Hfl] Hr]. unfold socket_wire in Hr.
    apply reads_app in Hr as [Hr1 Hr]. apply reads_app in Hr as [Hr2 Hr3].
    rewrite (proj2 (decode_ip_reads body c (sock_ip s) _ Hb)) by done. cbn [mbind option_bind].
    destruct (number_read _ _ _ _ _ Hr2) as (p & -> & Hp); [unfold port_ok in Hport; lia|].
    cbn [mbind option_bind].
    destruct (number_read _ _ _ _ _ Hr3) as (sc & -> & Hs); [destruct s; lia|]. cbn [mbind option_bind].
    destruct s as [z port|z port fl scope]; cbn [sock_ip sock_port] in *.
    + rewrite bool_decide_true by done. by rewrite Hp.
    + by rewrite Hp, Hs, Hfl.
Qed.

Lemma canonical_ip_ok ip : ipaddr_ok ip -> ipaddr_ok (canonical_ip ip).
Proof. destruct ip; [done|]. apply (to_canonical_ok (IpV6 _)). Qed.

Lemma canonical_socket_plain s : socket_ok s -> plain (canonical_socket s).
Proof.
  intros (Hok & Hp & Hs). destruct s as [z p|z p fl sc]; simpl in *; [by split|].
  pose proof (canonical_ip_ok (IpV6 z) Hok) as Hc. simpl in Hc.
  destruct (to_ipv4_mapped z); [done|]. split; [|done]. split_and!; simpl; done || lia.
Qed.

(** ** Tokens *)

Definition token_body (issued : Z) (ip : IpAddr) (address : SocketAddr) (dcid : bytes) : bytes :=
  [TOKEN_VERSION] ++ be_bytes 8 issued ++ ip_wire ip ++ socket_wire address ++
  [Z.of_nat (length dcid)] ++ dcid.

Section codec_facts.
  Context `{AeadLaws} (max_conn_id_len : nat) (ttl : Z).
  Context (Hmax : (max_conn_id_len <= 255)%nat).
  Notation validate_at := (validate_at max_conn_id_len ttl).
  Notation mint := (mint max_conn_id_len).

Lemma mint_body_layout now source local dcid :
  (length dcid <= max_conn_id_len)%nat ->
  mint_body now source local dcid
  = token_body now (canonical_ip (sock_ip source)) (canonical_socket local) dcid.
Proof.
  intros Hl. unfold mint_body, token_body. rewrite encode_socket_wire, encode_ip_wire, <- !app_assoc.
  by rewrite Z.mod_small by lia.
Qed.

(** The plaintext checks of [validate_at], after decryption. *)
Definition body_ok (source local : SocketAddr) (now : Z) (body dcid : bytes) : Prop :=
  exists issued, 0 <= issued <= now /\ issued < 2 ^ 64 /\ now - issued <= ttl /\
    (1 <= length dcid <= max_conn_id_len)%nat /\
    body = token_body issued (canonical_ip (sock_ip source)) (canonical_socket local) dcid.

Lemma validate_sound source local token now dcid :
  bytes_ok token -> validate_at source local token now = Some dcid ->
  exists body, open (take NONCE_LEN token) TOKEN_CONTEXT (drop NONCE_LEN token) = Some body /\
    body_ok source local now body dcid.
Proof.
  intros Htok. unfold validate_at. destruct (negb _); [done|].
  rewrite bind_Some. intros (body & Hopen & Hv).
  assert (bytes_ok body) as Hb by (eapply open_seal in Hopen as [??]; auto using bytes_ok_drop).
  exists body. split; [done|].
  apply bind_Some in Hv as ([v c1] & Ht1 & Hv). apply bind_Some in Hv as (ver & Hver & Hv).
  case_bool_decide as Hv1; simpl in Hv; [|done]. subst ver.
  assert (reads body 0 [TOKEN_VERSION] c1) as R1 by (apply byte_field; eauto).
  apply bind_Some in Hv as ([v2 c2] & Ht2 & Hv).
  destruct (bool_decide (be_val v2 > now)) eqn:Hi1, (bool_decide (now - be_val v2 > ttl)) eqn:Hi2;
    simpl in Hv; try done. apply bool_decide_eq_false in Hi1, Hi2.
  destruct (proj1 (number_field body c1 8 (be_val v2) c2 Hb)) as [Hz R2]; [by exists v2|].
  apply bind_Some in Hv as ([ip c3] & [Hipok R3]%decode_ip_reads & Hv); [|done].
  case_bool_decide as Hip; simpl in Hv; [|done]. subst ip.
  apply bind_Some in Hv as ([a c4] & [Hpl R4]%decode_socket_reads & Hv); [|done].
  case_bool_decide as Ha; simpl in Hv; [|done]. subst a.
  apply bind_Some in Hv as ([v5 c5] & Ht5 & Hv). apply bind_Some in Hv as (n & Hn & Hv).
  assert (reads body c4 [n] c5) as R5 by (apply byte_field; eauto).
  case_bool_decide as Hnr; simpl in Hv; [|done].
  apply bind_Some in Hv as ([d c6] & [Hld R6]%take_field_reads & Hv).
  case_bool_decide as Hend; simpl in Hv; [|done]. injection Hv as <-. subst c6.
  exists (be_val v2). split_and!; [lia|lia|lia|lia|lia|lia|]. apply reads_all. unfold token_body.
  replace (Z.of_nat (length d)) with n by lia.
  repeat (apply reads_app; split; [match goal with R : reads _ ?c ?w ?c' |- reads _ ?c ?w _ =>
    assert (c' = (c + length w)%nat) as <- by apply R; exact R end|
    match goal with |- reads _ (?c + length ?w) _ _ =>
      match goal with R : reads _ c w ?c' |- _ => assert (c' = (c + length w)%nat) as <- by apply R end end]).
  done.
Qed.

Lemma length_ip_wire ip : (5 <= length (ip_wire ip) <= 17)%nat.
Proof. destruct ip; simpl; rewrite length_be_bytes; lia. Qed.

Lemma length_token_body issued ip address dcid :
  let n := length (token_body issued ip address dcid) in
  (MIN_BODY_LEN + length dcid <= S n /\ n <= MAX_BODY_LEN (length dcid))%nat.
Proof.
  unfold token_body, socket_wire, MIN_BODY_LEN, MAX_BODY_LEN. rewrite !length_app, !length_be_bytes.
  pose proof (length_ip_wire ip). pose proof (length_ip_wire (sock_ip address)). simpl. lia.
Qed.

(** The fields of a body, one after the other. *)
Lemma token_body_reads issued ip address dcid :
  let body := token_body issued ip address dcid in
  exists c2 c3 c4, reads body 0 [TOKEN_VERSION] 1 /\ reads body 1 (be_bytes 8 issued) 9 /\
    reads body 9 (ip_wire ip) c2 /\ reads body c2 (socket_wire address) c3 /\
    reads body c3 [Z.of_nat (length dcid)] c4 /\ reads body c4 dcid (length body).
Proof.
  intros body. assert (reads body 0 body (length body)) as R by (by apply reads_all).
  unfold body in R at 2. unfold token_body in R.
  apply reads_app in R as [R1 R]. apply reads_app in R as [R2 R]. rewrite length_be_bytes in R2, R.
  apply reads_app in R as [R3 R]. apply reads_app in R as [R4 R]. apply reads_app in R as [R5 R6].
  eexists _, _, _. split_and!; [exact R1|exact R2|exact R3|exact R4|exact R5|exact R6].
Qed.

Lemma validate_complete source local token now body dcid :
  (MIN_TOKEN_LEN <= length token <= MAX_TOKEN_LEN max_conn_id_len)%nat ->
  open (take NONCE_LEN token) TOKEN_CONTEXT (drop NONCE_LEN token) = Some body -> bytes_ok body ->
  socket_ok source -> socket_ok local ->
  body_ok source local now body dcid -> validate_at source local token now = Some dcid.
Proof.
  intros Hlen Hopen Hb Hs Hl (issued & Hi & Hi64 & Httl & Hd & ->).
  destruct (token_body_reads issued (canonical_ip (sock_ip source)) (canonical_socket local) dcid)
    as (c2 & c3 & c4 & R1 & R2 & R3 & R4 & R5 & R6).
  unfold validate_at. rewrite bool_decide_true by done. cbn [negb]. rewrite Hopen. cbn [mbind option_bind].
  set (body := token_body _ _ _ _) in *.
  apply byte_field in R1 as (v1 & -> & E1). cbn [mbind option_bind]. rewrite E1. cbn [mbind option_bind].
  rewrite bool_decide_true by done. cbn [negb].
  apply number_read in R2 as (v2 & -> & E2); [|lia]. cbn [mbind option_bind]. rewrite E2.
  rewrite !bool_decide_false by lia. cbn [orb].
  rewrite (proj2 (decode_ip_reads body 9 _ c2 Hb)) by (split; [by apply canonical_ip_ok, Hs|done]).
  cbn [mbind option_bind]. rewrite bool_decide_true by done. cbn [negb].
  rewrite (proj2 (decode_socket_reads body c2 _ c3 Hb)) by (split; [by apply canonical_socket_plain|done]).
  cbn [mbind option_bind]. rewrite bool_decide_true by done. cbn [negb].
  apply byte_field in R5 as (v5 & -> & E5). cbn [mbind option_bind]. rewrite E5. cbn [mbind option_bind].
  rewrite Nat2Z.id, bool_decide_true by done. cbn [negb].
  rewrite (proj2 (take_field_reads body c4 (length dcid) dcid (length body))) by done.
  cbn [mbind option_bind]. by rewrite bool_decide_true.
Qed.

Lemma token_body_inj i1 i2 ip1 ip2 a1 a2 d1 d2 :
  bytes_ok (token_body i1 ip1 a1 d1) -> ipaddr_ok ip1 -> ipaddr_ok ip2 -> plain a1 -> plain a2 ->
  0 <= i1 < 2 ^ 64 -> 0 <= i2 < 2 ^ 64 ->
  token_body i1 ip1 a1 d1 = token_body i2 ip2 a2 d2 -> i1 = i2 /\ ip1 = ip2 /\ a1 = a2 /\ d1 = d2.
Proof.
  intros Hb Hip1 Hip2 Ha1 Ha2 Hi1 Hi2 He.
  destruct (token_body_reads i1 ip1 a1 d1) as (c2 & c3 & c4 & _ & R2 & R3 & R4 & R5 & R6).
  destruct (token_body_reads i2 ip2 a2 d2) as (c2' & c3' & c4' & _ & R2' & R3' & R4' & R5' & R6').
  rewrite <- He in *. set (body := token_body i1 ip1 a1 d1) in *.
  apply (reads_inj _ _ _ _ _ _ R2) in R2' as [Ei _]; [|by rewrite !length_be_bytes].
  apply (f_equal be_val) in Ei. rewrite !be_val_be_bytes, !Z.mod_small in Ei by lia.
  assert (decode_ip body 9 = Some (ip1, c2)) as E1 by (by apply decode_ip_reads).
  assert (decode_ip body 9 = Some (ip2, c2')) as E2 by (by apply decode_ip_reads).
  rewrite E1 in E2. injection E2 as <- <-.
  assert (decode_socket body c2 = Some (a1, c3)) as E3 by (by apply decode_socket_reads).
  assert (decode_socket body c2 = Some (a2, c3')) as E4 by (by apply decode_socket_reads).
  rewrite E3 in E4. injection E4 as <- <-.
  apply (reads_inj _ _ _ _ _ _ R5) in R5' as [El <-]; [|done]. injection El as El.
  apply (reads_inj _ _ _ _ _ _ R6) in R6' as [<- _]; [done|lia].
Qed.

Lemma ip_wire_ok ip : bytes_ok (ip_wire ip).
Proof. destruct ip; apply bytes_ok_app; split; auto using be_bytes_ok; by apply bytes_ok_singleton. Qed.

Lemma token_body_ok issued ip address dcid :
  bytes_ok dcid -> (length dcid <= max_conn_id_len)%nat -> bytes_ok (token_body issued ip address dcid).
Proof.
  intros Hd Hl. unfold token_body, socket_wire. rewrite !bytes_ok_app. unfold byte_ok.
  split_and!; auto using be_bytes_ok, ip_wire_ok; apply bytes_ok_singleton; unfold byte_ok, TOKEN_VERSION; lia.
Qed.

(** What a minted token is made of. *)
Lemma mint_inv nonce now source local dcid token :
  bytes_ok dcid -> length nonce = NONCE_LEN ->
  mint (Some nonce) now source local dcid = Ok token ->
  (1 <= length dcid <= max_conn_id_len)%nat /\
  take NONCE_LEN token = nonce /\
  (MIN_TOKEN_LEN <= length token <= MAX_TOKEN_LEN max_conn_id_len)%nat /\
  open nonce TOKEN_CONTEXT (drop NONCE_LEN token)
    = Some (token_body now (canonical_ip (sock_ip source)) (canonical_socket local) dcid).
Proof.
  intros Hd Hn. unfold mint. case_bool_decide as Hl; simpl; [|done].
  rewrite mint_body_layout by lia. set (body := token_body _ _ _ _).
  destruct (seal nonce TOKEN_CONTEXT body) as [c|] eqn:Hc; simpl; [|done]. intros [= <-].
  assert (length c = length body + TAG_LEN)%nat as Hlc.
  { eapply seal_bytes in Hc as [_ Hc]; [done|]. apply token_body_ok; [done|lia]. }
  rewrite <- Hn, take_app_length, drop_app_length. split_and!; [lia|lia|done| | |by apply seal_open].
  all: rewrite length_app, Hn, Hlc;
    pose proof (length_token_body now (canonical_ip (sock_ip source)) (canonical_socket local) dcid) as Hb;
    fold body in Hb; unfold MIN_TOKEN_LEN, MAX_TOKEN_LEN, MIN_BODY_LEN, MAX_BODY_LEN, NONCE_LEN, TAG_LEN in *;
    lia.
Qed.

(** C13: a Retry token is bound to the client's address, to the listener and to
    its lifetime.  A token minted for one source and listener validates, and
    gives back the original connection id, exactly for sources with the same
    address (in either spelling and from any port) on the same listener socket,
    from its issue until its lifetime is over; anywhere else it is refused. *)
Theorem retry_token_binds (nonce : bytes) (issued now : Z) (s1 l1 s2 l2 : SocketAddr) (dcid token : bytes) :
  length nonce = NONCE_LEN -> bytes_ok nonce -> bytes_ok dcid -> bytes_ok token ->
  0 <= issued < 2 ^ 64 -> 0 <= now < 2 ^ 64 ->
  socket_ok s1 -> socket_ok l1 -> socket_ok s2 -> socket_ok l2 ->
  mint (Some nonce) issued s1 l1 dcid = Ok token ->
  validate_at s2 l2 token now
  = if decide (to_canonical (sock_ip s1) = to_canonical (sock_ip s2) /\
               canonical_socket l1 = canonical_socket l2 /\ issued <= now /\ now - issued <= ttl)
    then Some dcid else None.
Proof.
  intros Hn Hnb Hd Htok Hi Hnow Hs1 Hl1 Hs2 Hl2 Hm.
  assert (forall ip, to_canonical ip = canonical_ip ip) as Hcan by (by intros []). rewrite !Hcan.
  destruct (mint_inv nonce issued s1 l1 dcid token Hd Hn Hm) as (Hld & Htake & Hlen & Hopen).
  assert (bytes_ok (token_body issued (canonical_ip (sock_ip s1)) (canonical_socket l1) dcid)) as Hb
    by (apply token_body_ok; [done|lia]).
  destruct (decide _) as [(He1 & He2 & Hle & Httl)|Hno].
  - eapply validate_complete; [done|by rewrite Htake|done|done|done|].
    exists issued. rewrite <- He1, <- He2. split_and!; done || lia.
  - destruct (validate_at s2 l2 token now) as [d|] eqn:Hv; [exfalso|done].
    apply validate_sound in Hv as (body & Hopen2 & i2 & Hi2 & Hi64 & Httl & Hd2 & Hbody); [|done].
    rewrite Htake, Hopen in Hopen2. injection Hopen2 as <-.
    apply token_body_inj in Hbody as (-> & He1 & He2 & _); try done; try lia.
    + destruct Hno. split_and!; done || lia.
    + apply canonical_ip_ok, Hs1. + apply canonical_ip_ok, Hs2.
    + by apply canonical_socket_plain. + by apply canonical_socket_plain.
Qed.

(** Every accepted token is one the server mints.  If validation accepts
    bytes for a source and a listener, these bytes are exactly what minting
    yields, under some nonce and at an issue time within the lifetime, for this
    source, this listener and the returned connection id; whatever the bytes
    are, validation reads no field outside the decrypted text. *)
Theorem retry_token_genuine (source local : SocketAddr) (token : bytes) (now : Z) (dcid : bytes) :
  bytes_ok token -> validate_at source local token now = Some dcid ->
  exists nonce issued, length nonce = NONCE_LEN /\ 0 <= issued <= now /\ now - issued <= ttl /\
    (1 <= length dcid <= max_conn_id_len)%nat /\
    mint (Some nonce) issued source local dcid = Ok token.
Proof.
  intros Htok Hv. assert (NONCE_LEN <= length token)%nat as Hlen.
  { unfold validate_at in Hv. case_bool_decide as Hl; [|done]. unfold MIN_TOKEN_LEN in Hl. lia. }
  apply validate_sound in Hv as (body & Hopen & issued & Hi & Hi64 & Httl & Hd & ->); [|done].
  exists (take NONCE_LEN token), issued. rewrite length_take. split_and!; [lia|lia|lia|lia|lia|lia|].
  unfold mint. rewrite bool_decide_true by done. cbn [negb].
  apply open_seal in Hopen as [_ Hseal]; [|by apply bytes_ok_drop].
  simpl. rewrite mint_body_layout by lia. rewrite Hseal. simpl. by rewrite take_drop.
Qed.
End codec_facts.

(** ** Witnesses over a cipher with an empty keystream and a fixed tag *)

Definition sample_tag : bytes := replicate TAG_LEN 7.
#[local] Instance sample_aead : Aead := {|
  seal n a p := Some (p ++ sample_tag);
  open n a c := if bool_decide (TAG_LEN <= length c /\ drop (length c - TAG_LEN) c = sample_tag)%nat
                then Some (take (length c - TAG_LEN) c) else None |}.

#[local] Instance sample_aead_laws : AeadLaws.
Proof.
  split; simpl.
  - intros _ _ p c [= <-]. rewrite length_app. replace (length sample_tag) with TAG_LEN by done.
    replace (length p + TAG_LEN - TAG_LEN)%nat with (length p) by lia.
    rewrite drop_app_length, take_app_length. rewrite bool_decide_true by (split; [lia|done]). done.
  - intros _ _ p c Hc. case_bool_decide as Ht; [|done]. intros [= <-]. split; [by apply bytes_ok_take|].
    f_equal. destruct Ht as [_ <-]. by rewrite take_drop.
  - intros _ _ p c Hp [= <-]. split; [|by rewrite length_app].
    apply bytes_ok_app. split; [done|]. by vm_compute; repeat constructor.
Qed.

Definition sample_source : SocketAddr := SockV6 (to_ipv6_mapped 0x0a000001) 5000 0 0.
Definition sample_local : SocketAddr := SockV4 0x7f000001 443.
Definition sample_token : bytes :=
  replicate NONCE_LEN 9 ++ mint_body 100 sample_source sample_local [1; 2; 3] ++ sample_tag.

Lemma sample_token_ok : bytes_ok sample_token.
Proof. apply (bool_decide_unpack _). vm_compute. exact I. Qed.

(** The same client from another port and in the other spelling. *)
Lemma retry_token_binds_witness :
  mint 20 (Some (replicate NONCE_LEN 9)) 100 sample_source sample_local [1; 2; 3] = Ok sample_token /\
  validate_at 20 10 (SockV4 0x0a000001 6000) sample_local sample_token 105 = Some [1; 2; 3] /\
  validate_at 20 10 (SockV4 0x0a000002 6000) sample_local sample_token 105 = None.
Proof.
  assert (mint 20 (Some (replicate NONCE_LEN 9)) 100 sample_source sample_local [1; 2; 3] = Ok sample_token)
    as Hm by (vm_compute; reflexivity).
  assert (bytes_ok (replicate NONCE_LEN 9) /\ bytes_ok [1; 2; 3]) as [Hn Hd]
    by (split; apply (bool_decide_unpack _); vm_compute; exact I).
  split; [exact Hm|]. split.
  - rewrite (retry_token_binds 20 10 ltac:(lia) (replicate NONCE_LEN 9) 100 105 sample_source sample_local
      (SockV4 0x0a000001 6000) sample_local [1; 2; 3] sample_token eq_refl Hn Hd sample_token_ok
      ltac:(lia) ltac:(lia) ltac:(vm_compute; intuition discriminate) ltac:(vm_compute; intuition discriminate)
      ltac:(vm_compute; intuition discriminate) ltac:(vm_compute; intuition discriminate) Hm).
    vm_compute. reflexivity.
  - rewrite (retry_token_binds 20 10 ltac:(lia) (replicate NONCE_LEN 9) 100 105 sample_source sample_local
      (SockV4 0x0a000002 6000) sample_local [1; 2; 3] sample_token eq_refl Hn Hd sample_token_ok
      ltac:(lia) ltac:(lia) ltac:(vm_compute; intuition discriminate) ltac:(vm_compute; intuition discriminate)
      ltac:(vm_compute; intuition discriminate) ltac:(vm_compute; intuition discriminate) Hm).
    vm_compute. reflexivity.
Defined.

Lemma retry_token_genuine_witness :
  validate_at 20 10 sample_source sample_local sample_token 105 = Some [1; 2; 3] /\
  exists nonce issued, length nonce = NONCE_LEN /\ 0 <= issued <= 105 /\
    mint 20 (Some nonce) issued sample_source sample_local [1; 2; 3] = Ok sample_token.
Proof.
  assert (validate_at 20 10 sample_source sample_local sample_token 105 = Some [1; 2; 3]) as Hv
    by (vm_compute; reflexivity).
  split; [exact Hv|].
  destruct (retry_token_genuine 20 10 ltac:(lia) sample_source sample_local sample_token 105 [1; 2; 3]
    sample_token_ok Hv) as (nonce & issued & H1 & H2 & _ & _ & H3).
  exists nonce, issued. split; [exact H1|]. split; [exact H2|exact H3].
Defined.
