(* ===== verification/Uri.v ===== *)
(** * Request targets

    Models [src/uri.rs]: the CONNECT-UDP path and the authority of a standard
    CONNECT.  Strings are their UTF-8 bytes; the separators the code looks for
    are ASCII, so searching bytes is searching characters.  The first part holds
    the string operations of the standard library that the code uses. *)

From Stdlib Require Import String Ascii.
From S2P Require Import Prelude Net AddrText.
Open Scope Z_scope.

(** ** Strings *)

Definition str (s : string) : bytes :=
  (fun c => Z.of_N (N_of_ascii c)) <$> list_ascii_of_string s.
Arguments str : simpl never.

(** [str::strip_prefix], [starts_with], [strip_suffix]. *)
Fixpoint strip_prefix (p s : bytes) : option bytes :=
  match p, s with
  | [], _ => Some s
  | x :: p', y :: s' => if bool_decide (x = y) then strip_prefix p' s' else None
  | _ :: _, [] => None
  end.

Definition starts_with (p s : bytes) : bool := if strip_prefix p s is Some _ then true else false.

Definition strip_suffix (p s : bytes) : option bytes :=
  match strip_prefix (reverse p) (reverse s) with Some r => Some (reverse r) | None => None end.

Definition contains_byte (c : Z) (s : bytes) : bool := bool_decide (c ∈ s).

(** [str::split] with a character: the pieces between the separators. *)
Fixpoint split_on (c : Z) (s : bytes) : list bytes :=
  match s with
  | [] => [[]]
  | x :: s' =>
      if bool_decide (x = c) then [] :: split_on c s'
      else match split_on c s' with h :: t => (x :: h) :: t | [] => [[x]] end
  end.

(** [str::split_once] with a string. *)
Fixpoint split_once (p s : bytes) : option (bytes * bytes) :=
  match strip_prefix p s with
  | Some rest => Some ([], rest)
  | None =>
      match s with
      | [] => None
      | x :: s' => match split_once p s' with Some (a, b) => Some (x :: a, b) | None => None end
      end
  end.

(** [str::rsplit_once] with a character: at its last occurrence. *)
Fixpoint rsplit_once (c : Z) (s : bytes) : option (bytes * bytes) :=
  match s with
  | [] => None
  | x :: s' =>
      match rsplit_once c s' with
      | Some (a, b) => Some (x :: a, b)
      | None => if bool_decide (x = c) then Some ([], s') else None
      end
  end.

Definition is_ascii_digit (b : Z) : bool := bool_decide (48 <= b <= 57).
Definition is_ascii_alphabetic (b : Z) : bool := bool_decide (65 <= b <= 90) || bool_decide (97 <= b <= 122).
Definition is_ascii_alphanumeric (b : Z) : bool := is_ascii_digit b || is_ascii_alphabetic b.
Definition is_ascii_control (b : Z) : bool := bool_decide (b < 32) || bool_decide (b = 127).
Definition is_ascii_whitespace (b : Z) : bool := bool_decide (b ∈ [32; 9; 10; 12; 13]).

(** ** UTF-8

    [utf8_next] looks at the first character: its length if it is well formed,
    or the length of the longest part of a character that went wrong. *)

Definition continuation (b : Z) : bool := bool_decide (0x80 <= b <= 0xbf).

(** The second byte a three- or four-byte lead admits. *)
Definition second_ok (lead b : Z) : bool :=
  if bool_decide (lead = 0xe0) then bool_decide (0xa0 <= b <= 0xbf)
  else if bool_decide (lead = 0xed) then bool_decide (0x80 <= b <= 0x9f)
  else if bool_decide (lead = 0xf0) then bool_decide (0x90 <= b <= 0xbf)
  else if bool_decide (lead = 0xf4) then bool_decide (0x80 <= b <= 0x8f)
  else continuation b.

Definition utf8_width (b : Z) : nat :=
  if bool_decide (b < 0x80) then 1 else if bool_decide (0xc2 <= b <= 0xdf) then 2
  else if bool_decide (0xe0 <= b <= 0xef) then 3 else if bool_decide (0xf0 <= b <= 0xf4) then 4 else 0.

(** How many of the bytes after the lead fit, of the [n] that are needed. *)
Fixpoint continuations (n : nat) (ok : Z -> bool) (s : bytes) : nat :=
  match n, s with
  | S n', b :: s' => if ok b then S (continuations n' continuation s') else 0
  | _, _ => 0
  end.

Definition utf8_next (b : Z) (s : bytes) : nat + nat :=
  let w := utf8_width b in
  match w with
  | O => inr 1%nat
  | S n =>
      let k := continuations n (if bool_decide (2 <= n)%nat then second_ok b else continuation) s in
      if bool_decide (k = n) then inl w else inr (S k)
  end.

(** [str::from_utf8(..).is_ok()]; the fuel is the length of the text. *)
Fixpoint utf8_ok_fuel (fuel : nat) (s : bytes) : bool :=
  match fuel, s with
  | _, [] => true
  | O, _ => false
  | S fuel', b :: s' =>
      match utf8_next b s' with inl w => utf8_ok_fuel fuel' (drop (w - 1) s') | inr _ => false end
  end.
Definition utf8_ok (s : bytes) : bool := utf8_ok_fuel (length s) s.

(** [String::from_utf8_lossy]: U+FFFD for each part that went wrong. *)
Fixpoint utf8_lossy_fuel (fuel : nat) (s : bytes) : bytes :=
  match fuel, s with
  | S fuel', b :: s' =>
      match utf8_next b s' with
      | inl w => take w s ++ utf8_lossy_fuel fuel' (drop (w - 1) s')
      | inr k => [0xef; 0xbf; 0xbd] ++ utf8_lossy_fuel fuel' (drop (k - 1) s')
      end
  | _, _ => []
  end.
Definition from_utf8_lossy (s : bytes) : bytes := utf8_lossy_fuel (length s) s.

(** ** Targets *)

Record UdpTarget := { host : bytes; port : Z }.

Record IpTarget := {
  target : option bytes;
  ipproto : option Z;
}.

Inductive UriError :=
| PathMismatch
| MissingSegment (segment : bytes)
| InvalidPort (text : bytes)
| InvalidProtocol (text : bytes)
| InvalidTarget
| InvalidTemplate.

Definition hex_digit (byte : Z) : option Z :=
  if bool_decide (48 <= byte <= 57) then Some (byte - 48)
  else if bool_decide (97 <= byte <= 102) then Some (byte - 97 + 10)
  else if bool_decide (65 <= byte <= 70) then Some (byte - 65 + 10)
  else None.

(** The loop of [percent_decode]: a malformed escape stands for itself. *)
Fixpoint unescape (s : bytes) : bytes :=
  match s with
  | [] => []
  | b :: s' =>
      if bool_decide (b = 37) then
        match s' with
        | h :: l :: rest =>
            match hex_digit h, hex_digit l with
            | Some high, Some low => Z.lor (Z.shiftl high 4) low :: unescape rest
            | _, _ => b :: unescape s'
            end
        | _ => b :: unescape s'
        end
      else b :: unescape s'
  end.

Definition percent_decode (s : bytes) : bytes := from_utf8_lossy (unescape s).

Definition extract_prefix (template : bytes) : bytes :=
  match split_once (str "{") template with Some (p, _) => p | None => template end.

Definition parse_udp_path (path template : bytes) : result UriError UdpTarget :=
  let udp_prefix := extract_prefix template in
  rest ← ok_or PathMismatch (strip_prefix udp_prefix path);
  match filter (fun s => s <> []) (split_on 47 rest) with
  | [] => Err (MissingSegment (str "target_host"))
  | [_] => Err (MissingSegment (str "target_port"))
  | h :: p :: _ =>
      let host := percent_decode h in
      let port_str := percent_decode p in
      port ← ok_or (InvalidPort port_str) (parse_uint U16_MAX port_str);
      if bool_decide (port = 0) then Err (InvalidPort (str "0"))
      else Ok {| host := host; port := port |}
  end.

Definition parse_connect_authority (authority : bytes) : result UriError UdpTarget :=
  if bool_decide (authority = [])
     || existsb (fun b => is_ascii_control b || is_ascii_whitespace b) authority
     || (contains_byte 47 authority || contains_byte 64 authority)
  then Err PathMismatch else
  hp ← match strip_prefix (str "[") authority with
       | Some rest =>
           '(host, port) ← ok_or (MissingSegment (str "target_port")) (split_once (str "]:") rest);
           if bool_decide (host = []) || bool_decide (parse_ipv6 host = None) then Err PathMismatch
           else Ok (host, port)
       | None =>
           '(host, port) ← ok_or (MissingSegment (str "target_port")) (rsplit_once 58 authority);
           if bool_decide (host = []) || contains_byte 58 host then Err PathMismatch
           else Ok (host, port)
       end;
  let '(host, port_str) := hp : bytes * bytes in
  port ← ok_or (InvalidPort port_str) (parse_uint U16_MAX port_str);
  if bool_decide (port = 0) then Err (InvalidPort (str "0"))
  else Ok {| host := host; port := port |}.

(** ** UTF-8 text is kept *)

Lemma continuations_le n ok s : (continuations n ok s <= n /\ continuations n ok s <= length s)%nat.
Proof.
  revert ok s. induction n as [|n IH]; intros ok [|b s]; simpl; try lia.
  destruct (ok b); [|lia]. specialize (IH continuation s). lia.
Qed.

Lemma utf8_next_width b s w : utf8_next b s = inl w -> (1 <= w <= S (length s))%nat.
Proof.
  unfold utf8_next. destruct (utf8_width b) as [|n]; [done|].
  case_bool_decide as Hk; [|done]. intros [= <-].
  pose proof (continuations_le n (if bool_decide (2 <= n)%nat then second_ok b else continuation) s). lia.
Qed.

Lemma utf8_ok_fuel_lossy fuel s : utf8_ok_fuel fuel s = true -> utf8_lossy_fuel fuel s = s.
Proof.
  revert s. induction fuel as [|fuel IH]; intros [|b s]; simpl; try done.
  destruct (utf8_next b s) as [w|] eqn:Hn; [|done]. intros Hok. apply utf8_next_width in Hn.
  rewrite IH by done. destruct w as [|w]; [lia|]. simpl. rewrite Nat.sub_0_r. by rewrite take_drop.
Qed.

Lemma from_utf8_lossy_ok s : utf8_ok s = true -> from_utf8_lossy s = s.
Proof. apply utf8_ok_fuel_lossy. Qed.

Lemma ascii_utf8_ok s : Forall (fun b => b < 0x80) s -> utf8_ok s = true.
Proof.
  intros Hs. unfold utf8_ok. induction Hs as [|b s Hb Hs IH]; [done|]. simpl.
  unfold utf8_next, utf8_width. rewrite bool_decide_true by done. simpl.
  by rewrite drop_0.
Qed.

(** ** Escaping

    [escape] is what a client does: letters and digits stand for themselves,
    every other byte is written as [%XX]. *)

Definition hex_char (d : Z) : Z := if bool_decide (d < 10) then 48 + d else 65 + (d - 10).
Definition escape (s : bytes) : bytes :=
  concat ((fun b => if is_ascii_alphanumeric b then [b] else [37; hex_char (b / 16); hex_char (b mod 16)]) <$> s).

Lemma hex_digit_char d : 0 <= d < 16 -> hex_digit (hex_char d) = Some d.
Proof.
  intros Hd. unfold hex_digit, hex_char. destruct (bool_decide (d < 10)) eqn:Hd10;
    [apply bool_decide_eq_true in Hd10|apply bool_decide_eq_false in Hd10].
  - rewrite bool_decide_true by lia. f_equal. lia.
  - rewrite (bool_decide_false (48 <= _ <= 57)), (bool_decide_false (97 <= _ <= 102)), bool_decide_true by lia.
    f_equal. lia.
Qed.

Lemma unescape_plain b s : b <> 37 -> unescape (b :: s) = b :: unescape s.
Proof. intros Hb. simpl. by rewrite bool_decide_false. Qed.

Lemma unescape_escape s : bytes_ok s -> unescape (escape s) = s.
Proof.
  unfold escape. induction 1 as [|b s Hb Hs IH]; [done|]. rewrite fmap_cons. simpl concat.
  destruct (is_ascii_alphanumeric b) eqn:Ha.
  - simpl app. rewrite unescape_plain, IH; [done|]. intros ->. done.
  - unfold byte_ok in Hb. simpl. rewrite !hex_digit_char by div_lia. simpl in IH. rewrite IH. f_equal.
    rewrite Z.lor_comm, Z.shiftl_mul_pow2, lor_disjoint by div_lia. div_lia.
Qed.

Lemma percent_decode_escape s : bytes_ok s -> utf8_ok s = true -> percent_decode (escape s) = s.
Proof. intros Hs Hu. unfold percent_decode. rewrite unescape_escape by done. by apply from_utf8_lossy_ok. Qed.

Lemma escape_safe s : bytes_ok s -> Forall (fun b => is_ascii_alphanumeric b = true \/ b = 37) (escape s).
Proof.
  unfold escape. induction 1 as [|b s Hb Hs IH]; [done|]. rewrite fmap_cons. simpl concat.
  apply Forall_app. split; [|done]. destruct (is_ascii_alphanumeric b) eqn:Ha; [apply Forall_singleton; by left|].
  assert (forall d, 0 <= d < 16 -> is_ascii_alphanumeric (hex_char d) = true) as Hh.
  { intros d Hd. unfold is_ascii_alphanumeric, is_ascii_digit, is_ascii_alphabetic, hex_char.
    destruct (bool_decide (d < 10)) eqn:Hd10; [apply bool_decide_eq_true in Hd10|apply bool_decide_eq_false in Hd10].
    { by rewrite (bool_decide_true (48 <= _ <= 57)) by lia. }
    by rewrite (bool_decide_true (65 <= _ <= 90)), orb_true_r by lia. }
  unfold byte_ok in Hb. repeat apply Forall_cons_2; auto; left; apply Hh; div_lia.
Qed.

Lemma unescape_id s : Forall (fun b => b <> 37) s -> unescape s = s.
Proof. induction 1 as [|b s Hb Hs IH]; [done|]. by rewrite unescape_plain, IH. Qed.

(** ** Splitting *)

Lemma strip_prefix_app p s : strip_prefix p (p ++ s) = Some s.
Proof. induction p as [|x p IH]; simpl; [done|]. by rewrite bool_decide_true. Qed.

Lemma split_on_app c a b : c ∉ a -> split_on c (a ++ c :: b) = a :: split_on c b.
Proof.
  induction a as [|x a IH]; intros Ha; simpl; [by rewrite bool_decide_true|].
  rewrite bool_decide_false by set_solver. rewrite IH by set_solver. done.
Qed.

Lemma split_on_end c a : c ∉ a -> split_on c a = [a].
Proof.
  induction a as [|x a IH]; intros Ha; simpl; [done|].
  rewrite bool_decide_false by set_solver. by rewrite IH by set_solver.
Qed.

Lemma span_digits_all t ds : span_digits 10 t = (ds, []) -> Forall (fun b => is_ascii_digit b = true) t.
Proof.
  revert ds. induction t as [|c t IH]; intros ds; simpl; [constructor|].
  destruct (to_digit 10 c) eqn:Hc; [|done]. destruct (span_digits 10 t) as [ds' rest]. intros [= <- ->].
  constructor; [|by eapply IH]. unfold to_digit in Hc. unfold is_ascii_digit.
  repeat case_bool_decide; simplify_eq/=; done || lia.
Qed.

(** The texts that parse as a number. *)
Lemma parse_uint_text top s n :
  parse_uint top s = Some n -> s <> [] /\ 0 <= n <= top /\ Forall (fun b => b = 43 \/ is_ascii_digit b = true) s.
Proof.
  unfold parse_uint. set (digits := match s with 43 :: rest => rest | _ => s end).
  pose proof (span_digits_range 10 digits) as Hr. pose proof (span_digits_all digits) as Hall.
  destruct (span_digits 10 digits) as [ds rest] eqn:Hsp. simpl in Hr.
  case_bool_decide as Hds; [done|]. case_bool_decide as Hrest; [|done]. simpl.
  case_bool_decide as Htop; [done|]. intros [= <-]. subst rest. specialize (Hall ds eq_refl).
  assert (Forall (fun b => b = 43 \/ is_ascii_digit b = true) digits) as Hd
    by (eapply Forall_impl; [exact Hall|]; by right).
  split_and!; [|by apply digits_value_nonneg|lia|].
  - intros ->. by injection Hsp as <-.
  - unfold digits in Hd. destruct s as [|c s]; [constructor|].
    destruct (decide (c = 43)) as [-> |Hc]; [constructor; [by left|exact Hd]|].
    assert ((match c with 43 => s | _ => c :: s end) = c :: s) as Hm
      by (destruct c as [|p|p]; try done; repeat (destruct p as [p|p|]; try done)).
    by rewrite Hm in Hd.
Qed.

Lemma strip_prefix_Some p s r : strip_prefix p s = Some r <-> s = p ++ r.
Proof.
  split; [|intros ->; apply strip_prefix_app]. revert s.
  induction p as [|x p IH]; intros [|y s]; simpl; try congruence.
  case_bool_decide as Hx; [|done]. intros Hs. by rewrite Hx, (IH s).
Qed.

(** [split_once] splits at the first occurrence. *)
Definition first_split (p s a b : bytes) : Prop :=
  s = a ++ p ++ b /\ forall u v, s = u ++ p ++ v -> (length a <= length u)%nat.

Lemma split_once_first p s a b : split_once p s = Some (a, b) -> first_split p s a b.
Proof.
  revert a. induction s as [|x s IH]; intros a; simpl; destruct (strip_prefix p _) as [r|] eqn:Hs.
  1, 3: intros [= <- <-]; apply strip_prefix_Some in Hs; split; [done|simpl; lia].
  - done.
  - destruct (split_once p s) as [[a' b']|]; [|done]. intros [= <- <-].
    destruct (IH a' eq_refl) as [-> Hmin]. split; [done|]. intros [|y u] v Huv; simpl.
    + rewrite app_nil_l in Huv. apply strip_prefix_Some in Huv. congruence.
    + injection Huv as _ Huv. apply Hmin in Huv. lia.
Qed.

Lemma split_once_exists p u v : split_once p (u ++ p ++ v) <> None.
Proof.
  induction u as [|x u IH]; simpl.
  - destruct (p ++ v) as [|y s] eqn:E; simpl; rewrite <- E, strip_prefix_app; done.
  - destruct (strip_prefix p _); [done|]. by destruct (split_once p (u ++ p ++ v)) as [[]|].
Qed.

Lemma split_once_spec p s a b : split_once p s = Some (a, b) <-> first_split p s a b.
Proof.
  split; [apply split_once_first|]. intros [-> Hmin].
  destruct (split_once p (a ++ p ++ b)) as [[a' b']|] eqn:Hs; [|by apply split_once_exists in Hs].
  apply split_once_first in Hs as [He Hmin']. specialize (Hmin a' b' He). specialize (Hmin' a b eq_refl).
  apply app_inj_1 in He as [-> He]; [|lia]. by apply app_inv_head in He as ->.
Qed.

Lemma rsplit_once_spec c s a b : rsplit_once c s = Some (a, b) <-> s = a ++ [c] ++ b /\ c ∉ b.
Proof.
  assert (forall s, rsplit_once c s = None <-> c ∉ s) as Hnone.
  { induction s0 as [|x s0 IH]; simpl; [set_solver|].
    destruct (rsplit_once c s0) as [[]|]; [|case_bool_decide]; set_solver. }
  split.
  - revert a. induction s as [|x s IH]; intros a; simpl; [done|].
    destruct (rsplit_once c s) as [[a' b']|] eqn:Hs.
    + intros [= <- <-]. destruct (IH a' eq_refl) as [-> Hb]. done.
    + case_bool_decide as Hx; [|done]. intros [= <- <-]. subst x. split; [done|by apply Hnone].
  - intros [-> Hb]. induction a as [|x a IH]; simpl.
    + by rewrite (proj2 (Hnone b) Hb), bool_decide_true.
    + simpl in IH. by rewrite IH.
Qed.

(** CONNECT-UDP paths round-trip.  Behind any configured prefix, the path
    of a host escaped byte by byte and of a port in decimal is parsed to that
    host and port, for every non-empty UTF-8 host, whatever the path continues
    with after the next slash. *)
Theorem udp_path_roundtrip (template h p rest : bytes) (port : Z) :
  bytes_ok h -> utf8_ok h = true -> h <> [] ->
  parse_uint U16_MAX p = Some port -> port <> 0 ->
  rest = [] \/ head rest = Some 47 ->
  parse_udp_path (extract_prefix template ++ escape h ++ [47] ++ p ++ rest) template
  = Ok {| host := h; port := port |}.
Proof.
  intros Hh Hu Hne Hp Hp0 Hrest. destruct (parse_uint_text _ _ _ Hp) as (Hpn & Hpr & Hpt).
  unfold parse_udp_path. rewrite strip_prefix_app. cbn [ok_or mbind result_bind].
  assert (47 ∉ escape h) as He.
  { intros Hin. pose proof (escape_safe h Hh) as Hs. rewrite Forall_forall in Hs. by destruct (Hs 47 Hin). }
  assert (47 ∉ p) as Hpp.
  { intros Hin. rewrite Forall_forall in Hpt. by destruct (Hpt 47 Hin). }
  assert (escape h <> []) as Hen.
  { destruct h as [|b h]; [done|]. unfold escape. rewrite fmap_cons. simpl concat.
    by destruct (is_ascii_alphanumeric b). }
  assert (percent_decode p = p) as Hpd.
  { unfold percent_decode. rewrite unescape_id, from_utf8_lossy_ok; [done| |].
    - apply ascii_utf8_ok. eapply Forall_impl; [exact Hpt|]. intros b [-> |Hb]; [done|].
      apply bool_decide_eq_true in Hb. lia.
    - eapply Forall_impl; [exact Hpt|]. intros b [-> |Hb]; [done|]. intros ->. done. }
  assert (exists tail, split_on 47 (p ++ rest) = p :: tail) as [tail Htail].
  { destruct Hrest as [-> |Hr]; [rewrite app_nil_r; eexists; by apply split_on_end|].
    destruct rest as [|c rest]; [done|]. injection Hr as ->. eexists. by apply split_on_app. }
  simpl app. rewrite split_on_app by done. rewrite Htail.
  rewrite !filter_cons_True by done. rewrite percent_decode_escape, Hpd, Hp by done. cbn [ok_or mbind result_bind].
  by rewrite bool_decide_false.
Qed.

Lemma udp_path_roundtrip_witness :
  escape (str "::1") = str "%3A%3A1" /\
  parse_udp_path (extract_prefix (str "/.well-known/masque/udp/{target_host}/{target_port}/")
                  ++ escape (str "::1") ++ [47] ++ str "443" ++ str "/")
    (str "/.well-known/masque/udp/{target_host}/{target_port}/") = Ok {| host := str "::1"; port := 443 |}.
Proof.
  split; [vm_compute; reflexivity|].
  apply (udp_path_roundtrip (str "/.well-known/masque/udp/{target_host}/{target_port}/") (str "::1")
    (str "443") (str "/") 443).
  - apply (bool_decide_unpack _). vm_compute. exact I.
  - vm_compute. reflexivity.
  - vm_compute. discriminate.
  - vm_compute. reflexivity.
  - lia.
  - right. vm_compute. reflexivity.
Defined.

(** A port of a target. *)
Definition port_text (p : bytes) (port : Z) : Prop := parse_uint U16_MAX p = Some port /\ port <> 0.

(** The authority of a CONNECT is accepted exactly in its two forms.
    [parse_connect_authority] yields a host and a port exactly for texts free of
    controls, blanks, slashes and [@] that are either a host without a colon, a
    colon and a port, or a bracketed IPv6 literal (up to the first closing
    bracket that a colon follows) and a port; the port is between 1 and 65535. *)
Theorem connect_authority_exact (a h : bytes) (n : Z) :
  parse_connect_authority a = Ok {| host := h; port := n |} <->
  Forall (fun b => is_ascii_control b || is_ascii_whitespace b = false) a /\ 47 ∉ a /\ 64 ∉ a /\ h <> [] /\
  exists p, port_text p n /\
    ((head a <> Some 91 /\ a = h ++ [58] ++ p /\ 58 ∉ h) \/
     (exists rest, a = str "[" ++ rest /\ first_split (str "]:") rest h p /\ is_Some (parse_ipv6 h))).
Proof.
  unfold parse_connect_authority.
  assert (existsb (fun b => is_ascii_control b || is_ascii_whitespace b) a = false <->
    Forall (fun b => is_ascii_control b || is_ascii_whitespace b = false) a) as <-.
  { induction a as [|b a IH]; simpl; [done|]. rewrite orb_false_iff, IH, Forall_cons. done. }
  unfold contains_byte. case_bool_decide as Ha; cbn [orb].
  { subst a. split; [done|]. intros (_ & _ & _ & _ & p & _ & [(_ & E & _)|(rest & E & _)]); [|done].
    by destruct h. }
  destruct (existsb _ a); cbn [orb]; [naive_solver|].
  case_bool_decide as H47; cbn [orb]; [naive_solver|]. case_bool_decide as H64; cbn [orb]; [naive_solver|].
  assert (forall h' p, (port ← ok_or (InvalidPort p) (parse_uint U16_MAX p);
    if bool_decide (port = 0) then Err (InvalidPort (str "0")) else Ok {| host := h'; port := port |})
    = Ok {| host := h; port := n |} <-> h' = h /\ port_text p n) as Hfin.
  { intros h' p. unfold port_text. destruct (parse_uint U16_MAX p) as [q|]; simpl; [|naive_solver].
    case_bool_decide; naive_solver. }
  destruct (strip_prefix (str "[") a) as [rest|] eqn:Hs; cbv beta iota.
  - apply strip_prefix_Some in Hs. subst a. setoid_rewrite <- split_once_spec.
    assert (forall p, ((head (str "[" ++ rest) <> Some 91 /\ str "[" ++ rest = h ++ [58] ++ p /\ 58 ∉ h) \/
      (exists r, str "[" ++ rest = str "[" ++ r /\ split_once (str "]:") r = Some (h, p) /\ is_Some (parse_ipv6 h)))
      <-> split_once (str "]:") rest = Some (h, p) /\ is_Some (parse_ipv6 h)) as Hform.
    { intros p. split; [intros [[? _]|(r & [= <-] & Hr)]; done|]. intros Hr. right. by exists rest. }
    setoid_rewrite Hform. clear Hform.
    destruct (split_once (str "]:") rest) as [[h' p']|] eqn:Hsp; simpl.
    2: { split; [done|]. intros (_ & _ & _ & _ & p & _ & ? & _). done. }
    case_bool_decide as Hh; simpl. { split; [done|]. intros (_ & _ & _ & ? & p & _ & ? & _). congruence. }
    case_bool_decide as Hv; simpl.
    { split; [done|]. intros (_ & _ & _ & _ & p & _ & ? & [? ?]). congruence. }
    rewrite (Hfin h' p'). split.
    + intros [-> Hp]. split_and!; try done. exists p'. split_and!; [done|done|]. by apply not_eq_None_Some.
    + intros (_ & _ & _ & _ & p & Hp & E & _). by simplify_eq.
  - assert (head a <> Some 91) as H91.
    { intros H91. destruct a as [|c a]; [done|]. injection H91 as ->. done. }
    assert (forall p, port_text p n -> ((head a <> Some 91 /\ a = h ++ [58] ++ p /\ 58 ∉ h) \/
      (exists r, a = str "[" ++ r /\ first_split (str "]:") r h p /\ is_Some (parse_ipv6 h)))
      <-> rsplit_once 58 a = Some (h, p) /\ 58 ∉ h) as Hform.
    { intros p [Hp _]. rewrite rsplit_once_spec. split.
      - intros [(_ & -> & Hh)|(r & -> & _)]; [|done]. split_and!; [done| |done].
        apply parse_uint_text in Hp as (_ & _ & Ht). rewrite Forall_forall in Ht. intros Hin. by destruct (Ht 58 Hin).
      - intros [[-> _] Hh]. by left. }
    destruct (rsplit_once 58 a) as [[h' p']|] eqn:Hsp; simpl.
    2: { split; [done|]. intros (_ & _ & _ & _ & p & Hp & Hf). apply Hform in Hf as [? _]; done. }
    case_bool_decide as Hh; simpl.
    { split; [done|]. intros (_ & _ & _ & ? & p & Hp & Hf). apply Hform in Hf as [? _]; [congruence|done]. }
    case_bool_decide as Hv; simpl.
    { split; [done|]. intros (_ & _ & _ & _ & p & Hp & Hf). apply Hform in Hf as [? ?]; [congruence|done]. }
    rewrite (Hfin h' p'). split.
    + intros [-> Hp]. split_and!; try done. exists p'. split; [done|]. by apply Hform.
    + intros (_ & _ & _ & _ & p & Hp & Hf). apply Hform in Hf as [E _]; [|done]. by simplify_eq.
Qed.

Lemma connect_authority_exact_witness :
  parse_connect_authority (str "[2001:db8::1]:443") = Ok {| host := str "2001:db8::1"; port := 443 |} /\
  parse_connect_authority (str "example.com:80") = Ok {| host := str "example.com"; port := 80 |} /\
  exists p, port_text p 80.
Proof.
  assert (parse_connect_authority (str "example.com:80") = Ok {| host := str "example.com"; port := 80 |}) as H
    by (vm_compute; reflexivity).
  split; [vm_compute; reflexivity|]. split; [exact H|].
  apply connect_authority_exact in H as (_ & _ & _ & _ & p & Hp & _). exists p. exact Hp.
Defined.
