(* ===== verification/ConnectIp.v ===== *)
(** * CONNECT-IP request targets

    Models [src/uri/connect_ip.rs]: the configured path and query template, the
    match of a request against it and the two scope variables.  [IpNet::new]
    is the ipnet crate's, through the interface of [Net] and [Policy]. *)

From Stdlib Require Import String.
From S2P Require Import Prelude Net AddrText Policy Uri.
Open Scope Z_scope.

Inductive Variable_ := Target | Protocol.
#[global] Instance Variable_eq_dec : EqDecision Variable_.
Proof. solve_decision. Defined.

Definition variable_parse (value : bytes) : result UriError Variable_ :=
  if bool_decide (value = str "target") then Ok Target
  else if bool_decide (value = str "ipproto") then Ok Protocol
  else Err InvalidTemplate.

Definition variable_name (v : Variable_) : bytes :=
  match v with Target => str "target" | Protocol => str "ipproto" end.

(** Decoding exactly once; a malformed escape or non-UTF-8 data fails. *)
Fixpoint decode_bytes (s : bytes) : option bytes :=
  match s with
  | [] => Some []
  | b :: s' =>
      if bool_decide (b = 37) then
        match s' with
        | h :: l :: rest =>
            high ← hex_digit h;
            low ← hex_digit l;
            r ← decode_bytes rest;
            Some (Z.lor (Z.shiftl high 4) low :: r)
        | _ => None
        end
      else r ← decode_bytes s'; Some (b :: r)
  end.

Definition decode (value : bytes) : option bytes :=
  d ← decode_bytes value;
  if utf8_ok d then Some d else None.

Definition parse_protocol (value : bytes) : result UriError (option Z) :=
  decoded ← ok_or (InvalidProtocol value) (decode value);
  if bool_decide (decoded = str "*") then Ok None
  else if bool_decide (decoded = []) || bool_decide (3 < length decoded)%nat
          || negb (forallb is_ascii_digit decoded)
  then Err (InvalidProtocol value)
  else match parse_uint U8_MAX decoded with
       | Some n => Ok (Some n)
       | None => Err (InvalidProtocol value)
       end.

(** The punctuation of a reg-name. *)
Definition reg_name_punctuation : bytes := str "-._~!$&'()*+,;=".

Inductive Component :=
| Literal (text : bytes)
| VariableComponent (v : Variable_).

Record QueryParameter := {
  param_name : bytes;
  value : Component;
  optional : bool;
}.

Record Template := {
  path : list Component;
  query : list QueryParameter;
}.

Definition printable (s : bytes) : bool := forallb (fun b => bool_decide (0x21 <= b <= 0x7e)) s.

(** [variables] is the set of the names seen so far. *)
Definition component_parse (value : bytes) (variables : gset bytes)
    : result UriError (Component * gset bytes) :=
  match (v ← strip_prefix (str "{") value; strip_suffix (str "}") v) with
  | Some name =>
      variable ← variable_parse name;
      if bool_decide (variable_name variable ∈ variables) then Err InvalidTemplate
      else Ok (VariableComponent variable, {[variable_name variable]} ∪ variables)
  | None =>
      if contains_byte 123 value || contains_byte 125 value || bool_decide (decode value = None)
      then Err InvalidTemplate
      else Ok (Literal value, variables)
  end.

Fixpoint parse_components (parts : list bytes) (variables : gset bytes)
    : result UriError (list Component * gset bytes) :=
  match parts with
  | [] => Ok ([], variables)
  | part :: parts' =>
      c ← component_parse part variables;
      rest ← parse_components parts' c.2;
      Ok (c.1 :: rest.1, rest.2)
  end.

(** The fixed pairs [name=value] of the query. *)
Fixpoint parse_fixed_query (pairs : list bytes) (variables names : gset bytes) (query : list QueryParameter)
    : result UriError (list QueryParameter * gset bytes * gset bytes) :=
  match pairs with
  | [] => Ok (query, variables, names)
  | item :: pairs' =>
      nv ← ok_or InvalidTemplate (split_once (str "=") item);
      let '(name, value) := nv : bytes * bytes in
      if bool_decide (name = []) || (contains_byte 123 name || contains_byte 125 name)
         || bool_decide (decode name = None) || bool_decide (name ∈ names)
      then Err InvalidTemplate
      else
        c ← component_parse value variables;
        parse_fixed_query pairs' c.2 ({[name]} ∪ names)
          (query ++ [{| param_name := name; value := c.1; optional := false |}])
  end.

(** The names of a [{?..}] or [{&..}] expansion. *)
Fixpoint parse_expansion (names_list : list bytes) (variables names : gset bytes) (query : list QueryParameter)
    : result UriError (list QueryParameter) :=
  match names_list with
  | [] => Ok query
  | name :: rest =>
      variable ← variable_parse name;
      if bool_decide (variable_name variable ∈ variables) || bool_decide (name ∈ names)
      then Err InvalidTemplate
      else parse_expansion rest ({[variable_name variable]} ∪ variables) ({[name]} ∪ names)
             (query ++ [{| param_name := name; value := VariableComponent variable; optional := true |}])
  end.

(** The part before the expansion and the text of the expansion. *)
Definition split_expansion (template : bytes) : result UriError (bytes * option bytes) :=
  match (match split_once (str "{?") template with
         | Some (fixed, rest) => Some (fixed, rest, false)
         | None => match split_once (str "{&") template with
                   | Some (fixed, rest) => Some (fixed, rest, true)
                   | None => None
                   end
         end) with
  | Some (fixed, rest, ampersand) =>
      expression ← ok_or InvalidTemplate (strip_suffix (str "}") rest);
      if negb (Bool.eqb ampersand (contains_byte 63 fixed)) then Err InvalidTemplate
      else Ok (fixed, Some expression)
  | None => Ok (template, None)
  end.

Definition template_parse (template : bytes) : result UriError Template :=
  if negb (starts_with (str "/") template) || starts_with (str "//") template
     || contains_byte 35 template || negb (printable template)
  then Err InvalidTemplate else
  fe ← split_expansion template;
  let '(fixed, expansion) := fe : bytes * option bytes in
  let '(path_text, fixed_query) :=
    match split_once (str "?") fixed with Some (p, q) => (p, Some q) | None => (fixed, None) end in
  pv ← parse_components (split_on 47 path_text) ∅;
  let '(path, variables) := pv : list Component * gset bytes in
  qvn ← match fixed_query with
        | Some q => parse_fixed_query (split_on 38 q) variables ∅ []
        | None => Ok ([], variables, ∅)
        end;
  let '(query, variables, names) := qvn : list QueryParameter * gset bytes * gset bytes in
  query ← match expansion with
          | Some e => parse_expansion (split_on 44 e) variables names query
          | None => Ok query
          end;
  Ok {| path := path; query := query |}.

Definition validate_ip_template (template : bytes) : result UriError unit :=
  _ ← template_parse template; Ok tt.

Section capture.
  Context {N4 N6 : Type} `{!NetOps N4, !NetOps N6, !NetNew N4, !NetNew N6}.

(** [IpNet::new(address, prefix)] followed by [network()]. *)
Definition network_of (address : IpAddr) (len : Z) : option IpAddr :=
  match address with
  | IpV4 z => (fun n : N4 => IpV4 (network n)) <$> net_new z len
  | IpV6 z => (fun n : N6 => IpV6 (network n)) <$> net_new z len
  end.

Definition parse_target (value : bytes) : result UriError (option bytes) :=
  if contains_byte 58 value || contains_byte 47 value then Err InvalidTarget else
  decoded ← ok_or InvalidTarget (decode value);
  if bool_decide (decoded = str "*") then Ok None
  else if bool_decide (decoded = []) then Err InvalidTarget
  else
    match split_once (str "/") decoded with
    | Some (address, prefix_text) =>
        address ← ok_or InvalidTarget (parse_ip address);
        let bits := if is_ipv4 address then 32 else 128 in
        let digits := if is_ipv4 address then 2%nat else 3%nat in
        if bool_decide (prefix_text = []) || bool_decide (digits < length prefix_text)%nat
           || negb (forallb is_ascii_digit prefix_text)
        then Err InvalidTarget
        else
          len ← ok_or InvalidTarget (parse_uint U8_MAX prefix_text);
          if bool_decide (len > bits) then Err InvalidTarget
          else
            network ← ok_or InvalidTarget (network_of address len);
            if negb (bool_decide (network = address)) then Err InvalidTarget
            else Ok (Some decoded)
    | None =>
        if contains_byte 58 decoded then
          _ ← ok_or InvalidTarget (parse_ipv6 decoded); Ok (Some decoded)
        else if negb (forallb (fun b => is_ascii_alphanumeric b || contains_byte b reg_name_punctuation) decoded)
        then Err InvalidTarget
        else Ok (Some decoded)
    end.

Definition component_capture (c : Component) (text : bytes) (t : IpTarget) : result UriError IpTarget :=
  match c with
  | Literal expected => if bool_decide (expected = text) then Ok t else Err PathMismatch
  | VariableComponent Target => v ← parse_target text; Ok {| target := v; ipproto := ipproto t |}
  | VariableComponent Protocol => v ← parse_protocol text; Ok {| target := target t; ipproto := v |}
  end.

Fixpoint capture_path (components : list Component) (segments : list bytes) (t : IpTarget)
    : result UriError (IpTarget * list bytes) :=
  match components with
  | [] => Ok (t, segments)
  | c :: components' =>
      match segments with
      | [] => Err PathMismatch
      | s :: segments' => t ← component_capture c s t; capture_path components' segments' t
      end
  end.

Definition find_parameter (q : list QueryParameter) (name : bytes) : option QueryParameter :=
  snd <$> list_find (fun p => param_name p = name) q.

Fixpoint capture_query (q : list QueryParameter) (pairs : list bytes) (seen : gset bytes) (t : IpTarget)
    : result UriError (IpTarget * gset bytes) :=
  match pairs with
  | [] => Ok (t, seen)
  | item :: pairs' =>
      nv ← ok_or PathMismatch (split_once (str "=") item);
      let '(name, text) := nv : bytes * bytes in
      parameter ← ok_or PathMismatch (find_parameter q name);
      if bool_decide (name ∈ seen) then Err PathMismatch
      else
        t ← component_capture (value parameter) text t;
        capture_query q pairs' ({[name]} ∪ seen) t
  end.

Definition capture (T : Template) (uri : bytes) : result UriError IpTarget :=
  if contains_byte 35 uri || negb (printable uri) then Err PathMismatch else
  let '(path_text, query_text) :=
    match split_once (str "?") uri with Some (p, q) => (p, Some q) | None => (uri, None) end in
  tr ← capture_path (path T) (split_on 47 path_text) {| target := None; ipproto := None |};
  let '(t, rest) := tr : IpTarget * list bytes in
  if negb (bool_decide (rest = [])) then Err PathMismatch else
  ts ← match query_text with
       | Some q => capture_query (query T) (split_on 38 q) ∅ t
       | None => Ok (t, ∅)
       end;
  let '(t, seen) := ts : IpTarget * gset bytes in
  if existsb (fun p => negb (optional p) && negb (bool_decide (param_name p ∈ seen))) (query T)
  then Err PathMismatch
  else Ok t.

Definition parse_ip_path (path_text template : bytes) : result UriError IpTarget :=
  T ← template_parse template; capture T path_text.
End capture.

(** ** Templates name each variable and each parameter once *)

Definition component_var (c : Component) : option Variable_ :=
  match c with VariableComponent v => Some v | Literal _ => None end.
Definition path_vars (cs : list Component) : list Variable_ := omap component_var cs.
Definition query_vars (q : list QueryParameter) : list Variable_ := omap (component_var ∘ value) q.

Definition template_ok (T : Template) : Prop :=
  NoDup (path_vars (path T) ++ query_vars (query T)) /\ NoDup (param_name <$> query T).

(** The variables collected so far, against the set of their names. *)
Definition tracked (vs : list Variable_) (variables : gset bytes) : Prop :=
  NoDup vs /\ forall v, v ∈ vs -> variable_name v ∈ variables.

Lemma component_parse_inv text variables c variables' :
  component_parse text variables = Ok (c, variables') ->
  match c with
  | VariableComponent v => variable_name v ∉ variables /\ variables' = {[variable_name v]} ∪ variables
  | Literal _ => variables' = variables
  end.
Proof.
  unfold component_parse. destruct (strip_prefix (str "{") text ≫= _) as [name|].
  - intros H. apply bind_Ok in H as (v & _ & H). case_bool_decide; [done|]. by simplify_eq.
  - case_match; [done|]. intros. by simplify_eq.
Qed.

Lemma tracked_add vs variables v :
  tracked vs variables -> variable_name v ∉ variables ->
  tracked (vs ++ [v]) ({[variable_name v]} ∪ variables).
Proof.
  intros [Hn Hin] Hv. split.
  - apply NoDup_app. split_and!; [done| |apply NoDup_singleton]. intros u Hu ->%list_elem_of_singleton. by apply Hv, Hin.
  - intros u [Hu| ->%list_elem_of_singleton]%elem_of_app; [apply Hin in Hu|]; set_solver.
Qed.

(** One more component. *)
Lemma tracked_component vs variables text c variables' :
  tracked vs variables -> component_parse text variables = Ok (c, variables') ->
  tracked (vs ++ omap component_var [c]) variables'.
Proof.
  intros Ht Hc%component_parse_inv. destruct c as [l|v]; simpl.
  - subst. by rewrite app_nil_r.
  - destruct Hc as [Hv ->]. by apply tracked_add.
Qed.

Lemma parse_components_tracked parts vs variables cs variables' :
  tracked vs variables -> parse_components parts variables = Ok (cs, variables') ->
  tracked (vs ++ path_vars cs) variables'.
Proof.
  revert vs variables cs. induction parts as [|part parts IH]; intros vs variables cs Ht H; simpl in H.
  - simplify_eq. by rewrite app_nil_r.
  - apply bind_Ok in H as ([c vs1] & Hc & H). apply bind_Ok in H as ([cs1 vs2] & Hr & H). simplify_eq/=.
    eapply tracked_component in Hc; [|done]. eapply IH in Hr; [|done]. rewrite <- app_assoc in Hr.
    unfold path_vars in *. by rewrite <- omap_app in Hr.
Qed.

Definition named (q : list QueryParameter) (names : gset bytes) : Prop :=
  NoDup (param_name <$> q) /\ forall p, p ∈ q -> param_name p ∈ names.

Lemma named_add q names p :
  named q names -> param_name p ∉ names -> named (q ++ [p]) ({[param_name p]} ∪ names).
Proof.
  intros [Hn Hin] Hp. split.
  - rewrite fmap_app. apply NoDup_app. split_and!; [done| |apply NoDup_singleton].
    intros n (p' & -> & Hp')%list_elem_of_fmap Hs%list_elem_of_singleton. apply Hp. rewrite <- Hs. by apply Hin.
  - intros p' [Hp'| ->%list_elem_of_singleton]%elem_of_app; [apply Hin in Hp'|]; set_solver.
Qed.

Lemma query_vars_snoc q p : query_vars (q ++ [p]) = query_vars q ++ omap component_var [value p].
Proof. unfold query_vars. rewrite omap_app. simpl. by destruct (component_var (value p)). Qed.

Lemma parse_fixed_query_ok pairs pv variables names q q' variables' names' :
  tracked (pv ++ query_vars q) variables -> named q names ->
  parse_fixed_query pairs variables names q = Ok (q', variables', names') ->
  tracked (pv ++ query_vars q') variables' /\ named q' names'.
Proof.
  revert variables names q. induction pairs as [|item pairs IH]; intros variables names q Ht Hn H; simpl in H.
  - by simplify_eq.
  - apply bind_Ok in H as ([name text] & _ & H). destruct (bool_decide (name ∈ names)) eqn:Hin.
    { by rewrite orb_true_r in H. }
    apply bool_decide_eq_false in Hin. case_match; [done|]. apply bind_Ok in H as ([c vs] & Hc & H).
    eapply tracked_component in Hc; [|done]. eapply IH in H; [done| |].
    + rewrite query_vars_snoc, app_assoc. done.
    + by apply named_add.
Qed.

Lemma parse_expansion_ok ns pv variables names q q' :
  tracked (pv ++ query_vars q) variables -> named q names ->
  parse_expansion ns variables names q = Ok q' ->
  NoDup (pv ++ query_vars q') /\ NoDup (param_name <$> q').
Proof.
  revert variables names q. induction ns as [|name ns IH]; intros variables names q Ht Hn H; simpl in H.
  - simplify_eq. split; [apply Ht|apply Hn].
  - apply bind_Ok in H as (v & Hv & H). case_bool_decide as H1; [done|]. case_bool_decide as H2; [done|].
    eapply IH in H; [done| |].
    + rewrite query_vars_snoc, app_assoc. by apply tracked_add.
    + by apply named_add.
Qed.

Lemma template_parse_ok template T : template_parse template = Ok T -> template_ok T.
Proof.
  unfold template_parse. case_match; [done|]. intros H0.
  apply bind_Ok in H0 as ([fixed expansion] & _ & H0). cbv beta iota in H0.
  destruct (match split_once (str "?") fixed with Some (p, q) => (p, Some q) | None => (fixed, None) end) as [pt fq].
  apply bind_Ok in H0 as ([cs vs] & Hp & H0).
  assert (tracked (path_vars cs) vs) as Ht.
  { eapply (parse_components_tracked _ [] ∅) in Hp; [done|]. split; [constructor|]. by intros ? ?%elem_of_nil. }
  apply bind_Ok in H0 as ([[q vs'] names] & Hq & H0). apply bind_Ok in H0 as (q' & Hq' & H0). simplify_eq.
  assert (tracked (path_vars cs ++ query_vars q) vs' /\ named q names) as [Ht' Hn'].
  { destruct fq as [fq|]; simplify_eq.
    - eapply parse_fixed_query_ok; [| |exact Hq]; [by rewrite app_nil_r|]. split; [constructor|]. by intros ? ?%elem_of_nil.
    - rewrite app_nil_r. split; [done|]. split; [constructor|]. by intros ? ?%elem_of_nil. }
  unfold template_ok; simpl. destruct expansion as [e|]; simplify_eq.
  - by eapply parse_expansion_ok.
  - split; [apply Ht'|apply Hn'].
Qed.

(** ** What a request supplies for each variable *)

Definition path_values (v : Variable_) (cs : list Component) (segments : list bytes) : list bytes :=
  omap (fun e => if decide (component_var e.1 = Some v) then Some e.2 else None) (zip cs segments).

Definition pair_value (v : Variable_) (q : list QueryParameter) (item : bytes) : option bytes :=
  '(name, text) ← split_once (str "=") item;
  p ← find_parameter q name;
  if decide (component_var (value p) = Some v) then Some text else None.
Definition query_values (v : Variable_) (q : list QueryParameter) (pairs : list bytes) : list bytes :=
  omap (pair_value v q) pairs.

Definition captured (T : Template) (uri : bytes) (v : Variable_) : list bytes :=
  match split_once (str "?") uri with
  | Some (p, q) => path_values v (path T) (split_on 47 p) ++ query_values v (query T) (split_on 38 q)
  | None => path_values v (path T) (split_on 47 uri)
  end.

Definition unset (v : Variable_) (t : IpTarget) : Prop :=
  match v with Target => target t = None | Protocol => ipproto t = None end.

Lemma path_values_cons v c cs s segments :
  path_values v (c :: cs) (s :: segments)
  = (if decide (component_var c = Some v) then [s] else []) ++ path_values v cs segments.
Proof. unfold path_values. simpl. by destruct (decide _). Qed.

Lemma path_vars_cons c cs :
  path_vars (c :: cs) = match component_var c with Some u => [u] | None => [] end ++ path_vars cs.
Proof. unfold path_vars. simpl. by destruct (component_var c). Qed.

Section capture_facts.
  Context {N4 N6 : Type} `{NetLaws 32 N4, NetLaws 128 N6}.
  Context `{!NetNew N4, !NetNew N6, !NetNewLaws 32 N4, !NetNewLaws 128 N6}.
  Notation parse_target := (parse_target (N4:=N4) (N6:=N6)).
  Notation component_capture := (component_capture (N4:=N4) (N6:=N6)).
  Notation capture_path := (capture_path (N4:=N4) (N6:=N6)).
  Notation capture_query := (capture_query (N4:=N4) (N6:=N6)).
  Notation capture := (capture (N4:=N4) (N6:=N6)).

Definition reflects (v : Variable_) (text : bytes) (t : IpTarget) : Prop :=
  match v with Target => parse_target text = Ok (target t) | Protocol => parse_protocol text = Ok (ipproto t) end.
Definition same (v : Variable_) (t t' : IpTarget) : Prop :=
  match v with Target => target t' = target t | Protocol => ipproto t' = ipproto t end.

(** The field of [v] after the values [vs] were captured one after the other. *)
Definition after_values (v : Variable_) (vs : list bytes) (t t' : IpTarget) : Prop :=
  match last vs with Some text => reflects v text t' | None => same v t t' end.

Lemma component_capture_inv c text t t' v :
  component_capture c text t = Ok t' ->
  if decide (component_var c = Some v) then reflects v text t' else same v t t'.
Proof.
  destruct c as [l|[]]; simpl.
  - case_bool_decide; [|done]. intros [= <-]. by destruct v.
  - intros Hc. apply bind_Ok in Hc as (x & Hx & [= <-]). by destruct v.
  - intros Hc. apply bind_Ok in Hc as (x & Hx & [= <-]). by destruct v.
Qed.

Lemma after_values_cons v text vs t t1 t' c :
  component_capture c text t = Ok t1 -> after_values v vs t1 t' ->
  after_values v ((if decide (component_var c = Some v) then [text] else []) ++ vs) t t'.
Proof.
  intros Hc Ha. apply (component_capture_inv _ _ _ _ v) in Hc. unfold after_values in *.
  destruct (last vs) as [x|] eqn:Hl.
  - rewrite last_app, Hl. done.
  - apply last_None in Hl as ->. rewrite app_nil_r. destruct (decide _); simpl.
    + destruct v; simpl in *; congruence.
    + destruct v; simpl in *; congruence.
Qed.

Lemma capture_path_values v cs segments t t' rest :
  capture_path cs segments t = Ok (t', rest) ->
  after_values v (path_values v cs segments) t t' /\ (length cs <= length segments)%nat.
Proof.
  revert segments t. induction cs as [|c cs IH]; intros segments t; simpl.
  - intros [= <- <-]. split; [by destruct v|lia].
  - destruct segments as [|s segments]; [done|]. intros Hc. apply bind_Ok in Hc as (t1 & Hc & Hr).
    destruct (IH _ _ Hr) as [Ha Hl]. split; [|simpl; lia].
    rewrite path_values_cons. by eapply after_values_cons.
Qed.

Lemma path_values_none v cs segments : v ∉ path_vars cs -> path_values v cs segments = [].
Proof.
  revert segments. induction cs as [|c cs IH]; intros [|s segments] Hv; try done.
  rewrite path_vars_cons in Hv. rewrite path_values_cons, IH by set_solver.
  destruct (decide _) as [Hc|]; [|done]. rewrite Hc in Hv. set_solver.
Qed.

Lemma path_values_one v cs segments :
  NoDup (path_vars cs) -> (length cs <= length segments)%nat -> v ∈ path_vars cs ->
  exists text, path_values v cs segments = [text].
Proof.
  revert segments. induction cs as [|c cs IH]; intros [|s segments] Hn Hl Hv; simpl in Hl;
    try (by apply elem_of_nil in Hv); try lia.
  rewrite path_vars_cons in Hn, Hv. rewrite path_values_cons. destruct (decide _) as [Hc|Hc].
  - rewrite Hc in Hn. apply NoDup_cons in Hn as [Hu _]. exists s. by rewrite path_values_none.
  - apply NoDup_app in Hn as (_ & _ & Hn). apply IH; [done|lia|].
    destruct (component_var c); set_solver.
Qed.

Lemma find_parameter_Some q name p : find_parameter q name = Some p -> p ∈ q /\ param_name p = name.
Proof.
  unfold find_parameter. intros ([i p'] & Hf & ->)%fmap_Some.
  apply list_find_Some in Hf as (Hp & <- & _). split; [by eapply list_elem_of_lookup_2|done].
Qed.

(** With distinct names a parameter is found under its name. *)
Lemma find_parameter_name q p : NoDup (param_name <$> q) -> p ∈ q -> find_parameter q (param_name p) = Some p.
Proof.
  intros Hn [i Hi]%list_elem_of_lookup. unfold find_parameter.
  assert (list_find (fun p' => param_name p' = param_name p) q = Some (i, p)) as ->; [|done].
  apply list_find_Some. split_and!; [done|done|]. intros j p' Hj Hlt He.
  assert (j = i); [|lia]. eapply NoDup_lookup; [exact Hn| |].
  - by rewrite list_lookup_fmap, Hj.
  - simpl. by rewrite list_lookup_fmap, Hi, He.
Qed.

Lemma query_values_cons v q item pairs :
  query_values v q (item :: pairs)
  = match pair_value v q item with Some text => [text] | None => [] end ++ query_values v q pairs.
Proof. unfold query_values. simpl. by destruct (pair_value v q item). Qed.

(** One pair of a query that was accepted. *)
Lemma capture_query_cons q item pairs seen t r :
  capture_query q (item :: pairs) seen t = Ok r ->
  exists name text p t1, split_once (str "=") item = Some (name, text) /\ find_parameter q name = Some p /\
    name ∉ seen /\ component_capture (value p) text t = Ok t1 /\
    capture_query q pairs ({[name]} ∪ seen) t1 = Ok r /\
    forall v, pair_value v q item = if decide (component_var (value p) = Some v) then Some text else None.
Proof.
  simpl. intros Hc. apply bind_Ok in Hc as ([name text] & Hs & Hc).
  apply bind_Ok in Hc as (p & Hp & Hc). case_bool_decide as Hseen; [done|].
  apply bind_Ok in Hc as (t1 & Ht & Hc).
  destruct (split_once (str "=") item) as [nt|] eqn:Hsp; simplify_eq/=.
  destruct (find_parameter q name) as [p'|] eqn:Hf; simplify_eq/=.
  exists name, text, p, t1. split_and!; try done. intros v. unfold pair_value. by rewrite Hsp; simpl; rewrite Hf.
Qed.

Lemma capture_query_values v q pairs seen t t' seen' :
  capture_query q pairs seen t = Ok (t', seen') -> after_values v (query_values v q pairs) t t'.
Proof.
  revert seen t. induction pairs as [|item pairs IH]; intros seen t Hc.
  - simpl in Hc. simplify_eq. by destruct v.
  - apply capture_query_cons in Hc as (name & text & p & t1 & _ & _ & _ & Hc & Hr & Hv).
    rewrite query_values_cons, Hv. apply IH in Hr. pose proof (after_values_cons v text _ t t1 t' _ Hc Hr) as Ha.
    by destruct (decide _).
Qed.

Lemma query_var_unique q v p p' :
  NoDup (query_vars q) -> p ∈ q -> p' ∈ q ->
  component_var (value p) = Some v -> component_var (value p') = Some v -> p = p'.
Proof.
  unfold query_vars. induction q as [|r q IH]; intros Hn Hp Hp' Hv Hv'; [by apply elem_of_nil in Hp|].
  assert (forall x, x ∈ q -> component_var (value x) = Some v -> v ∈ omap (component_var ∘ value) q) as Hin.
  { intros x Hx Hxv. apply list_elem_of_omap. by exists x. }
  apply elem_of_cons in Hp as [-> |Hp], Hp' as [-> |Hp']; [done| | |].
  - simpl in Hn. rewrite Hv in Hn. apply NoDup_cons in Hn as [Hn _]. by destruct Hn; eapply Hin.
  - simpl in Hn. rewrite Hv' in Hn. apply NoDup_cons in Hn as [Hn _]. by destruct Hn; eapply Hin.
  - apply IH; try done. simpl in Hn. destruct (component_var (value r)); [by apply NoDup_cons in Hn as [_ Hn]|done].
Qed.

Lemma query_values_seen v q pairs seen t r p :
  NoDup (query_vars q) -> p ∈ q -> component_var (value p) = Some v -> param_name p ∈ seen ->
  capture_query q pairs seen t = Ok r -> query_values v q pairs = [].
Proof.
  intros Hn Hp Hv. revert seen t. induction pairs as [|item pairs IH]; intros seen t Hs Hc; [done|].
  apply capture_query_cons in Hc as (name & text & p' & t1 & _ & Hf & Hns & _ & Hr & Hpv).
  assert (param_name p ∈ {[name]} ∪ seen) as Hs' by set_solver.
  rewrite query_values_cons, Hpv, (IH _ _ Hs' Hr). destruct (decide _) as [Hv'|]; [|done].
  apply find_parameter_Some in Hf as [Hp' <-]. by rewrite (query_var_unique q v p p') in Hs.
Qed.

Lemma query_values_one v q pairs seen t r :
  NoDup (query_vars q) -> capture_query q pairs seen t = Ok r ->
  query_values v q pairs = [] \/ exists text, query_values v q pairs = [text].
Proof.
  intros Hn. revert seen t. induction pairs as [|item pairs IH]; intros seen t Hc; [by left|].
  apply capture_query_cons in Hc as (name & text & p & t1 & _ & Hf & _ & _ & Hr & Hpv).
  rewrite query_values_cons, Hpv. destruct (decide _) as [Hv|]; [|by eapply IH].
  apply find_parameter_Some in Hf as [Hp <-]. right. exists text.
  rewrite (query_values_seen v q pairs ({[param_name p]} ∪ seen) t1 r p); [done|done|done|done|set_solver|done].
Qed.

Lemma query_values_none v q pairs : v ∉ query_vars q -> query_values v q pairs = [].
Proof.
  intros Hv. induction pairs as [|item pairs IH]; [done|]. rewrite query_values_cons, IH, app_nil_r.
  unfold pair_value. destruct (split_once _ item) as [[name text]|]; [|done]. simpl.
  destruct (find_parameter q name) as [p|] eqn:Hf; [|done]. simpl. destruct (decide _) as [Hc|]; [|done].
  destruct Hv. apply list_elem_of_omap. exists p. by apply find_parameter_Some in Hf as [? _].
Qed.

(** A parameter whose name was seen supplied its value. *)
Lemma query_values_supplied v q pairs seen t t' seen' p :
  NoDup (param_name <$> q) -> p ∈ q -> component_var (value p) = Some v ->
  capture_query q pairs seen t = Ok (t', seen') -> param_name p ∈ seen' -> param_name p ∉ seen ->
  query_values v q pairs <> [].
Proof.
  intros Hn Hp Hv. revert seen t. induction pairs as [|item pairs IH]; intros seen t Hc Hin Hns.
  - simpl in Hc. simplify_eq. by destruct Hns.
  - apply capture_query_cons in Hc as (name & text & p' & t1 & _ & Hf & _ & _ & Hr & Hpv).
    rewrite query_values_cons, Hpv. destruct (decide (name = param_name p)) as [-> |Hne].
    + rewrite find_parameter_name in Hf by done. injection Hf as <-. by rewrite decide_True.
    + destruct (decide _); [done|]. eapply IH; [exact Hr|done|set_solver].
Qed.

(** ** Values and their scopes *)

(** A target with a slash is a network: an address without host bits. *)
Definition target_ok (d : bytes) : Prop :=
  forall a p, split_once (str "/") d = Some (a, p) ->
    exists ip len, parse_ip a = Some ip /\ parse_uint U8_MAX p = Some len /\
      match ip with
      | IpV4 z => len <= 32 /\ (2 ^ (32 - len) | z)
      | IpV6 z => len <= 128 /\ (2 ^ (128 - len) | z)
      end.

(** What a supplied text makes of the scope. *)
Definition scope_of (v : Variable_) (text : bytes) (t : IpTarget) : Prop :=
  exists d, decode text = Some d /\
    ((d = str "*" /\ unset v t) \/
     (d <> str "*" /\ match v with
                      | Target => target t = Some d /\ d <> [] /\ target_ok d
                      | Protocol => exists n, ipproto t = Some n /\ parse_uint U8_MAX d = Some n
                      end)).

Lemma network_of_aligned a len z :
  0 <= len -> ipaddr_ok a -> network_of (N4:=N4) (N6:=N6) a len = Some z -> z = a ->
  len <= (if is_ipv4 a then 32 else 128) ->
  match a with IpV4 z => (2 ^ (32 - len) | z) | IpV6 z => (2 ^ (128 - len) | z) end.
Proof.
  intros H0l Hok Hn -> Hl. destruct a as [x|x]; simpl in *.
  - destruct (net_new_spec (w:=32) (net:=N4) x len) as (n & Hnew & _ & Hnet); [done|lia|].
    rewrite Hnew in Hn. injection Hn as Hn. exists (x / 2 ^ (32 - len)). lia.
  - destruct (net_new_spec (w:=128) (net:=N6) x len) as (n & Hnew & _ & Hnet); [done|lia|].
    rewrite Hnew in Hn. injection Hn as Hn. exists (x / 2 ^ (128 - len)). lia.
Qed.

Lemma parse_target_scope text t : parse_target text = Ok (target t) -> scope_of Target text t.
Proof.
  unfold parse_target, scope_of. destruct (contains_byte 58 text || contains_byte 47 text); [done|].
  intros Hp. apply bind_Ok in Hp as (d & Hd & Hp). exists d.
  destruct (decode text) as [d'|]; [|done]. simplify_eq/=. split; [done|].
  case_bool_decide as Hstar. { left. split; [done|]. simpl. congruence. }
  case_bool_decide as Hnil; [done|]. right. split; [done|]. unfold target_ok.
  destruct (split_once (str "/") d) as [[a p]|] eqn:Hs.
  - apply bind_Ok in Hp as (ip & Hip & Hp). destruct (parse_ip a) as [ip'|] eqn:Hpa; simplify_eq/=.
    case_match; [done|]. apply bind_Ok in Hp as (len & Hlen & Hp).
    destruct (parse_uint U8_MAX p) as [len'|] eqn:Hpl; simplify_eq/=.
    case_bool_decide as Hbits; [done|]. apply bind_Ok in Hp as (net & Hnet & Hp).
    destruct (network_of ip len) as [net'|] eqn:Hno; simplify_eq/=. case_bool_decide as Heq; simplify_eq/=.
    split_and!; [congruence|done|]. intros a' p' [= <- <-]. exists ip, len. split_and!; [done|done|].
    pose proof (parse_uint_text _ _ _ Hpl) as (_ & Hr & _).
    assert (ipaddr_ok ip) as Hok by (by eapply parse_ip_ok).
    pose proof (network_of_aligned ip len ip ltac:(lia) Hok Hno eq_refl ltac:(lia)). destruct ip; simpl in *; split; done || lia.
  - destruct (contains_byte 58 d).
    + apply bind_Ok in Hp as (z & _ & Hp). simplify_eq. split_and!; [congruence|done|naive_solver].
    + case_match; [done|]. simplify_eq. split_and!; [congruence|done|naive_solver].
Qed.

Lemma parse_protocol_scope text t : parse_protocol text = Ok (ipproto t) -> scope_of Protocol text t.
Proof.
  unfold parse_protocol, scope_of. intros Hp. apply bind_Ok in Hp as (d & Hd & Hp). exists d.
  destruct (decode text) as [d'|]; [|done]. simplify_eq/=. split; [done|].
  case_bool_decide as Hstar. { left. split; [done|]. simpl. congruence. }
  case_match; [done|]. right. split; [done|]. destruct (parse_uint U8_MAX d) as [n|]; [|done].
  exists n. split; [congruence|done].
Qed.

(** The path's values and the query's, put together. *)
Lemma scope_join (T : Template) (v : Variable_) (segments : list bytes) (t1 t : IpTarget) (qv : list bytes) (seen : gset bytes) :
  template_ok T ->
  capture_path (path T) segments {| target := None; ipproto := None |} = Ok (t1, []) ->
  after_values v qv t1 t -> (qv = [] \/ exists text, qv = [text]) ->
  (v ∉ query_vars (query T) -> qv = []) ->
  (forall p, p ∈ query T -> component_var (value p) = Some v -> param_name p ∈ seen -> qv <> []) ->
  existsb (fun p => negb (optional p) && negb (bool_decide (param_name p ∈ seen))) (query T) = false ->
  match path_values v (path T) segments ++ qv with
  | [] => unset v t /\ v ∉ path_vars (path T) /\
          forall p, p ∈ query T -> component_var (value p) = Some v -> optional p = true
  | [text] => reflects v text t
  | _ => False
  end.
Proof.
  intros [Hn Hnames] Hp Hq Hq1 Hq2 Hq3 Hreq. apply NoDup_app in Hn as (Hnp & Hdis & Hnq).
  destruct (capture_path_values v _ _ _ _ _ Hp) as [Ha Hl].
  destruct (decide (v ∈ path_vars (path T))) as [Hv|Hv].
  - destruct (path_values_one v _ _ Hnp Hl Hv) as [text Ht]. rewrite Ht in *.
    rewrite Hq2 in * by (by apply Hdis). unfold after_values in *. simpl in *.
    destruct v; simpl in *; congruence.
  - rewrite path_values_none in * by done. unfold after_values in *. simpl in Ha.
    destruct Hq1 as [-> |[text ->]]; simpl in *; [|done].
    split_and!; [destruct v; simpl in *; congruence|done|]. intros p Hp' Hpv.
    destruct (optional p) eqn:Ho; [done|]. exfalso.
    destruct (decide (param_name p ∈ seen)) as [Hs|Hs]; [by eapply Hq3|].
    apply not_true_iff_false in Hreq. destruct Hreq. apply existsb_exists. exists p.
    rewrite Ho, bool_decide_false by done. split; [by apply list_elem_of_In|done].
Qed.

(** C10: a CONNECT-IP request never gets a wider scope than it asks for.  If a
    request matches the configured template, then for each of the two variables:
    either the request supplies no value, and the template does not require one,
    and the scope is open; or it supplies exactly one, which decodes, and the
    scope is open only for the text [*] and otherwise exactly what the text
    says, a target with a prefix being a network without host bits. *)
Theorem ip_scope_kept (uri template : bytes) (t : IpTarget) :
  parse_ip_path (N4:=N4) (N6:=N6) uri template = Ok t ->
  exists T, template_parse template = Ok T /\ forall v,
    match captured T uri v with
    | [] => unset v t /\ v ∉ path_vars (path T) /\
            forall p, p ∈ query T -> component_var (value p) = Some v -> optional p = true
    | [text] => scope_of v text t
    | _ => False
    end.
Proof.
  intros Hu. apply bind_Ok in Hu as (T & HT & Hc). exists T. split; [done|]. intros v.
  pose proof (template_parse_ok _ _ HT) as HTok.
  unfold capture in Hc. destruct (contains_byte 35 uri || negb (printable uri)); [done|].
  assert (forall text, reflects v text t -> scope_of v text t) as Hscope
    by (intros text; destruct v; [apply parse_target_scope|apply parse_protocol_scope]).
  enough (match captured T uri v with
    | [] => unset v t /\ v ∉ path_vars (path T) /\
            forall p, p ∈ query T -> component_var (value p) = Some v -> optional p = true
    | [text] => reflects v text t
    | _ => False
    end) as Hm by (destruct (captured T uri v) as [|text [|]]; auto).
  unfold captured. destruct (split_once (str "?") uri) as [[p q]|].
  - apply bind_Ok in Hc as ([t1 rest] & Hp & Hc). case_bool_decide as Hr; simpl in Hc; [|done]. subst rest.
    apply bind_Ok in Hc as ([t2 seen] & Hq & Hc). destruct (existsb _ (query T)) eqn:Hreq; [done|]. simplify_eq.
    destruct HTok as [Hn Hnames]. pose proof Hn as (_ & _ & Hnq)%NoDup_app.
    eapply scope_join; [done|done|by eapply capture_query_values|by eapply query_values_one| | |exact Hreq].
    + apply query_values_none.
    + intros p' Hp' Hv Hs. by eapply query_values_supplied.
  - apply bind_Ok in Hc as ([t1 rest] & Hp & Hc). case_bool_decide as Hr; simpl in Hc; [|done]. subst rest.
    destruct (existsb _ (query T)) eqn:Hreq; [done|]. simplify_eq.
    rewrite <- (app_nil_r (path_values _ _ _)).
    eapply scope_join; [done|done|by destruct v|by left|done| |exact Hreq]. set_solver.
Qed.
End capture_facts.

(** ** Witness *)

#[local] Instance cidr6_new : NetNew Cidr6 :=
  fun a len => if bool_decide (0 <= len <= 128) then Some {| cidr6 := {| cidr_addr := a; cidr_len := len |} |} else None.
#[local] Instance cidr6_new_laws : NetNewLaws 128 Cidr6.
Proof.
  intros a len Ha Hl. exists {| cidr6 := {| cidr_addr := a; cidr_len := len |} |}. unfold net_new, cidr6_new.
  rewrite bool_decide_true by done. split; [done|]. unfold prefix, network; simpl.
  rewrite Z.min_r, Z.max_r, Z.mod_small by lia. done.
Qed.

Definition sample_template : bytes := str "/.well-known/masque/ip/{target}/{?ipproto}".

Lemma ip_scope_kept_witness :
  parse_ip_path (N4:=Cidr) (N6:=Cidr6) (str "/.well-known/masque/ip/10.0.0.0%2F8/?ipproto=17") sample_template
    = Ok {| target := Some (str "10.0.0.0/8"); ipproto := Some 17 |} /\
  exists T, template_parse sample_template = Ok T /\
    captured T (str "/.well-known/masque/ip/10.0.0.0%2F8/?ipproto=17") Target = [str "10.0.0.0%2F8"] /\
    scope_of Target (str "10.0.0.0%2F8") {| target := Some (str "10.0.0.0/8"); ipproto := Some 17 |}.
Proof.
  assert (parse_ip_path (N4:=Cidr) (N6:=Cidr6) (str "/.well-known/masque/ip/10.0.0.0%2F8/?ipproto=17") sample_template
    = Ok {| target := Some (str "10.0.0.0/8"); ipproto := Some 17 |}) as H by (vm_compute; reflexivity).
  split; [exact H|]. destruct (ip_scope_kept _ _ _ H) as (T & HT & Hs). exists T. split; [exact HT|].
  specialize (Hs Target).
  assert (captured T (str "/.well-known/masque/ip/10.0.0.0%2F8/?ipproto=17") Target = [str "10.0.0.0%2F8"]) as Hc.
  { vm_compute in HT. injection HT as <-. vm_compute. reflexivity. }
  rewrite Hc in Hs. split; [exact Hc|exact Hs].
Defined.
