(* ===== verification/Auth.v ===== *)
(** * Basic authentication

    Models [src/auth.rs]: the credential set of a listener, the cheap checks of
    a [Proxy-Authorization] value, the cache of verified passwords and the
    single-flight verification that runs one password hash for identical
    concurrent attempts.  The password hash (argon2), the keyed tag (HMAC of the
    ring crate) and base64 are parameters.

    The verification state of a credential is shared by every shard; the last
    part is a step relation whose steps are the critical sections of its lock. *)

From Stdlib Require Import String.
From S2P Require Import Prelude Net Uri Listener.
Open Scope Z_scope.

Definition MAX_AUTHORIZATION_LEN : nat := 8 * 1024.
Definition SUCCESS_CACHE_TTL : Z := 300.
Definition MAX_IN_FLIGHT_PASSWORDS : nat := 256.
Definition MAX_BASIC_USERS_PER_LISTENER : nat := 4096.
#[global] Opaque MAX_AUTHORIZATION_LEN MAX_IN_FLIGHT_PASSWORDS MAX_BASIC_USERS_PER_LISTENER.

Inductive AuthError :=
| EmptyUsername
| BadUsername
| MixedSpellings
| TooManyUsers
| InvalidUser (username : bytes) (e : AuthError)
| InvalidHash (username : bytes)
| WrongAlgorithm (username : bytes)
| KeyGeneration
| DuplicateUser (username : bytes)
| NoUsers.

(** [char::is_control]: U+0000..1F and U+007F..9F, the latter block encoded as
    [C2 80..9F]. *)
Fixpoint has_control (s : bytes) : bool :=
  match s with
  | [] => false
  | b :: s' =>
      bool_decide (b < 32) || bool_decide (b = 127)
      || (bool_decide (b = 0xc2) && match s' with c :: _ => bool_decide (0x80 <= c <= 0x9f) | [] => false end)
      || has_control s'
  end.

Definition check_username (username : bytes) : result AuthError unit :=
  if bool_decide (username = []) then Err EmptyUsername
  else if contains_byte 58 username || has_control username then Err BadUsername
  else Ok tt.

(** [slice::eq_ignore_ascii_case]. *)
Definition to_lower (b : Z) : Z := if bool_decide (65 <= b <= 90) then b + 32 else b.
Definition eq_ignore_ascii_case (a b : bytes) : bool := bool_decide ((to_lower <$> a) = (to_lower <$> b)).

Fixpoint trim_start (s : bytes) : bytes :=
  match s with b :: s' => if is_ascii_whitespace b then trim_start s' else s | [] => [] end.
Definition trim_ascii_whitespace (s : bytes) : bytes := reverse (trim_start (reverse (trim_start s))).

(** [iter().position(..)] followed by [split_at]. *)
Fixpoint split_at_first (P : Z -> bool) (s : bytes) : option (bytes * bytes) :=
  match s with
  | [] => None
  | b :: s' =>
      if P b then Some ([], s)
      else match split_at_first P s' with Some (a, r) => Some (b :: a, r) | None => None end
  end.

Section basic.
  Context {Key : Type}.
  (** [PasswordHash::new(..)] with the algorithm's name, [hmac::Key::generate]
      for the entry at an index, and base64's [STANDARD.decode]. *)
  Context (phc_algorithm : bytes -> option bytes) (generate : nat -> option Key)
    (base64_decode : bytes -> option bytes).

Record BasicCredential := {
  password_hash_ : bytes;
  cache_key : Key;
}.

Record BasicAuthenticator := { users_ : gmap bytes BasicCredential }.

Fixpoint add_entries (index : nat) (entries : list (bytes * bytes)) (m : gmap bytes BasicCredential)
    : result AuthError (gmap bytes BasicCredential) :=
  match entries with
  | [] => Ok m
  | (username, password_hash) :: entries' =>
      if bool_decide (MAX_BASIC_USERS_PER_LISTENER <= index)%nat then Err TooManyUsers else
      _ ← map_err (InvalidUser username) (check_username username);
      algorithm ← ok_or (InvalidHash username) (phc_algorithm password_hash);
      if negb (bool_decide (algorithm = str "argon2id")) then Err (WrongAlgorithm username) else
      key ← ok_or KeyGeneration (generate index);
      let credential := {| password_hash_ := password_hash; cache_key := key |} in
      match m !! username with
      | Some _ => Err (DuplicateUser username)
      | None => add_entries (S index) entries' (<[username := credential]> m)
      end
  end.

Definition from_entries (entries : list (bytes * bytes)) : result AuthError BasicAuthenticator :=
  m ← add_entries 0 entries ∅;
  if bool_decide (m = ∅) then Err NoUsers else Ok {| users_ := m |}.

Definition authenticator_new (username password_hash : bytes) : result AuthError BasicAuthenticator :=
  from_entries [(username, password_hash)].

Definition auth_from_section (auth : AuthSection) : result AuthError BasicAuthenticator :=
  if negb (bool_decide (length (users auth) = 0%nat)) then
    if negb (bool_decide (username auth = EmptyString)) || negb (bool_decide (password_hash auth = EmptyString))
    then Err MixedSpellings
    else from_entries ((fun u => (str (user_name u), str (user_hash u))) <$> users auth)
  else authenticator_new (str (username auth)) (str (password_hash auth)).

Definition authenticator_len (a : BasicAuthenticator) : nat := size (users_ a).

Inductive AuthPrecheck :=
| Authenticated
| Rejected
| NeedsVerify (credential : BasicCredential) (password : bytes).

(** [cached credential password] is the state of the credential's cache. *)
Definition precheck (a : BasicAuthenticator) (cached : BasicCredential -> bytes -> bool) (value : option bytes)
    : AuthPrecheck :=
  match value with
  | None => Rejected
  | Some value =>
      if bool_decide (MAX_AUTHORIZATION_LEN < length value)%nat then Rejected else
      match split_at_first is_ascii_whitespace value with
      | None => Rejected
      | Some (scheme, credentials) =>
          if negb (eq_ignore_ascii_case scheme (str "basic")) then Rejected else
          let credentials := trim_ascii_whitespace credentials in
          if bool_decide (credentials = []) || existsb is_ascii_whitespace credentials then Rejected else
          match base64_decode credentials with
          | None => Rejected
          | Some decoded =>
              match split_at_first (fun b => bool_decide (b = 58)) decoded with
              | None => Rejected
              | Some (username, password_with_colon) =>
                  let password := drop 1 password_with_colon in
                  match users_ a !! username with
                  | None => Rejected
                  | Some credential =>
                      if cached credential password then Authenticated else NeedsVerify credential password
                  end
              end
          end
      end
  end.

(** [SharedBasicAuthenticator]: the current set, replaced as a whole. *)
Record SharedBasicAuthenticator := { current : BasicAuthenticator }.
Definition shared_precheck (s : SharedBasicAuthenticator) := precheck (current s).
Definition shared_replace (s : SharedBasicAuthenticator) (a : BasicAuthenticator)
    : SharedBasicAuthenticator * nat :=
  ({| current := a |}, authenticator_len a).
End basic.

(** ** Verification of one credential

    Flights are identified by numbers; [results] holds the watch channel of each
    flight, [leaders] the live [PasswordLeader]s by their flight, and [waiters]
    the live [PasswordWaiter]s with the flight they follow. *)

Inductive FlightResult := Pending | Complete (result : bool) | Abandoned.
#[global] Instance FlightResult_eq_dec : EqDecision FlightResult.
Proof. solve_decision. Defined.

Record VerificationState := {
  success : option (bytes * Z);
  in_flight : gmap bytes nat;
}.

(** [verified] is the outcome of the password hash once it has run. *)
Record PasswordLeader := {
  digest : bytes;
  leader_password : bytes;
  verified : option bool;
  completed : bool;
}.

(** The caller keeps the password it waits for. *)
Record PasswordWaiter := {
  followed : nat;
  waiter_password : bytes;
}.

Record Credential := {
  verification : VerificationState;
  results : gmap nat FlightResult;
  leaders : gmap nat PasswordLeader;
  waiters : gmap nat PasswordWaiter;
}.

Definition credential_new : Credential :=
  {| verification := {| success := None; in_flight := ∅ |}; results := ∅; leaders := ∅; waiters := ∅ |}.

Inductive PasswordVerification :=
| Cached
| Leader (flight : nat)
| Follower (waiter : nat).

Section verification.
  (** [hmac::sign] under the credential's key, and [verify_password] against its
      stored hash, which is [false] where the hash does not parse. *)
  Context (sign : bytes -> bytes) (verify_password : bytes -> bool).

(** [hmac::verify] recomputes the tag. *)
Definition cached (s : VerificationState) (password : bytes) (now : Z) : bool :=
  match success s with
  | Some (tag, expires) => bool_decide (now < expires) && bool_decide (sign password = tag)
  | None => false
  end.

(** Whether some owner keeps the flight alive. *)
Definition flight_live (c : Credential) (f : nat) : bool :=
  bool_decide (is_Some (leaders c !! f)) || existsb (fun e => bool_decide (followed e.2 = f)) (map_to_list (waiters c)).

(** [fresh] names the flight or the waiter that the call creates. *)
Definition begin_verification (c : Credential) (password : bytes) (now : Z) (fresh : nat)
    : Credential * PasswordVerification :=
  let digest := sign password in
  let s := verification c in
  if cached s password now then (c, Cached) else
  let live := filter (fun e => flight_live c e.2 = true) (in_flight s) in
  match live !! digest with
  | Some f =>
      ({| verification := {| success := success s; in_flight := live |}; results := results c;
          leaders := leaders c; waiters := <[fresh := {| followed := f; waiter_password := password |}]> (waiters c) |},
       Follower fresh)
  | None =>
      let registered :=
        if bool_decide (size live < MAX_IN_FLIGHT_PASSWORDS)%nat then <[digest := fresh]> live else live in
      ({| verification := {| success := success s; in_flight := registered |};
          results := <[fresh := Pending]> (results c);
          leaders := <[fresh := {| digest := digest; leader_password := password; verified := None;
                                   completed := false |}]> (leaders c);
          waiters := waiters c |}, Leader fresh)
  end.

(** [BasicCredential::verify], run by the leader of [f]. *)
Definition leader_hash (c : Credential) (f : nat) (l : PasswordLeader) (now : Z) : Credential :=
  let authorized := verify_password (leader_password l) in
  {| verification :=
       {| success := if authorized then Some (sign (leader_password l), now + SUCCESS_CACHE_TTL)
                     else success (verification c);
          in_flight := in_flight (verification c) |};
     results := results c;
     leaders := <[f := {| digest := digest l; leader_password := leader_password l;
                          verified := Some authorized; completed := false |}]> (leaders c);
     waiters := waiters c |}.

(** The rest of [PasswordLeader::verify]: publishing the result. *)
Definition leader_publish (c : Credential) (f : nat) (l : PasswordLeader) (authorized : bool) : Credential :=
  {| verification := verification c;
     results := <[f := Complete authorized]> (results c);
     leaders := <[f := {| digest := digest l; leader_password := leader_password l;
                          verified := verified l; completed := true |}]> (leaders c);
     waiters := waiters c |}.

(** [Drop for PasswordLeader]. *)
Definition leader_drop (c : Credential) (f : nat) (l : PasswordLeader) : Credential :=
  let s := verification c in
  {| verification :=
       {| success := success s;
          in_flight := if bool_decide (in_flight s !! digest l = Some f)
                       then delete (digest l) (in_flight s) else in_flight s |};
     results := if completed l then results c else <[f := Abandoned]> (results c);
     leaders := delete f (leaders c);
     waiters := waiters c |}.

(** What [PasswordWaiter::wait] returns when it looks at its flight: [None] to
    go on waiting. *)
Definition waiter_poll (c : Credential) (w : nat) : option (option bool) :=
  wt ← waiters c !! w;
  r ← results c !! followed wt;
  match r with
  | Complete result => Some (Some result)
  | Abandoned => Some None
  | Pending => None
  end.

Definition waiter_drop (c : Credential) (w : nat) : Credential :=
  {| verification := verification c; results := results c; leaders := leaders c;
     waiters := delete w (waiters c) |}.

Inductive auth_step : Credential -> Credential -> Prop :=
| step_begin c password now fresh :
    results c !! fresh = None -> waiters c !! fresh = None ->
    auth_step c (begin_verification c password now fresh).1
| step_hash c f l now :
    leaders c !! f = Some l -> verified l = None -> auth_step c (leader_hash c f l now)
| step_publish c f l authorized :
    leaders c !! f = Some l -> verified l = Some authorized -> completed l = false ->
    auth_step c (leader_publish c f l authorized)
| step_leader_drop c f l :
    leaders c !! f = Some l -> auth_step c (leader_drop c f l)
| step_waiter_drop c w : auth_step c (waiter_drop c w).

(** Some password with the tag [d] was hashed, with this outcome. *)
Definition hashed (d : bytes) (outcome : bool) : Prop :=
  exists p, sign p = d /\ verify_password p = outcome.

(** [d] is the digest of every flight [f] that anything refers to: [digest_of]
    is fixed when the flight is created. *)
Definition credential_ok (c : Credential) (digest_of : nat -> bytes) : Prop :=
  (forall tag expires, success (verification c) = Some (tag, expires) -> hashed tag true) /\
  (forall f r, results c !! f = Some (Complete r) -> hashed (digest_of f) r) /\
  (forall f, results c !! f = Some Pending ->
     exists l, leaders c !! f = Some l /\ completed l = false) /\
  (forall f l, leaders c !! f = Some l -> is_Some (results c !! f) /\
     digest l = digest_of f /\ sign (leader_password l) = digest_of f /\
     (forall b, verified l = Some b -> hashed (digest_of f) b)) /\
  (forall d f, in_flight (verification c) !! d = Some f -> is_Some (results c !! f) /\ digest_of f = d) /\
  (forall w wt, waiters c !! w = Some wt ->
     is_Some (results c !! followed wt) /\ sign (waiter_password wt) = digest_of (followed wt)) /\
  (size (in_flight (verification c)) <= MAX_IN_FLIGHT_PASSWORDS)%nat.

Lemma begin_ok c d password now fresh :
  credential_ok c d -> results c !! fresh = None -> waiters c !! fresh = None ->
  exists d', credential_ok (begin_verification c password now fresh).1 d'.
Proof.
  intros Hok Hr Hw. pose proof Hok as (H1 & H2 & H3 & H4 & H5 & H6 & H7). unfold begin_verification.
  destruct (cached (verification c) password now); [by exists d|].
  set (live := filter _ (in_flight (verification c))).
  assert (forall k f, live !! k = Some f -> in_flight (verification c) !! k = Some f) as Hlive
    by (intros k f Hk; by apply map_lookup_filter_Some in Hk as [? _]).
  assert (size live <= size (in_flight (verification c)))%nat as Hsz
    by (apply map_subseteq_size, map_filter_subseteq).
  destruct (live !! sign password) as [f|] eqn:Hf; cbn [fst].
  - exists d. split_and!; simpl; try done.
    + intros k f' Hk. by apply H5, Hlive.
    + intros w wt. rewrite lookup_insert_Some. intros [[_ <-]|[_ Hwt]]; [|by apply (H6 w)]. simpl.
      apply Hlive, H5 in Hf as [? ->]. done.
    + lia.
  - exists (fun f => if decide (f = fresh) then sign password else d f).
    assert (forall f, is_Some (results c !! f) -> f <> fresh) as Hne by (intros f [? ?] ->; congruence).
    assert (forall f, is_Some (results c !! f) -> is_Some (<[fresh:=Pending]> (results c) !! f)) as Hkeep
      by (intros f Hs; rewrite lookup_insert_ne; [done|by apply not_eq_sym, Hne]).
    split_and!; simpl.
    + done.
    + intros f r. rewrite lookup_insert_Some. intros [[_ ?]|[Hfr Hres]]; [done|].
      rewrite decide_False by done. by apply H2.
    + intros f. rewrite !lookup_insert_Some. intros [[-> _]|[Hfr Hres]].
      * eexists. rewrite lookup_insert_eq. by split.
      * rewrite lookup_insert_ne by done. by apply H3.
    + intros f l. rewrite lookup_insert_Some. intros [[<- <-]|[Hfr Hl]].
      * rewrite lookup_insert_eq, decide_True by done. by split_and!.
      * destruct (H4 f l Hl) as (? & ? & ? & ?). rewrite lookup_insert_ne, decide_False by done. done.
    + intros k f Hk. assert (live !! k = Some f \/ (k = sign password /\ f = fresh)) as [Hk'|[-> ->]].
      { case_bool_decide; [|by left]. apply lookup_insert_Some in Hk as [[<- <-]|[_ ?]]; auto. }
      * apply Hlive, H5 in Hk' as [Hs <-]. split; [by apply Hkeep|]. by rewrite decide_False by (by apply Hne).
      * rewrite lookup_insert_eq, decide_True by done. done.
    + intros w wt Hwt. destruct (H6 w wt Hwt) as [Hs Hd]. split; [by apply Hkeep|].
      by rewrite decide_False by (by apply Hne).
    + case_bool_decide as Hlt; [|lia]. rewrite map_size_insert_None by done. lia.
Qed.

Lemma hash_ok c d f l now :
  credential_ok c d -> leaders c !! f = Some l -> verified l = None -> credential_ok (leader_hash c f l now) d.
Proof.
  intros (H1 & H2 & H3 & H4 & H5 & H6 & H7) Hl Hv. destruct (H4 f l Hl) as (Hs & Hd & Hp & _).
  split_and!; simpl; try done.
  - intros tag expires. destruct (verify_password (leader_password l)) eqn:Hauth; [|apply H1].
    intros [= <- _]. by exists (leader_password l).
  - intros g Hg. destruct (H3 g Hg) as (l' & Hl' & Hc'). destruct (decide (g = f)) as [-> |Hgf].
    + eexists. by rewrite lookup_insert_eq.
    + exists l'. by rewrite lookup_insert_ne.
  - intros g l'. rewrite lookup_insert_Some. intros [[<- <-]|[_ Hl']]; [|by apply H4].
    split_and!; try done. intros b [= <-]. by exists (leader_password l).
Qed.

Lemma publish_ok c d f l b :
  credential_ok c d -> leaders c !! f = Some l -> verified l = Some b -> credential_ok (leader_publish c f l b) d.
Proof.
  intros (H1 & H2 & H3 & H4 & H5 & H6 & H7) Hl Hv. destruct (H4 f l Hl) as (Hs & Hd & Hp & Hh).
  assert (forall g, is_Some (results c !! g) -> is_Some (<[f:=Complete b]> (results c) !! g)) as Hkeep.
  { intros g Hg. destruct (decide (g = f)) as [-> |]; [by rewrite lookup_insert_eq|by rewrite lookup_insert_ne]. }
  split_and!; simpl.
  - done.
  - intros g r. rewrite lookup_insert_Some. intros [[<- [= <-]]|[_ Hg]]; [by apply Hh|by apply H2].
  - intros g. rewrite !lookup_insert_Some. intros [[_ ?]|[Hne Hg]]; [done|].
    rewrite lookup_insert_ne by done. by apply H3.
  - intros g l'. rewrite lookup_insert_Some. intros [[<- <-]|[Hne Hl']].
    + split_and!; [by apply Hkeep|done|done|done].
    + destruct (H4 g l' Hl') as (? & ? & ? & ?). split_and!; try done. by apply Hkeep.
  - intros k g Hk. destruct (H5 k g Hk). split; [by apply Hkeep|done].
  - intros w wt Hw. destruct (H6 w wt Hw). split; [by apply Hkeep|done].
  - done.
Qed.

Lemma leader_drop_ok c d f l :
  credential_ok c d -> leaders c !! f = Some l -> credential_ok (leader_drop c f l) d.
Proof.
  intros (H1 & H2 & H3 & H4 & H5 & H6 & H7) Hl. destruct (H4 f l Hl) as (Hs & Hd & Hp & Hh).
  set (res := if completed l then results c else <[f := Abandoned]> (results c)).
  assert (forall g, is_Some (results c !! g) -> is_Some (res !! g)) as Hkeep.
  { intros g Hg. unfold res. destruct (completed l); [done|].
    destruct (decide (g = f)) as [-> |]; [by rewrite lookup_insert_eq|by rewrite lookup_insert_ne]. }
  assert (forall g r, res !! g = Some r -> r <> Abandoned -> results c !! g = Some r /\
    (r = Pending -> g <> f)) as Hback.
  { intros g r. unfold res. destruct (completed l) eqn:Hc.
    - intros Hg _. split; [done|]. intros -> ->. destruct (H3 f Hg) as (l' & Hl' & Hc'). congruence.
    - rewrite lookup_insert_Some. intros [[_ <-]|[Hne Hg]] Hr; [done|]. split; [done|]. intros _. congruence. }
  split_and!; simpl; fold res.
  - done.
  - intros g r Hg. apply Hback in Hg as [Hg _]; [by apply H2|done].
  - intros g Hg. apply Hback in Hg as [Hg Hne]; [|done]. specialize (Hne eq_refl).
    destruct (H3 g Hg) as (l' & Hl' & Hc'). exists l'. by rewrite lookup_delete_ne.
  - intros g l' [_ Hl']%lookup_delete_Some. destruct (H4 g l' Hl') as (? & ? & ? & ?).
    split_and!; try done. by apply Hkeep.
  - intros k g Hk. assert (in_flight (verification c) !! k = Some g) as Hk'.
    { case_bool_decide; [by apply lookup_delete_Some in Hk as [_ ?]|done]. }
    destruct (H5 k g Hk'). split; [by apply Hkeep|done].
  - intros w wt Hw. destruct (H6 w wt Hw). split; [by apply Hkeep|done].
  - case_bool_decide; [|done]. etrans; [apply map_subseteq_size, delete_subseteq|done].
Qed.

Lemma auth_step_ok c c' d : credential_ok c d -> auth_step c c' -> exists d', credential_ok c' d'.
Proof.
  intros Hok Hs. destruct Hs.
  - by eapply begin_ok.
  - exists d. by apply hash_ok.
  - exists d. by apply publish_ok.
  - exists d. by apply leader_drop_ok.
  - exists d. destruct Hok as (H1 & H2 & H3 & H4 & H5 & H6 & H7). split_and!; simpl; try done.
    intros w' wt [_ Hw]%lookup_delete_Some. by apply (H6 w').
Qed.

Lemma reachable_credential_ok c : rtc auth_step credential_new c -> exists d, credential_ok c d.
Proof.
  intros Hr. assert (exists d, credential_ok credential_new d) as H0.
  { exists (fun _ => []). split_and!; simpl; try done.
    rewrite map_size_empty. lia. }
  remember credential_new as c0. clear Heqc0. induction Hr as [|c0 c1 c2 Hs _ IH]; [done|].
  destruct H0 as [d Hd]. apply IH. by eapply auth_step_ok.
Qed.

(** C12: a password is accepted only after it was hashed.  In every state that
    concurrent attempts, verifications, cancellations and expiries can reach: a
    cache hit, and a result handed to a waiting attempt, stand for a run of the
    password hash with this outcome on a password with the same keyed tag; and
    an attempt that is still waiting follows a live leader, so a cancelled leader
    never leaves it waiting.  The table of attempts stays bounded. *)
Theorem verified_before_accepted (c : Credential) :
  rtc auth_step credential_new c ->
  (forall password now, cached (verification c) password now = true -> hashed (sign password) true) /\
  (forall w wt, waiters c !! w = Some wt ->
     match waiter_poll c w with
     | Some (Some result) => hashed (sign (waiter_password wt)) result
     | Some None => True
     | None => exists l, leaders c !! followed wt = Some l /\ completed l = false
     end) /\
  (size (in_flight (verification c)) <= MAX_IN_FLIGHT_PASSWORDS)%nat.
Proof.
  intros Hr. destruct (reachable_credential_ok c Hr) as (d & H1 & H2 & H3 & H4 & H5 & H6 & H7).
  split_and!; [| |done].
  - intros password now. unfold cached. destruct (success (verification c)) as [[tag expires]|] eqn:Hs; [|done].
    intros [_ ->%bool_decide_eq_true]%andb_true_iff. by eapply H1.
  - intros w wt Hw. destruct (H6 w wt Hw) as [[r Hr'] Hd]. unfold waiter_poll. rewrite Hw. simpl. rewrite Hr'. simpl.
    destruct r as [|b|]; [by apply H3|rewrite Hd; by apply H2|done].
Qed.
End verification.

(** ** Witness: a follower of a successful leader *)

Definition sample_follow : Credential :=
  let c := (begin_verification id credential_new [1] 0 0).1 in
  let c := (begin_verification id c [1] 0 1).1 in
  match leaders c !! 0%nat with
  | Some l =>
      let c := leader_hash id (fun _ => true) c 0 l 5 in
      match leaders c !! 0%nat with Some l => leader_publish c 0 l true | None => c end
  | None => c
  end.

Lemma verified_before_accepted_witness :
  rtc (auth_step id (fun _ => true)) credential_new sample_follow /\
  waiter_poll sample_follow 1 = Some (Some true) /\
  hashed id (fun _ => true) [1] true.
Proof.
  assert (rtc (auth_step id (fun _ => true)) credential_new sample_follow) as Hr.
  { eapply rtc_l; [apply (step_begin _ _ credential_new [1] 0 0%nat); reflexivity|].
    eapply rtc_l; [apply (step_begin _ _ _ [1] 0 1%nat); vm_compute; reflexivity|].
    eapply rtc_l; [eapply (step_hash _ _ _ 0%nat _ 5); vm_compute; reflexivity|].
    eapply rtc_l; [eapply (step_publish _ _ _ 0%nat _ true); vm_compute; reflexivity|].
    vm_compute. apply rtc_refl. }
  split; [exact Hr|]. split; [vm_compute; reflexivity|].
  destruct (verified_before_accepted id (fun _ => true) sample_follow Hr) as (_ & Hw & _).
  exact (Hw 1%nat {| followed := 0; waiter_password := [1] |} ltac:(vm_compute; reflexivity)).
Defined.
