(* ===== verification/Config.v ===== *)
(** * The server configuration

    Models the sections of [src/config.rs] and their defaults.  A size, a count
    or a number of seconds is a [Z]; a path is its text.  The sections of a
    listener are those of [Listener.v], the roster entries those of
    [ClientIdentity.v]; reading the TOML text is the [toml] crate's. *)

From stdpp Require Import strings.
From S2P Require Import Prelude Net Policy ClientIdentity Listener Retry.
Open Scope Z_scope.

Record ServerSection := {
  idle_timeout_secs : Z;
  max_connections : Z;
  max_connections_per_ip : Z;
  max_pending_auth_per_ip : Z;
  max_tunnels_per_connection : Z;
}.

Record TlsSection := { cert_path : string; key_path : string }.

Record QuicSection := {
  q_max_datagram_size : Z;
  initial_max_streams_bidi : Z;
  enable_dgram : bool;
  q_enable_udp_gso : bool;
  enable_udp_gro : bool;
  udp_recv_buffer_size : Z;
  udp_send_buffer_size : Z;
  cc_algorithm : string;
  initial_congestion_window_packets : Z;
  initial_max_data : Z;
  initial_max_stream_data : Z;
  max_connection_window : Z;
  max_stream_window : Z;
  dgram_recv_queue_len : Z;
  dgram_send_queue_len : Z;
  discover_pmtu : bool;
  retry_mode : QuicRetryMode;
  retry_connection_threshold : Z;
  retry_token_ttl_secs : Z;
}.

Record Http2Section := {
  initial_stream_window : Z;
  initial_connection_window : Z;
  max_concurrent_streams : Z;
  max_header_list_size : Z;
  max_send_buffer_size : Z;
  data_frame_budget : Z;
  h2_max_datagram_size : Z;
}.

Record UdpProxySection := {
  udp_enabled : bool;
  udp_connect_timeout_secs : Z;
  udp_uri_template : string;
  udp_allow_targets : list string;
  udp_deny_targets : list string;
  udp_enable_udp_gso : bool;
}.

Record TcpProxySection := {
  tcp_enabled : bool;
  tcp_connect_timeout_secs : Z;
  tcp_allow_targets : list string;
  tcp_deny_targets : list string;
}.

Record IpProxySection := {
  ip_enabled : bool;
  ip_allow_targets : list string;
  ip_deny_targets : list string;
  require_tun : bool;
  ip_uri_template : string;
  connect_protocols : list string;
  tun_name : string;
  tun_mtu : Z;
  tun_offload : bool;
  ipv4_pool : string;
  ipv6_pool : string;
}.

Record ObservabilitySection := { obs_listen_addr : option SocketAddr }.

Record ServerConfig := {
  server : ServerSection;
  tls : TlsSection;
  quic_ : QuicSection;
  http2 : Http2Section;
  tcp_proxy : TcpProxySection;
  udp_proxy : UdpProxySection;
  ip_proxy : IpProxySection;
  observability : ObservabilitySection;
  clients : list ClientEntry;
  listeners : list ListenerSection;
}.

#[global] Instance QuicSection_eta : Eta QuicSection := fun r =>
  {| q_max_datagram_size := q_max_datagram_size r; initial_max_streams_bidi := initial_max_streams_bidi r;
     enable_dgram := enable_dgram r; q_enable_udp_gso := q_enable_udp_gso r; enable_udp_gro := enable_udp_gro r;
     udp_recv_buffer_size := udp_recv_buffer_size r; udp_send_buffer_size := udp_send_buffer_size r;
     cc_algorithm := cc_algorithm r; initial_congestion_window_packets := initial_congestion_window_packets r;
     initial_max_data := initial_max_data r; initial_max_stream_data := initial_max_stream_data r;
     max_connection_window := max_connection_window r; max_stream_window := max_stream_window r;
     dgram_recv_queue_len := dgram_recv_queue_len r; dgram_send_queue_len := dgram_send_queue_len r;
     discover_pmtu := discover_pmtu r; retry_mode := retry_mode r;
     retry_connection_threshold := retry_connection_threshold r; retry_token_ttl_secs := retry_token_ttl_secs r |}.
#[global] Instance ServerConfig_eta : Eta ServerConfig := fun r =>
  {| server := server r; tls := tls r; quic_ := quic_ r; http2 := http2 r; tcp_proxy := tcp_proxy r;
     udp_proxy := udp_proxy r; ip_proxy := ip_proxy r; observability := observability r;
     clients := clients r; listeners := listeners r |}.

(** ** Defaults *)

Definition KiB : Z := 1024.
Definition MiB : Z := 1024 * 1024.

Definition default_deny_targets : list string :=
  ["127.0.0.0/8"; "10.0.0.0/8"; "169.254.0.0/16"; "172.16.0.0/12"; "192.168.0.0/16";
   "::1/128"; "fc00::/7"; "fe80::/10"]%string.

Definition ServerSection_default : ServerSection :=
  {| idle_timeout_secs := 60; max_connections := 10000; max_connections_per_ip := 64;
     max_pending_auth_per_ip := 8; max_tunnels_per_connection := 100 |}.

Definition TlsSection_default : TlsSection :=
  {| cert_path := "certs/server.crt"; key_path := "certs/server.key" |}.

Definition AuthSection_default : AuthSection :=
  {| enabled := true; mode := Basic; stealth := false; username := EmptyString;
     password_hash := EmptyString; users := [] |}.

Definition QuicSection_default : QuicSection :=
  {| q_max_datagram_size := 1350; initial_max_streams_bidi := 128; enable_dgram := true;
     q_enable_udp_gso := false; enable_udp_gro := true; udp_recv_buffer_size := 0; udp_send_buffer_size := 0;
     cc_algorithm := "bbr2"; initial_congestion_window_packets := 32;
     initial_max_data := 16 * MiB; initial_max_stream_data := 4 * MiB;
     max_connection_window := 24 * MiB; max_stream_window := 16 * MiB;
     dgram_recv_queue_len := 2048; dgram_send_queue_len := 2048; discover_pmtu := false;
     retry_mode := Adaptive; retry_connection_threshold := 64; retry_token_ttl_secs := 30 |}.

Definition Http2Section_default : Http2Section :=
  {| initial_stream_window := MiB; initial_connection_window := 16 * MiB; max_concurrent_streams := 128;
     max_header_list_size := 8 * KiB; max_send_buffer_size := 256 * KiB; data_frame_budget := 256 * KiB;
     h2_max_datagram_size := 65527 |}.

Definition UdpProxySection_default : UdpProxySection :=
  {| udp_enabled := true; udp_connect_timeout_secs := 10;
     udp_uri_template := "/.well-known/masque/udp/{target_host}/{target_port}/";
     udp_allow_targets := ["0.0.0.0/0"%string]; udp_deny_targets := default_deny_targets;
     udp_enable_udp_gso := false |}.

Definition TcpProxySection_default : TcpProxySection :=
  {| tcp_enabled := true; tcp_connect_timeout_secs := 10;
     tcp_allow_targets := ["0.0.0.0/0"; "::/0"]%string; tcp_deny_targets := default_deny_targets |}.

Definition IpProxySection_default : IpProxySection :=
  {| ip_enabled := true; ip_allow_targets := ["0.0.0.0/0"; "::/0"]%string;
     ip_deny_targets := default_deny_targets; require_tun := false;
     ip_uri_template := "/.well-known/masque/ip/{target}/{ipproto}/";
     connect_protocols := ["connect-ip"; "cf-connect-ip"]%string; tun_name := "masque0"; tun_mtu := 1280;
     tun_offload := true; ipv4_pool := "10.89.0.0/16"; ipv6_pool := "fd00:abcd::/64" |}.

Definition default_listener_shards : Z := 1.

(** The listener of the default configuration, on [0.0.0.0:443]. *)
Definition default_listener : ListenerSection :=
  {| listen_addr := SockV4 0 443; transport := Http3; shards := default_listener_shards;
     max_datagram_size := None; tcp_targets := None; udp_targets := None; auth := AuthSection_default |}.

Definition ServerConfig_default : ServerConfig :=
  {| server := ServerSection_default; tls := TlsSection_default; quic_ := QuicSection_default;
     http2 := Http2Section_default; tcp_proxy := TcpProxySection_default;
     udp_proxy := UdpProxySection_default; ip_proxy := IpProxySection_default;
     observability := {| obs_listen_addr := None |}; clients := []; listeners := [default_listener] |}.
