(* ===== verification/Tls.v ===== *)
(** * The reloadable TLS identity

    Models [src/server/tls.rs]: reading a certificate chain and its key, the
    shared snapshot, and the ClientHello callback that copies the current
    snapshot into a new TLS connection.  BoringSSL and the digest are the class
    [Boring]; a TLS connection is the list of the calls it accepted. *)

From stdpp Require Import strings.
From S2P Require Import Prelude Config.
Open Scope Z_scope.

Class Boring := {
  X509 : Type;
  PKey : Type;
  PublicKey : Type;
  stack_from_pem : bytes -> option (list X509);
  private_key_from_pem : bytes -> option PKey;
  public_key_of : X509 -> option PublicKey;
  public_eq : PublicKey -> PKey -> bool;
  to_der : X509 -> option bytes;
  sha256 : bytes -> bytes;
  (** Whether a context and a validating connection can be created. *)
  context_ok : bool;
}.

Inductive TlsError :=
| UnreadableCertificate | InvalidCertificate | NoCertificate | UnreadableKey | InvalidKey
| NoPublicKey | KeyMismatch | NoDer | NoContext | NotInstalled.

Section tls.
  Context `{Boring}.

Record TlsIdentity := {
  leaf : X509;
  chain : list X509;
  private_key : PKey;
  fingerprint : bytes;
}.

Record TlsSnapshot := { identity : TlsIdentity; generation : Z }.

(** ** One TLS connection *)

Inductive SslCall :=
| SetCertificate (c : X509)
| SetPrivateKey (k : PKey)
| AddChainCert (c : X509)
| SetSessionIdContext (context : bytes)
| SetExData (s : TlsSnapshot).

Definition Ssl : Type := list SslCall.

(** [accepts ssl call]: what BoringSSL answers; storing ex-data cannot fail. *)
Definition call_ (accepts : Ssl -> SslCall -> bool) (ssl : Ssl) (c : SslCall) : Ssl * result TlsError unit :=
  if accepts ssl c then (ssl ++ [c], Ok tt) else (ssl, Err NotInstalled).

Fixpoint add_chain (accepts : Ssl -> SslCall -> bool) (ssl : Ssl) (chain : list X509)
    : Ssl * result TlsError unit :=
  match chain with
  | [] => (ssl, Ok tt)
  | c :: chain' =>
      match call_ accepts ssl (AddChainCert c) with
      | (ssl, Ok _) => add_chain accepts ssl chain'
      | failed => failed
      end
  end.

Definition install (accepts : Ssl -> SslCall -> bool) (i : TlsIdentity) (ssl : Ssl) (generation : Z)
    : Ssl * result TlsError unit :=
  match call_ accepts ssl (SetCertificate (leaf i)) with
  | (ssl, Ok _) =>
      match call_ accepts ssl (SetPrivateKey (private_key i)) with
      | (ssl, Ok _) =>
          match add_chain accepts ssl (chain i) with
          | (ssl, Ok _) => call_ accepts ssl (SetSessionIdContext (be_bytes 8 generation))
          | failed => failed
          end
      | failed => failed
      end
  | failed => failed
  end.

(** ** Loading *)

Fixpoint digest_input (certificates : list X509) : option bytes :=
  match certificates with
  | [] => Some []
  | c :: cs =>
      match to_der c with
      | None => None
      | Some der => (fun rest => be_bytes 8 (zlen der) ++ der ++ rest) <$> digest_input cs
      end
  end.

(** The two files are read one after the other; [read_cert] and [read_key] are
    the file system at those moments. *)
Definition tls_load (accepts : Ssl -> SslCall -> bool) (read_cert read_key : string -> option bytes)
    (config : TlsSection) : result TlsError TlsIdentity :=
  certificate_pem ← ok_or UnreadableCertificate (read_cert (cert_path config));
  certificates ← ok_or InvalidCertificate (stack_from_pem certificate_pem);
  match certificates with
  | [] => Err NoCertificate
  | leaf :: certificates =>
      private_key_pem ← ok_or UnreadableKey (read_key (key_path config));
      private_key ← ok_or InvalidKey (private_key_from_pem private_key_pem);
      public_key ← ok_or NoPublicKey (public_key_of leaf);
      if negb (public_eq public_key private_key) then Err KeyMismatch else
      input ← ok_or NoDer (digest_input (leaf :: certificates));
      let identity := {| leaf := leaf; chain := certificates; private_key := private_key;
                         fingerprint := sha256 input |} in
      if negb context_ok then Err NoContext else
      match install accepts identity [] 0 with
      | (_, Ok _) => Ok identity
      | (_, Err e) => Err e
      | (_, Panic) => Panic
      end
  end.

(** ** The shared snapshot *)

Record SharedTlsIdentity := { current : TlsSnapshot }.

Definition tls_new (i : TlsIdentity) : SharedTlsIdentity :=
  {| current := {| identity := i; generation := 0 |} |}.
Definition tls_shared_load (s : SharedTlsIdentity) : TlsSnapshot := current s.
Definition tls_shared_fingerprint (s : SharedTlsIdentity) : bytes := fingerprint (identity (tls_shared_load s)).
Definition tls_replace (s : SharedTlsIdentity) (i : TlsIdentity) : SharedTlsIdentity * Z :=
  let g := (generation (current s) + 1) mod 2 ^ 64 in
  ({| current := {| identity := i; generation := g |} |}, g).

(** ** The ClientHello callback *)

Definition ex_data (ssl : Ssl) : option TlsSnapshot :=
  last (omap (fun c => match c with SetExData s => Some s | _ => None end) ssl).

(** What the callback does with the snapshot it loaded. *)
Definition select_certificate (accepts : Ssl -> SslCall -> bool) (snapshot : TlsSnapshot) (ssl : Ssl)
    : Ssl * bool :=
  match install accepts (identity snapshot) ssl (generation snapshot) with
  | (ssl, Ok _) => (ssl ++ [SetExData snapshot], true)
  | (ssl, _) => (ssl, false)
  end.

(** Connections are served by many threads while a reload replaces the snapshot:
    a callback that finds no installed identity takes the snapshot, and installs
    it in a later step.  A callback that fails ends its handshake. *)
Inductive Handshake := Idle | Selecting (snapshot : TlsSnapshot) | Failed.

Record TlsWorld := {
  shared_tls : SharedTlsIdentity;
  (** Every snapshot that has been current, oldest first. *)
  snapshots : list TlsSnapshot;
  handshakes : gmap nat (Ssl * Handshake);
}.

Inductive tls_step (accepts : nat -> Ssl -> SslCall -> bool) : TlsWorld -> TlsWorld -> Prop :=
| step_reload w i :
    tls_step accepts w
      {| shared_tls := (tls_replace (shared_tls w) i).1;
         snapshots := snapshots w ++ [current (tls_replace (shared_tls w) i).1];
         handshakes := handshakes w |}
| step_connect w h :
    handshakes w !! h = None ->
    tls_step accepts w
      {| shared_tls := shared_tls w; snapshots := snapshots w; handshakes := <[h := ([], Idle)]> (handshakes w) |}
| step_hello_again w h ssl s :
    (* a second ClientHello on a connection that has its identity *)
    handshakes w !! h = Some (ssl, Idle) -> ex_data ssl = Some s ->
    tls_step accepts w w
| step_hello w h ssl :
    handshakes w !! h = Some (ssl, Idle) -> ex_data ssl = None ->
    tls_step accepts w
      {| shared_tls := shared_tls w; snapshots := snapshots w;
         handshakes := <[h := (ssl, Selecting (tls_shared_load (shared_tls w)))]> (handshakes w) |}
| step_install w h ssl s :
    handshakes w !! h = Some (ssl, Selecting s) ->
    tls_step accepts w
      {| shared_tls := shared_tls w; snapshots := snapshots w;
         handshakes := <[h := match select_certificate (accepts h) s ssl with
                              | (ssl', true) => (ssl', Idle)
                              | (ssl', false) => (ssl', Failed)
                              end]> (handshakes w) |}.

Definition tls_start (i : TlsIdentity) : TlsWorld :=
  {| shared_tls := tls_new i; snapshots := [current (tls_new i)]; handshakes := ∅ |}.

(** The calls that give a connection a snapshot, in order. *)
Definition installation (s : TlsSnapshot) : list SslCall :=
  [SetCertificate (leaf (identity s)); SetPrivateKey (private_key (identity s))] ++
  (AddChainCert <$> chain (identity s)) ++ [SetSessionIdContext (be_bytes 8 (generation s))].

(** ** Lemmas *)

Fixpoint calls (accepts : Ssl -> SslCall -> bool) (ssl : Ssl) (cs : list SslCall) : Ssl * result TlsError unit :=
  match cs with
  | [] => (ssl, Ok tt)
  | c :: cs' => match call_ accepts ssl c with (ssl, Ok _) => calls accepts ssl cs' | failed => failed end
  end.

Lemma calls_app accepts ssl cs cs' :
  calls accepts ssl (cs ++ cs') =
  match calls accepts ssl cs with (ssl, Ok _) => calls accepts ssl cs' | failed => failed end.
Proof.
  revert ssl. induction cs as [|c cs IH]; intros ssl; [done|]. cbn [app calls].
  destruct (call_ accepts ssl c) as [ssl' [?|?|]]; [apply IH|done..].
Qed.

Lemma add_chain_calls accepts ssl l : add_chain accepts ssl l = calls accepts ssl (AddChainCert <$> l).
Proof.
  revert ssl. induction l as [|c l IH]; intros ssl; [done|]. cbn [add_chain fmap list_fmap calls].
  destruct (call_ accepts ssl _) as [ssl' [?|?|]]; [apply IH|done..].
Qed.

Lemma install_calls accepts s ssl :
  install accepts (identity s) ssl (generation s) = calls accepts ssl (installation s).
Proof.
  unfold install, installation. cbn [app calls].
  destruct (call_ accepts ssl _) as [ssl1 [?|?|]]; [|done..].
  destruct (call_ accepts ssl1 _) as [ssl2 [?|?|]]; [|done..].
  rewrite calls_app, add_chain_calls.
  destruct (calls accepts ssl2 _) as [ssl3 [?|?|]]; [|done..]. cbn [calls].
  by destruct (call_ accepts ssl3 _) as [ssl4 [[]|?|]].
Qed.

(** A sequence of calls stops at the first that is refused. *)
Lemma calls_post accepts ssl cs :
  exists k, (calls accepts ssl cs).1 = ssl ++ take k cs /\
    ((calls accepts ssl cs).2 = Ok tt -> (calls accepts ssl cs).1 = ssl ++ cs).
Proof.
  revert ssl. induction cs as [|c cs IH]; intros ssl; cbn [calls].
  - exists 0%nat. cbn. by rewrite app_nil_r.
  - unfold call_. destruct (accepts ssl c); cbn.
    + destruct (IH (ssl ++ [c])) as (k & Hk & Hok). exists (S k).
      split; [by rewrite Hk, <- app_assoc|]. intros Hr. by rewrite (Hok Hr), <- app_assoc.
    + exists 0%nat. cbn. rewrite app_nil_r. done.
Qed.

(** What a handshake holds: one of the snapshots [from], never a mixture. *)
Definition handshake_ok (from : list TlsSnapshot) (c : Ssl * Handshake) : Prop :=
  exists s, s ∈ from /\
    match c.2 with
    | Idle => c.1 = [] \/ c.1 = installation s ++ [SetExData s]
    | Selecting s' => c.1 = [] /\ s' = s
    | Failed => c.1 `prefix_of` installation s
    end.

Lemma handshake_ok_mono from more c : handshake_ok from c -> handshake_ok (from ++ more) c.
Proof. intros (s & Hs & Hc). exists s. split; [|done]. apply elem_of_app. by left. Qed.

Lemma ex_data_installed s : ex_data (installation s ++ [SetExData s]) = Some s.
Proof. unfold ex_data. rewrite omap_app. apply last_snoc. Qed.

Lemma select_ok accepts from s :
  s ∈ from ->
  handshake_ok from (match select_certificate accepts s [] with
                     | (ssl', true) => (ssl', Idle) | (ssl', false) => (ssl', Failed) end).
Proof.
  intros Hs. unfold select_certificate. rewrite install_calls.
  destruct (calls_post accepts [] (installation s)) as (k & Hk & Hok).
  destruct (calls accepts [] (installation s)) as [ssl r]. cbn in Hk, Hok.
  assert (handshake_ok from (ssl, Failed)) as Hf.
  { exists s. split; [done|]. cbn. rewrite Hk. apply prefix_take. }
  destruct r as [[]|e|]; [|done..]. exists s. split; [done|]. right. cbn. by rewrite Hok.
Qed.

(** The snapshots of a world, the current one last, and the handshakes begun
    since the [n]-th of them. *)
Definition world_ok (n : nat) (started : nat -> Prop) (w : TlsWorld) : Prop :=
  last (snapshots w) = Some (current (shared_tls w)) /\ (n < length (snapshots w))%nat /\
  forall h c, started h -> handshakes w !! h = Some c -> handshake_ok (drop n (snapshots w)) c.

Lemma current_recent n (started : nat -> Prop) w :
  world_ok n started w -> current (shared_tls w) ∈ drop n (snapshots w).
Proof.
  intros (Hl & Hn & _). apply last_Some in Hl as (l & Hl). rewrite Hl in *.
  rewrite length_app in Hn. cbn in Hn. rewrite drop_app_le by lia. apply elem_of_app. right. by left.
Qed.

Lemma tls_step_ok accepts n (started : nat -> Prop) w w' :
  world_ok n started w -> tls_step accepts w w' -> world_ok n started w'.
Proof.
  intros Hw Hs. pose proof (current_recent n started w Hw) as Hcur. destruct Hw as (Hl & Hn & Hh).
  destruct Hs as [w i|w h Hh0|w h ssl s Hh0 He|w h ssl Hh0 He|w h ssl s Hh0]; unfold world_ok; cbn.
  - rewrite last_snoc, length_app. split; [done|]. split; [cbn; lia|]. intros h c Hst Hc.
    rewrite drop_app_le by lia. apply handshake_ok_mono. by eapply Hh.
  - split; [done|]. split; [done|]. intros h' c Hst [[<- <-]|[_ Hc]]%lookup_insert_Some; [|by eapply Hh].
    exists (current (shared_tls w)). split; [done|]. by left.
  - done.
  - split; [done|]. split; [done|]. intros h' c Hst [[<- <-]|[_ Hc]]%lookup_insert_Some; [|by eapply Hh].
    destruct (Hh h _ Hst Hh0) as (s & Hs & [Hn'|Hn']); cbn [fst] in Hn'.
    + exists (current (shared_tls w)). done.
    + rewrite Hn', ex_data_installed in He. done.
  - split; [done|]. split; [done|]. intros h' c Hst [[<- <-]|[_ Hc]]%lookup_insert_Some; [|by eapply Hh].
    destruct (Hh h _ Hst Hh0) as (s' & Hs & Hn' & Hs'). cbn [fst] in Hn'. subst ssl s'. by apply select_ok.
Qed.

Lemma tls_steps_ok accepts n (started : nat -> Prop) w w' :
  world_ok n started w -> rtc (tls_step accepts) w w' -> world_ok n started w'.
Proof. intros Hw Hr. induction Hr as [|w w1 w2 Hs _ IH]; [done|]. apply IH. by eapply tls_step_ok. Qed.

(** C18: A TLS connection is given one identity whole.  Whatever reloads run
    between its ClientHello and its installation, and however often the
    ClientHello is processed, the connection holds the certificate, the key, the
    chain and the session namespace of one snapshot, in that order and once, or
    has failed with a part of one; and a connection made after a reload never
    holds a snapshot from before it. *)
Theorem handshake_one_identity accepts i w0 w h :
  rtc (tls_step accepts) (tls_start i) w0 ->
  handshakes w0 !! h = None ->
  rtc (tls_step accepts) w0 w ->
  match handshakes w !! h with
  | Some c => handshake_ok (drop (pred (length (snapshots w0))) (snapshots w)) c
  | None => True
  end.
Proof.
  intros H0 Hh Hr.
  assert (world_ok 0 (fun _ => False) (tls_start i)) as Hi by (split; [done|split; [cbn; lia|done]]).
  apply (tls_steps_ok _ _ _ _ _ Hi) in H0 as (Hl & Hn & _).
  assert (world_ok (pred (length (snapshots w0))) (eq h) w0) as Hw0.
  { split; [done|]. split; [lia|]. intros h' c <- Hc. congruence. }
  destruct (tls_steps_ok _ _ _ _ _ Hw0 Hr) as (_ & _ & Hok).
  destruct (handshakes w !! h) as [c|] eqn:Hc; [|done]. by eapply Hok.
Qed.

(** The digest covers each certificate's length and bytes, so two chains with
    one input are the same chain. *)
Lemma digest_input_inj l l' d :
  (forall c der, to_der c = Some der -> zlen der < 2 ^ 64) ->
  digest_input l = Some d -> digest_input l' = Some d -> to_der <$> l = to_der <$> l'.
Proof.
  intros Hlen. revert l' d. induction l as [|c l IH]; intros l' d Hl Hl'; cbn [digest_input] in Hl.
  - simplify_eq. destruct l' as [|c' l']; [done|]. cbn [digest_input] in Hl'.
    destruct (to_der c'); [|done]. by apply fmap_Some in Hl' as (r & _ & Hd).
  - destruct (to_der c) as [der|] eqn:Hc; [|done]. apply fmap_Some in Hl as (r & Hr & ->).
    destruct l' as [|c' l']; cbn [digest_input] in Hl'.
    { exfalso. by injection Hl'. }
    destruct (to_der c') as [der'|] eqn:Hc'; [|done]. apply fmap_Some in Hl' as (r' & Hr' & Heq).
    apply app_inj_1 in Heq as [Hz Heq]; [|by rewrite !length_be_bytes].
    apply (f_equal be_val) in Hz. rewrite !be_val_be_bytes in Hz.
    pose proof (Hlen _ _ Hc). pose proof (Hlen _ _ Hc'). unfold zlen in *.
    rewrite !Z.mod_small in Hz by lia.
    apply app_inj_1 in Heq as [-> ->]; [|lia]. cbn [fmap list_fmap]. rewrite Hc, Hc'. f_equal. by eapply IH.
Qed.

Lemma tls_load_post accepts fs1 fs2 config i :
  tls_load accepts fs1 fs2 config = Ok i ->
  (exists pem key_pem public,
     fs1 (cert_path config) = Some pem /\ stack_from_pem pem = Some (leaf i :: chain i) /\
     fs2 (key_path config) = Some key_pem /\ private_key_from_pem key_pem = Some (private_key i) /\
     public_key_of (leaf i) = Some public /\ public_eq public (private_key i) = true) /\
  (exists input, digest_input (leaf i :: chain i) = Some input /\ fingerprint i = sha256 input) /\
  (install accepts i [] 0).2 = Ok tt.
Proof.
  unfold tls_load. intros Hl.
  apply bind_Ok in Hl as (pem & Hpem & Hl). apply ok_or_Ok in Hpem.
  apply bind_Ok in Hl as (stack & Hstack & Hl). apply ok_or_Ok in Hstack.
  destruct stack as [|l cs]; [done|].
  apply bind_Ok in Hl as (kpem & Hkpem & Hl). apply ok_or_Ok in Hkpem.
  apply bind_Ok in Hl as (k & Hk & Hl). apply ok_or_Ok in Hk.
  apply bind_Ok in Hl as (pub & Hpub & Hl). apply ok_or_Ok in Hpub.
  destruct (public_eq pub k) eqn:Heq; [|done]. cbn [negb] in Hl.
  apply bind_Ok in Hl as (input & Hinput & Hl). apply ok_or_Ok in Hinput.
  destruct context_ok; [|done]. cbn [negb] in Hl.
  destruct (install _ _ _ _) as [ssl [[]|?|]] eqn:Hi; simplify_eq. cbn [leaf chain private_key fingerprint].
  rewrite Hi. split; [by exists pem, kpem, pub|]. split; [by exists input|done].
Qed.

(** C34: An identity that loads is matched and usable.  Its certificates are those
    of the file in order, its key is the file's and matches the leaf's public
    key, and a connection takes its whole installation.  Two loaded identities
    with one fingerprint have the same certificates, unless the digest collides
    on their inputs. *)
Theorem tls_load_matched accepts fs1 fs2 config i accepts' fs1' fs2' config' i' :
  tls_load accepts fs1 fs2 config = Ok i ->
  tls_load accepts' fs1' fs2' config' = Ok i' ->
  (forall c der, to_der c = Some der -> zlen der < 2 ^ 64) ->
  (exists pem key_pem public,
     fs1 (cert_path config) = Some pem /\ stack_from_pem pem = Some (leaf i :: chain i) /\
     fs2 (key_path config) = Some key_pem /\ private_key_from_pem key_pem = Some (private_key i) /\
     public_key_of (leaf i) = Some public /\ public_eq public (private_key i) = true) /\
  install accepts i [] 0 = (installation {| identity := i; generation := 0 |}, Ok tt) /\
  (fingerprint i = fingerprint i' ->
   to_der <$> (leaf i :: chain i) = to_der <$> (leaf i' :: chain i') \/
   exists input input',
     digest_input (leaf i :: chain i) = Some input /\ digest_input (leaf i' :: chain i') = Some input' /\
     input <> input' /\ sha256 input = sha256 input').
Proof.
  intros Hl Hl' Hlen. apply tls_load_post in Hl as (Hmatch & (d & Hd & Hf) & Hi).
  apply tls_load_post in Hl' as (_ & (d' & Hd' & Hf') & _). split; [done|]. split.
  - pose proof (install_calls accepts {| identity := i; generation := 0 |} []) as Hc. cbn [identity generation] in Hc.
    destruct (calls_post accepts [] (installation {| identity := i; generation := 0 |})) as (_ & _ & Hok).
    rewrite Hc in *. destruct (calls _ _ _) as [ssl r]. cbn in Hi, Hok. by rewrite Hi, Hok.
  - intros Hff. destruct (decide (d = d')) as [->|Hne]; [left; by eapply digest_input_inj|].
    right. exists d, d'. split_and!; [done..|congruence].
Qed.
End tls.

(** ** Witnesses: certificates and keys that are their own encodings, a file a
    list of certificates of one byte each. *)

Definition plain_boring : Boring :=
  {| X509 := Z; PKey := Z; PublicKey := Z;
     stack_from_pem := fun b => Some b; private_key_from_pem := head; public_key_of := fun c => Some (c + 1);
     public_eq := fun p k => bool_decide (p = k); to_der := fun c => Some [c]; sha256 := fun b => b;
     context_ok := true |}.

Definition plain_identity (c : Z) : @TlsIdentity plain_boring :=
  @Build_TlsIdentity plain_boring c [7] (c + 1) [].

Definition plain_files (path : string) : option bytes :=
  if bool_decide (path = "certs/server.crt"%string) then Some [4; 7]
  else if bool_decide (path = "certs/server.key"%string) then Some [5] else None.

Lemma tls_load_matched_witness :
  exists i, @tls_load plain_boring (fun _ _ => true) plain_files plain_files TlsSection_default = Ok i /\
  (exists pem key_pem public,
     plain_files (cert_path TlsSection_default) = Some pem /\
     @stack_from_pem plain_boring pem = Some (leaf i :: chain i) /\
     plain_files (key_path TlsSection_default) = Some key_pem /\
     @private_key_from_pem plain_boring key_pem = Some (private_key i) /\
     @public_key_of plain_boring (leaf i) = Some public /\ public_eq public (private_key i) = true).
Proof.
  exists (@Build_TlsIdentity plain_boring 4 [7] 5 [0; 0; 0; 0; 0; 0; 0; 1; 4; 0; 0; 0; 0; 0; 0; 0; 1; 7]).
  split; [vm_compute; reflexivity|].
  apply (@tls_load_matched plain_boring (fun _ _ => true) plain_files plain_files TlsSection_default _
    (fun _ _ => true) plain_files plain_files TlsSection_default
    (@Build_TlsIdentity plain_boring 4 [7] 5 [0; 0; 0; 0; 0; 0; 0; 1; 4; 0; 0; 0; 0; 0; 0; 0; 1; 7])).
  - vm_compute. reflexivity.
  - vm_compute. reflexivity.
  - intros c der [= <-]. vm_compute. reflexivity.
Defined.

(** A reload after the ClientHello, and one before it. *)
Definition reloaded : @TlsWorld plain_boring :=
  let w := @tls_start plain_boring (plain_identity 1) in
  {| shared_tls := (tls_replace (shared_tls w) (plain_identity 2)).1;
     snapshots := snapshots w ++ [current (tls_replace (shared_tls w) (plain_identity 2)).1];
     handshakes := handshakes w |}.

Definition connected : @TlsWorld plain_boring :=
  {| shared_tls := shared_tls reloaded; snapshots := snapshots reloaded;
     handshakes := <[0%nat := ([], Idle)]> (handshakes reloaded) |}.

Definition hello_received : @TlsWorld plain_boring :=
  {| shared_tls := shared_tls connected; snapshots := snapshots connected;
     handshakes := <[0%nat := ([], Selecting (tls_shared_load (shared_tls connected)))]> (handshakes connected) |}.

Lemma handshake_one_identity_witness :
  handshakes hello_received !! 0%nat = Some ([], Selecting (@Build_TlsSnapshot plain_boring (plain_identity 2) 1)) /\
  handshake_ok [@Build_TlsSnapshot plain_boring (plain_identity 2) 1]
    ([], Selecting (@Build_TlsSnapshot plain_boring (plain_identity 2) 1)).
Proof.
  split; [vm_compute; reflexivity|].
  apply (@handshake_one_identity plain_boring (fun _ _ _ => true) (plain_identity 1) reloaded hello_received 0).
  - eapply rtc_l; [apply (step_reload _ _ (plain_identity 2))|]. apply rtc_refl.
  - vm_compute. reflexivity.
  - eapply rtc_l; [apply (step_connect _ reloaded 0); vm_compute; reflexivity|].
    eapply rtc_l; [apply (step_hello _ connected 0 []); vm_compute; reflexivity|]. apply rtc_refl.
Defined.
