(* ===== verification/TcpTunnel.v ===== *)
(** * Standard CONNECT tunnels (src/tunnel/tcp.rs)

    [PendingTcpTunnel] buffers request bytes while the target connection is
    being made; [TcpTunnel] is the established relay.  Three threads share an
    established relay: the shard (the methods of [TcpTunnel]), the writer task
    and the reader task of [TcpTunnel::from_stream].  Each is a program counter
    and a step function whose steps are the atomic operations and channel
    operations of the source, and [relay_step] interleaves them.  The two
    [AtomicUsize]/[AtomicBool] cells are sequentially consistent, which is the
    ordering the source asks for where it matters.

    [interleave_address_families] and [happy_eyeballs_connect_with] are the
    racing connector; the connect attempts and timers are events given to it. *)

From stdpp Require Import list sorting.
From S2P Require Import Prelude Net Policy.

(** ** Constants *)

Definition TCP_READ_CHUNK_SIZE : Z := 64 * 1024.
Definition MAX_BUFFERED_CLIENT_BYTES : Z := 1024 * 1024.
Definition MAX_BUFFERED_RESPONSE_BYTES : Z := 256 * 1024.
Definition TCP_READ_BUFFERS : Z := MAX_BUFFERED_RESPONSE_BYTES / TCP_READ_CHUNK_SIZE.

#[global] Arguments TCP_READ_CHUNK_SIZE : simpl never.
#[global] Arguments MAX_BUFFERED_CLIENT_BYTES : simpl never.
#[global] Arguments MAX_BUFFERED_RESPONSE_BYTES : simpl never.
#[global] Arguments TCP_READ_BUFFERS : simpl never.

(** ** Events and commands *)

Section events.
Context {T : Type}.

(** A connection attempt gives a stream and its peer, or a response status
    (the failure's reason is only logged). *)
Inductive TcpRelayEvent :=
| ConnectResult (connection_index stream_id : Z) (connected : (T * SocketAddr) + Z)
| Data (connection_index stream_id : Z) (data : bytes)
| Writable (connection_index stream_id : Z)
| WriteFinished (connection_index stream_id : Z)
| Eof (connection_index stream_id : Z)
| RelayError (connection_index stream_id : Z).

Definition payload_len (e : TcpRelayEvent) : Z :=
  match e with
  | Data _ _ data => zlen data
  | ConnectResult _ _ _ | Writable _ _ | WriteFinished _ _ | Eof _ _ | RelayError _ _ => 0
  end.
End events.
Arguments TcpRelayEvent : clear implicits.

Inductive TcpCommand := CmdData (data : bytes) | CmdFinish.

(** ** Tunnels whose target is being connected *)

Section pending.
Context {T Task : Type}.

Record PendingTcpTunnel := {
  pt_stream_id : Z;
  pt_last_activity : Z;
  early_data : list bytes;
  early_bytes : Z;
  pt_client_finished : bool;
  connected : option (T * SocketAddr);
  response_blocked_at : option Z;
  connect_task : option Task;
}.

Definition staging (now stream_id : Z) : PendingTcpTunnel :=
  {| pt_stream_id := stream_id; pt_last_activity := now; early_data := []; early_bytes := 0;
     pt_client_finished := false; connected := None; response_blocked_at := None; connect_task := None |}.

Definition start_connect (task : Task) (p : PendingTcpTunnel) : PendingTcpTunnel :=
  {| pt_stream_id := pt_stream_id p; pt_last_activity := pt_last_activity p; early_data := early_data p;
     early_bytes := early_bytes p; pt_client_finished := pt_client_finished p; connected := connected p;
     response_blocked_at := response_blocked_at p; connect_task := Some task |}.

(** The subtraction is on [usize]. *)
Definition pending_client_capacity (p : PendingTcpTunnel) : result unit Z :=
  if bool_decide (early_bytes p <= MAX_BUFFERED_CLIENT_BYTES)
  then Ok (MAX_BUFFERED_CLIENT_BYTES - early_bytes p) else Panic.

Definition buffer_client_data (now : Z) (data : bytes) (p : PendingTcpTunnel) : bool * PendingTcpTunnel :=
  let new_len := early_bytes p + zlen data in
  if bool_decide (new_len > USIZE_MAX) then (false, p)
  else if bool_decide (new_len > MAX_BUFFERED_CLIENT_BYTES) then (false, p)
  else (true,
    {| pt_stream_id := pt_stream_id p; pt_last_activity := now; early_data := early_data p ++ [data];
       early_bytes := new_len; pt_client_finished := pt_client_finished p; connected := connected p;
       response_blocked_at := response_blocked_at p; connect_task := connect_task p |}).

Definition pending_is_idle (now timeout : Z) (p : PendingTcpTunnel) : bool :=
  bool_decide (elapsed now (pt_last_activity p) > timeout) ||
  match response_blocked_at p with
  | Some started => bool_decide (elapsed now started > timeout)
  | None => false
  end.

(** [Drop]: the task that is aborted, if any. *)
Definition pending_drop (p : PendingTcpTunnel) : option Task := connect_task p.
End pending.
Arguments PendingTcpTunnel : clear implicits.

(** ** Established tunnels *)

Record PendingTcpResponse := { resp_data : bytes; resp_offset : Z }.

(** The fields the shard owns.  The cells it shares with the two tasks are in
    [Cells] below. *)
Record TcpTunnel := {
  stream_id : Z;
  target_addr : SocketAddr;
  last_activity : Z;
  pending_responses : list PendingTcpResponse;
  upstream_finished : bool;
  response_finished : bool;
  client_finished : bool;
  writer_finished : bool;
}.

Definition set_tunnel (t : TcpTunnel) (now : Z) (responses : list PendingTcpResponse)
    (upstream response client writer : bool) : TcpTunnel :=
  {| stream_id := stream_id t; target_addr := target_addr t; last_activity := now;
     pending_responses := responses; upstream_finished := upstream; response_finished := response;
     client_finished := client; writer_finished := writer |}.

Definition new_tunnel (now sid : Z) (addr : SocketAddr) : TcpTunnel :=
  {| stream_id := sid; target_addr := addr; last_activity := now; pending_responses := [];
     upstream_finished := false; response_finished := false; client_finished := false;
     writer_finished := false |}.

Definition queue_response (now : Z) (data : bytes) (t : TcpTunnel) : bool * TcpTunnel :=
  if response_finished t then (false, t)
  else (true, set_tunnel t now (pending_responses t ++ [{| resp_data := data; resp_offset := 0 |}])
                (upstream_finished t) (response_finished t) (client_finished t) (writer_finished t)).

Definition front_response (t : TcpTunnel) : option PendingTcpResponse := head (pending_responses t).

(** The tunnel, the permits returned to the reader and the chunk whose buffer
    is dropped. *)
Definition advance_response (now written : Z) (t : TcpTunnel) : TcpTunnel * Z * option bytes :=
  match pending_responses t with
  | [] => (t, 0, None)
  | response :: rest =>
      let offset := resp_offset response + written in
      let retired := bool_decide (offset >= zlen (resp_data response)) in
      (set_tunnel t now
         (if retired then rest else {| resp_data := resp_data response; resp_offset := offset |} :: rest)
         (upstream_finished t) (response_finished t) (client_finished t) (writer_finished t),
       written, if retired then Some (resp_data response) else None)
  end.

Definition has_pending_response (t : TcpTunnel) : bool := negb (bool_decide (pending_responses t = [])).
Definition is_complete (t : TcpTunnel) : bool := writer_finished t && response_finished t.
Definition tunnel_is_idle (now timeout : Z) (t : TcpTunnel) : bool :=
  bool_decide (elapsed now (last_activity t) > timeout).

(** ** The relay: shard, writer task and reader task *)

(** What the three threads share: the command channel, the two atomics, the
    response semaphore, the read-buffer pool (a slot is [true] when it carries
    an allocation) and the tunnel's events in the shard's channel. *)
Record Cells := {
  commands : list TcpCommand;
  queued_client_bytes : Z;
  client_capacity_waiter : bool;
  response_credit : Z;
  recycle : list bool;
  events : list (TcpRelayEvent unit);
}.

Definition set_client (c : Cells) (cmds : list TcpCommand) (queued : Z) (waiter : bool) : Cells :=
  {| commands := cmds; queued_client_bytes := queued; client_capacity_waiter := waiter;
     response_credit := response_credit c; recycle := recycle c; events := events c |}.
Definition set_credit (c : Cells) (credit : Z) (pool : list bool) : Cells :=
  {| commands := commands c; queued_client_bytes := queued_client_bytes c;
     client_capacity_waiter := client_capacity_waiter c; response_credit := credit; recycle := pool;
     events := events c |}.
Definition set_events (c : Cells) (es : list (TcpRelayEvent unit)) : Cells :=
  {| commands := commands c; queued_client_bytes := queued_client_bytes c;
     client_capacity_waiter := client_capacity_waiter c; response_credit := response_credit c;
     recycle := recycle c; events := es |}.

(** [AtomicUsize::fetch_sub] wraps around. *)
Definition fetch_sub (v len : Z) : Z := (v - len) mod 2 ^ 64.

(** [event_tx.send(event).await] on the bounded shard channel: it completes,
    waits for room, or fails because the shard is gone. *)
Inductive SendOutcome := Sent | Full | Closed.

(** What the target socket answers to the writer: how [write_all] ends (all
    written, or an error after a prefix) and whether [shutdown] succeeds. *)
Record WriterIo := { io_write : option nat; io_shutdown : bool; io_wsend : SendOutcome }.

Inductive WriterPc :=
| WRecv | WWrite (data : bytes) | WSub (len : Z) (ok : bool) | WLoad | WSwap | WNotify
| WShutdown | WError | WFinished | WDone.

(** One thread step: its next program counter, the cells, and the bytes that
    reached the target socket. *)
Definition writer_step (idx sid : Z) (io : WriterIo) (pc : WriterPc) (c : Cells)
    : option (WriterPc * Cells * bytes) :=
  let send e next :=
    match io_wsend io with
    | Sent => Some (next, set_events c (events c ++ [e]), [])
    | Full => None
    | Closed => Some (WDone, c, [])
    end in
  match pc with
  | WRecv =>
      match commands c with
      | [] => None
      | CmdData data :: cs =>
          Some (WWrite data, set_client c cs (queued_client_bytes c) (client_capacity_waiter c), [])
      | CmdFinish :: cs =>
          Some (WShutdown, set_client c cs (queued_client_bytes c) (client_capacity_waiter c), [])
      end
  | WWrite data =>
      match io_write io with
      | None => Some (WSub (zlen data) true, c, data)
      | Some n => Some (WSub (zlen data) false, c, take n data)
      end
  | WSub len ok =>
      Some (if ok then WLoad else WError,
            set_client c (commands c) (fetch_sub (queued_client_bytes c) len) (client_capacity_waiter c), [])
  | WLoad => Some (if client_capacity_waiter c then WSwap else WRecv, c, [])
  | WSwap =>
      Some (if client_capacity_waiter c then WNotify else WRecv,
            set_client c (commands c) (queued_client_bytes c) false, [])
  | WNotify => send (Writable idx sid) WRecv
  | WShutdown => Some (if io_shutdown io then WFinished else WError, c, [])
  | WError => send (RelayError idx sid) WDone
  | WFinished => send (WriteFinished idx sid) WDone
  | WDone => None
  end.

(** What the target socket answers to the reader: the bytes it has, of which
    the read takes at most one chunk, or an error. *)
Record ReaderIo := { io_read : option bytes; io_rsend : SendOutcome }.

Inductive ReaderPc :=
| RRecv | RAcquire (slot : bool) | RRead (slot : bool) | RSend (data : bytes) | REof | RError | RDone.

Definition reader_step (idx sid : Z) (io : ReaderIo) (pc : ReaderPc) (c : Cells)
    : option (ReaderPc * Cells * bytes) :=
  let send e next :=
    match io_rsend io with
    | Sent => Some (next, set_events c (events c ++ [e]), [])
    | Full => None
    | Closed => Some (RDone, c, [])
    end in
  match pc with
  | RRecv =>
      match recycle c with
      | [] => None
      | slot :: pool => Some (RAcquire slot, set_credit c (response_credit c) pool, [])
      end
  | RAcquire slot =>
      if bool_decide (TCP_READ_CHUNK_SIZE <= response_credit c)
      then Some (RRead slot, set_credit c (response_credit c - TCP_READ_CHUNK_SIZE) (recycle c), [])
      else None
  | RRead slot =>
      match io_read io with
      | Some offered =>
          let data := take (Z.to_nat TCP_READ_CHUNK_SIZE) offered in
          if bool_decide (data = [])
          then Some (REof, set_credit c (response_credit c + TCP_READ_CHUNK_SIZE) (recycle c), [])
          else Some (RSend data,
                 set_credit c (response_credit c + (TCP_READ_CHUNK_SIZE - zlen data)) (recycle c), data)
      | None => Some (RError, set_credit c (response_credit c + TCP_READ_CHUNK_SIZE) (recycle c), [])
      end
  | RSend data => send (Data idx sid data) RRecv
  | REof => send (Eof idx sid) RDone
  | RError => send (RelayError idx sid) RDone
  | RDone => None
  end.

(** [TcpReadChunk::drop]: the buffer goes back to the pool unless that is full. *)
Definition chunk_drop (pool : list bool) : list bool :=
  if bool_decide (zlen pool < TCP_READ_BUFFERS) then pool ++ [true] else pool.

(** The shard's calls.  [OpStep] is the next atomic operation of the call in
    progress; a weak compare-exchange may fail spuriously.  [OpAdvance] is
    called with what HTTP/3 took of the front chunk and [OpRespond] closes the
    response, both as [flush_tcp_responses] does. *)
Inductive ShardOp :=
| OpCapacity | OpQueue (data : bytes) | OpFinish | OpStep (spurious : bool)
| OpRecv | OpAdvance (written : Z) | OpRespond.

Inductive ShardPc :=
| SIdle | SArm | SRecheck | SCas (data : bytes) (current : Z) | SSend (data : bytes) | SUndo (data : bytes)
| SDropped.

(** What the last call returned. *)
Inductive ShardRet := RetNone | RetCapacity (n : Z) | RetBool (b : bool) | RetPanic.

(** [client_capacity], one atomic operation at a time. *)
Definition client_capacity (pc : ShardPc) (c : Cells) : option (ShardPc * Cells * ShardRet) :=
  let queued := queued_client_bytes c in
  match pc with
  | SIdle =>
      if bool_decide (queued < MAX_BUFFERED_CLIENT_BYTES)
      then Some (SIdle, c, RetCapacity (MAX_BUFFERED_CLIENT_BYTES - queued))
      else Some (SArm, c, RetNone)
  | SArm => Some (SRecheck, set_client c (commands c) queued true, RetNone)
  | SRecheck =>
      Some (SIdle, c,
        if bool_decide (queued <= MAX_BUFFERED_CLIENT_BYTES)
        then RetCapacity (MAX_BUFFERED_CLIENT_BYTES - queued) else RetPanic)
  | _ => None
  end.

(** One iteration of the compare-exchange loop of [reserve_bounded]. *)
Inductive Reserve := Refused | Reserved (next : Z) | Retry (observed : Z).
Definition reserve_bounded (spurious : bool) (counter current amount limit : Z) : Reserve :=
  let next := current + amount in
  if bool_decide (next > USIZE_MAX) then Refused
  else if bool_decide (next <= limit) then
    if bool_decide (counter = current) && negb spurious then Reserved next else Retry counter
  else Refused.

(** [queue_client_data]; [closed] says the writer task has ended, so that the
    command channel has no receiver. *)
Definition queue_client_data (now : Z) (closed spurious : bool) (data : bytes) (t : TcpTunnel) (pc : ShardPc) (c : Cells)
    : option (ShardPc * TcpTunnel * Cells * ShardRet) :=
  let queued := queued_client_bytes c in
  match pc with
  | SIdle => if client_finished t then Some (SIdle, t, c, RetBool false) else Some (SCas data queued, t, c, RetNone)
  | SCas data current =>
      match reserve_bounded spurious queued current (zlen data) MAX_BUFFERED_CLIENT_BYTES with
      | Refused => Some (SIdle, t, c, RetBool false)
      | Reserved next => Some (SSend data, t, set_client c (commands c) next (client_capacity_waiter c), RetNone)
      | Retry observed => Some (SCas data observed, t, c, RetNone)
      end
  | SSend data =>
      if closed then Some (SUndo data, t, c, RetNone)
      else Some (SIdle,
             set_tunnel t now (pending_responses t) (upstream_finished t) (response_finished t) (client_finished t)
               (writer_finished t),
             set_client c (commands c ++ [CmdData data]) queued (client_capacity_waiter c), RetBool true)
  | SUndo data =>
      Some (SIdle, t, set_client c (commands c) (fetch_sub queued (zlen data)) (client_capacity_waiter c),
        RetBool false)
  | _ => None
  end.

Definition finish_client (now : Z) (closed : bool) (t : TcpTunnel) (c : Cells) : TcpTunnel * Cells :=
  if client_finished t then (t, c)
  else (set_tunnel t now (pending_responses t) (upstream_finished t) (response_finished t) true
          (writer_finished t),
        if closed then c
        else set_client c (commands c ++ [CmdFinish]) (queued_client_bytes c) (client_capacity_waiter c)).

(** The whole relay.  The last five fields record history: request bytes
    accepted from the client, bytes written to the target, bytes read from it,
    bytes HTTP/3 took, and whether the shard was told that there is no capacity
    and has not been woken since. *)
Record Relay := {
  r_tun : TcpTunnel;
  r_cells : Cells;
  r_writer : WriterPc;
  r_reader : ReaderPc;
  r_shard : ShardPc;
  r_ret : ShardRet;
  accepted : bytes;
  sock_out : bytes;
  sock_in : bytes;
  h3_out : bytes;
  parked : bool;
}.

Definition is_wdone (pc : WriterPc) : bool := match pc with WDone => true | _ => false end.

(** [TcpTunnel::drop] aborts both tasks. *)
Definition drop_tunnel (s : Relay) : Relay :=
  {| r_tun := r_tun s; r_cells := r_cells s; r_writer := WDone; r_reader := RDone; r_shard := SDropped;
     r_ret := RetNone; accepted := accepted s; sock_out := sock_out s; sock_in := sock_in s;
     h3_out := h3_out s; parked := false |}.

Definition set_shard (s : Relay) (t : TcpTunnel) (c : Cells) (pc : ShardPc) (ret : ShardRet)
    (taken delivered : bytes) (p : bool) : Relay :=
  {| r_tun := t; r_cells := c; r_writer := r_writer s; r_reader := r_reader s; r_shard := pc; r_ret := ret;
     accepted := accepted s ++ taken; sock_out := sock_out s; sock_in := sock_in s;
     h3_out := h3_out s ++ delivered; parked := p |}.

(** [client_capacity] returning zero parks the shard; a result with capacity
    unparks it. *)
Definition parks (ret : ShardRet) (p : bool) : bool :=
  match ret with RetCapacity n => bool_decide (n = 0) | _ => p end.

(** An event of this tunnel, as [handle_tcp_event] applies it. *)
Definition recv_event (now : Z) (e : TcpRelayEvent unit) (es : list (TcpRelayEvent unit)) (s : Relay) : Relay :=
  let t := r_tun s in
  let c := set_events (r_cells s) es in
  let keep t' p := set_shard s t' c SIdle RetNone [] [] p in
  match e with
  | Data _ _ data =>
      let '(ok, t') := queue_response now data t in
      if ok then keep t' (parked s) else drop_tunnel (keep t' (parked s))
  | Writable _ _ => keep t false
  | WriteFinished _ _ =>
      keep (set_tunnel t now (pending_responses t) (upstream_finished t) (response_finished t)
              (client_finished t) true) (parked s)
  | Eof _ _ =>
      keep (set_tunnel t now (pending_responses t) true (response_finished t) (client_finished t)
              (writer_finished t)) (parked s)
  | RelayError _ _ => drop_tunnel (keep t (parked s))
  | ConnectResult _ _ _ => keep t (parked s)
  end.

Definition shard_step (now : Z) (op : ShardOp) (s : Relay) : option Relay :=
  let t := r_tun s in
  let c := r_cells s in
  let closed := is_wdone (r_writer s) in
  let capacity :=
    '(pc, c', ret) ← client_capacity (r_shard s) c; Some (set_shard s t c' pc ret [] [] (parks ret (parked s))) in
  let queue sp data taken :=
    '(pc, t', c', ret) ← queue_client_data now closed sp data t (r_shard s) c;
    Some (set_shard s t' c' pc ret taken [] (parks ret (parked s))) in
  match r_shard s, op with
  | SIdle, OpCapacity => capacity
  | (SArm | SRecheck), OpStep _ => capacity
  | SIdle, OpQueue data => queue false data []
  | SSend data, OpStep sp => queue sp data (if closed then [] else data)
  | (SCas data _ | SUndo data), OpStep sp => queue sp data []
  | SIdle, OpFinish =>
      let '(t', c') := finish_client now closed t c in
      Some (set_shard s t' c' SIdle RetNone [] [] (parked s))
  | SIdle, OpRecv =>
      match events c with [] => None | e :: es => Some (recv_event now e es s) end
  | SIdle, OpAdvance written =>
      match front_response t with
      | Some response =>
          let remaining := drop (Z.to_nat (resp_offset response)) (resp_data response) in
          if bool_decide (0 < written <= zlen remaining) then
            let '(t', permits, retired) := advance_response now written t in
            let pool := match retired with Some _ => chunk_drop (recycle c) | None => recycle c end in
            Some (set_shard s t' (set_credit c (response_credit c + permits) pool) SIdle RetNone []
                    (take (Z.to_nat written) remaining) (parked s))
          else None
      | None => None
      end
  | SIdle, OpRespond =>
      if negb (has_pending_response t) && upstream_finished t && negb (response_finished t)
      then Some (set_shard s (set_tunnel t (last_activity t) (pending_responses t) (upstream_finished t)
                   true (client_finished t) (writer_finished t)) c SIdle RetNone [] [] (parked s))
      else None
  | _, _ => None
  end.

Inductive Label := LWriter (io : WriterIo) | LReader (io : ReaderIo) | LShard (now : Z) (op : ShardOp).

Definition relay_step (idx sid : Z) (l : Label) (s : Relay) : option Relay :=
  match l with
  | LWriter io =>
      '(pc, c, out) ← writer_step idx sid io (r_writer s) (r_cells s);
      Some {| r_tun := r_tun s; r_cells := c; r_writer := pc; r_reader := r_reader s; r_shard := r_shard s;
              r_ret := r_ret s; accepted := accepted s; sock_out := sock_out s ++ out; sock_in := sock_in s;
              h3_out := h3_out s; parked := parked s |}
  | LReader io =>
      '(pc, c, got) ← reader_step idx sid io (r_reader s) (r_cells s);
      Some {| r_tun := r_tun s; r_cells := c; r_writer := r_writer s; r_reader := pc; r_shard := r_shard s;
              r_ret := r_ret s; accepted := accepted s; sock_out := sock_out s; sock_in := sock_in s ++ got;
              h3_out := h3_out s; parked := parked s |}
  | LShard now op => shard_step now op s
  end.

(** [TcpTunnel::from_stream]: empty cells, a full response budget and a pool
    of empty slots. *)
Definition from_stream (now sid : Z) (addr : SocketAddr) : Relay :=
  {| r_tun := new_tunnel now sid addr;
     r_cells := {| commands := []; queued_client_bytes := 0; client_capacity_waiter := false;
                   response_credit := MAX_BUFFERED_RESPONSE_BYTES;
                   recycle := replicate (Z.to_nat TCP_READ_BUFFERS) false; events := [] |};
     r_writer := WRecv; r_reader := RRecv; r_shard := SIdle; r_ret := RetNone;
     accepted := []; sock_out := []; sock_in := []; h3_out := []; parked := false |}.

Inductive relay_reachable (idx sid : Z) : Relay -> Prop :=
| reach_start now addr : relay_reachable idx sid (from_stream now sid addr)
| reach_step l s s' :
    relay_reachable idx sid s -> relay_step idx sid l s = Some s' -> relay_reachable idx sid s'.

(** ** The racing connector *)

(** The [while] loop of [interleave_address_families]. *)
Fixpoint interleave_loop (fuel : nat) (prefer_ipv6 : bool) (ipv4 ipv6 : list SocketAddr)
    : result unit (list SocketAddr) :=
  match ipv4, ipv6 with
  | [], [] => Ok []
  | _, _ =>
      match fuel with
      | O => Panic
      | S fuel' =>
          '(address, ipv4', ipv6') ←
            match prefer_ipv6, ipv4, ipv6 with
            | true, _, a :: r => Ok (a, ipv4, r)
            | true, a :: r, [] => Ok (a, r, ipv6)
            | false, a :: r, _ => Ok (a, r, ipv6)
            | false, [], a :: r => Ok (a, ipv4, r)
            | _, [], [] => Panic
            end;
          rest ← interleave_loop fuel' (negb prefer_ipv6) ipv4' ipv6';
          Ok (address :: rest)
      end
  end.

Definition sock_is_v4 (a : SocketAddr) : bool := is_ipv4 (sock_ip a).

Definition interleave_address_families (addresses : list SocketAddr) : result unit (list SocketAddr) :=
  match addresses with
  | [] => Ok []
  | first :: _ =>
      interleave_loop (length addresses) (negb (sock_is_v4 first))
        (List.filter sock_is_v4 addresses) (List.filter (fun a => negb (sock_is_v4 a)) addresses)
  end.

(** What the connector waits for: an attempt that ended (with a value or an
    error), a task that failed, or the launch timer. *)
Inductive RaceEvent (T E : Type) :=
| Joined (address : SocketAddr) (outcome : T + E) | JoinFailed (address : SocketAddr) (e : E) | Timer.
Arguments Joined {T E}. Arguments JoinFailed {T E}. Arguments Timer {T E}.

Record Race (E : Type) := { attempts : list SocketAddr; next : nat; last_error : option E }.
Arguments attempts {E}. Arguments next {E}. Arguments last_error {E}.
Arguments Build_Race {E}.

Section race.
Context {T E : Type} (not_found : E).
Notation Race := (Race E). Notation RaceEvent := (RaceEvent T E).

(** The head of an iteration: with nothing in flight, the next candidate starts. *)
Definition launch (addresses : list SocketAddr) (r : Race) : Race :=
  match addresses !! next r with
  | Some address => {| attempts := attempts r ++ [address]; next := S (next r); last_error := last_error r |}
  | None => r
  end.
Definition launch_idle (addresses : list SocketAddr) (r : Race) : Race :=
  match attempts r with [] => launch addresses r | _ => r end.

Fixpoint remove_one (a : SocketAddr) (l : list SocketAddr) : option (list SocketAddr) :=
  match l with
  | [] => None
  | b :: l' => if bool_decide (a = b) then Some l' else cons b <$> remove_one a l'
  end.

(** One iteration: [inl] continues, [inr] returns; [None] is an event that
    cannot occur (an attempt that is not in flight, the timer with no candidate
    left). *)
Definition race_iter (addresses : list SocketAddr) (ev : RaceEvent) (r : Race)
    : option (Race + (T * SocketAddr)) :=
  let r := launch_idle addresses r in
  match ev with
  | Timer => if bool_decide (next r < length addresses)%nat then Some (inl (launch addresses r)) else None
  | Joined address outcome =>
      rest ← remove_one address (attempts r);
      match outcome with
      | inl value => Some (inr (value, address))
      | inr e => Some (inl {| attempts := rest; next := next r; last_error := Some e |})
      end
  | JoinFailed address e =>
      rest ← remove_one address (attempts r);
      Some (inl {| attempts := rest; next := next r; last_error := Some e |})
  end.

Definition race_over (addresses : list SocketAddr) (r : Race) : bool :=
  bool_decide (length addresses <= next r)%nat && bool_decide (attempts r = []).

(** The loop over the events that occur: [None] while it still waits. *)
Fixpoint race_run (addresses : list SocketAddr) (evs : list RaceEvent) (r : Race)
    : option ((T * SocketAddr) + E) :=
  if race_over addresses r
  then Some (inr (default not_found (last_error r)))
  else match evs with
       | [] => None
       | ev :: evs' =>
           step ← race_iter addresses ev r;
           match step with inl r' => race_run addresses evs' r' | inr win => Some (inl win) end
       end.

Definition happy_eyeballs_connect_with (addresses : list SocketAddr) (evs : list RaceEvent)
    : result unit (option ((T * SocketAddr) + E)) :=
  addresses ← interleave_address_families addresses;
  match addresses with
  | [] => Ok (Some (inr not_found))
  | _ => Ok (race_run addresses evs {| attempts := []; next := 0; last_error := None |})
  end.

(** [resolve_and_connect]: 504 when the deadline passes while connecting, 502
    when every attempt failed; [evs] are the events before the deadline. *)
Definition resolve_and_connect {N4 N6 : Type} `{!NetOps N4, !NetOps N6} (host : bytes) (port : Z)
    (policy : TargetPolicy N4 N6) (resolver : bytes -> Z -> Lookup) (evs : list RaceEvent)
    : result Z (T * SocketAddr) :=
  resolved ← resolve_allowed_with host port policy resolver;
  raced ← match happy_eyeballs_connect_with resolved evs with
          | Ok r => Ok r | Err _ => Panic | Panic => Panic end;
  match raced with
  | None => Err 504
  | Some (inr _) => Err 502
  | Some (inl win) => Ok win
  end.
End race.

(** ** Pending tunnels *)

Section pending_facts.
Context {T Task : Type}.
Implicit Types p : PendingTcpTunnel T Task.

Definition pending_tunnel_ok p : Prop :=
  early_bytes p = zlen (concat (early_data p)) /\ early_bytes p <= MAX_BUFFERED_CLIENT_BYTES.

Lemma staging_ok now sid : pending_tunnel_ok (staging now sid).
Proof. by split. Qed.

(** Buffering keeps every byte in order within the budget, refuses exactly what
    does not fit, and the advertised capacity is what the next call takes. *)
Theorem pending_buffer_spec p now data :
  pending_tunnel_ok p ->
  let '(ok, p') := buffer_client_data now data p in
  pending_tunnel_ok p' /\
  concat (early_data p') = concat (early_data p) ++ (if ok then data else []) /\
  exists room, pending_client_capacity p = Ok room /\ (ok = true <-> zlen data <= room).
Proof.
  intros [Hb Hm]. unfold buffer_client_data, pending_client_capacity, pending_tunnel_ok.
  pose proof (zlen_nonneg data). rewrite (bool_decide_true (_ <= _)) by lia.
  assert (MAX_BUFFERED_CLIENT_BYTES <= USIZE_MAX) by done.
  repeat case_bool_decide; simpl; rewrite ?concat_snoc, ?zlen_app, ?app_nil_r;
    split_and!; try lia; try done; eexists; (split; [done|]); split; intros; (done || lia).
Qed.
End pending_facts.

(** ** Racing *)

Definition is_v6 (a : SocketAddr) : bool := negb (sock_is_v4 a).
Definition alternates (l : list SocketAddr) : Prop :=
  forall i a b c, l !! i = Some a -> l !! S i = Some b -> sock_is_v4 a = sock_is_v4 b ->
    c ∈ drop i l -> sock_is_v4 c = sock_is_v4 a.

Lemma filter_all {A} (f : A -> bool) l : Forall (fun x => f x = true) l -> List.filter f l = l.
Proof. induction 1 as [|x l Hx _ IH]; simpl; [done|]. by rewrite Hx, IH. Qed.
Lemma filter_none {A} (f : A -> bool) l : Forall (fun x => f x = false) l -> List.filter f l = [].
Proof. induction 1 as [|x l Hx _ IH]; simpl; [done|]. by rewrite Hx, IH. Qed.

Lemma alternates_same a l :
  (forall b, b ∈ l -> sock_is_v4 b = sock_is_v4 a) -> alternates (a :: l).
Proof.
  intros H i x y c Hx Hy _ Hc. apply list_elem_of_lookup_2 in Hx.
  assert (c ∈ a :: l) as Hc' by (by eapply subseteq_drop).
  assert (forall b, b ∈ a :: l -> sock_is_v4 b = sock_is_v4 a) as H'
    by (intros b [-> | Hb]%elem_of_cons; auto).
  by rewrite (H' c), (H' x).
Qed.
Lemma alternates_cons a b l :
  sock_is_v4 a <> sock_is_v4 b -> alternates (b :: l) -> alternates (a :: b :: l).
Proof. intros Hne H [|i] x y c Hx Hy Hf Hc; simpl in *; [congruence|]. by eapply H. Qed.

Lemma alternates_step a l :
  alternates l ->
  (forall h, head l = Some h -> sock_is_v4 h <> sock_is_v4 a \/ forall b, b ∈ l -> sock_is_v4 b = sock_is_v4 a) ->
  alternates (a :: l).
Proof.
  intros Hl Hh. destruct l as [|h l]; [apply alternates_same; intros ? []%elem_of_nil|].
  destruct (Hh h eq_refl); [by apply alternates_cons|by apply alternates_same].
Qed.

Lemma filter_nil_all {A} (f : A -> bool) l x : List.filter f l = [] -> x ∈ l -> f x = false.
Proof.
  intros H Hx. destruct (f x) eqn:Hf; [|done].
  assert (x ∈ List.filter f l) as Hin by (apply list_elem_of_In, filter_In; split; [by apply list_elem_of_In|done]).
  rewrite H in Hin. by apply elem_of_nil in Hin.
Qed.

Definition interleaved (prefer : bool) (v4 v6 l : list SocketAddr) : Prop :=
  List.filter sock_is_v4 l = v4 /\ List.filter is_v6 l = v6 /\ alternates l /\
  (forall a, head l = Some a -> sock_is_v4 a = negb prefer \/ (if prefer then v6 else v4) = []).

Lemma interleaved_v6 prefer a v4 v6 l :
  sock_is_v4 a = false -> interleaved (negb prefer) v4 v6 l -> prefer = true \/ v4 = [] ->
  interleaved prefer v4 (a :: v6) (a :: l).
Proof.
  intros Ha (H1 & H2 & H3 & H4) Hp. unfold interleaved. simpl. unfold is_v6 at 1. rewrite Ha, H1, H2. simpl.
  split_and!; [done|done| |intros ? [= <-]; destruct prefer; [by left|naive_solver]].
  apply alternates_step; [done|]. intros h Hh. rewrite Ha.
  assert (v4 = [] -> forall b, b ∈ l -> sock_is_v4 b = false) as Hall
    by (intros Hv b Hb; rewrite Hv in H1; by eapply filter_nil_all).
  destruct (H4 h Hh) as [->|H]; destruct prefer; simpl in *; auto; right; apply Hall; naive_solver.
Qed.

Lemma interleaved_v4 prefer a v4 v6 l :
  sock_is_v4 a = true -> interleaved (negb prefer) v4 v6 l -> prefer = false \/ v6 = [] ->
  interleaved prefer (a :: v4) v6 (a :: l).
Proof.
  intros Ha (H1 & H2 & H3 & H4) Hp. unfold interleaved. simpl. unfold is_v6 at 1. rewrite Ha, H1, H2. simpl.
  split_and!; [done|done| |intros ? [= <-]; destruct prefer; [naive_solver|by left]].
  apply alternates_step; [done|]. intros h Hh. rewrite Ha.
  assert (v6 = [] -> forall b, b ∈ l -> sock_is_v4 b = true) as Hall.
  { intros Hv b Hb. rewrite Hv in H2. pose proof (filter_nil_all _ _ _ H2 Hb) as Hx.
    unfold is_v6 in Hx. by destruct (sock_is_v4 b). }
  destruct (H4 h Hh) as [->|H]; destruct prefer; simpl in *; auto; right; apply Hall; naive_solver.
Qed.

Lemma interleave_loop_spec fuel prefer v4 v6 :
  (length v4 + length v6 <= fuel)%nat ->
  Forall (fun a => sock_is_v4 a = true) v4 -> Forall (fun a => sock_is_v4 a = false) v6 ->
  exists l, interleave_loop fuel prefer v4 v6 = Ok l /\ interleaved prefer v4 v6 l.
Proof.
  revert prefer v4 v6. induction fuel as [|fuel IH]; intros prefer v4 v6 Hf H4 H6.
  { destruct v4, v6; simpl in Hf; try lia. by exists []. }
  destruct v4 as [|a4 v4], v6 as [|a6 v6]; [by exists []|..]; simpl in Hf.
  - inv H6. destruct (IH (negb prefer) [] v6 ltac:(simpl; lia) H4 ltac:(done)) as (l & Hl & Hi).
    exists (a6 :: l). split; [simpl; by destruct prefer; simpl in *; rewrite Hl|]. apply interleaved_v6; auto.
  - inv H4. destruct (IH (negb prefer) v4 [] ltac:(simpl; lia) ltac:(done) H6) as (l & Hl & Hi).
    exists (a4 :: l). split; [simpl; by destruct prefer; simpl in *; rewrite Hl|]. apply interleaved_v4; auto.
  - destruct prefer.
    + inv H6. destruct (IH false (a4 :: v4) v6 ltac:(simpl; lia) ltac:(done) ltac:(done)) as (l & Hl & Hi).
      exists (a6 :: l). split; [simpl; by rewrite Hl|]. apply interleaved_v6; auto.
    + inv H4. destruct (IH true v4 (a6 :: v6) ltac:(simpl; lia) ltac:(done) ltac:(done)) as (l & Hl & Hi).
      exists (a4 :: l). split; [simpl; by rewrite Hl|]. apply interleaved_v4; auto.
Qed.

Lemma filter_split_perm {A} (f : A -> bool) (l : list A) :
  l ≡ₚ List.filter f l ++ List.filter (fun x => negb (f x)) l.
Proof.
  induction l as [|x l IH]; simpl; [done|]. destruct (f x); simpl; rewrite IH at 1; [done|].
  apply Permutation_middle.
Qed.

Lemma interleave_spec addrs :
  exists l, interleave_address_families addrs = Ok l /\
    l ≡ₚ addrs /\ head l = head addrs /\
    List.filter sock_is_v4 l = List.filter sock_is_v4 addrs /\
    List.filter is_v6 l = List.filter is_v6 addrs /\ alternates l.
Proof.
  destruct addrs as [|first addrs]; [by exists []|]. unfold interleave_address_families.
  set (all := first :: addrs).
  destruct (interleave_loop_spec (length all) (negb (sock_is_v4 first)) (List.filter sock_is_v4 all)
    (List.filter is_v6 all)) as (l & Hl & H1 & H2 & H3 & H4).
  - rewrite <- length_app. unfold is_v6. by rewrite <- (filter_split_perm sock_is_v4 all).
  - apply Forall_forall. intros x Hx. by apply list_elem_of_In, filter_In in Hx as [_ ?].
  - apply Forall_forall. intros x Hx. apply list_elem_of_In, filter_In in Hx as [_ Hx].
    unfold is_v6 in Hx. by destruct (sock_is_v4 x).
  - exists l. assert (l ≡ₚ all) as Hperm.
    { rewrite (filter_split_perm sock_is_v4 l), (filter_split_perm sock_is_v4 all). fold is_v6. by rewrite H1, H2. }
    split_and!; try done.
    destruct l as [|a l]; [by apply Permutation_nil_l in Hperm|]. simpl. f_equal.
    specialize (H4 a eq_refl). unfold all, is_v6 in *. simpl in H1, H2, H4.
    destruct (sock_is_v4 first), (sock_is_v4 a), H4; simpl in *; congruence.
Qed.

Lemma interleave_perm addrs : exists l, interleave_address_families addrs = Ok l /\ l ≡ₚ addrs.
Proof. destruct (interleave_spec addrs) as (l & ? & ? & _). by exists l. Qed.

(** The candidates of a racing connect are the resolver's addresses, none
    lost, added or repeated; they start with the resolver's first choice, keep
    its order within each family, and alternate between the families until one
    is used up.  Computing them never panics. *)
Theorem interleave_families addrs :
  exists l, interleave_address_families addrs = Ok l /\
    l ≡ₚ addrs /\ head l = head addrs /\
    List.filter sock_is_v4 l = List.filter sock_is_v4 addrs /\
    List.filter is_v6 l = List.filter is_v6 addrs /\ alternates l.
Proof. apply interleave_spec. Qed.

Section race_facts.
Context {T E : Type} (not_found : E).
Notation Race := (Race E). Notation RaceEvent := (RaceEvent T E).
Implicit Types (r : Race) (ev : RaceEvent) (evs : list RaceEvent) (addrs : list SocketAddr).

(** The events can occur: attempts that end are in flight. *)
Fixpoint possible addrs evs r : Prop :=
  if race_over addrs r then True
  else match evs with
       | [] => True
       | ev :: evs' =>
           match race_iter addrs ev r with
           | None => False | Some (inl r') => possible addrs evs' r' | Some (inr _) => True
           end
       end.

(** The addresses whose attempts failed among the events. *)
Definition failed_address ev : list SocketAddr :=
  match ev with Joined a (inr _) | JoinFailed a _ => [a] | _ => [] end.
Definition failures evs : list SocketAddr := concat (map failed_address evs).

Definition race_measure addrs r : nat := 2 * (length addrs - next r) + length (attempts r).

Lemma remove_one_perm a l l' : remove_one a l = Some l' -> l ≡ₚ a :: l'.
Proof.
  revert l'. induction l as [|b l IH]; intros l' H; simpl in H; [done|].
  case_bool_decide; simplify_eq; [done|]. apply fmap_Some in H as (k & Hk & ->).
  rewrite (IH k Hk). apply Permutation_swap.
Qed.

Lemma launch_spec addrs r :
  (next r < length addrs)%nat ->
  exists a, addrs !! next r = Some a /\ attempts (launch addrs r) = attempts r ++ [a] /\
    next (launch addrs r) = S (next r).
Proof. intros H. destruct (lookup_lt_is_Some_2 _ _ H) as [a Ha]. exists a. unfold launch. by rewrite Ha. Qed.

(** What is in flight or has failed is what was launched. *)
Definition race_inv addrs (failed : list SocketAddr) r : Prop :=
  (next r <= length addrs)%nat /\ attempts r ++ failed ≡ₚ take (next r) addrs.

Lemma launch_inv addrs failed r :
  race_inv addrs failed r -> (next r < length addrs)%nat ->
  race_inv addrs failed (launch addrs r) /\ (race_measure addrs (launch addrs r) < race_measure addrs r)%nat.
Proof.
  intros [Hn Hp] Hlt. destruct (launch_spec addrs r Hlt) as (a & Ha & Hat & Hnx).
  split; [split; [lia|]|unfold race_measure; rewrite Hat, Hnx, length_app; simpl; lia].
  rewrite Hat, Hnx, (take_S_r _ _ _ Ha), <- Hp. solve_Permutation.
Qed.

Lemma launch_idle_inv addrs failed r :
  race_inv addrs failed r -> race_over addrs r = false ->
  race_inv addrs failed (launch_idle addrs r) /\ attempts (launch_idle addrs r) <> [] /\
  (race_measure addrs (launch_idle addrs r) <= race_measure addrs r)%nat.
Proof.
  intros Hi Ho. unfold launch_idle. destruct (attempts r) as [|x l] eqn:Ha; [|by rewrite Ha].
  unfold race_over in Ho. rewrite Ha, (bool_decide_true ([] = [])), andb_true_r in Ho by done.
  apply bool_decide_eq_false in Ho.
  destruct (launch_inv addrs failed r Hi ltac:(lia)) as [H1 H2]. split_and!; [done| |lia].
  destruct (launch_spec addrs r ltac:(lia)) as (a & _ & -> & _). by destruct (attempts r).
Qed.

Lemma joined_inv addrs failed r a rest e :
  race_inv addrs failed r -> remove_one a (attempts r) = Some rest ->
  let r' := {| attempts := rest; next := next r; last_error := e |} in
  a ∈ addrs /\ race_inv addrs (a :: failed) r' /\ (race_measure addrs r' < race_measure addrs r)%nat.
Proof.
  intros [Hn Hp] Hr. apply remove_one_perm in Hr. rewrite Hr in Hp. split_and!.
  - eapply subseteq_take. rewrite <- Hp. simpl. apply list_elem_of_here.
  - split; simpl; [done|]. rewrite <- Hp. simpl. symmetry. apply Permutation_middle.
  - unfold race_measure. simpl. rewrite Hr. simpl. lia.
Qed.

Lemma race_iter_spec addrs failed ev r res :
  race_inv addrs failed r -> race_over addrs r = false -> race_iter addrs ev r = Some res ->
  match res with
  | inl r' => race_inv addrs (failed_address ev ++ failed) r' /\ (race_measure addrs r' < race_measure addrs r)%nat
  | inr (v, a) => a ∈ addrs /\ ev = Joined a (inl v)
  end.
Proof.
  intros Hi Ho Hr. destruct (launch_idle_inv _ _ _ Hi Ho) as (Hi' & _ & Hm). unfold race_iter in Hr.
  destruct ev as [a [v|e]|a e|]; simpl.
  - apply bind_Some in Hr as (rest & Hrest & [= <-]). by destruct (joined_inv _ _ _ _ _ None Hi' Hrest).
  - apply bind_Some in Hr as (rest & Hrest & [= <-]).
    destruct (joined_inv _ _ _ _ _ (Some e) Hi' Hrest) as (_ & ? & ?). split; [done|lia].
  - apply bind_Some in Hr as (rest & Hrest & [= <-]).
    destruct (joined_inv _ _ _ _ _ (Some e) Hi' Hrest) as (_ & ? & ?). split; [done|lia].
  - case_bool_decide as Hlt; simplify_eq. destruct (launch_inv _ _ _ Hi' Hlt). split; [done|lia].
Qed.

Definition race_outcome addrs failed evs (m : nat) (out : option ((T * SocketAddr) + E)) : Prop :=
  match out with
  | Some (inl (v, a)) => a ∈ addrs /\ Joined a (inl v) ∈ evs
  | Some (inr _) => exists n, failures (take n evs) ++ failed ≡ₚ addrs
  | None => (length evs < m)%nat
  end.

Lemma race_run_spec addrs evs failed r :
  race_inv addrs failed r -> possible addrs evs r ->
  race_outcome addrs failed evs (race_measure addrs r) (race_run not_found addrs evs r).
Proof.
  revert failed r. induction evs as [|ev evs IH]; intros failed r Hi Hp; simpl in *;
    destruct (race_over addrs r) eqn:Ho; simpl.
  1,3: exists 0%nat; unfold failures; simpl; unfold race_over in Ho; apply andb_true_iff in Ho as [H1 H2];
       apply bool_decide_eq_true in H1, H2; destruct Hi as [Hn Hp']; rewrite H2 in Hp'; simpl in Hp';
       by rewrite Hp', take_ge by lia.
  - unfold race_over in Ho. apply andb_false_iff in Ho as [Ho|Ho]; apply bool_decide_eq_false in Ho;
      unfold race_measure; [lia|]. apply nonempty_length in Ho. lia.
  - destruct (race_iter addrs ev r) as [[r'|[v a]]|] eqn:Hr; simpl; [| |done];
      pose proof (race_iter_spec _ _ _ _ _ Hi Ho Hr) as Hs; simpl in Hs.
    + destruct Hs as [Hi' Hm]. specialize (IH _ _ Hi' Hp). unfold race_outcome in *.
      destruct (race_run not_found addrs evs r') as [[[v a]|e]|]; simpl in *.
      * split; [apply IH|]. right. apply IH.
      * destruct IH as [n Hn]. exists (S n). rewrite <- Hn. unfold failures. simpl.
        solve_Permutation.
      * lia.
    + destruct Hs as [H1 ->]. split; [done|by left].
Qed.

(** A race over a set of addresses connects only to one of them, on an
    attempt that succeeded; it fails only when an attempt to every one of them
    has failed; and it has decided after at most two events per address, since
    it never waits without an attempt in flight. *)
Theorem race_connect addrs evs l :
  interleave_address_families addrs = Ok l ->
  possible l evs {| attempts := []; next := 0; last_error := None |} ->
  match happy_eyeballs_connect_with not_found addrs evs with
  | Ok (Some (inl (v, a))) => a ∈ addrs /\ Joined a (inl v) ∈ evs
  | Ok (Some (inr _)) => exists n, failures (take n evs) ≡ₚ addrs
  | Ok None => (length evs < 2 * length addrs)%nat
  | _ => False
  end.
Proof.
  intros Hl Hp. destruct (interleave_perm addrs) as (l' & Hl' & Hperm). rewrite Hl in Hl'. injection Hl' as <-.
  unfold happy_eyeballs_connect_with. rewrite Hl. simpl.
  destruct l as [|x l]; [exists 0%nat; by rewrite <- Hperm|].
  pose proof (race_run_spec (x :: l) evs [] {| attempts := []; next := 0; last_error := None |}) as H.
  specialize (H ltac:(split; simpl; [lia|done]) Hp). unfold race_outcome in H.
  destruct (race_run _ _ _ _) as [[[v a]|e]|].
  - by rewrite Hperm in H.
  - destruct H as [n Hn]. exists n. rewrite app_nil_r in Hn. by rewrite Hn.
  - unfold race_measure in H. simpl in H. rewrite <- Hperm. simpl. lia.
Qed.

Lemma race_run_winner addrs evs failed r v a :
  race_inv addrs failed r -> race_run not_found addrs evs r = Some (inl (v, a)) ->
  a ∈ addrs /\ Joined a (inl v) ∈ evs.
Proof.
  revert failed r. induction evs as [|ev evs IH]; intros failed r Hi Hr; simpl in Hr;
    destruct (race_over addrs r) eqn:Ho; simplify_eq.
  apply bind_Some in Hr as (res & Hit & Hr). pose proof (race_iter_spec _ _ _ _ _ Hi Ho Hit) as Hs.
  destruct res as [r'|[v' a']]; simplify_eq/=.
  - destruct Hs as [Hi' _]. destruct (IH _ _ Hi' Hr). split; [done|by right].
  - destruct Hs as [Ha ->]. split; [done|by left].
Qed.

(** A CONNECT tunnel is opened only to an address that the target policy
    allows: whatever the resolver answers and however the attempts race, the
    peer of the returned stream came from the one resolved snapshot, is allowed
    by the policy, is not an unspecified address in either spelling, and is one
    whose connection attempt succeeded.  Failures are 403, 502 or 504. *)
Theorem tcp_connect_allowed {N4 N6 : Type} `{!NetOps N4, !NetOps N6} host port (p : TargetPolicy N4 N6)
    resolver evs permitted :
  allows_port p port = Ok permitted ->
  match resolve_and_connect not_found host port p resolver evs with
  | Ok (v, a) => is_allowed p (sock_ip a) = true /\ is_unspecified (to_canonical (sock_ip a)) = false /\
      Joined a (inl v) ∈ evs /\
      exists l, resolve_allowed_with host port p resolver = Ok l /\ a ∈ l
  | Err status => status = 403 \/ status = 502 \/ status = 504
  | Panic => False
  end.
Proof.
  intros Hperm. unfold resolve_and_connect.
  destruct (resolve_allowed_with host port p resolver) as [l|status|] eqn:Hr; simpl.
  - destruct (interleave_perm l) as (il & Hil & Hp). unfold happy_eyeballs_connect_with. rewrite Hil. simpl.
    destruct il as [|x il]; simpl; [auto|].
    destruct (race_run not_found (x :: il) evs _) as [[[v a]|e]|] eqn:Hrun; simpl; [|auto|auto].
    eapply (race_run_winner _ _ []) in Hrun as [Ha Hj]; [|split; simpl; [lia|done]]. rewrite Hp in Ha.
    apply resolve_allowed_Ok in Hr as (_ & _ & Hall). rewrite Forall_forall in Hall.
    destruct (Hall a Ha). split_and!; try done. by exists l.
  - pose proof (resolve_allowed_total host port p resolver permitted Hperm) as Ht. by rewrite Hr in Ht.
  - pose proof (resolve_allowed_total host port p resolver permitted Hperm) as Ht. by rewrite Hr in Ht.
Qed.
End race_facts.

(** ** Witnesses *)

Definition race_addrs : list SocketAddr := [SockV6 1 443 0 0; SockV6 2 443 0 0; SockV4 0x01010101 443].

(** The first IPv6 address is slow, the IPv4 one answers after the timer, and
    the other IPv6 address is never tried. *)
Lemma race_connect_witness :
  interleave_address_families race_addrs = Ok [SockV6 1 443 0 0; SockV4 0x01010101 443; SockV6 2 443 0 0] /\
  happy_eyeballs_connect_with tt race_addrs [Timer; Joined (SockV6 1 443 0 0) (inr tt); Joined (SockV4 0x01010101 443) (inl 7)]
    = Ok (Some (inl (7, SockV4 0x01010101 443))) /\ SockV4 0x01010101 443 ∈ race_addrs.
Proof.
  assert (interleave_address_families race_addrs = Ok [SockV6 1 443 0 0; SockV4 0x01010101 443; SockV6 2 443 0 0])
    as Hl by (vm_compute; reflexivity).
  split; [exact Hl|]. split; [vm_compute; reflexivity|].
  exact (proj1 (race_connect tt race_addrs [Timer; Joined (SockV6 1 443 0 0) (inr tt); Joined (SockV4 0x01010101 443) (inl 7)]
    _ Hl ltac:(vm_compute; exact I))).
Defined.

Lemma tcp_connect_allowed_witness :
  resolve_and_connect tt [0x61] 80 sample_policy (fun _ port => Resolved [SockV4 0x01010101 port])
    [Joined (SockV4 0x01010101 80) (inl 7)] = Ok (7, SockV4 0x01010101 80) /\
  is_allowed sample_policy (IpV4 0x01010101) = true.
Proof.
  pose proof (tcp_connect_allowed tt [0x61] 80 sample_policy (fun _ port => Resolved [SockV4 0x01010101 port])
    [Joined (SockV4 0x01010101 80) (inl 7)] true eq_refl) as H.
  assert (resolve_and_connect tt [0x61] 80 sample_policy (fun _ port => Resolved [SockV4 0x01010101 port])
    [Joined (SockV4 0x01010101 80) (inl 7)] = Ok (7, SockV4 0x01010101 80)) as Hr by (vm_compute; reflexivity).
  split; [exact Hr|]. rewrite Hr in H. exact (proj1 H).
Defined.

Lemma pending_buffer_spec_witness :
  pending_tunnel_ok (@staging unit unit 0 4) /\
  fst (buffer_client_data 1 [1; 2] (@staging unit unit 0 4)) = true.
Proof.
  split; [apply staging_ok|].
  pose proof (pending_buffer_spec (@staging unit unit 0 4) 1 [1; 2] (staging_ok 0 4)) as H.
  destruct (buffer_client_data 1 [1; 2] (@staging unit unit 0 4)) as [ok p'] eqn:Hb. simpl.
  destruct H as (_ & _ & room & Hroom & Hiff). apply Hiff.
  vm_compute in Hroom. injection Hroom as <-. vm_compute. discriminate.
Defined.
