(* ===== verification/TcpRelay.v ===== *)
(** * The TCP relay is a bounded byte pipe (src/tunnel/tcp.rs)

    Invariants of the interleaved relay of [TcpTunnel]: request and response
    bytes are forwarded in order and complete before the matching end of stream,
    both buffers stay within their budgets, and a shard that found no room for
    request bytes is always woken again. *)

From stdpp Require Import list.
From S2P Require Import Prelude Net Policy TcpTunnel.

(** ** The client direction *)

Definition cmd_data (c : TcpCommand) : bytes := match c with CmdData d => d | CmdFinish => [] end.
Definition cmd_bytes (cs : list TcpCommand) : bytes := concat (map cmd_data cs).
Definition writer_holds (pc : WriterPc) : Z :=
  match pc with WWrite d => zlen d | WSub n _ => n | _ => 0 end.
Definition writer_rest (pc : WriterPc) : bytes := match pc with WWrite d => d | _ => [] end.
Definition shard_holds (pc : ShardPc) : Z := match pc with SSend d | SUndo d => zlen d | _ => 0 end.
Definition writer_going (pc : WriterPc) : bool :=
  match pc with WSub _ ok => ok | WError | WDone => false | _ => true end.
Definition shard_queueing (pc : ShardPc) : bool :=
  match pc with SCas _ _ | SSend _ | SUndo _ => true | _ => false end.

(** [Finish] is the last command, sent only by a finished client; once the
    writer has taken it nothing is left. *)
Definition is_finish (c : TcpCommand) : bool := match c with CmdFinish => true | CmdData _ => false end.
Definition has_finish (cs : list TcpCommand) : bool := existsb is_finish cs.
Fixpoint finish_last (cs : list TcpCommand) : Prop :=
  match cs with [] => True | CmdData _ :: cs' => finish_last cs' | CmdFinish :: cs' => cs' = [] end.
Definition finishing (pc : WriterPc) : bool :=
  match pc with WShutdown | WFinished => true | _ => false end.
Definition is_write_finished (e : TcpRelayEvent unit) : bool :=
  match e with WriteFinished _ _ => true | _ => false end.
Definition written_off (es : list (TcpRelayEvent unit)) : bool := existsb is_write_finished es.

Lemma cmd_bytes_app cs ds : cmd_bytes (cs ++ ds) = cmd_bytes cs ++ cmd_bytes ds.
Proof. unfold cmd_bytes. by rewrite map_app, concat_app. Qed.
Lemma cmd_bytes_cons c cs : cmd_bytes (c :: cs) = cmd_data c ++ cmd_bytes cs.
Proof. done. Qed.

Lemma finish_last_snoc cs c : finish_last cs -> has_finish cs = false -> finish_last (cs ++ [c]).
Proof. induction cs as [|[d|] cs IH]; simpl; [by destruct c|done|done]. Qed.
Lemma shard_holds_nonneg pc : 0 <= shard_holds pc.
Proof. destruct pc; simpl; try apply zlen_nonneg; lia. Qed.

Record client_inv (s : Relay) : Prop := {
  ci_queued : r_shard s <> SDropped ->
    queued_client_bytes (r_cells s)
    = zlen (cmd_bytes (commands (r_cells s))) + writer_holds (r_writer s) + shard_holds (r_shard s);
  ci_held : 0 <= writer_holds (r_writer s);
  ci_bound : 0 <= queued_client_bytes (r_cells s) <= MAX_BUFFERED_CLIENT_BYTES;
  ci_pipe : if writer_going (r_writer s)
            then accepted s = sock_out s ++ writer_rest (r_writer s) ++ cmd_bytes (commands (r_cells s))
            else sock_out s `prefix_of` accepted s;
  ci_last : finish_last (commands (r_cells s));
  ci_fin : has_finish (commands (r_cells s)) || finishing (r_writer s) = true -> client_finished (r_tun s) = true;
  ci_taken : finishing (r_writer s) = true -> commands (r_cells s) = [];
  ci_busy : client_finished (r_tun s) = true -> shard_queueing (r_shard s) = false;
  ci_dropped : r_shard s = SDropped -> r_writer s = WDone;
  ci_done : written_off (events (r_cells s)) || writer_finished (r_tun s) = true ->
    r_writer s = WDone /\ sock_out s = accepted s /\ client_finished (r_tun s) = true;
  ci_ret : r_ret s <> RetPanic;
}.

Lemma fetch_sub_small v n : 0 <= n <= v -> v <= MAX_BUFFERED_CLIENT_BYTES -> fetch_sub v n = v - n.
Proof. intros. unfold fetch_sub, MAX_BUFFERED_CLIENT_BYTES in *. apply Z.mod_small. lia. Qed.

Lemma written_off_snoc es e : written_off (es ++ [e]) = written_off es || is_write_finished e.
Proof. unfold written_off. rewrite existsb_app. simpl. by rewrite orb_false_r. Qed.
Lemma has_finish_snoc cs c : has_finish (cs ++ [c]) = has_finish cs || is_finish c.
Proof. unfold has_finish. rewrite existsb_app. simpl. by rewrite orb_false_r. Qed.
#[export] Hint Rewrite written_off_snoc has_finish_snoc cmd_bytes_app cmd_bytes_cons @app_nil_r orb_false_r
  orb_true_r : relay.
#[export] Hint Rewrite <- @app_assoc : relay.

(** The clauses of an invariant that a step leaves alone or that follow by
    arithmetic and case analysis. *)
Ltac inv_clauses :=
  split; simpl in *; autorewrite with relay masque_zlen in *; simpl in *;
  try done; try lia; intros; try done; try lia; try (intuition congruence).

Lemma writer_client_inv idx sid io s s' :
  client_inv s -> relay_step idx sid (LWriter io) s = Some s' -> client_inv s'.
Proof.
  intros [Hq Hh Hb Hp Hl Hf Ht Hy Hd Hw Hr] Hs. simpl in Hs.
  destruct s as [t c w r sh ret ac so si ho pk]; simpl in *.
  assert (sh <> SDropped) as Hsh by (intros ->; by rewrite (Hd eq_refl) in Hs). specialize (Hq Hsh).
  pose proof (shard_holds_nonneg sh). pose proof (zlen_nonneg (cmd_bytes (commands c))).
  destruct w as [|d|n ok| | | | | | |]; simpl in *; simplify_option_eq.
  - destruct (commands c) as [|[d|] cs] eqn:Hc; simplify_eq/=; inv_clauses. apply zlen_nonneg.
  - destruct (io_write io) as [k|]; simplify_eq/=; inv_clauses.
    apply prefix_app. eapply prefix_app_r. apply prefix_take.
  - rewrite fetch_sub_small by lia. destruct ok; inv_clauses.
  - destruct (client_capacity_waiter c); inv_clauses.
  - destruct (client_capacity_waiter c); inv_clauses.
  - destruct (io_wsend io); simplify_eq/=; inv_clauses. by eexists.
  - destruct (io_shutdown io); inv_clauses. by eexists.
  - destruct (io_wsend io); simplify_eq/=; inv_clauses.
  - destruct (io_wsend io); simplify_eq/=; inv_clauses; try by eexists. rewrite (Ht eq_refl), app_nil_r. auto.
Qed.

Lemma reader_step_frame idx sid io pc c pc' c' got :
  reader_step idx sid io pc c = Some (pc', c', got) ->
  (commands c', queued_client_bytes c', client_capacity_waiter c')
  = (commands c, queued_client_bytes c, client_capacity_waiter c) /\
  events c `prefix_of` events c' /\ written_off (events c') = written_off (events c).
Proof.
  intros Hs. destruct pc as [|slot|slot|d| | |]; simpl in *; simplify_option_eq; repeat case_match; simplify_eq/=;
    rewrite ?written_off_snoc, ?orb_false_r; split_and!; try done; by eexists.
Qed.

Lemma reader_client_inv idx sid io s s' :
  client_inv s -> relay_step idx sid (LReader io) s = Some s' -> client_inv s'.
Proof.
  intros [] Hs. simpl in Hs. apply bind_Some in Hs as ([[pc c] got] & Hs & [= <-]).
  apply reader_step_frame in Hs as ([= Hc Hq Hw] & _ & He). split; simpl; by rewrite ?Hc, ?Hq, ?He.
Qed.

Lemma drop_client_inv s : client_inv s -> client_inv (drop_tunnel s).
Proof.
  intros [Hq Hh Hb Hp Hl Hf Ht Hy Hd Hw Hr]. inv_clauses.
  - destruct (writer_going (r_writer s)); [|done]. rewrite Hp. by eexists.
  - apply Hf. by rewrite H.
Qed.

Lemma capacity_client_inv s pc c ret taken p:
  client_inv s -> (r_shard s = SIdle \/ r_shard s = SArm \/ r_shard s = SRecheck) ->
  client_capacity (r_shard s) (r_cells s) = Some (pc, c, ret) ->
  client_inv (set_shard s (r_tun s) c pc ret [] taken p).
Proof.
  intros [Hq Hh Hb Hp Hl Hf Ht Hy Hd Hw Hr] Hpc Hc.
  destruct s as [t c0 w r sh ret0 ac so si ho pk]; simpl in *.
  destruct Hpc as [-> | [-> | ->]]; simpl in Hc; repeat case_bool_decide; simplify_eq/=; inv_clauses.
Qed.

Lemma queue_client_inv now s pc t' c ret sp data d2 taken p :
  client_inv s -> r_shard s = SIdle \/ shard_queueing (r_shard s) = true ->
  (forall d, r_shard s = SSend d -> d2 = if is_wdone (r_writer s) then [] else d) ->
  ((forall d, r_shard s <> SSend d) -> d2 = []) ->
  queue_client_data now (is_wdone (r_writer s)) sp data (r_tun s) (r_shard s) (r_cells s)
    = Some (pc, t', c, ret) ->
  client_inv (set_shard s t' c pc ret d2 taken p).
Proof.
  intros [Hq Hh Hb Hp Hl Hf Ht Hy Hd Hw Hr] Hpc Hd2 Hd2' Hc.
  destruct s as [t c0 w r sh ret0 ac so si ho pk]; simpl in *.
  pose proof (zlen_nonneg (cmd_bytes (commands c0))).
  destruct sh as [| | |d cur|d|d|]; simpl in *; try (destruct Hpc; done);
    try (rewrite Hd2' by done); rewrite ?(Hd2 d eq_refl); specialize (Hq ltac:(done)).
  - destruct (client_finished t) eqn:?; simplify_eq/=; inv_clauses.
  - unfold reserve_bounded in Hc. pose proof (zlen_nonneg d).
    repeat case_bool_decide; simplify_eq/=; try destruct sp; simplify_eq/=; inv_clauses.
  - pose proof (zlen_nonneg d). destruct (is_wdone w) eqn:Hwd; simplify_eq/=; inv_clauses.
    + destruct (writer_going w); [by rewrite Hp, <- !app_assoc|]. by apply prefix_app_r.
    + apply finish_last_snoc; [done|].
      destruct (has_finish (commands c0)); [discriminate (Hy (Hf eq_refl))|done].
    + destruct w; try done; discriminate (Hy (Hf (orb_true_r _))).
  - simplify_eq/=. pose proof (zlen_nonneg d).
    split; simpl; rewrite ?fetch_sub_small, ?app_nil_r by lia; try done; lia.
Qed.

Lemma recv_client_inv s now e es :
  client_inv s -> r_shard s = SIdle -> events (r_cells s) = e :: es -> client_inv (recv_event now e es s).
Proof.
  intros Hi Hsh He.
  assert (forall p t', (written_off es || writer_finished t' = true ->
      written_off (e :: es) || writer_finished (r_tun s) = true) ->
    client_finished t' = client_finished (r_tun s) ->
    client_inv (set_shard s t' (set_events (r_cells s) es) SIdle RetNone [] [] p)) as Hk.
  { destruct Hi as [Hq Hh Hb Hp Hl Hf Ht Hy Hd Hw Hr]. rewrite Hsh, He in *. intros p t' H1 H2.
    split; simpl; rewrite ?app_nil_r, ?H2; try done. intros H. apply Hw. auto. }
  destruct e as [i j k|i j d|i j|i j|i j|i j]; simpl; try (apply Hk; simpl; auto; fail).
  - unfold queue_response. destruct (response_finished (r_tun s)); simpl;
      [apply drop_client_inv|]; apply Hk; auto.
  - apply drop_client_inv, Hk; auto.
Qed.

Lemma idle_client_inv s t c delivered p :
  client_inv s -> r_shard s = SIdle ->
  client_finished t = client_finished (r_tun s) -> writer_finished t = writer_finished (r_tun s) ->
  commands c = commands (r_cells s) -> queued_client_bytes c = queued_client_bytes (r_cells s) ->
  events c = events (r_cells s) ->
  client_inv (set_shard s t c SIdle RetNone [] delivered p).
Proof.
  intros [Hq Hh Hb Hp Hl Hf Ht Hy Hd Hw Hr] Hsh H1 H2 H3 H4 H5. rewrite Hsh in *.
  split; simpl; rewrite ?app_nil_r, ?H1, ?H2, ?H3, ?H4, ?H5; done.
Qed.

Lemma finish_client_inv s now p :
  client_inv s -> r_shard s = SIdle ->
  let '(t, c) := finish_client now (is_wdone (r_writer s)) (r_tun s) (r_cells s) in
  client_inv (set_shard s t c SIdle RetNone [] [] p).
Proof.
  intros Hi Hsh. unfold finish_client. destruct (client_finished (r_tun s)) eqn:Hcf.
  { by apply idle_client_inv. }
  destruct Hi as [Hq Hh Hb Hp Hl Hf Ht Hy Hd Hw Hr]. rewrite Hsh in *.
  assert (has_finish (commands (r_cells s)) || finishing (r_writer s) = false) as Hn
    by (destruct (_ || _) eqn:?; [by rewrite Hf in Hcf|done]).
  apply orb_false_iff in Hn as [Hn1 Hn2].
  destruct (is_wdone (r_writer s)) eqn:Hwd; split; simpl; autorewrite with relay; simpl; try done.
  all: rewrite ?Hn2; try done; try (intros H; destruct (Hw H) as (? & ? & ?); done).
  by apply finish_last_snoc.
Qed.

(** A step of [client_capacity] or [queue_client_data]: what the call returned. *)
Ltac call_returns Hs pc t' c ret H :=
  first [apply bind_Some in Hs as ([[[pc t'] c] ret] & H & [= <-])|apply bind_Some in Hs as ([[pc c] ret] & H & [= <-])].

Lemma shard_client_inv now op s s' :
  client_inv s -> shard_step now op s = Some s' -> client_inv s'.
Proof.
  intros Hi Hs. unfold shard_step in Hs. destruct (r_shard s) eqn:Hsh, op; simplify_eq;
    try call_returns Hs pc t' c ret Hc.
  - apply capacity_client_inv; [done|auto|by rewrite Hsh].
  - rewrite <- Hsh in Hc. eapply queue_client_inv; [done|..|exact Hc]; rewrite Hsh; auto; done.
  - pose proof (finish_client_inv s now (parked s) Hi Hsh) as H. by destruct (finish_client _ _ _ _); simplify_eq.
  - destruct (events (r_cells s)) as [|e es] eqn:He; simplify_eq. by apply recv_client_inv.
  - unfold front_response, advance_response in Hs. destruct (pending_responses (r_tun s)); simplify_option_eq;
      by apply idle_client_inv.
  - destruct (_ && _); simplify_eq. by apply idle_client_inv.
  - apply capacity_client_inv; [done|auto|by rewrite Hsh].
  - apply capacity_client_inv; [done|auto|by rewrite Hsh].
  - rewrite <- Hsh in Hc. eapply queue_client_inv; [done|..|exact Hc]; rewrite Hsh; auto; done.
  - rewrite <- Hsh in Hc. eapply queue_client_inv; [done|..|exact Hc]; rewrite Hsh; auto; naive_solver.
  - rewrite <- Hsh in Hc. eapply queue_client_inv; [done|..|exact Hc]; rewrite Hsh; auto; done.
Qed.

Lemma start_client_inv now sid addr : client_inv (from_stream now sid addr).
Proof. split; simpl; try done; unfold MAX_BUFFERED_CLIENT_BYTES; lia. Qed.

Lemma client_inv_reachable idx sid s : relay_reachable idx sid s -> client_inv s.
Proof.
  induction 1 as [now addr|l s s' _ IH Hs]; [apply start_client_inv|]. destruct l as [io|io|now op].
  - by eapply writer_client_inv.
  - by eapply reader_client_inv.
  - by eapply shard_client_inv.
Qed.

(** ** The response direction *)

Definition resp_rest (rs : list PendingTcpResponse) : bytes :=
  concat (map (fun r => drop (Z.to_nat (resp_offset r)) (resp_data r)) rs).
Definition event_data (e : TcpRelayEvent unit) : bytes := match e with Data _ _ d => d | _ => [] end.
Definition event_bytes (es : list (TcpRelayEvent unit)) : bytes := concat (map event_data es).
Definition is_data (e : TcpRelayEvent unit) : bool := match e with Data _ _ _ => true | _ => false end.
Definition is_eof (e : TcpRelayEvent unit) : bool := match e with Eof _ _ => true | _ => false end.
Definition reader_rest (pc : ReaderPc) : bytes := match pc with RSend d => d | _ => [] end.
Definition reader_holds (pc : ReaderPc) : Z :=
  match pc with RRead _ => TCP_READ_CHUNK_SIZE | RSend d => zlen d | _ => 0 end.
Definition reader_slot (pc : ReaderPc) : Z := match pc with RAcquire _ | RRead _ | RSend _ => 1 | _ => 0 end.
Definition reader_going (pc : ReaderPc) : bool :=
  match pc with RRecv | RAcquire _ | RRead _ | RSend _ => true | _ => false end.

(** No data follows the end of stream in the channel. *)
Fixpoint eof_last (es : list (TcpRelayEvent unit)) : Prop :=
  match es with
  | [] => True
  | e :: es' => (is_eof e = true -> List.filter is_data es' = []) /\ eof_last es'
  end.

Definition chunk_ok (data : bytes) : Prop := 0 < zlen data <= TCP_READ_CHUNK_SIZE.
Definition response_ok (r : PendingTcpResponse) : Prop :=
  chunk_ok (resp_data r) /\ 0 <= resp_offset r < zlen (resp_data r).

(** [lost] is a chunk the reader could not send because the shard was gone. *)
Record response_inv (s : Relay) : Prop := {
  ri_pipe : exists lost : bytes,
    sock_in s = h3_out s ++ resp_rest (pending_responses (r_tun s)) ++ event_bytes (events (r_cells s))
                ++ reader_rest (r_reader s) ++ lost /\
    response_credit (r_cells s) + zlen (resp_rest (pending_responses (r_tun s)))
      + zlen (event_bytes (events (r_cells s))) + reader_holds (r_reader s) + zlen lost
      <= MAX_BUFFERED_RESPONSE_BYTES /\
    (r_reader s <> RDone -> lost = [] /\
      response_credit (r_cells s) + zlen (resp_rest (pending_responses (r_tun s)))
        + zlen (event_bytes (events (r_cells s))) + reader_holds (r_reader s) = MAX_BUFFERED_RESPONSE_BYTES) /\
    (existsb is_eof (events (r_cells s)) || upstream_finished (r_tun s) = true -> lost = []);
  ri_credit : 0 <= response_credit (r_cells s);
  ri_slots : let used := zlen (recycle (r_cells s)) + reader_slot (r_reader s)
      + zlen (List.filter is_data (events (r_cells s))) + zlen (pending_responses (r_tun s)) in
    used <= TCP_READ_BUFFERS /\ (reader_going (r_reader s) = true -> used = TCP_READ_BUFFERS);
  ri_chunks : Forall response_ok (pending_responses (r_tun s)) /\
    Forall (fun e => is_data e = true -> chunk_ok (event_data e)) (events (r_cells s)) /\
    match r_reader s with RSend d => chunk_ok d | _ => True end;
  ri_eof : existsb is_eof (events (r_cells s)) || upstream_finished (r_tun s) = true -> r_reader s = RDone;
  ri_last : eof_last (events (r_cells s));
  ri_upstream : upstream_finished (r_tun s) = true -> List.filter is_data (events (r_cells s)) = [];
  ri_end : response_finished (r_tun s) = true ->
    upstream_finished (r_tun s) = true /\ pending_responses (r_tun s) = [];
}.

Lemma event_bytes_app es fs : event_bytes (es ++ fs) = event_bytes es ++ event_bytes fs.
Proof. unfold event_bytes. by rewrite map_app, concat_app. Qed.
Lemma resp_rest_app rs qs : resp_rest (rs ++ qs) = resp_rest rs ++ resp_rest qs.
Proof. unfold resp_rest. by rewrite map_app, concat_app. Qed.

Lemma eof_last_snoc es e :
  eof_last es -> (existsb is_eof es = true -> is_data e = false) -> eof_last (es ++ [e]).
Proof.
  induction es as [|x es IH]; simpl; [done|]. intros [Hx Hl] He. split.
  - intros Hxe. rewrite List.filter_app, Hx by done. simpl. by rewrite He by (by rewrite Hxe).
  - apply IH; [done|]. intros H. apply He. by rewrite H, orb_true_r.
Qed.

(** A step that leaves the response side alone, but for an event that is
    neither data nor the end of stream. *)
Definition quiet (es : list (TcpRelayEvent unit)) : Prop :=
  Forall (fun e => is_data e = false /\ is_eof e = false) es.

Lemma quiet_facts es : quiet es ->
  event_bytes es = [] /\ existsb is_eof es = false /\ List.filter is_data es = [].
Proof.
  induction 1 as [|e es [Hd He] _ (IH1 & IH2 & IH3)]; [done|]. simpl.
  unfold event_bytes in *. simpl. rewrite IH1, He, Hd. by destruct e.
Qed.

Lemma eof_last_app es fs : eof_last es -> quiet fs -> eof_last (es ++ fs).
Proof.
  intros H Hq. revert es H. induction Hq as [|f fs [Hd He] _ IH]; intros es H; [by rewrite app_nil_r|].
  rewrite (cons_middle f), app_assoc. apply IH, eof_last_snoc; [done|by rewrite Hd].
Qed.

Lemma response_inv_frame s s' es :
  response_inv s -> quiet es ->
  events (r_cells s') = events (r_cells s) ++ es ->
  response_credit (r_cells s') = response_credit (r_cells s) -> recycle (r_cells s') = recycle (r_cells s) ->
  r_reader s' = r_reader s -> sock_in s' = sock_in s -> h3_out s' = h3_out s ->
  pending_responses (r_tun s') = pending_responses (r_tun s) ->
  upstream_finished (r_tun s') = upstream_finished (r_tun s) ->
  response_finished (r_tun s') = response_finished (r_tun s) ->
  response_inv s'.
Proof.
  intros [Hp Hc Hs Hk He Hl Hu Hn] Hq E1 E2 E3 E4 E5 E6 E7 E8 E9.
  destruct (quiet_facts es Hq) as (Q1 & Q2 & Q3).
  split; rewrite ?E2, ?E3, ?E4, ?E5, ?E6, ?E7, ?E8, ?E9, ?E1, ?event_bytes_app, ?Q1, ?app_nil_r,
    ?existsb_app, ?List.filter_app, ?Q2, ?Q3, ?app_nil_r, ?orb_false_r; try done.
  - destruct Hk as (H1 & H2 & H3). split_and!; [done| |done]. apply Forall_app. split; [done|].
    eapply Forall_impl; [exact Hq|]. by intros e [-> _].
  - by apply eof_last_app.
Qed.

Lemma writer_step_frame idx sid io pc c pc' c' out :
  writer_step idx sid io pc c = Some (pc', c', out) ->
  response_credit c' = response_credit c /\ recycle c' = recycle c /\
  exists es, quiet es /\ events c' = events c ++ es.
Proof.
  intros Hs.
  destruct pc; simpl in *; simplify_option_eq; repeat case_match; simplify_eq/=; split_and!; try done;
    first [exists []; split; [by apply Forall_nil_2|by rewrite app_nil_r]
          |eexists [_]; split; [|done]; by apply Forall_singleton].
Qed.

Lemma writer_response_inv idx sid io s s' :
  response_inv s -> relay_step idx sid (LWriter io) s = Some s' -> response_inv s'.
Proof.
  intros Hi Hs. simpl in Hs. apply bind_Some in Hs as ([[pc c] out] & Hs & [= <-]).
  apply writer_step_frame in Hs as (H1 & H2 & es & Hq & H3). by eapply response_inv_frame.
Qed.

#[export] Hint Rewrite event_bytes_app resp_rest_app List.filter_app existsb_app : relay.

Ltac ri := split_and?; intros; split_and?; rewrite ?app_nil_r in *; zlens; try done; try lia; auto.

Lemma reader_response_inv idx sid io s s' :
  response_inv s -> relay_step idx sid (LReader io) s = Some s' -> response_inv s'.
Proof.
  intros [Hp Hc Hs Hk He Hl Hu Hn] Hst. simpl in Hst.
  destruct s as [t c w r sh ret ac so si ho pk]; simpl in *.
  destruct Hp as (lost & Hp & Hm & Hg & Hf). destruct Hs as [Hs1 Hs2]. destruct Hk as (Hk1 & Hk2 & Hk3).
  assert (r <> RDone -> existsb is_eof (events c) || upstream_finished t = false) as Hne
    by (intros H; destruct (_ || _); [by destruct (H (He eq_refl))|done]).
  destruct r as [|slot|slot|d| | |]; simpl in *; simplify_option_eq; try specialize (Hne ltac:(done));
    try (destruct (Hg ltac:(done)) as [-> Hcr]); try specialize (Hs2 eq_refl).
  - destruct (recycle c) as [|slot pool] eqn:Hr; simplify_eq/=.
    split; simpl; rewrite ?Hne; try done; [|rewrite zlen_cons in *; ri]. exists []. ri.
  - split; simpl; rewrite ?Hne; try done; try lia. exists []. ri.
  - assert (0 < TCP_READ_CHUNK_SIZE) by done.
    destruct (io_read io) as [offered|]; [case_bool_decide as Hd|]; simplify_eq/=.
    + split; simpl; rewrite ?Hne, ?app_nil_r; try done; try (by ri). exists []. ri.
    + apply zlen_pos in Hd. pose proof (zlen_take TCP_READ_CHUNK_SIZE offered ltac:(lia)).
      set (data := take _ _) in *. split; simpl; rewrite ?Hne; try done; try (by ri).
      exists []. rewrite !app_nil_r, <- !app_assoc. ri.
    + split; simpl; rewrite ?Hne, ?app_nil_r; try done; try (by ri). exists []. ri.
  - apply orb_false_iff in Hne as [Hne1 Hne2]. rewrite Hne2 in Hn.
    assert (event_bytes [Data idx sid d] = d) as Hev by (unfold event_bytes; simpl; by rewrite app_nil_r).
    destruct (io_rsend io); simplify_eq/=.
    + split; simpl; autorewrite with relay; simpl; rewrite ?Hne1, ?Hne2, ?Hev, ?zlen_app, ?zlen_cons; try done;
        try (by ri).
      * exists []. rewrite <- !app_assoc. ri.
      * split_and!; [done| |done]. apply Forall_app. split; [done|by apply Forall_singleton].
      * apply eof_last_snoc; [done|by rewrite Hne1].
    + split; simpl; rewrite ?Hne1, ?Hne2; try done; try (by ri). exists d. ri.
  - apply orb_false_iff in Hne as [Hne1 Hne2]. rewrite Hne2 in Hn. destruct (io_rsend io); simplify_eq/=.
    + split; simpl; autorewrite with relay; simpl; rewrite ?Hne1, ?Hne2; try done; try (by ri).
      * exists []. ri.
      * split_and!; [done| |done]. apply Forall_app. split; [done|by apply Forall_singleton].
      * by apply eof_last_snoc.
    + split; simpl; rewrite ?Hne1, ?Hne2; try done; try (by ri). exists []. ri.
  - apply orb_false_iff in Hne as [Hne1 Hne2]. rewrite Hne2 in Hn. destruct (io_rsend io); simplify_eq/=.
    + split; simpl; autorewrite with relay; simpl; rewrite ?Hne1, ?Hne2; try done; try (by ri).
      * exists []. ri.
      * split_and!; [done| |done]. apply Forall_app. split; [done|by apply Forall_singleton].
      * by apply eof_last_snoc.
    + split; simpl; rewrite ?Hne1, ?Hne2; try done; try (by ri). exists []. ri.
Qed.

Lemma drop_response_inv s : response_inv s -> response_inv (drop_tunnel s).
Proof.
  intros [(lost & Hp & Hm & Hg & Hf) Hc Hs Hk He Hl Hu Hn]. split; simpl; try done.
  - assert (zlen (reader_rest (r_reader s)) <= reader_holds (r_reader s)) as Hr
      by (destruct (r_reader s); simpl; rewrite ?zlen_nil; unfold TCP_READ_CHUNK_SIZE; lia).
    exists (reader_rest (r_reader s) ++ lost). rewrite zlen_app. split_and!; [done|lia|done|].
    intros H. rewrite Hf by done. rewrite He by done. done.
  - assert (0 <= reader_slot (r_reader s)) by (destruct (r_reader s); simpl; lia).
    destruct Hs. split; [lia|done].
  - by destruct Hk as (? & ? & _).
Qed.

Lemma recv_response_inv s now e es :
  response_inv s -> r_shard s = SIdle -> events (r_cells s) = e :: es -> response_inv (recv_event now e es s).
Proof.
  intros Hi Hsh Hev.
  assert (forall ret p t, is_data e = false -> pending_responses t = pending_responses (r_tun s) ->
    upstream_finished t = is_eof e || upstream_finished (r_tun s) ->
    response_finished t = response_finished (r_tun s) ->
    response_inv (set_shard s t (set_events (r_cells s) es) SIdle ret [] [] p)) as Hk.
  { destruct Hi as [Hp Hc Hs Hk He Hl Hu Hn]. rewrite Hev in *. intros ret p t Hd H1 H2 H3.
    assert (event_bytes (e :: es) = event_bytes es) as Hb by (by destruct e).
    simpl in *. rewrite Hd, Hb in *.
    assert (existsb is_eof es || upstream_finished t = is_eof e || existsb is_eof es || upstream_finished (r_tun s))
      as Hx by (rewrite H2; by destruct (is_eof e), (existsb is_eof es), (upstream_finished (r_tun s))).
    split; simpl; rewrite ?H1, ?H3, ?Hx, ?app_nil_r; try done; try tauto.
    - destruct Hk as (Hk1 & Hk2 & Hk3). by inv Hk2.
    - rewrite H2. intros [H|H]%orb_true_iff; [by apply Hl|by apply Hu].
    - intros H. destruct (Hn H) as [-> ->] in H2 |- *. by rewrite H2, orb_true_r. }
  destruct e as [i j k|i j d|i j|i j|i j|i j]; simpl; try (apply Hk; simpl; auto; fail).
  - unfold queue_response. destruct Hi as [Hp Hc Hs Hch He Hl Hu Hn]. rewrite Hev in *. simpl in *.
    destruct (response_finished (r_tun s)); simpl.
    { destruct (Hn eq_refl) as [H _]. discriminate (Hu H). }
    destruct Hch as (Hk1 & Hk2 & Hk3). inv Hk2. rewrite zlen_cons in Hs.
    assert (event_bytes (Data i j d :: es) = d ++ event_bytes es) as Hb by done.
    assert (resp_rest (pending_responses (r_tun s) ++ [{| resp_data := d; resp_offset := 0 |}])
      = resp_rest (pending_responses (r_tun s)) ++ d) as Hr
      by (rewrite resp_rest_app; unfold resp_rest at 2; simpl; by rewrite app_nil_r).
    rewrite Hb in *.
    split; simpl; rewrite ?app_nil_r, ?Hr, ?zlen_app in *; rewrite ?zlen_cons, ?zlen_nil; try done.
    + destruct Hp as (lost & Hp & Hm & Hg & Hf). exists lost. rewrite <- !app_assoc in *. split_and!; [done|lia| |done].
      intros H. destruct (Hg H). split; [done|lia].
    + destruct Hs as [Hs1 Hs2]. split; [lia|]. intros H. specialize (Hs2 H). lia.
    + split_and!; [|done|done]. apply Forall_app. split; [done|]. apply Forall_singleton.
      specialize (H1 eq_refl). simpl in H1. split; simpl; [done|]. destruct H1. lia.
    + by destruct Hl.
    + intros H. discriminate (Hu H).
  - apply drop_response_inv, Hk; auto.
Qed.

Lemma advance_response_inv s now written response rest c p :
  response_inv s -> pending_responses (r_tun s) = response :: rest ->
  let remaining := drop (Z.to_nat (resp_offset response)) (resp_data response) in
  0 < written <= zlen remaining ->
  let '(t, permits, retired) := advance_response now written (r_tun s) in
  let pool := match retired with Some _ => chunk_drop (recycle (r_cells s)) | None => recycle (r_cells s) end in
  c = set_credit (r_cells s) (response_credit (r_cells s) + permits) pool ->
  response_inv (set_shard s t c SIdle RetNone [] (take (Z.to_nat written) remaining) p).
Proof.
  intros [Hp Hc Hs Hk He Hl Hu Hn] Hpr remaining Hw. unfold advance_response. rewrite Hpr in *.
  destruct Hk as (Hk1 & Hk2 & Hk3). inv Hk1. destruct H1 as [Hch Hoff].
  assert (zlen remaining = zlen (resp_data response) - resp_offset response) as Hrl
    by (unfold remaining, zlen in *; rewrite length_drop; lia).
  assert (resp_rest (response :: rest) = remaining ++ resp_rest rest) as Hr by done. rewrite Hr in *.
  assert (remaining = take (Z.to_nat written) remaining ++ drop (Z.to_nat (resp_offset response + written)) (resp_data response)) as Hsplit.
  { rewrite <- (take_drop (Z.to_nat written) remaining) at 1. f_equal. unfold remaining.
    rewrite drop_drop. f_equal. lia. }
  intros ->.
  assert (zlen (take (Z.to_nat written) remaining) = written) as Hwl
    by (unfold zlen in *; rewrite length_take; lia).
  set (off := resp_offset response + written) in *. rewrite zlen_cons in Hs. destruct Hs as [Hs1 Hs2].
  set (retired := bool_decide (off >= zlen (resp_data response))).
  set (rs := if retired then rest else {| resp_data := resp_data response; resp_offset := off |} :: rest).
  assert (resp_rest rs = drop (Z.to_nat off) (resp_data response) ++ resp_rest rest) as Hrs.
  { unfold rs, retired. case_bool_decide; [|done]. rewrite (drop_ge (resp_data response)); [done|].
    unfold zlen in *. lia. }
  match goal with |- context [set_credit _ _ ?p] => set (pool := p) end.
  assert (zlen pool + zlen rs = zlen (recycle (r_cells s)) + (1 + zlen rest)) as Hpool.
  { unfold pool, rs, chunk_drop. destruct retired; [|rewrite zlen_cons; lia].
    assert (0 <= reader_slot (r_reader s)) by (destruct (r_reader s); simpl; lia).
    pose proof (zlen_nonneg (List.filter is_data (events (r_cells s)))). pose proof (zlen_nonneg rest).
    rewrite bool_decide_true by lia. rewrite zlen_app, zlen_cons, zlen_nil. lia. }
  assert (Forall response_ok rs) as Hok.
  { unfold rs, retired. case_bool_decide; [done|]. constructor; [|done]. split; simpl; [done|lia]. }
  assert (remaining ++ resp_rest rest = take (Z.to_nat written) remaining ++ resp_rest rs) as Hrest
    by (rewrite Hrs, app_assoc, <- Hsplit; done).
  destruct Hp as (lost & Hp & Hm & Hg & Hf). rewrite Hrest, zlen_app, Hwl in *.
  split; simpl; rewrite ?app_nil_r; fold retired rs pool; try done; try lia.
  - exists lost. rewrite Hp, <- !app_assoc. split_and!; [done|lia| |done].
    intros H. destruct (Hg H). split; [done|lia].
  - split; [lia|]. intros H. specialize (Hs2 H). lia.
  - intros H. by destruct (Hn H).
Qed.

(** The calls on the client side do not touch the response side. *)
Definition response_cells (c : Cells) := (response_credit c, recycle c, events c).

Lemma client_capacity_frame pc c pc' c' ret :
  client_capacity pc c = Some (pc', c', ret) -> response_cells c' = response_cells c.
Proof. destruct pc; simpl; intros; repeat case_bool_decide; by simplify_eq/=. Qed.
Definition response_fields (t : TcpTunnel) := (pending_responses t, upstream_finished t, response_finished t).
Lemma queue_client_data_frame now cl sp d t pc c pc' t' c' ret :
  queue_client_data now cl sp d t pc c = Some (pc', t', c', ret) ->
  response_cells c' = response_cells c /\ response_fields t' = response_fields t.
Proof. destruct pc; simpl; intros; repeat case_match; by simplify_eq/=. Qed.

Lemma shard_frame_inv s t c pc ret taken p :
  response_inv s -> response_cells c = response_cells (r_cells s) -> response_fields t = response_fields (r_tun s) ->
  response_inv (set_shard s t c pc ret taken [] p).
Proof.
  intros Hi [= H1 H2 H3] [= H4 H5 H6].
  apply (response_inv_frame s _ []); simpl; rewrite ?app_nil_r; try done. by apply Forall_nil_2.
Qed.

Lemma shard_response_inv now op s s' :
  response_inv s -> shard_step now op s = Some s' -> response_inv s'.
Proof.
  intros Hi Hs. unfold shard_step in Hs.
  destruct (r_shard s) eqn:Hsh, op; simplify_eq; 
    try call_returns Hs pc t' c ret Hc;
    try (apply shard_frame_inv; [done|by eapply client_capacity_frame|done]);
    try (apply queue_client_data_frame in Hc as [??]; by apply shard_frame_inv).
  - unfold finish_client in Hs. destruct (client_finished (r_tun s)); simplify_eq.
    + by apply shard_frame_inv.
    + apply (response_inv_frame s _ []); simpl; rewrite ?app_nil_r; try done; try (by destruct (is_wdone _)).
      by apply Forall_nil_2.
  - destruct (events (r_cells s)) as [|e es] eqn:He; simplify_eq. by apply recv_response_inv.
  - unfold front_response in Hs. destruct (pending_responses (r_tun s)) as [|response rest] eqn:Hp; [done|].
    simpl in Hs. case_bool_decide; [|done].
    pose proof (advance_response_inv s now written response rest) as H'.
    specialize (fun c p Hi => H' c p Hi Hp H). destruct (advance_response _ _ _) as [[t permits] retired].
    simplify_eq. by apply H'.
  - destruct (_ && _) eqn:Hg; simplify_eq. apply andb_true_iff in Hg as [[Hg1 Hg2]%andb_true_iff Hg3].
    destruct Hi as [Hp Hc Hk He Hl Hu Hn]. split; simpl; rewrite ?app_nil_r; try done.
    intros _. split; [done|]. unfold has_pending_response in Hg1. by case_bool_decide.
Qed.

Lemma start_response_inv now sid addr : response_inv (from_stream now sid addr).
Proof.
  split; simpl; try done.
  exists []. split_and!; done.
Qed.

Lemma response_inv_reachable idx sid s : relay_reachable idx sid s -> response_inv s.
Proof.
  induction 1 as [now addr|l s s' _ IH Hs]; [apply start_response_inv|]. destruct l as [io|io|now op].
  - by eapply writer_response_inv.
  - by eapply reader_response_inv.
  - by eapply shard_response_inv.
Qed.

(** ** Wakeups *)

Definition is_error (e : TcpRelayEvent unit) : bool := match e with RelayError _ _ => true | _ => false end.
(** The events that make the shard look at the stream again. *)
Definition is_wake (e : TcpRelayEvent unit) : bool :=
  match e with Writable _ _ | RelayError _ _ => true | _ => false end.

(** The shard that owns a tunnel also owns the receiver of its events, so the
    channel stays open while the tunnel lives. *)
Definition open_label (l : Label) : Prop :=
  match l with LWriter io => io_wsend io <> Closed | LReader io => io_rsend io <> Closed | LShard _ _ => True end.

Inductive relay_live (idx sid : Z) : Relay -> Prop :=
| live_start now addr : relay_live idx sid (from_stream now sid addr)
| live_step l s s' :
    relay_live idx sid s -> open_label l -> relay_step idx sid l s = Some s' -> relay_live idx sid s'.

Lemma live_reachable idx sid s : relay_live idx sid s -> relay_reachable idx sid s.
Proof. induction 1; [constructor|]. by eapply reach_step. Qed.

(** The writer is about to send a wakeup. *)
Definition notifying (pc : WriterPc) : bool := match pc with WNotify | WError => true | _ => false end.
Definition checking (pc : WriterPc) : bool := match pc with WLoad | WSwap => true | _ => false end.
Definition writing (pc : WriterPc) : bool := match pc with WRecv | WWrite _ | WSub _ _ => true | _ => false end.

Definition wake_sent (s : Relay) : Prop :=
  existsb is_wake (events (r_cells s)) = true \/ notifying (r_writer s) = true.
Definition waking (s : Relay) : Prop :=
  wake_sent s \/
  client_capacity_waiter (r_cells s) = true /\
  (checking (r_writer s) = true \/
   writing (r_writer s) = true /\ queued_client_bytes (r_cells s) = MAX_BUFFERED_CLIENT_BYTES /\
   shard_holds (r_shard s) = 0).

Record wake_inv (s : Relay) : Prop := {
  wi_done : r_shard s <> SDropped -> r_writer s = WDone ->
    existsb is_error (events (r_cells s)) = true \/ commands (r_cells s) = [];
  wi_armed : r_shard s = SRecheck -> wake_sent s \/ client_capacity_waiter (r_cells s) = true;
  wi_parked : parked s = true -> waking s;
}.

Lemma existsb_snoc {A} (f : A -> bool) l x : existsb f (l ++ [x]) = existsb f l || f x.
Proof. rewrite existsb_app. simpl. by rewrite orb_false_r. Qed.

Lemma error_is_wake es : existsb is_error es = true -> existsb is_wake es = true.
Proof.
  rewrite !existsb_exists. intros (e & He & Hx). exists e. split; [done|]. by destruct e.
Qed.

Lemma writer_wake_inv idx sid io s s' :
  client_inv s -> wake_inv s -> io_wsend io <> Closed ->
  relay_step idx sid (LWriter io) s = Some s' -> wake_inv s'.
Proof.
  intros [Hq _ _ _ Hl _ Ht _ Hd _ _] [Hw Ha Hp] Ho Hs. simpl in Hs.
  destruct s as [t c w r sh ret ac so si ho pk]; unfold waking, wake_sent in *; simpl in *.
  assert (sh <> SDropped) as Hsh by (intros ->; by rewrite (Hd eq_refl) in Hs). specialize (Hq Hsh).
  specialize (Hw Hsh).
  destruct w as [|d|n ok| | | | | | |]; simpl in *; simplify_option_eq.
  - destruct (commands c) as [|[d|] cs] eqn:Hc; simplify_eq/=; split; unfold waking, wake_sent; simpl; try done; try tauto.
    intros H. destruct (Hp H) as [?|(? & [?|(? & H2 & H3)])]; [auto|done|].
    unfold cmd_bytes, zlen in Hq. simpl in Hq.
    unfold MAX_BUFFERED_CLIENT_BYTES in H2. lia.
  - destruct (io_write io); simplify_eq/=; split; unfold waking, wake_sent; simpl; try done; tauto.
  - destruct ok; split; unfold waking, wake_sent; simpl; try done; tauto.
  - destruct (client_capacity_waiter c) eqn:?; split; unfold waking, wake_sent; simpl; try done; try tauto.
  - destruct (client_capacity_waiter c) eqn:?; split; unfold waking, wake_sent; simpl; try done; try tauto.
  - destruct (io_wsend io); simplify_eq/=; split; unfold waking, wake_sent; simpl; rewrite ?existsb_snoc; simpl;
      rewrite ?orb_true_r; try done; tauto.
  - destruct (io_shutdown io); split; unfold waking, wake_sent; simpl; try done; tauto.
  - destruct (io_wsend io); simplify_eq/=; split; unfold waking, wake_sent; simpl; rewrite ?existsb_snoc; simpl;
      rewrite ?orb_true_r; try done; tauto.
  - destruct (io_wsend io); simplify_eq/=; split; unfold waking, wake_sent; simpl; rewrite ?existsb_snoc; simpl;
      rewrite ?orb_false_r; try done; tauto.
Qed.

Lemma reader_wake_inv idx sid io s s' :
  wake_inv s -> relay_step idx sid (LReader io) s = Some s' -> wake_inv s'.
Proof.
  intros [Hw Ha Hp] Hs. simpl in Hs. apply bind_Some in Hs as ([[pc c] got] & Hs & [= <-]).
  apply reader_step_frame in Hs as ([= Hc Hq Hwt] & [es He] & _).
  assert (forall f, existsb f (events (r_cells s)) = true -> existsb f (events c) = true) as Hm
    by (intros f H; by rewrite He, existsb_app, H).
  unfold waking, wake_sent in *. split; unfold waking, wake_sent; simpl; rewrite ?Hc, ?Hq, ?Hwt.
  - intros H1 H2. destruct (Hw H1 H2); auto.
  - intros H. destruct (Ha H) as [[?|?]|?]; auto.
  - intros H. destruct (Hp H) as [[?|?]|?]; auto.
Qed.

Lemma capacity_wake_inv s c pc ret :
  client_inv s -> wake_inv s -> (r_shard s = SIdle \/ r_shard s = SArm \/ r_shard s = SRecheck) ->
  client_capacity (r_shard s) (r_cells s) = Some (pc, c, ret) ->
  wake_inv (set_shard s (r_tun s) c pc ret [] [] (parks ret (parked s))).
Proof.
  intros [Hq _ Hb _ _ _ Ht _ _ _ _] [Hw Ha Hp] Hpc Hc.
  destruct s as [t c0 w r sh ret0 ac so si ho pk]; unfold waking, wake_sent in *; simpl in *.
  destruct Hpc as [-> | [-> | ->]]; simpl in *; repeat case_bool_decide; simplify_eq/=;
    specialize (Hq ltac:(done)); specialize (Hw ltac:(done)); split; unfold waking, wake_sent; simpl; try done; try tauto.
  - case_bool_decide; [lia|done].
  - intros Hz%bool_decide_eq_true. destruct (Ha eq_refl) as [?|Hwt]; [tauto|].
    destruct (writing w) eqn:?; [right; auto with lia|].
    assert (writer_holds w = 0 -> commands c = [] -> False) as Hno.
    { intros H1 H2. rewrite H1, H2 in Hq. unfold cmd_bytes, zlen in Hq. simpl in Hq.
      unfold MAX_BUFFERED_CLIENT_BYTES in Hz. lia. }
    destruct w; simpl in *; auto; try (by destruct (Hno eq_refl (Ht eq_refl))).
    destruct (Hw eq_refl) as [He|He]; [|by destruct (Hno eq_refl He)]. left. left. by apply error_is_wake.
Qed.

Lemma queue_wake_inv now s t' c pc ret sp data taken :
  client_inv s -> wake_inv s -> r_shard s = SIdle \/ shard_queueing (r_shard s) = true ->
  queue_client_data now (is_wdone (r_writer s)) sp data (r_tun s) (r_shard s) (r_cells s)
    = Some (pc, t', c, ret) ->
  wake_inv (set_shard s t' c pc ret taken [] (parks ret (parked s))).
Proof.
  intros [Hq Hh Hb _ _ _ Ht _ _ _ _] [Hw Ha Hp] Hpc Hc.
  destruct s as [t c0 w r sh ret0 ac so si ho pk]; unfold waking, wake_sent in *; simpl in *.
  destruct sh as [| | |d cur|d|d|]; simpl in *; try (destruct Hpc; done);
    specialize (Hq ltac:(done)); specialize (Hw ltac:(done)).
  - destruct (client_finished t); simplify_eq/=; split; unfold waking, wake_sent; simpl; try done; tauto.
  - unfold reserve_bounded in Hc. pose proof (zlen_nonneg d). 
    repeat case_bool_decide; simplify_eq/=; try destruct sp; simplify_eq/=;
      split; unfold waking, wake_sent; simpl; try done; try tauto.
    intros H3. destruct (Hp H3) as [?|(? & [?|(? & H5 & H6)])]; auto. right. split; [done|]. right. split_and!; [done|lia|lia].
  - pose proof (zlen_nonneg d). destruct (is_wdone w) eqn:Hwd; simplify_eq/=; split; unfold waking, wake_sent; simpl; try done; try tauto.
    by destruct w.
  - simplify_eq/=. pose proof (zlen_nonneg d). pose proof (zlen_nonneg (cmd_bytes (commands c0))).
    split; unfold waking, wake_sent; simpl; try done. rewrite fetch_sub_small by lia.
    intros H1. destruct (Hp H1) as [?|(? & [?|(? & H5 & H6)])]; auto. right. split; [done|]. right. split_and!; [done|lia|lia].
Qed.

Lemma drop_wake_inv s : wake_inv (drop_tunnel s).
Proof. by split. Qed.

Lemma recv_wake_inv s now e es :
  wake_inv s -> r_shard s = SIdle -> events (r_cells s) = e :: es -> wake_inv (recv_event now e es s).
Proof.
  intros [Hw Ha Hp] Hsh He.
  assert (forall t ret p, is_wake e = false -> p = parked s ->
    wake_inv (set_shard s t (set_events (r_cells s) es) SIdle ret [] [] p)) as Hk.
  { intros t ret p Hn ->. unfold waking, wake_sent in *. rewrite Hsh, He in *. simpl in *. rewrite Hn in *.
    assert (is_error e = false) as Hn' by (by destruct e). rewrite Hn' in *.
    split; unfold waking, wake_sent; simpl; try done; tauto. }
  destruct e as [i j k|i j d|i j|i j|i j|i j]; simpl; try (apply Hk; done); try apply drop_wake_inv.
  - destruct (queue_response now d (r_tun s)) as [[|] t]; [by apply Hk|apply drop_wake_inv].
  - rewrite He, Hsh in *. split; simpl; done.
Qed.

Lemma idle_wake_inv s t c delivered p :
  wake_inv s -> r_shard s = SIdle -> events c = events (r_cells s) ->
  client_capacity_waiter c = client_capacity_waiter (r_cells s) ->
  queued_client_bytes c = queued_client_bytes (r_cells s) ->
  (r_writer s = WDone -> commands c = commands (r_cells s)) -> p = parked s ->
  wake_inv (set_shard s t c SIdle RetNone [] delivered p).
Proof.
  intros [Hw Ha Hp] Hsh H1 H2 H3 H4 ->. unfold waking, wake_sent in *. rewrite Hsh in *.
  split; unfold waking, wake_sent; simpl; rewrite ?H1, ?H2, ?H3; try done.
  intros _ H. rewrite (H4 H). by apply Hw.
Qed.

Lemma shard_wake_inv now op s s' :
  client_inv s -> wake_inv s -> shard_step now op s = Some s' -> wake_inv s'.
Proof.
  intros Hc Hi Hs. unfold shard_step in Hs.
  destruct (r_shard s) eqn:Hsh, op; simplify_eq; try call_returns Hs pc t' c ret Hst;
    try (rewrite <- Hsh in Hst; apply capacity_wake_inv; rewrite ?Hsh; auto; by rewrite Hsh in Hst);
    try (rewrite <- Hsh in Hst; eapply queue_wake_inv; [done|done| |exact Hst]; rewrite Hsh; auto).
  - unfold finish_client in Hs. destruct (client_finished (r_tun s)); simplify_eq; apply idle_wake_inv; try done;
      destruct (is_wdone _) eqn:?; try done. intros H. by rewrite H in *.
  - destruct (events (r_cells s)) as [|e es] eqn:He; simplify_eq. by apply recv_wake_inv.
  - unfold front_response, advance_response in Hs.
    destruct (pending_responses (r_tun s)); simplify_option_eq; by apply idle_wake_inv.
  - destruct (_ && _); simplify_eq. by apply idle_wake_inv.
Qed.

Lemma wake_inv_live idx sid s : relay_live idx sid s -> wake_inv s.
Proof.
  induction 1 as [now addr|l s s' Hl IH Ho Hs]; [by split|].
  apply live_reachable, client_inv_reachable in Hl. destruct l as [io|io|now op].
  - by eapply writer_wake_inv.
  - by eapply reader_wake_inv.
  - by eapply shard_wake_inv.
Qed.

(** ** What the relay guarantees *)

(** C16: in every interleaving of the shard, the writer task and the reader task
    of an established CONNECT tunnel, the target receives a prefix of the request
    bytes accepted from the client and the client a prefix of the bytes read from
    the target, each in order; and neither side is truncated: when the response
    has been finished every byte read was delivered, and when the write side is
    reported finished the client had finished and every accepted byte was
    written, so a tunnel that is complete lost nothing in either direction. *)
Theorem tcp_relay_faithful idx sid s :
  relay_reachable idx sid s ->
  sock_out s `prefix_of` accepted s /\ h3_out s `prefix_of` sock_in s /\
  (response_finished (r_tun s) = true -> h3_out s = sock_in s) /\
  (writer_finished (r_tun s) = true -> sock_out s = accepted s /\ client_finished (r_tun s) = true) /\
  (is_complete (r_tun s) = true -> h3_out s = sock_in s /\ sock_out s = accepted s).
Proof.
  intros Hr. pose proof (client_inv_reachable _ _ _ Hr) as [_ _ _ Hp _ _ _ _ _ Hd _].
  pose proof (response_inv_reachable _ _ _ Hr) as [(lost & Hi & _ & Hg & Hf) _ _ _ He _ Hu Hn].
  assert (response_finished (r_tun s) = true -> h3_out s = sock_in s) as Hfin.
  { intros H. destruct (Hn H) as [H1 H2]. rewrite Hi, H2, Hf, He by (by rewrite H1, orb_true_r).
    assert (event_bytes (events (r_cells s)) = []) as ->.
    { specialize (Hu H1). clear -Hu. unfold event_bytes.
      induction (events (r_cells s)) as [|[] es IH]; simpl in *; auto. done. }
    by rewrite !app_nil_r. }
  assert (writer_finished (r_tun s) = true -> sock_out s = accepted s /\ client_finished (r_tun s) = true) as Hw.
  { intros H. destruct (Hd ltac:(by rewrite H, orb_true_r)) as (_ & ? & ?). done. }
  split_and!; [|rewrite Hi; by eexists|done|done|].
  - destruct (writer_going (r_writer s)); [rewrite Hp; by eexists|done].
  - intros [H1 H2]%andb_true_iff. split; [by apply Hfin|by apply Hw].
Qed.

(** The memory of a CONNECT tunnel is bounded in every interleaving: at most
    1 MiB of request bytes are queued, the counter being exactly the bytes in the
    channel and in the threads' hands, so its decrement never wraps; response
    bytes in the channel, the queue and the reader never exceed 256 KiB in at most
    four read buffers; and no call of the shard panics. *)
Theorem tcp_relay_bounded idx sid s :
  relay_reachable idx sid s ->
  let c := r_cells s in
  0 <= queued_client_bytes c <= MAX_BUFFERED_CLIENT_BYTES /\
  (r_shard s <> SDropped ->
    queued_client_bytes c = zlen (cmd_bytes (commands c)) + writer_holds (r_writer s) + shard_holds (r_shard s)) /\
  0 <= response_credit c /\
  response_credit c + zlen (resp_rest (pending_responses (r_tun s))) + zlen (event_bytes (events c))
    + reader_holds (r_reader s) <= MAX_BUFFERED_RESPONSE_BYTES /\
  zlen (pending_responses (r_tun s)) + zlen (List.filter is_data (events c)) + reader_slot (r_reader s)
    <= TCP_READ_BUFFERS /\
  Forall response_ok (pending_responses (r_tun s)) /\ r_ret s <> RetPanic.
Proof.
  intros Hr c. pose proof (client_inv_reachable _ _ _ Hr) as [Hq _ Hb _ _ _ _ _ _ _ Hp].
  pose proof (response_inv_reachable _ _ _ Hr) as [(lost & _ & Hm & _) Hc [Hs _] Hk _ _ _ _].
  pose proof (zlen_nonneg lost). pose proof (zlen_nonneg (recycle c)). unfold c in *.
  split_and!; try done; try lia. apply Hk.
Qed.

(** The writer task alone, against a socket that answers anything. *)
Fixpoint run_writer (idx sid : Z) (ios : list WriterIo) (s : Relay) : Relay :=
  match ios with
  | [] => s
  | io :: ios' => run_writer idx sid ios' (default s (relay_step idx sid (LWriter io) s))
  end.

Lemma writer_keeps_wake idx sid io s :
  existsb is_wake (events (r_cells s)) = true ->
  existsb is_wake (events (r_cells (default s (relay_step idx sid (LWriter io) s)))) = true.
Proof.
  intros H. simpl. destruct (writer_step idx sid io (r_writer s) (r_cells s)) as [[[pc c] out]|] eqn:Hs; simpl; [|done].
  apply writer_step_frame in Hs as (_ & _ & es & _ & ->). by rewrite existsb_app, H.
Qed.

Lemma run_keeps_wake idx sid ios s :
  existsb is_wake (events (r_cells s)) = true -> existsb is_wake (events (r_cells (run_writer idx sid ios s))) = true.
Proof. revert s. induction ios as [|io ios IH]; intros s H; simpl; [done|]. by apply IH, writer_keeps_wake. Qed.

(** How far the writer is from sending a wakeup. *)
Definition wake_distance (pc : WriterPc) : nat :=
  match pc with
  | WNotify | WError => 1 | WSwap => 2 | WLoad => 3 | WSub _ _ => 4 | WWrite _ => 5 | _ => 6
  end.

Lemma waking_progress idx sid io s :
  client_inv s -> waking s -> r_shard s <> SDropped -> io_wsend io = Sent ->
  let s' := default s (relay_step idx sid (LWriter io) s) in
  existsb is_wake (events (r_cells s')) = true \/
  (waking s' /\ (wake_distance (r_writer s') < wake_distance (r_writer s))%nat /\ r_shard s' <> SDropped).
Proof.
  intros [Hq _ _ _ Hl _ _ _ _ _ _] Hw Hsh Ho s'. specialize (Hq Hsh).
  destruct Hw as [[Hw|Hn]|(Hwt & Hw)]; [left; by apply writer_keeps_wake|..].
  - left. unfold s', relay_step, writer_step. destruct (r_writer s); try done; rewrite Ho; simpl;
      by rewrite existsb_snoc, orb_true_r.
  - destruct s as [t c w r sh ret ac so si ho pk]; unfold waking, wake_sent, s' in *; simpl in *. right.
    destruct w as [|d|n ok| | | | | | |]; simpl in *; try (destruct Hw as [?|[? _]]; done);
      destruct Hw as [?|(Hx & Hm & Hsl)]; try done.
    + rewrite Hm, Hsl in Hq. destruct (commands c) as [|[d|] cs]; simpl; [done| |simpl in Hl; subst cs; done].
      rewrite ?Hwt. split_and!; [tauto|lia|done].
    + destruct (io_write io); simpl; rewrite ?Hwt; (split_and!; [tauto|lia|done]).
    + destruct ok; simpl; rewrite ?Hwt; (split_and!; [tauto|lia|done]).
    + rewrite Hwt. simpl. rewrite ?Hwt. split_and!; [tauto|lia|done].
    + rewrite Hwt. simpl. split_and!; [tauto|lia|done].
Qed.

Lemma shard_drop_unparks now op s s' :
  shard_step now op s = Some s' -> r_shard s' = SDropped -> parked s' = false.
Proof.
  intros Hs. unfold shard_step in Hs.
  destruct (r_shard s) eqn:Hsh, op; simplify_eq; try call_returns Hs pc t' c ret Hst; simpl;
    try (unfold client_capacity, queue_client_data in Hst; repeat case_match; simplify_eq/=; done).
  - unfold finish_client in Hs. repeat case_match; by simplify_eq/=.
  - destruct (events (r_cells s)) as [|[] es]; simplify_eq/=; try done. by repeat case_match.
  - unfold front_response, advance_response in Hs. repeat case_match; by simplify_eq/=.
  - repeat case_match; by simplify_eq/=.
Qed.

Lemma parked_alive idx sid s : relay_reachable idx sid s -> parked s = true -> r_shard s <> SDropped.
Proof.
  induction 1 as [now addr|l s s' _ IH Hs]; [done|]. destruct l as [io|io|now op]; intros Hp Hd.
  1,2: simpl in Hs; apply bind_Some in Hs as ([[pc c] x] & _ & [= <-]); by apply IH.
  by rewrite (shard_drop_unparks _ _ _ _ Hs Hd) in Hp.
Qed.

Lemma waking_wakes idx sid n ios s :
  relay_reachable idx sid s -> waking s -> r_shard s <> SDropped ->
  (wake_distance (r_writer s) <= n)%nat -> (n <= length ios)%nat -> Forall (fun io => io_wsend io = Sent) ios ->
  existsb is_wake (events (r_cells (run_writer idx sid ios s))) = true.
Proof.
  revert ios s. induction n as [|n IH]; intros ios s Hr Hw Hsh Hn Hlen Hio; [destruct (r_writer s); simpl in Hn; lia|].
  destruct ios as [|io ios]; simpl in Hlen; [lia|]. inv Hio. cbn [run_writer].
  pose proof (waking_progress idx sid io s (client_inv_reachable _ _ _ Hr) Hw Hsh H1) as H.
  cbv zeta in H. destruct H as [H|(H3 & H4 & H5)]; [by apply run_keeps_wake|].
  apply IH; try done; try lia.
  destruct (relay_step idx sid (LWriter io) s) as [s'|] eqn:Hs; simpl; [|done]. by eapply reach_step.
Qed.

(** C32: a shard that found no room for request bytes is always woken.  In every
    interleaving, whenever [client_capacity] last answered zero and nothing has
    woken the shard since, a capacity or error event is in its channel after at
    most six steps of the writer task, whatever the target socket answers: the
    wakeup cannot be lost between arming the flag and rechecking the queue. *)
Theorem tcp_wakeup idx sid s ios :
  relay_live idx sid s -> parked s = true ->
  (6 <= length ios)%nat -> Forall (fun io => io_wsend io = Sent) ios ->
  existsb is_wake (events (r_cells (run_writer idx sid ios s))) = true.
Proof.
  intros Hlive Hp Hlen Hio.
  pose proof (wi_parked _ (wake_inv_live _ _ _ Hlive) Hp) as Hw.
  apply live_reachable in Hlive.
  apply (waking_wakes _ _ 6); try done; [by eapply parked_alive|]. destruct (r_writer s); simpl; lia.
Qed.

(** A reader waiting for budget or for a buffer can go on once the shard has
    delivered what it holds: the budget is a whole number of chunks. *)
Theorem tcp_reader_progress idx sid s io :
  relay_reachable idx sid s -> r_reader s <> RDone -> io_rsend io = Sent ->
  List.filter is_data (events (r_cells s)) = [] -> pending_responses (r_tun s) = [] ->
  is_Some (relay_step idx sid (LReader io) s).
Proof.
  intros Hr Hn Ho He Hp. pose proof (response_inv_reachable _ _ _ Hr) as [(lost & _ & Hm & Hg & _) _ [_ Hs] _ _ _ _ _].
  destruct (Hg Hn) as [-> Hcr]. rewrite He, Hp in *.
  assert (event_bytes (events (r_cells s)) = []) as Hb.
  { clear -He. unfold event_bytes. induction (events (r_cells s)) as [|[] es IH]; simpl in *; auto. done. }
  rewrite Hb in Hcr. unfold relay_step. destruct (r_reader s) as [|slot|slot|d| | |]; simpl in *; rewrite ?Ho; try done.
  - destruct (recycle (r_cells s)); [|by eexists]. specialize (Hs eq_refl). done.
  - rewrite bool_decide_true; [by eexists|]. unfold zlen, resp_rest in Hcr. simpl in Hcr.
    unfold MAX_BUFFERED_RESPONSE_BYTES, TCP_READ_CHUNK_SIZE in *. lia.
  - destruct (io_read io); [case_bool_decide|]; by eexists.
Qed.

(** ** Witnesses *)

Fixpoint relay_run (idx sid : Z) (ls : list Label) (s : Relay) : option Relay :=
  match ls with [] => Some s | l :: ls' => s' ← relay_step idx sid l s; relay_run idx sid ls' s' end.

Lemma run_live idx sid ls s s' :
  relay_live idx sid s -> Forall open_label ls -> relay_run idx sid ls s = Some s' -> relay_live idx sid s'.
Proof.
  revert s. induction ls as [|l ls IH]; intros s Hl Ho Hr; simpl in *; [by simplify_eq|].
  apply bind_Some in Hr as (s1 & Hs & Hr). inv Ho. eapply IH; [by eapply live_step|done|done].
Qed.

Definition start : Relay := from_stream 0 4 (SockV4 0x01020304 443).
Definition sent : WriterIo := {| io_write := None; io_shutdown := true; io_wsend := Sent |}.
Definition read_of (l : bytes) : ReaderIo := {| io_read := Some l; io_rsend := Sent |}.

(** A request and a response, both finished. *)
Definition session : list Label :=
  [LShard 1 (OpQueue [1; 2; 3]); LShard 1 (OpStep false); LShard 1 (OpStep false);
   LShard 2 OpFinish; LWriter sent; LWriter sent; LWriter sent; LWriter sent; LWriter sent; LWriter sent; LWriter sent;
   LReader (read_of []); LReader (read_of []); LReader (read_of [7; 8]); LReader (read_of []);
   LShard 3 OpRecv; LShard 3 OpRecv; LShard 3 (OpAdvance 1); LShard 3 (OpAdvance 1);
   LReader (read_of []); LReader (read_of []); LReader (read_of []); LReader (read_of []);
   LShard 4 OpRecv; LShard 4 OpRespond].

Lemma tcp_relay_faithful_witness :
  match relay_run 9 4 session start with
  | Some s => is_complete (r_tun s) = true /\ (h3_out s = [7; 8] /\ sock_out s = [1; 2; 3]) /\
              h3_out s = sock_in s /\ sock_out s = accepted s
  | None => False
  end.
Proof.
  destruct (relay_run 9 4 session start) as [s|] eqn:Hr; [|vm_compute in Hr; discriminate Hr].
  assert (is_complete (r_tun s) = true) as Hc by (vm_compute in Hr; injection Hr as <-; reflexivity).
  split; [exact Hc|]. split; [vm_compute in Hr; injection Hr as <-; split; reflexivity|].
  apply (tcp_relay_faithful 9 4 s); [|exact Hc].
  apply live_reachable. eapply run_live; [apply live_start| |exact Hr]. repeat constructor; discriminate.
Defined.

Lemma tcp_relay_bounded_witness :
  match relay_run 9 4 (take 3 session) start with
  | Some s => queued_client_bytes (r_cells s) = 3 /\ 0 <= queued_client_bytes (r_cells s) <= MAX_BUFFERED_CLIENT_BYTES
  | None => False
  end.
Proof.
  destruct (relay_run 9 4 (take 3 session) start) as [s|] eqn:Hr; [|vm_compute in Hr; discriminate Hr].
  split; [vm_compute in Hr; injection Hr as <-; reflexivity|].
  apply (tcp_relay_bounded 9 4 s).
  apply live_reachable. eapply run_live; [apply live_start| |exact Hr]. repeat constructor; discriminate.
Defined.

(** A queue filled by one block of data, and a shard that asks for room. *)
Definition block : bytes := replicate (Z.to_nat MAX_BUFFERED_CLIENT_BYTES) 0.
Lemma zlen_block : zlen block = 1048576.
Proof. unfold zlen, block. by rewrite length_replicate, Z2Nat.id. Qed.

Definition filling (b : bytes) : list Label :=
  [LShard 1 (OpQueue b); LShard 1 (OpStep false); LShard 1 (OpStep false);
   LShard 2 OpCapacity; LShard 2 (OpStep false); LShard 2 (OpStep false)].
Definition full_at (b acc : bytes) : Relay :=
  {| r_tun := set_tunnel (r_tun start) 1 [] false false false false;
     r_cells := {| commands := [CmdData b]; queued_client_bytes := 1048576; client_capacity_waiter := true;
                   response_credit := MAX_BUFFERED_RESPONSE_BYTES; recycle := replicate 4 false; events := [] |};
     r_writer := WRecv; r_reader := RRecv; r_shard := SIdle; r_ret := RetCapacity 0;
     accepted := acc; sock_out := []; sock_in := []; h3_out := []; parked := true |}.
Definition full_relay (b : bytes) : Relay := full_at b b.

Lemma filling_run b : zlen b = 1048576 -> relay_run 9 4 (filling b) start = Some (full_relay b).
Proof.
  intros Hz.
  assert (reserve_bounded false 0 0 (zlen b) MAX_BUFFERED_CLIENT_BYTES = Reserved 1048576) as Hb
    by (rewrite Hz; reflexivity).
  set (s1 := set_shard start (r_tun start) (r_cells start) (SCas b 0) RetNone [] [] false).
  set (s2 := set_shard start (r_tun start) (set_client (r_cells start) [] 1048576 false) (SSend b) RetNone [] [] false).
  assert (relay_step 9 4 (LShard 1 (OpQueue b)) start = Some s1) as H1 by reflexivity.
  assert (relay_step 9 4 (LShard 1 (OpStep false)) s1 = Some s2) as H2.
  { cbn [relay_step shard_step s1 r_shard set_shard queue_client_data queued_client_bytes r_cells start from_stream].
    rewrite Hb. reflexivity. }
  unfold filling. cbn [relay_run]. rewrite H1. cbn [mbind option_bind]. rewrite H2.
  trans (Some (full_at b (((b ++ []) ++ []) ++ []))); [reflexivity|by rewrite !app_nil_r].
Qed.

Lemma tcp_wakeup_witness :
  parked (full_relay block) = true /\
  existsb is_wake (events (r_cells (run_writer 9 4 (replicate 6 sent) (full_relay block)))) = true.
Proof.
  split; [reflexivity|]. apply tcp_wakeup; [|reflexivity|apply le_n|repeat constructor].
  eapply run_live; [apply live_start| |exact (filling_run block zlen_block)]. repeat constructor.
Defined.
