(* ===== verification/TargetUdp.v ===== *)
(** * Batched datagram I/O on target sockets (src/net/target_udp.rs)

    The system calls are parameters: [sendmmsg] is given the messages it would
    be called with and answers how many it accepted or an error number;
    [recvmmsg] fills buffers.  What a message with a UDP_SEGMENT control header
    puts on the wire is a parameter too, with the kernel's documented splitting
    as its law. *)

From stdpp Require Import list.
From S2P Require Import Prelude.

Definition TARGET_BATCH_SIZE : nat := 16.
Definition UDP_MAX_GSO_PAYLOAD : Z := 65507.
Definition UDP_MIN_GSO_SEGMENT_SIZE : Z := 512.
#[global] Arguments TARGET_BATCH_SIZE : simpl never.

(** ** Planning *)

Record SendGroup := { first : nat; segments : nat; segment_size : Z }.
Definition default_group : SendGroup := {| first := 0; segments := 0; segment_size := 0 |}.

(** The inner loop: how many payloads join the message, and their bytes. *)
Definition extend_step (payloads : list bytes) (count first : nat) (size : Z)
    (st : nat * Z) : result Empty_set ((nat * Z) + (nat * Z)) :=
  let '(segs, total) := st in
  if bool_decide (first + segs < count)%nat && bool_decide (segs < TARGET_BATCH_SIZE)%nat then
    p ← index payloads (first + segs)%nat;
    let next := zlen p in
    if bool_decide (next = 0) || bool_decide (next > size) || bool_decide (total + next > UDP_MAX_GSO_PAYLOAD)
    then Ok (inr (segs, total))
    else if bool_decide (next < size) then Ok (inr (S segs, total + next))
    else Ok (inl (S segs, total + next))
  else Ok (inr (segs, total)).

Definition extend_group (payloads : list bytes) (count first : nat) (size : Z) : result Empty_set (nat * Z) :=
  while (fun st : nat * Z => count - (first + fst st))%nat (extend_step payloads count first size) (1%nat, size).

(** The outer loop. *)
Definition plan_step (payloads : list bytes) (enable_gso : bool) (count : nat)
    (st : list SendGroup * nat * nat) : result Empty_set ((list SendGroup * nat * nat) + (list SendGroup * nat)) :=
  let '(groups, group_count, first) := st in
  if bool_decide (first < count)%nat then
    p ← index payloads first;
    let size := zlen p in
    '(segs, _) ←
      (if enable_gso && bool_decide (UDP_MIN_GSO_SEGMENT_SIZE <= size) && bool_decide (size <= U16_MAX)
       then extend_group payloads count first size else Ok (1%nat, size));
    groups' ← store_from group_count [{| first := first; segments := segs; segment_size := size |}] groups;
    Ok (inl (groups', S group_count, (first + segs)%nat))
  else Ok (inr (groups, group_count)).

Definition plan_send (payloads : list bytes) (enable_gso : bool) : result Empty_set (list SendGroup * nat) :=
  let count := (length payloads `min` TARGET_BATCH_SIZE)%nat in
  while (fun st : list SendGroup * nat * nat => count - snd st)%nat (plan_step payloads enable_gso count)
    (replicate TARGET_BATCH_SIZE default_group, 0%nat, 0%nat).

(** ** Sending *)

(** A message of the batch: its scatter/gather payloads and, for a segmented
    one, the UDP_SEGMENT size of its control header. *)
Record Message := { iov : list bytes; udp_segment : option Z }.

Section send.
Context (sendmmsg : list Message -> result Z nat).

Definition raw_send_mmsg (headers : list Message) : result Z nat :=
  n ← sendmmsg headers; Ok (n `min` length headers)%nat.

Definition send_mmsg_plain (payloads : list bytes) : result Z nat :=
  raw_send_mmsg (map (fun p => {| iov := [p]; udp_segment := None |}) (take TARGET_BATCH_SIZE payloads)).

(** The message of a planned group; the segment size is cast to [u16]. *)
Definition group_message (payloads : list bytes) (g : SendGroup) : Message :=
  {| iov := take (segments g) (drop (first g) payloads);
     udp_segment := if bool_decide (1 < segments g)%nat then Some (segment_size g mod 2 ^ 16) else None |}.

Definition send_mmsg (payloads : list bytes) (enable_gso : bool) : result Z nat :=
  let payloads := take TARGET_BATCH_SIZE payloads in
  match payloads with
  | [] => Ok 0%nat
  | p :: _ =>
      if negb enable_gso || bool_decide (zlen p < UDP_MIN_GSO_SEGMENT_SIZE) then send_mmsg_plain payloads
      else
        '(groups, group_count) ← match plan_send payloads true with Ok r => Ok r | Err e => match e with end | Panic => Panic end;
        sent ← raw_send_mmsg (map (group_message payloads) (take group_count groups));
        Ok (sum_list (map segments (take sent groups)))
  end.
End send.

(** [detect_udp_gso]: the option is set and reset; [setsockopt] is a parameter. *)
Definition detect_udp_gso (setsockopt : Z -> bool) (segment_size : Z) : bool :=
  let segment_size := Z.min segment_size U16_MAX in
  if setsockopt segment_size then setsockopt 0 else false.

(** EINVAL, EIO, EMSGSIZE, ENOPROTOOPT and EOPNOTSUPP on Linux. *)
Definition is_udp_gso_error (errno : Z) : bool :=
  bool_decide (errno ∈ [22; 5; 90; 92; 95]).

(** ** Receiving *)

Record TargetRecvBatch := {
  buffers : list bytes;
  lengths : list Z;
  truncated : list bool;
  max_datagram_size : Z;
}.

Definition recv_batch_new (max : Z) : TargetRecvBatch :=
  let max := Z.max max 1 in
  let buffer_size := Z.min (max + 1) USIZE_MAX in
  {| buffers := replicate TARGET_BATCH_SIZE (replicate (Z.to_nat buffer_size) 0);
     lengths := replicate TARGET_BATCH_SIZE 0; truncated := replicate TARGET_BATCH_SIZE false;
     max_datagram_size := max |}.

(** What [recvmmsg] leaves in one slot. *)
Record Slot := { slot_buffer : bytes; msg_len : Z; msg_trunc : bool }.

Definition set_slot (b : TargetRecvBatch) (index : nat) (s : Slot) : TargetRecvBatch :=
  {| buffers := <[index := slot_buffer s]> (buffers b);
     lengths := <[index := Z.min (msg_len s) (zlen (slot_buffer s))]> (lengths b);
     truncated := <[index := msg_trunc s]> (truncated b); max_datagram_size := max_datagram_size b |}.

Fixpoint set_slots (b : TargetRecvBatch) (index : nat) (slots : list Slot) : TargetRecvBatch :=
  match slots with [] => b | s :: slots' => set_slots (set_slot b index s) (S index) slots' end.

(** [recv_mmsg]: lengths and flags are reset, then the received slots filled. *)
Definition recv_mmsg (recvmmsg : list bytes -> result Z (list Slot)) (b : TargetRecvBatch)
    : result Z (TargetRecvBatch * nat) :=
  let b := {| buffers := buffers b; lengths := replicate TARGET_BATCH_SIZE 0;
              truncated := replicate TARGET_BATCH_SIZE false; max_datagram_size := max_datagram_size b |} in
  slots ← recvmmsg (buffers b);
  let received := take TARGET_BATCH_SIZE slots in
  Ok (set_slots b 0 received, length received).

Definition is_deliverable (b : TargetRecvBatch) (i : nat) : result Z bool :=
  len ← index (lengths b) i;
  if bool_decide (len > max_datagram_size b) then Ok false
  else t ← index (truncated b) i; Ok (negb t).

(** [datagrams]: the deliverable slots of the first [count], each cut to its
    length. *)
Fixpoint datagrams_from (b : TargetRecvBatch) (i n : nat) : result Z (list bytes) :=
  match n with
  | O => Ok []
  | S n' =>
      ok ← is_deliverable b i;
      here ← (if ok : bool then
                buf ← index (buffers b) i; len ← index (lengths b) i; d ← slice buf 0 (Z.to_nat len); Ok [d]
              else Ok []);
      rest ← datagrams_from b (S i) n';
      Ok (here ++ rest)
  end.
Definition datagrams (b : TargetRecvBatch) (count : nat) : result Z (list bytes) :=
  datagrams_from b 0 (count `min` TARGET_BATCH_SIZE).

(** ** The plan *)

(** The payloads of a group. *)
Definition group_payloads (payloads : list bytes) (g : SendGroup) : list bytes :=
  take (segments g) (drop (first g) payloads).

(** A segmented group is a run of equal payloads and one last payload that is
    not longer, nor empty, within the kernel's limits. *)
Definition group_ok (payloads : list bytes) (gso : bool) (g : SendGroup) : Prop :=
  exists full tail, group_payloads payloads g = full ++ [tail] /\ segments g = S (length full) /\
    Forall (fun p => zlen p = segment_size g) full /\
    (full = [] -> zlen tail = segment_size g) /\
    (full <> [] -> gso = true /\ 0 < zlen tail <= segment_size g /\
       UDP_MIN_GSO_SEGMENT_SIZE <= segment_size g <= U16_MAX /\
       zlen (concat (full ++ [tail])) <= UDP_MAX_GSO_PAYLOAD).

(** The groups cover the payloads from [f] to [e] without gaps. *)
Fixpoint chained (f : nat) (gs : list SendGroup) (e : nat) : Prop :=
  match gs with [] => f = e | g :: gs' => first g = f /\ (1 <= segments g)%nat /\ chained (f + segments g) gs' e end.

Lemma chained_snoc f gs e g :
  chained f gs e -> first g = e -> (1 <= segments g)%nat -> chained f (gs ++ [g]) (e + segments g).
Proof.
  revert f. induction gs as [|x gs IH]; intros f; simpl; [intros -> ->; auto|]. intros (H1 & H2 & H3) Hg Hs. auto.
Qed.

Lemma concat_equal (l : list bytes) (n : Z) :
  Forall (fun p => zlen p = n) l -> zlen (concat l) = n * zlen l.
Proof. induction 1 as [|p l Hp _ IH]; simpl; [unfold zlen; simpl; lia|]. rewrite zlen_app, zlen_cons, Hp, IH. lia. Qed.

Lemma take_S_drop {A} (l : list A) i n x :
  l !! (i + n)%nat = Some x -> take (S n) (drop i l) = take n (drop i l) ++ [x].
Proof. intros H. apply take_S_r. by rewrite lookup_drop. Qed.

(** The payloads of a message under construction all have the first one's size. *)
Definition extending (payloads : list bytes) (count first : nat) (p : bytes) (st : nat * Z) : Prop :=
  let '(segs, total) := st in
  let ps := take segs (drop first payloads) in
  (1 <= segs)%nat /\ (first + segs <= count)%nat /\ total = zlen (concat ps) /\
  Forall (fun q => zlen q = zlen p) ps /\ (segs = 1%nat -> ps = [p]) /\
  ((1 < segs)%nat -> 0 < zlen p /\ total <= UDP_MAX_GSO_PAYLOAD).
Definition extended (payloads : list bytes) (count first : nat) (p : bytes) (st : nat * Z) : Prop :=
  let '(segs, _) := st in
  (1 <= segs)%nat /\ (first + segs <= count)%nat /\
  exists full tail, take segs (drop first payloads) = full ++ [tail] /\ segs = S (length full) /\
    Forall (fun q => zlen q = zlen p) full /\ (full = [] -> tail = p) /\
    (full <> [] -> 0 < zlen tail <= zlen p /\ zlen (concat (full ++ [tail])) <= UDP_MAX_GSO_PAYLOAD).

Lemma extending_done payloads count first p st :
  (count <= length payloads)%nat -> extending payloads count first p st -> extended payloads count first p st.
Proof.
  destruct st as [segs total]. intros Hc (H1 & H2 & H3 & H4 & H5 & H6). split_and!; [done|done|].
  set (ps := take segs (drop first payloads)) in *.
  destruct (exists_last (l := ps)) as (full & tail & Hps).
  { intros Hn. apply (f_equal length) in Hn. unfold ps in Hn.
    rewrite length_take, length_drop in Hn. simpl in Hn. lia. }
  exists full, tail. rewrite Hps in H4. apply Forall_app in H4 as [Hf Ht]. rewrite Forall_singleton in Ht.
  assert (length full = segs - 1)%nat as Hl.
  { apply (f_equal length) in Hps. unfold ps in Hps. rewrite length_app, length_take, length_drop in Hps. simpl in Hps. lia. }
  split_and!; [done|lia|done| |].
  - intros ->. simpl in Hl. rewrite H5 in Hps by lia. by injection Hps as ->.
  - intros Hne%nonempty_length. destruct (H6 ltac:(lia)). rewrite <- Hps, <- H3. split; [lia|done].
Qed.

Lemma extend_group_spec payloads count first p :
  (first < count <= length payloads)%nat -> payloads !! first = Some p ->
  post (extend_group payloads count first (zlen p)) (extended payloads count first p).
Proof.
  intros Hlen Hp. unfold extend_group. apply (post_while_inv _ _ (extending payloads count first p)).
  - intros [segs total] Hi. pose proof (extending_done payloads count first p _ ltac:(lia) Hi) as Hd.
    destruct Hi as (H1 & H2 & H3 & H4 & H5 & H6). unfold extend_step.
    case_bool_decide as Hb1; [case_bool_decide as Hb2|]; simpl; [|done|done].
    destruct (lookup_lt_is_Some_2 payloads (first + segs)) as [q Hq]; [lia|].
    rewrite (index_Ok _ _ _ Hq). simpl. case_bool_decide as Hz; simpl; [done|].
    case_bool_decide as Hg; simpl; [done|]. case_bool_decide as Ht; simpl; [done|].
    pose proof (take_S_drop _ _ _ _ Hq) as Hts.
    case_bool_decide as Hlt; simpl.
    + split_and!; [lia|lia|]. exists (take segs (drop first payloads)), q. rewrite <- Hts.
      split_and!; [done|rewrite length_take, length_drop; lia|done| |].
      * intros Hn. apply (f_equal length) in Hn. rewrite length_take, length_drop in Hn. simpl in Hn. lia.
      * intros _. pose proof (zlen_nonneg q). split; [lia|]. rewrite Hts, concat_snoc, zlen_app. lia.
    + assert (zlen q = zlen p) as Hqp by lia. pose proof (zlen_nonneg q).
      split; [|lia]. rewrite Hts, concat_snoc, zlen_app.
      split_and!; [lia|lia|lia| |lia|lia]. apply Forall_app. split; [done|by apply Forall_singleton].
  - simpl. rewrite (take_S_drop payloads first 0 p) by (by rewrite Nat.add_0_r). simpl.
    split_and!; [lia|lia|by rewrite app_nil_r|by apply Forall_singleton|done|lia].
Qed.

Definition planned (payloads : list bytes) (gso : bool) (count : nat) (st : list SendGroup * nat * nat) : Prop :=
  let '(groups, gc, next) := st in
  length groups = TARGET_BATCH_SIZE /\ (gc <= next <= count)%nat /\
  chained 0 (take gc groups) next /\ Forall (group_ok payloads gso) (take gc groups).

Lemma plan_step_spec payloads gso count st :
  (count <= length payloads)%nat -> (count <= TARGET_BATCH_SIZE)%nat -> planned payloads gso count st ->
  post (plan_step payloads gso count st) (fun r => match r with
    | inl st' => planned payloads gso count st' /\ (count - snd st' < count - snd st)%nat
    | inr (groups, gc) => length groups = TARGET_BATCH_SIZE /\ (gc <= TARGET_BATCH_SIZE)%nat /\
        chained 0 (take gc groups) count /\ Forall (group_ok payloads gso) (take gc groups) end).
Proof.
  destruct st as [[groups gc] next]. intros Hc Hb (Hg & Hn & Hch & Hok). unfold plan_step.
  case_bool_decide as Hlt; simpl; [|replace count with next by lia; split_and!; [done|lia|done|done]].
  destruct (lookup_lt_is_Some_2 payloads next) as [p Hp]; [lia|]. rewrite (index_Ok _ _ _ Hp). simpl.
  apply post_bind. eapply post_mono with (P := fun '(segs, _) => (1 <= segs)%nat /\ (next + segs <= count)%nat /\
    group_ok payloads gso {| first := next; segments := segs; segment_size := zlen p |}).
  - destruct (gso && _ && _) eqn:Hcond.
    + apply andb_true_iff in Hcond as [[-> H1%bool_decide_eq_true]%andb_true_iff H2%bool_decide_eq_true].
      eapply post_mono; [apply extend_group_spec; [lia|done]|].
      intros [segs total] (Hs1 & Hs2 & full & tail & Hps & Hsl & Hf & Ht & Hne). split_and!; [done|done|].
      exists full, tail. simpl. split_and!; [done|done|done|intros H; by rewrite (Ht H)|].
      intros H. destruct (Hne H). split_and!; done || lia.
    + simpl. split_and!; [lia|lia|]. exists [], p. unfold group_payloads. simpl.
      rewrite (take_S_drop payloads next 0 p) by (by rewrite Nat.add_0_r). by split_and!.
  - intros [segs total] (Hs1 & Hs2 & Hgok). simpl.
    rewrite bool_decide_true by lia. simpl.
    set (g := {| first := next; segments := segs; segment_size := zlen p |}) in *.
    assert (take (S gc) (<[gc:=g]> groups) = take gc groups ++ [g]) as Htk.
    { rewrite (take_S_r _ _ g) by (rewrite list_lookup_insert_eq; [done|lia]). by rewrite take_insert_ge by lia. }
    split; [|lia]. unfold planned. rewrite Htk, length_insert. split_and!; [done|lia|lia| |].
    + by apply (chained_snoc 0 _ next g).
    + apply Forall_app. split; [done|by apply Forall_singleton].
Qed.

Lemma plan_send_spec payloads gso :
  exists groups gc, plan_send payloads gso = Ok (groups, gc) /\
    length groups = TARGET_BATCH_SIZE /\ (gc <= TARGET_BATCH_SIZE)%nat /\
    chained 0 (take gc groups) (length payloads `min` TARGET_BATCH_SIZE)%nat /\
    Forall (group_ok payloads gso) (take gc groups).
Proof.
  assert (post (plan_send payloads gso) (fun '(groups, gc) =>
    length groups = TARGET_BATCH_SIZE /\ (gc <= TARGET_BATCH_SIZE)%nat /\
    chained 0 (take gc groups) (length payloads `min` TARGET_BATCH_SIZE)%nat /\
    Forall (group_ok payloads gso) (take gc groups))) as H.
  { unfold plan_send. set (count := (_ `min` _)%nat).
    apply (post_while_inv _ _ (planned payloads gso count)).
    - intros st Hst. apply plan_step_spec; [unfold count; lia|unfold count; lia|done].
    - split_and!; [by rewrite length_replicate|lia|lia|done|by apply Forall_nil_2]. }
  destruct (plan_send payloads gso) as [[groups gc]|[]|]; [|done]. by exists groups, gc.
Qed.

(** ** What reaches the wire *)

(** How the kernel turns a message into datagrams: one datagram of its whole
    content, or, with UDP_SEGMENT, consecutive datagrams of the segment size. *)
Class GsoKernel (split : Z -> bytes -> list bytes) : Prop := {
  gso_split : forall n full tail, 0 < n -> Forall (fun p => zlen p = n) full -> 0 < zlen tail <= n ->
    split n (concat full ++ tail) = full ++ [tail];
}.

Section wire.
Context (split : Z -> bytes -> list bytes) `{!GsoKernel split}.

Definition wire (m : Message) : list bytes :=
  match udp_segment m with None => [concat (iov m)] | Some n => split n (concat (iov m)) end.

Lemma group_wire payloads gso g : group_ok payloads gso g -> wire (group_message payloads g) = group_payloads payloads g.
Proof.
  intros (full & tail & Hps & Hs & Hf & H0 & Hne). unfold wire, group_message. simpl. fold (group_payloads payloads g).
  rewrite Hps, Hs. case_bool_decide as Hgt.
  - destruct (Hne ltac:(destruct full; simpl in *; [lia|done])) as (_ & Ht & Hsz & _).
    rewrite Z.mod_small by (unfold U16_MAX, UDP_MIN_GSO_SEGMENT_SIZE in *; lia).
    rewrite concat_snoc. apply gso_split; [unfold UDP_MIN_GSO_SEGMENT_SIZE in *; lia|done|done].
  - destruct full; [|simpl in *; lia]. simpl. by rewrite app_nil_r.
Qed.

Lemma chained_payloads payloads gs f e :
  chained f gs e -> (e <= length payloads)%nat ->
  (f <= e)%nat /\ concat (map (group_payloads payloads) gs) = take (e - f) (drop f payloads) /\
  sum_list (map segments gs) = (e - f)%nat.
Proof.
  revert f. induction gs as [|g gs IH]; intros f; simpl.
  - intros -> He. replace (e - e)%nat with 0%nat by lia. split_and!; [lia|done|lia].
  - intros (Hg & Hs & Hc) He. destruct (IH _ Hc He) as (IH1 & IH2 & IH3). split_and!; [lia| |lia].
    rewrite IH2. unfold group_payloads. rewrite Hg, <- drop_drop, take_take_drop. f_equal. lia.
Qed.

Lemma chained_prefix gs f e n : chained f gs e -> exists e', chained f (take n gs) e' /\ (e' <= e)%nat.
Proof.
  revert f n. induction gs as [|g gs IH]; intros f n H; [exists e; by rewrite take_nil|].
  destruct H as (H1 & H2 & H3). destruct n as [|n]; simpl.
  - exists f. split; [done|]. clear -H2 H3. revert f H3. 
    assert (forall gs f, chained f gs e -> (f <= e)%nat) as Hle.
    { clear. induction gs as [|x gs IH]; intros f; simpl; [lia|]. intros (_ & ? & H). apply IH in H. lia. }
    intros f H3. apply Hle in H3. lia.
  - destruct (IH _ n H3) as (e' & He' & Hle). exists e'. auto.
Qed.

(** What a batch puts on the wire when the kernel accepts the first [n] of its
    messages. *)
Definition accepted_wire (ms : list Message) (n : nat) : list bytes := concat (map wire (take n ms)).

Lemma plain_wire payloads n :
  accepted_wire (map (fun p => {| iov := [p]; udp_segment := None |}) payloads) n = take n payloads.
Proof.
  unfold accepted_wire. revert n. induction payloads as [|p payloads IH]; intros [|n]; simpl; try done.
  unfold wire at 1. simpl. by rewrite app_nil_r, IH.
Qed.

Definition message_ok (m : Message) : Prop :=
  match udp_segment m with
  | Some n => UDP_MIN_GSO_SEGMENT_SIZE <= n <= U16_MAX /\ zlen (concat (iov m)) <= UDP_MAX_GSO_PAYLOAD
  | None => True
  end.

Lemma group_message_ok payloads gso g : group_ok payloads gso g -> message_ok (group_message payloads g).
Proof.
  intros (full & tail & Hps & Hs & Hf & H0 & Hne). unfold message_ok, group_message. simpl.
  fold (group_payloads payloads g). case_bool_decide as Hgt; [|done]. rewrite Hps.
  destruct (Hne ltac:(destruct full; simpl in *; [lia|done])) as (_ & Ht & Hsz & Htot).
  by rewrite Z.mod_small by (unfold U16_MAX, UDP_MIN_GSO_SEGMENT_SIZE in *; lia).
Qed.

Lemma take_min {A} n (l : list A) : take (n `min` length l) l = take n l.
Proof.
  destruct (decide (n <= length l)%nat); [by rewrite Nat.min_l|].
  rewrite Nat.min_r, !take_ge by lia. done.
Qed.

(** What a send of [payloads] that builds the messages [ms] promises. *)
Definition sent_exactly (sendmmsg : list Message -> result Z nat) (payloads : list bytes) (ms : list Message)
    (r : result Z nat) : Prop :=
  (length ms <= TARGET_BATCH_SIZE)%nat /\ Forall message_ok ms /\
  match r with
  | Ok count => exists n, sendmmsg ms = Ok n /\ accepted_wire ms n = take count payloads /\ (count <= length payloads)%nat
  | Err errno => sendmmsg ms = Err errno
  | Panic => False
  end.

Lemma send_plain_exact sendmmsg payloads :
  (forall ms, sendmmsg ms <> Panic) -> (length payloads <= TARGET_BATCH_SIZE)%nat ->
  sent_exactly sendmmsg payloads (map (fun p => {| iov := [p]; udp_segment := None |}) payloads)
    (send_mmsg_plain sendmmsg payloads).
Proof.
  intros Hnp Hl. unfold send_mmsg_plain, raw_send_mmsg. rewrite take_ge by done. set (ms := map _ _).
  assert (length ms = length payloads) as Hml by (unfold ms; by rewrite length_map).
  split_and!; [lia|by apply Forall_map, Forall_true|].
  destruct (sendmmsg ms) as [n|e|] eqn:Hs; simpl; [|done|by apply Hnp in Hs].
  exists n. rewrite Hml, take_min. split_and!; [done|apply plain_wire|lia].
Qed.

Lemma send_gso_exact sendmmsg payloads :
  (forall ms, sendmmsg ms <> Panic) -> (length payloads <= TARGET_BATCH_SIZE)%nat ->
  exists ms, sent_exactly sendmmsg payloads ms (
    '(groups, group_count) ← match plan_send payloads true with Ok r => Ok r | Err e => match e with end | Panic => Panic end;
    sent ← raw_send_mmsg sendmmsg (map (group_message payloads) (take group_count groups));
    Ok (sum_list (map segments (take sent groups)))).
Proof.
  intros Hnp Hl. destruct (plan_send_spec payloads true) as (groups & gc & -> & Hg & Hgc & Hch & Hok). simpl.
  rewrite Nat.min_l in Hch by done. set (gs := take gc groups) in *. exists (map (group_message payloads) gs).
  set (ms := map _ gs). unfold raw_send_mmsg.
  assert (length ms = gc) as Hml by (unfold ms, gs; rewrite length_map, length_take; lia).
  split_and!; [lia|apply Forall_map; eapply Forall_impl; [exact Hok|intros g; apply group_message_ok]|].
  destruct (sendmmsg ms) as [n|e|] eqn:Hs; simpl; [|done|by apply Hnp in Hs].
  exists n. split; [done|].
  replace (take (n `min` length ms) groups) with (take n gs)
    by (unfold gs; rewrite take_take, Hml; f_equal; lia).
  destruct (chained_prefix _ _ _ n Hch) as (e' & He' & Hle).
  destruct (chained_payloads payloads _ _ _ He' ltac:(lia)) as (_ & Hcat & Hsum).
  rewrite Nat.sub_0_r, drop_0 in *. rewrite Hsum. split; [|lia]. rewrite <- Hcat.
  unfold accepted_wire, ms. rewrite firstn_map, map_map. f_equal. apply map_ext_in. intros g Hin.
  apply (group_wire payloads true). rewrite Forall_forall in Hok. apply Hok.
  apply list_elem_of_In in Hin. by eapply subseteq_take.
Qed.

Lemma send_batch_spec (sendmmsg : list Message -> result Z nat) payloads gso :
  (forall ms, sendmmsg ms <> Panic) ->
  exists ms, (length ms <= TARGET_BATCH_SIZE)%nat /\
    Forall message_ok ms /\
    match send_mmsg sendmmsg payloads gso with
    | Ok count => (payloads = [] /\ count = 0%nat) \/
        exists n, sendmmsg ms = Ok n /\ accepted_wire ms n = take count payloads /\ (count <= length payloads)%nat
    | Err errno => sendmmsg ms = Err errno
    | Panic => False
    end.
Proof.
  intros Hnp. unfold send_mmsg. set (ps := take TARGET_BATCH_SIZE payloads).
  assert (length ps <= TARGET_BATCH_SIZE)%nat as Hl by (unfold ps; rewrite length_take; lia).
  assert (forall ms r, sent_exactly sendmmsg ps ms r -> match r with
    | Ok count => exists n, sendmmsg ms = Ok n /\ accepted_wire ms n = take count payloads /\ (count <= length payloads)%nat
    | Err errno => sendmmsg ms = Err errno
    | Panic => False end) as Hres.
  { intros ms r (_ & _ & Hr). destruct r as [count| |]; [|done|done]. destruct Hr as (n & H1 & H2 & H3).
    exists n. unfold ps in *. rewrite length_take in H3. rewrite H2, take_take. split_and!; [done| |lia]. f_equal. lia. }
  destruct ps as [|p ps'] eqn:Hps; [exists []; simpl; split_and!; [lia|done|]; left; by destruct payloads|].
  rewrite <- Hps in *. destruct (negb gso || _).
  - pose proof (send_plain_exact sendmmsg ps Hnp Hl) as He. eexists. split_and!; [apply He|apply He|].
    specialize (Hres _ _ He). destruct (send_mmsg_plain sendmmsg ps); [right|..]; done.
  - destruct (send_gso_exact sendmmsg ps Hnp Hl) as [ms He]. exists ms. split_and!; [apply He|apply He|].
    specialize (Hres _ _ He). destruct (_ ≫= _); [right|..]; done.
Qed.

(** C30: batching a tunnel's datagrams for one system call changes nothing on the
    wire.  The messages handed to the kernel are within its limits (at most
    sixteen, a segmented one at most 65507 bytes of equal segments with one
    shorter tail), and if the kernel accepts the first [n] of them, then the
    datagrams sent are exactly the first payloads in order, each as its own
    datagram, as many as the returned count; an error sends nothing.  Planning
    never panics. *)
Theorem send_batch_exact (sendmmsg : list Message -> result Z nat) payloads gso :
  (forall ms, sendmmsg ms <> Panic) ->
  exists ms, (length ms <= TARGET_BATCH_SIZE)%nat /\
    Forall message_ok ms /\
    match send_mmsg sendmmsg payloads gso with
    | Ok count => (payloads = [] /\ count = 0%nat) \/
        exists n, sendmmsg ms = Ok n /\ accepted_wire ms n = take count payloads /\ (count <= length payloads)%nat
    | Err errno => sendmmsg ms = Err errno
    | Panic => False
    end.
Proof. apply send_batch_spec. Qed.
End wire.

(** ** Receiving *)

(** A slot after the kernel stored datagram [d] in a buffer of [n] bytes: the
    bytes that fit, over whatever the buffer held, their number, and MSG_TRUNC
    when some did not. *)
Definition stored (n : nat) (d : bytes) (s : Slot) : Prop :=
  length (slot_buffer s) = n /\ slot_buffer s = take n d ++ drop (length d) (slot_buffer s) /\
  msg_len s = zlen (take n d) /\ msg_trunc s = bool_decide (n < length d)%nat.

Definition batch_ok (b : TargetRecvBatch) : Prop :=
  0 <= max_datagram_size b /\ length (buffers b) = TARGET_BATCH_SIZE /\
  Forall (fun buf => zlen buf = max_datagram_size b + 1) (buffers b).

Lemma recv_batch_new_ok max : max < USIZE_MAX -> batch_ok (recv_batch_new max).
Proof.
  intros Hm. unfold recv_batch_new, batch_ok. cbn [max_datagram_size buffers].
  split_and!; [lia|apply length_replicate|]. apply Forall_replicate. unfold zlen, USIZE_MAX, U64_MAX in *. rewrite length_replicate. lia.
Qed.

(** The slots from [i] on hold the received datagrams. *)
Definition holds (b : TargetRecvBatch) (i : nat) (s : Slot) : Prop :=
  buffers b !! i = Some (slot_buffer s) /\ lengths b !! i = Some (Z.min (msg_len s) (zlen (slot_buffer s))) /\
  truncated b !! i = Some (msg_trunc s).

Lemma set_slots_below b i slots j :
  (j < i)%nat ->
  buffers (set_slots b i slots) !! j = buffers b !! j /\
  lengths (set_slots b i slots) !! j = lengths b !! j /\
  truncated (set_slots b i slots) !! j = truncated b !! j.
Proof.
  revert b i. induction slots as [|s slots IH]; intros b i Hj; simpl; [done|].
  destruct (IH (set_slot b i s) (S i) ltac:(lia)) as (H1 & H2 & H3). rewrite H1, H2, H3. simpl.
  by rewrite !list_lookup_insert_ne by lia.
Qed.

Lemma set_slots_max b i slots : max_datagram_size (set_slots b i slots) = max_datagram_size b.
Proof. revert b i. induction slots as [|s slots IH]; intros b i; simpl; [done|]. by rewrite IH. Qed.

Lemma set_slots_holds b i slots :
  (i + length slots <= length (buffers b))%nat -> (i + length slots <= length (lengths b))%nat ->
  (i + length slots <= length (truncated b))%nat ->
  forall k s, slots !! k = Some s -> holds (set_slots b i slots) (i + k) s.
Proof.
  revert b i. induction slots as [|s0 slots IH]; intros b i H1 H2 H3 k s Hk; simpl in *; [done|].
  destruct k as [|k]; simplify_eq/=.
  - rewrite Nat.add_0_r. unfold holds.
    destruct (set_slots_below (set_slot b i s) (S i) slots i ltac:(lia)) as (E1 & E2 & E3). rewrite E1, E2, E3.
    simpl. rewrite !list_lookup_insert_eq by lia. done.
  - replace (i + S k)%nat with (S i + k)%nat by lia. apply IH; simpl; rewrite ?length_insert; try lia. done.
Qed.

Lemma datagrams_from_spec b i slots arrived n :
  max_datagram_size b = Z.of_nat n - 1 -> Forall2 (stored n) arrived slots ->
  (forall k s, slots !! k = Some s -> holds b (i + k) s) ->
  datagrams_from b i (length slots) = Ok (List.filter (fun d => bool_decide (zlen d <= max_datagram_size b)) arrived).
Proof.
  intros Hm Hst. revert i. induction Hst as [|d s arrived slots Hds _ IH]; intros i Hh; simpl; [done|].
  destruct (Hh 0%nat s eq_refl) as (H1 & H2 & H3). rewrite Nat.add_0_r in *.
  rewrite (IH (S i)) by (intros k s' Hk; replace (S i + k)%nat with (i + S k)%nat by lia; by apply Hh).
  destruct Hds as (L & C & ML & T). unfold is_deliverable. rewrite (index_Ok _ _ _ H2). simpl.
  assert (Z.min (msg_len s) (zlen (slot_buffer s)) = Z.min (zlen d) (Z.of_nat n)) as Hlen
    by (rewrite ML; unfold zlen; rewrite length_take, L; lia).
  rewrite Hlen, Hm. destruct (decide (zlen d <= Z.of_nat n - 1)) as [Hs|Hbig].
  - rewrite (bool_decide_true (zlen d <= _)), (bool_decide_false (_ > _)) by lia.
    rewrite (index_Ok _ _ _ H3). simpl. rewrite T, bool_decide_false by (unfold zlen in *; lia). simpl.
    rewrite (index_Ok _ _ _ H1). simpl. rewrite slice_Ok by (unfold zlen in *; lia). simpl. f_equal. f_equal.
    rewrite drop_0, C, Nat.sub_0_r, (take_ge d) by (unfold zlen in *; lia).
    rewrite take_app_le, take_ge by (unfold zlen in *; lia). done.
  - by rewrite (bool_decide_false (zlen d <= _)), (bool_decide_true (_ > _)) by lia.
Qed.

Lemma set_slots_buffers (P : bytes -> Prop) b i slots :
  Forall P (buffers b) -> Forall (fun s => P (slot_buffer s)) slots ->
  Forall P (buffers (set_slots b i slots)) /\ length (buffers (set_slots b i slots)) = length (buffers b).
Proof.
  intros Hb Hs. revert b i Hb. induction Hs as [|s slots Hs _ IH]; intros b i Hb; simpl; [done|].
  destruct (IH (set_slot b i s) (S i)) as [H1 H2]; [by apply Forall_insert|].
  split; [done|]. rewrite H2. simpl. apply length_insert.
Qed.

(** Of the datagrams a batched read returns, exactly those that fit the
    configured datagram size are delivered to the client, whole and in order:
    the sentinel byte and the kernel's truncation flag drop the others, bytes a
    buffer held before never leak, and reading never indexes out of range. *)
Theorem recv_batch_exact (recvmmsg : list bytes -> result Z (list Slot)) b slots arrived :
  batch_ok b -> recvmmsg (buffers b) = Ok slots -> (length slots <= TARGET_BATCH_SIZE)%nat ->
  Forall2 (stored (Z.to_nat (max_datagram_size b + 1))) arrived slots ->
  exists b' count, recv_mmsg recvmmsg b = Ok (b', count) /\ batch_ok b' /\ count = length arrived /\
    datagrams b' count = Ok (List.filter (fun d => bool_decide (zlen d <= max_datagram_size b)) arrived).
Proof.
  intros (Hm & Hl & Hb) Hr Hn Hst. unfold recv_mmsg. cbn [buffers]. rewrite Hr. cbn [mbind result_bind]. rewrite take_ge by done.
  eexists _, _. split; [done|].
  set (b0 := {| buffers := buffers b; lengths := _; truncated := _; max_datagram_size := _ |}).
  assert (forall k s, slots !! k = Some s -> holds (set_slots b0 0 slots) (0 + k) s) as Hh.
  { apply set_slots_holds; unfold b0; cbn [buffers lengths truncated]; rewrite ?length_replicate, ?Hl; lia. }
  split_and!.
  - destruct (set_slots_buffers (fun buf => zlen buf = max_datagram_size b + 1) b0 0 slots Hb) as [H1 H2].
    { eapply Forall2_Forall_r; [exact Hst|]. apply Forall_true. intros d s (L & _). unfold zlen. rewrite L. lia. }
    unfold batch_ok. rewrite set_slots_max, H2. by split_and!.
  - symmetry. by eapply Forall2_length.
  - unfold datagrams. rewrite Nat.min_l by done.
    rewrite (datagrams_from_spec _ _ _ arrived (Z.to_nat (max_datagram_size b + 1))); [|rewrite set_slots_max; simpl; lia|done|done].
    by rewrite set_slots_max.
Qed.

(** ** Witnesses *)

(** A kernel that cuts a message into segments. *)
Definition sample_split (n : Z) (l : bytes) : list bytes := chunks (Z.to_nat n) l.

#[global] Instance sample_gso : GsoKernel sample_split.
Proof.
  split. intros n full tail Hn Hf Ht. unfold sample_split, zlen in *. apply chunks_concat; [lia| |lia].
  eapply Forall_impl; [exact Hf|]. simpl. intros; lia.
Qed.

(** Three payloads of 600, 600 and 10 bytes leave as one segmented message. *)
Definition three_payloads : list bytes := [replicate 600 1; replicate 600 2; replicate 10 3].

Lemma send_batch_exact_witness :
  send_mmsg (fun ms => Ok (length ms)) three_payloads true = Ok 3%nat /\
  exists ms, (length ms <= TARGET_BATCH_SIZE)%nat /\ Forall message_ok ms /\
    ((three_payloads = [] /\ 3%nat = 0%nat) \/
     exists n, Ok (E:=Z) (length ms) = Ok n /\ accepted_wire sample_split ms n = take 3 three_payloads /\ (3 <= 3)%nat).
Proof.
  assert (send_mmsg (fun ms => Ok (length ms)) three_payloads true = Ok 3%nat) as Hs by (vm_compute; reflexivity).
  split; [exact Hs|].
  destruct (send_batch_exact sample_split (fun ms => Ok (length ms)) three_payloads true ltac:(discriminate))
    as (ms & H1 & H2 & H3).
  rewrite Hs in H3. exists ms. split; [exact H1|]. split; [exact H2|exact H3].
Defined.

(** A batch of ten-byte datagrams that received one datagram and one that is
    too long. *)
Definition small_batch : TargetRecvBatch := recv_batch_new 10.
Definition slot_of (d : bytes) : Slot :=
  {| slot_buffer := take 11 d ++ replicate (11 - length d) 0; msg_len := zlen (take 11 d);
     msg_trunc := bool_decide (11 < length d)%nat |}.

Lemma recv_batch_exact_witness :
  exists b' count,
    recv_mmsg (fun _ => Ok [slot_of [1; 2; 3]; slot_of (replicate 12 9)]) small_batch = Ok (b', count) /\
    batch_ok b' /\ count = 2%nat /\ datagrams b' count = Ok [[1; 2; 3]].
Proof.
  apply (recv_batch_exact (fun _ => Ok [slot_of [1; 2; 3]; slot_of (replicate 12 9)]) small_batch
    [slot_of [1; 2; 3]; slot_of (replicate 12 9)] [[1; 2; 3]; replicate 12 9]).
  - apply recv_batch_new_ok. reflexivity.
  - reflexivity.
  - vm_compute. repeat constructor.
  - constructor; [|constructor; [|constructor]]; unfold stored; vm_compute; repeat split.
Defined.
