(* ===== verification/UdpTunnel.v ===== *)
(** * CONNECT-UDP tunnels (src/tunnel/udp.rs)

    Early datagrams are kept in per-stream queues that charge a byte budget
    their connection's queues share; the budgets are a store of counters and a
    queue holds the index of its own, as the [Arc<AtomicUsize>] handles do.
    Sockets are opened by a parameter and written by the system call parameter
    of [TargetUdp]. *)

From stdpp Require Import list.
From S2P Require Import Prelude Net Policy Datagram TargetUdp.

Definition MAX_EARLY_DATAGRAMS_PER_TUNNEL : nat := 8.
Definition MAX_EARLY_DATAGRAM_BYTES_PER_TUNNEL : Z := 64 * 1024.
Definition MAX_EARLY_DATAGRAM_BYTES_PER_CONNECTION : Z := 64 * 1024.
#[global] Arguments MAX_EARLY_DATAGRAM_BYTES_PER_TUNNEL : simpl never.
#[global] Arguments MAX_EARLY_DATAGRAM_BYTES_PER_CONNECTION : simpl never.

(** ** The shared budget *)

(** The counters of all budgets; a handle is an index. *)
Abbreviation Budgets := (list Z).
Abbreviation EarlyUdpBudget := nat.

Definition counter (bs : Budgets) (id : EarlyUdpBudget) : Z := default 0 (bs !! id).

Definition try_reserve (bs : Budgets) (id : EarlyUdpBudget) (n : Z) : bool * Budgets :=
  let next := counter bs id + n in
  if bool_decide (next > USIZE_MAX) then (false, bs)
  else if bool_decide (next <= MAX_EARLY_DATAGRAM_BYTES_PER_CONNECTION) then (true, <[id := next]> bs)
  else (false, bs).

(** [fetch_sub] wraps around. *)
Definition release (bs : Budgets) (id : EarlyUdpBudget) (n : Z) : Budgets :=
  if bool_decide (n = 0) then bs else <[id := (counter bs id - n) mod 2 ^ 64]> bs.

(** ** Early datagrams *)

Record EarlyUdpDatagrams := { payloads : list bytes; early_len : Z; budget : EarlyUdpBudget }.

Definition early_new (id : EarlyUdpBudget) : EarlyUdpDatagrams :=
  {| payloads := []; early_len := 0; budget := id |}.

(** [EarlyUdpDatagrams::default()] has a budget of its own. *)
Definition early_default (bs : Budgets) : EarlyUdpDatagrams * Budgets := (early_new (length bs), bs ++ [0]).

Definition push (bs : Budgets) (q : EarlyUdpDatagrams) (payload : bytes) : bool * EarlyUdpDatagrams * Budgets :=
  if bool_decide (MAX_EARLY_DATAGRAMS_PER_TUNNEL <= length (payloads q))%nat then (false, q, bs)
  else if bool_decide (Z.min (early_len q + zlen payload) USIZE_MAX > MAX_EARLY_DATAGRAM_BYTES_PER_TUNNEL)
  then (false, q, bs)
  else
    let '(ok, bs') := try_reserve bs (budget q) (zlen payload) in
    if ok : bool then
      (true, {| payloads := payloads q ++ [payload]; early_len := early_len q + zlen payload; budget := budget q |}, bs')
    else (false, q, bs').

Definition release_budget (bs : Budgets) (q : EarlyUdpDatagrams) : EarlyUdpDatagrams * Budgets :=
  ({| payloads := payloads q; early_len := 0; budget := budget q |}, release bs (budget q) (early_len q)).

(** [into_payloads] consumes the queue; dropping what is left of it releases
    its zero bytes again. *)
Definition into_payloads (bs : Budgets) (q : EarlyUdpDatagrams) : list bytes * Budgets :=
  let '(q', bs') := release_budget bs q in
  (payloads q', snd (release_budget bs' {| payloads := []; early_len := early_len q'; budget := budget q' |})).

(** [Drop]. *)
Definition early_drop (bs : Budgets) (q : EarlyUdpDatagrams) : Budgets := snd (release_budget bs q).

(** ** Tunnels whose target is being set up *)

Section pending.
Context {Prepared Task : Type}.

Record PendingUdpTunnel := {
  header : DatagramHeader;
  started_at : Z;
  setup_task : option Task;
  early_datagrams : EarlyUdpDatagrams;
  prepared : option Prepared;
}.

Definition pending_new (now : Z) (h : DatagramHeader) (id : EarlyUdpBudget) : PendingUdpTunnel :=
  {| header := h; started_at := now; setup_task := None; early_datagrams := early_new id; prepared := None |}.
Definition with_early_datagrams (now : Z) (h : DatagramHeader) (q : EarlyUdpDatagrams) : PendingUdpTunnel :=
  {| header := h; started_at := now; setup_task := None; early_datagrams := q; prepared := None |}.
Definition set_early (p : PendingUdpTunnel) (q : EarlyUdpDatagrams) : PendingUdpTunnel :=
  {| header := header p; started_at := started_at p; setup_task := setup_task p; early_datagrams := q;
     prepared := prepared p |}.
Definition start_setup (task : Task) (p : PendingUdpTunnel) : PendingUdpTunnel :=
  {| header := header p; started_at := started_at p; setup_task := Some task;
     early_datagrams := early_datagrams p; prepared := prepared p |}.

Definition buffer_early_datagram (bs : Budgets) (p : PendingUdpTunnel) (payload : bytes)
    : bool * PendingUdpTunnel * Budgets :=
  let '(ok, q, bs') := push bs (early_datagrams p) payload in (ok, set_early p q, bs').

(** [std::mem::take]: the queue moves out and a default one stays. *)
Definition take_early_datagrams (bs : Budgets) (p : PendingUdpTunnel)
    : EarlyUdpDatagrams * PendingUdpTunnel * Budgets :=
  let '(q, bs') := early_default bs in (early_datagrams p, set_early p q, bs').

Definition pending_udp_is_idle (now timeout : Z) (p : PendingUdpTunnel) : bool :=
  bool_decide (elapsed now (started_at p) > timeout).
Definition pending_udp_drop (bs : Budgets) (p : PendingUdpTunnel) : option Task * Budgets :=
  (setup_task p, early_drop bs (early_datagrams p)).
End pending.
Arguments PendingUdpTunnel : clear implicits.

(** ** Connecting *)

Section connect.
Context {Socket Error : Type} (open_connected_udp : SocketAddr -> Socket + Error).

(** The loop over the resolved addresses. *)
Fixpoint open_first (addresses : list SocketAddr) (last_error : option Error) : result Z (Socket * SocketAddr) :=
  match addresses with
  | [] => match last_error with Some _ => Err 502 | None => Panic end
  | a :: rest =>
      match open_connected_udp a with
      | inl s => Ok (s, a)
      | inr e => open_first rest (Some e)
      end
  end.

Definition connect_udp_target {N4 N6 : Type} `{!NetOps N4, !NetOps N6} (host : bytes) (port : Z)
    (policy : TargetPolicy N4 N6) (resolver : bytes -> Z -> Lookup) : result Z (Socket * SocketAddr) :=
  resolved ← resolve_allowed_with host port policy resolver;
  open_first resolved None.
End connect.

(** The local address a target socket is bound to. *)
Definition udp_bind_addr (target : SocketAddr) : SocketAddr :=
  if is_ipv4 (sock_ip target) then SockV4 0 0 else SockV6 0 0 0 0.

(** ** Established tunnels *)

Record UdpTunnel := {
  stream_id : Z;
  target_addr : SocketAddr;
  last_activity : Z;
  send_stage : list bytes;
  staged : nat;
  udp_gso : bool;
}.

Definition from_socket (now sid : Z) (target : SocketAddr) (gso : bool) : UdpTunnel :=
  {| stream_id := sid; target_addr := target; last_activity := now; send_stage := []; staged := 0; udp_gso := gso |}.

Definition set_stage (t : UdpTunnel) (now : Z) (stage : list bytes) (n : nat) (gso : bool) : UdpTunnel :=
  {| stream_id := stream_id t; target_addr := target_addr t; last_activity := now; send_stage := stage;
     staged := n; udp_gso := gso |}.

(** The staged buffers are reused: a slot is grown once, then cleared and
    refilled. *)
Definition stage_to_target (payload : bytes) (t : UdpTunnel) : result Z (bool * UdpTunnel) :=
  let stage := if bool_decide (staged t = length (send_stage t)) then send_stage t ++ [[]] else send_stage t in
  stage' ← store_from (staged t) [payload] stage;
  let n := S (staged t) in
  Ok (bool_decide (TARGET_BATCH_SIZE <= n)%nat, set_stage t (last_activity t) stage' n (udp_gso t)).

Definition has_staged (t : UdpTunnel) : bool := bool_decide (0 < staged t)%nat.

(** [flush_to_target] on Linux; [send] and [resend] are the system calls it
    makes.  The result is the tunnel and what the call returned. *)
Definition flush_to_target (now : Z) (send resend : list Message -> result Z nat) (t : UdpTunnel)
    : UdpTunnel * result Z unit :=
  if bool_decide (staged t = 0%nat) then (t, Ok tt)
  else
    let n := staged t in
    let t1 := set_stage t now (send_stage t) 0 (udp_gso t) in
    match slice (send_stage t) 0 n with
    | Ok batch =>
        match send_mmsg send batch (udp_gso t) with
        | Ok _ => (t1, Ok tt)
        | Err errno =>
            if udp_gso t && is_udp_gso_error errno then
              (set_stage t1 now (send_stage t) 0 false,
               match send_mmsg resend batch false with Ok _ => Ok tt | Err e => Err e | Panic => Panic end)
            else (t1, Err errno)
        | Panic => (t1, Panic)
        end
    | Err e => (t1, Err e)
    | Panic => (t1, Panic)
    end.

Definition udp_is_idle (now timeout : Z) (t : UdpTunnel) : bool :=
  bool_decide (elapsed now (last_activity t) > timeout).
Definition quarter_stream_id (t : UdpTunnel) : Z := stream_id t / 4.

(** ** The budget is what the queues hold *)

(** The queues of a process and the budgets they charge.  A connection makes a
    budget and queues on it; a queue is filled, moved out of its pending tunnel,
    drained or dropped. *)
Record Early := { e_budgets : Budgets; e_queues : list EarlyUdpDatagrams }.
Inductive EarlyOp :=
| ENewBudget | ENewQueue (id : EarlyUdpBudget) | EPush (i : nat) (payload : bytes)
| ETake (i : nat) | EDrain (i : nat) | EDrop (i : nat).

Definition early_step (op : EarlyOp) (e : Early) : option Early :=
  let '{| e_budgets := bs; e_queues := qs |} := e in
  match op with
  | ENewBudget => Some {| e_budgets := bs ++ [0]; e_queues := qs |}
  | ENewQueue id =>
      if bool_decide (id < length bs)%nat
      then Some {| e_budgets := bs; e_queues := qs ++ [early_new id] |} else None
  | EPush i payload =>
      q ← qs !! i;
      let '(_, q', bs') := push bs q payload in Some {| e_budgets := bs'; e_queues := <[i := q']> qs |}
  | ETake i =>
      q ← qs !! i;
      let '(d, bs') := early_default bs in Some {| e_budgets := bs'; e_queues := qs ++ [d] |}
  | EDrain i => q ← qs !! i; Some {| e_budgets := snd (into_payloads bs q); e_queues := delete i qs |}
  | EDrop i => q ← qs !! i; Some {| e_budgets := early_drop bs q; e_queues := delete i qs |}
  end.

Inductive early_reachable : Early -> Prop :=
| early_start : early_reachable {| e_budgets := []; e_queues := [] |}
| early_next op e e' : early_reachable e -> early_step op e = Some e' -> early_reachable e'.

(** The payload bytes that queues hold against a budget. *)
Definition charge (id : nat) (q : EarlyUdpDatagrams) : Z :=
  if bool_decide (budget q = id) then zlen (concat (payloads q)) else 0.
Fixpoint charged (id : nat) (qs : list EarlyUdpDatagrams) : Z :=
  match qs with [] => 0 | q :: qs' => charge id q + charged id qs' end.

Definition queue_ok (n : nat) (q : EarlyUdpDatagrams) : Prop :=
  (budget q < n)%nat /\ (length (payloads q) <= MAX_EARLY_DATAGRAMS_PER_TUNNEL)%nat /\
  early_len q = zlen (concat (payloads q)) /\ early_len q <= MAX_EARLY_DATAGRAM_BYTES_PER_TUNNEL.

Definition early_inv (e : Early) : Prop :=
  Forall (queue_ok (length (e_budgets e))) (e_queues e) /\
  forall id, (id < length (e_budgets e))%nat ->
    counter (e_budgets e) id = charged id (e_queues e) /\
    counter (e_budgets e) id <= MAX_EARLY_DATAGRAM_BYTES_PER_CONNECTION.

Lemma charged_app id qs rs : charged id (qs ++ rs) = charged id qs + charged id rs.
Proof. induction qs as [|q qs IH]; simpl; lia. Qed.

Lemma charged_lookup id qs i q :
  qs !! i = Some q -> charged id qs = charge id q + charged id (delete i qs).
Proof.
  revert i. induction qs as [|x qs IH]; intros [|i] H; simplify_eq/=; [lia|]. rewrite (IH i H). lia.
Qed.
Lemma charged_insert id qs i q q' :
  qs !! i = Some q -> charged id (<[i := q']> qs) = charged id qs - charge id q + charge id q'.
Proof.
  revert i. induction qs as [|x qs IH]; intros [|i] H; simplify_eq/=; [lia|]. rewrite (IH i H). lia.
Qed.

Lemma charge_nonneg id q : 0 <= charge id q.
Proof. unfold charge. pose proof (zlen_nonneg (concat (payloads q))). case_bool_decide; lia. Qed.
Lemma charged_nonneg id qs : 0 <= charged id qs.
Proof. induction qs as [|q qs IH]; simpl; [lia|]. pose proof (charge_nonneg id q). lia. Qed.

Lemma counter_insert bs id id' v :
  (id < length bs)%nat -> counter (<[id := v]> bs) id' = if decide (id' = id) then v else counter bs id'.
Proof.
  intros H. unfold counter. destruct (decide (id' = id)) as [->|Hne]; [by rewrite list_lookup_insert_eq|].
  by rewrite list_lookup_insert_ne by done.
Qed.
Lemma counter_app bs id : (id < length bs)%nat -> counter (bs ++ [0]) id = counter bs id.
Proof. intros H. unfold counter. by rewrite lookup_app_l. Qed.

Lemma queue_ok_mono n m q : (n <= m)%nat -> queue_ok n q -> queue_ok m q.
Proof. intros Hn (? & ?). split; [lia|done]. Qed.

Lemma early_new_ok n id : (id < n)%nat -> queue_ok n (early_new id).
Proof. intros H. split_and!; simpl; done || lia. Qed.

Lemma new_budget_inv bs qs :
  early_inv {| e_budgets := bs; e_queues := qs |} -> early_inv {| e_budgets := bs ++ [0]; e_queues := qs |}.
Proof.
  intros [Hq Hb]. split; simpl in *.
  - eapply Forall_impl; [exact Hq|]. intros q. apply queue_ok_mono. rewrite length_app. lia.
  - intros id Hid. rewrite length_app in Hid. simpl in Hid.
    destruct (decide (id < length bs)%nat) as [Hlt|Hge]; [rewrite counter_app by done; by apply Hb|].
    replace id with (length bs) by lia. unfold counter. rewrite lookup_app_r, Nat.sub_diag by lia. simpl.
    split; [|done]. clear Hb. induction Hq as [|q qs [Hlt _] _ IH]; simpl; [done|].
    unfold charge. rewrite bool_decide_false by lia. lia.
Qed.

Lemma new_queue_inv bs qs id :
  early_inv {| e_budgets := bs; e_queues := qs |} -> (id < length bs)%nat ->
  early_inv {| e_budgets := bs; e_queues := qs ++ [early_new id] |}.
Proof.
  intros [Hq Hb] Hid. split; simpl in *.
  - apply Forall_app. split; [done|]. by apply Forall_singleton, early_new_ok.
  - intros i Hi. rewrite charged_app. simpl. unfold charge. simpl.
    destruct (Hb i Hi). assert (zlen (@nil Z) = 0) by done. case_bool_decide; lia.
Qed.

Lemma push_inv bs qs i q payload :
  early_inv {| e_budgets := bs; e_queues := qs |} -> qs !! i = Some q ->
  let '(_, q', bs') := push bs q payload in early_inv {| e_budgets := bs'; e_queues := <[i := q']> qs |}.
Proof.
  intros Hi Hq. destruct (push bs q payload) as [[ok q'] bs'] eqn:Hp.
  assert (early_inv {| e_budgets := bs; e_queues := <[i := q]> qs |}) as Hsame by (by rewrite list_insert_id).
  destruct Hi as [Hqs Hb]. simpl in *. pose proof (Forall_lookup_1 _ _ _ _ Hqs Hq) as (Hid & Hn & Hl & Hm).
  destruct (Hb _ Hid) as [Hc Hle]. pose proof (zlen_nonneg payload).
  unfold push, try_reserve in Hp. repeat case_bool_decide; simplify_eq; try done.
  split; cbn [e_budgets e_queues]; rewrite length_insert.
  - apply Forall_insert; [done|]. assert (MAX_EARLY_DATAGRAM_BYTES_PER_TUNNEL < USIZE_MAX) by done.
    split_and!; cbn [budget payloads early_len]; [done|rewrite length_app; simpl; lia|rewrite concat_snoc, zlen_app; lia|lia].
  - intros id Hid'. rewrite counter_insert by done. rewrite (charged_insert _ _ _ _ _ Hq).
    destruct (Hb id Hid') as [Hc' Hle']. unfold charge. cbn [budget payloads]. rewrite concat_snoc, zlen_app.
    destruct (decide (id = budget q)) as [->|Hne]; [rewrite bool_decide_true by done; lia|].
    rewrite bool_decide_false by congruence. lia.
Qed.

Lemma remove_inv bs qs i q :
  early_inv {| e_budgets := bs; e_queues := qs |} -> qs !! i = Some q ->
  early_inv {| e_budgets := release bs (budget q) (early_len q); e_queues := delete i qs |}.
Proof.
  intros [Hqs Hb] Hq. simpl in *. pose proof (Forall_lookup_1 _ _ _ _ Hqs Hq) as Hok.
  pose proof Hok as (Hid & Hn & Hl & Hm). pose proof (zlen_nonneg (concat (payloads q))) as Hpos.
  assert (Forall (queue_ok (length bs)) (delete i qs)) as Hdel by (by apply Forall_delete).
  assert (forall id, (id < length bs)%nat -> counter (release bs (budget q) (early_len q)) id = charged id (delete i qs)) as Hcnt.
  { intros id Hid'. destruct (Hb id Hid') as [Hc Hle]. rewrite (charged_lookup id qs i q Hq) in Hc.
    pose proof (charged_nonneg id (delete i qs)). unfold release.
    assert (charge id q = if decide (id = budget q) then early_len q else 0) as Hch
      by (rewrite Hl; unfold charge; destruct (decide _); [rewrite bool_decide_true|rewrite bool_decide_false]; done).
    rewrite Hch in Hc. case_bool_decide as Hz; [rewrite Hz in Hc; destruct (decide _); lia|].
    rewrite counter_insert by done. destruct (decide (id = budget q)) as [->|Hne]; [|lia].
    unfold MAX_EARLY_DATAGRAM_BYTES_PER_CONNECTION in Hle. rewrite Z.mod_small by lia. lia. }
  assert (length (release bs (budget q) (early_len q)) = length bs) as Hlen
    by (unfold release; case_bool_decide; [done|apply length_insert]).
  split; cbn [e_budgets e_queues]; rewrite Hlen; [done|]. intros id Hid'. split; [by apply Hcnt|].
  rewrite Hcnt by done. destruct (Hb id Hid') as [Hc Hle]. rewrite (charged_lookup id qs i q Hq) in Hc.
  pose proof (charge_nonneg id q). lia.
Qed.

Lemma early_step_inv op e e' : early_inv e -> early_step op e = Some e' -> early_inv e'.
Proof.
  intros Hi Hs. destruct e as [bs qs]. destruct op as [|id|i payload|i|i|i]; cbn [early_step] in Hs.
  - simplify_eq. by apply new_budget_inv.
  - case_bool_decide; simplify_eq. by apply new_queue_inv.
  - apply bind_Some in Hs as (q & Hq & Hs). pose proof (push_inv bs qs i q payload Hi Hq) as H.
    destruct (push bs q payload) as [[ok q'] bs']. by simplify_eq.
  - apply bind_Some in Hs as (q & Hq & Hs). unfold early_default in Hs. simplify_eq.
    apply new_queue_inv; [by apply new_budget_inv|]. rewrite length_app. simpl. lia.
  - apply bind_Some in Hs as (q & Hq & Hs). simplify_eq. unfold into_payloads. simpl. by apply remove_inv.
  - apply bind_Some in Hs as (q & Hq & Hs). simplify_eq. by apply remove_inv.
Qed.

(** C39: whatever is buffered, moved, drained or dropped, the early datagrams of
    a connection's pending CONNECT-UDP streams never hold more than 64 KiB of
    payload in all, and no stream more than eight datagrams or 64 KiB; the
    shared counter is exactly the payload bytes that the queues on it hold, so
    capacity is neither leaked nor underflowed. *)
Theorem early_budget e :
  early_reachable e ->
  Forall (fun q => (length (payloads q) <= 8)%nat /\ zlen (concat (payloads q)) <= 64 * 1024) (e_queues e) /\
  forall id, (id < length (e_budgets e))%nat ->
    counter (e_budgets e) id = charged id (e_queues e) /\ charged id (e_queues e) <= 64 * 1024.
Proof.
  intros Hr. assert (early_inv e) as [Hq Hb].
  { induction Hr as [|op e e' _ IH Hs]; [split; simpl; [by apply Forall_nil_2|intros; lia]|by eapply early_step_inv]. }
  split.
  - eapply Forall_impl; [exact Hq|]. intros q (_ & ? & <- & ?). done.
  - intros id Hid. destruct (Hb id Hid) as [H1 H2]. by rewrite <- H1.
Qed.

(** ** Connecting *)

Lemma open_first_spec {Socket Error} (open_udp : SocketAddr -> Socket + Error) addrs e :
  match open_first open_udp addrs e with
  | Ok (s, a) => a ∈ addrs /\ open_udp a = inl s
  | Err status => status = 502 /\ Forall (fun a => exists e', open_udp a = inr e') addrs
  | Panic => addrs = [] /\ e = None
  end.
Proof.
  revert e. induction addrs as [|a addrs IH]; intros e; simpl; [by destruct e; simpl; auto|].
  destruct (open_udp a) as [s|e'] eqn:Ha; [split; [left|done]|].
  specialize (IH (Some e')). destruct (open_first open_udp addrs (Some e')) as [[s b]|st|].
  - split; [right|]; apply IH.
  - split; [apply IH|]. constructor; [by exists e'|apply IH].
  - destruct IH; done.
Qed.

(** A CONNECT-UDP tunnel gets a socket connected to one of the addresses of
    the resolved snapshot, each of which the policy allows; it fails with 502
    only after every one of them failed to open, and the case of no address,
    which would panic, cannot occur. *)
Theorem udp_connect_allowed {Socket Error} (open_udp : SocketAddr -> Socket + Error)
    {N4 N6 : Type} `{!NetOps N4, !NetOps N6} host port (p : TargetPolicy N4 N6) resolver permitted :
  allows_port p port = Ok permitted ->
  match connect_udp_target open_udp host port p resolver with
  | Ok (s, a) => is_allowed p (sock_ip a) = true /\ is_unspecified (to_canonical (sock_ip a)) = false /\
      open_udp a = inl s /\ exists l, resolve_allowed_with host port p resolver = Ok l /\ a ∈ l
  | Err status => resolve_allowed_with host port p resolver = Err status /\
        (status = 403 \/ status = 502 \/ status = 504) \/
      status = 502 /\ exists l, resolve_allowed_with host port p resolver = Ok l /\
        Forall (fun a => exists e, open_udp a = inr e) l
  | Panic => False
  end.
Proof.
  intros Hp. unfold connect_udp_target. pose proof (resolve_allowed_total host port p resolver permitted Hp) as Ht.
  destruct (resolve_allowed_with host port p resolver) as [l|st|] eqn:Hr; simpl; [|by left|done].
  pose proof (open_first_spec open_udp l None) as Ho. apply resolve_allowed_Ok in Hr as (Hne & _ & Hall).
  destruct (open_first open_udp l None) as [[s a]|st|].
  - destruct Ho as [Ha Hs]. rewrite Forall_forall in Hall. destruct (Hall a Ha). split_and!; try done. by exists l.
  - right. destruct Ho as [-> Hf]. split; [done|]. by exists l.
  - by destruct Ho.
Qed.

(** ** Staging and flushing *)

(** The payloads of the next batch; buffers beyond them are only storage. *)
Definition staged_payloads (t : UdpTunnel) : list bytes := take (staged t) (send_stage t).
Definition stage_ok (t : UdpTunnel) : Prop := (staged t <= length (send_stage t))%nat.

Lemma stage_spec payload t :
  stage_ok t ->
  exists full t', stage_to_target payload t = Ok (full, t') /\ stage_ok t' /\
    staged_payloads t' = staged_payloads t ++ [payload] /\ udp_gso t' = udp_gso t /\
    (full = true <-> (TARGET_BATCH_SIZE <= length (staged_payloads t'))%nat).
Proof.
  intros Hok. unfold stage_to_target, stage_ok, staged_payloads in *.
  set (stage := if bool_decide _ then _ else _).
  assert (staged t < length stage)%nat as Hlt
    by (unfold stage; case_bool_decide; [rewrite length_app; simpl; lia|lia]).
  assert (take (staged t) stage = take (staged t) (send_stage t)) as Htk
    by (unfold stage; case_bool_decide; [by rewrite take_app_le by lia|done]).
  cbn [store_from]. rewrite (bool_decide_true (staged t < length stage)%nat) by done. cbn [mbind result_bind].
  eexists _, _. split; [done|]. cbn [set_stage staged send_stage udp_gso].
  rewrite length_insert, (take_S_r _ _ payload) by (by rewrite list_lookup_insert_eq).
  rewrite take_insert_ge, Htk by lia. split_and!; [lia|done|done|].
  rewrite length_app, length_take, bool_decide_eq_true. simpl. split; lia.
Qed.

(** The batched writer sends exactly what was staged.  Staging appends a
    payload to the batch and says when the batch is full; flushing hands exactly
    the staged payloads to the kernel, never a stale buffer, leaves the batch
    empty, and what the kernel takes is a prefix of them in order.  When
    segmentation offload is refused nothing had been sent, so the one resend
    without it duplicates nothing, and offload stays off. *)
Theorem udp_flush_exact (split : Z -> bytes -> list bytes) `{!GsoKernel split} now send resend t :
  stage_ok t -> (forall ms, send ms <> Panic) -> (forall ms, resend ms <> Panic) ->
  let '(t', r) := flush_to_target now send resend t in
  staged_payloads t' = [] /\ stage_ok t' /\
  match r with
  | Ok _ => staged_payloads t = [] \/ exists ms n count,
      accepted_wire split ms n = take count (staged_payloads t) /\
      (send ms = Ok n \/
       resend ms = Ok n /\ udp_gso t' = false /\ exists ms' e, send ms' = Err e)
  | Err e => exists ms, send ms = Err e \/ resend ms = Err e
  | Panic => False
  end.
Proof.
  intros Hok Hs Hr. unfold flush_to_target. case_bool_decide as Hz.
  { unfold staged_payloads, stage_ok. rewrite Hz. simpl. split_and!; [done|lia|by left]. }
  rewrite slice_Ok by (unfold stage_ok in Hok; lia). rewrite drop_0, Nat.sub_0_r. fold (staged_payloads t).
  destruct (send_batch_spec split send (staged_payloads t) (udp_gso t) Hs) as (ms & _ & _ & Hb).
  destruct (send_mmsg send (staged_payloads t) (udp_gso t)) as [count|errno|]; [| |done].
  - split_and!; [done|unfold stage_ok; simpl; lia|]. destruct Hb as [[Hb _]|(n & H1 & H2 & _)]; [by left|].
    right. exists ms, n, count. auto.
  - destruct (udp_gso t && is_udp_gso_error errno);
      [|split_and!; [done|unfold stage_ok; simpl; lia|]; exists ms; by left].
    destruct (send_batch_spec split resend (staged_payloads t) false Hr) as (ms2 & _ & _ & Hb2).
    split_and!; [done|unfold stage_ok; simpl; lia|].
    destruct (send_mmsg resend (staged_payloads t) false) as [count|e|]; [|by exists ms2; right|done].
    destruct Hb2 as [[Hb2 _]|(n & H1 & H2 & _)]; [by left|]. right. exists ms2, n, count. split; [done|].
    right. split_and!; [done|done|]. by exists ms, errno.
Qed.

(** ** Witnesses *)

Lemma early_budget_witness :
  exists e, early_step (EPush 0 [1; 2; 3]) {| e_budgets := [0]; e_queues := [early_new 0] |} = Some e /\
    counter (e_budgets e) 0 = 3 /\ charged 0 (e_queues e) <= 64 * 1024.
Proof.
  eexists. split; [reflexivity|]. split; [reflexivity|].
  refine (proj2 (proj2 (early_budget _ _) 0%nat _)); [|vm_compute; repeat constructor].
  apply (early_next (EPush 0 [1; 2; 3]) {| e_budgets := [0]; e_queues := [early_new 0] |}); [|reflexivity].
  apply (early_next (ENewQueue 0) {| e_budgets := [0]; e_queues := [] |}); [|reflexivity].
  apply (early_next ENewBudget {| e_budgets := []; e_queues := [] |}); [apply early_start|reflexivity].
Defined.

Lemma udp_connect_allowed_witness :
  connect_udp_target (fun a => if bool_decide (a = SockV4 0x01010101 80) then inr tt else inl 5) [0x61] 80 sample_policy
    (fun _ port => Resolved [SockV4 0x01010101 port; SockV4 0x01010102 port]) = Ok (5, SockV4 0x01010102 80) /\
  is_allowed sample_policy (IpV4 0x01010102) = true.
Proof.
  assert (connect_udp_target (fun a => if bool_decide (a = SockV4 0x01010101 80) then inr tt else inl 5) [0x61] 80
    sample_policy (fun _ port => Resolved [SockV4 0x01010101 port; SockV4 0x01010102 port])
    = Ok (5, SockV4 0x01010102 80)) as Hc by (vm_compute; reflexivity).
  split; [exact Hc|].
  pose proof (udp_connect_allowed (fun a => if bool_decide (a = SockV4 0x01010101 80) then inr tt else inl 5) [0x61] 80
    sample_policy (fun _ port => Resolved [SockV4 0x01010101 port; SockV4 0x01010102 port]) true eq_refl) as H.
  rewrite Hc in H. exact (proj1 H).
Defined.

(** Two staged payloads, a socket that refuses offload once. *)
Definition two_staged : UdpTunnel :=
  {| stream_id := 4; target_addr := SockV4 0x01010101 53; last_activity := 0;
     send_stage := [replicate 600 1; [2]; [9; 9]]; staged := 2; udp_gso := true |}.

Lemma udp_flush_exact_witness :
  let '(t', r) := flush_to_target 1 (fun _ => Err 5) (fun ms => Ok (length ms)) two_staged in
  r = Ok tt /\ staged_payloads t' = [] /\ udp_gso t' = false.
Proof.
  pose proof (udp_flush_exact sample_split 1 (fun _ => Err 5) (fun ms => Ok (length ms)) two_staged
    ltac:(vm_compute; repeat constructor) ltac:(discriminate) ltac:(discriminate)) as H.
  destruct (flush_to_target 1 (fun _ => Err 5) (fun ms => Ok (length ms)) two_staged) as [t' r] eqn:Hf.
  split; [vm_compute in Hf; injection Hf as _ <-; reflexivity|].
  split; [exact (proj1 H)|]. vm_compute in Hf. injection Hf as <- _. reflexivity.
Defined.
