(* ===== verification/Quiche.v ===== *)
(** * The QUIC and HTTP/3 library behind a connection

    The server drives every connection through the [quiche] crate, which is not
    part of the repository.  A connection is represented by the history of what
    was asked of it; the library is an arbitrary function that answers a call
    from the history before it, so its behaviour, the peer's packets included,
    is left open.  The clock and the random generator are answered the same way,
    which orders their readings among the calls; the history of a connection
    starts with the call that accepted it, under a number of its own.  Methods that take [&mut self] are recorded, [&self] methods
    only read the history. *)

From stdpp Require Import list strings.
From S2P Require Import Prelude Net.
Open Scope Z_scope.

(** [quiche::ConnectionId], [quiche::SendInfo] and [quiche::h3::Header]. *)
Abbreviation ConnectionId := (list Z) (only parsing).
Record SendInfo := { info_from : SocketAddr; info_to : SocketAddr; info_at : Z }.
Abbreviation Header := (string * list Z)%type (only parsing).

Inductive H3Error := StreamBlocked | H3Done | H3Other (code : Z).
Inductive QuicError := QuicDone | QuicOther (code : Z).
Inductive Shutdown := ShutRead | ShutWrite.

(** [quiche::PathEvent]; the addresses of the events the server ignores are
    left out. *)
Inductive PathEvent :=
| PathNew | PathValidated | FailedValidation | PathClosed | ReusedSourceConnectionId
| PeerMigrated (local peer : SocketAddr) | PmtuUpdated (pmtu : Z) | PathOther.

(** [quiche::h3::Event]. *)
Inductive H3Event :=
| Headers (list_ : list Header) | Data | Finished | Reset_ (code : Z) | PriorityUpdate | GoAway.

(** The methods that change a connection, with the type of their answer; [now]
    reads the clock. *)
Inductive call : Type -> Type :=
| now : call Z
| send_response (stream : Z) (headers : list Header) (fin : bool) : call (result H3Error unit)
| send_body (stream : Z) (body : bytes) (fin : bool) : call (result H3Error Z)
| recv_body (stream : Z) (len : Z) : call (result H3Error bytes)
| poll : call (result H3Error (Z * H3Event))
| with_transport : call bool
| stream_shutdown (stream : Z) (dir : Shutdown) (code : Z) : call bool
| close (app : bool) (code : Z) : call bool
| send_goaway (id : Z) : call bool
| recv (packet : bytes) (from to : SocketAddr) : call bool
| on_timeout : call unit
| send : call (result QuicError (bytes * SendInfo))
| dgram_recv (len : Z) : call (result QuicError bytes)
| dgram_send_buf (data : bytes) : call (result QuicError unit)
| path_event_next : call (option PathEvent)
| retired_scid_next : call (option ConnectionId)
| accept (serial : Z) (scid : ConnectionId) (odcid : option ConnectionId) (local from : SocketAddr) : call bool
| random_fill (len : nat) : call (option bytes)
| new_scid (id : ConnectionId) (token : Z) (retire : bool) : call bool.

(** The methods that only read it. *)
Inductive query : Type -> Type :=
| is_closed : query bool
| is_draining : query bool
| is_established : query bool
| is_in_early_data : query bool
| local_error : query bool
| stream_closed (stream : Z) : query bool
| stream_finished (stream : Z) : query bool
| stream_readable (stream : Z) : query bool
| stream_readable_len (stream : Z) : query (option Z)
| scids_left : query nat
| max_send_udp_payload_size : query Z
| send_quantum : query Z
| timeout_instant : query (option Z)
| peer_cert : query (option bytes)
| dgram_enabled_by_peer : query bool
| is_dgram_send_queue_full : query bool.

Inductive event :=
| Ev {A} (c : call A) (answer : A).

(** A connection is the history of its calls. *)
Abbreviation conn := (list event).

(** The library. *)
Class Quiche := {
  answer : forall A, conn -> call A -> A;
  query_answer : forall A, conn -> query A -> A;
}.

Section library.
Context `{Quiche}.

Definition do {A} (c : call A) (q : conn) : A * conn :=
  let a := answer A q c in (a, q ++ [Ev c a]).

Definition ask {A} (c : query A) (q : conn) : A := query_answer A q c.

(** A call whose answer is not looked at. *)
Definition exec {A} (c : call A) (q : conn) : conn := (do c q).2.

Lemma do_trace {A} (c : call A) q : (do c q).2 = q ++ [Ev c (do c q).1].
Proof. done. Qed.

Lemma exec_trace {A} (c : call A) q : exec c q = q ++ [Ev c (answer A q c)].
Proof. done. Qed.
End library.

(** ** Observations of a history *)

(** The complete responses the library took, with the status line. *)
Definition accepted_response (e : event) : option (Z * list Header * bool) :=
  match e with
  | Ev c a =>
      match c in call A return A -> option (Z * list Header * bool) with
      | send_response s hs fin => fun a => match a with Ok _ => Some (s, hs, fin) | _ => None end
      | _ => fun _ => None
      end a
  end.

(** The shutdowns that were asked for. *)
Definition shutdown_of (e : event) : option (Z * Shutdown * Z) :=
  match e with
  | Ev c _ => match c with stream_shutdown s d code => Some (s, d, code) | _ => None end
  end.

(** The packets the library handed out to be sent. *)
Definition generated_packet (e : event) : option (bytes * SendInfo) :=
  match e with
  | Ev c a =>
      match c in call A return A -> option (bytes * SendInfo) with
      | send => fun a => match a with Ok p => Some p | _ => None end
      | _ => fun _ => None
      end a
  end.

(** Body bytes of a stream the library accepted. *)
Definition accepted_body (stream : Z) (e : event) : option bytes :=
  match e with
  | Ev c a =>
      match c in call A return A -> option bytes with
      | send_body s body fin => fun a =>
          match a with Ok n => if bool_decide (s = stream) then Some (take (Z.to_nat n) body) else None | _ => None end
      | _ => fun _ => None
      end a
  end.

(** Body bytes of a stream the library delivered. *)
Definition delivered_body (stream : Z) (e : event) : option bytes :=
  match e with
  | Ev c a =>
      match c in call A return A -> option bytes with
      | recv_body s len => fun a => match a with Ok l => if bool_decide (s = stream) then Some l else None | _ => None end
      | _ => fun _ => None
      end a
  end.

(** The readings of the clock. *)
Definition clock_reading (e : event) : option Z :=
  match e with
  | Ev c a => match c in call A return A -> option Z with now => fun t => Some t | _ => fun _ => None end a
  end.
