(* ===== verification/QuicBatch.v ===== *)
(** * Batched UDP I/O of the QUIC listener (src/net/quic.rs)

    Send batches with segmentation offload and their fallback, receive batches
    with the splitting of coalesced datagrams, socket addresses in their C
    layout, and the packet filter that steers packets to the shard their
    connection id names.  System calls are parameters. *)

From stdpp Require Import list.
From S2P Require Import Prelude Net TargetUdp Quiche.

Definition MAX_DATAGRAM_SIZE : Z := 65535.
Definition MAX_BATCH_PACKETS : nat := 64.
#[global] Arguments MAX_BATCH_PACKETS : simpl never.

(** ** Send batches *)

Record SendMessage := {
  data : bytes;
  segment_size : Z;
  segments : nat;
  from : SocketAddr;
  to : SocketAddr;
}.

Definition empty : SendMessage :=
  {| data := []; segment_size := 0; segments := 0; from := SockV4 0 0; to := SockV4 0 0 |}.

(** [reset] on a reused message keeps nothing of it. *)
Definition reset (packet : bytes) (info : SendInfo) : SendMessage :=
  {| data := packet; segment_size := zlen packet; segments := 1; from := info_from info; to := info_to info |}.

Definition can_append (m : SendMessage) (packet_len : Z) (info : SendInfo) (aggregate_limit : Z) : bool :=
  bool_decide (segment_size m > 0) && bool_decide (segments m < MAX_BATCH_PACKETS)%nat &&
  bool_decide (from m = info_from info) && bool_decide (to m = info_to info) &&
  bool_decide (zlen (data m) mod segment_size m = 0) &&
  bool_decide (packet_len <= segment_size m) && bool_decide (zlen (data m) + packet_len <= aggregate_limit).

Record SendPacketBatch := { messages : list SendMessage; used : nat; packet_count : Z; byte_count : Z }.

Definition batch_new : SendPacketBatch := {| messages := []; used := 0; packet_count := 0; byte_count := 0 |}.
Definition clear (b : SendPacketBatch) : SendPacketBatch :=
  {| messages := messages b; used := 0; packet_count := 0; byte_count := 0 |}.
Definition batch_is_empty (b : SendPacketBatch) : bool := bool_decide (packet_count b = 0).

Definition append (m : SendMessage) (packet : bytes) : SendMessage :=
  {| data := data m ++ packet; segment_size := segment_size m; segments := S (segments m); from := from m; to := to m |}.

Definition counted (b : SendPacketBatch) (ms : list SendMessage) (n : nat) (packet : bytes) : SendPacketBatch :=
  {| messages := ms; used := n; packet_count := packet_count b + 1; byte_count := byte_count b + zlen packet |}.

Definition push (packet : bytes) (info : SendInfo) (enable_gso : bool) (aggregate_limit : Z) (b : SendPacketBatch)
    : result Empty_set SendPacketBatch :=
  let aggregate_limit := Z.min (Z.max aggregate_limit (zlen packet)) UDP_MAX_GSO_PAYLOAD in
  let fresh :=
    let ms := if bool_decide (used b = length (messages b)) then messages b ++ [empty] else messages b in
    ms' ← store_from (used b) [reset packet info] ms;
    Ok (counted b ms' (S (used b)) packet) in
  if enable_gso && bool_decide (0 < used b)%nat then
    last ← index (messages b) (used b - 1);
    if can_append last (zlen packet) info aggregate_limit
    then ms' ← store_from (used b - 1) [append last packet] (messages b); Ok (counted b ms' (used b) packet)
    else fresh
  else fresh.

(** [active]. *)
Definition active (b : SendPacketBatch) : result Empty_set (list SendMessage) := slice (messages b) 0 (used b).

(** ** Sending a batch *)

(** A message of a system call: payload, destination, UDP_SEGMENT size. *)
Record WireMessage := { w_data : bytes; w_to : SocketAddr; w_segment : option Z }.

Definition wire_message (gso : bool) (m : SendMessage) : WireMessage :=
  {| w_data := data m; w_to := to m;
     w_segment := if gso && bool_decide (1 < segments m)%nat then Some (segment_size m mod 2 ^ 16) else None |}.

Section send.
(** The answers of successive [sendmmsg] and [send_to] calls. *)
Context (sendmmsg : nat -> list WireMessage -> result Z nat) (send_to : nat -> bytes -> SocketAddr -> result Z Z).

Definition send_mmsg (call : nat) (ms : list SendMessage) (gso : bool) : result Z nat :=
  let batch := map (wire_message gso) (take MAX_BATCH_PACKETS ms) in
  n ← sendmmsg call batch; Ok (n `min` length batch)%nat.

(** WriteZero, for a system call that accepted nothing. *)
Definition WRITE_ZERO : Z := -1.

(** A chunk and its destination; the datagrams that were sent are returned with
    the result. *)
Fixpoint send_chunks (call : nat) (ps : list bytes) (dst : SocketAddr) : list (bytes * SocketAddr) * nat * result Z unit :=
  match ps with
  | [] => ([], call, Ok tt)
  | p :: ps' =>
      match send_to call p dst with
      | Ok written =>
          if bool_decide (written = zlen p) then
            let '(sent, call', r) := send_chunks (S call) ps' dst in ((p, dst) :: sent, call', r)
          else ([], S call, Err WRITE_ZERO)
      | Err e => ([], S call, Err e)
      | Panic => ([], S call, Panic)
      end
  end.

Fixpoint send_individually (call : nat) (ms : list SendMessage) : list (bytes * SocketAddr) * nat * result Z unit :=
  match ms with
  | [] => ([], call, Ok tt)
  | m :: ms' =>
      if bool_decide (segment_size m = 0) then ([], call, Panic)
      else
        let '(sent, call', r) := send_chunks call (chunks (Z.to_nat (segment_size m)) (data m)) (to m) in
        match r with
        | Ok _ => let '(sent', call'', r') := send_individually call' ms' in (sent ++ sent', call'', r')
        | _ => (sent, call', r)
        end
  end.

(** The state of the loop: messages sent, system calls made, whether offload
    is on, and the messages accepted so far. *)
Record SendState := { st_sent : nat; st_call : nat; st_gso : bool; st_wire : list WireMessage }.

(** How the batch ended: the socket's offload flag, what went out as messages
    and, after a fallback, as single datagrams, and the result. *)
Record SendEnd := {
  end_gso : bool;
  end_wire : list WireMessage;
  end_single : list (bytes * SocketAddr);
  end_result : result Z unit;
}.

Definition send_iter (ms : list SendMessage) (s : SendState) : result Empty_set (SendState + SendEnd) :=
  let finish gso single r :=
    Ok (inr {| end_gso := gso; end_wire := st_wire s; end_single := single; end_result := r |}) in
  if bool_decide (st_sent s < length ms)%nat then
    rest ← slice_from ms (st_sent s);
    match send_mmsg (st_call s) rest (st_gso s) with
    | Ok O => finish (st_gso s) [] (Err WRITE_ZERO)
    | Ok count =>
        Ok (inl {| st_sent := (st_sent s + count)%nat; st_call := S (st_call s); st_gso := st_gso s;
                   st_wire := st_wire s ++ take count (map (wire_message (st_gso s)) (take MAX_BATCH_PACKETS rest)) |})
    | Err e =>
        if st_gso s && is_udp_gso_error e then
          let '(sent, _, r) := send_individually 0 rest in finish false sent r
        else finish (st_gso s) [] (Err e)
    | Panic => Panic
    end
  else finish (st_gso s) [] (Ok tt).

Definition send_batch (gso : bool) (b : SendPacketBatch) : result Empty_set SendEnd :=
  ms ← active b;
  while (fun s => length ms - st_sent s)%nat (send_iter ms)
    {| st_sent := 0; st_call := 0; st_gso := gso; st_wire := [] |}.
End send.

(** ** Receive batches *)

Record RecvSlot := { buffer : bytes; slot_len : Z; slot_segment : Z; slot_from : option SocketAddr }.

Definition recv_batch_new (capacity : nat) : list RecvSlot :=
  replicate capacity
    {| buffer := replicate (Z.to_nat MAX_DATAGRAM_SIZE) 0; slot_len := 0; slot_segment := 0; slot_from := None |}.

(** The datagrams of one slot, in the order they are visited. *)
Definition slot_packets (slot : RecvSlot) : result unit (list (bytes * SocketAddr)) :=
  match slot_from slot with
  | None => Ok []
  | Some peer =>
      if bool_decide (slot_len slot = 0) then Ok []
      else
        let size := if bool_decide (1 <= slot_segment slot <= MAX_DATAGRAM_SIZE)
                    then Z.min (slot_segment slot) (slot_len slot) else slot_len slot in
        used ← slice (buffer slot) 0 (Z.to_nat (slot_len slot));
        if bool_decide (size = 0) then Panic
        else Ok (map (fun p => (p, peer)) (chunks (Z.to_nat size) used))
  end.

Fixpoint for_each_packet (slots : list RecvSlot) : result unit (list (bytes * SocketAddr)) :=
  match slots with
  | [] => Ok []
  | slot :: slots' => here ← slot_packets slot; rest ← for_each_packet slots'; Ok (here ++ rest)
  end.
Definition for_each_packet_mut (slots : list RecvSlot) (received : nat) : result unit (list (bytes * SocketAddr)) :=
  for_each_packet (take received slots).

(** A control message as the kernel leaves it: level, type, its length with
    header, and its first two bytes of data. *)
Record Cmsg := { cmsg_level : Z; cmsg_type : Z; cmsg_len : Z; cmsg_data : Z }.
Definition IPPROTO_UDP : Z := 17.
Definition UDP_GRO : Z := 104.
Definition CMSG_LEN_U16 : Z := 18.

Definition gro_segment_size (control : option Cmsg) (control_len : Z) : option Z :=
  match control with
  | None => None
  | Some c =>
      if bool_decide (control_len < CMSG_LEN_U16) || bool_decide (cmsg_level c <> IPPROTO_UDP) ||
         bool_decide (cmsg_type c <> UDP_GRO) || bool_decide (cmsg_len c < CMSG_LEN_U16) ||
         bool_decide (cmsg_len c > control_len)
      then None else Some (cmsg_data c)
  end.

(** What the kernel returns for one message of [recvmmsg]. *)
Record Received := {
  rx_buffer : bytes; rx_len : Z; rx_trunc : bool; rx_from : option SocketAddr;
  rx_control : option Cmsg; rx_control_len : Z;
}.

Definition fill_slot (slot : RecvSlot) (r : Received) : RecvSlot :=
  if rx_trunc r then {| buffer := rx_buffer r; slot_len := 0; slot_segment := 0; slot_from := None |}
  else
    let len := Z.min (rx_len r) (zlen (rx_buffer r)) in
    {| buffer := rx_buffer r; slot_len := len;
       slot_segment := match gro_segment_size (rx_control r) (rx_control_len r) with
                       | Some size => if bool_decide (size > 0) then size else len
                       | None => len end;
       slot_from := rx_from r |}.

Fixpoint fill_slots (slots : list RecvSlot) (rs : list Received) : list RecvSlot :=
  match slots, rs with
  | slot :: slots', r :: rs' => fill_slot slot r :: fill_slots slots' rs'
  | _, _ => slots
  end.

(** [recv_mmsg]: the first slots are cleared, then the received ones filled. *)
Definition recv_mmsg (recvmmsg : list bytes -> result Z (list Received)) (slots : list RecvSlot)
    : result Z (list RecvSlot * nat) :=
  let count := (length slots `min` MAX_BATCH_PACKETS)%nat in
  let cleared := map (fun s => {| buffer := buffer s; slot_len := 0; slot_segment := 0; slot_from := None |})
                   (take count slots) ++ drop count slots in
  rs ← recvmmsg (map buffer (take count slots));
  let received := (length rs `min` count)%nat in
  Ok (fill_slots cleared (take received rs), received).

(** ** Socket addresses in C *)

Definition AF_INET : Z := 2.
Definition AF_INET6 : Z := 10.
Definition SIZEOF_SOCKADDR_IN : Z := 16.
Definition SIZEOF_SOCKADDR_IN6 : Z := 28.

(** The fields of [sockaddr_in] and [sockaddr_in6] behind [sockaddr_storage];
    the port is the integer the host reads from the two network-order bytes. *)
Inductive Sockaddr :=
| RawInet (sin_port : Z) (s_addr : Z)
| RawInet6 (sin6_port flowinfo : Z) (s6_addr : bytes) (scope_id : Z)
| RawOther (family : Z).

Section host.
(** Whether the host is little-endian. *)
Context (little : bool).

Definition swap16 (v : Z) : Z := (v mod 256) * 256 + v / 256.
Definition to_be16 (v : Z) : Z := if little then swap16 v else v.
Definition from_be16 (v : Z) : Z := if little then swap16 v else v.
(** [u32::from_ne_bytes] and [to_ne_bytes]. *)
Definition from_ne_bytes (l : bytes) : Z := if little then be_val (rev l) else be_val l.
Definition to_ne_bytes (v : Z) : bytes := if little then rev (be_bytes 4 v) else be_bytes 4 v.

Definition socket_addr_to_raw (a : SocketAddr) : Sockaddr * Z :=
  match a with
  | SockV4 ip port => (RawInet (to_be16 port) (from_ne_bytes (be_bytes 4 ip)), SIZEOF_SOCKADDR_IN)
  | SockV6 ip port flow scope => (RawInet6 (to_be16 port) flow (be_bytes 16 ip) scope, SIZEOF_SOCKADDR_IN6)
  end.

Definition raw_to_socket_addr (raw : Sockaddr) (len : Z) : option SocketAddr :=
  match raw with
  | RawInet port addr =>
      if bool_decide (SIZEOF_SOCKADDR_IN <= len)
      then Some (SockV4 (be_val (to_ne_bytes addr)) (from_be16 port)) else None
  | RawInet6 port flow addr scope =>
      if bool_decide (SIZEOF_SOCKADDR_IN6 <= len)
      then Some (SockV6 (be_val addr) (from_be16 port) flow scope) else None
  | RawOther _ => None
  end.
End host.

(** ** The steering program *)

(** The classic BPF instructions the program is written in: loads of one packet
    byte, a conditional and an unconditional forward jump, the remainder by a
    constant, and the return of the accumulator.  A load past the packet ends
    the program with zero. *)
Inductive BpfInsn :=
| LdAbsB (offset : nat) | JSet (mask : Z) (jt jf : nat) | Ja (skip : nat) | Mod (k : Z) | RetA.

Definition attach_reuseport_cid_selector (shards : Z) : list BpfInsn :=
  [LdAbsB 0; JSet 0x80 0 2; LdAbsB 6; Ja 1; LdAbsB 1; Mod shards; RetA].

Fixpoint bpf_run (fuel : nat) (prog : list BpfInsn) (pc : nat) (a : Z) (packet : bytes) : option Z :=
  match fuel with
  | O => None
  | S fuel' =>
      match prog !! pc with
      | None => None
      | Some (LdAbsB off) =>
          match packet !! off with Some b => bpf_run fuel' prog (S pc) b packet | None => Some 0 end
      | Some (JSet mask jt jf) =>
          let jump := if bool_decide (Z.land a mask <> 0) then jt else jf in
          bpf_run fuel' prog (S pc + jump)%nat a packet
      | Some (Ja skip) => bpf_run fuel' prog (S pc + skip)%nat a packet
      | Some (Mod k) => if bool_decide (k = 0) then Some 0 else bpf_run fuel' prog (S pc) (a mod k) packet
      | Some RetA => Some a
      end
  end.

(** Jumps are forward, so a run makes at most one step per instruction. *)
Definition select_socket (shards : Z) (packet : bytes) : option Z :=
  let prog := attach_reuseport_cid_selector shards in bpf_run (length prog) prog 0 0 packet.

(** ** Batches hold exactly what was pushed *)

(** A message is a run of equal packets and one last packet that is not longer. *)
Definition packs (m : SendMessage) (ps : list bytes) : Prop :=
  exists full tail, ps = full ++ [tail] /\ data m = concat ps /\
    Forall (fun p => zlen p = segment_size m) full /\ 0 < zlen tail <= segment_size m /\
    segments m = length ps.

(** The size limits of a segmented message. *)
Definition message_limits (m : SendMessage) : Prop :=
  (segments m <= MAX_BATCH_PACKETS)%nat /\ ((1 < segments m)%nat -> zlen (data m) <= UDP_MAX_GSO_PAYLOAD).

Lemma packs_reset p info : 0 < zlen p -> packs (reset p info) [p] /\ message_limits (reset p info).
Proof.
  intros Hp. split.
  - exists [], p. simpl. rewrite app_nil_r. split_and!; try done; lia.
  - split; simpl; [unfold MAX_BATCH_PACKETS; lia|lia].
Qed.

Lemma packs_chunks m ps : packs m ps -> segment_size m > 0 /\ chunks (Z.to_nat (segment_size m)) (data m) = ps.
Proof.
  intros (full & tail & -> & Hd & Hf & Ht & _). split; [lia|]. rewrite Hd, concat_snoc.
  apply chunks_concat; [lia| |unfold zlen in *; lia].
  eapply Forall_impl; [exact Hf|]. unfold zlen. simpl. intros. lia.
Qed.

(** Whole segments so far means the last packet is a full one. *)
Lemma packs_append m ps p info limit :
  packs m ps -> message_limits m -> 0 < zlen p -> limit <= UDP_MAX_GSO_PAYLOAD ->
  can_append m (zlen p) info limit = true ->
  packs (append m p) (ps ++ [p]) /\ message_limits (append m p) /\
  from m = info_from info /\ to m = info_to info.
Proof.
  intros (full & tail & -> & Hd & Hf & Ht & Hs) Hlim Hp Hl Hc. unfold can_append in Hc.
  repeat (apply andb_true_iff in Hc as [Hc ?%bool_decide_eq_true]). apply bool_decide_eq_true in Hc.
  assert (zlen tail = segment_size m) as Htail.
  { rewrite Hd, concat_snoc, zlen_app in *.
    assert (zlen (concat full) mod segment_size m = 0) as Hm.
    { clear -Hf Hc. induction Hf as [|x full Hx _ IH]; [by apply Z.mod_0_l; lia|]. simpl. rewrite zlen_app, Hx.
      rewrite <- (Z.mul_1_l (segment_size m)) at 1. rewrite Z.add_comm, Z.mod_add by lia. done. }
    destruct (decide (zlen tail = segment_size m)) as [|Hne]; [done|].
    rewrite Z.add_mod, Hm, Z.add_0_l, Z.mod_mod, Z.mod_small in H1 by lia. lia. }
  split_and!; try done.
  - exists (full ++ [tail]), p. simpl. rewrite Hd, !concat_snoc, !length_app. simpl.
    split_and!; try done; try lia.
    + apply Forall_app. split; [done|by apply Forall_singleton].
    + rewrite Hs, length_app. simpl. lia.
  - split; simpl; [lia|]. intros _. rewrite zlen_app. lia.
Qed.

(** The datagrams a message stands for. *)
Definition unpack (m : SendMessage) : list (bytes * SocketAddr) :=
  map (fun p => (p, to m)) (chunks (Z.to_nat (segment_size m)) (data m)).
Definition packed (m : SendMessage) : Prop := exists ps, packs m ps /\ message_limits m.

Definition pushed (ps : list (bytes * SendInfo)) : list (bytes * SocketAddr) :=
  map (fun x => (fst x, info_to (snd x))) ps.

Record batch_holds (gso : bool) (b : SendPacketBatch) (ps : list (bytes * SendInfo)) : Prop := {
  bh_used : (used b <= length (messages b))%nat;
  bh_packed : Forall packed (take (used b) (messages b));
  bh_unpack : concat (map unpack (take (used b) (messages b))) = pushed ps;
  bh_single : gso = false -> Forall (fun m => segments m = 1%nat) (take (used b) (messages b));
  bh_count : packet_count b = zlen ps;
  bh_bytes : byte_count b = zlen (concat (map fst ps));
}.

Lemma unpack_packs m ps : packs m ps -> unpack m = map (fun p => (p, to m)) ps.
Proof. intros H. unfold unpack. by rewrite (proj2 (packs_chunks m ps H)). Qed.

Lemma counted_holds gso b ps p info ms n :
  batch_holds gso b ps -> (n <= length ms)%nat -> Forall packed (take n ms) ->
  (gso = false -> Forall (fun m => segments m = 1%nat) (take n ms)) ->
  concat (map unpack (take n ms)) = concat (map unpack (take (used b) (messages b))) ++ [(p, info_to info)] ->
  batch_holds gso (counted b ms n p) (ps ++ [(p, info)]).
Proof.
  intros [H1 H2 H3 H4 H5 H6] Hn Hp Hs Hu. split; simpl; try done.
  - rewrite Hu, H3. unfold pushed. by rewrite map_app.
  - rewrite zlen_app, H5. done.
  - rewrite map_app, concat_app, zlen_app, H6. simpl. by rewrite app_nil_r.
Qed.

Lemma fresh_holds gso b ps p info :
  batch_holds gso b ps -> 0 < zlen p ->
  let ms := if bool_decide (used b = length (messages b)) then messages b ++ [empty] else messages b in
  exists ms', store_from (E:=Empty_set) (used b) [reset p info] ms = Ok ms' /\
    batch_holds gso (counted b ms' (S (used b)) p) (ps ++ [(p, info)]).
Proof.
  intros Hb Hp ms. pose proof Hb as [H1 H2 H3 H4 H5 H6].
  assert (used b < length ms)%nat as Hlt by (unfold ms; case_bool_decide; [rewrite length_app; simpl; lia|lia]).
  assert (take (used b) ms = take (used b) (messages b)) as Htk
    by (unfold ms; case_bool_decide; [by rewrite take_app_le by lia|done]).
  exists (<[used b := reset p info]> ms). split; [cbn [store_from]; by rewrite bool_decide_true|].
  destruct (packs_reset p info Hp) as [Hpk Hlim].
  assert (take (S (used b)) (<[used b := reset p info]> ms) = take (used b) (messages b) ++ [reset p info]) as Ht.
  { rewrite (take_S_r _ _ (reset p info)) by (by rewrite list_lookup_insert_eq).
    by rewrite take_insert_ge, Htk by lia. }
  apply counted_holds; rewrite ?Ht; [done|rewrite length_insert; lia| | |].
  - apply Forall_app. split; [done|]. apply Forall_singleton. by exists [p].
  - intros Hg. apply Forall_app. split; [by apply H4|by apply Forall_singleton].
  - rewrite map_app, concat_app. simpl. rewrite (unpack_packs _ _ Hpk). done.
Qed.

Lemma append_holds b ps p info last limit :
  batch_holds true b ps -> 0 < zlen p -> limit <= UDP_MAX_GSO_PAYLOAD -> (0 < used b)%nat ->
  messages b !! (used b - 1)%nat = Some last -> can_append last (zlen p) info limit = true ->
  batch_holds true (counted b (<[(used b - 1)%nat := append last p]> (messages b)) (used b) p) (ps ++ [(p, info)]).
Proof.
  intros Hb Hp Hl Hu Hlast Hc. pose proof Hb as [H1 H2 H3 H4 H5 H6].
  assert (take (used b) (messages b) = take (used b - 1) (messages b) ++ [last]) as Ht.
  { replace (used b) with (S (used b - 1))%nat at 1 by lia. by apply take_S_r. }
  assert (take (used b) (<[(used b - 1)%nat := append last p]> (messages b))
    = take (used b - 1) (messages b) ++ [append last p]) as Ht'.
  { replace (used b) with (S (used b - 1))%nat at 1 by lia.
    rewrite (take_S_r _ _ (append last p)) by (rewrite list_lookup_insert_eq; [done|lia]).
    by rewrite take_insert_ge by lia. }
  rewrite Ht in H2. apply Forall_app in H2 as [H2 Hpk]. rewrite Forall_singleton in Hpk.
  destruct Hpk as (qs & Hpk & Hlim). destruct (packs_append _ _ _ _ _ Hpk Hlim Hp Hl Hc) as (Hpk' & Hlim' & _ & Hto).
  apply counted_holds; rewrite ?Ht', ?Ht; [done|rewrite length_insert; lia| |done|].
  - apply Forall_app. split; [done|]. apply Forall_singleton. by exists (qs ++ [p]).
  - rewrite !map_app, !concat_app. simpl. rewrite (unpack_packs _ _ Hpk), (unpack_packs _ _ Hpk'). simpl.
    rewrite map_app, Hto, !app_nil_r, <- app_assoc. done.
Qed.

Lemma push_holds gso b ps p info limit :
  batch_holds gso b ps -> 0 < zlen p ->
  exists b', push p info gso limit b = Ok b' /\ batch_holds gso b' (ps ++ [(p, info)]).
Proof.
  intros Hb Hp. unfold push. destruct (fresh_holds gso b ps p info Hb Hp) as (ms & Hms & Hfresh). cbv zeta in Hms.
  rewrite Hms. clear Hms. cbn [mbind result_bind].
  destruct gso; cbn [andb]; [|by eexists]. case_bool_decide as Hu; [|by eexists].
  destruct (lookup_lt_is_Some_2 (messages b) (used b - 1)) as [last Hlast]; [pose proof (bh_used _ _ _ Hb); lia|].
  rewrite (index_Ok _ _ _ Hlast). cbn [mbind result_bind]. destruct (can_append _ _ _ _) eqn:Hc; [|by eexists].
  cbn [store_from]. rewrite bool_decide_true by (pose proof (bh_used _ _ _ Hb); lia). eexists. split; [done|].
  eapply append_holds; [done|done| |done|done|exact Hc]. lia.
Qed.

Fixpoint push_all (gso : bool) (limit : Z) (ps : list (bytes * SendInfo)) (b : SendPacketBatch)
    : result Empty_set SendPacketBatch :=
  match ps with
  | [] => Ok b
  | (p, info) :: ps' => b' ← push p info gso limit b; push_all gso limit ps' b'
  end.

Lemma clear_holds gso b : batch_holds gso (clear b) [].
Proof. split; simpl; try done; try lia; by apply Forall_nil_2. Qed.

Lemma push_all_holds gso limit ps b qs :
  batch_holds gso b qs -> Forall (fun x => 0 < zlen (fst x)) ps ->
  exists b', push_all gso limit ps b = Ok b' /\ batch_holds gso b' (qs ++ ps).
Proof.
  intros Hb Hp. revert b qs Hb. induction Hp as [|[p info] ps Hp _ IH]; intros b qs Hb; simpl.
  - exists b. by rewrite app_nil_r.
  - destruct (push_holds gso b qs p info limit Hb Hp) as (b1 & -> & Hb1). simpl.
    destruct (IH b1 _ Hb1) as (b' & Hb' & Hh). exists b'. split; [done|]. by rewrite <- app_assoc in Hh.
Qed.

(** ** What a send batch puts on the wire *)

Section wire.
Context (split : Z -> bytes -> list bytes) `{!GsoKernel split}.

Definition wire_datagrams (w : WireMessage) : list (bytes * SocketAddr) :=
  map (fun p => (p, w_to w))
    (match w_segment w with None => [w_data w] | Some n => split n (w_data w) end).

(** The datagrams a finished batch sent, before and after a fallback. *)
Definition on_wire (e : SendEnd) : list (bytes * SocketAddr) :=
  concat (map wire_datagrams (end_wire e)) ++ end_single e.

Lemma wire_unpack gso m :
  packed m -> (gso = false -> segments m = 1%nat) -> wire_datagrams (wire_message gso m) = unpack m.
Proof using All.
  intros (ps & Hpk & Hlim & Hmax) Hg. rewrite (unpack_packs _ _ Hpk). unfold wire_datagrams, wire_message.
  destruct Hpk as (full & tail & -> & Hd & Hf & Ht & Hs). simpl. f_equal. rewrite length_app in Hs. simpl in Hs.
  destruct (decide (1 < segments m)%nat) as [H1|H1].
  - destruct gso; [|lia]. rewrite bool_decide_true by done. simpl.
    destruct full as [|x full]; [simpl in *; lia|].
    rewrite Z.mod_small.
    + rewrite Hd, concat_snoc. by apply gso_split; [lia| |].
    + specialize (Hmax H1). rewrite Hd, concat_snoc, zlen_app in Hmax. simpl in Hmax. rewrite zlen_app in Hmax.
      inversion Hf as [|?? Hx ?]; subst. pose proof (zlen_nonneg (concat full)).
      unfold UDP_MAX_GSO_PAYLOAD in Hmax. lia.
  - rewrite bool_decide_false by done. rewrite andb_false_r. destruct full; [|simpl in *; lia].
    rewrite Hd. simpl. by rewrite app_nil_r.
Qed.
End wire.

Section fallback.
Context (send_to : nat -> bytes -> SocketAddr -> result Z Z).
Hypothesis send_to_returns : forall i p a, send_to i p a <> Panic.

Lemma send_chunks_prefix call ps dst sent call' r :
  send_chunks send_to call ps dst = (sent, call', r) ->
  r <> Panic /\ sent `prefix_of` map (fun p => (p, dst)) ps /\
  (r = Ok tt -> sent = map (fun p => (p, dst)) ps).
Proof using send_to_returns.
  revert call sent call' r. induction ps as [|p ps IH]; intros call sent call' r; simpl.
  - intros [= <- <- <-]. done.
  - destruct (send_to call p dst) as [n|e|] eqn:Hc; [|intros [= <- <- <-]..|by destruct (send_to_returns call p dst)].
    + case_bool_decide.
      * destruct (send_chunks _ _ _ _) as [[s c] r1] eqn:H1. intros [= <- <- <-].
        destruct (IH _ _ _ _ H1) as (Hp & Hpre & Hok). split_and!; [done|by apply prefix_cons|].
        intros Hr. by rewrite (Hok Hr).
      * intros [= <- <- <-]. split_and!; [done|apply prefix_nil|done].
    + split_and!; [done|apply prefix_nil|done].
Qed.

Lemma send_individually_prefix call ms sent call' r :
  Forall packed ms -> send_individually send_to call ms = (sent, call', r) ->
  r <> Panic /\ sent `prefix_of` concat (map unpack ms) /\ (r = Ok tt -> sent = concat (map unpack ms)).
Proof using send_to_returns.
  intros Hms. revert call sent call' r. induction Hms as [|m ms (ps & Hpk & _) _ IH]; intros call sent call' r; simpl.
  - intros [= <- <- <-]. done.
  - destruct (packs_chunks _ _ Hpk) as [Hpos Hch].
    rewrite bool_decide_false by lia. destruct (send_chunks _ _ _ _) as [[s c] r1] eqn:H1.
    destruct (send_chunks_prefix _ _ _ _ _ _ H1) as (Hp & Hpre & Hok). fold (unpack m) in Hpre, Hok.
    destruct r1 as [[]|e|]; [|intros [= <- <- <-]|done].
    + destruct (send_individually _ _ _) as [[s2 c2] r2] eqn:H2. intros [= <- <- <-].
      destruct (IH _ _ _ _ H2) as (Hp2 & Hpre2 & Hok2). rewrite (Hok eq_refl). split_and!; [done| |].
      * by apply prefix_app.
      * intros Hr. by rewrite (Hok2 Hr).
    + split_and!; [done|by apply prefix_app_r|done].
Qed.
End fallback.

Section send_exact.
Context (sendmmsg : nat -> list WireMessage -> result Z nat) (send_to : nat -> bytes -> SocketAddr -> result Z Z).
Context (split : Z -> bytes -> list bytes) `{!GsoKernel split}.
(** A system call returns a count or an error. *)
Hypothesis sendmmsg_returns : forall i ms, sendmmsg i ms <> Panic.
Hypothesis send_to_returns : forall i p a, send_to i p a <> Panic.

Definition finished (gso : bool) (sent : list (bytes * SocketAddr)) (e : SendEnd) : Prop :=
  end_result e <> Panic /\ on_wire split e `prefix_of` sent /\
  (end_result e = Ok tt -> on_wire split e = sent) /\
  (end_gso e = gso \/ (gso = true /\ end_gso e = false)) /\
  (end_gso e = gso -> end_single e = []).

Definition send_inv (gso : bool) (ms : list SendMessage) (s : SendState) : Prop :=
  (st_sent s <= length ms)%nat /\ st_gso s = gso /\
  concat (map (wire_datagrams split) (st_wire s)) = concat (map unpack (take (st_sent s) ms)).

Lemma wire_unpack_all gso ms :
  Forall packed ms -> (gso = false -> Forall (fun m => segments m = 1%nat) ms) ->
  map (wire_datagrams split) (map (wire_message gso) ms) = map unpack ms.
Proof using GsoKernel0.
  intros Hp Hg. rewrite map_map. apply map_ext_in. intros m Hm%list_elem_of_In.
  apply (wire_unpack split); [by apply (proj1 (Forall_forall _ _) Hp)|].
  intros ->. by apply (proj1 (Forall_forall _ _) (Hg eq_refl)).
Qed.

(** The part of the batch a prefix of the messages accounts for. *)
Lemma unpack_prefix n (ms : list SendMessage) : concat (map unpack (take n ms)) `prefix_of` concat (map unpack ms).
Proof.
  rewrite <- (take_drop n ms) at 2. rewrite map_app, concat_app. by apply prefix_app_r.
Qed.

Lemma finish_holds gso ms s r :
  send_inv gso ms s -> r <> Panic -> (r = Ok tt -> st_sent s = length ms) ->
  finished gso (concat (map unpack ms))
    {| end_gso := st_gso s; end_wire := st_wire s; end_single := []; end_result := r |}.
Proof.
  intros (Hle & Hg & Hw) Hr Hok. unfold finished, on_wire. simpl. rewrite Hw, app_nil_r.
  split_and!; [done|apply unpack_prefix| |by left|done].
  intros H. rewrite (Hok H). by rewrite take_ge.
Qed.

Lemma send_iter_holds gso ms s :
  Forall packed ms -> (gso = false -> Forall (fun m => segments m = 1%nat) ms) -> send_inv gso ms s ->
  post (send_iter sendmmsg send_to ms s) (fun r => match r with
    | inl s' => send_inv gso ms s' /\ (length ms - st_sent s' < length ms - st_sent s)%nat
    | inr e => finished gso (concat (map unpack ms)) e end).
Proof using All.
  intros Hp Hgs Hs. pose proof Hs as (Hle & Hg & Hw). unfold send_iter.
  case_bool_decide as Hlt; [|apply finish_holds; [done|done|lia]].
  unfold slice_from, slice. rewrite bool_decide_true by lia. cbn [mbind result_bind].
  rewrite (take_ge (drop _ _)) by (rewrite length_drop; lia). set (rest := drop (st_sent s) ms).
  unfold send_mmsg. set (k := (take MAX_BATCH_PACKETS rest)).
  destruct (sendmmsg _ _) as [n|e|] eqn:Hc; cbn [mbind result_bind]; [| |by destruct (sendmmsg_returns _ _ Hc)].
  - rewrite length_map. destruct (n `min` length k)%nat as [|c] eqn:Hn; [by apply finish_holds|]. simpl.
    assert (S c <= length k)%nat as Hc' by lia.
    assert (length k <= length rest)%nat as Hk by (unfold k; rewrite length_take; lia).
    assert (length rest = length ms - st_sent s)%nat as Hr by (unfold rest; by rewrite length_drop).
    split; [|lia]. split_and!; simpl; [lia|done|].
    change (map ?f k) with (map f k). rewrite map_app, concat_app, Hw, <- take_take_drop, map_app, concat_app. f_equal.
    fold rest. rewrite Hg, <- firstn_map.
    rewrite (wire_unpack_all gso); [|by apply Forall_take, Forall_drop|intros Hf; by apply Forall_take, Forall_drop, Hgs].
    rewrite firstn_map. f_equal. f_equal. unfold k. by rewrite take_take, min_l by (unfold k in *; rewrite length_take in *; lia).
  - destruct (st_gso s && is_udp_gso_error e) eqn:Hfb; [|by apply finish_holds].
    destruct (send_individually _ _ _) as [[sent c] r] eqn:Hi.
    apply (send_individually_prefix _ send_to_returns) in Hi as (Hr & Hpre & Hok); [|by apply Forall_drop].
    apply andb_true_iff in Hfb as [Hgt _]. unfold finished, on_wire. simpl. rewrite Hw.
    assert (concat (map unpack ms) = concat (map unpack (take (st_sent s) ms)) ++ concat (map unpack rest)) as Hsplit
      by (unfold rest; by rewrite <- concat_app, <- map_app, take_drop).
    rewrite Hsplit. split_and!; [done|by apply prefix_app|intros Hro; by rewrite (Hok Hro)|right; by rewrite <- Hg|].
    rewrite <- Hg, Hgt. done.
Qed.

Lemma send_loop_holds gso ms :
  Forall packed ms -> (gso = false -> Forall (fun m => segments m = 1%nat) ms) ->
  post (while (fun s => length ms - st_sent s)%nat (send_iter sendmmsg send_to ms)
         {| st_sent := 0; st_call := 0; st_gso := gso; st_wire := [] |})
    (finished gso (concat (map unpack ms))).
Proof using All.
  intros Hp Hg. apply (post_while_inv _ _ (send_inv gso ms)).
  - intros s Hs. by apply send_iter_holds.
  - split_and!; simpl; [lia|done|done].
Qed.

(** A socket that takes at least one message per call takes them all. *)
Definition accepting : Prop := forall i ms, ms <> [] -> exists n, sendmmsg i ms = Ok (S n).

Lemma send_iter_accepting ms s :
  accepting -> post (send_iter sendmmsg send_to ms s) (fun r => match r with
    | inl s' => True /\ (length ms - st_sent s' < length ms - st_sent s)%nat
    | inr e => end_result e = Ok tt end).
Proof.
  intros Ha. unfold send_iter. case_bool_decide as Hlt; [|done].
  unfold slice_from, slice. rewrite bool_decide_true by lia. cbn [mbind result_bind].
  rewrite (take_ge (drop _ _)) by (rewrite length_drop; lia).
  destruct (drop (st_sent s) ms) as [|m rest] eqn:Hd; [apply (f_equal length) in Hd; rewrite length_drop in Hd; simpl in Hd; lia|].
  unfold send_mmsg. destruct (Ha (st_call s) (map (wire_message (st_gso s)) (take MAX_BATCH_PACKETS (m :: rest)))) as [n Hn].
  { unfold MAX_BATCH_PACKETS. done. }
  rewrite Hn. unfold MAX_BATCH_PACKETS. cbn [mbind result_bind map length Nat.min take]. simpl. split; [done|lia].
Qed.

Lemma send_batch_holds gso0 gso b ps :
  batch_holds gso0 b ps -> (gso0 = true -> gso = true) ->
  exists e, send_batch sendmmsg send_to gso b = Ok e /\ finished gso (pushed ps) e /\
    (accepting -> end_result e = Ok tt).
Proof using All.
  intros [H1 H2 H3 H4 _ _] Hg. unfold send_batch, active, slice. rewrite bool_decide_true by lia.
  cbn [mbind result_bind]. rewrite drop_0, Nat.sub_0_r. set (ms := take (used b) (messages b)) in *.
  assert (gso = false -> Forall (fun m => segments m = 1%nat) ms) as Hs
    by (intros ->; apply H4; destruct gso0; [by discriminate Hg|done]).
  pose proof (send_loop_holds gso ms H2 Hs) as Hl.
  destruct (while _ _ _) as [e|[]|] eqn:Hw; [|done]. exists e. rewrite <- H3. split_and!; [done|done|].
  intros Ha. eapply (post_Ok _ (fun e => end_result e = Ok tt)); [|exact Hw].
  apply (post_while_inv _ _ (fun _ => True)); [|done]. intros s _. by apply send_iter_accepting.
Qed.
End send_exact.

(** C25: Packets pushed into a cleared batch leave the socket unchanged: the
    batch sends a prefix of them, each as one datagram to its own address and
    in order, with or without segmentation offload and also when offload fails
    in the middle and the rest is sent one by one; it reports success only when
    all were sent, and succeeds on a socket that keeps accepting messages. *)
Theorem quic_send_exact sendmmsg send_to split `{!GsoKernel split} b0 gso0 gso limit ps :
  (forall i ms, sendmmsg i ms <> Panic) -> (forall i p a, send_to i p a <> Panic) ->
  Forall (fun x => 0 < zlen (fst x)) ps -> (gso0 = true -> gso = true) ->
  exists b e, push_all gso0 limit ps (clear b0) = Ok b /\
    packet_count b = zlen ps /\ byte_count b = zlen (concat (map fst ps)) /\
    send_batch sendmmsg send_to gso b = Ok e /\ finished split gso (pushed ps) e /\
    (accepting sendmmsg -> end_result e = Ok tt).
Proof.
  intros Hm Hs Hp Hg. destruct (push_all_holds gso0 limit ps (clear b0) [] (clear_holds gso0 b0) Hp) as (b & Hb & Hh).
  destruct (send_batch_holds sendmmsg send_to split Hm Hs gso0 gso b ps Hh Hg) as (e & He & Hf & Ha).
  exists b, e. split_and!; try done; [by apply Hh|by apply Hh].
Qed.

(** A kernel that takes one message, then fails with EIO. *)
Definition flaky_mmsg (call : nat) (ms : list WireMessage) : result Z nat :=
  match call with O => Ok 1%nat | _ => Err 5 end.
Definition whole_send_to (call : nat) (p : bytes) (a : SocketAddr) : result Z Z := Ok (zlen p).
Definition sample_packets : list (bytes * SendInfo) :=
  let here := SockV4 1 443 in
  let info port := {| info_from := here; info_to := SockV4 2 port; info_at := 0 |} in
  [(replicate 30 1, info 5000); (replicate 30 2, info 5000); (replicate 7 3, info 5000); (replicate 9 4, info 6000)].

Lemma quic_send_exact_witness :
  exists b e, push_all true 65000 sample_packets (clear batch_new) = Ok b /\
    packet_count b = 4 /\ send_batch flaky_mmsg whole_send_to true b = Ok e /\
    on_wire sample_split e `prefix_of` pushed sample_packets.
Proof.
  destruct (quic_send_exact flaky_mmsg whole_send_to sample_split batch_new true true 65000 sample_packets)
    as (b & e & Hb & Hc & _ & He & Hf & _).
  - intros [|i] ms; discriminate.
  - discriminate.
  - repeat constructor.
  - done.
  - exists b, e. split_and!; [exact Hb|rewrite Hc; reflexivity|exact He|apply Hf].
Defined.

(** ** Coalesced datagrams are split where the sender put the boundaries *)

(** The control message of a receive that coalesced datagrams of [n] bytes. *)
Definition gro_control (r : Received) (n : Z) : Prop :=
  rx_control r = Some {| cmsg_level := IPPROTO_UDP; cmsg_type := UDP_GRO; cmsg_len := CMSG_LEN_U16; cmsg_data := n |} /\
  CMSG_LEN_U16 <= rx_control_len r.

(** A receive of [full ++ [tail]] from [peer]: the datagrams one after another
    at the front of the buffer; without a control message it is one datagram. *)
Definition delivers (r : Received) (ds : list (bytes * SocketAddr)) : Prop :=
  (rx_trunc r = true /\ ds = []) \/
  exists peer full tail junk n,
    rx_trunc r = false /\ rx_from r = Some peer /\ rx_buffer r = (concat full ++ tail) ++ junk /\
    rx_len r = zlen (concat full ++ tail) /\ Forall (fun p => zlen p = n) full /\
    0 < zlen tail <= n /\ n <= MAX_DATAGRAM_SIZE /\
    (gro_control r n \/ (full = [] /\ rx_control r = None)) /\
    ds = map (fun p => (p, peer)) (full ++ [tail]).

Lemma gro_control_size r n : gro_control r n -> gro_segment_size (rx_control r) (rx_control_len r) = Some n.
Proof.
  intros [-> Hl]. unfold gro_segment_size. cbn [cmsg_level cmsg_type cmsg_len cmsg_data].
  rewrite (bool_decide_false (rx_control_len r < _)), (bool_decide_false (CMSG_LEN_U16 > _)) by lia. done.
Qed.

Lemma fill_slot_packets slot r ds : delivers r ds -> slot_packets (fill_slot slot r) = Ok ds.
Proof.
  intros [[Ht ->]|(peer & full & tail & junk & n & Ht & Hf & Hb & Hl & Hfull & Htail & Hn & Hctl & ->)];
    unfold fill_slot; rewrite Ht; [done|].
  unfold slot_packets. cbn [slot_from slot_len slot_segment buffer]. rewrite Hf.
  assert (Z.min (rx_len r) (zlen (rx_buffer r)) = zlen (concat full ++ tail)) as Hlen
    by (rewrite Hl, Hb, (zlen_app (concat full ++ tail) junk); pose proof (zlen_nonneg junk); lia).
  rewrite Hlen. pose proof (zlen_app (concat full) tail) as Hct. pose proof (zlen_nonneg (concat full)).
  rewrite bool_decide_false by lia.
  assert (slice (E:=unit) (rx_buffer r) 0 (Z.to_nat (zlen (concat full ++ tail))) = Ok (concat full ++ tail)) as Hsl.
  { unfold slice, zlen. rewrite Nat2Z.id, Hb, bool_decide_true by (rewrite ?length_app; lia).
    by rewrite drop_0, Nat.sub_0_r, take_app_length. }
  rewrite Hsl. cbn [mbind result_bind].
  assert (forall size, 0 < size -> Forall (fun p => zlen p = size) full -> zlen tail <= size ->
    (if bool_decide (size = 0) then Panic else
       Ok (map (fun p => (p, peer)) (chunks (Z.to_nat size) (concat full ++ tail))))
    = Ok (E:=unit) (map (fun p => (p, peer)) (full ++ [tail]))) as Hsplit.
  { intros size Hs Hfs Hts. rewrite bool_decide_false by lia. do 2 f_equal.
    apply chunks_concat; [lia| |unfold zlen in *; lia]. eapply Forall_impl; [exact Hfs|]. unfold zlen. simpl. intros; lia. }
  destruct Hctl as [Hg|[-> Hnone]].
  - rewrite (gro_control_size r n Hg), (bool_decide_true (n > 0)), (bool_decide_true (1 <= n <= _)) by lia.
    destruct full as [|x full].
    + apply Hsplit; [simpl in *; lia|done|simpl in *; lia].
    + inversion Hfull; subst. rewrite Z.min_l by (simpl; rewrite !zlen_app; pose proof (zlen_nonneg (concat full)); lia).
      apply Hsplit; [lia|done|lia].
  - rewrite Hnone. simpl in *. rewrite Z.min_id. destruct (bool_decide (1 <= _ <= _)); apply Hsplit; try done; lia.
Qed.

Lemma fill_slots_packets slots rs dss :
  (length rs <= length slots)%nat -> Forall2 delivers rs dss ->
  for_each_packet_mut (fill_slots slots rs) (length rs) = Ok (concat dss).
Proof.
  intros Hl H. revert slots Hl. induction H as [|r ds rs dss Hr _ IH]; intros slots Hl; [done|].
  destruct slots as [|slot slots]; simpl in *; [lia|]. unfold for_each_packet_mut in *. cbn [take for_each_packet].
  rewrite (fill_slot_packets slot r ds Hr). cbn [mbind result_bind]. rewrite IH by lia. done.
Qed.

(** One receive call hands the server every datagram the kernel
    delivered, once, in order and with its sender: coalesced datagrams are cut
    at the size of the control message, a truncated receive yields nothing. *)
Theorem quic_recv_exact recvmmsg slots rs dss :
  recvmmsg (map buffer (take (length slots `min` MAX_BATCH_PACKETS) slots)) = Ok rs ->
  (length rs <= length slots `min` MAX_BATCH_PACKETS)%nat -> Forall2 delivers rs dss ->
  exists slots', recv_mmsg recvmmsg slots = Ok (slots', length rs) /\ length slots' = length slots /\
    for_each_packet_mut slots' (length rs) = Ok (concat dss).
Proof.
  intros Hr Hl Hd. unfold recv_mmsg. rewrite Hr. cbn [mbind result_bind].
  rewrite (Nat.min_l (length rs)) by done. rewrite (take_ge rs) by done. eexists. split; [done|]. split.
  - set (cleared := _ ++ _). transitivity (length cleared).
    + clear. revert rs. induction cleared; intros [|r rs]; simpl; [done..|]. by rewrite IHcleared.
    + unfold cleared. rewrite length_app, length_map, length_take, length_drop. lia.
  - apply fill_slots_packets; [|done]. rewrite length_app, length_map, length_take, length_drop. lia.
Qed.

(** A call that returns two coalesced datagrams of one peer and a truncated one. *)
Definition sample_received : list Received :=
  [{| rx_buffer := [1; 2; 3; 4; 5; 0; 0; 0]; rx_len := 5; rx_trunc := false; rx_from := Some (SockV4 9 9);
      rx_control := Some {| cmsg_level := 17; cmsg_type := 104; cmsg_len := 18; cmsg_data := 3 |};
      rx_control_len := 24 |};
   {| rx_buffer := [1; 2; 3]; rx_len := 9; rx_trunc := true; rx_from := Some (SockV4 9 9);
      rx_control := None; rx_control_len := 0 |}].

Lemma quic_recv_exact_witness :
  exists slots', recv_mmsg (fun _ => Ok sample_received) (recv_batch_new 2) = Ok (slots', 2%nat) /\
    for_each_packet_mut slots' 2 = Ok [([1; 2; 3], SockV4 9 9); ([4; 5], SockV4 9 9)].
Proof.
  destruct (quic_recv_exact (fun _ => Ok sample_received) (recv_batch_new 2) sample_received
    [[([1; 2; 3], SockV4 9 9); ([4; 5], SockV4 9 9)]; []]) as (slots' & H1 & _ & H2).
  - reflexivity.
  - unfold recv_batch_new. rewrite length_replicate. vm_compute. lia.
  - constructor; [|constructor; [by left|constructor]]. right.
    exists (SockV4 9 9), [[1; 2; 3]], [4; 5], [0; 0; 0], 3. split_and!; try reflexivity; try done.
    + repeat constructor.
    + left. split; [reflexivity|]. vm_compute. discriminate.
  - by exists slots'.
Defined.

(** ** Socket addresses survive the C layout *)

Lemma swap16_involutive v : 0 <= v < 2 ^ 16 -> swap16 (swap16 v) = v.
Proof.
  intros Hv. unfold swap16. pose proof (Z.mod_pos_bound v 256). pose proof (Z.div_mod v 256).
  assert (0 <= v / 256 < 256) by (split; [apply Z.div_pos|apply Z.div_lt_upper_bound]; lia).
  rewrite Z.div_add_l, (Z.div_small (v / 256)) by lia.
  rewrite (Z.add_comm (v mod 256 * 256) (v / 256)), Z.mod_add, (Z.mod_small (v / 256)) by lia. lia.
Qed.

Lemma ne_bytes_round little l : length l = 4%nat -> bytes_ok l -> to_ne_bytes little (from_ne_bytes little l) = l.
Proof.
  intros Hl Hok. unfold to_ne_bytes, from_ne_bytes. destruct little.
  - rewrite <- Hl, <- length_rev, be_bytes_be_val; [apply rev_involutive|]. by apply Forall_rev.
  - by rewrite <- Hl, be_bytes_be_val.
Qed.

(** A socket address written into the C structure of its family and
    read back is the same address, IPv4 or IPv6 with flow and scope, on a host
    of either byte order; a structure shorter than its family needs is refused. *)
Theorem sockaddr_round_trip little a n :
  socket_ok a -> let '(raw, len) := socket_addr_to_raw little a in
  raw_to_socket_addr little raw n = if bool_decide (len <= n) then Some a else None.
Proof.
  intros (Hip & Hport & Hrest). destruct a as [ip port|ip port flow scope]; cbn [sock_ip sock_port ipaddr_ok] in *;
    unfold port_ok in *; cbn [socket_addr_to_raw raw_to_socket_addr]; case_bool_decide; try done; do 2 f_equal.
  - rewrite (ne_bytes_round little (be_bytes 4 ip) (length_be_bytes 4 ip) (be_bytes_ok 4 ip)).
    rewrite be_val_be_bytes. by apply Z.mod_small.
  - unfold from_be16, to_be16. destruct little; [by apply swap16_involutive|done].
  - rewrite be_val_be_bytes. by apply Z.mod_small.
  - unfold from_be16, to_be16. destruct little; [by apply swap16_involutive|done].
Qed.

Lemma sockaddr_round_trip_witness :
  raw_to_socket_addr true (RawInet 47873 33554559) 16 = Some (SockV4 2130706434 443) /\
  raw_to_socket_addr true (RawInet 47873 33554559) 15 = None.
Proof.
  split; [apply (sockaddr_round_trip true (SockV4 2130706434 443) 16)|
          apply (sockaddr_round_trip true (SockV4 2130706434 443) 15)];
    vm_compute; repeat split; discriminate.
Defined.
