(* ===== verification/Validation.v ===== *)
(** * Startup validation

    Models [validate_server_config] of [src/server/validation.rs], the one path by
    which a configuration is accepted, with [build_quic_config] of
    [src/server/mod.rs] and [build_acceptor] of [src/server/http2.rs].  The
    planning of the listeners is in [Listener.v].  Text parsers, password hashes,
    BoringSSL and quiche's configuration are parameters. *)

From stdpp Require Import strings.
From S2P Require Import Prelude Net Policy AddressPool ClientIdentity Listener Retry Uri ConnectIp Auth.
From S2P Require Import QuicBatch Config Tls.
Open Scope Z_scope.

Definition MAX_PENDING_AUTH_GLOBAL : Z := 256.
Definition MAX_CONFIGURED_CONNECTIONS : Z := 1000000.
Definition MAX_CONFIGURED_CONNECTIONS_PER_IP : Z := 65536.
Definition MAX_TUNNELS_PER_CONNECTION : Z := 4096.
Definition MAX_QUIC_STREAMS_BIDI : Z := 4096.
Definition MAX_QUIC_DATAGRAM_QUEUE_LEN : Z := 4096.
Definition MAX_QUIC_CONNECTION_WINDOW : Z := 1024 * MiB.
Definition MAX_QUIC_STREAM_WINDOW : Z := 256 * MiB.
Definition MAX_HTTP2_CONCURRENT_STREAMS : Z := 4096.
Definition MAX_HTTP2_STREAM_WINDOW : Z := 16 * MiB.
Definition MAX_HTTP2_CONNECTION_WINDOW : Z := 64 * MiB.
Definition MAX_HTTP2_HEADER_LIST_SIZE : Z := MiB.
Definition MAX_HTTP2_SEND_BUFFER_SIZE : Z := 16 * MiB.
Definition MAX_HTTP2_DATA_FRAME_BUDGET : Z := 16 * MiB.
Definition MAX_TARGET_CONNECT_TIMEOUT_SECS : Z := 300.
(** [quiche::MIN_CLIENT_INITIAL_LEN]. *)
Definition MIN_DATAGRAM_SIZE : Z := 1200.
Definition ACTIVE_CONNECTION_ID_LIMIT : Z := 2.
Definition PATH_CHALLENGE_RECV_QUEUE_LEN : Z := 3.

Inductive ConfigError :=
| PlanRejected (e : PlanError)
| PolicyRejected (section : string) (e : PolicyError)
| FieldRange (field : string) (value : Z)
| WindowBelowInitial (field : string) (window initial : Z)
| NotLoopback (a : SocketAddr)
| RosterRejected (e : RosterError)
| NoClients
| BasicRejected (a : SocketAddr) (e : AuthError)
| OverrideTransport (a : SocketAddr)
| OverrideRange (a : SocketAddr) (value : Z)
| TemplateRejected (e : UriError)
| PoolRejected (e : PoolError)
| ReservationRejected (a : IpAddr) (e : PoolError)
| TlsRejected (e : TlsError)
| TlsContext | QuicheConfigError | ApplicationProtos | IdleTimeoutTooLarge (secs : Z) | UnknownCc (name : string)
| H3ConfigError.

(** [if !(lo..=hi).contains(&value) { bail!(..) }]. *)
Definition contained (field : string) (lo hi value : Z) : result ConfigError unit :=
  if bool_decide (lo <= value <= hi) then Ok tt else Err (FieldRange field value).

Definition any_client_cert_listener (c : ServerConfig) : bool :=
  existsb (fun l => client_cert_enabled (auth l)) (listeners c).

(** The checks of single fields, in the order of the source. *)
Definition check_server_limits (c : ServerConfig) : result ConfigError unit :=
  _ ← contained "server.max_connections" 1 MAX_CONFIGURED_CONNECTIONS (max_connections (server c));
  _ ← contained "server.max_connections_per_ip" 1 MAX_CONFIGURED_CONNECTIONS_PER_IP
        (max_connections_per_ip (server c));
  _ ← contained "server.max_pending_auth_per_ip" 1 MAX_PENDING_AUTH_GLOBAL (max_pending_auth_per_ip (server c));
  _ ← contained "server.max_tunnels_per_connection" 1 MAX_TUNNELS_PER_CONNECTION
        (max_tunnels_per_connection (server c));
  _ ← contained "tcp_proxy.connect_timeout_secs" 1 MAX_TARGET_CONNECT_TIMEOUT_SECS
        (tcp_connect_timeout_secs (tcp_proxy c));
  _ ← contained "udp_proxy.connect_timeout_secs" 1 MAX_TARGET_CONNECT_TIMEOUT_SECS
        (udp_connect_timeout_secs (udp_proxy c));
  _ ← (if bool_decide (retry_connection_threshold (quic_ c) = 0)
       then Err (FieldRange "quic.retry_connection_threshold" 0) else Ok tt);
  _ ← contained "quic.retry_token_ttl_secs" 1 300 (retry_token_ttl_secs (quic_ c));
  match obs_listen_addr (observability c) with
  | Some addr => if is_loopback_listener (sock_ip addr) then Ok tt else Err (NotLoopback addr)
  | None => Ok tt
  end.

Definition check_quic_limits (q : QuicSection) : result ConfigError unit :=
  _ ← (if bool_decide (max_connection_window q < initial_max_data q)
       then Err (WindowBelowInitial "quic.max_connection_window" (max_connection_window q) (initial_max_data q))
       else Ok tt);
  _ ← (if bool_decide (max_stream_window q < initial_max_stream_data q)
       then Err (WindowBelowInitial "quic.max_stream_window" (max_stream_window q) (initial_max_stream_data q))
       else Ok tt);
  _ ← (if bool_decide (max_connection_window q > MAX_QUIC_CONNECTION_WINDOW)
       then Err (FieldRange "quic.max_connection_window" (max_connection_window q)) else Ok tt);
  _ ← (if bool_decide (max_stream_window q > MAX_QUIC_STREAM_WINDOW)
       then Err (FieldRange "quic.max_stream_window" (max_stream_window q)) else Ok tt);
  _ ← contained "quic.initial_max_streams_bidi" 1 MAX_QUIC_STREAMS_BIDI (initial_max_streams_bidi q);
  _ ← contained "quic.dgram_recv_queue_len" 1 MAX_QUIC_DATAGRAM_QUEUE_LEN (dgram_recv_queue_len q);
  _ ← contained "quic.dgram_send_queue_len" 1 MAX_QUIC_DATAGRAM_QUEUE_LEN (dgram_send_queue_len q);
  contained "quic.max_datagram_size" MIN_DATAGRAM_SIZE MAX_DATAGRAM_SIZE (q_max_datagram_size q).

Definition check_buffers (q : QuicSection) : result ConfigError unit :=
  _ ← (if bool_decide (udp_recv_buffer_size q > 16 * MiB)
       then Err (FieldRange "quic.udp_recv_buffer_size" (udp_recv_buffer_size q)) else Ok tt);
  if bool_decide (udp_send_buffer_size q > 16 * MiB)
  then Err (FieldRange "quic.udp_send_buffer_size" (udp_send_buffer_size q)) else Ok tt.

Definition check_http2_limits (h : Http2Section) : result ConfigError unit :=
  _ ← contained "http2.initial_stream_window" 1 MAX_HTTP2_STREAM_WINDOW (initial_stream_window h);
  _ ← contained "http2.initial_connection_window" 1 MAX_HTTP2_CONNECTION_WINDOW (initial_connection_window h);
  _ ← contained "http2.max_concurrent_streams" 1 MAX_HTTP2_CONCURRENT_STREAMS (max_concurrent_streams h);
  _ ← contained "http2.max_header_list_size" 1 MAX_HTTP2_HEADER_LIST_SIZE (max_header_list_size h);
  _ ← contained "http2.max_send_buffer_size" 1 MAX_HTTP2_SEND_BUFFER_SIZE (max_send_buffer_size h);
  _ ← contained "http2.data_frame_budget" 1 MAX_HTTP2_DATA_FRAME_BUDGET (data_frame_budget h);
  contained "http2.max_datagram_size" 1 65527 (h2_max_datagram_size h).

Definition check_ip_proxy (ip : IpProxySection) : result ConfigError unit :=
  _ ← (if ip_enabled ip && negb (bool_decide (1 <= tun_mtu ip <= 65535))
       then Err (FieldRange "ip_proxy.tun_mtu" (tun_mtu ip)) else Ok tt);
  if ip_enabled ip && existsb (fun p => bool_decide (p = "connect-ip"%string)) (connect_protocols ip)
  then map_err TemplateRejected (validate_ip_template (str (ip_uri_template ip))) else Ok tt.

Section validation.
  Context {N4 N6 Key : Type} `{!NetOps N4, !NetOps N6, !NetNew N4, !Boring}.
  Context (parse_net : string -> option (IpNet N4 N6)) (parse_v4 : string -> option N4)
    (parse_v6 : string -> option N6).
  Context (linux : bool) (cores : option Z).
  Context (parse_public_key : bytes -> option bytes).
  (** [generate l i]: the cache key drawn for entry [i] of listener [l]. *)
  Context (phc_algorithm : bytes -> option bytes) (generate : nat -> nat -> option Key).
  Context (accepts : Ssl -> SslCall -> bool) (read_cert read_key : string -> option bytes).
  (** quiche's fallible setters, and [SslAcceptor::mozilla_intermediate_v5]. *)
  Context (quiche_ok protos_ok acceptor_ok h3_ok : bool) (cc_known : string -> bool).

Definition check_policies (c : ServerConfig) : result ConfigError unit :=
  _ ← map_err (PolicyRejected "tcp_proxy")
        (policy_new parse_net (tcp_allow_targets (tcp_proxy c)) (tcp_deny_targets (tcp_proxy c)));
  _ ← map_err (PolicyRejected "udp_proxy")
        (policy_new parse_net (udp_allow_targets (udp_proxy c)) (udp_deny_targets (udp_proxy c)));
  _ ← map_err (PolicyRejected "ip_proxy")
        (policy_new parse_net (ip_allow_targets (ip_proxy c)) (ip_deny_targets (ip_proxy c)));
  Ok tt.

Definition active_client_registry (c : ServerConfig) (any_client_cert : bool)
    : result ConfigError ClientRegistry :=
  if negb any_client_cert then Ok {| by_spki := ∅ |} else
  clients ← map_err RosterRejected (from_config parse_public_key (clients c));
  if is_empty clients then Err NoClients else Ok clients.

(** Every Basic listener's credentials. *)
Fixpoint check_credentials (index : nat) (plans : list (ResolvedListener N4 N6)) : result ConfigError unit :=
  match plans with
  | [] => Ok tt
  | plan :: plans' =>
      _ ← (if basic_enabled (r_auth plan)
           then a ← map_err (BasicRejected (r_listen_addr plan))
                      (auth_from_section phc_algorithm (generate index) (r_auth plan));
                Ok tt
           else Ok tt);
      check_credentials (S index) plans'
  end.

Fixpoint check_overrides (plans : list (ResolvedListener N4 N6)) : result ConfigError unit :=
  match plans with
  | [] => Ok tt
  | plan :: plans' =>
      _ ← match r_max_datagram_size plan with
          | None => Ok tt
          | Some size =>
              if negb (bool_decide (r_transport plan = Http3)) then Err (OverrideTransport (r_listen_addr plan))
              else if negb (bool_decide (MIN_DATAGRAM_SIZE <= size <= MAX_DATAGRAM_SIZE))
              then Err (OverrideRange (r_listen_addr plan) size) else Ok tt
          end;
      check_overrides plans'
  end.

Fixpoint reserve_all (p : AddressPool N4 N6) (reservations : list (IpAddr * bytes))
    : result ConfigError (AddressPool N4 N6) :=
  match reservations with
  | [] => Ok p
  | (addr, owner) :: rest =>
      match reserve_static p addr owner with
      | (p, Ok _) => reserve_all p rest
      | (_, Err e) => Err (ReservationRejected addr e)
      | (_, Panic) => Panic
      end
  end.

(** What a listener's shards configure quiche with. *)
Record QuicheConfig := {
  c_early_data : bool;
  c_identity : SharedTlsIdentity;
  c_client_certs : option SharedRoster;
  c_max_idle_timeout : Z;
  c_max_recv_udp_payload_size : Z;
  c_max_send_udp_payload_size : Z;
  c_initial_max_data : Z;
  c_initial_max_stream_data_bidi_local : Z;
  c_initial_max_stream_data_bidi_remote : Z;
  c_initial_max_stream_data_uni : Z;
  c_initial_max_streams_bidi : Z;
  c_initial_max_streams_uni : Z;
  c_max_connection_window : Z;
  c_max_stream_window : Z;
  c_disable_active_migration : bool;
  c_active_connection_id_limit : Z;
  c_disable_dcid_reuse : bool;
  c_path_challenge_recv_max_queue_len : Z;
  c_pacing : bool;
  c_discover_pmtu : bool;
  c_cc_algorithm : string;
  c_initial_congestion_window_packets : Z;
  c_dgram : option (Z * Z);
}.

(** [u64::checked_mul]. *)
Definition checked_mul (a b : Z) : option Z := if bool_decide (a * b < 2 ^ 64) then Some (a * b) else None.

Definition build_quic_config (c : ServerConfig) (max_datagram_size : Z) (client_certs : option SharedRoster)
    (tls_identity : SharedTlsIdentity) : result ConfigError QuicheConfig :=
  if negb context_ok then Err TlsContext
  else if negb quiche_ok then Err QuicheConfigError
  else if negb protos_ok then Err ApplicationProtos else
  idle_timeout_ms ← ok_or (IdleTimeoutTooLarge (idle_timeout_secs (server c)))
    (checked_mul (idle_timeout_secs (server c)) 1000);
  let q := quic_ c in
  if negb (cc_known (cc_algorithm q)) then Err (UnknownCc (cc_algorithm q)) else
  Ok {| c_early_data := false; c_identity := tls_identity; c_client_certs := client_certs;
        c_max_idle_timeout := idle_timeout_ms;
        c_max_recv_udp_payload_size := max_datagram_size; c_max_send_udp_payload_size := max_datagram_size;
        c_initial_max_data := initial_max_data q;
        c_initial_max_stream_data_bidi_local := initial_max_stream_data q;
        c_initial_max_stream_data_bidi_remote := initial_max_stream_data q;
        c_initial_max_stream_data_uni := initial_max_stream_data q;
        c_initial_max_streams_bidi := initial_max_streams_bidi q; c_initial_max_streams_uni := 100;
        c_max_connection_window := max_connection_window q; c_max_stream_window := max_stream_window q;
        c_disable_active_migration := false; c_active_connection_id_limit := ACTIVE_CONNECTION_ID_LIMIT;
        c_disable_dcid_reuse := false; c_path_challenge_recv_max_queue_len := PATH_CHALLENGE_RECV_QUEUE_LEN;
        c_pacing := true; c_discover_pmtu := discover_pmtu q; c_cc_algorithm := cc_algorithm q;
        c_initial_congestion_window_packets := initial_congestion_window_packets q;
        c_dgram := if enable_dgram q then Some (dgram_recv_queue_len q, dgram_send_queue_len q) else None |}.

Record Http2Acceptor := { a_identity : SharedTlsIdentity; a_alpn : bytes; a_client_certs : option SharedRoster }.

Definition build_acceptor (client_certs : option SharedRoster) (tls_identity : SharedTlsIdentity)
    : result ConfigError Http2Acceptor :=
  if negb acceptor_ok then Err TlsContext else
  Ok {| a_identity := tls_identity; a_alpn := 2 :: str "h2"; a_client_certs := client_certs |}.

(** The protocol configurations are built once per listener and discarded. *)
Fixpoint build_all (c : ServerConfig) (clients : ClientRegistry) (tls : SharedTlsIdentity)
    (plans : list (ResolvedListener N4 N6)) : result ConfigError unit :=
  match plans with
  | [] => Ok tt
  | plan :: plans' =>
      let client_certs := if client_cert_enabled (r_auth plan) then Some (roster_new clients) else None in
      _ ← match r_transport plan with
          | Http3 =>
              _ ← build_quic_config c (effective_quic_max_datagram_size plan (q_max_datagram_size (quic_ c)))
                    client_certs tls; Ok tt
          | Http2 => _ ← build_acceptor client_certs tls; Ok tt
          end;
      build_all c clients tls plans'
  end.

Record ValidatedServerConfig := {
  v_clients : ClientRegistry;
  v_tls : SharedTlsIdentity;
  v_listeners : list (ResolvedListener N4 N6);
  v_total_shards : Z;
  v_address_pool : AddressPool N4 N6;
}.

Definition is_http3 (plan : ResolvedListener N4 N6) : bool := bool_decide (r_transport plan = Http3).

Definition validate_server_config (c : ServerConfig) : result ConfigError ValidatedServerConfig :=
  plans ← map_err PlanRejected (plan_listeners parse_net linux cores (listeners c));
  let any_client_cert := any_client_cert_listener c in
  _ ← check_policies c;
  _ ← check_server_limits c;
  clients ← active_client_registry c any_client_cert;
  _ ← check_credentials 0 plans;
  _ ← check_quic_limits (quic_ c);
  _ ← check_overrides plans;
  _ ← check_buffers (quic_ c);
  _ ← check_http2_limits (http2 c);
  _ ← check_ip_proxy (ip_proxy c);
  pool ← map_err PoolRejected (new parse_v4 parse_v6 (ipv4_pool (ip_proxy c)) (ipv6_pool (ip_proxy c)));
  pool ← (if ip_enabled (ip_proxy c) then reserve_all pool (static_reservations clients) else Ok pool);
  tls ← map_err TlsRejected (tls_load accepts read_cert read_key (tls c));
  let tls := tls_new tls in
  _ ← build_all c clients tls plans;
  _ ← (if existsb is_http3 plans && negb h3_ok then Err H3ConfigError else Ok tt);
  Ok {| v_clients := clients; v_tls := tls; v_listeners := plans;
        v_total_shards := sum_of r_shards (filter (fun p => is_http3 p = true) plans);
        v_address_pool := pool |}.

Definition validate_config (c : ServerConfig) : result ConfigError (list (ResolvedListener N4 N6)) :=
  validated ← validate_server_config c; Ok (v_listeners validated).
End validation.

(** ** What an accepted configuration satisfies *)

(** The numeric limits of every section. *)
Definition server_limits (c : ServerConfig) : Prop :=
  1 <= max_connections (server c) <= MAX_CONFIGURED_CONNECTIONS /\
  1 <= max_connections_per_ip (server c) <= MAX_CONFIGURED_CONNECTIONS_PER_IP /\
  1 <= max_pending_auth_per_ip (server c) <= MAX_PENDING_AUTH_GLOBAL /\
  1 <= max_tunnels_per_connection (server c) <= MAX_TUNNELS_PER_CONNECTION /\
  1 <= tcp_connect_timeout_secs (tcp_proxy c) <= MAX_TARGET_CONNECT_TIMEOUT_SECS /\
  1 <= udp_connect_timeout_secs (udp_proxy c) <= MAX_TARGET_CONNECT_TIMEOUT_SECS /\
  retry_connection_threshold (quic_ c) <> 0 /\
  1 <= retry_token_ttl_secs (quic_ c) <= 300 /\
  forall a, obs_listen_addr (observability c) = Some a -> is_loopback_listener (sock_ip a) = true.

Definition quic_limits (q : QuicSection) : Prop :=
  initial_max_data q <= max_connection_window q <= MAX_QUIC_CONNECTION_WINDOW /\
  initial_max_stream_data q <= max_stream_window q <= MAX_QUIC_STREAM_WINDOW /\
  1 <= initial_max_streams_bidi q <= MAX_QUIC_STREAMS_BIDI /\
  1 <= dgram_recv_queue_len q <= MAX_QUIC_DATAGRAM_QUEUE_LEN /\
  1 <= dgram_send_queue_len q <= MAX_QUIC_DATAGRAM_QUEUE_LEN /\
  MIN_DATAGRAM_SIZE <= q_max_datagram_size q <= MAX_DATAGRAM_SIZE.

Definition buffer_limits (q : QuicSection) : Prop :=
  udp_recv_buffer_size q <= 16 * MiB /\ udp_send_buffer_size q <= 16 * MiB.

Definition http2_limits (h : Http2Section) : Prop :=
  1 <= initial_stream_window h <= MAX_HTTP2_STREAM_WINDOW /\
  1 <= initial_connection_window h <= MAX_HTTP2_CONNECTION_WINDOW /\
  1 <= max_concurrent_streams h <= MAX_HTTP2_CONCURRENT_STREAMS /\
  1 <= max_header_list_size h <= MAX_HTTP2_HEADER_LIST_SIZE /\
  1 <= max_send_buffer_size h <= MAX_HTTP2_SEND_BUFFER_SIZE /\
  1 <= data_frame_budget h <= MAX_HTTP2_DATA_FRAME_BUDGET /\
  1 <= h2_max_datagram_size h <= 65527.

Definition limits (c : ServerConfig) : Prop :=
  server_limits c /\ quic_limits (quic_ c) /\ buffer_limits (quic_ c) /\ http2_limits (http2 c) /\
  (ip_enabled (ip_proxy c) = true -> 1 <= tun_mtu (ip_proxy c) <= 65535).

(** A sequence of checks accepts when each of them does. *)
Lemma then_Ok {E} (m k : result E unit) : m ≫= (fun _ => k) = Ok tt <-> m = Ok tt /\ k = Ok tt.
Proof. rewrite bind_Ok. split; [by intros ([] & ? & ?)|intros [? ?]; by exists tt]. Qed.

Lemma contained_Ok field lo hi v : contained field lo hi v = Ok tt <-> lo <= v <= hi.
Proof. unfold contained. case_bool_decide; naive_solver. Qed.

Lemma refuse_Ok {E} (P : Prop) `{!Decision P} (e : E) :
  (if bool_decide P then Err e else Ok tt) = Ok tt <-> ~ P.
Proof. case_bool_decide; naive_solver. Qed.

Lemma observability_exact (o : option SocketAddr) :
  match o with
  | Some a => if is_loopback_listener (sock_ip a) then Ok tt else Err (NotLoopback a)
  | None => Ok tt
  end = Ok tt <-> forall a, o = Some a -> is_loopback_listener (sock_ip a) = true.
Proof.
  destruct o as [a|]; [|done]. destruct (is_loopback_listener (sock_ip a)) eqn:Ha; split; try done.
  - by intros _ a' [= <-].
  - intros Hl. by rewrite (Hl a eq_refl) in Ha.
Qed.

Lemma server_limits_exact c : check_server_limits c = Ok tt <-> server_limits c.
Proof.
  unfold check_server_limits, server_limits.
  by rewrite !then_Ok, !contained_Ok, refuse_Ok, observability_exact.
Qed.

Lemma quic_limits_exact q : check_quic_limits q = Ok tt <-> quic_limits q.
Proof.
  unfold check_quic_limits, quic_limits. rewrite !then_Ok, !contained_Ok, !refuse_Ok. lia.
Qed.

Lemma buffer_limits_exact q : check_buffers q = Ok tt <-> buffer_limits q.
Proof. unfold check_buffers, buffer_limits. rewrite then_Ok, !refuse_Ok. lia. Qed.

Lemma http2_limits_exact h : check_http2_limits h = Ok tt <-> http2_limits h.
Proof. unfold check_http2_limits, http2_limits. by rewrite !then_Ok, !contained_Ok. Qed.

Lemma check_ip_Ok ip :
  check_ip_proxy ip = Ok tt ->
  ip_enabled ip = true ->
  1 <= tun_mtu ip <= 65535 /\
  ("connect-ip"%string ∈ connect_protocols ip -> exists T, template_parse (str (ip_uri_template ip)) = Ok T).
Proof.
  unfold check_ip_proxy. rewrite then_Ok. intros [Hm Ht] He. rewrite He in Hm, Ht. cbn [andb] in Hm, Ht.
  split; [destruct (bool_decide (1 <= tun_mtu ip <= 65535)) eqn:Hb; [by apply bool_decide_eq_true in Hb|done]|].
  intros Hin. rewrite (proj2 (existsb_exists _ _)) in Ht.
  - apply map_err_Ok, bind_Ok in Ht as (T & HT & _). by exists T.
  - exists "connect-ip"%string. rewrite <- list_elem_of_In. split; [done|]. by apply bool_decide_eq_true.
Qed.

Section validation_facts.
  Context {N4 N6 Key : Type} `{!NetOps N4, !NetLaws 32 N4, !NetOps N6, !NetLaws 128 N6, !NetNew N4, !NetNewLaws 32 N4, !Boring}.
  Context (parse_net : string -> option (IpNet N4 N6)) (parse_v4 : string -> option N4)
    (parse_v6 : string -> option N6).
  Context (linux : bool) (cores : option Z) (Hcores : forall n, cores = Some n -> 1 <= n).
  Context (parse_public_key : bytes -> option bytes).
  Context (phc_algorithm : bytes -> option bytes) (generate : nat -> nat -> option Key).
  Context (accepts : Ssl -> SslCall -> bool) (read_cert read_key : string -> option bytes).
  Context (quiche_ok protos_ok acceptor_ok h3_ok : bool) (cc_known : string -> bool).

Lemma from_entries_users (g : nat -> option Key) es a :
  from_entries phc_algorithm g es = Ok a -> users_ a <> ∅.
Proof.
  unfold from_entries. intros (m & _ & Hm)%bind_Ok. case_bool_decide; by simplify_eq.
Qed.

Lemma auth_section_users (g : nat -> option Key) s a :
  auth_from_section phc_algorithm g s = Ok a -> users_ a <> ∅.
Proof.
  unfold auth_from_section, authenticator_new. case_match; [case_match; [done|]|]; apply from_entries_users.
Qed.

Lemma credentials_checked i (plans : list (ResolvedListener N4 N6)) :
  check_credentials phc_algorithm generate i plans = Ok tt ->
  Forall (fun p => basic_enabled (r_auth p) = true ->
    exists g a, auth_from_section phc_algorithm g (r_auth p) = Ok a /\ users_ (Key:=Key) a <> ∅) plans.
Proof.
  revert i. induction plans as [|p plans IH]; intros i; cbn [check_credentials]; [by constructor|].
  rewrite then_Ok. intros [Hp Hr]. constructor; [|by eapply IH]. intros Hb. rewrite Hb in Hp.
  apply bind_Ok in Hp as (a & Ha & _). apply map_err_Ok in Ha. exists (generate i), a.
  split; [done|]. by eapply auth_section_users.
Qed.

Lemma overrides_checked d (plans : list (ResolvedListener N4 N6)) :
  MIN_DATAGRAM_SIZE <= d <= MAX_DATAGRAM_SIZE ->
  check_overrides plans = Ok tt ->
  Forall (fun p => (r_max_datagram_size p <> None -> r_transport p = Http3) /\
    MIN_DATAGRAM_SIZE <= effective_quic_max_datagram_size p d <= MAX_DATAGRAM_SIZE) plans.
Proof.
  intros Hd. induction plans as [|p plans IH]; cbn [check_overrides]; [by constructor|].
  rewrite then_Ok. intros [Hp Hr]. constructor; [|by apply IH]. unfold effective_quic_max_datagram_size.
  destruct (r_max_datagram_size p) as [s|]; [|done]. cbn.
  destruct (bool_decide (r_transport p = Http3)) eqn:Ht; [|done]. apply bool_decide_eq_true in Ht.
  destruct (bool_decide (MIN_DATAGRAM_SIZE <= s <= MAX_DATAGRAM_SIZE)) eqn:Hs; [|done].
  by apply bool_decide_eq_true in Hs.
Qed.

Lemma reserve_static_reserved (p p' : AddressPool N4 N6) addr key :
  reserve_static p addr key = (p', Ok tt) ->
  addr ∉ dom (reserved p) /\ reserved p' = <[addr := key]> (reserved p) /\ allocated p' = allocated p.
Proof.
  unfold reserve_static. repeat (case_match; [done|]). case_bool_decide as Hd; [done|]. by intros [= <-].
Qed.

Lemma reserve_all_ok (p : AddressPool N4 N6) l p' :
  pool_ok p -> reserve_all p l = Ok p' ->
  pool_ok p' /\ allocated p' = allocated p /\ reserved p' = list_to_map l ∪ reserved p /\
  Forall (fun r => r.1 ∉ dom (reserved p)) l.
Proof.
  revert p. induction l as [|[a k] l IH]; intros p Hp; cbn [reserve_all].
  { intros [= <-]. split; [done|]. split; [done|]. split; [symmetry; apply (left_id_L ∅ (∪))|constructor]. }
  pose proof (reserve_static_ok p a k Hp) as Hp1.
  destruct (reserve_static p a k) as [p1 [[]|e|]] eqn:Hr; [|done..]. cbn in Hp1.
  apply reserve_static_reserved in Hr as (Hd & Hr & Ha). intros Hl.
  destruct (IH _ Hp1 Hl) as (Hp' & Ha' & Hr' & Hf). split; [done|]. split; [congruence|].
  rewrite Hr in Hr', Hf. split.
  - rewrite Hr'. cbn [list_to_map foldr]. rewrite <- insert_union_l. symmetry. apply insert_union_r.
    apply not_elem_of_list_to_map_1. intros (r & Hr1 & Hin)%list_elem_of_fmap.
    rewrite Forall_forall in Hf. specialize (Hf r Hin). apply Hf. rewrite <- Hr1. set_solver.
  - constructor; [done|]. eapply Forall_impl; [exact Hf|]. intros r Hn. cbn in Hn. set_solver.
Qed.

Lemma builds_timeout c clients tls (plans : list (ResolvedListener N4 N6)) p :
  build_all quiche_ok protos_ok acceptor_ok cc_known c clients tls plans = Ok tt ->
  p ∈ plans -> r_transport p = Http3 -> idle_timeout_secs (server c) * 1000 < 2 ^ 64 /\ cc_known (cc_algorithm (quic_ c)) = true.
Proof.
  induction plans as [|p' plans IH]; [by intros _ Hin%elem_of_nil|]. cbn [build_all]. rewrite then_Ok.
  intros [Hp Hr] [<-|Hin]%elem_of_cons Ht; [|by apply IH]. rewrite Ht in Hp.
  apply bind_Ok in Hp as (q & Hq & _). unfold build_quic_config in Hq. repeat (case_match; [done|]).
  apply bind_Ok in Hq as (ms & Hms & Hq). apply ok_or_Ok in Hms. unfold checked_mul in Hms.
  case_bool_decide; [|done]. split; [done|]. by destruct (cc_known _).
Qed.

Lemma policy_new_valid al dl (p : TargetPolicy N4 N6) :
  policy_new parse_net al dl = Ok p -> Forall (valid_rule parse_net) (al ++ dl).
Proof.
  unfold policy_new, parse_cidrs. intros Hp.
  pose proof (parse_cidrs_from_spec parse_net "allow_targets" 0 al) as Hal.
  pose proof (parse_cidrs_from_spec parse_net "deny_targets" 0 dl) as Hdl.
  destruct (parse_cidrs_from parse_net "allow_targets" 0 al) as [an| |]; [|done..].
  destruct (parse_cidrs_from parse_net "deny_targets" 0 dl) as [dn| |]; [|done..].
  apply Forall_app. split; [apply Hal|apply Hdl].
Qed.

Lemma policies_checked c :
  check_policies parse_net c = Ok tt ->
  Forall (valid_rule parse_net)
    (tcp_allow_targets (tcp_proxy c) ++ tcp_deny_targets (tcp_proxy c) ++
     udp_allow_targets (udp_proxy c) ++ udp_deny_targets (udp_proxy c) ++
     ip_allow_targets (ip_proxy c) ++ ip_deny_targets (ip_proxy c)).
Proof.
  unfold check_policies. intros (p1 & H1 & (p2 & H2 & (p3 & H3 & _)%bind_Ok)%bind_Ok)%bind_Ok.
  apply map_err_Ok, policy_new_valid, Forall_app in H1 as [? ?], H2 as [? ?], H3 as [? ?].
  rewrite !Forall_app. done.
Qed.

Lemma shards_sum (plans : list (ResolvedListener N4 N6)) :
  sum_of r_shards (filter (fun p => is_http3 p = true) plans) = quic_shards plans.
Proof.
  unfold sum_of, quic_shards. induction plans as [|p plans IH]; [done|].
  rewrite filter_cons. cbn [fmap list_fmap foldr]. change (bool_decide (r_transport p = Http3)) with (is_http3 p).
  rewrite <- IH. destruct (decide (is_http3 p = true)) as [He|He]; [by rewrite He|].
  apply not_true_is_false in He. by rewrite He.
Qed.

Lemma registry_selected c any r :
  active_client_registry parse_public_key c any = Ok r ->
  if any then from_config parse_public_key (clients c) = Ok r /\ by_spki r <> ∅ else by_spki r = ∅.
Proof.
  unfold active_client_registry. destruct any; cbn [negb]; [|by intros [= <-]].
  intros (r' & Hr & He)%bind_Ok. apply map_err_Ok in Hr. unfold is_empty in He.
  case_bool_decide; by simplify_eq.
Qed.

(** The listeners that run are the ones that were planned. *)
Lemma validated_plans c v :
  validate_server_config parse_net parse_v4 parse_v6 linux cores parse_public_key phc_algorithm generate
    accepts read_cert read_key quiche_ok protos_ok acceptor_ok h3_ok cc_known c = Ok v ->
  Forall2 plan_of (listeners c) (v_listeners v).
Proof.
  unfold validate_server_config. intros (plans & Hplans & Hv)%bind_Ok. apply map_err_Ok in Hplans.
  pose proof (plan_servable parse_net linux cores Hcores (listeners c)) as Hs. rewrite Hplans in Hs.
  destruct Hs as (Hof & _). repeat (apply bind_Ok in Hv as (? & _ & Hv)). by simplify_eq.
Qed.

(** C19: What every later component relies on holds of an accepted configuration.
    Every limit is met, so the windows, queues and buffers are bounded and a
    flow-control ceiling is never below its initial credit; where a listener
    serves HTTP/3, the idle timeout in milliseconds fits 64 bits; every allow and deny rule of every proxy parses, enabled
    or not; each plan is its listener's, with between one and 32 shards and at
    most 32 over QUIC in total, and packets of a size quiche accepts; a Basic
    listener has at least one user and a certificate listener at least one
    client, so no listener is open by omission; and the address pool is
    consistent, has nothing leased, and withholds exactly the pinned addresses,
    each for its own client's key, where the IP proxy is enabled, and none where
    it is disabled. *)
Theorem validated_config_safe (c : ServerConfig) (v : ValidatedServerConfig) :
  validate_server_config parse_net parse_v4 parse_v6 linux cores parse_public_key phc_algorithm generate
    accepts read_cert read_key quiche_ok protos_ok acceptor_ok h3_ok cc_known c = Ok v ->
  limits c /\
  (existsb is_http3 (v_listeners v) = true -> idle_timeout_secs (server c) * 1000 < 2 ^ 64) /\
  Forall (valid_rule parse_net)
    (tcp_allow_targets (tcp_proxy c) ++ tcp_deny_targets (tcp_proxy c) ++
     udp_allow_targets (udp_proxy c) ++ udp_deny_targets (udp_proxy c) ++
     ip_allow_targets (ip_proxy c) ++ ip_deny_targets (ip_proxy c)) /\
  Forall2 plan_of (listeners c) (v_listeners v) /\ v_listeners v <> [] /\
  v_total_shards v = quic_shards (v_listeners v) /\ v_total_shards v <= MAX_SHARDS /\
  Forall (fun p =>
    MIN_DATAGRAM_SIZE <= effective_quic_max_datagram_size p (q_max_datagram_size (quic_ c)) <= MAX_DATAGRAM_SIZE /\
    (basic_enabled (r_auth p) = true ->
     exists g a, auth_from_section phc_algorithm g (r_auth p) = Ok a /\ users_ (Key:=Key) a <> ∅) /\
    (client_cert_enabled (r_auth p) = true ->
     from_config parse_public_key (clients c) = Ok (v_clients v) /\ by_spki (v_clients v) <> ∅)) (v_listeners v) /\
  pool_ok (v_address_pool v) /\ allocated (v_address_pool v) = ∅ /\
  reserved (v_address_pool v) =
    if ip_enabled (ip_proxy c) then list_to_map (static_reservations (v_clients v)) else ∅.
Proof.
  unfold validate_server_config. intros Hv.
  apply bind_Ok in Hv as (plans & Hplans & Hv). apply map_err_Ok in Hplans.
  pose proof (plan_servable parse_net linux cores Hcores (listeners c)) as Hs. rewrite Hplans in Hs.
  destruct Hs as (Hof & Hne & Hmax & _).
  apply bind_Ok in Hv as ([] & Hpol & Hv). apply policies_checked in Hpol.
  apply bind_Ok in Hv as ([] & Hsl & Hv). apply server_limits_exact in Hsl.
  apply bind_Ok in Hv as (cl & Hcl & Hv). apply registry_selected in Hcl.
  apply bind_Ok in Hv as ([] & Hcr & Hv). apply credentials_checked in Hcr.
  apply bind_Ok in Hv as ([] & Hq & Hv). apply quic_limits_exact in Hq.
  apply bind_Ok in Hv as ([] & Ho & Hv). apply (overrides_checked (q_max_datagram_size (quic_ c))) in Ho; [|apply Hq].
  apply bind_Ok in Hv as ([] & Hb & Hv). apply buffer_limits_exact in Hb.
  apply bind_Ok in Hv as ([] & Hh & Hv). apply http2_limits_exact in Hh.
  apply bind_Ok in Hv as ([] & Hi & Hv). pose proof (check_ip_Ok _ Hi) as Hmtu.
  apply bind_Ok in Hv as (pool & Hpool & Hv). apply map_err_Ok, new_ok in Hpool as (Hpo & Hpa & Hpr).
  apply bind_Ok in Hv as (pool' & Hpool' & Hv).
  apply bind_Ok in Hv as (id & _ & Hv).
  apply bind_Ok in Hv as ([] & Hbuild & Hv).
  apply bind_Ok in Hv as (_ & _ & Hv). simplify_eq. cbn.
  split; [split_and!; try done; naive_solver|]. split.
  { intros (p & Hin & Hp)%existsb_exists. apply list_elem_of_In in Hin.
    eapply (builds_timeout _ _ _ _ p Hbuild Hin). by apply bool_decide_eq_true in Hp. }
  split; [done|]. split; [done|]. split; [by intros ->; inversion Hof|].
  rewrite shards_sum. split; [done|]. split; [done|]. split.
  - apply Forall_and. split; [eapply Forall_impl; [exact Ho|]; naive_solver|].
    apply Forall_and. split; [done|]. apply Forall_forall. intros p Hin Hcert.
    assert (any_client_cert_listener c = true) as Hany.
    { apply existsb_exists. apply list_elem_of_lookup in Hin as [k Hk].
      destruct (Forall2_lookup_r _ _ _ _ _ Hof Hk) as (l & Hl & _ & _ & _ & Ha & _).
      exists l. rewrite <- list_elem_of_In, <- Ha. split; [|done]. by eapply list_elem_of_lookup_2. }
    by rewrite Hany in Hcl.
  - destruct (ip_enabled (ip_proxy c)); [|by simplify_eq].
    destruct (reserve_all_ok _ _ _ Hpo Hpool') as (? & ? & Hr & _).
    rewrite Hpr, (right_id_L ∅ (∪)) in Hr. split; [done|]. split; [congruence|done].
Qed.

(** A listener left with the default credentials: none. *)
Lemma default_auth_refused (g : nat -> option Key) a :
  auth_from_section phc_algorithm g AuthSection_default <> Ok a.
Proof.
  unfold auth_from_section, AuthSection_default, authenticator_new, from_entries. cbn. done.
Qed.

(** C35: A server fails closed.  A configuration in which some listener keeps the
    default authentication section, and so has no credentials, is never accepted;
    the default configuration is one. *)
Theorem default_credentials_refused (c : ServerConfig) (v : ValidatedServerConfig) :
  (exists l, l ∈ listeners c /\ auth l = AuthSection_default) ->
  validate_server_config parse_net parse_v4 parse_v6 linux cores parse_public_key phc_algorithm generate
    accepts read_cert read_key quiche_ok protos_ok acceptor_ok h3_ok cc_known c <> Ok v.
Proof.
  intros (l & Hl & Ha) Hv. unfold validate_server_config in Hv.
  apply bind_Ok in Hv as (plans & Hplans & Hv). apply map_err_Ok in Hplans.
  pose proof (plan_servable parse_net linux cores Hcores (listeners c)) as Hs. rewrite Hplans in Hs.
  destruct Hs as (Hof & _).
  apply bind_Ok in Hv as ([] & _ & Hv). apply bind_Ok in Hv as ([] & _ & Hv).
  apply bind_Ok in Hv as (cl & _ & Hv). apply bind_Ok in Hv as ([] & Hcr & _).
  apply credentials_checked in Hcr. apply list_elem_of_lookup in Hl as [k Hk].
  destruct (Forall2_lookup_l _ _ _ _ _ Hof Hk) as (p & Hp & _ & _ & _ & Hpa & _).
  destruct (Forall_lookup_1 _ _ _ _ Hcr Hp) as (g & a & Hg & _); [by rewrite Hpa, Ha|].
  rewrite Hpa, Ha in Hg. by apply default_auth_refused in Hg.
Qed.
End validation_facts.

(** ** Witnesses *)

Definition sample_pool_v4 (s : string) : option Cidr :=
  if bool_decide (s = "10.89.0.0/16"%string) then Some {| cidr_addr := 0x0a590000; cidr_len := 16 |} else None.
Definition sample_pool_v6 (s : string) : option Cidr6 := None.

(** A Basic listener over QUIC and a certificate listener over HTTP/2, with one
    client pinned to 10.89.0.9. *)
Definition sample_config : ServerConfig :=
  {| server := ServerSection_default; tls := TlsSection_default; quic_ := QuicSection_default;
     http2 := Http2Section_default;
     tcp_proxy := {| tcp_enabled := true; tcp_connect_timeout_secs := 10;
                     tcp_allow_targets := ["0.0.0.0/0"; "::/0"]%string;
                     tcp_deny_targets := ["127.0.0.0/8"]%string |};
     udp_proxy := {| udp_enabled := true; udp_connect_timeout_secs := 10;
                     udp_uri_template := "/udp/{target_host}/{target_port}/"; udp_allow_targets := ["0.0.0.0/0"]%string;
                     udp_deny_targets := []; udp_enable_udp_gso := false |};
     ip_proxy := {| ip_enabled := true; ip_allow_targets := ["0.0.0.0/0"]%string; ip_deny_targets := [];
                    require_tun := false; ip_uri_template := "/.well-known/masque/ip/{target}/{ipproto}/";
                    connect_protocols := ["connect-ip"]%string; tun_name := "masque0"; tun_mtu := 1280;
                    tun_offload := true; ipv4_pool := "10.89.0.0/16"; ipv6_pool := EmptyString |};
     observability := {| obs_listen_addr := Some (SockV4 0x7f000001 9090) |};
     clients := [{| entry_name := "laptop"; public_key := [1; 2]; entry_ipv4 := Some (str "10.89.0.9");
                    entry_ipv6 := None |}];
     listeners := [sample_listener (SockV4 0 443) Http3 4;
                   {| listen_addr := SockV4 0 8443; transport := Http2; shards := 1; max_datagram_size := None;
                      tcp_targets := None; udp_targets := None;
                      auth := {| enabled := true; mode := ClientCert; stealth := false; username := EmptyString;
                                 password_hash := EmptyString; users := [] |} |}] |}.

Definition sample_validate (c : ServerConfig) : result ConfigError (@ValidatedServerConfig Cidr Cidr6 plain_boring) :=
  @validate_server_config Cidr Cidr6 nat _ _ _ plain_boring sample_parse sample_pool_v4 sample_pool_v6 true (Some 8)
    (fun k => Some k) (fun _ => Some (str "argon2id")) (fun l i => Some (l + i)%nat)
    (fun _ _ => true) plain_files plain_files true true true true (fun _ => true) c.

Definition sample_validated : @ValidatedServerConfig Cidr Cidr6 plain_boring :=
  Eval vm_compute in
  match sample_validate sample_config with
  | Ok v => v
  | _ => {| v_clients := {| by_spki := ∅ |}; v_tls := tls_new (plain_identity 0); v_listeners := [];
            v_total_shards := 0;
            v_address_pool := {| v4_net := None; v6_net := None; allocated := ∅; reserved := ∅; v4_next := 2; v6_next := 2 |} |}
  end.

Lemma validated_config_safe_witness :
  sample_validate sample_config = Ok sample_validated /\
  v_total_shards sample_validated = 4 /\
  reserved (v_address_pool sample_validated) = {[ IpV4 0x0a590009 := [1; 2] ]} /\
  pool_ok (v_address_pool sample_validated) /\ limits sample_config.
Proof.
  assert (sample_validate sample_config = Ok sample_validated) as Hv by (vm_compute; reflexivity).
  split; [exact Hv|]. split; [reflexivity|]. split; [vm_compute; reflexivity|].
  assert (forall n, Some 8 = Some n -> 1 <= n) as Hc by (intros n E; injection E as <-; lia).
  pose proof (@validated_config_safe Cidr Cidr6 nat _ _ _ _ _ _ plain_boring sample_parse sample_pool_v4
    sample_pool_v6 true (Some 8) Hc (fun k => Some k) (fun _ => Some (str "argon2id")) (fun l i => Some (l + i)%nat)
    (fun _ _ => true) plain_files plain_files true true true true (fun _ => true) sample_config _ Hv) as H.
  split; [exact (proj1 (proj2 (proj2 (proj2 (proj2 (proj2 (proj2 (proj2 (proj2 H)))))))))|exact (proj1 H)].
Defined.

Lemma default_credentials_refused_witness :
  (exists l, l ∈ listeners ServerConfig_default /\ auth l = AuthSection_default) /\
  sample_validate ServerConfig_default <> Ok sample_validated.
Proof.
  assert (exists l, l ∈ listeners ServerConfig_default /\ auth l = AuthSection_default) as Hl.
  { exists default_listener. split; [by left|reflexivity]. }
  assert (forall n, Some 8 = Some n -> 1 <= n) as Hc by (intros n E; injection E as <-; lia).
  split; [exact Hl|].
  apply (@default_credentials_refused Cidr Cidr6 nat _ _ _ _ _ _ plain_boring sample_parse sample_pool_v4
    sample_pool_v6 true (Some 8) Hc (fun k => Some k) (fun _ => Some (str "argon2id")) (fun l i => Some (l + i)%nat)
    (fun _ _ => true) plain_files plain_files true true true true (fun _ => true) _ _ Hl).
Defined.
