(* ===== verification/Request.v ===== *)
(** * CONNECT requests

    Models the transport-neutral part of [src/server/request.rs]: the scan of a
    header block, the classification of a CONNECT request and the check of a
    CONNECT-IP path. *)

From stdpp Require Import strings.
From S2P Require Import Prelude Net Uri ConnectIp Config.
Open Scope Z_scope.

Inductive ConnectRequest :=
| RequestTcp (authority : bytes)
| RequestUdp (path : bytes)
| RequestIp (path : bytes) (standard valid_pseudo_headers : bool).

Definition accepts_connect_ip (configured : list string) (protocol : bytes) : bool :=
  negb (bool_decide (protocol = [])) && existsb (fun accepted => bool_decide (str accepted = protocol)) configured.

Definition classify_connect_request (method protocol authority path scheme : bytes) (config : ServerConfig)
    : option ConnectRequest :=
  if negb (bool_decide (method = str "CONNECT")) then None
  else if bool_decide (protocol = []) && tcp_enabled (tcp_proxy config)
  then Some (RequestTcp (from_utf8_lossy authority))
  else if bool_decide (protocol = str "connect-udp") && udp_enabled (udp_proxy config)
  then Some (RequestUdp (from_utf8_lossy path))
  else if ip_enabled (ip_proxy config) && accepts_connect_ip (connect_protocols (ip_proxy config)) protocol
  then Some (RequestIp (from_utf8_lossy path) (bool_decide (protocol = str "connect-ip"))
               (negb (bool_decide (authority = [])) && negb (bool_decide (scheme = [])) && negb (bool_decide (path = []))))
  else None.

(** The status to refuse with, if any. *)
Definition prepare_connect_ip (path : bytes) (standard valid_pseudo_headers : bool) (config : ServerConfig)
    : result Z unit :=
  if negb standard then Ok tt
  else if negb valid_pseudo_headers then Err 400 else
  scope ← map_err (fun _ => 400) (parse_ip_path path (str (ip_uri_template (ip_proxy config))));
  if bool_decide (is_Some (target scope)) || bool_decide (is_Some (ipproto scope)) then Err 501 else Ok tt.

(** ** The header scan *)

Record RequestHeaders := {
  hd_method : bytes; hd_path : bytes; hd_scheme : bytes; hd_protocol : bytes; hd_authority : bytes;
  proxy_authorization : option bytes;
  duplicate_proxy_authorization : bool;
}.

Definition no_headers : RequestHeaders :=
  {| hd_method := []; hd_path := []; hd_scheme := []; hd_protocol := []; hd_authority := [];
     proxy_authorization := None; duplicate_proxy_authorization := false |}.

#[export] Instance RequestHeaders_eta : Eta RequestHeaders := fun r =>
  {| hd_method := hd_method r; hd_path := hd_path r; hd_scheme := hd_scheme r; hd_protocol := hd_protocol r;
     hd_authority := hd_authority r; proxy_authorization := proxy_authorization r;
     duplicate_proxy_authorization := duplicate_proxy_authorization r |}.

(** A later header of a name replaces the value; a second set of credentials is
    remembered. *)
Definition scan_header (r : RequestHeaders) (h : string * bytes) : RequestHeaders :=
  let '(name, value) := h in
  if bool_decide (name = ":method"%string) then r <| hd_method := value |>
  else if bool_decide (name = ":path"%string) then r <| hd_path := value |>
  else if bool_decide (name = ":scheme"%string) then r <| hd_scheme := value |>
  else if bool_decide (name = ":protocol"%string) then r <| hd_protocol := value |>
  else if bool_decide (name = ":authority"%string) then r <| hd_authority := value |>
  else if bool_decide (name = "proxy-authorization"%string) then
    r <| duplicate_proxy_authorization := duplicate_proxy_authorization r || bool_decide (is_Some (proxy_authorization r)) |>
      <| proxy_authorization := Some value |>
  else r.

Definition scan_headers (headers : list (string * bytes)) : RequestHeaders := fold_left scan_header headers no_headers.

Definition classify (r : RequestHeaders) (config : ServerConfig) : option ConnectRequest :=
  classify_connect_request (hd_method r) (hd_protocol r) (hd_authority r) (hd_path r) (hd_scheme r) config.

(** A header whose name begins with a colon. *)
Definition is_pseudo (h : string * bytes) : bool := starts_with [58] (str h.1).

(** ** The scan and the classification *)

Definition credentials_in (headers : list (string * bytes)) : list bytes :=
  (filter (fun h => h.1 = "proxy-authorization"%string) headers).*2.

Lemma scan_header_other r h :
  h.1 <> "proxy-authorization"%string ->
  proxy_authorization (scan_header r h) = proxy_authorization r /\
  duplicate_proxy_authorization (scan_header r h) = duplicate_proxy_authorization r.
Proof.
  destruct h as [name value]. cbn. intros Hn. repeat case_bool_decide; try done.
Qed.

Lemma scan_headers_credentials headers r :
  proxy_authorization (fold_left scan_header headers r) = 
    (match last (credentials_in headers) with Some v => Some v | None => proxy_authorization r end) /\
  duplicate_proxy_authorization (fold_left scan_header headers r) =
    duplicate_proxy_authorization r ||
    bool_decide (1 < (if proxy_authorization r then 1 else 0) + length (credentials_in headers))%nat
    && negb (bool_decide (credentials_in headers = [])).
Proof.
  revert r. induction headers as [|h headers IH]; intros r; cbn [fold_left].
  { cbn. by rewrite andb_false_r, orb_false_r. }
  destruct (IH (scan_header r h)) as [H1 H2]. rewrite H1, H2. unfold credentials_in. rewrite filter_cons.
  destruct (decide (h.1 = "proxy-authorization"%string)) as [He|He].
  - destruct h as [name value]. cbn in He. subst name. cbn [fmap list_fmap snd].
    fold (credentials_in headers). set (l := credentials_in headers).
    rewrite last_cons. split; [by destruct (last l)|]. cbn.
    destruct (proxy_authorization r); cbn; destruct (duplicate_proxy_authorization r); cbn; try done.
    by destruct l.
  - destruct (scan_header_other r h He) as [-> ->]. done.
Qed.
