(* ===== verification/Reload.v ===== *)
(** * Configuration reload and its evidence

    Models [reload_configuration] of [src/server/mod.rs], which replaces the Basic
    credentials, the client roster and the TLS identity of a running server in one
    transaction, and the snapshots of [src/runtime_status.rs], by which an operator
    learns which sections of the file are in force.  The serialiser, the keyed
    digest, the file system and the TOML parser are parameters. *)

From stdpp Require Import strings sorting.
From S2P Require Import Prelude Net Policy AddressPool ClientIdentity Listener Retry Uri Auth Config Tls Validation.
Open Scope Z_scope.

(** ** Evidence of the configuration in force *)

(** What the status reports keep of a listener: its section without the
    credentials. *)
Record ListenerEvidence := {
  e_listen_addr : SocketAddr;
  e_transport : ListenerTransport;
  e_shards : Z;
  e_max_datagram_size : option Z;
  e_tcp_targets : option TargetRestrictionSection;
  e_udp_targets : option TargetRestrictionSection;
  e_enabled : bool;
  e_mode : AuthMode;
}.

Inductive SectionValue :=
| VServer (s : ServerSection)
| VTls (s : TlsSection)
| VQuic (s : QuicSection)
| VHttp2 (s : Http2Section)
| VTcp (s : TcpProxySection)
| VUdp (s : UdpProxySection)
| VIp (s : IpProxySection)
| VObservability (s : ObservabilitySection)
| VClients (entries : list ClientEntry)
| VListeners (listeners : list ListenerEvidence)
| VCredentials (users : list (list BasicUser))
| VIdentity (fingerprint : bytes).

Record Section_ := { digest_ : bytes; reloadable : bool }.

Record Snapshot := {
  version : string;
  snapshot_key : bytes;
  config_file : option bytes;
  sections_ : gmap string Section_;
}.
#[global] Instance Snapshot_eta : Eta Snapshot := fun r =>
  {| version := version r; snapshot_key := snapshot_key r; config_file := config_file r; sections_ := sections_ r |}.

Inductive StatusError := NotSerializable | PathUnresolved | VersionDiffers | OtherFile | SchemaDiffers | SectionMissing | NoRandom.

Definition strip_credentials (l : ListenerSection) : ListenerEvidence :=
  {| e_listen_addr := listen_addr l; e_transport := transport l; e_shards := shards l;
     e_max_datagram_size := max_datagram_size l; e_tcp_targets := tcp_targets l; e_udp_targets := udp_targets l;
     e_enabled := enabled (auth l); e_mode := mode (auth l) |}.

Definition credentials_of (l : ListenerSection) : list BasicUser :=
  if basic_enabled (auth l) then
    match users (auth l) with
    | [] => [{| user_name := username (auth l); user_hash := password_hash (auth l) |}]
    | users => users
    end
  else [].

(** The fields of the configuration's JSON object. *)
Definition section_values (c : ServerConfig) (tls_fingerprint : bytes) : list (string * SectionValue) :=
  [("server", VServer (server c)); ("tls", VTls (tls c)); ("quic", VQuic (quic_ c));
   ("http2", VHttp2 (http2 c)); ("tcp_proxy", VTcp (tcp_proxy c)); ("udp_proxy", VUdp (udp_proxy c));
   ("ip_proxy", VIp (ip_proxy c)); ("observability", VObservability (observability c));
   ("clients", VClients (if any_client_cert_listener c then clients c else []));
   ("listeners", VListeners (strip_credentials <$> listeners c));
   ("basic_credentials", VCredentials (credentials_of <$> listeners c));
   ("tls_identity", VIdentity tls_fingerprint)]%string.

Definition is_reloadable (name : string) : bool :=
  bool_decide (name ∈ ["clients"; "basic_credentials"; "tls_identity"]%string).

(** [BTreeMap::into_iter], by ascending key. *)
Definition name_le {A} (a b : string * A) : Prop := String.leb a.1 b.1 = true.
#[global] Instance name_le_dec {A} (a b : string * A) : Decision (name_le a b) := bool_eq_dec _ _.
Definition by_name {A} (m : gmap string A) : list (string * A) := merge_sort name_le (map_to_list m).

Section status.
  (** [serde_json], HMAC-SHA256 under a key, [std::fs::canonicalize] and the
      crate's version. *)
  Context (to_vec : SectionValue -> option bytes) (sign : bytes -> bytes -> bytes)
    (canonicalize : string -> option bytes) (crate_version : string).

Fixpoint digest_sections (key : bytes) (values : list (string * SectionValue))
    : result StatusError (gmap string Section_) :=
  match values with
  | [] => Ok ∅
  | (name, value) :: rest =>
      bytes ← ok_or NotSerializable (to_vec value);
      m ← digest_sections key rest;
      Ok (<[name := {| digest_ := sign key bytes; reloadable := is_reloadable name |}]> m)
  end.

Definition sections (key : bytes) (c : ServerConfig) (tls_fingerprint : bytes)
    : result StatusError (gmap string Section_) :=
  digest_sections key (section_values c tls_fingerprint).

Definition file_digest (key : bytes) (path : string) : result StatusError bytes :=
  path ← ok_or PathUnresolved (canonicalize path); Ok (sign key path).

(** [random]: the key the system's generator gives. *)
Definition loaded_new (random : option bytes) (c : ServerConfig) (path : option string) (tls_fingerprint : bytes)
    : result StatusError Snapshot :=
  key ← ok_or NoRandom random;
  file ← match path with
         | Some path => d ← file_digest key path; Ok (Some d)
         | None => Ok None
         end;
  sections ← sections key c tls_fingerprint;
  Ok {| version := crate_version; snapshot_key := key; config_file := file; sections_ := sections |}.

(** The new sections that can be reloaded replace the old; the union prefers
    them. *)
Definition prepare_reload (s : Snapshot) (c : ServerConfig) (tls_fingerprint : bytes)
    : result StatusError Snapshot :=
  new ← sections (snapshot_key s) c tls_fingerprint;
  Ok (s <| sections_ ::= fun old => filter (fun kv => reloadable kv.2 = true) new ∪ old |>).

Inductive Applied := IsApplied | ReloadRequired | RestartRequired.
#[global] Instance Applied_eq_dec : EqDecision Applied.
Proof. solve_decision. Defined.

Fixpoint compare_sections (loaded : gmap string Section_) (disk : list (string * Section_))
    : result StatusError (list (string * Applied)) :=
  match disk with
  | [] => Ok []
  | (name, section) :: rest =>
      old ← ok_or SectionMissing (loaded !! name);
      let state := if bool_decide (digest_ old = digest_ section) then IsApplied
                   else if reloadable section then ReloadRequired else RestartRequired in
      states ← compare_sections loaded rest;
      Ok ((name, state) :: states)
  end.

Definition compare (s : Snapshot) (path : string) (c : ServerConfig) (tls_fingerprint : bytes)
    : result StatusError (list (string * Applied)) :=
  if negb (bool_decide (version s = crate_version)) then Err VersionDiffers else
  file ← file_digest (snapshot_key s) path;
  if negb (bool_decide (config_file s = Some file)) then Err OtherFile else
  disk ← sections (snapshot_key s) c tls_fingerprint;
  if negb (bool_decide (size (sections_ s) = size disk)) then Err SchemaDiffers else
  compare_sections (sections_ s) (by_name disk).
End status.

(** ** The reload transaction *)

Inductive ReloadAuthKind := Disabled | BasicAuth | ClientCertAuth.
#[global] Instance ReloadAuthKind_eq_dec : EqDecision ReloadAuthKind.
Proof. solve_decision. Defined.

Definition auth_kind (a : AuthSection) : ReloadAuthKind :=
  if basic_enabled a then BasicAuth else if client_cert_enabled a then ClientCertAuth else Disabled.

Record ReloadListener := { rl_listen_addr : SocketAddr; rl_transport : ListenerTransport; rl_auth : ReloadAuthKind }.

Record ConfigReload := {
  reload_path : string;
  reload_tls : TlsSection;
  client_cert_enabled_ : bool;
  ip_proxy_enabled : bool;
  reload_listeners : list ReloadListener;
}.

Inductive ReloadError :=
| NoFile | Unreadable | Unparsable
| ListenerCountChanged (startup now : nat)
| ListenerChanged (index : nat)
| BadCredentials (index : nat) (e : AuthError)
| BadIdentity (e : TlsError)
| BadEvidence (e : StatusError)
| NoCertListener
| BadRoster (e : ConfigError)
| BadReservation (e : PoolError).

Record ReloadOutcome := { tls_generation : Z; roster : option (Z * nat); basic : option (nat * nat) }.

Section reload.
  Context {N4 N6 Key : Type} `{!NetOps N4, !NetOps N6, !Boring}.
  Context (to_vec : SectionValue -> option bytes) (sign : bytes -> bytes -> bytes).
  Context (read_to_string : string -> option string) (parse_toml : string -> option ServerConfig).
  Context (parse_public_key : bytes -> option bytes).
  Context (phc_algorithm : bytes -> option bytes) (generate : nat -> nat -> option Key).
  Context (accepts : Ssl -> SslCall -> bool) (read_cert read_key : string -> option bytes).
  Notation authenticator := (BasicAuthenticator (Key:=Key)).

(** The part of [Shared] a reload reads and writes. *)
Record ReloadShared := {
  config_reload : option ConfigReload;
  shared_basic : list (option (SharedBasicAuthenticator (Key:=Key)));
  shared_clients : SharedRoster;
  shared_identity : SharedTlsIdentity;
  shared_pool : AddressPool N4 N6;
  loaded_config : Snapshot;
}.
#[global] Instance ReloadShared_eta : Eta ReloadShared := fun r =>
  {| config_reload := config_reload r; shared_basic := shared_basic r; shared_clients := shared_clients r;
     shared_identity := shared_identity r; shared_pool := shared_pool r; loaded_config := loaded_config r |}.

(** The listeners in order: each keeps its address, transport and kind of
    authentication, and a Basic one's new credentials are built. *)
Fixpoint prepare_basic (index : nat) (startup : list ReloadListener) (now : list ListenerSection)
    : result ReloadError (list (option authenticator)) :=
  match startup, now with
  | s :: startup', l :: now' =>
      if negb (bool_decide (rl_listen_addr s = listen_addr l)) || negb (bool_decide (rl_transport s = transport l))
         || negb (bool_decide (rl_auth s = auth_kind (auth l)))
      then Err (ListenerChanged (index + 1)) else
      a ← (if bool_decide (rl_auth s = BasicAuth)
           then a ← map_err (BadCredentials (index + 1)) (auth_from_section phc_algorithm (generate index) (auth l));
                Ok (Some a)
           else Ok None);
      rest ← prepare_basic (S index) startup' now';
      Ok (a :: rest)
  | _, _ => Ok []
  end.

(** Installing the new credentials; a slot that does not match is unreachable. *)
Fixpoint install_basic (replacements : list (option authenticator))
    (slots : list (option (SharedBasicAuthenticator (Key:=Key))))
    : result ReloadError (list (option (SharedBasicAuthenticator (Key:=Key))) * nat * nat) :=
  match replacements, slots with
  | r :: replacements', slot :: slots' =>
      match r, slot with
      | Some a, Some target =>
          let '(target, count) := shared_replace target a in
          rest ← install_basic replacements' slots';
          let '(slots'', listeners, users) := rest in
          Ok (Some target :: slots'', S listeners, (count + users)%nat)
      | None, None =>
          rest ← install_basic replacements' slots';
          let '(slots'', listeners, users) := rest in
          Ok (None :: slots'', listeners, users)
      | _, _ => Panic
      end
  | _, slots => Ok (slots, 0%nat, 0%nat)
  end.

(** The fallible steps before any shared state changes. *)
Definition prepare (reload : ConfigReload) (sh : ReloadShared)
    : result ReloadError (list (option authenticator) * TlsIdentity * Snapshot * option ClientRegistry) :=
  text ← ok_or Unreadable (read_to_string (reload_path reload));
  config ← ok_or Unparsable (parse_toml text);
  if negb (bool_decide (length (listeners config) = length (reload_listeners reload)))
  then Err (ListenerCountChanged (length (reload_listeners reload)) (length (listeners config))) else
  basic_auth ← prepare_basic 0 (reload_listeners reload) (listeners config);
  tls_identity ← map_err BadIdentity (tls_load accepts read_cert read_key (reload_tls reload));
  loaded ← map_err BadEvidence (prepare_reload to_vec sign (loaded_config sh) config (fingerprint tls_identity));
  registry ← (if client_cert_enabled_ reload then
                let any_client_cert := any_client_cert_listener config in
                if negb any_client_cert then Err NoCertListener else
                r ← map_err BadRoster (active_client_registry parse_public_key config any_client_cert); Ok (Some r)
              else Ok None);
  Ok (basic_auth, tls_identity, loaded, registry).

Definition reload_configuration (sh : ReloadShared) : ReloadShared * result ReloadError ReloadOutcome :=
  match config_reload sh with
  | None => (sh, Err NoFile)
  | Some reload =>
      match prepare reload sh with
      | Err e => (sh, Err e)
      | Panic => (sh, Panic)
      | Ok (basic_auth, tls_identity, loaded, registry) =>
          let reserved :=
            match registry with
            | Some registry =>
                if ip_proxy_enabled reload then set_static_reservations (shared_pool sh) (static_reservations registry)
                else (shared_pool sh, Ok tt)
            | None => (shared_pool sh, Ok tt)
            end in
          match reserved with
          | (pool, Err e) => (sh <| shared_pool := pool |>, Err (BadReservation e))
          | (pool, Panic) => (sh <| shared_pool := pool |>, Panic)
          | (pool, Ok _) =>
              let sh := sh <| shared_pool := pool |> in
              match install_basic basic_auth (shared_basic sh) with
              | Err e => (sh, Err e)
              | Panic => (sh, Panic)
              | Ok (slots, basic_listener_count, basic_user_count) =>
                  let sh := sh <| shared_basic := slots |> in
                  let basic := if bool_decide (0 < basic_listener_count)%nat
                               then Some (basic_listener_count, basic_user_count) else None in
                  let '(clients, roster) :=
                    match registry with
                    | Some registry =>
                        let '(clients, g) := replace (shared_clients sh) registry in
                        (clients, Some (g, len registry))
                    | None => (shared_clients sh, None)
                    end in
                  let '(tls, generation) := tls_replace (shared_identity sh) tls_identity in
                  (sh <| shared_clients := clients |> <| shared_identity := tls |> <| loaded_config := loaded |>,
                   Ok {| tls_generation := generation; roster := roster; basic := basic |})
              end
          end
      end
  end.

(** ** Startup *)

Definition config_reload_settings (c : ServerConfig) (config_path : option string) : option ConfigReload :=
  (fun path =>
     {| reload_path := path; reload_tls := tls c; client_cert_enabled_ := any_client_cert_listener c;
        ip_proxy_enabled := ip_enabled (ip_proxy c);
        reload_listeners := (fun l => {| rl_listen_addr := listen_addr l; rl_transport := transport l;
                                         rl_auth := auth_kind (auth l) |}) <$> listeners c |}) <$> config_path.

(** One slot per planned listener. *)
Fixpoint build_basic (index : nat) (plans : list (ResolvedListener N4 N6))
    : result AuthError (list (option (SharedBasicAuthenticator (Key:=Key)))) :=
  match plans with
  | [] => Ok []
  | plan :: plans' =>
      slot ← (if basic_enabled (r_auth plan)
              then a ← auth_from_section phc_algorithm (generate index) (r_auth plan); Ok (Some {| Auth.current := a |})
              else Ok None);
      rest ← build_basic (S index) plans';
      Ok (slot :: rest)
  end.

(** The reloadable part of [Shared] that [bind_with_reload] makes of a validated
    configuration. *)
Definition bind_shared (canonicalize : string -> option bytes) (crate_version : string) (random : option bytes)
    (c : ServerConfig) (config_path : option string) (v : ValidatedServerConfig (N4:=N4) (N6:=N6))
    : result ReloadError ReloadShared :=
  basic ← map_err (BadCredentials 0) (build_basic 0 (v_listeners v));
  loaded ← map_err BadEvidence (loaded_new to_vec sign canonicalize crate_version random c config_path
             (tls_shared_fingerprint (v_tls v)));
  Ok {| config_reload := config_reload_settings c config_path; shared_basic := basic;
        shared_clients := roster_new (v_clients v); shared_identity := v_tls v;
        shared_pool := v_address_pool v; loaded_config := loaded |}.
End reload.
