(* ===== verification/ReloadProps.v ===== *)
(** * What a reload guarantees

    Lemmas and theorems of [Reload.v]: a reload is one transaction, over any
    sequence of reloads of a started server, and the status evidence names the
    values in force. *)

From stdpp Require Import strings sorting.
From S2P Require Import Prelude Net Policy AddressPool ClientIdentity Listener Retry Uri Auth Config Tls Validation.
From S2P Require Import Reload.
Open Scope Z_scope.

(** ** What a reload does *)

Section reload_facts.
  Context {N4 N6 Key : Type} `{!NetOps N4, !NetLaws 32 N4, !NetOps N6, !NetLaws 128 N6, !Boring}.
  Context (to_vec : SectionValue -> option bytes) (sign : bytes -> bytes -> bytes).
  Context (read_to_string : string -> option string) (parse_toml : string -> option ServerConfig).
  Context (parse_public_key : bytes -> option bytes).
  Context (phc_algorithm : bytes -> option bytes) (generate : nat -> nat -> option Key).
  Context (accepts : Ssl -> SslCall -> bool) (read_cert read_key : string -> option bytes).
  Notation shared := (ReloadShared (N4:=N4) (N6:=N6) (Key:=Key)).
  Notation run := (reload_configuration to_vec sign read_to_string parse_toml parse_public_key phc_algorithm
    generate accepts read_cert read_key).

(** A Basic listener has a slot for its credentials, and no other has. *)
Definition slots_match (sh : shared) : Prop :=
  forall reload, config_reload sh = Some reload ->
  Forall2 (fun l slot => rl_auth l = BasicAuth <-> is_Some slot) (reload_listeners reload) (shared_basic sh).

(** A listener of the file is the one the process was started with. *)
Definition same_listener (s : ReloadListener) (l : ListenerSection) : Prop :=
  rl_listen_addr s = listen_addr l /\ rl_transport s = transport l /\ rl_auth s = auth_kind (auth l).

Lemma auth_kind_basic a : auth_kind a = BasicAuth <-> basic_enabled a = true.
Proof. unfold auth_kind. destruct (basic_enabled a); [done|]. by destruct (client_cert_enabled a). Qed.

Lemma add_entries_no_panic (g : nat -> option Key) i es m : add_entries phc_algorithm g i es m <> Panic.
Proof.
  revert i m. induction es as [|[u h] es IH]; intros i m; cbn [add_entries]; [done|].
  case_match; [done|]. rewrite bind_Panic. intros [Hu|(_ & _ & Hr)].
  { unfold check_username in Hu. by repeat case_match. }
  apply bind_Panic in Hr as [Ha|(alg & _ & Hr)]; [by destruct (phc_algorithm h)|]. case_match; [done|].
  apply bind_Panic in Hr as [Hk|(k & _ & Hr)]; [by destruct (g i)|]. case_match; [done|]. by apply IH in Hr.
Qed.

Lemma auth_section_no_panic (g : nat -> option Key) s : auth_from_section phc_algorithm g s <> Panic.
Proof.
  assert (forall es, from_entries phc_algorithm g es <> Panic) as Hf.
  { intros es. unfold from_entries. rewrite bind_Panic. intros [Hp|(m & _ & Hp)]; [by apply add_entries_no_panic in Hp|].
    by case_match. }
  unfold auth_from_section, authenticator_new. case_match; [case_match; [done|]|]; apply Hf.
Qed.

(** The slot of listener [i] after the reload. *)
Definition slot_ok (i : nat) (l : ListenerSection) (a : option (BasicAuthenticator (Key:=Key))) : Prop :=
  match a with
  | Some a => basic_enabled (auth l) = true /\ auth_from_section phc_algorithm (generate i) (auth l) = Ok a
  | None => basic_enabled (auth l) = false
  end.

Lemma prepare_basic_post i startup now :
  length now = length startup ->
  post (prepare_basic phc_algorithm generate i startup now) (fun slots =>
    Forall2 same_listener startup now /\ length slots = length now /\
    forall k l a, now !! k = Some l -> slots !! k = Some a -> slot_ok (i + k) l a).
Proof.
  revert i now. induction startup as [|s startup IH]; intros i [|l now] Hlen; try done; cbn [prepare_basic].
  destruct (bool_decide (rl_listen_addr s = listen_addr l)) eqn:E1; [|done].
  destruct (bool_decide (rl_transport s = transport l)) eqn:E2; [|done].
  destruct (bool_decide (rl_auth s = auth_kind (auth l))) eqn:E3; [|done]. cbn [negb orb].
  apply bool_decide_eq_true in E1, E2, E3. apply post_bind. apply (post_mono _ (slot_ok i l)).
  { case_bool_decide as Hb; rewrite E3, auth_kind_basic in Hb.
    - pose proof (auth_section_no_panic (generate i) (auth l)) as Hn.
      destruct (auth_from_section _ _ _) as [a|e|] eqn:Ha; done.
    - cbn. by destruct (basic_enabled (auth l)). }
  intros a Ha. apply post_bind. eapply post_mono; [apply IH; by injection Hlen|].
  intros slots (Hf & Hl & Hs). cbn. split; [by constructor|]. split; [by rewrite Hl|].
  intros [|k] l' a' Hl' Ha'; simplify_eq/=; [by rewrite Nat.add_0_r|].
  rewrite <- Nat.add_succ_comm. by eapply Hs.
Qed.

Lemma install_basic_post replacements slots :
  Forall2 (fun r slot => is_Some r <-> is_Some slot) replacements slots ->
  exists listeners users, install_basic replacements slots
    = Ok (option_map (fun a : BasicAuthenticator (Key:=Key) => {| Auth.current := a |}) <$> replacements, listeners, users).
Proof.
  induction 1 as [|r slot rs slots Hr _ (n & u & IH)]; cbn [install_basic].
  - by exists 0%nat, 0%nat.
  - destruct r as [a|], slot as [s|]; cbn; rewrite ?IH; cbn.
    + by eexists _, _.
    + exfalso. assert (is_Some (None : option (SharedBasicAuthenticator (Key:=Key)))) as [? ?] by (apply Hr; by eexists). done.
    + exfalso. assert (is_Some (None : option (BasicAuthenticator (Key:=Key)))) as [? ?] by (apply Hr; by eexists). done.
    + by eexists _, _.
Qed.

Lemma prepare_reload_no_panic s c f : prepare_reload to_vec sign s c f <> Panic.
Proof.
  assert (forall key values, digest_sections to_vec sign key values <> Panic) as Hd.
  { intros key values. induction values as [|[name v] values IH]; cbn [digest_sections]; [done|].
    rewrite bind_Panic. intros [Hp|(b & _ & Hp)]; [by destruct (to_vec v)|].
    apply bind_Panic in Hp as [Hp|(m & _ & Hp)]; done. }
  unfold prepare_reload, sections. rewrite bind_Panic. intros [Hp|(m & _ & Hp)]; [by apply Hd in Hp|done].
Qed.

Lemma install_no_panic i ssl g : (install accepts i ssl g).2 <> Panic.
Proof.
  change i with (identity {| identity := i; generation := g |}).
  change g with (generation {| identity := i; generation := g |}) at 2. rewrite install_calls.
  generalize (installation {| identity := i; generation := g |}) as cs. intros cs. revert ssl.
  induction cs as [|c cs IH]; intros ssl; cbn [calls]; [done|]. unfold call_. by destruct (accepts ssl c).
Qed.

Lemma tls_load_no_panic c : tls_load accepts read_cert read_key c <> Panic.
Proof.
  unfold tls_load. rewrite bind_Panic. intros [Hp|(pem & _ & Hp)]; [by destruct (read_cert _)|].
  apply bind_Panic in Hp as [Hp|(stack & _ & Hp)]; [by destruct (stack_from_pem pem)|]. destruct stack as [|l cs]; [done|].
  apply bind_Panic in Hp as [Hp|(kpem & _ & Hp)]; [by destruct (read_key _)|].
  apply bind_Panic in Hp as [Hp|(k & _ & Hp)]; [by destruct (private_key_from_pem kpem)|].
  apply bind_Panic in Hp as [Hp|(pub & _ & Hp)]; [by destruct (public_key_of l)|]. case_match; [done|].
  apply bind_Panic in Hp as [Hp|(input & _ & Hp)]; [by destruct (digest_input _)|]. case_match; [done|].
  match type of Hp with context [install ?a ?i ?s ?g] =>
    pose proof (install_no_panic i s g); destruct (install a i s g) as [? [?|?|]] end; done.
Qed.

Lemma registry_no_panic c any : active_client_registry parse_public_key c any <> Panic.
Proof.
  unfold active_client_registry. destruct any; [cbn|done]. rewrite bind_Panic. intros [Hp|(r & _ & Hp)].
  - destruct (from_config _ _) eqn:Hf; [done..|]. unfold from_config in Hf. apply bind_Panic in Hf as [Hf|(m & Hm & Hf)].
    + pose proof (collect_clients_post parse_public_key 0 (clients c) ∅ (map_Forall_empty _)) as Hc. by rewrite Hf in Hc.
    + apply bind_Panic in Hf as [Hf|(? & _ & ?)]; [|done].
      pose proof (check_identities_post (identities m) ∅) as Hi. by rewrite Hf in Hi.
  - by destruct (is_empty r).
Qed.

(** What the fallible steps produce. *)
Definition prepared (reload : ConfigReload) (sh : shared) (config : ServerConfig) (identity : TlsIdentity)
    (slots : list (option (BasicAuthenticator (Key:=Key)))) (loaded : Snapshot) (registry : option ClientRegistry) : Prop :=
  (exists text, read_to_string (reload_path reload) = Some text /\ parse_toml text = Some config) /\
  Forall2 same_listener (reload_listeners reload) (listeners config) /\
  length slots = length (listeners config) /\
  (forall k l a, listeners config !! k = Some l -> slots !! k = Some a -> slot_ok k l a) /\
  tls_load accepts read_cert read_key (reload_tls reload) = Ok identity /\
  prepare_reload to_vec sign (loaded_config sh) config (fingerprint identity) = Ok loaded /\
  match registry with
  | Some r => client_cert_enabled_ reload = true /\ from_config parse_public_key (clients config) = Ok r /\ by_spki r <> ∅
  | None => client_cert_enabled_ reload = false
  end.

Lemma prepare_post reload sh :
  post (prepare to_vec sign read_to_string parse_toml parse_public_key phc_algorithm generate accepts read_cert
          read_key reload sh)
    (fun o => exists config, prepared reload sh config o.1.1.2 o.1.1.1 o.1.2 o.2).
Proof.
  unfold prepare. apply post_bind. destruct (read_to_string _) as [text|] eqn:Htext; [cbn [ok_or post negb]|done].
  apply post_bind. destruct (parse_toml text) as [config|] eqn:Hc; [cbn [ok_or post negb]|done].
  case_bool_decide as Hlen; [cbn [ok_or post negb]|done]. apply post_bind.
  eapply post_mono; [by apply prepare_basic_post|]. intros slots (Hsame & Hl & Hslots).
  apply post_bind. pose proof (tls_load_no_panic (reload_tls reload)) as Hn1.
  destruct (tls_load _ _ _ _) as [id|e|] eqn:Hid; [cbn [map_err post]|done..].
  apply post_bind. pose proof (prepare_reload_no_panic (loaded_config sh) config (fingerprint id)) as Hn2.
  destruct (prepare_reload _ _ _ _ _) as [loaded|e|] eqn:Hload; [cbn [map_err post]|done..].
  apply post_bind. apply (post_mono _ (fun registry => prepared reload sh config id slots loaded registry)).
  2: { intros registry Hp. cbn. by exists config. }
  assert (forall registry, match registry with
    | Some r => client_cert_enabled_ reload = true /\ from_config parse_public_key (clients config) = Ok r /\ by_spki r <> ∅
    | None => client_cert_enabled_ reload = false
    end -> prepared reload sh config id slots loaded registry) as Hdone.
  { intros registry Hr. split; [by exists text|]. split_and!; [exact Hsame|exact Hl|exact Hslots|exact Hid|exact Hload|exact Hr]. }
  destruct (client_cert_enabled_ reload) eqn:Hcert; [|by apply Hdone].
  destruct (any_client_cert_listener config); [cbn [ok_or post negb]|done].
  pose proof (registry_no_panic config true) as Hn3.
  pose proof (registry_selected parse_public_key config true) as Hsel.
  destruct (active_client_registry _ _ _) as [r|e|]; [cbn [map_err post]|done..]. apply Hdone. by destruct (Hsel r eq_refl).
Qed.

(** The state after a reload of [config]. *)
Definition reloaded_to (reload : ConfigReload) (sh sh' : shared) (config : ServerConfig) (o : ReloadOutcome) : Prop :=
  config_reload sh' = config_reload sh /\
  (exists text, read_to_string (reload_path reload) = Some text /\ parse_toml text = Some config) /\
  Forall2 same_listener (reload_listeners reload) (listeners config) /\
  length (shared_basic sh') = length (listeners config) /\
  (forall k l slot, listeners config !! k = Some l -> shared_basic sh' !! k = Some slot ->
     slot_ok k l (option_map Auth.current slot)) /\
  (exists identity, tls_load accepts read_cert read_key (reload_tls reload) = Ok identity /\
     shared_identity sh' = (tls_replace (shared_identity sh) identity).1 /\
     tls_generation o = (generation (Tls.current (shared_identity sh)) + 1) mod 2 ^ 64 /\
     prepare_reload to_vec sign (loaded_config sh) config (fingerprint identity) = Ok (loaded_config sh')) /\
  allocated (shared_pool sh') = allocated (shared_pool sh) /\
  (if client_cert_enabled_ reload then
     exists r, from_config parse_public_key (clients config) = Ok r /\ by_spki r <> ∅ /\
       shared_clients sh' = (replace (shared_clients sh) r).1 /\
       reserved (shared_pool sh') =
         if ip_proxy_enabled reload then list_to_map (static_reservations r) else reserved (shared_pool sh)
   else shared_clients sh' = shared_clients sh /\ shared_pool sh' = shared_pool sh).

Lemma slots_installable startup now slots (old : list (option (SharedBasicAuthenticator (Key:=Key)))) :
  Forall2 same_listener startup now -> length slots = length now ->
  (forall k l a, now !! k = Some l -> slots !! k = Some a -> slot_ok k l a) ->
  Forall2 (fun l slot => rl_auth l = BasicAuth <-> is_Some slot) startup old ->
  Forall2 (fun r slot => is_Some r <-> is_Some slot) slots old.
Proof.
  intros Hsame Hl Hok Hold. apply Forall2_same_length_lookup_2.
  - by rewrite Hl, <- (Forall2_length _ _ _ Hold), <- (Forall2_length _ _ _ Hsame).
  - intros k a slot Ha Hs. destruct (Forall2_lookup_r _ _ _ _ _ Hold Hs) as (st & Hst & Hslot).
    destruct (Forall2_lookup_l _ _ _ _ _ Hsame Hst) as (l & Hln & _ & _ & Hkind).
    specialize (Hok k l a Hln Ha). rewrite <- Hslot, Hkind, auth_kind_basic.
    destruct a as [a|]; cbn in Hok; [by destruct Hok as [-> _]|]. rewrite Hok. by split; [intros [? ?]|].
Qed.

Lemma reservations_post (p : AddressPool N4 N6) l :
  match set_static_reservations p l with
  | (p', Ok _) => reserved p' = list_to_map l /\ allocated p' = allocated p
  | (p', Err e) => p' = p
  | (_, Panic) => False
  end.
Proof.
  unfold set_static_reservations. pose proof (collect_ok p ∅ l (map_Forall_empty _)) as Hc.
  destruct (collect_reservations p ∅ l) as [next|e|]; [|done..]. cbn in Hc |- *.
  destruct Hc as (_ & _ & _ & ->). by rewrite (right_id_L ∅ (∪)).
Qed.

Lemma slots_installed (slots : list (option (BasicAuthenticator (Key:=Key)))) k slot :
  (option_map (fun a => {| Auth.current := a |}) <$> slots) !! k = Some slot ->
  slots !! k = Some (option_map Auth.current slot).
Proof. intros (a & -> & Ha)%list_lookup_fmap_Some. rewrite Ha. by destruct a. Qed.

Lemma put_back (sh : shared) : sh <| shared_pool := shared_pool sh |> = sh.
Proof. by destruct sh. Qed.

Lemma reload_post (sh : shared) :
  slots_match sh ->
  match run sh with
  | (sh', Ok o) => exists reload config, config_reload sh = Some reload /\ reloaded_to reload sh sh' config o
  | (sh', Err _) => sh' = sh
  | (_, Panic) => False
  end.
Proof.
  intros Hslots. unfold reload_configuration. destruct (config_reload sh) as [reload|] eqn:Hreload; [|done].
  pose proof (prepare_post reload sh) as Hp. destruct (prepare _ _ _ _ _ _ _ _ _ _ _ _) as [o|e|]; [|done..].
  destruct Hp as (config & Hp). destruct o as [[[slots id] loaded] registry].
  destruct Hp as (Htext & Hsame & Hlen & Hok & Hid & Hload & Hreg). cbn in Hlen, Hok, Hid, Hload, Hreg.
  destruct (install_basic_post slots (shared_basic sh)) as (n & u & Hinst).
  { eapply slots_installable; [exact Hsame|done|exact Hok|by apply Hslots]. }
  pose proof (reservations_post (shared_pool sh)) as Hres.
  destruct registry as [r|]; [destruct (ip_proxy_enabled reload) eqn:Hip;
    [specialize (Hres (static_reservations r)); destruct (set_static_reservations _ _) as [pool [[]|e|]];
       [|rewrite Hres; apply put_back|done]|]|];
    cbn; rewrite Hinst; cbn; exists reload, config; (split; [done|]); unfold reloaded_to; cbn.
  all: split; [done|]; split; [done|]; split; [done|].
  all: split; [by rewrite length_fmap|].
  all: split; [intros k l slot Hl Hs; by eapply Hok, slots_installed|].
  all: split; [by exists id|].
  - destruct Hreg as (-> & Hr & Hne), Hres as [Hres Ha]. split; [done|]. exists r. by rewrite Hip.
  - destruct Hreg as (-> & Hr & Hne). split; [done|]. exists r. by rewrite Hip.
  - by rewrite Hreg.
Qed.

Lemma reload_slots (sh : shared) : slots_match sh -> slots_match (run sh).1.
Proof.
  intros Hs. pose proof (reload_post sh Hs) as Hp. destruct (run sh) as [sh' [o|e|]]; [|by subst|done]. cbn.
  destruct Hp as (reload & config & Hr & Hr' & _ & Hsame & Hlen & Hok & _). intros reload' Hreload'.
  rewrite Hr', Hr in Hreload'. simplify_eq. apply Forall2_same_length_lookup_2.
  - by rewrite Hlen, (Forall2_length _ _ _ Hsame).
  - intros k st slot Hst Hslot. destruct (Forall2_lookup_l _ _ _ _ _ Hsame Hst) as (l & Hl & _ & _ & Hkind).
    specialize (Hok k l slot Hl Hslot). rewrite Hkind, auth_kind_basic.
    destruct slot as [a|]; cbn in Hok; [by destruct Hok as [-> _]|]. rewrite Hok. by split; [|intros [? ?]].
Qed.
End reload_facts.

(** ** A running server

    The state a server is started with and any number of reloads, each with the
    files and the random keys it finds. *)

Section running.
  Context {N4 N6 Key : Type}
    `{!NetOps N4, !NetLaws 32 N4, !NetOps N6, !NetLaws 128 N6, !NetNew N4, !NetNewLaws 32 N4, !Boring}.
  Context (parse_net : string -> option (IpNet N4 N6)) (parse_v4 : string -> option N4)
    (parse_v6 : string -> option N6).
  Context (linux : bool) (cores : option Z) (Hcores : forall n, cores = Some n -> 1 <= n).
  Context (parse_public_key : bytes -> option bytes) (phc_algorithm : bytes -> option bytes).
  Context (quiche_ok protos_ok acceptor_ok h3_ok : bool) (cc_known : string -> bool).
  Context (to_vec : SectionValue -> option bytes) (sign : bytes -> bytes -> bytes).
  Context (parse_toml : string -> option ServerConfig) (crate_version : string).
  Notation shared := (ReloadShared (N4:=N4) (N6:=N6) (Key:=Key)).

(** [running c path sh config f]: started from [c], the last configuration loaded
    being [config] with the TLS fingerprint [f]. *)
Inductive running (c : ServerConfig) (path : option string) : shared -> ServerConfig -> bytes -> Prop :=
| running_start (generate0 generate : nat -> nat -> option Key) accepts read_cert read_key canonicalize random v sh :
    validate_server_config parse_net parse_v4 parse_v6 linux cores parse_public_key phc_algorithm generate0
      accepts read_cert read_key quiche_ok protos_ok acceptor_ok h3_ok cc_known c = Ok v ->
    bind_shared to_vec sign phc_algorithm generate canonicalize crate_version random c path v = Ok sh ->
    running c path sh c (tls_shared_fingerprint (v_tls v))
| running_reload generate accepts read_cert read_key read_to_string sh config f sh' o reload text config' :
    running c path sh config f ->
    reload_configuration to_vec sign read_to_string parse_toml parse_public_key phc_algorithm
      generate accepts read_cert read_key sh = (sh', Ok o) ->
    config_reload sh = Some reload -> read_to_string (reload_path reload) = Some text ->
    parse_toml text = Some config' ->
    running c path sh' config' (tls_shared_fingerprint (shared_identity sh'))
| running_refused generate accepts read_cert read_key read_to_string sh config f sh' e :
    running c path sh config f ->
    reload_configuration to_vec sign read_to_string parse_toml parse_public_key phc_algorithm
      generate accepts read_cert read_key sh = (sh', Err e) ->
    running c path sh' config f.

Lemma build_basic_slots generate i (plans : list (ResolvedListener N4 N6)) slots :
  build_basic (Key:=Key) phc_algorithm generate i plans = Ok slots ->
  Forall2 (fun p slot => basic_enabled (r_auth p) = true <-> is_Some slot) plans slots.
Proof.
  revert i slots. induction plans as [|p plans IH]; intros i slots; cbn [build_basic]; [by intros [= <-]|].
  intros (slot & Hslot & (rest & Hrest & Hs)%bind_Ok)%bind_Ok. simplify_eq. constructor; [|by eapply IH].
  destruct (basic_enabled (r_auth p)).
  - apply bind_Ok in Hslot as (a & _ & Ha). simplify_eq. by split; [eexists|].
  - simplify_eq. by split; [|intros [? ?]].
Qed.

Lemma running_slots c path sh config f : running c path sh config f -> slots_match sh.
Proof.
  intros Hr. induction Hr as [g0 g acc rc rk can rnd v sh Hv Hb
    |g acc rc rk rs sh config f sh' o reload text config' _ IH Hrun _ _ _|g acc rc rk rs sh config f sh' e _ IH Hrun];
    [|pose proof (reload_slots to_vec sign rs parse_toml parse_public_key phc_algorithm g acc rc rk sh IH) as Hs;
      by rewrite Hrun in Hs..].
  apply (validated_plans parse_net parse_v4 parse_v6 linux cores Hcores) in Hv.
  apply bind_Ok in Hb as (slots & Hslots & Hb). apply map_err_Ok, build_basic_slots in Hslots.
  apply bind_Ok in Hb as (loaded & _ & Hb). simplify_eq.
  intros reload Hreload. cbn in Hreload. destruct path as [path|]; [|done]. cbn in Hreload. simplify_eq. cbn.
  apply Forall2_fmap_l, Forall2_same_length_lookup_2.
  - by rewrite (Forall2_length _ _ _ Hv), (Forall2_length _ _ _ Hslots).
  - intros k l slot Hl Hslot. destruct (Forall2_lookup_l _ _ _ _ _ Hv Hl) as (p & Hp & _ & _ & _ & Ha & _).
    destruct (Forall2_lookup_l _ _ _ _ _ Hslots Hp) as (slot' & Hs' & Hb). simplify_eq. cbn.
    by rewrite auth_kind_basic, <- Ha.
Qed.

(** C8: A reload is one transaction.  Of a server however it was started and
    however often it was reloaded, a reload that fails at any step leaves the
    whole shared state as it was, and none can panic.  One that succeeds took a
    file whose listeners have the startup's addresses, transports, order and kinds
    of authentication; every Basic listener holds the file's credentials; the TLS
    identity is the one now on disk under the startup's paths, under the next
    generation; with certificate listeners the roster is the file's and, when the
    IP proxy was enabled at startup, exactly its pinned addresses are withheld;
    no leased address changes hands; and the evidence is the file's. *)
Theorem reload_transactional c path sh config f generate accepts read_cert read_key read_to_string :
  running c path sh config f ->
  match reload_configuration to_vec sign read_to_string parse_toml parse_public_key phc_algorithm
          generate accepts read_cert read_key sh with
  | (sh', Ok o) => exists reload config', config_reload sh = Some reload /\
      reloaded_to to_vec sign read_to_string parse_toml parse_public_key phc_algorithm generate accepts
        read_cert read_key reload sh sh' config' o
  | (sh', Err _) => sh' = sh
  | (_, Panic) => False
  end.
Proof. intros Hr. apply reload_post. by eapply running_slots. Qed.

(** *** The evidence *)

Definition value_of (c : ServerConfig) (f : bytes) (name : string) : option SectionValue :=
  (list_to_map (section_values c f) : gmap string SectionValue) !! name.

(** What a reload applies: the roster, the credentials and the TLS identity. *)
Definition reloaded (name : string) : bool :=
  String.eqb name "clients" || String.eqb name "basic_credentials" || String.eqb name "tls_identity".
Lemma is_reloadable_sections name : is_reloadable name = reloaded name.
Proof.
  unfold is_reloadable, reloaded. apply Bool.eq_iff_eq_true. rewrite bool_decide_eq_true, !orb_true_iff, !String.eqb_eq.
  set_solver.
Qed.

(** The value of a section that is in force: the last loaded configuration's for
    what a reload applies, the startup's for every other section. *)
Definition in_force (c config : ServerConfig) (f : bytes) (name : string) : option SectionValue :=
  if reloaded name then value_of config f name else value_of c f name.

Definition section_of (key : bytes) (name : string) (bytes : bytes) : Section_ :=
  {| digest_ := sign key bytes; reloadable := reloaded name |}.

Lemma digest_sections_lookup key values m :
  digest_sections to_vec sign key values = Ok m ->
  forall name, match (list_to_map values : gmap string SectionValue) !! name with
    | Some v => exists b, to_vec v = Some b /\ m !! name = Some (section_of key name b)
    | None => m !! name = None
    end.
Proof.
  revert m. induction values as [|[n v] values IH]; intros m; cbn [digest_sections].
  { intros [= <-] name. by rewrite !lookup_empty. }
  intros (b & Hb & (m' & Hm & Hm')%bind_Ok)%bind_Ok name. apply ok_or_Ok in Hb. simplify_eq.
  cbn [list_to_map foldr fst snd]. specialize (IH m' Hm name).
  destruct (decide (n = name)) as [<-|Hne].
  - rewrite !lookup_insert_eq, is_reloadable_sections. by exists b.
  - by rewrite !lookup_insert_ne.
Qed.

(** Every configuration has the same sections. *)
Lemma value_of_same c f c' f' name : is_Some (value_of c f name) <-> is_Some (value_of c' f' name).
Proof.
  unfold value_of. rewrite <- !elem_of_dom, !dom_list_to_map_L. done.
Qed.

Lemma value_of_fixed c f f' name : reloaded name = false -> value_of c f name = value_of c f' name.
Proof.
  intros Hr. assert (name <> "tls_identity"%string) as Hn by (intros ->; vm_compute in Hr; done).
  unfold value_of, section_values. cbn [list_to_map foldr fst snd]. rewrite !lookup_insert.
  by repeat (case_decide; [done|]).
Qed.

Definition evidence_ok (c config : ServerConfig) (f : bytes) (s : Snapshot) : Prop :=
  version s = crate_version /\
  forall name, match in_force c config f name with
    | Some v => exists b, to_vec v = Some b /\ sections_ s !! name = Some (section_of (snapshot_key s) name b)
    | None => sections_ s !! name = None
    end.

Lemma kept_lookup (new : gmap string Section_) name :
  (forall s, new !! name = Some s -> reloadable s = reloaded name) ->
  filter (fun kv => reloadable kv.2 = true) new !! name = if reloaded name then new !! name else None.
Proof.
  intros Hs. destruct (new !! name) as [s|] eqn:Hn.
  - specialize (Hs s eq_refl). destruct (reloaded name).
    + by apply map_lookup_filter_Some_2.
    + apply map_lookup_filter_None_2. right. intros s' Hs' Ht. simplify_eq/=. congruence.
  - destruct (reloaded name); apply map_lookup_filter_None_2; by left.
Qed.

Lemma prepare_evidence c config f s config' f' s' :
  evidence_ok c config f s -> prepare_reload to_vec sign s config' f' = Ok s' -> evidence_ok c config' f' s'.
Proof.
  intros [Hv Hs] (new & Hnew & Hs')%bind_Ok. simplify_eq. split; [done|]. intros name. cbn.
  pose proof (digest_sections_lookup _ _ _ Hnew name) as Hn. specialize (Hs name). unfold in_force in *.
  fold (value_of config' f' name) in Hn. rewrite lookup_union, kept_lookup.
  2: { intros x Hx. destruct (value_of config' f' name); [|congruence]. destruct Hn as (b & _ & Hn).
       rewrite Hx in Hn. by simplify_eq. }
  destruct (reloaded name) eqn:Hr.
  - destruct (value_of config' f' name) as [v|] eqn:Hval.
    + destruct Hn as (b & Hb & ->). exists b. split; [done|]. by destruct (sections_ s !! name).
    + rewrite Hn. destruct (value_of config f name) as [v|] eqn:Hval'; [|by rewrite Hs].
      exfalso. assert (is_Some (value_of config' f' name)) as [? ?]; [|congruence].
      apply (value_of_same config f). by eexists.
  - rewrite (value_of_fixed c f' f) by done. rewrite (left_id_L None (∪)). done.
Qed.

Lemma running_evidence c path sh config f :
  running c path sh config f -> evidence_ok c config f (loaded_config sh).
Proof.
  intros Hr. induction Hr as [g0 g acc rc rk can rnd v sh Hv Hb
    |g acc rc rk rs sh config f sh' o reload text config' Hr IH Hrun Hreload Htext Hparse
    |g acc rc rk rs sh config f sh' e Hr IH Hrun].
  - apply bind_Ok in Hb as (slots & _ & Hb). apply bind_Ok in Hb as (loaded & Hl & Hb). simplify_eq. cbn.
    apply map_err_Ok in Hl. apply bind_Ok in Hl as (key & _ & Hl). apply bind_Ok in Hl as (file & _ & Hl).
    apply bind_Ok in Hl as (m & Hm & Hl). simplify_eq. split; [done|]. intros name. unfold in_force.
    pose proof (digest_sections_lookup _ _ _ Hm name) as Hn. fold (value_of c (tls_shared_fingerprint (v_tls v)) name) in Hn.
    by destruct (reloaded name).
  - pose proof (reload_post to_vec sign rs parse_toml parse_public_key phc_algorithm g acc rc rk sh
      (running_slots _ _ _ _ _ Hr)) as Hp. rewrite Hrun in Hp.
    destruct Hp as (reload' & config'' & Hre & _ & (text' & Ht & Hp) & _ & _ & _ & (id & _ & Hid & _ & Hload) & _).
    simplify_eq. rewrite Hid. by eapply prepare_evidence.
  - pose proof (reload_post to_vec sign rs parse_toml parse_public_key phc_algorithm g acc rc rk sh
      (running_slots _ _ _ _ _ Hr)) as Hp. rewrite Hrun in Hp. by subst.
Qed.

(** What the status says of one section. *)
Definition state_of (key : bytes) (name : string) (disk loaded : option bytes) : Applied :=
  if bool_decide (sign key <$> disk = sign key <$> loaded) then IsApplied
  else if reloaded name then ReloadRequired else RestartRequired.

Lemma compare_sections_post c config f s l :
  evidence_ok c config f s ->
  (forall name x, (name, x) ∈ l -> exists v b, in_force c config f name = Some v /\
     x = section_of (snapshot_key s) name b) ->
  exists states, compare_sections (sections_ s) l = Ok states /\
    forall name b, (name, section_of (snapshot_key s) name b) ∈ l ->
      exists v b', in_force c config f name = Some v /\ to_vec v = Some b' /\
        (name, state_of (snapshot_key s) name (Some b) (Some b')) ∈ states.
Proof.
  intros [_ Hs]. induction l as [|[n x] l IH]; intros Hl; cbn [compare_sections].
  { exists []. split; [done|]. by intros name b Hin%elem_of_nil. }
  destruct IH as (states & Hst & Hin); [intros name y Hy; apply Hl; by right|].
  destruct (Hl n x) as (v & b & Hv & ->); [by left|]. specialize (Hs n). rewrite Hv in Hs.
  destruct Hs as (b' & Hb' & ->). cbn. rewrite Hst. cbn. eexists. split; [done|].
  intros name b1 [Heq|Hin1]%elem_of_cons.
  - injection Heq as -> Hb1. exists v, b'. split; [done|]. split; [done|]. apply elem_of_cons. left.
    unfold state_of. cbn. rewrite Hb1.
    case_bool_decide as H1; case_bool_decide as H2; [done|congruence|congruence|done].
  - destruct (Hin _ _ Hin1) as (v1 & b2 & ? & ? & ?). exists v1, b2. split; [done|]. split; [done|]. by right.
Qed.
Lemma in_force_same c config f c' f' name :
  is_Some (in_force c config f name) <-> is_Some (value_of c' f' name).
Proof. unfold in_force. destruct (reloaded name); apply value_of_same. Qed.

Lemma evidence_size c config f s c' f' disk :
  evidence_ok c config f s -> sections to_vec sign (snapshot_key s) c' f' = Ok disk ->
  size (sections_ s) = size disk.
Proof.
  intros [_ Hs] Hd. rewrite <- !size_dom. f_equal. apply set_eq. intros name. rewrite !elem_of_dom.
  pose proof (digest_sections_lookup _ _ _ Hd name) as Hn. fold (value_of c' f' name) in Hn. specialize (Hs name).
  pose proof (in_force_same c config f c' f' name) as Hsame.
  destruct (in_force c config f name) as [v|], (value_of c' f' name) as [v'|].
  - destruct Hs as (b & _ & ->), Hn as (b' & _ & ->). done.
  - exfalso. destruct Hsame as [[? ?] _]; [by eexists|done].
  - exfalso. destruct Hsame as [_ [? ?]]; [by eexists|done].
  - by rewrite Hs, Hn.
Qed.

(** C33: The status a running server gives is the truth about its configuration.
    However it was started and reloaded, each section of the file compared is
    reported as applied exactly when its keyed digest is that of the value in
    force: the last loaded one for the credentials, the roster and the TLS
    identity, the startup's for every other section.  A section that differs is
    said to need a reload only when a reload would apply it, and a restart
    otherwise; and the comparison fails only for a path that cannot be resolved,
    for another file, or for a value that cannot be serialised. *)
Theorem status_truthful c path sh config f canonicalize path' c' f' :
  running c path sh config f ->
  match compare to_vec sign canonicalize crate_version (loaded_config sh) path' c' f' with
  | Ok states => forall name v, value_of c' f' name = Some v ->
      exists v' b b', in_force c config f name = Some v' /\ to_vec v = Some b /\ to_vec v' = Some b' /\
        (name, state_of (snapshot_key (loaded_config sh)) name (Some b) (Some b')) ∈ states
  | Err e => e = PathUnresolved \/ e = OtherFile \/ e = NotSerializable
  | Panic => False
  end.
Proof.
  intros Hr. apply running_evidence in Hr. set (s := loaded_config sh) in *. unfold compare.
  rewrite bool_decide_true by apply Hr. cbn [negb]. unfold file_digest.
  destruct (canonicalize path') as [file|]; cbn [ok_or mbind result_bind]; [|by left].
  case_bool_decide; cbn [negb]; [|by right; left].
  destruct (sections to_vec sign (snapshot_key s) c' f') as [disk|e|] eqn:Hd; cbn [mbind result_bind].
  - rewrite bool_decide_true by (by eapply evidence_size). cbn [negb].
    assert (forall name x, (name, x) ∈ by_name disk <-> disk !! name = Some x) as Hin.
    { intros name x. unfold by_name. rewrite merge_sort_Permutation. apply elem_of_map_to_list. }
    assert (forall name, match value_of c' f' name with
      | Some v => exists b, to_vec v = Some b /\ disk !! name = Some (section_of (snapshot_key s) name b)
      | None => disk !! name = None end) as Hn by exact (digest_sections_lookup _ _ _ Hd).
    destruct (compare_sections_post c config f s (by_name disk) Hr) as (states & -> & Hst).
    + intros name x Hx%Hin. specialize (Hn name). destruct (value_of c' f' name) as [v|] eqn:Hv; [|congruence].
      destruct Hn as (b & _ & Hn). destruct (proj2 (in_force_same c config f c' f' name)) as [v' Hv']; [by eexists|].
      exists v', b. split; [done|congruence].
    + intros name v Hv. specialize (Hn name). rewrite Hv in Hn. destruct Hn as (b & Hb & Hn).
      apply Hin in Hn. destruct (Hst _ _ Hn) as (v' & b' & Hf & Hb' & Hi). exists v', b, b'. done.
  - right. right. unfold sections in Hd. revert e Hd.
    induction (section_values c' f') as [|[n v] l IH]; intros e; cbn [digest_sections]; [done|].
    destruct (to_vec v); cbn [ok_or mbind result_bind]; [|by intros [= <-]].
    destruct (digest_sections _ _ _ l); cbn; [done| |done]. intros [= <-]. by apply IH.
  - revert Hd. unfold sections. induction (section_values c' f') as [|[n v] l IH]; cbn [digest_sections]; [done|].
    destruct (to_vec v); cbn [ok_or mbind result_bind]; [|done].
    by destruct (digest_sections _ _ _ l).
Qed.
End running.

(** ** Witnesses *)

(** A serialiser that tells two identities apart, and a digest that keeps its
    input. *)
Definition sample_to_vec (v : SectionValue) : option bytes :=
  Some (match v with VIdentity b => b | VCredentials users => Z.of_nat (length users) :: [1] | _ => [] end).

Definition sample_bind : result ReloadError (@ReloadShared Cidr Cidr6 nat plain_boring) :=
  @bind_shared Cidr Cidr6 nat plain_boring sample_to_vec (fun _ b => b) (fun _ => Some (str "argon2id"))
    (fun l i => Some (l + i)%nat) (fun p => Some (str p)) "1.0" (Some [42]) sample_config
    (Some "server.toml"%string) sample_validated.

Definition sample_shared : @ReloadShared Cidr Cidr6 nat plain_boring :=
  Eval vm_compute in
  match sample_bind with
  | Ok sh => sh
  | _ => {| config_reload := None; shared_basic := []; shared_clients := roster_new {| by_spki := ∅ |};
            shared_identity := tls_new (plain_identity 0); shared_pool := v_address_pool sample_validated;
            loaded_config := {| version := EmptyString; snapshot_key := []; config_file := None; sections_ := ∅ |} |}
  end.

Notation sample_running := (@running Cidr Cidr6 nat _ _ _ plain_boring sample_parse sample_pool_v4 sample_pool_v6
  true (Some 8) (fun k => Some k) (fun _ => Some (str "argon2id")) true true true true (fun _ => true)
  sample_to_vec (fun _ b => b) (fun _ => Some sample_config) "1.0" sample_config (Some "server.toml"%string)).

Lemma sample_started : sample_running sample_shared sample_config (tls_shared_fingerprint (v_tls sample_validated)).
Proof.
  eapply (@running_start Cidr Cidr6 nat _ _ _ plain_boring sample_parse sample_pool_v4 sample_pool_v6
    true (Some 8) (fun k => Some k) (fun _ => Some (str "argon2id")) true true true true (fun _ => true)
    sample_to_vec (fun _ b => b) (fun _ => Some sample_config) "1.0" sample_config (Some "server.toml"%string)
    (fun l i => Some (l + i)%nat) (fun l i => Some (l + i)%nat) (fun _ _ => true) plain_files plain_files
    (fun p => Some (str p)) (Some [42])); vm_compute; reflexivity.
Defined.

(** New certificate files: the identity is replaced under generation one. *)
Definition renewed_files (path : string) : option bytes :=
  if bool_decide (path = "certs/server.crt"%string) then Some [8; 7]
  else if bool_decide (path = "certs/server.key"%string) then Some [9] else None.

Definition sample_reload (cert key : string -> option bytes) :=
  @reload_configuration Cidr Cidr6 nat _ _ plain_boring sample_to_vec (fun _ b => b) (fun p => Some p)
    (fun _ => Some sample_config) (fun k => Some k) (fun _ => Some (str "argon2id"))
    (fun l i => Some (l + i)%nat) (fun _ _ => true) cert key sample_shared.

Lemma reload_transactional_witness :
  (exists sh o, sample_reload renewed_files renewed_files = (sh, Ok o) /\ tls_generation o = 1 /\
     config_reload sh = config_reload sample_shared) /\
  (exists e, sample_reload renewed_files plain_files = (sample_shared, Err e)).
Proof.
  assert (forall n, Some 8 = Some n -> 1 <= n) as Hc by (intros n E; injection E as <-; lia).
  split.
  - pose proof (@reload_transactional Cidr Cidr6 nat _ _ _ _ _ _ plain_boring sample_parse sample_pool_v4
      sample_pool_v6 true (Some 8) Hc (fun k => Some k) (fun _ => Some (str "argon2id")) true true true true
      (fun _ => true) sample_to_vec (fun _ b => b) (fun _ => Some sample_config) "1.0" sample_config
      (Some "server.toml"%string) sample_shared sample_config _ (fun l i => Some (l + i)%nat) (fun _ _ => true)
      renewed_files renewed_files (fun p => Some p) sample_started) as H.
    fold (sample_reload renewed_files renewed_files) in H.
    destruct (sample_reload renewed_files renewed_files) as [sh [o|e|]] eqn:E;
      [|exfalso; vm_compute in E; discriminate E..].
    exists sh, o. destruct H as (reload & config & _ & H & _). split; [reflexivity|].
    split; [vm_compute in E; injection E as <- <-; reflexivity|exact H].
  - pose proof (@reload_transactional Cidr Cidr6 nat _ _ _ _ _ _ plain_boring sample_parse sample_pool_v4
      sample_pool_v6 true (Some 8) Hc (fun k => Some k) (fun _ => Some (str "argon2id")) true true true true
      (fun _ => true) sample_to_vec (fun _ b => b) (fun _ => Some sample_config) "1.0" sample_config
      (Some "server.toml"%string) sample_shared sample_config _ (fun l i => Some (l + i)%nat) (fun _ _ => true)
      renewed_files plain_files (fun p => Some p) sample_started) as H.
    fold (sample_reload renewed_files plain_files) in H.
    destruct (sample_reload renewed_files plain_files) as [sh [o|e|]] eqn:E;
      [exfalso; vm_compute in E; discriminate E| |exfalso; vm_compute in E; discriminate E].
    exists e. rewrite H. reflexivity.
Defined.

(** The identity on disk has changed since the start. *)
Lemma status_truthful_witness :
  exists states, compare sample_to_vec (fun _ b => b) (fun p => Some (str p)) "1.0" (loaded_config sample_shared)
      "server.toml" sample_config [9] = Ok states /\
    ("tls_identity"%string, ReloadRequired) ∈ states /\ ("server"%string, IsApplied) ∈ states.
Proof.
  assert (forall n, Some 8 = Some n -> 1 <= n) as Hc by (intros n E; injection E as <-; lia).
  pose proof (@status_truthful Cidr Cidr6 nat _ _ _ _ _ _ plain_boring sample_parse sample_pool_v4
    sample_pool_v6 true (Some 8) Hc (fun k => Some k) (fun _ => Some (str "argon2id")) true true true true
    (fun _ => true) sample_to_vec (fun _ b => b) (fun _ => Some sample_config) "1.0" sample_config
    (Some "server.toml"%string) sample_shared sample_config _ (fun p => Some (str p)) "server.toml" sample_config [9]
    sample_started) as H.
  destruct (compare _ _ _ _ _ _ _ _) as [states|e|] eqn:E; [|exfalso; vm_compute in E; discriminate E..].
  exists states. split; [reflexivity|]. split.
  - destruct (H "tls_identity"%string (VIdentity [9]) eq_refl) as (v' & b & b' & Hf & Hb & Hb' & Hin).
    vm_compute in Hf. injection Hf as <-. vm_compute in Hb, Hb'. injection Hb as <-. injection Hb' as <-.
    exact Hin.
  - destruct (H "server"%string (VServer ServerSection_default) eq_refl) as (v' & b & b' & Hf & Hb & Hb' & Hin).
    vm_compute in Hf. injection Hf as <-. vm_compute in Hb, Hb'. injection Hb as <-. injection Hb' as <-.
    exact Hin.
Defined.
