(* ===== verification/Pacing.v ===== *)
(** * Paced output of a connection (src/connection.rs, src/server/shard_output.rs)

    The bounded queue of packets held back until their release time, and the
    loop of [drive_connections] that asks the library for packets, groups them
    into batches and sends them.  Times are in nanoseconds. *)

From stdpp Require Import list.
From S2P Require Import Prelude Net TargetUdp Quiche QuicBatch.
Open Scope Z_scope.

Definition MAX_DEFERRED_PACKETS : nat := 64.
Definition MAX_DEFERRED_BYTES : Z := 128 * 1024.
Definition PACING_HORIZON : Z := 1000000.
#[global] Arguments MAX_DEFERRED_PACKETS : simpl never.

(** A [Vec<u8>]: its bytes and its capacity. *)
Record Buffer := { contents : bytes; capacity : Z }.
Definition no_buffer : Buffer := {| contents := []; capacity := 0 |}.

(** The allocator: [Vec::with_capacity(n)] holds at least [n] bytes. *)
Class Allocator := with_capacity : Z -> Z.
Class AllocatorLaws `{Allocator} : Prop := with_capacity_holds : forall n, n <= with_capacity n.

Record DeferredSend := {
  packets : list (Buffer * SendInfo);
  spare : list Buffer;
  deferred_bytes : Z;
  spare_bytes : Z;
}.
Definition deferred_default : DeferredSend := {| packets := []; spare := []; deferred_bytes := 0; spare_bytes := 0 |}.

Definition deadline (d : DeferredSend) : option Z := (fun p => info_at (snd p)) <$> head (packets d).
Definition deferred_len (d : DeferredSend) : nat := length (packets d).

Definition has_capacity (d : DeferredSend) (max_packet_size : Z) : bool :=
  bool_decide (length (packets d) < MAX_DEFERRED_PACKETS)%nat &&
  bool_decide (Z.min (deferred_bytes d + max_packet_size) USIZE_MAX <= MAX_DEFERRED_BYTES).

Definition can_prefetch (d : DeferredSend) : bool :=
  match head (packets d), last (packets d) with
  | Some (_, first), Some (_, final) => bool_decide (info_at final <= info_at first + PACING_HORIZON)
  | _, _ => true
  end.

Section queue.
Context `{Allocator}.

(** The [debug_assert!] on the capacity counts as a panic, as in a debug build. *)
Definition schedule (d : DeferredSend) (packet : bytes) (info : SendInfo) : result Empty_set DeferredSend :=
  if negb (has_capacity d (zlen packet)) then Panic else
  let buffer := default no_buffer (last (spare d)) in
  let spare' := take (length (spare d) - 1) (spare d) in
  spare_bytes' ← usize_sub (spare_bytes d) (capacity buffer);
  let capacity' :=
    if bool_decide (capacity buffer < zlen packet) ||
       bool_decide (capacity buffer > Z.max (Z.min (zlen packet * 2) USIZE_MAX) 2048)
    then with_capacity (zlen packet) else capacity buffer in
  Ok {| packets := packets d ++ [({| contents := packet; capacity := capacity' |}, info)];
        spare := spare'; deferred_bytes := deferred_bytes d + zlen packet; spare_bytes := spare_bytes' |}.

Definition take_if_due (d : DeferredSend) (now_ : Z)
    : result Empty_set (DeferredSend * option (Buffer * SendInfo)) :=
  match packets d with
  | [] => Ok (d, None)
  | packet :: rest =>
      if bool_decide (info_at (snd packet) > now_) then Ok (d, None) else
      b ← usize_sub (deferred_bytes d) (zlen (contents (fst packet)));
      Ok ({| packets := rest; spare := spare d; deferred_bytes := b; spare_bytes := spare_bytes d |}, Some packet)
  end.

Definition recycle (d : DeferredSend) (packet : Buffer) : DeferredSend :=
  if bool_decide (length (spare d) < MAX_DEFERRED_PACKETS)%nat &&
     bool_decide (spare_bytes d + capacity packet <= MAX_DEFERRED_BYTES)
  then {| packets := packets d; spare := spare d ++ [{| contents := []; capacity := capacity packet |}];
          deferred_bytes := deferred_bytes d; spare_bytes := spare_bytes d + capacity packet |}
  else d.

Definition discard_step (d : DeferredSend) : result Empty_set (DeferredSend + DeferredSend) :=
  match packets d with
  | [] => Ok (inr d)
  | (packet, _) :: rest =>
      b ← usize_sub (deferred_bytes d) (zlen (contents packet));
      Ok (inl (recycle {| packets := rest; spare := spare d; deferred_bytes := b; spare_bytes := spare_bytes d |} packet))
  end.
Definition discard : DeferredSend -> result Empty_set DeferredSend := while deferred_len discard_step.
End queue.

(** ** The send loop of one connection *)

Section drive.
Context `{Allocator} `{Quiche}.
(** The answers of the socket, one family of system calls per batch. *)
Context (sendmmsg : nat -> nat -> list WireMessage -> result Z nat).
Context (send_to : nat -> nat -> bytes -> SocketAddr -> result Z Z).

(** What was handed to the socket: the packets of a batch in order, the history
    of the connection before the call, and how the sending ended. *)
Record Sent := { sent_packets : list (bytes * SendInfo); sent_gso : bool; sent_after : conn; sent_end : SendEnd }.

Record Driven := {
  quic : conn;
  deferred : DeferredSend;
  batch : SendPacketBatch;
  gso : bool;
  log : list Sent;
}.

(** A batch being built: the loop state with the packets pushed so far. *)
Record Build := {
  b_quic : conn; b_deferred : DeferredSend; b_batch : SendPacketBatch; b_pushed : list (bytes * SendInfo);
  b_generated : Z; b_done : bool; b_blocked : bool;
}.

(** [batch.push], with the packets remembered. *)
Definition push_packet (gso_ : bool) (quantum : Z) (p : bytes) (info : SendInfo) (b : Build) : result Empty_set Build :=
  batch' ← push p info gso_ quantum (b_batch b);
  Ok {| b_quic := b_quic b; b_deferred := b_deferred b; b_batch := batch'; b_pushed := b_pushed b ++ [(p, info)];
        b_generated := b_generated b; b_done := b_done b; b_blocked := b_blocked b |}.

(** Releases the packets that are due, up to one horizon ahead. *)
Definition release_step (gso_ : bool) (quantum horizon : Z) (b : Build) : result Empty_set (Build + Build) :=
  r ← take_if_due (b_deferred b) horizon;
  let '(d, packet) := r in
  match packet with
  | None => Ok (inr b)
  | Some (p, info) =>
      b ← push_packet gso_ quantum (contents p) info
            {| b_quic := b_quic b; b_deferred := d; b_batch := b_batch b; b_pushed := b_pushed b;
               b_generated := b_generated b + zlen (contents p); b_done := b_done b; b_blocked := b_blocked b |};
      Ok (inl {| b_quic := b_quic b; b_deferred := recycle (b_deferred b) p; b_batch := b_batch b; b_pushed := b_pushed b;
                 b_generated := b_generated b; b_done := b_done b; b_blocked := b_blocked b |})
  end.

(** Asks the library for one more packet. *)
Definition generate_step (gso_ : bool) (quantum max_packet_size : Z) (b : Build) : result Empty_set (Build + Build) :=
  if negb (b_blocked b) &&
     bool_decide (packet_count (b_batch b) + Z.of_nat (deferred_len (b_deferred b)) < Z.of_nat MAX_BATCH_PACKETS) &&
     bool_decide (b_generated b < quantum) && has_capacity (b_deferred b) max_packet_size
  then
    let '(r, q) := do send (b_quic b) in
    match r with
    | Ok (p, info) =>
        let '(t, q) := do now q in
        let b := {| b_quic := q; b_deferred := b_deferred b; b_batch := b_batch b; b_pushed := b_pushed b;
                    b_generated := b_generated b + zlen p; b_done := b_done b; b_blocked := b_blocked b |} in
        if bool_decide (info_at info > t + PACING_HORIZON) || negb (bool_decide (deferred_len (b_deferred b) = 0%nat)) then
          d ← schedule (b_deferred b) p info;
          Ok (inl {| b_quic := b_quic b; b_deferred := d; b_batch := b_batch b; b_pushed := b_pushed b;
                     b_generated := b_generated b; b_done := b_done b;
                     b_blocked := b_blocked b || negb (can_prefetch d) |})
        else b ← push_packet gso_ quantum p info b; Ok (inl b)
    | Err QuicDone =>
        Ok (inr {| b_quic := q; b_deferred := b_deferred b; b_batch := b_batch b; b_pushed := b_pushed b;
                   b_generated := b_generated b; b_done := true; b_blocked := b_blocked b |})
    | Err _ =>
        Ok (inr {| b_quic := exec (close false 1) q; b_deferred := b_deferred b; b_batch := b_batch b;
                   b_pushed := b_pushed b; b_generated := b_generated b; b_done := true; b_blocked := b_blocked b |})
    | Panic => Panic
    end
  else Ok (inr b).

(** The first part of an iteration: nothing when the oldest packet is not due. *)
Definition release (quantum : Z) (s : Driven) : result Empty_set (option Build) :=
  let b := {| b_quic := quic s; b_deferred := deferred s; b_batch := clear (batch s); b_pushed := [];
              b_generated := 0; b_done := false; b_blocked := false |} in
  match deadline (deferred s) with
  | None => Ok (Some b)
  | Some at_ =>
      let '(t, q) := do now (quic s) in
      let b := {| b_quic := q; b_deferred := b_deferred b; b_batch := b_batch b; b_pushed := b_pushed b;
                  b_generated := b_generated b; b_done := b_done b; b_blocked := b_blocked b |} in
      if bool_decide (at_ > t) then Ok None else
      b ← while (fun b => deferred_len (b_deferred b)) (release_step (gso s) quantum (t + PACING_HORIZON)) b;
      Ok (Some {| b_quic := b_quic b; b_deferred := b_deferred b; b_batch := b_batch b; b_pushed := b_pushed b;
                  b_generated := b_generated b; b_done := b_done b;
                  b_blocked := match deadline (b_deferred b) with Some _ => true | None => false end |})
  end.

(** How many packets the group under construction can still take. *)
Definition room (b : Build) : nat :=
  (MAX_BATCH_PACKETS - (Z.to_nat (packet_count (b_batch b)) + deferred_len (b_deferred b)))%nat.

Definition drive_iter (s : Driven) : result Empty_set (Driven + Driven) :=
  let max_packet_size := ask max_send_udp_payload_size (quic s) in
  let quantum := Z.min (Z.max (ask send_quantum (quic s)) max_packet_size) MAX_DATAGRAM_SIZE in
  r ← release quantum s;
  match r with
  | None => Ok (inr {| quic := exec now (quic s); deferred := deferred s; batch := clear (batch s);
                       gso := gso s; log := log s |})
  | Some b =>
      b ← while room (generate_step (gso s) quantum max_packet_size) b;
      let s' := {| quic := b_quic b; deferred := b_deferred b; batch := b_batch b; gso := gso s; log := log s |} in
      if batch_is_empty (b_batch b) then Ok (inr s') else
      e ← send_batch (sendmmsg (length (log s))) (send_to (length (log s))) (gso s) (b_batch b);
      let s' := {| quic := b_quic b; deferred := b_deferred b; batch := b_batch b; gso := end_gso e;
                   log := log s ++ [{| sent_packets := b_pushed b; sent_gso := gso s; sent_after := b_quic b; sent_end := e |}] |} in
      if b_done b || b_blocked b || match deadline (b_deferred b) with Some _ => true | None => false end
      then Ok (inr s') else Ok (inl s')
  end.

(** The packets the library can still produce before it answers [Done]. *)
Context (budget : conn -> nat).
Definition drive (s : Driven) : result Empty_set Driven :=
  while (fun s => budget (quic s) + deferred_len (deferred s))%nat drive_iter s.
End drive.

(** ** The queue *)

(** The packets of the queue, in order. *)
Definition held (d : DeferredSend) : list (bytes * SendInfo) := map (fun x => (contents (fst x), snd x)) (packets d).

(** The byte counts are those of the stored buffers and both lists are bounded. *)
Record queue_ok (d : DeferredSend) : Prop := {
  q_bytes : deferred_bytes d = sum_of (fun x => zlen (contents (fst x))) (packets d);
  q_spare : spare_bytes d = sum_of capacity (spare d);
  q_caps : Forall (fun b => 0 <= capacity b) (spare d);
  q_packets : Forall (fun x => 0 < zlen (contents (fst x)) <= capacity (fst x)) (packets d);
  q_len : (length (packets d) <= MAX_DEFERRED_PACKETS)%nat;
  q_spare_len : (length (spare d) <= MAX_DEFERRED_PACKETS)%nat;
  q_spare_max : spare_bytes d <= MAX_DEFERRED_BYTES;
}.

Lemma queue_default_ok : queue_ok deferred_default.
Proof. split; simpl; try done; try apply Forall_nil_2; unfold MAX_DEFERRED_PACKETS; lia. Qed.

Lemma held_snoc ps x sp n m :
  held {| packets := ps ++ [x]; spare := sp; deferred_bytes := n; spare_bytes := m |}
  = map (fun x => (contents (fst x), snd x)) ps ++ [(contents (fst x), snd x)].
Proof. unfold held. simpl. by rewrite map_app. Qed.

(** The last spare buffer, or none. *)
Lemma spare_pop (sp : list Buffer) :
  Forall (fun b => 0 <= capacity b) sp ->
  let b := default no_buffer (last sp) in let sp' := take (length sp - 1) sp in
  0 <= capacity b /\ sum_of capacity sp = sum_of capacity sp' + capacity b /\ Forall (fun b => 0 <= capacity b) sp'.
Proof.
  intros Hf. destruct sp as [|b sp' _] using rev_ind; [simpl; split_and!; [lia|done|by apply Forall_nil_2]|].
  rewrite last_snoc, length_app. simpl. replace (length sp' + 1 - 1)%nat with (length sp') by lia.
  rewrite take_app_length, sum_of_app. apply Forall_app in Hf as [Hf Hb]. rewrite Forall_singleton in Hb.
  split_and!; [done| |done]. simpl. lia.
Qed.

Section queue_lemmas.
Context `{Allocator} `{!AllocatorLaws}.

Lemma has_capacity_mono d n m : n <= m -> has_capacity d m = true -> has_capacity d n = true.
Proof.
  unfold has_capacity. intros Hn [H1 H2%bool_decide_eq_true]%andb_true_iff. rewrite H1. apply bool_decide_eq_true. lia.
Qed.

Lemma schedule_ok d p info :
  queue_ok d -> has_capacity d (zlen p) = true -> 0 < zlen p ->
  exists d', schedule d p info = Ok d' /\ queue_ok d' /\ held d' = held d ++ [(p, info)] /\
    deferred_bytes d' <= MAX_DEFERRED_BYTES.
Proof using All.
  intros [H1 H2 H3 H4 H5 H6 H7] Hcap Hp. unfold schedule. rewrite Hcap. cbn [negb].
  unfold has_capacity in Hcap. apply andb_true_iff in Hcap as [Hlt%bool_decide_eq_true Hmax%bool_decide_eq_true].
  assert (deferred_bytes d + zlen p <= MAX_DEFERRED_BYTES) as Hb by (unfold USIZE_MAX, U64_MAX, MAX_DEFERRED_BYTES in *; lia).
  destruct (spare_pop _ H3) as (Hc & Hsum & Hf).
  set (b := default no_buffer (last (spare d))) in *. set (sp := take _ _) in *. cbv zeta in *.
  pose proof (sum_of_nonneg _ _ Hf). unfold usize_sub. rewrite (bool_decide_true (_ <= spare_bytes d)) by lia. cbn [mbind result_bind].
  eexists. split; [done|]. split; [|by rewrite held_snoc]. split; simpl; [| | | | | |lia].
  - rewrite sum_of_app. simpl. lia.
  - lia.
  - done.
  - apply Forall_app. split; [done|]. apply Forall_singleton. simpl. split; [done|].
    case_bool_decide; simpl; [apply with_capacity_holds|]. case_bool_decide; [apply with_capacity_holds|lia].
  - rewrite length_app. simpl. lia.
  - unfold sp. rewrite length_take. lia.
Qed.

Lemma take_if_due_ok d t :
  queue_ok d -> exists d' r, take_if_due d t = Ok (d', r) /\ queue_ok d' /\
    match r with
    | None => d' = d /\ (forall at_, deadline d = Some at_ -> t < at_)
    | Some (p, info) => held d = (contents p, info) :: held d' /\ info_at info <= t /\
        deferred_bytes d' = deferred_bytes d - zlen (contents p) /\ 0 < zlen (contents p) <= capacity p
    end.
Proof.
  intros Hq. pose proof Hq as [H1 H2 H3 H4 H5 H6 H7]. unfold take_if_due, deadline.
  destruct d as [ps sp n m]. simpl in *.
  destruct ps as [|[p info] rest]; [by exists {| packets := []; spare := sp; deferred_bytes := n; spare_bytes := m |}, None|].
  case_bool_decide as Hat; simpl in *.
  - eexists _, None. split_and!; [done|done|done|]. intros ? [= <-]. lia.
  - inversion H4 as [|?? Hpk Hrest]; subst. simpl in Hpk. unfold usize_sub.
    assert (0 <= sum_of (fun x : Buffer * SendInfo => zlen (contents x.1)) rest)
      by (apply sum_of_nonneg, Forall_forall; intros; apply zlen_nonneg).
    unfold sum_of in *. simpl in *.
    rewrite bool_decide_true by lia. cbn [mbind result_bind]. eexists _, (Some (p, info)). split; [done|].
    split_and!; [|done|simpl; lia|simpl; lia|lia|lia]. split; simpl; try done; try lia. unfold sum_of. lia.
Qed.

Lemma recycle_ok d p :
  queue_ok d -> 0 <= capacity p -> queue_ok (recycle d p) /\ held (recycle d p) = held d /\
  deferred_bytes (recycle d p) = deferred_bytes d /\ packets (recycle d p) = packets d.
Proof.
  intros Hq Hp. pose proof Hq as [H1 H2 H3 H4 H5 H6 H7]. unfold recycle.
  destruct (_ && _) eqn:Hc; [|done]. apply andb_true_iff in Hc as [Hc1%bool_decide_eq_true Hc2%bool_decide_eq_true].
  split_and!; [|done|done|done]. split; simpl; try done.
  - rewrite sum_of_app. simpl. lia.
  - apply Forall_app. split; [done|by apply Forall_singleton].
  - rewrite length_app. simpl. lia.
Qed.

Lemma discard_ok d : queue_ok d -> post (discard d) (fun d' => queue_ok d' /\ packets d' = [] /\ deferred_bytes d' = 0).
Proof.
  intros Hq. unfold discard. apply (post_while_inv _ _ queue_ok); [|done]. clear d Hq. intros d Hq.
  pose proof (take_if_due_ok d (match deadline d with Some t => t | None => 0 end) Hq) as (d' & r & Ht & Hq' & Hr).
  unfold discard_step, take_if_due, deadline in *. destruct (packets d) as [|[p info] rest] eqn:Hps; simpl in *.
  - split_and!; [done|done|]. by rewrite (q_bytes _ Hq), Hps.
  - rewrite bool_decide_false in Ht by lia. unfold usize_sub in *. case_bool_decide; [|done]. simpl in *.
    simplify_eq. destruct Hr as (_ & _ & _ & Hc).
    destruct (recycle_ok _ p Hq' ltac:(pose proof (zlen_nonneg (contents p)); lia)) as (Hok & _ & _ & Hpk).
    split; [exact Hok|]. unfold deferred_len. rewrite Hpk, Hps. simpl. lia.
Qed.
End queue_lemmas.

(** ** The send loop *)

(** What the loop relies on: a packet is not empty and no longer than the
    largest payload the library says it sends, which sending and reading the
    clock do not raise, and between packets from the peer the library runs out
    of packets to produce. *)
Class SendLaws `{Quiche} (budget : conn -> nat) : Prop := {
  send_size : forall q p info, answer _ q send = Ok (p, info) -> 0 < zlen p <= query_answer _ q max_send_udp_payload_size;
  send_keeps_size : forall q x, query_answer _ (q ++ [Ev send x]) max_send_udp_payload_size
    <= query_answer _ q max_send_udp_payload_size;
  clock_keeps_size : forall q t, query_answer _ (q ++ [Ev now t]) max_send_udp_payload_size
    <= query_answer _ q max_send_udp_payload_size;
  send_returns : forall q, answer _ q send <> Panic;
  send_ends : forall q x, answer _ q send = Ok x -> (budget (q ++ [Ev send (Ok x)]) < budget q)%nat;
  clock_keeps : forall q t, (budget (q ++ [Ev now t]) <= budget q)%nat;
}.

(** A packet leaves at most one horizon before its time. *)
Definition on_time (q : conn) (x : bytes * SendInfo) : Prop :=
  exists t, t ∈ omap clock_reading q /\ info_at (snd x) <= t + PACING_HORIZON.

Lemma on_time_mono q e x : on_time q x -> on_time (q ++ e) x.
Proof. intros (t & Ht & Hx). exists t. split; [|done]. rewrite omap_app, elem_of_app. by left. Qed.

Lemma on_time_now q t x : info_at (snd x) <= t + PACING_HORIZON -> on_time (q ++ [Ev now t]) x.
Proof. intros Hx. exists t. split; [|done]. rewrite omap_app, elem_of_app. right. simpl. by apply list_elem_of_singleton. Qed.

Lemma on_time_all q e l : Forall (on_time q) l -> Forall (on_time (q ++ e)) l.
Proof. intros Hl. eapply Forall_impl; [exact Hl|]. intros x. apply on_time_mono. Qed.

Section loop.
Context `{HA : Allocator} `{HAL : !AllocatorLaws} `{HQ : Quiche} (budget : conn -> nat) `{HS : !SendLaws budget}.
(** The packets sent before this batch, those waiting and generated before, and
    the history and budget at its start. *)
Context (sent base : list (bytes * SendInfo)) (q0 : conn) (limit : nat) (g : bool).

Record build_ok (b : Build) : Prop := {
  bo_batch : batch_holds g (b_batch b) (b_pushed b);
  bo_queue : queue_ok (b_deferred b);
  bo_bytes : deferred_bytes (b_deferred b) <= MAX_DEFERRED_BYTES;
  bo_flow : exists new, b_quic b = q0 ++ new /\
    sent ++ b_pushed b ++ held (b_deferred b) = base ++ omap generated_packet new;
  bo_room : (length (b_pushed b) + deferred_len (b_deferred b) <= MAX_BATCH_PACKETS)%nat;
  bo_time : Forall (on_time (b_quic b)) (b_pushed b);
  bo_payload : query_answer _ (b_quic b) max_send_udp_payload_size <= query_answer _ q0 max_send_udp_payload_size;
  bo_budget : (budget (b_quic b) + length (b_pushed b) + deferred_len (b_deferred b) <= limit)%nat;
}.

Lemma held_length d : length (held d) = deferred_len d.
Proof. unfold held. by rewrite length_map. Qed.

Lemma release_step_ok quantum horizon b :
  build_ok b -> (forall x, info_at (snd x) <= horizon -> on_time (b_quic b) x) ->
  post (release_step g quantum horizon b) (fun r => match r with
    | inl b' => (build_ok b' /\ b_quic b' = b_quic b) /\ (deferred_len (b_deferred b') < deferred_len (b_deferred b))%nat
    | inr b' => b' = b end).
Proof using All.
  intros [H1 H2 H3 (new & Hq & Hflow) H5 H6 Hpay H7] Hhor. unfold release_step.
  destruct (take_if_due_ok (b_deferred b) horizon H2) as (d & r & -> & Hd & Hr). cbn [mbind result_bind].
  destruct r as [[p info]|]; [|done]. destruct Hr as (Hheld & Hat & Hbytes & Hp).
  unfold push_packet. cbn [b_batch].
  destruct (push_holds g (b_batch b) (b_pushed b) (contents p) info quantum H1 ltac:(lia)) as (batch' & -> & Hb).
  cbn [mbind result_bind]. pose proof (zlen_nonneg (contents p)).
  destruct (recycle_ok d p Hd ltac:(lia)) as (Hok & Hh & Hrb & Hpk).
  assert (deferred_len (b_deferred b) = S (deferred_len d)) as Hlen
    by (rewrite <- !held_length, Hheld; done).
  simpl. split; [split; [|done]|unfold deferred_len in *; rewrite Hpk; lia].
  split; simpl; try done; rewrite ?length_app; unfold deferred_len in *; rewrite ?Hpk; simpl; try lia.
  - exists new. split; [done|]. rewrite <- Hflow, Hh, Hheld, <- app_assoc. done.
  - apply Forall_app. split; [done|]. apply Forall_singleton. by apply Hhor.
Qed.

Lemma schedule_build b p info t q d :
  build_ok b -> answer _ (b_quic b) send = Ok (p, info) ->
  (length (b_pushed b) + deferred_len (b_deferred b) < MAX_BATCH_PACKETS)%nat ->
  has_capacity (b_deferred b) (query_answer _ q0 max_send_udp_payload_size) = true ->
  q = (b_quic b ++ [Ev send (Ok (p, info))]) ++ [Ev now t] ->
  schedule (b_deferred b) p info = Ok d ->
  forall n blocked, build_ok {| b_quic := q; b_deferred := d; b_batch := b_batch b; b_pushed := b_pushed b;
    b_generated := n; b_done := b_done b; b_blocked := blocked |} /\
    deferred_len d = S (deferred_len (b_deferred b)).
Proof using All.
  intros [H1 H2 H3 (new & Hq & Hflow) H5 H6 Hpay H7] Hsend Hroom Hcap -> Hs n blocked.
  destruct (send_size _ _ _ Hsend) as [Hp Hmax]. pose proof (send_ends _ _ Hsend). pose proof (clock_keeps (b_quic b ++ [Ev send (Ok (p, info))]) t).
  pose proof (send_keeps_size (b_quic b) (Ok (p, info))). pose proof (clock_keeps_size (b_quic b ++ [Ev send (Ok (p, info))]) t).
  destruct (schedule_ok (b_deferred b) p info H2) as (d' & Hs' & Hok & Hh & Hb); [by eapply has_capacity_mono; [|exact Hcap]; lia|done|].
  assert (d' = d) as -> by congruence. assert (deferred_len d = S (deferred_len (b_deferred b))) as Hl
    by (rewrite <- !held_length, Hh, length_app; simpl; lia).
  split; [|done]. split; simpl; try done; try lia.
  - exists (new ++ [Ev send (Ok (p, info)); Ev now t]). split; [rewrite Hq, <- !app_assoc; done|].
    rewrite Hh, omap_app. simpl. rewrite !app_assoc in *. by rewrite Hflow.
  - by apply on_time_all, on_time_all.
Qed.

Lemma push_build b p info t q batch' :
  build_ok b -> answer _ (b_quic b) send = Ok (p, info) ->
  (length (b_pushed b) + deferred_len (b_deferred b) < MAX_BATCH_PACKETS)%nat ->
  q = (b_quic b ++ [Ev send (Ok (p, info))]) ++ [Ev now t] -> info_at info <= t + PACING_HORIZON ->
  deferred_len (b_deferred b) = 0%nat -> batch_holds g batch' (b_pushed b ++ [(p, info)]) ->
  forall n, build_ok {| b_quic := q; b_deferred := b_deferred b; b_batch := batch'; b_pushed := b_pushed b ++ [(p, info)];
    b_generated := n; b_done := b_done b; b_blocked := b_blocked b |}.
Proof using All.
  intros [H1 H2 H3 (new & Hq & Hflow) H5 H6 Hpay H7] Hsend Hroom -> Hat Hempty Hb n.
  pose proof (send_ends _ _ Hsend). pose proof (clock_keeps (b_quic b ++ [Ev send (Ok (p, info))]) t).
  pose proof (send_keeps_size (b_quic b) (Ok (p, info))). pose proof (clock_keeps_size (b_quic b ++ [Ev send (Ok (p, info))]) t).
  assert (held (b_deferred b) = []) as Hh by (apply length_zero_iff_nil; by rewrite held_length).
  split; simpl; try done; rewrite ?length_app; simpl; try lia.
  - exists (new ++ [Ev send (Ok (p, info)); Ev now t]). split; [rewrite Hq, <- !app_assoc; done|].
    rewrite Hh, app_nil_r in *. rewrite omap_app. simpl. rewrite !app_assoc in *. by rewrite Hflow.
  - apply Forall_app. split; [by apply on_time_all, on_time_all|]. apply Forall_singleton. by apply on_time_now.
Qed.

(** A step that changes neither packets nor queues. *)
Lemma history_build b e n done_ blocked :
  build_ok b -> generated_packet e = None -> (budget (b_quic b ++ [e]) <= budget (b_quic b))%nat ->
  query_answer _ (b_quic b ++ [e]) max_send_udp_payload_size <= query_answer _ (b_quic b) max_send_udp_payload_size ->
  build_ok {| b_quic := b_quic b ++ [e]; b_deferred := b_deferred b; b_batch := b_batch b; b_pushed := b_pushed b;
    b_generated := n; b_done := done_; b_blocked := blocked |}.
Proof.
  intros [H1 H2 H3 (new & Hq & Hflow) H5 H6 Hpay H7] He Hbud Hsize. split; simpl; try done; try lia.
  - exists (new ++ [e]). split; [by rewrite Hq, <- app_assoc|]. rewrite omap_app. simpl. rewrite He, app_nil_r. done.
  - by apply on_time_all.
Qed.

(** What holds of a build once generation has ended: the budget no longer
    counts, for the loop then ends too. *)
Definition build_end (b : Build) : Prop := exists b', build_ok b' /\ b_deferred b = b_deferred b' /\
  b_batch b = b_batch b' /\ b_pushed b = b_pushed b' /\
  (exists new, b_quic b = b_quic b' ++ new /\ omap generated_packet new = []) /\
  (b_done b = false -> b_quic b = b_quic b').

Lemma build_ok_end b : build_ok b -> build_end b.
Proof. intros Hb. exists b. split_and!; try done. exists []. by rewrite app_nil_r. Qed.

Lemma generate_step_ok quantum b :
  build_ok b ->
  post (generate_step g quantum (query_answer _ q0 max_send_udp_payload_size) b) (fun r => match r with
    | inl b' => build_ok b' /\ (room b' < room b)%nat
    | inr b' => build_end b' end).
Proof using All.
  intros Hb. unfold generate_step. destruct (_ && _ && _ && _) eqn:Hguard; [|by apply build_ok_end].
  apply andb_true_iff in Hguard as [Hguard Hcap]. apply andb_true_iff in Hguard as [Hguard _].
  apply andb_true_iff in Hguard as [_ Hroom%bool_decide_eq_true].
  pose proof (bh_count _ _ _ (bo_batch _ Hb)) as Hcount.
  assert (length (b_pushed b) + deferred_len (b_deferred b) < MAX_BATCH_PACKETS)%nat as Hlt
    by (unfold zlen in Hcount; lia).
  unfold do. destruct (answer _ (b_quic b) send) as [[p info]|e|] eqn:Hs; [| |by destruct (send_returns _ Hs)].
  - set (q := b_quic b ++ _). cbn [b_deferred b_generated b_done b_blocked b_batch b_pushed].
    set (t := answer Z q now). destruct (send_size _ _ _ Hs) as [Hp Hmax].
    destruct (_ || _) eqn:Hor.
    + destruct (schedule_ok (b_deferred b) p info (bo_queue _ Hb)) as (d & Hd & _);
        [by eapply has_capacity_mono; [|exact Hcap]; pose proof (bo_payload _ Hb); lia|done|].
      cbn [b_quic b_deferred]. rewrite Hd. cbn [mbind result_bind].
      destruct (schedule_build b p info t (q ++ [Ev now t]) d Hb Hs Hlt Hcap eq_refl Hd (b_generated b + zlen p)
        (b_blocked b || negb (can_prefetch d))) as [Hok Hl].
      split; [exact Hok|]. unfold room. simpl. rewrite Hl, Hcount. unfold zlen. lia.
    + apply orb_false_iff in Hor as [Hat%bool_decide_eq_false Hz]. apply negb_false_iff, bool_decide_eq_true in Hz.
      unfold push_packet. cbn [b_batch].
      destruct (push_holds g (b_batch b) (b_pushed b) p info quantum (bo_batch _ Hb) Hp) as (batch' & -> & Hb').
      cbn [mbind result_bind b_quic b_deferred b_generated b_done b_blocked b_batch b_pushed]. split.
      * by apply (push_build b p info t); [| | | |lia| |].
      * unfold room. simpl. rewrite (bh_count _ _ _ Hb'), Hcount. unfold zlen. rewrite length_app. simpl. lia.
  - destruct e as [|code]; exists b; split_and!; try done.
    + by eexists [_].
    + eexists [_; _]. split; [cbn [b_quic]; rewrite exec_trace, <- app_assoc; reflexivity|done].
Qed.

(** Releasing starts a batch from the queue or finds nothing due. *)
Lemma release_due_ok quantum s :
  quic s = q0 -> gso s = g -> queue_ok (deferred s) ->
  deferred_bytes (deferred s) <= MAX_DEFERRED_BYTES ->
  sent ++ held (deferred s) = base -> (budget q0 + deferred_len (deferred s) <= limit)%nat ->
  post (release quantum s) (fun r => match r with
    | Some b => build_ok b
    | None => True end).
Proof using All.
  intros Hq Hg Hd Hbytes Hbase Hlim. unfold release.
  assert (build_ok {| b_quic := quic s; b_deferred := deferred s; b_batch := clear (batch s); b_pushed := [];
    b_generated := 0; b_done := false; b_blocked := false |}) as Hb0.
  { split; simpl; try done.
    - apply clear_holds.
    - exists []. by rewrite !app_nil_r.
    - pose proof (q_len _ Hd). unfold deferred_len, MAX_BATCH_PACKETS, MAX_DEFERRED_PACKETS in *. lia.
    - by rewrite Hq.
    - rewrite Hq. lia. }
  destruct (deadline (deferred s)) as [at_|]; [|done].
  unfold do. set (t := answer Z (quic s) now). cbn [b_deferred b_batch b_pushed b_generated b_done b_blocked].
  case_bool_decide; [done|]. apply post_bind.
  pose proof (history_build _ (Ev now t) 0 false false Hb0 eq_refl ltac:(simpl; apply clock_keeps) ltac:(simpl; apply clock_keeps_size)) as Hb1. simpl in Hb1.
  rewrite Hg. apply (post_mono _ build_ok); [|by intros b []].
  apply (post_while_inv _ _ (fun b => build_ok b /\ b_quic b = quic s ++ [Ev now t])); [|done].
  intros b [Hb Hbq]. eapply post_mono; [apply (release_step_ok quantum (t + PACING_HORIZON) b Hb)|].
  - intros x Hx. rewrite Hbq. by apply on_time_now.
  - intros [b'|b']; [|by intros ->]. intros [[Hb' Hq'] Hlt]. split; [|done]. by rewrite Hq'.
Qed.
End loop.

Section drive_proof.
Context `{HA : Allocator} `{HAL : !AllocatorLaws} `{HQ : Quiche} (budget : conn -> nat) `{HS : !SendLaws budget}.
Context (sendmmsg : nat -> nat -> list WireMessage -> result Z nat).
Context (send_to : nat -> nat -> bytes -> SocketAddr -> result Z Z).
Context (split : Z -> bytes -> list bytes) `{!GsoKernel split}.
Hypothesis sendmmsg_returns : forall n i ms, sendmmsg n i ms <> Panic.
Hypothesis send_to_returns : forall n i p a, send_to n i p a <> Panic.

(** A batch given to the socket: its packets went out as one run of datagrams
    that is a prefix of it, all of it on success, and none left too early. *)
Definition entry_ok (e : Sent) : Prop :=
  finished split (sent_gso e) (pushed (sent_packets e)) (sent_end e) /\
  (0 < length (sent_packets e) <= MAX_BATCH_PACKETS)%nat /\
  Forall (on_time (sent_after e)) (sent_packets e).

(** Packets are sent or wait in the order the library produced them. *)
Record drive_inv (q0 : conn) (base : list (bytes * SendInfo)) (s : Driven) : Prop := {
  di_queue : queue_ok (deferred s);
  di_bytes : deferred_bytes (deferred s) <= MAX_DEFERRED_BYTES;
  di_flow : exists new, quic s = q0 ++ new /\
    concat (map sent_packets (log s)) ++ held (deferred s) = base ++ omap generated_packet new;
  di_log : Forall entry_ok (log s);
}.

Lemma drive_end q0 base s b sent_ :
  drive_inv q0 base s -> sent_ = concat (map sent_packets (log s)) ->
  build_end budget sent_ (sent_ ++ held (deferred s)) (quic s) (budget (quic s) + deferred_len (deferred s)) (gso s) b ->
  batch_holds (gso s) (b_batch b) (b_pushed b) /\ queue_ok (b_deferred b) /\
  deferred_bytes (b_deferred b) <= MAX_DEFERRED_BYTES /\
  (length (b_pushed b) <= MAX_BATCH_PACKETS)%nat /\ Forall (on_time (b_quic b)) (b_pushed b) /\
  (exists new, b_quic b = q0 ++ new /\ sent_ ++ b_pushed b ++ held (b_deferred b) = base ++ omap generated_packet new) /\
  (b_done b = false -> (budget (b_quic b) + length (b_pushed b) + deferred_len (b_deferred b)
     <= budget (quic s) + deferred_len (deferred s))%nat).
Proof.
  intros [Hd Hb (new & Hq & Hf) _] -> (b' & [H1 H2 H3 (new' & Hq' & Hf') H5 H6 _ H7] & -> & -> & -> & (new2 & Hq2 & Hn2) & Hdone).
  split_and!; try done; [lia| | |].
  - rewrite Hq2. by apply on_time_all.
  - exists (new ++ new' ++ new2). rewrite !omap_app, Hn2, app_nil_r. split; [by rewrite Hq2, Hq', Hq, <- !app_assoc|].
    rewrite Hf', Hf, <- app_assoc. done.
  - intros Hd'. rewrite (Hdone Hd'). lia.
Qed.

Lemma drive_iter_ok q0 base s :
  drive_inv q0 base s ->
  post (drive_iter sendmmsg send_to s) (fun r => match r with
    | inl s' => drive_inv q0 base s' /\
        (budget (quic s') + deferred_len (deferred s') < budget (quic s) + deferred_len (deferred s))%nat
    | inr s' => drive_inv q0 base s' end).
Proof using All.
  intros Hinv. pose proof Hinv as [Hd Hb Hflow Hlog]. unfold drive_iter. set (quantum := Z.min _ _).
  apply post_bind. set (sent_ := concat (map sent_packets (log s))).
  eapply post_mono; [apply (release_due_ok budget sent_ (sent_ ++ held (deferred s)) (quic s)
    (budget (quic s) + deferred_len (deferred s)) (gso s) quantum s); try done; lia|].
  intros [b|] Hbuild.
  - apply post_bind. eapply post_mono.
    { apply (post_while_inv _ _ (build_ok budget sent_ (sent_ ++ held (deferred s)) (quic s)
        (budget (quic s) + deferred_len (deferred s)) (gso s))); [|exact Hbuild].
      intros b' Hb'. by apply generate_step_ok. }
    intros b' Hend. destruct (drive_end q0 base s b' sent_ Hinv eq_refl Hend) as (Hbh & Hq & Hby & Hlen & Hot & (new & Hn & Hfl) & Hbud).
    unfold batch_is_empty. case_bool_decide as Hempty.
    + assert (b_pushed b' = []) as Hnil.
      { rewrite (bh_count _ _ _ Hbh) in Hempty. destruct (b_pushed b'); [done|]. rewrite zlen_cons in Hempty.
        pose proof (zlen_nonneg l). lia. }
      split; simpl; try done. exists new. split; [done|]. by rewrite Hnil in Hfl.
    + destruct (send_batch_holds (sendmmsg (length (log s))) (send_to (length (log s))) split (sendmmsg_returns _)
        (send_to_returns _) (gso s) (gso s) (b_batch b') (b_pushed b') Hbh ltac:(done)) as (e & -> & Hfin & _).
      cbn [mbind result_bind].
      assert (0 < length (b_pushed b'))%nat as Hpos
        by (rewrite (bh_count _ _ _ Hbh) in Hempty; unfold zlen in Hempty; lia).
      set (s' := {| quic := b_quic b' |}). assert (drive_inv q0 base s') as Hs'.
      { split; simpl; try done.
        - exists new. split; [done|]. rewrite map_app, concat_app. simpl. rewrite app_nil_r, <- app_assoc. exact Hfl.
        - apply Forall_app. split; [done|]. apply Forall_singleton. split_and!; simpl; done || lia. }
      destruct (_ || _) eqn:Hor; [exact Hs'|]. split; [exact Hs'|].
      apply orb_false_iff in Hor as [Hor _]. apply orb_false_iff in Hor as [Hdn _]. specialize (Hbud Hdn). simpl. lia.
  - split; simpl; try done. destruct Hflow as (new & Hq & Hf). exists (new ++ [Ev now (answer Z (quic s) now)]).
    rewrite exec_trace, Hq, omap_app, app_nil_r, <- app_assoc. done.
Qed.
End drive_proof.

(** C24: One drive of a connection ends, and sends the packets the library
    produced in the order it produced them: those already waiting first, every
    packet in exactly one batch or still in the queue, none lost, repeated or
    overtaken.  A batch holds at most 64 packets, no packet leaves more than the
    pacing horizon before its release time, and a queue of at most
    MAX_DEFERRED_PACKETS packets and MAX_DEFERRED_BYTES bytes stays one, so the
    assertion on its capacity never fails.  The library's packets are no longer
    than the payload limit it reports, which sending does not raise. *)
Theorem drive_paced_fifo `{HA : Allocator} `{HAL : !AllocatorLaws} `{HQ : Quiche} budget `{HS : !SendLaws budget} sendmmsg send_to split
    `{!GsoKernel split} (q : conn) (d : DeferredSend) (b : SendPacketBatch) (g : bool) :
  (forall n i ms, sendmmsg n i ms <> Panic) -> (forall n i p a, send_to n i p a <> Panic) ->
  queue_ok d -> deferred_bytes d <= MAX_DEFERRED_BYTES ->
  exists s new, drive sendmmsg send_to budget {| quic := q; deferred := d; batch := b; gso := g; log := [] |} = Ok s /\
    quic s = q ++ new /\
    concat (map sent_packets (log s)) ++ held (deferred s) = held d ++ omap generated_packet new /\
    Forall (entry_ok split) (log s) /\
    (deferred_len (deferred s) <= MAX_DEFERRED_PACKETS)%nat /\
    deferred_bytes (deferred s) <= MAX_DEFERRED_BYTES /\ queue_ok (deferred s).
Proof.
  intros Hm Hs Hq Hb. set (s0 := {| quic := q |}).
  assert (drive_inv split q (held d) s0) as Hinit by (split; simpl; try done; exists []; by rewrite !app_nil_r).
  pose proof (post_while_inv (fun s => budget (quic s) + deferred_len (deferred s))%nat _ _ _ s0
    (fun s => drive_iter_ok budget sendmmsg send_to split Hm Hs q (held d) s) Hinit) as Hpost.
  unfold drive. destruct (while _ _ _) as [s|[]|]; [|done]. destruct Hpost as [Hd1 Hd2 (new & Hd3 & Hd4) Hd5].
  exists s, new. split_and!; try done. by apply q_len.
Qed.

(** A library with two packets to send, the second one due later. *)
Definition two_packets : Quiche := {|
  answer A q c := match c in call A return A with
    | now => 1000
    | send => match omap generated_packet q with
              | [] => Ok ([1; 2], {| info_from := SockV4 1 443; info_to := SockV4 2 9; info_at := 500 |})
              | [_] => Ok ([3; 4; 5], {| info_from := SockV4 1 443; info_to := SockV4 2 9; info_at := 90000000 |})
              | _ => Err QuicDone
              end
    | send_response _ _ _ => Ok tt | send_body _ _ _ => Ok 0 | recv_body _ _ => Err H3Done | poll => Err H3Done
    | with_transport => true | stream_shutdown _ _ _ => true | close _ _ => true | send_goaway _ => true | recv _ _ _ => true
    | on_timeout => tt | dgram_recv _ => Err QuicDone | dgram_send_buf _ => Ok tt
    | path_event_next => None | retired_scid_next => None | new_scid _ _ _ => true
    | accept _ _ _ _ _ => true | random_fill _ => None
    end;
  query_answer A q c := match c in query A return A with
    | max_send_udp_payload_size => 1350 | send_quantum => 13500 | scids_left => 0%nat
    | timeout_instant => None | peer_cert => None | stream_readable_len _ => None
    | _ => false
    end;
|}.
Definition two_budget (q : conn) : nat := (2 - length (omap generated_packet q))%nat.
Definition exact_allocator : Allocator := fun n => n.

Lemma two_packets_laws : SendLaws (H := two_packets) two_budget.
Proof.
  split.
  - intros q p info. simpl. destruct (omap generated_packet q) as [|x [|y l]]; simpl; intros [= <- <-]; done.
  - done.
  - done.
  - intros q. simpl. by destruct (omap generated_packet q) as [|x [|y l]].
  - intros q x. unfold two_budget. rewrite omap_app, length_app. simpl.
    destruct (omap generated_packet q) as [|y [|z l]]; simpl; intros [= <-]; lia.
  - intros q t. unfold two_budget. by rewrite omap_app, app_nil_r.
Qed.

Lemma drive_paced_fifo_witness :
  exists s new, drive (H := exact_allocator) (H0 := two_packets) (fun _ _ ms => Ok (length ms)) (fun _ _ p _ => Ok (zlen p))
      two_budget {| quic := []; deferred := deferred_default; batch := batch_new; gso := true; log := [] |} = Ok s /\
    concat (map sent_packets (log s)) ++ held (deferred s) = omap generated_packet new /\
    (deferred_len (deferred s) <= MAX_DEFERRED_PACKETS)%nat.
Proof.
  pose proof two_packets_laws as Hlaws.
  destruct (drive_paced_fifo (HA := exact_allocator) (HAL := fun n => Z.le_refl n) (HQ := two_packets) two_budget
    (fun _ _ ms => Ok (length ms)) (fun _ _ p _ => Ok (zlen p)) sample_split [] deferred_default batch_new true)
    as (s & new & Hs & _ & Hf & _ & Hl & _).
  - discriminate.
  - discriminate.
  - apply queue_default_ok.
  - vm_compute. discriminate.
  - exists s, new. split; [exact Hs|]. split; [exact Hf|exact Hl].
Defined.
