(* ===== verification/Connection.v ===== *)
(** * Per-connection response state (src/connection.rs, src/connection/error_responses.rs)

    Error responses that wait for stream capacity, CONNECT requests that wait
    for their credentials with the datagrams that arrive early, and the next
    moment a connection needs service.  The library is that of [Quiche]. *)

From stdpp Require Import list gmap strings.
From S2P Require Import Prelude Net Quiche UdpTunnel.
Open Scope Z_scope.

(** ** Error responses *)

Definition MAX_PENDING_ERROR_RESPONSES : nat := 64.

(** [WireErrorCode]. *)
Definition NO_ERROR : Z := 0x100.
Definition EXCESSIVE_LOAD : Z := 0x107.
Definition REQUEST_CANCELLED : Z := 0x10c.

Record PendingErrorResponse := { status : Z; started : Z }.
Abbreviation PendingErrorResponses := (gmap Z PendingErrorResponse).

(** The three digits of a status. *)
Definition status_buf (status : Z) : bytes :=
  [48 + (status / 100) mod 10; 48 + (status / 10) mod 10; 48 + status mod 10].
Definition error_headers (status : Z) : list Header := [(":status"%string, status_buf status); ("content-length"%string, [48])].

Section error_responses.
Context `{Quiche}.
(** The order in which the map is walked. *)
Context (order : PendingErrorResponses -> list Z).

Definition reset (stream code : Z) (q : conn) : conn :=
  exec (stream_shutdown stream ShutWrite code) (exec (stream_shutdown stream ShutRead code) q).

(** True when the response is blocked and must be kept. *)
Definition try_send (stream status : Z) (q : conn) : bool * conn :=
  let '(r, q) := do (send_response stream (error_headers status) true) q in
  match r with
  | Ok _ => (false, exec (stream_shutdown stream ShutRead NO_ERROR) q)
  | Err StreamBlocked | Err H3Done => (true, q)
  | _ => (false, reset stream REQUEST_CANCELLED q)
  end.

(** [HashMap::retain] with a closure that uses the connection. *)
Definition retain_step (keep : Z -> PendingErrorResponse -> conn -> bool * conn)
    (s : PendingErrorResponses * conn) (stream : Z) : PendingErrorResponses * conn :=
  let '(m, q) := s in
  match m !! stream with
  | None => s
  | Some p => let '(k, q) := keep stream p q in (if k then m else delete stream m, q)
  end.
Definition retain (keep : Z -> PendingErrorResponse -> conn -> bool * conn) (m : PendingErrorResponses) (q : conn)
    : PendingErrorResponses * conn := fold_left (retain_step keep) (order m) (m, q).

Definition retry : PendingErrorResponses -> conn -> PendingErrorResponses * conn :=
  retain (fun stream p q => try_send stream (status p) q).

Definition send_error (stream status_ : Z) (m : PendingErrorResponses) (q : conn) : PendingErrorResponses * conn :=
  if bool_decide (is_Some (m !! stream)) then (m, q) else
  let '(blocked, q) := try_send stream status_ q in
  if negb blocked then (m, q) else
  let '(m, q) := if bool_decide (MAX_PENDING_ERROR_RESPONSES <= size m)%nat then retry m q else (m, q) in
  if bool_decide (MAX_PENDING_ERROR_RESPONSES <= size m)%nat then (m, reset stream EXCESSIVE_LOAD q) else
  let '(t, q) := do now q in
  (<[stream := {| status := status_; started := t |}]> m, q).

Definition cancel_error (stream : Z) (m : PendingErrorResponses) (q : conn) : PendingErrorResponses * conn :=
  match m !! stream with
  | Some _ => (delete stream m, reset stream REQUEST_CANCELLED q)
  | None => (m, q)
  end.

(** The answer tells whether an entry expired. *)
Definition expire_errors (timeout : Z) (m : PendingErrorResponses) (q : conn) : PendingErrorResponses * conn * bool :=
  let '(m', q) := retain (fun stream p q =>
    let '(t, q) := do now q in
    if bool_decide (elapsed t (started p) < timeout) then (true, q) else (false, reset stream REQUEST_CANCELLED q)) m q in
  (m', q, negb (bool_decide (size m = size m'))).
End error_responses.

(** ** CONNECT requests waiting for credentials *)

Section awaiting.
Context {Task : Type}.

(** [cancelled] names a shared flag. *)
Record AwaitingAuth := {
  client_finished : bool;
  cancelled : nat;
  auth_task : option Task;
  early_udp_datagrams : option EarlyUdpDatagrams;
}.
Abbreviation Flags := (list bool).

Definition awaiting_new (flags : Flags) (connect_udp : bool) (budget_ : EarlyUdpBudget) : AwaitingAuth * Flags :=
  ({| client_finished := false; cancelled := length flags; auth_task := None;
      early_udp_datagrams := if connect_udp then Some (early_new budget_) else None |}, flags ++ [false]).

(** The task that is replaced is aborted. *)
Definition set_task (a : AwaitingAuth) (task : Task) : AwaitingAuth * option Task :=
  ({| client_finished := client_finished a; cancelled := cancelled a; auth_task := Some task;
      early_udp_datagrams := early_udp_datagrams a |}, auth_task a).

Definition buffer_early (bs : Budgets) (a : AwaitingAuth) (payload : bytes) : option bool * AwaitingAuth * Budgets :=
  match early_udp_datagrams a with
  | None => (None, a, bs)
  | Some d =>
      let '(ok, d, bs) := push bs d payload in
      (Some ok, {| client_finished := client_finished a; cancelled := cancelled a; auth_task := auth_task a;
                   early_udp_datagrams := Some d |}, bs)
  end.
Definition accepts_early_udp_datagrams (a : AwaitingAuth) : bool :=
  match early_udp_datagrams a with Some _ => true | None => false end.
Definition take_early_udp_datagrams (a : AwaitingAuth) : option EarlyUdpDatagrams * AwaitingAuth :=
  (early_udp_datagrams a, {| client_finished := client_finished a; cancelled := cancelled a; auth_task := auth_task a;
                             early_udp_datagrams := None |}).

(** [Drop]: the flag is raised, the task aborted, the queue returns its bytes. *)
Definition awaiting_drop (flags : Flags) (bs : Budgets) (a : AwaitingAuth) : Flags * Budgets * option Task :=
  (<[cancelled a := true]> flags,
   match early_udp_datagrams a with Some d => early_drop bs d | None => bs end, auth_task a).

(** ** Early datagrams of a connection *)

Inductive EarlyUdpDatagramResult := Buffered | CapacityExceeded | UnknownTunnel.

Context {Prepared Setup : Type}.
(** Tunnels in setup, requests in authentication, and the byte counters. *)
Record EarlyState := {
  pending_udp_tunnels : gmap Z (PendingUdpTunnel Prepared Setup);
  awaiting_auth : gmap Z AwaitingAuth;
  budgets : Budgets;
}.

Definition buffer_early_udp_datagram (stream : Z) (payload : bytes) (s : EarlyState)
    : EarlyUdpDatagramResult * EarlyState :=
  match pending_udp_tunnels s !! stream with
  | Some t =>
      let '(ok, t, bs) := buffer_early_datagram (budgets s) t payload in
      (if ok : bool then Buffered else CapacityExceeded,
       {| pending_udp_tunnels := <[stream := t]> (pending_udp_tunnels s); awaiting_auth := awaiting_auth s; budgets := bs |})
  | None =>
      match awaiting_auth s !! stream with
      | Some a =>
          if accepts_early_udp_datagrams a then
            let '(ok, a, bs) := buffer_early (budgets s) a payload in
            (match ok with Some true => Buffered | Some false => CapacityExceeded | None => UnknownTunnel end,
             {| pending_udp_tunnels := pending_udp_tunnels s; awaiting_auth := <[stream := a]> (awaiting_auth s); budgets := bs |})
          else (UnknownTunnel, s)
      | None => (UnknownTunnel, s)
      end
  end.
End awaiting.
Arguments AwaitingAuth : clear implicits.
Arguments EarlyState : clear implicits.

(** ** Deadlines *)

Definition min_opt (a b : option Z) : option Z :=
  match a, b with Some x, Some y => Some (Z.min x y) | Some x, None => Some x | None, b => b end.

Section deadlines.
Context `{Quiche}.

(** [expire_first_auth] on the deadline and the history; the waiting requests
    are dropped when the answer is true. *)
Definition expire_first_auth (deadline : option Z) (q : conn) : bool * option Z * conn :=
  match deadline with
  | None => (false, None, q)
  | Some at_ =>
      let '(t, q) := do now q in
      if bool_decide (at_ <= t) then (true, None, exec (close false 0) q) else (false, Some at_, q)
  end.

(** The next moment the connection needs the event loop. *)
Definition next_deadline (read_resumes : bool) (deferred first_auth : option Z) (q : conn) : option Z * conn :=
  if read_resumes && negb (ask local_error q) && negb (ask is_draining q) && negb (ask is_closed q)
  then let '(t, q) := do now q in (Some t, q)
  else (min_opt (min_opt (ask timeout_instant q) deferred) first_auth, q).
End deadlines.

(** The numbers of tunnels and waiting responses of a connection. *)
Record TunnelCounts := {
  n_pending_tcp : nat; n_tcp : nat; n_pending_udp : nat; n_udp : nat; n_ip : nat; n_pending_ip : nat; n_errors : nat;
  n_awaiting : nat;
}.
Definition tunnel_count (n : TunnelCounts) : nat :=
  (n_pending_tcp n + n_tcp n + n_pending_udp n + n_udp n + n_ip n + n_pending_ip n + n_errors n)%nat.
Definition uses_precise_tcp_pacing (n : TunnelCounts) : bool :=
  let tcp := (n_tcp n + n_pending_tcp n)%nat in
  negb (bool_decide (tcp = 0%nat)) && bool_decide (tcp = tunnel_count n) && bool_decide (n_awaiting n = 0%nat).

(** ** Every rejected request is settled once *)

(** The complete responses a stream got. *)
Definition accepted (s : Z) (q : conn) : list (Z * list Header * bool) :=
  filter (fun x => x.1.1 = s) (omap accepted_response q).
(** A stream shut down in both directions with one error code. *)
Definition was_reset (s : Z) (q : conn) : Prop :=
  exists code, code <> NO_ERROR /\ (s, ShutRead, code) ∈ omap shutdown_of q /\ (s, ShutWrite, code) ∈ omap shutdown_of q.

(** One complete response with the decided status, or a reset and no response. *)
Definition settled (s st : Z) (q : conn) : Prop :=
  accepted s q = [(s, error_headers st, true)] \/ (accepted s q = [] /\ was_reset s q).

Lemma accepted_app s q new : accepted s (q ++ new) = accepted s q ++ accepted s new.
Proof. unfold accepted. by rewrite omap_app, filter_app. Qed.

Lemma was_reset_l s q new : was_reset s q -> was_reset s (q ++ new).
Proof.
  intros (c & H0 & H1 & H2). exists c. rewrite !omap_app, !elem_of_app. tauto.
Qed.
Lemma was_reset_r s q new : was_reset s new -> was_reset s (q ++ new).
Proof.
  intros (c & H0 & H1 & H2). exists c. rewrite !omap_app, !elem_of_app. tauto.
Qed.

(** Calls that answer no stream. *)
Definition quiet (new : conn) : Prop := omap accepted_response new = [].
(** Calls that answer or reset exactly this stream. *)
Definition settles (s st : Z) (new : conn) : Prop :=
  omap accepted_response new = [(s, error_headers st, true)] \/ (quiet new /\ was_reset s new).

Lemma quiet_accepted s new : quiet new -> accepted s new = [].
Proof. unfold quiet, accepted. by intros ->. Qed.

Lemma settles_ne s st new s' : settles s st new -> s' <> s -> accepted s' new = [].
Proof.
  intros [Ha|[Hq _]] Hne; [|by apply quiet_accepted]. unfold accepted. rewrite Ha. rewrite filter_cons, decide_False by (simpl; congruence). done.
Qed.

Lemma settles_settled s st q new : accepted s q = [] -> settles s st new -> settled s st (q ++ new).
Proof.
  intros Hq [Ha|[Hn Hr]]; unfold settled; rewrite accepted_app, Hq.
  - left. unfold accepted. rewrite Ha, filter_cons, decide_True by done. done.
  - right. rewrite (quiet_accepted s new Hn). split; [done|by apply was_reset_r].
Qed.

Lemma fst_unique {A B} (l : list (A * B)) a b b' : NoDup l.*1 -> (a, b) ∈ l -> (a, b') ∈ l -> b = b'.
Proof.
  induction l as [|[x y] l IH]; [by intros _ ?%elem_of_nil|]. cbn. rewrite NoDup_cons, !elem_of_cons.
  intros [Hx Hl] [?|Hb] [?|Hb']; simplify_eq; eauto.
  - destruct Hx. apply list_elem_of_fmap. by exists (x, b').
  - destruct Hx. apply list_elem_of_fmap. by exists (x, b).
Qed.

(** The pending responses, the history and the decisions taken so far. *)
Record errors_inv (m : PendingErrorResponses) (q : conn) (sent : list (Z * Z)) : Prop := {
  ei_pending : forall s p, m !! s = Some p -> (s, status p) ∈ sent /\ accepted s q = [];
  ei_settled : forall s st, (s, st) ∈ sent -> m !! s = None -> settled s st q;
  ei_other : forall s, s ∉ sent.*1 -> accepted s q = [];
  ei_once : NoDup sent.*1;
  ei_bound : (size m <= MAX_PENDING_ERROR_RESPONSES)%nat;
}.

Lemma inv_quiet m q sent new : errors_inv m q sent -> quiet new -> errors_inv m (q ++ new) sent.
Proof.
  intros [H1 H2 H3 H4 H5] Hn. split; try done.
  - intros s p Hp. rewrite accepted_app, (quiet_accepted s new Hn), app_nil_r. eauto.
  - intros s st Hs Hm. unfold settled. rewrite accepted_app, (quiet_accepted s new Hn), app_nil_r.
    destruct (H2 s st Hs Hm) as [|[? ?]]; [by left|right; split; [done|by apply was_reset_l]].
  - intros s Hs. rewrite accepted_app, (quiet_accepted s new Hn), app_nil_r. eauto.
Qed.

Lemma inv_settle m q sent new s p :
  errors_inv m q sent -> m !! s = Some p -> settles s (status p) new -> errors_inv (delete s m) (q ++ new) sent.
Proof.
  intros [H1 H2 H3 H4 H5] Hs Hn. destruct (H1 s p Hs) as [Hin Hacc]. split; try done.
  - intros s' p' [Hne Hp']%lookup_delete_Some. rewrite accepted_app, (settles_ne s (status p) new s' Hn), app_nil_r by done. eauto.
  - intros s' st' Hs' Hm. destruct (decide (s' = s)) as [->|Hne].
    + assert (st' = status p) as ->; [|by apply settles_settled].
      clear -H4 Hin Hs'. eapply (fst_unique sent); eauto.
    + rewrite lookup_delete_ne in Hm by done. unfold settled.
      rewrite accepted_app, (settles_ne s (status p) new s' Hn), app_nil_r by done.
      destruct (H2 s' st' Hs' Hm) as [|[? ?]]; [by left|right; split; [done|by apply was_reset_l]].
  - intros s' Hs'. rewrite accepted_app, (settles_ne s (status p) new s' Hn), app_nil_r; [eauto|].
    intros ->. apply Hs', list_elem_of_fmap. by exists (s, status p).
  - rewrite map_size_delete, Hs. lia.
Qed.

Lemma inv_add m q sent new s st t :
  errors_inv m q sent -> s ∉ sent.*1 -> quiet new -> (size m < MAX_PENDING_ERROR_RESPONSES)%nat ->
  errors_inv (<[s := {| status := st; started := t |}]> m) (q ++ new) (sent ++ [(s, st)]).
Proof.
  intros Hinv Hs Hn Hsz. pose proof (inv_quiet _ _ _ _ Hinv Hn) as [H1 H2 H3 H4 H5]. split.
  - intros s' p' [[<- <-]|[Hne Hp']]%lookup_insert_Some.
    + split; [set_solver|eauto].
    + destruct (H1 s' p' Hp'). split; [set_solver|done].
  - intros s' st' Hin [Hm Hne]%lookup_insert_None. apply H2; [set_solver|done].
  - intros s' Hs'. apply H3. rewrite fmap_app in Hs'. set_solver.
  - rewrite fmap_app. apply NoDup_app. split; [done|]. split; [|apply NoDup_singleton]. set_solver.
  - rewrite map_size_insert. destruct (m !! s); cbn; lia.
Qed.

Lemma inv_done m q sent new s st :
  errors_inv m q sent -> s ∉ sent.*1 -> settles s st new -> errors_inv m (q ++ new) (sent ++ [(s, st)]).
Proof.
  intros [H1 H2 H3 H4 H5] Hs Hn. split; try done.
  - intros s' p' Hp'. destruct (H1 s' p' Hp') as [Hin Ha]. split; [set_solver|].
    rewrite accepted_app, Ha, (settles_ne s st new s' Hn); [done|].
    intros ->. apply Hs, list_elem_of_fmap. by exists (s, status p').
  - intros s' st' [Hin|[= -> ->]%list_elem_of_singleton]%elem_of_app Hm; [|by apply settles_settled; [apply H3|]].
    assert (s' <> s) by (intros ->; apply Hs, list_elem_of_fmap; by exists (s, st')). unfold settled.
    rewrite accepted_app, (settles_ne s st new s' Hn), app_nil_r by done.
    destruct (H2 s' st' Hin Hm) as [|[? ?]]; [by left|right; split; [done|by apply was_reset_l]].
  - intros s' Hs'. rewrite fmap_app in Hs'. rewrite accepted_app, (settles_ne s st new s' Hn), app_nil_r by set_solver.
    apply H3. set_solver.
  - rewrite fmap_app. apply NoDup_app. split; [done|]. split; [|apply NoDup_singleton]. set_solver.
Qed.

(** ** The operations *)

Section runs.
Context `{HQ : Quiche}.
Context (order : PendingErrorResponses -> list Z).

Lemma reset_settles s st code q : code <> NO_ERROR -> exists new, reset s code q = q ++ new /\ settles s st new.
Proof.
  intros Hc. unfold reset. rewrite !exec_trace, <- app_assoc. eexists. split; [done|]. right. split; [done|].
  exists code. cbn. rewrite !elem_of_cons. tauto.
Qed.

Lemma quiet_settles s st a new : quiet a -> settles s st new -> settles s st (a ++ new).
Proof.
  unfold settles, quiet. intros Ha [Hn|[Hn Hr]]; rewrite omap_app, Ha, Hn; [by left|right].
  split; [done|by apply was_reset_r].
Qed.

Lemma try_send_spec s st q : exists new,
  (try_send s st q).2 = q ++ new /\ if (try_send s st q).1 then quiet new else settles s st new.
Proof.
  unfold try_send, do. set (ev := Ev _ _).
  assert (Hq : (forall u, answer _ q (send_response s (error_headers st) true) <> Ok u) -> quiet [ev]).
  { intros He. unfold quiet, ev. cbn. destruct (answer _ q _); [by edestruct He|done..]. }
  assert (quiet [ev] -> exists new, reset s REQUEST_CANCELLED (q ++ [ev]) = q ++ new /\ settles s st new) as Hr.
  { intros Hev. destruct (reset_settles s st REQUEST_CANCELLED (q ++ [ev])) as (new & -> & Hs); [done|].
    exists ([ev] ++ new). split; [by rewrite app_assoc|by apply quiet_settles]. }
  destruct (answer _ q _) as [u|e|] eqn:Ha.
  - eexists. rewrite exec_trace, <- app_assoc. split; [done|]. left. unfold ev. cbn. by rewrite ?Ha.
  - specialize (Hq ltac:(done)). destruct e; cbn [fst snd]; eauto.
  - cbn [fst snd]. apply Hr, Hq. done.
Qed.

(** A closure of [retain] that keeps an entry quietly or settles it. *)
Definition settling (keep : Z -> PendingErrorResponse -> conn -> bool * conn) : Prop :=
  forall s p q, exists new, (keep s p q).2 = q ++ new /\ if (keep s p q).1 then quiet new else settles s (status p) new.

Lemma retain_inv keep sent m q :
  settling keep -> errors_inv m q sent ->
  let '(m', q') := retain order keep m q in errors_inv m' q' sent /\ m' ⊆ m.
Proof.
  intros Hk Hinv. unfold retain. generalize (order m) as l. intros l.
  assert (m ⊆ m) as Hsub by done. revert Hinv Hsub. generalize m at 1 2 4 as m1. revert q.
  induction l as [|s l IH]; intros q m1 Hinv Hsub; [done|]. cbn [fold_left].
  unfold retain_step at 2. destruct (m1 !! s) as [p|] eqn:Hs; [|by apply IH].
  destruct (Hk s p q) as (new & Hq & Hnew). destruct (keep s p q) as [[] q']; cbn in *; subst q'.
  - by apply IH; [apply inv_quiet|].
  - apply IH; [by eapply inv_settle|]. etrans; [apply delete_subseteq|done].
Qed.

Lemma retry_settling : settling (fun stream p q => try_send stream (status p) q).
Proof. intros s p q. apply try_send_spec. Qed.

Lemma expire_settling timeout : settling (fun stream p q =>
    let '(t, q) := do now q in
    if bool_decide (elapsed t (started p) < timeout) then (true, q) else (false, reset stream REQUEST_CANCELLED q)).
Proof.
  intros s p q. unfold do. destruct (bool_decide _); cbn [fst snd]; [by eexists|].
  destruct (reset_settles s (status p) REQUEST_CANCELLED (q ++ [Ev now (answer _ q now)])) as (new & -> & Hs); [done|].
  eexists. rewrite <- app_assoc. split; [done|]. by apply quiet_settles.
Qed.

Lemma retry_inv m q sent : errors_inv m q sent ->
  let '(m', q') := retry order m q in errors_inv m' q' sent /\ m' ⊆ m.
Proof. apply retain_inv, retry_settling. Qed.

Lemma send_error_inv s st m q sent : errors_inv m q sent -> s ∉ sent.*1 ->
  let '(m', q') := send_error order s st m q in errors_inv m' q' (sent ++ [(s, st)]).
Proof.
  intros Hinv Hs. unfold send_error. rewrite bool_decide_false.
  2:{ intros [p Hp]. apply Hs, list_elem_of_fmap. exists (s, status p). by split; [|eapply ei_pending]. }
  destruct (try_send_spec s st q) as (new & Hq & Hnew). destruct (try_send s st q) as [[] q1]; cbn [fst snd negb] in *; subst q1.
  2: by apply inv_done.
  pose proof (inv_quiet _ _ _ _ Hinv Hnew) as Hinv1.
  set (step := if bool_decide _ then retry order m (q ++ new) else (m, q ++ new)).
  assert (let '(m', q') := step in errors_inv m' q' sent) as Hstep.
  { unfold step. destruct (bool_decide _); [|done]. pose proof (retry_inv m _ _ Hinv1) as Hr.
    by destruct (retry order m _), Hr. }
  destruct step as [m1 q1]. destruct (decide (MAX_PENDING_ERROR_RESPONSES <= size m1)%nat) as [Hfull|Hroom].
  - rewrite bool_decide_true by done. destruct (reset_settles s st EXCESSIVE_LOAD q1) as (n1 & -> & Hn1); [done|].
    by apply inv_done.
  - rewrite bool_decide_false by done. unfold do. apply inv_add; [done..|lia].
Qed.

(** What happens to a connection's error responses; a stream may be rejected
    again while its response is pending. *)
Inductive error_step : PendingErrorResponses * conn * list (Z * Z) -> PendingErrorResponses * conn * list (Z * Z) -> Prop :=
| es_send s st m q sent : s ∉ sent.*1 -> error_step (m, q, sent) (send_error order s st m q, sent ++ [(s, st)])
| es_again s st m q sent : is_Some (m !! s) -> error_step (m, q, sent) (send_error order s st m q, sent)
| es_retry m q sent : error_step (m, q, sent) (retry order m q, sent)
| es_cancel s m q sent : error_step (m, q, sent) (cancel_error s m q, sent)
| es_expire t m q sent : error_step (m, q, sent) ((expire_errors order t m q).1, sent).

Lemma error_step_inv x y : error_step x y -> errors_inv x.1.1 x.1.2 x.2 -> errors_inv y.1.1 y.1.2 y.2.
Proof.
  destruct 1 as [s st m q sent Hs|s st m q sent Hs|m q sent|s m q sent|t m q sent]; cbn [fst snd]; intros Hinv.
  - pose proof (send_error_inv s st m q sent Hinv Hs) as Hr. by destruct (send_error order s st m q).
  - unfold send_error. by rewrite bool_decide_true.
  - pose proof (retry_inv m q sent Hinv) as Hr. by destruct (retry order m q), Hr.
  - unfold cancel_error. destruct (m !! s) as [p|] eqn:Hs; [|done]. cbn [fst snd].
    destruct (reset_settles s (status p) REQUEST_CANCELLED q) as (new & -> & Hn); [done|]. by eapply inv_settle.
  - pose proof (retain_inv _ sent m q (expire_settling t) Hinv) as Hr. unfold expire_errors.
    by destruct (retain order _ m q), Hr.
Qed.

Lemma error_inv_init : errors_inv ∅ [] [].
Proof. split; try done; [by intros s st ?%elem_of_nil|apply NoDup_nil_2|vm_compute; lia]. Qed.

(** C29: rejected requests of a connection, in any order of decisions, retries,
    client cancellations and idle sweeps, whatever the library answers: at most
    [MAX_PENDING_ERROR_RESPONSES] responses wait; a request whose first
    rejection had some status waits with that status and has had no response,
    or it was answered exactly once, completely and with that status, or it was
    reset in both directions and never answered; no other stream is answered. *)
Theorem error_responses_settled m q sent :
  rtc error_step (∅, [], []) (m, q, sent) ->
  (size m <= MAX_PENDING_ERROR_RESPONSES)%nat /\
  (forall s st, (s, st) ∈ sent ->
     match m !! s with
     | Some p => status p = st /\ accepted s q = []
     | None => settled s st q
     end) /\
  (forall s, s ∉ sent.*1 -> m !! s = None /\ accepted s q = []).
Proof.
  intros Hrun. assert (errors_inv m q sent) as [H1 H2 H3 H4 H5].
  { change (errors_inv (m, q, sent).1.1 (m, q, sent).1.2 (m, q, sent).2).
    revert Hrun. apply (rtc_ind_r (fun z => errors_inv z.1.1 z.1.2 z.2)); [apply error_inv_init|].
    intros y z _ Hyz. by apply error_step_inv. }
  split_and!; [done| |].
  - intros s st Hin. destruct (m !! s) as [p|] eqn:Hs; [|by apply H2].
    destruct (H1 s p Hs) as [Hp Ha]. split; [|done]. by eapply (fst_unique sent).
  - intros s Hs. split; [|by apply H3]. destruct (m !! s) as [p|] eqn:Hm; [|done].
    destruct Hs. apply list_elem_of_fmap. exists (s, status p). by split; [|apply H1].
Qed.
End runs.

(** A connection whose streams are blocked until it is idle. *)
Definition blocked_library : Quiche :=
  {| answer A q c :=
       match c in call A return A with
       | now => Z.of_nat (length q)
       | send_response _ _ _ => if bool_decide (length q < 3)%nat then Err StreamBlocked else Ok tt
       | send_body _ body _ => Ok (zlen body)
       | recv_body _ _ => Err H3Done
       | poll => Err H3Done
       | with_transport | stream_shutdown _ _ _ | close _ _ | send_goaway _ | recv _ _ _ | accept _ _ _ _ _ | new_scid _ _ _ => true
       | on_timeout => tt
       | send => Err QuicDone
       | dgram_recv _ => Err QuicDone
       | dgram_send_buf _ => Ok tt
       | path_event_next => None
       | retired_scid_next => None
       | random_fill _ => None
       end;
     query_answer A q c :=
       match c in query A return A with
       | stream_readable_len _ | timeout_instant | peer_cert => None
       | scids_left => 0%nat
       | max_send_udp_payload_size | send_quantum => 1200
       | _ => false
       end |}.

Definition keys_order (m : PendingErrorResponses) : list Z := (map_to_list m).*1.

Definition first_rejection := send_error (H:=blocked_library) keys_order 0 403 ∅ [].
Definition second_rejection := send_error (H:=blocked_library) keys_order 4 404 first_rejection.1 first_rejection.2.
Definition both_retried := retry (H:=blocked_library) keys_order second_rejection.1 second_rejection.2.

Lemma error_responses_settled_witness :
  size second_rejection.1 = 2%nat /\ size both_retried.1 = 0%nat /\
  match both_retried.1 !! 4 with
  | Some p => status p = 404 /\ accepted 4 both_retried.2 = []
  | None => settled 4 404 both_retried.2
  end.
Proof.
  split_and!; [by vm_compute..|].
  apply (error_responses_settled (HQ:=blocked_library) keys_order both_retried.1 both_retried.2 [(0, 403); (4, 404)]);
    [|set_solver].
  eapply rtc_l; [apply (es_send keys_order 0 403 ∅ [] []), not_elem_of_nil|].
  rewrite (surjective_pairing (send_error _ _ _ _ _)).
  eapply rtc_l; [apply (es_send keys_order 4 404 _ _ [(0, 403)]); set_solver|].
  rewrite (surjective_pairing (send_error _ _ _ _ _)).
  apply rtc_once. rewrite <- (surjective_pairing both_retried). apply (es_retry keys_order second_rejection.1 second_rejection.2).
Defined.
