(* ===== verification/CapsuleIo.v ===== *)
(** * Capsule streams of an HTTP/3 connection (src/server/capsules.rs)

    The bytes a connection stages for its CONNECT-UDP and CONNECT-IP streams,
    their bounds, the writer that hands them to the library, and the ways a
    stream is closed.  The library is that of [Quiche]. *)

From stdpp Require Import list gmap strings.
From S2P Require Import Prelude Varint Net Capsule CapsuleStream Quiche UdpTunnel Connection.
Open Scope Z_scope.

Definition MAX_STREAM_SEND_BYTES : Z := 256 * 1024.
Definition MAX_CONNECTION_SEND_BYTES : Z := 1024 * 1024.
Definition MAX_STREAM_SEND_PACKETS : Z := 64.
Definition MAX_CONNECTION_SEND_PACKETS : Z := 256.
Definition MAX_RECEIVED_PACKETS : Z := 64.
Definition MAX_RECEIVED_BYTES : Z := 256 * 1024.
Definition MAX_UDP_PAYLOAD : Z := 65527.

(** [WireErrorCode::MessageError]. *)
Definition MESSAGE_ERROR : Z := 0x10e.

(** ** The state *)

Inductive StreamDecoder := DatagramDecoder (d : DatagramCapsules) | IpDecoder (d : IpCapsules).

Definition stream_decode (d : StreamDecoder) (data : bytes) : StreamDecoder * result DecodeError (list CapsuleFrame) :=
  match d with
  | DatagramDecoder d => let '(d, r) := datagrams_decode d data in (DatagramDecoder d, map Datagram <$> r)
  | IpDecoder d => let '(d, r) := ip_decode d data in (IpDecoder d, r)
  end.

Definition stream_is_partial (d : StreamDecoder) : bool :=
  match d with DatagramDecoder d => is_partial d | IpDecoder d => ip_is_partial d end.

Record CapsuleStream := {
  cs_decoder : StreamDecoder;
  address_requests : option AddressRequests;
  send_queue : list bytes;
  offset : Z;
  staged_bytes : Z;
  max_payload : Z;
  finished_at : option Z;
  early : option EarlyUdpDatagrams;
}.
#[export] Instance CapsuleStream_eta : Eta CapsuleStream := fun r =>
  {| cs_decoder := cs_decoder r; address_requests := address_requests r; send_queue := send_queue r; offset := offset r;
     staged_bytes := staged_bytes r; max_payload := max_payload r; finished_at := finished_at r; early := early r |}.

Definition stream_new (max : Z) : CapsuleStream :=
  {| cs_decoder := DatagramDecoder (datagrams_new (Z.to_nat (max + 8))); address_requests := None; send_queue := [];
     offset := 0; staged_bytes := 0; max_payload := max; finished_at := None; early := None |}.
Definition new_udp (max : Z) (early_datagrams : EarlyUdpDatagrams) : CapsuleStream :=
  stream_new max <| early := Some early_datagrams |>.
Definition new_ip (max : Z) : CapsuleStream :=
  stream_new max <| cs_decoder := IpDecoder (ip_capsules_new (Z.to_nat (max + 8))) |>
                 <| address_requests := Some {| seen := ∅ |} |>.

(** [None] for a request that is still open. *)
Definition drain_expired (now timeout : Z) (s : CapsuleStream) : option bool :=
  (fun finished => bool_decide (elapsed now finished > timeout)) <$> finished_at s.
Definition has_partial_output (s : CapsuleStream) : bool := negb (bool_decide (offset s = 0)).

(** The fields of [ClientConnection] that hold capsules. *)
Record CapsuleIo := {
  capsule_streams : gmap Z CapsuleStream;
  capsule_readable : gset Z;
  capsule_read_resumes : gset Z;
  capsule_writable : gset Z;
  finished_capsules : list Z;
  capsule_send_bytes : Z;
  capsule_send_packets : Z;
  received_capsules : list bytes;
  received_capsule_bytes : Z;
}.
#[export] Instance CapsuleIo_eta : Eta CapsuleIo := fun r =>
  {| capsule_streams := capsule_streams r; capsule_readable := capsule_readable r;
     capsule_read_resumes := capsule_read_resumes r; capsule_writable := capsule_writable r;
     finished_capsules := finished_capsules r; capsule_send_bytes := capsule_send_bytes r;
     capsule_send_packets := capsule_send_packets r; received_capsules := received_capsules r;
     received_capsule_bytes := received_capsule_bytes r |}.

Definition io_new : CapsuleIo :=
  {| capsule_streams := ∅; capsule_readable := ∅; capsule_read_resumes := ∅; capsule_writable := ∅;
     finished_capsules := []; capsule_send_bytes := 0; capsule_send_packets := 0; received_capsules := [];
     received_capsule_bytes := 0 |}.

Definition put_stream (id : Z) (s : CapsuleStream) (io : CapsuleIo) : CapsuleIo :=
  io <| capsule_streams ::= insert id s |>.

(** ** Staging *)

Definition queue_capsule_bytes (id : Z) (data : bytes) (io : CapsuleIo) : bool * CapsuleIo :=
  match capsule_streams io !! id with
  | None => (false, io)
  | Some s =>
      if bool_decide (is_Some (finished_at s)) ||
         bool_decide (staged_bytes s + zlen data > MAX_STREAM_SEND_BYTES) ||
         bool_decide (capsule_send_bytes io + zlen data > MAX_CONNECTION_SEND_BYTES) ||
         bool_decide (zlen (send_queue s) >= MAX_STREAM_SEND_PACKETS) ||
         bool_decide (capsule_send_packets io >= MAX_CONNECTION_SEND_PACKETS)
      then (false, io)
      else (true, put_stream id (s <| staged_bytes ::= Z.add (zlen data) |> <| send_queue := send_queue s ++ [data] |>)
                    (io <| capsule_send_bytes ::= Z.add (zlen data) |> <| capsule_send_packets ::= Z.add 1 |>
                        <| capsule_writable ::= union {[id]} |>))
  end.

(** The second bound check is the one of [queue_capsule_bytes]. *)
Definition queue_datagram_capsule (id : Z) (payload : bytes) (io : CapsuleIo) : result Empty_set (bool * CapsuleIo) :=
  match capsule_streams io !! id with
  | None => Ok (false, io)
  | Some s =>
      if bool_decide (is_Some (finished_at s)) ||
         bool_decide (Z.min USIZE_MAX (capsule_send_bytes io + (zlen payload + 17)) > MAX_CONNECTION_SEND_BYTES) ||
         bool_decide (Z.min USIZE_MAX (staged_bytes s + (zlen payload + 17)) > MAX_STREAM_SEND_BYTES) ||
         bool_decide (zlen (send_queue s) >= MAX_STREAM_SEND_PACKETS) ||
         bool_decide (capsule_send_packets io >= MAX_CONNECTION_SEND_PACKETS)
      then Ok (false, io)
      else
        capsule ← encode_datagram_context_zero payload [];
        Ok (queue_capsule_bytes id capsule io)
  end.

Definition discard_capsule_output (id : Z) (io : CapsuleIo) : result Empty_set CapsuleIo :=
  io ← match capsule_streams io !! id with
       | None => Ok io
       | Some s =>
           b ← usize_sub (capsule_send_bytes io) (staged_bytes s);
           n ← usize_sub (capsule_send_packets io) (zlen (send_queue s));
           Ok (put_stream id (s <| send_queue := [] |> <| staged_bytes := 0 |> <| offset := 0 |>)
                 (io <| capsule_send_bytes := b |> <| capsule_send_packets := n |>))
       end;
  Ok (io <| capsule_writable ::= fun w => w ∖ {[id]} |>).

Definition remove_capsule_stream (id : Z) (io : CapsuleIo) : result Empty_set CapsuleIo :=
  io ← match capsule_streams io !! id with
       | None => Ok io
       | Some s =>
           b ← usize_sub (capsule_send_bytes io) (staged_bytes s);
           n ← usize_sub (capsule_send_packets io) (zlen (send_queue s));
           Ok (io <| capsule_streams ::= delete id |> <| capsule_send_bytes := b |> <| capsule_send_packets := n |>)
       end;
  Ok (io <| capsule_readable ::= fun r => r ∖ {[id]} |> <| capsule_read_resumes ::= fun r => r ∖ {[id]} |>
         <| capsule_writable ::= fun r => r ∖ {[id]} |> <| finished_capsules ::= filter (fun x => x <> id) |>).

(** ** The library side *)

Section output.
Context `{Quiche}.

Definition mark_capsule_finished (id : Z) (io : CapsuleIo) (q : conn) : CapsuleIo * conn :=
  match capsule_streams io !! id with
  | Some s =>
      match finished_at s with
      | None =>
          let '(t, q) := do now q in
          (put_stream id (s <| finished_at := Some t |>) (io <| finished_capsules ::= fun l => l ++ [id] |>), q)
      | Some _ => (io, q)
      end
  | None => (io, q)
  end.

(** One turn of the loop over a stream's queue; the answer of the closure when
    the loop ends. *)
Definition flush_step (id : Z) (st : CapsuleIo * conn) : result Empty_set (CapsuleIo * conn + bool * (CapsuleIo * conn)) :=
  let '(io, q) := st in
  s ← unwrap (capsule_streams io !! id);
  match send_queue s with
  | [] => Ok (inr (false, (io, q)))
  | data :: rest =>
      rem ← slice_from data (Z.to_nat (offset s));
      let '(r, q) := do (send_body id rem false) q in
      match r with
      | Err StreamBlocked | Err H3Done => Ok (inr (true, (io, q)))
      | Ok written =>
          if bool_decide (written = 0) then Ok (inr (true, (io, q))) else
          if bool_decide (offset s + written = zlen data) then
            sb ← usize_sub (staged_bytes s) (zlen data);
            b ← usize_sub (capsule_send_bytes io) (zlen data);
            n ← usize_sub (capsule_send_packets io) 1;
            Ok (inl (put_stream id (s <| staged_bytes := sb |> <| send_queue := rest |> <| offset := 0 |>)
                       (io <| capsule_send_bytes := b |> <| capsule_send_packets := n |>), q))
          else Ok (inl (put_stream id (s <| offset := offset s + written |>) io, q))
      | Err _ =>
          b ← usize_sub (capsule_send_bytes io) (staged_bytes s);
          n ← usize_sub (capsule_send_packets io) (zlen (send_queue s));
          Ok (inr (false, (put_stream id (s <| staged_bytes := 0 |> <| send_queue := [] |> <| offset := 0 |>)
                             (io <| capsule_send_bytes := b |> <| capsule_send_packets := n |>), q)))
      | Panic => Panic
      end
  end.

(** The bytes of a stream that wait for the library. *)
Definition unsent (id : Z) (io : CapsuleIo) : nat :=
  match capsule_streams io !! id with
  | Some s => Z.to_nat (sum_of zlen (send_queue s) - offset s)
  | None => 0
  end.

Definition flush_stream (id : Z) (st : CapsuleIo * conn) : result Empty_set (CapsuleIo * conn) :=
  match capsule_streams st.1 !! id with
  | None => Ok (st.1 <| capsule_writable ::= fun w => w ∖ {[id]} |>, st.2)
  | Some _ =>
      r ← while (fun st => unsent id st.1) (flush_step id) st;
      let '(keep, (io, q)) := r in
      Ok (if keep : bool then (io, q) else (io <| capsule_writable ::= fun w => w ∖ {[id]} |>, q))
  end.

Fixpoint flush_all (ids : list Z) (st : CapsuleIo * conn) : result Empty_set (CapsuleIo * conn) :=
  match ids with
  | [] => Ok st
  | id :: ids => st ← flush_stream id st; flush_all ids st
  end.

(** [order] is the order in which the set is walked; [h3] tells whether the
    HTTP/3 layer exists. *)
Definition flush_capsule_output (order : gset Z -> list Z) (h3 : bool) (io : CapsuleIo) (q : conn)
    : result Empty_set (CapsuleIo * conn) :=
  if h3 then flush_all (order (capsule_writable io)) (io, q) else Ok (io, q).

(** ** Closing *)

(** What [close_capsule_stream] does before it drops the tunnel: true when the
    tunnel is dropped.  [ip] tells whether the stream has an IP tunnel. *)
Definition close_output (h3 ip : bool) (id : Z) (reset_ : bool) (io : CapsuleIo) (q : conn)
    : result Empty_set (bool * (CapsuleIo * conn)) :=
  let of_stream P := match capsule_streams io !! id with Some s => P s | None => false end in
  let reset_ := reset_ || of_stream (fun s => stream_is_partial (cs_decoder s)) in
  if reset_ || of_stream has_partial_output then
    Ok (true, (io, reset id (if reset_ then MESSAGE_ERROR else REQUEST_CANCELLED) q))
  else
    io ← (if ip then Ok io else discard_capsule_output id io);
    if h3 then
      let '(r, q) := do (send_body id [] true) q in
      match r with
      | Err StreamBlocked | Err H3Done =>
          Ok (false, (if bool_decide (id ∈ finished_capsules io) then io
                      else io <| finished_capsules ::= fun l => l ++ [id] |>, q))
      | Panic => Panic
      | _ => Ok (true, (io, q))
      end
    else Ok (true, (io, q)).

(** [close_idle_stream] of src/server/shard_lifecycle.rs. *)
Definition close_idle_stream (h3 : bool) (id : Z) (reset_ : bool) (q : conn) : conn :=
  if negb reset_ && h3 then
    let '(r, q) := do (send_body id [] true) q in
    match r with Ok _ => q | _ => reset id REQUEST_CANCELLED q end
  else reset id REQUEST_CANCELLED q.
End output.
