(* ===== verification/CapsuleIoProps.v ===== *)
(** * Staged capsules are bounded, ordered and never cut before FIN

    The counters of [CapsuleIo], what the peer of a stream receives, and runs of
    the operations in any order (src/server/capsules.rs). *)

From stdpp Require Import list gmap strings.
From S2P Require Import Prelude Varint Net Capsule CapsuleStream Quiche UdpTunnel Connection CapsuleIo.
Open Scope Z_scope.

(** ** Sums over the streams *)

Definition total (f : CapsuleStream -> Z) (m : gmap Z CapsuleStream) : Z := map_fold (fun _ s n => f s + n) 0 m.

Lemma total_insert f id s m : m !! id = None -> total f (<[id := s]> m) = f s + total f m.
Proof. intros Hm. unfold total. rewrite map_fold_insert_L; [done|lia|done]. Qed.
Lemma total_delete f id s m : m !! id = Some s -> total f m = f s + total f (delete id m).
Proof. intros Hm. rewrite <- (total_insert f id s) by apply lookup_delete_eq. by rewrite insert_delete_id. Qed.
Lemma total_put f id s s' m : m !! id = Some s -> total f (<[id := s']> m) = total f m - f s + f s'.
Proof.
  intros Hm. rewrite <- insert_delete_eq, total_insert by apply lookup_delete_eq.
  rewrite (total_delete f id s m Hm). lia.
Qed.
Lemma total_nonneg f m : (forall id s, m !! id = Some s -> 0 <= f s) -> 0 <= total f m.
Proof.
  induction m as [|id s m Hid IH] using map_ind; [done|]. intros Hf. rewrite total_insert by done.
  assert (0 <= f s) by (apply (Hf id); by rewrite lookup_insert_eq).
  assert (0 <= total f m); [|lia]. apply IH. intros i x Hi. apply (Hf i). rewrite lookup_insert_ne; [done|congruence].
Qed.

(** ** Accounting *)

Record stream_ok (s : CapsuleStream) : Prop := {
  so_bytes : staged_bytes s = sum_of zlen (send_queue s);
  so_offset : 0 <= offset s /\ match send_queue s with [] => offset s = 0 | d :: _ => offset s <= zlen d end;
  so_max : staged_bytes s <= MAX_STREAM_SEND_BYTES /\ zlen (send_queue s) <= MAX_STREAM_SEND_PACKETS;
}.

Record io_ok (io : CapsuleIo) : Prop := {
  io_streams : forall id s, capsule_streams io !! id = Some s -> stream_ok s;
  io_bytes : capsule_send_bytes io = total staged_bytes (capsule_streams io);
  io_packets : capsule_send_packets io = total (fun s => zlen (send_queue s)) (capsule_streams io);
  io_max : capsule_send_bytes io <= MAX_CONNECTION_SEND_BYTES /\ capsule_send_packets io <= MAX_CONNECTION_SEND_PACKETS;
  io_writable : forall id s, capsule_streams io !! id = Some s -> send_queue s <> [] -> id ∈ capsule_writable io;
  io_finished : forall id, id ∈ finished_capsules io -> exists s, capsule_streams io !! id = Some s /\ is_Some (finished_at s);
}.

Lemma sum_zlen_nonneg (l : list bytes) : 0 <= sum_of zlen l.
Proof. apply sum_of_nonneg, Forall_forall. intros x _. apply zlen_nonneg. Qed.

Lemma usize_sub_ok a b : b <= a -> usize_sub a b = Ok (a - b).
Proof. intros. unfold usize_sub. by rewrite bool_decide_true. Qed.

(** What a stream holds is part of what the connection counts. *)
Lemma staged_part io id s :
  io_ok io -> capsule_streams io !! id = Some s ->
  staged_bytes s <= capsule_send_bytes io /\ zlen (send_queue s) <= capsule_send_packets io.
Proof.
  intros [H1 H2 H3 _ _ _] Hs.
  rewrite H2, H3, (total_delete staged_bytes id s), (total_delete (fun s => zlen (send_queue s)) id s) by done.
  assert (0 <= total staged_bytes (delete id (capsule_streams io))) as Hb.
  { apply total_nonneg. intros i x [_ Hx]%lookup_delete_Some. rewrite (so_bytes x) by eauto. apply sum_zlen_nonneg. }
  assert (0 <= total (fun s => zlen (send_queue s)) (delete id (capsule_streams io))) as Hn.
  { apply total_nonneg. intros. apply zlen_nonneg. }
  lia.
Qed.

(** Replacing a stream by one with a smaller queue. *)
Lemma shrink_ok io id s s' w :
  io_ok io -> capsule_streams io !! id = Some s -> stream_ok s' ->
  (is_Some (finished_at s) -> is_Some (finished_at s')) ->
  staged_bytes s' <= staged_bytes s -> zlen (send_queue s') <= zlen (send_queue s) ->
  (forall i, i <> id -> i ∈ capsule_writable io -> i ∈ w) -> (send_queue s' <> [] -> id ∈ w) ->
  io_ok (put_stream id s' (io <| capsule_send_bytes := capsule_send_bytes io - staged_bytes s + staged_bytes s' |>
    <| capsule_send_packets := capsule_send_packets io - zlen (send_queue s) + zlen (send_queue s') |>
    <| capsule_writable := w |>)).
Proof.
  intros [H1 H2 H3 H4 H5 H6] Hs Hok Hf Hb Hn Hw Hw'. split; cbn.
  - intros i x [[<- <-]|[Hne Hx]]%lookup_insert_Some; eauto.
  - by rewrite (total_put staged_bytes id s), H2.
  - by rewrite (total_put (fun s => zlen (send_queue s)) id s), H3.
  - lia.
  - intros i x [[<- <-]|[Hne Hx]]%lookup_insert_Some; [done|]. intros Hq. apply Hw; [done|]. by eapply H5.
  - intros i Hi. destruct (H6 i Hi) as (x & Hx & Hfx). destruct (decide (i = id)) as [->|Hne].
    + exists s'. rewrite lookup_insert_eq. split; [done|]. apply Hf. congruence.
    + exists x. by rewrite lookup_insert_ne.
Qed.

(** ** What the peer of a stream receives *)

(** The body bytes the library took. *)
Definition body (id : Z) (q : conn) : bytes := concat (omap (accepted_body id) q).

(** A body piece with FIN that the library took. *)
Definition fin_of (e : event) : option Z :=
  match e with
  | Ev c a =>
      match c in call A return A -> option Z with
      | send_body s _ fin => fun a => match a with Ok _ => if fin then Some s else None | _ => None end
      | _ => fun _ => None
      end a
  end.
Definition finished (id : Z) (q : conn) : Prop := id ∈ omap fin_of q.

(** A body piece the library refused for good. *)
Definition refused_of (e : event) : option Z :=
  match e with
  | Ev c a =>
      match c in call A return A -> option Z with
      | send_body s _ _ => fun a => match a with Ok _ | Err StreamBlocked | Err H3Done => None | _ => Some s end
      | _ => fun _ => None
      end a
  end.
Definition refused (id : Z) (q : conn) : Prop := id ∈ omap refused_of q.

Lemma body_snoc id q e : body id (q ++ [e]) = body id q ++ default [] (accepted_body id e).
Proof. unfold body. rewrite omap_app, concat_app. cbn. destruct (accepted_body id e); cbn; by rewrite ?app_nil_r. Qed.
Lemma finished_snoc id q e : finished id (q ++ [e]) <-> finished id q \/ fin_of e = Some id.
Proof.
  unfold finished. rewrite omap_app, elem_of_app. cbn. destruct (fin_of e) as [x|]; cbn.
  - rewrite list_elem_of_singleton. split; (intros [?|?]; [by left|right; congruence]).
  - split; (intros [?|?]; [by left|set_solver]).
Qed.
Lemma refused_snoc id q e : refused id (q ++ [e]) <-> refused id q \/ refused_of e = Some id.
Proof.
  unfold refused. rewrite omap_app, elem_of_app. cbn. destruct (refused_of e) as [x|]; cbn.
  - rewrite list_elem_of_singleton. split; (intros [?|?]; [by left|right; congruence]).
  - split; (intros [?|?]; [by left|set_solver]).
Qed.

(** An open stream has received whole capsules and the part of the next one
    that was already taken; the rest waits, unless it was dropped after the
    request ended. *)
Definition receiving (s : CapsuleStream) (id : Z) (caps : list bytes) (q : conn) : Prop :=
  ~ finished id q /\
  exists sent rest, caps = sent ++ rest /\
    (rest = send_queue s \/ (send_queue s = [] /\ is_Some (finished_at s))) /\
    body id q = concat sent ++ take (Z.to_nat (offset s)) (default [] (head (send_queue s))).

(** A closed stream: whole capsules if it ended with FIN. *)
Definition received (id : Z) (caps : list bytes) (q : conn) : Prop :=
  exists sent rest, caps = sent ++ rest /\
    (body id q = concat sent \/
     (~ finished id q /\ exists n, body id q = concat sent ++ take n (default [] (head rest)))).

(** Every stream that was opened, with the capsules staged for it. *)
Abbreviation staged := (gmap Z (list bytes)).
Definition aligned (io : CapsuleIo) (q : conn) (g : staged) : Prop :=
  (forall id, is_Some (capsule_streams io !! id) -> is_Some (g !! id)) /\
  forall id caps, g !! id = Some caps -> refused id q \/
    match capsule_streams io !! id with
    | Some s => receiving s id caps q
    | None => received id caps q
    end.

(** Calls that write no body and end no stream. *)
Definition bodiless (e : event) : Prop := (forall id, default [] (accepted_body id e) = []) /\ fin_of e = None /\ refused_of e = None.

Lemma receiving_bodiless s id caps q e : bodiless e -> receiving s id caps q -> receiving s id caps (q ++ [e]).
Proof.
  intros (Hb & Hf & Hr). unfold receiving. rewrite body_snoc, finished_snoc, Hb, Hf, app_nil_r. naive_solver.
Qed.
Lemma received_bodiless id caps q e : bodiless e -> received id caps q -> received id caps (q ++ [e]).
Proof.
  intros (Hb & Hf & Hr). unfold received. setoid_rewrite body_snoc. setoid_rewrite finished_snoc.
  rewrite Hb, Hf. cbn. setoid_rewrite app_nil_r. naive_solver.
Qed.
Lemma refused_more id q e : refused id q -> refused id (q ++ [e]).
Proof. rewrite refused_snoc. by left. Qed.

Lemma aligned_bodiless io q g e : bodiless e -> aligned io q g -> aligned io (q ++ [e]) g.
Proof.
  intros He [Hd Ha]. split; [done|]. intros id caps Hg. destruct (Ha id caps Hg) as [Hr|Hs].
  - left. by apply refused_more.
  - right. destruct (capsule_streams io !! id); [by apply receiving_bodiless|by apply received_bodiless].
Qed.

(** Events on one stream do not touch the others. *)
Definition only (id : Z) (e : event) : Prop :=
  forall i, i <> id -> accepted_body i e = None /\ fin_of e <> Some i /\ refused_of e <> Some i.

Lemma only_send_body id b fin a : only id (Ev (send_body id b fin) a).
Proof.
  intros i Hi. cbn. destruct a as [n|[]|]; cbn; try done; rewrite ?bool_decide_false by done; try destruct fin; naive_solver.
Qed.

Lemma receiving_other s i id caps q e :
  only id e -> i <> id -> receiving s i caps q -> receiving s i caps (q ++ [e]).
Proof.
  intros He Hi. destruct (He i Hi) as (Hb & Hf & Hr). unfold receiving. rewrite body_snoc, finished_snoc, Hb, app_nil_r. naive_solver.
Qed.
Lemma received_other i id caps q e : only id e -> i <> id -> received i caps q -> received i caps (q ++ [e]).
Proof.
  intros He Hi. destruct (He i Hi) as (Hb & Hf & Hr). unfold received. setoid_rewrite body_snoc.
  setoid_rewrite finished_snoc. rewrite Hb. cbn. setoid_rewrite app_nil_r. naive_solver.
Qed.

(** One stream changes and one call on it is made. *)
Lemma aligned_step io io' q g id s' e :
  only id e -> capsule_streams io' = <[id := s']> (capsule_streams io) -> is_Some (capsule_streams io !! id) ->
  aligned io q g -> (forall caps, g !! id = Some caps -> refused id (q ++ [e]) \/ receiving s' id caps (q ++ [e])) ->
  aligned io' (q ++ [e]) g.
Proof.
  intros He Hio Hid [Hd Ha] Hs'. split.
  - intros i. rewrite Hio, lookup_insert_is_Some. intros [<-|[_ Hi]]; auto.
  - intros i caps Hg. rewrite Hio. destruct (decide (i = id)) as [->|Hne].
    + rewrite lookup_insert_eq. auto.
    + rewrite lookup_insert_ne by done. destruct (Ha i caps Hg) as [Hr|Hs]; [left; by apply refused_more|right].
      destruct (capsule_streams io !! i); [by eapply receiving_other|by eapply received_other].
Qed.

(** ** Flushing *)

(** What the writer leaves alone. *)
Definition core (s : CapsuleStream) := (cs_decoder s, address_requests s, max_payload s, finished_at s, early s).
Definition same_input (io io' : CapsuleIo) : Prop :=
  core <$> capsule_streams io' = core <$> capsule_streams io /\ capsule_readable io' = capsule_readable io /\
  capsule_read_resumes io' = capsule_read_resumes io /\ finished_capsules io' = finished_capsules io /\
  received_capsules io' = received_capsules io /\ received_capsule_bytes io' = received_capsule_bytes io.

Lemma same_input_refl io : same_input io io.
Proof. by split_and!. Qed.
Lemma same_input_trans io1 io2 io3 : same_input io1 io2 -> same_input io2 io3 -> same_input io1 io3.
Proof. intros (?&?&?&?&?&?) (?&?&?&?&?&?). split_and!; congruence. Qed.

Lemma core_insert (m : gmap Z CapsuleStream) id s s' :
  m !! id = Some s -> core s' = core s -> core <$> <[id := s']> m = core <$> m.
Proof.
  intros Hs Hc. rewrite fmap_insert, Hc. apply insert_id. by rewrite lookup_fmap, Hs.
Qed.

(** What the library promises of a body write. *)
Class BodyLaws `{Quiche} := {
  send_body_count : forall q s b fin n, answer _ q (send_body s b fin) = Ok n -> 0 <= n <= zlen b;
  send_body_panic : forall q s b fin, answer _ q (send_body s b fin) <> Panic;
}.

Section flush.
Context `{HQ : Quiche} `{!BodyLaws}.
Implicit Types g : staged.

(** [al] says whether the bodies are followed. *)
Definition flushing (al : bool) g (id : Z) (io0 : CapsuleIo) (st : CapsuleIo * conn) : Prop :=
  io_ok st.1 /\ (al = true -> aligned st.1 st.2 g) /\ same_input io0 st.1 /\ is_Some (capsule_streams st.1 !! id).

(** The queue after the library took [n] more bytes. *)
Lemma queue_taken s data rest n :
  stream_ok s -> send_queue s = data :: rest -> 0 < n <= zlen data - offset s ->
  let s' := if bool_decide (offset s + n = zlen data)
            then s <| staged_bytes := staged_bytes s - zlen data |> <| send_queue := rest |> <| offset := 0 |>
            else s <| offset := offset s + n |> in
  stream_ok s' /\ core s' = core s /\ staged_bytes s' <= staged_bytes s /\ zlen (send_queue s') <= zlen (send_queue s) /\
  (Z.to_nat (sum_of zlen (send_queue s') - offset s') < Z.to_nat (sum_of zlen (send_queue s) - offset s))%nat.
Proof.
  intros [H1 [H2 H2'] [H3 H4]] Hq Hn. rewrite Hq in *. cbn [sum_of foldr] in H1.
  pose proof (sum_zlen_nonneg rest). pose proof (zlen_nonneg rest). pose proof (zlen_nonneg data). rewrite zlen_cons in *.
  fold (sum_of zlen rest) in H1. case_bool_decide; cbn -[sum_of zlen].
  - split_and!; [split; cbn -[sum_of zlen]| | | |]; try done; try lia.
    + destruct rest as [|d rest']; [lia|]. pose proof (zlen_nonneg d). lia.
    + cbn [sum_of foldr]. fold (sum_of zlen rest). lia.
  - rewrite Hq. split_and!; [split; cbn -[sum_of zlen]| | | |]; rewrite ?Hq, ?zlen_cons; try done; try lia.
    cbn [sum_of foldr]. fold (sum_of zlen rest). lia.
Qed.

Lemma receiving_taken s data rest n id caps q q' :
  stream_ok s -> send_queue s = data :: rest -> 0 < n <= zlen data - offset s ->
  receiving s id caps q -> (~ finished id q') ->
  body id q' = body id q ++ take (Z.to_nat n) (drop (Z.to_nat (offset s)) data) ->
  receiving (if bool_decide (offset s + n = zlen data)
             then s <| staged_bytes := staged_bytes s - zlen data |> <| send_queue := rest |> <| offset := 0 |>
             else s <| offset := offset s + n |>) id caps q'.
Proof.
  intros [_ [Ho _] _] Hq Hn (Hf & sent & rest' & -> & [->|[Hnil _]] & Hb) Hf' Hb'; [|congruence].
  rewrite Hq in *. cbn in Hb. rewrite Hb, <- app_assoc in Hb'.
  assert (take (Z.to_nat (offset s)) data ++ take (Z.to_nat n) (drop (Z.to_nat (offset s)) data)
          = take (Z.to_nat (offset s + n)) data) as Ht.
  { rewrite Z2Nat.inj_add by lia. by rewrite take_take_drop. }
  rewrite Ht in Hb'. split; [done|]. case_bool_decide as Hall; cbn.
  - exists (sent ++ [data]), rest. rewrite <- app_assoc. cbn. split_and!; [done|by left|].
    rewrite Hb', concat_snoc, Hall. unfold zlen. rewrite Nat2Z.id, firstn_all. by rewrite app_nil_r.
  - exists sent, (data :: rest). rewrite Hq. cbn. split_and!; [done|by left|done].
Qed.

(** The stream's queue is emptied. *)
Lemma cleared_ok s : stream_ok (s <| staged_bytes := 0 |> <| send_queue := [] |> <| offset := 0 |>).
Proof. split; cbn; [done|lia|]. unfold MAX_STREAM_SEND_BYTES, MAX_STREAM_SEND_PACKETS. zlens. lia. Qed.

Lemma same_input_put io io1 id s s' b n w :
  same_input io io1 -> capsule_streams io1 !! id = Some s -> core s' = core s ->
  same_input io (put_stream id s' (io1 <| capsule_send_bytes := b |> <| capsule_send_packets := n |> <| capsule_writable := w |>)).
Proof.
  intros Hio Hs Hc. eapply same_input_trans; [done|]. split; [|done]. cbn. by eapply core_insert.
Qed.

Lemma writable_same io : io <| capsule_writable := capsule_writable io |> = io.
Proof. by destruct io. Qed.

(** A stream is replaced by one with a smaller queue; the library was called. *)
Lemma flushing_put al g id io0 io q e s s' b n :
  flushing al g id io0 (io, q) -> capsule_streams io !! id = Some s -> only id e ->
  stream_ok s' -> core s' = core s -> staged_bytes s' <= staged_bytes s -> zlen (send_queue s') <= zlen (send_queue s) ->
  b = capsule_send_bytes io - staged_bytes s + staged_bytes s' ->
  n = capsule_send_packets io - zlen (send_queue s) + zlen (send_queue s') ->
  (forall caps, g !! id = Some caps -> refused id q \/ receiving s id caps q ->
     refused id (q ++ [e]) \/ receiving s' id caps (q ++ [e])) ->
  (send_queue s = [] -> send_queue s' = []) ->
  flushing al g id io0 (put_stream id s' (io <| capsule_send_bytes := b |> <| capsule_send_packets := n |>), q ++ [e]).
Proof.
  intros (Hok & Hal & Hin & _) Hs He Hs' Hc Hb Hn -> -> Hr Hnil. cbn in *.
  assert (finished_at s' = finished_at s) as Hfin by (unfold core in Hc; congruence).
  split_and!; cbn -[put_stream].
  - pose proof (shrink_ok io id s s' (capsule_writable io) Hok Hs Hs') as Hput.
    rewrite <- (writable_same io) at 1. apply Hput; try done; [by rewrite Hfin|].
    intros Hne. eapply io_writable; eauto.
  - intros Hon. specialize (Hal Hon). eapply (aligned_step io _ q g id s' e); eauto. intros caps Hg. apply (Hr caps Hg).
    destruct Hal as [_ Ha]. specialize (Ha id caps Hg). by rewrite Hs in Ha.
  - rewrite <- (writable_same io). by eapply same_input_put.
  - cbn. rewrite lookup_insert_eq. eauto.
Qed.

Lemma flushing_quiet al g id io0 io q e : flushing al g id io0 (io, q) -> bodiless e -> flushing al g id io0 (io, q ++ [e]).
Proof. intros (? & ? & ? & ?) He. split_and!; try done. intros. apply aligned_bodiless; auto. Qed.

(** The library took [n] bytes of the first capsule. *)
Lemma flush_taken al g id io0 io q s data rest n :
  flushing al g id io0 (io, q) -> capsule_streams io !! id = Some s -> send_queue s = data :: rest ->
  0 < n <= zlen data - offset s ->
  let e := Ev (send_body id (drop (Z.to_nat (offset s)) data) false) (Ok n) in
  let full := bool_decide (offset s + n = zlen data) in
  let s' := if full then s <| staged_bytes := staged_bytes s - zlen data |> <| send_queue := rest |> <| offset := 0 |>
            else s <| offset := offset s + n |> in
  let io' := put_stream id s' (if full then io <| capsule_send_bytes := capsule_send_bytes io - zlen data |>
                                               <| capsule_send_packets := capsule_send_packets io - 1 |> else io) in
  flushing al g id io0 (io', q ++ [e]) /\ (unsent id io' < unsent id io)%nat.
Proof.
  intros Hfl Hs Hq Hn e full s' io'. pose proof Hfl as (Hok & _). pose proof (io_streams io Hok id s Hs) as Hsok.
  destruct (queue_taken s data rest n Hsok Hq Hn) as (T1 & T2 & T3 & T4 & T5). fold full s' in T1, T2, T3, T4, T5.
  split; [|unfold unsent, io'; cbn; by rewrite lookup_insert_eq, Hs].
  assert (io' = put_stream id s' (io <| capsule_send_bytes := capsule_send_bytes io - staged_bytes s + staged_bytes s' |>
    <| capsule_send_packets := capsule_send_packets io - zlen (send_queue s) + zlen (send_queue s') |>)) as ->.
  { unfold io', s', put_stream, set_field. destruct io, full; cbn -[zlen]; rewrite ?Hq, ?zlen_cons; f_equal; lia. }
  eapply flushing_put; eauto using only_send_body; [|by rewrite Hq].
  intros caps Hg [Hr|Hrec]; [left; by apply refused_more|right].
  apply (receiving_taken s data rest n id caps q); try done.
  - rewrite finished_snoc. intros [Hfin|Hfin]; [by destruct Hrec|done].
  - rewrite body_snoc. cbn. by rewrite bool_decide_true.
Qed.

(** The library refused the stream. *)
Lemma flush_refused al g id io0 io q s rem e code :
  flushing al g id io0 (io, q) -> capsule_streams io !! id = Some s -> e = Ev (send_body id rem false) (Err (H3Other code)) ->
  flushing al g id io0 (put_stream id (s <| staged_bytes := 0 |> <| send_queue := [] |> <| offset := 0 |>)
    (io <| capsule_send_bytes := capsule_send_bytes io - staged_bytes s |>
        <| capsule_send_packets := capsule_send_packets io - zlen (send_queue s) |>), q ++ [e]).
Proof.
  intros Hfl Hs ->. pose proof Hfl as (Hok & _). pose proof (io_streams io Hok id s Hs) as Hsok.
  eapply flushing_put; eauto using only_send_body, cleared_ok; cbn -[zlen]; zlens; try lia.
  - rewrite (so_bytes s Hsok). apply sum_zlen_nonneg.
  - apply zlen_nonneg.
  - intros caps _ _. left. rewrite refused_snoc. by right.
Qed.

Lemma flush_step_post al g id io0 st :
  flushing al g id io0 st ->
  post (flush_step id st) (fun r => match r with
    | inl st' => flushing al g id io0 st' /\ (unsent id st'.1 < unsent id st.1)%nat
    | inr (keep, st') => flushing al g id io0 st' /\
        (keep = false -> exists s, capsule_streams st'.1 !! id = Some s /\ send_queue s = [])
    end).
Proof.
  destruct st as [io q]. intros Hfl. pose proof Hfl as (Hok & Hal & Hin & [s Hs]). cbn [fst snd] in *.
  unfold flush_step. rewrite Hs. cbn [unwrap mbind result_bind].
  pose proof (io_streams io Hok id s Hs) as Hsok. pose proof (staged_part io id s Hok Hs) as [Hpb Hpn].
  destruct (send_queue s) as [|data rest] eqn:Hq; [simpl; split; [done|eauto]|].
  pose proof Hsok as [Hbytes [Ho Hod] _]. rewrite Hq in Hod, Hbytes. cbn in Hbytes. fold (sum_of zlen rest) in Hbytes.
  pose proof (sum_zlen_nonneg rest). pose proof (zlen_nonneg rest). pose proof (zlen_cons data rest) as Hlen.
  apply post_bind, post_slice_from; [unfold zlen in Hod; lia|]. unfold do.
  set (rem := drop (Z.to_nat (offset s)) data).
  assert (Hrem : zlen rem = zlen data - offset s) by (unfold rem, zlen in *; rewrite length_drop; lia).
  pose proof (send_body_panic q id rem false) as Hnp.
  destruct (answer _ q _) as [n|e|] eqn:Ha; [| |done].
  - pose proof (send_body_count q id rem false n Ha) as Hn. destruct (decide (n = 0)) as [->|Hn0].
    + rewrite bool_decide_true by done. split; [|done]. apply flushing_quiet; [done|].
      split_and!; [|done..]. intros i. cbn. by case_bool_decide.
    + rewrite bool_decide_false by done. rewrite Hrem in Hn.
      destruct (flush_taken al g id io0 io q s data rest n Hfl Hs Hq ltac:(lia)) as [Ht1 Ht2].
      destruct (bool_decide (offset s + n = zlen data)); [|done].
      rewrite !usize_sub_ok by lia. cbn [mbind result_bind post]. done.
  - destruct e as [| |code]; [split; [apply flushing_quiet|]; done..|].
    rewrite !usize_sub_ok by (rewrite ?Hq; lia). cbn [mbind result_bind post]. split.
    + rewrite <- Hq. by apply (flush_refused al g id io0 io q s rem _ code).
    + intros _. eexists. cbn. rewrite lookup_insert_eq. done.
Qed.

Lemma flush_stream_ok al g id io q :
  io_ok io -> (al = true -> aligned io q g) ->
  exists io' q', flush_stream id (io, q) = Ok (io', q') /\ io_ok io' /\ (al = true -> aligned io' q' g) /\ same_input io io'.
Proof.
  intros Hok Hal. unfold flush_stream. cbn [fst snd]. destruct (capsule_streams io !! id) as [s|] eqn:Hs.
  - assert (flushing al g id io (io, q)) as Hfl by (split_and!; cbn; eauto using same_input_refl).
    pose proof (post_while_inv _ _ _ _ _ (fun st Hst => flush_step_post al g id io st Hst) Hfl) as Hp.
    destruct (while _ _ _) as [[keep [io' q']]|[]|]; [|done]. destruct Hp as [(Hok' & Hal' & Hin & _) Hk]. cbn in *.
    destruct keep; [eauto 10|]. destruct (Hk eq_refl) as (s' & Hs' & Hnil). do 2 eexists. split_and!; [done| |done|done].
    destruct Hok' as [H1 H2 H3 H4 H5 H6]. split; try done. cbn. intros i x Hx Hne.
    apply elem_of_difference. split; [eauto|]. rewrite elem_of_singleton. intros ->. congruence.
  - do 2 eexists. split_and!; [done| |done|by split_and!].
    destruct Hok as [H1 H2 H3 H4 H5 H6]. split; try done. cbn. intros i x Hx Hne.
    apply elem_of_difference. split; [eauto|]. rewrite elem_of_singleton. intros ->. congruence.
Qed.

Lemma flush_all_ok al g ids io q :
  io_ok io -> (al = true -> aligned io q g) ->
  exists io' q', flush_all ids (io, q) = Ok (io', q') /\ io_ok io' /\ (al = true -> aligned io' q' g) /\ same_input io io'.
Proof.
  revert io q. induction ids as [|id ids IH]; intros io q Hok Hal; [eauto 10 using same_input_refl|].
  cbn [flush_all]. destruct (flush_stream_ok al g id io q Hok Hal) as (io1 & q1 & -> & Hok1 & Hal1 & Hin1).
  destruct (IH io1 q1 Hok1 Hal1) as (io2 & q2 & Hr & Hok2 & Hal2 & Hin2).
  cbn. rewrite Hr. eauto 10 using same_input_trans.
Qed.

Lemma flush_output_ok al g order h3 io q :
  io_ok io -> (al = true -> aligned io q g) ->
  exists io' q', flush_capsule_output order h3 io q = Ok (io', q') /\ io_ok io' /\ (al = true -> aligned io' q' g) /\ same_input io io'.
Proof.
  intros Hok Hal. unfold flush_capsule_output. destruct h3; [by apply flush_all_ok|eauto 10 using same_input_refl].
Qed.
End flush.

(** ** The other operations *)

(** Dropping a request at any moment leaves its peer with a cut stream. *)
Lemma receiving_received s id caps q :
  stream_ok s -> receiving s id caps q -> received id caps q.
Proof.
  intros [_ [_ Hoff] _] (Hf & sent & rest & -> & Hr & Hb). exists sent, rest. split; [done|].
  destruct Hr as [->|[Hnil _]]; [right; eauto|]. left. rewrite Hnil in *. by rewrite Hb, Hoff, app_nil_r.
Qed.

(** A stream about to be dropped, the others as before. *)
Definition leaving (id : Z) (io : CapsuleIo) (q : conn) (g : staged) : Prop :=
  (forall i, is_Some (capsule_streams io !! i) -> is_Some (g !! i)) /\
  forall i caps, g !! i = Some caps -> refused i q \/
    match capsule_streams io !! i with
    | Some s => if bool_decide (i = id) then received i caps q else receiving s i caps q
    | None => received i caps q
    end.

Lemma aligned_leaving id io q g : io_ok io -> aligned io q g -> leaving id io q g.
Proof.
  intros Hok [Hd Ha]. split; [done|]. intros i caps Hg. destruct (Ha i caps Hg) as [Hr|Hs]; [by left|right].
  destruct (capsule_streams io !! i) as [s|] eqn:Hs'; [|done]. case_bool_decide; [|done].
  eapply receiving_received; [|done]. by eapply io_streams.
Qed.

(** The staged packets are untouched, and no stream is listed as finished twice. *)
Definition same_received (io io' : CapsuleIo) : Prop :=
  received_capsules io' = received_capsules io /\ received_capsule_bytes io' = received_capsule_bytes io /\
  (NoDup (finished_capsules io) -> NoDup (finished_capsules io')).

(** The capsule streams have the readers they had. *)
Definition same_readers (io io' : CapsuleIo) : Prop :=
  forall id x', capsule_streams io' !! id = Some x' -> exists x, capsule_streams io !! id = Some x /\
    cs_decoder x' = cs_decoder x /\ address_requests x' = address_requests x.

Lemma same_readers_refl io : same_readers io io.
Proof. intros id x. eauto. Qed.
Lemma same_readers_trans io1 io2 io3 : same_readers io1 io2 -> same_readers io2 io3 -> same_readers io1 io3.
Proof. intros H1 H2 id x3 (x2 & Hx2 & -> & ->)%H2. by apply H1. Qed.
Lemma same_readers_put io id s s' :
  capsule_streams io !! id = Some s -> cs_decoder s' = cs_decoder s -> address_requests s' = address_requests s ->
  forall io', capsule_streams io' = <[id := s']> (capsule_streams io) -> same_readers io io'.
Proof. intros Hs Hd Ha io' Hio i x. rewrite Hio. intros [[<- <-]|[_ ?]]%lookup_insert_Some; eauto. Qed.

Lemma remove_stream_io id io :
  io_ok io ->
  exists io', remove_capsule_stream id io = Ok io' /\ io_ok io' /\ same_received io io' /\
    capsule_streams io' = delete id (capsule_streams io).
Proof.
  intros Hok. unfold remove_capsule_stream. destruct (capsule_streams io !! id) as [s|] eqn:Hs.
  - destruct (staged_part io id s Hok Hs). rewrite !usize_sub_ok by done. cbn [mbind result_bind].
    eexists. split; [done|]. destruct Hok as [H1 H2 H3 H4 H5 H6].
    pose proof (so_bytes s (H1 id s Hs)). pose proof (sum_zlen_nonneg (send_queue s)). pose proof (zlen_nonneg (send_queue s)).
    split; [split; cbn|split; [split_and!; [done|done|apply NoDup_filter]|done]].
    + intros i x [_ Hx]%lookup_delete_Some. eauto.
    + rewrite H2, (total_delete staged_bytes id s) by done. lia.
    + rewrite H3, (total_delete (fun s => zlen (send_queue s)) id s) by done. lia.
    + lia.
    + intros i x [Hne Hx]%lookup_delete_Some Hq. apply elem_of_difference. split; [eauto|]. set_solver.
    + intros i [Hne Hi]%list_elem_of_filter. destruct (H6 i Hi) as (x & Hx & Hf). exists x. by rewrite lookup_delete_ne.
  - eexists. split; [done|]. destruct Hok as [H1 H2 H3 H4 H5 H6]. rewrite delete_id by done.
    split; [split; cbn; try done|split; [split_and!; [done|done|apply NoDup_filter]|done]].
    + intros i x Hx Hq. apply elem_of_difference. split; [eauto|]. rewrite elem_of_singleton. congruence.
    + intros i [Hne Hi]%list_elem_of_filter. eauto.
Qed.

Lemma remove_stream_ok g id io q :
  io_ok io -> leaving id io q g ->
  exists io', remove_capsule_stream id io = Ok io' /\ io_ok io' /\ aligned io' q g /\
    capsule_streams io' = delete id (capsule_streams io).
Proof.
  intros Hok [Hd Ha]. destruct (remove_stream_io id io Hok) as (io' & Hr & Hok' & _ & Hst).
  exists io'. split_and!; try done. split; rewrite Hst.
  - intros i [x [_ Hx]%lookup_delete_Some]. apply Hd. eauto.
  - intros i caps Hg. destruct (Ha i caps Hg) as [Hr'|Hs']; [by left|right].
    destruct (decide (i = id)) as [->|Hne].
    + rewrite lookup_delete_eq. rewrite bool_decide_true in Hs' by done. by destruct (capsule_streams io !! id).
    + rewrite lookup_delete_ne by done. by rewrite bool_decide_false in Hs'.
Qed.

Lemma io_same io : io_ok io -> io_ok io /\ same_received io io /\ same_readers io io.
Proof. intros. split; [done|]. split; [done|apply same_readers_refl]. Qed.

Lemma queue_bytes_io id data io ok io' :
  io_ok io -> queue_capsule_bytes id data io = (ok, io') ->
  io_ok io' /\ same_received io io' /\ same_readers io io'.
Proof.
  intros Hok. unfold queue_capsule_bytes. destruct (capsule_streams io !! id) as [s|] eqn:Hs;
    [|intros [= <- <-]; by apply io_same].
  repeat (destruct (bool_decide _) eqn:? at 1; [intros [= <- <-]; by apply io_same|]; cbn [orb]).
  intros [= <- <-]. repeat match goal with H : bool_decide _ = false |- _ => apply bool_decide_eq_false in H end.
  split; [|split; [done|eapply (same_readers_put _ id s); [done| | |reflexivity]; done]].
  destruct Hok as [H1 H2 H3 H4 H5 H6]. destruct (H1 id s Hs) as [S1 [S2 S3] [S4 S5]]. pose proof (zlen_nonneg data).
  split; cbn -[zlen].
  - intros i x [[<- <-]|[Hne Hx]]%lookup_insert_Some; [|eauto]. split; cbn -[zlen sum_of].
    + rewrite sum_of_app, S1. cbn. lia.
    + split; [done|]. destruct (send_queue s) as [|d l]; cbn -[zlen]; [lia|done].
    + rewrite zlen_app. split; [lia|]. change (zlen [data]) with 1. lia.
  - rewrite (total_put staged_bytes id s) by done. cbn -[zlen]. lia.
  - rewrite (total_put (fun s => zlen (send_queue s)) id s) by done. cbn -[zlen]. rewrite zlen_app.
    change (zlen [data]) with 1. lia.
  - lia.
  - intros i x [[<- <-]|[Hne Hx]]%lookup_insert_Some; [set_solver|]. intros Hq. apply elem_of_union_r. eauto.
  - intros i Hi. destruct (H6 i Hi) as (x & Hx & Hf). exists x. rewrite lookup_insert_ne; [done|]. intros ->. congruence.
Qed.

Lemma queue_bytes_ok g id data io q ok io' :
  io_ok io -> aligned io q g -> queue_capsule_bytes id data io = (ok, io') ->
  io_ok io' /\ aligned io' q (if ok then alter (fun l => l ++ [data]) id g else g).
Proof.
  intros Hok [Hd Ha] Hq. destruct (queue_bytes_io id data io ok io' Hok Hq) as [Hok' _]. split; [done|]. clear Hok'. revert Hq.
  unfold queue_capsule_bytes. destruct (capsule_streams io !! id) as [s|] eqn:Hs; [|by intros [= <- <-]].
  destruct (_ || _) eqn:Hg0; intros [= <- <-]; [done|]. rewrite !orb_false_iff, !bool_decide_eq_false in Hg0.
  destruct Hg0 as [[[[Hnf _] _] _] _]. destruct (io_streams io Hok id s Hs) as [S1 [S2 S3] [S4 S5]].
  split; cbn -[zlen].
  - intros i. rewrite lookup_insert_is_Some. intros Hi. rewrite lookup_alter_is_Some. apply Hd.
    destruct Hi as [<-|[_ Hi]]; [eauto|done].
  - intros i caps. destruct (decide (i = id)) as [->|Hne].
    + rewrite lookup_alter_eq, lookup_insert_eq. intros (caps0 & Hg & ->)%fmap_Some.
      destruct (Ha id caps0 Hg) as [Hr|Hs']; [by left|right]. rewrite Hs in Hs'.
      destruct Hs' as (Hf & sent & rest & -> & Hr & Hb). split; [done|]. cbn.
      exists sent, (rest ++ [data]). rewrite app_assoc. split; [done|].
      destruct Hr as [->|[_ Hfin]]; [|done]. split; [by left|]. rewrite Hb. f_equal.
      destruct (send_queue s); [by rewrite S3|done].
    + rewrite lookup_alter_ne, lookup_insert_ne by done. eauto.
Qed.

(** The capsule [queue_datagram_capsule] stages. *)
Definition datagram_capsule (payload : bytes) : bytes :=
  wire CAPSULE_DATAGRAM ++ wire (Z.of_nat (length payload) + 1) ++ [0] ++ payload.

(** It is staged as [queue_capsule_bytes] does, or refused before. *)
Lemma queue_datagram_bytes id payload io :
  io_ok io ->
  exists ok io', queue_datagram_capsule id payload io = Ok (ok, io') /\
    (queue_capsule_bytes id (datagram_capsule payload) io = (ok, io') \/ (ok = false /\ io' = io)).
Proof.
  intros Hok. unfold queue_datagram_capsule. destruct (capsule_streams io !! id) as [s|] eqn:Hs; [|eauto 8].
  destruct (_ || _) eqn:Hg; [by eauto 8|]. rewrite !orb_false_iff, !bool_decide_eq_false in Hg.
  destruct Hg as [[[[_ Hg] _] _] _]. pose proof (staged_part io id s Hok Hs) as [Hpart _].
  pose proof (so_bytes s (io_streams io Hok id s Hs)). pose proof (sum_zlen_nonneg (send_queue s)).
  unfold USIZE_MAX, U64_MAX, MAX_CONNECTION_SEND_BYTES, zlen in Hg.
  unfold encode_datagram_context_zero.
  do 2 (rewrite push_varint_Ok by (unfold varint_ok, CAPSULE_DATAGRAM, MAX_VALUE; lia); cbn [mbind result_bind app]).
  unfold datagram_capsule. rewrite <- !app_assoc. cbn [app].
  match goal with |- context [queue_capsule_bytes id ?d io] => destruct (queue_capsule_bytes id d io) as [ok io'] eqn:Hq end.
  exists ok, io'. split; [done|by left].
Qed.

Lemma queue_datagram_io id payload io :
  io_ok io ->
  exists ok io', queue_datagram_capsule id payload io = Ok (ok, io') /\ io_ok io' /\ same_received io io' /\ same_readers io io'.
Proof.
  intros Hok. destruct (queue_datagram_bytes id payload io Hok) as (ok & io' & -> & [Hq|[-> ->]]); do 2 eexists; (split; [done|]).
  - by eapply queue_bytes_io.
  - by apply io_same.
Qed.

Lemma queue_datagram_ok g id payload io q :
  io_ok io -> aligned io q g ->
  exists ok io', queue_datagram_capsule id payload io = Ok (ok, io') /\ io_ok io' /\
    aligned io' q (if ok then alter (fun l => l ++ [datagram_capsule payload]) id g else g).
Proof.
  intros Hok Hal. destruct (queue_datagram_bytes id payload io Hok) as (ok & io' & -> & [Hq|[-> ->]]); do 2 eexists; (split; [done|]); [|done].
  by apply (queue_bytes_ok g id _ io q ok io').
Qed.

Section closing.
Context `{HQ : Quiche} `{!BodyLaws}.
Implicit Types g : staged.

Lemma aligned_exec {A} (c : call A) io q g :
  bodiless (Ev c (answer _ q c)) -> aligned io q g -> aligned io (exec c q) g.
Proof. intros. rewrite exec_trace. by apply aligned_bodiless. Qed.

Lemma shutdown_bodiless s d code a : bodiless (Ev (stream_shutdown s d code) a).
Proof. done. Qed.

Lemma aligned_reset io id code q g : aligned io q g -> aligned io (reset id code q) g.
Proof. intros. unfold reset. do 2 (apply aligned_exec; [apply shutdown_bodiless|]). done. Qed.

Lemma mark_finished_io id io q :
  io_ok io ->
  let '(io', q') := mark_capsule_finished id io q in
  io_ok io' /\ same_received io io' /\ same_readers io io' /\ (q' = q \/ q' = exec now q).
Proof.
  intros Hok. pose proof (io_same io Hok) as (_ & Hsr & Hsd). unfold mark_capsule_finished.
  destruct (capsule_streams io !! id) as [s|] eqn:Hs; [|by auto 8].
  destruct (finished_at s) as [t|] eqn:Hf; [by auto 8|]. unfold do.
  split; [|split; [split; [done|split; [done|]]|split; [|by right]]].
  - destruct Hok as [H1 H2 H3 H4 H5 H6]. split; cbn.
    + intros i x [[<- <-]|[Hne Hx]]%lookup_insert_Some; [|eauto]. by destruct (H1 id s Hs).
    + rewrite (total_put staged_bytes id s) by done. cbn. lia.
    + rewrite (total_put (fun s => zlen (send_queue s)) id s) by done. cbn. lia.
    + done.
    + intros i x [[<- <-]|[Hne Hx]]%lookup_insert_Some; eauto.
    + intros i [Hi|Hi]%elem_of_app.
      * destruct (H6 i Hi) as (x & Hx & Hfx). exists x. rewrite lookup_insert_ne; [done|]. intros ->.
        rewrite Hs in Hx. injection Hx as <-. rewrite Hf in Hfx. by destruct Hfx.
      * apply list_elem_of_singleton in Hi as ->. eexists. rewrite lookup_insert_eq. by split.
  - cbn. intros Hnd. apply NoDup_app. split_and!; [done| |apply NoDup_singleton]. intros i Hi ->%list_elem_of_singleton.
    destruct (io_finished io Hok id Hi) as (x & Hx & Hfx). rewrite Hs in Hx. injection Hx as <-. rewrite Hf in Hfx. by destruct Hfx.
  - eapply (same_readers_put io id s); [done| | |reflexivity]; done.
Qed.

Lemma mark_finished_ok g id io q :
  io_ok io -> aligned io q g ->
  let '(io', q') := mark_capsule_finished id io q in
  io_ok io' /\ aligned io' q' g /\ dom (capsule_streams io') = dom (capsule_streams io).
Proof.
  intros Hok Hal. pose proof (mark_finished_io id io q Hok) as Hio. unfold mark_capsule_finished in *.
  destruct (capsule_streams io !! id) as [s|] eqn:Hs; [|done].
  destruct (finished_at s) as [t|] eqn:Hf; [done|]. unfold do in *. split_and!; [apply Hio| |].
  - eapply (aligned_step io); [by intros i ?|done|eauto|done|]. intros caps Hg. destruct Hal as [_ Ha].
    specialize (Ha id caps Hg). rewrite Hs in Ha. destruct Ha as [Hr|Hr]; [left; by apply refused_more|right].
    apply receiving_bodiless; [done|]. destruct Hr as (Hfi & sent & rest & Hc & Hrest & Hb). split; [done|].
    exists sent, rest. cbn. split_and!; [done|naive_solver|done].
  - cbn. rewrite dom_insert_L. apply elem_of_dom_2 in Hs. set_solver.
Qed.

Lemma discard_capsules_io id io :
  io_ok io ->
  exists io', discard_capsule_output id io = Ok io' /\ io_ok io' /\ same_received io io' /\ same_readers io io' /\
    capsule_streams io' = alter (fun s => s <| send_queue := [] |> <| staged_bytes := 0 |> <| offset := 0 |>) id (capsule_streams io)
    /\ finished_capsules io' = finished_capsules io.
Proof.
  intros Hok. unfold discard_capsule_output. destruct (capsule_streams io !! id) as [s|] eqn:Hs.
  - destruct (staged_part io id s Hok Hs) as [Hp1 Hp2].
    rewrite !usize_sub_ok by done. cbn [mbind result_bind]. eexists. split; [done|].
    pose proof (io_streams io Hok id s Hs) as Hsok. set (s' := s <| send_queue := [] |> <| staged_bytes := 0 |> <| offset := 0 |>).
    split; [|split; [done|split; [|split; [|done]]]].
    + pose proof (shrink_ok io id s s' (capsule_writable io ∖ {[id]}) Hok Hs) as Hput. cbn -[zlen] in Hput.
      rewrite !Z.add_0_r in Hput. apply Hput; [apply (cleared_ok s)|done| | |set_solver|done].
      * rewrite (so_bytes s Hsok). apply sum_zlen_nonneg.
      * apply zlen_nonneg.
    + eapply (same_readers_put io id s); [done| | |reflexivity]; done.
    + cbn. apply map_eq. intros i. destruct (decide (i = id)) as [->|Hne].
      * by rewrite lookup_insert_eq, lookup_alter_eq, Hs.
      * by rewrite lookup_insert_ne, lookup_alter_ne.
  - eexists. split; [done|]. split; [|split; [done|split; [intros i x; eauto|split; [|done]]]].
    + destruct Hok as [H1 H2 H3 H4 H5 H6]. split; try done. cbn. intros i x Hx Hq.
      apply elem_of_difference. split; [eauto|]. rewrite elem_of_singleton. congruence.
    + cbn. apply map_eq. intros i. destruct (decide (i = id)) as [->|Hne].
      * by rewrite lookup_alter_eq, Hs.
      * by rewrite lookup_alter_ne.
Qed.

Lemma discard_capsules_ok g id io q :
  io_ok io -> aligned io q g -> (forall s, capsule_streams io !! id = Some s -> is_Some (finished_at s) /\ offset s = 0) ->
  forall io', capsule_streams io' = alter (fun s => s <| send_queue := [] |> <| staged_bytes := 0 |> <| offset := 0 |>) id (capsule_streams io) ->
  aligned io' q g.
Proof.
  intros Hok [Hd Ha] Hfin io' Hst. split; rewrite Hst.
  - intros i. rewrite lookup_alter_is_Some. apply Hd.
  - intros i caps Hg. destruct (decide (i = id)) as [->|Hne]; [|rewrite lookup_alter_ne by done; eauto].
    rewrite lookup_alter_eq. destruct (Ha id caps Hg) as [Hr|Hs']; [by left|right].
    destruct (capsule_streams io !! id) as [s|] eqn:Hs; [|done]. destruct (Hfin s eq_refl) as [Hf Ho]. cbn.
    destruct Hs' as (Hfi & sent & rest & Hc & _ & Hb). split; [done|]. exists sent, rest. cbn.
    split_and!; [done|by right|]. by rewrite Hb, Ho.
Qed.

(** FIN goes out only between capsules. *)
Lemma fin_leaving g id io q s b n :
  aligned io q g -> capsule_streams io !! id = Some s -> offset s = 0 -> b = [] ->
  leaving id io (q ++ [Ev (send_body id b true) (Ok n)]) g.
Proof.
  intros [Hd Ha] Hs Ho ->. split; [done|]. intros i caps Hg. pose proof (only_send_body id [] true (Ok n)) as Honly.
  destruct (Ha i caps Hg) as [Hr|Hi]; [left; by apply refused_more|right].
  destruct (decide (i = id)) as [->|Hne].
  - rewrite Hs in *. rewrite bool_decide_true by done. destruct Hi as (Hf & sent & rest & Hc & _ & Hb).
    exists sent, rest. split; [done|]. left. rewrite body_snoc. cbn. rewrite bool_decide_true by done. cbn.
    by rewrite Hb, Ho, take_nil, !app_nil_r.
  - destruct (capsule_streams io !! i); [rewrite bool_decide_false by done; by eapply receiving_other|by eapply received_other].
Qed.

Lemma refused_leaving g id io q b fin code :
  io_ok io -> aligned io q g -> leaving id io (q ++ [Ev (send_body id b fin) (Err (H3Other code))]) g.
Proof.
  intros Hok Hal. destruct (aligned_leaving id io q g Hok Hal) as [Hd Ha]. split; [done|]. intros i caps Hg.
  pose proof (only_send_body id b fin (Err (H3Other code))) as Honly.
  destruct (decide (i = id)) as [->|Hne]; [left; rewrite refused_snoc; by right|].
  destruct (Ha i caps Hg) as [Hr|Hi]; [left; by apply refused_more|right].
  rewrite bool_decide_false in * by done.
  destruct (capsule_streams io !! i); [by eapply receiving_other|by eapply received_other].
Qed.

Lemma aligned_streams io io1 q g : capsule_streams io = capsule_streams io1 -> aligned io q g <-> aligned io1 q g.
Proof. intros Hs. unfold aligned. by rewrite Hs. Qed.

Lemma requeue_ok id io s :
  io_ok io -> capsule_streams io !! id = Some s -> is_Some (finished_at s) ->
  let io' := if bool_decide (id ∈ finished_capsules io) then io else io <| finished_capsules ::= fun l => l ++ [id] |> in
  io_ok io' /\ capsule_streams io' = capsule_streams io.
Proof.
  intros Hok Hs Hf. case_bool_decide; [done|]. split; [|done]. destruct Hok as [H1 H2 H3 H4 H5 H6]. split; try done. cbn.
  intros i [Hi|Hi]%elem_of_app; [eauto|]. apply list_elem_of_singleton in Hi as ->. eauto.
Qed.

(** [al] as for the writer. *)
Lemma close_output_ok al g h3 ip id reset_ io q s :
  io_ok io -> (al = true -> aligned io q g) -> capsule_streams io !! id = Some s -> (reset_ = false -> is_Some (finished_at s)) ->
  exists closed io' q', close_output h3 ip id reset_ io q = Ok (closed, (io', q')) /\ io_ok io' /\
    dom (capsule_streams io') = dom (capsule_streams io) /\
    (al = true -> if closed : bool then leaving id io' q' g else aligned io' q' g) /\
    same_received io io' /\ same_readers io io' /\ (reset_ = true -> closed = true) /\
    (forall i, i ∈ finished_capsules io' -> i ∈ finished_capsules io \/ i = id).
Proof.
  intros Hok Hal Hs Hfin. pose proof (io_same io Hok) as (_ & Hsr & Hsd). unfold close_output. rewrite Hs.
  destruct (reset_ || stream_is_partial (cs_decoder s)) eqn:Hr; cbn [orb].
  { do 3 eexists. split_and!; try done; [|by left]. intros Hon. apply aligned_leaving; [done|]. apply aligned_reset; auto. }
  destruct (has_partial_output s) eqn:Hpart.
  { do 3 eexists. split_and!; try done; [|by left]. intros Hon. apply aligned_leaving; [done|]. apply aligned_reset; auto. }
  unfold has_partial_output in Hpart. rewrite negb_false_iff, bool_decide_eq_true in Hpart.
  apply orb_false_iff in Hr as [-> _].
  assert (exists io1 s1, (if ip then Ok io else discard_capsule_output id io) = Ok io1 /\ io_ok io1 /\ (al = true -> aligned io1 q g) /\
    dom (capsule_streams io1) = dom (capsule_streams io) /\ capsule_streams io1 !! id = Some s1 /\ offset s1 = 0 /\
    is_Some (finished_at s1) /\ same_received io io1 /\ same_readers io io1 /\ finished_capsules io1 = finished_capsules io)
    as (io1 & s1 & -> & Hok1 & Hal1 & Hdom & Hs1 & Ho & Hf & Hsr1 & Hsd1 & Hfc).
  { destruct ip; [exists io, s; by eauto 20|].
    destruct (discard_capsules_io id io Hok) as (io1 & -> & ? & ? & ? & Hst & ?).
    exists io1. eexists. split; [done|]. split; [done|]. split.
    - intros Hon. apply (discard_capsules_ok g id io q Hok (Hal Hon)); [|done]. intros x Hx. rewrite Hs in Hx. injection Hx as <-. auto.
    - rewrite Hst. split; [by rewrite dom_alter_L|]. rewrite lookup_alter_eq, Hs. split; [done|]. split; [done|].
      split; [by apply Hfin|done]. }
  cbn [mbind result_bind]. destruct h3.
  2:{ do 3 eexists. split; [done|]. split; [done|]. split; [done|]. split; [intros; apply aligned_leaving; auto|].
      split; [done|]. split; [done|]. split; [done|]. rewrite Hfc. auto. }
  unfold do. pose proof (send_body_panic q id [] true) as Hnp.
  destruct (requeue_ok id io1 s1 Hok1 Hs1 Hf) as [Hok2 Hst2].
  set (io2 := if bool_decide (id ∈ finished_capsules io1) then io1 else io1 <| finished_capsules ::= fun l => l ++ [id] |>) in *.
  assert (same_received io io2 /\ same_readers io io2 /\ forall i, i ∈ finished_capsules io2 -> i ∈ finished_capsules io \/ i = id)
    as (Hsr2 & Hsd2 & Hf2).
  { unfold io2. case_bool_decide as Hin; [rewrite Hfc; auto|]. rewrite Hfc in Hin. split; [|split; [done|]].
    - destruct Hsr1 as (? & ? & ?). split_and!; [done|done|]. cbn. rewrite Hfc. intros Hnd.
      apply NoDup_app. split_and!; [done| |apply NoDup_singleton]. by intros i Hi ->%list_elem_of_singleton.
    - cbn. rewrite Hfc. intros i [?|Hi%list_elem_of_singleton]%elem_of_app; auto. }
  assert (forall e, bodiless e -> al = true -> aligned io2 (q ++ [e]) g) as Hblocked.
  { intros e He Hon. apply aligned_bodiless; [done|]. rewrite (aligned_streams _ io1) by done. auto. }
  destruct (answer _ q _) as [n|[| |code]|] eqn:Ha; [..|done]; do 3 eexists; (split; [done|]); rewrite ?Hst2.
  - do 2 (split; [done|]). split; [intros; eapply fin_leaving; eauto|]. do 3 (split; [done|]). rewrite Hfc. auto.
  - do 2 (split; [done|]). split; [intros; by apply Hblocked|]. done.
  - do 2 (split; [done|]). split; [intros; by apply Hblocked|]. done.
  - do 2 (split; [done|]). split; [intros; apply refused_leaving; auto|]. do 3 (split; [done|]). rewrite Hfc. auto.
Qed.

Lemma close_idle_ok g h3 id reset_ io q s :
  io_ok io -> aligned io q g -> capsule_streams io !! id = Some s -> (offset s <> 0 -> reset_ = true) ->
  leaving id io (close_idle_stream h3 id reset_ q) g.
Proof.
  intros Hok Hal Hs Hr. unfold close_idle_stream. destruct (negb reset_ && h3) eqn:Hb.
  - apply andb_true_iff in Hb as [Hneg _]. assert (offset s = 0) as Ho by (destruct (decide (offset s = 0)); [done|by rewrite Hr in Hneg]).
    unfold do. destruct (answer _ q _) as [n|[| |code]|] eqn:Ha.
    + by eapply fin_leaving.
    + apply aligned_leaving; [done|]. by apply aligned_reset, aligned_bodiless.
    + apply aligned_leaving; [done|]. by apply aligned_reset, aligned_bodiless.
    + destruct (refused_leaving g id io q [] true code Hok Hal) as [Hd Hl]. split; [done|]. intros i caps Hg.
      unfold reset. rewrite !exec_trace. destruct (Hl i caps Hg) as [Hr'|Hi]; [left; by do 2 apply refused_more|right].
      destruct (capsule_streams io !! i); [destruct (bool_decide _)|];
        do 2 (first [apply receiving_bodiless; [done|] | apply received_bodiless; [done|]]); done.
    + by destruct (send_body_panic q id [] true).
  - apply aligned_leaving; [done|]. by apply aligned_reset.
Qed.
End closing.

(** ** Runs *)

Section runs.
Context `{HQ : Quiche} `{!BodyLaws} (order : gset Z -> list Z).
Implicit Types g : staged.

(** A stream as [stream_new], [new_udp] and [new_ip] make it. *)
Definition unused (s : CapsuleStream) : Prop :=
  send_queue s = [] /\ offset s = 0 /\ staged_bytes s = 0 /\ finished_at s = None.

(** What happens to the capsule streams of a connection: a tunnel opens on a
    fresh stream, capsules are staged, the reader marks the end of a request or
    changes its own part of the state, output is flushed, a stream is closed by
    the reader, by the end of its request or by the idle sweep, or dropped, and
    other calls reach the library. *)
Inductive capsule_step : CapsuleIo * conn * staged -> CapsuleIo * conn * staged -> Prop :=
| cs_open id s io q g :
    g !! id = None -> body id q = [] -> ~ finished id q -> unused s ->
    capsule_step (io, q, g) (put_stream id s io, q, <[id := []]> g)
| cs_queue id data ok io io' q g :
    queue_capsule_bytes id data io = (ok, io') ->
    capsule_step (io, q, g) (io', q, if ok : bool then alter (fun l => l ++ [data]) id g else g)
| cs_datagram id payload ok io io' q g :
    queue_datagram_capsule id payload io = Ok (ok, io') ->
    capsule_step (io, q, g) (io', q, if ok : bool then alter (fun l => l ++ [datagram_capsule payload]) id g else g)
| cs_mark id io q g : capsule_step (io, q, g) (mark_capsule_finished id io q, g)
| cs_flush h3 io io' q q' g :
    flush_capsule_output order h3 io q = Ok (io', q') -> capsule_step (io, q, g) (io', q', g)
| cs_blocked h3 ip id reset_ s io io' q q' g :
    capsule_streams io !! id = Some s -> (reset_ = false -> is_Some (finished_at s)) ->
    close_output h3 ip id reset_ io q = Ok (false, (io', q')) -> capsule_step (io, q, g) (io', q', g)
| cs_close h3 ip id reset_ s io io1 io' q q' g :
    capsule_streams io !! id = Some s -> (reset_ = false -> is_Some (finished_at s)) ->
    close_output h3 ip id reset_ io q = Ok (true, (io1, q')) -> remove_capsule_stream id io1 = Ok io' ->
    capsule_step (io, q, g) (io', q', g)
| cs_idle h3 id expired s io io' q g :
    capsule_streams io !! id = Some s -> remove_capsule_stream id io = Ok io' ->
    capsule_step (io, q, g) (io', close_idle_stream h3 id (expired || has_partial_output s) q, g)
| cs_remove id io io' q g : remove_capsule_stream id io = Ok io' -> capsule_step (io, q, g) (io', q, g)
| cs_read id s d a e rd rr rc rb io q g :
    capsule_streams io !! id = Some s ->
    capsule_step (io, q, g)
      (put_stream id (s <| cs_decoder := d |> <| address_requests := a |> <| early := e |>)
         (io <| capsule_readable := rd |> <| capsule_read_resumes := rr |> <| received_capsules := rc |>
             <| received_capsule_bytes := rb |>), q, g)
| cs_other e io q g :
    (forall id, is_Some (g !! id) -> default [] (accepted_body id e) = [] /\ fin_of e <> Some id /\ refused_of e <> Some id) ->
    capsule_step (io, q, g) (io, q ++ [e], g).

Definition run_ok (x : CapsuleIo * conn * staged) : Prop := io_ok x.1.1 /\ aligned x.1.1 x.1.2 x.2.

Lemma open_io id s io :
  io_ok io -> capsule_streams io !! id = None -> unused s -> io_ok (put_stream id s io).
Proof.
  intros [H1 H2 H3 H4 H5 H6] Hid (U1 & U2 & U3 & U4). split; cbn.
  - intros i x [[<- <-]|[Hne Hx]]%lookup_insert_Some; [|eauto]. split; rewrite ?U1, ?U2, ?U3; [done|lia|].
    unfold MAX_STREAM_SEND_BYTES, MAX_STREAM_SEND_PACKETS. zlens. lia.
  - rewrite total_insert, U3 by done. lia.
  - rewrite total_insert, U1 by done. zlens. lia.
  - done.
  - intros i x [[<- <-]|[Hne Hx]]%lookup_insert_Some; [done|eauto].
  - intros i Hi. destruct (H6 i Hi) as (x & Hx & Hfx). exists x. rewrite lookup_insert_ne; [done|]. intros ->. congruence.
Qed.

Lemma open_ok id s io q g :
  io_ok io -> aligned io q g -> g !! id = None -> body id q = [] -> ~ finished id q -> unused s ->
  run_ok (put_stream id s io, q, <[id := []]> g).
Proof.
  intros Hok [Hd Ha] Hg Hb Hf Hu.
  assert (capsule_streams io !! id = None) as Hid.
  { destruct (capsule_streams io !! id) eqn:E; [|done]. destruct (Hd id) as [x Hx]; [eauto|congruence]. }
  split; [by apply open_io|]. destruct Hu as (U1 & U2 & U3 & U4). split; cbn.
  - intros i. rewrite !lookup_insert_is_Some. intros [->|[Hne Hi]]; [by left|]. destruct (decide (id = i)); auto.
  - intros i caps [[<- <-]|[Hne Hx]]%lookup_insert_Some.
    + right. rewrite lookup_insert_eq. split; [done|]. exists [], []. rewrite U1, Hb. cbn. rewrite take_nil. auto.
    + rewrite lookup_insert_ne by done. eauto.
Qed.

Lemma read_ok id s d a e rd rr rc rb io q g :
  io_ok io -> aligned io q g -> capsule_streams io !! id = Some s ->
  run_ok (put_stream id (s <| cs_decoder := d |> <| address_requests := a |> <| early := e |>)
         (io <| capsule_readable := rd |> <| capsule_read_resumes := rr |> <| received_capsules := rc |>
             <| received_capsule_bytes := rb |>), q, g).
Proof.
  intros [H1 H2 H3 H4 H5 H6] [Hd Ha] Hs. split; [split; cbn|split; cbn].
  - intros i x [[<- <-]|[Hne Hx]]%lookup_insert_Some; [|eauto]. by destruct (H1 id s Hs).
  - rewrite (total_put staged_bytes id s) by done. cbn. lia.
  - rewrite (total_put (fun s => zlen (send_queue s)) id s) by done. cbn. lia.
  - done.
  - intros i x [[<- <-]|[Hne Hx]]%lookup_insert_Some; [intros Hq; by apply (H5 id s)|eauto].
  - intros i Hi. destruct (H6 i Hi) as (x & Hx & Hfx). destruct (decide (i = id)) as [->|Hne].
    + eexists. rewrite lookup_insert_eq. split; [done|]. cbn. congruence.
    + exists x. by rewrite lookup_insert_ne.
  - intros i. rewrite lookup_insert_is_Some. intros [<-|[_ Hi]]; eauto.
  - intros i caps Hg. specialize (Ha i caps Hg). destruct (decide (i = id)) as [->|Hne].
    + rewrite lookup_insert_eq. by rewrite Hs in Ha.
    + by rewrite lookup_insert_ne.
Qed.

Lemma other_ok e io q g :
  aligned io q g ->
  (forall id, is_Some (g !! id) -> default [] (accepted_body id e) = [] /\ fin_of e <> Some id /\ refused_of e <> Some id) ->
  aligned io (q ++ [e]) g.
Proof.
  intros [Hd Ha] He. split; [done|]. intros i caps Hg. destruct (He i) as (Hb & Hf & Hr); [eauto|].
  destruct (Ha i caps Hg) as [Hrf|Hi]; [left; by apply refused_more|right].
  destruct (capsule_streams io !! i).
  - unfold receiving in *. rewrite body_snoc, finished_snoc, Hb, app_nil_r. naive_solver.
  - unfold received in *. setoid_rewrite body_snoc. setoid_rewrite finished_snoc. rewrite Hb. setoid_rewrite app_nil_r. naive_solver.
Qed.

Lemma capsule_step_ok x y : capsule_step x y -> run_ok x -> run_ok y.
Proof.
  destruct 1 as [id s io q g Hg Hb Hf Hu|id data ok io io' q g Hq|id payload ok io io' q g Hq|id io q g|h3 io io' q q' g Hq
    |h3 ip id reset_ s io io' q q' g Hs Hr Hq|h3 ip id reset_ s io io1 io' q q' g Hs Hr Hq Hrm|h3 id expired s io io' q g Hs Hrm
    |id io io' q g Hrm|id s d a e rd rr rc rb io q g Hs|e io q g He]; intros [Hok Hal]; cbn [fst snd] in *.
  - by apply open_ok.
  - by apply (queue_bytes_ok g id data io q).
  - destruct (queue_datagram_ok g id payload io q Hok Hal) as (ok' & io2 & Hq' & ?). rewrite Hq in Hq'. by injection Hq' as <- <-.
  - pose proof (mark_finished_ok g id io q Hok Hal) as Hm. unfold run_ok. destruct (mark_capsule_finished id io q). cbn. tauto.
  - destruct (flush_output_ok true g order h3 io q Hok (fun _ => Hal)) as (io2 & q2 & Hq' & ? & ? & _). rewrite Hq in Hq'. injection Hq' as <- <-. split; auto.
  - destruct (close_output_ok true g h3 ip id reset_ io q s Hok (fun _ => Hal) Hs Hr) as (c & io2 & q2 & Hq' & ? & _ & Hl & _).
    specialize (Hl eq_refl). rewrite Hq in Hq'. by injection Hq' as <- <- <-.
  - destruct (close_output_ok true g h3 ip id reset_ io q s Hok (fun _ => Hal) Hs Hr) as (c & io2 & q2 & Hq' & Hok1 & _ & Hlv & _).
    specialize (Hlv eq_refl).
    rewrite Hq in Hq'. injection Hq' as <- <- <-. destruct (remove_stream_ok g id io1 q' Hok1 Hlv) as (io2 & Hrm' & ? & ? & _).
    rewrite Hrm in Hrm'. by injection Hrm' as <-.
  - assert (leaving id io (close_idle_stream h3 id (expired || has_partial_output s) q) g) as Hlv.
    { apply (close_idle_ok g h3 id _ io q s); try done. intros Ho. unfold has_partial_output. rewrite bool_decide_false by done.
      apply orb_true_r. }
    destruct (remove_stream_ok g id io _ Hok Hlv) as (io2 & Hrm' & ? & ? & _). rewrite Hrm in Hrm'. by injection Hrm' as <-.
  - destruct (remove_stream_ok g id io q Hok (aligned_leaving id io q g Hok Hal)) as (io2 & Hrm' & ? & ? & _).
    rewrite Hrm in Hrm'. by injection Hrm' as <-.
  - by apply read_ok.
  - split; [done|]. by apply other_ok.
Qed.

Lemma run_ok_init q : run_ok (io_new, q, ∅).
Proof.
  split; split; cbn; try done.
  - intros id Hid. by apply elem_of_nil in Hid.
  - by intros id [x Hx].
Qed.

Lemma run_reachable_ok q x : rtc capsule_step (io_new, q, ∅) x -> run_ok x.
Proof.
  apply (rtc_ind_r (fun z => run_ok z)); [apply run_ok_init|]. intros y z _ Hyz. by apply capsule_step_ok.
Qed.

(** C21: the capsules staged for a connection, in any order of openings,
    stagings, reads, flushes, closes and idle sweeps and whatever the library
    answers.  Every stream that got a capsule staged and was not refused by the
    library has received a prefix of the bytes staged for it, in order; if its
    response ended with FIN, that prefix ends between two capsules. *)
Theorem capsules_whole q io q' g id caps :
  rtc capsule_step (io_new, q, ∅) (io, q', g) -> g !! id = Some caps -> ~ refused id q' ->
  body id q' `prefix_of` concat caps /\
  (finished id q' -> exists sent rest, caps = sent ++ rest /\ body id q' = concat sent).
Proof.
  intros Hrun Hg Hr. destruct (run_reachable_ok q _ Hrun) as [Hok [_ Ha]]. cbn in *.
  destruct (Ha id caps Hg) as [?|Hs]; [done|].
  assert (received id caps q') as (sent & rest & -> & Hb).
  { destruct (capsule_streams io !! id) as [s|] eqn:E; [|done]. eapply receiving_received; [|done]. by eapply io_streams. }
  rewrite concat_app. split; [|intros Hf; exists sent, rest; naive_solver].
  destruct Hb as [->|(_ & n & ->)]; [by eexists|]. apply prefix_app. destruct rest as [|d rest]; cbn.
  - rewrite take_nil. apply prefix_nil.
  - trans d; [apply prefix_take|by eexists].
Qed.

End runs.

(** A library that takes two bytes of a body at a time. *)
Definition narrow_library : Quiche :=
  {| answer A q c :=
       match c in call A return A with
       | now => Z.of_nat (length q)
       | send_response _ _ _ => Ok tt
       | send_body _ body _ => Ok (Z.min 2 (zlen body))
       | recv_body _ _ => Err H3Done
       | poll => Err H3Done
       | with_transport | stream_shutdown _ _ _ | close _ _ | send_goaway _ | recv _ _ _ | accept _ _ _ _ _ | new_scid _ _ _ => true
       | on_timeout => tt
       | send => Err QuicDone
       | dgram_recv _ => Err QuicDone
       | dgram_send_buf _ => Ok tt
       | path_event_next => None
       | retired_scid_next => None
       | random_fill _ => None
       end;
     query_answer A q c :=
       match c in query A return A with
       | stream_readable_len _ | timeout_instant | peer_cert => None
       | scids_left => 0%nat
       | max_send_udp_payload_size | send_quantum => 1200
       | _ => false
       end |}.

#[local] Instance narrow_laws : BodyLaws (H:=narrow_library).
Proof.
  split; [|done]. intros q s b fin n [= <-]. pose proof (zlen_nonneg b). lia.
Qed.

(** A stream is opened, gets two capsules, is flushed and ends. *)
Definition opened_io : CapsuleIo := put_stream 4 (stream_new 100) io_new.
Definition queued_io : CapsuleIo := (queue_capsule_bytes 4 [0; 1; 7] opened_io).2.
Definition marked_io : CapsuleIo * conn := mark_capsule_finished (H:=narrow_library) 4 queued_io [].
Definition or_else {A} (d : A) (r : result Empty_set A) : A := match r with Ok a => a | _ => d end.
Definition flushed_io : CapsuleIo * conn :=
  or_else marked_io (flush_capsule_output (H:=narrow_library) elements true marked_io.1 marked_io.2).
Definition ended_io : bool * (CapsuleIo * conn) :=
  or_else (false, flushed_io) (close_output (H:=narrow_library) true false 4 false flushed_io.1 flushed_io.2).
Definition removed_io : CapsuleIo := or_else io_new (remove_capsule_stream 4 ended_io.2.1).
Definition sample_staged : staged := {[4 := [[0; 1; 7]]]}.

Lemma flushed_run : rtc (capsule_step (HQ:=narrow_library) elements) (io_new, [], ∅) (flushed_io, sample_staged).
Proof.
  eapply rtc_l; [apply (cs_open _ 4 (stream_new 100)); try done; apply not_elem_of_nil|].
  eapply rtc_l; [apply (cs_queue _ 4 [0; 1; 7] true _ queued_io); reflexivity|].
  eapply rtc_l; [apply (cs_mark _ 4 queued_io)|]. apply rtc_once.
  refine (cs_flush elements true marked_io.1 flushed_io.1 marked_io.2 flushed_io.2 sample_staged _).
  vm_compute. reflexivity.
Qed.

Lemma ended_run : rtc (capsule_step (HQ:=narrow_library) elements) (io_new, [], ∅) (removed_io, ended_io.2.2, sample_staged).
Proof.
  eapply rtc_r; [apply flushed_run|]. rewrite (surjective_pairing flushed_io).
  eapply (cs_close _ true false 4 false); [reflexivity|by eexists|vm_compute; reflexivity|vm_compute; reflexivity].
Qed.

Lemma capsules_whole_witness :
  finished 4 ended_io.2.2 /\
  exists sent rest, [[0; 1; 7]] = sent ++ rest /\ body 4 ended_io.2.2 = concat sent.
Proof.
  assert (finished 4 ended_io.2.2) as Hf by (apply (bool_decide_unpack (4 ∈ omap fin_of ended_io.2.2)); vm_compute; exact I).
  split; [exact Hf|].
  apply (capsules_whole (HQ:=narrow_library) elements [] removed_io ended_io.2.2 sample_staged 4 [[0; 1; 7]] ended_run eq_refl).
  - apply (bool_decide_unpack (4 ∉ omap refused_of ended_io.2.2)). vm_compute. exact I.
  - exact Hf.
Defined.

