(* ===== verification/Client.v ===== *)
(** * A client connection and what surrounds it (src/connection.rs)

    The whole [ClientConnection] that the HTTP/3 handlers work on, with the two
    histories it leaves: the calls to the QUIC library, of [Quiche.v], and the
    effects outside the connection, such as spawned tasks, sockets, the leases
    of addresses and the admission of password checks.  Both are answered by
    arbitrary functions of their history, so tasks of any speed, other shards
    and any target are covered.  Handlers are written in a state monad over the
    connection; a panic is the absence of a result. *)

From stdpp Require Import list gmap strings.
From S2P Require Import Prelude Net Routing AddressPool ClientIdentity Lease Uri Auth Request TcpTunnel TargetUdp.
From S2P Require Import UdpTunnel Quiche Connection CapsuleIo.
Open Scope Z_scope.

(** ** Outside the connection

    Tasks and sockets are named by numbers. *)

(** [PreparedUdpTarget], as an HTTP/3 tunnel takes it over. *)
Record Prepared := { prep_socket : nat; prep_addr : SocketAddr; prep_gso : bool }.

Abbreviation Credential := (BasicCredential (Key:=nat)).
Abbreviation Authenticator := (BasicAuthenticator (Key:=nat)).
Abbreviation PendingTcp := (PendingTcpTunnel nat nat).
Abbreviation PendingUdp := (PendingUdpTunnel Prepared nat).
Abbreviation Awaiting := (AwaitingAuth nat).

(** What a handler does or asks outside its connection, with the type of the
    answer. *)
Inductive effect : Type -> Type :=
(* the listener's current credentials, and which of them are cached *)
| load_auth (stream : Z) : effect (Authenticator * (Credential -> bytes -> bool))
(* admission of a password check, its queue slot, and the check *)
| try_source_slot (stream : Z) : effect bool
| try_queue_slot (stream : Z) : effect bool
| drop_source_slot (stream : Z) : effect unit
| spawn_verify (stream : Z) (credential : Credential) (password : bytes) (request : ConnectRequest) (flag : nat)
    : effect nat
(* the tasks that connect to targets *)
| spawn_tcp_connect (stream : Z) (target : UdpTarget) : effect nat
| spawn_udp_setup (stream : Z) (target : UdpTarget) : effect nat
| abort_task (task : nat) : effect unit
(* the reader and writer of a TCP tunnel *)
| tcp_start (stream : Z) (socket : nat) (target : SocketAddr) : effect unit
| tcp_capacity (stream : Z) : effect Z
| tcp_send (stream : Z) (data : bytes) : effect bool
| tcp_send_finish (stream : Z) : effect unit
| tcp_permits (stream : Z) (written : Z) (retired : option bytes) : effect unit
| tcp_stop (stream : Z) : effect unit
(* the receiver and the socket of a UDP tunnel *)
| udp_start (stream : Z) (socket : nat) (capsules : bool) : effect unit
| udp_socket (stream : Z) : effect ((list Message -> result Z nat) * (list Message -> result Z nat))
| udp_stop (stream : Z) : effect unit
(* leases and routes *)
| claim_addresses (stream : Z) (client : ClientIdentity) : effect (result PoolError (list IpAddr))
| allocate_addresses (stream : Z) : effect (list IpAddr)
| release_addresses (addrs : list IpAddr) : effect unit
| insert_route (addr : IpAddr) (owner : TunnelOwner) : effect unit
| remove_routes (addrs : list IpAddr) (owner : TunnelOwner) : effect unit
(* a packet for the TUN device, if there is one *)
| tun_push (stream : Z) (packet : bytes) : effect unit.

Inductive outside_event :=
| Out {A} (e : effect A) (answer : A).

(** The world answers an effect from the effects before it. *)
Class Outside := outside_answer : forall A, list outside_event -> effect A -> A.

(** ** The connection *)

Record Client := {
  quic : conn;
  world : list outside_event;
  io : CapsuleIo;
  h3 : bool;
  pending_error_responses : PendingErrorResponses;
  request_headers_seen : gset Z;
  pending_tcp_tunnels : gmap Z PendingTcp;
  tcp_tunnels : gmap Z TcpTunnel;
  tcp_read_resumes : gset Z;
  pending_udp_tunnels : gmap Z PendingUdp;
  udp_tunnels : gmap Z UdpTunnel;
  ip_tunnels : gmap Z IpTunnel;
  pending_ip_responses : gmap Z Z;
  awaiting_auth : gmap Z Awaiting;
  first_auth_deadline : option Z;
  (* the byte counters of the early queues, the first of them this connection's,
     and the cancellation flags *)
  budgets : Budgets;
  early_udp_budget : EarlyUdpBudget;
  flags : list bool;
  index : Z;
  identity : option ClientIdentity;
}.
#[export] Instance Client_eta : Eta Client := fun r =>
  {| quic := quic r; world := world r; io := io r; h3 := h3 r; pending_error_responses := pending_error_responses r;
     request_headers_seen := request_headers_seen r; pending_tcp_tunnels := pending_tcp_tunnels r;
     tcp_tunnels := tcp_tunnels r; tcp_read_resumes := tcp_read_resumes r;
     pending_udp_tunnels := pending_udp_tunnels r; udp_tunnels := udp_tunnels r; ip_tunnels := ip_tunnels r;
     pending_ip_responses := pending_ip_responses r; awaiting_auth := awaiting_auth r;
     first_auth_deadline := first_auth_deadline r; budgets := budgets r; early_udp_budget := early_udp_budget r;
     flags := flags r; index := index r; identity := identity r |}.

(** [ClientConnection::new]; [quic] is the history of the accepted connection. *)
Definition client_new (quic : conn) (index : Z) : Client :=
  {| quic := quic; world := []; io := io_new; h3 := false; pending_error_responses := ∅;
     request_headers_seen := ∅; pending_tcp_tunnels := ∅; tcp_tunnels := ∅; tcp_read_resumes := ∅;
     pending_udp_tunnels := ∅; udp_tunnels := ∅; ip_tunnels := ∅; pending_ip_responses := ∅;
     awaiting_auth := ∅; first_auth_deadline := None; budgets := [0]; early_udp_budget := 0%nat; flags := [];
     index := index; identity := None |}.

Definition tunnel_count (c : Client) : nat :=
  (size (pending_tcp_tunnels c) + size (tcp_tunnels c) + size (pending_udp_tunnels c) + size (udp_tunnels c)
   + size (ip_tunnels c) + size (pending_ip_responses c) + size (pending_error_responses c))%nat.

(** ** The monad *)

Definition M (A : Type) : Type := Client -> result Empty_set (A * Client).
#[export] Instance M_ret : MRet M := fun A a c => Ok (a, c).
#[export] Instance M_bind : MBind M := fun A B f m c =>
  match m c with Ok (a, c) => f a c | Err e => Err e | Panic => Panic end.

Definition gets {A} (f : Client -> A) : M A := fun c => Ok (f c, c).
Definition modify (f : Client -> Client) : M unit := fun c => Ok (tt, f c).
Definition panic {A} : M A := fun _ => Panic.
(** A computation that cannot fail, or panics. *)
Definition lift {E A} (r : result E A) : M A := fun c => match r with Ok a => Ok (a, c) | _ => Panic end.
Definition pass : M unit := mret tt.

Fixpoint each {A} (f : A -> M unit) (l : list A) : M unit :=
  match l with
  | [] => pass
  | a :: l' => _ ← f a; each f l'
  end.

(** A loop over local state, with the measure of [while]. *)
Definition repeating {L R} (work : L -> Client -> nat) (body : L -> M (L + R)) (l : L) : M R := fun c =>
  while (fun s => work s.1 s.2)
    (fun s => match body s.1 s.2 with
              | Ok (inl l, c) => Ok (inl (l, c))
              | Ok (inr r, c) => Ok (inr (r, c))
              | Err e => Err e
              | Panic => Panic
              end) (l, c).

Section operations.
Context `{Quiche} `{Outside}.
(** The order in which a set of stream numbers is walked. *)
Context (order : gset Z -> list Z).

(** A call of the QUIC library, and a call outside. *)
Definition call_ {A} (k : call A) : M A := fun c =>
  let '(a, q) := do k (quic c) in Ok (a, c <| quic := q |>).
Definition query_ {A} (k : query A) : M A := fun c => Ok (ask k (quic c), c).
Definition perform {A} (e : effect A) : M A := fun c =>
  let a := outside_answer A (world c) e in Ok (a, c <| world ::= fun w => w ++ [Out e a] |>).

(** The operations of [Connection.v] and [CapsuleIo.v] on their part. *)
Definition with_errors (f : PendingErrorResponses -> conn -> PendingErrorResponses * conn) : M unit := fun c =>
  let '(m, q) := f (pending_error_responses c) (quic c) in
  Ok (tt, c <| pending_error_responses := m |> <| quic := q |>).
Definition with_io {A} (f : CapsuleIo -> result Empty_set (A * CapsuleIo)) : M A := fun c =>
  match f (io c) with Ok (a, i) => Ok (a, c <| io := i |>) | Err e => Err e | Panic => Panic end.
Definition with_io_quic {A} (f : CapsuleIo -> conn -> result Empty_set (A * (CapsuleIo * conn))) : M A := fun c =>
  match f (io c) (quic c) with
  | Ok (a, (i, q)) => Ok (a, c <| io := i |> <| quic := q |>)
  | Err e => Err e
  | Panic => Panic
  end.

Definition errors_order (m : PendingErrorResponses) : list Z := order (dom m).
Definition send_error_response (stream status : Z) : M unit := with_errors (send_error errors_order stream status).
Definition send_auth_rejection (stream : Z) : M unit := send_error_response stream 404.
Definition cancel_error_response (stream : Z) : M unit := with_errors (cancel_error stream).

(** Both directions of a stream shut down with one code. *)
Definition shutdown_both (stream code : Z) : M unit :=
  _ ← call_ (stream_shutdown stream ShutRead code); _ ← call_ (stream_shutdown stream ShutWrite code); pass.

(** ** Dropping tunnels

    Removing an entry runs its destructor: tasks are aborted, flags raised and
    early bytes given back. *)

Definition abort (task : option nat) : M unit :=
  match task with Some t => perform (abort_task t) | None => pass end.

Definition remove_pending_tcp (stream : Z) : M (option PendingTcp) :=
  found ← gets (fun c => pending_tcp_tunnels c !! stream);
  _ ← modify (fun c => c <| pending_tcp_tunnels ::= delete stream |>);
  mret found.
Definition drop_pending_tcp (p : PendingTcp) : M unit := abort (pending_drop p).
Definition forget_pending_tcp (stream : Z) : M unit :=
  found ← remove_pending_tcp stream;
  match found with Some p => drop_pending_tcp p | None => pass end.

Definition forget_tcp (stream : Z) : M bool :=
  found ← gets (fun c => tcp_tunnels c !! stream);
  match found with
  | Some _ =>
      _ ← modify (fun c => c <| tcp_tunnels ::= delete stream |>);
      _ ← perform (tcp_stop stream); mret true
  | None => mret false
  end.

Definition remove_pending_udp (stream : Z) : M (option PendingUdp) :=
  found ← gets (fun c => pending_udp_tunnels c !! stream);
  _ ← modify (fun c => c <| pending_udp_tunnels ::= delete stream |>);
  mret found.
Definition drop_pending_udp (p : PendingUdp) : M unit :=
  _ ← modify (fun c => c <| budgets ::= fun bs => (pending_udp_drop bs p).2 |>);
  abort (setup_task p).
Definition forget_pending_udp (stream : Z) : M unit :=
  found ← remove_pending_udp stream;
  match found with Some p => drop_pending_udp p | None => pass end.

Definition forget_udp (stream : Z) : M bool :=
  found ← gets (fun c => udp_tunnels c !! stream);
  match found with
  | Some _ =>
      _ ← modify (fun c => c <| udp_tunnels ::= delete stream |>);
      _ ← perform (udp_stop stream); mret true
  | None => mret false
  end.

Definition remove_awaiting (stream : Z) : M (option Awaiting) :=
  found ← gets (fun c => awaiting_auth c !! stream);
  _ ← modify (fun c => c <| awaiting_auth ::= delete stream |>);
  mret found.
Definition drop_awaiting (a : Awaiting) : M unit :=
  _ ← modify (fun c => let '(fl, bs, _) := awaiting_drop (flags c) (budgets c) a in c <| flags := fl |> <| budgets := bs |>);
  abort (auth_task a).
Definition forget_awaiting (stream : Z) : M unit :=
  found ← remove_awaiting stream;
  match found with Some a => drop_awaiting a | None => pass end.

(** [remove_capsule_stream], with the early queue a UDP stream may still hold. *)
Definition drop_capsule_stream (stream : Z) : M unit :=
  found ← gets (fun c => capsule_streams (io c) !! stream);
  _ ← with_io (fun i => i ← remove_capsule_stream stream i; Ok (tt, i));
  match found ≫= CapsuleIo.early with
  | Some q => modify (fun c => c <| budgets ::= fun bs => early_drop bs q |>)
  | None => pass
  end.

(** ** Inserting

    A value that is replaced is dropped. *)

Definition insert_pending_tcp (stream : Z) (p : PendingTcp) : M unit :=
  old ← gets (fun c => pending_tcp_tunnels c !! stream);
  _ ← modify (fun c => c <| pending_tcp_tunnels ::= fun m => <[stream := p]> m |>);
  match old with Some o => drop_pending_tcp o | None => pass end.
Definition insert_tcp (stream : Z) (t : TcpTunnel) : M unit :=
  _ ← forget_tcp stream; modify (fun c => c <| tcp_tunnels ::= fun m => <[stream := t]> m |>).
Definition insert_pending_udp (stream : Z) (p : PendingUdp) : M unit :=
  old ← gets (fun c => pending_udp_tunnels c !! stream);
  _ ← modify (fun c => c <| pending_udp_tunnels ::= fun m => <[stream := p]> m |>);
  match old with Some o => drop_pending_udp o | None => pass end.
Definition insert_udp (stream : Z) (t : UdpTunnel) : M unit :=
  _ ← forget_udp stream; modify (fun c => c <| udp_tunnels ::= fun m => <[stream := t]> m |>).
Definition insert_awaiting (stream : Z) (a : Awaiting) : M unit :=
  old ← gets (fun c => awaiting_auth c !! stream);
  _ ← modify (fun c => c <| awaiting_auth ::= fun m => <[stream := a]> m |>);
  match old with Some o => drop_awaiting o | None => pass end.
Definition insert_capsule_stream (stream : Z) (s : CapsuleStream) : M unit :=
  old ← gets (fun c => capsule_streams (io c) !! stream);
  _ ← with_io (fun i => Ok (tt, put_stream stream s i));
  match old ≫= CapsuleIo.early with
  | Some q => modify (fun c => c <| budgets ::= fun bs => early_drop bs q |>)
  | None => pass
  end.

(** ** Deadlines and resets *)

(** [expire_first_auth] of the connection: every waiting request is dropped. *)
Definition expire_auth : M bool :=
  deadline ← gets first_auth_deadline;
  match deadline with
  | None => mret false
  | Some at_ =>
      t ← call_ now;
      if bool_decide (at_ <= t) then
        _ ← modify (fun c => c <| first_auth_deadline := None |>);
        waiting ← gets (fun c => order (dom (awaiting_auth c)));
        _ ← each forget_awaiting waiting;
        _ ← call_ (close false 0);
        mret true
      else mret false
  end.

(** [WireErrorCode::ConnectError]. *)
Definition CONNECT_ERROR : Z := 0x10f.

Definition reset_tcp_stream (stream : Z) : M unit :=
  _ ← forget_pending_tcp stream;
  _ ← forget_tcp stream;
  _ ← modify (fun c => c <| tcp_read_resumes ::= fun r => r ∖ {[stream]} |>);
  shutdown_both stream CONNECT_ERROR.

Definition reset_udp_stream (stream : Z) : M unit :=
  _ ← forget_udp stream;
  _ ← drop_capsule_stream stream;
  shutdown_both stream CONNECT_ERROR.

Definition teardown_ip_tunnel (stream : Z) : M unit :=
  found ← gets (fun c => ip_tunnels c !! stream);
  match found with
  | None => pass
  | Some tunnel =>
      _ ← modify (fun c => c <| ip_tunnels ::= delete stream |>);
      _ ← drop_capsule_stream stream;
      _ ← perform (release_addresses (assigned_addrs tunnel));
      me ← gets index;
      perform (remove_routes (assigned_addrs tunnel) {| conn_id := me; Routing.stream_id := stream |})
  end.
End operations.
