(* ===== verification/Handlers.v ===== *)
(** * The HTTP/3 handlers of a connection

    What a shard does with one connection: it polls HTTP/3 events, dispatches
    CONNECT requests, checks credentials, sets tunnels up, relays and closes
    them.  Models [src/server/request.rs], [src/server/authentication.rs],
    [poll_http3_events] of [src/server/shard_packets.rs] and
    [src/server/shard_tunnels.rs].  The look-up of the connection by its index and
    the marks that schedule it are those of [Scheduler.v] and [Ingress.v]. *)

From stdpp Require Import list gmap strings sorting.
From S2P Require Import Prelude Net Routing AddressPool ClientIdentity Lease Datagram Uri Auth Config Request Policy.
From S2P Require Import TcpTunnel TargetUdp UdpTunnel Quiche QuicBatch Connection CapsuleIo Client.
Open Scope Z_scope.

Definition MAX_PENDING_AUTH_PER_CONNECTION : nat := 16.
Definition MAX_REQUEST_STREAMS : nat := 4096.
Definition MAX_FRAMING_RETRIES : nat := 64.

(** A prechecked request whose password has to be verified. *)
Record PendingAuth := {
  pa_stream : Z;
  pa_credential : Credential;
  pa_password : bytes;
  pa_request : ConnectRequest;
}.

(** Tunnel work collected while headers are processed. *)
Record PendingConnectSetups := {
  setup_tcp : list (Z * UdpTarget);
  setup_udp : list (Z * UdpTarget * DatagramHeader);
  setup_ip : list Z;
}.
#[export] Instance PendingConnectSetups_eta : Eta PendingConnectSetups := fun r =>
  {| setup_tcp := setup_tcp r; setup_udp := setup_udp r; setup_ip := setup_ip r |}.
Definition no_setups : PendingConnectSetups := {| setup_tcp := []; setup_udp := []; setup_ip := [] |}.

(** What the event loop of one poll collects. *)
Record Batch := {
  setups : PendingConnectSetups;
  closed_ip_streams : list Z;
  failed_tcp_streams : list Z;
  closed_capsule_streams : list Z;
  finished_capsule_streams : list Z;
  pending_auth : list PendingAuth;
}.
#[export] Instance Batch_eta : Eta Batch := fun r =>
  {| setups := setups r; closed_ip_streams := closed_ip_streams r; failed_tcp_streams := failed_tcp_streams r;
     closed_capsule_streams := closed_capsule_streams r; finished_capsule_streams := finished_capsule_streams r;
     pending_auth := pending_auth r |}.
Definition no_batch : Batch :=
  {| setups := no_setups; closed_ip_streams := []; failed_tcp_streams := []; closed_capsule_streams := [];
     finished_capsule_streams := []; pending_auth := [] |}.

(** The response that opens a tunnel. *)
Definition ok_headers (capsules : bool) : list Header :=
  (":status"%string, status_buf 200) :: (if capsules then [("capsule-protocol"%string, str "?1")] else []).

Section handlers.
Context `{HQ : Quiche} `{HO : Outside}.
Context (order : gset Z -> list Z) (work : conn -> nat).
Context (base64_decode : bytes -> option bytes).
(** The configuration, and whether the listener checks Basic credentials. *)
Context (config : ServerConfig) (auth_enabled : bool).

(** ** Requests *)

Definition handle_connect_udp (stream : Z) (path : bytes) (p : PendingConnectSetups) : M PendingConnectSetups :=
  match parse_udp_path path (str (udp_uri_template (udp_proxy config))) with
  | Err _ => _ ← send_error_response order stream 400; mret p
  | Panic => panic
  | Ok target =>
      match header_new stream with
      | Ok header => mret (p <| setup_udp ::= fun l => l ++ [(stream, target, header)] |>)
      | Err _ => _ ← send_error_response order stream 400; mret p
      | Panic => panic
      end
  end.

Definition dispatch_connect (stream : Z) (request : ConnectRequest) (p : PendingConnectSetups)
    : M PendingConnectSetups :=
  match request with
  | RequestTcp authority =>
      match parse_connect_authority authority with
      | Ok target => mret (p <| setup_tcp ::= fun l => l ++ [(stream, target)] |>)
      | Err _ => _ ← send_error_response order stream 400; mret p
      | Panic => panic
      end
  | RequestUdp path => handle_connect_udp stream path p
  | RequestIp path standard valid =>
      match prepare_connect_ip path standard valid config with
      | Ok _ => mret (p <| setup_ip ::= fun l => l ++ [stream] |>)
      | Err status => _ ← send_error_response order stream status; mret p
      | Panic => panic
      end
  end.

Definition handle_request (stream : Z) (headers : list Header) (p : PendingConnectSetups)
    : M (PendingConnectSetups * option PendingAuth) :=
  let r := scan_headers headers in
  match classify r config with
  | None => _ ← send_error_response order stream 404; mret (p, None)
  | Some request =>
      if negb auth_enabled then p ← dispatch_connect stream request p; mret (p, None)
      else if duplicate_proxy_authorization r then _ ← send_auth_rejection order stream; mret (p, None)
      else
        state ← perform (load_auth stream);
        let '(a, cached) := state : Authenticator * (Credential -> bytes -> bool) in
        match precheck base64_decode a cached (proxy_authorization r) with
        | Authenticated =>
            deadline ← gets first_auth_deadline;
            expired ← match deadline with
                      | Some at_ => t ← call_ now; mret (bool_decide (at_ <= t))
                      | None => mret false
                      end;
            if expired : bool then mret (p, None) else
            _ ← modify (fun c => c <| first_auth_deadline := None |>);
            p ← dispatch_connect stream request p; mret (p, None)
        | Rejected => _ ← send_auth_rejection order stream; mret (p, None)
        | NeedsVerify credential password =>
            mret (p, Some {| pa_stream := stream; pa_credential := credential; pa_password := password;
                             pa_request := request |})
        end
  end.

(** ** The request body of a TCP tunnel *)

(** [finish_client] and [queue_client_data] of a tunnel, and on the tunnel of a
    stream. *)
Definition finish_client (stream : Z) (t : TcpTunnel) : M TcpTunnel :=
  if TcpTunnel.client_finished t then mret t else
  at_ ← call_ now;
  _ ← perform (tcp_send_finish stream);
  mret (set_tunnel t at_ (pending_responses t) (upstream_finished t) (response_finished t) true (writer_finished t)).

Definition queue_client (stream : Z) (t : TcpTunnel) (data : bytes) : M (option TcpTunnel) :=
  if TcpTunnel.client_finished t then mret None else
  sent ← perform (tcp_send stream data);
  if sent : bool then
    at_ ← call_ now;
    mret (Some (set_tunnel t at_ (pending_responses t) (upstream_finished t) (response_finished t)
                  (TcpTunnel.client_finished t) (writer_finished t)))
  else mret None.

Definition set_tcp (stream : Z) (t : TcpTunnel) : M unit :=
  modify (fun c => c <| tcp_tunnels ::= fun m => <[stream := t]> m |>).

Definition finish_tcp_client (stream : Z) (t : TcpTunnel) : M unit :=
  t ← finish_client stream t; set_tcp stream t.

Definition queue_tcp_client (stream : Z) (t : TcpTunnel) (data : bytes) : M bool :=
  r ← queue_client stream t data;
  match r with Some t => _ ← set_tcp stream t; mret true | None => mret false end.

Definition set_pending_finished (p : PendingTcp) (at_ : Z) : PendingTcp :=
  {| pt_stream_id := pt_stream_id p; pt_last_activity := at_; early_data := early_data p;
     early_bytes := early_bytes p; pt_client_finished := true; connected := connected p;
     response_blocked_at := response_blocked_at p; connect_task := connect_task p |}.

Definition tcp_client_capacity (stream : Z) : M Z :=
  t ← gets (fun c => tcp_tunnels c !! stream);
  match t with
  | Some _ => perform (tcp_capacity stream)
  | None =>
      p ← gets (fun c => pending_tcp_tunnels c !! stream);
      match p with Some p => lift (pending_client_capacity p) | None => panic end
  end.

Definition relay_body_step (stream : Z) (_ : unit) : M (unit + result unit bool) :=
  finished ← query_ (stream_finished stream);
  t ← gets (fun c => tcp_tunnels c !! stream);
  p ← gets (fun c => pending_tcp_tunnels c !! stream);
  if finished : bool then
    _ ← match t, p with
        | Some t, _ => finish_tcp_client stream t
        | None, Some p => modify (fun c => c <| pending_tcp_tunnels ::= fun m =>
                            <[stream := set_pending_finished p (pt_last_activity p)]> m |>)
        | None, None => pass
        end;
    mret (inr (Ok false))
  else
    capacity ← tcp_client_capacity stream;
    if bool_decide (capacity = 0) then mret (inr (Ok false)) else
    r ← call_ (recv_body stream (Z.min (16 * 1024) capacity));
    match r with
    | Err H3Done => more ← query_ (stream_readable stream); mret (inr (Ok more))
    | Err _ => mret (inr (Err tt))
    | Panic => panic
    | Ok [] => mret (inl tt)
    | Ok data =>
        match t with
        | Some t => ok ← queue_tcp_client stream t data; mret (if ok : bool then inl tt else inr (Err tt))
        | None =>
            match p with
            | Some p =>
                at_ ← call_ now;
                let '(ok, p) := buffer_client_data at_ data p in
                _ ← modify (fun c => c <| pending_tcp_tunnels ::= fun m => <[stream := p]> m |>);
                mret (if ok : bool then inl tt else inr (Err tt))
            | None => mret (inl tt)
            end
        end
    end.

Definition relay_tcp_request_body (stream : Z) : M (result unit bool) :=
  known ← gets (fun c => bool_decide (is_Some (pending_tcp_tunnels c !! stream))
                         || bool_decide (is_Some (tcp_tunnels c !! stream)));
  if negb known then mret (Ok false)
  else repeating (fun _ c => work (quic c)) (relay_body_step stream) tt.

(** ** Setting tunnels up *)

(** An error response, when the HTTP/3 layer exists. *)
Definition refuse (stream status : Z) : M unit :=
  up ← gets h3; if up : bool then send_error_response order stream status else pass.

Definition pinned_identity (c : Client) : option ClientIdentity :=
  match identity c with
  | Some i => if has_static_addresses i then Some i else None
  | None => None
  end.

Definition setup_ip_tunnel (stream : Z) : M unit :=
  at_ ← call_ now;
  tunnel ← lift (tunnel_new stream at_);
  pinned ← gets pinned_identity;
  leased ← match pinned with
           | Some i => r ← perform (claim_addresses stream i);
                       match r with Ok a => mret (Some a) | Err _ => mret None | Panic => panic end
           | None => a ← perform (allocate_addresses stream); mret (Some a)
           end;
  match leased with
  | None | Some [] => refuse stream 503
  | Some addresses =>
      let tunnel := {| tunnel_stream := tunnel_stream tunnel; assigned_addrs := assigned_addrs tunnel ++ addresses;
                       Lease.last_activity := Lease.last_activity tunnel; Lease.header := Lease.header tunnel |} in
      up ← gets h3;
      if negb up then perform (release_addresses addresses) else
      r ← call_ (send_response stream (ok_headers true) false);
      match r with
      | Panic => panic
      | Err e =>
          _ ← perform (release_addresses addresses);
          match e with
          | StreamBlocked | H3Done =>
              waiting ← gets (fun c => pending_ip_responses c !! stream);
              match waiting with
              | Some _ => pass
              | None => t ← call_ now; modify (fun c => c <| pending_ip_responses ::= fun m => <[stream := t]> m |>)
              end
          | _ => pass
          end
      | Ok _ =>
          _ ← modify (fun c => c <| pending_ip_responses ::= delete stream |>);
          me ← gets index;
          _ ← each (fun a => perform (insert_route a {| conn_id := me; Routing.stream_id := stream |})) addresses;
          capsules ← lift (E:=Empty_set) (encode_ip_setup_capsules addresses);
          _ ← insert_capsule_stream stream (new_ip (tun_mtu (ip_proxy config)));
          _ ← modify (fun c => c <| ip_tunnels ::= fun m => <[stream := tunnel]> m |>);
          _ ← modify (fun c => c <| io ::= fun i => i <| capsule_readable ::= union {[stream]} |> |>);
          queued ← with_io (fun i => Ok (queue_capsule_bytes stream capsules i));
          if queued : bool then pass
          else _ ← teardown_ip_tunnel stream; shutdown_both stream EXCESSIVE_LOAD
      end
  end.

Definition max_tunnels : Z := max_tunnels_per_connection (server config).

Definition apply_tcp_setup (s : Z * UdpTarget) : M unit :=
  let '(stream, target) := s in
  pending ← gets (fun c => pending_tcp_tunnels c !! stream);
  match pending with
  | None => pass
  | Some _ =>
      n ← gets tunnel_count;
      if bool_decide (Z.of_nat n > max_tunnels) then _ ← refuse stream 503; forget_pending_tcp stream
      else
        task ← perform (spawn_tcp_connect stream target);
        modify (fun c => c <| pending_tcp_tunnels ::= alter (start_connect task) stream |>)
  end.

Definition apply_udp_setup (s : Z * UdpTarget * DatagramHeader) : M unit :=
  let '(stream, target, _) := s in
  pending ← gets (fun c => pending_udp_tunnels c !! stream);
  match pending with
  | None => pass
  | Some _ =>
      n ← gets tunnel_count;
      if bool_decide (Z.of_nat n > max_tunnels) then _ ← refuse stream 503; forget_pending_udp stream
      else
        task ← perform (spawn_udp_setup stream target);
        modify (fun c => c <| pending_udp_tunnels ::= alter (start_setup task) stream |>)
  end.

Definition apply_ip_setup (stream : Z) : M unit :=
  n ← gets tunnel_count;
  if bool_decide (Z.of_nat n >= max_tunnels) then refuse stream 503 else setup_ip_tunnel stream.

Definition apply_connect_setups (p : PendingConnectSetups) : M unit :=
  _ ← each apply_tcp_setup (setup_tcp p);
  _ ← each apply_udp_setup (setup_udp p);
  each apply_ip_setup (setup_ip p).

(** ** Credentials *)

Definition reject_unverified (stream : Z) : M unit :=
  _ ← forget_awaiting stream; refuse stream 404.

Definition spawn_auth_verification (r : PendingAuth) : M unit :=
  let stream := pa_stream r in
  waiting ← gets (fun c => awaiting_auth c !! stream);
  match waiting with
  | None => pass
  | Some a =>
      slot ← perform (try_source_slot stream);
      if negb slot then reject_unverified stream else
      queue ← perform (try_queue_slot stream);
      if negb queue then _ ← reject_unverified stream; perform (drop_source_slot stream) else
      task ← perform (spawn_verify stream (pa_credential r) (pa_password r) (pa_request r) (cancelled a));
      waiting ← gets (fun c => awaiting_auth c !! stream);
      match waiting with
      | Some a =>
          let '(a, old) := set_task a task in
          _ ← modify (fun c => c <| awaiting_auth ::= fun m => <[stream := a]> m |>);
          abort old
      | None => perform (abort_task task)
      end
  end.

Definition spawn_auth_verifications (pending : list PendingAuth) : M unit :=
  if auth_enabled then each spawn_auth_verification pending else pass.

(** ** HTTP/3 events *)

Definition is_udp_request (r : ConnectRequest) : bool := match r with RequestUdp _ => true | _ => false end.

(** A second header block is trailers; pseudo-headers in it are malformed. *)
Definition reject_trailers (stream : Z) (b : Batch) : M Batch :=
  _ ← shutdown_both stream MESSAGE_ERROR;
  _ ← cancel_error_response stream;
  _ ← forget_awaiting stream;
  _ ← forget_pending_tcp stream;
  _ ← forget_tcp stream;
  _ ← modify (fun c => c <| tcp_read_resumes ::= fun r => r ∖ {[stream]} |>);
  _ ← forget_pending_udp stream;
  _ ← forget_udp stream;
  _ ← modify (fun c => c <| pending_ip_responses ::= delete stream |>);
  ip ← gets (fun c => bool_decide (is_Some (ip_tunnels c !! stream)));
  mret (b <| setups ::= fun p => p <| setup_ip ::= filter (fun id => id <> stream) |> |>
          <| closed_capsule_streams ::= fun l => l ++ [stream] |>
          <| closed_ip_streams ::= fun l => if ip : bool then l ++ [stream] else l |>).

(** Room for one more request: closed streams are forgotten first. *)
Definition seen_room : M bool :=
  full ← gets (fun c => bool_decide (MAX_REQUEST_STREAMS <= size (request_headers_seen c))%nat);
  if negb full then mret true else
  _ ← modify (fun c => c <| request_headers_seen ::= filter (fun id => ask (stream_closed id) (quic c) = false) |>);
  gets (fun c => negb (bool_decide (MAX_REQUEST_STREAMS <= size (request_headers_seen c))%nat)).

(** Storage for the tunnel a request asked for. *)
Definition stage_request (stream : Z) (before p : PendingConnectSetups) : M unit :=
  _ ← (if bool_decide (length (setup_tcp before) < length (setup_tcp p))%nat
       then at_ ← call_ now; insert_pending_tcp stream (staging at_ stream) else pass);
  if bool_decide (length (setup_udp before) < length (setup_udp p))%nat
  then match last (setup_udp p) with
       | Some (_, _, header) =>
           at_ ← call_ now; budget ← gets early_udp_budget;
           insert_pending_udp stream (pending_new at_ header budget)
       | None => panic
       end
  else pass.

Definition hold_request (r : PendingAuth) (b : Batch) : M Batch :=
  let stream := pa_stream r in
  n ← gets (fun c => size (awaiting_auth c));
  if bool_decide (MAX_PENDING_AUTH_PER_CONNECTION <= n)%nat then _ ← send_auth_rejection order stream; mret b
  else
    budget ← gets early_udp_budget;
    fl ← gets flags;
    let '(a, fl) := awaiting_new (Task:=nat) fl (is_udp_request (pa_request r)) budget in
    _ ← modify (fun c => c <| flags := fl |>);
    _ ← insert_awaiting stream a;
    mret (b <| pending_auth ::= fun l => l ++ [r] |>).

Definition on_headers (stream : Z) (headers : list Header) (b : Batch) : M Batch :=
  seen ← gets (fun c => bool_decide (stream ∈ request_headers_seen c));
  if seen : bool then
    if existsb is_pseudo headers then reject_trailers stream b else mret b
  else
    rejected ← gets (fun c => bool_decide (is_Some (pending_error_responses c !! stream)));
    if rejected : bool then mret b else
    room ← seen_room;
    if negb room then _ ← shutdown_both stream EXCESSIVE_LOAD; mret b else
    _ ← modify (fun c => c <| request_headers_seen ::= union {[stream]} |>);
    o ← handle_request stream headers (setups b);
    let '(p, held) := o : PendingConnectSetups * option PendingAuth in
    let before := setups b in
    b ← match held with Some r => hold_request r (b <| setups := p |>) | None => mret (b <| setups := p |>) end;
    _ ← stage_request stream before p;
    mret b.

Definition on_data (stream : Z) (b : Batch) : M Batch :=
  tcp ← gets (fun c => bool_decide (is_Some (pending_tcp_tunnels c !! stream))
                       || bool_decide (is_Some (tcp_tunnels c !! stream)));
  _ ← (if tcp : bool then pass
       else modify (fun c => c <| io ::= fun i => i <| capsule_readable ::= union {[stream]} |> |>));
  waiting ← gets (fun c => bool_decide (is_Some (awaiting_auth c !! stream)));
  if waiting : bool then mret b else
  r ← relay_tcp_request_body stream;
  match r with
  | Panic => panic
  | Err _ => mret (b <| failed_tcp_streams ::= fun l => l ++ [stream] |>)
  | Ok _ =>
      readable ← query_ (stream_readable stream);
      if negb readable then mret b else
      open ← gets (fun c => tcp_tunnels c !! stream);
      room ← match open with Some _ => n ← perform (tcp_capacity stream); mret (bool_decide (n > 0)) | None => mret false end;
      pending ← gets (fun c => pending_tcp_tunnels c !! stream);
      room ← (if room : bool then mret true
              else match pending with
                   | Some p => n ← lift (pending_client_capacity p); mret (bool_decide (n > 0))
                   | None => mret false
                   end);
      _ ← (if room : bool then modify (fun c => c <| tcp_read_resumes ::= union {[stream]} |>) else pass);
      mret b
  end.

Definition on_finished (stream : Z) (b : Batch) : M Batch :=
  _ ← modify (fun c => c <| request_headers_seen ::= fun s => s ∖ {[stream]} |>
                         <| tcp_read_resumes ::= fun r => r ∖ {[stream]} |>);
  c ← gets id;
  if bool_decide (is_Some (capsule_streams (io c) !! stream))
  then mret (b <| finished_capsule_streams ::= fun l => l ++ [stream] |>) else
  match awaiting_auth c !! stream with
  | Some a =>
      _ ← modify (fun c => c <| awaiting_auth ::= fun m =>
            <[stream := {| Connection.client_finished := true; cancelled := cancelled a; auth_task := auth_task a;
                           early_udp_datagrams := early_udp_datagrams a |}]> m |>);
      mret b
  | None =>
      if bool_decide (is_Some (pending_udp_tunnels c !! stream))
         || bool_decide (is_Some (pending_ip_responses c !! stream)) || bool_decide (stream ∈ setup_ip (setups b))
      then mret b else
      _ ← match pending_tcp_tunnels c !! stream with
          | Some p => at_ ← call_ now;
                      modify (fun c => c <| pending_tcp_tunnels ::= fun m => <[stream := set_pending_finished p at_]> m |>)
          | None => pass
          end;
      _ ← match tcp_tunnels c !! stream with Some t => finish_tcp_client stream t | None => pass end;
      _ ← forget_udp stream;
      ip ← gets (fun c => bool_decide (is_Some (ip_tunnels c !! stream)));
      mret (b <| closed_capsule_streams ::= fun l => l ++ [stream] |>
              <| closed_ip_streams ::= fun l => if ip : bool then l ++ [stream] else l |>)
  end.

Definition on_reset (stream : Z) (b : Batch) : M Batch :=
  _ ← modify (fun c => c <| request_headers_seen ::= fun s => s ∖ {[stream]} |>);
  _ ← cancel_error_response stream;
  _ ← modify (fun c => c <| tcp_read_resumes ::= fun r => r ∖ {[stream]} |>
                         <| pending_ip_responses ::= delete stream |>);
  _ ← forget_awaiting stream;
  _ ← forget_pending_tcp stream;
  _ ← forget_tcp stream;
  _ ← forget_pending_udp stream;
  _ ← forget_udp stream;
  ip ← gets (fun c => bool_decide (is_Some (ip_tunnels c !! stream)));
  mret (b <| closed_capsule_streams ::= fun l => l ++ [stream] |>
          <| closed_ip_streams ::= fun l => if ip : bool then l ++ [stream] else l |>).

Definition on_event (stream : Z) (e : H3Event) (b : Batch) : M Batch :=
  match e with
  | Headers headers => on_headers stream headers b
  | Quiche.Data => on_data stream b
  | Finished => on_finished stream b
  | Reset_ _ => on_reset stream b
  | PriorityUpdate | GoAway => mret b
  end.

Definition poll_step (b : Batch) : M (Batch + Batch) :=
  r ← call_ poll;
  match r with
  | Ok (stream, e) => b ← on_event stream e b; mret (inl b)
  | Err _ => mret (inr b)
  | Panic => panic
  end.

Definition poll_http3_events : M unit :=
  closed ← query_ local_error;
  if closed : bool then pass else
  expired ← expire_auth order;
  if expired : bool then pass else
  up ← gets h3;
  b ← (if up : bool then repeating (fun _ c => work (quic c)) poll_step no_batch else mret no_batch);
  _ ← each drop_capsule_stream (closed_capsule_streams b);
  _ ← each (fun stream => with_io_quic (fun i q => Ok (tt, mark_capsule_finished stream i q)))
        (finished_capsule_streams b);
  _ ← each reset_tcp_stream (failed_tcp_streams b);
  _ ← each teardown_ip_tunnel (closed_ip_streams b);
  _ ← apply_connect_setups (setups b);
  spawn_auth_verifications (pending_auth b).

(** ** Resuming request bodies *)

(** The order of Rust's [Option]. *)
Definition opt_lt (a b : option Z) : bool :=
  match a, b with
  | None, Some _ => true
  | Some a, Some b => bool_decide (a < b)
  | _, None => false
  end.

Definition set_resume (stream : Z) (on : bool) : M unit :=
  modify (fun c => c <| tcp_read_resumes ::= fun r => if on then {[stream]} ∪ r else r ∖ {[stream]} |>).

(** The capacity of either kind of tunnel, zero without one. *)
Definition any_capacity (stream : Z) : M Z :=
  t ← gets (fun c => tcp_tunnels c !! stream);
  match t with
  | Some _ => perform (tcp_capacity stream)
  | None =>
      p ← gets (fun c => pending_tcp_tunnels c !! stream);
      match p with Some p => lift (pending_client_capacity p) | None => mret 0 end
  end.

(** [attempts] attempts remain; [before] is the framed length seen first. *)
Fixpoint resume_attempts (attempts : nat) (before : option (option Z)) (stream : Z) : M unit :=
  match attempts with
  | O => pass
  | S attempts =>
      _ ← set_resume stream false;
      closed ← query_ local_error;
      draining ← query_ is_draining;
      up ← gets h3;
      if closed || draining || negb up then pass else
      r ← relay_tcp_request_body stream;
      match r with
      | Panic => panic
      | Err _ => reset_tcp_stream stream
      | Ok needs_poll =>
          before ← (if needs_poll && bool_decide (before = None)
                    then n ← query_ (stream_readable_len stream); mret (Some n) else mret before);
          _ ← poll_http3_events;
          if negb needs_poll then pass else
          _ ← set_resume stream false;
          capacity ← any_capacity stream;
          closed ← query_ local_error;
          readable ← query_ (stream_readable stream);
          if bool_decide (capacity = 0) || closed || negb readable then pass else
          _ ← (if bool_decide (attempts = 0%nat) then
                 after ← query_ (stream_readable_len stream);
                 if match before with Some b => opt_lt after b | None => false end
                 then set_resume stream true else pass
               else pass);
          resume_attempts attempts before stream
      end
  end.

Definition resume_tcp_request_body (stream : Z) : M unit := resume_attempts MAX_FRAMING_RETRIES None stream.

Definition retry_tcp_request_bodies : M unit :=
  streams ← gets (fun c => order (tcp_read_resumes c));
  _ ← modify (fun c => c <| tcp_read_resumes := ∅ |>);
  each resume_tcp_request_body streams.

(** ** Verified credentials *)

Definition drop_early (q : option EarlyUdpDatagrams) : M unit :=
  match q with Some q => modify (fun c => c <| budgets ::= fun bs => early_drop bs q |>) | None => pass end.

Definition take_early (q : option EarlyUdpDatagrams) : M EarlyUdpDatagrams :=
  match q with
  | Some q => mret q
  | None => bs ← gets budgets; let '(q, bs) := early_default bs in _ ← modify (fun c => c <| budgets := bs |>); mret q
  end.

(** The TCP tunnel of a verified request; false when its stream was reset. *)
Definition stage_verified_tcp (stream : Z) (finished : bool) : M bool :=
  at_ ← call_ now;
  _ ← insert_pending_tcp stream (staging at_ stream);
  r ← relay_tcp_request_body stream;
  match r with
  | Panic => panic
  | Err _ => _ ← reset_tcp_stream stream; mret false
  | Ok _ =>
      _ ← (if finished then modify (fun c => c <| pending_tcp_tunnels ::=
             alter (fun p => set_pending_finished p (pt_last_activity p)) stream |>) else pass);
      mret true
  end.

Definition handle_auth_result (stream : Z) (request : ConnectRequest) (authorized : bool) : M unit :=
  closed ← query_ local_error;
  if closed : bool then pass else
  expired ← expire_auth order;
  if expired : bool then pass else
  up ← gets h3;
  if negb up then pass else
  found ← remove_awaiting stream;
  match found with
  | None => pass
  | Some awaiting =>
      let finished := Connection.client_finished awaiting in
      let '(early, awaiting) := take_early_udp_datagrams awaiting in
      if negb authorized then
        _ ← send_auth_rejection order stream; _ ← drop_early early; drop_awaiting awaiting
      else
        _ ← modify (fun c => c <| first_auth_deadline := None |>);
        p ← dispatch_connect stream request no_setups;
        going ← (if bool_decide (setup_tcp p = []) then mret true else stage_verified_tcp stream finished);
        if negb going then _ ← drop_early early; drop_awaiting awaiting else
        _ ← match last (setup_udp p) with
            | Some (_, _, header) =>
                early ← take_early early;
                at_ ← call_ now;
                insert_pending_udp stream (with_early_datagrams at_ header early)
            | None => drop_early early
            end;
        _ ← drop_awaiting awaiting;
        _ ← apply_connect_setups p;
        resume_tcp_request_body stream
  end.

(** ** UDP targets *)

Definition native_datagrams : M bool :=
  up ← gets h3; native ← query_ dgram_enabled_by_peer; mret (up && native).

Definition udp_established (stream : Z) (p : PendingUdp) (t : Prepared) : M unit :=
  bs ← gets budgets;
  let '(early, p, bs) := take_early_datagrams bs p in
  _ ← modify (fun c => c <| budgets := bs |>);
  _ ← drop_pending_udp p;
  native ← native_datagrams;
  _ ← perform (udp_start stream (prep_socket t) (negb native));
  at_ ← call_ now;
  _ ← insert_udp stream (from_socket at_ stream (prep_addr t) (prep_gso t));
  _ ← insert_capsule_stream stream (new_udp MAX_UDP_PAYLOAD early);
  modify (fun c => c <| io ::= fun i => i <| capsule_readable ::= union {[stream]} |> |>).

Definition keep_prepared (p : PendingUdp) (t : Prepared) : PendingUdp :=
  {| header := header p; started_at := started_at p; setup_task := setup_task p;
     early_datagrams := early_datagrams p; prepared := Some t |}.

(** [setup]: the prepared target, or the status to refuse with. *)
Definition handle_udp_setup_result (stream : Z) (setup : Prepared + Z) : M unit :=
  found ← remove_pending_udp stream;
  match found with
  | None => pass
  | Some p =>
      match setup with
      | inr status => _ ← refuse stream status; drop_pending_udp p
      | inl t =>
          up ← gets h3;
          if negb up then drop_pending_udp p else
          r ← call_ (send_response stream (ok_headers true) false);
          match r with
          | Panic => panic
          | Err StreamBlocked | Err H3Done => insert_pending_udp stream (keep_prepared p t)
          | Err _ => drop_pending_udp p
          | Ok _ => udp_established stream p t
          end
      end
  end.

Definition take_prepared (stream : Z) : M (option (Z * Prepared)) :=
  found ← gets (fun c => pending_udp_tunnels c !! stream);
  match found with
  | Some p =>
      match prepared p with
      | Some t =>
          _ ← modify (fun c => c <| pending_udp_tunnels ::= fun m =>
                <[stream := {| header := header p; started_at := started_at p; setup_task := setup_task p;
                               early_datagrams := early_datagrams p; prepared := None |}]> m |>);
          mret (Some (stream, t))
      | None => mret None
      end
  | None => mret None
  end.

Fixpoint collect {A} (f : Z -> M (option A)) (streams : list Z) : M (list A) :=
  match streams with
  | [] => mret []
  | s :: rest => a ← f s; l ← collect f rest; mret (match a with Some a => a :: l | None => l end)
  end.

Definition retry_udp_connect_responses : M unit :=
  streams ← gets (fun c => order (dom (pending_udp_tunnels c)));
  ready ← collect take_prepared streams;
  each (fun r => handle_udp_setup_result r.1 (inl r.2)) ready.

Definition retry_ip_connect_responses : M unit :=
  streams ← gets (fun c => order (dom (pending_ip_responses c)));
  each (fun stream =>
    started ← gets (fun c => pending_ip_responses c !! stream);
    match started with
    | None => panic
    | Some started =>
        _ ← modify (fun c => c <| pending_ip_responses ::= delete stream |>);
        _ ← setup_ip_tunnel stream;
        modify (fun c => c <| pending_ip_responses ::= alter (fun _ => started) stream |>)
    end) streams.

(** ** TCP targets *)

(** Early request bytes go to the new tunnel's writer. *)
Fixpoint transfer_early (stream : Z) (t : TcpTunnel) (early : list bytes) : M (option TcpTunnel) :=
  match early with
  | [] => mret (Some t)
  | data :: rest =>
      r ← queue_client stream t data;
      match r with Some t => transfer_early stream t rest | None => mret None end
  end.

(** True when the tunnel is established. *)
Definition tcp_established (stream : Z) (p : PendingTcp) (socket : nat) (target : SocketAddr) : M bool :=
  _ ← drop_pending_tcp p;
  at_ ← call_ now;
  _ ← perform (tcp_start stream socket target);
  r ← transfer_early stream (new_tunnel at_ stream target) (early_data p);
  match r with
  | None => _ ← reset_tcp_stream stream; _ ← perform (tcp_stop stream); mret false
  | Some t =>
      t ← (if pt_client_finished p then finish_client stream t else mret t);
      _ ← insert_tcp stream t; mret true
  end.

Definition set_connected (p : PendingTcp) (c : option (nat * SocketAddr)) (blocked : option Z) : PendingTcp :=
  {| pt_stream_id := pt_stream_id p; pt_last_activity := pt_last_activity p; early_data := early_data p;
     early_bytes := early_bytes p; pt_client_finished := pt_client_finished p; connected := c;
     response_blocked_at := blocked; connect_task := connect_task p |}.

(** [ConnectResult]: true when the handler goes on to resume the body. *)
Definition on_connect_result (stream : Z) (result : (nat * SocketAddr) + Z) : M bool :=
  found ← remove_pending_tcp stream;
  match found with
  | None => mret false
  | Some p =>
      match result with
      | inr status => _ ← refuse stream status; _ ← drop_pending_tcp p; mret true
      | inl (socket, target) =>
          up ← gets h3;
          if negb up then _ ← drop_pending_tcp p; mret false else
          r ← call_ (send_response stream (ok_headers false) false);
          match r with
          | Panic => panic
          | Err StreamBlocked | Err H3Done =>
              since ← match response_blocked_at p with Some t => mret t | None => call_ now end;
              _ ← insert_pending_tcp stream (set_connected p (Some (socket, target)) (Some since));
              mret false
          | Err _ => _ ← reset_tcp_stream stream; _ ← drop_pending_tcp p; mret false
          | Ok _ => tcp_established stream p socket target
          end
      end
  end.

(** A change to the tunnel of a stream, at the current time. *)
Definition touch_tcp (stream : Z) (f : Z -> TcpTunnel -> TcpTunnel) : M unit :=
  t ← gets (fun c => tcp_tunnels c !! stream);
  match t with Some t => at_ ← call_ now; set_tcp stream (f at_ t) | None => pass end.

Definition handle_tcp_event (e : TcpRelayEvent nat) : M unit :=
  match e with
  | ConnectResult _ stream result =>
      resume ← on_connect_result stream result;
      if resume : bool then resume_tcp_request_body stream else pass
  | TcpTunnel.Data _ stream data =>
      t ← gets (fun c => tcp_tunnels c !! stream);
      match t with
      | None => pass
      | Some t =>
          at_ ← call_ now;
          let '(accepted, t) := queue_response at_ data t in
          if accepted : bool then set_tcp stream t else reset_tcp_stream stream
      end
  | Writable _ stream => resume_tcp_request_body stream
  | WriteFinished _ stream =>
      touch_tcp stream (fun at_ t => set_tunnel t at_ (pending_responses t) (upstream_finished t)
        (response_finished t) (TcpTunnel.client_finished t) true)
  | Eof _ stream =>
      touch_tcp stream (fun at_ t => set_tunnel t at_ (pending_responses t) true
        (response_finished t) (TcpTunnel.client_finished t) (writer_finished t))
  | RelayError _ stream =>
      t ← gets (fun c => tcp_tunnels c !! stream);
      match t with Some _ => reset_tcp_stream stream | None => pass end
  end.

Definition take_connected (stream : Z) : M (option (Z * (nat * SocketAddr))) :=
  found ← gets (fun c => pending_tcp_tunnels c !! stream);
  match found with
  | Some p =>
      match connected p with
      | Some r =>
          _ ← modify (fun c => c <| pending_tcp_tunnels ::= fun m =>
                <[stream := set_connected p None (response_blocked_at p)]> m |>);
          mret (Some (stream, r))
      | None => mret None
      end
  | None => mret None
  end.

Definition retry_tcp_connect_responses : M unit :=
  streams ← gets (fun c => order (dom (pending_tcp_tunnels c)));
  ready ← collect take_connected streams;
  me ← gets index;
  each (fun r => handle_tcp_event (ConnectResult me r.1 (inl r.2))) ready.

(** ** Responses of TCP tunnels *)

(** Response bytes of the stream not yet given to HTTP/3. *)
Definition tcp_unsent (stream : Z) (c : Client) : nat :=
  match tcp_tunnels c !! stream with
  | Some t => sum_list_with (fun r => Z.to_nat (zlen (resp_data r) - resp_offset r)) (pending_responses t)
  | None => 0
  end.

(** The loop that drains the queued chunks; true when the stream failed. *)
Definition tcp_flush_step (stream : Z) (_ : unit) : M (unit + bool) :=
  found ← gets (fun c => tcp_tunnels c !! stream);
  match found with
  | None => mret (inr false)
  | Some t =>
      match front_response t with
      | None => mret (inr false)
      | Some response =>
          remaining ← lift (E:=Empty_set) (slice_from (resp_data response) (Z.to_nat (resp_offset response)));
          r ← call_ (send_body stream remaining false);
          match r with
          | Panic => panic
          | Ok n =>
              if bool_decide (n = 0) then mret (inr false) else
              at_ ← call_ now;
              let '(t, permits, retired) := advance_response at_ n t in
              _ ← set_tcp stream t;
              _ ← perform (tcp_permits stream permits retired);
              mret (inl tt)
          | Err H3Done | Err StreamBlocked => mret (inr false)
          | Err _ => mret (inr true)
          end
      end
  end.

(** The empty final body of a drained response; true when the stream failed. *)
Definition finish_response (stream : Z) (t : TcpTunnel) : M bool :=
  if negb (has_pending_response t) && upstream_finished t && negb (response_finished t) then
    r ← call_ (send_body stream [] true);
    match r with
    | Panic => panic
    | Ok _ =>
        _ ← set_tcp stream (set_tunnel t (TcpTunnel.last_activity t) (pending_responses t) (upstream_finished t)
                              true (TcpTunnel.client_finished t) (writer_finished t));
        mret false
    | Err H3Done | Err StreamBlocked => mret false
    | Err _ => mret true
    end
  else mret false.

Definition flush_tunnel (stream : Z) : M (bool * bool) :=
  failed ← repeating (fun _ c => tcp_unsent stream c) (tcp_flush_step stream) tt;
  found ← gets (fun c => tcp_tunnels c !! stream);
  failed ← match found with
           | Some t => if failed : bool then mret true else finish_response stream t
           | None => mret failed
           end;
  complete ← gets (fun c => match tcp_tunnels c !! stream with Some t => is_complete t | None => false end);
  mret (failed, complete).

Fixpoint flush_tunnels (streams : list Z) : M (list Z * list Z) :=
  match streams with
  | [] => mret ([], [])
  | s :: rest =>
      r ← flush_tunnel s;
      l ← flush_tunnels rest;
      let '(failed, complete) := r : bool * bool in
      mret ((if failed then [s] else []) ++ l.1, (if complete then [s] else []) ++ l.2)
  end.

Definition flush_tcp_responses : M unit :=
  up ← gets h3;
  if negb up then pass else
  streams ← gets (fun c => order (dom (tcp_tunnels c)));
  r ← flush_tunnels streams;
  let '(failed, completed) := r : list Z * list Z in
  _ ← each reset_tcp_stream (dedup (merge_sort Z.le failed));
  each (fun s => _ ← forget_tcp s; pass) completed.
End handlers.
