(* ===== verification/Relay.v ===== *)
(** * Relaying datagrams and closing tunnels

    The handlers a round runs after its events: capsule bodies are read, native
    and capsule datagrams go to UDP targets and to the TUN device, target
    datagrams and TUN packets go back, closed and idle tunnels are removed.
    Models [src/server/capsules.rs], [src/server/shard_datagrams.rs],
    [src/server/shard_lifecycle.rs], the part of [drive_connections] before
    packets are built, and the order of a round in [Shard::run]. *)

From stdpp Require Import list gmap strings.
From S2P Require Import Prelude Varint Net Policy Capsule CapsuleStream Datagram IpPacket Routing AddressPool.
From S2P Require Import ClientIdentity Lease Uri Auth Config Request TcpTunnel TargetUdp UdpTunnel Quiche QuicBatch.
From S2P Require Import Connection CapsuleIo Client Handlers.
Open Scope Z_scope.

Definition MAX_CAPSULE_RETRIES : nat := 32.
Definition H3_DATAGRAM_ERROR : Z := 0x33.

Section relay.
Context `{HQ : Quiche} `{HO : Outside}.
Context (order : gset Z -> list Z) (work : conn -> nat).
Context (base64_decode : bytes -> option bytes).
Context (config : ServerConfig) (auth_enabled : bool).
(** The destinations CONNECT-IP may reach, and whether there is a TUN device. *)
Context {N4 N6 : Type} `{!NetOps N4, !NetOps N6} (ip_policy : TargetPolicy N4 N6) (tun : bool).

Abbreviation poll_events := (poll_http3_events order work base64_decode config auth_enabled).

Definition connection_over : M bool :=
  failed ← query_ local_error; draining ← query_ is_draining; closed ← query_ is_closed;
  mret (failed || draining || closed).

(** ** Staging for UDP targets *)

Definition set_udp (stream : Z) (t : UdpTunnel) : M unit :=
  modify (fun c => c <| udp_tunnels ::= fun m => <[stream := t]> m |>).

(** A failed write is only logged. *)
Definition flush_udp (stream : Z) (t : UdpTunnel) : M UdpTunnel :=
  at_ ← call_ now;
  calls ← perform (udp_socket stream);
  let '(t, r) := flush_to_target at_ calls.1 calls.2 t in
  match r with Panic => panic | _ => mret t end.

Definition stage_udp (stream : Z) (t : UdpTunnel) (data : bytes) : M UdpTunnel :=
  r ← lift (stage_to_target data t);
  let '(full, t) := r : bool * UdpTunnel in
  if full then flush_udp stream t else mret t.

Fixpoint stage_all (stream : Z) (t : UdpTunnel) (payloads : list bytes) : M UdpTunnel :=
  match payloads with
  | [] => mret t
  | data :: rest => t ← stage_udp stream t data; stage_all stream t rest
  end.

Definition relay_early_udp_datagrams (stream : Z) (t : UdpTunnel) (early : EarlyUdpDatagrams) : M unit :=
  bs ← gets budgets;
  let '(payloads, bs) := into_payloads bs early in
  _ ← modify (fun c => c <| budgets := bs |>);
  t ← stage_all stream t payloads;
  t ← (if has_staged t then flush_udp stream t else mret t);
  set_udp stream t.

(** ** Closing capsule streams *)

Definition close_capsule_stream (stream : Z) (reset : bool) : M unit :=
  up ← gets h3;
  ip ← gets (fun c => bool_decide (is_Some (ip_tunnels c !! stream)));
  gone ← with_io_quic (close_output up ip stream reset);
  if negb gone then pass else
  _ ← forget_udp stream;
  _ ← forget_pending_udp stream;
  _ ← teardown_ip_tunnel stream;
  drop_capsule_stream stream.

Definition is_ip_decoder (s : CapsuleStream) : bool :=
  match cs_decoder s with IpDecoder _ => true | DatagramDecoder _ => false end.

(** CONNECT-IP replies are drained before the stream is closed. *)
Definition finish_capsule_body (stream : Z) : M unit :=
  s ← gets (fun c => capsule_streams (io c) !! stream);
  if match s with
     | Some s => is_ip_decoder s && negb (stream_is_partial (cs_decoder s)) && negb (bool_decide (send_queue s = []))
     | None => false
     end
  then modify (fun c => c <| io ::= fun i => i <| finished_capsules ::= fun l => l ++ [stream] |> |>)
  else close_capsule_stream stream false.

Definition finish_capsule_bodies : M unit :=
  finished ← gets (fun c => finished_capsules (io c));
  _ ← modify (fun c => c <| io ::= fun i => i <| finished_capsules := [] |> |>);
  each finish_capsule_body finished.

(** ** Reading capsule bodies *)

Definition set_stream (stream : Z) (s : CapsuleStream) : M unit :=
  modify (fun c => c <| io ::= put_stream stream s |>).

Definition touch_ip (stream : Z) (t : IpTunnel) (at_ : Z) : M unit :=
  modify (fun c => c <| ip_tunnels ::= fun m =>
    <[stream := {| tunnel_stream := tunnel_stream t; assigned_addrs := assigned_addrs t;
                   Lease.last_activity := at_; Lease.header := Lease.header t |}]> m |>).

(** The reply to ADDRESS_REQUEST; true when the stream has to be closed. *)
Definition on_address_request (stream : Z) (requests : list AssignedAddress) : M bool :=
  found ← gets (fun c => ip_tunnels c !! stream);
  match found with
  | None => mret true
  | Some t =>
      s ← gets (fun c => capsule_streams (io c) !! stream);
      match s with
      | None => panic
      | Some s =>
          match address_requests s with
          | None => panic
          | Some ids =>
              let '(ids, r) := respond ids requests (assigned_addrs t) in
              _ ← set_stream stream (s <| address_requests := Some ids |>);
              match r with
              | Panic => panic
              | Err _ => mret true
              | Ok reply =>
                  at_ ← call_ now;
                  _ ← touch_ip stream t at_;
                  output ← lift (E:=Empty_set) (Capsule.encode reply []);
                  queued ← with_io (fun i => Ok (queue_capsule_bytes stream output i));
                  mret (negb queued)
              end
          end
      end
  end.

(** A DATAGRAM capsule is staged as a wire datagram; without room it is dropped. *)
Definition on_datagram_capsule (stream max_payload : Z) (data : bytes) : M bool :=
  match Varint.decode data with
  | Panic => panic
  | Err _ => mret false
  | Ok (context, context_len) =>
      if negb (bool_decide (context = 0)) then mret false else
      if bool_decide (zlen data - Z.of_nat context_len > max_payload) then mret true else
      i ← gets io;
      if bool_decide (zlen (received_capsules i) >= MAX_RECEIVED_PACKETS) ||
         bool_decide (received_capsule_bytes i + zlen data + 8 > MAX_RECEIVED_BYTES) then mret false else
      wire ← lift (E:=Empty_set) (push_varint (stream / 4) []);
      let wire := wire ++ data in
      _ ← modify (fun c => c <| io ::= fun i => i <| received_capsule_bytes ::= Z.add (zlen wire) |>
                                                <| received_capsules ::= fun l => l ++ [wire] |> |>);
      mret false
  end.

Fixpoint on_frames (stream max_payload : Z) (frames : list CapsuleFrame) : M bool :=
  match frames with
  | [] => mret false
  | frame :: rest =>
      failed ← match frame with
               | Capsule.Datagram data => on_datagram_capsule stream max_payload data
               | AddressRequest requests => on_address_request stream requests
               | _ => mret false
               end;
      if failed : bool then mret true else on_frames stream max_payload rest
  end.

Definition read_capsules_step (stream : Z) (_ : unit) : M (unit + bool) :=
  r ← call_ (recv_body stream (16 * 1024));
  match r with
  | Panic => panic
  | Ok [] | Err H3Done => mret (inr false)
  | Err _ => mret (inr true)
  | Ok data =>
      s ← gets (fun c => capsule_streams (io c) !! stream);
      match s with
      | None => panic
      | Some s =>
          let '(d, r) := stream_decode (cs_decoder s) data in
          _ ← set_stream stream (s <| cs_decoder := d |>);
          match r with
          | Panic => panic
          | Err _ => mret (inr true)
          | Ok frames =>
              failed ← on_frames stream (max_payload s) frames;
              mret (if failed : bool then inr true else inl tt)
          end
      end
  end.

(** The early queue of a stream whose body has been read. *)
Definition release_early (stream : Z) : M unit :=
  s ← gets (fun c => capsule_streams (io c) !! stream);
  match s with
  | None => pass
  | Some s =>
      match CapsuleIo.early s with
      | None => pass
      | Some early =>
          _ ← set_stream stream (s <| CapsuleIo.early := None |>);
          finished ← query_ (stream_finished stream);
          over ← connection_over;
          t ← gets (fun c => udp_tunnels c !! stream);
          match t with
          | Some t => if negb finished && negb over then relay_early_udp_datagrams stream t early
                      else drop_early (Some early)
          | None => drop_early (Some early)
          end
      end
  end.

Definition read_capsule_stream (stream : Z) : M unit :=
  failed ← repeating (fun _ c => work (quic c)) (read_capsules_step stream) tt;
  finished ← query_ (stream_finished stream);
  failed ← (if finished : bool then
              s ← gets (fun c => capsule_streams (io c) !! stream);
              match s with
              | None => panic
              | Some s =>
                  _ ← with_io_quic (fun i q => Ok (tt, mark_capsule_finished stream i q));
                  mret (failed || stream_is_partial (cs_decoder s))
              end
            else mret failed);
  if failed : bool then close_capsule_stream stream true else
  readable ← query_ (stream_readable stream);
  finished ← query_ (stream_finished stream);
  broken ← query_ local_error;
  if readable && negb finished && negb broken then
    modify (fun c => c <| io ::= fun i => i <| capsule_readable ::= union {[stream]} |>
                                           <| capsule_read_resumes ::= union {[stream]} |> |>)
  else release_early stream.

Definition read_readable (stream : Z) : M unit :=
  _ ← modify (fun c => c <| io ::= fun i => i <| capsule_read_resumes ::= fun r => r ∖ {[stream]} |> |>);
  c ← gets id;
  if bool_decide (is_Some (awaiting_auth c !! stream)) || bool_decide (is_Some (pending_udp_tunnels c !! stream))
  then modify (fun c => c <| io ::= fun i => i <| capsule_readable ::= union {[stream]} |> |>)
  else if negb (bool_decide (is_Some (capsule_streams (io c) !! stream))) || negb (h3 c) then pass
  else read_capsule_stream stream.

Definition read_capsule_bodies_once : M unit :=
  readable ← gets (fun c => order (capsule_readable (io c)));
  _ ← modify (fun c => c <| io ::= fun i => i <| capsule_readable := ∅ |> |>);
  each read_readable readable.

(** The framed length of each stream when it was first resumed. *)
Definition note_length (q : conn) (before : gmap Z (option Z)) (stream : Z) : gmap Z (option Z) :=
  match before !! stream with
  | Some _ => before
  | None => <[stream := ask (stream_readable_len stream) q]> before
  end.
Definition made_progress (q : conn) (before : gmap Z (option Z)) (stream : Z) : bool :=
  match before !! stream with Some b => opt_lt (ask (stream_readable_len stream) q) b | None => false end.

Fixpoint read_attempts (attempts : nat) (before : gmap Z (option Z)) : M unit :=
  match attempts with
  | O => pass
  | S attempts =>
      _ ← read_capsule_bodies_once;
      over ← connection_over;
      if over : bool
      then modify (fun c => c <| io ::= fun i => i <| capsule_read_resumes := ∅ |> |>) else
      resumes ← gets (fun c => order (capsule_read_resumes (io c)));
      if bool_decide (resumes = []) then pass else
      q ← gets quic;
      let before := foldl (note_length q) before resumes in
      _ ← poll_events;
      _ ← (if bool_decide (attempts = 0%nat) then
             modify (fun c => c <| io ::= fun i => i <| capsule_read_resumes ::=
               filter (fun s => made_progress (quic c) before s = true) |> |>)
           else pass);
      read_attempts attempts before
  end.

Definition read_capsule_bodies : M unit := read_attempts MAX_CAPSULE_RETRIES ∅.

(** ** Datagrams from the client *)

(** A context-zero packet of an IP tunnel: the source has to be leased to it,
    the destination allowed, and the routing headers harmless. *)
Definition relay_ip_packet (stream : Z) (t : IpTunnel) (packet : bytes) : M unit :=
  match IpPacket.parse packet with
  | Panic => panic
  | Err _ => pass
  | Ok info =>
      if negb (owns_address t (src info)) then pass else
      if negb (is_allowed ip_policy (dst info)) then pass else
      safe ← lift (E:=ParseError) (has_safe_routing packet);
      if negb safe then pass else
      at_ ← call_ now;
      _ ← touch_ip stream t at_;
      if tun then perform (tun_push stream packet) else pass
  end.

Definition buffer_early (stream : Z) (data : bytes) : M unit :=
  modify (fun c =>
    let s := (buffer_early_udp_datagram stream data
                {| Connection.pending_udp_tunnels := pending_udp_tunnels c; Connection.awaiting_auth := awaiting_auth c;
                   Connection.budgets := budgets c |}).2 in
    c <| pending_udp_tunnels := Connection.pending_udp_tunnels s |> <| awaiting_auth := Connection.awaiting_auth s |>
      <| budgets := Connection.budgets s |>).

(** One decoded datagram, and the tunnels with staged datagrams. *)
Definition relay_datagram (capsule : bool) (d : HttpDatagram) (staged : list Z) : M (list Z) :=
  let stream := Datagram.stream_id d in
  finished ← query_ (stream_finished stream);
  readable ← query_ (stream_readable stream);
  draining ← gets (fun c => bool_decide (is_Some (capsule_streams (io c) !! stream)));
  if negb capsule && (finished || draining && readable) then mret staged else
  if negb (bool_decide (context_id d = 0)) then mret staged else
  udp ← gets (fun c => udp_tunnels c !! stream);
  match udp with
  | Some t =>
      t ← stage_udp stream t (payload d);
      _ ← set_udp stream t;
      mret (if bool_decide (stream ∈ staged) then staged else staged ++ [stream])
  | None =>
      ip ← gets (fun c => ip_tunnels c !! stream);
      _ ← match ip with
          | Some t => relay_ip_packet stream t (payload d)
          | None => buffer_early stream (payload d)
          end;
      mret staged
  end.

(** The next datagram: staged capsules come first. *)
Definition next_datagram : M (option (bool * bytes)) :=
  queue ← gets (fun c => received_capsules (io c));
  match queue with
  | wire :: rest =>
      n ← gets (fun c => received_capsule_bytes (io c));
      n ← lift (E:=Empty_set) (usize_sub n (zlen wire));
      _ ← modify (fun c => c <| io ::= fun i => i <| received_capsules := rest |> <| received_capsule_bytes := n |> |>);
      mret (Some (true, wire))
  | [] =>
      r ← call_ (dgram_recv MAX_DATAGRAM_SIZE);
      match r with Panic => panic | Err _ => mret None | Ok wire => mret (Some (false, wire)) end
  end.

Definition relay_datagram_step (staged : list Z) : M (list Z + list Z) :=
  next ← next_datagram;
  match next with
  | None => mret (inr staged)
  | Some (capsule, wire) =>
      match decode_ref wire with
      | Panic => panic
      | Err e =>
          if is_connection_error e
          then _ ← call_ (close true H3_DATAGRAM_ERROR); mret (inr staged)
          else mret (inl staged)
      | Ok d => staged ← relay_datagram capsule d staged; mret (inl staged)
      end
  end.

Definition flush_staged (stream : Z) : M unit :=
  udp ← gets (fun c => udp_tunnels c !! stream);
  match udp with
  | Some t => if has_staged t then t ← flush_udp stream t; set_udp stream t else pass
  | None => pass
  end.

Definition relay_client_datagrams : M unit :=
  over ← connection_over;
  if over : bool then pass else
  staged ← repeating (fun _ c => (length (received_capsules (io c)) + work (quic c))%nat) relay_datagram_step [];
  each flush_staged staged.

(** ** Datagrams for the client *)

Definition touch_udp (stream : Z) (t : UdpTunnel) (at_ : Z) : M unit :=
  set_udp stream (set_stage t at_ (send_stage t) (staged t) (udp_gso t)).

(** True when the library's queue is full. *)
Fixpoint send_target_datagrams (stream : Z) (datagrams : list bytes) : M bool :=
  match datagrams with
  | [] => mret false
  | data :: rest =>
      native ← native_datagrams;
      if negb native then
        _ ← match decode_ref data with
            | Ok d => _ ← with_io (queue_datagram_capsule stream (payload d)); pass
            | Err _ => pass
            | Panic => panic
            end;
        send_target_datagrams stream rest
      else
        r ← call_ (dgram_send_buf data);
        match r with
        | Panic => panic
        | Err QuicDone => mret true
        | Ok _ | Err (QuicOther _) => send_target_datagrams stream rest
        end
  end.

(** The batch of one target receiver; [None] when it failed. *)
Definition relay_target_batch (stream : Z) (batch : option (list bytes)) : M bool :=
  udp ← gets (fun c => udp_tunnels c !! stream);
  match udp with
  | None => mret false
  | Some t =>
      match batch with
      | None => _ ← reset_udp_stream stream; mret false
      | Some datagrams =>
          at_ ← call_ now;
          _ ← touch_udp stream t at_;
          send_target_datagrams stream datagrams
      end
  end.

(** A TUN packet for a tunnel of this connection; false when the library's
    queue is full. *)
Definition relay_tun_to (stream : Z) (packet : bytes) : M bool :=
  native ← native_datagrams;
  ip ← gets (fun c => ip_tunnels c !! stream);
  match ip with
  | None => mret true
  | Some t =>
      if negb native then
        at_ ← call_ now;
        _ ← touch_ip stream t at_;
        _ ← with_io (queue_datagram_capsule stream packet);
        mret true
      else
        full ← query_ is_dgram_send_queue_full;
        if full : bool then mret false else
        at_ ← call_ now;
        _ ← touch_ip stream t at_;
        data ← lift (E:=Empty_set) (header_encode (Lease.header t) packet);
        r ← call_ (dgram_send_buf data);
        match r with
        | Panic => panic
        | Err QuicDone => mret false
        | Ok _ | Err (QuicOther _) => mret true
        end
  end.

(** ** Idle tunnels *)

(** The connection of a client that left the roster is closed. *)
Definition enforce_roster (current : ClientRegistry) : M unit :=
  who ← gets identity;
  match who with
  | Some i => if still_authorizes current i then pass else _ ← call_ (close true 0x100); pass
  | None => pass
  end.

Definition expire_ip_response (timeout stream : Z) : M unit :=
  started ← gets (fun c => pending_ip_responses c !! stream);
  match started with
  | None => pass
  | Some started =>
      t ← call_ now;
      if bool_decide (elapsed t started > timeout) then
        _ ← modify (fun c => c <| pending_ip_responses ::= delete stream |>);
        shutdown_both stream REQUEST_CANCELLED
      else pass
  end.

(** A tunnel in setup that is given up. *)
Definition expire_setup (stream : Z) (ready : bool) : M unit :=
  if ready then shutdown_both stream REQUEST_CANCELLED else refuse order stream 504.

Definition expire_pending_tcp (timeout stream : Z) : M unit :=
  p ← gets (fun c => pending_tcp_tunnels c !! stream);
  match p with
  | None => pass
  | Some p =>
      t ← call_ now;
      if pending_is_idle t timeout p
      then _ ← expire_setup stream (bool_decide (is_Some (connected p))); forget_pending_tcp stream else pass
  end.

Definition expire_pending_udp (timeout stream : Z) : M unit :=
  p ← gets (fun c => pending_udp_tunnels c !! stream);
  match p with
  | None => pass
  | Some p =>
      t ← call_ now;
      if pending_udp_is_idle t timeout p
      then _ ← expire_setup stream (bool_decide (is_Some (prepared p))); forget_pending_udp stream else pass
  end.

Definition close_idle (stream : Z) (reset : bool) : M unit :=
  up ← gets h3; modify (fun c => c <| quic ::= close_idle_stream up stream reset |>).

Definition expire_tcp (timeout stream : Z) : M unit :=
  p ← gets (fun c => tcp_tunnels c !! stream);
  match p with
  | None => pass
  | Some p =>
      t ← call_ now;
      if tunnel_is_idle t timeout p then _ ← close_idle stream false; _ ← forget_tcp stream; pass else pass
  end.

(** Whether a datagram tunnel is over: after FIN the drain deadline counts, not
    its activity.  With it, whether the stream has to be reset. *)
Definition idle_or_drained (timeout stream : Z) (idle : Z -> bool) : M (bool * bool) :=
  s ← gets (fun c => capsule_streams (io c) !! stream);
  t ← call_ now;
  let drained := s ≫= drain_expired t timeout in
  let partial := match s with Some s => has_partial_output s | None => false end in
  mret (match drained with Some b => b | None => idle t end, bool_decide (drained = Some true) || partial).

Definition expire_udp (timeout stream : Z) : M unit :=
  p ← gets (fun c => udp_tunnels c !! stream);
  match p with
  | None => pass
  | Some p =>
      r ← idle_or_drained timeout stream (fun t => udp_is_idle t timeout p);
      let '(over, reset) := r : bool * bool in
      if over then _ ← close_idle stream reset; _ ← forget_udp stream; pass else pass
  end.

(** True when the IP tunnel has to be torn down. *)
Definition expire_ip (timeout stream : Z) : M (option Z) :=
  p ← gets (fun c => ip_tunnels c !! stream);
  match p with
  | None => mret None
  | Some p =>
      r ← idle_or_drained timeout stream (fun t => Lease.is_idle p t timeout);
      let '(over, reset) := r : bool * bool in
      if over then _ ← close_idle stream reset; mret (Some stream) else mret None
  end.

Definition orphan_capsules (c : Client) : gset Z :=
  filter (fun id => udp_tunnels c !! id = None /\ ip_tunnels c !! id = None) (dom (capsule_streams (io c))).

Definition cleanup_idle_tunnels (timeout : Z) : M unit :=
  _ ← with_errors (fun m q => (expire_errors (errors_order order) timeout m q).1);
  ips ← gets (fun c => order (dom (pending_ip_responses c)));
  _ ← each (expire_ip_response timeout) ips;
  tcps ← gets (fun c => order (dom (pending_tcp_tunnels c)));
  _ ← each (expire_pending_tcp timeout) tcps;
  udps ← gets (fun c => order (dom (pending_udp_tunnels c)));
  _ ← each (expire_pending_udp timeout) udps;
  open ← gets (fun c => order (dom (tcp_tunnels c)));
  _ ← each (expire_tcp timeout) open;
  open ← gets (fun c => order (dom (udp_tunnels c)));
  _ ← each (expire_udp timeout) open;
  open ← gets (fun c => order (dom (ip_tunnels c)));
  idle ← collect (expire_ip timeout) open;
  closed ← gets (fun c => order (orphan_capsules c));
  _ ← each drop_capsule_stream closed;
  each teardown_ip_tunnel idle.

(** ** A round *)

(** What [drive_connections] does before it builds packets. *)
Definition prepare_output : M unit :=
  _ ← expire_auth order;
  _ ← call_ on_timeout;
  over ← connection_over;
  up ← gets h3;
  _ ← (if over : bool then modify (fun c => c <| pending_error_responses := ∅ |>)
       else if up : bool then with_errors (retry (errors_order order)) else pass);
  with_io_quic (fun i q => r ← flush_capsule_output order up i q; Ok (tt, r)).

(** The handlers of a round, in the order of [Shard::run], and all of them on
    one connection. *)
Definition phases : list (M unit) :=
  [ retry_tcp_connect_responses order work base64_decode config auth_enabled;
    retry_tcp_request_bodies order work base64_decode config auth_enabled;
    retry_udp_connect_responses order;
    retry_ip_connect_responses order config;
    flush_tcp_responses order;
    read_capsule_bodies;
    relay_client_datagrams;
    finish_capsule_bodies ].
Definition service : M unit :=
  _ ← retry_tcp_connect_responses order work base64_decode config auth_enabled;
  _ ← retry_tcp_request_bodies order work base64_decode config auth_enabled;
  _ ← retry_udp_connect_responses order;
  _ ← retry_ip_connect_responses order config;
  _ ← flush_tcp_responses order;
  _ ← read_capsule_bodies;
  _ ← relay_client_datagrams;
  finish_capsule_bodies.
End relay.
