(* ===== verification/Totality.v ===== *)
(** * Operations that never panic

    The parsers, codecs and batch planners the handlers call, with the states in
    which they are called: each ends with a value or an error. *)

From stdpp Require Import list gmap strings.
From S2P Require Import Prelude Varint Net Policy Capsule CapsuleStream Datagram AddressPool Lease Uri ConnectIp Config Request.
From S2P Require Import TargetUdp UdpTunnel CapsuleIo.
Open Scope Z_scope.

(** ** Requests *)

Lemma ok_or_np {E A} (e : E) (o : option A) : ok_or e o <> Panic.
Proof. by destruct o. Qed.
Lemma bind_np {E A B} (m : result E A) (f : A -> result E B) :
  m <> Panic -> (forall a, f a <> Panic) -> m ≫= f <> Panic.
Proof. by destruct m; cbn. Qed.
Ltac np :=
  repeat first
    [ done
    | apply bind_np; [|intros ?]
    | apply ok_or_np
    | match goal with
      | |- (if ?b then _ else _) <> Panic => destruct b
      | |- (let '(_, _) := ?x in _) <> Panic => destruct x
      | |- match ?x with _ => _ end <> Panic => destruct x
      end ].

Lemma parse_udp_path_np p t : parse_udp_path p t <> Panic.
Proof. unfold parse_udp_path. np. Qed.
Lemma parse_connect_authority_np a : parse_connect_authority a <> Panic.
Proof. unfold parse_connect_authority. np. Qed.
Lemma component_parse_np v vs : component_parse v vs <> Panic.
Proof. unfold component_parse, variable_parse. np. Qed.
Lemma template_parse_np t : template_parse t <> Panic.
Proof.
  assert (forall parts vs, parse_components parts vs <> Panic) as H1.
  { induction parts as [|p parts IH]; intros vs; cbn [parse_components]; np; try apply component_parse_np; try apply IH. }
  assert (forall pairs vs ns q, parse_fixed_query pairs vs ns q <> Panic) as H2.
  { induction pairs as [|p pairs IH]; intros vs ns q; cbn [parse_fixed_query]; np; try apply component_parse_np; try apply IH. }
  assert (forall l vs ns q, parse_expansion l vs ns q <> Panic) as H3.
  { induction l as [|p l IH]; intros vs ns q; cbn [parse_expansion]; unfold variable_parse; np; try apply IH. }
  unfold template_parse, split_expansion. np; auto.
Qed.
Lemma component_capture_np {N4 N6} `{!NetOps N4, !NetOps N6, !NetNew N4, !NetNew N6} c x t :
  component_capture (N4:=N4) (N6:=N6) c x t <> Panic.
Proof. unfold component_capture, parse_target, parse_protocol. np. Qed.
Lemma parse_ip_path_np {N4 N6} `{!NetOps N4, !NetOps N6, !NetNew N4, !NetNew N6} p t :
  parse_ip_path (N4:=N4) (N6:=N6) p t <> Panic.
Proof.
  assert (forall cs ss t, capture_path (N4:=N4) (N6:=N6) cs ss t <> Panic) as H1.
  { induction cs as [|c cs IH]; intros ss x; cbn [capture_path]; np; try apply component_capture_np; try apply IH. }
  assert (forall q ps s t, capture_query (N4:=N4) (N6:=N6) q ps s t <> Panic) as H2.
  { intros q. induction ps as [|p' ps IH]; intros s x; cbn [capture_query]; np; try apply component_capture_np; try apply IH. }
  unfold parse_ip_path, capture. np; auto using template_parse_np.
Qed.
Lemma prepare_connect_ip_np p s v c : prepare_connect_ip p s v c <> Panic.
Proof.
  unfold prepare_connect_ip. np. intros H. pose proof (parse_ip_path_np (N4:=Cidr) (N6:=Cidr) p (str (ip_uri_template (ip_proxy c)))). 
  by destruct (parse_ip_path _ _).
Qed.
Lemma header_new_request s : Datagram.stream_ok s -> exists h, header_new s = Ok h /\ forall E, exists b, as_bytes (E:=E) h = Ok b.
Proof. intros Hs. destruct (header_new_Ok s Hs) as (h & -> & Hb). eauto. Qed.

Lemma tunnel_new_request s at_ : Datagram.stream_ok s ->
  exists h, tunnel_new s at_ = Ok {| tunnel_stream := s; assigned_addrs := []; Lease.last_activity := at_; Lease.header := h |} /\
    forall E, exists b, as_bytes (E:=E) h = Ok b.
Proof. intros Hs. destruct (header_new_request s Hs) as (h & Hh & Hb). unfold tunnel_new. rewrite Hh. eauto. Qed.


(** Wire datagrams decode or are refused. *)
Lemma decode_ref_post b : bytes_ok b -> post (decode_ref b) (fun d => bytes_ok (payload d)).
Proof.
  intros Hb. pose proof (datagram_decode_total b Hb) as Hd. unfold Datagram.decode in Hd.
  destruct (decode_ref b) as [d|e|]; [|done|done]. cbn in *. destruct Hd as (_ & _ & h & -> & _).
  by apply bytes_ok_app in Hb as [_ ?].
Qed.

(** ** Capsule readers *)

Definition decoder_ok (d : StreamDecoder) : Prop :=
  match d with DatagramDecoder d => reader_ok d | IpDecoder d => reader_ok (decoder d) end.
Definition is_ip (d : StreamDecoder) : bool := match d with IpDecoder _ => true | DatagramDecoder _ => false end.

(** The frames of a reader: values of bytes, and no control frames without an
    IP tunnel. *)
Definition frame_fits (ip : bool) (f : CapsuleFrame) : Prop :=
  frame_ok f /\ (ip = false -> exists v, f = Capsule.Datagram v).

Lemma stream_decode_post d data :
  decoder_ok d -> bytes_ok data ->
  let '(d', r) := stream_decode d data in
  is_ip d' = is_ip d /\ post r (fun frames => decoder_ok d' /\ Forall (frame_fits (is_ip d)) frames).
Proof.
  intros Hd Hb. destruct d as [d|[d]]; cbn [stream_decode decoder_ok decoder is_ip] in *.
  - unfold datagrams_decode. rewrite decode_with_bytewise by done.
    pose proof (bytewise_outcome (fun ds _ v => Ok (ds ++ [v])) (Forall bytes_ok) d) as Ho.
    specialize (Ho ltac:(intros acc k v acc' Ha (_ & Hv & _) [= <-]; by apply Forall_app; split; [|apply Forall_singleton])).
    specialize (Ho d data [] Hd eq_refl eq_refl Hb ltac:(constructor)).
    destruct (bytewise _ d data []) as [d' [ds|e|]]; cbn; (split; [done|]); cbn; [|done|].
    + destruct Ho as [H1 H2]. split; [done|]. apply Forall_fmap. eapply Forall_impl; [done|]. intros v Hv. split; [done|eauto].
    + by destruct Ho as (acc & _ & k & v & _ & ?).
  - unfold ip_decode. cbn [decoder]. rewrite decode_with_bytewise by done.
    pose proof (bytewise_outcome ip_receive (Forall (frame_fits true)) d) as Ho.
    assert (forall acc k v, deliverable d k v -> post (ip_receive acc k v) (fun acc' => Forall (frame_fits true) acc -> Forall (frame_fits true) acc')) as Hrec.
    { intros acc k v (Hk & Hv & _). unfold ip_receive. apply post_bind.
      case_bool_decide; [|eapply post_mono; [by apply parse_capsule_value_post|]; intros f Hf]; cbn [post];
        intros Hacc; (apply Forall_app; split; [done|]); by apply Forall_singleton. }
    specialize (Ho ltac:(intros acc k v acc' Ha Hdel Hr; specialize (Hrec acc k v Hdel); rewrite Hr in Hrec; by apply Hrec)).
    specialize (Ho d data [] Hd eq_refl eq_refl Hb ltac:(constructor)).
    destruct (bytewise _ d data []) as [d' [ds|e|]]; cbn; (split; [done|]); cbn; [done|done|].
    destruct Ho as (acc & _ & k & v & Hdel & Hp). specialize (Hrec acc k v Hdel). by rewrite Hp in Hrec.
Qed.

(** ** The reply to ADDRESS_REQUEST *)

Lemma assigned_wires_length l : Forall assigned_ok l -> (length (assigned_wires l) <= 26 * length l)%nat.
Proof.
  induction 1 as [|a l Ha _ IH]; [done|]. change (assigned_wires (a :: l)) with (assigned_wire a ++ assigned_wires l).
  rewrite length_app. cbn [length]. enough (length (assigned_wire a) <= 26)%nat by lia.
  unfold assigned_wire, octets. pose proof (wire_len_bounds (request_id a)).
  destruct (ip a); rewrite !length_app, length_wire, length_be_bytes; cbn; lia.
Qed.

Lemma assignment_ok id a : varint_ok id -> ipaddr_ok a -> assigned_ok (assignment id a).
Proof.
  unfold assigned_ok, byte_ok. destruct a as [z|z]; cbn; intros Hid Ha; split_and!; try done; try lia; exists z; lia.
Qed.

Lemma complete_snapshot_length lease assigned :
  (length (complete_snapshot lease assigned) <= length assigned + length lease)%nat.
Proof.
  revert assigned. induction lease as [|a lease IH]; intros assigned; cbn [complete_snapshot length]; [lia|].
  destruct (existsb _ assigned); [specialize (IH assigned)|specialize (IH (assigned ++ [assignment 0 a]))];
    rewrite ?length_app in *; cbn in *; lia.
Qed.

Lemma respond_encodes ids requests lease :
  (size (seen ids) <= MAX_ADDRESS_REQUEST_IDS)%nat -> Forall assigned_ok requests ->
  Forall ipaddr_ok lease -> zlen lease <= 65536 ->
  let '(ids', r) := respond ids requests lease in
  (size (seen ids') <= MAX_ADDRESS_REQUEST_IDS)%nat /\
  post r (fun reply => exists w, Capsule.encode (E:=Empty_set) reply [] = Ok w).
Proof.
  intros Hsz Hreq Hlease Hlen. unfold respond. case_bool_decide; [done|].
  rewrite bool_decide_false by lia. case_bool_decide as Hn; [done|].
  pose proof (record_ids_spec (seen ids) requests) as Hr.
  destruct (record_ids (seen ids) requests) as [seen' fresh]. destruct Hr as [Hsz' Hfr].
  destruct fresh; cbn [seen]; (split; [lia|]); [|done]. cbn [post].
  set (l := complete_snapshot _ _).
  assert (Forall assigned_ok l) as Hl.
  { unfold l. destruct (complete_snapshot_spec lease (CapsuleStream.answer lease <$> requests)) as (extra & -> & Hx & _).
    apply Forall_app. split.
    - apply Forall_fmap, Forall_forall. intros q Hq. cbn. rewrite Forall_forall in Hreq; rewrite Forall_forall in Hlease.
      destruct (answer_spec lease q) as [_ [(a & Ha & ->)| ->]]; apply assignment_ok; try apply (Hreq q Hq); [by apply Hlease|].
      unfold rejected. by destruct (ip q).
    - eapply Forall_impl; [exact Hx|]. intros e (a & Ha & ->). apply assignment_ok; [done|]. rewrite Forall_forall in Hlease. by apply Hlease. }
  exists (capsule_wire CAPSULE_ADDRESS_ASSIGN (assigned_wires l)). cbn [Capsule.encode].
  rewrite encode_assigned_addresses_Ok by done. cbn [mbind result_bind]. rewrite encode_raw_Ok; [done|done|].
  pose proof (assigned_wires_length l Hl). pose proof (complete_snapshot_length lease (CapsuleStream.answer lease <$> requests)) as Hc.
  fold l in Hc. rewrite length_fmap in Hc. unfold MAX_ADDRESS_REQUEST_IDS, MAX_VALUE in *. 
  unfold zlen in Hlen. lia.
Qed.

(** ** UDP batches *)

Lemma send_mmsg_np (send : list Message -> result Z nat) payloads gso : (forall ms, send ms <> Panic) -> TargetUdp.send_mmsg send payloads gso <> Panic.
Proof.
  intros Hs. unfold TargetUdp.send_mmsg, TargetUdp.send_mmsg_plain, TargetUdp.raw_send_mmsg. destruct (take _ payloads) as [|p ps] eqn:Hps; [done|].
  rewrite <- Hps. destruct (_ || _).
  - specialize (Hs (map (fun p => {| iov := [p]; udp_segment := None |}) (take TARGET_BATCH_SIZE (take TARGET_BATCH_SIZE payloads)))).
    by destruct (send _).
  - destruct (plan_send_spec (take TARGET_BATCH_SIZE payloads) true) as (gs & n & -> & _). cbn [mbind result_bind].
    match goal with |- context [send ?ms] => specialize (Hs ms); destruct (send ms) end; done.
Qed.

Lemma flush_to_target_ok at_ send resend t :
  stage_ok t -> (forall ms, send ms <> Panic) -> (forall ms, resend ms <> Panic) ->
  let '(t', r) := flush_to_target at_ send resend t in stage_ok t' /\ r <> Panic.
Proof.
  intros Hok Hs Hr. unfold flush_to_target. case_bool_decide as Hz; [done|].
  rewrite slice_Ok by (unfold stage_ok in Hok; lia).
  pose proof (send_mmsg_np send (take (UdpTunnel.staged t - 0) (drop 0 (send_stage t))) (udp_gso t) Hs) as H1.
  pose proof (send_mmsg_np resend (take (UdpTunnel.staged t - 0) (drop 0 (send_stage t))) false Hr) as H2.
  destruct (TargetUdp.send_mmsg send _ _) as [n|e|]; [| |done].
  - split; [unfold stage_ok; cbn; lia|done].
  - destruct (_ && _); (split; [unfold stage_ok; cbn; lia|]); [|done]. by destruct (TargetUdp.send_mmsg resend _ _).
Qed.

(** ** The capsules of an IP tunnel *)

Lemma setup_capsules_ok addresses :
  Forall ipaddr_ok addresses -> zlen addresses <= 65536 ->
  exists w, encode_ip_setup_capsules (E:=Empty_set) addresses = Ok w.
Proof.
  intros Hok Hlen. unfold encode_ip_setup_capsules. cbn [Capsule.encode].
  assert (Forall assigned_ok (to_capsule_address <$> addresses)) as Hl
    by (apply Forall_fmap; eapply Forall_impl; [exact Hok|]; apply to_capsule_address_ok).
  rewrite encode_assigned_addresses_Ok by done. cbn [mbind result_bind].
  pose proof (assigned_wires_length _ Hl) as Hw. rewrite length_fmap in Hw. unfold zlen in Hlen.
  rewrite encode_raw_Ok by (done || unfold MAX_VALUE; lia). cbn [mbind result_bind].
  destruct (default_routes_sendable 44 ltac:(lia)) as ((Hr & _) & _ & Hm).
  rewrite encode_address_ranges_Ok by done. cbn [mbind result_bind]. rewrite encode_raw_Ok; [eauto|done|done].
Qed.
