(* ===== verification/ClientLogic.v ===== *)
(** * What a connection keeps

    The promises the handlers rely on, of the QUIC library and of what is
    outside the connection; a weakest-precondition calculus for the handlers'
    monad; and the invariant of a connection with the lemmas that say which
    elementary changes keep it.

    The invariant counts, for every stream, the responses the library accepted
    and the places that may still answer it (tunnels in setup, requests waiting
    for a password check, pending error responses) together with what a running
    handler holds; the sum is at most one, and a stream that has any was opened
    by a request that is still remembered or whose stream is spent. *)

From stdpp Require Import list gmap strings.
From S2P Require Import Prelude Varint Net Policy Capsule CapsuleStream Datagram IpPacket Routing AddressPool.
From S2P Require Import ClientIdentity Lease Uri Auth Config Request TcpTunnel TargetUdp UdpTunnel Quiche QuicBatch.
From S2P Require Import Connection CapsuleIo CapsuleIoProps Client Handlers Relay Totality.
Open Scope Z_scope.

(** ** Observations *)

(** Header blocks the peer sent, and streams whose receiving side has ended. *)
Definition headers_of (e : event) : option (Z * list Header) :=
  match e with
  | Ev k a =>
      match k in call A return A -> option (Z * list Header) with
      | poll => fun a => match a with Ok (s, Headers hs) => Some (s, hs) | _ => None end
      | _ => fun _ => None
      end a
  end.
Definition ended_of (e : event) : option Z :=
  match e with
  | Ev k a =>
      match k in call A return A -> option Z with
      | poll => fun a => match a with Ok (s, Finished) | Ok (s, Reset_ _) => Some s | _ => None end
      | _ => fun _ => None
      end a
  end.

(** The credentials a request was checked against. *)
Definition auth_loaded (e : outside_event) : option (Z * (Authenticator * (Credential -> bytes -> bool))) :=
  match e with
  | Out ef a =>
      match ef in effect A return A -> option (Z * (Authenticator * (Credential -> bytes -> bool))) with
      | load_auth s => fun a => Some (s, a)
      | _ => fun _ => None
      end a
  end.

(** The addresses leased to a stream. *)
Definition leased_of (e : outside_event) : option (Z * list IpAddr) :=
  match e with
  | Out ef a =>
      match ef in effect A return A -> option (Z * list IpAddr) with
      | claim_addresses s _ => fun a => match a with Ok l => Some (s, l) | _ => None end
      | allocate_addresses s => fun l => Some (s, l)
      | _ => fun _ => None
      end a
  end.
Definition leased (w : list outside_event) (s : Z) (a : IpAddr) : Prop := exists l, (s, l) ∈ omap leased_of w /\ a ∈ l.

(** Calls that bring nothing in from the network. *)
Definition local_call {A} (k : call A) : bool :=
  match k with
  | now | send_response _ _ _ | send_body _ _ _ | recv_body _ _ | poll | stream_shutdown _ _ _ | close _ _
  | dgram_recv _ | dgram_send_buf _ => true
  | _ => false
  end.

(** ** Promises *)

Section promises.
Context `{HQ : Quiche}.

(** A stream whose end was reported, or that was reported closed. *)
Definition spent (s : Z) (q : conn) : Prop :=
  s ∈ omap ended_of q \/ exists q0, q0 `prefix_of` q /\ ask (stream_closed s) q0 = true.

(** The library: it does not panic; it delivers bytes; a header block arrives on
    a request stream, and on none whose end was reported; and what it has left
    to deliver, [work], shrinks with what it delivers and grows only with what
    arrives. *)
Class ConnectionLaws (work : conn -> nat) := {
  laws_body :: BodyLaws;
  send_response_panic : forall q s h f, answer _ q (send_response s h f) <> Panic;
  dgram_send_panic : forall q d, answer _ q (dgram_send_buf d) <> Panic;
  recv_body_post : forall q s n, post (answer _ q (recv_body s n)) bytes_ok;
  dgram_recv_post : forall q n, post (answer _ q (dgram_recv n)) bytes_ok;
  poll_post : forall q, post (answer _ q poll) (fun e =>
    match e.2 with Headers _ => Datagram.stream_ok e.1 /\ ~ spent e.1 q | _ => True end);
  work_local : forall A (k : call A) q, local_call k = true -> (work (exec k q) <= work q)%nat;
  work_poll : forall q x, answer _ q poll = Ok x -> (work (exec poll q) < work q)%nat;
  work_recv_body : forall q s n x, answer _ q (recv_body s n) = Ok x -> (work (exec (recv_body s n) q) < work q)%nat;
  work_dgram_recv : forall q n x, answer _ q (dgram_recv n) = Ok x -> (work (exec (dgram_recv n) q) < work q)%nat;
}.
End promises.

(** The world: leases are addresses, few of them, and system calls return. *)
Class OutsideLaws `{HO : Outside} := {
  claim_post : forall w s i, post (outside_answer _ w (claim_addresses s i))
    (fun l => Forall ipaddr_ok l /\ zlen l <= 65536);
  allocate_post : forall w s, Forall ipaddr_ok (outside_answer _ w (allocate_addresses s)) /\
    zlen (outside_answer _ w (allocate_addresses s)) <= 65536;
  socket_post : forall w s ms,
    (outside_answer _ w (udp_socket s)).1 ms <> Panic /\ (outside_answer _ w (udp_socket s)).2 ms <> Panic;
}.

(** ** Weakest preconditions *)

Definition wp {A} (m : M A) (Q : A -> Client -> Prop) (c : Client) : Prop := post (m c) (fun x => Q x.1 x.2).

Lemma wp_ret {A} (a : A) Q c : Q a c -> wp (mret a) Q c.
Proof. done. Qed.
Lemma wp_bind {A B} (m : M A) (f : A -> M B) Q c : wp m (fun a => wp (f a) Q) c -> wp (m ≫= f) Q c.
Proof. unfold wp, mbind, M_bind. by destruct (m c) as [[a c']|e|]. Qed.
Lemma wp_mono {A} (m : M A) (P Q : A -> Client -> Prop) c : wp m P c -> (forall a c', P a c' -> Q a c') -> wp m Q c.
Proof. unfold wp. intros H HPQ. eapply post_mono; [done|]. intros [a c']. apply HPQ. Qed.
Lemma wp_gets {A} (f : Client -> A) Q c : Q (f c) c -> wp (gets f) Q c.
Proof. done. Qed.
Lemma wp_modify f Q c : Q tt (f c) -> wp (modify f) Q c.
Proof. done. Qed.
Lemma wp_pass Q c : Q tt c -> wp pass Q c.
Proof. done. Qed.
Lemma wp_lift {E A} (r : result E A) a Q c : r = Ok a -> Q a c -> wp (lift r) Q c.
Proof. by intros ->. Qed.

Lemma wp_each {A} (f : A -> M unit) l (I : list A -> Client -> Prop) Q c :
  (forall a l' c, a ∈ l -> I (a :: l') c -> wp (f a) (fun _ => I l') c) ->
  I l c -> (forall c', I [] c' -> Q tt c') -> wp (each f l) Q c.
Proof.
  intros Hf HI HQ. assert (forall l', l' ⊆ l -> forall c, I l' c -> wp (each f l') Q c) as H; [|by apply (H l)].
  clear HI c. induction l' as [|a l' IH]; intros Hsub c HI; [by apply HQ|]. cbn [each]. apply wp_bind.
  eapply wp_mono; [apply Hf; [apply Hsub; by left|exact HI]|]. intros [] c' HI'. apply IH; [|done].
  intros x Hx. apply Hsub. by right.
Qed.

Lemma wp_repeating {L R} (measure : L -> Client -> nat) (body : L -> M (L + R)) (I : L -> Client -> Prop) Q l c :
  (forall l c, I l c -> wp (body l) (fun r c' =>
     match r with inl l' => I l' c' /\ (measure l' c' < measure l c)%nat | inr a => Q a c' end) c) ->
  I l c -> wp (repeating measure body l) Q c.
Proof.
  intros Hb HI. unfold wp, repeating. apply (post_while_inv _ _ (fun s => I s.1 s.2)); [|done].
  intros [l' c'] HI'. specialize (Hb l' c' HI'). unfold wp in Hb. cbn [fst snd].
  destruct (body l' c') as [[[l2|r] c2]|e|]; done.
Qed.

Section calls.
Context `{HQ : Quiche} `{HO : Outside}.

Lemma wp_call {A} (k : call A) Q c : Q (answer A (quic c) k) (c <| quic := exec k (quic c) |>) -> wp (call_ k) Q c.
Proof. done. Qed.
Lemma wp_query {A} (k : query A) Q c : Q (ask k (quic c)) c -> wp (query_ k) Q c.
Proof. done. Qed.
Lemma wp_perform {A} (e : effect A) Q c :
  Q (outside_answer A (world c) e) (c <| world := world c ++ [Out e (outside_answer A (world c) e)] |>) -> wp (perform e) Q c.
Proof. done. Qed.
Lemma wp_with_io {A} (f : CapsuleIo -> result Empty_set (A * CapsuleIo)) Q c :
  post (f (io c)) (fun x => Q x.1 (c <| io := x.2 |>)) -> wp (with_io f) Q c.
Proof. unfold wp, with_io. by destruct (f (io c)) as [[a i]|e|]. Qed.
Lemma wp_with_io_quic {A} (f : CapsuleIo -> conn -> result Empty_set (A * (CapsuleIo * conn))) Q c :
  post (f (io c) (quic c)) (fun x => Q x.1 (c <| io := x.2.1 |> <| quic := x.2.2 |>)) -> wp (with_io_quic f) Q c.
Proof. unfold wp, with_io_quic. by destruct (f (io c) (quic c)) as [[a [i q]]|e|]. Qed.
End calls.

(** ** What an effect needs *)

(** What the handlers of a connection are run with: the base64 decoder, the
    configuration, whether credentials are checked, the outcome of a password
    check, the destinations CONNECT-IP may reach and the connection's number. *)
Record Env := {
  env_decode : bytes -> option bytes;
  env_config : ServerConfig;
  env_auth : bool;
  env_verify : Credential -> bytes -> bool;
  env_allowed : IpAddr -> bool;
  env_index : Z;
}.

Section justified.
Context (E : Env).
Implicit Types (w : list outside_event) (q : conn).

(** The request of a stream, and what its credentials came to. *)
Definition request_of (q : conn) (s : Z) (r : ConnectRequest) (hs : list Header) : Prop :=
  (s, hs) ∈ omap headers_of q /\ classify (scan_headers hs) (env_config E) = Some r.
Definition checked (w : list outside_event) (s : Z) (hs : list Header) (p : AuthPrecheck) : Prop :=
  duplicate_proxy_authorization (scan_headers hs) = false /\
  exists a, (s, a) ∈ omap auth_loaded w /\
    precheck (env_decode E) a.1 a.2 (proxy_authorization (scan_headers hs)) = p.

(** A request whose password has to be verified. *)
Definition prechecked w q (s : Z) (r : ConnectRequest) (credential : Credential) (password : bytes) : Prop :=
  exists hs, request_of q s r hs /\ checked w s hs (NeedsVerify credential password).
(** A request that may be served: credentials are not checked, or its own
    credentials were known to be good, or were verified. *)
Definition authorised w q (s : Z) (r : ConnectRequest) : Prop :=
  exists hs, request_of q s r hs /\
    (env_auth E = true ->
     checked w s hs Authenticated \/
     exists credential password, checked w s hs (NeedsVerify credential password) /\ env_verify E credential password = true).

Definition tcp_authorised w q (s : Z) (t : UdpTarget) : Prop :=
  exists a, authorised w q s (RequestTcp a) /\ parse_connect_authority a = Ok t.
Definition udp_authorised w q (s : Z) (t : UdpTarget) : Prop :=
  exists p, authorised w q s (RequestUdp p) /\ parse_udp_path p (str (udp_uri_template (udp_proxy (env_config E)))) = Ok t.
Definition ip_authorised w q (s : Z) : Prop :=
  exists p standard valid, authorised w q s (RequestIp p standard valid) /\
    prepare_connect_ip p standard valid (env_config E) = Ok tt.

(** A packet that may leave through the TUN device. *)
Definition egress w (s : Z) (packet : bytes) : Prop :=
  exists info, IpPacket.parse packet = Ok info /\ leased w s (src info) /\
    env_allowed E (dst info) = true /\ has_safe_routing packet = Ok (E:=ParseError) true.

Definition justified w q (e : outside_event) : Prop :=
  match e with
  | Out ef _ =>
      match ef with
      | spawn_verify s credential password r _ => prechecked w q s r credential password
      | spawn_tcp_connect s t => tcp_authorised w q s t
      | spawn_udp_setup s t => udp_authorised w q s t
      | claim_addresses s _ | allocate_addresses s => ip_authorised w q s
      | insert_route a o => conn_id o = env_index E /\ leased w (Routing.stream_id o) a
      | tun_push s packet => egress w s packet
      | _ => True
      end
  end.

Definition world_ok w q : Prop := forall i e, w !! i = Some e -> justified (take i w) q e.

(** Histories only grow. *)
Lemma checked_mono w w' s hs p : w `prefix_of` w' -> checked w s hs p -> checked w' s hs p.
Proof.
  intros [k ->] (Hd & a & Ha & Hp). split; [done|]. exists a. rewrite omap_app, elem_of_app. tauto.
Qed.
Lemma request_mono q q' s r hs : q `prefix_of` q' -> request_of q s r hs -> request_of q' s r hs.
Proof. intros [k ->] [H1 H2]. split; [|done]. rewrite omap_app, elem_of_app. tauto. Qed.
Lemma authorised_mono w w' q q' s r :
  w `prefix_of` w' -> q `prefix_of` q' -> authorised w q s r -> authorised w' q' s r.
Proof.
  intros Hw Hq (hs & Hr & Ha). exists hs. split; [by eapply request_mono|]. intros He.
  destruct (Ha He) as [?|(cr & pw & ? & ?)]; [left|right]; eauto using checked_mono.
Qed.
Lemma prechecked_mono w w' q q' s r cr pw :
  w `prefix_of` w' -> q `prefix_of` q' -> prechecked w q s r cr pw -> prechecked w' q' s r cr pw.
Proof. intros Hw Hq (hs & ? & ?). exists hs. eauto using checked_mono, request_mono. Qed.
Lemma ip_authorised_mono w w' q q' s :
  w `prefix_of` w' -> q `prefix_of` q' -> ip_authorised w q s -> ip_authorised w' q' s.
Proof. intros Hw Hq (p & st & v & ? & ?). exists p, st, v. eauto using authorised_mono. Qed.
Lemma tcp_authorised_mono w w' q q' s t :
  w `prefix_of` w' -> q `prefix_of` q' -> tcp_authorised w q s t -> tcp_authorised w' q' s t.
Proof. intros Hw Hq (a & ? & ?). exists a. eauto using authorised_mono. Qed.
Lemma udp_authorised_mono w w' q q' s t :
  w `prefix_of` w' -> q `prefix_of` q' -> udp_authorised w q s t -> udp_authorised w' q' s t.
Proof. intros Hw Hq (a & ? & ?). exists a. eauto using authorised_mono. Qed.
Lemma leased_mono w w' s a : w `prefix_of` w' -> leased w s a -> leased w' s a.
Proof. intros [k ->] (l & ? & ?). exists l. rewrite omap_app, elem_of_app. tauto. Qed.

Lemma justified_quic w q q' e : q `prefix_of` q' -> justified w q e -> justified w q' e.
Proof.
  destruct e as [A ef a]. intros Hq. assert (w `prefix_of` w) as Hw by done.
  destruct ef; cbn; eauto using prechecked_mono, tcp_authorised_mono, udp_authorised_mono, ip_authorised_mono.
Qed.
Lemma world_ok_quic w q q' : q `prefix_of` q' -> world_ok w q -> world_ok w q'.
Proof. intros Hq Hw i e He. eapply justified_quic; eauto. Qed.
Lemma world_ok_snoc w q e : world_ok w q -> justified w q e -> world_ok (w ++ [e]) q.
Proof.
  intros Hw He i x [[Hlt Hi]|[-> <-]]%lookup_snoc_Some.
  - rewrite take_app_le by lia. by apply Hw.
  - by rewrite take_app_length.
Qed.
End justified.

(** ** The invariant *)

Definition present {A} (m : gmap Z A) (s : Z) : nat := match m !! s with Some _ => 1 | None => 0 end.
Definition occ (s : Z) (l : list Z) : nat := length (filter (fun x => x = s) l).

(** Responses a stream got or may still get. *)
Definition load (s : Z) (c : Client) : nat :=
  (length (accepted s (quic c)) + present (pending_tcp_tunnels c) s + present (pending_udp_tunnels c) s
   + present (pending_ip_responses c) s + present (awaiting_auth c) s + present (pending_error_responses c) s)%nat.

Definition resp_ok (r : PendingTcpResponse) : Prop := 0 <= resp_offset r <= zlen (resp_data r).

(** A capsule reader between two reads. *)
Definition capsule_reader_ok (x : CapsuleStream) : Prop :=
  decoder_ok (cs_decoder x) /\
  (is_ip (cs_decoder x) = true -> exists ids, address_requests x = Some ids /\ (size (seen ids) <= MAX_ADDRESS_REQUEST_IDS)%nat).

Definition ip_tunnel_ok (w : list outside_event) (s : Z) (t : IpTunnel) : Prop :=
  (forall E, exists b, as_bytes (E:=E) (Lease.header t) = Ok b) /\
  Forall ipaddr_ok (assigned_addrs t) /\ zlen (assigned_addrs t) <= 65536 /\
  (forall a, a ∈ assigned_addrs t -> leased w s a).

Definition received_ok (i : CapsuleIo) : Prop :=
  received_capsule_bytes i = sum_of zlen (received_capsules i) /\ Forall bytes_ok (received_capsules i) /\
  zlen (received_capsules i) <= MAX_RECEIVED_PACKETS /\ received_capsule_bytes i <= MAX_RECEIVED_BYTES /\
  NoDup (finished_capsules i).

#[global] Arguments accepted : simpl never.
#[global] Arguments present : simpl never.
#[global] Arguments occ : simpl never.
#[global] Arguments load : simpl never.
#[global] Arguments spent : simpl never.
#[global] Arguments exec : simpl never.

(** While a handler runs: streams whose body did not parse and that are about to
    be closed, and answered streams whose capsules are about to be opened. *)
Record Ghost := { bad_streams : list Z; fresh_streams : list Z }.
Definition settled_ghost : Ghost := {| bad_streams := []; fresh_streams := [] |}.

Section invariant.
Context `{HQ : Quiche} (E : Env).

(** [held]: streams the running handler may still answer. *)
Record conn_inv (held : list Z) (g : Ghost) (c : Client) : Prop := {
  ci_io : io_ok (io c);
  ci_capsules : forall s x, capsule_streams (io c) !! s = Some x -> (1 <= length (accepted s (quic c)))%nat;
  ci_readers : forall s x, capsule_streams (io c) !! s = Some x -> s ∉ bad_streams g -> capsule_reader_ok x;
  ci_fresh : forall s, s ∈ fresh_streams g -> capsule_streams (io c) !! s = None /\ (1 <= length (accepted s (quic c)))%nat;
  ci_received : received_ok (io c);
  ci_pending_tcp : forall s p, pending_tcp_tunnels c !! s = Some p -> pending_tunnel_ok p;
  ci_tcp : forall s t, tcp_tunnels c !! s = Some t -> Forall resp_ok (pending_responses t);
  ci_udp : forall s t, udp_tunnels c !! s = Some t -> stage_ok t;
  ci_ip : forall s t, ip_tunnels c !! s = Some t -> ip_tunnel_ok (world c) s t;
  ci_pending_ip : forall s t, pending_ip_responses c !! s = Some t -> ip_authorised E (world c) (quic c) s;
  ci_load : forall s, (load s c + occ s held <= 1)%nat;
  ci_known : forall s, (1 <= load s c + occ s held)%nat ->
    Datagram.stream_ok s /\ (s ∈ request_headers_seen c \/ spent s (quic c));
  ci_world : world_ok E (world c) (quic c);
  ci_index : index c = env_index E;
  ci_seen : (size (request_headers_seen c) <= MAX_REQUEST_STREAMS)%nat;
  ci_awaiting : (size (awaiting_auth c) <= MAX_PENDING_AUTH_PER_CONNECTION)%nat;
  ci_errors : (size (pending_error_responses c) <= MAX_PENDING_ERROR_RESPONSES)%nat;
}.

Implicit Types (held : list Z) (g : Ghost) (c : Client).

Lemma spent_mono s q q' : q `prefix_of` q' -> spent s q -> spent s q'.
Proof.
  intros Hq [Hs|(q0 & Hp & Hc)].
  - left. destruct Hq as [k ->]. rewrite omap_app, elem_of_app. by left.
  - right. exists q0. split; [by etrans|done].
Qed.

Lemma occ_cons s x l : occ s (x :: l) = ((if decide (x = s) then 1 else 0) + occ s l)%nat.
Proof. unfold occ. rewrite filter_cons. by destruct (decide (x = s)). Qed.
Lemma occ_app s l k : occ s (l ++ k) = (occ s l + occ s k)%nat.
Proof. unfold occ. by rewrite filter_app, length_app. Qed.

Lemma present_insert {A} (m : gmap Z A) i x s :
  present (<[i := x]> m) s = if decide (i = s) then 1%nat else present m s.
Proof. unfold present. rewrite lookup_insert. by destruct (decide (i = s)). Qed.
Lemma present_delete {A} (m : gmap Z A) i s : present (delete i m) s = if decide (i = s) then 0%nat else present m s.
Proof. unfold present. rewrite lookup_delete. by destruct (decide (i = s)). Qed.
Lemma present_alter {A} (f : A -> A) (m : gmap Z A) i s : present (alter f i m) s = present m s.
Proof. unfold present. rewrite lookup_alter. destruct (decide (i = s)) as [->|]; [by destruct (m !! s)|done]. Qed.
Lemma present_Some {A} (m : gmap Z A) i x : m !! i = Some x -> present m i = 1%nat.
Proof. unfold present. by intros ->. Qed.
Lemma present_None {A} (m : gmap Z A) i : m !! i = None -> present m i = 0%nat.
Proof. unfold present. by intros ->. Qed.
Lemma present_le {A} (m : gmap Z A) i : (present m i <= 1)%nat.
Proof. unfold present. destruct (m !! i); lia. Qed.

(** The running handler may give up what it holds. *)
Lemma inv_drop held held' g c :
  conn_inv held g c -> (forall s, (occ s held' <= occ s held)%nat) -> conn_inv held' g c.
Proof.
  intros [] Hle. split; try done; intros s; specialize (Hle s); specialize (ci_load0 s); specialize (ci_known0 s); [lia|].
  intros. apply ci_known0. lia.
Qed.

(** ** Calls of the library *)

Lemma quiet_count s q new : quiet new -> accepted s (q ++ new) = accepted s q.
Proof. intros Hn. by rewrite accepted_app, (quiet_accepted s new Hn), app_nil_r. Qed.

Lemma inv_quiet_calls held g c new :
  conn_inv held g c -> quiet new -> conn_inv held g (c <| quic := quic c ++ new |>).
Proof.
  intros [] Hn. assert (quic c `prefix_of` quic c ++ new) as Hp by by eexists.
  split; cbn; try done; unfold load in *; cbn.
  - intros s x. rewrite quiet_count by done. eauto.
  - intros s. rewrite quiet_count by done. eauto.
  - intros s t Ht. eapply ip_authorised_mono; eauto.
  - intros s. rewrite quiet_count by done. eauto.
  - intros s. rewrite quiet_count by done. intros [? ?]%ci_known0. split; [done|]. naive_solver eauto using spent_mono.
  - by eapply world_ok_quic.
Qed.

(** A response the library took is paid for. *)
Lemma inv_answered held g c s hs fin new :
  conn_inv (s :: held) g c -> omap accepted_response new = [(s, hs, fin)] ->
  conn_inv held g (c <| quic := quic c ++ new |>).
Proof.
  intros [] Hn. assert (quic c `prefix_of` quic c ++ new) as Hp by by eexists.
  assert (forall s', length (accepted s' (quic c ++ new)) = (length (accepted s' (quic c)) + if decide (s = s') then 1 else 0)%nat) as Hacc.
  { intros s'. rewrite accepted_app, length_app. f_equal. unfold accepted. rewrite Hn, filter_cons. cbn.
    by destruct (decide (s = s')). }
  split; cbn; try done; unfold load in *; cbn.
  - intros s' x Hx. rewrite Hacc. specialize (ci_capsules0 s' x Hx). lia.
  - intros s' Hf. rewrite Hacc. destruct (ci_fresh0 s' Hf). split; [done|lia].
  - intros s' t Ht. eapply ip_authorised_mono; eauto.
  - intros s'. specialize (ci_load0 s'). rewrite occ_cons in ci_load0. rewrite Hacc. lia.
  - intros s'. specialize (ci_known0 s'). rewrite occ_cons in ci_known0. rewrite Hacc. intros Hle.
    destruct ci_known0 as [? ?]; [lia|]. split; [done|]. naive_solver eauto using spent_mono.
  - by eapply world_ok_quic.
Qed.

Lemma inv_world held g c e :
  conn_inv held g c -> justified E (world c) (quic c) e -> conn_inv held g (c <| world := world c ++ [e] |>).
Proof.
  intros [] He. assert (world c `prefix_of` world c ++ [e]) as Hp by by eexists.
  split; cbn; try done.
  - intros s t (H1 & H2 & H3 & H4)%ci_ip0. split_and!; try done. intros a Ha. eapply leased_mono; eauto.
  - intros s t Ht. eapply ip_authorised_mono; eauto.
  - by apply world_ok_snoc.
Qed.

(** ** Changes of a field *)

(** Fields the invariant does not read. *)
Lemma inv_resumes held g c r : conn_inv held g c -> conn_inv held g (c <| tcp_read_resumes := r |>).
Proof. by intros []. Qed.
Lemma inv_deadline held g c d : conn_inv held g c -> conn_inv held g (c <| first_auth_deadline := d |>).
Proof. by intros []. Qed.
Lemma inv_budgets held g c b : conn_inv held g c -> conn_inv held g (c <| Client.budgets := b |>).
Proof. by intros []. Qed.
Lemma inv_flags held g c f : conn_inv held g c -> conn_inv held g (c <| flags := f |>).
Proof. by intros []. Qed.

(** Counting: what a changed map adds is paid for by what is held. *)
Ltac count :=
  let s := fresh "s" in
  intros s;
  repeat match goal with
  | H : forall s, (load s _ + occ s _ <= 1)%nat |- _ => specialize (H s)
  | H : forall s, (1 <= load s _ + occ s _)%nat -> _ |- _ => specialize (H s)
  end;
  unfold load in *; cbn in *;
  rewrite ?present_insert, ?present_delete, ?present_alter, ?occ_cons, ?occ_app in *;
  repeat match goal with
  | H : ?m !! ?i = Some ?x |- _ => pose proof (present_Some m i x H); clear H
  end;
  repeat match goal with
  | H : context [decide (?a = ?b)] |- _ => destruct (decide (a = b)); subst
  | |- context [decide (?a = ?b)] => destruct (decide (a = b)); subst
  end;
  repeat match goal with
  | |- context [present ?m ?i] => lazymatch goal with
       | _ : (present m i <= 1)%nat |- _ => fail
       | _ => pose proof (present_le m i)
       end
  end;
  first [lia | intros; match goal with H : _ -> Datagram.stream_ok _ /\ _ |- _ => apply H; lia end].

Lemma inv_tcp_map held g c m :
  conn_inv held g c -> (forall s t, m !! s = Some t -> Forall resp_ok (pending_responses t)) ->
  conn_inv held g (c <| tcp_tunnels := m |>).
Proof. by intros []. Qed.
Lemma inv_udp_map held g c m :
  conn_inv held g c -> (forall s t, m !! s = Some t -> stage_ok t) -> conn_inv held g (c <| udp_tunnels := m |>).
Proof. by intros []. Qed.
Lemma inv_ip_map held g c m :
  conn_inv held g c -> (forall s t, m !! s = Some t -> ip_tunnel_ok (world c) s t) ->
  conn_inv held g (c <| ip_tunnels := m |>).
Proof. by intros []. Qed.

Lemma inv_pending_tcp_put held g c s p :
  conn_inv (s :: held) g c -> pending_tunnel_ok p ->
  conn_inv held g (c <| Client.pending_tcp_tunnels := <[s := p]> (Client.pending_tcp_tunnels c) |>).
Proof.
  intros [] Hp. split; cbn; try done; try count.
  intros s' p' [[<- <-]|[_ ?]]%lookup_insert_Some; eauto.
Qed.
Lemma inv_pending_tcp_set held g c s p0 p :
  conn_inv held g c -> Client.pending_tcp_tunnels c !! s = Some p0 -> pending_tunnel_ok p ->
  conn_inv held g (c <| Client.pending_tcp_tunnels := <[s := p]> (Client.pending_tcp_tunnels c) |>).
Proof.
  intros [] Hs Hp. split; cbn; try done; try count.
  intros s' p' [[<- <-]|[_ ?]]%lookup_insert_Some; eauto.
Qed.
Lemma inv_pending_tcp_del held g c s :
  conn_inv held g c ->
  conn_inv (match Client.pending_tcp_tunnels c !! s with Some _ => s :: held | None => held end) g
    (c <| Client.pending_tcp_tunnels := delete s (Client.pending_tcp_tunnels c) |>).
Proof.
  intros []. destruct (Client.pending_tcp_tunnels c !! s) as [p|] eqn:Hs; split; cbn; try done; try count;
  intros s' p' [_ ?]%lookup_delete_Some; eauto.
Qed.

Lemma inv_pending_udp_put held g c s p :
  conn_inv (s :: held) g c ->
  conn_inv held g (c <| Client.pending_udp_tunnels := <[s := p]> (Client.pending_udp_tunnels c) |>).
Proof. intros []. split; cbn; try done; try count. Qed.
Lemma inv_pending_udp_set held g c s p0 p :
  conn_inv held g c -> Client.pending_udp_tunnels c !! s = Some p0 ->
  conn_inv held g (c <| Client.pending_udp_tunnels := <[s := p]> (Client.pending_udp_tunnels c) |>).
Proof. intros [] Hs. split; cbn; try done; try count. Qed.
Lemma inv_pending_udp_del held g c s :
  conn_inv held g c ->
  conn_inv (match Client.pending_udp_tunnels c !! s with Some _ => s :: held | None => held end) g
    (c <| Client.pending_udp_tunnels := delete s (Client.pending_udp_tunnels c) |>).
Proof. intros []. destruct (Client.pending_udp_tunnels c !! s) as [p|] eqn:Hs; split; cbn; try done; try count. Qed.

Lemma inv_pending_ip_put held g c s t :
  conn_inv (s :: held) g c -> ip_authorised E (world c) (quic c) s ->
  conn_inv held g (c <| pending_ip_responses := <[s := t]> (pending_ip_responses c) |>).
Proof.
  intros [] Ha. split; cbn; try done; try count. intros s' p' [[<- <-]|[_ ?]]%lookup_insert_Some; eauto.
Qed.
Lemma inv_pending_ip_del held g c s :
  conn_inv held g c ->
  conn_inv (match pending_ip_responses c !! s with Some _ => s :: held | None => held end) g
    (c <| pending_ip_responses := delete s (pending_ip_responses c) |>).
Proof.
  intros []. destruct (pending_ip_responses c !! s) as [p|] eqn:Hs; split; cbn; try done; try count;
  intros s' p' [_ ?]%lookup_delete_Some; eauto.
Qed.
Lemma inv_pending_ip_alter held g c s f :
  conn_inv held g c -> conn_inv held g (c <| pending_ip_responses := alter f s (pending_ip_responses c) |>).
Proof.
  intros []. split; cbn; try done; try count.
  intros s' p'. rewrite lookup_alter. case_decide; [|eauto]. subst. intros (? & ? & _)%fmap_Some. eauto.
Qed.

Lemma inv_awaiting_put held g c s a :
  conn_inv (s :: held) g c -> (size (Client.awaiting_auth c) < MAX_PENDING_AUTH_PER_CONNECTION)%nat ->
  conn_inv held g (c <| Client.awaiting_auth := <[s := a]> (Client.awaiting_auth c) |>).
Proof.
  intros [] Ha. split; cbn; try done; try count. rewrite map_size_insert. destruct (_ !! s); cbn; lia.
Qed.
Lemma inv_awaiting_set held g c s a0 a :
  conn_inv held g c -> Client.awaiting_auth c !! s = Some a0 ->
  conn_inv held g (c <| Client.awaiting_auth := <[s := a]> (Client.awaiting_auth c) |>).
Proof.
  intros [] Ha. split; cbn; try done; try count. by rewrite map_size_insert, Ha.
Qed.
Lemma inv_awaiting_del held g c s :
  conn_inv held g c ->
  conn_inv (match Client.awaiting_auth c !! s with Some _ => s :: held | None => held end) g
    (c <| Client.awaiting_auth := delete s (Client.awaiting_auth c) |>).
Proof.
  intros []. assert (size (delete s (Client.awaiting_auth c)) <= size (Client.awaiting_auth c))%nat by (rewrite map_size_delete; destruct (_ !! s); cbn; lia).
  destruct (Client.awaiting_auth c !! s) as [p|] eqn:Hs; split; cbn; try done; try count; lia.
Qed.

(** Streams are forgotten only when they are spent, and remembered with a
    request that may be answered. *)
Lemma inv_seen_sub held g c seen' :
  conn_inv held g c -> seen' ⊆ request_headers_seen c ->
  (forall s, s ∈ request_headers_seen c -> s ∉ seen' -> spent s (quic c)) ->
  conn_inv held g (c <| request_headers_seen := seen' |>).
Proof.
  intros [] Hsub Hs. split; cbn; try done; try count.
  - intros s Hl. specialize (ci_known0 s Hl) as [? [Hin|?]]; (split; [done|]); [|by right].
    destruct (decide (s ∈ seen')); [by left|right; auto].
  - etrans; [by apply subseteq_size|done].
Qed.
Lemma inv_seen_add held g c s :
  conn_inv held g c -> s ∉ request_headers_seen c -> (load s c + occ s held = 0)%nat -> Datagram.stream_ok s ->
  (size (request_headers_seen c) < MAX_REQUEST_STREAMS)%nat ->
  conn_inv (s :: held) g (c <| request_headers_seen := {[s]} ∪ request_headers_seen c |>).
Proof.
  intros [] Hin H0 Hok Hsz. split; cbn; try done.
  - intros s'. change (load s' _) with (load s' c). rewrite occ_cons. specialize (ci_load0 s'). case_decide; subst; lia.
  - intros s'. change (load s' _) with (load s' c). rewrite occ_cons. case_decide; subst.
    + intros _. split; [done|]. left. set_solver.
    + intros Hl. destruct (ci_known0 s') as [? [?|?]]; [lia|..]; (split; [done|]); [left; set_solver|by right].
  - rewrite size_union by set_solver. rewrite size_singleton. lia.
Qed.

(** A stream that is neither remembered nor spent waits for no answer. *)
Lemma inv_unknown held g c s :
  conn_inv held g c -> ~ spent s (quic c) -> s ∈ request_headers_seen c \/ (load s c + occ s held = 0)%nat.
Proof.
  intros [] Hs. destruct (decide (load s c + occ s held = 0)%nat); [by right|]. destruct (ci_known0 s) as [_ [?|?]]; [lia|by left|done].
Qed.

(** Capsule streams are changed or dropped. *)
Lemma inv_io held g g' c i :
  conn_inv held g c -> io_ok i -> received_ok i ->
  fresh_streams g' = fresh_streams g ->
  (forall s x, capsule_streams i !! s = Some x ->
     is_Some (capsule_streams (io c) !! s) /\ (s ∉ bad_streams g' -> capsule_reader_ok x)) ->
  conn_inv held g' (c <| io := i |>).
Proof.
  intros [] Hi Hr Hg Hs. split; cbn; try done.
  - intros s x Hx. destruct (Hs s x Hx) as [[y Hy] _]. eauto.
  - intros s x Hx. by destruct (Hs s x Hx).
  - rewrite Hg. intros s Hf. destruct (ci_fresh0 s Hf) as [Hn ?]. split; [|done].
    destruct (capsule_streams i !! s) as [x|] eqn:Hx; [|done]. destruct (Hs s x Hx) as [[y Hy] _]. congruence.
Qed.

Lemma inv_io_same held g c i :
  conn_inv held g c -> io_ok i -> same_received (io c) i -> same_readers (io c) i -> conn_inv held g (c <| io := i |>).
Proof.
  intros Hc Hi (R1 & R2 & R3) Hs. eapply inv_io; [done|done| |done|].
  - destruct (ci_received _ _ _ Hc) as (? & ? & ? & ? & ?). unfold received_ok. rewrite R1, R2. auto 6.
  - intros s x' Hx. destruct (Hs s x' Hx) as (x & Hx0 & Hd & Ha). split; [eauto|]. intros Hb.
    unfold capsule_reader_ok. rewrite Hd, Ha. by eapply ci_readers.
Qed.

(** The error responses: what is sent or queued is paid for. *)
Lemma inv_error_map held g c extra m new :
  conn_inv (extra ++ held) g c ->
  (forall s, (length (accepted s (quic c ++ new)) + present m s
    <= length (accepted s (quic c)) + present (pending_error_responses c) s + occ s extra)%nat) ->
  (size m <= MAX_PENDING_ERROR_RESPONSES)%nat ->
  conn_inv held g (c <| pending_error_responses := m |> <| quic := quic c ++ new |>).
Proof.
  intros [] Hle Hsz. assert (quic c `prefix_of` quic c ++ new) as Hp by by eexists.
  split; cbn; try done; unfold load in *; cbn.
  - intros s x Hx. rewrite accepted_app, length_app. specialize (ci_capsules0 s x Hx). lia.
  - intros s Hf. rewrite accepted_app, length_app. destruct (ci_fresh0 s Hf). split; [done|lia].
  - intros s t Ht. eapply ip_authorised_mono; eauto.
  - intros s. specialize (Hle s). specialize (ci_load0 s). rewrite occ_app in ci_load0. lia.
  - intros s Hl. specialize (Hle s). destruct (ci_known0 s) as [? ?]; [rewrite occ_app; lia|].
    split; [done|]. naive_solver eauto using spent_mono.
  - by eapply world_ok_quic.
Qed.

(** A stream about to be closed may be anything. *)
Lemma inv_more_bad held g g' c :
  conn_inv held g c -> bad_streams g ⊆ bad_streams g' -> fresh_streams g' = fresh_streams g -> conn_inv held g' c.
Proof. intros [] Hb Hf. split; try done; [|by rewrite Hf]. intros s x Hx Hn. eapply ci_readers0; [done|]. set_solver. Qed.

(** ** Opening a capsule stream *)

Definition add_fresh (s : Z) (g : Ghost) : Ghost := {| bad_streams := bad_streams g; fresh_streams := s :: fresh_streams g |}.

Lemma inv_unanswered s held g c : conn_inv (s :: held) g c -> capsule_streams (io c) !! s = None /\ s ∉ fresh_streams g /\ accepted s (quic c) = [].
Proof.
  intros []. specialize (ci_load0 s). rewrite occ_cons, decide_True in ci_load0 by done. unfold load in ci_load0.
  assert (length (accepted s (quic c)) = 0)%nat as H0 by lia. split_and!; [| |by apply nil_length_inv].
  - destruct (capsule_streams (io c) !! s) as [x|] eqn:Hx; [|done]. specialize (ci_capsules0 s x Hx). lia.
  - intros Hf. destruct (ci_fresh0 s Hf). lia.
Qed.

Lemma inv_open held g c s x :
  conn_inv held (add_fresh s g) c -> s ∉ fresh_streams g -> unused x -> capsule_reader_ok x ->
  conn_inv held g (c <| io := put_stream s x (io c) |>).
Proof.
  intros [] Hs Hu Hr. destruct (ci_fresh0 s) as [Hn Ha]; [by left|]. split; cbn; try done.
  - by apply open_io.
  - intros s' x' [[<- <-]|[_ ?]]%lookup_insert_Some; eauto.
  - intros s' x' [[<- <-]|[_ ?]]%lookup_insert_Some; eauto.
  - intros s' Hf. destruct (ci_fresh0 s') as [? ?]; [by right|]. split; [|done]. rewrite lookup_insert_ne; [done|]. by intros ->.
Qed.
Lemma inv_drop_fresh held g c s : conn_inv held (add_fresh s g) c -> conn_inv held g c.
Proof. intros []. split; try done. intros s' Hf. apply ci_fresh0. by right. Qed.
End invariant.
