(* ===== verification/HandlersInv.v ===== *)
(** * The handlers keep the invariant

    Every operation of [Client.v] and [Handlers.v] ends without a panic, keeps
    the invariant of [ClientLogic.v], pays for the responses it sends or
    promises, and leaves no more work with the library than it found. *)

From stdpp Require Import list gmap strings sorting.
From S2P Require Import Prelude Varint Net Policy Capsule CapsuleStream Datagram IpPacket Routing AddressPool.
From S2P Require Import ClientIdentity Lease Uri Auth Config Request TcpTunnel TargetUdp UdpTunnel Quiche QuicBatch.
From S2P Require Import Connection CapsuleIo CapsuleIoProps Client Handlers Relay Totality ClientLogic.
Open Scope Z_scope.

(** ** Runs of local calls *)

Section runs.
Context `{HQ : Quiche}.

Definition runs : relation conn := rtc (fun q q' => exists A (k : call A), local_call k = true /\ q' = exec k q).

Lemma runs_exec {A} (k : call A) q : local_call k = true -> runs q (exec k q).
Proof. intros Hk. apply rtc_once. eauto. Qed.
Lemma runs_prefix q q' : runs q q' -> exists new, q' = q ++ new.
Proof.
  induction 1 as [q|q q1 q2 (A & k & _ & ->) _ (new & ->)]; [exists []; by rewrite app_nil_r|].
  rewrite exec_trace, <- app_assoc. by eexists.
Qed.
Lemma runs_work work `{!ConnectionLaws work} q q' : runs q q' -> (work q' <= work q)%nat.
Proof.
  induction 1 as [q|q q1 q2 (A & k & Hk & ->) _ IH]; [done|]. pose proof (work_local A k q Hk). lia.
Qed.
Lemma runs_reset s code q : runs q (reset s code q).
Proof. unfold reset. transitivity (exec (stream_shutdown s ShutRead code) q); by apply runs_exec. Qed.

(** Runs that accept no response. *)
Definition answerless {A} (k : call A) : bool := match k with send_response _ _ _ => false | _ => true end.
Definition quiet_runs : relation conn :=
  rtc (fun q q' => exists A (k : call A), local_call k = true /\ answerless k = true /\ q' = exec k q).

Lemma quiet_runs_exec {A} (k : call A) q : local_call k = true -> answerless k = true -> quiet_runs q (exec k q).
Proof. intros. apply rtc_once. eauto 6. Qed.
Lemma answerless_quiet {A} (k : call A) a : answerless k = true -> quiet [Ev k a].
Proof. unfold quiet. cbn. by destruct k. Qed.
Lemma quiet_runs_new q q' : quiet_runs q q' -> runs q q' /\ exists new, q' = q ++ new /\ quiet new.
Proof.
  induction 1 as [q|q q1 q2 (A & k & Hk & Ha & ->) _ (IH & new & -> & Hn)].
  - split; [done|]. exists []. by rewrite app_nil_r.
  - split; [etrans; [by apply (runs_exec k)|done]|]. rewrite exec_trace, <- app_assoc. eexists. split; [done|].
    unfold quiet in *. rewrite omap_app, Hn. rewrite (answerless_quiet k _ Ha). done.
Qed.
Lemma quiet_runs_reset s code q : quiet_runs q (reset s code q).
Proof. unfold reset. transitivity (exec (stream_shutdown s ShutRead code) q); by apply quiet_runs_exec. Qed.

(** The writer and the closing of capsule streams only send bodies. *)
Lemma flush_stream_runs id io q io' q' : flush_stream id (io, q) = Ok (io', q') -> quiet_runs q q'.
Proof.
  unfold flush_stream. cbn [fst snd]. destruct (capsule_streams io !! id) as [s|]; [|by intros [= <- <-]].
  destruct (while _ _ _) as [[keep [i1 q1]]|e|] eqn:Hw; cbn [mbind result_bind]; [|done|done].
  enough (quiet_runs q q1) by (by destruct keep; intros [= <- <-]).
  apply (while_Ok _ _ (fun st => quiet_runs q st.2) (fun r => quiet_runs q r.2.2) _ _) in Hw; [done| |done].
  intros [i2 q2] Hq. cbn [snd] in Hq. unfold flush_step. destruct (capsule_streams i2 !! id) as [x|]; [|done].
  cbn [unwrap mbind result_bind]. destruct (send_queue x) as [|d l]; [done|].
  destruct (slice_from _ _) as [rem|e|]; cbn [mbind result_bind]; [|done|done]. unfold do.
  assert (quiet_runs q (exec (send_body id rem false) q2)) as Hs by (etrans; [done|by apply quiet_runs_exec]).
  rewrite exec_trace in Hs. destruct (answer _ q2 _) as [n|[]|]; try done.
  - destruct (bool_decide (n = 0)); [done|]. destruct (bool_decide _); [|done].
    unfold usize_sub. by repeat destruct (bool_decide _).
  - unfold usize_sub. by repeat destruct (bool_decide _).
Qed.
Lemma flush_output_runs order h3 io q io' q' : flush_capsule_output order h3 io q = Ok (io', q') -> quiet_runs q q'.
Proof.
  unfold flush_capsule_output. destruct h3; [|by intros [= <- <-]]. generalize (order (capsule_writable io)) as ids.
  intros ids. revert io q. induction ids as [|id ids IH]; intros io q; cbn [flush_all]; [by intros [= <- <-]|].
  destruct (flush_stream id (io, q)) as [[i1 q1]|e|] eqn:Hf; cbn [mbind result_bind]; [|done|done].
  intros Hr. etrans; [by eapply flush_stream_runs|by eapply IH].
Qed.
Lemma close_output_runs h3 ip id reset_ io q b io' q' :
  close_output h3 ip id reset_ io q = Ok (b, (io', q')) -> quiet_runs q q'.
Proof.
  unfold close_output. destruct (_ || _); [intros [= <- <- <-]; apply quiet_runs_reset|].
  destruct (if ip then _ else _) as [i1|e|]; cbn [mbind result_bind]; [|done|done].
  destruct h3; [|by intros [= <- <- <-]]. unfold do.
  assert (quiet_runs q (exec (send_body id [] true) q)) as Hs by by apply quiet_runs_exec.
  rewrite exec_trace in Hs. destruct (answer _ q _) as [n|[]|]; try done; by intros [= <- <- <-].
Qed.
Lemma close_idle_runs h3 id reset_ q : quiet_runs q (close_idle_stream h3 id reset_ q).
Proof.
  unfold close_idle_stream. destruct (_ && _); [|apply quiet_runs_reset]. unfold do.
  assert (quiet_runs q (exec (send_body id [] true) q)) as Hs by by apply quiet_runs_exec.
  rewrite exec_trace in Hs. destruct (answer _ q _); [done|..]; (etrans; [exact Hs|apply quiet_runs_reset]).
Qed.

(** ** Error responses *)

Definition weight (s : Z) (m : PendingErrorResponses) (q : conn) : nat := (length (accepted s q) + present m s)%nat.

Lemma settles_count s st new s' : settles s st new -> (length (accepted s' new) <= if decide (s = s') then 1 else 0)%nat.
Proof.
  intros Hs. destruct (decide (s = s')) as [->|Hne].
  - destruct Hs as [Hs|[Hs _]]; unfold accepted; rewrite Hs; [|cbn; lia]. rewrite filter_cons. case_decide; cbn; lia.
  - by rewrite (settles_ne s st new s' Hs) by done.
Qed.

Lemma try_send_runs s st q : runs q (try_send s st q).2.
Proof.
  unfold try_send, do. set (ev := Ev _ _). change (q ++ [ev]) with (exec (send_response s (error_headers st) true) q).
  assert (runs q (exec (send_response s (error_headers st) true) q)) as H by by apply runs_exec.
  destruct (answer _ q _) as [u|[]|]; cbn [snd]; try done; (etrans; [exact H|]); try apply runs_reset. by apply runs_exec.
Qed.

(** A walk over the entries sends, keeps or resets each of them. *)
Lemma retain_weight order keep m q :
  settling keep -> (forall s p q, runs q (keep s p q).2) ->
  let '(m', q') := retain order keep m q in
  m' ⊆ m /\ runs q q' /\ forall s, (weight s m' q' <= weight s m q)%nat.
Proof.
  intros Hk Hr. unfold retain. generalize (order m) as l. intros l.
  assert (forall m1 q1, m1 ⊆ m -> runs q q1 -> (forall s, (weight s m1 q1 <= weight s m q)%nat) ->
    let '(m', q') := fold_left (retain_step keep) l (m1, q1) in
    m' ⊆ m /\ runs q q' /\ forall s, (weight s m' q' <= weight s m q)%nat) as H; [|by apply H].
  induction l as [|s l IH]; intros m1 q1 Hm Hq Hw; [done|]. cbn [fold_left]. unfold retain_step at 2.
  destruct (m1 !! s) as [p|] eqn:Hs; [|by apply IH].
  destruct (Hk s p q1) as (new & Hq' & Hnew). specialize (Hr s p q1).
  destruct (keep s p q1) as [[] q2]; cbn [fst snd] in *; subst q2; apply IH; try done; try by etrans.
  - intros s'. unfold weight. rewrite accepted_app, (quiet_accepted s' new Hnew), app_nil_r. apply Hw.
  - etrans; [apply delete_subseteq|done].
  - intros s'. etrans; [|apply (Hw s')]. unfold weight. rewrite accepted_app, length_app, present_delete.
    pose proof (settles_count s (status p) new s' Hnew). pose proof (present_Some m1 s p Hs).
    destruct (decide (s = s')); subst; lia.
Qed.

Lemma retry_weight order m q :
  let '(m', q') := retry order m q in m' ⊆ m /\ runs q q' /\ forall s, (weight s m' q' <= weight s m q)%nat.
Proof. apply retain_weight; [apply retry_settling|]. intros. apply try_send_runs. Qed.

Lemma expire_weight order timeout m q :
  let '(m', q') := (expire_errors order timeout m q).1 in
  m' ⊆ m /\ runs q q' /\ forall s, (weight s m' q' <= weight s m q)%nat.
Proof.
  pose proof (retain_weight order _ m q (expire_settling timeout)) as H. unfold expire_errors.
  destruct (retain order _ m q) as [m' q'] eqn:Hr. cbn [fst]. apply H.
  intros s p q0. unfold do. change (q0 ++ [Ev now (answer Z q0 now)]) with (exec now q0).
  destruct (bool_decide _); cbn [snd]; [by apply runs_exec|]. etrans; [by apply (runs_exec now)|apply runs_reset].
Qed.

Lemma cancel_weight stream m q :
  let '(m', q') := cancel_error stream m q in m' ⊆ m /\ runs q q' /\ forall s, (weight s m' q' <= weight s m q)%nat.
Proof.
  unfold cancel_error. destruct (m !! stream) as [p|] eqn:Hs; [|done].
  split_and!; [apply delete_subseteq|apply runs_reset|]. intros s.
  destruct (reset_settles stream (status p) REQUEST_CANCELLED q) as (new & -> & Hn); [done|].
  unfold weight. rewrite accepted_app, length_app, present_delete.
  pose proof (settles_count stream (status p) new s Hn). pose proof (present_Some m stream p Hs).
  destruct (decide (stream = s)); subst; lia.
Qed.

Lemma send_error_weight order stream st m q :
  (size m <= MAX_PENDING_ERROR_RESPONSES)%nat ->
  let '(m', q') := send_error order stream st m q in
  (size m' <= MAX_PENDING_ERROR_RESPONSES)%nat /\ runs q q' /\
  forall s, (weight s m' q' <= weight s m q + if decide (stream = s) then 1 else 0)%nat.
Proof.
  intros Hsz. unfold send_error. case_bool_decide; [split_and!; [done|done|intros; lia]|].
  destruct (try_send_spec stream st q) as (new & Hq & Hnew). pose proof (try_send_runs stream st q) as Hr.
  destruct (try_send stream st q) as [[] q1]; cbn [fst snd negb] in *; subst q1.
  2:{ split_and!; [done|done|]. intros s. unfold weight. rewrite accepted_app, length_app.
      pose proof (settles_count stream st new s Hnew). lia. }
  assert (let '(m1, q1) := if bool_decide (MAX_PENDING_ERROR_RESPONSES <= size m)%nat then retry order m (q ++ new) else (m, q ++ new) in
    m1 ⊆ m /\ runs q q1 /\ forall s, (weight s m1 q1 <= weight s m q)%nat) as Hstep.
  { assert (forall s, weight s m (q ++ new) = weight s m q) as Hw
      by (intros; unfold weight; by rewrite accepted_app, (quiet_accepted s new Hnew), app_nil_r).
    case_bool_decide; [|split_and!; [done|done|intros; by rewrite Hw]].
    pose proof (retry_weight order m (q ++ new)) as H1. destruct (retry order m _). destruct H1 as (? & ? & H1).
    split_and!; [done|by etrans|]. intros s. by rewrite <- Hw. }
  destruct (if bool_decide _ then _ else _) as [m1 q1]. destruct Hstep as (Hsub & Hr1 & Hw1).
  pose proof (map_subseteq_size _ _ Hsub). case_bool_decide as Hfull.
  - destruct (reset_settles stream st EXCESSIVE_LOAD q1) as (n1 & Hn1 & Hs1); [done|].
    split_and!; [lia|etrans; [done|apply runs_reset]|]. intros s. rewrite Hn1. specialize (Hw1 s). unfold weight in *.
    rewrite accepted_app, length_app. pose proof (settles_count stream st n1 s Hs1). lia.
  - unfold do. split_and!; [|etrans; [done|by apply (runs_exec now)]|].
    + rewrite map_size_insert. destruct (m1 !! stream); cbn; lia.
    + intros s. specialize (Hw1 s). unfold weight in *. rewrite accepted_app, app_nil_r by done.
      rewrite present_insert. pose proof (present_le m1 s). case_decide; lia.
Qed.
End runs.

(** ** Operations that keep the invariant *)

Create HintDb client.

Section handlers.
Context `{HQ : Quiche} `{HO : Outside}.
Context (order : gset Z -> list Z) (work : conn -> nat).
Context `{!ConnectionLaws work} `{!OutsideLaws}.
Context (E : Env).

(** Histories grow, and nothing came in from the network. *)
Definition later (c c' : Client) : Prop :=
  (work (quic c') <= work (quic c))%nat /\ quic c `prefix_of` quic c' /\ world c `prefix_of` world c' /\
  runs (quic c) (quic c').
Lemma later_runs c c' : runs (quic c) (quic c') -> world c `prefix_of` world c' -> later c c'.
Proof.
  intros Hr Hw. split_and!; [by apply runs_work| |done|done]. destruct (runs_prefix _ _ Hr) as [new ->]. by eexists.
Qed.
Lemma later_refl c c' : quic c' = quic c -> world c' = world c -> later c c'.
Proof. intros Hq Hw. unfold later. rewrite Hq, Hw. by split_and!. Qed.
Lemma later_trans c1 c2 c3 : later c1 c2 -> later c2 c3 -> later c1 c3.
Proof. intros (? & ? & ? & ?) (? & ? & ? & ?). split_and!; [lia|by etrans..]. Qed.
Lemma later_call {A} (k : call A) c : local_call k = true -> later c (c <| quic := exec k (quic c) |>).
Proof. intros Hk. apply later_runs; [by apply runs_exec|done]. Qed.
Lemma later_world c c' e : quic c' = quic c -> world c' = world c ++ [e] -> later c c'.
Proof. intros Hq Hw. unfold later. rewrite Hq, Hw. split_and!; [done|done|by eexists|done]. Qed.

(** [keeps use m gain]: with the answers in [use] held, [m] ends holding those
    of [gain], for whatever else is held. *)
Definition keeps {A} (use : list Z) (m : M A) (gain : A -> list Z) : Prop :=
  forall held g c, conn_inv E (use ++ held) g c ->
    wp m (fun a c' => conn_inv E (gain a ++ held) g c' /\ later c c') c.
Definition neutral {A} (m : M A) : Prop := keeps [] m (fun _ => []).

Lemma keeps_use {A} use (m : M A) gain held g c Q :
  keeps use m gain -> conn_inv E (use ++ held) g c ->
  (forall a c', conn_inv E (gain a ++ held) g c' -> later c c' -> Q a c') -> wp m Q c.
Proof. intros Hm Hc HQ'. eapply wp_mono; [by apply Hm|]. intros a c' [? ?]. auto. Qed.
Lemma neutral_use {A} (m : M A) held g c Q :
  neutral m -> conn_inv E held g c ->
  (forall a c', conn_inv E held g c' -> later c c' -> Q a c') -> wp m Q c.
Proof. intros Hm Hc HQ'. by apply (keeps_use [] m (fun _ => []) held g). Qed.

Lemma keeps_bind {A B} use (m : M A) mid (f : A -> M B) gain :
  keeps use m mid -> (forall a, keeps (mid a) (f a) gain) -> keeps use (m ≫= f) gain.
Proof.
  intros Hm Hf held g c Hc. apply wp_bind. eapply keeps_use; [done|done|]. intros a c1 Hc1 Hw.
  eapply wp_mono; [by apply Hf|]. intros b c2 [? ?]. split; [done|by eapply later_trans].
Qed.
Lemma keeps_frame {A} use (m : M A) gain extra :
  keeps use m gain -> keeps (use ++ extra) m (fun a => gain a ++ extra).
Proof.
  intros Hm held g c Hc. rewrite <- app_assoc in Hc. eapply wp_mono; [by apply Hm|]. intros a c'. by rewrite <- app_assoc.
Qed.
(** Less is needed to hold more, and more may be given up. *)
Lemma keeps_weaken {A} use use' (m : M A) gain gain' :
  keeps use m gain -> (forall s, (occ s use <= occ s use')%nat) -> (forall a s, (occ s (gain' a) <= occ s (gain a))%nat) ->
  keeps use' m gain'.
Proof.
  intros Hm Hu Hg held g c Hc. eapply wp_mono; [apply (Hm held g c)|].
  - eapply inv_drop; [done|]. intros s. rewrite !occ_app. specialize (Hu s). lia.
  - intros a c' [Hc' ?]. split; [|done]. eapply inv_drop; [done|]. intros s. rewrite !occ_app. specialize (Hg a s). lia.
Qed.

Lemma neutral_bind {A B} (m : M A) (f : A -> M B) : neutral m -> (forall a, neutral (f a)) -> neutral (m ≫= f).
Proof. intros. by eapply keeps_bind. Qed.
Lemma neutral_ret {A} (a : A) : neutral (mret a).
Proof. intros held g c Hc. by apply wp_ret; split; [|apply later_refl]. Qed.
Lemma neutral_pass : neutral pass.
Proof. apply neutral_ret. Qed.
Lemma neutral_gets {A} (f : Client -> A) : neutral (gets f).
Proof. intros held g c Hc. by apply wp_gets; split; [|apply later_refl]. Qed.
Lemma neutral_query {A} (k : query A) : neutral (query_ k).
Proof. intros held g c Hc. by apply wp_query; split; [|apply later_refl]. Qed.
Lemma neutral_modify (f : Client -> Client) :
  (forall held g c, conn_inv E held g c -> conn_inv E held g (f c)) -> (forall c, quic (f c) = quic c /\ world (f c) = world c) -> neutral (modify f).
Proof. intros Hf Hq held g c Hc. apply wp_modify. split; [auto|]. destruct (Hq c). by apply later_refl. Qed.
Lemma neutral_each {A} (f : A -> M unit) l : (forall a, neutral (f a)) -> neutral (each f l).
Proof. intros Hf. induction l as [|a l IH]; [apply neutral_pass|]. cbn [each]. by apply neutral_bind. Qed.

Lemma inv_call {A} (k : call A) held g c :
  answerless k = true -> conn_inv E held g c -> conn_inv E held g (c <| quic := exec k (quic c) |>).
Proof. intros Hk Hc. rewrite exec_trace. by apply inv_quiet_calls; [|apply answerless_quiet]. Qed.
Lemma neutral_call {A} (k : call A) : answerless k = true -> local_call k = true -> neutral (call_ k).
Proof.
  intros Hk Hl held g c Hc. apply wp_call. split; [by apply inv_call|]. by apply later_runs; [apply runs_exec|].
Qed.

(** Effects that need no authorisation. *)
Definition harmless {A} (e : effect A) : bool :=
  match e with
  | spawn_verify _ _ _ _ _ | spawn_tcp_connect _ _ | spawn_udp_setup _ _ | claim_addresses _ _ | allocate_addresses _
  | insert_route _ _ | tun_push _ _ => false
  | _ => true
  end.
Lemma harmless_justified {A} (e : effect A) a w q : harmless e = true -> justified E w q (Out e a).
Proof. by destruct e. Qed.
Lemma neutral_perform {A} (e : effect A) : harmless e = true -> neutral (perform e).
Proof. intros He held g c Hc. apply wp_perform. split; [|by eapply later_world]. by apply inv_world; [|apply harmless_justified]. Qed.

(** The library's answer to an accepted response. *)
Lemma keeps_send_response s hs fin :
  keeps [s] (call_ (send_response s hs fin)) (fun r => match r with Ok _ => [] | _ => [s] end).
Proof.
  intros held g c Hc. apply wp_call. split; [|by apply later_runs; [apply runs_exec|]]. rewrite exec_trace. cbn [app] in *.
  destruct (answer _ (quic c) (send_response s hs fin)) eqn:Ha.
  - by eapply inv_answered.
  - by apply inv_quiet_calls.
  - by apply inv_quiet_calls.
Qed.

(** The error responses of a connection. *)
Lemma keeps_errors f use :
  (forall m q, (size m <= MAX_PENDING_ERROR_RESPONSES)%nat ->
     let '(m', q') := f m q in (size m' <= MAX_PENDING_ERROR_RESPONSES)%nat /\ runs q q' /\
     forall s, (weight s m' q' <= weight s m q + occ s use)%nat) ->
  keeps use (with_errors f) (fun _ => []).
Proof.
  intros Hf held g c Hc. specialize (Hf (pending_error_responses c) (quic c) (ci_errors _ _ _ _ Hc)).
  unfold wp, with_errors. destruct (f _ _) as [m' q']. destruct Hf as (Hsz & Hr & Hw). cbn [post fst snd].
  split; [|by apply later_runs]. destruct (runs_prefix _ _ Hr) as [new ->]. by eapply inv_error_map.
Qed.
Lemma keeps_send_error s st : keeps [s] (send_error_response order s st) (fun _ => []).
Proof.
  apply keeps_errors. intros m q Hsz. pose proof (send_error_weight (errors_order order) s st m q Hsz) as Hw.
  destruct (send_error _ s st m q). destruct Hw as (? & ? & Hw). split_and!; try done. intros s'. specialize (Hw s').
  rewrite occ_cons. change (occ s' []) with 0%nat. lia.
Qed.
Lemma neutral_shrink_errors f :
  (forall m q, let '(m', q') := f m q in m' ⊆ m /\ runs q q' /\ forall s, (weight s m' q' <= weight s m q)%nat) ->
  neutral (with_errors f).
Proof.
  intros Hf. apply keeps_errors. intros m q Hsz. specialize (Hf m q). destruct (f m q). destruct Hf as (Hs & ? & Hw).
  pose proof (map_subseteq_size _ _ Hs). split_and!; [lia|done|]. intros s. specialize (Hw s). lia.
Qed.
Lemma neutral_cancel_error s : neutral (cancel_error_response s).
Proof. apply neutral_shrink_errors. intros. apply cancel_weight. Qed.
Lemma neutral_retry_errors : neutral (with_errors (retry (errors_order order))).
Proof. apply neutral_shrink_errors. intros. apply retry_weight. Qed.
Lemma neutral_expire_errors timeout : neutral (with_errors (fun m q => (expire_errors (errors_order order) timeout m q).1)).
Proof. apply neutral_shrink_errors. intros. apply expire_weight. Qed.

#[local] Hint Resolve neutral_ret neutral_pass neutral_gets neutral_query neutral_cancel_error : client.
#[local] Hint Extern 1 (neutral (call_ _)) => apply neutral_call; reflexivity : client.
#[local] Hint Extern 1 (neutral (perform _)) => apply neutral_perform; reflexivity : client.
#[local] Hint Extern 1 (neutral (modify _)) =>
  apply neutral_modify; [intros; first [apply inv_resumes | apply inv_deadline | apply inv_budgets | apply inv_flags]; assumption
                        | intros; split; reflexivity] : client.

Ltac neut :=
  repeat first
    [ solve [auto 2 with client nocore]
    | apply neutral_bind; [|intros ?]
    | apply neutral_each; intros ?
    | match goal with |- neutral (match ?x with _ => _ end) => destruct x end ].

(** ** Dropping *)

Lemma neutral_shutdown s code : neutral (shutdown_both s code).
Proof. unfold shutdown_both. neut. Qed.
Lemma neutral_abort t : neutral (abort t).
Proof. unfold abort. neut. Qed.
#[local] Hint Resolve neutral_shutdown neutral_abort : client.

Lemma neutral_drop_pending_tcp p : neutral (drop_pending_tcp p).
Proof. apply neutral_abort. Qed.
Lemma neutral_drop_pending_udp p : neutral (drop_pending_udp p).
Proof. unfold drop_pending_udp. neut. Qed.
Lemma neutral_drop_awaiting a : neutral (drop_awaiting a).
Proof.
  unfold drop_awaiting. apply neutral_bind; [|neut]. apply neutral_modify.
  - intros held g c Hc. destruct (awaiting_drop _ _ _) as [[fl bs] t]. by apply inv_budgets, inv_flags.
  - intros c. by destruct (awaiting_drop _ _ _) as [[fl bs] t].
Qed.
Lemma neutral_drop_early q : neutral (drop_early q).
Proof. unfold drop_early. neut. Qed.
#[local] Hint Resolve neutral_drop_pending_tcp neutral_drop_pending_udp neutral_drop_awaiting neutral_drop_early : client.

(** Removing an entry gives its answer to the handler. *)
Lemma wp_remove_pending_tcp s held g c Q :
  conn_inv E held g c ->
  (forall found c', found = Client.pending_tcp_tunnels c !! s -> later c c' ->
     conn_inv E (match found with Some _ => s :: held | None => held end) g c' -> Q found c') ->
  wp (remove_pending_tcp s) Q c.
Proof.
  intros Hc HQ'. unfold remove_pending_tcp. apply wp_bind, wp_gets, wp_bind, wp_modify, wp_ret. apply HQ'; [done|by apply later_refl|].
  by apply inv_pending_tcp_del.
Qed.
Lemma wp_remove_pending_udp s held g c Q :
  conn_inv E held g c ->
  (forall found c', found = Client.pending_udp_tunnels c !! s -> later c c' ->
     conn_inv E (match found with Some _ => s :: held | None => held end) g c' -> Q found c') ->
  wp (remove_pending_udp s) Q c.
Proof.
  intros Hc HQ'. unfold remove_pending_udp. apply wp_bind, wp_gets, wp_bind, wp_modify, wp_ret. apply HQ'; [done|by apply later_refl|].
  by apply inv_pending_udp_del.
Qed.
Lemma wp_remove_awaiting s held g c Q :
  conn_inv E held g c ->
  (forall found c', found = Client.awaiting_auth c !! s -> later c c' ->
     conn_inv E (match found with Some _ => s :: held | None => held end) g c' -> Q found c') ->
  wp (remove_awaiting s) Q c.
Proof.
  intros Hc HQ'. unfold remove_awaiting. apply wp_bind, wp_gets, wp_bind, wp_modify, wp_ret. apply HQ'; [done|by apply later_refl|].
  by apply inv_awaiting_del.
Qed.

(** What was given to the handler and is not used. *)
Lemma inv_drop_opt {A} (o : option A) s held g c :
  conn_inv E (match o with Some _ => s :: held | None => held end) g c -> conn_inv E held g c.
Proof. destruct o; [|done]. intros Hc. eapply inv_drop; [done|]. intros s'. rewrite occ_cons. lia. Qed.

Lemma neutral_forget_pending_tcp s : neutral (forget_pending_tcp s).
Proof.
  intros held g c Hc. unfold forget_pending_tcp. apply wp_bind. apply (wp_remove_pending_tcp _ held g); [done|].
  intros found c1 _ Hl Hc1%inv_drop_opt. destruct found; [|by apply wp_pass].
  eapply neutral_use; [apply neutral_drop_pending_tcp|done|]. intros; split; [done|by eapply later_trans].
Qed.
Lemma neutral_forget_pending_udp s : neutral (forget_pending_udp s).
Proof.
  intros held g c Hc. unfold forget_pending_udp. apply wp_bind. apply (wp_remove_pending_udp _ held g); [done|].
  intros found c1 _ Hl Hc1%inv_drop_opt. destruct found; [|by apply wp_pass].
  eapply neutral_use; [apply neutral_drop_pending_udp|done|]. intros; split; [done|by eapply later_trans].
Qed.
Lemma neutral_forget_awaiting s : neutral (forget_awaiting s).
Proof.
  intros held g c Hc. unfold forget_awaiting. apply wp_bind. apply (wp_remove_awaiting _ held g); [done|].
  intros found c1 _ Hl Hc1%inv_drop_opt. destruct found; [|by apply wp_pass].
  eapply neutral_use; [apply neutral_drop_awaiting|done|]. intros; split; [done|by eapply later_trans].
Qed.

Lemma neutral_tcp_delete s : neutral (modify (fun c => c <| Client.tcp_tunnels ::= delete s |>)).
Proof.
  apply neutral_modify; [|done]. intros held g c Hc. apply inv_tcp_map; [done|]. intros s' t [_ ?]%lookup_delete_Some. by eapply ci_tcp.
Qed.
Lemma neutral_udp_delete s : neutral (modify (fun c => c <| Client.udp_tunnels ::= delete s |>)).
Proof.
  apply neutral_modify; [|done]. intros held g c Hc. apply inv_udp_map; [done|]. intros s' t [_ ?]%lookup_delete_Some. by eapply ci_udp.
Qed.
Lemma neutral_ip_delete s : neutral (modify (fun c => c <| Client.ip_tunnels ::= delete s |>)).
Proof.
  apply neutral_modify; [|done]. intros held g c Hc. apply inv_ip_map; [done|]. intros s' t [_ ?]%lookup_delete_Some. by eapply ci_ip.
Qed.
Lemma neutral_pending_ip_delete s : neutral (modify (fun c => c <| pending_ip_responses ::= delete s |>)).
Proof.
  apply neutral_modify; [|done]. intros held g c Hc. eapply inv_drop_opt. by apply inv_pending_ip_del.
Qed.
#[local] Hint Resolve neutral_forget_pending_tcp neutral_forget_pending_udp neutral_forget_awaiting neutral_tcp_delete
  neutral_udp_delete neutral_ip_delete neutral_pending_ip_delete : client.

Lemma neutral_forget_tcp s : neutral (forget_tcp s).
Proof. unfold forget_tcp. neut. Qed.
Lemma neutral_forget_udp s : neutral (forget_udp s).
Proof. unfold forget_udp. neut. Qed.
#[local] Hint Resolve neutral_forget_tcp neutral_forget_udp : client.

Lemma neutral_reset_tcp s : neutral (reset_tcp_stream s).
Proof. unfold reset_tcp_stream. neut. Qed.
#[local] Hint Resolve neutral_reset_tcp : client.
Lemma neutral_expire_auth : neutral (expire_auth order).
Proof. unfold expire_auth. neut. Qed.
#[local] Hint Resolve neutral_expire_auth : client.

(** ** Capsule streams *)

(** A change of the capsule streams that keeps their readers. *)
Lemma wp_io_same {A} (f : CapsuleIo -> result Empty_set (A * CapsuleIo)) held g c Q :
  conn_inv E held g c ->
  post (f (io c)) (fun x => io_ok x.2 /\ same_received (io c) x.2 /\ same_readers (io c) x.2 /\
    forall c', conn_inv E held g c' -> c' = c <| io := x.2 |> -> Q x.1 c') ->
  wp (with_io f) Q c.
Proof.
  intros Hc Hf. apply wp_with_io. eapply post_mono; [done|]. intros [a i] (Hi & Hr & Hs & HQ'). apply HQ'; [|done].
  by apply inv_io_same.
Qed.

Lemma wp_drop_capsule_stream s held g g' c Q :
  conn_inv E held g c -> (forall x, x ∈ bad_streams g -> x ∈ bad_streams g' \/ x = s) -> fresh_streams g' = fresh_streams g ->
  (forall c', conn_inv E held g' c' -> capsule_streams (io c') !! s = None -> later c c' -> Q tt c') ->
  wp (drop_capsule_stream s) Q c.
Proof.
  intros Hc Hb Hf HQ'. unfold drop_capsule_stream. apply wp_bind, wp_gets, wp_bind, wp_with_io.
  destruct (remove_stream_io s (io c) (ci_io _ _ _ _ Hc)) as (i & -> & Hi & (R1 & R2 & R3) & Hst). cbn [mbind result_bind post fst snd].
  assert (conn_inv E held g' (c <| io := i |>)) as Hc'.
  { eapply inv_io; [done|done| |done|].
    - destruct (ci_received _ _ _ _ Hc) as (? & ? & ? & ? & ?). unfold received_ok. rewrite R1, R2. auto 6.
    - rewrite Hst. intros s' x [Hne Hx]%lookup_delete_Some. split; [eauto|]. intros Hn. eapply ci_readers; [done|done|].
      intros [?|?]%Hb; [done|congruence]. }
  assert (capsule_streams i !! s = None) as Hnone by (rewrite Hst; apply lookup_delete_eq).
  destruct (_ ≫= CapsuleIo.early) as [e|]; [|by apply wp_pass, HQ'; [| |apply later_refl]].
  apply wp_modify, HQ'; [|done|by apply later_refl]. by apply inv_budgets.
Qed.
Lemma neutral_drop_capsule_stream s : neutral (drop_capsule_stream s).
Proof. intros held g c Hc. eapply wp_drop_capsule_stream; [done|by left|done|]. by intros c' ? _ ?. Qed.
#[local] Hint Resolve neutral_drop_capsule_stream : client.

Lemma neutral_teardown_ip s : neutral (teardown_ip_tunnel s).
Proof. unfold teardown_ip_tunnel. neut. Qed.
Lemma neutral_reset_udp s : neutral (reset_udp_stream s).
Proof. unfold reset_udp_stream. neut. Qed.
#[local] Hint Resolve neutral_teardown_ip neutral_reset_udp : client.

Lemma neutral_io_sets (f : CapsuleIo -> CapsuleIo) :
  (forall i, io_ok i -> io_ok (f i)) -> (forall i, received_ok i -> received_ok (f i)) ->
  (forall i, capsule_streams (f i) = capsule_streams i) -> neutral (modify (fun c => c <| io ::= f |>)).
Proof.
  intros Hf Hr Hs. apply neutral_modify; [|done]. intros held g c Hc. eapply inv_io; [done|by apply Hf; eapply ci_io|by eapply Hr, ci_received|done|].
  intros s x. rewrite Hs. intros Hx. split; [eauto|]. intros. by eapply ci_readers.
Qed.
Lemma neutral_readable (f : gset Z -> gset Z) : neutral (modify (fun c => c <| io ::= fun i => i <| capsule_readable ::= f |> |>)).
Proof. by apply neutral_io_sets; [intros i []|intros i|intros i]. Qed.
Lemma neutral_read_resumes (f : gset Z -> gset Z) : neutral (modify (fun c => c <| io ::= fun i => i <| capsule_read_resumes ::= f |> |>)).
Proof. by apply neutral_io_sets; [intros i []|intros i|intros i]. Qed.
#[local] Hint Resolve neutral_readable neutral_read_resumes : client.

Lemma neutral_queue_capsule s data : neutral (with_io (fun i => Ok (queue_capsule_bytes s data i))).
Proof.
  intros held g c Hc. eapply wp_io_same; [done|]. cbn [post].
  destruct (queue_capsule_bytes s data (io c)) as [ok i] eqn:Hq.
  destruct (queue_bytes_io s data (io c) ok i (ci_io _ _ _ _ Hc) Hq) as (? & ? & ?). split; [done|]. split; [done|]. split; [done|]. intros c' ? ->. by split; [|apply later_refl].
Qed.
Lemma neutral_mark_finished s : neutral (with_io_quic (fun i q => Ok (tt, mark_capsule_finished s i q))).
Proof.
  intros held g c Hc. apply wp_with_io_quic. cbn [post fst snd].
  pose proof (mark_finished_io s (io c) (quic c) (ci_io _ _ _ _ Hc)) as Hm.
  destruct (mark_capsule_finished s (io c) (quic c)) as [i q]. destruct Hm as (Hi & Hr & Hs & Hq). cbn [fst snd].
  pose proof (inv_io_same E held g c i Hc Hi Hr Hs) as Hc'.
  destruct Hq as [->| ->]; [by split; [|apply later_refl]|]. split; [by apply (inv_call now) in Hc'|].
  by apply later_runs; [apply (runs_exec now)|].
Qed.
#[local] Hint Resolve neutral_queue_capsule neutral_mark_finished : client.

(** ** Inserting *)

Lemma keeps_insert_pending_tcp s p :
  pending_tunnel_ok p -> keeps [s] (insert_pending_tcp s p) (fun _ => []).
Proof.
  intros Hp held g c Hc. unfold insert_pending_tcp. apply wp_bind, wp_gets, wp_bind, wp_modify.
  assert (conn_inv E held g (c <| Client.pending_tcp_tunnels ::= fun m => <[s := p]> m |>)) as Hc' by by apply inv_pending_tcp_put.
  destruct (_ !! s); [|by apply wp_pass; split; [|apply later_refl]]. eapply neutral_use; [apply neutral_drop_pending_tcp|exact Hc'|]. by split.
Qed.
Lemma keeps_insert_pending_udp s p : keeps [s] (insert_pending_udp s p) (fun _ => []).
Proof.
  intros held g c Hc. unfold insert_pending_udp. apply wp_bind, wp_gets, wp_bind, wp_modify.
  assert (conn_inv E held g (c <| Client.pending_udp_tunnels ::= fun m => <[s := p]> m |>)) as Hc' by by apply inv_pending_udp_put.
  destruct (_ !! s); [|by apply wp_pass; split; [|apply later_refl]]. eapply neutral_use; [apply neutral_drop_pending_udp|exact Hc'|]. by split.
Qed.
Lemma neutral_set_tcp s t : Forall resp_ok (pending_responses t) -> neutral (set_tcp s t).
Proof.
  intros Ht. apply neutral_modify; [|done]. intros held g c Hc. apply inv_tcp_map; [done|].
  intros s' t' [[<- <-]|[_ ?]]%lookup_insert_Some; [done|]. by eapply ci_tcp.
Qed.
Lemma neutral_insert_tcp s t : Forall resp_ok (pending_responses t) -> neutral (insert_tcp s t).
Proof. intros Ht. unfold insert_tcp. apply neutral_bind; [neut|intros _]. by apply neutral_set_tcp. Qed.
Lemma neutral_set_udp s t : stage_ok t -> neutral (set_udp s t).
Proof.
  intros Ht. apply neutral_modify; [|done]. intros held g c Hc. apply inv_udp_map; [done|].
  intros s' t' [[<- <-]|[_ ?]]%lookup_insert_Some; [done|]. by eapply ci_udp.
Qed.
Lemma neutral_insert_udp s t : stage_ok t -> neutral (insert_udp s t).
Proof. intros Ht. unfold insert_udp. apply neutral_bind; [neut|intros _]. by apply neutral_set_udp. Qed.

Lemma wp_insert_capsule_stream s x held g c Q :
  conn_inv E held (add_fresh s g) c -> s ∉ fresh_streams g -> unused x -> capsule_reader_ok x ->
  (forall c', conn_inv E held g c' -> later c c' -> Q tt c') -> wp (insert_capsule_stream s x) Q c.
Proof.
  intros Hc Hs Hu Hr HQ'. unfold insert_capsule_stream. apply wp_bind, wp_gets, wp_bind, wp_with_io. cbn [post fst snd].
  destruct (ci_fresh _ _ _ _ Hc s) as [Hn _]; [by left|]. rewrite Hn. cbn. apply wp_pass, HQ'; [|by apply later_refl]. by apply inv_open.
Qed.
End handlers.

#[export] Hint Resolve neutral_ret neutral_pass neutral_gets neutral_query neutral_cancel_error neutral_shutdown neutral_abort
  neutral_drop_pending_tcp neutral_drop_pending_udp neutral_drop_awaiting neutral_drop_early neutral_forget_pending_tcp
  neutral_forget_pending_udp neutral_forget_awaiting neutral_tcp_delete neutral_udp_delete neutral_ip_delete
  neutral_pending_ip_delete neutral_forget_tcp neutral_forget_udp neutral_reset_tcp neutral_expire_auth
  neutral_drop_capsule_stream neutral_teardown_ip neutral_reset_udp neutral_readable neutral_read_resumes
  neutral_queue_capsule neutral_mark_finished neutral_retry_errors neutral_expire_errors : client.
#[export] Hint Extern 1 (neutral _ _ (call_ _)) => apply neutral_call; first [reflexivity | assumption] : client.
#[export] Hint Extern 1 (neutral _ _ (perform _)) => apply neutral_perform; first [reflexivity | assumption] : client.
#[export] Hint Extern 1 (neutral _ _ (modify _)) =>
  apply neutral_modify; [intros; first [apply inv_resumes | apply inv_deadline | apply inv_budgets | apply inv_flags]; assumption
                        | intros; split; reflexivity] : client.

(** Operations made of operations that keep the invariant. *)
Ltac neut :=
  repeat first
    [ solve [auto 2 with client]
    | apply neutral_bind; [|intros ?]
    | apply neutral_each; intros ?
    | match goal with |- neutral _ _ (match ?x with _ => _ end) => destruct x end ].
