(* ===== verification/ServeInv.v ===== *)
(** * Serving requests keeps the invariant

    The handlers of [Handlers.v]: dispatch of requests, request bodies, set-up
    of tunnels, credentials, HTTP/3 events, results of tasks and responses. *)

From stdpp Require Import list gmap strings sorting.
From S2P Require Import Prelude Varint Net Policy Capsule CapsuleStream Datagram IpPacket Routing AddressPool.
From S2P Require Import ClientIdentity Lease Uri Auth Config Request TcpTunnel TargetUdp UdpTunnel Quiche QuicBatch.
From S2P Require Import Connection CapsuleIo CapsuleIoProps Client Handlers Relay Totality ClientLogic HandlersInv.
Open Scope Z_scope.

Lemma alter_present {A} (f : A -> A) (m : gmap Z A) s x : m !! s = Some x -> alter f s m = <[s := f x]> m.
Proof. intros Hx. apply map_eq. intros i. rewrite lookup_alter, lookup_insert. case_decide; [|done]. subst. by rewrite Hx. Qed.

Section serve.
Context `{HQ : Quiche} `{HO : Outside}.
Context (order : gset Z -> list Z) (work : conn -> nat).
Context `{!ConnectionLaws work} `{!OutsideLaws}.
Context (E : Env).

Abbreviation J := (conn_inv E).
Abbreviation later := (later work).
Abbreviation neutral := (neutral work E).
Abbreviation config := (env_config E).

(** Skip a step that keeps the invariant. *)
Ltac wskip := eapply (neutral_use work E); [solve [neut]|eassumption|].

(** ** Dispatch *)

(** What a request comes to: it was answered, or one setup was added and its
    answer is still to be given. *)
Definition dispatched (s : Z) (held : list Z) (g : Ghost) (p p' : PendingConnectSetups) (c : Client) : Prop :=
  (p' = p /\ J held g c) \/
  (J (s :: held) g c /\
   ((exists t, tcp_authorised E (world c) (quic c) s t /\ p' = p <| setup_tcp ::= fun l => l ++ [(s, t)] |>) \/
    (exists t h, udp_authorised E (world c) (quic c) s t /\ p' = p <| setup_udp ::= fun l => l ++ [(s, t, h)] |>) \/
    (ip_authorised E (world c) (quic c) s /\ p' = p <| setup_ip ::= fun l => l ++ [s] |>))).

Lemma wp_reject {A} s st (a : A) held g c Q :
  J (s :: held) g c -> (forall c', J held g c' -> later c c' -> Q a c') ->
  wp (send_error_response order s st ≫= fun _ => mret a) Q c.
Proof.
  intros Hc HQ'. apply wp_bind. eapply (keeps_use _ _ [s]); [by apply keeps_send_error|exact Hc|]. intros ? c' Hc' Hl.
  by apply wp_ret, HQ'.
Qed.

Lemma wp_dispatch s r p held g c Q :
  J (s :: held) g c -> authorised E (world c) (quic c) s r ->
  (forall p' c', dispatched s held g p p' c' -> later c c' -> Q p' c') ->
  wp (dispatch_connect order config s r p) Q c.
Proof.
  intros Hc Ha HQ'. assert (forall c', J held g c' -> later c c' -> Q p c') as Hrej.
  { intros c' ? ?. apply HQ'; [by left|done]. }
  destruct r as [a|path|path standard valid]; cbn [dispatch_connect].
  - pose proof (parse_connect_authority_np a). destruct (parse_connect_authority a) as [t| |] eqn:Hp; [|by eapply wp_reject|done].
    apply wp_ret, HQ'; [|by apply later_refl]. right. split; [done|]. left. exists t. split; [|done]. by exists a.
  - unfold handle_connect_udp. pose proof (parse_udp_path_np path (str (udp_uri_template (udp_proxy config)))).
    destruct (parse_udp_path _ _) as [t| |] eqn:Hp; [|by eapply wp_reject|done].
    destruct (ci_known _ _ _ _ Hc s) as [Hs _]; [rewrite occ_cons, decide_True by done; lia|].
    destruct (header_new_request s Hs) as (h & -> & _). apply wp_ret, HQ'; [|by apply later_refl]. right. split; [done|].
    right; left. exists t, h. split; [|done]. by exists path.
  - pose proof (prepare_connect_ip_np path standard valid config).
    destruct (prepare_connect_ip _ _ _ _) as [[]| |] eqn:Hp; [|by eapply wp_reject|done].
    apply wp_ret, HQ'; [|by apply later_refl]. right. split; [done|]. right; right. split; [|done]. by exists path, standard, valid.
Qed.

(** The handler gives up an answer it held. *)
Lemma drop_token s held g c : J (s :: held) g c -> J held g c.
Proof. intros Hc. eapply inv_drop; [done|]. intros s'. rewrite occ_cons. lia. Qed.

Lemma inv_load_auth held g c s a :
  J held g c -> J held g (c <| world := world c ++ [Out (load_auth s) a] |>).
Proof. intros Hc. by apply inv_world. Qed.

Lemma wp_handle_request s hs p held g c Q :
  J (s :: held) g c -> (s, hs) ∈ omap headers_of (quic c) ->
  (forall p' c', dispatched s held g p p' c' -> later c c' -> Q (p', None) c') ->
  (forall r c', J (s :: held) g c' -> later c c' -> pa_stream r = s ->
     prechecked E (world c') (quic c') s (pa_request r) (pa_credential r) (pa_password r) -> Q (p, Some r) c') ->
  wp (handle_request order (env_decode E) config (env_auth E) s hs p) Q c.
Proof.
  intros Hc Hhs HQ1 HQ2. unfold handle_request.
  assert (forall c0 c', J held g c' -> later c c0 -> later c0 c' -> Q (p, None) c') as Hrej.
  { intros c0 c' ? ? ?. apply HQ1; [by left|by eapply later_trans]. }
  destruct (classify _ _) as [r|] eqn:Hr; [|eapply wp_reject; [done|]; intros; eapply Hrej; [done|by apply later_refl|done]].
  destruct (env_auth E) eqn:Hauth; cbn [negb].
  2:{ apply wp_bind. eapply wp_dispatch; [done| |].
      - exists hs. split; [done|]. by rewrite Hauth.
      - intros p' c' ? ?. by apply wp_ret, HQ1. }
  destruct (duplicate_proxy_authorization _) eqn:Hdup.
  { eapply wp_reject; [done|]. intros; eapply Hrej; [done|by apply later_refl|done]. }
  apply wp_bind, wp_perform. set (a := outside_answer _ _ _). set (c1 := c <| world := _ |>).
  assert (J (s :: held) g c1) as Hc1 by by apply inv_load_auth.
  assert (later c c1) as Hl1 by by eapply later_world.
  assert (forall pr, precheck (env_decode E) a.1 a.2 (proxy_authorization (scan_headers hs)) = pr -> checked E (world c1) s hs pr) as Hck.
  { intros pr Hp. split; [done|]. exists a. split; [|done]. unfold c1. cbn. rewrite omap_app, elem_of_app. right. by left. }
  destruct a as [au cached] eqn:Hav. cbn [fst snd] in *. destruct (precheck _ _ _ _) as [| |cr pw] eqn:Hp.
  - apply wp_bind, wp_gets, wp_bind.
    set (m := match first_auth_deadline c1 with Some _ => _ | None => _ end).
    assert (neutral m) as Hm by (unfold m; neut). eapply neutral_use; [exact Hm|exact Hc1|]. intros expired c2 Hc2 Hl2.
    destruct expired. { apply wp_ret. eapply Hrej; [by eapply drop_token|done|done]. }
    apply wp_bind, wp_modify. set (c3 := c2 <| first_auth_deadline := None |>).
    assert (J (s :: held) g c3) as Hc3 by by apply inv_deadline.
    assert (later c c3) as Hl3. { eapply later_trans; [exact Hl1|]. eapply later_trans; [exact Hl2|]. by apply later_refl. }
    apply wp_bind. eapply wp_dispatch; [exact Hc3| |].
    + exists hs. destruct Hl2 as (_ & Hq2 & Hw2 & _). split; [eapply request_mono; [|by split]; exact Hq2|]. intros _. left.
      eapply checked_mono; [|by apply Hck]. exact Hw2.
    + intros p' c' ? ?. apply wp_ret, HQ1; [done|by eapply later_trans].
  - eapply wp_reject; [exact Hc1|]. intros; by eapply Hrej.
  - apply wp_ret, HQ2; [done|done|done|]. exists hs. split; [by split|]. by apply Hck.
Qed.

(** ** Request bodies *)

Definition tcp_known (s : Z) (c : Client) : Prop :=
  is_Some (Client.pending_tcp_tunnels c !! s) \/ is_Some (Client.tcp_tunnels c !! s).

Lemma wp_finish_client s t held g c Q :
  J held g c -> (forall t' c', J held g c' -> later c c' -> pending_responses t' = pending_responses t -> Q t' c') ->
  wp (finish_client s t) Q c.
Proof.
  intros Hc HQ'. unfold finish_client. destruct (TcpTunnel.client_finished t); [by apply wp_ret, HQ'; [|apply later_refl|]|].
  apply wp_bind. wskip. intros at_ c1 Hc1 Hl1. apply wp_bind. wskip. intros ? c2 Hc2 Hl2.
  apply wp_ret, HQ'; [done|by eapply later_trans|done].
Qed.
Lemma neutral_finish_tcp_client s t : Forall resp_ok (pending_responses t) -> neutral (finish_tcp_client s t).
Proof.
  intros Ht held g c Hc. unfold finish_tcp_client. apply wp_bind. eapply wp_finish_client; [done|]. intros t' c1 Hc1 Hl1 Hp.
  eapply neutral_use; [apply neutral_set_tcp; by rewrite Hp|done|]. intros. split; [done|by eapply later_trans].
Qed.
Lemma wp_queue_client s t data held g c Q :
  J held g c ->
  (forall t' c', J held g c' -> later c c' ->
     (forall x, t' = Some x -> pending_responses x = pending_responses t) -> Q t' c') ->
  wp (queue_client s t data) Q c.
Proof.
  intros Hc HQ'. unfold queue_client. destruct (TcpTunnel.client_finished t); [by apply wp_ret, HQ'; [|apply later_refl|]|].
  apply wp_bind. wskip. intros sent c1 Hc1 Hl1. destruct sent; [|by apply wp_ret, HQ'].
  apply wp_bind. wskip. intros at_ c2 Hc2 Hl2. apply wp_ret, HQ'; [done|by eapply later_trans|]. by intros x [= <-].
Qed.
Lemma wp_queue_tcp_client s t data held g c Q :
  J held g c -> Forall resp_ok (pending_responses t) ->
  (forall ok c', J held g c' -> later c c' -> (ok = true -> tcp_known s c') -> Q ok c') ->
  wp (queue_tcp_client s t data) Q c.
Proof.
  intros Hc Ht HQ'. unfold queue_tcp_client. apply wp_bind. eapply wp_queue_client; [done|]. intros [t'|] c1 Hc1 Hl1 Hp.
  - apply wp_bind. unfold set_tcp. apply wp_modify, wp_ret, HQ'.
    + apply inv_tcp_map; [done|]. intros s' x [[<- <-]|[_ ?]]%lookup_insert_Some; [by rewrite Hp|by eapply ci_tcp].
    + eapply later_trans; [done|by apply later_refl].
    + intros _. right. cbn. rewrite lookup_insert_eq. eauto.
  - apply wp_ret. by apply HQ'.
Qed.

Lemma pending_capacity_ok held g c s p :
  J held g c -> Client.pending_tcp_tunnels c !! s = Some p -> exists n, pending_client_capacity p = Ok n.
Proof.
  intros Hc Hp. unfold pending_client_capacity. rewrite bool_decide_true; [eauto|]. by eapply ci_pending_tcp, Hp.
Qed.

Lemma wp_tcp_client_capacity s held g c Q :
  J held g c -> tcp_known s c ->
  (forall n c', J held g c' -> later c c' -> c' = c <| world := world c' |> -> Q n c') -> wp (tcp_client_capacity s) Q c.
Proof.
  intros Hc Hk HQ'. unfold tcp_client_capacity. apply wp_bind, wp_gets. destruct (Client.tcp_tunnels c !! s) as [t|] eqn:Ht.
  - apply wp_perform, HQ'; [|by eapply later_world|done]. by apply inv_world.
  - apply wp_bind, wp_gets. destruct (Client.pending_tcp_tunnels c !! s) as [p|] eqn:Hp.
    + destruct (pending_capacity_ok held g c s p Hc Hp) as [n Hn]. eapply wp_lift; [done|]. apply HQ'; [done|by apply later_refl|]. by destruct c.
    + destruct Hk as [Hk|Hk]; [rewrite Hp in Hk|rewrite Ht in Hk]; by destruct Hk.
Qed.

Lemma buffer_client_data_ok at_ data (p : PendingTcp) :
  pending_tunnel_ok p -> pending_tunnel_ok (buffer_client_data at_ data p).2.
Proof.
  intros [Hb Hm]. unfold buffer_client_data, pending_tunnel_ok. repeat case_bool_decide; cbn; try done.
  rewrite concat_snoc, zlen_app. lia.
Qed.

Lemma wp_relay_body_step s held g c :
  J held g c -> tcp_known s c ->
  wp (relay_body_step s tt) (fun r c' => J held g c' /\ later c c' /\
    match r with inl _ => tcp_known s c' /\ (work (quic c') < work (quic c))%nat | inr x => x <> Panic end) c.
Proof.
  intros Hc Hk. unfold relay_body_step. apply wp_bind, wp_query, wp_bind, wp_gets, wp_bind, wp_gets.
  destruct (ask (stream_finished s) (quic c)).
  - apply wp_bind.
    eapply wp_mono with (P := fun _ c' => J held g c' /\ later c c'); [|intros ? c' [? ?]; by apply wp_ret].
    destruct (Client.tcp_tunnels c !! s) as [t|] eqn:Ht; [by apply neutral_finish_tcp_client; [eapply ci_tcp|]|].
    destruct (Client.pending_tcp_tunnels c !! s) as [p|] eqn:Hp; [|by apply wp_pass; split; [|apply later_refl]].
    apply wp_modify. split; [|by apply later_refl]. eapply inv_pending_tcp_set; [done|done|]. exact (ci_pending_tcp _ _ _ _ Hc s p Hp).
  - apply wp_bind. eapply wp_tcp_client_capacity; [done|done|]. intros n c1 Hc1 Hl1 He1.
    case_bool_decide; [by apply wp_ret|]. apply wp_bind, wp_call.
    set (r := answer _ (quic c1) _). set (c2 := c1 <| quic := _ |>).
    assert (J held g c2) as Hc2 by by apply inv_call.
    assert (later c c2) as Hl2 by (eapply later_trans; [done|by apply later_call]).
    pose proof (recv_body_post (quic c1) s (Z.min (16 * 1024) n)) as Hr. fold r in Hr.
    assert (Client.tcp_tunnels c2 = Client.tcp_tunnels c /\ Client.pending_tcp_tunnels c2 = Client.pending_tcp_tunnels c) as [Et Ep]
      by (unfold c2; rewrite He1; done).
    destruct r as [data|e|] eqn:Hans; [|destruct e; [by apply wp_ret|apply wp_bind, wp_query; by apply wp_ret|by apply wp_ret]|done].
    assert (work (quic c2) < work (quic c))%nat as Hw.
    { eapply Nat.lt_le_trans; [eapply work_recv_body; exact Hans|]. destruct Hl1; lia. }
    assert (tcp_known s c2) as Hk2 by (unfold tcp_known; by rewrite Et, Ep).
    destruct data as [|b data]; [by apply wp_ret|].
    destruct (Client.tcp_tunnels c !! s) as [t|] eqn:Ht.
    + apply wp_bind. eapply wp_queue_tcp_client; [done|exact (ci_tcp _ _ _ _ Hc s t Ht)|]. intros ok c3 Hc3 Hl3 Hk3. apply wp_ret.
      split; [done|]. split; [by eapply later_trans|]. destruct ok; [|done]. split; [auto|]. destruct Hl3. lia.
    + destruct (Client.pending_tcp_tunnels c !! s) as [p|] eqn:Hp; [|by apply wp_ret].
      apply wp_bind, wp_call. set (c3 := c2 <| quic := _ |>). set (at_ := answer _ _ now).
      assert (J held g c3) as Hc3 by by apply inv_call.
      assert (later c2 c3) as Hl3 by (by apply later_call).
      pose proof (buffer_client_data_ok at_ (b :: data) p) as Hb.
      destruct (buffer_client_data at_ (b :: data) p) as [ok p'] eqn:Hbuf. apply wp_bind, wp_modify, wp_ret.
      assert (Client.pending_tcp_tunnels c3 !! s = Some p) as Hp3
        by (change (Client.pending_tcp_tunnels c2 !! s = Some p); by rewrite Ep).
      split; [|split].
      * eapply inv_pending_tcp_set; [done|exact Hp3|]. apply Hb. exact (ci_pending_tcp _ _ _ _ Hc s p Hp).
      * eapply later_trans; [done|]. eapply later_trans; [done|]. by apply later_refl.
      * destruct ok; [|done]. split; [left; cbn; rewrite lookup_insert_eq; eauto|].
        destruct Hl3. change (work (quic c3) < work (quic c))%nat. lia.
Qed.

Lemma wp_relay_tcp_request_body s held g c Q :
  J held g c -> (forall r c', J held g c' -> later c c' -> r <> Panic -> Q r c') -> wp (relay_tcp_request_body work s) Q c.
Proof.
  intros Hc HQ'. unfold relay_tcp_request_body. apply wp_bind, wp_gets.
  destruct (negb _) eqn:Hk; [by apply wp_ret, HQ'; [|apply later_refl|]|].
  assert (tcp_known s c) as Hknown.
  { apply negb_false_iff, orb_true_iff in Hk. rewrite !bool_decide_eq_true in Hk. exact Hk. }
  eapply (wp_repeating _ _ (fun _ c' => J held g c' /\ later c c' /\ tcp_known s c')); [|by split_and!; [|apply later_refl|]].
  intros [] c1 (Hc1 & Hl1 & Hk1). eapply wp_mono; [by apply wp_relay_body_step|]. intros [[]|r] c2 (Hc2 & Hl2 & Hr).
  - destruct Hr. split_and!; [done|by eapply later_trans|done|done].
  - apply HQ'; [done|by eapply later_trans|done].
Qed.

(** ** Setting tunnels up *)

Lemma keeps_refuse s st : keeps work E [s] (refuse order s st) (fun _ => []).
Proof.
  intros held g c Hc. unfold refuse. apply wp_bind, wp_gets. destruct (Client.h3 c); [by apply keeps_send_error|].
  apply wp_pass. split; [by eapply drop_token|by apply later_refl].
Qed.
Lemma wp_refuse s st held g c Q :
  J (s :: held) g c -> (forall c', J held g c' -> later c c' -> Q tt c') -> wp (refuse order s st) Q c.
Proof. intros Hc HQ'. eapply (keeps_use work E [s]); [apply keeps_refuse|exact Hc|]. intros [] c' ? ?. by apply HQ'. Qed.

(** An entry that is refused is dropped after its answer was sent: with the
    entry dropped first, the answer is paid for. *)
Lemma wp_refuse_under (f : Client -> Client) s st held g c :
  (forall m q, f (c <| pending_error_responses := m |> <| quic := q |>)
     = f c <| pending_error_responses := m |> <| quic := q |>) ->
  Client.h3 (f c) = Client.h3 c -> pending_error_responses (f c) = pending_error_responses c ->
  quic (f c) = quic c -> world (f c) = world c -> J (s :: held) g (f c) ->
  wp (refuse order s st) (fun _ c1 => J held g (f c1) /\ later c c1 /\
    exists m q, c1 = c <| pending_error_responses := m |> <| quic := q |>) c.
Proof.
  intros Hf H1 H2 H3 H4 Hc. pose proof (keeps_refuse s st held g (f c) Hc) as Hk. revert Hk.
  unfold wp, refuse, send_error_response, with_errors, gets, mbind, M_bind. cbn beta iota. rewrite H1. destruct (Client.h3 c).
  - rewrite H2, H3. destruct (send_error _ _ _ _ _) as [m q]. cbn [post fst snd]. intros [Hj (Hw & Hp & _ & Hr)].
    rewrite Hf. cbn in Hw, Hp, Hr. rewrite H3 in Hw, Hp, Hr. split; [exact Hj|]. split; [|by eauto]. by split_and!.
  - cbn [post fst snd]. intros [Hj Hl]. split; [exact Hj|]. split; [by apply later_refl|].
    exists (pending_error_responses c), (quic c). by destruct c.
Qed.
Lemma wp_refuse_then_forget_tcp s st p held g c Q :
  J held g c -> Client.pending_tcp_tunnels c !! s = Some p -> (forall c', J held g c' -> later c c' -> Q tt c') ->
  wp (refuse order s st ≫= fun _ => forget_pending_tcp s) Q c.
Proof.
  intros Hc Hp HQ'. pose proof (inv_pending_tcp_del E held g c s Hc) as Hd. rewrite Hp in Hd. apply wp_bind.
  eapply wp_mono; [by apply (wp_refuse_under (fun c => c <| Client.pending_tcp_tunnels := delete s (Client.pending_tcp_tunnels c) |>) s st held g c)|].
  intros [] c1 (Hj & Hl & m & q & ->). unfold forget_pending_tcp, remove_pending_tcp.
  apply wp_bind, wp_bind, wp_gets, wp_bind, wp_modify, wp_ret.
  match goal with |- context [Client.pending_tcp_tunnels ?x !! s] => change (Client.pending_tcp_tunnels x !! s) with (Client.pending_tcp_tunnels c !! s) end.
  rewrite Hp.
  eapply (neutral_use work E); [neut|exact Hj|]. intros [] c2 ? ?. apply HQ'; [done|].
  eapply later_trans; [exact Hl|]. by eapply later_trans; [by apply later_refl|].
Qed.
Lemma wp_refuse_then_forget_udp s st p held g c Q :
  J held g c -> Client.pending_udp_tunnels c !! s = Some p -> (forall c', J held g c' -> later c c' -> Q tt c') ->
  wp (refuse order s st ≫= fun _ => forget_pending_udp s) Q c.
Proof.
  intros Hc Hp HQ'. pose proof (inv_pending_udp_del E held g c s Hc) as Hd. rewrite Hp in Hd. apply wp_bind.
  eapply wp_mono; [by apply (wp_refuse_under (fun c => c <| Client.pending_udp_tunnels := delete s (Client.pending_udp_tunnels c) |>) s st held g c)|].
  intros [] c1 (Hj & Hl & m & q & ->). unfold forget_pending_udp, remove_pending_udp.
  apply wp_bind, wp_bind, wp_gets, wp_bind, wp_modify, wp_ret.
  match goal with |- context [Client.pending_udp_tunnels ?x !! s] => change (Client.pending_udp_tunnels x !! s) with (Client.pending_udp_tunnels c !! s) end.
  rewrite Hp.
  eapply (neutral_use work E); [neut|exact Hj|]. intros [] c2 ? ?. apply HQ'; [done|].
  eapply later_trans; [exact Hl|]. by eapply later_trans; [by apply later_refl|].
Qed.

(** The addresses of a fresh tunnel are leased to its stream. *)
Definition lease_ok (s : Z) (addrs : list IpAddr) (c : Client) : Prop :=
  Forall ipaddr_ok addrs /\ zlen addrs <= 65536 /\ forall a, a ∈ addrs -> leased (world c) s a.
Lemma lease_later s addrs c c' : lease_ok s addrs c -> later c c' -> lease_ok s addrs c'.
Proof. intros (? & ? & Ha) (_ & _ & Hw & _). split_and!; [done|done|]. intros a ?. eapply leased_mono; [done|]. by apply Ha. Qed.
Lemma ip_authorised_later s c c' : ip_authorised E (world c) (quic c) s -> later c c' -> ip_authorised E (world c') (quic c') s.
Proof. intros Ha (_ & Hq & Hw & _). by eapply ip_authorised_mono. Qed.

(** The leased addresses, or none. *)
Lemma wp_lease s held g c Q :
  J held g c -> ip_authorised E (world c) (quic c) s ->
  (forall r c', J held g c' -> later c c' -> (forall l, r = Some l -> lease_ok s l c') -> Q r c') ->
  wp (match pinned_identity c with
      | Some i => r ← perform (claim_addresses s i);
                  match r with Ok a => mret (Some a) | Err _ => mret None | Panic => panic end
      | None => a ← perform (allocate_addresses s); mret (Some a)
      end) Q c.
Proof.
  intros Hc Ha HQ'. destruct (pinned_identity c) as [i|].
  - apply wp_bind, wp_perform. set (r := outside_answer _ _ _). pose proof (claim_post (world c) s i) as Hp. fold r in Hp.
    assert (J held g (c <| world := world c ++ [Out (claim_addresses s i) r] |>)) as Hc' by by apply inv_world.
    assert (later c (c <| world := world c ++ [Out (claim_addresses s i) r] |>)) as Hl by by eapply later_world.
    destruct r as [l|e|]; [| |done]; apply wp_ret, HQ'; try done. intros ? [= <-]. destruct Hp. split_and!; [done|done|].
    intros a Hin. exists l. split; [|done]. cbn. rewrite omap_app, elem_of_app. right. by left.
  - apply wp_bind, wp_perform. set (l := outside_answer _ _ _). pose proof (allocate_post (world c) s) as Hp. fold l in Hp.
    apply wp_ret, HQ'; [by apply inv_world|by eapply later_world|]. intros ? [= <-]. destruct Hp. split_and!; [done|done|].
    intros a Hin. exists l. split; [|done]. cbn. rewrite omap_app, elem_of_app. right. by left.
Qed.

Lemma wp_insert_routes s l0 l held g c Q :
  J held g c -> lease_ok s l0 c -> (forall a, a ∈ l -> a ∈ l0) -> (forall c', J held g c' -> later c c' -> Q tt c') ->
  wp (each (fun a => perform (insert_route a {| conn_id := index c; Routing.stream_id := s |})) l) Q c.
Proof.
  intros Hc Hl0 Hsub HQ'. pose proof (ci_index _ _ _ _ Hc) as Hi.
  eapply (wp_each _ _ (fun _ c' => J held g c' /\ later c c')).
  - intros a l' c1 Hin [Hc1 Hl1]. apply wp_perform. split.
    + apply inv_world; [done|]. split; [done|]. destruct (lease_later _ _ _ _ Hl0 Hl1) as (_ & _ & Hle). by apply Hle, Hsub.
    + eapply later_trans; [done|by eapply later_world].
  - by split; [|apply later_refl].
  - intros c' [? ?]. by apply HQ'.
Qed.

Lemma new_ip_ok mtu : unused (new_ip mtu) /\ capsule_reader_ok (new_ip mtu).
Proof.
  split; [done|]. split; [apply reader_new_ok|]. intros _. eexists. split; [done|]. cbn [seen]. rewrite size_empty. unfold MAX_ADDRESS_REQUEST_IDS. lia.
Qed.

(** The tunnel after the response was accepted. *)
Lemma wp_ip_established s t addrs held g c Q :
  J held (add_fresh s g) c -> s ∉ fresh_streams g -> lease_ok s addrs c -> assigned_addrs t = addrs ->
  (forall E', exists b, as_bytes (E:=E') (Lease.header t) = Ok b) ->
  (forall c', J held g c' -> later c c' -> Q tt c') ->
  wp (_ ← modify (fun c => c <| pending_ip_responses ::= delete s |>);
      me ← gets index;
      _ ← each (fun a => perform (insert_route a {| conn_id := me; Routing.stream_id := s |})) addrs;
      capsules ← lift (E:=Empty_set) (encode_ip_setup_capsules addrs);
      _ ← insert_capsule_stream s (new_ip (tun_mtu (ip_proxy config)));
      _ ← modify (fun c => c <| Client.ip_tunnels ::= fun m => <[s := t]> m |>);
      _ ← modify (fun c => c <| io ::= fun i => i <| capsule_readable ::= union {[s]} |> |>);
      queued ← with_io (fun i => Ok (queue_capsule_bytes s capsules i));
      if queued : bool then pass
      else _ ← teardown_ip_tunnel s; shutdown_both s EXCESSIVE_LOAD) Q c.
Proof.
  intros Hc Hs Hl Ht Hh HQ'. apply wp_bind. wskip. intros [] c1 Hc1 Hl1. apply wp_bind, wp_gets, wp_bind.
  pose proof (lease_later _ _ _ _ Hl Hl1) as Hle1.
  eapply (wp_insert_routes s addrs); [done|exact Hle1|done|]. intros c2 Hc2 Hl2. apply wp_bind.
  destruct (setup_capsules_ok addrs) as [w Hw]; [apply Hl|apply Hl|]. eapply wp_lift; [exact Hw|].
  destruct (new_ip_ok (tun_mtu (ip_proxy config))) as [Hu Hr]. apply wp_bind.
  eapply wp_insert_capsule_stream; [exact Hc2|done|done|done|]. intros c3 Hc3 Hl3.
  apply wp_bind, wp_modify. set (c4 := c3 <| Client.ip_tunnels ::= _ |>).
  assert (later c c4) as Hl4.
  { do 3 (eapply later_trans; [done|]). by apply later_refl. }
  assert (J held g c4) as Hc4.
  { apply inv_ip_map; [done|]. intros s' t' [[<- <-]|[_ ?]]%lookup_insert_Some; [|by eapply ci_ip].
    destruct (lease_later _ _ _ _ Hl Hl4) as (? & ? & ?). split; [done|]. rewrite Ht. done. }
  apply wp_bind. wskip. intros [] c5 Hc5 Hl5. apply wp_bind. wskip. intros queued c6 Hc6 Hl6.
  assert (later c c6) as Hl6' by (eapply later_trans; [exact Hl4|]; by eapply later_trans).
  destruct queued; [by apply wp_pass, HQ'|]. wskip. intros [] c7 Hc7 Hl7. apply HQ'; [done|by eapply later_trans].
Qed.

(** The response was accepted: the stream's capsules may be opened. *)
Lemma wp_accept s hs held g c Q :
  J (s :: held) g c ->
  (forall u c', J held (add_fresh s g) c' -> s ∉ fresh_streams g -> later c c' -> Q (Ok u) c') ->
  (forall e c', J (s :: held) g c' -> later c c' -> Q (Err e) c') ->
  wp (call_ (send_response s hs false)) Q c.
Proof.
  intros Hc HQ1 HQ2. destruct (inv_unanswered _ _ _ _ _ Hc) as (Hn & Hf & Hacc).
  apply wp_call. assert (later c (c <| quic := exec (send_response s hs false) (quic c) |>)) as Hl by by apply later_call.
  destruct (answer _ (quic c) (send_response s hs false)) as [u|e|] eqn:Ha; [| |by destruct (send_response_panic _ _ _ _ Ha)].
  - rewrite exec_trace, Ha in Hl |- *. pose proof (inv_answered E held g c s hs false [Ev (send_response s hs false) (Ok u)] Hc eq_refl) as Hj.
    apply HQ1; [|done|done]. destruct Hj. split; cbn in *; try done. intros s' [->|Hs']%elem_of_cons; [|by auto].
    split; [done|]. rewrite accepted_app, length_app. unfold accepted at 2. cbn [omap list_omap accepted_response].
    rewrite filter_cons, decide_True by done. cbn. lia.
  - rewrite exec_trace, Ha in Hl |- *. apply HQ2; [|done]. by apply inv_quiet_calls.
Qed.

Lemma wp_setup_ip_tunnel s held g c Q :
  J (s :: held) g c -> ip_authorised E (world c) (quic c) s -> (forall c', J held g c' -> later c c' -> Q tt c') ->
  wp (setup_ip_tunnel order config s) Q c.
Proof.
  intros Hc Ha HQ'. unfold setup_ip_tunnel. apply wp_bind. wskip. intros at_ c1 Hc1 Hl1. apply wp_bind.
  destruct (ci_known _ _ _ _ Hc s) as [Hs _]; [rewrite occ_cons, decide_True by done; lia|].
  destruct (tunnel_new_request s at_ Hs) as (h & Ht & Hh). eapply wp_lift; [exact Ht|]. apply wp_bind, wp_gets, wp_bind.
  eapply wp_lease; [done|by eapply ip_authorised_later|]. intros r c2 Hc2 Hl2 Hr.
  assert (later c c2) as Hl by by eapply later_trans. clear Hl1 Hl2 Hc1.
  assert (forall c', J held g c' -> later c2 c' -> Q tt c') as Hdone. { intros. apply HQ'; [done|by eapply later_trans]. }
  destruct r as [[|a l]|]; [by eapply wp_refuse| |by eapply wp_refuse].
  set (addrs := a :: l) in *. apply wp_bind, wp_gets. destruct (Client.h3 c2); cbn [negb].
  2:{ apply drop_token in Hc2. wskip. intros [] c3 ? ?. by apply Hdone. }
  apply wp_bind. eapply wp_accept; [done|..].
  - intros u c3 Hc3 Hf Hl3. eapply (wp_ip_established s _ addrs); [done|done| | |done|].
    + eapply lease_later; [by apply Hr|done].
    + done.
    + intros c' ? ?. apply Hdone; [done|by eapply later_trans].
  - intros e c3 Hc3 Hl3. apply wp_bind. wskip. intros [] c4 Hc4 Hl4.
    assert (later c2 c4) as Hl24 by by eapply later_trans.
    assert (wp pass Q c4) as Hpass. { apply wp_pass, Hdone; [by eapply drop_token|done]. }
    assert (wp (waiting ← gets (fun c => pending_ip_responses c !! s);
                match waiting with
                | Some _ => pass
                | None => t ← call_ now; modify (fun c => c <| pending_ip_responses ::= fun m => <[s := t]> m |>)
                end) Q c4) as Hwait.
    { apply wp_bind, wp_gets. destruct (_ !! s); [done|]. apply wp_bind. wskip. intros tm c5 Hc5 Hl5. apply wp_modify, Hdone.
      - apply inv_pending_ip_put; [done|]. eapply ip_authorised_later; [exact Ha|]. do 2 (eapply later_trans; [done|]). done.
      - do 2 (eapply later_trans; [done|]). by apply later_refl. }
    by destruct e.
Qed.

(** What a batch of setups says of the requests it came from. *)
Definition setups_ok (p : PendingConnectSetups) (c : Client) : Prop :=
  Forall (fun x => tcp_authorised E (world c) (quic c) x.1 x.2) (setup_tcp p) /\
  Forall (fun x => udp_authorised E (world c) (quic c) x.1.1 x.1.2) (setup_udp p) /\
  Forall (fun s => ip_authorised E (world c) (quic c) s) (setup_ip p).
Lemma setups_later p c c' : setups_ok p c -> later c c' -> setups_ok p c'.
Proof.
  intros (H1 & H2 & H3) (_ & Hq & Hw & _). split_and!; eapply Forall_impl; try done; intros ?.
  - by apply tcp_authorised_mono.
  - by apply udp_authorised_mono.
  - by apply ip_authorised_mono.
Qed.

Lemma wp_apply_tcp s t held g c Q :
  J held g c -> tcp_authorised E (world c) (quic c) s t -> (forall c', J held g c' -> later c c' -> Q tt c') ->
  wp (apply_tcp_setup order config (s, t)) Q c.
Proof.
  intros Hc Ha HQ'. unfold apply_tcp_setup. apply wp_bind, wp_gets. destruct (_ !! s) as [p|] eqn:Hp; [|by apply wp_pass, HQ', later_refl].
  apply wp_bind, wp_gets. destruct (bool_decide _); [by eapply wp_refuse_then_forget_tcp|].
  apply wp_bind, wp_perform, wp_modify. set (task := outside_answer _ _ _). apply HQ'; [|by eapply later_world].
  set (c1 := c <| world := _ |>). assert (J held g c1) as Hc1 by by apply inv_world.
  pose proof (inv_pending_tcp_set E held g c1 s p (start_connect task p) Hc1 Hp (ci_pending_tcp _ _ _ _ Hc s p Hp)) as Hs.
  by rewrite <-(alter_present (start_connect task)) in Hs.
Qed.
Lemma wp_apply_udp s t h held g c Q :
  J held g c -> udp_authorised E (world c) (quic c) s t -> (forall c', J held g c' -> later c c' -> Q tt c') ->
  wp (apply_udp_setup order config (s, t, h)) Q c.
Proof.
  intros Hc Ha HQ'. unfold apply_udp_setup. apply wp_bind, wp_gets. destruct (_ !! s) as [p|] eqn:Hp; [|by apply wp_pass, HQ', later_refl].
  apply wp_bind, wp_gets. destruct (bool_decide _); [by eapply wp_refuse_then_forget_udp|].
  apply wp_bind, wp_perform, wp_modify. set (task := outside_answer _ _ _). apply HQ'; [|by eapply later_world].
  set (c1 := c <| world := _ |>). assert (J held g c1) as Hc1 by by apply inv_world.
  pose proof (inv_pending_udp_set E held g c1 s p (start_setup task p) Hc1 Hp) as Hs.
  by rewrite <-(alter_present (start_setup task)) in Hs.
Qed.
Lemma wp_apply_ip s held g c Q :
  J (s :: held) g c -> ip_authorised E (world c) (quic c) s -> (forall c', J held g c' -> later c c' -> Q tt c') ->
  wp (apply_ip_setup order config s) Q c.
Proof.
  intros Hc Ha HQ'. apply wp_bind, wp_gets. destruct (bool_decide _); [by eapply wp_refuse|by eapply wp_setup_ip_tunnel].
Qed.

(** A list of steps, each needing what held of its element at the start. *)
Lemma wp_each_later {A} (f : A -> M unit) (P : A -> Client -> Prop) (tokens : list A -> list Z) l held g c Q :
  (forall a c c', P a c -> later c c' -> P a c') ->
  (forall a rest c (Q' : unit -> Client -> Prop), J (tokens (a :: rest) ++ held) g c -> P a c ->
     (forall c', J (tokens rest ++ held) g c' -> later c c' -> Q' tt c') -> wp (f a) Q' c) ->
  J (tokens l ++ held) g c -> Forall (fun a => P a c) l ->
  (forall c', J (tokens [] ++ held) g c' -> later c c' -> Q tt c') -> wp (each f l) Q c.
Proof.
  intros Hmono Hf. revert c. induction l as [|a l IH]; intros c Hc Hl HQ'; cbn [each].
  { apply wp_pass, HQ'; [done|by apply later_refl]. }
  apply Forall_cons in Hl as [Ha Hl]. apply wp_bind. eapply Hf; [done|done|]. intros c1 Hc1 Hl1. apply IH; [done|..].
  - refine (Forall_impl _ _ _ Hl _). intros x Hx. exact (Hmono x _ _ Hx Hl1).
  - intros c' ? ?. apply HQ'; [done|by eapply later_trans].
Qed.

Lemma wp_apply_connect_setups p held g c Q :
  J (setup_ip p ++ held) g c -> setups_ok p c -> (forall c', J held g c' -> later c c' -> Q tt c') ->
  wp (apply_connect_setups order config p) Q c.
Proof.
  intros Hc Hp HQ'. unfold apply_connect_setups. apply wp_bind.
  eapply (wp_each_later _ (fun x c => tcp_authorised E (world c) (quic c) x.1 x.2) (fun _ => [])); [|..|exact Hc|apply Hp|].
  { intros [s t] c1 c2 ? (_ & ? & ? & _). by eapply tcp_authorised_mono. }
  { intros [s t] rest c1 Q' ? ? ?. by eapply wp_apply_tcp. }
  intros c1 Hc1 Hl1. apply (setups_later _ _ _ Hp) in Hl1 as Hp1. apply wp_bind.
  eapply (wp_each_later _ (fun x c => udp_authorised E (world c) (quic c) x.1.1 x.1.2) (fun _ => [])); [|..|exact Hc1|apply Hp1|].
  { intros [[s t] h] c2 c3 ? (_ & ? & ? & _). by eapply udp_authorised_mono. }
  { intros [[s t] h] rest c2 Q' ? ? ?. by eapply wp_apply_udp. }
  intros c2 Hc2 Hl2. apply (setups_later _ _ _ Hp1) in Hl2 as Hp2.
  eapply (wp_each_later _ (fun s c => ip_authorised E (world c) (quic c) s) (fun l => l)); [|..|exact Hc2|apply Hp2|].
  { intros s c3 c4 ? ?. by eapply ip_authorised_later. }
  { intros s rest c3 Q' ? ? ?. by eapply wp_apply_ip. }
  intros c3 Hc3 Hl3. apply HQ'; [done|]. do 2 (eapply later_trans; [done|]). done.
Qed.

(** ** Credentials *)

Lemma wp_reject_unverified s a held g c Q :
  J held g c -> Client.awaiting_auth c !! s = Some a -> (forall c', J held g c' -> later c c' -> Q tt c') ->
  wp (reject_unverified order s) Q c.
Proof.
  intros Hc Ha HQ'. unfold reject_unverified, forget_awaiting. apply wp_bind, wp_bind.
  eapply wp_remove_awaiting; [done|]. intros ? c1 -> Hl1. rewrite Ha. intros Hc1. wskip. intros [] c2 Hc2 Hl2.
  eapply wp_refuse; [done|]. intros c3 ? ?. apply HQ'; [done|]. by do 2 (eapply later_trans; [done|]).
Qed.

(** The request of a check, as it was checked. *)
Definition auth_ok (r : PendingAuth) (c : Client) : Prop :=
  prechecked E (world c) (quic c) (pa_stream r) (pa_request r) (pa_credential r) (pa_password r).
Lemma auth_later r c c' : auth_ok r c -> later c c' -> auth_ok r c'.
Proof. intros Ha (_ & ? & ? & _). by eapply prechecked_mono. Qed.

Lemma perform_keeps_awaiting {A} (e : effect A) held g c Q :
  harmless e = true -> J held g c ->
  (forall x c', Client.awaiting_auth c' = Client.awaiting_auth c -> J held g c' -> later c c' -> Q x c') ->
  wp (perform e) Q c.
Proof.
  intros He Hc HQ'. apply wp_perform, HQ'; [done| |by eapply later_world]. by apply inv_world; [|apply harmless_justified].
Qed.

Lemma wp_spawn_auth r held g c Q :
  J held g c -> auth_ok r c -> (forall c', J held g c' -> later c c' -> Q tt c') ->
  wp (spawn_auth_verification order r) Q c.
Proof.
  intros Hc Ha HQ'. unfold spawn_auth_verification. apply wp_bind, wp_gets. destruct (_ !! pa_stream r) as [a|] eqn:Hw.
  2:{ by apply wp_pass, HQ', later_refl. }
  apply wp_bind. eapply perform_keeps_awaiting; [done|done|]. intros slot c1 E1 Hc1 Hl1. rewrite <-E1 in Hw.
  destruct slot; cbn [negb].
  2:{ eapply wp_reject_unverified; [done|done|]. intros; apply HQ'; [done|by eapply later_trans]. }
  apply wp_bind. eapply perform_keeps_awaiting; [done|done|]. intros queue c2 E2 Hc2 Hl2. rewrite <-E2 in Hw.
  assert (later c c2) as Hl by by eapply later_trans. destruct queue; cbn [negb].
  2:{ apply wp_bind. eapply wp_reject_unverified; [done|done|]. intros c3 Hc3 Hl3. wskip. intros [] c4 ? ?.
      apply HQ'; [done|]. by do 2 (eapply later_trans; [done|]). }
  apply wp_bind, wp_perform. set (task := outside_answer _ _ _). set (c3 := c2 <| world := _ |>).
  assert (J held g c3) as Hc3. { apply inv_world; [done|]. exact (auth_later _ _ _ Ha Hl). }
  assert (later c c3) as Hl3. { eapply later_trans; [done|]. by eapply later_world. }
  apply wp_bind, wp_gets. change (Client.awaiting_auth c3) with (Client.awaiting_auth c2). rewrite Hw. cbn [set_task].
  apply wp_bind, wp_modify. set (c4 := c3 <| Client.awaiting_auth ::= _ |>).
  assert (J held g c4) as Hc4 by by eapply inv_awaiting_set.
  wskip. intros [] c5 ? ?. apply HQ'; [done|]. eapply later_trans; [exact Hl3|]. by eapply later_trans; [apply later_refl|].
Qed.
Lemma wp_spawn_auths l held g c Q :
  J held g c -> Forall (fun r => auth_ok r c) l -> (forall c', J held g c' -> later c c' -> Q tt c') ->
  wp (spawn_auth_verifications order (env_auth E) l) Q c.
Proof.
  intros Hc Hl HQ'. unfold spawn_auth_verifications. destruct (env_auth E); [|by apply wp_pass, HQ', later_refl].
  eapply (wp_each_later _ auth_ok (fun _ => [])); [by apply auth_later|..|exact Hc|exact Hl|done].
  intros r rest c1 Q' ? ? ?. by eapply wp_spawn_auth.
Qed.

(** ** HTTP/3 events *)

(** The batch of setups of one round of events. *)
Definition batch_ok (held : list Z) (g : Ghost) (b : Batch) (c : Client) : Prop :=
  J (setup_ip (setups b) ++ held) g c /\ setups_ok (setups b) c /\ Forall (fun r => auth_ok r c) (pending_auth b).

Lemma batch_later held g b c c' :
  batch_ok held g b c -> J (setup_ip (setups b) ++ held) g c' -> later c c' -> batch_ok held g b c'.
Proof.
  intros (_ & Hs & Ha) Hc Hl. split_and!; [done|by eapply setups_later|].
  refine (Forall_impl _ _ _ Ha _). intros r Hr. exact (auth_later _ _ _ Hr Hl).
Qed.

(** A step that leaves the setups alone. *)
Lemma batch_skip {A} (m : M A) held g b c Q :
  neutral m -> batch_ok held g b c -> (forall a c', batch_ok held g b c' -> later c c' -> Q a c') -> wp m Q c.
Proof.
  intros Hm Hb HQ'. eapply (neutral_use work E); [done|apply Hb|]. intros a c' ? ?. apply HQ'; [by eapply batch_later|done].
Qed.

Ltac bskip := apply wp_bind; eapply batch_skip; [solve [neut]|eassumption|intros ? ? ? ?].
Ltac bdone := repeat first [eassumption | (eapply later_trans; [eassumption|])].

(** Setups that are taken back are not answered. *)
Lemma occ_filter s (P : Z -> Prop) `{!forall x, Decision (P x)} l : (occ s (filter P l) <= occ s l)%nat.
Proof.
  unfold occ. rewrite list_filter_filter. induction l as [|x l IH]; [done|]. rewrite !filter_cons.
  repeat case_decide; cbn; try lia; naive_solver.
Qed.
Lemma batch_drop_ip held g b c (P : Z -> Prop) `{!forall x, Decision (P x)} b' :
  batch_ok held g b c -> setups b' = setups b <| setup_ip ::= filter P |> -> pending_auth b' = pending_auth b ->
  batch_ok held g b' c.
Proof.
  intros (Hc & (H1 & H2 & H3) & Ha) Hb Hp. unfold batch_ok, setups_ok. rewrite Hb, Hp. cbn. split_and!; try done.
  - eapply inv_drop; [done|]. intros s. rewrite !occ_app. pose proof (occ_filter s P (setup_ip (setups b))). lia.
  - apply Forall_forall. intros s [_ ?]%list_elem_of_filter. by eapply Forall_forall in H3.
Qed.

Lemma wp_reject_trailers s b held g c Q :
  batch_ok held g b c -> (forall b' c', batch_ok held g b' c' -> later c c' -> Q b' c') -> wp (reject_trailers s b) Q c.
Proof.
  intros Hb HQ'. unfold reject_trailers. do 10 bskip. apply wp_ret, HQ'; [|bdone].
  eapply (batch_drop_ip _ _ b); [done|done|done].
Qed.

(** The end of a stream forgets its request. *)
Lemma batch_ended s b held g c r :
  batch_ok held g b c -> s ∈ omap ended_of (quic c) ->
  batch_ok held g b (c <| request_headers_seen := request_headers_seen c ∖ {[s]} |> <| tcp_read_resumes := r |>).
Proof.
  intros Hb Hs. eapply batch_later; [done| |by apply later_refl]. apply inv_resumes, inv_seen_sub; [apply Hb|set_solver|].
  intros s' Hin Hout. left. destruct (decide (s' = s)) as [->|Hne]; [done|]. destruct Hout.
  apply elem_of_difference. split; [done|]. by rewrite elem_of_singleton.
Qed.
Lemma neutral_forget_ip_response s :
  neutral (modify (fun c => c <| tcp_read_resumes ::= fun r => r ∖ {[s]} |> <| pending_ip_responses ::= delete s |>)).
Proof. apply neutral_modify; [|done]. intros held g c Hc. eapply inv_drop_opt. by apply inv_pending_ip_del, inv_resumes. Qed.
#[local] Hint Resolve neutral_forget_ip_response : client.

Lemma wp_on_reset s b held g c Q :
  batch_ok held g b c -> s ∈ omap ended_of (quic c) -> (forall b' c', batch_ok held g b' c' -> later c c' -> Q b' c') ->
  wp (on_reset s b) Q c.
Proof.
  intros Hb Hs HQ'. unfold on_reset. apply wp_bind, wp_modify.
  pose proof (batch_ended s b held g c (tcp_read_resumes c) Hb Hs) as Hb1.
  match type of Hb1 with batch_ok _ _ _ ?x => set (c1 := x) in *; assert (later c c1) by by apply later_refl end.
  match goal with |- wp _ _ ?x => replace x with c1 by by destruct c end.
  do 8 bskip. apply wp_ret, HQ'; [done|bdone].
Qed.

Lemma wp_on_finished s b held g c Q :
  batch_ok held g b c -> s ∈ omap ended_of (quic c) -> (forall b' c', batch_ok held g b' c' -> later c c' -> Q b' c') ->
  wp (on_finished s b) Q c.
Proof.
  intros Hb Hs HQ'. unfold on_finished. apply wp_bind, wp_modify. match goal with |- wp _ _ ?x => set (c1 := x) end.
  assert (batch_ok held g b c1) as Hb1 by by apply batch_ended. assert (later c c1) by by apply later_refl. clearbody c1.
  apply wp_bind, wp_gets. cbn [id]. destruct (bool_decide _); [by apply wp_ret, HQ'|].
  destruct (Client.awaiting_auth c1 !! s) as [a|] eqn:Ha.
  { apply wp_bind, wp_modify, wp_ret, HQ'; [|by eapply later_trans; [|apply later_refl]].
    eapply batch_later; [done| |by apply later_refl]. eapply inv_awaiting_set; [apply Hb1|done]. }
  destruct (_ || _); [by apply wp_ret, HQ'|]. apply wp_bind.
  assert (forall t, Client.tcp_tunnels c1 !! s = Some t -> Forall resp_ok (pending_responses t)) as Ht.
  { intros t Ht. exact (ci_tcp _ _ _ _ (proj1 Hb1) s t Ht). }
  assert (forall c2, batch_ok held g b c2 -> later c c2 ->
    wp (_ ← match Client.tcp_tunnels c1 !! s with Some t => finish_tcp_client s t | None => pass end;
        _ ← forget_udp s;
        ip ← gets (fun c => bool_decide (is_Some (Client.ip_tunnels c !! s)));
        mret (b <| closed_capsule_streams ::= fun l => l ++ [s] |>
                <| closed_ip_streams ::= fun l => if ip : bool then l ++ [s] else l |>)) Q c2) as Hrest.
  { intros c2 Hb2 ?. apply wp_bind. eapply batch_skip; [|exact Hb2|].
    - destruct (Client.tcp_tunnels c1 !! s); [by apply neutral_finish_tcp_client, Ht|neut].
    - intros ? c3 ? ?. do 2 bskip. apply wp_ret, HQ'; [done|bdone]. }
  clear Ht. destruct (Client.pending_tcp_tunnels c1 !! s) as [p|] eqn:Hp; [|by apply wp_pass, Hrest].
  apply wp_bind, wp_call. set (at_ := answer _ _ _). set (c2 := c1 <| quic := _ |>).
  assert (later c1 c2) as Hl2 by by apply later_call. apply wp_modify, Hrest.
  - eapply batch_later; [exact Hb1| |eapply later_trans; [exact Hl2|by apply later_refl]].
    eapply inv_pending_tcp_set; [|exact Hp|exact (ci_pending_tcp _ _ _ _ (proj1 Hb1) s p Hp)]. by apply inv_call, Hb1.
  - eapply later_trans; [done|]. eapply later_trans; [exact Hl2|]. by apply later_refl.
Qed.

Lemma wp_seen_room held g c Q :
  J held g c ->
  (forall r c', J held g c' -> later c c' -> request_headers_seen c' ⊆ request_headers_seen c ->
     (forall s, load s c' = load s c) -> (r = true -> (size (request_headers_seen c') < MAX_REQUEST_STREAMS)%nat) -> Q r c') ->
  wp seen_room Q c.
Proof.
  intros Hc HQ'. unfold seen_room. apply wp_bind, wp_gets. destruct (bool_decide_reflect (MAX_REQUEST_STREAMS <= size (request_headers_seen c))%nat); cbn [negb].
  2:{ apply wp_ret, HQ'; [done|by apply later_refl|done|done|]. lia. }
  apply wp_bind, wp_modify, wp_gets, HQ'; [|by apply later_refl| |done|].
  - apply inv_seen_sub; [done|intros s; rewrite elem_of_filter; by intros [_ ?]|]. intros s Hs Hn. right. exists (quic c). split; [done|].
    destruct (ask (stream_closed s) (quic c)) eqn:Hcl; [done|]. destruct Hn. by apply elem_of_filter.
  - intros s. cbn. rewrite elem_of_filter. by intros [_ ?].
  - rewrite negb_true_iff, bool_decide_eq_false. lia.
Qed.

Lemma setups_put_tcp p s t c : setups_ok p c -> tcp_authorised E (world c) (quic c) s t ->
  setups_ok (p <| setup_tcp ::= fun l => l ++ [(s, t)] |>) c.
Proof. intros (? & ? & ?) ?. split_and!; [|done|done]. apply Forall_app. split; [done|]. by constructor. Qed.
Lemma setups_put_udp p s t h c : setups_ok p c -> udp_authorised E (world c) (quic c) s t ->
  setups_ok (p <| setup_udp ::= fun l => l ++ [(s, t, h)] |>) c.
Proof. intros (? & ? & ?) ?. split_and!; [done| |done]. apply Forall_app. split; [done|]. by constructor. Qed.
Lemma setups_put_ip p s c : setups_ok p c -> ip_authorised E (world c) (quic c) s ->
  setups_ok (p <| setup_ip ::= fun l => l ++ [s] |>) c.
Proof. intros (? & ? & ?) ?. split_and!; [done|done|]. apply Forall_app. split; [done|]. by constructor. Qed.

Lemma longer {A} (l : list A) x : bool_decide (length l < length (l ++ [x]))%nat = true.
Proof. apply bool_decide_eq_true. rewrite length_app. cbn. lia. Qed.
Lemma not_longer {A} (l : list A) : bool_decide (length l < length l)%nat = false.
Proof. apply bool_decide_eq_false. lia. Qed.

Lemma wp_stage_request s p p' held g c Q :
  dispatched s (setup_ip p ++ held) g p p' c -> setups_ok p c ->
  (forall c', J (setup_ip p' ++ held) g c' -> setups_ok p' c' -> later c c' -> Q tt c') ->
  wp (stage_request s p p') Q c.
Proof.
  intros Hd Hp HQ'. unfold stage_request. apply wp_bind.
  destruct Hd as [[-> Hc]|[Hc [(t & Ht & ->)|[(t & h & Ht & ->)|[Ht ->]]]]]; cbn [setup_tcp setup_udp setup_ip];
    cbn -[bool_decide last]; rewrite ?longer, ?not_longer.
  - apply wp_pass, wp_pass, HQ'; [done|done|by apply later_refl].
  - apply wp_bind. wskip. intros at_ c1 Hc1 Hl1.
    eapply (keeps_use work E [s]); [by apply keeps_insert_pending_tcp|exact Hc1|]. intros [] c2 Hc2 Hl2.
    assert (later c c2) by by eapply later_trans. apply wp_pass, HQ'; [done| |done]. eapply setups_later; [|done]. by apply setups_put_tcp.
  - apply wp_pass. rewrite last_snoc. apply wp_bind. wskip. intros at_ c1 Hc1 Hl1. apply wp_bind, wp_gets.
    eapply (keeps_use work E [s]); [by apply keeps_insert_pending_udp|exact Hc1|]. intros [] c2 Hc2 Hl2.
    assert (later c c2) by by eapply later_trans. apply HQ'; [done| |done]. eapply setups_later; [|done]. by apply setups_put_udp.
  - apply wp_pass, wp_pass, HQ'; [|by apply setups_put_ip|by apply later_refl].
    eapply inv_drop; [done|]. intros s'. cbn. rewrite occ_cons, !occ_app, occ_cons. change (occ s' []) with 0%nat. lia.
Qed.

Lemma wp_hold_request r b held g c Q :
  J (pa_stream r :: setup_ip (setups b) ++ held) g c -> setups_ok (setups b) c -> Forall (fun r => auth_ok r c) (pending_auth b) ->
  auth_ok r c -> (forall b' c', setups b' = setups b -> batch_ok held g b' c' -> later c c' -> Q b' c') ->
  wp (hold_request order r b) Q c.
Proof.
  intros Hc Hs Ha Hr HQ'. unfold hold_request. apply wp_bind, wp_gets.
  destruct (bool_decide_reflect (MAX_PENDING_AUTH_PER_CONNECTION <= size (Client.awaiting_auth c))%nat).
  { apply wp_bind. eapply (keeps_use work E [pa_stream r]); [by apply keeps_send_error|exact Hc|]. intros [] c1 Hc1 Hl1.
    apply wp_ret, HQ'; [done| |done]. split_and!; [done|by eapply setups_later|].
    refine (Forall_impl _ _ _ Ha _). intros x Hx. exact (auth_later _ _ _ Hx Hl1). }
  apply wp_bind, wp_gets, wp_bind, wp_gets. cbn [awaiting_new]. apply wp_bind, wp_modify. apply wp_bind.
  unfold insert_awaiting. apply wp_bind, wp_gets, wp_bind, wp_modify.
  match goal with |- wp _ _ ?x => set (c1 := x) end. assert (later c c1) as Hl1 by by apply later_refl.
  assert (J (setup_ip (setups b) ++ held) g c1) as Hc1 by by apply inv_awaiting_put; [apply inv_flags|cbn; lia].
  eapply (neutral_use work E); [|exact Hc1|]. { destruct (_ !! _); neut. }
  intros [] c2 Hc2 Hl2. assert (later c c2) as Hl by by eapply later_trans. apply wp_ret, HQ'; [done| |done].
  split_and!; [done|by eapply setups_later|]. apply Forall_app. split; [|constructor; [by eapply auth_later|done]].
  refine (Forall_impl _ _ _ Ha _). intros x Hx. exact (auth_later _ _ _ Hx Hl).
Qed.

Lemma wp_on_headers s hs b held g c Q :
  batch_ok held g b c -> (s, hs) ∈ omap headers_of (quic c) -> Datagram.stream_ok s ->
  s ∈ request_headers_seen c \/ (load s c + occ s (setup_ip (setups b) ++ held) = 0)%nat ->
  (forall b' c', batch_ok held g b' c' -> later c c' -> Q b' c') ->
  wp (on_headers order (env_decode E) config (env_auth E) s hs b) Q c.
Proof.
  intros Hb Hhs Hok Hnew HQ'. unfold on_headers. apply wp_bind, wp_gets.
  destruct (bool_decide_reflect (s ∈ request_headers_seen c)) as [|Hs].
  { destruct (existsb _ _); [by eapply wp_reject_trailers|by apply wp_ret, HQ', later_refl]. }
  destruct Hnew as [?|Hnew]; [done|]. apply wp_bind, wp_gets. destruct (bool_decide _); [by apply wp_ret, HQ', later_refl|].
  apply wp_bind. eapply wp_seen_room; [apply Hb|]. intros room c1 Hc1 Hl1 Hsub Hload Hsz.
  pose proof (batch_later _ _ _ _ _ Hb Hc1 Hl1) as Hb1. destruct room; cbn [negb].
  2:{ bskip. apply wp_ret, HQ'; [done|bdone]. }
  apply wp_bind, wp_modify. set (c2 := c1 <| request_headers_seen ::= _ |>). assert (later c c2) as Hl2 by (eapply later_trans; [exact Hl1|by apply later_refl]).
  assert (J (s :: setup_ip (setups b) ++ held) g c2) as Hc2.
  { apply inv_seen_add; [done|by intros ?%Hsub|by rewrite Hload|done|by apply Hsz]. }
  apply wp_bind. eapply wp_handle_request; [exact Hc2| |..].
  { destruct Hl2 as (_ & [k ->] & _). rewrite omap_app, elem_of_app. by left. }
  - intros p' c3 Hd Hl3. assert (later c c3) as Hl by by eapply later_trans. destruct Hb as (_ & Hs0 & Ha0).
    apply wp_bind, wp_ret, wp_bind. eapply wp_stage_request; [done|by eapply setups_later|]. intros c4 Hc4 Hs4 Hl4.
    apply wp_ret, HQ'; [|by eapply later_trans]. split_and!; [done|done|].
    refine (Forall_impl _ _ _ Ha0 _). intros x Hx. eapply auth_later; [exact Hx|by eapply later_trans].
  - intros r c3 Hc3 Hl3 Hr Hpre. assert (later c c3) as Hl by by eapply later_trans. destruct Hb as (_ & Hs0 & Ha0).
    subst s. apply wp_bind. eapply wp_hold_request; [exact Hc3|by eapply setups_later| |exact Hpre|].
    { refine (Forall_impl _ _ _ Ha0 _). intros x Hx. exact (auth_later _ _ _ Hx Hl). }
    intros b' c4 Hb' Hb4 Hl4. change (setups b' = setups b) in Hb'. unfold batch_ok in Hb4. rewrite Hb' in Hb4. destruct Hb4 as (Hc4 & Hs4 & Ha4).
    apply wp_bind. eapply wp_stage_request; [left; split; [done|exact Hc4]|exact Hs4|]. intros c5 Hc5 Hs5 Hl5.
    apply wp_ret, HQ'; [|by eapply later_trans; [|eapply later_trans]]. unfold batch_ok. rewrite Hb'. split_and!; [done|done|].
    refine (Forall_impl _ _ _ Ha4 _). intros x Hx. exact (auth_later _ _ _ Hx Hl5).
Qed.

Lemma wp_on_data s b held g c Q :
  batch_ok held g b c -> (forall b' c', batch_ok held g b' c' -> later c c' -> Q b' c') -> wp (on_data work s b) Q c.
Proof.
  intros Hb HQ'. unfold on_data. do 3 bskip. match goal with |- wp (if ?x then _ else _) _ _ => destruct x end; [by apply wp_ret, HQ'; [|bdone]|].
  match goal with H : batch_ok held g b ?x |- wp _ _ ?x => rename x into c3; rename H into Hb3 end. assert (later c c3) as Hl3 by bdone.
  apply wp_bind. eapply wp_relay_tcp_request_body; [apply Hb3|]. intros r c4 Hc4 Hl4 Hr.
  pose proof (batch_later _ _ _ _ _ Hb3 Hc4 Hl4) as Hb4. assert (later c c4) as Hl by by eapply later_trans.
  destruct r as [u|e|]; [| |done].
  2:{ by apply wp_ret, HQ'. }
  apply wp_bind, wp_query. destruct (negb _); [by apply wp_ret, HQ'|].
  clear dependent c3. apply wp_bind, wp_gets. bskip. apply wp_bind, wp_gets, wp_bind.
  match goal with H : batch_ok held g b ?x |- wp _ _ ?x => rename x into c5; rename H into Hb5 end.
  match goal with |- wp (if ?x then _ else _) _ _ => destruct x end.
  - apply wp_ret. bskip. by apply wp_ret, HQ'; [|bdone].
  - destruct (Client.pending_tcp_tunnels c5 !! s) as [p|] eqn:Hp.
    + destruct (pending_capacity_ok _ _ _ _ _ (proj1 Hb5) Hp) as [n Hn]. apply wp_bind. eapply wp_lift; [exact Hn|]. apply wp_ret.
      bskip. by apply wp_ret, HQ'; [|bdone].
    + apply wp_ret. bskip. by apply wp_ret, HQ'; [|bdone].
Qed.

Lemma wp_on_event s e b held g c Q :
  batch_ok held g b c ->
  match e with
  | Headers hs => (s, hs) ∈ omap headers_of (quic c) /\ Datagram.stream_ok s /\
      (s ∈ request_headers_seen c \/ (load s c + occ s (setup_ip (setups b) ++ held) = 0)%nat)
  | Finished | Reset_ _ => s ∈ omap ended_of (quic c)
  | _ => True
  end ->
  (forall b' c', batch_ok held g b' c' -> later c c' -> Q b' c') ->
  wp (on_event order work (env_decode E) config (env_auth E) s e b) Q c.
Proof.
  intros Hb He HQ'. destruct e; cbn [on_event]; try by apply wp_ret, HQ', later_refl.
  - destruct He as (? & ? & ?). by eapply wp_on_headers.
  - by eapply wp_on_data.
  - by eapply wp_on_finished.
  - by eapply wp_on_reset.
Qed.

Lemma load_answerless {A} (k : call A) s c : answerless k = true -> load s (c <| quic := exec k (quic c) |>) = load s c.
Proof. intros Hk. unfold load. cbn. rewrite exec_trace. rewrite quiet_count by by apply answerless_quiet. done. Qed.

Lemma wp_poll_step b held g c :
  batch_ok held g b c ->
  wp (poll_step order work (env_decode E) config (env_auth E) b) (fun r c' => later c c' /\
    match r with inl b' => batch_ok held g b' c' /\ (work (quic c') < work (quic c))%nat | inr b' => batch_ok held g b' c' end) c.
Proof.
  intros Hb. unfold poll_step. apply wp_bind, wp_call. set (c1 := c <| quic := _ |>).
  assert (later c c1) as Hl1 by by apply later_call.
  assert (batch_ok held g b c1) as Hb1. { eapply batch_later; [done| |done]. apply inv_call; [done|apply Hb]. }
  pose proof (poll_post (quic c)) as Hp. destruct (answer _ (quic c) poll) as [[s e]|e|] eqn:Ha; [|by apply wp_ret|done].
  pose proof (work_poll _ _ Ha) as Hw. cbn [post fst snd] in Hp.
  apply wp_bind. eapply wp_on_event; [exact Hb1| |].
  - assert (quic c1 = quic c ++ [Ev poll (Ok (s, e))]) as Hq by (unfold c1; cbn; by rewrite exec_trace, Ha).
    destruct e; rewrite ?Hq, ?omap_app, ?elem_of_app; try done; [|right; by left|right; by left].
    destruct Hp as [Hs Hsp]. split; [right; by left|]. split; [done|]. unfold c1. rewrite (load_answerless poll) by done.
    exact (inv_unknown E _ g c s (proj1 Hb) Hsp).
  - intros b' c2 Hb2 Hl2. apply wp_ret. split; [by eapply later_trans|]. split; [done|].
    destruct Hl2. change (work (quic c1)) with (work (exec poll (quic c))) in *. lia.
Qed.

Lemma neutral_poll_http3_events : neutral (poll_http3_events order work (env_decode E) config (env_auth E)).
Proof.
  intros held g c Hc. unfold poll_http3_events. apply wp_bind, wp_query. destruct (ask _ _); [by apply wp_pass; split; [|apply later_refl]|].
  apply wp_bind. wskip. intros expired c1 Hc1 Hl1. destruct expired; [by apply wp_pass|]. apply wp_bind, wp_gets, wp_bind.
  assert (forall b c2, batch_ok held g b c2 -> later c c2 ->
    wp (_ ← each drop_capsule_stream (closed_capsule_streams b);
        _ ← each (fun stream => with_io_quic (fun i q => Ok (tt, mark_capsule_finished stream i q))) (finished_capsule_streams b);
        _ ← each reset_tcp_stream (failed_tcp_streams b);
        _ ← each teardown_ip_tunnel (closed_ip_streams b);
        _ ← apply_connect_setups order config (setups b);
        spawn_auth_verifications order (env_auth E) (pending_auth b)) (fun _ c' => J held g c' /\ later c c') c2) as Hrest.
  { intros b c2 Hb2 Hl2. do 4 bskip. match goal with H : batch_ok held g b ?x |- wp _ _ ?x => destruct H as (? & ? & Ha) end.
    apply wp_bind. eapply wp_apply_connect_setups; [eassumption|done|]. intros c7 Hc7 Hl7. eapply wp_spawn_auths; [exact Hc7| |].
    - refine (Forall_impl _ _ _ Ha _). intros x Hx. exact (auth_later _ _ _ Hx Hl7).
    - intros c8 ? ?. split; [done|bdone]. }
  assert (batch_ok held g no_batch c1) as Hb0 by by split_and!.
  destruct (Client.h3 c1); [|by apply wp_ret, Hrest].
  eapply (wp_repeating _ _ (fun b c' => batch_ok held g b c' /\ later c c')); [|by split].
  intros b c2 [Hb2 Hl2]. eapply wp_mono; [by eapply wp_poll_step|]. intros [b'|b'] c3 [Hl3 Hr].
  - destruct Hr. split; [|done]. split; [done|by eapply later_trans].
  - apply Hrest; [done|by eapply later_trans].
Qed.
End serve.
