(* ===== verification/ResultsInv.v ===== *)
(** * Results of tasks keep the invariant

    The handlers of [Handlers.v] that take up what tasks and sockets report:
    resumed request bodies, verified credentials, prepared targets, TCP relay
    events, retried responses and response bodies. *)

From stdpp Require Import list gmap strings sorting.
From S2P Require Import Prelude Varint Net Policy Capsule CapsuleStream Datagram IpPacket Routing AddressPool.
From S2P Require Import ClientIdentity Lease Uri Auth Config Request TcpTunnel TargetUdp UdpTunnel Quiche QuicBatch.
From S2P Require Import Connection CapsuleIo CapsuleIoProps Client Handlers Relay Totality ClientLogic HandlersInv ServeInv.
Open Scope Z_scope.

(** ** What an operation leaves alone *)

Section frames.
Context {B : Type} (f : Client -> B).

(** Whatever the operation does, [f] reads the same afterwards. *)
Definition frames {A} (m : M A) : Prop := forall c a c', m c = Ok (a, c') -> f c' = f c.

Lemma wp_frames {A} (m : M A) Q c : frames m -> wp m Q c -> wp m (fun a c' => Q a c' /\ f c' = f c) c.
Proof. intros Hf. unfold wp. specialize (Hf c). destruct (m c) as [[a c']|e|]; cbn; eauto. Qed.

Lemma frames_ret {A} (a : A) : frames (mret a).
Proof. by intros c b c' [= <- <-]. Qed.
Lemma frames_bind {A C} (m : M A) (k : A -> M C) : frames m -> (forall a, frames (k a)) -> frames (m ≫= k).
Proof.
  intros Hm Hk c b c'. unfold mbind, M_bind. destruct (m c) as [[a c1]|e|] eqn:E; [|done|done].
  intros H. rewrite (Hk _ _ _ _ H). by apply (Hm _ _ _ E).
Qed.
Lemma frames_gets {A} (g : Client -> A) : frames (gets g).
Proof. by intros c b c' [= <- <-]. Qed.
Lemma frames_panic {A} : frames (panic (A:=A)).
Proof. done. Qed.
Lemma frames_lift {E A} (r : result E A) : frames (lift r).
Proof. intros c b c'. unfold lift. destruct r; [|done|done]. by intros [= <- <-]. Qed.
Lemma frames_modify (g : Client -> Client) : (forall c, f (g c) = f c) -> frames (modify g).
Proof. intros Hg c b c' [= <- <-]. apply Hg. Qed.
Lemma frames_each {A} (k : A -> M unit) l : (forall a, frames (k a)) -> frames (each k l).
Proof. intros Hk. induction l as [|a l IH]; cbn [each]; [apply frames_ret|]. by apply frames_bind. Qed.
Lemma frames_call `{Quiche} {A} (k : call A) : (forall c q, f (c <| quic := q |>) = f c) -> frames (call_ k).
Proof. intros Hq c b c' [= <- <-]. apply Hq. Qed.
Lemma frames_query `{Quiche} {A} (k : query A) : frames (query_ k).
Proof. by intros c b c' [= <- <-]. Qed.
Lemma frames_perform `{Outside} {A} (e : effect A) : (forall c w, f (c <| world := w |>) = f c) -> frames (perform e).
Proof. intros Hw c b c' [= <- <-]. apply Hw. Qed.
Lemma frames_errors g :
  (forall c m q, f (c <| pending_error_responses := m |> <| quic := q |>) = f c) -> frames (with_errors g).
Proof. intros He c b c'. unfold with_errors. destruct (g _ _) as [m q]. intros [= <- <-]. apply He. Qed.
Lemma frames_io {A} (g : CapsuleIo -> result Empty_set (A * CapsuleIo)) :
  (forall c i, f (c <| io := i |>) = f c) -> frames (with_io g).
Proof. intros Hi c b c'. unfold with_io. destruct (g _) as [[a i]|e|]; [|done|done]. intros [= <- <-]. apply Hi. Qed.
End frames.

(** Operations made of operations that leave [f] alone. *)
Ltac frame :=
  repeat first
    [ reflexivity
    | apply frames_ret | apply frames_gets | apply frames_panic | apply frames_lift | apply frames_query
    | (apply frames_modify; by intros []) | (apply frames_call; by intros []) | (apply frames_perform; by intros [])
    | (apply frames_errors; by intros []) | (apply frames_io; by intros [])
    | apply frames_bind; [|intros ?]
    | apply frames_each; intros ?
    | match goal with |- frames _ (match ?x with _ => _ end) => destruct x end ].

(** A map's keys are walked once each. *)
Class WalkLaws (order : gset Z -> list Z) := walk_once : forall X, order X ≡ₚ elements X.

Section results.
Context `{HQ : Quiche} `{HO : Outside}.
Context (order : gset Z -> list Z) (work : conn -> nat).
Context `{!ConnectionLaws work} `{!OutsideLaws} `{!WalkLaws order}.
Context (E : Env).

Abbreviation J := (conn_inv E).
Abbreviation later := (later work).
Abbreviation neutral := (neutral work E).
Abbreviation config := (env_config E).
Abbreviation poll_events := (poll_http3_events order work (env_decode E) config (env_auth E)).
Abbreviation resume := (resume_tcp_request_body order work (env_decode E) config (env_auth E)).

Ltac wskip := eapply (neutral_use work E); [solve [neut]|eassumption|].

(** ** Resuming request bodies *)

Lemma wp_any_capacity s held g c Q :
  J held g c -> (forall n c', J held g c' -> later c c' -> Q n c') -> wp (any_capacity s) Q c.
Proof.
  intros Hc HQ'. unfold any_capacity. apply wp_bind, wp_gets. destruct (_ !! s).
  - wskip. intros n c' ? ?. by apply HQ'.
  - apply wp_bind, wp_gets. destruct (Client.pending_tcp_tunnels c !! s) as [p|] eqn:Hp; [|by apply wp_ret, HQ'; [|apply later_refl]].
    destruct (pending_capacity_ok _ _ _ _ _ _ Hc Hp) as [n Hn]. eapply wp_lift; [done|]. by apply HQ'; [|apply later_refl].
Qed.
Lemma neutral_any_capacity s : neutral (any_capacity s).
Proof. intros held g c Hc. by eapply wp_any_capacity. Qed.
Lemma neutral_set_resume s on : neutral (set_resume s on).
Proof. unfold set_resume. neut. Qed.
Lemma neutral_poll : neutral poll_events.
Proof. by apply neutral_poll_http3_events. Qed.
#[local] Hint Resolve neutral_any_capacity neutral_set_resume neutral_poll : client.

Lemma neutral_resume_attempts n before s :
  neutral (resume_attempts order work (env_decode E) config (env_auth E) n before s).
Proof.
  revert before. induction n as [|n IH]; intros before; cbn [resume_attempts]; [neut|].
  apply neutral_bind; [neut|intros _]. apply neutral_bind; [neut|intros closed]. apply neutral_bind; [neut|intros draining].
  apply neutral_bind; [neut|intros up]. destruct (closed || draining || negb up); [neut|].
  intros held g c Hc. apply wp_bind. eapply (wp_relay_tcp_request_body work E); [done|]. intros r c1 Hc1 Hl1 Hr.
  destruct r as [needs|e|]; [| |done].
  - eapply (neutral_use work E); [|exact Hc1|].
    { apply neutral_bind; [neut|intros before']. apply neutral_bind; [neut|intros _]. destruct (negb needs); [neut|].
      apply neutral_bind; [neut|intros _]. apply neutral_bind; [neut|intros capacity].
      apply neutral_bind; [neut|intros closed']. apply neutral_bind; [neut|intros readable].
      destruct (_ || _); [neut|]. apply neutral_bind; [neut|intros _]. apply IH. }
    intros ? c2 ? ?. split; [done|by eapply later_trans].
  - wskip. intros ? c2 ? ?. split; [done|by eapply later_trans].
Qed.
Lemma neutral_resume s : neutral (resume s).
Proof. apply neutral_resume_attempts. Qed.
#[local] Hint Resolve neutral_resume : client.
Lemma neutral_retry_tcp_request_bodies :
  neutral (retry_tcp_request_bodies order work (env_decode E) config (env_auth E)).
Proof. unfold retry_tcp_request_bodies. neut. Qed.

(** ** Verified credentials *)

(** The outcome of a check that was started for the request. *)
Definition verdict (s : Z) (r : ConnectRequest) (ok : bool) (w : list outside_event) : Prop :=
  exists credential password flag task, Out (spawn_verify s credential password r flag) task ∈ w /\
    (ok = true -> env_verify E credential password = true).

Lemma verdict_mono s r ok w w' : verdict s r ok w -> w `prefix_of` w' -> verdict s r ok w'.
Proof. intros (cr & pw & fl & t & Hin & Hv) [k ->]. exists cr, pw, fl, t. split; [|done]. apply elem_of_app. by left. Qed.

Lemma verdict_authorised s r held g c :
  J held g c -> verdict s r true (world c) -> authorised E (world c) (quic c) s r.
Proof.
  intros Hc (cr & pw & fl & t & Hin & Hv). apply list_elem_of_lookup in Hin as [i Hi].
  pose proof (ci_world _ _ _ _ Hc i _ Hi) as (hs & Hr & Hck). exists hs. split; [done|]. intros _. right. exists cr, pw.
  split; [|auto]. eapply checked_mono; [|exact Hck]. by exists (drop i (world c)); rewrite take_drop.
Qed.

Lemma inv_pending_tcp_alter held g c s f :
  J held g c -> (forall p : PendingTcp, pending_tunnel_ok p -> pending_tunnel_ok (f p)) ->
  J held g (c <| Client.pending_tcp_tunnels := alter f s (Client.pending_tcp_tunnels c) |>).
Proof.
  intros Hc Hf. destruct (Client.pending_tcp_tunnels c !! s) as [p|] eqn:Hp.
  - rewrite (alter_present f _ _ _ Hp). eapply inv_pending_tcp_set; [done|done|]. apply Hf. exact (ci_pending_tcp _ _ _ _ Hc s p Hp).
  - assert (alter f s (Client.pending_tcp_tunnels c) = Client.pending_tcp_tunnels c) as ->; [|by destruct c].
    apply map_eq. intros i. rewrite lookup_alter. case_decide; [|done]. subst. by rewrite Hp.
Qed.

Lemma wp_stage_verified_tcp s finished held g c Q :
  J (s :: held) g c -> (forall going c', J held g c' -> later c c' -> Q going c') ->
  wp (stage_verified_tcp work s finished) Q c.
Proof.
  intros Hc HQ'. unfold stage_verified_tcp. apply wp_bind. wskip. intros at_ c1 Hc1 Hl1. apply wp_bind.
  eapply (keeps_use work E [s]); [by apply keeps_insert_pending_tcp|exact Hc1|]. intros [] c2 Hc2 Hl2. apply wp_bind.
  eapply (wp_relay_tcp_request_body work E); [done|]. intros r c3 Hc3 Hl3 Hr.
  assert (later c c3) as Hl by (eapply later_trans; [exact Hl1|]; by eapply later_trans).
  destruct r as [u|e|]; [| |done].
  - destruct finished; apply wp_bind; [apply wp_modify|apply wp_pass]; apply wp_ret, HQ'; [|by eapply later_trans; [|apply later_refl]|done|done].
    by apply inv_pending_tcp_alter.
  - apply wp_bind. wskip. intros ? c4 ? ?. apply wp_ret, HQ'; [done|by eapply later_trans].
Qed.

Lemma neutral_take_early q : neutral (take_early q).
Proof. unfold take_early. destruct q; [neut|]. apply neutral_bind; [neut|intros bs]. destruct (early_default bs). neut. Qed.
#[local] Hint Resolve neutral_take_early : client.

#[local] Arguments resume_tcp_request_body : simpl never.
#[local] Arguments apply_connect_setups : simpl never.
#[local] Arguments stage_verified_tcp : simpl never.

(** What is left to do once a verified request is staged. *)
Lemma wp_verified_tail a s p held g c Q :
  J (setup_ip p ++ held) g c -> setups_ok E p c -> (forall c', J held g c' -> later c c' -> Q tt c') ->
  wp (_ ← drop_awaiting a; _ ← apply_connect_setups order config p; resume s) Q c.
Proof.
  intros Hc Hp HQ'. apply wp_bind. wskip. intros [] c1 Hc1 Hl1. apply wp_bind.
  eapply (wp_apply_connect_setups order work E); [exact Hc1|by eapply setups_later|]. intros c2 Hc2 Hl2.
  wskip. intros [] c3 ? ?. apply HQ'; [done|]. by do 2 (eapply later_trans; [done|]).
Qed.

Lemma wp_dispatched_auth s finished early a p held g c Q :
  dispatched E s held g no_setups p c -> (forall c', J held g c' -> later c c' -> Q tt c') ->
  wp (going ← (if bool_decide (setup_tcp p = []) then mret true else stage_verified_tcp work s finished);
      if negb going then _ ← drop_early early; drop_awaiting a else
      _ ← match last (setup_udp p) with
          | Some (_, _, header) =>
              early ← take_early early;
              at_ ← call_ now;
              insert_pending_udp s (with_early_datagrams at_ header early)
          | None => drop_early early
          end;
      _ ← drop_awaiting a;
      _ ← apply_connect_setups order config p;
      resume s) Q c.
Proof.
  intros Hd HQ'. assert (setups_ok E no_setups c) as Hn by by split_and!.
  destruct Hd as [[-> Hc]|[Hc [(t & Ht & ->)|[(t & h & Ht & ->)|[Ht ->]]]]].
  - apply wp_bind, wp_ret. cbn. apply wp_bind. wskip. intros [] c1 Hc1 Hl1.
    eapply wp_verified_tail; [exact Hc1|by eapply setups_later|]. intros; apply HQ'; [done|by eapply later_trans].
  - apply wp_bind. cbn. eapply wp_stage_verified_tcp; [done|]. intros going c1 Hc1 Hl1.
    destruct going; cbn [negb]; apply wp_bind.
    + wskip. intros [] c2 Hc2 Hl2. assert (later c c2) as Hl by by eapply later_trans.
      eapply wp_verified_tail; [exact Hc2|eapply setups_later; [by apply (setups_put_tcp E)|exact Hl]|].
      intros; apply HQ'; [done|by eapply later_trans].
    + wskip. intros [] c2 Hc2 Hl2. wskip. intros [] c3 Hc3 Hl3. apply HQ'; [done|]. by do 2 (eapply later_trans; [done|]).
  - apply wp_bind, wp_ret. cbn [negb]. cbn -[last]. apply wp_bind. rewrite last_singleton. apply wp_bind.
    wskip. intros q c1 Hc1 Hl1. apply wp_bind. wskip. intros at_ c2 Hc2 Hl2.
    eapply (keeps_use work E [s]); [by apply keeps_insert_pending_udp|exact Hc2|]. intros [] c3 Hc3 Hl3.
    assert (later c c3) as Hl by (do 2 (eapply later_trans; [done|]); done).
    eapply wp_verified_tail; [exact Hc3|eapply setups_later; [by apply (setups_put_udp E)|exact Hl]|].
    intros; apply HQ'; [done|by eapply later_trans].
  - apply wp_bind, wp_ret. cbn. apply wp_bind. wskip. intros [] c1 Hc1 Hl1.
    eapply wp_verified_tail; [exact Hc1|eapply setups_later; [by apply (setups_put_ip E)|exact Hl1]|].
    intros; apply HQ'; [done|by eapply later_trans].
Qed.

Lemma wp_handle_auth_result s r ok held g c :
  J held g c -> verdict s r ok (world c) ->
  wp (handle_auth_result order work (env_decode E) config (env_auth E) s r ok) (fun _ c' => J held g c' /\ later c c') c.
Proof.
  intros Hc Hv. unfold handle_auth_result. apply wp_bind, wp_query. destruct (ask _ _); [by apply wp_pass; split; [|apply later_refl]|].
  apply wp_bind. wskip. intros expired c1 Hc1 Hl1. destruct expired; [by apply wp_pass|]. apply wp_bind, wp_gets.
  destruct (negb _); [by apply wp_pass|]. apply wp_bind. eapply wp_remove_awaiting; [exact Hc1|]. intros found c2 _ Hl2 Hc2.
  assert (later c c2) as Hl by by eapply later_trans.
  destruct found as [a|]; [|by apply wp_pass]. destruct (take_early_udp_datagrams a) as [early a'].
  destruct ok; cbn [negb].
  - apply wp_bind, wp_modify. set (c3 := c2 <| first_auth_deadline := None |>).
    assert (later c c3) as Hl3 by (eapply later_trans; [exact Hl|by apply later_refl]).
    assert (J (s :: held) g c3) as Hc3 by by apply inv_deadline.
    apply wp_bind. eapply (wp_dispatch order work E); [exact Hc3| |].
    + eapply verdict_authorised; [exact Hc3|]. eapply verdict_mono; [done|]. by destruct Hl3 as (_ & _ & ? & _).
    + intros p c4 Hd Hl4. eapply wp_dispatched_auth; [exact Hd|]. intros c5 ? ?. split; [done|]. by do 2 (eapply later_trans; [done|]).
  - apply wp_bind. eapply (keeps_use work E [s]); [by apply keeps_send_error|exact Hc2|]. intros [] c3 Hc3 Hl3.
    apply wp_bind. wskip. intros [] c4 Hc4 Hl4. wskip. intros [] c5 ? ?. split; [done|]. by do 3 (eapply later_trans; [done|]).
Qed.

(** ** UDP targets *)

Lemma new_udp_ok max q : unused (new_udp max q) /\ capsule_reader_ok (new_udp max q).
Proof. split; [done|]. split; [apply reader_new_ok|done]. Qed.

Lemma wp_udp_established s p t held g c Q :
  J held (add_fresh s g) c -> s ∉ fresh_streams g -> (forall c', J held g c' -> later c c' -> Q tt c') ->
  wp (udp_established s p t) Q c.
Proof.
  intros Hc Hf HQ'. unfold udp_established. apply wp_bind, wp_gets. destruct (take_early_datagrams _ p) as [[early p'] bs].
  apply wp_bind. wskip. intros [] c1 Hc1 Hl1. apply wp_bind. wskip. intros [] c2 Hc2 Hl2.
  apply wp_bind. unfold native_datagrams. wskip. intros native c3 Hc3 Hl3. apply wp_bind. wskip. intros [] c4 Hc4 Hl4.
  apply wp_bind. wskip. intros at_ c5 Hc5 Hl5. apply wp_bind.
  eapply (neutral_use work E); [apply neutral_insert_udp; unfold stage_ok; cbn; lia|exact Hc5|]. intros [] c6 Hc6 Hl6.
  destruct (new_udp_ok MAX_UDP_PAYLOAD early) as [Hu Hr]. apply wp_bind.
  eapply (wp_insert_capsule_stream work E); [exact Hc6|done|done|done|]. intros c7 Hc7 Hl7.
  wskip. intros [] c8 ? ?. apply HQ'; [done|]. by do 7 (eapply later_trans; [done|]).
Qed.

Lemma neutral_handle_udp_setup_result s r : neutral (handle_udp_setup_result order s r).
Proof.
  intros held g c Hc. unfold handle_udp_setup_result. apply wp_bind. eapply wp_remove_pending_udp; [exact Hc|].
  intros found c1 _ Hl1 Hc1. destruct found as [p|]; [|by apply wp_pass]. destruct r as [t|status].
  - apply wp_bind, wp_gets. destruct (Client.h3 c1); cbn [negb].
    2:{ apply drop_token in Hc1. wskip. intros [] c2 ? ?. split; [done|by eapply later_trans]. }
    apply wp_bind. eapply (wp_accept work E); [exact Hc1|..].
    + intros u c2 Hc2 Hf Hl2. eapply wp_udp_established; [done|done|]. intros c3 ? ?. split; [done|]. by do 2 (eapply later_trans; [done|]).
    + intros e c2 Hc2 Hl2. assert (later c c2) as Hl by by eapply later_trans.
      assert (wp (insert_pending_udp s (keep_prepared p t)) (fun _ c' => J held g c' /\ later c c') c2) as Hkeep.
      { eapply (keeps_use work E [s]); [by apply keeps_insert_pending_udp|exact Hc2|]. intros [] c3 ? ?. split; [done|by eapply later_trans]. }
      assert (wp (drop_pending_udp p) (fun _ c' => J held g c' /\ later c c') c2) as Hdrop.
      { apply drop_token in Hc2. wskip. intros [] c3 ? ?. split; [done|by eapply later_trans]. }
      by destruct e.
  - apply wp_bind. eapply (wp_refuse order work E); [exact Hc1|]. intros c2 Hc2 Hl2. wskip. intros [] c3 ? ?.
    split; [done|]. by do 2 (eapply later_trans; [done|]).
Qed.
#[local] Hint Resolve neutral_handle_udp_setup_result : client.

Lemma neutral_take_prepared s : neutral (take_prepared s).
Proof.
  intros held g c Hc. unfold take_prepared. apply wp_bind, wp_gets.
  destruct (Client.pending_udp_tunnels c !! s) as [p|] eqn:Hp; [|by apply wp_ret; split; [|apply later_refl]].
  destruct (prepared p); [|by apply wp_ret; split; [|apply later_refl]].
  apply wp_bind, wp_modify, wp_ret. split; [by eapply inv_pending_udp_set|by apply later_refl].
Qed.
Lemma neutral_collect {A} (f : Z -> M (option A)) l : (forall s, neutral (f s)) -> neutral (collect f l).
Proof. intros Hf. induction l as [|s l IH]; cbn [collect]; [neut|]. apply neutral_bind; [done|intros a]. apply neutral_bind; [done|intros]. neut. Qed.
Lemma neutral_retry_udp_connect_responses : neutral (retry_udp_connect_responses order).
Proof.
  unfold retry_udp_connect_responses. apply neutral_bind; [neut|intros streams].
  apply neutral_bind; [apply neutral_collect, neutral_take_prepared|intros ready]. neut.
Qed.

(** ** Retried CONNECT-IP responses *)

Lemma frames_setup_ip s : frames (fun c => delete s (pending_ip_responses c)) (setup_ip_tunnel order config s).
Proof.
  unfold setup_ip_tunnel, refuse, send_error_response, insert_capsule_stream, teardown_ip_tunnel, drop_capsule_stream, shutdown_both.
  repeat first [progress frame | apply frames_modify; intros []; cbn; first [apply delete_delete_eq | apply delete_insert_eq]].
Qed.

Lemma neutral_retry_ip_connect_responses : neutral (retry_ip_connect_responses order config).
Proof.
  intros held g c Hc. unfold retry_ip_connect_responses. apply wp_bind, wp_gets.
  pose proof (walk_once (dom (pending_ip_responses c))) as Hw.
  assert (NoDup (order (dom (pending_ip_responses c)))) as Hnd by (rewrite Hw; apply NoDup_elements).
  eapply (wp_each _ _ (fun l c' => J held g c' /\ later c c' /\ NoDup l /\ forall s, s ∈ l -> is_Some (pending_ip_responses c' !! s)));
    [|split; [done|split; [by apply later_refl|split; [done|]]]|by intros c' (? & ? & _)].
  2:{ intros s Hs. rewrite Hw, elem_of_elements in Hs. by apply elem_of_dom. }
  intros s l c1 _ (Hc1 & Hl1 & [Hs Hnd1]%NoDup_cons & Hin). apply wp_bind, wp_gets.
  destruct (Hin s) as [at_ Hat]; [by left|]. rewrite Hat. apply wp_bind, wp_modify.
  pose proof (inv_pending_ip_del _ _ _ _ s Hc1) as Hc2. rewrite Hat in Hc2. set (c2 := c1 <| pending_ip_responses ::= _ |>).
  change (J (s :: held) g c2) in Hc2. assert (later c c2) as Hl2 by (eapply later_trans; [exact Hl1|by apply later_refl]).
  apply wp_bind. eapply wp_mono; [apply (wp_frames (fun c => delete s (pending_ip_responses c)) _ (fun _ c' => J held g c' /\ later c c')); [apply frames_setup_ip|]|].
  { eapply (wp_setup_ip_tunnel order work E); [exact Hc2| |intros; split; [done|by eapply later_trans]].
    exact (ci_pending_ip _ _ _ _ Hc1 s at_ Hat). }
  intros [] c3 [[Hc3 Hl3] Hf]. apply wp_modify. split_and!; [by apply inv_pending_ip_alter|eapply later_trans; [exact Hl3|by apply later_refl]|done|].
  intros s' Hs'. assert (s <> s') as Hne by by intros ->. change (is_Some (alter (fun _ => at_) s (pending_ip_responses c3) !! s')).
  rewrite lookup_alter_ne by done. rewrite <-(lookup_delete_ne _ s s') by done. rewrite Hf. cbn. rewrite !lookup_delete_ne by done.
  apply Hin. by right.
Qed.

(** ** TCP targets *)

Lemma wp_transfer_early s t l held g c Q :
  J held g c ->
  (forall r c', J held g c' -> later c c' -> (forall t', r = Some t' -> pending_responses t' = pending_responses t) -> Q r c') ->
  wp (transfer_early s t l) Q c.
Proof.
  revert t c. induction l as [|data l IH]; intros t c Hc HQ'; cbn [transfer_early].
  { apply wp_ret, HQ'; [done|by apply later_refl|]. by intros t' [= <-]. }
  apply wp_bind. eapply (wp_queue_client work E); [done|]. intros [t1|] c1 Hc1 Hl1 Ht; [|by apply wp_ret, HQ'].
  apply IH; [done|]. intros r c2 Hc2 Hl2 Hr. apply HQ'; [done|by eapply later_trans|]. intros t' ->. rewrite (Hr t') by done. by apply Ht.
Qed.

Lemma wp_tcp_established s p sock addr held g c Q :
  J held g c -> (forall ok c', J held g c' -> later c c' -> Q ok c') -> wp (tcp_established s p sock addr) Q c.
Proof.
  intros Hc HQ'. unfold tcp_established. apply wp_bind. wskip. intros [] c1 Hc1 Hl1. apply wp_bind. wskip. intros at_ c2 Hc2 Hl2.
  apply wp_bind. wskip. intros [] c3 Hc3 Hl3. apply wp_bind. eapply wp_transfer_early; [done|]. intros r c4 Hc4 Hl4 Ht.
  assert (later c c4) as Hl by (do 3 (eapply later_trans; [done|]); done).
  destruct r as [t|].
  - assert (forall t' c5, J held g c5 -> later c4 c5 -> pending_responses t' = pending_responses t ->
      wp (_ ← insert_tcp s t'; mret true) Q c5) as Hins.
    { intros t' c5 Hc5 Hl5 Ht'. apply wp_bind. eapply (neutral_use work E); [apply neutral_insert_tcp; by rewrite Ht', (Ht t)|exact Hc5|].
      intros [] c6 ? ?. apply wp_ret, HQ'; [done|]. by do 2 (eapply later_trans; [done|]). }
    apply wp_bind. destruct (pt_client_finished p).
    + by eapply (wp_finish_client work E).
    + apply wp_ret, Hins; [done|by apply later_refl|done].
  - apply wp_bind. wskip. intros [] c5 Hc5 Hl5. apply wp_bind. wskip. intros [] c6 ? ?. apply wp_ret, HQ'; [done|].
    by do 2 (eapply later_trans; [done|]).
Qed.

Lemma pending_tcp_bound held g c s p : J held g c -> Client.pending_tcp_tunnels c !! s = Some p -> pending_tunnel_ok p.
Proof. intros Hc Hp. exact (ci_pending_tcp _ _ _ _ Hc s p Hp). Qed.

Lemma neutral_on_connect_result s r : neutral (on_connect_result order s r).
Proof.
  intros held g c Hc. unfold on_connect_result. apply wp_bind. eapply wp_remove_pending_tcp; [exact Hc|].
  intros found c1 Hfound Hl1 Hc1. destruct found as [p|]; [|by apply wp_ret].
  pose proof (pending_tcp_bound _ _ _ _ _ Hc (eq_sym Hfound)) as Hb. destruct r as [[sock addr]|status].
  - apply wp_bind, wp_gets. destruct (Client.h3 c1); cbn [negb].
    2:{ apply drop_token in Hc1. apply wp_bind. wskip. intros [] c2 ? ?. apply wp_ret. split; [done|by eapply later_trans]. }
    apply wp_bind. eapply (wp_accept work E); [exact Hc1|..].
    + intros u c2 Hc2%inv_drop_fresh Hf Hl2. eapply wp_tcp_established; [done|]. intros ok c3 ? ?. split; [done|].
      by do 2 (eapply later_trans; [done|]).
    + intros e c2 Hc2 Hl2. assert (later c c2) as Hl by by eapply later_trans.
      assert (wp (since ← match response_blocked_at p with Some t => mret t | None => call_ now end;
                  _ ← insert_pending_tcp s (set_connected p (Some (sock, addr)) (Some since)); mret false)
                 (fun _ c' => J held g c' /\ later c c') c2) as Hkeep.
      { apply wp_bind. wskip. intros since c3 Hc3 Hl3. apply wp_bind.
        eapply (keeps_use work E [s]); [by apply keeps_insert_pending_tcp|exact Hc3|]. intros [] c4 ? ?. apply wp_ret.
        split; [done|]. by do 2 (eapply later_trans; [done|]). }
      assert (wp (_ ← reset_tcp_stream s; _ ← drop_pending_tcp p; mret false) (fun _ c' => J held g c' /\ later c c') c2) as Hdrop.
      { apply drop_token in Hc2. apply wp_bind. wskip. intros [] c3 Hc3 Hl3. apply wp_bind. wskip. intros [] c4 ? ?. apply wp_ret.
        split; [done|]. by do 2 (eapply later_trans; [done|]). }
      by destruct e.
  - apply wp_bind. eapply (wp_refuse order work E); [exact Hc1|]. intros c2 Hc2 Hl2. apply wp_bind. wskip. intros [] c3 ? ?.
    apply wp_ret. split; [done|]. by do 2 (eapply later_trans; [done|]).
Qed.

Lemma neutral_touch_tcp s f :
  (forall at_ t, pending_responses (f at_ t) = pending_responses t) -> neutral (touch_tcp s f).
Proof.
  intros Hf held g c Hc. unfold touch_tcp. apply wp_bind, wp_gets. destruct (Client.tcp_tunnels c !! s) as [t|] eqn:Ht.
  2:{ apply wp_pass. by split; [|apply later_refl]. }
  apply wp_bind. wskip. intros at_ c1 Hc1 Hl1. eapply (neutral_use work E); [apply neutral_set_tcp|exact Hc1|].
  - rewrite Hf. exact (ci_tcp _ _ _ _ Hc s t Ht).
  - intros [] c2 ? ?. split; [done|by eapply later_trans].
Qed.

Lemma queue_response_ok at_ data t :
  Forall resp_ok (pending_responses t) -> Forall resp_ok (pending_responses (queue_response at_ data t).2).
Proof.
  intros Ht. unfold queue_response. destruct (response_finished t); [done|]. cbn. apply Forall_app. split; [done|].
  constructor; [|done]. unfold resp_ok, zlen. cbn. lia.
Qed.

Lemma neutral_handle_tcp_event e : neutral (handle_tcp_event order work (env_decode E) config (env_auth E) e).
Proof.
  destruct e as [i s r|i s data|i s|i s|i s|i s]; cbn [handle_tcp_event].
  - apply neutral_bind; [apply neutral_on_connect_result|intros []]; neut.
  - intros held g c Hc. apply wp_bind, wp_gets. destruct (Client.tcp_tunnels c !! s) as [t|] eqn:Ht.
    2:{ apply wp_pass. by split; [|apply later_refl]. }
    apply wp_bind. wskip. intros at_ c1 Hc1 Hl1. pose proof (queue_response_ok at_ data t (ci_tcp _ _ _ _ Hc s t Ht)) as Hq.
    destruct (queue_response at_ data t) as [[] t'].
    + eapply (neutral_use work E); [by apply neutral_set_tcp|exact Hc1|]. intros [] c2 ? ?. split; [done|by eapply later_trans].
    + wskip. intros [] c2 ? ?. split; [done|by eapply later_trans].
  - neut.
  - by apply neutral_touch_tcp.
  - by apply neutral_touch_tcp.
  - neut.
Qed.
#[local] Hint Resolve neutral_handle_tcp_event : client.

Lemma neutral_take_connected s : neutral (take_connected s).
Proof.
  intros held g c Hc. unfold take_connected. apply wp_bind, wp_gets.
  destruct (Client.pending_tcp_tunnels c !! s) as [p|] eqn:Hp; [|by apply wp_ret; split; [|apply later_refl]].
  destruct (connected p); [|by apply wp_ret; split; [|apply later_refl]].
  apply wp_bind, wp_modify, wp_ret. split; [|by apply later_refl].
  eapply inv_pending_tcp_set; [done|exact Hp|exact (pending_tcp_bound _ _ _ _ _ Hc Hp)].
Qed.
Lemma neutral_retry_tcp_connect_responses :
  neutral (retry_tcp_connect_responses order work (env_decode E) config (env_auth E)).
Proof.
  unfold retry_tcp_connect_responses. apply neutral_bind; [neut|intros streams].
  apply neutral_bind; [apply neutral_collect, neutral_take_connected|intros ready]. neut.
Qed.

(** ** Responses of TCP tunnels *)

(** What is left to send of a chunk, and the chunk after a partial write. *)
Lemma response_rest r : resp_ok r ->
  slice_from (E:=Empty_set) (resp_data r) (Z.to_nat (resp_offset r)) = Ok (drop (Z.to_nat (resp_offset r)) (resp_data r)) /\
  zlen (drop (Z.to_nat (resp_offset r)) (resp_data r)) = zlen (resp_data r) - resp_offset r.
Proof.
  unfold resp_ok, zlen. intros Hr. split; [apply slice_from_Ok; lia|]. rewrite length_drop. lia.
Qed.

Definition unsent (l : list PendingTcpResponse) : nat :=
  sum_list_with (fun r => Z.to_nat (zlen (resp_data r) - resp_offset r)) l.

Lemma advance_ok at_ n t r rest :
  Forall resp_ok (pending_responses t) -> pending_responses t = r :: rest -> 0 < n <= zlen (resp_data r) - resp_offset r ->
  let t' := (advance_response at_ n t).1.1 in
  Forall resp_ok (pending_responses t') /\ (unsent (pending_responses t') < unsent (pending_responses t))%nat.
Proof.
  intros Ht Hr Hn. unfold advance_response. rewrite Hr in *. apply Forall_cons in Ht as [Hok Ht]. unfold resp_ok in Hok.
  unfold unsent. cbn. case_bool_decide; cbn.
  - split; [done|]. lia.
  - split; [constructor; [unfold resp_ok; cbn; lia|done]|]. lia.
Qed.

Lemma wp_tcp_flush_step s held g c :
  J held g c ->
  wp (tcp_flush_step s tt) (fun r c' => J held g c' /\ later c c' /\
    match r with inl _ => (tcp_unsent s c' < tcp_unsent s c)%nat | inr _ => True end) c.
Proof.
  intros Hc. unfold tcp_flush_step. apply wp_bind, wp_gets. destruct (Client.tcp_tunnels c !! s) as [t|] eqn:Ht.
  2:{ apply wp_ret. by split_and!; [|apply later_refl|]. }
  unfold front_response. destruct (pending_responses t) as [|r rest] eqn:Hp; cbn [head].
  { apply wp_ret. by split_and!; [|apply later_refl|]. }
  pose proof (ci_tcp _ _ _ _ Hc s t Ht) as Hok. assert (resp_ok r) as Hr by (rewrite Hp in Hok; by inversion Hok).
  destruct (response_rest r Hr) as [Hs Hlen]. apply wp_bind. eapply wp_lift; [exact Hs|]. apply wp_bind, wp_call.
  set (body := drop _ _) in *. set (c1 := c <| quic := _ |>).
  assert (J held g c1) as Hc1 by by apply inv_call. assert (later c c1) as Hl1 by by apply later_call.
  destruct (answer _ (quic c) (send_body s body false)) as [n|e|] eqn:Ha; [| |by destruct (send_body_panic _ _ _ _ Ha)].
  2:{ destruct e; by apply wp_ret. }
  pose proof (send_body_count _ _ _ _ _ Ha) as Hn. case_bool_decide; [by apply wp_ret|].
  apply wp_bind, wp_call. set (at_ := answer _ _ now). set (c2 := c1 <| quic := _ |>).
  assert (J held g c2) as Hc2 by by apply inv_call. assert (later c c2) as Hl2 by (eapply later_trans; [exact Hl1|by apply later_call]).
  destruct (advance_ok at_ n t r rest Hok Hp) as [Hok' Hun]; [lia|].
  destruct (advance_response at_ n t) as [[t' permits] retired]. cbn [fst] in *.
  apply wp_bind. unfold set_tcp. apply wp_modify. apply wp_bind, wp_perform, wp_ret. split_and!.
  - apply inv_world; [|done]. apply inv_tcp_map; [done|].
    intros s' x [[<- <-]|[_ ?]]%lookup_insert_Some; [done|by eapply ci_tcp].
  - eapply later_trans; [exact Hl2|]. by eapply later_world.
  - unfold tcp_unsent. rewrite Ht. cbn. rewrite lookup_insert_eq. exact Hun.
Qed.

Lemma neutral_finish_response s t : Forall resp_ok (pending_responses t) -> neutral (finish_response s t).
Proof.
  intros Ht. unfold finish_response. destruct (_ && _); [|neut]. intros held g c Hc. apply wp_bind, wp_call. set (c1 := c <| quic := _ |>).
  assert (J held g c1) as Hc1 by by apply inv_call. assert (later c c1) as Hl1 by by apply later_call.
  destruct (answer _ (quic c) (send_body s [] true)) as [n|e|] eqn:Ha; [| |by destruct (send_body_panic _ _ _ _ Ha)].
  - apply wp_bind. eapply (neutral_use work E); [by apply neutral_set_tcp|exact Hc1|]. intros [] c2 ? ?. apply wp_ret.
    split; [done|by eapply later_trans].
  - destruct e; by apply wp_ret.
Qed.

Lemma neutral_flush_tunnel s : neutral (flush_tunnel s).
Proof.
  intros held g c Hc. unfold flush_tunnel. apply wp_bind.
  eapply (wp_repeating _ _ (fun _ c' => J held g c' /\ later c c')); [|by split; [|apply later_refl]].
  intros [] c1 [Hc1 Hl1]. eapply wp_mono; [by apply wp_tcp_flush_step|]. intros [[]|failed] c2 (Hc2 & Hl2 & Hm).
  { split; [|done]. split; [done|by eapply later_trans]. }
  apply wp_bind, wp_gets. apply wp_bind. assert (later c c2) as Hl by by eapply later_trans.
  eapply (neutral_use work E); [|exact Hc2|].
  - destruct (Client.tcp_tunnels c2 !! s) as [t|] eqn:Ht; [|neut]. destruct failed; [neut|].
    apply neutral_finish_response. exact (ci_tcp _ _ _ _ Hc2 s t Ht).
  - intros failed' c3 ? ?. apply wp_bind, wp_gets, wp_ret. split; [done|by eapply later_trans].
Qed.
Lemma neutral_flush_tunnels l : neutral (flush_tunnels l).
Proof.
  induction l as [|s l IH]; cbn [flush_tunnels]; [neut|]. apply neutral_bind; [apply neutral_flush_tunnel|intros [failed complete]].
  apply neutral_bind; [done|intros ?]. neut.
Qed.
Lemma neutral_flush_tcp_responses : neutral (flush_tcp_responses order).
Proof.
  unfold flush_tcp_responses. apply neutral_bind; [neut|intros up]. destruct (negb up); [neut|].
  apply neutral_bind; [neut|intros l]. apply neutral_bind; [apply neutral_flush_tunnels|intros [failed completed]]. neut.
Qed.
End results.

#[export] Hint Resolve neutral_poll neutral_retry_tcp_request_bodies neutral_retry_udp_connect_responses
  neutral_retry_ip_connect_responses neutral_retry_tcp_connect_responses neutral_flush_tcp_responses
  neutral_handle_tcp_event neutral_handle_udp_setup_result : client.
