(* ===== verification/RelayInv.v ===== *)
(** * Relaying and closing keep the invariant

    The operations of [Relay.v]: staging for UDP targets, capsule bodies, native
    datagrams, datagrams for the client, idle tunnels, and a whole round. *)

From stdpp Require Import list gmap strings sorting.
From S2P Require Import Prelude Varint Net Policy Capsule CapsuleStream Datagram IpPacket Routing AddressPool.
From S2P Require Import ClientIdentity Lease Uri Auth Config Request TcpTunnel TargetUdp UdpTunnel Quiche QuicBatch.
From S2P Require Import Connection CapsuleIo CapsuleIoProps Client Handlers Relay Totality ClientLogic HandlersInv ServeInv ResultsInv.
Open Scope Z_scope.

(** ** What closing a stream leaves alone *)

(** The capsule streams and the finished list without a stream. *)
Definition others (s : Z) (i : CapsuleIo) : gmap Z CapsuleStream * list Z :=
  (delete s (capsule_streams i), filter (fun x => x <> s) (finished_capsules i)).

Lemma frames_io_part {A B} (h : CapsuleIo -> B) (g : CapsuleIo -> result Empty_set (A * CapsuleIo)) :
  (forall i a i', g i = Ok (a, i') -> h i' = h i) -> frames (fun c => h (io c)) (with_io g).
Proof. intros Hg c a c'. unfold with_io. destruct (g (io c)) as [[b i]|e|] eqn:E; [|done|done]. intros [= <- <-]. by apply (Hg _ _ _ E). Qed.
Lemma frames_io_quic_part {A B} (h : CapsuleIo -> B) (g : CapsuleIo -> conn -> result Empty_set (A * (CapsuleIo * conn))) :
  (forall i q a i' q', g i q = Ok (a, (i', q')) -> h i' = h i) -> frames (fun c => h (io c)) (with_io_quic g).
Proof.
  intros Hg c a c'. unfold with_io_quic. destruct (g (io c) (quic c)) as [[b [i q]]|e|] eqn:E; [|done|done]. intros [= <- <-]. by apply (Hg _ _ _ _ _ E).
Qed.

Lemma filter_twice (s : Z) (l : list Z) : filter (fun x => x <> s) (filter (fun x => x <> s) l) = filter (fun x => x <> s) l.
Proof. rewrite list_filter_filter. apply list_filter_iff. naive_solver. Qed.
Lemma filter_snoc_self (s : Z) (l : list Z) : filter (fun x => x <> s) (l ++ [s]) = filter (fun x => x <> s) l.
Proof. rewrite filter_app, filter_cons, decide_False by auto. by rewrite app_nil_r. Qed.

Lemma remove_others s i i' : remove_capsule_stream s i = Ok i' -> others s i' = others s i.
Proof.
  unfold remove_capsule_stream. destruct (capsule_streams i !! s).
  - unfold usize_sub. repeat case_bool_decide; cbn; try done. intros [= <-]. unfold others. cbn. by rewrite delete_delete_eq, filter_twice.
  - cbn. intros [= <-]. unfold others. cbn. by rewrite filter_twice.
Qed.
Lemma discard_others s i i' : discard_capsule_output s i = Ok i' -> others s i' = others s i.
Proof.
  unfold discard_capsule_output. destruct (capsule_streams i !! s).
  - unfold usize_sub. repeat case_bool_decide; cbn; try done. intros [= <-]. unfold others. cbn. by rewrite delete_insert_eq.
  - cbn. by intros [= <-].
Qed.
Lemma close_output_others `{Quiche} up ip s r i q a i' q' : close_output up ip s r i q = Ok (a, (i', q')) -> others s i' = others s i.
Proof.
  unfold close_output. destruct (_ || _); [by intros [= <- <- <-]|].
  destruct (if ip then Ok i else discard_capsule_output s i) as [i1|e|] eqn:Hd; cbn [mbind result_bind]; [|done|done].
  assert (others s i1 = others s i) as Ho by (destruct ip; [by injection Hd as <-|by apply discard_others]).
  destruct up; [|by intros [= <- <- <-]]. unfold do. destruct (answer _ q _) as [n|[| |code]|]; try done; intros [= <- <- <-]; try done.
  all: case_bool_decide; [done|]; rewrite <-Ho; unfold others; cbn; by rewrite filter_snoc_self.
Qed.

Section relay.
Context `{HQ : Quiche} `{HO : Outside}.
Context (order : gset Z -> list Z) (work : conn -> nat).
Context `{!ConnectionLaws work} `{!OutsideLaws} `{!WalkLaws order}.
Context (E : Env).
Context {N4 N6 : Type} `{!NetOps N4, !NetOps N6} (ip_policy : TargetPolicy N4 N6) (tun : bool).
Context (policy_agrees : forall a, is_allowed ip_policy a = env_allowed E a).

Abbreviation J := (conn_inv E).
Abbreviation later := (later work).
Abbreviation neutral := (neutral work E).
Abbreviation config := (env_config E).
Ltac wskip := eapply (neutral_use work E); [solve [neut]|eassumption|].

(** ** Closing capsule streams *)

Lemma inv_quiet_runs held g c q : J held g c -> quiet_runs (quic c) q -> J held g (c <| quic := q |>) /\ later c (c <| quic := q |>).
Proof.
  intros Hc Hq. destruct (quiet_runs_new _ _ Hq) as (Hr & new & -> & Hn). split; [by apply inv_quiet_calls|].
  by apply later_runs.
Qed.

Lemma wp_close_output up ip s r x held g c Q :
  J held g c -> capsule_streams (io c) !! s = Some x -> (r = false -> is_Some (finished_at x)) ->
  (forall closed c', J held g c' -> later c c' -> (r = true -> closed = true) -> Q closed c') ->
  wp (with_io_quic (close_output up ip s r)) Q c.
Proof.
  intros Hc Hx Hf HQ'. apply wp_with_io_quic.
  destruct (close_output_ok false ∅ up ip s r (io c) (quic c) x (ci_io _ _ _ _ Hc)) as (closed & i & q & Hcl & Hi & _ & _ & Hr & Hs & Hclosed & _);
    [done|done|done|]. rewrite Hcl. cbn [post fst snd].
  pose proof (inv_io_same E held g c i Hc Hi Hr Hs) as Hc1.
  destruct (inv_quiet_runs held g (c <| io := i |>) q Hc1) as [Hc2 Hl2]; [by eapply close_output_runs|].
  apply HQ'; [done| |done]. eapply later_trans; [|exact Hl2]. by apply later_refl.
Qed.

(** A stream that failed is gone, whatever its reader is left in. *)
Lemma wp_close_failed s x held g g' c Q :
  J held g c -> capsule_streams (io c) !! s = Some x ->
  (forall y, y ∈ bad_streams g -> y ∈ bad_streams g' \/ y = s) -> fresh_streams g' = fresh_streams g ->
  (forall c', J held g' c' -> later c c' -> Q tt c') -> wp (close_capsule_stream s true) Q c.
Proof.
  intros Hc Hx Hb Hf HQ'. unfold close_capsule_stream. apply wp_bind, wp_gets, wp_bind, wp_gets, wp_bind.
  eapply wp_close_output; [done|done|done|]. intros closed c1 Hc1 Hl1 ->; [|done]. cbn [negb].
  apply wp_bind. wskip. intros ? c2 Hc2 Hl2. apply wp_bind. wskip. intros ? c3 Hc3 Hl3. apply wp_bind. wskip. intros ? c4 Hc4 Hl4.
  eapply (wp_drop_capsule_stream work E); [exact Hc4|done|done|]. intros c5 ? _ ?. apply HQ'; [done|].
  by do 4 (eapply later_trans; [done|]).
Qed.
Lemma wp_close_finished s x held g c Q :
  J held g c -> capsule_streams (io c) !! s = Some x -> is_Some (finished_at x) ->
  (forall c', J held g c' -> later c c' -> Q tt c') -> wp (close_capsule_stream s false) Q c.
Proof.
  intros Hc Hx Hf HQ'. unfold close_capsule_stream. apply wp_bind, wp_gets, wp_bind, wp_gets, wp_bind.
  eapply wp_close_output; [done|done|done|]. intros closed c1 Hc1 Hl1 _. destruct closed; cbn [negb]; [|by apply wp_pass, HQ'].
  apply wp_bind. wskip. intros ? c2 Hc2 Hl2. apply wp_bind. wskip. intros ? c3 Hc3 Hl3. apply wp_bind. wskip. intros ? c4 Hc4 Hl4.
  wskip. intros [] c5 ? ?. apply HQ'; [done|]. by do 4 (eapply later_trans; [done|]).
Qed.

Lemma frames_drop_capsule_stream s : frames (fun c => others s (io c)) (drop_capsule_stream s).
Proof.
  unfold drop_capsule_stream. apply frames_bind; [frame|intros found]. apply frames_bind; [|intros _; frame].
  apply frames_io_part. intros i a i'. destruct (remove_capsule_stream s i) as [i1|e|] eqn:Hr; cbn; try done. intros [= <- <-].
  by apply remove_others.
Qed.
Lemma frames_close_capsule_stream s r : frames (fun c => others s (io c)) (close_capsule_stream s r).
Proof.
  unfold close_capsule_stream. do 2 (apply frames_bind; [frame|intros ?]). apply frames_bind; [|intros gone].
  { apply frames_io_quic_part. intros. by eapply close_output_others. }
  destruct (negb gone); [frame|]. apply frames_bind; [unfold forget_udp; frame|intros _].
  apply frames_bind; [unfold forget_pending_udp, remove_pending_udp, drop_pending_udp, abort; frame|intros _].
  apply frames_bind; [|intros _; apply frames_drop_capsule_stream].
  unfold teardown_ip_tunnel. apply frames_bind; [frame|intros [t|]]; [|frame].
  apply frames_bind; [frame|intros _]. apply frames_bind; [apply frames_drop_capsule_stream|intros _]. frame.
Qed.

(** What holds of the streams a walk over the finished list has still to visit. *)
Definition to_finish (l : list Z) (c : Client) : Prop :=
  NoDup l /\ forall s, s ∈ l -> s ∉ finished_capsules (io c) /\
    exists x, capsule_streams (io c) !! s = Some x /\ is_Some (finished_at x).

Lemma to_finish_others s l c c' : to_finish (s :: l) c -> others s (io c') = others s (io c) -> to_finish l c'.
Proof.
  intros [[Hs Hnd]%NoDup_cons Hl] Ho. split; [done|]. intros s' Hs'. assert (s' <> s) as Hne by by intros ->.
  destruct (Hl s') as (Hf & x & Hx & Hfx); [by right|]. unfold others in Ho. injection Ho as Hd Hfi. split.
  - intros Hin. assert (s' ∈ filter (fun y => y <> s) (finished_capsules (io c'))) as Hin' by by apply list_elem_of_filter.
    rewrite Hfi in Hin'. by apply list_elem_of_filter in Hin' as [_ ?].
  - exists x. split; [|done]. rewrite <-(lookup_delete_ne _ s) by done. rewrite Hd. by rewrite lookup_delete_ne.
Qed.

Lemma wp_finish_capsule_body s l held g c :
  J held g c -> to_finish (s :: l) c ->
  wp (finish_capsule_body s) (fun _ c' => J held g c' /\ later c c' /\ to_finish l c') c.
Proof.
  intros Hc Hl. destruct (proj2 Hl s) as (Hs & x & Hx & Hf); [by left|].
  unfold finish_capsule_body. apply wp_bind, wp_gets. rewrite Hx. destruct (_ && _).
  - apply wp_modify. split_and!.
    + destruct (requeue_ok s (io c) x (ci_io _ _ _ _ Hc) Hx Hf) as [Hi _]. rewrite bool_decide_false in Hi by done.
      eapply inv_io; [done|exact Hi| |done|].
      * destruct (ci_received _ _ _ _ Hc) as (? & ? & ? & ? & Hnd). split_and!; try done. cbn. apply NoDup_app.
        split_and!; [done| |apply NoDup_singleton]. by intros y Hy ->%list_elem_of_singleton.
      * intros s' y Hy. split; [eauto|]. intros. by eapply ci_readers.
    + by apply later_refl.
    + eapply to_finish_others; [exact Hl|]. unfold others. cbn. by rewrite filter_snoc_self.
  - eapply wp_mono; [apply (wp_frames (fun c => others s (io c)) _ (fun _ c' => J held g c' /\ later c c')); [apply frames_close_capsule_stream|]|].
    + by eapply wp_close_finished.
    + intros ? c' [[? ?] Ho]. split_and!; [done|done|by eapply to_finish_others].
Qed.

Lemma neutral_finish_capsule_bodies : neutral finish_capsule_bodies.
Proof.
  intros held g c Hc. unfold finish_capsule_bodies. apply wp_bind, wp_gets, wp_bind, wp_modify.
  destruct (ci_received _ _ _ _ Hc) as (? & ? & ? & ? & Hnd). pose proof (ci_io _ _ _ _ Hc) as Hio.
  match goal with |- wp _ _ ?x => set (c1 := x) end.
  assert (J held g c1) as Hc1.
  { eapply inv_io; [done| | |done|].
    - destruct Hio. split; try done. cbn. by intros ? ?%not_elem_of_nil.
    - split_and!; try done. apply NoDup_nil_2.
    - intros s x Hx. split; [eauto|]. intros. by eapply ci_readers. }
  eapply (wp_each _ _ (fun l c' => J held g c' /\ later c c' /\ to_finish l c')).
  - intros s l c2 _ (Hc2 & Hl2 & Hf). eapply wp_mono; [by apply wp_finish_capsule_body|]. intros ? c3 (? & ? & ?).
    split_and!; [done|by eapply later_trans|done].
  - split_and!; [done|by apply later_refl|]. split; [done|]. intros s Hs. split; [apply not_elem_of_nil|].
    by apply (io_finished _ Hio).
  - by intros c' (? & ? & _).
Qed.

(** ** Staging for UDP targets *)

Lemma wp_flush_udp s t held g c Q :
  J held g c -> stage_ok t -> (forall t' c', J held g c' -> later c c' -> stage_ok t' -> Q t' c') -> wp (flush_udp s t) Q c.
Proof.
  intros Hc Ht HQ'. unfold flush_udp. apply wp_bind. wskip. intros at_ c1 Hc1 Hl1. apply wp_bind, wp_perform.
  set (calls := outside_answer _ _ _). set (c2 := c1 <| world := _ |>).
  pose proof (socket_post (world c1) s) as Hs. fold calls in Hs.
  pose proof (flush_to_target_ok at_ calls.1 calls.2 t Ht) as Hf.
  specialize (Hf ltac:(intros ms; apply Hs) ltac:(intros ms; apply Hs)).
  assert (later c c2) as Hl2 by (eapply later_trans; [exact Hl1|by eapply later_world]).
  assert (J held g c2) as Hc2 by by apply inv_world.
  destruct (flush_to_target at_ calls.1 calls.2 t) as [t' r]. destruct Hf as [Ht' Hr]. destruct r; [| |done]; by apply wp_ret, HQ'.
Qed.
Lemma wp_stage_udp s t data held g c Q :
  J held g c -> stage_ok t -> (forall t' c', J held g c' -> later c c' -> stage_ok t' -> Q t' c') -> wp (stage_udp s t data) Q c.
Proof.
  intros Hc Ht HQ'. unfold stage_udp. destruct (stage_spec data t Ht) as (full & t' & Hs & Ht' & _). apply wp_bind.
  eapply wp_lift; [exact Hs|]. destruct full; [by eapply wp_flush_udp|]. by apply wp_ret, HQ'; [|apply later_refl|].
Qed.
Lemma wp_stage_all s t l held g c Q :
  J held g c -> stage_ok t -> (forall t' c', J held g c' -> later c c' -> stage_ok t' -> Q t' c') -> wp (stage_all s t l) Q c.
Proof.
  revert t c. induction l as [|data l IH]; intros t c Hc Ht HQ'; cbn [stage_all]; [by apply wp_ret, HQ'; [|apply later_refl|]|].
  apply wp_bind. eapply wp_stage_udp; [done|done|]. intros t1 c1 Hc1 Hl1 Ht1. apply IH; [done|done|].
  intros t2 c2 ? ? ?. apply HQ'; [done|by eapply later_trans|done].
Qed.

Lemma neutral_relay_early s t q : stage_ok t -> neutral (relay_early_udp_datagrams s t q).
Proof.
  intros Ht held g c Hc. unfold relay_early_udp_datagrams. apply wp_bind, wp_gets. destruct (into_payloads _ q) as [l bs].
  apply wp_bind. wskip. intros [] c1 Hc1 Hl1. apply wp_bind. eapply wp_stage_all; [done|done|]. intros t2 c2 Hc2 Hl2 Ht2.
  assert (forall t3 c3, J held g c3 -> later c2 c3 -> stage_ok t3 -> wp (set_udp s t3) (fun _ c' => J held g c' /\ later c c') c3) as Hset.
  { intros t3 c3 Hc3 Hl3 Ht3. eapply (neutral_use work E); [by apply neutral_set_udp|exact Hc3|]. intros [] c4 ? ?. split; [done|].
    by do 3 (eapply later_trans; [done|]). }
  apply wp_bind. destruct (has_staged t2); [by eapply wp_flush_udp|]. apply wp_ret, Hset; [done|by apply later_refl|done].
Qed.

Lemma neutral_flush_staged s : neutral (flush_staged s).
Proof.
  intros held g c Hc. unfold flush_staged. apply wp_bind, wp_gets. destruct (Client.udp_tunnels c !! s) as [t|] eqn:Ht.
  2:{ apply wp_pass. by split; [|apply later_refl]. }
  pose proof (ci_udp _ _ _ _ Hc s t Ht) as Hok. destruct (has_staged t); [|by apply wp_pass; split; [|apply later_refl]].
  apply wp_bind. eapply wp_flush_udp; [done|done|]. intros t1 c1 Hc1 Hl1 Ht1.
  eapply (neutral_use work E); [by apply neutral_set_udp|exact Hc1|]. intros [] c2 ? ?. split; [done|by eapply later_trans].
Qed.
#[local] Hint Resolve neutral_flush_staged : client.

(** ** Capsule bodies *)

Lemma inv_set_stream held g c s x x' :
  J held g c -> capsule_streams (io c) !! s = Some x ->
  staged_bytes x' = staged_bytes x -> send_queue x' = send_queue x -> offset x' = offset x -> finished_at x' = finished_at x ->
  (s ∉ bad_streams g -> capsule_reader_ok x') -> J held g (c <| io := put_stream s x' (io c) |>).
Proof.
  intros Hc Hx Hb Hq Ho Hf Hr. pose proof (ci_io _ _ _ _ Hc) as Hio. eapply inv_io; [done| |exact (ci_received _ _ _ _ Hc)|done|].
  - pose proof (shrink_ok (io c) s x x' (capsule_writable (io c)) Hio Hx) as Hs. rewrite Hb, Hq, Z.sub_add, Z.sub_add in Hs.
    assert (forall i : CapsuleIo, i <| capsule_send_bytes := capsule_send_bytes i |> <| capsule_send_packets := capsule_send_packets i |>
      <| capsule_writable := capsule_writable i |> = i) as Hid by by intros [].
    rewrite Hid in Hs. apply Hs; [|by rewrite Hf|done|done|done|].
    + destruct (io_streams _ Hio s x Hx) as [Hb' Ho' Hm]. split; rewrite ?Hb, ?Hq, ?Ho; done.
    + intros. by eapply (io_writable _ Hio).
  - intros s' y Hy. unfold put_stream in Hy. cbn in Hy. apply lookup_insert_Some in Hy as [[<- <-]|[Hne Hy]]; (split; [by eauto|]); [done|]. intros. by eapply ci_readers.
Qed.

Lemma wp_touch_ip s t at_ held g c Q :
  J held g c -> Client.ip_tunnels c !! s = Some t -> (forall c', J held g c' -> later c c' -> Q tt c') -> wp (touch_ip s t at_) Q c.
Proof.
  intros Hc Ht HQ'. apply wp_modify, HQ'; [|by apply later_refl]. apply inv_ip_map; [done|].
  intros s' t' [[<- <-]|[_ ?]]%lookup_insert_Some; [|by eapply ci_ip]. exact (ci_ip _ _ _ _ Hc s t Ht).
Qed.

(** Which capsule streams there are, and which of them read for IP tunnels. *)
Definition kinds (i : CapsuleIo) : gmap Z bool := (fun x => is_ip (cs_decoder x)) <$> capsule_streams i.

Lemma kinds_put s x x' i :
  capsule_streams i !! s = Some x -> is_ip (cs_decoder x') = is_ip (cs_decoder x) -> kinds (put_stream s x' i) = kinds i.
Proof.
  intros Hx Hk. unfold kinds, put_stream. cbn. rewrite fmap_insert, Hk. apply insert_id. by rewrite lookup_fmap, Hx.
Qed.
Lemma queue_kinds s data i : kinds (queue_capsule_bytes s data i).2 = kinds i.
Proof.
  unfold queue_capsule_bytes. destruct (capsule_streams i !! s) as [x|] eqn:Hx; [|done]. destruct (_ || _); [done|]. cbn [snd].
  by etrans; [by apply (kinds_put s x)|].
Qed.
Lemma mark_kinds s i q : kinds (mark_capsule_finished s i q).1 = kinds i.
Proof.
  unfold mark_capsule_finished. destruct (capsule_streams i !! s) as [x|] eqn:Hx; [|done]. destruct (finished_at x); [done|].
  unfold do. cbn [fst]. by etrans; [by apply (kinds_put s x)|].
Qed.

Lemma capsule_known held g c s x : J held g c -> capsule_streams (io c) !! s = Some x -> Datagram.stream_ok s.
Proof.
  intros Hc Hx. apply (ci_known _ _ _ _ Hc s). pose proof (ci_capsules _ _ _ _ Hc s x Hx). unfold load. lia.
Qed.

Lemma wp_on_address_request s l x held g c Q :
  J held g c -> capsule_streams (io c) !! s = Some x -> is_ip (cs_decoder x) = true -> s ∉ bad_streams g -> Forall assigned_ok l ->
  (forall r c', J held g c' -> later c c' -> kinds (io c') = kinds (io c) -> Q r c') -> wp (on_address_request s l) Q c.
Proof.
  intros Hc Hx Hip Hs Hl HQ'. unfold on_address_request. apply wp_bind, wp_gets. destruct (Client.ip_tunnels c !! s) as [t|] eqn:Ht.
  2:{ by apply wp_ret, HQ'; [|apply later_refl|]. }
  apply wp_bind, wp_gets. rewrite Hx. destruct (ci_readers _ _ _ _ Hc s x Hx Hs) as [Hd Hr]. destruct (Hr Hip) as (ids & Hids & Hsz).
  rewrite Hids. destruct (ci_ip _ _ _ _ Hc s t Ht) as (_ & Ha & Hn & _).
  pose proof (respond_encodes ids l (assigned_addrs t) Hsz Hl Ha Hn) as Hresp.
  destruct (respond ids l (assigned_addrs t)) as [ids' r]. destruct Hresp as [Hsz' Hpost].
  apply wp_bind. unfold set_stream. apply wp_modify. set (x' := x <| address_requests := Some ids' |>).
  match goal with |- wp _ _ ?y => set (c1 := y) end.
  assert (J held g c1) as Hc1. { eapply inv_set_stream; try done. intros _. split; [done|]. intros _. by exists ids'. }
  assert (kinds (io c1) = kinds (io c)) as Hk1 by by apply (kinds_put s x).
  assert (later c c1) as Hl1 by by apply later_refl.
  destruct r as [reply|e|]; [| |done]; [|by apply wp_ret, HQ']. destruct Hpost as [w Hw].
  apply wp_bind, wp_call. set (c2 := c1 <| quic := _ |>). assert (J held g c2) as Hc2 by by apply inv_call.
  assert (later c1 c2) as Hl2 by by apply later_call.
  apply wp_bind. apply wp_modify. match goal with |- wp _ _ ?y => set (c3 := y) end.
  assert (J held g c3) as Hc3.
  { apply inv_ip_map; [done|]. intros s' t' [[<- <-]|[_ ?]]%lookup_insert_Some; [|by eapply ci_ip].
    exact (ci_ip _ _ _ _ Hc2 s t Ht). }
  apply wp_bind. eapply wp_lift; [exact Hw|]. apply wp_bind. eapply (wp_io_same E); [exact Hc3|]. cbn [post].
  destruct (queue_capsule_bytes s w (io c3)) as [ok i] eqn:Hq. cbn [fst snd].
  destruct (queue_bytes_io s w (io c3) ok i (ci_io _ _ _ _ Hc3) Hq) as (? & ? & ?).
  split; [done|]. split; [done|]. split; [done|]. intros c4 Hc4 ->. apply wp_ret, HQ'; [done| |].
  - eapply later_trans; [exact Hl1|]. eapply later_trans; [exact Hl2|]. by apply later_refl.
  - cbn. pose proof (queue_kinds s w (io c3)) as Hk. rewrite Hq in Hk. rewrite <-Hk1. exact Hk.
Qed.

Lemma wp_on_datagram_capsule s max data x held g c Q :
  J held g c -> capsule_streams (io c) !! s = Some x -> bytes_ok data ->
  (forall r c', J held g c' -> later c c' -> kinds (io c') = kinds (io c) -> Q r c') -> wp (on_datagram_capsule s max data) Q c.
Proof.
  intros Hc Hx Hb HQ'. unfold on_datagram_capsule.
  assert (forall r : bool, wp (mret r) Q c) as Hret by (intros r; by apply wp_ret, HQ'; [|apply later_refl|]).
  pose proof (decode_no_panic data Hb). destruct (Varint.decode data) as [[context n]|e|]; [|done|done].
  destruct (negb _); [done|]. destruct (bool_decide (_ > max)); [done|]. apply wp_bind, wp_gets.
  destruct (_ || _) eqn:Hfull; [done|]. apply orb_false_iff in Hfull as [Hn Hn']. rewrite bool_decide_eq_false in Hn, Hn'.
  destruct (capsule_known _ _ _ _ _ Hc Hx) as [Hs Hmod]. apply wp_bind.
  eapply wp_lift; [apply push_varint_Ok; unfold varint_ok; split; [apply Z.div_pos; lia|]; etrans; [apply Z.div_le_upper_bound with (q := s); lia|lia]|]. cbn [app]. apply wp_bind, wp_modify, wp_ret, HQ'; [|by apply later_refl|done].
  pose proof (ci_io _ _ _ _ Hc) as Hio. destruct (ci_received _ _ _ _ Hc) as (R1 & R2 & R3 & R4 & R5).
  pose proof (wire_len_bounds (s / 4)) as Hwl.
  eapply inv_io; [done|by destruct Hio| |done|intros s' y Hy; split; [eauto|]; intros; by eapply ci_readers].
  split_and!; cbn -[zlen sum_of]; try done.
  - rewrite sum_of_app. cbn -[zlen]. lia.
  - apply Forall_app. split; [done|]. constructor; [|done]. apply bytes_ok_app. split; [apply wire_ok|done].
  - rewrite zlen_app. unfold zlen at 2. cbn. lia.
  - unfold zlen in *. rewrite length_app, length_wire. lia.
Qed.

Lemma wp_on_frames s max l x held g c Q :
  J held g c -> capsule_streams (io c) !! s = Some x -> s ∉ bad_streams g -> Forall (frame_fits (is_ip (cs_decoder x))) l ->
  (forall r c', J held g c' -> later c c' -> kinds (io c') = kinds (io c) -> Q r c') -> wp (on_frames s max l) Q c.
Proof.
  revert c x. induction l as [|f l IH]; intros c x Hc Hx Hs Hl HQ'; cbn [on_frames].
  { by apply wp_ret, HQ'; [|apply later_refl|]. }
  apply Forall_cons in Hl as [[Hf Hfit] Hl]. apply wp_bind.
  assert (forall (r : bool) c1, J held g c1 -> later c c1 -> kinds (io c1) = kinds (io c) ->
    wp (if r then mret true else on_frames s max l) Q c1) as Hrest.
  { intros [] c1 Hc1 Hl1 Hk1; [by apply wp_ret, HQ'|].
    assert (kinds (io c1) !! s = Some (is_ip (cs_decoder x))) as Hk by (rewrite Hk1; unfold kinds; by rewrite lookup_fmap, Hx).
    unfold kinds in Hk. rewrite lookup_fmap in Hk. apply fmap_Some in Hk as (x1 & Hx1 & Hk). eapply (IH c1 x1); [done|done|done|by rewrite <-Hk|].
    intros r c2 ? ? ?. apply HQ'; [done|by eapply later_trans|congruence]. }
  destruct f as [v|v|v|v|k v]; try (apply wp_ret; apply (Hrest false); [done|by apply later_refl|done]).
  - by eapply wp_on_datagram_capsule.
  - destruct (is_ip (cs_decoder x)) eqn:Hip; [|by destruct Hfit].
    eapply wp_on_address_request; [done|done|done|done|by destruct Hf|done].
Qed.

(** Operations that need every reader to be sound. *)
Definition calm {A} (m : M A) : Prop :=
  forall held g c, bad_streams g = [] -> J held g c -> wp m (fun _ c' => J held g c' /\ later c c') c.
Lemma calm_use {A} (m : M A) held g c Q :
  calm m -> bad_streams g = [] -> J held g c -> (forall a c', J held g c' -> later c c' -> Q a c') -> wp m Q c.
Proof. intros Hm Hb Hc HQ'. eapply wp_mono; [by apply Hm|]. intros a c' [? ?]. auto. Qed.
Lemma neutral_calm {A} (m : M A) : neutral m -> calm m.
Proof. intros Hm held g c _ Hc. by apply (Hm held g c). Qed.
Lemma calm_bind {A B} (m : M A) (k : A -> M B) : calm m -> (forall a, calm (k a)) -> calm (m ≫= k).
Proof.
  intros Hm Hk held g c Hb Hc. apply wp_bind. eapply calm_use; [done|done|done|]. intros a c1 Hc1 Hl1.
  eapply calm_use; [apply Hk|done|done|]. intros b c2 ? ?. split; [done|by eapply later_trans].
Qed.
Lemma calm_each {A} (k : A -> M unit) l : (forall a, calm (k a)) -> calm (each k l).
Proof. intros Hk. induction l as [|a l IH]; cbn [each]; [by apply neutral_calm, neutral_pass|]. by apply calm_bind. Qed.

(** A stream whose body did not parse. *)
Definition spoil (s : Z) (g : Ghost) : Ghost := {| bad_streams := s :: bad_streams g; fresh_streams := fresh_streams g |}.

Lemma inv_spoiled held g c s : J held g c -> J held (spoil s g) c.
Proof. intros Hc. eapply inv_more_bad; [done|by right|done]. Qed.
Lemma inv_spoil held g c s x x' :
  J held g c -> capsule_streams (io c) !! s = Some x ->
  staged_bytes x' = staged_bytes x -> send_queue x' = send_queue x -> offset x' = offset x -> finished_at x' = finished_at x ->
  J held (spoil s g) (c <| io := put_stream s x' (io c) |>).
Proof.
  intros Hc Hx Hb Hq Ho Hf. eapply inv_set_stream; try done.
  - by apply inv_spoiled.
  - intros Hn. destruct Hn. by left.
Qed.

Lemma kinds_present i i' s : kinds i' = kinds i -> is_Some (capsule_streams i !! s) -> is_Some (capsule_streams i' !! s).
Proof.
  unfold kinds. intros Hk Hs. assert (is_Some ((fun x => is_ip (cs_decoder x)) <$> capsule_streams i' !! s)) as Hp.
  { rewrite <-lookup_fmap, Hk, lookup_fmap. by apply fmap_is_Some. }
  by apply fmap_is_Some in Hp.
Qed.

Lemma wp_read_capsules_step s held g c :
  bad_streams g = [] -> J held g c -> is_Some (capsule_streams (io c) !! s) ->
  wp (read_capsules_step s tt) (fun r c' => later c c' /\ is_Some (capsule_streams (io c') !! s) /\
    match r with
    | inl _ => J held g c' /\ (work (quic c') < work (quic c))%nat
    | inr failed => J held (if failed : bool then spoil s g else g) c'
    end) c.
Proof.
  intros Hb Hc Hs. unfold read_capsules_step. apply wp_bind, wp_call. set (c1 := c <| quic := _ |>).
  assert (J held g c1) as Hc1 by by apply inv_call. assert (later c c1) as Hl1 by by apply later_call.
  assert (J held (spoil s g) c1) as Hspoil by by apply inv_spoiled.
  pose proof (recv_body_post (quic c) s (16 * 1024)) as Hr.
  destruct (answer _ (quic c) (recv_body s (16 * 1024))) as [data|e|] eqn:Ha; [|destruct e; by apply wp_ret|done].
  pose proof (work_recv_body _ _ _ _ Ha) as Hw. destruct data as [|b data]; [by apply wp_ret|]. set (d := b :: data) in *.
  apply wp_bind, wp_gets. destruct Hs as [x Hx]. change (capsule_streams (io c1)) with (capsule_streams (io c)). rewrite Hx.
  destruct (ci_readers _ _ _ _ Hc s x Hx) as [Hd Hrd]; [rewrite Hb; apply not_elem_of_nil|].
  pose proof (stream_decode_post (cs_decoder x) d Hd Hr) as Hp. destruct (stream_decode (cs_decoder x) d) as [dec r].
  destruct Hp as [Hip Hp]. apply wp_bind, wp_modify. set (x' := x <| cs_decoder := dec |>).
  match goal with |- wp _ _ ?y => set (c2 := y) end. assert (later c c2) as Hl2 by (eapply later_trans; [exact Hl1|by apply later_refl]).
  assert (capsule_streams (io c2) !! s = Some x') as Hx2 by apply lookup_insert_eq.
  destruct r as [frames|e|]; [| |done].
  - destruct Hp as [Hdec Hfr]. assert (J held g c2) as Hc2.
    { eapply (inv_set_stream held g c1 s x x'); try done. intros _. split; [done|]. cbn. rewrite Hip. exact Hrd. }
    apply wp_bind. eapply (wp_on_frames s _ frames x'); [done|done|rewrite Hb; apply not_elem_of_nil|cbn; by rewrite Hip|].
    intros failed c3 Hc3 Hl3 Hk3. apply wp_ret. assert (later c c3) by by eapply later_trans.
    assert (is_Some (capsule_streams (io c3) !! s)) by (eapply kinds_present; [exact Hk3|eauto]).
    destruct failed; (split; [done|split; [done|]]); [by apply inv_spoiled|].
    split; [done|]. destruct Hl3 as [Hw3 _]. change (work (quic c2)) with (work (exec (recv_body s (16 * 1024)) (quic c))) in Hw3. lia.
  - apply wp_ret. split; [done|]. split; [eauto|]. by apply (inv_spoil held g c1 s x x').
Qed.

Lemma calm_release_early s : calm (release_early s).
Proof.
  intros held g c Hb Hc. unfold release_early. apply wp_bind, wp_gets. destruct (capsule_streams (io c) !! s) as [x|] eqn:Hx.
  2:{ apply wp_pass. by split; [|apply later_refl]. }
  destruct (CapsuleIo.early x) as [q|]; [|by apply wp_pass; split; [|apply later_refl]].
  apply wp_bind, wp_modify. match goal with |- wp _ _ ?y => set (c1 := y) end.
  assert (J held g c1) as Hc1 by (eapply inv_set_stream; try done; intros Hn; exact (ci_readers _ _ _ _ Hc s x Hx Hn)).
  apply wp_bind, wp_query, wp_bind. unfold connection_over. wskip. intros over c2 Hc2 Hl2. apply wp_bind, wp_gets.
  assert (later c c2) as Hl by (eapply later_trans; [|exact Hl2]; by apply later_refl).
  assert (forall m : M unit, neutral m -> wp m (fun _ c' => J held g c' /\ later c c') c2) as Hn.
  { intros m Hm. eapply (neutral_use work E); [exact Hm|exact Hc2|]. intros ? c3 ? ?. split; [done|by eapply later_trans]. }
  destruct (Client.udp_tunnels c2 !! s) as [t|] eqn:Ht; [|apply Hn; neut].
  destruct (_ && _); apply Hn; [|neut]. apply neutral_relay_early. exact (ci_udp _ _ _ _ Hc2 s t Ht).
Qed.

Lemma neutral_read_again s :
  neutral (modify (fun c => c <| io ::= fun i => i <| capsule_readable ::= union {[s]} |> <| capsule_read_resumes ::= union {[s]} |> |>)).
Proof. by apply neutral_io_sets; [intros i []|intros i|intros i]. Qed.
#[local] Hint Resolve neutral_read_again : client.

(** The request's FIN is recorded whether or not its body parsed. *)
Lemma wp_note_fin s held g c Q (failed : bool) :
  J held g c -> is_Some (capsule_streams (io c) !! s) ->
  (forall failed' c', J held g c' -> later c c' -> is_Some (capsule_streams (io c') !! s) -> (failed = true -> failed' = true) -> Q failed' c') ->
  wp (x ← gets (fun c => capsule_streams (io c) !! s);
      match x with
      | None => panic
      | Some x => _ ← with_io_quic (fun i q => Ok (tt, mark_capsule_finished s i q)); mret (failed || stream_is_partial (cs_decoder x))
      end) Q c.
Proof.
  intros Hc [x Hx] HQ'. apply wp_bind, wp_gets. rewrite Hx. apply wp_bind.
  eapply wp_mono; [apply (wp_frames (fun c => kinds (io c)) _ (fun _ c' => J held g c' /\ later c c'))|].
  - apply frames_io_quic_part. intros i q a i' q'. pose proof (mark_kinds s i q) as Hk. destruct (mark_capsule_finished s i q).
    by intros [= <- <- <-].
  - by apply neutral_mark_finished.
  - intros [] c1 [[Hc1 Hl1] Hk]. apply wp_ret, HQ'; [done|done|eapply kinds_present; [exact Hk|eauto]|by intros ->].
Qed.

Lemma calm_read_capsule_stream s held g c :
  bad_streams g = [] -> J held g c -> is_Some (capsule_streams (io c) !! s) ->
  wp (read_capsule_stream work s) (fun _ c' => J held g c' /\ later c c') c.
Proof.
  intros Hb Hc Hs. unfold read_capsule_stream. apply wp_bind.
  eapply (wp_repeating _ _ (fun _ c' => J held g c' /\ later c c' /\ is_Some (capsule_streams (io c') !! s))); [|by split_and!; [|apply later_refl|]].
  intros [] c1 (Hc1 & Hl1 & Hs1). eapply wp_mono; [by apply wp_read_capsules_step|]. intros [[]|failed] c2 (Hl2 & Hs2 & Hr).
  { destruct Hr. split_and!; [done|by eapply later_trans|done|done]. }
  assert (later c c2) as Hl by by eapply later_trans. clear Hl1 Hl2. apply wp_bind, wp_query, wp_bind.
  set (g2 := if failed then spoil s g else g) in *.
  assert (forall failed' c3, J held g2 c3 -> later c2 c3 -> is_Some (capsule_streams (io c3) !! s) -> (failed = true -> failed' = true) ->
    wp (if failed' : bool then close_capsule_stream s true else
        readable ← query_ (stream_readable s);
        finished ← query_ (stream_finished s);
        broken ← query_ local_error;
        if readable && negb finished && negb broken then
          modify (fun c => c <| io ::= fun i => i <| capsule_readable ::= union {[s]} |> <| capsule_read_resumes ::= union {[s]} |> |>)
        else release_early s) (fun _ c' => J held g c' /\ later c c') c3) as Hrest.
  { intros failed' c3 Hc3 Hl3 [x3 Hx3] Hf. assert (later c c3) as Hlc by by eapply later_trans. destruct failed'.
    - eapply (wp_close_failed s x3 held g2 g); [done|done| |by destruct failed|].
      + unfold g2. destruct failed; [|by left]. cbn. intros y [->|?]%elem_of_cons; auto.
      + intros c4 ? ?. split; [done|by eapply later_trans].
    - unfold g2 in Hc3. destruct failed; [by discriminate Hf|]. do 3 apply wp_bind, wp_query. destruct (_ && _).
      + wskip. intros ? c4 ? ?. split; [done|by eapply later_trans].
      + eapply calm_use; [apply calm_release_early|done|exact Hc3|]. intros ? c4 ? ?. split; [done|by eapply later_trans]. }
  destruct (ask (stream_finished s) (quic c2)).
  - by eapply wp_note_fin.
  - apply wp_ret, Hrest; [done|by apply later_refl|done|done].
Qed.

Lemma calm_read_readable s : calm (read_readable work s).
Proof.
  unfold read_readable. apply calm_bind; [apply neutral_calm; neut|intros _]. intros held g c Hb Hc.
  apply wp_bind, wp_gets. cbn [id].
  assert (forall m : M unit, neutral m -> wp m (fun _ c' => J held g c' /\ later c c') c) as Hn by (intros m Hm; by apply Hm).
  destruct (_ || _); [apply Hn; neut|]. destruct (negb _ || negb _) eqn:Hg; [apply Hn; neut|].
  apply orb_false_iff in Hg as [Hg _]. rewrite negb_false_iff, bool_decide_eq_true in Hg. by apply calm_read_capsule_stream.
Qed.

Lemma neutral_clear_readable : neutral (modify (fun c => c <| io ::= fun i => i <| capsule_readable := ∅ |> |>)).
Proof. by apply neutral_io_sets; [intros i []|intros i|intros i]. Qed.
Lemma neutral_clear_resumes : neutral (modify (fun c => c <| io ::= fun i => i <| capsule_read_resumes := ∅ |> |>)).
Proof. by apply neutral_io_sets; [intros i []|intros i|intros i]. Qed.
#[local] Hint Resolve neutral_clear_readable neutral_clear_resumes : client.

Lemma calm_read_once : calm (read_capsule_bodies_once order work).
Proof.
  unfold read_capsule_bodies_once. apply calm_bind; [apply neutral_calm; neut|intros l].
  apply calm_bind; [apply neutral_calm; neut|intros _]. apply calm_each, calm_read_readable.
Qed.

Lemma calm_read_attempts n before : calm (read_attempts order work (env_decode E) config (env_auth E) n before).
Proof.
  revert before. induction n as [|n IH]; intros before; cbn [read_attempts]; [apply neutral_calm; neut|].
  apply calm_bind; [apply calm_read_once|intros _]. apply calm_bind; [unfold connection_over; apply neutral_calm; neut|intros over].
  destruct over; [apply neutral_calm; neut|]. apply calm_bind; [apply neutral_calm; neut|intros resumes].
  destruct (bool_decide _); [apply neutral_calm; neut|]. apply calm_bind; [apply neutral_calm; neut|intros q].
  apply calm_bind; [by apply neutral_calm, neutral_poll|intros _]. apply calm_bind; [apply neutral_calm|intros _; apply IH].
  destruct (bool_decide _); [|neut]. apply neutral_modify; [|done]. intros held g c Hc.
  eapply inv_io; [done|by destruct (ci_io _ _ _ _ Hc)|exact (ci_received _ _ _ _ Hc)|done|].
  intros s x Hx. split; [eauto|]. intros. by eapply ci_readers.
Qed.
Lemma calm_read_capsule_bodies : calm (read_capsule_bodies order work (env_decode E) config (env_auth E)).
Proof. apply calm_read_attempts. Qed.

(** ** Datagrams from the client *)

(** A packet reaches the TUN device only with a source that is leased to its
    stream, an allowed destination and no source routing. *)
Lemma wp_relay_ip_packet s t packet held g c Q :
  J held g c -> Client.ip_tunnels c !! s = Some t -> (forall c', J held g c' -> later c c' -> Q tt c') ->
  wp (relay_ip_packet ip_policy tun s t packet) Q c.
Proof.
  intros Hc Ht HQ'. assert (wp pass Q c) as Hpass by by apply wp_pass, HQ', later_refl.
  unfold relay_ip_packet. destruct (addr_fast_path packet) as (_ & _ & Hnp). destruct (IpPacket.parse packet) as [info|e|] eqn:Hi; [|done|done].
  unfold owns_address. case_bool_decide as Hown; cbn [negb]; [|done].
  destruct (is_allowed ip_policy (dst info)) eqn:Hdst; cbn [negb]; [|done]. apply wp_bind.
  destruct (safe_routing_complete packet) as [Hs|[Hs _]]; (eapply wp_lift; [exact Hs|]); cbn [negb]; [|done].
  apply wp_bind, wp_call. set (c1 := c <| quic := _ |>). assert (J held g c1) as Hc1 by by apply inv_call.
  assert (later c c1) as Hl1 by by apply later_call. apply wp_bind. eapply wp_touch_ip; [exact Hc1|exact Ht|]. intros c2 Hc2 Hl2.
  assert (later c c2) as Hl by by eapply later_trans. destruct tun; [|by apply wp_pass, HQ'].
  apply wp_perform. destruct (outside_answer _ _ _). apply HQ'; [|eapply later_trans; [exact Hl|by eapply later_world]]. apply inv_world; [done|].
  exists info. rewrite <-policy_agrees. split_and!; [done| |done|done].
  destruct (ci_ip _ _ _ _ Hc s t Ht) as (_ & _ & _ & Hle). eapply leased_mono; [|by apply Hle]. by destruct Hl as (_ & _ & ? & _).
Qed.

Lemma neutral_buffer_early s data : neutral (buffer_early s data).
Proof.
  apply neutral_modify; [|done]. intros held g c Hc. unfold buffer_early_udp_datagram. cbn.
  destruct (Client.pending_udp_tunnels c !! s) as [p|] eqn:Hp.
  - destruct (buffer_early_datagram _ p data) as [[ok p'] bs]. cbn. by eapply inv_budgets, (inv_pending_udp_set E held g c s p p').
  - destruct (Client.awaiting_auth c !! s) as [a|] eqn:Ha; [|by destruct c].
    destruct (accepts_early_udp_datagrams a); [|by destruct c].
    destruct (Connection.buffer_early _ a data) as [[ok a'] bs]. cbn.
    pose proof (inv_budgets E held g _ bs (inv_awaiting_set E held g c s a a' Hc Ha)) as Hj. by destruct c.
Qed.
#[local] Hint Resolve neutral_buffer_early : client.

Lemma wp_relay_datagram capsule d l held g c Q :
  J held g c -> (forall l' c', J held g c' -> later c c' -> Q l' c') -> wp (relay_datagram ip_policy tun capsule d l) Q c.
Proof.
  intros Hc HQ'. assert (forall l', wp (mret l') Q c) as Hret by (intros; by apply wp_ret, HQ', later_refl).
  unfold relay_datagram. apply wp_bind, wp_query, wp_bind, wp_query, wp_bind, wp_gets. destruct (_ && _); [done|].
  destruct (negb _); [done|]. apply wp_bind, wp_gets. set (s := Datagram.stream_id d). destruct (Client.udp_tunnels c !! s) as [t|] eqn:Ht.
  - apply wp_bind. eapply wp_stage_udp; [done|exact (ci_udp _ _ _ _ Hc s t Ht)|]. intros t1 c1 Hc1 Hl1 Ht1. apply wp_bind.
    eapply (neutral_use work E); [by apply neutral_set_udp|exact Hc1|]. intros [] c2 ? ?. apply wp_ret, HQ'; [done|by eapply later_trans].
  - apply wp_bind, wp_gets, wp_bind. destruct (Client.ip_tunnels c !! s) as [t|] eqn:Hi.
    + eapply wp_relay_ip_packet; [done|done|]. intros; by apply wp_ret, HQ'.
    + wskip. intros [] c1 ? ?. by apply wp_ret, HQ'.
Qed.
Lemma frames_relay_datagram capsule d l : frames io (relay_datagram ip_policy tun capsule d l).
Proof.
  unfold relay_datagram, stage_udp, flush_udp, set_udp, relay_ip_packet, touch_ip, buffer_early.
  repeat first [progress frame | match goal with |- frames _ (let '(_, _) := ?x in _) => destruct x end].
Qed.

Lemma wp_next_datagram held g c :
  J held g c ->
  wp next_datagram (fun r c' => J held g c' /\ later c c' /\
    match r with
    | None => True
    | Some (_, wire) => bytes_ok wire /\
        (length (received_capsules (io c')) + work (quic c') < length (received_capsules (io c)) + work (quic c))%nat
    end) c.
Proof.
  intros Hc. unfold next_datagram. apply wp_bind, wp_gets. pose proof (ci_io _ _ _ _ Hc) as Hio.
  destruct (ci_received _ _ _ _ Hc) as (R1 & R2 & R3 & R4 & R5). destruct (received_capsules (io c)) as [|w rest] eqn:Hr.
  - apply wp_bind, wp_call. set (c1 := c <| quic := _ |>). assert (J held g c1) as Hc1 by by apply inv_call.
    assert (later c c1) as Hl1 by by apply later_call. pose proof (dgram_recv_post (quic c) MAX_DATAGRAM_SIZE) as Hp.
    destruct (answer _ (quic c) (dgram_recv MAX_DATAGRAM_SIZE)) as [wire|e|] eqn:Ha; [|by apply wp_ret|done].
    pose proof (work_dgram_recv _ _ _ Ha) as Hw. apply wp_ret. split_and!; [done|done|done|]. cbn. rewrite Hr. cbn. lia.
  - apply wp_bind, wp_gets, wp_bind. cbn in R1. pose proof (sum_zlen_nonneg rest) as Hn. change (foldr _ 0 rest) with (sum_of zlen rest) in R1.
    eapply wp_lift; [apply usize_sub_ok; lia|]. apply wp_bind, wp_modify, wp_ret. apply Forall_cons in R2 as [Hw R2].
    split_and!; [|by apply later_refl|done|cbn; lia].
    eapply inv_io; [done|by destruct Hio| |done|intros s' y Hy; split; [eauto|]; intros; by eapply ci_readers].
    pose proof (zlen_nonneg w). split_and!; cbn -[zlen sum_of]; try done; [lia| |lia]. unfold zlen in *. cbn in R3. lia.
Qed.

Lemma neutral_relay_client_datagrams : neutral (relay_client_datagrams work ip_policy tun).
Proof.
  intros held g c Hc. unfold relay_client_datagrams. apply wp_bind. unfold connection_over. wskip. intros over c1 Hc1 Hl1.
  destruct over; [by apply wp_pass|]. apply wp_bind.
  eapply (wp_repeating _ _ (fun _ c' => J held g c' /\ later c c')); [|by split].
  intros l c2 [Hc2 Hl2]. unfold relay_datagram_step. apply wp_bind. eapply wp_mono; [by apply wp_next_datagram|].
  assert (forall l' c3, J held g c3 -> later c2 c3 -> wp (each flush_staged l') (fun _ c' => J held g c' /\ later c c') c3) as Hend.
  { intros l' c3 Hc3 Hl3. wskip. intros [] c4 ? ?. split; [done|]. by do 2 (eapply later_trans; [done|]). }
  intros [[capsule wire]|] c3 (Hc3 & Hl3 & Hr); [|by apply wp_ret, Hend]. destruct Hr as [Hw Hm].
  pose proof (decode_ref_post wire Hw) as Hd. destruct (decode_ref wire) as [d|e|]; [| |done].
  - apply wp_bind. eapply wp_mono; [apply (wp_frames io _ (fun _ c' => J held g c' /\ later c3 c')); [apply frames_relay_datagram|by eapply wp_relay_datagram]|].
    intros l' c4 [[Hc4 Hl4] Hio]. apply wp_ret. split; [split; [done|by do 2 (eapply later_trans; [done|])]|].
    rewrite Hio. destruct Hl4. lia.
  - destruct (is_connection_error e).
    + apply wp_bind. wskip. intros ? c4 ? ?. apply wp_ret, Hend; [done|by eapply later_trans].
    + apply wp_ret. split; [split; [done|by eapply later_trans]|done].
Qed.

(** ** Datagrams for the client *)

Lemma neutral_queue_datagram s data : neutral (with_io (queue_datagram_capsule s data)).
Proof.
  intros held g c Hc. eapply wp_io_same; [done|].
  destruct (queue_datagram_io s data (io c) (ci_io _ _ _ _ Hc)) as (ok & i & -> & ? & ? & ?). cbn [post].
  split; [done|]. split; [done|]. split; [done|]. intros c' ? ->. by split; [|apply later_refl].
Qed.
#[local] Hint Resolve neutral_queue_datagram : client.

Lemma neutral_dgram_send data (k : result QuicError unit -> M bool) :
  (forall r, r <> Panic -> neutral (k r)) -> neutral (call_ (dgram_send_buf data) ≫= k).
Proof.
  intros Hk held g c Hc. apply wp_bind, wp_call. pose proof (dgram_send_panic (quic c) data) as Hp.
  eapply (neutral_use work E); [by apply Hk|by apply inv_call|]. intros a c' ? ?. split; [done|].
  eapply later_trans; [|done]. by apply later_call.
Qed.

Lemma neutral_send_target_datagrams s l : Forall bytes_ok l -> neutral (send_target_datagrams s l).
Proof.
  induction 1 as [|data l Hd Hl IH]; cbn [send_target_datagrams]; [neut|].
  apply neutral_bind; [unfold native_datagrams; neut|intros native]. destruct (negb native).
  - apply neutral_bind; [|intros _; exact IH]. pose proof (decode_ref_post data Hd) as Hp. destruct (decode_ref data); [neut|neut|done].
  - apply neutral_dgram_send. intros [u|[]|] Hr; [exact IH|neut|exact IH|done].
Qed.

Lemma neutral_relay_target_batch s batch :
  (forall l, batch = Some l -> Forall bytes_ok l) -> neutral (relay_target_batch s batch).
Proof.
  intros Hb held g c Hc. unfold relay_target_batch. apply wp_bind, wp_gets. destruct (Client.udp_tunnels c !! s) as [t|] eqn:Ht.
  2:{ apply wp_ret. by split; [|apply later_refl]. }
  pose proof (ci_udp _ _ _ _ Hc s t Ht) as Hok. eapply (neutral_use work E); [|exact Hc|by split]. destruct batch as [l|]; [|neut].
  apply neutral_bind; [neut|intros at_]. apply neutral_bind; [by apply neutral_set_udp|intros _].
  by apply neutral_send_target_datagrams, Hb.
Qed.

Lemma header_encode_ok (h : DatagramHeader) packet :
  (forall E', exists b, as_bytes (E:=E') h = Ok b) -> exists b, header_encode (E:=Empty_set) h packet = Ok b.
Proof. intros Hh. destruct (Hh Empty_set) as [b Hb]. unfold header_encode. rewrite Hb. cbn. eauto. Qed.

Lemma neutral_relay_tun_to s packet : neutral (relay_tun_to s packet).
Proof.
  intros held g c Hc. unfold relay_tun_to, native_datagrams. apply wp_bind. wskip. intros native c1 Hc1 Hl1. apply wp_bind, wp_gets.
  destruct (Client.ip_tunnels c1 !! s) as [t|] eqn:Ht; [|by apply wp_ret]. destruct (negb native).
  - apply wp_bind, wp_call. apply wp_bind. eapply wp_touch_ip; [by apply inv_call|exact Ht|]. intros c2 Hc2 Hl2.
    apply wp_bind. wskip. intros [] c3 ? ?; apply wp_ret; (split; [done|]); (eapply later_trans; [exact Hl1|]);
      (eapply later_trans; [|done]); (eapply later_trans; [|exact Hl2]); by apply later_call.
  - apply wp_bind, wp_query. destruct (ask _ _); [by apply wp_ret|].
    apply wp_bind, wp_call. apply wp_bind. eapply wp_touch_ip; [by apply inv_call|exact Ht|]. intros c2 Hc2 Hl2.
    destruct (header_encode_ok (Lease.header t) packet) as [b Hb]; [apply (ci_ip _ _ _ _ Hc1 s t Ht)|].
    apply wp_bind. eapply wp_lift; [exact Hb|]. eapply (neutral_use work E); [|exact Hc2|].
    + apply neutral_dgram_send. intros [u|[]|] Hr; [neut|neut|neut|done].
    + intros ok c3 ? ?. split; [done|]. eapply later_trans; [exact Hl1|]. eapply later_trans; [|done].
      eapply later_trans; [|exact Hl2]. by apply later_call.
Qed.

(** ** Idle tunnels *)

Lemma neutral_close_idle s r : neutral (close_idle s r).
Proof.
  intros held g c Hc. unfold close_idle. apply wp_bind, wp_gets, wp_modify.
  by apply (inv_quiet_runs held g c), close_idle_runs.
Qed.
#[local] Hint Resolve neutral_close_idle : client.

Lemma neutral_expire_ip_response timeout s : neutral (expire_ip_response timeout s).
Proof. unfold expire_ip_response. neut. Qed.
Lemma neutral_expire_pending_tcp timeout s : neutral (expire_pending_tcp order timeout s).
Proof.
  intros held g c Hc. unfold expire_pending_tcp, expire_setup. apply wp_bind, wp_gets.
  destruct (Client.pending_tcp_tunnels c !! s) as [p|] eqn:Hp; [|by apply wp_pass; split; [|apply later_refl]].
  apply wp_bind, wp_call. set (c1 := c <| quic := _ |>). assert (J held g c1) as Hc1 by by apply inv_call.
  assert (later c c1) as Hl1 by by apply later_call. destruct (pending_is_idle _ _ p); [|by apply wp_pass].
  destruct (bool_decide _).
  - wskip. intros [] c2 ? ?. split; [done|by eapply later_trans].
  - eapply (wp_refuse_then_forget_tcp order work E); [exact Hc1|exact Hp|]. intros c2 ? ?. split; [done|by eapply later_trans].
Qed.
Lemma neutral_expire_pending_udp timeout s : neutral (expire_pending_udp order timeout s).
Proof.
  intros held g c Hc. unfold expire_pending_udp, expire_setup. apply wp_bind, wp_gets.
  destruct (Client.pending_udp_tunnels c !! s) as [p|] eqn:Hp; [|by apply wp_pass; split; [|apply later_refl]].
  apply wp_bind, wp_call. set (c1 := c <| quic := _ |>). assert (J held g c1) as Hc1 by by apply inv_call.
  assert (later c c1) as Hl1 by by apply later_call. destruct (pending_udp_is_idle _ _ p); [|by apply wp_pass].
  destruct (bool_decide _).
  - wskip. intros [] c2 ? ?. split; [done|by eapply later_trans].
  - eapply (wp_refuse_then_forget_udp order work E); [exact Hc1|exact Hp|]. intros c2 ? ?. split; [done|by eapply later_trans].
Qed.
Lemma neutral_expire_tcp timeout s : neutral (expire_tcp timeout s).
Proof. unfold expire_tcp. neut. Qed.
Lemma neutral_idle_or_drained timeout s idle : neutral (idle_or_drained timeout s idle).
Proof. unfold idle_or_drained. neut. Qed.
#[local] Hint Resolve neutral_expire_ip_response neutral_expire_pending_tcp neutral_expire_pending_udp neutral_expire_tcp
  neutral_idle_or_drained : client.
Lemma neutral_expire_udp timeout s : neutral (expire_udp timeout s).
Proof. unfold expire_udp. neut. Qed.
Lemma neutral_expire_ip timeout s : neutral (expire_ip timeout s).
Proof. unfold expire_ip. neut. Qed.
#[local] Hint Resolve neutral_expire_udp neutral_expire_ip : client.
Lemma neutral_cleanup timeout : neutral (cleanup_idle_tunnels order timeout).
Proof.
  unfold cleanup_idle_tunnels. do 12 (apply neutral_bind; [neut|intros ?]).
  apply neutral_bind; [apply neutral_collect; intros; apply neutral_expire_ip|intros idle]. neut.
Qed.
Lemma neutral_enforce_roster r : neutral (enforce_roster r).
Proof. unfold enforce_roster. neut. Qed.

(** ** A round *)

Lemma neutral_clear_errors : neutral (modify (fun c => c <| pending_error_responses := ∅ |>)).
Proof.
  apply neutral_modify; [|done]. intros held g c Hc.
  pose proof (inv_error_map E held g c [] ∅ [] Hc) as Hj. rewrite app_nil_r in Hj.
  assert (c <| pending_error_responses := ∅ |> <| quic := quic c |> = c <| pending_error_responses := ∅ |>) as Heq by by destruct c.
  rewrite Heq in Hj. apply Hj; [|rewrite map_size_empty; lia]. intros s. unfold present at 1. rewrite lookup_empty. lia.
Qed.

Lemma same_input_io i i' : same_input i i' -> same_received i i' /\ same_readers i i'.
Proof.
  intros (Hc & _ & _ & Hf & Hr & Hb). split; [split; [done|split; [done|by rewrite Hf]]|]. intros s x' Hx.
  assert (core <$> capsule_streams i !! s = Some (core x')) as Hs by (rewrite <-lookup_fmap, <-Hc, lookup_fmap, Hx; done).
  apply fmap_Some in Hs as (x & Hx0 & Hcore). exists x. unfold core in Hcore. split; [done|]. by simplify_eq.
Qed.

(** Local calls and the library's timer. *)
Definition drive_call {A} (k : call A) : bool := local_call k || match k with on_timeout => true | _ => false end.
Definition serves : relation conn := rtc (fun q q' => exists A (k : call A), drive_call k = true /\ q' = exec k q).
Lemma runs_serves q q' : runs q q' -> serves q q'.
Proof.
  apply rtc_subrel. intros q1 q2 (A & k & Hk & ->). exists A, k. unfold drive_call. by rewrite Hk.
Qed.

Lemma wp_prepare_output held g c :
  J held g c -> wp (prepare_output order) (fun _ c' => J held g c' /\ serves (quic c) (quic c') /\ world c `prefix_of` world c') c.
Proof.
  intros Hc. unfold prepare_output. apply wp_bind. wskip. intros ? c1 Hc1 (_ & _ & Hw1 & Hr1). apply wp_bind, wp_call.
  set (c2 := c1 <| quic := exec on_timeout (quic c1) |>). assert (J held g c2) as Hc2 by by apply inv_call.
  assert (serves (quic c1) (quic c2)) as Hr2 by (apply rtc_once; by exists unit, on_timeout).
  assert (world c2 = world c1) as Hw2 by done. clearbody c2.
  apply wp_bind. unfold connection_over. wskip. intros over c3 Hc3 (_ & _ & Hw3 & Hr3). apply wp_bind, wp_gets, wp_bind.
  eapply (neutral_use work E); [|exact Hc3|].
  - destruct over; [apply neutral_clear_errors|]. destruct (Client.h3 c3); neut.
  - intros [] c4 Hc4 (_ & _ & Hw4 & Hr4). apply wp_with_io_quic.
    destruct (flush_output_ok false ∅ order (Client.h3 c3) (io c4) (quic c4) (ci_io _ _ _ _ Hc4)) as (i & q & Hf & Hi & _ & Hsame); [done|].
    rewrite Hf. cbn [mbind result_bind post fst snd]. destruct (same_input_io _ _ Hsame) as [Hr Hs].
    pose proof (inv_io_same E held g c4 i Hc4 Hi Hr Hs) as Hc5. apply flush_output_runs in Hf.
    split; [by apply (inv_quiet_runs held g (c4 <| io := i |>) q Hc5)|]. cbn. split.
    + apply runs_serves in Hr1, Hr3, Hr4. pose proof (runs_serves _ _ (proj1 (quiet_runs_new _ _ Hf))) as Hr5.
      unfold serves in *. by do 4 (etrans; [eassumption|]).
    + rewrite Hw2 in Hw3. by do 2 (etrans; [eassumption|]).
Qed.

Lemma calm_phases : Forall calm (phases order work (env_decode E) config (env_auth E) ip_policy tun).
Proof.
  unfold phases. do 5 (apply Forall_cons; split; [apply neutral_calm; solve [neut]|]).
  apply Forall_cons; split; [apply calm_read_capsule_bodies|].
  apply Forall_cons; split; [apply neutral_calm, neutral_relay_client_datagrams|].
  apply Forall_singleton, neutral_calm, neutral_finish_capsule_bodies.
Qed.
Lemma calm_service :
  calm (service order work (env_decode E) config (env_auth E) ip_policy tun).
Proof.
  unfold service. do 5 (apply calm_bind; [apply neutral_calm; solve [neut]|intros _]).
  apply calm_bind; [apply calm_read_capsule_bodies|intros _].
  apply calm_bind; [apply neutral_calm, neutral_relay_client_datagrams|intros _]. apply neutral_calm, neutral_finish_capsule_bodies.
Qed.
End relay.
