(* ===== verification/ClientProps.v ===== *)
(** * What a connection guarantees

    Every step a shard takes on one connection: transport calls, the handlers of
    [Handlers.v] and [Relay.v] and the results they are given.  Reachable
    connections satisfy [conn_inv]; from it: a stream gets one response, targets
    are contacted and addresses leased only for requests whose credentials were
    good, packets that reach the TUN device have a leased source and an allowed
    destination, storage is bounded, and the handlers return. *)

From stdpp Require Import list gmap strings.
From S2P Require Import Prelude Varint Net Policy Validation Capsule CapsuleStream Datagram IpPacket Routing AddressPool.
From S2P Require Import ClientIdentity Lease Uri Auth Config Request TcpTunnel TargetUdp UdpTunnel Quiche QuicBatch.
From S2P Require Import Connection CapsuleIo CapsuleIoProps Client Handlers Relay Totality ClientLogic HandlersInv ServeInv ResultsInv RelayInv.
Open Scope Z_scope.

(** ** Steps *)

(** The calls that receiving and sending packets make. *)
Definition transport_call {A} (k : call A) : bool :=
  match k with
  | now | with_transport | close _ _ | send_goaway _ | recv _ _ _ | on_timeout | send | path_event_next | retired_scid_next
  | accept _ _ _ _ _ | random_fill _ | new_scid _ _ _ => true
  | _ => false
  end.

Section steps.
Context `{HQ : Quiche} `{HO : Outside}.
Context (order : gset Z -> list Z) (work : conn -> nat) (E : Env).
Context {N4 N6 : Type} `{!NetOps N4, !NetOps N6} (ip_policy : TargetPolicy N4 N6) (tun : bool).

Abbreviation decode := (env_decode E).
Abbreviation config := (env_config E).
Abbreviation auth := (env_auth E).

(** What the event loop may run on a connection.  A verdict is only reported for
    a check that was started, and tells what it came to. *)
Inductive handler (c : Client) : M unit -> Prop :=
| h_events : handler c (poll_http3_events order work decode config auth)
| h_verdict s r ok : verdict E s r ok (world c) -> handler c (handle_auth_result order work decode config auth s r ok)
| h_udp_setup s r : handler c (handle_udp_setup_result order s r)
| h_tcp_event e : handler c (handle_tcp_event order work decode config auth e)
| h_target s batch :
    (forall l, batch = Some l -> Forall bytes_ok l) -> handler c (_ ← relay_target_batch s batch; pass)
| h_tun s packet : handler c (_ ← relay_tun_to s packet; pass)
| h_phase m : m ∈ phases order work decode config auth ip_policy tun -> handler c m
| h_round : handler c (service order work decode config auth ip_policy tun)
| h_idle timeout : handler c (cleanup_idle_tunnels order timeout)
| h_roster r : handler c (enforce_roster r)
| h_output : handler c (prepare_output order).

Inductive client_step : Client -> Client -> Prop :=
| step_transport {A} (k : call A) c : transport_call k = true -> client_step c (c <| quic := exec k (quic c) |>)
| step_established c up who deadline :
    client_step c (c <| h3 := up |> <| identity := who |> <| first_auth_deadline := deadline |>)
| step_handler c m c' : handler c m -> m c = Ok (tt, c') -> client_step c c'.

(** A connection that was accepted and then served. *)
Definition reachable (c : Client) : Prop :=
  exists q, quiet q /\ rtc client_step (client_new q (env_index E)) c.
End steps.

Section guarantees.
Context `{HQ : Quiche} `{HO : Outside}.
Context (order : gset Z -> list Z) (work : conn -> nat).
Context `{!ConnectionLaws work} `{!OutsideLaws} `{!WalkLaws order}.
Context (E : Env).
Context {N4 N6 : Type} `{!NetOps N4, !NetOps N6} (ip_policy : TargetPolicy N4 N6) (tun : bool).

Abbreviation J := (conn_inv E [] settled_ghost).
Abbreviation Handler := (handler order work E ip_policy tun).
Abbreviation Reachable := (reachable order work E ip_policy tun).
Abbreviation agrees := (forall a, is_allowed ip_policy a = env_allowed E a).

Lemma inv_new q : quiet q -> J (client_new q (env_index E)).
Proof.
  intros Hq. assert (forall s, accepted s q = []) as Hacc by (intros s; apply (quiet_count s [] q Hq)).
  assert (forall s, load s (client_new q (env_index E)) = 0%nat) as Hload.
  { intros s. unfold load, present. cbn. by rewrite Hacc, !lookup_empty. }
  split; cbn; try done; try (intros s x; rewrite lookup_empty; done).
  - apply (run_ok_init q).
  - intros s Hs. by apply elem_of_nil in Hs.
  - split_and!; try done. apply NoDup_nil_2.
  - intros s. rewrite Hload. done || (unfold occ; cbn; lia).
  - intros s. rewrite Hload. unfold occ. cbn. lia.
  - rewrite size_empty. lia.
  - rewrite map_size_empty. lia.
  - rewrite map_size_empty. lia.
Qed.

(** A handler keeps the invariant, only makes calls of its own and only adds
    effects. *)
Definition grows (c c' : Client) : Prop := serves (quic c) (quic c') /\ world c `prefix_of` world c'.
Lemma later_grows c c' : later work c c' -> grows c c'.
Proof. intros (_ & _ & ? & ?). split; [by apply runs_serves|done]. Qed.

Lemma handler_keeps c m : agrees -> J c -> Handler c m -> wp m (fun _ c' => J c' /\ grows c c') c.
Proof.
  intros Hagree Hc Hm.
  assert (forall A (m : M A), neutral work E m -> wp m (fun _ c' => J c' /\ grows c c') c) as Hn.
  { intros A m' Hm'. eapply (neutral_use work E); [exact Hm'|exact Hc|]. intros. split; [done|by apply later_grows]. }
  assert (forall m : M unit, calm work E m -> wp m (fun _ c' => J c' /\ grows c c') c) as Hcalm.
  { intros m' Hm'. eapply wp_mono; [by apply (Hm' [] settled_ghost)|]. intros ? c' [? ?]. split; [done|by apply later_grows]. }
  destruct Hm as [|s r ok Hv|s r|e|s batch Hb|s packet|m Hm| |timeout|r|].
  - by apply Hn, neutral_poll_http3_events.
  - eapply wp_mono; [by eapply wp_handle_auth_result|]. intros ? c' [? ?]. split; [done|by apply later_grows].
  - by apply Hn, neutral_handle_udp_setup_result.
  - by apply Hn, neutral_handle_tcp_event.
  - apply Hn, neutral_bind; [by apply neutral_relay_target_batch|intros _; apply neutral_pass].
  - apply Hn, neutral_bind; [by apply neutral_relay_tun_to|intros _; apply neutral_pass].
  - pose proof (calm_phases order work E ip_policy tun Hagree) as Hp. rewrite Forall_forall in Hp. by apply Hcalm, Hp.
  - apply Hcalm, (calm_service order work E ip_policy tun Hagree).
  - by apply Hn, neutral_cleanup.
  - by apply Hn, neutral_enforce_roster.
  - by eapply wp_prepare_output.
Qed.

Lemma reachable_inv c : agrees -> Reachable c -> J c.
Proof.
  intros Hagree (q & Hq & Hr). pose proof (inv_new q Hq) as H0. revert H0. induction Hr as [|c1 c2 c3 Hs _ IH]; [done|].
  intros Hc. apply IH. destruct Hs as [A k c Hk|c up who deadline|c m c' Hm He].
  - apply inv_call; [by destruct k|done].
  - destruct Hc. by split.
  - pose proof (handler_keeps c m Hagree Hc Hm) as Hw. unfold wp in Hw. rewrite He in Hw. apply Hw.
Qed.

(** A reading of the invariant: an address is leased to a stream only on an
    authorised request. *)
Lemma leased_authorised w q s a : world_ok E w q -> leased w s a -> ip_authorised E w q s.
Proof.
  intros Hw (l & Hl & _). apply list_elem_of_omap in Hl as (e & He & Hl). apply list_elem_of_lookup in He as [i Hi].
  assert (ip_authorised E (take i w) q s) as Ha.
  { pose proof (Hw i e Hi) as Hj. destruct e as [A ef x]. destruct ef; cbn in Hl; simplify_eq; cbn in Hj; [|done].
    destruct x; by simplify_eq. }
  eapply ip_authorised_mono; [apply prefix_take|done|exact Ha].
Qed.

Lemma world_ok_take w q i : world_ok E w q -> world_ok E (take i w) q.
Proof.
  intros Hw j e [Hj Hlt]%lookup_take_Some. rewrite take_take, Nat.min_l by lia. by apply Hw.
Qed.

Lemma wp_returns (m : M unit) Q c : wp m Q c -> exists c', m c = Ok (tt, c').
Proof. unfold wp. destruct (m c) as [[[] c']|[]|]; [by exists c'|done]. Qed.

(** C3: on a connection, over any history of packets, timers, lookups, password
    checks and target data, a stream is answered once: the responses the library
    accepted and the places that may still answer the stream (CONNECT setups of
    the three kinds, requests waiting for a password check, queued error
    responses) are one at most, and a stream that relays capsules has been
    answered exactly once. *)
Theorem one_response c s :
  agrees -> Reachable c ->
  (length (accepted s (quic c)) + present (pending_tcp_tunnels c) s + present (pending_udp_tunnels c) s
   + present (pending_ip_responses c) s + present (awaiting_auth c) s + present (pending_error_responses c) s <= 1)%nat /\
  (is_Some (capsule_streams (io c) !! s) -> length (accepted s (quic c)) = 1%nat).
Proof.
  intros Hagree Hc%reachable_inv; [|done]. pose proof (ci_load _ _ _ _ Hc s) as Hl. unfold load in Hl. split; [lia|].
  intros [x Hx]. pose proof (ci_capsules _ _ _ _ Hc s x Hx). lia.
Qed.

(** C1: a target is contacted, and an address leased, only for a request the peer
    sent on that stream, that classifies as a tunnel of that kind with that
    target, and that carried exactly one credential which the user file had
    accepted before: known to be good, or verified by a check that was started
    for it (when credentials are required). *)
Theorem tunnels_authorized c s :
  agrees -> Reachable c ->
  (forall i t task, world c !! i = Some (Out (spawn_tcp_connect s t) task) ->
     tcp_authorised E (take i (world c)) (quic c) s t) /\
  (forall i t task, world c !! i = Some (Out (spawn_udp_setup s t) task) ->
     udp_authorised E (take i (world c)) (quic c) s t) /\
  (forall a, leased (world c) s a -> ip_authorised E (world c) (quic c) s).
Proof.
  intros Hagree Hc%reachable_inv; [|done]. pose proof (ci_world _ _ _ _ Hc) as Hw.
  split_and!; [intros i t task Hi; exact (Hw i _ Hi)..|]. intros a. by apply leased_authorised.
Qed.

(** C2: a packet handed to the TUN device, whether it came in a QUIC datagram or
    in a capsule, is a well-formed IP packet whose source address was leased to
    its own stream, for an authorised CONNECT-IP request on that stream, whose
    destination the policy allows and whose routing header, if any, is harmless;
    and a route is only ever published for an address leased to the stream, under
    this connection's number. *)
Theorem tun_egress c i :
  agrees -> Reachable c ->
  (forall s packet u, world c !! i = Some (Out (tun_push s packet) u) ->
     exists info, IpPacket.parse packet = Ok info /\ leased (take i (world c)) s (src info) /\
       ip_authorised E (take i (world c)) (quic c) s /\
       is_allowed ip_policy (dst info) = true /\ has_safe_routing packet = Ok (E:=ParseError) true) /\
  (forall a o u, world c !! i = Some (Out (insert_route a o) u) ->
     conn_id o = index c /\ leased (take i (world c)) (Routing.stream_id o) a).
Proof.
  intros Hagree Hc%reachable_inv; [|done]. pose proof (ci_world _ _ _ _ Hc) as Hw. split.
  - intros s packet u Hi. destruct (Hw i _ Hi) as (info & Hp & Hl & Ha & Hr). exists info. rewrite Hagree.
    split_and!; try done. eapply leased_authorised; [|done]. by apply world_ok_take.
  - intros a o u Hi. rewrite (ci_index _ _ _ _ Hc). exact (Hw i _ Hi).
Qed.

(** C6: every handler returns: no loop runs for ever, and no panicking operation
    (indexing, checked arithmetic, an expect, an exhausted request of the
    library) is reached, from any connection that steps lead to. *)
Theorem handlers_total c m :
  (forall a, is_allowed ip_policy a = env_allowed E a) -> reachable order work E ip_policy tun c ->
  handler order work E ip_policy tun c m -> exists c', m c = Ok (tt, c').
Proof.
  intros Hagree Hc Hm. eapply wp_returns, handler_keeps; [done|by apply reachable_inv|done].
Qed.

(** C27: what a peer can make a connection store is bounded: the request streams
    that are remembered, the requests waiting for a password check, the queued
    error responses, the packets from capsules and their bytes, and the bytes of
    the early data held for each TCP tunnel in setup, which its counter gives
    exactly. *)
Theorem connection_bounded c :
  agrees -> Reachable c ->
  (size (request_headers_seen c) <= 4096)%nat /\ (size (awaiting_auth c) <= 16)%nat /\
  (size (pending_error_responses c) <= 64)%nat /\
  zlen (received_capsules (io c)) <= 64 /\ sum_of zlen (received_capsules (io c)) <= 256 * 1024 /\
  (forall s p, pending_tcp_tunnels c !! s = Some p ->
     zlen (concat (early_data p)) <= 1024 * 1024 /\ early_bytes p = zlen (concat (early_data p))).
Proof.
  intros Hagree Hc%reachable_inv; [|done]. destruct (ci_received _ _ _ _ Hc) as (Hb & _ & Hp & Hn & _). rewrite <- Hb.
  pose proof (ci_seen _ _ _ _ Hc). pose proof (ci_awaiting _ _ _ _ Hc). pose proof (ci_errors _ _ _ _ Hc).
  split_and!; try done. intros s p [He ?]%(ci_pending_tcp _ _ _ _ Hc). by rewrite <- He.
Qed.

(** C17: the state of a connection is well formed: output queues and their
    counters agree, every capsule reader is in a state its decoder accepts and an
    IP stream has its address responder, partly sent responses have an offset
    within their data, staged datagrams fit their arrays, tunnels hold addresses
    leased to their own stream and a datagram header that encodes, and packets
    taken from capsules are bytes, counted exactly. *)
Theorem connection_wellformed c :
  agrees -> Reachable c ->
  io_ok (io c) /\
  (forall s x, capsule_streams (io c) !! s = Some x -> capsule_reader_ok x) /\
  (forall s t, tcp_tunnels c !! s = Some t -> Forall resp_ok (pending_responses t)) /\
  (forall s t, udp_tunnels c !! s = Some t -> stage_ok t) /\
  (forall s t, ip_tunnels c !! s = Some t -> ip_tunnel_ok (world c) s t) /\
  Forall bytes_ok (received_capsules (io c)) /\
  received_capsule_bytes (io c) = sum_of zlen (received_capsules (io c)).
Proof.
  intros Hagree Hc%reachable_inv; [|done]. destruct (ci_received _ _ _ _ Hc) as (Hb & Hf & _).
  split_and!; try done; [apply Hc| |apply Hc..].
  intros s x Hx. apply (ci_readers _ _ _ _ Hc s x Hx). apply not_elem_of_nil.
Qed.
End guarantees.

(** ** A connection at work

    A library that delivers one CONNECT-IP request and one datagram, and a world
    that knows one user and leases one address. *)

Definition is_poll (e : event) : bool := match e with Ev k _ => match k with poll => true | _ => false end end.
Definition is_dgram_recv (e : event) : bool := match e with Ev k _ => match k with dgram_recv _ => true | _ => false end end.

Definition sample_request : list Header :=
  [(":method", str "CONNECT"); (":protocol", str "connect-ip"); (":scheme", str "https"); (":authority", str "proxy");
   (":path", str "/.well-known/masque/ip/*/*/"); ("proxy-authorization", str "Basic user:pw")]%string.
(* an IPv4 packet from 10.89.0.7 to 1.1.1.1 *)
Definition sample_packet : bytes := [0x45; 0; 0; 20; 0; 0; 0; 0; 64; 17; 0; 0; 10; 89; 0; 7; 1; 1; 1; 1].

Definition sample_library : Quiche :=
  {| answer A q c :=
       match c in call A return A with
       | now => Z.of_nat (length q)
       | send_response _ _ _ => Ok tt
       | send_body _ body _ => Ok (zlen body)
       | recv_body _ _ => Err H3Done
       | poll => if existsb is_poll q then Err H3Done else Ok (0, Headers sample_request)
       | with_transport | stream_shutdown _ _ _ | close _ _ | send_goaway _ | recv _ _ _ | accept _ _ _ _ _ | new_scid _ _ _ => true
       | on_timeout => tt
       | send => Err QuicDone
       | dgram_recv _ => if existsb is_dgram_recv q then Err QuicDone else Ok (0 :: 0 :: sample_packet)
       | dgram_send_buf _ => Ok tt
       | path_event_next => None
       | retired_scid_next => None
       | random_fill _ => None
       end;
     query_answer A q c :=
       match c in query A return A with
       | stream_readable_len _ | timeout_instant | peer_cert => None
       | scids_left => 0%nat
       | is_established => true
       | max_send_udp_payload_size | send_quantum => 1200
       | _ => false
       end |}.
Definition sample_work (q : conn) : nat :=
  ((if existsb is_poll q then 0 else 1) + (if existsb is_dgram_recv q then 0 else 1))%nat.

Definition sample_credential : Client.Credential := {| password_hash_ := str "hash"; cache_key := 0%nat |}.
Definition sample_world : Outside := fun A w e =>
  match e in effect A return A with
  | load_auth _ => ({| users_ := {[ str "user" := sample_credential ]} |}, fun _ _ => false)
  | try_source_slot _ | try_queue_slot _ => true
  | spawn_verify _ _ _ _ _ | spawn_tcp_connect _ _ | spawn_udp_setup _ _ => length w
  | tcp_capacity _ => 0
  | tcp_send _ _ => true
  | udp_socket _ => (fun _ => Ok 0%nat, fun _ => Ok 0%nat)
  | claim_addresses _ _ => Ok [IpV4 0x0a590007]
  | allocate_addresses _ => [IpV4 0x0a590007]
  | _ => tt
  end.
Definition sample_env : Env :=
  {| env_decode := Some; env_config := Validation.sample_config; env_auth := true;
     env_verify := fun _ password => bool_decide (password = str "pw"); env_allowed := is_allowed Policy.sample_policy;
     env_index := 3 |}.

#[local] Existing Instance sample_library.
#[local] Existing Instance sample_world.

Definition after (m : M unit) (c : Client) : Client := match m c with Ok (_, c') => c' | _ => c end.
Definition sample_connect : ConnectRequest := RequestIp (str "/.well-known/masque/ip/*/*/") true true.
Definition sample_up : Client := client_new [] 3 <| h3 := true |> <| identity := None |> <| first_auth_deadline := None |>.
Definition sample_asked : Client := after (poll_http3_events elements sample_work Some Validation.sample_config true) sample_up.
Definition sample_verified : Client :=
  after (handle_auth_result elements sample_work Some Validation.sample_config true 0 sample_connect true) sample_asked.
Definition sample_served : Client :=
  after (service elements sample_work Some Validation.sample_config true Policy.sample_policy true) sample_verified.

Lemma no_poll_unspent s q : existsb is_poll q = false -> ~ spent s q.
Proof.
  intros Hq [Hs|(q0 & _ & [=])]. apply list_elem_of_omap in Hs as (e & He & Hs).
  assert (existsb is_poll q = true) as Ht; [|congruence]. apply existsb_exists. exists e.
  split; [by apply list_elem_of_In|]. destruct e as [A k a]. by destruct k.
Qed.

#[local] Instance sample_laws : ConnectionLaws sample_work.
Proof.
  split; try (intros; cbn; done).
  - split; [|done]. intros q s b fin n [= <-]. pose proof (zlen_nonneg b). lia.
  - intros q n. cbn. destruct (existsb _ q); [done|]. cbn. apply (bool_decide_unpack _). vm_compute. exact I.
  - intros q. cbn. destruct (existsb _ q) eqn:Hq; [done|]. cbn. split; [|by apply no_poll_unspent].
    vm_compute. by split.
  - intros A k q _. unfold sample_work, exec, do. cbn [snd]. rewrite !existsb_app. cbn [existsb]. rewrite !orb_false_r.
    destruct (existsb is_poll q), (existsb is_dgram_recv q), (is_poll _), (is_dgram_recv _); cbn; lia.
  - intros q x. unfold sample_work, exec, do. cbn. rewrite !existsb_app. cbn. rewrite !orb_false_r.
    destruct (existsb is_poll q); [done|]. destruct (existsb _ q); cbn; lia.
  - intros q n x. unfold sample_work, exec, do. cbn. rewrite !existsb_app. cbn. rewrite !orb_false_r.
    destruct (existsb is_dgram_recv q); [done|]. destruct (existsb _ q); cbn; lia.
Qed.
#[local] Instance sample_outside_laws : OutsideLaws.
Proof. split; intros; cbn; repeat split; try done; by constructor. Qed.
#[local] Instance sample_walk : WalkLaws elements.
Proof. by intros X. Qed.

Abbreviation sample_reachable := (reachable elements sample_work sample_env Policy.sample_policy true).

Lemma sample_step c m :
  handler elements sample_work sample_env Policy.sample_policy true c m -> m c = Ok (tt, after m c) ->
  sample_reachable c -> sample_reachable (after m c).
Proof. intros Hm He (q & Hq & Hr). exists q. split; [done|]. eapply rtc_r; [done|]. by eapply step_handler. Qed.

Lemma sample_up_reachable : sample_reachable sample_up.
Proof. exists []. split; [done|]. apply rtc_once, step_established. Qed.
Lemma sample_asked_reachable : sample_reachable sample_asked.
Proof. apply sample_step; [apply h_events|vm_compute; reflexivity|exact sample_up_reachable]. Qed.
Lemma sample_verified_reachable : sample_reachable sample_verified.
Proof.
  apply sample_step; [|vm_compute; reflexivity|exact sample_asked_reachable]. apply h_verdict.
  exists sample_credential, (str "pw"), 0%nat, 3%nat. split; [|done]. apply list_elem_of_lookup. exists 3%nat.
  vm_compute. reflexivity.
Qed.
Lemma sample_served_reachable : sample_reachable sample_served.
Proof. apply sample_step; [apply h_round|vm_compute; reflexivity|exact sample_verified_reachable]. Qed.

Lemma one_response_witness :
  is_Some (capsule_streams (io sample_served) !! 0) /\ length (accepted 0 (quic sample_served)) = 1%nat.
Proof.
  assert (is_Some (capsule_streams (io sample_served) !! 0)) as Hs.
  { apply (bool_decide_unpack (is_Some (capsule_streams (io sample_served) !! 0))). vm_compute. exact I. }
  split; [exact Hs|].
  exact (proj2 (one_response elements sample_work sample_env Policy.sample_policy true sample_served 0
                  (fun _ => eq_refl) sample_served_reachable) Hs).
Defined.

Lemma tunnels_authorized_witness :
  leased (world sample_verified) 0 (IpV4 0x0a590007) /\
  ip_authorised sample_env (world sample_verified) (quic sample_verified) 0.
Proof.
  assert (leased (world sample_verified) 0 (IpV4 0x0a590007)) as Hl.
  { exists [IpV4 0x0a590007]. split; [|by left]. apply list_elem_of_lookup. exists 0%nat. vm_compute. reflexivity. }
  split; [exact Hl|].
  exact (proj2 (proj2 (tunnels_authorized elements sample_work sample_env Policy.sample_policy true sample_verified 0
                         (fun _ => eq_refl) sample_verified_reachable)) _ Hl).
Defined.

Lemma tun_egress_witness :
  world sample_served !! 7%nat = Some (Out (tun_push 0 sample_packet) tt) /\
  exists info, IpPacket.parse sample_packet = Ok info /\ leased (take 7 (world sample_served)) 0 (src info) /\
    ip_authorised sample_env (take 7 (world sample_served)) (quic sample_served) 0 /\
    is_allowed Policy.sample_policy (dst info) = true /\ has_safe_routing sample_packet = Ok (E:=ParseError) true.
Proof.
  assert (world sample_served !! 7%nat = Some (Out (tun_push 0 sample_packet) tt)) as Hi by (vm_compute; reflexivity).
  split; [exact Hi|].
  exact (proj1 (tun_egress elements sample_work sample_env Policy.sample_policy true sample_served 7
                  (fun _ => eq_refl) sample_served_reachable) 0 sample_packet tt Hi).
Defined.

Lemma handlers_total_witness :
  exists c', service elements sample_work Some Validation.sample_config true Policy.sample_policy true sample_served = Ok (tt, c').
Proof.
  exact (handlers_total elements sample_work sample_env Policy.sample_policy true sample_served _
           (fun _ => eq_refl) sample_served_reachable (h_round _ _ _ _ _ _)).
Defined.

Lemma connection_bounded_witness :
  size (request_headers_seen sample_served) = 1%nat /\ (size (request_headers_seen sample_served) <= 4096)%nat.
Proof.
  split; [vm_compute; reflexivity|].
  exact (proj1 (connection_bounded elements sample_work sample_env Policy.sample_policy true sample_served
                  (fun _ => eq_refl) sample_served_reachable)).
Defined.

Lemma connection_wellformed_witness :
  is_Some (ip_tunnels sample_served !! 0) /\
  forall t, ip_tunnels sample_served !! 0 = Some t -> ip_tunnel_ok (world sample_served) 0 t.
Proof.
  split; [apply (bool_decide_unpack (is_Some (ip_tunnels sample_served !! 0))); vm_compute; exact I|].
  exact (proj1 (proj2 (proj2 (proj2 (proj2 (connection_wellformed elements sample_work sample_env Policy.sample_policy true
    sample_served (fun _ => eq_refl) sample_served_reachable))))) 0).
Defined.
