(* ===== verification/Ingress.v ===== *)
(** * QUIC ingress: packets, connection ids and their owners (src/server/shard_packets.rs)

    Every shard has its own table of connections; the map from connection ids
    to shards, the connection numbers and the source limits are shared.  A
    packet is matched to a connection by its destination id, handed to the shard
    that owns it, answered without state, or accepted as a new connection.  The
    tables also change when ids are issued and retired and when closed
    connections are reaped (src/server/mod.rs). *)

From stdpp Require Import list gmap.
From S2P Require Import Prelude Net ClientIdentity Scheduler Admission Retry TargetUdp Quiche QuicBatch.
Open Scope Z_scope.

Definition CONN_ID_LEN : nat := 16.
Definition MIN_CLIENT_INITIAL_LEN : Z := 1200.
Definition MIGRATION_SOURCE_LIMIT_ERROR : Z := 0x0101.
(** The largest [Instant]: seconds of 63 bits. *)
Definition INSTANT_MAX : Z := (2 ^ 63 - 1) * 1000000000 + 999999999.

(** The part of [ClientConnection] that ingress works on; [guard] names the
    source admission among the live ones. *)
Record Client := {
  quic : conn;
  client_index : Z;
  guard : nat;
  source : IpAddr;
  server_connection_ids : list ConnectionId;
  primary_connection_id_active : bool;
  identity : option ClientIdentity;
  h3 : bool;
  first_auth_deadline : option Z;
  scheduled_deadline : option Z;
}.

Record Shared := {
  cid_shard : gmap ConnectionId nat;
  index_shard : gmap Z nat;
  next_conn_index : Z;
  source_admissions : Admissions;
}.

Record Shard := {
  shard_index : nat;
  reuseport_index : option Z;
  connections : gmap ConnectionId Client;
  connection_id_aliases : gmap ConnectionId ConnectionId;
  conn_by_index : gmap Z ConnectionId;
  dirty : DirtySet;
  timers : TimerQueue;
}.

Definition set_quic (c : Client) (q : conn) : Client :=
  {| quic := q; client_index := client_index c; guard := guard c; source := source c;
     server_connection_ids := server_connection_ids c;
     primary_connection_id_active := primary_connection_id_active c; identity := identity c; h3 := h3 c;
     first_auth_deadline := first_auth_deadline c; scheduled_deadline := scheduled_deadline c |}.
Definition set_ids (c : Client) (ids : list ConnectionId) (active : bool) : Client :=
  {| quic := quic c; client_index := client_index c; guard := guard c; source := source c;
     server_connection_ids := ids; primary_connection_id_active := active; identity := identity c; h3 := h3 c;
     first_auth_deadline := first_auth_deadline c; scheduled_deadline := scheduled_deadline c |}.
Definition set_source (c : Client) (s : IpAddr) : Client :=
  {| quic := quic c; client_index := client_index c; guard := guard c; source := s;
     server_connection_ids := server_connection_ids c;
     primary_connection_id_active := primary_connection_id_active c; identity := identity c; h3 := h3 c;
     first_auth_deadline := first_auth_deadline c; scheduled_deadline := scheduled_deadline c |}.
Definition set_identity (c : Client) (i : option ClientIdentity) : Client :=
  {| quic := quic c; client_index := client_index c; guard := guard c; source := source c;
     server_connection_ids := server_connection_ids c;
     primary_connection_id_active := primary_connection_id_active c; identity := i; h3 := h3 c;
     first_auth_deadline := first_auth_deadline c; scheduled_deadline := scheduled_deadline c |}.
Definition set_h3 (c : Client) (b : bool) : Client :=
  {| quic := quic c; client_index := client_index c; guard := guard c; source := source c;
     server_connection_ids := server_connection_ids c;
     primary_connection_id_active := primary_connection_id_active c; identity := identity c; h3 := b;
     first_auth_deadline := first_auth_deadline c; scheduled_deadline := scheduled_deadline c |}.

Definition set_deadline (c : Client) (d : option Z) : Client :=
  {| quic := quic c; client_index := client_index c; guard := guard c; source := source c;
     server_connection_ids := server_connection_ids c;
     primary_connection_id_active := primary_connection_id_active c; identity := identity c; h3 := h3 c;
     first_auth_deadline := first_auth_deadline c; scheduled_deadline := d |}.

Definition with_cids (sh : Shared) (m : gmap ConnectionId nat) : Shared :=
  {| cid_shard := m; index_shard := index_shard sh; next_conn_index := next_conn_index sh;
     source_admissions := source_admissions sh |}.
Definition with_admissions (sh : Shared) (a : Admissions) : Shared :=
  {| cid_shard := cid_shard sh; index_shard := index_shard sh; next_conn_index := next_conn_index sh;
     source_admissions := a |}.

(** A connection of another transport takes the next number. *)
Definition take_number (sh : Shared) : Z * Shared :=
  (next_conn_index sh,
   {| cid_shard := cid_shard sh; index_shard := index_shard sh; next_conn_index := (next_conn_index sh + 1) mod 2 ^ 64;
      source_admissions := source_admissions sh |}).

Definition with_dirty (s : Shard) (d : DirtySet) : Shard :=
  {| shard_index := shard_index s; reuseport_index := reuseport_index s; connections := connections s;
     connection_id_aliases := connection_id_aliases s; conn_by_index := conn_by_index s; dirty := d; timers := timers s |}.

(** ** Connection ids of a connection *)

Definition publish_connection_id (c : Client) (id : ConnectionId) : Client :=
  set_ids c (server_connection_ids c ++ [id]) (primary_connection_id_active c).

Definition retire_connection_id (c : Client) (id : ConnectionId) : Client :=
  let active := primary_connection_id_active c &&
    negb (bool_decide (head (server_connection_ids c) = Some id)) in
  set_ids c (filter (fun published => published <> id) (server_connection_ids c)) active.

(** [rebind_source_ip]: moves the admission of the connection. *)
Definition rebind_source_ip (sh : Shared) (c : Client) (ip : IpAddr) : result unit (Shared * Client * bool) :=
  let a := source_admissions sh in
  r ← try_rebind (limiter a) (source c) ip;
  let '(i, src, verdict) := r in
  Ok (with_admissions sh {| limiter := i; guards := <[guard c := src]> (guards a) |}, set_source c src, verdict).

Section ingress.
Context `{Quiche} (work : conn -> nat).

(** ** Path events *)

(** The shared state and the connection; the answer is false when it was closed. *)
Definition path_step (s : Shared * Client) : result unit (Shared * Client + Shared * Client * bool) :=
  let '(sh, c) := s in
  let '(e, q) := do path_event_next (quic c) in
  let c := set_quic c q in
  match e with
  | None => Ok (inr (sh, c, true))
  | Some (PeerMigrated _ peer) =>
      r ← rebind_source_ip sh c (sock_ip peer);
      let '(sh, c, ok) := r in
      if ok : bool then Ok (inl (sh, c))
      else Ok (inr (sh, set_quic c (exec (close true MIGRATION_SOURCE_LIMIT_ERROR) (quic c)), false))
  | Some _ => Ok (inl (sh, c))
  end.

Definition handle_path_events (sh : Shared) (c : Client) : result unit (Shared * Client * bool) :=
  while (fun s => work (quic s.2)) path_step (sh, c).

(** ** Connection ids *)

Definition collect_retired_step (s : conn * list ConnectionId)
    : result unit (conn * list ConnectionId + conn * list ConnectionId) :=
  let '(q, retired) := s in
  let '(r, q) := do retired_scid_next q in
  match r with
  | Some id => Ok (inl (q, retired ++ [id]))
  | None => Ok (inr (q, retired))
  end.

(** The ids of a list leave the shared map, the aliases and the connection. *)
Fixpoint retire_all (cids : gmap ConnectionId nat) (aliases : gmap ConnectionId ConnectionId) (c : Client)
    (retired : list ConnectionId) : gmap ConnectionId nat * gmap ConnectionId ConnectionId * Client :=
  match retired with
  | [] => (cids, aliases, c)
  | id :: retired' => retire_all (delete id cids) (delete id aliases) (retire_connection_id c id) retired'
  end.

(** The id is the first sixteen random bytes, its first byte the socket index
    on a listener with several sockets, and the reset token the other sixteen. *)
Definition spare_id (reuseport : option Z) (random : bytes) : ConnectionId :=
  take CONN_ID_LEN (match reuseport with Some i => <[0%nat := i]> random | None => random end).

Definition spare_step (shard : nat) (reuseport : option Z) (primary : ConnectionId)
    (s : Shared * gmap ConnectionId ConnectionId * Client)
    : result unit (Shared * gmap ConnectionId ConnectionId * Client + Shared * gmap ConnectionId ConnectionId * Client) :=
  let '(sh, aliases, c) := s in
  if bool_decide (0 < ask scids_left (quic c))%nat then
    let '(r, q) := do (random_fill (CONN_ID_LEN + 16)) (quic c) in
    let c := set_quic c q in
    match r with
    | None => Ok (inr (sh, aliases, c))
    | Some random =>
        let id := spare_id reuseport random in
        if bool_decide (is_Some (cid_shard sh !! id)) then Ok (inl (sh, aliases, c)) else
        let '(ok, q) := do (new_scid id (be_val (drop CONN_ID_LEN random)) false) (quic c) in
        let c := set_quic c q in
        if ok : bool
        then Ok (inl (with_cids sh (<[id := shard]> (cid_shard sh)), <[id := primary]> aliases, publish_connection_id c id))
        else Ok (inr (sh, aliases, c))
    end
  else Ok (inr s).

Definition sync_connection_ids (shard : nat) (reuseport : option Z) (primary : ConnectionId)
    (s : Shared * gmap ConnectionId ConnectionId * Client)
    : result unit (Shared * gmap ConnectionId ConnectionId * Client) :=
  let '(sh, aliases, c) := s in
  r ← while (fun s => work s.1) collect_retired_step (quic c, []);
  let '(q, retired) := r in
  let '(cids, aliases, c) := retire_all (cid_shard sh) aliases (set_quic c q) retired in
  let sh := with_cids sh cids in
  if negb (ask is_established (quic c)) then Ok (sh, aliases, c)
  else while (fun s => work (quic s.2)) (spare_step shard reuseport primary) (sh, aliases, c).

(** ** Forwarding between shards *)

Record PendingForwardBatch := { fwd_packets : list (bytes * SocketAddr); fwd_bytes : Z }.
Definition no_forward : PendingForwardBatch := {| fwd_packets := []; fwd_bytes := 0 |}.
Definition forward_push (b : PendingForwardBatch) (packet : bytes) (from : SocketAddr) : PendingForwardBatch :=
  {| fwd_packets := fwd_packets b ++ [(packet, from)]; fwd_bytes := fwd_bytes b + zlen packet |}.

(** [PacketOutput]. *)
Record Output := {
  stateless_batch : SendPacketBatch;
  stateless_retries : Z;
  forward_batches : list PendingForwardBatch;
}.

Definition queue_forward_packet (shard : nat) (packet : bytes) (from : SocketAddr) (out : Output) : Output :=
  {| stateless_batch := stateless_batch out; stateless_retries := stateless_retries out;
     forward_batches := alter (fun b => forward_push b packet from) shard (forward_batches out) |}.

Definition queue_stateless_packet (udp_gso : bool) (at_ : Z) (packet : bytes) (from to : SocketAddr) (out : Output)
    : result Empty_set Output :=
  batch ← push packet {| info_from := from; info_to := to; info_at := at_ |} udp_gso MAX_DATAGRAM_SIZE (stateless_batch out);
  Ok {| stateless_batch := batch; stateless_retries := stateless_retries out; forward_batches := forward_batches out |}.

(** ** One packet *)

(** [quiche::Header] of a packet with ids of [CONN_ID_LEN] bytes. *)
Record Hdr := {
  hdr_initial : bool;
  hdr_version : Z;
  hdr_dcid : ConnectionId;
  hdr_scid : ConnectionId;
  hdr_token : option bytes;
}.

(** The functions of the library that need no connection, the keyed hash of
    [ring], and the certificate parser. *)
Context (from_slice : bytes -> option Hdr) (version_is_supported : Z -> bool)
  (negotiate_version : ConnectionId -> ConnectionId -> option bytes)
  (retry_packet : ConnectionId -> ConnectionId -> ConnectionId -> bytes -> Z -> option bytes)
  (hmac_sign : bytes -> bytes)
  (spki_from_cert_der : bytes -> option bytes) (encode : bytes -> bytes)
  `{Aead} (max_conn_id_len : nat) (ttl : Z).

(** The settings a shard reads, and what the outside world supplies while one
    packet is handled. *)
Record Settings := {
  max_connections : Z;
  retry_mode : QuicRetryMode;
  retry_connection_threshold : Z;
  idle_timeout_secs : Z;
  has_basic_auth : bool;
  client_certs : option SharedRoster;
}.
Record Moment := { clock : Z; token_clock : Z; nonce : option bytes; udp_gso : bool }.
Context (config : Settings) (m : Moment).

(** The hash is longer than an id. *)
Definition derive_connection_id (s : Shard) (destination : ConnectionId) : ConnectionId :=
  let id := take CONN_ID_LEN (hmac_sign destination) in
  match reuseport_index s with Some i => <[0%nat := i]> id | None => id end.

Definition with_connections (s : Shard) (cs : gmap ConnectionId Client) : Shard :=
  {| shard_index := shard_index s; reuseport_index := reuseport_index s; connections := cs;
     connection_id_aliases := connection_id_aliases s; conn_by_index := conn_by_index s; dirty := dirty s; timers := timers s |}.

(** Inserting into the table drops a connection already stored under the key,
    and with it the admission it holds. *)
Definition replaced (a : Admissions) (old : option Client) : result unit Admissions :=
  match old with
  | None => Ok a
  | Some c => i ← drop_admission (limiter a) (source c); Ok {| limiter := i; guards := delete (guard c) (guards a) |}
  end.

(** A new connection after address validation: [None] when it is refused. *)
Definition accept_connection (sh : Shared) (s : Shard) (scid : ConnectionId) (odcid : option ConnectionId)
    (from local : SocketAddr) : result unit (Shared * Shard * option ConnectionId) :=
  if bool_decide (max_connections config <= Z.of_nat (size (connections s))) then Ok (sh, s, None) else
  let a := source_admissions sh in
  let '(i, admission) := try_acquire (limiter a) (sock_ip from) in
  match admission with
  | None => Ok (with_admissions sh {| limiter := i; guards := guards a |}, s, None)
  | Some src =>
      let '(ok, q) := do (accept (next_conn_index sh) scid odcid local from) [] in
      if negb ok then
        i ← drop_admission i src;
        Ok (with_admissions sh {| limiter := i; guards := guards a |}, s, None)
      else
        let conn_idx := next_conn_index sh in
        let g := fresh (dom (guards a)) in
        let client := {| quic := q; client_index := conn_idx; guard := g; source := src;
                         server_connection_ids := [scid]; primary_connection_id_active := true; identity := None;
                         h3 := false;
                         first_auth_deadline :=
                           if has_basic_auth config then
                             let at_ := clock m + Z.max (idle_timeout_secs config) 1 * 1000000000 in
                             if bool_decide (at_ <= INSTANT_MAX) then Some at_ else None
                           else None;
                         scheduled_deadline := None |} in
        a ← replaced {| limiter := i; guards := <[g := src]> (guards a) |} (connections s !! scid);
        Ok ({| cid_shard := <[scid := shard_index s]> (cid_shard sh);
               index_shard := <[conn_idx := shard_index s]> (index_shard sh);
               next_conn_index := (conn_idx + 1) mod 2 ^ 64;
               source_admissions := a |},
            {| shard_index := shard_index s; reuseport_index := reuseport_index s;
               connections := <[scid := client]> (connections s);
               connection_id_aliases := connection_id_aliases s;
               conn_by_index := <[conn_idx := scid]> (conn_by_index s); dirty := dirty s; timers := timers s |},
            Some scid)
  end.

(** An Initial packet for an id nobody owns: version negotiation, Retry, or a
    connection whose address was validated when the settings ask for it. *)
Definition route_initial (sh : Shared) (s : Shard) (out : Output) (hdr : Hdr) (buf : bytes) (from local : SocketAddr)
    : result unit (Shared * Shard * Output * option ConnectionId) :=
  let reply packet := noerr (queue_stateless_packet (udp_gso m) (clock m) packet local from out) in
  if bool_decide (zlen buf < MIN_CLIENT_INITIAL_LEN) then Ok (sh, s, out, None) else
  if negb (version_is_supported (hdr_version hdr)) then
    match negotiate_version (hdr_scid hdr) (hdr_dcid hdr) with
    | Some packet => out ← reply packet; Ok (sh, s, out, None)
    | None => Ok (sh, s, out, None)
    end
  else
  let derived := derive_connection_id s (hdr_dcid hdr) in
  if bool_decide (is_Some (connections s !! derived)) then Ok (sh, s, out, Some derived) else
  match cid_shard sh !! derived with
  | Some owner =>
      Ok (sh, s, if bool_decide (owner = shard_index s) then out else queue_forward_packet owner buf from out, None)
  | None =>
      let token := default [] (hdr_token hdr) in
      let required := retry_required (retry_mode config) (Z.of_nat (size (connections s))) (retry_connection_threshold config) in
      if bool_decide (token = []) && required then
        match mint max_conn_id_len (nonce m) (token_clock m) from local (hdr_dcid hdr) with
        | Ok retry_token =>
            match retry_packet (hdr_scid hdr) (hdr_dcid hdr) derived retry_token (hdr_version hdr) with
            | Some packet =>
                out ← reply packet;
                Ok (sh, s, {| stateless_batch := stateless_batch out; stateless_retries := stateless_retries out + 1;
                              forward_batches := forward_batches out |}, None)
            | None => Ok (sh, s, out, None)
            end
        | Err _ => Ok (sh, s, out, None)
        | Panic => Panic
        end
      else if bool_decide (token = []) || bool_decide (retry_mode config = Off) then
        r ← accept_connection sh s derived None from local;
        let '(sh, s, key) := r in Ok (sh, s, out, key)
      else
        match validate max_conn_id_len ttl from local token (token_clock m) with
        | None => Ok (sh, s, out, None)
        | Some odcid =>
            if bool_decide (derive_connection_id s odcid = hdr_dcid hdr) then
              r ← accept_connection sh s (hdr_dcid hdr) (Some odcid) from local;
              let '(sh, s, key) := r in Ok (sh, s, out, key)
            else Ok (sh, s, out, None)
        end
  end.

(** The connection a packet belongs to: by its own id, by an alias, by the
    shared owner map, or as an Initial. *)
Definition route_packet (sh : Shared) (s : Shard) (out : Output) (hdr : Hdr) (buf : bytes) (from local : SocketAddr)
    : result unit (Shared * Shard * Output * option ConnectionId) :=
  if match connections s !! hdr_dcid hdr with Some c => primary_connection_id_active c | None => false end
  then Ok (sh, s, out, Some (hdr_dcid hdr)) else
  match connection_id_aliases s !! hdr_dcid hdr with
  | Some key => Ok (sh, s, out, Some key)
  | None =>
      match cid_shard sh !! hdr_dcid hdr with
      | Some owner =>
          Ok (sh, s, if bool_decide (owner = shard_index s) then out else queue_forward_packet owner buf from out, None)
      | None =>
          if negb (hdr_initial hdr) then Ok (sh, s, out, None)
          else route_initial sh s out hdr buf from local
      end
  end.

(** The certificate of a connection whose handshake has just completed; false
    when the connection is closed instead. *)
Definition resolve_identity (c : Client) : Client * bool :=
  match client_certs config with
  | Some roster =>
      if bool_decide (identity c = None) && ask is_established (quic c) then
        match ask peer_cert (quic c) with
        | Some der =>
            match identify spki_from_cert_der encode (load roster) der with
            | Ok i => (set_identity c (Some i), true)
            | _ => (set_quic c (exec (close false 0x0100) (quic c)), false)
            end
        | None => (set_quic c (exec (close false 0x0100) (quic c)), false)
        end
      else (c, true)
  | None => (c, true)
  end.

Definition upgrade_h3 (c : Client) : Client :=
  if negb (h3 c) && ask is_established (quic c) && negb (ask is_in_early_data (quic c)) then
    let '(ok, q) := do with_transport (quic c) in set_h3 (set_quic c q) ok
  else c.

(** The packet reaches its connection.  The answer names the connection whose
    HTTP/3 events are polled next. *)
Definition deliver (sh : Shared) (s : Shard) (key : ConnectionId) (buf : bytes) (from local : SocketAddr)
    : result unit (Shared * Shard * option Z) :=
  match connections s !! key with
  | None => Panic
  | Some c =>
      let s := {| shard_index := shard_index s; reuseport_index := reuseport_index s; connections := connections s;
                  connection_id_aliases := connection_id_aliases s; conn_by_index := conn_by_index s;
                  dirty := mark (dirty s) (client_index c); timers := timers s |} in
      let put s c := with_connections s (<[key := c]> (connections s)) in
      let '(ok, q) := do (recv buf from local) (quic c) in
      let c := set_quic c q in
      if negb ok then Ok (sh, put s c, None) else
      r ← handle_path_events sh c;
      let '(sh, c, open) := r in
      if negb open then Ok (sh, put s c, None) else
      r ← sync_connection_ids (shard_index s) (reuseport_index s) key (sh, connection_id_aliases s, c);
      let '(sh, aliases, c) := r in
      let s := {| shard_index := shard_index s; reuseport_index := reuseport_index s; connections := connections s;
                  connection_id_aliases := aliases; conn_by_index := conn_by_index s; dirty := dirty s; timers := timers s |} in
      let '(c, known) := resolve_identity c in
      if negb known then Ok (sh, put s c, None) else
      Ok (sh, put s (upgrade_h3 c), Some (client_index c))
  end.

Definition handle_packet (sh : Shared) (s : Shard) (out : Output) (buf : bytes) (from local : SocketAddr)
    : result unit (Shared * Shard * Output * option Z) :=
  match from_slice buf with
  | None => Ok (sh, s, out, None)
  | Some hdr =>
      r ← route_packet sh s out hdr buf from local;
      let '(sh, s, out, key) := r in
      match key with
      | None => Ok (sh, s, out, None)
      | Some key =>
          r ← deliver sh s key buf from local;
          let '(sh, s, polled) := r in Ok (sh, s, out, polled)
      end
  end.

(** ** Closed connections *)

(** The closed connection with a number leaves every table and its source
    admission is dropped; its leases are released as in [Lease]. *)
Definition reap (sh : Shared) (s : Shard) (index : Z) : result unit (Shared * Shard) :=
  match conn_by_index s !! index with
  | None => Ok (sh, s)
  | Some id =>
      match connections s !! id with
      | Some c =>
          if negb (ask is_closed (quic c)) then Ok (sh, s) else
          timers' ← noerr (cancel (timers s) (client_index c));
          i ← drop_admission (limiter (source_admissions sh)) (source c);
          Ok ({| cid_shard := foldr delete (cid_shard sh) (server_connection_ids c);
                 index_shard := delete (client_index c) (index_shard sh);
                 next_conn_index := next_conn_index sh;
                 source_admissions := {| limiter := i; guards := delete (guard c) (guards (source_admissions sh)) |} |},
              {| shard_index := shard_index s; reuseport_index := reuseport_index s;
                 connections := delete id (connections s);
                 connection_id_aliases := foldr delete (connection_id_aliases s) (server_connection_ids c);
                 conn_by_index := delete (client_index c) (conn_by_index s); dirty := dirty s; timers := timers' |})
      | None => Ok (sh, s)
      end
  end.

(** ** Wakeups *)

(** Connections whose deadline has arrived are marked for service. *)
Definition fire (s : Shard) (fired : Z * Z) : Shard :=
  let '(index, at_) := fired in
  match conn_by_index s !! index with
  | None => s
  | Some id =>
      match connections s !! id with
      | None => s
      | Some c =>
          if bool_decide (scheduled_deadline c = Some at_) then
            {| shard_index := shard_index s; reuseport_index := reuseport_index s;
               connections := <[id := set_deadline c None]> (connections s);
               connection_id_aliases := connection_id_aliases s; conn_by_index := conn_by_index s;
               dirty := mark (dirty s) index; timers := timers s |}
          else s
      end
  end.

Definition expire_connection_timers (s : Shard) (now_ : Z) : result unit Shard :=
  r ← noerr (expire (timers s) now_);
  let '(timers', fired) := r in
  Ok (fold_left fire fired
        {| shard_index := shard_index s; reuseport_index := reuseport_index s; connections := connections s;
           connection_id_aliases := connection_id_aliases s; conn_by_index := conn_by_index s;
           dirty := dirty s; timers := timers' |}).

(** [reschedule] with the deadline of [next_deadline]. *)
Definition reschedule (q : TimerQueue) (c : Client) (deadline : option Z) : result unit (TimerQueue * Client) :=
  if bool_decide (scheduled_deadline c = deadline) then Ok (q, c) else
  q ← noerr (match deadline with
             | Some at_ => schedule q (client_index c) at_
             | None => cancel q (client_index c)
             end);
  Ok (q, set_deadline c deadline).
End ingress.

(** ** Queues between shards *)

Definition SHARD_FORWARD_QUEUE_CAPACITY : Z := 1024.

(** The inbox of a shard: free packet slots, queued batches, the batch being
    handled, and whether its receiver is alive. *)
Record Inbox := {
  slots : Z;
  queued : list PendingForwardBatch;
  in_hand : option PendingForwardBatch;
  receiving : bool;
}.
Definition inbox_new : Inbox :=
  {| slots := SHARD_FORWARD_QUEUE_CAPACITY; queued := []; in_hand := None; receiving := true |}.

(** One destination of [flush_forward_batches]: the inbox afterwards and the
    packets that were dropped. *)
Definition flush_one (pending : PendingForwardBatch) (inbox : Inbox) : Inbox * Z :=
  let packets := zlen (fwd_packets pending) in
  if bool_decide (fwd_packets pending = []) then (inbox, 0) else
  if bool_decide (slots inbox < packets) then (inbox, packets) else
  if receiving inbox && bool_decide (zlen (queued inbox) < SHARD_FORWARD_QUEUE_CAPACITY) then
    ({| slots := slots inbox - packets; queued := queued inbox ++ [pending]; in_hand := in_hand inbox;
        receiving := receiving inbox |}, 0)
  else (inbox, packets).

Fixpoint flush_forward_batches (batches : list PendingForwardBatch) (inboxes : list Inbox)
    : list PendingForwardBatch * list Inbox * list Z :=
  match batches, inboxes with
  | b :: bs, i :: ins =>
      let '(i', dropped) := flush_one b i in
      let '(bs', ins', ds) := flush_forward_batches bs ins in
      (no_forward :: bs', i' :: ins', dropped :: ds)
  | _, _ => (batches, inboxes, [])
  end.

(** The owner takes the next batch; the previous one gives its slots back. *)
Definition receive_forwarded (inbox : Inbox) : Inbox :=
  let slots' := slots inbox + match in_hand inbox with Some b => zlen (fwd_packets b) | None => 0 end in
  match queued inbox with
  | [] => {| slots := slots'; queued := []; in_hand := None; receiving := receiving inbox |}
  | b :: rest => {| slots := slots'; queued := rest; in_hand := Some b; receiving := receiving inbox |}
  end.
