(* ===== verification/IngressInv.v ===== *)
(** * The routing tables of QUIC ingress agree

    The invariant of the connection tables of [Ingress]: every connection id a
    peer may use leads to exactly one connection, from whichever shard a packet
    reaches, and connection numbers, wakeups and source admissions belong to
    live connections; every operation keeps it. *)

From stdpp Require Import list gmap.
From S2P Require Import Prelude Net ClientIdentity Scheduler Admission Retry TargetUdp Quiche QuicBatch Ingress.
Open Scope Z_scope.

(** ** The tables as functions *)

(** The connections of all shards, and their aliases. *)
Abbreviation client_table := (nat -> list Z -> option Client).
Abbreviation alias_table := (nat -> list Z -> option (list Z)).

Definition put_client (C : client_table) (i : nat) (k : list Z) (o : option Client) : client_table :=
  fun j k' => if decide (j = i /\ k' = k) then o else C j k'.
Definition put_alias (A : alias_table) (i : nat) (id : list Z) (o : option (list Z)) : alias_table :=
  fun j id' => if decide (j = i /\ id' = id) then o else A j id'.

Lemma put_client_eq C i k o : put_client C i k o i k = o.
Proof. unfold put_client. by rewrite decide_True. Qed.
Lemma put_client_ne C i k o j k' : ~ (j = i /\ k' = k) -> put_client C i k o j k' = C j k'.
Proof. intros. unfold put_client. by rewrite decide_False. Qed.
Lemma put_client_Some C i k o j k' c :
  put_client C i k o j k' = Some c <-> (j = i /\ k' = k /\ o = Some c) \/ (~ (j = i /\ k' = k) /\ C j k' = Some c).
Proof. unfold put_client. case_decide; tauto. Qed.
Lemma put_alias_Some A i id o j id' k :
  put_alias A i id o j id' = Some k <-> (j = i /\ id' = id /\ o = Some k) \/ (~ (j = i /\ id' = id) /\ A j id' = Some k).
Proof. unfold put_alias. case_decide; tauto. Qed.

(** The ids that reach a connection through the alias table. *)
Definition alias_ids (c : Client) : list (list Z) :=
  if primary_connection_id_active c then tail (server_connection_ids c) else server_connection_ids c.

(** Every id that routes to a connection is owned by its shard, belongs to one
    connection, and is its table key or one of its aliases. *)
Record ids_inv (C : client_table) (A : alias_table) (cids : gmap (list Z) nat) : Prop := {
  ids_nodup : forall i k c, C i k = Some c -> NoDup (server_connection_ids c);
  ids_primary : forall i k c, C i k = Some c -> primary_connection_id_active c = true ->
    head (server_connection_ids c) = Some k;
  ids_owner : forall i id, cids !! id = Some i <-> exists k c, C i k = Some c /\ id ∈ server_connection_ids c;
  ids_unique : forall i k1 c1 k2 c2 id, C i k1 = Some c1 -> C i k2 = Some c2 ->
    id ∈ server_connection_ids c1 -> id ∈ server_connection_ids c2 -> k1 = k2;
  ids_alias : forall i id k, A i id = Some k <-> exists c, C i k = Some c /\ id ∈ alias_ids c;
}.

Lemma alias_ids_sub c id : id ∈ alias_ids c -> id ∈ server_connection_ids c.
Proof.
  unfold alias_ids. destruct (primary_connection_id_active c); [|done].
  destruct (server_connection_ids c); simpl; [done|]. by right.
Qed.

(** An id of a connection is its key while the key is active, or an alias. *)
Lemma ids_cases C A cids i k c id :
  ids_inv C A cids -> C i k = Some c -> id ∈ server_connection_ids c ->
  (id = k /\ primary_connection_id_active c = true) \/ id ∈ alias_ids c.
Proof.
  intros Hi Hc Hid. unfold alias_ids. destruct (primary_connection_id_active c) eqn:Ha; [|by right].
  pose proof (ids_primary _ _ _ Hi _ _ _ Hc Ha) as Hp. destruct (server_connection_ids c) as [|x l]; [done|].
  simpl in *. simplify_eq. apply elem_of_cons in Hid as [->|Hid]; [by left|by right].
Qed.

(** The key of an active connection is not one of its aliases. *)
Lemma alias_not_primary C A cids i k c :
  ids_inv C A cids -> C i k = Some c -> primary_connection_id_active c = true -> k ∉ alias_ids c.
Proof.
  intros Hi Hc Ha Hk. unfold alias_ids in Hk. rewrite Ha in Hk.
  pose proof (ids_primary _ _ _ Hi _ _ _ Hc Ha) as Hp. pose proof (ids_nodup _ _ _ Hi _ _ _ Hc) as Hn.
  destruct (server_connection_ids c) as [|x l]; [done|]. simpl in *. simplify_eq. by inversion Hn.
Qed.

(** Changes that keep the ids of a connection. *)
Lemma ids_same C A cids i k c c' :
  ids_inv C A cids -> C i k = Some c -> server_connection_ids c' = server_connection_ids c ->
  primary_connection_id_active c' = primary_connection_id_active c ->
  ids_inv (put_client C i k (Some c')) A cids.
Proof.
  intros [H1 H2 H3 H4 H5] Hc Hids Hact.
  assert (alias_ids c' = alias_ids c) as Hal by (unfold alias_ids; by rewrite Hids, Hact).
  split.
  - intros j k' c1 [(-> & -> & [= <-])|[_ Hj]]%put_client_Some; [rewrite Hids|]; eauto.
  - intros j k' c1 [(-> & -> & [= <-])|[_ Hj]]%put_client_Some; [rewrite Hids, Hact|]; eauto.
  - intros j id. rewrite H3. split.
    + intros (k' & c1 & Hj & Hid). destruct (decide (j = i /\ k' = k)) as [[-> ->]|Hne].
      * exists k, c'. rewrite put_client_eq, Hids. split; [done|]. by simplify_eq.
      * exists k', c1. by rewrite put_client_ne.
    + intros (k' & c1 & [(-> & -> & [= <-])|[_ Hj]]%put_client_Some & Hid); [rewrite Hids in Hid|]; eauto.
  - intros j k1 c1 k2 c2 id [(-> & -> & [= <-])|[_ Hj]]%put_client_Some [(E & -> & [= <-])|[_ Hj']]%put_client_Some;
      try subst; rewrite ?Hids; eauto.
  - intros j id k'. rewrite H5. split.
    + intros (c1 & Hj & Hid). destruct (decide (j = i /\ k' = k)) as [[-> ->]|Hne].
      * exists c'. rewrite put_client_eq, Hal. split; [done|]. by simplify_eq.
      * exists c1. by rewrite put_client_ne.
    + intros (c1 & [(-> & -> & [= <-])|[_ Hj]]%put_client_Some & Hid); [rewrite Hal in Hid|]; eauto.
Qed.

(** A fresh id for a new connection. *)
Lemma ids_new C A cids i id c :
  ids_inv C A cids -> C i id = None -> cids !! id = None -> server_connection_ids c = [id] ->
  primary_connection_id_active c = true ->
  ids_inv (put_client C i id (Some c)) A (<[id := i]> cids).
Proof.
  intros [H1 H2 H3 H4 H5] Hi Hid Hids Hact.
  assert (forall j k c', C j k = Some c' -> id ∉ server_connection_ids c') as Hfree.
  { intros j k c' Hc Hin. assert (cids !! id = Some j) by (apply H3; eauto). congruence. }
  split.
  - intros j k' c1 [(-> & -> & [= <-])|[_ Hj]]%put_client_Some; [rewrite Hids; apply NoDup_singleton|]; eauto.
  - intros j k' c1 [(-> & -> & [= <-])|[_ Hj]]%put_client_Some; [by rewrite Hids|]; eauto.
  - intros j id'. rewrite lookup_insert_Some, H3. split.
    + intros [[<- <-]|[Hne (k & c' & Hc & Hin)]].
      * exists id, c. rewrite put_client_eq, Hids. split; [done|set_solver].
      * exists k, c'. rewrite put_client_ne; [done|]. intros [-> ->]. congruence.
    + intros (k' & c1 & [(-> & -> & [= <-])|[_ Hj]]%put_client_Some & Hin).
      * left. rewrite Hids in Hin. set_solver.
      * right. split; [|eauto]. intros ->. by eapply Hfree.
  - intros j k1 c1 k2 c2 id' [(-> & -> & [= <-])|[_ Hj]]%put_client_Some [(E & -> & [= <-])|[_ Hj']]%put_client_Some; try subst.
    + done.
    + rewrite Hids. intros ->%list_elem_of_singleton Hin. by edestruct Hfree.
    + rewrite Hids. intros Hin ->%list_elem_of_singleton. by edestruct Hfree.
    + eauto.
  - intros j id' k'. rewrite H5. split.
    + intros (c1 & Hj & Hin). exists c1. rewrite put_client_ne; [done|]. intros [-> ->]. congruence.
    + intros (c1 & [(-> & -> & [= <-])|[_ Hj]]%put_client_Some & Hin); [|eauto].
      unfold alias_ids in Hin. rewrite Hact, Hids in Hin. set_solver.
Qed.

(** Another id for a connection. *)
Lemma ids_publish C A cids i k c id :
  ids_inv C A cids -> C i k = Some c -> cids !! id = None ->
  ids_inv (put_client C i k (Some (publish_connection_id c id))) (put_alias A i id (Some k)) (<[id := i]> cids).
Proof.
  intros Hinv Hk Hid. pose proof Hinv as [H1 H2 H3 H4 H5].
  assert (forall j k' c', C j k' = Some c' -> id ∉ server_connection_ids c') as Hfree.
  { intros j k' c' Hc Hin. assert (cids !! id = Some j) by (apply H3; eauto). congruence. }
  assert (alias_ids (publish_connection_id c id) = alias_ids c ++ [id]) as Hal.
  { unfold alias_ids. simpl. destruct (primary_connection_id_active c) eqn:Ha; [|done].
    specialize (H2 _ _ _ Hk Ha). by destruct (server_connection_ids c). }
  split.
  - intros j k' c1 [(-> & -> & [= <-])|[_ Hj]]%put_client_Some; [|eauto]. simpl.
    apply NoDup_app. split_and!; [eauto| |apply NoDup_singleton].
    intros x Hx ->%list_elem_of_singleton. by eapply Hfree.
  - intros j k' c1 [(-> & -> & [= <-])|[_ Hj]]%put_client_Some; [|eauto]. simpl. intros Ha.
    specialize (H2 _ _ _ Hk Ha). by destruct (server_connection_ids c).
  - intros j id'. rewrite lookup_insert_Some, H3. split.
    + intros [[<- <-]|[Hne (k' & c' & Hc & Hin)]].
      * exists k, (publish_connection_id c id). rewrite put_client_eq. simpl. split; [done|set_solver].
      * destruct (decide (j = i /\ k' = k)) as [[-> ->]|Hne2].
        -- exists k, (publish_connection_id c id). rewrite put_client_eq. simpl. simplify_eq. split; [done|set_solver].
        -- exists k', c'. by rewrite put_client_ne.
    + intros (k' & c1 & [(-> & -> & [= <-])|[_ Hj]]%put_client_Some & Hin).
      * simpl in Hin. apply elem_of_app in Hin as [Hin| ->%list_elem_of_singleton]; [|by left].
        right. split; [intros ->; by eapply Hfree|eauto].
      * right. split; [|eauto]. intros ->. by eapply Hfree.
  - intros j k1 c1 k2 c2 id' [(-> & -> & [= <-])|[_ Hj]]%put_client_Some [(E & -> & [= <-])|[_ Hj']]%put_client_Some; try subst; simpl.
    + done.
    + intros [Hin| ->%list_elem_of_singleton]%elem_of_app Hin'; [eauto|by edestruct Hfree].
    + intros Hin [Hin'| ->%list_elem_of_singleton]%elem_of_app; [eauto|by edestruct Hfree].
    + eauto.
  - intros j id' k'. rewrite put_alias_Some, H5. split.
    + intros [(-> & -> & [= <-])|[Hne (c1 & Hj & Hin)]].
      * exists (publish_connection_id c id). rewrite put_client_eq, Hal. split; [done|set_solver].
      * destruct (decide (j = i /\ k' = k)) as [[-> ->]|Hne2].
        -- exists (publish_connection_id c id). rewrite put_client_eq, Hal. simplify_eq. split; [done|set_solver].
        -- exists c1. by rewrite put_client_ne.
    + intros (c1 & [(-> & -> & [= <-])|[Hne Hj]]%put_client_Some & Hin).
      * rewrite Hal in Hin. apply elem_of_app in Hin as [Hin| ->%list_elem_of_singleton]; [|by left].
        right. split; [|eauto]. intros [_ ->]. eapply Hfree; [exact Hk|by apply alias_ids_sub].
      * right. split; [|eauto]. intros [-> ->]. eapply Hfree; [exact Hj|by apply alias_ids_sub].
Qed.

Definition ids_of (o : option Client) : list (list Z) := match o with Some c => server_connection_ids c | None => [] end.
Definition aliases_of (o : option Client) : list (list Z) := match o with Some c => alias_ids c | None => [] end.

(** A connection loses some of its ids, or disappears with all of them. *)
Lemma ids_shrink C A cids A' cids' i k c o (R : list (list Z)) :
  ids_inv C A cids -> C i k = Some c ->
  (forall c', o = Some c' -> NoDup (server_connection_ids c') /\
     (primary_connection_id_active c' = true -> head (server_connection_ids c') = Some k)) ->
  (forall id, id ∈ ids_of o <-> id ∈ server_connection_ids c /\ id ∉ R) ->
  (forall id, id ∈ aliases_of o <-> id ∈ alias_ids c /\ id ∉ R) ->
  (forall id, id ∈ R -> id ∈ server_connection_ids c) ->
  (forall id, cids' !! id = if decide (id ∈ R) then None else cids !! id) ->
  (forall j id, A' j id = if decide (j = i /\ id ∈ R) then None else A j id) ->
  ids_inv (put_client C i k o) A' cids'.
Proof.
  intros [H1 H2 H3 H4 H5] Hk Ho Hids Hal HR Hcids HA.
  split.
  - intros j k' c1 [(-> & -> & ->)|[_ Hj]]%put_client_Some; [by apply Ho|eauto].
  - intros j k' c1 [(-> & -> & ->)|[_ Hj]]%put_client_Some; [by apply Ho|eauto].
  - intros j id. rewrite Hcids. case_decide as Hin.
    + split; [done|]. intros (k' & c1 & [(-> & -> & ->)|[Hne Hj]]%put_client_Some & Hid).
      * destruct (proj1 (Hids id) Hid) as [_ Hn]. by destruct Hn.
      * assert (j = i) as -> by (assert (cids !! id = Some j) by (apply H3; eauto);
          assert (cids !! id = Some i) by (apply H3; eauto); congruence).
        assert (k' = k) by eauto. tauto.
    + rewrite H3. split.
      * intros (k' & c1 & Hj & Hid). destruct (decide (j = i /\ k' = k)) as [[-> ->]|Hne].
        -- simplify_eq. assert (id ∈ ids_of o) as Hid' by (by apply Hids). destruct o as [c'|]; [|set_solver].
           exists k, c'. by rewrite put_client_eq.
        -- exists k', c1. by rewrite put_client_ne.
      * intros (k' & c1 & [(-> & -> & ->)|[_ Hj]]%put_client_Some & Hid); [|eauto].
        exists k, c. split; [done|]. apply (proj1 (Hids id) Hid).
  - intros j k1 c1 k2 c2 id [(-> & -> & ->)|[_ Hj]]%put_client_Some [(E & -> & E2)|[_ Hj']]%put_client_Some; try subst.
    + done.
    + intros Hid1%(proj1 (Hids id)) Hid2. eapply H4; [exact Hk|exact Hj'|apply Hid1|exact Hid2].
    + intros Hid1 Hid2%(proj1 (Hids id)). eapply H4; [exact Hj|exact Hk|exact Hid1|apply Hid2].
    + eauto.
  - intros j id k'. rewrite HA. case_decide as Hin.
    + split; [done|]. intros (c1 & [(-> & -> & ->)|[Hne Hj]]%put_client_Some & Hid).
      * destruct (proj1 (Hal id) Hid) as [_ Hn]. by destruct Hn, Hin.
      * destruct Hin as [-> Hin]. assert (k' = k) by (eauto using alias_ids_sub). tauto.
    + rewrite H5. split.
      * intros (c1 & Hj & Hid). destruct (decide (j = i /\ k' = k)) as [[-> ->]|Hne].
        -- simplify_eq. assert (id ∈ aliases_of o) as Hid' by (apply Hal; tauto). destruct o as [c'|]; [|set_solver].
           exists c'. by rewrite put_client_eq.
        -- exists c1. by rewrite put_client_ne.
      * intros (c1 & [(-> & -> & ->)|[_ Hj]]%put_client_Some & Hid); [|eauto].
        exists c. split; [done|]. apply (proj1 (Hal id) Hid).
Qed.

Lemma ids_retire C A cids A' i k c id :
  ids_inv C A cids -> C i k = Some c -> id ∈ server_connection_ids c ->
  (forall j id', A' j id' = if decide (j = i /\ id' = id) then None else A j id') ->
  ids_inv (put_client C i k (Some (retire_connection_id c id))) A' (delete id cids).
Proof.
  intros Hinv Hk Hid HA. pose proof (ids_primary _ _ _ Hinv _ _ _ Hk) as Hp.
  apply (ids_shrink C A cids A' _ i k c _ [id]); try done.
  - intros c' [= <-]. unfold retire_connection_id. simpl. split; [apply NoDup_filter; by eapply ids_nodup|].
    intros [Ha Hne]%andb_true_iff. apply negb_true_iff, bool_decide_eq_false in Hne. specialize (Hp Ha).
    destruct (server_connection_ids c) as [|x l]; [done|]. simpl in *. simplify_eq. rewrite filter_cons, decide_True; [done|].
    intros ->. done.
  - intros id'. simpl. rewrite list_elem_of_filter, list_elem_of_singleton. tauto.
  - intros id'. simpl. rewrite list_elem_of_singleton. unfold alias_ids, retire_connection_id. simpl.
    destruct (primary_connection_id_active c) eqn:Ha; simpl; [|rewrite list_elem_of_filter; tauto].
    specialize (Hp eq_refl). destruct (server_connection_ids c) as [|x l]; [done|]. simpl in *. simplify_eq.
    case_bool_decide as Heq; simpl; rewrite filter_cons.
    + simplify_eq. rewrite decide_False by tauto. rewrite list_elem_of_filter. tauto.
    + rewrite decide_True by (intros ->; done). simpl. rewrite list_elem_of_filter. tauto.
  - intros id' ->%list_elem_of_singleton. done.
  - intros id'. case_decide as Hin; rewrite list_elem_of_singleton in Hin; [subst; apply lookup_delete_eq|by apply lookup_delete_ne].
  - intros j id'. rewrite HA. repeat case_decide; rewrite ?list_elem_of_singleton in *; tauto.
Qed.

Lemma lookup_foldr_delete {V} (l : list (list Z)) (m : gmap (list Z) V) id :
  foldr delete m l !! id = if decide (id ∈ l) then None else m !! id.
Proof.
  induction l as [|x l IH]; simpl; [done|]. destruct (decide (x = id)) as [->|Hne].
  - rewrite lookup_delete_eq, decide_True by set_solver. done.
  - rewrite lookup_delete_ne, IH by done. repeat case_decide; set_solver.
Qed.

Lemma ids_remove C A cids A' i k c :
  ids_inv C A cids -> C i k = Some c ->
  (forall j id', A' j id' = if decide (j = i /\ id' ∈ server_connection_ids c) then None else A j id') ->
  ids_inv (put_client C i k None) A' (foldr delete cids (server_connection_ids c)).
Proof.
  intros Hinv Hk HA. apply (ids_shrink C A cids A' _ i k c None (server_connection_ids c)); try done; simpl.
  - set_solver.
  - intros id. split; [set_solver|]. intros [Hid%alias_ids_sub Hn]. done.
  - intros id. apply lookup_foldr_delete.
Qed.

(** ** A connection taken out of its shard while it is worked on *)

Definition alias_row (A : alias_table) (i : nat) (m : gmap (list Z) (list Z)) : alias_table :=
  fun j id => if decide (j = i) then m !! id else A j id.

Lemma ids_inv_ext C A cids C' A' :
  (forall j k, C' j k = C j k) -> (forall j id, A' j id = A j id) -> ids_inv C A cids -> ids_inv C' A' cids.
Proof.
  intros HC HA [H1 H2 H3 H4 H5]. split.
  - intros i k c. rewrite HC. eauto.
  - intros i k c. rewrite HC. eauto.
  - intros i id. rewrite H3. by setoid_rewrite HC.
  - intros i k1 c1 k2 c2 id. rewrite !HC. eauto.
  - intros i id k. rewrite HA, H5. by setoid_rewrite HC.
Qed.

Lemma put_client_twice C i k o o' j k' : put_client (put_client C i k o) i k o' j k' = put_client C i k o' j k'.
Proof. unfold put_client. by case_decide. Qed.

Section hole.
Context (C : client_table) (A : alias_table) (i : nat) (k : list Z).

(** The tables with the connection [c] at key [k] of shard [i], whose aliases
    are [al]. *)
Definition ids_at (al : gmap (list Z) (list Z)) (cids : gmap (list Z) nat) (c : Client) : Prop :=
  ids_inv (put_client C i k (Some c)) (alias_row A i al) cids.

Lemma at_same al cids c c' :
  ids_at al cids c -> server_connection_ids c' = server_connection_ids c ->
  primary_connection_id_active c' = primary_connection_id_active c -> ids_at al cids c'.
Proof.
  intros Hat Hids Hact. eapply ids_inv_ext; [| |eapply (ids_same _ _ _ i k c c' Hat)]; try done.
  - intros. by rewrite put_client_twice.
  - by rewrite put_client_eq.
Qed.

Lemma at_retire al cids c id :
  ids_at al cids c -> id ∈ server_connection_ids c -> ids_at (delete id al) (delete id cids) (retire_connection_id c id).
Proof.
  intros Hat Hid. eapply ids_inv_ext; [| |eapply (ids_retire _ _ _ (alias_row A i (delete id al)) i k c id Hat)]; try done.
  - intros. by rewrite put_client_twice.
  - by rewrite put_client_eq.
  - intros j id'. unfold alias_row. destruct (decide (j = i)) as [->|Hne].
    + destruct (decide (id' = id)) as [->|Hne'].
      * by rewrite lookup_delete_eq, decide_True.
      * rewrite lookup_delete_ne, decide_False by naive_solver. done.
    + by rewrite decide_False by naive_solver.
Qed.

Lemma at_publish al cids c id :
  ids_at al cids c -> cids !! id = None -> ids_at (<[id := k]> al) (<[id := i]> cids) (publish_connection_id c id).
Proof.
  intros Hat Hid. eapply ids_inv_ext; [| |eapply (ids_publish _ _ _ i k c id Hat)]; try done.
  - intros. by rewrite put_client_twice.
  - intros j id'. unfold put_alias, alias_row. destruct (decide (j = i)) as [->|Hne].
    + destruct (decide (id' = id)) as [->|Hne'].
      * by rewrite lookup_insert_eq, decide_True.
      * rewrite lookup_insert_ne, decide_False by naive_solver. done.
    + by rewrite decide_False by naive_solver.
  - by rewrite put_client_eq.
Qed.
End hole.

(** ** The ids the library has issued *)

(** The ids of a connection according to its history. *)
Definition issue (ids : list (list Z)) (e : event) : list (list Z) :=
  match e with
  | Ev c a =>
      match c in call T return T -> list (list Z) with
      | accept _ scid _ _ _ => fun ok => if ok : bool then [scid] else ids
      | new_scid id _ _ => fun ok => if ok : bool then ids ++ [id] else ids
      | retired_scid_next => fun r => match r with Some id => filter (fun x => x <> id) ids | None => ids end
      | _ => fun _ => ids
      end a
  end.
Definition issued (q : conn) : list (list Z) := fold_left issue q [].

Lemma issued_snoc q e : issued (q ++ [e]) = issue (issued q) e.
Proof. unfold issued. by rewrite fold_left_app. Qed.

(** What ingress relies on: only ids in use are reported retired, the generator
    fills the whole buffer, and between packets the library has finitely many
    notifications and spare ids to hand out. *)
Class CidLaws `{Quiche} (work : conn -> nat) : Prop := {
  retired_issued : forall q id, answer _ q retired_scid_next = Some id -> id ∈ issued q;
  random_length : forall q n r, answer _ q (random_fill n) = Some r -> length r = n;
  path_events_end : forall q e, answer _ q path_event_next = Some e ->
    (work (q ++ [Ev path_event_next (Some e)]) < work q)%nat;
  retired_ends : forall q id, answer _ q retired_scid_next = Some id ->
    (work (q ++ [Ev retired_scid_next (Some id)]) < work q)%nat;
  draws_end : forall q n r, answer _ q (random_fill n) = Some r -> (0 < query_answer _ q scids_left)%nat ->
    (work (q ++ [Ev (random_fill n) (Some r)]) < work q)%nat;
  new_scid_keeps : forall q id t b a, (work (q ++ [Ev (new_scid id t b) a]) <= work q)%nat;
}.

(** The fields that ids and history do not touch. *)
Definition keeps (c c' : Client) : Prop :=
  client_index c' = client_index c /\ guard c' = guard c /\ source c' = source c /\
  scheduled_deadline c' = scheduled_deadline c.

(** A connection whose ids are those the library issued. *)
Definition coherent (c : Client) : Prop := issued (quic c) = server_connection_ids c.

Fixpoint retire_ids (ids retired : list (list Z)) : list (list Z) :=
  match retired with
  | [] => ids
  | id :: retired' => retire_ids (filter (fun x => x <> id) ids) retired'
  end.
Fixpoint valid_retire (ids retired : list (list Z)) : Prop :=
  match retired with
  | [] => True
  | id :: retired' => id ∈ ids /\ valid_retire (filter (fun x => x <> id) ids) retired'
  end.

Lemma retire_ids_snoc ids retired id :
  retire_ids ids (retired ++ [id]) = filter (fun x => x <> id) (retire_ids ids retired).
Proof. revert ids. induction retired as [|x r IH]; intros ids; simpl; [done|]. apply IH. Qed.

Lemma valid_retire_snoc ids retired id :
  valid_retire ids retired -> id ∈ retire_ids ids retired -> valid_retire ids (retired ++ [id]).
Proof. revert ids. induction retired as [|x r IH]; intros ids; simpl; [tauto|]. intros [H1 H2] Hin. split; [done|]. by apply IH. Qed.

Lemma retire_all_ok C A i k retired al cids c :
  ids_at C A i k al cids c -> valid_retire (server_connection_ids c) retired ->
  let '(cids', al', c') := retire_all cids al c retired in
  ids_at C A i k al' cids' c' /\ server_connection_ids c' = retire_ids (server_connection_ids c) retired /\
  quic c' = quic c /\ keeps c c'.
Proof.
  revert al cids c. induction retired as [|id r IH]; intros al cids c Hat Hv; [by split_and!|].
  destruct Hv as [Hid Hv]. cbn [retire_all].
  specialize (IH _ _ (retire_connection_id c id) (at_retire _ _ _ _ _ _ _ _ Hat Hid) Hv).
  destruct (retire_all _ _ _ _) as [[cids' al'] c'] eqn:E. destruct IH as (H1 & H2 & H3 & H4 & H5 & H6 & H7).
  split_and!; try done.
Qed.

Section sync.
Context `{HQ : Quiche} (work : conn -> nat) `{HL : !CidLaws work}.

Lemma collect_retired_ok q :
  post (while (fun s => work s.1) collect_retired_step (q, [])) (fun r =>
    valid_retire (issued q) r.2 /\ issued r.1 = retire_ids (issued q) r.2).
Proof using All.
  apply (post_while_inv _ _ (fun s => valid_retire (issued q) s.2 /\ issued s.1 = retire_ids (issued q) s.2)); [|done].
  intros [q' retired] [Hv Hi]. unfold collect_retired_step, do. simpl in *.
  destruct (answer _ q' retired_scid_next) as [id|] eqn:Ha; simpl.
  - rewrite issued_snoc. simpl. rewrite Hi, retire_ids_snoc. split; [split; [|done]|by apply retired_ends].
    apply valid_retire_snoc; [done|]. rewrite <- Hi. by apply retired_issued.
  - by rewrite issued_snoc.
Qed.

Definition same_rest (sh sh' : Shared) : Prop :=
  index_shard sh' = index_shard sh /\ next_conn_index sh' = next_conn_index sh /\
  source_admissions sh' = source_admissions sh.

Lemma spare_step_ok C A i reuseport k sh al c :
  ids_at C A i k al (cid_shard sh) c -> coherent c ->
  post (spare_step i reuseport k (sh, al, c)) (fun r => match r with
    | inl s' | inr s' => let '(sh', al', c') := s' in
        ids_at C A i k al' (cid_shard sh') c' /\ coherent c' /\ keeps c c' /\ same_rest sh sh' end /\
    match r with inl s' => (work (quic s'.2) < work (quic c))%nat | inr _ => True end).
Proof using All.
  intros Hat Hco. unfold spare_step. case_bool_decide as Hleft; [|by split_and!].
  unfold do, ask in *. destruct (answer _ (quic c) (random_fill _)) as [random|] eqn:Hr; cbn [fst snd].
  2: { split; [|done]. split_and!; try done; [by eapply at_same|]. unfold coherent. simpl. by rewrite issued_snoc. }
  pose proof (draws_end _ _ _ Hr Hleft) as Hlt. set (q := quic c ++ _) in *.
  assert (coherent (set_quic c q)) as Hco' by (unfold coherent, q; simpl; by rewrite issued_snoc).
  set (id := spare_id reuseport random). case_bool_decide as Hin; cbn [mbind result_bind].
  { simpl. split; [|done]. split_and!; try done. by eapply at_same. }
  assert (cid_shard sh !! id = None) as Hnone by (destruct (cid_shard sh !! id); [by destruct Hin|done]).
  set (t := be_val _). pose proof (new_scid_keeps q id t false) as Hk. cbn [quic set_quic].
  destruct (answer bool q (new_scid id t false)) eqn:Hn; cbn [fst snd post].
  - split; [|specialize (Hk true); simpl in *; lia]. split_and!; try done.
    + apply at_publish; [by eapply at_same|done].
    + unfold coherent. simpl. rewrite issued_snoc. simpl. by rewrite Hco'.
  - split; [|done]. split_and!; try done; [by eapply at_same|]. unfold coherent. simpl. by rewrite issued_snoc.
Qed.

Lemma keeps_trans c1 c2 c3 : keeps c1 c2 -> keeps c2 c3 -> keeps c1 c3.
Proof. unfold keeps. intuition congruence. Qed.
Lemma same_rest_trans s1 s2 s3 : same_rest s1 s2 -> same_rest s2 s3 -> same_rest s1 s3.
Proof. unfold same_rest. intuition congruence. Qed.

Lemma sync_connection_ids_ok C A i reuseport k sh al c :
  ids_at C A i k al (cid_shard sh) c -> coherent c ->
  post (sync_connection_ids work i reuseport k (sh, al, c)) (fun '(sh', al', c') =>
    ids_at C A i k al' (cid_shard sh') c' /\ coherent c' /\ keeps c c' /\ same_rest sh sh').
Proof using All.
  intros Hat Hco. unfold sync_connection_ids. apply post_bind.
  eapply post_mono; [apply collect_retired_ok|]. intros [q retired] [Hv Hi]. simpl in Hv, Hi.
  rewrite Hco in Hv, Hi.
  pose proof (retire_all_ok C A i k retired al (cid_shard sh) (set_quic c q) (at_same _ _ _ _ _ _ _ (set_quic c q) Hat eq_refl eq_refl) Hv) as Hret.
  destruct (retire_all _ _ _ _) as [[cids1 al1] c1]. destruct Hret as (Hat1 & Hids1 & Hq1 & Hk1).
  assert (coherent c1) as Hco1 by (unfold coherent; rewrite Hids1, Hq1; done).
  destruct (negb _); [by split_and!|].
  apply (post_while_inv _ _ (fun '(sh', al', c') =>
    ids_at C A i k al' (cid_shard sh') c' /\ coherent c' /\ keeps c c' /\ same_rest sh sh')); [|by split_and!].
  intros [[sh2 al2] c2] (H1 & H2 & H3 & H4).
  eapply post_mono; [apply (spare_step_ok C A i reuseport k sh2 al2 c2 H1 H2)|].
  intros [[[sh3 al3] c3]|[[sh3 al3] c3]] [(G1 & G2 & G3 & G4) G5]; simpl in *; split_and?; try done;
    eauto using keeps_trans, same_rest_trans.
Qed.
End sync.

(** ** The whole listener *)

Record System := { shared : Shared; shards : gmap nat Shard }.

Definition clients (sys : System) : client_table := fun i k => s ← shards sys !! i; connections s !! k.
Definition aliases (sys : System) : alias_table := fun i id => s ← shards sys !! i; connection_id_aliases s !! id.
Definition numbers (sys : System) (i : nat) (n : Z) : option (list Z) := s ← shards sys !! i; conn_by_index s !! n.

(** Connection numbers name live connections, and the shared map their shard. *)
Record numbers_inv (C : client_table) (I : nat -> Z -> option (list Z)) (idx : gmap Z nat) (next : Z) : Prop := {
  nu_conn : forall i k c, C i k = Some c -> I i (client_index c) = Some k;
  nu_back : forall i n k, I i n = Some k -> exists c, C i k = Some c /\ client_index c = n;
  nu_shard : forall i n, idx !! n = Some i <-> exists k, I i n = Some k;
  nu_bound : forall n i, idx !! n = Some i -> 0 <= n < next;
  nu_next : 0 <= next;
}.

(** Each connection holds one source admission of its own. *)
Record admissions_inv (C : client_table) (a : Admissions) : Prop := {
  ad_ok : admissions_ok a;
  ad_guard : forall i k c, C i k = Some c -> guards a !! guard c = Some (source c);
  ad_own : forall i1 k1 c1 i2 k2 c2, C i1 k1 = Some c1 -> C i2 k2 = Some c2 -> guard c1 = guard c2 ->
    i1 = i2 /\ k1 = k2;
}.

(** The timers of a shard hold the deadline of each of its connections. *)
Definition deadline_of (s : Shard) (n : Z) : option Z :=
  k ← conn_by_index s !! n; c ← connections s !! k; scheduled_deadline c.
Definition timers_inv (s : Shard) : Prop :=
  queue_ok (timers s) /\ forall n, deadlines (timers s) !! n = deadline_of s n.

Record sys_ok (sys : System) : Prop := {
  so_index : forall i s, shards sys !! i = Some s -> shard_index s = i;
  so_ids : ids_inv (clients sys) (aliases sys) (cid_shard (shared sys));
  so_coherent : forall i k c, clients sys i k = Some c -> coherent c;
  so_numbers : numbers_inv (clients sys) (numbers sys) (index_shard (shared sys)) (next_conn_index (shared sys));
  so_admissions : admissions_inv (clients sys) (source_admissions (shared sys));
  so_timers : forall i s, shards sys !! i = Some s -> timers_inv s;
}.

Definition set_shard (sys : System) (i : nat) (sh : Shared) (s : Shard) : System :=
  {| shared := sh; shards := <[i := s]> (shards sys) |}.

Lemma clients_at sys i s k : shards sys !! i = Some s -> clients sys i k = connections s !! k.
Proof. unfold clients. by intros ->. Qed.

Lemma admissions_inv_ext C C' a : (forall j k, C' j k = C j k) -> admissions_inv C a -> admissions_inv C' a.
Proof. intros HC [H1 H2 H3]. split; [done|..]; intros *; rewrite !HC; eauto. Qed.

Lemma numbers_inv_ext C C' I I' idx next :
  (forall j k, C' j k = C j k) -> (forall j n, I' j n = I j n) -> numbers_inv C I idx next -> numbers_inv C' I' idx next.
Proof.
  intros HC HI [H1 H2 H3 H4 H5]. split; try done.
  - intros *. rewrite HC, HI. eauto.
  - intros *. rewrite HI. intros Hn. destruct (H2 _ _ _ Hn) as (c & Hc & Hi). exists c. by rewrite HC.
  - intros *. rewrite H3. by setoid_rewrite HI.
Qed.

(** A connection that keeps its number keeps the number table right. *)
Lemma numbers_same C I idx next i k c c' :
  numbers_inv C I idx next -> C i k = Some c -> client_index c' = client_index c ->
  numbers_inv (put_client C i k (Some c')) I idx next.
Proof.
  intros [H1 H2 H3 H4 H5] Hk Hn. split; try done.
  - intros j k' c1 [(-> & -> & [= <-])|[_ Hj]]%put_client_Some; [rewrite Hn|]; eauto.
  - intros j n k' Hj. destruct (H2 _ _ _ Hj) as (c1 & Hc1 & Hi). destruct (decide (j = i /\ k' = k)) as [[-> ->]|Hne].
    + exists c'. rewrite put_client_eq. split; [done|]. congruence.
    + exists c1. by rewrite put_client_ne.
Qed.

(** A connection that moves its admission to another source. *)
Lemma admissions_move C a i k c c' a' :
  admissions_inv C a -> C i k = Some c -> guard c' = guard c -> admissions_ok a' ->
  guards a' = <[guard c := source c']> (guards a) -> admissions_inv (put_client C i k (Some c')) a'.
Proof.
  intros [H1 H2 H3] Hk Hg Hok Ha. split; [done|..].
  - intros j k' c1 [(-> & -> & [= <-])|[Hne Hj]]%put_client_Some; rewrite Ha, ?Hg; [apply lookup_insert_eq|].
    rewrite lookup_insert_ne; [eauto|]. intros Heq. destruct (H3 _ _ _ _ _ _ Hk Hj Heq) as [-> ->]. tauto.
  - intros j k1 c1 j' k2 c2 [(-> & -> & [= <-])|[_ Hj]]%put_client_Some [(-> & -> & [= <-])|[_ Hj']]%put_client_Some;
      rewrite ?Hg; try done; intros; eauto.
Qed.

(** The listener with one connection out for service: [sh], [al] and [c] are the
    shared state, the aliases of its shard and the connection at this point. *)
Definition sys_at (sys : System) (i : nat) (k : list Z) (c0 : Client) (sh : Shared)
    (al : gmap (list Z) (list Z)) (c : Client) : Prop :=
  ids_at (clients sys) (aliases sys) i k al (cid_shard sh) c /\ coherent c /\
  admissions_inv (put_client (clients sys) i k (Some c)) (source_admissions sh) /\
  index_shard sh = index_shard (shared sys) /\ next_conn_index sh = next_conn_index (shared sys) /\
  client_index c = client_index c0 /\ scheduled_deadline c = scheduled_deadline c0.

Lemma put_client_id C i k c j k' : C i k = Some c -> put_client C i k (Some c) j k' = C j k'.
Proof. intros Hc. unfold put_client. case_decide as Hd; [|done]. by destruct Hd as [-> ->]. Qed.

Lemma sys_at_start sys i s k c :
  sys_ok sys -> shards sys !! i = Some s -> connections s !! k = Some c ->
  sys_at sys i k c (shared sys) (connection_id_aliases s) c.
Proof.
  intros Hok Hs Hc. assert (clients sys i k = Some c) as Hk by (by rewrite (clients_at _ _ _ _ Hs)).
  split_and!; try done.
  - eapply ids_inv_ext; [| |apply (so_ids _ Hok)].
    + intros. by apply put_client_id.
    + intros j id. unfold alias_row, aliases. case_decide; [subst; by rewrite Hs|done].
  - by eapply so_coherent.
  - eapply admissions_inv_ext; [|apply (so_admissions _ Hok)]. intros. by apply put_client_id.
Qed.

Lemma clients_set_shard sys i s s' k c j k' sh :
  shards sys !! i = Some s -> connections s' = <[k := c]> (connections s) ->
  clients (set_shard sys i sh s') j k' = put_client (clients sys) i k (Some c) j k'.
Proof.
  intros Hs Hc. unfold clients, put_client, set_shard. simpl. destruct (decide (j = i)) as [->|Hne].
  - rewrite lookup_insert_eq, Hs. simpl. rewrite Hc. destruct (decide (k' = k)) as [->|Hk].
    + by rewrite lookup_insert_eq, decide_True.
    + rewrite lookup_insert_ne, decide_False by naive_solver. done.
  - rewrite lookup_insert_ne, decide_False by naive_solver. done.
Qed.

Lemma sys_at_end sys i s k c0 sh al c s' :
  sys_ok sys -> shards sys !! i = Some s -> connections s !! k = Some c0 -> sys_at sys i k c0 sh al c ->
  shard_index s' = shard_index s -> connections s' = <[k := c]> (connections s) -> connection_id_aliases s' = al ->
  conn_by_index s' = conn_by_index s -> timers s' = timers s -> sys_ok (set_shard sys i sh s').
Proof.
  intros Hok Hs Hc0 (H1 & H2 & H3 & H4 & H5 & H6 & H7) Hi Hconn Hal Hnum Htim.
  assert (clients sys i k = Some c0) as Hk by (by rewrite (clients_at _ _ _ _ Hs)).
  assert (forall j k', clients (set_shard sys i sh s') j k' = put_client (clients sys) i k (Some c) j k') as HC
    by (intros; by eapply clients_set_shard).
  split.
  - intros j s1. simpl. rewrite lookup_insert_Some. intros [[<- <-]|[_ Hj]]; [rewrite Hi|]; by eapply so_index.
  - eapply ids_inv_ext; [exact HC| |exact H1]. intros j id. unfold aliases, alias_row. simpl.
    case_decide as Hj; [subst j; by rewrite lookup_insert_eq; simpl; rewrite Hal|by rewrite lookup_insert_ne].
  - intros j k' c1. rewrite HC, put_client_Some. intros [(_ & _ & [= <-])|[_ Hj]]; [done|by eapply so_coherent].
  - simpl. rewrite H4, H5. eapply (numbers_inv_ext _ _ (numbers sys)); [exact HC| |].
    + intros j n. unfold numbers. simpl. destruct (decide (j = i)) as [->|Hne].
      * rewrite lookup_insert_eq, Hs. simpl. by rewrite Hnum.
      * by rewrite lookup_insert_ne.
    + eapply numbers_same; [by apply so_numbers|done|done].
  - eapply admissions_inv_ext; [exact HC|exact H3].
  - intros j s1. simpl. rewrite lookup_insert_Some. intros [[<- <-]|[_ Hj]]; [|by eapply so_timers].
    destruct (so_timers _ Hok _ _ Hs) as [Hq Hd]. unfold timers_inv. rewrite Htim. split; [done|]. intros n. rewrite Hd.
    unfold deadline_of. rewrite Hnum, Hconn. destruct (conn_by_index s !! n) as [k'|]; simpl; [|done].
    destruct (decide (k' = k)) as [->|Hne]; [rewrite lookup_insert_eq, Hc0; simpl; congruence|by rewrite lookup_insert_ne].
Qed.

(** Work on a connection that leaves its ids, number and admission alone. *)
Lemma sys_at_same sys i k c0 sh al c c' :
  sys_at sys i k c0 sh al c -> keeps c c' -> server_connection_ids c' = server_connection_ids c ->
  primary_connection_id_active c' = primary_connection_id_active c -> issued (quic c') = issued (quic c) ->
  sys_at sys i k c0 sh al c'.
Proof.
  intros (H1 & H2 & H3 & H4 & H5 & H6 & H7) (K1 & K2 & K3 & K4) Hids Hact Hiss.
  split_and!; try done; try congruence.
  - by eapply at_same.
  - eapply admissions_inv_ext; [|eapply (admissions_move _ _ i k c c' _ H3)].
    + intros. by rewrite put_client_twice.
    + by rewrite put_client_eq.
    + done.
    + apply H3.
    + rewrite K3, insert_id; [done|]. apply (ad_guard _ _ H3 i k). by rewrite put_client_eq.
Qed.

Section steps.
Context `{HQ : Quiche} (work : conn -> nat) `{HL : !CidLaws work}.

Lemma path_step_ok sys i k c0 al sh c :
  sys_at sys i k c0 sh al c ->
  post (path_step (sh, c)) (fun r => match r with
    | inl (sh', c') => sys_at sys i k c0 sh' al c' /\ (work (quic c') < work (quic c))%nat
    | inr (sh', c', _) => sys_at sys i k c0 sh' al c' end).
Proof using All.
  intros Hat. unfold path_step, do. destruct (answer _ (quic c) path_event_next) as [e|] eqn:He; cbn [fst snd].
  2: { simpl. eapply sys_at_same; [exact Hat|by split_and!|done|done|]. simpl. by rewrite issued_snoc. }
  pose proof (path_events_end _ _ He) as Hlt. set (q := quic c ++ _) in *.
  assert (sys_at sys i k c0 sh al (set_quic c q)) as Hat'.
  { eapply sys_at_same; [exact Hat|by split_and!|done|done|]. unfold q. simpl. by rewrite issued_snoc. }
  destruct e; try (by split). unfold rebind_source_ip. pose proof Hat' as (H1 & H2 & H3 & H4 & H5 & H6 & H7).
  assert (guards (source_admissions sh) !! guard c = Some (source c)) as Hg
    by (apply (ad_guard _ _ H3 i k (set_quic c q)), put_client_eq).
  destruct (rebind_ok _ _ _ (sock_ip peer) (ad_ok _ _ H3) Hg) as (l & src & verdict & Hr & Hok & _).
  cbn [source guard set_quic]. rewrite Hr. cbn [mbind result_bind].
  set (a := {| limiter := l; guards := _ |}) in *.
  assert (sys_at sys i k c0 (with_admissions sh a) al (set_source (set_quic c q) src)) as Hmoved.
  { split_and!; try done; [by eapply at_same|].
    eapply admissions_inv_ext; [|eapply (admissions_move _ _ i k _ (set_source (set_quic c q) src) a H3)].
    - intros. by rewrite put_client_twice.
    - by rewrite put_client_eq.
    - done.
    - exact Hok.
    - done. }
  destruct verdict; [by split|]. eapply sys_at_same; [exact Hmoved|by split_and!|done|done|].
  simpl. by rewrite exec_trace, issued_snoc.
Qed.

Lemma handle_path_events_ok sys i k c0 al sh c :
  sys_at sys i k c0 sh al c ->
  post (handle_path_events work sh c) (fun '(sh', c', _) => sys_at sys i k c0 sh' al c').
Proof using All.
  intros Hat. apply (post_while_inv _ _ (fun '(sh', c') => sys_at sys i k c0 sh' al c')); [|done].
  intros [sh1 c1] H1. eapply post_mono; [by apply path_step_ok|]. intros [[sh2 c2]|[[sh2 c2] b]]; done.
Qed.

Lemma sync_ok sys i k c0 al sh c reuseport :
  sys_at sys i k c0 sh al c ->
  post (sync_connection_ids work i reuseport k (sh, al, c)) (fun '(sh', al', c') => sys_at sys i k c0 sh' al' c').
Proof using All.
  intros (H1 & H2 & H3 & H4 & H5 & H6 & H7).
  eapply post_mono; [by apply (sync_connection_ids_ok work)|].
  intros [[sh' al'] c'] (G1 & G2 & (K1 & K2 & K3 & K4) & (R1 & R2 & R3)). split_and!; try done; try congruence.
  rewrite R3. eapply admissions_inv_ext; [|eapply (admissions_move _ _ i k c c' _ H3)].
  - intros. by rewrite put_client_twice.
  - by rewrite put_client_eq.
  - done.
  - apply H3.
  - rewrite K3, insert_id; [done|]. apply (ad_guard _ _ H3 i k). by rewrite put_client_eq.
Qed.
End steps.

Section operations.
Context `{HQ : Quiche} (work : conn -> nat) `{HL : !CidLaws work}.

Lemma resolve_identity_frame spki enc config c :
  let '(c', _) := resolve_identity spki enc config c in
  keeps c c' /\ server_connection_ids c' = server_connection_ids c /\
  primary_connection_id_active c' = primary_connection_id_active c /\ issued (quic c') = issued (quic c).
Proof.
  unfold resolve_identity. destruct (client_certs config); [|done]. destruct (_ && _); [|done].
  destruct (ask peer_cert (quic c)); [destruct (identify _ _ _ _)|]; split_and!; try done;
    simpl; by rewrite exec_trace, issued_snoc.
Qed.

Lemma upgrade_h3_frame c :
  keeps c (upgrade_h3 c) /\ server_connection_ids (upgrade_h3 c) = server_connection_ids c /\
  primary_connection_id_active (upgrade_h3 c) = primary_connection_id_active c /\
  issued (quic (upgrade_h3 c)) = issued (quic c).
Proof.
  unfold upgrade_h3, do. destruct (_ && _ && _); [|done]. simpl. split_and!; try done. by rewrite issued_snoc.
Qed.

Lemma deliver_ok spki enc config sys i s key buf from local :
  sys_ok sys -> shards sys !! i = Some s -> is_Some (connections s !! key) ->
  post (deliver work spki enc config (shared sys) s key buf from local) (fun '(sh', s', _) => sys_ok (set_shard sys i sh' s')).
Proof using All.
  intros Hok Hs [c Hc]. unfold deliver. rewrite Hc. unfold do. cbn [fst snd]. set (q := quic c ++ _).
  pose proof (so_index _ Hok _ _ Hs) as Hi. pose proof (sys_at_start sys i s key c Hok Hs Hc) as Hat.
  assert (sys_at sys i key c (shared sys) (connection_id_aliases s) (set_quic c q)) as Hat1.
  { eapply sys_at_same; [exact Hat|by split_and!|done|done|]. unfold q. simpl. by rewrite issued_snoc. }
  destruct (negb _); [by apply (sys_at_end _ _ _ _ _ _ _ _ _ Hok Hs Hc Hat1)|].
  apply post_bind. eapply post_mono; [apply (handle_path_events_ok work _ _ _ _ _ _ _ Hat1)|].
  intros [[sh1 c1] open] Hat2. destruct (negb open); [by apply (sys_at_end _ _ _ _ _ _ _ _ _ Hok Hs Hc Hat2)|].
  apply post_bind. cbn [shard_index reuseport_index connection_id_aliases]. rewrite Hi.
  eapply post_mono; [apply (sync_ok work _ _ _ _ _ _ _ _ Hat2)|]. intros [[sh2 al2] c2] Hat3.
  pose proof (resolve_identity_frame spki enc config c2) as Hf.
  destruct (resolve_identity _ _ _ c2) as [c3 known]. destruct Hf as (F1 & F2 & F3 & F4).
  assert (sys_at sys i key c sh2 al2 c3) as Hat4 by (by eapply sys_at_same).
  destruct (upgrade_h3_frame c3) as (U1 & U2 & U3 & U4).
  assert (sys_at sys i key c sh2 al2 (upgrade_h3 c3)) as Hat5 by (by eapply sys_at_same).
  destruct (negb known); [by apply (sys_at_end _ _ _ _ _ _ _ _ _ Hok Hs Hc Hat4)|by apply (sys_at_end _ _ _ _ _ _ _ _ _ Hok Hs Hc Hat5)].
Qed.

(** A fresh connection number. *)
Lemma numbers_new C I idx next i k c :
  numbers_inv C I idx next -> C i k = None -> client_index c = next -> next < 2 ^ 64 - 1 ->
  numbers_inv (put_client C i k (Some c)) (fun j n => if decide (j = i /\ n = next) then Some k else I j n)
    (<[next := i]> idx) ((next + 1) mod 2 ^ 64).
Proof.
  intros [H1 H2 H3 H4 H5] Hk Hn Hb. assert (idx !! next = None) as Hfree.
  { destruct (idx !! next) as [j|] eqn:E; [|done]. specialize (H4 _ _ E). lia. }
  rewrite Z.mod_small by lia. split; [..|lia].
  - intros j k' c1 [(-> & -> & [= <-])|[_ Hj]]%put_client_Some; [by rewrite Hn, decide_True|].
    case_decide as Hd; [|eauto]. destruct Hd as [-> Hd]. specialize (H1 _ _ _ Hj). rewrite Hd in H1.
    assert (idx !! next = Some i) by (apply H3; eauto). congruence.
  - intros j n k'. case_decide as Hd.
    + destruct Hd as [-> ->]. intros [= <-]. exists c. by rewrite put_client_eq.
    + intros Hj. destruct (H2 _ _ _ Hj) as (c1 & Hc1 & Hi). exists c1. rewrite put_client_ne; [done|]. intros [-> ->]. congruence.
  - intros j n. rewrite lookup_insert_Some, H3. split.
    + intros [[<- <-]|[Hne [k' Hk']]]; [exists k; by rewrite decide_True|]. exists k'. by rewrite decide_False by naive_solver.
    + intros [k' Hk']. case_decide as Hd; [destruct Hd as [-> ->]; by left|]. right. split; [|eauto].
      intros ->. assert (idx !! n = Some j) by (apply H3; eauto). congruence.
  - intros n j. rewrite lookup_insert_Some. intros [[<- <-]|[_ Hj]]; [lia|]. specialize (H4 _ _ Hj). lia.
Qed.

(** A new guard for a new connection. *)
Lemma admissions_add C a i k c a' :
  admissions_inv C a -> C i k = None -> guards a !! guard c = None -> admissions_ok a' ->
  guards a' = <[guard c := source c]> (guards a) -> admissions_inv (put_client C i k (Some c)) a'.
Proof.
  intros [H1 H2 H3] Hk Hg Hok Ha. split; [done|..].
  - intros j k' c1 [(-> & -> & [= <-])|[Hne Hj]]%put_client_Some; rewrite Ha; [apply lookup_insert_eq|].
    rewrite lookup_insert_ne; [eauto|]. intros Heq. specialize (H2 _ _ _ Hj). congruence.
  - intros j k1 c1 j' k2 c2 [(-> & -> & [= <-])|[_ Hj]]%put_client_Some [(-> & -> & [= <-])|[_ Hj']]%put_client_Some; try done; intros Heq.
    + specialize (H2 _ _ _ Hj'). congruence.
    + specialize (H2 _ _ _ Hj). congruence.
    + eauto.
Qed.

Lemma with_limiter sys : sys_ok sys ->
  with_admissions (shared sys) {| limiter := limiter (source_admissions (shared sys));
    guards := guards (source_admissions (shared sys)) |} = shared sys.
Proof. intros _. unfold with_admissions. by destruct (shared sys) as [? ? ? []]. Qed.

Lemma set_shard_id sys i s : shards sys !! i = Some s -> set_shard sys i (shared sys) s = sys.
Proof. intros Hs. unfold set_shard. rewrite insert_id by done. by destruct sys. Qed.

(** Acquiring and dropping at once leaves the limiter as it was. *)
Lemma acquire_drop a ip l src :
  admissions_ok a -> try_acquire (limiter a) ip = (l, Some src) ->
  exists l', drop_admission l src = Ok l' /\ admissions_ok {| limiter := l'; guards := guards a |}.
Proof.
  intros Hok Ha. set (g := fresh (dom (guards a))). assert (guards a !! g = None) as Hg by (apply not_elem_of_dom, is_fresh).
  destruct (acquire_ok a ip l src g Hok Hg Ha) as [Hok' _].
  destruct (drop_ok _ g src Hok') as (l' & Hd & Hok2); [apply lookup_insert_eq|]. simpl in *.
  exists l'. split; [done|]. by rewrite delete_insert_id in Hok2.
Qed.

Lemma admissions_limiter C a l : admissions_inv C a -> admissions_ok {| limiter := l; guards := guards a |} ->
  admissions_inv C {| limiter := l; guards := guards a |}.
Proof. intros [H1 H2 H3] Hok. by split. Qed.

Lemma sys_limiter sys i s l :
  sys_ok sys -> shards sys !! i = Some s ->
  admissions_ok {| limiter := l; guards := guards (source_admissions (shared sys)) |} ->
  sys_ok (set_shard sys i (with_admissions (shared sys) {| limiter := l; guards := guards (source_admissions (shared sys)) |}) s).
Proof.
  intros Hok Hs Hl. assert (shards (set_shard sys i (with_admissions (shared sys) {| limiter := l;
    guards := guards (source_admissions (shared sys)) |}) s) = shards sys) as Hsh by (simpl; by rewrite insert_id).
  pose proof Hok as [H1 H2 H3 H4 H5 H6]. unfold clients, aliases, numbers in *.
  split; unfold clients, aliases, numbers; rewrite ?Hsh; try done. simpl. by apply admissions_limiter.
Qed.

Lemma sys_new sys i s scid c a' s' :
  sys_ok sys -> shards sys !! i = Some s -> connections s !! scid = None -> cid_shard (shared sys) !! scid = None ->
  next_conn_index (shared sys) < 2 ^ 64 - 1 ->
  server_connection_ids c = [scid] -> primary_connection_id_active c = true -> issued (quic c) = [scid] ->
  client_index c = next_conn_index (shared sys) -> scheduled_deadline c = None ->
  guards (source_admissions (shared sys)) !! guard c = None -> admissions_ok a' ->
  guards a' = <[guard c := source c]> (guards (source_admissions (shared sys))) ->
  shard_index s' = shard_index s -> connections s' = <[scid := c]> (connections s) ->
  connection_id_aliases s' = connection_id_aliases s ->
  conn_by_index s' = <[client_index c := scid]> (conn_by_index s) -> timers s' = timers s ->
  sys_ok (set_shard sys i {| cid_shard := <[scid := i]> (cid_shard (shared sys));
    index_shard := <[client_index c := i]> (index_shard (shared sys));
    next_conn_index := (client_index c + 1) mod 2 ^ 64; source_admissions := a' |} s').
Proof.
  intros Hok Hs Hnew Hcid Hnext Hids Hact Hiss Hidx Hdl Hg Hadm Hga Hsi Hconn Hal Hnum Htim.
  assert (clients sys i scid = None) as Hk by (by rewrite (clients_at _ _ _ _ Hs)).
  set (sh' := {| cid_shard := _ |}). set (sys' := set_shard sys i sh' s').
  assert (forall j k', clients sys' j k' = put_client (clients sys) i scid (Some c) j k') as HC
    by (intros; by eapply clients_set_shard).
  pose proof (so_numbers _ Hok) as Hn. split.
  - intros j s1. simpl. rewrite lookup_insert_Some. intros [[<- <-]|[_ Hj]]; [rewrite Hsi|]; by eapply so_index.
  - eapply ids_inv_ext; [exact HC| |apply (ids_new _ _ _ i scid c (so_ids _ Hok)); done]. intros j id. unfold aliases. simpl.
    destruct (decide (j = i)) as [->|Hne]; [by rewrite lookup_insert_eq, Hs; simpl; rewrite Hal|by rewrite lookup_insert_ne].
  - intros j k' c1. rewrite HC, put_client_Some. intros [(_ & _ & [= <-])|[_ Hj]]; [|by eapply so_coherent].
    unfold coherent. congruence.
  - simpl. eapply (numbers_inv_ext _ _ (fun j n => if decide (j = i /\ n = client_index c) then Some scid else numbers sys j n)); [exact HC| |].
    + intros j n. unfold numbers. simpl. destruct (decide (j = i)) as [->|Hne].
      * rewrite lookup_insert_eq, Hs. simpl. rewrite Hnum. destruct (decide (n = client_index c)) as [->|Hne'].
        -- by rewrite lookup_insert_eq, decide_True.
        -- rewrite lookup_insert_ne, decide_False by naive_solver. done.
      * rewrite lookup_insert_ne, decide_False by naive_solver. done.
    + rewrite Hidx. by apply numbers_new.
  - eapply admissions_inv_ext; [exact HC|]. by eapply admissions_add; [apply so_admissions| | | |].
  - intros j s1. simpl. rewrite lookup_insert_Some. intros [[<- <-]|[_ Hj]]; [|by eapply so_timers].
    destruct (so_timers _ Hok _ _ Hs) as [Hq Hd]. unfold timers_inv. rewrite Htim. split; [done|]. intros n. rewrite Hd.
    unfold deadline_of. rewrite Hnum, Hconn. destruct (decide (n = client_index c)) as [->|Hne].
    + rewrite lookup_insert_eq. simpl. rewrite lookup_insert_eq. simpl. rewrite Hdl.
      destruct (conn_by_index s !! client_index c) as [k'|] eqn:E; [|done].
      assert (index_shard (shared sys) !! client_index c = Some i) as Hin
        by (apply (nu_shard _ _ _ _ Hn); exists k'; unfold numbers; by rewrite Hs).
      pose proof (nu_bound _ _ _ _ Hn _ _ Hin). lia.
    + rewrite lookup_insert_ne by done. destruct (conn_by_index s !! n) as [k'|] eqn:E; [|done]. simpl.
      assert (k' <> scid); [|by rewrite lookup_insert_ne]. intros ->.
      destruct (nu_back _ _ _ _ Hn i n scid) as (c1 & Hc1 & _); [unfold numbers; by rewrite Hs|]. congruence.
Qed.

Lemma accept_connection_ok config m sys i s scid odcid from local :
  sys_ok sys -> shards sys !! i = Some s -> connections s !! scid = None -> cid_shard (shared sys) !! scid = None ->
  next_conn_index (shared sys) < 2 ^ 64 - 1 ->
  post (accept_connection config m (shared sys) s scid odcid from local) (fun '(sh', s', key) =>
    sys_ok (set_shard sys i sh' s') /\ (forall k, key = Some k -> k = scid /\ is_Some (connections s' !! k))).
Proof.
  intros Hok Hs Hnew Hcid Hnext. unfold accept_connection. pose proof (so_index _ Hok _ _ Hs) as Hi.
  case_bool_decide; [simpl; by rewrite set_shard_id|]. pose proof (ad_ok _ _ (so_admissions _ Hok)) as Hadm.
  destruct (try_acquire _ _) as [l [src|]] eqn:Ha.
  2: { rewrite (refuse_ok _ _ _ Hadm Ha), with_limiter by done. simpl. by rewrite set_shard_id. }
  unfold do. destruct (answer bool [] _) eqn:Hacc; cbn [negb fst snd].
  - set (g := fresh (dom (guards (source_admissions (shared sys))))).
    assert (guards (source_admissions (shared sys)) !! g = None) as Hg by (apply not_elem_of_dom, is_fresh).
    rewrite Hnew. cbn [replaced mbind result_bind].
    rewrite Hi. split; [|intros k [= <-]; split; [done|]; simpl; rewrite lookup_insert_eq; eauto].
    match goal with |- context [<[scid := ?c]> (connections s)] => apply (sys_new sys i s scid c) end; try done. by apply (acquire_ok _ (sock_ip from) l src g Hadm Hg Ha).
  - destruct (acquire_drop _ _ _ _ Hadm Ha) as (l' & -> & Hl'). cbn [mbind result_bind]. split; [|done].
    by apply sys_limiter.
Qed.
End operations.

Lemma numbers_remove C I idx next i k c :
  numbers_inv C I idx next -> C i k = Some c ->
  numbers_inv (put_client C i k None) (fun j n => if decide (j = i /\ n = client_index c) then None else I j n)
    (delete (client_index c) idx) next.
Proof.
  intros [H1 H2 H3 H4 H5] Hk. assert (idx !! client_index c = Some i) as Hi by (apply H3; eauto). split; [..|done].
  - intros j k' c1 [(_ & _ & [=])|[Hne Hj]]%put_client_Some. case_decide as Hd; [|eauto].
    destruct Hd as [-> Hd]. pose proof (H1 _ _ _ Hj) as E1. rewrite Hd, (H1 _ _ _ Hk) in E1. naive_solver.
  - intros j n k'. case_decide as Hd; [done|]. intros Hj. destruct (H2 _ _ _ Hj) as (c1 & Hc1 & Hn).
    exists c1. rewrite put_client_ne; [done|]. intros [-> ->]. naive_solver.
  - intros j n. rewrite lookup_delete_Some, H3. split.
    + intros [Hne [k' Hk']]. exists k'. by rewrite decide_False by naive_solver.
    + intros [k' Hk']. case_decide as Hd; [done|]. split; [|eauto]. intros <-.
      assert (idx !! client_index c = Some j) by (apply H3; eauto). naive_solver.
  - intros n j [_ Hj]%lookup_delete_Some. eauto.
Qed.

Lemma admissions_remove C a i k c a' :
  admissions_inv C a -> C i k = Some c -> admissions_ok a' -> guards a' = delete (guard c) (guards a) ->
  admissions_inv (put_client C i k None) a'.
Proof.
  intros [H1 H2 H3] Hk Hok Ha. split; [done|..].
  - intros j k' c1 [(_ & _ & [=])|[Hne Hj]]%put_client_Some. rewrite Ha, lookup_delete_ne; [eauto|].
    intros Heq. destruct (H3 _ _ _ _ _ _ Hk Hj Heq) as [-> ->]. tauto.
  - intros j k1 c1 j' k2 c2 [(_ & _ & [=])|[_ Hj]]%put_client_Some [(_ & _ & [=])|[_ Hj']]%put_client_Some. eauto.
Qed.

Lemma clients_delete sys i s s' k j k' sh :
  shards sys !! i = Some s -> connections s' = delete k (connections s) ->
  clients (set_shard sys i sh s') j k' = put_client (clients sys) i k None j k'.
Proof.
  intros Hs Hc. unfold clients, put_client, set_shard. simpl. destruct (decide (j = i)) as [->|Hne].
  - rewrite lookup_insert_eq, Hs. simpl. rewrite Hc. destruct (decide (k' = k)) as [->|Hk].
    + by rewrite lookup_delete_eq, decide_True.
    + rewrite lookup_delete_ne, decide_False by naive_solver. done.
  - rewrite lookup_insert_ne, decide_False by naive_solver. done.
Qed.

(** The deadlines of a shard after its connection [k] left. *)
Lemma deadline_delete s s' k c n :
  (forall n' k', conn_by_index s !! n' = Some k' -> exists c', connections s !! k' = Some c' /\ client_index c' = n') ->
  connections s !! k = Some c -> conn_by_index s' = delete (client_index c) (conn_by_index s) ->
  connections s' = delete k (connections s) ->
  deadline_of s' n = if decide (n = client_index c) then None else deadline_of s n.
Proof.
  intros Hback Hk Hn Hc. unfold deadline_of. rewrite Hn, Hc. case_decide as Hd.
  - subst n. by rewrite lookup_delete_eq.
  - rewrite lookup_delete_ne by done. destruct (conn_by_index s !! n) as [k'|] eqn:E; [|done]. simpl.
    rewrite lookup_delete_ne; [done|]. intros <-. destruct (Hback _ _ E) as (c' & Hc' & Hi). congruence.
Qed.

Section closing.
Context `{HQ : Quiche}.

Lemma numbers_at sys i s n k :
  sys_ok sys -> shards sys !! i = Some s -> conn_by_index s !! n = Some k ->
  exists c, connections s !! k = Some c /\ client_index c = n.
Proof.
  intros Hok Hs Hn. destruct (nu_back _ _ _ _ (so_numbers _ Hok) i n k) as (c & Hc & Hi).
  - unfold numbers. by rewrite Hs.
  - exists c. by rewrite <- (clients_at _ _ _ _ Hs).
Qed.

Lemma reap_ok sys i s n :
  sys_ok sys -> shards sys !! i = Some s ->
  post (reap (shared sys) s n) (fun '(sh', s') => sys_ok (set_shard sys i sh' s')).
Proof.
  intros Hok Hs. unfold reap. destruct (conn_by_index s !! n) as [k|] eqn:Hn; [|simpl; by rewrite set_shard_id].
  destruct (numbers_at _ _ _ _ _ Hok Hs Hn) as (c & Hc & Hi). rewrite Hc.
  destruct (negb _); [simpl; by rewrite set_shard_id|].
  assert (clients sys i k = Some c) as Hk by (by rewrite (clients_at _ _ _ _ Hs)).
  destruct (so_timers _ Hok _ _ Hs) as [Hq Hd]. pose proof (so_admissions _ Hok) as Hadm.
  destruct (cancel_spec (timers s) (client_index c) Hq) as (q' & -> & Hq' & Hd' & _). cbn [noerr mbind result_bind].
  destruct (drop_ok _ _ _ (ad_ok _ _ Hadm) (ad_guard _ _ Hadm _ _ _ Hk)) as (l & -> & Hl). cbn [mbind result_bind post].
  set (sh' := {| cid_shard := _ |}). set (s' := {| shard_index := _ |}).
  assert (forall j k', clients (set_shard sys i sh' s') j k' = put_client (clients sys) i k None j k') as HC
    by (intros; by eapply clients_delete).
  split.
  - intros j s1. simpl. rewrite lookup_insert_Some. intros [[<- <-]|[_ Hj]]; simpl; by eapply so_index.
  - eapply ids_inv_ext; [exact HC| |apply (ids_remove _ _ _ (aliases (set_shard sys i sh' s')) i k c (so_ids _ Hok) Hk)]; [done|].
    intros j id. unfold aliases. simpl. destruct (decide (j = i)) as [->|Hne].
    + rewrite lookup_insert_eq, Hs. simpl. rewrite lookup_foldr_delete. repeat case_decide; tauto.
    + rewrite lookup_insert_ne, decide_False by naive_solver. done.
  - intros j k' c1. rewrite HC, put_client_Some. intros [(_ & _ & [=])|[_ Hj]]. by eapply so_coherent.
  - simpl. eapply numbers_inv_ext; [exact HC| |apply (numbers_remove _ _ _ _ i k c (so_numbers _ Hok) Hk)].
    intros j n'. unfold numbers. simpl. destruct (decide (j = i)) as [->|Hne].
    + rewrite lookup_insert_eq, Hs. simpl. destruct (decide (n' = client_index c)) as [->|Hne'].
      * by rewrite lookup_delete_eq, decide_True.
      * rewrite lookup_delete_ne, decide_False by naive_solver. done.
    + rewrite lookup_insert_ne, decide_False by naive_solver. done.
  - eapply admissions_inv_ext; [exact HC|]. by eapply admissions_remove.
  - intros j s1. simpl. rewrite lookup_insert_Some. intros [[<- <-]|[_ Hj]]; [|by eapply so_timers].
    split; [done|]. intros n'. simpl. rewrite Hd'. rewrite (deadline_delete s s' k c n'); try done; [|intros; by eapply numbers_at].
    case_decide as He; [subst; by rewrite lookup_delete_eq|]. by rewrite lookup_delete_ne, Hd.
Qed.
End closing.

(** ** Wakeups *)

(** Two connections that differ at most in their wakeup. *)
Definition same_conn (c c' : Client) : Prop := exists d, c' = set_deadline c d.

Lemma same_conn_refl c : same_conn c c.
Proof. exists (scheduled_deadline c). by destruct c. Qed.

Lemma option_rel_Some {A} (R : A -> A -> Prop) x y b :
  option_Forall2 R x y -> y = Some b -> exists a, x = Some a /\ R a b.
Proof. intros [a b' HR|] E; simplify_eq. eauto. Qed.
Lemma option_rel_Some' {A} (R : A -> A -> Prop) x y a :
  option_Forall2 R x y -> x = Some a -> exists b, y = Some b /\ R a b.
Proof. intros [a' b HR|] E; simplify_eq. eauto. Qed.

(** Changing wakeups only keeps the tables right. *)
Lemma sys_deadlines sys i s s' :
  sys_ok sys -> shards sys !! i = Some s -> shard_index s' = shard_index s ->
  connection_id_aliases s' = connection_id_aliases s -> conn_by_index s' = conn_by_index s ->
  (forall k, option_Forall2 same_conn (connections s !! k) (connections s' !! k)) -> timers_inv s' ->
  sys_ok (set_shard sys i (shared sys) s').
Proof.
  intros [H1 H2 H3 H4 H5 H6] Hs Hi Hal Hnum Hconn Htim. set (sys' := set_shard _ _ _ _).
  assert (forall j k, option_Forall2 same_conn (clients sys j k) (clients sys' j k)) as HC.
  { intros j k. unfold clients. simpl. destruct (decide (j = i)) as [->|Hne].
    - rewrite lookup_insert_eq, Hs. simpl. apply Hconn.
    - rewrite lookup_insert_ne by done. destruct (shards sys !! j ≫= _) as [c|]; [constructor; apply same_conn_refl|constructor]. }
  assert (forall j id, aliases sys' j id = aliases sys j id) as HA.
  { intros j id. unfold aliases. simpl. destruct (decide (j = i)) as [->|Hne]; [by rewrite lookup_insert_eq, Hs; simpl; rewrite Hal|by rewrite lookup_insert_ne]. }
  assert (forall j n, numbers sys' j n = numbers sys j n) as HN.
  { intros j n. unfold numbers. simpl. destruct (decide (j = i)) as [->|Hne]; [by rewrite lookup_insert_eq, Hs; simpl; rewrite Hnum|by rewrite lookup_insert_ne]. }
  assert (forall j k c', clients sys' j k = Some c' -> exists c, clients sys j k = Some c /\ same_conn c c') as Hb
    by (intros j k c'; by apply option_rel_Some).
  assert (forall j k c, clients sys j k = Some c -> exists c', clients sys' j k = Some c' /\ same_conn c c') as Hf
    by (intros j k c; by apply option_rel_Some').
  split.
  - intros j s1. simpl. rewrite lookup_insert_Some. intros [[<- <-]|[_ Hj]]; [rewrite Hi|]; eauto.
  - destruct H2 as [G1 G2 G3 G4 G5]. split.
    + intros j k c' Hc'. destruct (Hb _ _ _ Hc') as (c & Hc & d & ->). simpl. eauto.
    + intros j k c' Hc'. destruct (Hb _ _ _ Hc') as (c & Hc & d & ->). simpl. eauto.
    + intros j id. simpl. rewrite G3. split; intros (k & c & Hc & Hid).
      * destruct (Hf _ _ _ Hc) as (c' & Hc' & d & ->). eexists k, _. split; [exact Hc'|done].
      * destruct (Hb _ _ _ Hc) as (c' & Hc' & d & ->). eauto.
    + intros j k1 c1 k2 c2 id Hc1 Hc2. destruct (Hb _ _ _ Hc1) as (c1' & Hc1' & d1 & ->).
      destruct (Hb _ _ _ Hc2) as (c2' & Hc2' & d2 & ->). simpl. eauto.
    + intros j id k. rewrite HA, G5. split; intros (c & Hc & Hid).
      * destruct (Hf _ _ _ Hc) as (c' & Hc' & d & ->). eexists. split; [exact Hc'|done].
      * destruct (Hb _ _ _ Hc) as (c' & Hc' & d & ->). eauto.
  - intros j k c' Hc'. destruct (Hb _ _ _ Hc') as (c & Hc & d & ->). by apply (H3 _ _ _ Hc).
  - destruct H4 as [G1 G2 G3 G4 G5]. split; try done.
    + intros j k c' Hc'. rewrite HN. destruct (Hb _ _ _ Hc') as (c & Hc & d & ->). simpl. eauto.
    + intros j n k. rewrite HN. intros Hn. destruct (G2 _ _ _ Hn) as (c & Hc & Hi'). destruct (Hf _ _ _ Hc) as (c' & Hc' & d & ->).
      eexists. split; [exact Hc'|done].
    + intros j n. simpl. rewrite G3. by setoid_rewrite HN.
  - destruct H5 as [G1 G2 G3]. split; [done|..].
    + intros j k c' Hc'. destruct (Hb _ _ _ Hc') as (c & Hc & d & ->). simpl. eauto.
    + intros j1 k1 c1 j2 k2 c2 Hc1 Hc2. destruct (Hb _ _ _ Hc1) as (c1' & Hc1' & d1 & ->).
      destruct (Hb _ _ _ Hc2) as (c2' & Hc2' & d2 & ->). simpl. eauto.
  - intros j s1. simpl. rewrite lookup_insert_Some. intros [[<- <-]|[_ Hj]]; [done|eauto].
Qed.

(** Firing a list of distinct numbers clears exactly their wakeups and marks
    their connections. *)
Lemma fire_all fired s :
  (forall n k, conn_by_index s !! n = Some k -> exists c, connections s !! k = Some c /\ client_index c = n) ->
  (forall n a, (n, a) ∈ fired -> deadline_of s n = Some a) -> NoDup (fired.*1) ->
  let s' := fold_left fire fired s in
  shard_index s' = shard_index s /\ connection_id_aliases s' = connection_id_aliases s /\
  conn_by_index s' = conn_by_index s /\ timers s' = timers s /\
  (forall k, option_Forall2 same_conn (connections s !! k) (connections s' !! k)) /\
  (forall n, deadline_of s' n = if decide (n ∈ fired.*1) then None else deadline_of s n) /\
  (forall n, n ∈ seen (dirty s') <-> n ∈ seen (dirty s) \/ n ∈ fired.*1).
Proof.
  revert s. induction fired as [|[n a] fired IH]; intros s Hback Hd Hnd; cbn [fold_left]; cbv zeta.
  - split_and!; try done; [|set_solver]. intros k. destruct (connections s !! k); constructor. apply same_conn_refl.
  - inversion Hnd as [|?? Hn Hnd']; subst. pose proof (Hd n a ltac:(set_solver)) as Hdn. unfold deadline_of in Hdn.
    destruct (conn_by_index s !! n) as [k|] eqn:Hk; [|done]. simpl in Hdn.
    destruct (Hback _ _ Hk) as (c & Hc & Hi). rewrite Hc in Hdn. simpl in Hdn.
    remember (fire s (n, a)) as s1 eqn:Hs1. unfold fire in Hs1. rewrite Hk, Hc, bool_decide_true in Hs1 by done.
    assert (forall n', deadline_of s1 n' = if decide (n' = n) then None else deadline_of s n') as Hd1.
    { intros n'. subst s1. unfold deadline_of. simpl. case_decide as Hnn.
      - subst n'. rewrite Hk. simpl. by rewrite lookup_insert_eq.
      - destruct (conn_by_index s !! n') as [k'|] eqn:Hk'; [|done]. simpl.
        rewrite lookup_insert_ne; [done|]. intros <-. destruct (Hback _ _ Hk') as (c' & Hc' & Hi'). congruence. }
    destruct (IH s1) as (I1 & I2 & I3 & I4 & I5 & I6 & I7).
    { intros n' k' Hk'. subst s1. simpl in *. destruct (Hback _ _ Hk') as (c' & Hc' & Hi'). destruct (decide (k' = k)) as [->|Hne].
      - rewrite lookup_insert_eq. exists (set_deadline c None). split; [done|]. simpl. congruence.
      - rewrite lookup_insert_ne by done. eauto. }
    { intros n' a' Hin. rewrite Hd1, decide_False; [apply Hd; set_solver|]. intros ->. apply Hn, list_elem_of_fmap. by exists (n, a'). }
    { done. }
    split_and!; [by rewrite I1, Hs1|by rewrite I2, Hs1|by rewrite I3, Hs1|by rewrite I4, Hs1|..].
    + intros k'. specialize (I5 k'). subst s1. simpl in I5. destruct (decide (k' = k)) as [->|Hne].
      * rewrite lookup_insert_eq in I5. rewrite Hc. destruct (option_rel_Some' _ _ _ _ I5 eq_refl) as (c' & -> & d & ->).
        constructor. by exists d.
      * by rewrite lookup_insert_ne in I5 by done.
    + intros n'. rewrite I6, Hd1, fmap_cons. simpl. repeat case_decide; set_solver.
    + intros n'. rewrite I7. subst s1. simpl. unfold mark. case_bool_decide; simpl; set_solver.
Qed.

Lemma expire_connection_timers_ok sys i s t :
  sys_ok sys -> shards sys !! i = Some s ->
  exists s', expire_connection_timers s t = Ok s' /\ sys_ok (set_shard sys i (shared sys) s') /\
    (forall n at_, deadline_of s n = Some at_ -> at_ <= t -> n ∈ seen (dirty s') /\ deadline_of s' n = None) /\
    (forall n at_, deadline_of s' n = Some at_ -> t < at_).
Proof.
  intros Hok Hs. destruct (so_timers _ Hok _ _ Hs) as [Hq Hd]. unfold expire_connection_timers.
  destruct (expire_spec (timers s) t Hq) as (q' & fired & -> & (Hq' & Hsplit & Hnd & _ & Hf) & Hlate). simpl in *.
  set (s0 := {| shard_index := shard_index s |}).
  assert (forall n a, (n, a) ∈ fired -> deadline_of s0 n = Some a) as Hfd.
  { intros n a Hin. change (deadline_of s n = Some a). rewrite <- Hd. apply Hsplit. by right. }
  assert (NoDup fired.*1) as Hnd1.
  { apply NoDup_fmap_fst; [|done]. intros n a b Ha%Hfd Hb%Hfd. congruence. }
  destruct (fire_all fired s0) as (I1 & I2 & I3 & I4 & I5 & I6 & I7); try done.
  { intros n k Hn. by eapply (numbers_at sys i s). }
  set (s' := fold_left fire fired s0) in *. exists s'.
  assert (timers_inv s') as Htim.
  { unfold timers_inv. rewrite I4. split; [done|]. intros n. simpl. rewrite I6. case_decide as Hin.
    - apply list_elem_of_fmap in Hin as ([n' a] & -> & Hin). by destruct (Hf _ _ Hin) as (_ & ? & _).
    - change (deadline_of s0 n) with (deadline_of s n). rewrite <- Hd. apply option_eq. intros a. rewrite Hsplit.
      split; [by left|]. intros [Ha|Ha]; [done|]. destruct Hin. apply list_elem_of_fmap. by exists (n, a). }
  split_and!; [done|by apply (sys_deadlines sys i s)|..].
  - intros n at_ Hn Hle. assert ((n, at_) ∈ fired) as Hin.
    { rewrite <- Hd in Hn. apply Hsplit in Hn as [Hn|Hn]; [|done]. apply Hlate in Hn. lia. }
    assert (n ∈ fired.*1) by (apply list_elem_of_fmap; by exists (n, at_)).
    rewrite I7, I6, decide_True by done. split; [by right|done].
  - intros n at_ Hn. destruct Htim as [_ Htim]. rewrite <- Htim, I4 in Hn. eauto.
Qed.

Lemma reschedule_ok sys i s k c d :
  sys_ok sys -> shards sys !! i = Some s -> connections s !! k = Some c ->
  exists q c', reschedule (timers s) c d = Ok (q, c') /\ scheduled_deadline c' = d /\
    sys_ok (set_shard sys i (shared sys)
      {| shard_index := shard_index s; reuseport_index := reuseport_index s; connections := <[k := c']> (connections s);
         connection_id_aliases := connection_id_aliases s; conn_by_index := conn_by_index s; dirty := dirty s; timers := q |}).
Proof.
  intros Hok Hs Hc. destruct (so_timers _ Hok _ _ Hs) as [Hq Hd]. unfold reschedule.
  assert (conn_by_index s !! client_index c = Some k) as Hn.
  { pose proof (nu_conn _ _ _ _ (so_numbers _ Hok) i k c) as H. unfold clients, numbers in H. rewrite Hs in H. by apply H. }
  assert (forall q' c', same_conn c c' -> queue_ok q' -> scheduled_deadline c' = d ->
    (forall n, deadlines q' !! n = if decide (n = client_index c) then d else deadlines (timers s) !! n) ->
    sys_ok (set_shard sys i (shared sys)
      {| shard_index := shard_index s; reuseport_index := reuseport_index s; connections := <[k := c']> (connections s);
         connection_id_aliases := connection_id_aliases s; conn_by_index := conn_by_index s; dirty := dirty s; timers := q' |})) as Hput.
  { intros q' c' Hsame Hq' Hc' Hdl. apply (sys_deadlines sys i s); try done.
    - intros k'. simpl. destruct (decide (k' = k)) as [->|Hne].
      + rewrite lookup_insert_eq, Hc. by constructor.
      + rewrite lookup_insert_ne by done. destruct (connections s !! k'); constructor. apply same_conn_refl.
    - split; [done|]. intros n. simpl. rewrite Hdl. unfold deadline_of. simpl. case_decide as He.
      + subst n. rewrite Hn. simpl. by rewrite lookup_insert_eq.
      + rewrite Hd. unfold deadline_of. destruct (conn_by_index s !! n) as [k'|] eqn:Hk'; [|done]. simpl.
        rewrite lookup_insert_ne; [done|]. intros <-. destruct (numbers_at _ _ _ _ _ Hok Hs Hk') as (c2 & Hc2 & Hi2). congruence. }
  case_bool_decide as Heq.
  - exists (timers s), c. split_and!; [done|done|]. apply Hput; [apply same_conn_refl|done|done|].
    intros n. case_decide as He; [|done]. subst n. rewrite Hd. unfold deadline_of. rewrite Hn. simpl. by rewrite Hc.
  - destruct d as [at_|].
    + destruct (schedule_spec (timers s) (client_index c) at_ Hq) as (q' & -> & Hq' & Hdl).
      exists q', (set_deadline c (Some at_)). split_and!; [done|done|]. apply Hput; [by eexists|done|done|].
      intros n. rewrite Hdl. case_decide; [subst; apply lookup_insert_eq|by apply lookup_insert_ne].
    + destruct (cancel_spec (timers s) (client_index c) Hq) as (q' & -> & Hq' & Hdl & _).
      exists q', (set_deadline c None). split_and!; [done|done|]. apply Hput; [by eexists|done|done|].
      intros n. rewrite Hdl. case_decide; [subst; apply lookup_delete_eq|by apply lookup_delete_ne].
Qed.

(** ** Packets *)

Section packets.
Context `{HQ : Quiche} (work : conn -> nat) `{HL : !CidLaws work}.
Context (from_slice : bytes -> option Hdr) (version_is_supported : Z -> bool)
  (negotiate_version : bytes -> bytes -> option bytes)
  (retry_packet : bytes -> bytes -> bytes -> bytes -> Z -> option bytes)
  (hmac_sign : bytes -> bytes) (spki : bytes -> option bytes) (encode : bytes -> bytes)
  `{HA : Aead} (max_conn_id_len : nat) (ttl : Z) (config : Settings) (m : Moment).
(** The packets the library writes are not empty. *)
Hypothesis negotiate_nonempty : forall a b p, negotiate_version a b = Some p -> 0 < zlen p.
Hypothesis retry_nonempty : forall a b c t v p, retry_packet a b c t v = Some p -> 0 < zlen p.

Definition out_ok (out : Output) : Prop := exists ps, batch_holds (udp_gso m) (stateless_batch out) ps.

(** The key of a connection whose peer has retired it. *)
Definition retired_key (s : Shard) (id : list Z) : bool :=
  match connections s !! id with Some c => negb (primary_connection_id_active c) | None => false end.

(** A replay: an Initial whose Retry token is still accepted and made the id of a
    live connection of this shard, after the peer has retired that id.  It is
    the one kind of packet the tables do not survive. *)
Definition replays (s : Shard) (buf : bytes) (from local : SocketAddr) : bool :=
  match from_slice buf with
  | None => false
  | Some hdr =>
      hdr_initial hdr && retired_key s (hdr_dcid hdr) && negb (bool_decide (retry_mode config = Off)) &&
      match validate max_conn_id_len ttl from local (default [] (hdr_token hdr)) (token_clock m) with
      | Some odcid => bool_decide (derive_connection_id hmac_sign s odcid = hdr_dcid hdr)
      | None => false
      end
  end.

Lemma stateless_ok out at_ p from to_ :
  out_ok out -> 0 < zlen p -> exists out', queue_stateless_packet (udp_gso m) at_ p from to_ out = Ok out' /\ out_ok out'.
Proof.
  intros [ps Hb] Hp. unfold queue_stateless_packet.
  destruct (push_holds (udp_gso m) (stateless_batch out) ps p {| info_from := from; info_to := to_; info_at := at_ |}
    MAX_DATAGRAM_SIZE Hb Hp) as (b & -> & Hb'). eexists. split; [done|]. by eexists.
Qed.

Lemma mint_total n t from local d : mint max_conn_id_len n t from local d <> Panic.
Proof.
  unfold mint. destruct (negb _); [done|]. destruct n as [n|]; [|done]. simpl. by destruct (seal _ _ _).
Qed.

Lemma route_initial_ok sys i s out hdr buf from local :
  sys_ok sys -> shards sys !! i = Some s -> out_ok out -> next_conn_index (shared sys) < 2 ^ 64 - 1 ->
  (retry_mode config = Off \/ connections s !! hdr_dcid hdr = None \/
   forall odcid, validate max_conn_id_len ttl from local (default [] (hdr_token hdr)) (token_clock m) = Some odcid ->
     derive_connection_id hmac_sign s odcid <> hdr_dcid hdr) -> cid_shard (shared sys) !! hdr_dcid hdr = None ->
  post (route_initial version_is_supported negotiate_version retry_packet hmac_sign max_conn_id_len ttl config m
      (shared sys) s out hdr buf from local) (fun '(sh', s', out', key) =>
    sys_ok (set_shard sys i sh' s') /\ out_ok out' /\ (forall k, key = Some k -> is_Some (connections s' !! k))).
Proof using negotiate_nonempty retry_nonempty.
  intros Hok Hs Hout Hnext Hfresh Hfree. pose proof (set_shard_id _ _ _ Hs) as Hid.
  assert (forall o', out_ok o' -> sys_ok (set_shard sys i (shared sys) s) /\ out_ok o' /\
    (forall k, @None (list Z) = Some k -> is_Some (connections s !! k))) as Hstay by (intros; rewrite Hid; by split_and!).
  unfold route_initial. case_bool_decide; [by apply Hstay|].
  destruct (negb _).
  { destruct (negotiate_version _ _) as [p|] eqn:Hn; [|by apply Hstay].
    destruct (stateless_ok out (clock m) p local from Hout) as (out' & -> & Ho'); [by eapply negotiate_nonempty|]. by apply Hstay. }
  set (derived := derive_connection_id _ _ _). case_bool_decide as Hin.
  { simpl. rewrite Hid. split_and!; try done. by intros k [= <-]. }
  assert (connections s !! derived = None) as Hnew by (destruct (connections s !! derived); [by destruct Hin|done]).
  destruct (cid_shard (shared sys) !! derived) as [owner|] eqn:Hown; [apply Hstay; by case_bool_decide|].
  set (token := default [] _). destruct (bool_decide (token = []) && _).
  { pose proof (mint_total (nonce m) (token_clock m) from local (hdr_dcid hdr)) as Hmint.
    destruct (mint _ _ _ _ _ _) as [t|[]|]; [|by apply Hstay|done].
    destruct (retry_packet _ _ _ _ _) as [p|] eqn:Hr; [|by apply Hstay].
    destruct (stateless_ok out (clock m) p local from Hout) as (out' & -> & Ho'); [by eapply retry_nonempty|]. by apply Hstay. }
  assert (forall scid odcid, connections s !! scid = None -> cid_shard (shared sys) !! scid = None ->
    post (r ← accept_connection config m (shared sys) s scid odcid from local; let '(sh', s', key) := r in Ok (sh', s', out, key))
      (fun '(sh', s', out', key) => sys_ok (set_shard sys i sh' s') /\ out_ok out' /\
        (forall k, key = Some k -> is_Some (connections s' !! k)))) as Hacc.
  { intros scid odcid H1 H2. apply post_bind. eapply post_mono; [by apply (accept_connection_ok config m sys i s scid odcid from local)|].
    intros [[sh' s'] key] [H3 H4]. simpl. split_and!; try done. intros k Hk. by apply H4. }
  destruct (_ || _) eqn:Hor; [by apply Hacc|].
  destruct (validate _ _ _ _ _ _) as [odcid|] eqn:Hval; [|by apply Hstay].
  destruct (bool_decide (derive_connection_id _ _ odcid = _)) eqn:Hder; [apply bool_decide_eq_true in Hder|by apply Hstay].
  apply Hacc; [|done]. destruct Hfresh as [Hoff|[|Hno]]; [|done|by destruct (Hno odcid)].
  apply orb_false_iff in Hor as [_ Hor]. rewrite bool_decide_true in Hor by done. done.
Qed.

Lemma route_packet_ok sys i s out hdr buf from local :
  sys_ok sys -> shards sys !! i = Some s -> out_ok out -> next_conn_index (shared sys) < 2 ^ 64 - 1 ->
  from_slice buf = Some hdr -> replays s buf from local = false ->
  post (route_packet version_is_supported negotiate_version retry_packet hmac_sign max_conn_id_len ttl config m
      (shared sys) s out hdr buf from local) (fun '(sh', s', out', key) =>
    sys_ok (set_shard sys i sh' s') /\ out_ok out' /\ (forall k, key = Some k -> is_Some (connections s' !! k))).
Proof using negotiate_nonempty retry_nonempty.
  intros Hok Hs Hout Hnext Hh Hret. pose proof (set_shard_id _ _ _ Hs) as Hid. unfold route_packet.
  destruct (match connections s !! hdr_dcid hdr with Some c => _ | None => _ end) eqn:Hact.
  { simpl. rewrite Hid. split_and!; try done. intros k [= <-]. destruct (connections s !! hdr_dcid hdr); [by eexists|done]. }
  destruct (connection_id_aliases s !! hdr_dcid hdr) as [key|] eqn:Hal.
  { simpl. rewrite Hid. split_and!; try done. intros k [= <-].
    destruct (proj1 (ids_alias _ _ _ (so_ids _ Hok) i (hdr_dcid hdr) key)) as (c & Hc & _); [unfold aliases; by rewrite Hs|].
    rewrite (clients_at _ _ _ _ Hs) in Hc. by eexists. }
  destruct (cid_shard (shared sys) !! hdr_dcid hdr) as [owner|] eqn:Hown.
  { simpl. rewrite Hid. split_and!; try done. by case_bool_decide. }
  destruct (hdr_initial hdr) eqn:Hinit; cbn [negb]; [|simpl; rewrite Hid; by split_and!]. apply route_initial_ok; try done.
  unfold replays, retired_key in Hret. rewrite Hh, Hinit in Hret. destruct (connections s !! hdr_dcid hdr) as [c|]; [|by right; left].
  rewrite Hact in Hret. case_bool_decide as Hoff; [by left|]. right. right. intros odcid Hval. rewrite Hval in Hret.
  cbn in Hret. by case_bool_decide.
Qed.

Lemma handle_packet_ok sys i s out buf from local :
  sys_ok sys -> shards sys !! i = Some s -> out_ok out -> next_conn_index (shared sys) < 2 ^ 64 - 1 ->
  replays s buf from local = false ->
  post (handle_packet work from_slice version_is_supported negotiate_version retry_packet hmac_sign spki encode
      max_conn_id_len ttl config m (shared sys) s out buf from local) (fun '(sh', s', out', _) =>
    sys_ok (set_shard sys i sh' s') /\ out_ok out').
Proof using All.
  intros Hok Hs Hout Hnext Hret. unfold handle_packet. destruct (from_slice buf) as [hdr|] eqn:Hh.
  2: { simpl. by rewrite set_shard_id. }
  apply post_bind. eapply post_mono; [apply (route_packet_ok sys i s out hdr buf from local); eauto|].
  intros [[[sh1 s1] out1] [key|]] (H1 & H2 & H3); [|by split].
  apply post_bind. eapply post_mono.
  { apply (deliver_ok work spki encode config (set_shard sys i sh1 s1) i s1 key buf from local H1); [apply lookup_insert_eq|].
    by apply H3. }
  intros [[sh2 s2] polled] H4. simpl. split; [|done]. unfold set_shard in *. simpl in H4. by rewrite insert_insert_eq in H4.
Qed.
End packets.
