(* ===== verification/IngressProps.v ===== *)
(** * What QUIC ingress guarantees

    The runs of a listener over the operations of [Ingress], the invariant of
    [IngressInv] along them, and its consequences: where packets go, when a
    connection is created, which shard a new id steers to, that no wakeup is
    lost; and the run that breaks the tables when a retired id is replayed. *)

From stdpp Require Import list gmap.
From S2P Require Import Prelude Net ClientIdentity Scheduler Admission Retry TargetUdp Quiche QuicBatch Ingress IngressInv.
Open Scope Z_scope.

Section runs.
Context `{HQ : Quiche} (work : conn -> nat).
Context (from_slice : bytes -> option Hdr) (version_is_supported : Z -> bool)
  (negotiate_version : bytes -> bytes -> option bytes)
  (retry_packet : bytes -> bytes -> bytes -> bytes -> Z -> option bytes)
  (hmac_sign : bytes -> bytes) (spki : bytes -> option bytes) (encode : bytes -> bytes)
  `{HA : Aead} (max_conn_id_len : nat) (ttl : Z) (config : Settings).

(** One operation of a shard.  A packet must not be a replay, for which
    [retired_replay_panics] shows what goes wrong; other handlers change a connection without touching its ids,
    its number, its admission or its wakeup, or mark connections; other
    transports take and drop admissions of their own, and take numbers. *)
Inductive ingress_step : System -> System -> Prop :=
| step_packet sys i s m out buf from local sh' s' out' polled :
    shards sys !! i = Some s -> out_ok m out -> next_conn_index (shared sys) < 2 ^ 64 - 1 ->
    replays from_slice hmac_sign max_conn_id_len ttl config m s buf from local = false ->
    handle_packet work from_slice version_is_supported negotiate_version retry_packet hmac_sign spki encode
      max_conn_id_len ttl config m (shared sys) s out buf from local = Ok (sh', s', out', polled) ->
    ingress_step sys (set_shard sys i sh' s')
| step_work sys i s k c c' :
    shards sys !! i = Some s -> connections s !! k = Some c -> keeps c c' ->
    server_connection_ids c' = server_connection_ids c ->
    primary_connection_id_active c' = primary_connection_id_active c -> issued (quic c') = issued (quic c) ->
    ingress_step sys (set_shard sys i (shared sys) (with_connections s (<[k := c']> (connections s))))
| step_reap sys i s n sh' s' :
    shards sys !! i = Some s -> reap (shared sys) s n = Ok (sh', s') -> ingress_step sys (set_shard sys i sh' s')
| step_expire sys i s t s' :
    shards sys !! i = Some s -> expire_connection_timers s t = Ok s' ->
    ingress_step sys (set_shard sys i (shared sys) s')
| step_reschedule sys i s k c d q c' :
    shards sys !! i = Some s -> connections s !! k = Some c -> reschedule (timers s) c d = Ok (q, c') ->
    ingress_step sys (set_shard sys i (shared sys)
      {| shard_index := shard_index s; reuseport_index := reuseport_index s; connections := <[k := c']> (connections s);
         connection_id_aliases := connection_id_aliases s; conn_by_index := conn_by_index s; dirty := dirty s; timers := q |})
| step_mark sys i s d :
    shards sys !! i = Some s -> ingress_step sys (set_shard sys i (shared sys) (with_dirty s d))
| step_other sys a :
    admission_step (source_admissions (shared sys)) a ->
    (forall i k c, clients sys i k = Some c -> guards a !! guard c = Some (source c)) ->
    ingress_step sys {| shared := with_admissions (shared sys) a; shards := shards sys |}
| step_number sys :
    next_conn_index (shared sys) < 2 ^ 64 - 1 ->
    ingress_step sys {| shared := (take_number (shared sys)).2; shards := shards sys |}.

(** A listener before its first packet. *)
Definition system_new (n : nat) (max : nat) (reuseport : bool) : System :=
  {| shared := {| cid_shard := ∅; index_shard := ∅; next_conn_index := 0; source_admissions := admissions_new max |};
     shards := list_to_map (map (fun i => (i,
       {| shard_index := i; reuseport_index := if reuseport then Some (Z.of_nat i) else None; connections := ∅;
          connection_id_aliases := ∅; conn_by_index := ∅; dirty := dirty_new; timers := queue_new |})) (seq 0 n)) |}.

(** The states of a listener that meets no replay. *)
Definition ingress_reachable (n max : nat) (reuseport : bool) (sys : System) : Prop :=
  rtc ingress_step (system_new n max reuseport) sys.

Lemma new_shard n max r i s :
  shards (system_new n max r) !! i = Some s ->
  shard_index s = i /\ connections s = ∅ /\ connection_id_aliases s = ∅ /\ conn_by_index s = ∅ /\ timers s = queue_new.
Proof.
  intros Hs. apply elem_of_list_to_map_2, list_elem_of_In, in_map_iff in Hs as (j & [= <- <-] & _). done.
Qed.

Lemma queue_new_ok : queue_ok queue_new.
Proof. split; [|done]. intros i k. simpl. rewrite lookup_empty. split; [done|by intros [? ?]]. Qed.

Lemma system_new_ok n max r : (0 < max)%nat -> sys_ok (system_new n max r).
Proof.
  intros Hmax.
  assert (forall i k, clients (system_new n max r) i k = None) as HC.
  { intros i k. unfold clients. destruct (shards _ !! i) as [s|] eqn:Hs; [|done]. simpl. apply new_shard in Hs as (_ & -> & _).
    apply lookup_empty. }
  assert (forall i id, aliases (system_new n max r) i id = None) as HAl.
  { intros i id. unfold aliases. destruct (shards _ !! i) as [s|] eqn:Hs; [|done]. simpl. apply new_shard in Hs as (_ & _ & -> & _).
    apply lookup_empty. }
  assert (forall i k, numbers (system_new n max r) i k = None) as HN.
  { intros i k. unfold numbers. destruct (shards _ !! i) as [s|] eqn:Hs; [|done]. simpl. apply new_shard in Hs as (_ & _ & _ & -> & _).
    apply lookup_empty. }
  split.
  - intros i s Hs. by apply new_shard in Hs as [-> _].
  - split.
    + intros i k c. by rewrite HC.
    + intros i k c. by rewrite HC.
    + intros i id. simpl. rewrite lookup_empty. split; [done|]. intros (k & c & Hc & _). by rewrite HC in Hc.
    + intros i k1 c1 k2 c2 id. by rewrite HC.
    + intros i id k. rewrite HAl. split; [done|]. intros (c & Hc & _). by rewrite HC in Hc.
  - intros i k c. by rewrite HC.
  - split; [..|simpl; lia].
    + intros i k c. by rewrite HC.
    + intros i k c. by rewrite HN.
    + intros i k. simpl. rewrite lookup_empty. split; [done|]. intros (c & Hc). by rewrite HN in Hc.
    + intros k i. simpl. by rewrite lookup_empty.
  - split; [by apply (reachable_admissions_ok max _ Hmax), rtc_refl| |].
    + intros i k c. by rewrite HC.
    + intros i1 k1 c1 i2 k2 c2. by rewrite HC.
  - intros i s Hs. apply new_shard in Hs as (_ & Hc & _ & Hn & Ht). unfold timers_inv, deadline_of. rewrite Ht, Hc, Hn.
    split; [apply queue_new_ok|]. intros k. by rewrite lookup_empty.
Qed.

Context `{HL : !CidLaws work}.
Hypothesis negotiate_nonempty : forall a b p, negotiate_version a b = Some p -> 0 < zlen p.
Hypothesis retry_nonempty : forall a b c t v p, retry_packet a b c t v = Some p -> 0 < zlen p.

Lemma ingress_step_ok sys sys' : sys_ok sys -> ingress_step sys sys' -> sys_ok sys'.
Proof using All.
  intros Hok Hst. destruct Hst as [sys i s m out buf from local sh' s' out' polled Hs Ho Hn Hr Hp
    |sys i s k c c' Hs Hc Hk Hids Hact Hiss|sys i s n sh' s' Hs Hp|sys i s t s' Hs Hp|sys i s k c d q c' Hs Hc Hp|sys i s d Hs|sys a Ha Hg|sys Hlt].
  - pose proof (handle_packet_ok work from_slice version_is_supported negotiate_version retry_packet hmac_sign spki encode
      max_conn_id_len ttl config m negotiate_nonempty retry_nonempty sys i s out buf from local Hok Hs Ho Hn Hr) as H.
    rewrite Hp in H. by destruct H.
  - assert (sys_at sys i k c (shared sys) (connection_id_aliases s) c') as Hat
      by (eapply sys_at_same; [by apply (sys_at_start sys i s k c)|done..]).
    by apply (sys_at_end sys i s k c _ _ _ _ Hok Hs Hc Hat).
  - pose proof (reap_ok sys i s n Hok Hs) as H. by rewrite Hp in H.
  - destruct (expire_connection_timers_ok sys i s t Hok Hs) as (s1 & E & H & _). rewrite Hp in E. by injection E as ->.
  - destruct (reschedule_ok sys i s k c d Hok Hs Hc) as (q1 & c1 & E & _ & H). rewrite Hp in E. by injection E as -> ->.
  - apply (sys_deadlines sys i s); try done; [|exact (so_timers _ Hok i s Hs)].
    intros k. simpl. destruct (connections s !! k); constructor. apply same_conn_refl.
  - destruct Hok as [H1 H2 H3 H4 [G1 G2 G3] H6]. split; try done. split; [by eapply admission_step_ok|exact Hg|exact G3].
  - destruct Hok as [H1 H2 H3 [G1 G2 G3 G4 G5] H5 H6]. split; try done. unfold take_number. cbn. rewrite Z.mod_small by lia.
    split; try done; [|lia]. intros n i Hi. apply G4 in Hi. lia.
Qed.

Lemma ingress_reachable_ok n max r sys : (0 < max)%nat -> ingress_reachable n max r sys -> sys_ok sys.
Proof using All.
  intros Hmax Hr. assert (sys_ok (system_new n max r)) as H0 by (by apply system_new_ok).
  unfold ingress_reachable in Hr. revert H0. induction Hr; eauto using ingress_step_ok.
Qed.

(** Where a packet with an id of a live connection goes. *)
Lemma route_live m sys i s out hdr buf from local j k c :
  sys_ok sys -> shards sys !! i = Some s -> clients sys j k = Some c -> hdr_dcid hdr ∈ server_connection_ids c ->
  route_packet version_is_supported negotiate_version retry_packet hmac_sign max_conn_id_len ttl config m
      (shared sys) s out hdr buf from local
  = if decide (j = i) then Ok (shared sys, s, out, Some k)
    else Ok (shared sys, s, queue_forward_packet j buf from out, None).
Proof.
  intros Hok Hs Hc Hid. pose proof (so_ids _ Hok) as Hi. pose proof (so_index _ Hok _ _ Hs) as Hsi.
  assert (cid_shard (shared sys) !! hdr_dcid hdr = Some j) as Hown by (apply (ids_owner _ _ _ Hi); eauto).
  assert (forall k' c', clients sys i k' = Some c' -> hdr_dcid hdr ∈ server_connection_ids c' -> j = i /\ k' = k) as Huniq.
  { intros k' c' Hc' Hin. assert (cid_shard (shared sys) !! hdr_dcid hdr = Some i) as E by (apply (ids_owner _ _ _ Hi); eauto).
    assert (j = i) as -> by congruence. split; [done|]. by eapply (ids_unique _ _ _ Hi). }
  assert (forall c', connections s !! hdr_dcid hdr = Some c' -> primary_connection_id_active c' = true ->
    j = i /\ hdr_dcid hdr = k) as Hprim.
  { intros c' Hc' Ha. rewrite <- (clients_at _ _ _ _ Hs) in Hc'. apply (Huniq _ _ Hc').
    pose proof (ids_primary _ _ _ Hi _ _ _ Hc' Ha) as Hp. destruct (server_connection_ids c'); simplify_eq/=. set_solver. }
  unfold route_packet. destruct (decide (j = i)) as [->|Hne].
  - rewrite (clients_at _ _ _ _ Hs) in Hc.
    assert (clients sys i k = Some c) as Hck by (by rewrite (clients_at _ _ _ _ Hs)).
    destruct (ids_cases _ _ _ i k c _ Hi Hck Hid) as [[-> Hact]|Hin]; [by rewrite Hc, Hact|].
    assert (connection_id_aliases s !! hdr_dcid hdr = Some k) as ->.
    { assert (aliases sys i (hdr_dcid hdr) = Some k) as E
        by (apply (ids_alias _ _ _ Hi); exists c; by rewrite (clients_at _ _ _ _ Hs)).
      unfold aliases in E. by rewrite Hs in E. }
    destruct (connections s !! hdr_dcid hdr) as [c'|] eqn:Hd; [|done].
    destruct (primary_connection_id_active c') eqn:Ha; [|done]. destruct (Hprim c' eq_refl Ha) as [_ E].
    by rewrite E.
  - assert (connection_id_aliases s !! hdr_dcid hdr = None) as ->.
    { destruct (connection_id_aliases s !! hdr_dcid hdr) as [key|] eqn:Hal; [|done].
      destruct (proj1 (ids_alias _ _ _ Hi i (hdr_dcid hdr) key)) as (c2 & Hc2 & Hin); [unfold aliases; by rewrite Hs|].
      destruct (Huniq key c2 Hc2 (alias_ids_sub _ _ Hin)). done. }
    rewrite Hown, Hsi, bool_decide_false by done.
    destruct (connections s !! hdr_dcid hdr) as [c'|] eqn:Hd; [|done].
    destruct (primary_connection_id_active c') eqn:Ha; [|done]. by destruct (Hprim c' eq_refl Ha).
Qed.
End runs.

Section guarantees.
Context `{HQ : Quiche} (work : conn -> nat) `{HL : !CidLaws work}.
Context (from_slice : bytes -> option Hdr) (version_is_supported : Z -> bool)
  (negotiate_version : bytes -> bytes -> option bytes)
  (retry_packet : bytes -> bytes -> bytes -> bytes -> Z -> option bytes)
  (hmac_sign : bytes -> bytes) (spki : bytes -> option bytes) (encode : bytes -> bytes)
  `{HA : Aead} (max_conn_id_len : nat) (ttl : Z) (config : Settings).
Hypothesis negotiate_nonempty : forall a b p, negotiate_version a b = Some p -> 0 < zlen p.
Hypothesis retry_nonempty : forall a b c t v p, retry_packet a b c t v = Some p -> 0 < zlen p.

Abbreviation reachable := (ingress_reachable work from_slice version_is_supported negotiate_version retry_packet hmac_sign
  spki encode max_conn_id_len ttl config).

(** C14: Packets reach the connection that owns their id.  Scope: a listener
    whose shards handle packets, expiries and removals one after another, that has
    given out fewer than 2^64 - 1 numbers and has met no replay ([replays]: an
    Initial whose Retry token is still valid and made the id of a live connection
    that the peer has since retired; [retired_replay_panics] shows what one does).
    In every state such a listener reaches, a packet whose destination id is any id
    issued to a live connection and not retired reaches that connection: the shard
    that owns it delivers it to the connection's key, every other shard forwards it
    to the owner and changes nothing.  Handling any packet that is not a replay,
    packets that name retired ids included, reaping and expiring never panic. *)
Theorem ingress_delivery n max r sys i s :
  (0 < max)%nat -> reachable n max r sys -> shards sys !! i = Some s ->
  (forall m out hdr buf from local j k c, clients sys j k = Some c -> hdr_dcid hdr ∈ server_connection_ids c ->
     route_packet version_is_supported negotiate_version retry_packet hmac_sign max_conn_id_len ttl config m
       (shared sys) s out hdr buf from local
     = if decide (j = i) then Ok (shared sys, s, out, Some k)
       else Ok (shared sys, s, queue_forward_packet j buf from out, None)) /\
  (forall m out buf from local, out_ok m out -> next_conn_index (shared sys) < 2 ^ 64 - 1 ->
     replays from_slice hmac_sign max_conn_id_len ttl config m s buf from local = false ->
     handle_packet work from_slice version_is_supported negotiate_version retry_packet hmac_sign spki encode
       max_conn_id_len ttl config m (shared sys) s out buf from local <> Panic) /\
  (forall index, reap (shared sys) s index <> Panic) /\ (forall t, expire_connection_timers s t <> Panic).
Proof using All.
  intros Hmax Hr Hs.
  assert (sys_ok sys) as Hok by (by apply (ingress_reachable_ok work from_slice version_is_supported negotiate_version retry_packet
    hmac_sign spki encode max_conn_id_len ttl config negotiate_nonempty retry_nonempty n max r)).
  split_and!.
  - intros. by eapply (route_live work).
  - intros m out buf from local Ho Hn Hret. eapply post_no_panic.
    by apply (handle_packet_ok work from_slice version_is_supported negotiate_version retry_packet hmac_sign spki encode
      max_conn_id_len ttl config m negotiate_nonempty retry_nonempty sys i s out buf from local).
  - intros index. eapply post_no_panic. by apply (reap_ok sys i s index).
  - intros t. destruct (expire_connection_timers_ok sys i s t Hok Hs) as (s' & -> & _). done.
Qed.

(** C20: No wakeup is lost, by a listener whose shards handle packets, expiries and
    removals one after another, that has met no replay ([replays]: an
    Initial whose Retry token is still valid and made the id of a live connection
    that the peer has since retired; it would replace that connection and orphan
    its timer, as in [retired_replay_panics]) and has numbers left.  In every state
    such a listener reaches, the event loop's next wakeup is not later than the
    deadline any connection waits for, and once the clock reaches a connection's
    deadline, expiry marks the connection for service in this round; deadlines
    that remain are in the future. *)
Theorem no_wakeup_lost n max r sys i s k c at_ t :
  (0 < max)%nat -> reachable n max r sys -> shards sys !! i = Some s ->
  connections s !! k = Some c -> scheduled_deadline c = Some at_ ->
  (exists idx first, next_wakeup (timers s) = Some (idx, first) /\ first <= at_) /\
  (at_ <= t -> exists s', expire_connection_timers s t = Ok s' /\ client_index c ∈ seen (dirty s') /\
     (forall n' at', deadline_of s' n' = Some at' -> t < at')).
Proof using All.
  intros Hmax Hr Hs Hc Hat.
  assert (sys_ok sys) as Hok by (by apply (ingress_reachable_ok work from_slice version_is_supported negotiate_version retry_packet
    hmac_sign spki encode max_conn_id_len ttl config negotiate_nonempty retry_nonempty n max r)).
  destruct (so_timers _ Hok _ _ Hs) as [Hq Hd].
  assert (deadline_of s (client_index c) = Some at_) as Hdl.
  { pose proof (nu_conn _ _ _ _ (so_numbers _ Hok) i k c) as H. unfold clients, numbers in H. rewrite Hs in H. simpl in H.
    unfold deadline_of. rewrite (H Hc). simpl. by rewrite Hc. }
  split.
  - rewrite <- Hd in Hdl. unfold next_wakeup. destruct (head (heap (timers s))) as [t0|] eqn:Ht; simpl.
    + destruct (root_deadline _ t0 Hq Ht) as (_ & _ & Hmin). eexists _, _. split; [done|]. specialize (Hmin _ _ Hdl). unfold pair_le in Hmin. simpl in Hmin. lia.
    + rewrite (empty_deadlines _ Ht) in Hdl. done.
  - intros Hle. destruct (expire_connection_timers_ok sys i s t Hok Hs) as (s' & He & _ & Hdue & Hlate).
    exists s'. split; [done|]. split; [by eapply Hdue|exact Hlate].
Qed.

End guarantees.

(** ** Steering *)

(** A packet with a destination id: after one byte in a short header, after the
    first byte, the version and the length of the id in a long one. *)
Inductive carries (dcid : list Z) : bytes -> Prop :=
| carries_short b0 rest : 0 <= b0 < 128 -> carries dcid (b0 :: dcid ++ rest)
| carries_long b0 v1 v2 v3 v4 len rest : 128 <= b0 < 256 -> carries dcid ([b0; v1; v2; v3; v4; len] ++ dcid ++ rest).

Lemma high_bit b : 0 <= b < 256 -> bool_decide (Z.land b 0x80 <> 0) = bool_decide (128 <= b).
Proof.
  intros Hb. assert (forallb (fun b => Bool.eqb (bool_decide (Z.land b 0x80 <> 0)) (bool_decide (128 <= b))) (seqZ 0 256) = true) as H
    by (vm_compute; reflexivity).
  rewrite forallb_forall in H. apply Bool.eqb_prop, H, list_elem_of_In, elem_of_seqZ. lia.
Qed.

(** The program in one expression. *)
Lemma select_socket_spec shards packet :
  select_socket shards packet =
  match packet !! 0%nat with
  | None => Some 0
  | Some b =>
      match packet !! (if bool_decide (Z.land b 0x80 <> 0) then 6%nat else 1%nat) with
      | None => Some 0
      | Some a => if bool_decide (shards = 0) then Some 0 else Some (a mod shards)
      end
  end.
Proof.
  unfold select_socket. simpl. destruct (packet !! 0%nat) as [b|]; [|done].
  destruct (bool_decide (Z.land b 128 <> 0)); simpl.
  - by destruct (packet !! 6%nat).
  - by destruct (packet !! 1%nat).
Qed.

Lemma select_carried shards b dcid packet :
  0 < shards -> carries (b :: dcid) packet -> select_socket shards packet = Some (b mod shards).
Proof.
  intros Hs Hc. rewrite select_socket_spec. destruct Hc as [b0 rest Hb|b0 v1 v2 v3 v4 len rest Hb].
  - change ((b0 :: (b :: dcid) ++ rest) !! 0%nat) with (Some b0). cbv beta iota.
    rewrite high_bit, bool_decide_false by lia. simpl. by rewrite bool_decide_false by lia.
  - change (([b0; v1; v2; v3; v4; len] ++ (b :: dcid) ++ rest) !! 0%nat) with (Some b0). cbv beta iota.
    rewrite high_bit, bool_decide_true by lia. simpl. by rewrite bool_decide_false by lia.
Qed.

(** Ids whose first byte names a shard. *)
Definition steers (i : nat) (ids : list (list Z)) : Prop := Forall (fun id => head id = Some (Z.of_nat i)) ids.
Definition shard_steers (i : nat) (s : Shard) : Prop :=
  reuseport_index s = Some (Z.of_nat i) /\
  forall k c, connections s !! k = Some c -> steers i (server_connection_ids c).
Definition steered (n : nat) (sys : System) : Prop :=
  forall i s, shards sys !! i = Some s -> (i < n)%nat /\ shard_index s = i /\ shard_steers i s.

Section steering.
Context `{HQ : Quiche} (work : conn -> nat) `{HL : !CidLaws work}.
Context (from_slice : bytes -> option Hdr) (version_is_supported : Z -> bool)
  (negotiate_version : bytes -> bytes -> option bytes)
  (retry_packet : bytes -> bytes -> bytes -> bytes -> Z -> option bytes)
  (hmac_sign : bytes -> bytes) (spki : bytes -> option bytes) (encode : bytes -> bytes)
  `{HA : Aead} (max_conn_id_len : nat) (ttl : Z) (config : Settings).
Hypothesis negotiate_nonempty : forall a b p, negotiate_version a b = Some p -> 0 < zlen p.
Hypothesis retry_nonempty : forall a b c t v p, retry_packet a b c t v = Some p -> 0 < zlen p.
(** HMAC-SHA256. *)
Hypothesis hmac_length : forall d, length (hmac_sign d) = 32%nat.

Lemma derive_steers s i d :
  reuseport_index s = Some (Z.of_nat i) -> head (derive_connection_id hmac_sign s d) = Some (Z.of_nat i).
Proof using hmac_length.
  intros Hr. unfold derive_connection_id. rewrite Hr. pose proof (hmac_length d) as Hl.
  destruct (hmac_sign d) as [|x l]; [done|]. done.
Qed.

Lemma spare_steers i r : length r = (CONN_ID_LEN + 16)%nat -> head (spare_id (Some (Z.of_nat i)) r) = Some (Z.of_nat i).
Proof. intros Hl. unfold spare_id. destruct r as [|x r]; done. Qed.

Lemma retire_all_steers i retired cids al c :
  steers i (server_connection_ids c) -> steers i (server_connection_ids (retire_all cids al c retired).2).
Proof.
  revert cids al c. induction retired as [|id r IH]; intros cids al c Hc; [done|]. apply IH.
  unfold steers in *. rewrite Forall_forall in *. intros x [_ Hx]%list_elem_of_filter. by apply Hc.
Qed.

Lemma sync_steers i sh al c k :
  steers i (server_connection_ids c) ->
  post (sync_connection_ids work i (Some (Z.of_nat i)) k (sh, al, c)) (fun '(_, _, c') => steers i (server_connection_ids c')).
Proof using HL.
  intros Hc. unfold sync_connection_ids. apply post_bind. eapply post_mono; [apply (collect_retired_ok work)|].
  intros [q retired] _. pose proof (retire_all_steers i retired (cid_shard sh) al (set_quic c q) Hc) as Hr.
  destruct (retire_all _ _ _ _) as [[cids1 al1] c1]. simpl in Hr. destruct (negb _); [done|].
  apply (post_while_inv _ _ (fun '(_, _, c') => steers i (server_connection_ids c'))); [|done].
  intros [[sh2 al2] c2] H2. unfold spare_step. case_bool_decide as Hl; [|done]. unfold do, ask in *.
  destruct (answer _ (quic c2) (random_fill _)) as [rnd|] eqn:Hrnd; [|done]. cbn [fst snd].
  pose proof (draws_end _ _ _ Hrnd Hl) as Hlt. case_bool_decide; [done|].
  pose proof (new_scid_keeps (quic c2 ++ [Ev (random_fill (CONN_ID_LEN + 16)) (Some rnd)])
    (spare_id (Some (Z.of_nat i)) rnd) (be_val (drop CONN_ID_LEN rnd)) false true) as Hk.
  destruct (answer bool _ (new_scid _ _ _)); simpl; [|done]. split; [|simpl in *; lia].
  apply Forall_app. split; [done|]. apply Forall_singleton. apply spare_steers. by eapply random_length.
Qed.

Lemma path_keeps_ids i sh c :
  steers i (server_connection_ids c) ->
  match handle_path_events work sh c with Ok (_, c', _) => steers i (server_connection_ids c') | _ => True end.
Proof using HL.
  intros Hc. assert (forall f s r, steers i (server_connection_ids (snd s)) ->
    loop f path_step s = Ok r -> steers i (server_connection_ids (snd (fst r)))) as Hloop.
  { induction f as [|f IH]; intros [sh1 c1] r H1; simpl; [done|]. unfold do. 
    destruct (answer _ (quic c1) path_event_next) as [[]|]; cbn; try (by apply IH).
    - unfold rebind_source_ip. destruct (try_rebind _ _ _) as [[[l src] v]|e|]; cbn; [|done..].
      destruct v; cbn; [by apply IH|by intros [= <-]].
    - by intros [= <-]. }
  unfold handle_path_events, while. destruct (loop _ _ _) as [[[sh' c'] b]|e|] eqn:E; [|done..].
  by apply (Hloop _ (sh, c) (sh', c', b)) in E.
Qed.

Lemma put_steers i s s' key c :
  shard_steers i s -> steers i (server_connection_ids c) -> reuseport_index s' = reuseport_index s ->
  connections s' = <[key := c]> (connections s) -> shard_steers i s'.
Proof.
  intros [H1 H2] Hc Hr Hs. split; [congruence|]. intros k c'. rewrite Hs, lookup_insert_Some.
  intros [[<- <-]|[_ Hk]]; [done|eauto].
Qed.

Lemma deliver_steers i s sh key buf from local sh' s' p :
  shard_steers i s -> shard_index s = i ->
  deliver work spki encode config sh s key buf from local = Ok (sh', s', p) -> shard_steers i s'.
Proof using HL.
  intros Hs Hi. unfold deliver. destruct (connections s !! key) as [c|] eqn:Hc; [|done].
  pose proof Hs as [Hr Hids]. specialize (Hids _ _ Hc). unfold do. cbn [fst snd]. set (q := quic c ++ _).
  destruct (negb _); [intros [= <- <- _]; by apply (put_steers i s _ key (set_quic c q) Hs Hids)|].
  pose proof (path_keeps_ids i sh (set_quic c q) Hids) as Hp.
  destruct (handle_path_events _ _ _) as [[[sh1 c1] o]|e|]; [|done..]. cbn [mbind result_bind].
  destruct (negb o); [intros [= <- <- _]; by apply (put_steers i s _ key c1 Hs Hp)|]. cbn [shard_index reuseport_index connection_id_aliases].
  rewrite Hr, Hi. pose proof (sync_steers i sh1 (connection_id_aliases s) c1 key Hp) as Hy.
  destruct (sync_connection_ids _ _ _ _ _) as [[[sh2 al2] c2]|e|]; [|done..]. cbn [mbind result_bind]. simpl in Hy.
  pose proof (resolve_identity_frame spki encode config c2) as Hf.
  destruct (resolve_identity _ _ _ c2) as [c3 known]. destruct Hf as (_ & F2 & _).
  destruct (upgrade_h3_frame c3) as (_ & U2 & _).
  destruct (negb known); intros [= <- <- _]; (eapply put_steers; [exact Hs| |done|done]); rewrite ?U2, F2; done.
Qed.

Lemma accept_steers m i s sh scid odcid from local sh' s' k :
  shard_steers i s -> head scid = Some (Z.of_nat i) ->
  accept_connection config m sh s scid odcid from local = Ok (sh', s', k) -> shard_steers i s'.
Proof.
  intros Hs Hid. unfold accept_connection. destruct (bool_decide _); [by intros [= _ <- _]|].
  destruct (try_acquire _ _) as [l [src|]]; [|by intros [= _ <- _]]. unfold do. destruct (answer bool [] _); cbn [negb].
  - destruct (replaced _ _) as [a|e|]; cbn [mbind result_bind]; [|done..]. intros [= _ <- _].
    eapply put_steers; [exact Hs| |done|done]. by apply Forall_singleton.
  - destruct (drop_admission _ _); cbn [mbind result_bind]; [|done..]. by intros [= _ <- _].
Qed.

Lemma route_steers m i s sh out hdr buf from local sh' s' out' k :
  shard_steers i s ->
  route_packet version_is_supported negotiate_version retry_packet hmac_sign max_conn_id_len ttl config m
    sh s out hdr buf from local = Ok (sh', s', out', k) -> shard_steers i s'.
Proof using hmac_length.
  intros Hs. pose proof Hs as [Hr _]. unfold route_packet.
  destruct (match connections s !! hdr_dcid hdr with Some c => _ | None => _ end); [by intros [= _ <- _ _]|].
  destruct (connection_id_aliases s !! _); [by intros [= _ <- _ _]|].
  destruct (cid_shard sh !! _); [by intros [= _ <- _ _]|]. destruct (negb _); [by intros [= _ <- _ _]|].
  unfold route_initial. destruct (bool_decide _); [by intros [= _ <- _ _]|]. destruct (negb _).
  { destruct (negotiate_version _ _); [|by intros [= _ <- _ _]]. destruct (noerr _); cbn; [|done..]. by intros [= _ <- _ _]. }
  destruct (bool_decide _); [by intros [= _ <- _ _]|]. destruct (cid_shard sh !! _); [by intros [= _ <- _ _]|].
  destruct (_ && _).
  { destruct (mint _ _ _ _ _ _); [|by intros [= _ <- _ _]|done].
    destruct (retry_packet _ _ _ _ _); [|by intros [= _ <- _ _]]. destruct (noerr _); cbn; [|done..]. by intros [= _ <- _ _]. }
  destruct (_ || _).
  - destruct (accept_connection _ _ _ _ _ _ _ _) as [[[sh1 s1] k1]|e|] eqn:Ha; cbn; [|done..]. intros [= _ <- _ _].
    eapply accept_steers; [exact Hs| |exact Ha]. by apply derive_steers.
  - destruct (validate _ _ _ _ _ _) as [odcid|]; [|by intros [= _ <- _ _]].
    case_bool_decide as Hd; [|by intros [= _ <- _ _]].
    destruct (accept_connection _ _ _ _ _ _ _ _) as [[[sh1 s1] k1]|e|] eqn:Ha; cbn; [|done..]. intros [= _ <- _ _].
    eapply accept_steers; [exact Hs| |exact Ha]. rewrite <- Hd. by apply derive_steers.
Qed.

Lemma fire_steers i fired s : shard_steers i s -> shard_steers i (fold_left fire fired s).
Proof.
  revert s. induction fired as [|[n a] fired IH]; intros s Hs; [done|]. apply IH. unfold fire.
  destruct (conn_by_index s !! n) as [k|]; [|done]. destruct (connections s !! k) as [c|] eqn:Hc; [|done].
  case_bool_decide; [|done]. eapply put_steers; [exact Hs| |done|done]. simpl. by eapply Hs.
Qed.

Lemma set_shard_steered n sys i s sh s' :
  steered n sys -> shards sys !! i = Some s -> shard_index s' = i -> shard_steers i s' -> steered n (set_shard sys i sh s').
Proof.
  intros Hst Hs Hi Hs' j s1. simpl. rewrite lookup_insert_Some. intros [[<- <-]|[_ Hj]]; [|by apply Hst].
  split_and!; try done. by apply (Hst i s).
Qed.

Lemma step_steered n sys sys' :
  sys_ok sys -> steered n sys ->
  ingress_step work from_slice version_is_supported negotiate_version retry_packet hmac_sign spki encode
    max_conn_id_len ttl config sys sys' -> steered n sys'.
Proof using All.
  intros Hok Hst Hstep. assert (sys_ok sys') as Hok'.
  { by apply (ingress_step_ok work from_slice version_is_supported negotiate_version retry_packet hmac_sign spki encode
      max_conn_id_len ttl config negotiate_nonempty retry_nonempty sys). }
  destruct Hstep as [sys i s m out buf from local sh' s' out' polled Hs Ho Hn Hr Hp
    |sys i s k c c' Hs Hc Hk Hids Hact Hiss|sys i s n' sh' s' Hs Hp|sys i s t s' Hs Hp|sys i s k c d q c' Hs Hc Hp|sys i s d Hs|sys a Ha Hg|sys Hlt];
    [destruct (Hst i s Hs) as (_ & Hi & Hss); (eapply set_shard_steered; [done|exact Hs| |])..|idtac|idtac].
  - apply (so_index _ Hok' i). apply lookup_insert_eq.
  - unfold handle_packet in Hp. destruct (from_slice buf) as [hdr|] eqn:Hfs; [|by injection Hp as _ <- _ _].
    destruct (route_packet _ _ _ _ _ _ _ _ _ _ _ _ _ _ _) as [[[[sh1 s1] out1] key]|e|] eqn:Hroute; [|done..].
    pose proof (route_steers _ _ _ _ _ _ _ _ _ _ _ _ _ Hss Hroute) as Hs1. cbn [mbind result_bind] in Hp.
    destruct key as [key|]; [|by injection Hp as _ <- _ _].
    destruct (deliver _ _ _ _ _ _ _ _ _ _) as [[[sh2 s2] p]|e|] eqn:Hd; [|done..]. injection Hp as _ <- _ _.
    eapply deliver_steers; [exact Hs1| |exact Hd].
    pose proof (route_packet_ok from_slice version_is_supported negotiate_version retry_packet hmac_sign max_conn_id_len ttl config m
      negotiate_nonempty retry_nonempty sys i s out hdr buf from local Hok Hs Ho Hn Hfs Hr) as Hrok.
    rewrite Hroute in Hrok. destruct Hrok as [Hrok _]. apply (so_index _ Hrok i). apply lookup_insert_eq.
  - done.
  - eapply (put_steers i s); [done| |done|done]. rewrite Hids. by eapply Hss.
  - apply (so_index _ Hok' i). apply lookup_insert_eq.
  - unfold reap in Hp. destruct (conn_by_index s !! n') as [k|]; [|by injection Hp as _ <-].
    destruct (connections s !! k) as [c|] eqn:Hc; [|by injection Hp as _ <-]. destruct (negb _); [by injection Hp as _ <-|].
    destruct (noerr _); [|done..]. cbn in Hp. destruct (drop_admission _ _); [|done..]. cbn in Hp. injection Hp as _ <-.
    destruct Hss as [H1 H2]. split; [done|]. intros k' c'. simpl. intros [_ Hk']%lookup_delete_Some. eauto.
  - apply (so_index _ Hok' i). apply lookup_insert_eq.
  - unfold expire_connection_timers in Hp. destruct (noerr _) as [[t' fired]|e|]; [|done..]. cbn in Hp. injection Hp as <-.
    apply fire_steers. done.
  - done.
  - eapply (put_steers i s); [done| |done|done]. unfold reschedule in Hp. destruct (bool_decide _).
    + injection Hp as _ <-. exact (proj2 Hss _ _ Hc).
    + destruct (noerr _); [|done..]. cbn in Hp. injection Hp as _ <-. exact (proj2 Hss _ _ Hc).
  - done.
  - exact Hss.
  - exact Hst.
  - exact Hst.
Qed.

Lemma reachable_steered n max sys :
  (0 < max)%nat ->
  ingress_reachable work from_slice version_is_supported negotiate_version retry_packet hmac_sign spki encode
    max_conn_id_len ttl config n max true sys -> steered n sys.
Proof using All.
  intros Hmax Hr. unfold ingress_reachable in Hr.
  assert (steered n (system_new n max true)) as H0.
  { intros i s Hs. pose proof (new_shard _ _ _ _ _ Hs) as (Hi & Hc & _). simpl in Hs.
    apply elem_of_list_to_map_2, list_elem_of_In, in_map_iff in Hs as (j & [= -> <-] & Hj%in_seq).
    split_and!; [lia|done|]. split; [done|]. intros k c. simpl. by rewrite lookup_empty. }
  assert (sys_ok (system_new n max true)) as Hok by (by apply system_new_ok).
  revert Hok H0. induction Hr as [|x y z Hxy _ IH]; intros Hok H0; [done|].
  apply IH; [|by eapply step_steered].
  by apply (ingress_step_ok work from_slice version_is_supported negotiate_version retry_packet hmac_sign spki encode
    max_conn_id_len ttl config negotiate_nonempty retry_nonempty x).
Qed.

(** C28: On a listener with several sockets, the packet filter gives every
    packet for a connection to the socket of the shard that owns it: whichever id
    issued to the connection the packet carries, in a long or a short header,
    the filter selects that shard's index. *)
Theorem cid_steering n max sys i k c id packet :
  (0 < max)%nat ->
  ingress_reachable work from_slice version_is_supported negotiate_version retry_packet hmac_sign spki encode
    max_conn_id_len ttl config n max true sys ->
  clients sys i k = Some c -> id ∈ server_connection_ids c -> carries id packet ->
  select_socket (Z.of_nat n) packet = Some (Z.of_nat i).
Proof using All.
  intros Hmax Hr Hc Hid Hp. unfold clients in Hc. destruct (shards sys !! i) as [s|] eqn:Hs; [|done]. simpl in Hc.
  destruct (reachable_steered n max sys Hmax Hr i s Hs) as (Hi & _ & _ & Hids).
  specialize (Hids _ _ Hc). unfold steers in Hids. rewrite Forall_forall in Hids. specialize (Hids _ Hid).
  destruct id as [|b id]; [done|]. injection Hids as ->.
  rewrite (select_carried (Z.of_nat n) (Z.of_nat i) id packet) by (done || lia). f_equal. apply Z.mod_small. lia.
Qed.
End steering.

(** ** A library to run the tables with *)

(** Every call succeeds; a connection asks for ids until it has two, and its
    peer retires the first one with a packet that starts with 3.  The second
    connection is closed. *)
Definition serial_of (q : conn) : Z :=
  match q with
  | Ev c _ :: _ => match c with accept n _ _ _ _ => n | _ => -1 end
  | [] => -1
  end.
Definition first_id (q : conn) : list Z :=
  match q with
  | Ev c _ :: _ => match c with accept _ scid _ _ _ => scid | _ => [] end
  | [] => []
  end.
Definition is_draw (e : event) : bool := match e with Ev c _ => match c with random_fill _ => true | _ => false end end.
Definition is_retire_packet (e : event) : bool :=
  match e with Ev c _ => match c with recv (3 :: _) _ _ => true | _ => false end end.
Definition is_retired (e : event) : bool :=
  match e with
  | Ev c a => match c in call T return T -> bool with
              | retired_scid_next => fun r => match r with Some _ => true | None => false end
              | _ => fun _ => false
              end a
  end.
Definition draws (q : conn) : nat := length (filter (fun e => is_draw e = true) q).

Definition sample_library : Quiche := {|
  answer A q c := match c in call A return A with
    | now => 0 | accept _ _ _ _ _ => true | recv _ _ _ => true | path_event_next => None
    | retired_scid_next =>
        if existsb is_retire_packet q && negb (existsb is_retired q) && bool_decide (first_id q ∈ issued q)
        then Some (first_id q) else None
    | random_fill n =>
        if bool_decide (draws q < 10)%nat then Some (replicate n (serial_of q * 10 + Z.of_nat (draws q) + 1)) else None
    | new_scid _ _ _ => true
    | send => Err QuicDone | send_response _ _ _ => Ok tt | send_body _ _ _ => Ok 0 | recv_body _ _ => Err H3Done
    | poll => Err H3Done | with_transport => true | stream_shutdown _ _ _ => true | close _ _ => true | send_goaway _ => true
    | on_timeout => tt | dgram_recv _ => Err QuicDone | dgram_send_buf _ => Ok tt
    end;
  query_answer A q c := match c in query A return A with
    | is_closed => bool_decide (serial_of q = 1) | is_established => true
    | scids_left => (2 - length (issued q))%nat
    | max_send_udp_payload_size => 1350 | send_quantum => 13500
    | timeout_instant => None | peer_cert => None | stream_readable_len _ => None
    | _ => false
    end;
|}.
Definition sample_work (q : conn) : nat := ((10 - draws q) + if existsb is_retired q then 0 else 1)%nat.

Lemma draws_snoc q e : draws (q ++ [e]) = (draws q + if is_draw e then 1 else 0)%nat.
Proof. unfold draws. rewrite filter_app, length_app. simpl. rewrite filter_cons. by destruct (is_draw e). Qed.

Lemma sample_library_laws : CidLaws (H := sample_library) sample_work.
Proof.
  split.
  - intros q id. simpl. destruct (_ && _) eqn:H; [|done]. apply andb_true_iff in H as [_ H%bool_decide_eq_true]. by intros [= <-].
  - intros q n r. simpl. case_bool_decide; [|done]. intros [= <-]. apply length_replicate.
  - done.
  - intros q id. simpl. destruct (_ && _) eqn:H; [|done]. intros _. apply andb_true_iff in H as [H _].
    apply andb_true_iff in H as [_ H%negb_true_iff]. unfold sample_work. rewrite draws_snoc, existsb_app, H. simpl. lia.
  - intros q n r. simpl. case_bool_decide; [|done]. intros _ _. unfold sample_work. rewrite draws_snoc, existsb_app. simpl.
    rewrite orb_false_r. lia.
  - intros q id t b a. unfold sample_work. rewrite draws_snoc, existsb_app. simpl. rewrite orb_false_r. lia.
Qed.

Definition sample_hmac (d : bytes) : bytes := replicate 32 (hd 0 d + 40).
Definition sample_key : list Z := replicate 16 41.
Definition sample_spare : list Z := replicate 16 1.
Definition sample_header (buf : bytes) : option Hdr :=
  match buf with
  | 1 :: _ => Some {| hdr_initial := true; hdr_version := 1; hdr_dcid := sample_key; hdr_scid := [7]; hdr_token := Some sample_token |}
  | 2 :: _ | 3 :: _ => Some {| hdr_initial := false; hdr_version := 1; hdr_dcid := sample_spare; hdr_scid := []; hdr_token := None |}
  | _ => None
  end.
Definition sample_supported (v : Z) : bool := bool_decide (v = 1).
Definition sample_negotiate (scid dcid : list Z) : option bytes := Some [0].
Definition sample_retry (scid dcid id : list Z) (token : bytes) (version : Z) : option bytes := Some [0].
Definition sample_settings : Settings :=
  {| max_connections := 10; retry_mode := Always; retry_connection_threshold := 0; idle_timeout_secs := 30;
     has_basic_auth := false; client_certs := None |}.
Definition sample_moment : Moment := {| clock := 0; token_clock := 105; nonce := None; udp_gso := true |}.
Definition sample_out : Output := {| stateless_batch := batch_new; stateless_retries := 0; forward_batches := [no_forward] |}.

Abbreviation sample_handle := (handle_packet (H := sample_library) (H0 := sample_aead) sample_work sample_header
  sample_supported sample_negotiate sample_retry sample_hmac (fun _ => None)
  (fun l => l) 20 10 sample_settings sample_moment).
Definition sample_packet (sh : Shared) (s : Shard) (buf : bytes) : result unit (Shared * Shard) :=
  r ← sample_handle sh s sample_out buf sample_source sample_local;
  let '(sh, s, _, _) := r in Ok (sh, s).

(** A client connects with its Retry token, moves to its spare id, retires the
    first one and replays its Initial; the second connection then closes. *)
Definition initial_packet : bytes := 1 :: replicate 1199 0.
Definition replay_run (sh : Shared) (s : Shard) : result unit (Shared * Shard) :=
  r ← sample_packet sh s initial_packet;
  r ← sample_packet r.1 r.2 [3];
  r ← sample_packet r.1 r.2 initial_packet;
  reap (H := sample_library) r.1 r.2 1.
Definition sample_shard : Shard :=
  {| shard_index := 0; reuseport_index := None; connections := ∅; connection_id_aliases := ∅; conn_by_index := ∅;
     dirty := dirty_new; timers := queue_new |}.
Definition sample_shared : Shared :=
  {| cid_shard := ∅; index_shard := ∅; next_conn_index := 0; source_admissions := admissions_new 4 |}.

(** C40: A replayed Initial breaks the tables.  Its Retry token is still valid and its
    destination id, retired by the peer, is no longer routed, so a second
    connection is stored under the key of the first: the first disappears without
    being closed, its number and aliases stay behind, and after the second has
    closed a packet for such an alias stops the shard. *)
Theorem retired_replay_panics :
  exists sh s, replay_run sample_shared sample_shard = Ok (sh, s) /\ connections s = ∅ /\
    conn_by_index s !! 0 = Some sample_key /\ connection_id_aliases s !! sample_spare = Some sample_key /\
    sample_packet sh s [2] = Panic.
Proof. eexists _, _. split; [vm_compute; reflexivity|]. vm_compute. split_and!; reflexivity. Qed.

(** The packet that breaks the tables is a replay: the connection it names has
    retired its id, and the token is still accepted. *)
Example replay_recognised :
  exists sh s sh' s', sample_packet sample_shared sample_shard initial_packet = Ok (sh, s) /\
    replays (HA := sample_aead) sample_header sample_hmac 20 10 sample_settings sample_moment s initial_packet sample_source sample_local = false /\
    sample_packet sh s [3] = Ok (sh', s') /\
    replays (HA := sample_aead) sample_header sample_hmac 20 10 sample_settings sample_moment s' initial_packet sample_source sample_local = true.
Proof. eexists _, _, _, _. split; [vm_compute; reflexivity|]. vm_compute. split_and!; reflexivity. Qed.

(** ** Witnesses *)

(** The listener after the first packet. *)
Definition sample_state : Shared * Shard :=
  match sample_packet sample_shared sample_shard initial_packet with Ok r => r | _ => (sample_shared, sample_shard) end.
Definition sample_system : System := set_shard (system_new 1 4 false) 0 sample_state.1 sample_state.2.
Definition sample_client : Client :=
  match connections sample_state.2 !! sample_key with
  | Some c => c
  | None => {| quic := []; client_index := 0; guard := 0; source := IpV4 0; server_connection_ids := [];
               primary_connection_id_active := false; identity := None; h3 := false; first_auth_deadline := None;
               scheduled_deadline := None |}
  end.

Abbreviation sample_reachable := (ingress_reachable (HQ := sample_library) (HA := sample_aead) sample_work sample_header
  sample_supported sample_negotiate sample_retry sample_hmac (fun _ => None)
  (fun l => l) 20 10 sample_settings).

Lemma sample_out_ok : out_ok sample_moment sample_out.
Proof. exists []. apply (clear_holds true batch_new). Qed.

Lemma sample_system_reachable : sample_reachable 1%nat 4%nat false sample_system.
Proof.
  apply rtc_once. eapply (step_packet _ _ _ _ _ _ _ _ _ _ _ (system_new 1 4 false) 0%nat sample_shard sample_moment sample_out
    initial_packet sample_source sample_local).
  - reflexivity.
  - apply sample_out_ok.
  - reflexivity.
  - vm_compute. reflexivity.
  - vm_compute. reflexivity.
Qed.

Lemma ingress_delivery_witness :
  route_packet (H := sample_library) (H0 := sample_aead) sample_supported sample_negotiate
    sample_retry sample_hmac 20 10 sample_settings sample_moment (shared sample_system) sample_state.2 sample_out
    {| hdr_initial := false; hdr_version := 1; hdr_dcid := sample_spare; hdr_scid := []; hdr_token := None |}
    [2] sample_source sample_local = Ok (shared sample_system, sample_state.2, sample_out, Some sample_key).
Proof.
  pose proof sample_library_laws as Hl.
  destruct (ingress_delivery (HQ := sample_library) (HA := sample_aead) sample_work sample_header sample_supported sample_negotiate
    sample_retry sample_hmac (fun _ => None) (fun l => l) 20 10 sample_settings
    ltac:(by intros a b p [= <-]) ltac:(by intros a b c t v p [= <-]) 1 4 false sample_system 0 sample_state.2
    ltac:(lia) sample_system_reachable eq_refl) as (H & _).
  rewrite (H sample_moment sample_out _ [2] sample_source sample_local 0%nat sample_key sample_client); [done|..].
  - vm_compute. reflexivity.
  - simpl. apply (bool_decide_unpack _). vm_compute. exact I.
Defined.

(** The same listener once the connection waits for time 50. *)
Definition waiting_shard : Shard :=
  match reschedule (timers sample_state.2) sample_client (Some 50) with
  | Ok (q, c) =>
      {| shard_index := 0; reuseport_index := None; connections := <[sample_key := c]> (connections sample_state.2);
         connection_id_aliases := connection_id_aliases sample_state.2; conn_by_index := conn_by_index sample_state.2;
         dirty := dirty sample_state.2; timers := q |}
  | _ => sample_shard
  end.
Definition waiting_system : System := set_shard sample_system 0 (shared sample_system) waiting_shard.

Lemma waiting_reachable : sample_reachable 1%nat 4%nat false waiting_system.
Proof.
  eapply rtc_r; [exact sample_system_reachable|].
  eapply (step_reschedule _ _ _ _ _ _ _ _ _ _ _ sample_system 0%nat sample_state.2 sample_key sample_client (Some 50)).
  - reflexivity.
  - vm_compute. reflexivity.
  - vm_compute. reflexivity.
Qed.

Lemma no_wakeup_lost_witness :
  exists s', expire_connection_timers waiting_shard 60 = Ok s' /\ 0 ∈ seen (dirty s').
Proof.
  pose proof sample_library_laws as Hl.
  destruct (no_wakeup_lost (HQ := sample_library) (HA := sample_aead) sample_work sample_header sample_supported
    sample_negotiate sample_retry sample_hmac (fun _ => None) (fun l => l) 20 10 sample_settings
    ltac:(by intros a b p [= <-]) ltac:(by intros a b c t v p [= <-]) 1 4 false waiting_system 0 waiting_shard sample_key
    (set_deadline sample_client (Some 50)) 50 60 ltac:(lia) waiting_reachable eq_refl ltac:(vm_compute; reflexivity) eq_refl)
    as [_ H].
  destruct (H ltac:(lia)) as (s' & H1 & H2 & _). exists s'. split; [exact H1|exact H2].
Defined.


(** Two shards without Retry; the second one accepts a connection. *)
Definition plain_settings : Settings :=
  {| max_connections := 10; retry_mode := Off; retry_connection_threshold := 0; idle_timeout_secs := 30;
     has_basic_auth := true; client_certs := None |}.
Definition plain_header (buf : bytes) : option Hdr :=
  Some {| hdr_initial := true; hdr_version := 1; hdr_dcid := [9]; hdr_scid := [7]; hdr_token := None |}.
Definition second_shard : Shard :=
  {| shard_index := 1; reuseport_index := Some 1; connections := ∅; connection_id_aliases := ∅; conn_by_index := ∅;
     dirty := dirty_new; timers := queue_new |}.
Definition second_state : Shared * Shard :=
  match handle_packet (H := sample_library) (H0 := sample_aead) sample_work plain_header sample_supported
      sample_negotiate sample_retry sample_hmac (fun _ => None) (fun l => l) 20 10 plain_settings
      sample_moment sample_shared second_shard sample_out initial_packet sample_source sample_local with
  | Ok (sh, s, _, _) => (sh, s)
  | _ => (sample_shared, second_shard)
  end.
Definition second_system : System := set_shard (system_new 2 4 true) 1 second_state.1 second_state.2.

Lemma cid_steering_witness :
  select_socket 2 ([0x40] ++ (1 :: replicate 15 1) ++ [5; 5]) = Some 1.
Proof.
  pose proof sample_library_laws as Hl.
  assert (exists c, clients second_system 1%nat (1 :: replicate 15 49) = Some c /\ 1 :: replicate 15 1 ∈ server_connection_ids c)
    as (c & Hc & Hid).
  { eexists. split; [vm_compute; reflexivity|]. apply (bool_decide_unpack _). vm_compute. exact I. }
  assert (ingress_reachable (HQ := sample_library) (HA := sample_aead) sample_work plain_header sample_supported
    sample_negotiate sample_retry sample_hmac (fun _ => None) (fun l => l) 20 10 plain_settings 2 4 true second_system) as Hr.
  { apply rtc_once. eapply (step_packet _ _ _ _ _ _ _ _ _ _ _ (system_new 2 4 true) 1%nat second_shard sample_moment sample_out
      initial_packet sample_source sample_local).
    - reflexivity.
    - apply sample_out_ok.
    - reflexivity.
    - vm_compute. reflexivity.
    - vm_compute. reflexivity. }
  apply (cid_steering (HQ := sample_library) (HA := sample_aead) sample_work plain_header sample_supported
    sample_negotiate sample_retry sample_hmac (fun _ => None) (fun l => l) 20 10 plain_settings
    ltac:(by intros a b p [= <-]) ltac:(by intros a b c' t v p [= <-]) ltac:(done) 2 4 second_system 1 (1 :: replicate 15 49) c
    (1 :: replicate 15 1) _ ltac:(lia) Hr Hc Hid).
  by apply (carries_short _ 0x40 [5; 5]).
Defined.

(** ** Queues between shards *)

Definition batch_len (b : PendingForwardBatch) : Z := zlen (fwd_packets b).
Definition held_packets (i : Inbox) : Z :=
  foldr (fun b n => batch_len b + n) (match in_hand i with Some b => batch_len b | None => 0 end) (queued i).

Inductive inbox_op := Flush (b : PendingForwardBatch) | Receive | Hangup.
Definition inbox_step (i : Inbox) (o : inbox_op) : Inbox :=
  match o with
  | Flush b => (flush_one b i).1
  | Receive => receive_forwarded i
  | Hangup => {| slots := slots i; queued := queued i; in_hand := in_hand i; receiving := false |}
  end.

Record inbox_ok (i : Inbox) : Prop := {
  ib_slots : 0 <= slots i;
  ib_total : slots i + held_packets i = SHARD_FORWARD_QUEUE_CAPACITY;
  ib_batches : Forall (fun b => 0 < batch_len b) (queued i);
}.

Lemma held_app i b : foldr (fun b n => batch_len b + n) (match in_hand i with Some b => batch_len b | None => 0 end)
  (queued i ++ [b]) = held_packets i + batch_len b.
Proof. unfold held_packets. induction (queued i); simpl; lia. Qed.

Lemma held_queue i : Forall (fun b => 0 < batch_len b) (queued i) -> zlen (queued i) <= held_packets i.
Proof.
  unfold held_packets. assert (0 <= match in_hand i with Some b => batch_len b | None => 0 end)
    by (destruct (in_hand i); [apply zlen_nonneg|lia]).
  induction 1 as [|b l Hb _ IH]; simpl; [rewrite zlen_nil; lia|]. rewrite zlen_cons. lia.
Qed.

(** What flushing one batch does to an inbox. *)
Lemma flush_one_spec b i :
  inbox_ok i ->
  (flush_one b i = (i, 0) /\ fwd_packets b = []) \/
  (flush_one b i = (i, batch_len b) /\ (slots i < batch_len b \/ receiving i = false)) \/
  (flush_one b i = ({| slots := slots i - batch_len b; queued := queued i ++ [b]; in_hand := in_hand i;
     receiving := receiving i |}, 0) /\ 0 < batch_len b <= slots i).
Proof.
  intros [H1 H2 H3]. unfold flush_one. case_bool_decide as He; [by left|]. fold (batch_len b). right.
  assert (0 < batch_len b) by (by apply zlen_pos).
  case_bool_decide as Hs; [left; split; [done|by left]|]. destruct (receiving i) eqn:Hr; [|left; split; [done|by right]].
  right. pose proof (held_queue i H3). rewrite bool_decide_true by lia. split; [done|lia].
Qed.

Lemma inbox_step_ok i o : inbox_ok i -> inbox_ok (inbox_step i o).
Proof.
  intros Hok. pose proof Hok as [H1 H2 H3]. destruct o as [b| |]; simpl; [|split; simpl|by split].
  - destruct (flush_one_spec b i Hok) as [[-> _]|[[-> _]|[-> Hb]]]; [done..|]. split; simpl.
    + lia.
    + unfold held_packets. simpl. rewrite held_app. lia.
    + apply Forall_app. split; [done|]. apply Forall_singleton. lia.
  - unfold receive_forwarded. destruct (queued i); simpl; destruct (in_hand i) as [b|]; simpl; try lia; pose proof (zlen_nonneg (fwd_packets b)); lia.
  - unfold receive_forwarded, held_packets in *. destruct (queued i) as [|b l]; simpl in *.
    + destruct (in_hand i); unfold batch_len in *; simpl in *; lia.
    + assert (foldr (fun b n => batch_len b + n) (batch_len b) l
        = foldr (fun b n => batch_len b + n) (match in_hand i with Some b => batch_len b | None => 0 end) l
          - (match in_hand i with Some b => batch_len b | None => 0 end) + batch_len b) as ->
        by (clear; induction l; simpl; lia).
      destruct (in_hand i); unfold batch_len in *; simpl in *; lia.
  - unfold receive_forwarded. destruct (queued i); simpl; [by apply Forall_nil_2|by inversion H3].
Qed.

(** Whatever the shards send each other, an inbox never holds more than
    1024 packets, counting the batch its owner is handling.  A batch is appended
    whole or dropped whole and counted, and it is dropped only when fewer slots
    are free than it has packets or the owner is gone: the channel itself never
    fills. *)
Theorem forward_bounded (ops : list inbox_op) (b : PendingForwardBatch) :
  let i := fold_left inbox_step ops inbox_new in
  held_packets i <= SHARD_FORWARD_QUEUE_CAPACITY /\ 0 <= slots i /\
  ((flush_one b i = (i, batch_len b) /\ (slots i < batch_len b \/ receiving i = false \/ fwd_packets b = [])) \/
   (flush_one b i = ({| slots := slots i - batch_len b; queued := queued i ++ [b]; in_hand := in_hand i;
      receiving := receiving i |}, 0) /\ batch_len b <= slots i)).
Proof.
  assert (forall i, inbox_ok i -> inbox_ok (fold_left inbox_step ops i)) as Hrun.
  { induction ops as [|o ops IH]; intros i Hi; simpl; [done|]. by apply IH, inbox_step_ok. }
  specialize (Hrun inbox_new). set (i := fold_left _ _ _) in *. cbv zeta.
  assert (inbox_ok i) as Hok by (apply Hrun; split; simpl; [done|done|by apply Forall_nil_2]).
  pose proof Hok as [H1 H2 H3]. split_and!; [lia|done|].
  destruct (flush_one_spec b i Hok) as [[Hf He]|[[Hf Hd]|[Hf Hb]]].
  - left. unfold batch_len. rewrite He, Hf. split; [done|]. auto.
  - left. split; [done|]. tauto.
  - right. split; [done|lia].
Qed.
