(* ===== verification/Shard.v ===== *)
(** * The event loop of a shard

    Models [Shard::run] of [src/server/mod.rs] with the parts of
    [src/server/shard_datagrams.rs], [src/server/shard_tunnels.rs] and
    [src/server/shard_output.rs] that go over several connections: one event is
    taken, its connections are handled and marked, due connections are added,
    and the marked ones are served, driven and, when closed, removed.

    [Ingress] models the tables of a shard with the transport side of each
    connection, and [Handlers] and [Relay] what a connection does for its
    tunnels; here both work on the same connections. *)

From stdpp Require Import list gmap strings.
From S2P Require Import Prelude Varint Net Policy Capsule CapsuleStream Datagram IpPacket Routing AddressPool.
From S2P Require Import Scheduler Admission Retry Pacing Ingress.
From S2P Require Import ClientIdentity Lease Uri Auth Config Request TcpTunnel TargetUdp UdpTunnel Quiche QuicBatch.
From S2P Require Import Connection CapsuleIo Client Handlers Relay.
Open Scope Z_scope.

Definition MAX_UDP_RESPONSES_PER_ROUND : nat := 64.
Definition MAX_TCP_RELAY_EVENTS_PER_ROUND : nat := 64.
Definition MAX_TCP_RELAY_BYTES_PER_ROUND : Z := 4 * 1024 * 1024.
Definition MAX_TUN_RECV_BATCH : nat := 64.
Definition IDLE_SWEEP_INTERVAL : Z := 1000000000.
Definition DRAIN_TIMEOUT : Z := 5 * 1000000000.

#[export] Instance TunnelOwner_countable : Countable TunnelOwner.
Proof.
  refine (inj_countable' (fun o => (conn_id o, Routing.stream_id o))
            (fun p => {| conn_id := p.1; Routing.stream_id := p.2 |}) _). by intros [].
Defined.

(** ** State *)

(** A batch of datagrams of one UDP target, or its failure. *)
Record UdpResponse := { ur_index : Z; ur_stream : Z; ur_datagrams : option (list bytes) }.

(** A shard with what it shares: [tunnels] and [deferred] hold, by connection
    number, what the connections of [shard] own beside their transport side.
    [shard_queues] and [http2_queues] take TUN packets to other shards and to
    HTTP/2 streams, the latter with their capacities; [inboxes] take packets of
    the sockets to other shards.  [released] are the addresses the loop itself
    gave back to the pool, in order. *)
Record Node := {
  shared : Ingress.Shared;
  shard : Ingress.Shard;
  tunnels : gmap Z Client;
  deferred : gmap Z DeferredSend;
  routing : RoutingTable;
  shard_queues : gmap nat (list bytes);
  http2_queues : gmap TunnelOwner (nat * list bytes);
  inboxes : list Inbox;
  released : list (list IpAddr);
  output : Output;
  udp_gso : bool;
  next_idle_sweep : Z;
  applied_roster_generation : Z;
  drain_deadline : option Z;
}.
#[export] Instance Node_eta : Eta Node := fun n =>
  {| shared := shared n; shard := shard n; tunnels := tunnels n; deferred := deferred n; routing := routing n;
     shard_queues := shard_queues n; http2_queues := http2_queues n; inboxes := inboxes n;
     released := released n; output := output n; udp_gso := udp_gso n;
     next_idle_sweep := next_idle_sweep n; applied_roster_generation := applied_roster_generation n;
     drain_deadline := drain_deadline n |}.

(** [shutting_down] is set together with the deadline. *)
Definition shutting_down (n : Node) : bool := bool_decide (is_Some (drain_deadline n)).

(** ** One connection *)

(** The whole connection, and its transport side after a handler. *)
Definition whole (t : Ingress.Client) (c : Client) : Client :=
  c <| quic := Ingress.quic t |> <| h3 := Ingress.h3 t |> <| identity := Ingress.identity t |>
    <| first_auth_deadline := Ingress.first_auth_deadline t |>.
Definition transport_of (t : Ingress.Client) (c : Client) : Ingress.Client :=
  {| Ingress.quic := quic c; Ingress.client_index := Ingress.client_index t; Ingress.guard := Ingress.guard t;
     Ingress.source := Ingress.source t; Ingress.server_connection_ids := Ingress.server_connection_ids t;
     Ingress.primary_connection_id_active := Ingress.primary_connection_id_active t; Ingress.identity := identity c;
     Ingress.h3 := h3 c; Ingress.first_auth_deadline := first_auth_deadline c;
     Ingress.scheduled_deadline := Ingress.scheduled_deadline t |}.

(** A connection that was just accepted owns nothing yet. *)
Definition owned (n : Node) (index : Z) : Client := default (client_new [] index) (tunnels n !! index).

(** The shared routing table after an effect. *)
Definition apply_route (t : RoutingTable) (e : outside_event) : RoutingTable :=
  match e with
  | Out ef _ =>
      match ef with
      | insert_route a o => (Routing.insert t a o).1
      | remove_routes addrs o => remove_owned t addrs o
      | _ => t
      end
  end.

Definition mark_dirty (index : Z) (n : Node) : Node :=
  n <| shard := Ingress.with_dirty (shard n) (mark (Ingress.dirty (shard n)) index) |>.

(** The connection under a key changes. *)
Definition put (key : ConnectionId) (t : Ingress.Client) (c : Client) (n : Node) : Node :=
  n <| shard := with_connections (shard n) (<[key := transport_of t c]> (Ingress.connections (shard n))) |>
    <| tunnels ::= fun m => <[Ingress.client_index t := c]> m |>.

(** The key and the transport side of the connection with a number. *)
Definition find (index : Z) (n : Node) : option (ConnectionId * Ingress.Client) :=
  key ← Ingress.conn_by_index (shard n) !! index;
  t ← Ingress.connections (shard n) !! key;
  Some (key, t).

(** A handler of the connection under a key. *)
Definition on_key {A} (key : ConnectionId) (t : Ingress.Client) (m : M A) (n : Node) : result unit (A * Node) :=
  let c := whole t (owned n (Ingress.client_index t)) in
  r ← noerr (m c);
  let '(a, c') := r : A * Client in
  Ok (a, put key t c' n <| routing ::= fun t => fold_left apply_route (drop (length (world c)) (world c')) t |>).
Definition on_client {A} (index : Z) (m : M A) (n : Node) : result unit (option A * Node) :=
  match find index n with
  | None => Ok (None, n)
  | Some (key, t) => r ← on_key key t m n; let '(a, n) := r : A * Node in Ok (Some a, n)
  end.
(** The same, with the connection marked. *)
Definition on_marked {A} (index : Z) (m : M A) (n : Node) : result unit Node :=
  match find index n with
  | None => Ok n
  | Some _ => r ← on_client index m n; Ok (mark_dirty index r.2)
  end.

(** A handler of one connection after the other. *)
Fixpoint for_each {A} (f : A -> Node -> result unit Node) (l : list A) (n : Node) : result unit Node :=
  match l with
  | [] => Ok n
  | a :: l => n ← f a n; for_each f l n
  end.
Definition serve (m : M unit) (serviced : list Z) : Node -> result unit Node :=
  for_each (fun index n => r ← on_client index m n; Ok r.2) serviced.

(** ** Packets *)

Section loop.
Context `{HQ : Quiche} `{HO : Outside} `{HAl : Allocator} `{HA : Aead}.
Context (order : gset Z -> list Z) (work budget : conn -> nat).
(** Functions of the libraries, as in [Ingress]. *)
Context (from_slice : bytes -> option Hdr) (version_is_supported : Z -> bool)
  (negotiate_version : ConnectionId -> ConnectionId -> option bytes)
  (retry_packet : ConnectionId -> ConnectionId -> ConnectionId -> bytes -> Z -> option bytes)
  (hmac_sign : bytes -> bytes) (spki_from_cert_der : bytes -> option bytes) (encode : bytes -> bytes)
  (max_conn_id_len : nat) (ttl : Z) (settings : Settings).
(** Those of the handlers. *)
Context (base64_decode : bytes -> option bytes) (config : ServerConfig) (auth_enabled : bool).
Context {N4 N6 : Type} `{!NetOps N4, !NetOps N6} (ip_policy : TargetPolicy N4 N6) (tun : bool).
(** The address of the socket. *)
Context (local : SocketAddr).

Abbreviation poll_events := (poll_http3_events order work base64_decode config auth_enabled).

Definition receive (m : Moment) (packet : bytes * SocketAddr) (st : Node * Output) : result unit (Node * Output) :=
  let '(n, out) := st in
  r ← handle_packet work from_slice version_is_supported negotiate_version retry_packet hmac_sign spki_from_cert_der
        encode max_conn_id_len ttl settings m (shared n) (shard n) out packet.1 packet.2 local;
  let '(sh, s, out, polled) := r in
  let n := n <| shared := sh |> <| shard := s |> in
  match polled with
  | None => Ok (n, out)
  | Some index => r ← on_client index poll_events n; Ok (r.2, out)
  end.
(** Packet after packet, each at its moment. *)
Fixpoint receive_all (m : nat -> Moment) (packets : list (bytes * SocketAddr)) (st : Node * Output)
    : result unit (Node * Output) :=
  match packets with
  | [] => Ok st
  | p :: packets => st ← receive (m 0%nat) p st; receive_all (fun i => m (S i)) packets st
  end.

(** During shutdown packets only reach connections that exist. *)
Definition receive_draining (n : Node) (packet : bytes * SocketAddr) : Node :=
  match from_slice packet.1 with
  | None => n
  | Some hdr =>
      let s := shard n in
      let key := if match Ingress.connections s !! hdr_dcid hdr with
                    | Some t => Ingress.primary_connection_id_active t | None => false end
                 then Some (hdr_dcid hdr) else Ingress.connection_id_aliases s !! hdr_dcid hdr in
      match key with
      | None => n
      | Some key =>
          match Ingress.connections s !! key with
          | None => n
          | Some t =>
              let t' := set_quic t (exec (recv packet.1 packet.2 local) (Ingress.quic t)) in
              mark_dirty (Ingress.client_index t) (n <| shard := with_connections s (<[key := t']> (Ingress.connections s)) |>)
          end
      end
  end.

(** ** Results of tasks *)

Definition has_udp (index stream : Z) (n : Node) : bool :=
  match find index n with
  | Some (_, t) => bool_decide (is_Some (udp_tunnels (owned n (Ingress.client_index t)) !! stream))
  | None => false
  end.

(** At most [rounds] batches; the queue afterwards.  A full queue of the library
    ends the work of this round. *)
Fixpoint relay_target_datagrams (rounds : nat) (queue : list UdpResponse) (n : Node)
    : result unit (list UdpResponse * Node) :=
  match rounds, queue with
  | S rounds, b :: rest =>
      if has_udp (ur_index b) (ur_stream b) n then
        r ← on_client (ur_index b) (relay_target_batch (ur_stream b) (ur_datagrams b)) (mark_dirty (ur_index b) n);
        let '(full, n) := r : option bool * Node in
        if default false full then Ok (rest, n) else relay_target_datagrams rounds rest n
      else relay_target_datagrams rounds rest n
  | _, _ => Ok (queue, n)
  end.

Definition has_pending_udp (index stream : Z) (n : Node) : bool :=
  match find index n with
  | Some (_, t) => bool_decide (is_Some (pending_udp_tunnels (owned n (Ingress.client_index t)) !! stream))
  | None => false
  end.
Definition udp_setup (index stream : Z) (r : Prepared + Z) (n : Node) : result unit Node :=
  if has_pending_udp index stream n then on_marked index (handle_udp_setup_result order stream r) n else Ok n.

Definition tcp_event_index (e : (TcpRelayEvent nat)) : Z :=
  match e with
  | ConnectResult i _ _ | TcpTunnel.Data i _ _ | Writable i _ | WriteFinished i _ | Eof i _ | RelayError i _ => i
  end.

(** [left] more events; the queue afterwards. *)
Fixpoint handle_tcp_event_batch (left : nat) (bytes_ : Z) (queue : list (TcpRelayEvent nat)) (n : Node) {struct queue}
    : result unit (list (TcpRelayEvent nat) * Node) :=
  match queue with
  | [] => Ok ([], n)
  | e :: rest =>
      let bytes_ := Z.min (bytes_ + TcpTunnel.payload_len e) (2 ^ 64 - 1) in
      n ← on_marked (tcp_event_index e) (handle_tcp_event order work base64_decode config auth_enabled e) n;
      match left with
      | S (S _ as left) =>
          if bool_decide (MAX_TCP_RELAY_BYTES_PER_ROUND <= bytes_) then Ok (rest, n)
          else handle_tcp_event_batch left bytes_ rest n
      | _ => Ok (rest, n)
      end
  end.

(** ** Packets of the TUN device *)

(** [try_send] on a bounded queue. *)
Definition try_send_to (capacity : nat) (packet : bytes) (q : list bytes) : list bytes :=
  if bool_decide (length q < capacity)%nat then q ++ [packet] else q.

(** The owner is a connection of this shard, or of nobody any more. *)
Definition relay_tun_local (owner : TunnelOwner) (packet : bytes) (n : Node) : result unit (bool * Node) :=
  match find (conn_id owner) n with
  | None => Ok (true, n)
  | Some (key, t) =>
      let native := Ingress.h3 t && ask dgram_enabled_by_peer (Ingress.quic t) in
      let touched := bool_decide (is_Some (ip_tunnels (owned n (Ingress.client_index t)) !! Routing.stream_id owner)) &&
                     negb (native && ask is_dgram_send_queue_full (Ingress.quic t)) in
      r ← on_key key t (relay_tun_to (Routing.stream_id owner) packet) n;
      let '(more, n) := r : bool * Node in
      Ok (more, if touched then mark_dirty (conn_id owner) n else n)
  end.

(** True unless the library's queue is full. *)
Definition relay_tun_packet (packet : bytes) (n : Node) : result unit (bool * Node) :=
  match dst_addr packet with
  | Panic => Panic
  | Err _ => Ok (true, n)
  | Ok dst =>
      match Routing.lookup (routing n) dst with
      | None => Ok (true, n)
      | Some owner =>
          match Ingress.index_shard (shared n) !! conn_id owner, http2_queues n !! owner with
          | None, Some (capacity, q) =>
              Ok (true, n <| http2_queues ::= fun m => <[owner := (capacity, try_send_to capacity packet q)]> m |>)
          | None, None => relay_tun_local owner packet n
          | Some k, _ =>
              if bool_decide (k = Ingress.shard_index (shard n)) then relay_tun_local owner packet n
              else match shard_queues n !! k with
                   | None => Panic
                   | Some q => Ok (true, n <| shard_queues ::= fun m => <[k := try_send_to (Z.to_nat SHARD_FORWARD_QUEUE_CAPACITY) packet q]> m |>)
                   end
          end
      end
  end.
Fixpoint relay_tun_packets (segments : list bytes) (n : Node) : result unit Node :=
  match segments with
  | [] => Ok n
  | p :: segments =>
      r ← relay_tun_packet p n;
      let '(more, n) := r : bool * Node in if more then relay_tun_packets segments n else Ok n
  end.

(** ** Service *)

(** Each handler goes over the marked connections before the next one does. *)
Definition relay_round (serviced : list Z) : Node -> result unit Node :=
  for_each (fun m => serve m serviced) (phases order work base64_decode config auth_enabled ip_policy tun).

(** ** The idle sweep *)

(** Every connection of the table, in the order of a walk over it. *)
Definition on_all (walk : gmap ConnectionId Ingress.Client -> list ConnectionId) (f : ConnectionId -> Ingress.Client -> Node -> result unit Node) (n : Node) : result unit Node :=
  for_each (fun key n => match Ingress.connections (shard n) !! key with Some t => f key t n | None => Ok n end)
    (walk (Ingress.connections (shard n))) n.

Definition revoked (current : ClientRegistry) (t : Ingress.Client) : bool :=
  match Ingress.identity t with Some i => negb (still_authorizes current i) | None => false end.
Definition enforce_all (walk : gmap ConnectionId Ingress.Client -> list ConnectionId) (current : ClientRegistry) : Node -> result unit Node :=
  on_all walk (fun key t n =>
    r ← on_key key t (enforce_roster current) n;
    Ok (if revoked current t then mark_dirty (Ingress.client_index t) r.2 else r.2)).

(** The sweep removed something, and wrote to the connection: a setup that has
    nothing to reset is told its failure only over an open HTTP/3 connection. *)
Definition lost {A} (m m' : gmap Z A) (told : A -> bool) : bool :=
  existsb (fun x => told x.2 && bool_decide (m' !! x.1 = None)) (map_to_list m).
Definition swept (c c' : Client) : bool :=
  lost (pending_error_responses c) (pending_error_responses c') (fun _ => true) ||
  lost (pending_ip_responses c) (pending_ip_responses c') (fun _ => true) ||
  lost (pending_tcp_tunnels c) (pending_tcp_tunnels c') (fun p => bool_decide (is_Some (connected p)) || h3 c) ||
  lost (pending_udp_tunnels c) (pending_udp_tunnels c') (fun p => bool_decide (is_Some (prepared p)) || h3 c) ||
  lost (tcp_tunnels c) (tcp_tunnels c') (fun _ => true) || lost (udp_tunnels c) (udp_tunnels c') (fun _ => true) ||
  lost (ip_tunnels c) (ip_tunnels c') (fun _ => true).
Definition cleanup_all (walk : gmap ConnectionId Ingress.Client -> list ConnectionId) (timeout : Z) : Node -> result unit Node :=
  on_all walk (fun key t n =>
    let before := whole t (owned n (Ingress.client_index t)) in
    r ← on_key key t (cleanup_idle_tunnels order timeout) n;
    Ok (if swept before (owned r.2 (Ingress.client_index t)) then mark_dirty (Ingress.client_index t) r.2 else r.2)).

(** ** Output *)

(** Whether the packets waiting for their release time are discarded: the first
    steps of [prepare_output] decide it. *)
Definition discards : M bool := _ ← expire_auth order; _ ← call_ on_timeout; connection_over.

Definition queue_of (n : Node) (index : Z) : DeferredSend := default deferred_default (deferred n !! index).

(** The system calls of a connection are answered by its number. *)
Definition drive_connection (sendmmsg : Z -> nat -> nat -> list WireMessage -> result Z nat)
    (send_to : Z -> nat -> nat -> bytes -> SocketAddr -> result Z Z) (index : Z) (n : Node) : result unit Node :=
  match find index n with
  | None => Ok n
  | Some (key, t) =>
      let number := Ingress.client_index t in
      let c := whole t (owned n number) in
      over ← noerr (discards c);
      r ← on_key key t (prepare_output order) n;
      let n := r.2 in
      waiting ← (if over.1 : bool then noerr (discard (queue_of n number)) else Ok (queue_of n number));
      let c := owned n number in
      d ← noerr (drive (sendmmsg number) (send_to number) budget
                   {| Pacing.quic := quic c; Pacing.deferred := waiting; Pacing.batch := batch_new; Pacing.gso := udp_gso n;
                      Pacing.log := [] |});
      let resumes := negb (bool_decide (tcp_read_resumes c = ∅ /\ capsule_read_resumes (io c) = ∅)) in
      let '(at_, q) := next_deadline resumes (deadline (Pacing.deferred d)) (first_auth_deadline c) (Pacing.quic d) in
      let t := transport_of t (c <| quic := q |>) in
      r ← reschedule (Ingress.timers (shard n)) t at_;
      let '(timers, t) := r : TimerQueue * Ingress.Client in
      let s := shard n in
      Ok (n <| shard := {| Ingress.shard_index := Ingress.shard_index s; Ingress.reuseport_index := Ingress.reuseport_index s;
                           Ingress.connections := <[key := t]> (Ingress.connections s);
                           Ingress.connection_id_aliases := Ingress.connection_id_aliases s;
                           Ingress.conn_by_index := Ingress.conn_by_index s; Ingress.dirty := Ingress.dirty s;
                           Ingress.timers := timers |} |>
            <| deferred ::= fun m => <[number := Pacing.deferred d]> m |> <| udp_gso := Pacing.gso d |>)
  end.

(** A closed connection leaves with its routes, and its addresses are free. *)
Definition remove_tunnel_routes (number : Z) (rt : RoutingTable) (x : Z * IpTunnel) : RoutingTable :=
  remove_owned rt (assigned_addrs x.2) {| conn_id := number; Routing.stream_id := tunnel_stream x.2 |}.
Definition leases_of (c : Client) : list (list IpAddr) := map (fun x => assigned_addrs x.2) (map_to_list (ip_tunnels c)).
Definition reap_connection (index : Z) (n : Node) : result unit Node :=
  match find index n with
  | None => Ok n
  | Some (key, t) =>
      if negb (ask is_closed (Ingress.quic t)) then Ok n else
      r ← reap (shared n) (shard n) index;
      let '(sh, s) := r : Ingress.Shared * Ingress.Shard in
      let number := Ingress.client_index t in
      Ok (n <| shared := sh |> <| shard := s |>
            <| routing ::= fun rt => fold_left (remove_tunnel_routes number) (map_to_list (ip_tunnels (owned n number))) rt |>
            <| released ::= fun l => l ++ leases_of (owned n number) |>
            <| tunnels ::= delete number |> <| deferred ::= delete number |>)
  end.

(** ** Rounds *)

Inductive Event :=
| Shutdown
| PacketBatch (packets : list (bytes * SocketAddr))
| TargetDatagram (queue : list UdpResponse)
| UdpSetup (index stream : Z) (result : Prepared + Z)
| TcpRelay (queue : list (TcpRelayEvent nat))
| TunPacket (segments : list bytes)
| Forwarded (packets : list (bytes * SocketAddr))
| TunInbound (packet : bytes)
| AuthDone (index stream : Z) (request : ConnectRequest) (authorized : bool)
| Timeout.

(** What a round reads: the event, the clock and the random values for each
    packet, the clock where it is read otherwise, the roster of the listener with
    its generation, the order of a walk over the table, and what the socket
    answers. *)
Record Round := {
  event : Event;
  moments : nat -> Moment;
  at_event : Z;
  at_timers : Z;
  at_sweep : Z;
  at_exit : Z;
  generation : Z;
  roster : option ClientRegistry;
  walk : gmap ConnectionId Ingress.Client -> list ConnectionId;
  sendmmsg : Z -> nat -> nat -> list WireMessage -> result Z nat;
  send_to : Z -> nat -> nat -> bytes -> SocketAddr -> result Z Z;
  reply_mmsg : nat -> list WireMessage -> result Z nat;
  reply_to : nat -> bytes -> SocketAddr -> result Z Z;
}.

(** Which branches of the [select!] are open: while the connections drain, only
    the socket and the timer. *)
Definition selectable (n : Node) (e : Event) : bool :=
  match e with
  | PacketBatch _ | Timeout => true
  | TunPacket _ => negb (shutting_down n) && tun && bool_decide (Ingress.shard_index (shard n) = 0%nat)
  | _ => negb (shutting_down n)
  end.

(** When the timer of the [select!] fires, and whether it is the fine one. *)
Definition uses_precise_tcp_pacing (c : Client) : bool :=
  let tcp := (size (tcp_tunnels c) + size (pending_tcp_tunnels c))%nat in
  bool_decide (tcp <> 0%nat) && bool_decide (tcp = tunnel_count c) && bool_decide (awaiting_auth c = ∅).
Definition wakeup (n : Node) : Z * bool :=
  let '(at_, precise) :=
    match Scheduler.next_wakeup (Ingress.timers (shard n)) with
    | Some (index, deadline) =>
        if bool_decide (deadline <= next_idle_sweep n) then
          (deadline, match find index n with
                     | Some (_, t) =>
                         let number := Ingress.client_index t in
                         uses_precise_tcp_pacing (owned n number) &&
                         bool_decide (is_Some (Pacing.deadline (queue_of n number)))
                     | None => false
                     end)
        else (next_idle_sweep n, false)
    | None => (next_idle_sweep n, false)
    end in
  match drain_deadline n with
  | Some deadline => if bool_decide (deadline < at_) then (deadline, false) else (at_, precise)
  | None => (at_, precise)
  end.

(** Every connection is told to go away, closed and marked. *)
Definition shutdown_all (walk : gmap ConnectionId Ingress.Client -> list ConnectionId) : Node -> result unit Node :=
  on_all walk (fun key t n =>
    let q := if Ingress.h3 t then exec (send_goaway 0) (Ingress.quic t) else Ingress.quic t in
    let t' := set_quic t (exec (close true 0) q) in
    Ok (mark_dirty (Ingress.client_index t)
          (n <| shard := with_connections (shard n) (<[key := t']> (Ingress.connections (shard n))) |>))).

(** Whether offload is on is asked when a packet is answered. *)
Definition moments_of (r : Round) (n : Node) (i : nat) : Moment :=
  let m := moments r i in
  {| clock := clock m; token_clock := token_clock m; nonce := nonce m; Ingress.udp_gso := udp_gso n |}.

Definition handle_event (r : Round) (n : Node) (out : Output) : result unit (Node * Output) :=
  match event r with
  | Shutdown =>
      n ← shutdown_all (walk r) n;
      Ok (n <| drain_deadline := Some (at_event r + DRAIN_TIMEOUT) |>, out)
  | PacketBatch packets =>
      if shutting_down n then Ok (fold_left receive_draining packets n, out)
      else receive_all (moments_of r n) packets (n, out)
  | Forwarded packets => receive_all (moments_of r n) packets (n, out)
  | TargetDatagram queue => x ← relay_target_datagrams MAX_UDP_RESPONSES_PER_ROUND queue n; Ok (x.2, out)
  | UdpSetup index stream result => n ← udp_setup index stream result n; Ok (n, out)
  | TcpRelay queue => x ← handle_tcp_event_batch MAX_TCP_RELAY_EVENTS_PER_ROUND 0 queue n; Ok (x.2, out)
  | TunPacket segments => n ← relay_tun_packets (take MAX_TUN_RECV_BATCH segments) n; Ok (n, out)
  | TunInbound packet => x ← relay_tun_packet packet n; Ok (x.2, out)
  | AuthDone index stream request authorized =>
      n ← on_marked index (handle_auth_result order work base64_decode config auth_enabled stream request authorized) n;
      Ok (n, out)
  | Timeout => Ok (n, out)
  end.

(** Packets for other shards go to their inboxes, and the answers that belong to
    no connection to the socket. *)
Definition flush_output (r : Round) (n : Node) (out : Output) : result unit (Node * option SendEnd) :=
  let '(batches, ins, _) := flush_forward_batches (forward_batches out) (inboxes n) in
  let out := {| stateless_batch := stateless_batch out; stateless_retries := stateless_retries out; forward_batches := batches |} in
  let n := n <| inboxes := ins |> <| output := out |> in
  if batch_is_empty (stateless_batch out) then Ok (n, None) else
  e ← noerr (send_batch (reply_mmsg r) (reply_to r) (udp_gso n) (stateless_batch out));
  Ok (n <| udp_gso := end_gso e |>, Some e).

Definition take_serviced (n : Node) (serviced : list Z) : Node * list Z :=
  let '(d, serviced) := take_into (Ingress.dirty (shard n)) serviced in (n <| shard := Ingress.with_dirty (shard n) d |>, serviced).

Definition sweep (r : Round) (serviced : list Z) (n : Node) : result unit (Node * list Z) :=
  if bool_decide (at_sweep r < next_idle_sweep n) then Ok (n, serviced) else
  let n := n <| next_idle_sweep := at_sweep r + IDLE_SWEEP_INTERVAL |> in
  if shutting_down n then Ok (n, serviced) else
  n ← (if bool_decide (generation r = applied_roster_generation n) then Ok n
       else match roster r with
            | Some current => enforce_all (walk r) current (n <| applied_roster_generation := generation r |>)
            | None => Ok (n <| applied_roster_generation := generation r |>)
            end);
  n ← cleanup_all (walk r) (Config.idle_timeout_secs (server config) * 1000000000) n;
  Ok (take_serviced n serviced).

Definition begin_round (n : Node) : Node :=
  n <| shard := Ingress.with_dirty (shard n) (end_round (Ingress.dirty (shard n))) |>
    <| output := {| stateless_batch := clear (stateless_batch (output n)); stateless_retries := 0;
                    forward_batches := forward_batches (output n) |} |>.

(** What a round did: the answers it sent, the connections it served, and
    whether the loop ends. *)
Record Report := { replied : option SendEnd; served : list Z; ended : bool }.

(** The end of a drain; a forced one gives the addresses of the connections that
    are left back. *)
Definition drained (r : Round) (n : Node) : Node * bool :=
  match drain_deadline n with
  | None => (n, false)
  | Some deadline =>
      if bool_decide (Ingress.connections (shard n) = ∅) then (n, true) else
      if bool_decide (deadline <= at_exit r) then
        (n <| released ::= fun l => l ++ concat (map (fun key =>
                match Ingress.connections (shard n) !! key with
                | Some t => leases_of (owned n (Ingress.client_index t))
                | None => []
                end) (walk r (Ingress.connections (shard n)))) |>, true)
      else (n, false)
  end.

Definition round (r : Round) (n : Node) : result unit (Node * Report) :=
  let n := begin_round n in
  x ← handle_event r n (output n);
  let '(n, out) := x : Node * Output in
  x ← flush_output r n out;
  let '(n, replied) := x : Node * option SendEnd in
  s ← expire_connection_timers (shard n) (at_timers r);
  let '(n, serviced) := take_serviced (n <| shard := s |>) [] in
  n ← (if shutting_down n then Ok n else relay_round serviced n);
  x ← sweep r serviced n;
  let '(n, serviced) := x : Node * list Z in
  n ← for_each (drive_connection (sendmmsg r) (send_to r)) serviced n;
  n ← for_each reap_connection serviced n;
  let '(n, stop) := drained r n in
  Ok (n, {| replied := replied; served := serviced; ended := stop |}).
End loop.
