(* ===== verification/ShardInv.v ===== *)
(** * What the event loop keeps

    The invariant that ties the tables of a shard to the connections' tunnels,
    and that every part of a round keeps it: the transport side moves by the
    steps of [IngressProps] and each connection by those of [ClientProps]. *)

From stdpp Require Import list gmap strings.
From S2P Require Import Prelude Varint Net Policy Capsule CapsuleStream Datagram IpPacket Routing AddressPool.
From S2P Require Import Scheduler Admission Retry Pacing Ingress IngressInv IngressProps.
From S2P Require Import ClientIdentity Lease Uri Auth Config Request TcpTunnel TargetUdp UdpTunnel Quiche QuicBatch.
From S2P Require Import Connection CapsuleIo Client Handlers Relay Totality ClientLogic HandlersInv ServeInv ResultsInv RelayInv ClientProps Shard.
Open Scope Z_scope.

(** ** Functions without errors *)

Definition errless {E A} (r : result E A) : Prop := forall e, r <> Err e.
Lemma errless_bind {E A B} (r : result E A) (f : A -> result E B) : errless r -> (forall a, errless (f a)) -> errless (r ≫= f).
Proof. intros Hr Hf. destruct r as [a|e|]; [apply Hf|by destruct (Hr e)|done]. Qed.
Lemma errless_noerr {E A} (r : result Empty_set A) : errless (noerr (E:=E) r).
Proof. by destruct r as [?|[]|]. Qed.
Lemma errless_while {E S A} (m : S -> nat) (body : S -> result E (S + A)) s : (forall s, errless (body s)) -> errless (while m body s).
Proof.
  intros Hb. unfold while. generalize (Datatypes.S (m s)) as fuel. intros fuel. revert s.
  induction fuel as [|fuel IH]; intros s; [done|]. cbn [loop]. apply errless_bind; [apply Hb|]. intros [s'|a]; [apply IH|done].
Qed.
Lemma errless_Ok {E A} (r : result E A) (P : A -> Prop) : errless r -> post r P -> exists a, r = Ok a /\ P a.
Proof. destruct r as [a|e|]; [by exists a|by intros H; destruct (H e)|done]. Qed.

Ltac errless_tac := repeat first
  [ apply errless_bind; [|intros ?] | apply errless_noerr | apply errless_while; intros ? | done
  | match goal with |- errless (match ?x with _ => _ end) => destruct x end ].

Lemma try_rebind_errless i current source : errless (try_rebind i current source).
Proof. unfold try_rebind. errless_tac. Qed.
Lemma drop_admission_errless i source : errless (drop_admission i source).
Proof. unfold drop_admission. errless_tac. Qed.
Lemma reap_errless `{Quiche} sh s i : errless (reap sh s i).
Proof. unfold reap. errless_tac. apply drop_admission_errless. Qed.
Lemma replaced_errless a old : errless (replaced a old).
Proof. unfold replaced. errless_tac. apply drop_admission_errless. Qed.
Lemma accept_errless `{Quiche} settings m sh s scid odcid from local : errless (accept_connection settings m sh s scid odcid from local).
Proof. unfold accept_connection, do. errless_tac; first [apply drop_admission_errless|apply replaced_errless]. Qed.
Lemma path_events_errless `{Quiche} work sh t : errless (handle_path_events work sh t).
Proof.
  apply errless_while. intros [sh1 t1]. unfold path_step, do, rebind_source_ip. errless_tac. apply try_rebind_errless.
Qed.
Lemma sync_errless `{Quiche} work shard reuse primary x : errless (sync_connection_ids work shard reuse primary x).
Proof.
  unfold sync_connection_ids. destruct x as [[sh al] t]. apply errless_bind.
  { apply errless_while. intros [q l]. unfold collect_retired_step, do. errless_tac. }
  intros [q retired]. destruct (retire_all _ _ _ _) as [[cids al'] t1]. destruct (negb _); [done|].
  apply errless_while. intros [[sh2 al2] t2]. unfold spare_step, do. errless_tac.
Qed.
Lemma deliver_errless `{Quiche} work spki enc settings sh s key buf from local :
  errless (deliver work spki enc settings sh s key buf from local).
Proof.
  unfold deliver, do. destruct (Ingress.connections s !! key); [|done]. destruct (negb _); [done|].
  apply errless_bind; [apply path_events_errless|]. intros [[sh1 t1] open]. destruct (negb open); [done|].
  apply errless_bind; [apply sync_errless|]. intros [[sh2 al] t2]. errless_tac.
Qed.
Lemma handle_packet_errless `{Quiche} `{Aead} work from_slice vs nv rp hs spki enc ml ttl settings m sh s out buf from local :
  errless (handle_packet work from_slice vs nv rp hs spki enc ml ttl settings m sh s out buf from local).
Proof.
  unfold handle_packet, route_packet, route_initial. errless_tac; first [apply deliver_errless|apply accept_errless].
Qed.

(** ** Histories of the transport *)

Section transport.
Context `{HQ : Quiche}.

Definition transports : relation conn := rtc (fun q q' => exists A (k : call A), transport_call k = true /\ q' = exec k q).

Lemma transports_exec {A} (k : call A) q : transport_call k = true -> transports q (exec k q).
Proof. intros Hk. apply rtc_once. eauto. Qed.
Lemma transports_do {A} (k : call A) q0 q : transports q0 q -> transport_call k = true -> transports q0 (q ++ [Ev k (answer A q k)]).
Proof. intros Hq Hk. etrans; [exact Hq|]. exact (transports_exec k q Hk). Qed.

(** The transport side of a connection after some calls: its number stays. *)
Definition carried (t t' : Ingress.Client) : Prop :=
  Ingress.client_index t' = Ingress.client_index t /\ transports (Ingress.quic t) (Ingress.quic t').
Lemma carried_refl t : carried t t.
Proof. done. Qed.
Lemma carried_trans t1 t2 t3 : carried t1 t2 -> carried t2 t3 -> carried t1 t3.
Proof. intros [? ?] [? ?]. split; [congruence|by etrans]. Qed.
Lemma carried_do {A} (k : call A) t0 t :
  carried t0 t -> transport_call k = true -> carried t0 (set_quic t (Ingress.quic t ++ [Ev k (answer A (Ingress.quic t) k)])).
Proof. intros [? ?] Hk. split; [done|]. by apply transports_do. Qed.

(** The shared state, with the same connection numbers. *)
Definition same_numbers (sh sh' : Ingress.Shared) : Prop :=
  index_shard sh' = index_shard sh /\ next_conn_index sh' = next_conn_index sh.

Context (work : conn -> nat).

Lemma path_events_carried t0 sh t sh' t' open :
  carried t0 t -> handle_path_events work sh t = Ok (sh', t', open) -> carried t0 t' /\ same_numbers sh sh'.
Proof.
  intros H0 Hw. unfold handle_path_events in Hw.
  apply (while_Ok _ _ (fun s => carried t0 s.2 /\ same_numbers sh s.1) (fun r => carried t0 r.1.2 /\ same_numbers sh r.1.1) _ _) in Hw;
    [done| |done].
  intros [sh1 t1] [H1 Hn]. unfold path_step, do. cbn [fst snd] in *. pose proof (carried_do path_event_next t0 t1 H1 eq_refl) as H2.
  destruct (answer _ _ path_event_next) as [[]|]; cbn [fst snd]; try (by split).
  unfold rebind_source_ip. destruct (try_rebind _ _ _) as [[[i src] ok]|e|]; cbn [mbind result_bind]; [|done|done].
  destruct ok; [by split|]. split; [|done]. exact (carried_do (close true MIGRATION_SOURCE_LIMIT_ERROR) t0 _ H2 eq_refl).
Qed.

Lemma retire_all_carried t0 cids aliases t retired :
  carried t0 t -> carried t0 (retire_all cids aliases t retired).2.
Proof.
  revert cids aliases t. induction retired as [|id l IH]; intros cids aliases t Ht; [done|]. cbn [retire_all]. by apply IH.
Qed.

Lemma sync_carried t0 shard reuse primary sh aliases t sh' aliases' t' :
  carried t0 t -> sync_connection_ids work shard reuse primary (sh, aliases, t) = Ok (sh', aliases', t') ->
  carried t0 t' /\ same_numbers sh sh'.
Proof.
  intros H0. unfold sync_connection_ids.
  destruct (while _ collect_retired_step _) as [[q retired]|e|] eqn:Hw; cbn [mbind result_bind]; [|done|done].
  assert (transports (Ingress.quic t0) q) as Hq.
  { apply (while_Ok _ _ (fun s => transports (Ingress.quic t0) s.1) (fun r => transports (Ingress.quic t0) r.1) _ _) in Hw; [done| |apply H0].
    intros [q1 l1] H1. unfold collect_retired_step, do. cbn [fst] in *.
    pose proof (transports_do retired_scid_next _ _ H1 eq_refl) as H2. by destruct (answer _ q1 retired_scid_next). }
  pose proof (retire_all_carried t0 (cid_shard sh) aliases (set_quic t q) retired) as Hr.
  destruct (retire_all _ _ _ _) as [[cids al] t1]. cbn [snd] in Hr.
  assert (carried t0 t1) as H1 by (apply Hr; split; [apply H0|done]).
  destruct (negb _); [by intros [= <- <- <-]|]. intros Hs.
  apply (while_Ok _ _ (fun s => carried t0 s.2 /\ same_numbers sh s.1.1) (fun r => carried t0 r.2 /\ same_numbers sh r.1.1) _ _) in Hs;
    [done| |done].
  intros [[sh2 al2] t2] [H2 Hn]. unfold spare_step, do. cbn [snd] in *. destruct (bool_decide _); [|by split].
  pose proof (carried_do (random_fill (CONN_ID_LEN + 16)) t0 t2 H2 eq_refl) as H3.
  destruct (answer _ _ (random_fill _)) as [random|]; [|by split]. destruct (bool_decide _); [by split|].
  set (id := spare_id _ _). cbn [set_quic Ingress.quic] in *.
  match goal with |- context [answer _ ?q0 (new_scid id ?tok false)] =>
    pose proof (carried_do (new_scid id tok false) t0 _ H3 eq_refl) as H4 end.
  cbn [set_quic Ingress.quic] in H4. by destruct (answer _ _ (new_scid _ _ _)).
Qed.

Lemma deliver_carried spki enc settings sh s key buf from local sh' s' polled :
  deliver work spki enc settings sh s key buf from local = Ok (sh', s', polled) ->
  exists t t', Ingress.connections s !! key = Some t /\ Ingress.connections s' = <[key := t']> (Ingress.connections s) /\
    carried t t' /\ Ingress.conn_by_index s' = Ingress.conn_by_index s /\ shard_index s' = shard_index s /\ same_numbers sh sh'.
Proof.
  unfold deliver. destruct (Ingress.connections s !! key) as [t|]; [|done]. unfold do.
  pose proof (carried_do (recv buf from local) t t (carried_refl t) eq_refl) as H1.
  destruct (answer _ _ (recv _ _ _)); cbn [negb fst snd].
  2:{ intros [= <- <- <-]. eexists _, _. by split_and!. }
  destruct (handle_path_events _ _ _) as [[[sh1 t1] open]|e|] eqn:Hp; cbn [mbind result_bind]; [|done|done].
  destruct (path_events_carried _ _ _ _ _ _ H1 Hp) as [H2 Hn2].
  destruct open; cbn [negb]; [|intros [= <- <- <-]; eexists _, _; by split_and!].
  destruct (sync_connection_ids _ _ _ _ _) as [[[sh2 al] t2]|e|] eqn:Hs; cbn [mbind result_bind]; [|done|done].
  destruct (sync_carried _ _ _ _ _ _ _ _ _ _ H2 Hs) as [H3 [Hi Hn3]].
  assert (same_numbers sh sh2) as Hn by (destruct Hn2; split; congruence).
  assert (carried t (resolve_identity spki enc settings t2).1) as H4.
  { unfold resolve_identity. destruct (client_certs settings) as [roster|]; [|done]. destruct (_ && _); [|done].
    destruct (ask peer_cert _) as [der|]; [|exact (carried_do (close false 0x0100) t t2 H3 eq_refl)].
    destruct (identify _ _ _ _); [done|..]; exact (carried_do (close false 0x0100) t t2 H3 eq_refl). }
  destruct (resolve_identity _ _ _ _) as [t3 known]. cbn [fst] in H4. destruct known; cbn [negb].
  2:{ intros [= <- <- <-]. eexists _, _. by split_and!. }
  intros [= <- <- <-]. exists t, (upgrade_h3 t3). split_and!; try done.
  unfold upgrade_h3, do. destruct (_ && _); [|done]. exact (carried_do with_transport t t3 H4 eq_refl).
Qed.

(** Timers only change wakeups. *)
Lemma fire_carried fired s0 s :
  shard_index s = shard_index s0 ->
  (forall key t', Ingress.connections s !! key = Some t' -> exists t, Ingress.connections s0 !! key = Some t /\ carried t t') ->
  shard_index (fold_left fire fired s) = shard_index s0 /\
  forall key t', Ingress.connections (fold_left fire fired s) !! key = Some t' ->
    exists t, Ingress.connections s0 !! key = Some t /\ carried t t'.
Proof.
  revert s. induction fired as [|[n a] fired IH]; intros s Hi Hc; [done|]. cbn [fold_left]. apply IH; unfold fire.
  - destruct (Ingress.conn_by_index s !! n) as [id|]; [|done]. destruct (Ingress.connections s !! id); [|done]. by destruct (bool_decide _).
  - destruct (Ingress.conn_by_index s !! n) as [id|]; [|done]. destruct (Ingress.connections s !! id) as [t|] eqn:Ht; [|done].
    destruct (bool_decide _); [|done]. cbn. intros key t' [[<- <-]|[_ Hk]]%lookup_insert_Some; [|by apply Hc].
    destruct (Hc id t Ht) as (t0 & Ht0 & Hcar). exists t0. split; [done|]. destruct Hcar. by split.
Qed.

(** The table after a packet: a connection was there before, or was accepted
    under the next number. *)
Definition arrived (sh : Ingress.Shared) (s : Ingress.Shard) (sh' : Ingress.Shared) (s' : Ingress.Shard) : Prop :=
  shard_index s' = shard_index s /\ next_conn_index sh <= next_conn_index sh' /\
  forall key t', Ingress.connections s' !! key = Some t' ->
    (exists t, Ingress.connections s !! key = Some t /\ carried t t') \/
    (Ingress.client_index t' = next_conn_index sh /\ next_conn_index sh < next_conn_index sh' /\ transports [] (Ingress.quic t')).
Lemma arrived_same sh s sh' : same_numbers sh sh' -> arrived sh s sh' s.
Proof. intros [_ Hn]. split_and!; [done|lia|]. intros key t Ht. left. exists t. by split. Qed.

Lemma accept_arrived settings m sh s scid odcid from local sh' s' key :
  0 <= next_conn_index sh < 2 ^ 64 - 1 ->
  accept_connection settings m sh s scid odcid from local = Ok (sh', s', key) -> arrived sh s sh' s'.
Proof.
  intros Hb. unfold accept_connection. destruct (bool_decide _); [by intros [= <- <- <-]; apply arrived_same|].
  destruct (try_acquire _ _) as [i [src|]]; [|by intros [= <- <- <-]; apply arrived_same]. unfold do.
  pose proof (transports_do (accept (next_conn_index sh) scid odcid local from) [] [] (rtc_refl _ _) eq_refl) as Ht.
  destruct (answer _ _ (accept _ _ _ _ _)); cbn [negb].
  2:{ destruct (drop_admission _ _); cbn [mbind result_bind]; [|done|done]. by intros [= <- <- <-]; apply arrived_same. }
  destruct (replaced _ _) as [a|e|]; cbn [mbind result_bind]; [|done|done]. intros [= <- <- <-].
  unfold arrived. cbn. rewrite Z.mod_small by lia. split_and!; [done|lia|]. intros key t' [[<- <-]|[_ Hk]]%lookup_insert_Some.
  - right. cbn. split_and!; [done|lia|exact Ht].
  - left. exists t'. by split.
Qed.

Context (from_slice : bytes -> option Hdr) (version_is_supported : Z -> bool)
  (negotiate_version : bytes -> bytes -> option bytes)
  (retry_packet : bytes -> bytes -> bytes -> bytes -> Z -> option bytes)
  (hmac_sign : bytes -> bytes) (spki : bytes -> option bytes) (encode : bytes -> bytes)
  `{HA : Aead} (max_conn_id_len : nat) (ttl : Z) (settings : Settings).

Lemma route_arrived m sh s out hdr buf from local sh' s' out' key :
  0 <= next_conn_index sh < 2 ^ 64 - 1 ->
  route_packet version_is_supported negotiate_version retry_packet hmac_sign max_conn_id_len ttl settings m
    sh s out hdr buf from local = Ok (sh', s', out', key) -> arrived sh s sh' s'.
Proof.
  intros Hb. assert (arrived sh s sh s) as Hsame by by apply arrived_same. unfold route_packet.
  destruct (match Ingress.connections s !! _ with Some c => _ | None => _ end); [by intros [= <- <- <- <-]|].
  destruct (connection_id_aliases s !! _); [by intros [= <- <- <- <-]|].
  destruct (cid_shard sh !! _); [by intros [= <- <- <- <-]|]. destruct (negb (hdr_initial hdr)); [by intros [= <- <- <- <-]|].
  unfold route_initial. destruct (bool_decide _); [by intros [= <- <- <- <-]|].
  assert (forall r : result unit Output, (out ← r; Ok (sh, s, out, None)) = Ok (sh', s', out', key) -> arrived sh s sh' s') as Hreply.
  { intros [o|e|]; cbn [mbind result_bind]; [by intros [= <- <- <- <-]|done|done]. }
  destruct (negb _). { destruct (negotiate_version _ _); [apply Hreply|by intros [= <- <- <- <-]]. }
  destruct (bool_decide _); [by intros [= <- <- <- <-]|]. destruct (cid_shard sh !! _); [by intros [= <- <- <- <-]|].
  assert (forall scid odcid, (r ← accept_connection settings m sh s scid odcid from local;
    let '(sh, s, key) := r in Ok (sh, s, out, key)) = Ok (sh', s', out', key) -> arrived sh s sh' s') as Hacc.
  { intros scid odcid. destruct (accept_connection _ _ _ _ _ _ _ _) as [[[sh1 s1] k1]|e|] eqn:Ha; cbn [mbind result_bind]; [|done|done].
    intros [= <- <- <- <-]. by eapply accept_arrived. }
  destruct (_ && _).
  - destruct (mint _ _ _ _ _ _) as [token|e|]; [|by intros [= <- <- <- <-]|done].
    destruct (retry_packet _ _ _ _ _); [|by intros [= <- <- <- <-]].
    match goal with |- context [noerr ?r] => destruct (noerr (E:=unit) r) as [o|e|]; cbn [mbind result_bind]; [|done|done] end.
    by intros [= <- <- <- <-].
  - destruct (_ || _); [apply Hacc|].
    destruct (validate _ _ _ _ _ _) as [odcid|]; [|by intros [= <- <- <- <-]]. destruct (bool_decide _); [apply Hacc|].
    by intros [= <- <- <- <-].
Qed.

Lemma handle_packet_arrived m sh s out buf from local sh' s' out' polled :
  0 <= next_conn_index sh < 2 ^ 64 - 1 ->
  handle_packet work from_slice version_is_supported negotiate_version retry_packet hmac_sign spki encode
    max_conn_id_len ttl settings m sh s out buf from local = Ok (sh', s', out', polled) -> arrived sh s sh' s'.
Proof.
  intros Hb. unfold handle_packet. destruct (from_slice buf) as [hdr|]; [|by intros [= <- <- <- <-]; apply arrived_same].
  destruct (route_packet _ _ _ _ _ _ _ _ _ _ _ _ _ _ _) as [[[[sh1 s1] out1] key]|e|] eqn:Hr; cbn [mbind result_bind]; [|done|done].
  apply route_arrived in Hr as (Hi & Hn & Ht); [|done]. destruct key as [key|]; [|by intros [= <- <- <- <-]].
  destruct (deliver _ _ _ _ _ _ _ _ _ _) as [[[sh2 s2] p]|e|] eqn:Hd; cbn [mbind result_bind]; [|done|done]. intros [= <- <- <- <-].
  apply deliver_carried in Hd as (t & t' & Hk & Hc & Hcar & _ & Hi' & _ & Hn'). split_and!; [congruence|lia|].
  intros key' t1. rewrite Hc. intros [[<- <-]|[_ Hk']]%lookup_insert_Some; rewrite Hn'; [|by apply Ht].
  destruct (Ht key t Hk) as [(t0 & Ht0 & Hc0)|(H1 & H2 & H3)]; [left; exists t0; split; [done|by eapply carried_trans]|].
  right. destruct Hcar. split_and!; [congruence|lia|by etrans].
Qed.
End transport.

(** ** Output *)

Section output.
Context `{HQ : Quiche} `{HAl : Allocator}.

(** The calls of the send loop. *)
Definition output_call {A} (k : call A) : bool := match k with now | send | close _ _ => true | _ => false end.
Definition outputs : relation conn := rtc (fun q q' => exists A (k : call A), output_call k = true /\ q' = exec k q).
Lemma outputs_exec {A} (k : call A) q0 q : outputs q0 q -> output_call k = true -> outputs q0 (exec k q).
Proof. intros Hq Hk. eapply rtc_r; [done|]. by exists A, k. Qed.
Lemma outputs_transports q q' : outputs q q' -> transports q q' /\ issued q' = issued q.
Proof.
  induction 1 as [|q q1 q2 (A & k & Hk & ->) _ [IH1 IH2]]; [done|]. split.
  - etrans; [|exact IH1]. apply (transports_exec k). by destruct k.
  - rewrite IH2, exec_trace, issued_snoc. by destruct k.
Qed.

Lemma push_packet_quic g quantum p info b b' : push_packet g quantum p info b = Ok b' -> b_quic b' = b_quic b.
Proof. unfold push_packet. destruct (QuicBatch.push _ _ _ _ _); cbn [mbind result_bind]; [|done|done]. by intros [= <-]. Qed.
Lemma release_outputs quantum s b : Pacing.release quantum s = Ok (Some b) -> outputs (Pacing.quic s) (b_quic b).
Proof.
  unfold Pacing.release. destruct (Pacing.deadline _) as [at_|]; [|by intros [= <-]]. unfold do. cbn [fst snd].
  destruct (bool_decide _); [done|].
  destruct (while _ _ _) as [b1|e|] eqn:Hw; cbn [mbind result_bind]; [|done|done]. intros [= <-]. cbn [b_quic].
  apply (while_Ok _ _ (fun b => outputs (Pacing.quic s) (b_quic b)) (fun b => outputs (Pacing.quic s) (b_quic b)) _ _) in Hw; [done| |].
  - intros b2 H2. unfold release_step. destruct (take_if_due _ _) as [[d [[p info]|]]|e|]; cbn [mbind result_bind]; [|done..].
    destruct (push_packet _ _ _ _ _) as [b3|e|] eqn:Hp; cbn [mbind result_bind]; [|done..]. apply push_packet_quic in Hp. cbn in *. congruence.
  - exact (outputs_exec now _ _ (rtc_refl _ _) eq_refl).
Qed.
Lemma generate_outputs g quantum size q0 b :
  outputs q0 (b_quic b) ->
  match generate_step g quantum size b with Ok (inl b') | Ok (inr b') => outputs q0 (b_quic b') | _ => True end.
Proof.
  intros H0. unfold generate_step. destruct (_ && _); [|done]. unfold do.
  pose proof (outputs_exec send _ _ H0 eq_refl) as H1. rewrite exec_trace in H1.
  destruct (answer _ _ send) as [[p info]|[]|]; cbn [fst snd b_quic]; try done.
  - pose proof (outputs_exec now _ _ H1 eq_refl) as H2. rewrite exec_trace in H2. destruct (_ || _).
    + destruct (Pacing.schedule _ _ _) as [d|e|]; cbn [mbind result_bind]; [exact H2|done..].
    + destruct (push_packet _ _ _ _ _) as [b3|e|] eqn:Hp; cbn [mbind result_bind]; [|done..]. apply push_packet_quic in Hp. by rewrite Hp.
  - exact (outputs_exec (close false 1) _ _ H1 eq_refl).
Qed.

Lemma drive_outputs sendmmsg send_to budget s d : Pacing.drive sendmmsg send_to budget s = Ok d -> outputs (Pacing.quic s) (Pacing.quic d).
Proof.
  intros Hw. unfold Pacing.drive in Hw.
  apply (while_Ok _ _ (fun x => outputs (Pacing.quic s) (Pacing.quic x)) (fun x => outputs (Pacing.quic s) (Pacing.quic x)) _ _) in Hw; [done| |done].
  clear Hw. intros x Hx. unfold drive_iter. destruct (Pacing.release _ x) as [[b|]|e|] eqn:Hr; cbn [mbind result_bind]; [| |done..].
  - apply release_outputs in Hr. assert (outputs (Pacing.quic s) (b_quic b)) as Hb by by etrans.
    destruct (while _ _ _) as [b1|e|] eqn:Hg; cbn [mbind result_bind]; [|done..].
    apply (while_Ok _ _ (fun b => outputs (Pacing.quic s) (b_quic b)) (fun b => outputs (Pacing.quic s) (b_quic b)) _ _) in Hg;
      [| |done]; [|intros b2 H2; exact (generate_outputs _ _ _ _ _ H2)].
    destruct (batch_is_empty _); [done|]. destruct (send_batch _ _ _ _) as [e|?|]; cbn [mbind result_bind]; [|done..]. by destruct (_ || _).
  - exact (outputs_exec now _ _ Hx eq_refl).
Qed.
End output.

(** ** The invariant *)

Section node.
Context `{HQ : Quiche} `{HO : Outside} `{HAl : Allocator} `{HA : Aead}.
Context (order : gset Z -> list Z) (work budget : conn -> nat).
Context (from_slice : bytes -> option Hdr) (version_is_supported : Z -> bool)
  (negotiate_version : bytes -> bytes -> option bytes)
  (retry_packet : bytes -> bytes -> bytes -> bytes -> Z -> option bytes)
  (hmac_sign : bytes -> bytes) (spki : bytes -> option bytes) (encode : bytes -> bytes)
  (max_conn_id_len : nat) (ttl : Z) (settings : Settings).
Context (base64_decode : bytes -> option bytes) (config : ServerConfig) (auth_enabled : bool)
  (verify : Client.Credential -> bytes -> bool).
Context {N4 N6 : Type} `{!NetOps N4, !NetOps N6} (ip_policy : TargetPolicy N4 N6) (tun : bool).
Context (local : SocketAddr).
(** The listener: its shards, its limit per source and its socket group. *)
Context (nshards max : nat) (reuse : bool).
(** Around the shard: its place, the other shards, how many numbers were
    taken, the connection numbers that are taken elsewhere, what a route to one of those may be for, and the
    HTTP/2 streams that are attached. *)
Context (me : nat) (others : gmap nat Ingress.Shard) (floor : Z) (theirs : Z -> Prop) (elsewhere : TunnelOwner -> IpAddr -> Prop)
  (attached : TunnelOwner -> Prop).

(** What the handlers of the connection with a number are run with. *)
Definition env (i : Z) : Env :=
  {| env_decode := base64_decode; env_config := config; env_auth := auth_enabled; env_verify := verify;
     env_allowed := is_allowed ip_policy; env_index := i |}.
Abbreviation Reach i := (reachable order work (env i) ip_policy tun).
Abbreviation Step i := (client_step order work (env i) ip_policy tun).
Abbreviation Ingress_ok := (ingress_reachable work from_slice version_is_supported negotiate_version retry_packet hmac_sign
  spki encode max_conn_id_len ttl settings nshards max reuse).

Definition system_of (sh : Ingress.Shared) (s : Ingress.Shard) : System :=
  {| IngressInv.shared := sh; shards := <[me := s]> others |}.

(** The tables of the shard are those of a listener that runs as [Ingress] says,
    each connection is one that runs as [Client] says, and a route to a
    connection of the shard is for an address leased to it.  Numbers are fresh. *)
Record node_inv (n : Node) : Prop := {
  ni_sys : Ingress_ok (system_of (Shard.shared n) (shard n));
  ni_clients : forall key t, Ingress.connections (shard n) !! key = Some t ->
    Reach (Ingress.client_index t) (whole t (owned n (Ingress.client_index t)));
  ni_apart : forall key t, Ingress.connections (shard n) !! key = Some t -> ~ theirs (Ingress.client_index t);
  ni_floor : floor <= next_conn_index (Shard.shared n);
  ni_theirs : forall i, theirs i -> i < next_conn_index (Shard.shared n);
  ni_tunnels : forall i c, tunnels n !! i = Some c -> i < next_conn_index (Shard.shared n);
  ni_bound : forall a o, Routing.lookup (routing n) a = Some o -> conn_id o < next_conn_index (Shard.shared n);
  ni_routes : forall a o key t, Routing.lookup (routing n) a = Some o ->
    Ingress.connections (shard n) !! key = Some t -> Ingress.client_index t = conn_id o ->
    leased (world (owned n (conn_id o))) (Routing.stream_id o) a;
  ni_elsewhere : forall a o, Routing.lookup (routing n) a = Some o -> theirs (conn_id o) -> elsewhere o a;
  ni_waiting : forall i d, deferred n !! i = Some d ->
    Pacing.queue_ok d /\ deferred_bytes d <= MAX_DEFERRED_BYTES;
  ni_queues : forall k, (k < nshards)%nat -> is_Some (shard_queues n !! k);
  ni_capacity : forall k q, shard_queues n !! k = Some q -> (length q <= Z.to_nat SHARD_FORWARD_QUEUE_CAPACITY)%nat;
  ni_http2 : forall o capacity q, http2_queues n !! o = Some (capacity, q) -> attached o /\ (length q <= capacity)%nat;
}.

Context `{HC : !ConnectionLaws work} `{HCid : !CidLaws work} `{HOL : !OutsideLaws} `{HW : !WalkLaws order}.
Hypothesis some_sources : (0 < max)%nat.
Hypothesis negotiate_nonempty : forall a b p, negotiate_version a b = Some p -> 0 < zlen p.
Hypothesis retry_nonempty : forall a b c t v p, retry_packet a b c t v = Some p -> 0 < zlen p.

Lemma ingress_sys_ok sys : Ingress_ok sys -> sys_ok sys.
Proof using All.
  by apply (ingress_reachable_ok work from_slice version_is_supported negotiate_version retry_packet hmac_sign spki encode
    max_conn_id_len ttl settings negotiate_nonempty retry_nonempty).
Qed.

Lemma system_at sh s : shards (system_of sh s) !! me = Some s.
Proof. apply lookup_insert_eq. Qed.
Lemma system_set sh s sh' s' : IngressInv.set_shard (system_of sh s) me sh' s' = system_of sh' s'.
Proof. unfold IngressInv.set_shard, system_of. cbn. by rewrite insert_insert_eq. Qed.
Lemma system_step sh s sh' s' :
  ingress_step work from_slice version_is_supported negotiate_version retry_packet hmac_sign
    spki encode max_conn_id_len ttl settings (system_of sh s) (IngressInv.set_shard (system_of sh s) me sh' s') ->
  Ingress_ok (system_of sh s) -> Ingress_ok (system_of sh' s').
Proof. rewrite system_set. intros Hst Hr. by eapply rtc_r. Qed.

(** A connection is found by its number, which was given out. *)
Lemma node_number n key t :
  node_inv n -> Ingress.connections (shard n) !! key = Some t ->
  Ingress.conn_by_index (shard n) !! Ingress.client_index t = Some key /\
  0 <= Ingress.client_index t < next_conn_index (Shard.shared n).
Proof using All.
  intros Hn Ht. set (sys := system_of (Shard.shared n) (shard n)).
  pose proof (so_numbers _ (ingress_sys_ok sys (ni_sys _ Hn))) as Hnum. pose proof (system_at (Shard.shared n) (shard n)) as Hs. fold sys in Hs.
  assert (IngressInv.clients sys me key = Some t) as Hc by (by rewrite (clients_at _ _ _ _ Hs)).
  pose proof (nu_conn _ _ _ _ Hnum _ _ _ Hc) as Hi. split; [unfold numbers in Hi; by rewrite Hs in Hi|].
  eapply (nu_bound _ _ _ _ Hnum), (nu_shard _ _ _ _ Hnum). by exists key.
Qed.
Lemma node_same n k1 t1 k2 t2 :
  node_inv n -> Ingress.connections (shard n) !! k1 = Some t1 -> Ingress.connections (shard n) !! k2 = Some t2 ->
  Ingress.client_index t1 = Ingress.client_index t2 -> k1 = k2.
Proof using All.
  intros Hn H1 H2 He. apply (node_number n k1 t1 Hn) in H1 as [H1 _]. apply (node_number n k2 t2 Hn) in H2 as [H2 _]. congruence.
Qed.

(** ** Handlers *)

(** The connection table with the changed connection. *)
Lemma put_lookup n key t c k t' :
  Ingress.connections (shard (put key t c n)) !! k = Some t' ->
  (k = key /\ t' = transport_of t c) \/ (k <> key /\ Ingress.connections (shard n) !! k = Some t').
Proof. unfold put. cbn. intros [[<- <-]|[? ?]]%lookup_insert_Some; [by left|right; by split]. Qed.
Lemma put_owned n key t c i :
  owned (put key t c n) i = if decide (i = Ingress.client_index t) then c else owned n i.
Proof.
  unfold owned, put. cbn. rewrite lookup_insert. destruct (decide (Ingress.client_index t = i)), (decide (i = Ingress.client_index t)); done.
Qed.
Lemma whole_transport t c : whole (transport_of t c) c = c.
Proof. by destruct c. Qed.

(** The routes after a run of effects: an old one, or one that was inserted. *)
Lemma apply_routes_lookup es rt a o :
  Routing.lookup (fold_left apply_route es rt) a = Some o ->
  Routing.lookup rt a = Some o \/ exists u, Out (insert_route a o) u ∈ es.
Proof.
  revert rt. induction es as [|e es IH]; intros rt; [by left|]. cbn [fold_left]. intros [H|(u & H)]%IH; [|right; exists u; by right].
  destruct e as [A ef x]. destruct ef; cbn in H; try (by left).
  - unfold Routing.lookup in H. cbn in H. apply lookup_insert_Some in H as [[<- <-]|[_ H]]; [right; exists x; by left|by left].
  - left. unfold Routing.lookup in *. change (Routing.lookup (remove_owned rt addrs owner) a = Some o) in H.
    rewrite remove_owned_lookup in H. by destruct (bool_decide _).
Qed.

Lemma serves_issued q q' : serves q q' -> issued q' = issued q.
Proof.
  induction 1 as [|q q1 q2 (A & k & Hk & ->) _ IH]; [done|]. rewrite IH, exec_trace, issued_snoc. by destruct k.
Qed.

Lemma reach_inv i c : Reach i c -> conn_inv (env i) [] settled_ghost c.
Proof using All. exact (reachable_inv order work (env i) ip_policy tun c (fun _ => eq_refl)). Qed.

(** A run that the connection may make. *)
Definition handles {A} (i : Z) (c : Client) (m : M A) : Prop :=
  exists a c', m c = Ok (a, c') /\ Step i c c' /\ grows c c'.
Lemma handler_handles i c (m : M unit) :
  Reach i c -> handler order work (env i) ip_policy tun c m -> handles i c m.
Proof using All.
  intros Hc Hm. assert (conn_inv (env i) [] settled_ghost c) as Hj by by apply reach_inv.
  pose proof (handler_keeps order work (env i) ip_policy tun c m (fun _ => eq_refl) Hj Hm) as Hw. unfold wp in Hw.
  destruct (m c) as [[[] c']|[]|] eqn:He; [|done]. exists tt, c'. split_and!; [done|by eapply step_handler|apply Hw].
Qed.
Lemma handler_answers {A} i c (m : M A) :
  Reach i c -> handler order work (env i) ip_policy tun c (_ ← m; pass) -> handles i c m.
Proof using All.
  intros Hc Hm. destruct (handler_handles i c _ Hc Hm) as (u & c' & He & Hs & Hg). unfold mbind, M_bind in He.
  destruct (m c) as [[a c1]|[]|] eqn:Hr; [|done]. unfold pass, mret, M_ret in He.
  assert (c1 = c') as <- by congruence. exists a, c1. split; [exact Hr|by split].
Qed.

Lemma on_key_ok {A} key t (m : M A) n :
  node_inv n -> Ingress.connections (shard n) !! key = Some t ->
  handles (Ingress.client_index t) (whole t (owned n (Ingress.client_index t))) m ->
  exists a c', on_key key t m n = Ok (a, put key t c' n <| routing ::= fun rt => fold_left apply_route
      (drop (length (world (owned n (Ingress.client_index t)))) (world c')) rt |>) /\
    node_inv (put key t c' n <| routing ::= fun rt => fold_left apply_route
      (drop (length (world (owned n (Ingress.client_index t)))) (world c')) rt |>).
Proof using All.
  intros Hn Ht (a & c' & He & Hst & Hg). set (i := Ingress.client_index t) in *. set (c := whole t (owned n i)) in *.
  exists a, c'. unfold on_key. fold i c. rewrite He. cbn [noerr mbind result_bind].
  change (world c) with (world (owned n i)). split; [done|].
  pose proof (ni_clients _ Hn _ _ Ht) as Hc. fold i c in Hc.
  assert (Reach i c') as Hc' by (destruct Hc as (q & Hq & Hr); exists q; split; [done|by eapply rtc_r]).
  assert (conn_inv (env i) [] settled_ghost c') as Hj by by apply reach_inv.
  destruct Hg as [Hserve Hw]. change (world c) with (world (owned n i)) in Hw.
  destruct (node_number n key t Hn Ht) as [_ Hlt]. fold i in Hlt.
  assert (forall b o, Routing.lookup (fold_left apply_route (drop (length (world (owned n i))) (world c')) (routing n)) b = Some o ->
    Routing.lookup (routing n) b = Some o \/ conn_id o = i /\ leased (world c') (Routing.stream_id o) b) as Hcase.
  { intros b o [Ho|(u & Ho)]%apply_routes_lookup; [by left|right].
    apply list_elem_of_lookup in Ho as [x Hx]. rewrite lookup_drop in Hx.
    destruct (ci_world _ _ _ _ Hj _ _ Hx) as [Hid Hl]. split; [exact Hid|]. eapply leased_mono; [apply prefix_take|exact Hl]. }
  split.
  - apply (system_step (Shard.shared n) (shard n)); [|exact (ni_sys _ Hn)]. eapply step_work; [apply system_at|done..|by apply serves_issued].
  - intros k t' [[-> ->]|[Hne Hk]]%put_lookup.
    + cbn [Ingress.client_index transport_of]. change (owned _ _) with (owned (put key t c' n) (Ingress.client_index t)).
      rewrite put_owned, decide_True by done. by rewrite whole_transport.
    + change (owned _ _) with (owned (put key t c' n) (Ingress.client_index t')). rewrite put_owned, decide_False; [exact (ni_clients _ Hn _ _ Hk)|].
      intros He'. by apply Hne, (node_same n k t' key t).
  - intros k t' [[-> ->]|[_ Hk]]%put_lookup; [exact (ni_apart _ Hn _ _ Ht)|exact (ni_apart _ Hn _ _ Hk)].
  - apply (ni_floor _ Hn).
  - apply (ni_theirs _ Hn).
  - intros j cj. cbn. intros [[<- <-]|[_ Hj']]%lookup_insert_Some; [apply Hlt|by eapply ni_tunnels].
  - intros b o [Ho|[-> _]]%Hcase; [exact (ni_bound _ Hn _ _ Ho)|apply Hlt].
  - intros b o k t' [Ho|[-> Hl]]%Hcase Hk Hi.
    + change (owned _ _) with (owned (put key t c' n) (conn_id o)). rewrite put_owned. case_decide as Hd.
      * eapply leased_mono; [exact Hw|]. change i with (Ingress.client_index t). rewrite <- Hd. exact (ni_routes _ Hn _ _ key t Ho Ht (eq_sym Hd)).
      * apply put_lookup in Hk as [[-> ->]|[_ Hk]]; [by cbn in Hi|exact (ni_routes _ Hn _ _ _ _ Ho Hk Hi)].
    + change (owned _ _) with (owned (put key t c' n) i). by rewrite put_owned, decide_True.
  - intros b o [Ho|[-> _]]%Hcase Hth; [exact (ni_elsewhere _ Hn _ _ Ho Hth)|by destruct (ni_apart _ Hn _ _ Ht)].
  - intros j d. apply (ni_waiting _ Hn).
  - apply (ni_queues _ Hn).
  - apply (ni_capacity _ Hn).
  - apply (ni_http2 _ Hn).
Qed.

(** ** The transport side *)

Lemma carried_reach i t t' c : Reach i (whole t c) -> carried t t' -> Reach i (whole t' c).
Proof.
  intros (q & Hq & Hr) [_ Ht]. exists q. split; [done|]. etrans; [exact Hr|].
  assert (forall q1 q2, transports q1 q2 -> rtc (Step i) (whole t c <| quic := q1 |>) (whole t c <| quic := q2 |>)) as Hsteps.
  { induction 1 as [|q1 q2 q3 (A & k & Hk & ->) _ IH]; [done|]. eapply rtc_l; [|exact IH].
    exact (step_transport _ _ _ _ _ k (whole t c <| quic := q1 |>) Hk). }
  etrans; [exact (Hsteps _ _ Ht)|]. apply rtc_once.
  exact (step_established _ _ _ _ _ (whole t c <| quic := Ingress.quic t' |>) (Ingress.h3 t') (Ingress.identity t') (Ingress.first_auth_deadline t')).
Qed.

(** The tables move as [Ingress] says; connections that are new own nothing. *)
Lemma node_update n sh' s' :
  node_inv n -> Ingress_ok (system_of sh' s') ->
  arrived (Shard.shared n) (shard n) sh' s' -> node_inv (n <| Shard.shared := sh' |> <| shard := s' |>).
Proof using All.
  intros Hn Hsys (Hi & Hle & Harr). split; cbn.
  - exact Hsys.
  - intros key t' Ht'. change (owned _ _) with (owned n (Ingress.client_index t')).
    destruct (Harr key t' Ht') as [(t & Ht & Hc)|(Hidx & Hlt & Hq)].
    + destruct Hc as [He Hc]. rewrite He. eapply carried_reach; [exact (ni_clients _ Hn _ _ Ht)|by split].
    + unfold owned. rewrite Hidx. destruct (tunnels n !! _) as [c|] eqn:Hc; [apply (ni_tunnels _ Hn) in Hc; lia|]. cbn [default].
      set (i := next_conn_index (Shard.shared n)) in *.
      set (t0 := {| Ingress.quic := []; Ingress.client_index := i; Ingress.guard := Ingress.guard t'; Ingress.source := Ingress.source t';
        Ingress.server_connection_ids := []; Ingress.primary_connection_id_active := true; Ingress.identity := None; Ingress.h3 := false;
        Ingress.first_auth_deadline := None; Ingress.scheduled_deadline := None |}).
      apply (carried_reach i t0); [|by split]. exists []. split; [done|]. apply rtc_refl.
  - intros key t' Ht' Hth. destruct (Harr key t' Ht') as [(t & Ht & Hc & _)|(Hnew & _)].
    + rewrite Hc in Hth. exact (ni_apart _ Hn _ _ Ht Hth).
    + apply (ni_theirs _ Hn) in Hth. lia.
  - pose proof (ni_floor _ Hn). lia.
  - intros i Hth%(ni_theirs _ Hn). lia.
  - intros i c Hc. apply (ni_tunnels _ Hn) in Hc. lia.
  - intros a o Ho%(ni_bound _ Hn). lia.
  - intros a o key t' Ho Ht' Hidx. change (owned _ _) with (owned n (conn_id o)).
    destruct (Harr key t' Ht') as [(t & Ht & Hc & _)|(Hnew & _)]; [|apply (ni_bound _ Hn) in Ho; lia].
    apply (ni_routes _ Hn a o key t Ho Ht). congruence.
  - apply (ni_elsewhere _ Hn).
  - apply (ni_waiting _ Hn).
  - apply (ni_queues _ Hn).
  - apply (ni_capacity _ Hn).
  - apply (ni_http2 _ Hn).
Qed.

Lemma node_shard n s' :
  node_inv n -> Ingress_ok (system_of (Shard.shared n) s') -> shard_index s' = shard_index (shard n) ->
  (forall key t', Ingress.connections s' !! key = Some t' -> exists t, Ingress.connections (shard n) !! key = Some t /\ carried t t') ->
  node_inv (n <| shard := s' |>).
Proof using All.
  intros Hn Hsys Hi Hc. enough (node_inv (n <| Shard.shared := Shard.shared n |> <| shard := s' |>)) by by destruct n.
  apply node_update; [done..|split_and!; [done|lia|eauto]].
Qed.

Lemma node_dirty n d : node_inv n -> node_inv (n <| shard := Ingress.with_dirty (shard n) d |>).
Proof using All.
  intros Hn. apply node_shard; [done| |done|].
  - eapply system_step; [|exact (ni_sys _ Hn)]. apply step_mark, system_at.
  - intros key t Ht. exists t. by split.
Qed.
Lemma node_marked n i : node_inv n -> node_inv (mark_dirty i n).
Proof using All. apply node_dirty. Qed.

(** Calls of the transport that leave the ids alone. *)
Lemma node_carry n key t q :
  node_inv n -> Ingress.connections (shard n) !! key = Some t -> transports (Ingress.quic t) q -> issued q = issued (Ingress.quic t) ->
  node_inv (n <| shard := with_connections (shard n) (<[key := set_quic t q]> (Ingress.connections (shard n))) |>).
Proof using All.
  intros Hn Ht Hq Hi. apply node_shard; [done| |done|].
  - eapply system_step; [|exact (ni_sys _ Hn)]. by eapply step_work; [apply system_at|..].
  - intros k t'. cbn. intros [[<- <-]|[_ Hk]]%lookup_insert_Some; [exists t; by split|exists t'; by split].
Qed.

Lemma node_expire n at_ :
  node_inv n -> exists s', expire_connection_timers (shard n) at_ = Ok s' /\ node_inv (n <| shard := s' |>).
Proof using All.
  intros Hn. pose proof (system_at (Shard.shared n) (shard n)) as Hs. pose proof (ingress_sys_ok _ (ni_sys _ Hn)) as Hok.
  destruct (expire_connection_timers_ok _ _ _ at_ Hok Hs) as (s' & He & Hok' & _). exists s'. split; [done|].
  assert (shard_index s' = shard_index (shard n) /\
    forall key t', Ingress.connections s' !! key = Some t' -> exists t, Ingress.connections (shard n) !! key = Some t /\ carried t t') as [Hi Hc].
  { unfold expire_connection_timers in He. destruct (noerr _) as [[q fired]|e|]; cbn [mbind result_bind] in He; [|done|done].
    injection He as <-. apply fire_carried; [done|]. intros key t Ht. exists t. by split. }
  apply node_shard; [done| |done|done]. eapply system_step; [|exact (ni_sys _ Hn)]. by eapply step_expire; [apply system_at|].
Qed.

(** ** Driving *)

Lemma node_reschedule n key t d :
  node_inv n -> Ingress.connections (shard n) !! key = Some t ->
  exists q t', reschedule (Ingress.timers (shard n)) t d = Ok (q, t') /\
    node_inv (n <| shard := {| Ingress.shard_index := shard_index (shard n); Ingress.reuseport_index := reuseport_index (shard n);
      Ingress.connections := <[key := t']> (Ingress.connections (shard n));
      Ingress.connection_id_aliases := connection_id_aliases (shard n); Ingress.conn_by_index := Ingress.conn_by_index (shard n);
      Ingress.dirty := Ingress.dirty (shard n); Ingress.timers := q |} |>).
Proof using All.
  intros Hn Ht. pose proof (system_at (Shard.shared n) (shard n)) as Hs.
  destruct (reschedule_ok _ _ _ key t d (ingress_sys_ok _ (ni_sys _ Hn)) Hs Ht) as (q & t' & He & _). exists q, t'. split; [done|].
  apply node_shard; [done| |done|].
  - eapply system_step; [|exact (ni_sys _ Hn)]. by eapply step_reschedule; [apply system_at|..].
  - intros k t1. cbn. intros [[<- <-]|[_ Hk]]%lookup_insert_Some; [|exists t1; by split]. exists t. split; [done|].
    unfold reschedule in He. destruct (bool_decide _); [by injection He as <- <-|].
    destruct (noerr _); cbn [mbind result_bind] in He; [|done|done]. by injection He as <- <-.
Qed.

Lemma node_queue n i d g :
  node_inv n -> Pacing.queue_ok d -> deferred_bytes d <= MAX_DEFERRED_BYTES ->
  node_inv (n <| deferred ::= fun m => <[i := d]> m |> <| udp_gso := g |>).
Proof.
  intros Hn Hd Hb. destruct Hn as [H1 H2 H3 H3' H4 H5 H6 H7 H8 H9 H10 H11 H12]. split; try done. intros j x. cbn.
  intros [[<- <-]|[_ Hj]]%lookup_insert_Some; [done|eauto].
Qed.
Lemma queue_of_ok n i :
  node_inv n -> Pacing.queue_ok (queue_of n i) /\ deferred_bytes (queue_of n i) <= MAX_DEFERRED_BYTES.
Proof.
  intros Hn. unfold queue_of. destruct (deferred n !! i) as [d|] eqn:Hd; [by eapply ni_waiting|]. split; [apply queue_default_ok|].
  cbn. unfold MAX_DEFERRED_BYTES. lia.
Qed.

Lemma discards_returns i c : Reach i c -> exists b c', discards order c = Ok (b, c').
Proof using All.
  intros Hc%reach_inv. assert (wp (discards order) (fun _ _ => True) c) as Hw.
  { unfold discards. apply wp_bind. eapply (neutral_use work (env i)); [by apply neutral_expire_auth|exact Hc|]. intros ? c1 _ _.
    apply wp_bind, wp_call. unfold connection_over. by repeat apply wp_bind, wp_query. }
  unfold wp in Hw. destruct (discards order c) as [[b c']|[]|]; [by exists b, c'|done].
Qed.

Context `{HAL : !AllocatorLaws} `{HS : !SendLaws budget} (split : Z -> bytes -> list bytes) `{HG : !GsoKernel split}.
Context (sendmmsg : Z -> nat -> nat -> list WireMessage -> result Z nat)
  (send_to : Z -> nat -> nat -> bytes -> SocketAddr -> result Z Z).
Hypothesis sendmmsg_returns : forall i n j ms, sendmmsg i n j ms <> Panic.
Hypothesis send_to_returns : forall i n j p a, send_to i n j p a <> Panic.

Lemma drive_returns i q d g :
  Pacing.queue_ok d -> deferred_bytes d <= MAX_DEFERRED_BYTES ->
  exists s, Pacing.drive (sendmmsg i) (send_to i) budget
      {| Pacing.quic := q; Pacing.deferred := d; Pacing.batch := batch_new; Pacing.gso := g; Pacing.log := [] |} = Ok s /\
    Pacing.queue_ok (Pacing.deferred s) /\ deferred_bytes (Pacing.deferred s) <= MAX_DEFERRED_BYTES /\
    outputs q (Pacing.quic s).
Proof using All.
  intros Hq Hb. set (s0 := {| Pacing.quic := q |}).
  assert (drive_inv split q (held d) s0) as Hinit by (split; simpl; try done; exists []; by rewrite !app_nil_r).
  pose proof (post_while_inv (fun s => budget (Pacing.quic s) + deferred_len (Pacing.deferred s))%nat _ _ _ s0
    (fun s => drive_iter_ok budget (sendmmsg i) (send_to i) split (sendmmsg_returns i) (send_to_returns i) q (held d) s) Hinit) as Hpost.
  unfold Pacing.drive. destruct (while _ _ _) as [s|[]|] eqn:Hw; [|done]. exists s. split; [done|]. destruct Hpost as [Hd1 Hd2 _ _].
  split_and!; [done|done|]. by apply (drive_outputs (sendmmsg i) (send_to i) budget s0 s).
Qed.

Lemma find_Some i n key t :
  find i n = Some (key, t) -> Ingress.conn_by_index (shard n) !! i = Some key /\ Ingress.connections (shard n) !! key = Some t.
Proof.
  unfold find. destruct (Ingress.conn_by_index (shard n) !! i) as [k|]; [|done]. cbn.
  destruct (Ingress.connections (shard n) !! k) as [t'|] eqn:Ht; [|done]. cbn. by intros [= <- <-].
Qed.

(** The table, with its numbers, stays when a connection changes. *)
Lemma next_deadline_outputs resumes at1 at2 q : outputs q (next_deadline resumes at1 at2 q).2.
Proof. unfold next_deadline, do. destruct (_ && _); [exact (outputs_exec now _ _ (rtc_refl _ _) eq_refl)|done]. Qed.

Lemma drive_connection_ok i n :
  node_inv n -> exists n', drive_connection order budget sendmmsg send_to i n = Ok n' /\ node_inv n'.
Proof using All.
  intros Hn. unfold drive_connection. destruct (find i n) as [[key t]|] eqn:Hf; [|by exists n].
  apply find_Some in Hf as [_ Ht]. set (number := Ingress.client_index t).
  pose proof (ni_clients _ Hn _ _ Ht) as Hc. fold number in Hc.
  destruct (discards_returns number _ Hc) as (over & c0 & ->). cbn [noerr mbind result_bind].
  assert (handles number (whole t (owned n number)) (prepare_output order)) as Hh by (apply handler_handles; [done|constructor]).
  destruct (on_key_ok key t (prepare_output order) n Hn Ht Hh) as (u & c' & -> & Hn1).
  cbn [mbind result_bind fst snd]. set (n1 := put key t c' n <| routing ::= _ |>) in *.
  assert (owned n1 number = c') as Hown by (change (owned (put key t c' n) number = c'); rewrite put_owned; by rewrite decide_True).
  rewrite Hown. destruct (queue_of_ok n1 number Hn1) as [Hq Hb].
  assert (exists d, (if over then noerr (E:=unit) (discard (queue_of n1 number)) else Ok (queue_of n1 number)) = Ok d /\
    Pacing.queue_ok d /\ deferred_bytes d <= MAX_DEFERRED_BYTES) as (d & Hd & Hdq & Hdb).
  { destruct over; [|by eexists]. pose proof (discard_ok _ Hq) as Hp. destruct (discard _) as [d|[]|]; [|done].
    destruct Hp as (H1 & _ & H2). exists d. split; [done|]. split; [done|]. rewrite H2. unfold MAX_DEFERRED_BYTES. lia. }
  rewrite Hd. cbn [mbind result_bind].
  destruct (drive_returns number (quic c') d (udp_gso n1) Hdq Hdb) as (s & -> & Hsq & Hsb & Ho). cbn [noerr mbind result_bind].
  set (resumes := negb _). pose proof (next_deadline_outputs resumes (deadline (Pacing.deferred s)) (first_auth_deadline c') (Pacing.quic s)) as Ho2.
  destruct (next_deadline _ _ _ _) as [at_ q]. cbn [snd] in Ho2.
  assert (outputs (quic c') q) as Ho3 by by etrans. apply outputs_transports in Ho3 as [Htr Hiss].
  assert (Ingress.connections (shard n1) !! key = Some (transport_of t c')) as Ht1 by apply lookup_insert_eq.
  pose proof (node_carry n1 key (transport_of t c') q Hn1 Ht1 Htr Hiss) as Hn2.
  change (set_quic (transport_of t c') q) with (transport_of t (c' <| quic := q |>)) in Hn2.
  set (n2 := n1 <| shard := _ |>) in Hn2.
  assert (Ingress.connections (shard n2) !! key = Some (transport_of t (c' <| quic := q |>))) as Ht2 by apply lookup_insert_eq.
  destruct (node_reschedule n2 key _ at_ Hn2 Ht2) as (timers & t3 & Hre & Hn3). cbn [shard n2] in Hre.
  change (Ingress.timers (shard n1)) with (Ingress.timers (shard n2)). rewrite Hre. cbn [mbind result_bind]. eexists. split; [reflexivity|].
  pose proof (node_queue _ number (Pacing.deferred s) (Pacing.gso s) Hn3 Hsq Hsb) as Hn4.
  assert (<[key := t3]> (Ingress.connections (shard n2)) = <[key := t3]> (Ingress.connections (shard n1))) as Hins by apply insert_insert_eq.
  rewrite Hins in Hn4. exact Hn4.
Qed.

(** ** Closing *)

Lemma reap_table sh s i key t sh' s' :
  Ingress.conn_by_index s !! i = Some key -> Ingress.connections s !! key = Some t -> ask is_closed (Ingress.quic t) = true ->
  reap sh s i = Ok (sh', s') ->
  Ingress.connections s' = delete key (Ingress.connections s) /\ shard_index s' = shard_index s /\ next_conn_index sh' = next_conn_index sh.
Proof.
  intros Hi Ht Hcl. unfold reap. rewrite Hi, Ht, Hcl. cbn [negb].
  destruct (noerr _); cbn [mbind result_bind]; [|done|done]. destruct (drop_admission _ _); cbn [mbind result_bind]; [|done|done].
  by intros [= <- <-].
Qed.

Lemma remove_routes_lookup number l rt a o :
  Routing.lookup (fold_left (remove_tunnel_routes number) l rt) a = Some o -> Routing.lookup rt a = Some o.
Proof.
  revert rt. induction l as [|x l IH]; intros rt; [done|]. cbn [fold_left]. intros H1%IH. unfold remove_tunnel_routes in H1.
  rewrite remove_owned_lookup in H1. by destruct (bool_decide _).
Qed.

Lemma node_forget n number f l :
  node_inv n -> (forall key t, Ingress.connections (shard n) !! key = Some t -> Ingress.client_index t <> number) ->
  (forall a o, Routing.lookup (f (routing n)) a = Some o -> Routing.lookup (routing n) a = Some o) ->
  node_inv (n <| routing ::= f |> <| released ::= fun k => k ++ l |> <| tunnels ::= delete number |> <| deferred ::= delete number |>).
Proof.
  intros [H1 H2 H3 H3' H4 H5 H6 H7 H8 H9 H10 H11 H12] Hno Hf.
  assert (forall i, i <> number -> owned (n <| routing ::= f |> <| released ::= fun k => k ++ l |> <| tunnels ::= delete number |> <| deferred ::= delete number |>) i = owned n i) as Ho.
  { intros i Hi. unfold owned. cbn. by rewrite lookup_delete_ne. }
  split; cbn; [done|..].
  - intros key t Ht. rewrite Ho by by eapply Hno. by apply (H2 key).
  - done.
  - done.
  - done.
  - intros i c [_ Hc]%lookup_delete_Some. by eapply H5.
  - eauto.
  - intros a o key t Hl Ht Hi. rewrite Ho by (rewrite <- Hi; by eapply Hno). by eapply H7; [apply Hf|..].
  - eauto.
  - intros i d [_ Hd]%lookup_delete_Some. by eapply H9.
  - exact H10.
  - exact H11.
  - exact H12.
Qed.

Lemma reap_connection_ok i n : node_inv n -> exists n', reap_connection i n = Ok n' /\ node_inv n'.
Proof using All.
  intros Hn. unfold reap_connection. destruct (find i n) as [[key t]|] eqn:Hf; [|by exists n]. apply find_Some in Hf as [Hi Ht].
  destruct (ask is_closed _) eqn:Hcl; cbn [negb]; [|by exists n].
  pose proof (system_at (Shard.shared n) (shard n)) as Hs. pose proof (ingress_sys_ok _ (ni_sys _ Hn)) as Hok.
  pose proof (reap_ok _ _ _ i Hok Hs) as Hp. cbn [IngressInv.shared system_of] in Hp.
  destruct (errless_Ok _ _ (reap_errless _ _ _) Hp) as ([sh' s'] & He & _). rewrite He. cbn [mbind result_bind].
  destruct (reap_table _ _ _ _ _ _ _ Hi Ht Hcl He) as (Hc & Hsi & Hnx). eexists. split; [reflexivity|].
  assert (node_inv (n <| Shard.shared := sh' |> <| shard := s' |>)) as Hn1.
  { apply node_update; [done| |].
    - eapply system_step; [|exact (ni_sys _ Hn)]. by eapply step_reap; [apply system_at|].
    - split_and!; [done|lia|]. intros k t'. rewrite Hc. intros [_ Hk]%lookup_delete_Some. left. exists t'. by split. }
  apply (node_forget (n <| Shard.shared := sh' |> <| shard := s' |>)); [done| |].
  - intros k t' Hk He'. cbn in Hk. rewrite Hc in Hk. apply lookup_delete_Some in Hk as [Hne Hk]. by apply Hne, (node_same n key t k t').
  - intros a o. apply remove_routes_lookup.
Qed.

(** ** Several connections *)

Lemma for_each_ok {A} (f : A -> Node -> result unit Node) l n :
  (forall a n, a ∈ l -> node_inv n -> exists n', f a n = Ok n' /\ node_inv n') ->
  node_inv n -> exists n', for_each f l n = Ok n' /\ node_inv n'.
Proof.
  intros Hf. revert n. induction l as [|a l IH]; intros n Hn; [by exists n|]. cbn [for_each].
  destruct (Hf a n) as (n1 & -> & Hn1); [by left|done|]. apply IH; [|done]. intros b n2 Hb. apply Hf. by right.
Qed.

Lemma on_client_ok {A} i (m : M A) n :
  node_inv n ->
  (forall key t, find i n = Some (key, t) -> handles (Ingress.client_index t) (whole t (owned n (Ingress.client_index t))) m) ->
  exists x, on_client i m n = Ok x /\ node_inv x.2.
Proof using All.
  intros Hn Hh. unfold on_client. destruct (find i n) as [[key t]|] eqn:Hf; [|by exists (None, n)].
  destruct (on_key_ok key t m n Hn (proj2 (find_Some _ _ _ _ Hf)) (Hh key t eq_refl)) as (a & c' & -> & Hn'). by eexists.
Qed.

Lemma serve_ok m serviced n :
  node_inv n -> m ∈ phases order work base64_decode config auth_enabled ip_policy tun ->
  exists n', serve m serviced n = Ok n' /\ node_inv n'.
Proof using All.
  intros Hn Hm. apply for_each_ok; [|done]. intros i n1 _ Hn1.
  assert (exists x, on_client i m n1 = Ok x /\ node_inv x.2) as (x & -> & Hx); [|by exists x.2].
  apply on_client_ok; [done|]. intros key t [_ Ht]%find_Some.
  apply handler_handles; [exact (ni_clients _ Hn1 _ _ Ht)|by apply h_phase].
Qed.
Lemma relay_round_ok serviced n :
  node_inv n -> exists n', relay_round order work base64_decode config auth_enabled ip_policy tun serviced n = Ok n' /\ node_inv n'.
Proof using All. intros Hn. apply for_each_ok; [|done]. intros m n1 Hm Hn1. by apply serve_ok. Qed.

Lemma on_all_ok w f n :
  (forall key t n, node_inv n -> Ingress.connections (shard n) !! key = Some t -> exists n', f key t n = Ok n' /\ node_inv n') ->
  node_inv n -> exists n', on_all w f n = Ok n' /\ node_inv n'.
Proof using All.
  intros Hf Hn. apply for_each_ok; [|done]. intros key n1 _ Hn1.
  destruct (Ingress.connections (shard n1) !! key) as [t|] eqn:Ht; [by apply Hf|by exists n1].
Qed.
Lemma on_key_handler key t m n :
  node_inv n -> Ingress.connections (shard n) !! key = Some t ->
  handler order work (env (Ingress.client_index t)) ip_policy tun (whole t (owned n (Ingress.client_index t))) m ->
  exists x, on_key key t m n = Ok x /\ node_inv x.2.
Proof using All.
  intros Hn Ht Hm. pose proof (handler_handles _ _ _ (ni_clients _ Hn _ _ Ht) Hm) as Hh.
  destruct (on_key_ok key t m n Hn Ht Hh) as (a & c' & -> & Hn'). by eexists.
Qed.
Lemma if_marked (b : bool) (i : Z) (n : Node) : node_inv n -> node_inv (if b then mark_dirty i n else n).
Proof using All. intros Hn. destruct b; [by apply node_marked|done]. Qed.

Lemma enforce_all_ok w current (n : Node) : node_inv n -> exists n', enforce_all w current n = Ok n' /\ node_inv n'.
Proof using All.
  apply on_all_ok. intros key t n1 Hn1 Ht.
  destruct (on_key_handler key t (enforce_roster current) n1 Hn1 Ht (h_roster _ _ _ _ _ _ _)) as (x & -> & Hx). eexists. split; [reflexivity|].
  by apply if_marked.
Qed.
Lemma cleanup_all_ok w timeout (n : Node) : node_inv n -> exists n', cleanup_all order w timeout n = Ok n' /\ node_inv n'.
Proof using All.
  apply on_all_ok. intros key t n1 Hn1 Ht.
  destruct (on_key_handler key t (cleanup_idle_tunnels order timeout) n1 Hn1 Ht (h_idle _ _ _ _ _ _ _)) as (x & -> & Hx). eexists. split; [reflexivity|].
  by apply if_marked.
Qed.
Lemma shutdown_all_ok w (n : Node) : node_inv n -> exists n', shutdown_all w n = Ok n' /\ node_inv n'.
Proof using All.
  apply on_all_ok. intros key t n1 Hn1 Ht. eexists. split; [reflexivity|]. apply node_marked, node_carry; [done|done|..].
  - etrans; [|by apply (transports_exec (close true 0))]. destruct (Ingress.h3 t); [by apply (transports_exec (send_goaway 0))|done].
  - rewrite exec_trace, issued_snoc. destruct (Ingress.h3 t); [by rewrite exec_trace, issued_snoc|done].
Qed.
Lemma receive_draining_ok packets n : node_inv n -> node_inv (fold_left (receive_draining from_slice local) packets n).
Proof using All.
  revert n. induction packets as [|p packets IH]; intros n Hn; [done|]. cbn [fold_left]. apply IH. unfold receive_draining.
  destruct (from_slice p.1) as [hdr|]; [|done]. match goal with |- context [match ?x with Some key => _ | None => n end] => destruct x as [key|]; [|done] end.
  destruct (Ingress.connections (shard n) !! key) as [t|] eqn:Ht; [|done]. apply node_marked, node_carry; [done|done|..].
  - by apply (transports_exec (recv p.1 p.2 local)).
  - by rewrite exec_trace, issued_snoc.
Qed.

Lemma sweep_ok r serviced n : node_inv n -> exists x, sweep order config r serviced n = Ok x /\ node_inv x.1.
Proof using All.
  intros Hn. unfold sweep. destruct (bool_decide _); [by eexists|].
  set (n1 := n <| next_idle_sweep := _ |>).
  assert (forall g, node_inv (n1 <| applied_roster_generation := g |>)) as Hn2 by (intros g; by destruct Hn; split).
  assert (node_inv n1) as Hn1 by (by destruct Hn; split). destruct (shutting_down n1); [by eexists|].
  assert (exists n2, (if bool_decide (generation r = applied_roster_generation n1) then Ok n1
    else match roster r with Some current => enforce_all (walk r) current (n1 <| applied_roster_generation := generation r |>)
         | None => Ok (n1 <| applied_roster_generation := generation r |>) end) = Ok n2 /\ node_inv n2) as (n2 & -> & Hn3).
  { destruct (bool_decide _); [by exists n1|]. destruct (roster r) as [current|]; [by apply enforce_all_ok|by eexists]. }
  cbn [mbind result_bind]. destruct (cleanup_all_ok (walk r) (Config.idle_timeout_secs (server config) * 1000000000) n2 Hn3) as (n3 & -> & Hn4).
  eexists. split; [reflexivity|]. unfold take_serviced. destruct (take_into _ _) as [d l]. by apply node_dirty.
Qed.

(** ** Events *)

Abbreviation Receive := (receive order work from_slice version_is_supported negotiate_version retry_packet hmac_sign spki
  encode max_conn_id_len ttl settings base64_decode config auth_enabled local).

(** Connection numbers last, and a packet is not the replay that
    [IngressProps.retired_replay_panics] is about. *)
Definition packet_ok (m : Moment) (n : Node) (p : bytes * SocketAddr) : Prop :=
  next_conn_index (Shard.shared n) < 2 ^ 64 - 1 /\
  replays from_slice hmac_sign max_conn_id_len ttl settings m (shard n) p.1 p.2 local = false.
Fixpoint packets_ok (m : nat -> Moment) (packets : list (bytes * SocketAddr)) (st : Node * Output) : Prop :=
  match packets with
  | [] => True
  | p :: packets => packet_ok (m 0%nat) st.1 p /\ match Receive (m 0%nat) p st with Ok st' => packets_ok (fun i => m (S i)) packets st' | _ => True end
  end.

Lemma receive_ok m p n out :
  node_inv n -> out_ok m out -> packet_ok m n p ->
  exists st, Receive m p (n, out) = Ok st /\ node_inv st.1 /\ out_ok m st.2.
Proof using All.
  intros Hn Ho [Hb Hret]. pose proof (system_at (Shard.shared n) (shard n)) as Hs. pose proof (ingress_sys_ok _ (ni_sys _ Hn)) as Hok.
  assert (0 <= next_conn_index (Shard.shared n)) as H0 by apply (nu_next _ _ _ _ (so_numbers _ Hok)).
  pose proof (handle_packet_ok work from_slice version_is_supported negotiate_version retry_packet hmac_sign spki encode
    max_conn_id_len ttl settings m negotiate_nonempty retry_nonempty _ _ _ out p.1 p.2 local Hok Hs Ho Hb Hret) as Hp.
  cbn [IngressInv.shared system_of] in Hp.
  destruct (errless_Ok _ _ (handle_packet_errless _ _ _ _ _ _ _ _ _ _ _ _ _ _ _ _ _ _) Hp)
    as ([[[sh' s'] out'] polled] & He & _ & Ho').
  unfold receive. rewrite He. cbn [mbind result_bind].
  pose proof (handle_packet_arrived work from_slice version_is_supported negotiate_version retry_packet hmac_sign spki encode
    max_conn_id_len ttl settings m _ _ _ _ _ _ _ _ _ _ (conj H0 Hb) He) as Harr.
  assert (node_inv (n <| Shard.shared := sh' |> <| shard := s' |>)) as Hn1.
  { apply node_update; [done| |done]. eapply system_step; [|exact (ni_sys _ Hn)].
    eapply step_packet; [apply system_at|exact Ho|exact Hb|exact Hret|exact He]. }
  destruct polled as [i|]; [|by eexists]. set (n1 := n <| Shard.shared := _ |> <| shard := _ |>) in *.
  destruct (on_client_ok i (poll_http3_events order work base64_decode config auth_enabled) n1 Hn1) as (x & Hx & Hn2).
  - intros key t [_ Ht]%find_Some. apply handler_handles; [exact (ni_clients _ Hn1 _ _ Ht)|constructor].
  - rewrite Hx. by eexists.
Qed.
Lemma on_client_gso {A} i (m : M A) n x : on_client i m n = Ok x -> udp_gso x.2 = udp_gso n.
Proof.
  unfold on_client. destruct (find i n) as [[key t]|]; [|by intros [= <-]]. unfold on_key.
  destruct (noerr _) as [[a c]|e|]; cbn [mbind result_bind]; [|done..]. by intros [= <-].
Qed.
Lemma receive_gso m p st st' : Receive m p st = Ok st' -> udp_gso st'.1 = udp_gso st.1.
Proof.
  unfold receive. destruct st as [n out]. destruct (handle_packet _ _ _ _ _ _ _ _ _ _ _ _ _ _ _ _ _ _) as [[[[sh s] o] [i|]]|e|];
    cbn [mbind result_bind]; [|by intros [= <-]|done..].
  destruct (on_client _ _ _) as [x|e|] eqn:Hx; cbn [mbind result_bind]; [|done..]. intros [= <-]. by apply on_client_gso in Hx.
Qed.
Lemma receive_all_ok gso m packets n out :
  node_inv n -> (forall i, Ingress.udp_gso (m i) = gso) -> udp_gso n = gso -> (exists ps, batch_holds gso (stateless_batch out) ps) -> packets_ok m packets (n, out) ->
  exists st, receive_all order work from_slice version_is_supported negotiate_version retry_packet hmac_sign spki
      encode max_conn_id_len ttl settings base64_decode config auth_enabled local m packets (n, out) = Ok st /\ node_inv st.1 /\
    exists ps, batch_holds (udp_gso st.1) (stateless_batch st.2) ps.
Proof using All.
  revert m n out. induction packets as [|p packets IH]; intros m n out Hn Hm Hg Ho Hp; [rewrite <- Hg in Ho; by eexists|]. destruct Hp as [Hp1 Hp2].
  assert (out_ok (m 0%nat) out) as Ho0 by (unfold out_ok; by rewrite Hm).
  destruct (receive_ok (m 0%nat) p n out Hn Ho0 Hp1) as ([n1 out1] & Hr & Hn1 & Ho1). rewrite Hr in Hp2. cbn [receive_all]. rewrite Hr.
  cbn [mbind result_bind]. apply receive_gso in Hr. cbn [fst] in Hr. apply IH; try done; [by rewrite Hr|].
  unfold out_ok in Ho1. by rewrite Hm in Ho1.
Qed.

Lemma on_marked_ok i (m : M unit) n :
  node_inv n ->
  (forall key t, find i n = Some (key, t) ->
     handler order work (env (Ingress.client_index t)) ip_policy tun (whole t (owned n (Ingress.client_index t))) m) ->
  exists n', on_marked i m n = Ok n' /\ node_inv n'.
Proof using All.
  intros Hn Hm. unfold on_marked. destruct (find i n) as [[key t]|] eqn:Hf; [|by exists n].
  assert (exists x, on_client i m n = Ok x /\ node_inv x.2) as (x & -> & Hx).
  { apply on_client_ok; [done|]. intros k t1 Hk. rewrite Hf in Hk. injection Hk as <- <-.
    apply handler_handles; [exact (ni_clients _ Hn _ _ (proj2 (find_Some _ _ _ _ Hf)))|by apply (Hm key)]. }
  eexists. split; [reflexivity|]. by apply node_marked.
Qed.

Definition responses_ok (queue : list UdpResponse) : Prop :=
  Forall (fun b => forall l, ur_datagrams b = Some l -> Forall bytes_ok l) queue.
Lemma relay_target_datagrams_ok rounds queue n :
  node_inv n -> responses_ok queue -> exists x, relay_target_datagrams rounds queue n = Ok x /\ node_inv x.2.
Proof using All.
  revert queue n. induction rounds as [|rounds IH]; intros queue n Hn Hq; [by eexists|]. destruct queue as [|b rest]; [by eexists|].
  apply Forall_cons in Hq as [Hb Hq]. cbn [relay_target_datagrams]. destruct (has_udp _ _ _); [|by apply IH].
  assert (exists x, on_client (ur_index b) (relay_target_batch (ur_stream b) (ur_datagrams b)) (mark_dirty (ur_index b) n) = Ok x /\
    node_inv x.2) as ([full n1] & -> & Hn1).
  { apply on_client_ok; [by apply node_marked|]. intros key t [_ Ht]%find_Some. apply handler_answers.
    - exact (ni_clients _ (node_marked n (ur_index b) Hn) _ _ Ht).
    - by apply h_target. }
  cbn [mbind result_bind]. destruct (default false full); [by eexists|by apply IH].
Qed.
Lemma tcp_batch_ok left_ b queue n :
  node_inv n -> exists x, handle_tcp_event_batch order work base64_decode config auth_enabled left_ b queue n = Ok x /\ node_inv x.2.
Proof using All.
  revert left_ b n. induction queue as [|e rest IH]; intros left_ b n Hn; [by eexists|]. cbn [handle_tcp_event_batch].
  destruct (on_marked_ok (tcp_event_index e) (handle_tcp_event order work base64_decode config auth_enabled e) n Hn) as (n1 & He & Hn1).
  { intros. constructor. }
  rewrite He. cbn [mbind result_bind]. destruct left_ as [|[|k]]; [by exists (rest, n1)|by exists (rest, n1)|].
  destruct (bool_decide _); [by exists (rest, n1)|by apply IH].
Qed.

Lemma udp_setup_ok i stream r n : node_inv n -> exists n', udp_setup order i stream r n = Ok n' /\ node_inv n'.
Proof using All.
  intros Hn. unfold udp_setup. destruct (has_pending_udp i stream n); [|by exists n]. apply on_marked_ok; [done|]. intros. constructor.
Qed.

(** *** Packets of the TUN device *)

Lemma dst_addr_returns packet : dst_addr packet <> Panic.
Proof. destruct (addr_fast_path packet) as (_ & -> & Hp). by destruct (parse packet). Qed.

(** The shards of a listener stay as many as they are. *)
Lemma shards_bound sys k s : Ingress_ok sys -> shards sys !! k = Some s -> (k < nshards)%nat.
Proof.
  intros Hr. revert k s. unfold ingress_reachable in Hr. remember (system_new nshards max reuse) as sys0 eqn:H0.
  assert (forall k s, shards sys0 !! k = Some s -> (k < nshards)%nat) as Hinit.
  { intros k s Hs. rewrite H0 in Hs. apply elem_of_list_to_map_2, list_elem_of_In, in_map_iff in Hs as (j & [= <- <-] & Hj).
    apply in_seq in Hj. lia. }
  clear H0. induction Hr as [|sys0 sys1 sys2 Hst _ IH]; [exact Hinit|]. apply IH. clear IH sys2.
  intros k s. destruct Hst; cbn; try (intros [[<- _]|[_ Hk]]%lookup_insert_Some; by eapply Hinit); apply Hinit.
Qed.

Lemma index_shard_bound n i k : node_inv n -> index_shard (Shard.shared n) !! i = Some k -> (k < nshards)%nat.
Proof using All.
  intros Hn Hi. pose proof (ni_sys _ Hn) as Hr.
  apply (nu_shard _ _ _ _ (so_numbers _ (ingress_sys_ok _ Hr))) in Hi as (key & Hk). unfold numbers in Hk.
  destruct (shards _ !! k) as [s|] eqn:Hs'; [|done]. by eapply shards_bound.
Qed.

Lemma relay_tun_local_ok owner packet n :
  node_inv n -> exists x, relay_tun_local owner packet n = Ok x /\ node_inv x.2.
Proof using All.
  intros Hn. unfold relay_tun_local. destruct (find (conn_id owner) n) as [[key t]|] eqn:Hf; [|by eexists].
  apply find_Some in Hf as [_ Ht].
  assert (handles (Ingress.client_index t) (whole t (owned n (Ingress.client_index t))) (relay_tun_to (Routing.stream_id owner) packet)) as Hh.
  { apply handler_answers; [exact (ni_clients _ Hn _ _ Ht)|constructor]. }
  destruct (on_key_ok key t _ n Hn Ht Hh) as (more & c' & -> & Hn'). cbn [mbind result_bind]. eexists. split; [reflexivity|]. by apply if_marked.
Qed.

Lemma try_send_bound capacity p q : (length q <= capacity)%nat -> (length (try_send_to capacity p q) <= capacity)%nat.
Proof. intros Hq. unfold try_send_to. case_bool_decide; [rewrite length_app; cbn; lia|done]. Qed.
Lemma node_http2 n o capacity p q :
  node_inv n -> http2_queues n !! o = Some (capacity, q) ->
  node_inv (n <| http2_queues ::= fun m => <[o := (capacity, try_send_to capacity p q)]> m |>).
Proof.
  intros [H1 H2 H3 H3' H4 H5 H6 H7 H8 H9 H10 H11 H12] Ho. split; try done. intros o' c' q'. cbn.
  intros [[<- [= <- <-]]|[_ Hq]]%lookup_insert_Some; [|eauto]. destruct (H12 o capacity q Ho). split; [done|by apply try_send_bound].
Qed.
Lemma node_forward n k q :
  node_inv n -> (length q <= Z.to_nat SHARD_FORWARD_QUEUE_CAPACITY)%nat -> node_inv (n <| shard_queues ::= fun m => <[k := q]> m |>).
Proof.
  intros [H1 H2 H3 H3' H4 H5 H6 H7 H8 H9 H10 H11 H12] Hq. split; try done.
  - intros j Hj. cbn. rewrite lookup_insert. destruct (decide (k = j)); [by eexists|eauto].
  - intros j q'. cbn. intros [[<- <-]|[_ Hj]]%lookup_insert_Some; [done|eauto].
Qed.

Lemma relay_tun_packet_ok packet n : node_inv n -> exists x, relay_tun_packet packet n = Ok x /\ node_inv x.2.
Proof using All.
  intros Hn. unfold relay_tun_packet. pose proof (dst_addr_returns packet) as Hd. destruct (dst_addr packet) as [dst|e|]; [|by eexists|done].
  destruct (Routing.lookup (routing n) dst) as [owner|]; [|by eexists].
  destruct (index_shard (Shard.shared n) !! conn_id owner) as [k|] eqn:Hk.
  - destruct (bool_decide _); [by apply relay_tun_local_ok|].
    destruct (ni_queues _ Hn k (index_shard_bound _ _ _ Hn Hk)) as [q Hq]. rewrite Hq. eexists. split; [reflexivity|].
    apply node_forward; [done|]. apply try_send_bound. exact (ni_capacity _ Hn _ _ Hq).
  - destruct (http2_queues n !! owner) as [[capacity q]|] eqn:Hq; [|by apply relay_tun_local_ok].
    eexists. split; [reflexivity|]. by apply node_http2.
Qed.
Lemma relay_tun_packets_ok segments n : node_inv n -> exists n', relay_tun_packets segments n = Ok n' /\ node_inv n'.
Proof using All.
  revert n. induction segments as [|p segments IH]; intros n Hn; [by exists n|]. cbn [relay_tun_packets].
  destruct (relay_tun_packet_ok p n Hn) as ([more n1] & -> & Hn1). cbn [mbind result_bind]. destruct more; [by apply IH|by exists n1].
Qed.

(** ** Rounds *)

(** What comes from outside is as documented: a target's datagrams are bytes, and
    a verdict is one of the check that was started. *)
Definition event_ok (r : Round) (n : Node) : Prop :=
  match event r with
  | PacketBatch packets => shutting_down n = false -> packets_ok (moments_of r n) packets (n, output n)
  | Forwarded packets => packets_ok (moments_of r n) packets (n, output n)
  | TargetDatagram queue => responses_ok queue
  | AuthDone i stream request authorized => forall key t, find i n = Some (key, t) ->
      verdict (env (Ingress.client_index t)) stream request authorized (world (owned n (Ingress.client_index t)))
  | _ => True
  end.
(** The system calls return. *)
Definition socket_ok (r : Round) : Prop :=
  (forall i n j ms, Shard.sendmmsg r i n j ms <> Panic) /\ (forall i n j p a, Shard.send_to r i n j p a <> Panic) /\
  (forall j ms, reply_mmsg r j ms <> Panic) /\ (forall j p a, reply_to r j p a <> Panic).

Abbreviation Handle := (handle_event order work from_slice version_is_supported negotiate_version retry_packet hmac_sign spki
  encode max_conn_id_len ttl settings base64_decode config auth_enabled local).

Lemma handle_event_ok r n :
  node_inv n -> (forall g, exists ps, batch_holds g (stateless_batch (output n)) ps) -> event_ok r n ->
  exists x, Handle r n (output n) = Ok x /\ node_inv x.1 /\ exists ps, batch_holds (udp_gso x.1) (stateless_batch x.2) ps.
Proof using All.
  intros Hn Ho He. unfold handle_event, event_ok in *. destruct (event r).
  - destruct (shutdown_all_ok (walk r) n Hn) as (n' & -> & Hn'). eexists. split; [reflexivity|]. split; [by destruct Hn'; split|done].
  - destruct (shutting_down n); [|by apply (receive_all_ok (udp_gso n)); [..|apply He]].
    eexists. split; [reflexivity|]. split; [by apply receive_draining_ok|done].
  - destruct (relay_target_datagrams_ok MAX_UDP_RESPONSES_PER_ROUND queue n Hn He) as (x & -> & Hx). by eexists.
  - destruct (udp_setup_ok index stream result n Hn) as (n' & -> & Hn'). by eexists.
  - destruct (tcp_batch_ok MAX_TCP_RELAY_EVENTS_PER_ROUND 0 queue n Hn) as (x & -> & Hx). by eexists.
  - destruct (relay_tun_packets_ok (take MAX_TUN_RECV_BATCH segments) n Hn) as (n' & -> & Hn'). by eexists.
  - by apply (receive_all_ok (udp_gso n)).
  - destruct (relay_tun_packet_ok packet n Hn) as (x & -> & Hx). by eexists.
  - assert (exists n', on_marked index (handle_auth_result order work base64_decode config auth_enabled stream request authorized) n = Ok n' /\
      node_inv n') as (n' & -> & Hn'); [|by eexists].
    apply on_marked_ok; [done|]. intros key t Hf. apply h_verdict. exact (He key t Hf).
  - by eexists.
Qed.

Abbreviation run_round := (round order work budget from_slice version_is_supported negotiate_version retry_packet hmac_sign spki
  encode max_conn_id_len ttl settings base64_decode config auth_enabled ip_policy tun local).

Lemma flush_round_ok r n out :
  node_inv n -> (exists ps, batch_holds (udp_gso n) (stateless_batch out) ps) -> socket_ok r ->
  exists x, flush_output r n out = Ok x /\ node_inv x.1.
Proof using All.
  intros Hn [ps Ho] (_ & _ & H1 & H2). unfold flush_output. destruct (flush_forward_batches _ _) as [[batches ins] ds].
  cbn [stateless_batch]. destruct (batch_is_empty _); [eexists; split; [reflexivity|by destruct Hn; split]|].
  destruct (send_batch_holds (reply_mmsg r) (reply_to r) split H1 H2 (udp_gso n) (udp_gso n) (stateless_batch out) ps Ho (fun h => h)) as (e & He & _).
  cbn [udp_gso]. change (udp_gso (n <| inboxes := ins |> <| output := _ |>)) with (udp_gso n). rewrite He. eexists. split; [reflexivity|].
  by destruct Hn; split.
Qed.

Lemma begin_round_ok n : node_inv n -> node_inv (begin_round n).
Proof using All. intros Hn. pose proof (node_dirty n (end_round (Ingress.dirty (shard n))) Hn) as H1. by destruct H1; split. Qed.
Lemma drained_ok r n : node_inv n -> node_inv (drained r n).1.
Proof.
  intros Hn. unfold drained. destruct (drain_deadline n); [|done]. destruct (bool_decide _); [done|]. destruct (bool_decide _); [|done].
  by destruct Hn; split.
Qed.

Lemma round_keeps r n :
  Shard.sendmmsg r = sendmmsg -> Shard.send_to r = send_to -> socket_ok r -> node_inv n -> event_ok r (begin_round n) ->
  exists n' report, run_round r n = Ok (n', report) /\ node_inv n'.
Proof using All.
  intros Hr1 Hr2 Hsock Hn%begin_round_ok He. unfold round.
  assert (forall g, exists ps, batch_holds g (stateless_batch (output (begin_round n))) ps) as Ho by (intros g; exists []; apply clear_holds).
  destruct (handle_event_ok r _ Hn Ho He) as ([n1 out] & -> & Hn1 & Ho1). cbn [mbind result_bind fst snd] in *.
  destruct (flush_round_ok r n1 out Hn1 Ho1 Hsock) as ([n2 rep] & -> & Hn2). cbn [mbind result_bind fst] in *.
  destruct (node_expire n2 (at_timers r) Hn2) as (s & -> & Hn3). cbn [mbind result_bind].
  unfold take_serviced at 1. destruct (take_into _ _) as [d serviced]. set (n3 := (n2 <| shard := s |>) <| shard := _ |>).
  assert (node_inv n3) as Hn4 by exact (node_dirty _ d Hn3).
  assert (exists n4, (if shutting_down n3 then Ok n3 else relay_round order work base64_decode config auth_enabled ip_policy tun serviced n3) = Ok n4 /\
    node_inv n4) as (n4 & -> & Hn5) by (destruct (shutting_down n3); [by eexists|by apply relay_round_ok]).
  cbn [mbind result_bind]. destruct (sweep_ok r serviced n4 Hn5) as ([n5 serviced'] & -> & Hn6). cbn [mbind result_bind fst] in *.
  rewrite Hr1, Hr2.
  destruct (for_each_ok (drive_connection order budget sendmmsg send_to) serviced' n5 (fun i n _ => drive_connection_ok i n) Hn6) as (n6 & -> & Hn7).
  cbn [mbind result_bind].
  destruct (for_each_ok reap_connection serviced' n6 (fun i n _ => reap_connection_ok i n) Hn7) as (n7 & -> & Hn8).
  cbn [mbind result_bind]. pose proof (drained_ok r n7 Hn8) as Hn9. destruct (drained r n7) as [n8 stop]. by eexists _, _.
Qed.
End node.
