(* ===== verification/Server.v ===== *)
(** * The shards of a listener together

    The shards of [src/server/mod.rs] run on their own and share the ownership
    tables, the routing table, the queues between them and the HTTP/2 streams
    that carry IP packets ([src/server/http2/connection.rs] and
    [src/server/http2/ip.rs]).  A step of the server is a round of one shard, or
    one access of an HTTP/2 task to what is shared. *)

From stdpp Require Import list gmap strings.
From S2P Require Import Prelude Varint Net Policy Routing AddressPool Scheduler Admission Retry Pacing Ingress IngressInv IngressProps.
From S2P Require Import ClientIdentity Lease Uri Auth Config Request TcpTunnel TargetUdp UdpTunnel Quiche QuicBatch.
From S2P Require Import Connection CapsuleIo Client Handlers Relay ClientLogic ClientProps Shard ShardInv.
Open Scope Z_scope.

Definition MAX_TUN_QUEUE_PACKETS : Z := 256.

(** ** State *)

(** What the shards share, the shards that still run, and each shard; of a shard
    here only what is its own counts.  [http2_connections] are the numbers of
    the HTTP/2 connections and [http2_leases] the addresses their streams hold. *)
Record Server := {
  sv_shared : Ingress.Shared;
  sv_routing : RoutingTable;
  sv_shard_queues : gmap nat (list bytes);
  sv_http2_queues : gmap TunnelOwner (nat * list bytes);
  sv_inboxes : list Inbox;
  sv_released : list (list IpAddr);
  http2_connections : gset Z;
  http2_leases : gmap TunnelOwner (list IpAddr);
  running : gset nat;
  locals : gmap nat Node;
}.
#[export] Instance Server_eta : Eta Server := fun sv =>
  {| sv_shared := sv_shared sv; sv_routing := sv_routing sv; sv_shard_queues := sv_shard_queues sv;
     sv_http2_queues := sv_http2_queues sv; sv_inboxes := sv_inboxes sv; sv_released := sv_released sv;
     http2_connections := http2_connections sv; http2_leases := http2_leases sv; running := running sv; locals := locals sv |}.

(** The shard with what is shared now, and what it leaves. *)
Definition view (sv : Server) (n : Node) : Node :=
  n <| Shard.shared := sv_shared sv |> <| routing := sv_routing sv |> <| shard_queues := sv_shard_queues sv |>
    <| http2_queues := sv_http2_queues sv |> <| inboxes := sv_inboxes sv |> <| released := sv_released sv |>.
Definition publish (sv : Server) (k : nat) (n : Node) : Server :=
  sv <| sv_shared := Shard.shared n |> <| sv_routing := routing n |> <| sv_shard_queues := shard_queues n |>
     <| sv_http2_queues := http2_queues n |> <| sv_inboxes := inboxes n |> <| sv_released := released n |>
     <| locals ::= fun m => <[k := n]> m |>.

(** The tables of all shards. *)
Definition tables (sv : Server) : System := {| IngressInv.shared := sv_shared sv; shards := shard <$> locals sv |}.

(** ** Start *)

Definition node_new (sys : System) (k : nat) (s : Ingress.Shard) (start generation : Z) (gso : bool) (nshards : nat) : Node :=
  {| Shard.shared := IngressInv.shared sys; shard := s; tunnels := ∅; deferred := ∅; routing := Routing.new;
     shard_queues := ∅; http2_queues := ∅; inboxes := []; released := [];
     output := {| stateless_batch := batch_new; stateless_retries := 0; forward_batches := replicate nshards no_forward |};
     Shard.udp_gso := gso; next_idle_sweep := start + IDLE_SWEEP_INTERVAL; applied_roster_generation := generation;
     drain_deadline := None |}.
Definition server_new (nshards max : nat) (reuse : bool) (start generation : Z) (gso : bool) : Server :=
  let sys := system_new nshards max reuse in
  {| sv_shared := IngressInv.shared sys; sv_routing := Routing.new;
     sv_shard_queues := list_to_map (map (fun k => (k, [])) (seq 0 nshards)); sv_http2_queues := ∅;
     sv_inboxes := replicate nshards inbox_new; sv_released := []; http2_connections := ∅; http2_leases := ∅;
     running := list_to_set (seq 0 nshards);
     locals := map_imap (fun k s => Some (node_new sys k s start generation gso nshards)) (shards sys) |}.

(** ** HTTP/2 *)

Definition http2_connect (sv : Server) : Server :=
  let '(number, sh) := take_number (sv_shared sv) in
  sv <| sv_shared := sh |> <| http2_connections ::= union {[number]} |>.

(** The packets that wait for a stream are bounded by its send buffer. *)
Definition return_queue_capacity (config : ServerConfig) : nat :=
  let max_ip_packet := Z.min (tun_mtu (ip_proxy config)) (h2_max_datagram_size (http2 config)) in
  Z.to_nat (Z.max 1 (Z.min MAX_TUN_QUEUE_PACKETS (max_send_buffer_size (http2 config) / Z.max 1 max_ip_packet))).

Definition http2_attach (config : ServerConfig) (owner : TunnelOwner) (addresses : list IpAddr) (sv : Server) : Server :=
  sv <| sv_http2_queues ::= fun m => <[owner := (return_queue_capacity config, [])]> m |>
     <| sv_routing ::= fun rt => fold_left (fun rt a => (Routing.insert rt a owner).1) addresses rt |>
     <| http2_leases ::= fun m => <[owner := addresses]> m |>.
(** The stream reads the next packet. *)
Definition http2_read (owner : TunnelOwner) (sv : Server) : option (bytes * Server) :=
  match sv_http2_queues sv !! owner with
  | Some (capacity, p :: q) => Some (p, sv <| sv_http2_queues ::= fun m => <[owner := (capacity, q)]> m |>)
  | _ => None
  end.
(** Dropping [Http2IpLease]. *)
Definition http2_detach (owner : TunnelOwner) (sv : Server) : Server :=
  match http2_leases sv !! owner with
  | None => sv
  | Some addresses =>
      sv <| sv_http2_queues ::= delete owner |> <| sv_routing ::= fun rt => remove_owned rt addresses owner |>
         <| sv_released ::= fun l => l ++ [addresses] |> <| http2_leases ::= delete owner |>
  end.

(** ** Rounds *)

(** The event of a shard is taken from its queue, where it comes from one. *)
Definition receive_event (k : nat) (e : Event) (n : Node) : option Node :=
  match e with
  | TunInbound packet =>
      match shard_queues n !! k with
      | Some (p :: q) => if bool_decide (p = packet) then Some (n <| shard_queues ::= fun m => <[k := q]> m |>) else None
      | _ => None
      end
  | Forwarded packets =>
      match inboxes n !! k with
      | Some inbox =>
          match queued inbox with
          | b :: _ => if bool_decide (fwd_packets b = packets) then Some (n <| inboxes ::= fun l => <[k := receive_forwarded inbox]> l |>)
                      else None
          | [] => None
          end
      | None => None
      end
  | _ => Some n
  end.

Section server.
Context `{HQ : Quiche} `{HO : Outside} `{HAl : Allocator} `{HA : Aead}.
Context (order : gset Z -> list Z) (work budget : conn -> nat).
Context (from_slice : bytes -> option Hdr) (version_is_supported : Z -> bool)
  (negotiate_version : bytes -> bytes -> option bytes)
  (retry_packet : bytes -> bytes -> bytes -> bytes -> Z -> option bytes)
  (hmac_sign : bytes -> bytes) (spki : bytes -> option bytes) (encode : bytes -> bytes)
  (max_conn_id_len : nat) (ttl : Z) (settings : Settings).
Context (base64_decode : bytes -> option bytes) (config : ServerConfig) (auth_enabled : bool)
  (verify : Client.Credential -> bytes -> bool).
Context {N4 N6 : Type} `{!NetOps N4, !NetOps N6} (ip_policy : TargetPolicy N4 N6) (tun : bool).
Context (local : SocketAddr).

Abbreviation run_round := (round order work budget from_slice version_is_supported negotiate_version retry_packet hmac_sign spki
  encode max_conn_id_len ttl settings base64_decode config auth_enabled ip_policy tun local).
Abbreviation arrives := (event_ok order work from_slice version_is_supported negotiate_version retry_packet hmac_sign spki
  encode max_conn_id_len ttl settings base64_decode config auth_enabled verify ip_policy local).

(** What a shard may take up: an open branch of its [select!], from its queue,
    with the outside as documented. *)
Definition ready (sv : Server) (k : nat) (r : Round) (n : Node) : Prop :=
  k ∈ running sv /\ (exists n0, locals sv !! k = Some n0 /\ selectable tun (view sv n0) (event r) = true /\
    receive_event k (event r) (view sv n0) = Some n) /\ socket_ok r /\ arrives r (begin_round n).

Inductive server_step : Server -> Server -> Prop :=
| sv_round sv k r n n' report :
    ready sv k r n -> run_round r n = Ok (n', report) ->
    server_step sv (publish sv k n' <| running ::= fun ks => if ended report then ks ∖ {[k]} else ks |>)
| sv_connect sv :
    next_conn_index (sv_shared sv) < 2 ^ 64 - 1 -> server_step sv (http2_connect sv)
| sv_attach sv owner addresses :
    conn_id owner ∈ http2_connections sv -> http2_leases sv !! owner = None ->
    server_step sv (http2_attach config owner addresses sv)
| sv_read sv owner packet sv' : http2_read owner sv = Some (packet, sv') -> server_step sv sv'
| sv_detach sv owner : server_step sv (http2_detach owner sv)
| sv_admission sv a :
    admission_step (source_admissions (sv_shared sv)) a ->
    (forall i k c, IngressInv.clients (tables sv) i k = Some c -> guards a !! guard c = Some (source c)) ->
    server_step sv (sv <| sv_shared := with_admissions (sv_shared sv) a |>).

Definition server_reachable (nshards max : nat) (reuse : bool) (sv : Server) : Prop :=
  exists start generation gso, rtc server_step (server_new nshards max reuse start generation gso) sv.
End server.
