(* ===== verification/ServerInv.v ===== *)
(** * What the shards keep together

    The invariant of a server: each shard sees the others only as numbers that
    are taken, which is what [ShardInv] asks of its surroundings, and keeps what
    they rely on. *)

From stdpp Require Import list gmap strings.
From S2P Require Import Prelude Varint Net Policy Routing AddressPool Scheduler Admission Retry Pacing Ingress IngressInv IngressProps.
From S2P Require Import ClientIdentity Lease Uri Auth Config Request TcpTunnel TargetUdp UdpTunnel Quiche QuicBatch.
From S2P Require Import Connection CapsuleIo Client Handlers Relay Totality ClientLogic HandlersInv ServeInv ResultsInv RelayInv ClientProps.
From S2P Require Import Shard ShardInv Server.
Open Scope Z_scope.

Section server.
Context `{HQ : Quiche} `{HO : Outside} `{HAl : Allocator} `{HA : Aead}.
Context (order : gset Z -> list Z) (work budget : conn -> nat).
Context (from_slice : bytes -> option Hdr) (version_is_supported : Z -> bool)
  (negotiate_version : bytes -> bytes -> option bytes)
  (retry_packet : bytes -> bytes -> bytes -> bytes -> Z -> option bytes)
  (hmac_sign : bytes -> bytes) (spki : bytes -> option bytes) (encode : bytes -> bytes)
  (max_conn_id_len : nat) (ttl : Z) (settings : Settings).
Context (base64_decode : bytes -> option bytes) (config : ServerConfig) (auth_enabled : bool)
  (verify : Client.Credential -> bytes -> bool).
Context {N4 N6 : Type} `{!NetOps N4, !NetOps N6} (ip_policy : TargetPolicy N4 N6) (tun : bool).
Context (local : SocketAddr).
Context (nshards max : nat) (reuse : bool).

Abbreviation Ingress_ok := (ingress_reachable work from_slice version_is_supported negotiate_version retry_packet hmac_sign
  spki encode max_conn_id_len ttl settings nshards max reuse).
Abbreviation Reach i := (reachable order work (env base64_decode config auth_enabled verify ip_policy i) ip_policy tun).
Abbreviation Node_inv := (node_inv order work from_slice version_is_supported negotiate_version retry_packet hmac_sign spki encode
  max_conn_id_len ttl settings base64_decode config auth_enabled verify ip_policy tun nshards max reuse).

(** A connection of some shard. *)
Definition live (sv : Server) (k : nat) (n : Node) (key : ConnectionId) (t : Ingress.Client) : Prop :=
  locals sv !! k = Some n /\ Ingress.connections (shard n) !! key = Some t.

Record server_inv (sv : Server) : Prop := {
  si_tables : Ingress_ok (tables sv);
  si_clients : forall k n key t, live sv k n key t -> Reach (Ingress.client_index t) (whole t (owned n (Ingress.client_index t)));
  si_tunnels : forall k n i c, locals sv !! k = Some n -> tunnels n !! i = Some c -> i < next_conn_index (sv_shared sv);
  si_bound : forall a o, Routing.lookup (sv_routing sv) a = Some o -> conn_id o < next_conn_index (sv_shared sv);
  si_routes : forall a o k n key t, Routing.lookup (sv_routing sv) a = Some o -> live sv k n key t ->
    Ingress.client_index t = conn_id o -> leased (world (owned n (conn_id o))) (Routing.stream_id o) a;
  si_http2 : forall i, i ∈ http2_connections sv ->
    i < next_conn_index (sv_shared sv) /\ forall k n key t, live sv k n key t -> Ingress.client_index t <> i;
  si_http2_routes : forall a o, Routing.lookup (sv_routing sv) a = Some o -> conn_id o ∈ http2_connections sv ->
    exists l, http2_leases sv !! o = Some l /\ a ∈ l;
  si_leases : forall o l, http2_leases sv !! o = Some l -> conn_id o ∈ http2_connections sv;
  si_waiting : forall k n i d, locals sv !! k = Some n -> deferred n !! i = Some d ->
    Pacing.queue_ok d /\ deferred_bytes d <= MAX_DEFERRED_BYTES;
  si_queues : forall k, (k < nshards)%nat -> is_Some (sv_shard_queues sv !! k);
  si_capacity : forall k q, sv_shard_queues sv !! k = Some q -> (length q <= Z.to_nat SHARD_FORWARD_QUEUE_CAPACITY)%nat;
  si_attached : forall o capacity q, sv_http2_queues sv !! o = Some (capacity, q) ->
    is_Some (http2_leases sv !! o) /\ (length q <= capacity)%nat;
}.

(** What is around a shard. *)
Definition taken (sv : Server) (k : nat) (i : Z) : Prop :=
  i ∈ http2_connections sv \/ exists j n key t, j <> k /\ live sv j n key t /\ Ingress.client_index t = i.
Definition rightful (sv : Server) (k : nat) (o : TunnelOwner) (a : IpAddr) : Prop :=
  (conn_id o ∈ http2_connections sv -> exists l, http2_leases sv !! o = Some l /\ a ∈ l) /\
  forall j n key t, j <> k -> live sv j n key t -> Ingress.client_index t = conn_id o ->
    leased (world (owned n (conn_id o))) (Routing.stream_id o) a.
Abbreviation Around sv k := (Node_inv k (shard <$> locals sv) (next_conn_index (sv_shared sv)) (taken sv k) (rightful sv k)
  (fun o => is_Some (http2_leases sv !! o))).

Context `{HC : !ConnectionLaws work} `{HCid : !CidLaws work} `{HOL : !OutsideLaws} `{HW : !WalkLaws order}.
Context (some_sources : (0 < max)%nat).
Context (negotiate_nonempty : forall a b p, negotiate_version a b = Some p -> 0 < zlen p).
Context (retry_nonempty : forall a b c t v p, retry_packet a b c t v = Some p -> 0 < zlen p).

Lemma tables_ok sv : server_inv sv -> sys_ok (tables sv).
Proof using All.
  intros Hsv. by apply (ingress_reachable_ok work from_slice version_is_supported negotiate_version retry_packet hmac_sign spki encode
    max_conn_id_len ttl settings negotiate_nonempty retry_nonempty nshards max reuse), Hsv.
Qed.

(** A number is taken by one connection. *)
Lemma live_number sys i n j m k1 t1 k2 t2 :
  sys_ok sys -> shards sys !! i = Some n -> shards sys !! j = Some m ->
  Ingress.connections n !! k1 = Some t1 -> Ingress.connections m !! k2 = Some t2 ->
  Ingress.client_index t1 = Ingress.client_index t2 -> i = j /\ Ingress.client_index t1 < next_conn_index (IngressInv.shared sys).
Proof.
  intros Hok Hi Hj H1 H2 He. pose proof (so_numbers _ Hok) as Hnum.
  assert (forall a s key t, shards sys !! a = Some s -> Ingress.connections s !! key = Some t ->
    index_shard (IngressInv.shared sys) !! Ingress.client_index t = Some a) as Hidx.
  { intros a s key t Ha Ht. apply (nu_shard _ _ _ _ Hnum). exists key. apply (nu_conn _ _ _ _ Hnum). by rewrite (clients_at _ _ _ _ Ha). }
  pose proof (Hidx _ _ _ _ Hi H1) as E1. pose proof (Hidx _ _ _ _ Hj H2) as E2. split; [congruence|].
  apply (nu_bound _ _ _ _ Hnum _ _ E1).
Qed.
Lemma locals_shards sv k n : locals sv !! k = Some n -> shards (tables sv) !! k = Some (shard n).
Proof. intros Hk. cbn. by rewrite lookup_fmap, Hk. Qed.

(** The shard's part of the invariant. *)
Lemma server_node sv k n0 :
  server_inv sv -> locals sv !! k = Some n0 -> Around sv k (view sv n0).
Proof using All.
  intros Hsv Hk. pose proof (tables_ok sv Hsv) as Hok. split; cbn.
  - assert (system_of k (shard <$> locals sv) (sv_shared sv) (shard n0) = tables sv) as ->.
    { unfold system_of, tables. f_equal. apply insert_id. by rewrite lookup_fmap, Hk. }
    apply Hsv.
  - intros key t Ht. apply (si_clients _ Hsv k n0 key t). by split.
  - intros key t Ht [Hh|(j & m & key2 & t2 & Hne & [Hj Ht2] & He)].
    + by apply (proj2 (si_http2 _ Hsv _ Hh) k n0 key t).
    + by destruct (live_number (tables sv) j (shard m) k (shard n0) key2 t2 key t Hok (locals_shards _ _ _ Hj) (locals_shards _ _ _ Hk) Ht2 Ht He).
  - done.
  - intros i [Hh|(j & m & key2 & t2 & Hne & [Hj Ht2] & <-)]; [by apply (si_http2 _ Hsv)|].
    by destruct (live_number (tables sv) j (shard m) j (shard m) key2 t2 key2 t2 Hok (locals_shards _ _ _ Hj) (locals_shards _ _ _ Hj) Ht2 Ht2 eq_refl).
  - intros i c. by apply (si_tunnels _ Hsv k n0).
  - apply (si_bound _ Hsv).
  - intros a o key t Ho Ht. by apply (si_routes _ Hsv a o k n0 key t).
  - intros a o Ho _. split; [by apply (si_http2_routes _ Hsv)|]. intros j m key t _ Hl. by apply (si_routes _ Hsv a o j m key t).
  - intros i d. by apply (si_waiting _ Hsv k n0).
  - apply (si_queues _ Hsv).
  - apply (si_capacity _ Hsv).
  - apply (si_attached _ Hsv).
Qed.

(** And back: what the shard leaves is a server again. *)
Lemma live_publish sv k n' j m key t :
  live (publish sv k n') j m key t -> (j = k /\ m = n' /\ Ingress.connections (shard n') !! key = Some t) \/ (j <> k /\ live sv j m key t).
Proof. intros [Hj Ht]. cbn in Hj. apply lookup_insert_Some in Hj as [[<- <-]|[Hne Hj]]; [by left|right; by repeat split]. Qed.

Lemma node_server sv k n0 n' :
  server_inv sv -> locals sv !! k = Some n0 -> Around sv k n' -> server_inv (publish sv k n').
Proof using All.
  intros Hsv Hk [Hsys Hcl Hap Hfl Hth Htn Hbd Hrt Hel Hwt Hqs Hcp Hat]. split; cbn.
  - assert (tables (publish sv k n') = system_of k (shard <$> locals sv) (Shard.shared n') (shard n')) as ->; [|exact Hsys].
    unfold system_of, tables. cbn. by rewrite fmap_insert.
  - intros j m key t [(-> & -> & Ht)|[_ Hl]]%live_publish; [by apply (Hcl key)|by eapply si_clients].
  - intros j m i c [[<- <-]|[_ Hj]]%lookup_insert_Some Hc; [by apply (Htn i c)|].
    pose proof (si_tunnels _ Hsv _ _ _ _ Hj Hc). lia.
  - exact Hbd.
  - intros a o j m key t Ho [(-> & -> & Ht)|[Hne Hl]]%live_publish He; [by apply (Hrt a o key t)|].
    apply (proj2 (Hel a o Ho (or_intror (ex_intro _ j (ex_intro _ m (ex_intro _ key (ex_intro _ t (conj Hne (conj Hl He))))))))) with j key t; done.
  - intros i Hi. split; [by apply Hth; left|].
    intros j m key t [(-> & -> & Ht)|[_ Hl]]%live_publish He; [|by apply (proj2 (si_http2 _ Hsv i Hi) j m key t)].
    apply (Hap _ _ Ht). left. by rewrite He.
  - intros a o Ho Hi. by apply (Hel a o Ho (or_introl Hi)).
  - apply (si_leases _ Hsv).
  - intros j m i d [[<- <-]|[_ Hj]]%lookup_insert_Some Hd; [by apply (Hwt i)|by eapply si_waiting].
  - exact Hqs.
  - exact Hcp.
  - exact Hat.
Qed.

(** ** HTTP/2 *)

Lemma next_bound sv : server_inv sv -> 0 <= next_conn_index (sv_shared sv).
Proof using All. intros Hsv. apply (nu_next _ _ _ _ (so_numbers _ (tables_ok sv Hsv))). Qed.
Lemma live_bound sv k n key t : server_inv sv -> live sv k n key t -> Ingress.client_index t < next_conn_index (sv_shared sv).
Proof using All.
  intros Hsv [Hk Ht]. apply locals_shards in Hk.
  by destruct (live_number (tables sv) k (shard n) k (shard n) key t key t (tables_ok sv Hsv) Hk Hk Ht Ht eq_refl).
Qed.

Lemma http2_connect_inv sv : next_conn_index (sv_shared sv) < 2 ^ 64 - 1 -> server_inv sv -> server_inv (http2_connect sv).
Proof using All.
  intros Hlt Hsv. pose proof (next_bound sv Hsv) as H0.
  assert (next_conn_index (take_number (sv_shared sv)).2 = next_conn_index (sv_shared sv) + 1) as Hnext by (cbn; rewrite Z.mod_small; lia).
  unfold http2_connect. rewrite (surjective_pairing (take_number _)). set (sh := (take_number (sv_shared sv)).2) in *.
  assert (Ingress_ok {| IngressInv.shared := sh; shards := shard <$> locals sv |}) as Htab.
  { eapply rtc_r; [apply (si_tables _ Hsv)|]. exact (step_number _ _ _ _ _ _ _ _ _ _ _ (tables sv) Hlt). }
  assert (forall k n key t, live sv k n key t -> Ingress.client_index t < next_conn_index (sv_shared sv)) as Hlb by eauto using live_bound.
  change (take_number (sv_shared sv)).1 with (next_conn_index (sv_shared sv)). clearbody sh.
  destruct Hsv as [H1 H2 H3 H4 H5 H6 H7 H8 H9 H10 H11 H12]. split; cbn; try done.
  - intros k n i c Hk Hc. pose proof (H3 k n i c Hk Hc). lia.
  - intros a o Ho. pose proof (H4 a o Ho). lia.
  - intros i [->%elem_of_singleton|Hi]%elem_of_union.
    + split; [lia|]. intros k n key t Hl. pose proof (Hlb k n key t Hl). lia.
    + destruct (H6 i Hi). split; [lia|done].
  - intros a o Ho [Hi%elem_of_singleton|Hi]%elem_of_union; [|by apply H7]. pose proof (H4 a o Ho). lia.
  - intros o l Hl. apply elem_of_union. right. by eapply H8.
Qed.

Lemma insert_all_lookup addresses owner rt a o :
  Routing.lookup (fold_left (fun rt a => (Routing.insert rt a owner).1) addresses rt) a = Some o ->
  Routing.lookup rt a = Some o \/ o = owner /\ a ∈ addresses.
Proof.
  revert rt. induction addresses as [|b l IH]; intros rt; [by left|]. cbn [fold_left]. intros [H|[-> H]]%IH; [|right; set_solver].
  unfold Routing.lookup in H. cbn in H. apply lookup_insert_Some in H as [[<- <-]|[_ H]]; [right; set_solver|by left].
Qed.
Lemma http2_attach_inv sv owner addresses :
  conn_id owner ∈ http2_connections sv -> http2_leases sv !! owner = None -> server_inv sv ->
  server_inv (http2_attach config owner addresses sv).
Proof.
  intros Hown Hnew [H1 H2 H3 H4 H5 H6 H7 H8 H9 H10 H11 H12]. split; cbn; try done.
  - intros a o [Ho|[-> _]]%insert_all_lookup; [by eapply H4|by apply H6].
  - intros a o k n key t [Ho|[-> _]]%insert_all_lookup Hl He; [by eapply H5|by destruct (proj2 (H6 _ Hown) k n key t Hl)].
  - intros a o [Ho|[-> Ha]]%insert_all_lookup Hi.
    + destruct (H7 a o Ho Hi) as (l & Hl & Ha). exists l. split; [|done]. rewrite lookup_insert_ne; [done|]. intros ->. congruence.
    + exists addresses. split; [apply lookup_insert_eq|done].
  - intros o l [[<- <-]|[_ Hl]]%lookup_insert_Some; [done|by eapply H8].
  - intros o c q [[<- [= _ <-]]|[Hne Hq]]%lookup_insert_Some; [split; [rewrite lookup_insert_eq; by eexists|cbn; lia]|].
    rewrite lookup_insert_ne by done. by apply H12.
Qed.
Lemma http2_detach_inv sv owner : server_inv sv -> server_inv (http2_detach owner sv).
Proof.
  intros Hsv. unfold http2_detach. destruct (http2_leases sv !! owner) as [l|] eqn:Hl; [|done].
  destruct Hsv as [H1 H2 H3 H4 H5 H6 H7 H8 H9 H10 H11 H12].
  assert (forall a o, Routing.lookup (remove_owned (sv_routing sv) l owner) a = Some o ->
    Routing.lookup (sv_routing sv) a = Some o /\ ~ (a ∈ l /\ o = owner)) as Hrem.
  { intros a o. rewrite remove_owned_lookup. case_bool_decide as Hd; [done|]. intros Ho. split; [done|]. intros [Ha ->]. naive_solver. }
  split; cbn; try done.
  - intros a o [Ho _]%Hrem. by eapply H4.
  - intros a o k n key t [Ho _]%Hrem. by eapply H5.
  - intros a o [Ho Hno]%Hrem Hi. destruct (H7 a o Ho Hi) as (l' & Hl' & Ha). exists l'. split; [|done].
    rewrite lookup_delete_ne; [done|]. intros ->. apply Hno. split; [congruence|done].
  - intros o l' [_ Hl']%lookup_delete_Some. by eapply H8.
  - intros o c q [Hne Hq]%lookup_delete_Some. rewrite lookup_delete_ne by done. by eapply H12.
Qed.
Lemma http2_read_inv sv owner packet sv' : http2_read owner sv = Some (packet, sv') -> server_inv sv -> server_inv sv'.
Proof.
  unfold http2_read. destruct (sv_http2_queues sv !! owner) as [[c [|p q]]|] eqn:Hq; [done| |done].
  intros [= <- <-] [H1 H2 H3 H4 H5 H6 H7 H8 H9 H10 H11 H12]. split; try done. intros o c' q'. cbn.
  intros [[<- [= <- <-]]|[_ Ho]]%lookup_insert_Some; [|by apply H12]. destruct (H12 _ _ _ Hq) as [Ha Hl]. split; [done|cbn in Hl; lia].
Qed.
Lemma admission_inv sv a :
  admission_step (source_admissions (sv_shared sv)) a ->
  (forall i k c, IngressInv.clients (tables sv) i k = Some c -> guards a !! guard c = Some (source c)) ->
  server_inv sv -> server_inv (sv <| sv_shared := with_admissions (sv_shared sv) a |>).
Proof.
  intros Ha Hg [H1 H2 H3 H4 H5 H6 H7 H8 H9 H10 H11 H12]. split; try done. eapply rtc_r; [exact H1|].
  exact (step_other _ _ _ _ _ _ _ _ _ _ _ (tables sv) a Ha Hg).
Qed.

(** ** Rounds *)

Context `{HAL : !AllocatorLaws} `{HS : !SendLaws budget} (split : Z -> bytes -> list bytes) `{HG : !GsoKernel split}.

Abbreviation run_round := (round order work budget from_slice version_is_supported negotiate_version retry_packet hmac_sign spki
  encode max_conn_id_len ttl settings base64_decode config auth_enabled ip_policy tun local).
Abbreviation Ready := (ready order work from_slice version_is_supported negotiate_version retry_packet hmac_sign spki
  encode max_conn_id_len ttl settings base64_decode config auth_enabled verify ip_policy tun local).
Abbreviation Step := (server_step order work budget from_slice version_is_supported negotiate_version retry_packet hmac_sign spki
  encode max_conn_id_len ttl settings base64_decode config auth_enabled verify ip_policy tun local).
Abbreviation Reachable := (server_reachable order work budget from_slice version_is_supported negotiate_version retry_packet hmac_sign spki
  encode max_conn_id_len ttl settings base64_decode config auth_enabled verify ip_policy tun local nshards max reuse).

Lemma receive_event_around sv k e n n' : Around sv k n -> receive_event k e n = Some n' -> Around sv k n'.
Proof.
  intros Hn. destruct e; cbn; try by intros [= <-].
  - destruct (inboxes n !! k) as [i|]; [|done]. destruct (queued i); [done|]. destruct (bool_decide _); [|done]. intros [= <-].
    by destruct Hn; split.
  - destruct (shard_queues n !! k) as [[|p q]|] eqn:Hq; [done| |done]. destruct (bool_decide _); [|done]. intros [= <-].
    apply node_forward; [done|]. destruct Hn as [_ _ _ _ _ _ _ _ _ _ _ Hcap _]. apply Hcap in Hq. cbn in Hq. lia.
Qed.
Lemma ready_around sv k r n : server_inv sv -> Ready sv k r n -> Around sv k n.
Proof using All.
  intros Hsv (_ & (n0 & Hk & _ & He) & _). eapply receive_event_around; [|exact He]. by apply server_node.
Qed.

Lemma ready_round sv k r n :
  server_inv sv -> Ready sv k r n ->
  exists n' report, run_round r n = Ok (n', report) /\ Around sv k n' /\ server_inv (publish sv k n').
Proof using All.
  intros Hsv Hr. pose proof (ready_around sv k r n Hsv Hr) as Hn. destruct Hr as (_ & (n0 & Hk & _) & Hsock & He).
  destruct Hsock as (H1 & H2 & H3).
  destruct (round_keeps order work budget from_slice version_is_supported negotiate_version retry_packet hmac_sign spki encode
    max_conn_id_len ttl settings base64_decode config auth_enabled verify ip_policy tun local nshards max reuse k _ _ _ _ _
    some_sources negotiate_nonempty retry_nonempty split (Shard.sendmmsg r) (Shard.send_to r) H1 H2 r n eq_refl eq_refl
    (conj H1 (conj H2 H3)) Hn He) as (n' & report & Hrun & Hn'). exists n', report. split_and!; [done|done|].
  by apply (node_server sv k n0).
Qed.

Lemma server_step_inv sv sv' : Step sv sv' -> server_inv sv -> server_inv sv'.
Proof using All.
  intros Hst Hsv. destruct Hst as [sv k r n n' report Hr Hrun|sv Hlt|sv owner addresses Hown Hnew|sv owner p sv' Hp|sv owner|sv a Ha Hg].
  - destruct (ready_round sv k r n Hsv Hr) as (n1 & rep1 & Hrun1 & _ & Hsv'). assert (n1 = n') as -> by congruence.
    by destruct Hsv'; split.
  - by apply http2_connect_inv.
  - by apply http2_attach_inv.
  - by eapply http2_read_inv.
  - by apply http2_detach_inv.
  - by apply admission_inv.
Qed.

Lemma server_new_inv start generation gso : server_inv (server_new nshards max reuse start generation gso).
Proof.
  set (sys := system_new nshards max reuse).
  assert (forall k n, locals (server_new nshards max reuse start generation gso) !! k = Some n ->
    exists s, shards sys !! k = Some s /\ n = node_new sys k s start generation gso nshards) as Hloc.
  { intros k n. cbn. rewrite map_lookup_imap. fold sys. intros (s & Hs & [= <-])%bind_Some. by exists s. }
  assert (forall k n key t, ~ live (server_new nshards max reuse start generation gso) k n key t) as Hnone.
  { intros k n key t [(s & Hs & ->)%Hloc Ht]. apply new_shard in Hs as (_ & Hc & _). cbn in Ht. rewrite Hc in Ht. by rewrite lookup_empty in Ht. }
  split.
  - assert (tables (server_new nshards max reuse start generation gso) = sys) as ->; [|apply rtc_refl].
    unfold tables, sys, system_new. cbn [sv_shared server_new IngressInv.shared locals]. f_equal. apply map_eq. intros k.
    rewrite lookup_fmap, map_lookup_imap. cbn [shards system_new]. by destruct (_ !! k).
  - intros k n key t []%Hnone.
  - intros k n i c (s & Hs & ->)%Hloc Hc. cbn in Hc. by rewrite lookup_empty in Hc.
  - intros a o Ho. unfold Routing.lookup in Ho. cbn in Ho. by rewrite lookup_empty in Ho.
  - intros a o k n key t _ []%Hnone.
  - intros i Hi. cbn in Hi. set_solver.
  - intros a o Ho. unfold Routing.lookup in Ho. cbn in Ho. by rewrite lookup_empty in Ho.
  - intros o l Hl. cbn in Hl. by rewrite lookup_empty in Hl.
  - intros k n i d (s & Hs & ->)%Hloc Hd. cbn in Hd. by rewrite lookup_empty in Hd.
  - intros k Hk. cbn. destruct (_ !! k) as [q|] eqn:Hq; [by eexists|]. apply not_elem_of_list_to_map in Hq as [].
    apply list_elem_of_fmap. exists (k, []). split; [done|]. apply list_elem_of_fmap. exists k. split; [done|]. apply elem_of_seq. lia.
  - intros k q Hq. cbn in Hq. apply elem_of_list_to_map_2, list_elem_of_fmap in Hq as (j & [= _ ->] & _). cbn. lia.
  - intros o c q Hq. cbn in Hq. by rewrite lookup_empty in Hq.
Qed.

Lemma reachable_server sv : Reachable sv -> server_inv sv.
Proof using All.
  intros (start & generation & gso & Hr). pose proof (server_new_inv start generation gso) as H0. revert H0.
  induction Hr; eauto using server_step_inv.
Qed.
End server.
