(* ===== verification/ServerProps.v ===== *)
(** * Guarantees of the server

    Every round of every shard returns, connections run as [ClientProps] says and
    the tables as [IngressProps] says, packets of the TUN device reach the holder
    of their destination, and a drain ends at its deadline. *)

From stdpp Require Import list gmap strings.
From S2P Require Import Prelude Varint Net Policy IpPacket Routing AddressPool Scheduler Admission Retry Pacing Ingress IngressInv IngressProps.
From S2P Require Import ClientIdentity Lease Uri Auth Config Request TcpTunnel TargetUdp UdpTunnel Quiche QuicBatch.
From S2P Require Import Connection CapsuleIo Client Handlers Relay Totality ClientLogic HandlersInv ServeInv ResultsInv RelayInv ClientProps.
From S2P Require Import Shard ShardInv Server ServerInv.
Open Scope Z_scope.

(** ** Draining *)

(** No connection is added, and the deadline stays. *)
Definition shrinks (n n' : Node) : Prop :=
  drain_deadline n' = drain_deadline n /\
  forall key, is_Some (Ingress.connections (shard n') !! key) -> is_Some (Ingress.connections (shard n) !! key).
#[export] Instance shrinks_preorder : PreOrder shrinks.
Proof. split; [done|]. intros n1 n2 n3 [E1 H1] [E2 H2]. split; [congruence|eauto]. Qed.

Lemma shrinks_at n n' key t :
  drain_deadline n' = drain_deadline n -> is_Some (Ingress.connections (shard n) !! key) ->
  Ingress.connections (shard n') = <[key := t]> (Ingress.connections (shard n)) -> shrinks n n'.
Proof.
  intros Hd Hk Hc. split; [done|]. intros k. rewrite Hc. destruct (decide (key = k)) as [->|Hne]; [done|]. by rewrite lookup_insert_ne.
Qed.

Section drain.
Context `{HQ : Quiche} `{HO : Outside} `{HAl : Allocator} `{HA : Aead}.
Context (order : gset Z -> list Z) (work budget : conn -> nat).
Context (from_slice : bytes -> option Hdr) (version_is_supported : Z -> bool)
  (negotiate_version : bytes -> bytes -> option bytes)
  (retry_packet : bytes -> bytes -> bytes -> bytes -> Z -> option bytes)
  (hmac_sign : bytes -> bytes) (spki : bytes -> option bytes) (encode : bytes -> bytes)
  (max_conn_id_len : nat) (ttl : Z) (settings : Settings).
Context (base64_decode : bytes -> option bytes) (config : ServerConfig) (auth_enabled : bool).
Context {N4 N6 : Type} `{!NetOps N4, !NetOps N6} (ip_policy : TargetPolicy N4 N6) (tun : bool).
Context (local : SocketAddr).

Abbreviation run_round := (round order work budget from_slice version_is_supported negotiate_version retry_packet hmac_sign spki
  encode max_conn_id_len ttl settings base64_decode config auth_enabled ip_policy tun local).
Abbreviation Handle := (handle_event order work from_slice version_is_supported negotiate_version retry_packet hmac_sign spki
  encode max_conn_id_len ttl settings base64_decode config auth_enabled local).

Lemma receive_draining_shrinks n p : shrinks n (receive_draining from_slice local n p).
Proof.
  unfold receive_draining. destruct (from_slice p.1) as [hdr|]; [|done].
  match goal with |- context [match ?x with Some key => _ | None => n end] => destruct x as [key|]; [|done] end.
  destruct (Ingress.connections (shard n) !! key) as [t|] eqn:Ht; [|done]. by eapply (shrinks_at _ _ key); [done|by eexists|].
Qed.
Lemma receive_all_shrinks packets n : shrinks n (fold_left (receive_draining from_slice local) packets n).
Proof.
  revert n. induction packets as [|p packets IH]; intros n; [done|]. cbn [fold_left]. etrans; [apply receive_draining_shrinks|apply IH].
Qed.
Lemma flush_output_shrinks r n out x : flush_output r n out = Ok x -> shrinks n x.1.
Proof.
  unfold flush_output. destruct (flush_forward_batches _ _) as [[bs ins] ds]. destruct (batch_is_empty _); [by intros [= <-]|].
  destruct (noerr _) as [e|e|]; cbn [mbind result_bind]; [by intros [= <-]|done|done].
Qed.
Lemma expire_shrinks n at_ s : expire_connection_timers (shard n) at_ = Ok s -> shrinks n (n <| shard := s |>).
Proof.
  intros He. split; [done|]. cbn. intros key [t' Ht']. unfold expire_connection_timers in He.
  destruct (noerr _) as [[q fired]|e|]; cbn [mbind result_bind] in He; [|done|done]. injection He as <-.
  match type of Ht' with context [Ingress.connections ?x] => assert (shard_index x = shard_index (shard n) /\
    forall key t', Ingress.connections x !! key = Some t' -> exists t, Ingress.connections (shard n) !! key = Some t /\ carried t t') as [_ Hc] end.
  { apply fire_carried; [done|]. intros k t Ht. exists t. by split. }
  destruct (Hc key t' Ht') as (t & Ht & _). by eexists.
Qed.
Lemma on_key_shrinks {A} key t (m : M A) n x :
  is_Some (Ingress.connections (shard n) !! key) -> on_key key t m n = Ok x -> shrinks n x.2.
Proof.
  intros Hk. unfold on_key. destruct (noerr _) as [[a c]|e|]; cbn [mbind result_bind]; [|done|done]. intros [= <-].
  by eapply (shrinks_at _ _ key).
Qed.
Lemma drive_shrinks mm st i n n' : drive_connection order budget mm st i n = Ok n' -> shrinks n n'.
Proof.
  unfold drive_connection. destruct (find i n) as [[key t]|] eqn:Hf; [|by intros [= <-]].
  destruct (find_Some _ _ _ _ Hf) as [_ Ht].
  destruct (noerr (discards _ _)) as [over|e|]; cbn [mbind result_bind]; [|done|done].
  destruct (on_key _ _ _ _) as [[u n1]|e|] eqn:Hk; cbn [mbind result_bind snd]; [|done|done].
  assert (is_Some (Ingress.connections (shard n) !! key)) as Hs by by eexists.
  pose proof (on_key_shrinks key t _ n _ Hs Hk) as Hsh. cbn [snd] in Hsh.
  assert (is_Some (Ingress.connections (shard n1) !! key)) as Hk1.
  { unfold on_key in Hk. destruct (noerr _) as [[a c]|e|]; cbn [mbind result_bind] in Hk; [|done|done]. injection Hk as <- <-.
    cbn. rewrite lookup_insert_eq. by eexists. }
  destruct (if over.1 then _ else _) as [d|e|]; cbn [mbind result_bind]; [|done|done].
  destruct (noerr (drive _ _ _ _)) as [s|e|]; cbn [mbind result_bind]; [|done|done].
  destruct (next_deadline _ _ _ _) as [at_ q]. destruct (reschedule _ _ _) as [[ts t3]|e|]; cbn [mbind result_bind]; [|done|done].
  intros [= <-]. etrans; [exact Hsh|]. by eapply (shrinks_at _ _ key).
Qed.
Lemma reap_shrinks i n n' : reap_connection i n = Ok n' -> shrinks n n'.
Proof.
  unfold reap_connection. destruct (find i n) as [[key t]|] eqn:Hf; [|by intros [= <-]].
  destruct (find_Some _ _ _ _ Hf) as [Hi Ht]. destruct (ask is_closed _) eqn:Hcl; cbn [negb]; [|by intros [= <-]].
  destruct (reap _ _ _) as [[sh s]|e|] eqn:Hr; cbn [mbind result_bind]; [|done|done]. intros [= <-].
  destruct (reap_table _ _ _ _ _ _ _ Hi Ht Hcl Hr) as (Hc & _). split; [done|]. cbn. rewrite Hc. intros k.
  destruct (decide (key = k)) as [->|Hne]; [by eexists|by rewrite lookup_delete_ne].
Qed.
Lemma for_each_shrinks {A} (f : A -> Node -> result unit Node) l n n' :
  (forall a n n', f a n = Ok n' -> shrinks n n') -> for_each f l n = Ok n' -> shrinks n n'.
Proof.
  intros Hf. revert n. induction l as [|a l IH]; intros n; [by intros [= <-]|]. cbn [for_each].
  destruct (f a n) as [n1|e|] eqn:Ha; cbn [mbind result_bind]; [|done|done]. intros Hl. etrans; [by eapply Hf|by apply IH].
Qed.

(** The addresses a node holds for a connection. *)
Definition frees (n : Node) : Prop :=
  forall key t l, Ingress.connections (shard n) !! key = Some t -> l ∈ leases_of (owned n (Ingress.client_index t)) -> l ∈ released n.
Definition walks (w : gmap ConnectionId Ingress.Client -> list ConnectionId) : Prop :=
  forall m key, is_Some (m !! key) -> key ∈ w m.

Lemma drained_ends r n d :
  drain_deadline n = Some d ->
  shrinks n (drained r n).1 /\
  (drained r n).2 = bool_decide (Ingress.connections (shard n) = ∅) || bool_decide (d <= at_exit r) /\
  Ingress.connections (shard (drained r n).1) = Ingress.connections (shard n) /\
  ((drained r n).2 = true -> walks (walk r) -> frees (drained r n).1).
Proof.
  intros Hd. unfold drained. rewrite Hd. case_bool_decide as He; cbn [orb].
  { split_and!; try done. intros _ _ key t l. cbn. by rewrite He, lookup_empty. }
  case_bool_decide; [|done]. split_and!; try done. intros _ Hw key t l Ht Hl. cbn. apply elem_of_app. right.
  apply list_elem_of_In, in_concat. exists (leases_of (owned n (Ingress.client_index t))). split; [|by apply list_elem_of_In].
  apply in_map_iff. exists key. cbn in Ht. rewrite Ht. split; [done|]. apply list_elem_of_In, Hw. by eexists.
Qed.

Lemma sweep_draining r serviced n :
  shutting_down n = true -> exists n', sweep order config r serviced n = Ok (n', serviced) /\ shrinks n n'.
Proof.
  intros Hsd. unfold sweep. destruct (bool_decide _); [by exists n|].
  change (shutting_down (n <| next_idle_sweep := _ |>)) with (shutting_down n). rewrite Hsd. by eexists.
Qed.

Lemma draining_round r n n1 out n' report d :
  Handle r (begin_round n) (output (begin_round n)) = Ok (n1, out) -> drain_deadline n1 = Some d ->
  run_round r n = Ok (n', report) ->
  shrinks n1 n' /\
  ended report = bool_decide (Ingress.connections (shard n') = ∅) || bool_decide (d <= at_exit r) /\
  (ended report = true -> walks (walk r) -> frees n').
Proof.
  intros He Hd. unfold round. rewrite He. cbn [mbind result_bind].
  destruct (flush_output _ _ _) as [[n2 rep]|e|] eqn:Hf; cbn [mbind result_bind]; [|done|done]. apply flush_output_shrinks in Hf.
  destruct (expire_connection_timers _ _) as [s|e|] eqn:Hs; cbn [mbind result_bind]; [|done|done]. apply expire_shrinks in Hs.
  unfold take_serviced at 1. destruct (take_into _ _) as [dirty serviced]. set (n3 := (n2 <| shard := s |>) <| shard := _ |>).
  assert (shrinks n1 n3) as H3 by (etrans; [exact Hf|exact Hs]).
  assert (shutting_down n3 = true) as Hsd by (apply bool_decide_true; rewrite (proj1 H3), Hd; by eexists).
  rewrite Hsd. cbn [mbind result_bind]. destruct (sweep_draining r serviced n3 Hsd) as (n4 & -> & H4). cbn [mbind result_bind].
  destruct (for_each (drive_connection _ _ _ _) _ _) as [n5|e|] eqn:H5; cbn [mbind result_bind]; [|done|done].
  apply for_each_shrinks in H5; [|intros; by eapply drive_shrinks].
  destruct (for_each reap_connection _ _) as [n6|e|] eqn:H6; cbn [mbind result_bind]; [|done|done].
  apply for_each_shrinks in H6; [|intros; by eapply reap_shrinks].
  assert (shrinks n1 n6) as H16 by (etrans; [exact H3|]; etrans; [exact H4|]; by etrans).
  destruct (drained_ends r n6 d) as (D1 & D2 & D3 & D4); [by rewrite (proj1 H16)|].
  destruct (drained r n6) as [n7 stop]. intros [= <- <-]. cbn [fst snd ended] in *. split; [by etrans|]. rewrite D3. by split.
Qed.

(** ** The deadline *)

(** Outside of the shutdown event nothing sets it. *)
Abbreviation same n n' := (drain_deadline n' = drain_deadline n).
Lemma on_key_same {A} key t (m : M A) n x : on_key key t m n = Ok x -> same n x.2.
Proof. unfold on_key. destruct (noerr _) as [[a c]|e|]; cbn [mbind result_bind]; [by intros [= <-]|done|done]. Qed.
Lemma on_client_same {A} i (m : M A) n x : on_client i m n = Ok x -> same n x.2.
Proof.
  unfold on_client. destruct (find i n) as [[key t]|]; [|by intros [= <-]].
  destruct (on_key _ _ _ _) as [[a n1]|e|] eqn:Hk; cbn [mbind result_bind]; [|done|done]. intros [= <-]. by apply on_key_same in Hk.
Qed.
Lemma on_marked_same {A} i (m : M A) n n' : on_marked i m n = Ok n' -> same n n'.
Proof.
  unfold on_marked. destruct (find i n) as [[key t]|]; [|by intros [= <-]].
  destruct (on_client _ _ _) as [x|e|] eqn:Hk; cbn [mbind result_bind]; [|done|done]. intros [= <-]. by apply on_client_same in Hk.
Qed.
Lemma for_each_same {A} (f : A -> Node -> result unit Node) l n n' :
  (forall a n n', f a n = Ok n' -> same n n') -> for_each f l n = Ok n' -> same n n'.
Proof.
  intros Hf. revert n. induction l as [|a l IH]; intros n; [by intros [= <-]|]. cbn [for_each].
  destruct (f a n) as [n1|e|] eqn:Ha; cbn [mbind result_bind]; [|done|done]. apply Hf in Ha. intros Hl%IH. congruence.
Qed.
Lemma on_all_same w f n n' : (forall key t n n', f key t n = Ok n' -> same n n') -> on_all w f n = Ok n' -> same n n'.
Proof.
  intros Hf. apply for_each_same. intros key n1 n2. destruct (_ !! key); [apply Hf|by intros [= <-]].
Qed.
Lemma relay_round_same serviced n n' :
  relay_round order work base64_decode config auth_enabled ip_policy tun serviced n = Ok n' -> same n n'.
Proof.
  apply for_each_same. intros m n1 n2. apply for_each_same. intros i n3 n4.
  destruct (on_client _ _ _) as [x|e|] eqn:Hk; cbn [mbind result_bind]; [|done|done]. intros [= <-]. by apply on_client_same in Hk.
Qed.
Lemma receive_all_same m packets st st' :
  receive_all order work from_slice version_is_supported negotiate_version retry_packet hmac_sign spki
    encode max_conn_id_len ttl settings base64_decode config auth_enabled local m packets st = Ok st' -> same st.1 st'.1.
Proof.
  revert m st. induction packets as [|p packets IH]; intros m st; [by intros [= <-]|]. cbn [receive_all].
  destruct (receive _ _ _ _ _ _ _ _ _ _ _ _ _ _ _ _ _ _ _) as [st1|e|] eqn:Hr; cbn [mbind result_bind]; [|done|done]. intros Hst%IH. rewrite Hst.
  unfold receive in Hr. destruct st as [n out]. destruct (handle_packet _ _ _ _ _ _ _ _ _ _ _ _ _ _ _ _ _ _) as [[[[sh s] o] [i|]]|e|];
    cbn [mbind result_bind] in Hr; [|by injection Hr as <-|done..].
  destruct (on_client _ _ _) as [x|e|] eqn:Hx; cbn [mbind result_bind] in Hr; [|done..]. injection Hr as <-. by apply on_client_same in Hx.
Qed.
Lemma relay_target_same rounds queue n x : relay_target_datagrams rounds queue n = Ok x -> same n x.2.
Proof.
  revert queue n. induction rounds as [|rounds IH]; intros queue n; [by intros [= <-]|]. destruct queue as [|b rest]; [by intros [= <-]|].
  cbn [relay_target_datagrams]. destruct (has_udp _ _ _); [|apply IH].
  destruct (on_client _ _ _) as [[full n1]|e|] eqn:Hx; cbn [mbind result_bind]; [|done..]. apply on_client_same in Hx. cbn in Hx.
  destruct (default false full); [by intros [= <-]|]. intros Hr%IH. congruence.
Qed.
Lemma tcp_batch_same l b queue n x : handle_tcp_event_batch order work base64_decode config auth_enabled l b queue n = Ok x -> same n x.2.
Proof.
  revert l b n. induction queue as [|e rest IH]; intros l b n; [by intros [= <-]|]. cbn [handle_tcp_event_batch].
  destruct (on_marked _ _ _) as [n1|?|] eqn:Hx; cbn [mbind result_bind]; [|done..]. apply on_marked_same in Hx.
  destruct l as [|[|l]]; [by intros [= <-]..|]. destruct (bool_decide _); [by intros [= <-]|]. intros Hr%IH. congruence.
Qed.
Lemma relay_tun_same packet n x : relay_tun_packet packet n = Ok x -> same n x.2.
Proof.
  assert (forall o x, relay_tun_local o packet n = Ok x -> same n x.2) as Hl.
  { intros o y. unfold relay_tun_local. destruct (find _ _) as [[key t]|]; [|by intros [= <-]].
    destruct (on_key _ _ _ _) as [[a n1]|e|] eqn:Hk; cbn [mbind result_bind]; [|done..]. apply on_key_same in Hk.
    intros [= <-]. by destruct (_ && _). }
  unfold relay_tun_packet. destruct (dst_addr packet); [|by intros [= <-]|done]. destruct (Routing.lookup _ _) as [o|]; [|by intros [= <-]].
  destruct (index_shard _ !! _); [destruct (bool_decide _); [apply Hl|]; destruct (shard_queues n !! _); [by intros [= <-]|done]|].
  destruct (http2_queues n !! o) as [[]|]; [by intros [= <-]|apply Hl].
Qed.
Lemma relay_tun_packets_same segments n n' : relay_tun_packets segments n = Ok n' -> same n n'.
Proof.
  revert n. induction segments as [|p segments IH]; intros n; [by intros [= <-]|]. cbn [relay_tun_packets].
  destruct (relay_tun_packet _ _) as [[more n1]|e|] eqn:Hx; cbn [mbind result_bind]; [|done..]. apply relay_tun_same in Hx. cbn in Hx.
  destruct more; [|by intros [= <-]]. intros Hr%IH. congruence.
Qed.

(** Except for the shutdown event, which sets it. *)
Definition deadline_after (r : Round) (n : Node) : option Z :=
  match event r with Shutdown => Some (at_event r + DRAIN_TIMEOUT) | _ => drain_deadline n end.
Lemma handle_deadline r n out n' out' : Handle r n out = Ok (n', out') -> drain_deadline n' = deadline_after r n.
Proof.
  unfold handle_event, deadline_after. destruct (event r).
  - destruct (shutdown_all _ _); cbn [mbind result_bind]; [by intros [= <- _]|done..].
  - destruct (shutting_down n); [|by intros Hr%receive_all_same]. intros [= <- _]. apply receive_all_shrinks.
  - destruct (relay_target_datagrams _ _ _) as [x|e|] eqn:Hx; cbn [mbind result_bind]; [|done..]. intros [= <- _]. by eapply relay_target_same.
  - unfold udp_setup. destruct (has_pending_udp _ _ _); [|by intros [= <- _]].
    destruct (on_marked _ _ _) as [n1|e|] eqn:Hx; cbn [mbind result_bind]; [|done..]. intros [= <- _]. by eapply on_marked_same.
  - destruct (handle_tcp_event_batch _ _ _ _ _ _ _ _ _) as [x|e|] eqn:Hx; cbn [mbind result_bind]; [|done..]. intros [= <- _]. by eapply tcp_batch_same.
  - destruct (relay_tun_packets _ _) as [x|e|] eqn:Hx; cbn [mbind result_bind]; [|done..]. intros [= <- _]. by eapply relay_tun_packets_same.
  - by intros Hr%receive_all_same.
  - destruct (relay_tun_packet _ _) as [x|e|] eqn:Hx; cbn [mbind result_bind]; [|done..]. intros [= <- _]. by eapply relay_tun_same.
  - destruct (on_marked _ _ _) as [n1|e|] eqn:Hx; cbn [mbind result_bind]; [|done..]. intros [= <- _]. by eapply on_marked_same.
  - by intros [= <- _].
Qed.
Lemma sweep_same r serviced n x : sweep order config r serviced n = Ok x -> same n x.1.
Proof.
  unfold sweep. destruct (bool_decide _); [by intros [= <-]|]. destruct (shutting_down _); [by intros [= <-]|].
  assert (forall w current n n', enforce_all w current n = Ok n' -> same n n') as He.
  { intros w current n1 n2. apply on_all_same. intros key t n3 n4. destruct (on_key _ _ _ _) as [y|e|] eqn:Hy; cbn [mbind result_bind]; [|done..].
    apply on_key_same in Hy. intros [= <-]. by destruct (revoked _ _). }
  destruct (if bool_decide _ then _ else _) as [n1|e|] eqn:H1; cbn [mbind result_bind]; [|done..].
  assert (same n n1) as Hn1 by (destruct (bool_decide _); [by injection H1 as <-|destruct (roster r); [by apply He in H1|by injection H1 as <-]]).
  destruct (cleanup_all _ _ _ _) as [n2|e|] eqn:H2; cbn [mbind result_bind]; [|done..]. unfold take_serviced.
  destruct (take_into _ _). intros [= <-]. cbn. rewrite <- Hn1. revert H2. apply on_all_same. intros key t n3 n4.
  destruct (on_key _ _ _ _) as [y|e|] eqn:Hy; cbn [mbind result_bind]; [|done..]. apply on_key_same in Hy. intros [= <-]. by destruct (swept _ _).
Qed.

(** The deadline of a round, and that no deadline means no end. *)
Lemma round_deadline r n n' report :
  run_round r n = Ok (n', report) ->
  drain_deadline n' = deadline_after r n /\ (deadline_after r n = None -> ended report = false).
Proof.
  unfold round. destruct (Handle _ _ _) as [[n1 out]|e|] eqn:H1; cbn [mbind result_bind]; [|done..]. apply handle_deadline in H1.
  change (deadline_after r (begin_round n)) with (deadline_after r n) in H1.
  destruct (flush_output _ _ _) as [[n2 rep]|e|] eqn:H2; cbn [mbind result_bind]; [|done..]. apply flush_output_shrinks, proj1 in H2.
  destruct (expire_connection_timers _ _) as [s|e|]; cbn [mbind result_bind]; [|done..].
  unfold take_serviced at 1. destruct (take_into _ _) as [d serviced]. set (n3 := (n2 <| shard := s |>) <| shard := _ |>).
  assert (same n2 n3) as H3 by done.
  destruct (if shutting_down n3 then _ else _) as [n4|e|] eqn:H4; cbn [mbind result_bind]; [|done..].
  assert (same n3 n4) as H4' by (destruct (shutting_down n3); [by injection H4 as <-|by eapply relay_round_same]).
  destruct (sweep _ _ _ _ _) as [[n5 serviced']|e|] eqn:H5; cbn [mbind result_bind]; [|done..]. apply sweep_same in H5.
  destruct (for_each (drive_connection _ _ _ _) _ _) as [n6|e|] eqn:H6; cbn [mbind result_bind]; [|done..].
  apply for_each_shrinks, proj1 in H6; [|intros; by eapply drive_shrinks].
  destruct (for_each reap_connection _ _) as [n7|e|] eqn:H7; cbn [mbind result_bind]; [|done..].
  apply for_each_shrinks, proj1 in H7; [|intros; by eapply reap_shrinks]. cbn [fst] in *.
  assert (drain_deadline n7 = deadline_after r n) as H8 by congruence. unfold drained.
  destruct (drain_deadline n7) as [dl|] eqn:H9; [|intros [= <- <-]; split; [congruence|done]].
  destruct (bool_decide _); [|destruct (bool_decide _)]; intros [= <- <-]; (split; [by cbn; congruence|congruence]).
Qed.

(** While a shard drains it only hears the socket and the timer. *)
Lemma draining_event r n d out n1 out1 :
  drain_deadline n = Some d -> selectable tun n (event r) = true -> Handle r (begin_round n) out = Ok (n1, out1) ->
  shrinks n n1 /\ deadline_after r n = Some d.
Proof.
  intros Hd Hsel He. assert (shutting_down n = true) as Hsd by (apply bool_decide_true; rewrite Hd; by eexists).
  unfold selectable in Hsel. rewrite Hsd in Hsel. unfold deadline_after, handle_event in *. destruct (event r); try done.
  - change (shutting_down (begin_round n)) with (shutting_down n) in He. rewrite Hsd in He. injection He as <- <-.
    split; [|done]. etrans; [|apply receive_all_shrinks]. done.
  - injection He as <- <-. by split.
Qed.

Lemma wakeup_bound n d : drain_deadline n = Some d -> (wakeup n).1 <= d.
Proof.
  intros Hd. unfold wakeup. rewrite Hd. destruct (match Scheduler.next_wakeup _ with Some _ => _ | None => _ end) as [at_ precise].
  case_bool_decide; cbn; lia.
Qed.
End drain.

(** ** Guarantees *)

Section guarantees.
Context `{HQ : Quiche} `{HO : Outside} `{HAl : Allocator} `{HA : Aead}.
Context (order : gset Z -> list Z) (work budget : conn -> nat).
Context (from_slice : bytes -> option Hdr) (version_is_supported : Z -> bool)
  (negotiate_version : bytes -> bytes -> option bytes)
  (retry_packet : bytes -> bytes -> bytes -> bytes -> Z -> option bytes)
  (hmac_sign : bytes -> bytes) (spki : bytes -> option bytes) (encode : bytes -> bytes)
  (max_conn_id_len : nat) (ttl : Z) (settings : Settings).
Context (base64_decode : bytes -> option bytes) (config : ServerConfig) (auth_enabled : bool)
  (verify : Client.Credential -> bytes -> bool).
Context {N4 N6 : Type} `{!NetOps N4, !NetOps N6} (ip_policy : TargetPolicy N4 N6) (tun : bool).
Context (local : SocketAddr).
Context (nshards max : nat) (reuse : bool).

Abbreviation Ingress_ok := (ingress_reachable work from_slice version_is_supported negotiate_version retry_packet hmac_sign
  spki encode max_conn_id_len ttl settings nshards max reuse).
Abbreviation Reach i := (reachable order work (env base64_decode config auth_enabled verify ip_policy i) ip_policy tun).
Abbreviation run_round := (round order work budget from_slice version_is_supported negotiate_version retry_packet hmac_sign spki
  encode max_conn_id_len ttl settings base64_decode config auth_enabled ip_policy tun local).
Abbreviation Ready := (ready order work from_slice version_is_supported negotiate_version retry_packet hmac_sign spki
  encode max_conn_id_len ttl settings base64_decode config auth_enabled verify ip_policy tun local).
Abbreviation Reachable := (server_reachable order work budget from_slice version_is_supported negotiate_version retry_packet hmac_sign spki
  encode max_conn_id_len ttl settings base64_decode config auth_enabled verify ip_policy tun local nshards max reuse).
Abbreviation Inv := (server_inv order work from_slice version_is_supported negotiate_version retry_packet hmac_sign spki
  encode max_conn_id_len ttl settings base64_decode config auth_enabled verify ip_policy tun nshards max reuse).

Context `{HC : !ConnectionLaws work} `{HCid : !CidLaws work} `{HOL : !OutsideLaws} `{HW : !WalkLaws order}.
Context (some_sources : (0 < max)%nat).
Context (negotiate_nonempty : forall a b p, negotiate_version a b = Some p -> 0 < zlen p).
Context (retry_nonempty : forall a b c t v p, retry_packet a b c t v = Some p -> 0 < zlen p).
Context `{HAL : !AllocatorLaws} `{HS : !SendLaws budget} (split : Z -> bytes -> list bytes) `{HG : !GsoKernel split}.

Lemma reachable_inv_ sv : Reachable sv -> Inv sv.
Proof using All.
  exact (reachable_server order work budget from_slice version_is_supported negotiate_version retry_packet hmac_sign spki encode
    max_conn_id_len ttl settings base64_decode config auth_enabled verify ip_policy tun local nshards max reuse some_sources
    negotiate_nonempty retry_nonempty split sv).
Qed.
Lemma ready_round_ sv k r n : Reachable sv -> Ready sv k r n -> exists n' report, run_round r n = Ok (n', report).
Proof using All.
  intros Hsv%reachable_inv_ Hr.
  destruct (ready_round order work budget from_slice version_is_supported negotiate_version retry_packet hmac_sign spki encode
    max_conn_id_len ttl settings base64_decode config auth_enabled verify ip_policy tun local nshards max reuse some_sources
    negotiate_nonempty retry_nonempty split sv k r n Hsv Hr) as (n' & report & He & _). by exists n', report.
Qed.

Lemma tables_ok_ sv : Inv sv -> sys_ok (tables sv).
Proof using All.
  exact (tables_ok order work budget from_slice version_is_supported negotiate_version retry_packet hmac_sign
    spki encode max_conn_id_len ttl settings base64_decode config auth_enabled verify ip_policy tun local nshards max reuse some_sources
    negotiate_nonempty retry_nonempty sv).
Qed.
Abbreviation Around sv k := (node_inv order work from_slice version_is_supported negotiate_version retry_packet hmac_sign spki encode
  max_conn_id_len ttl settings base64_decode config auth_enabled verify ip_policy tun nshards max reuse k (shard <$> locals sv)
  (next_conn_index (sv_shared sv)) (taken sv k) (rightful sv k) (fun o => is_Some (http2_leases sv !! o))).
Lemma server_node_ sv k n : Inv sv -> locals sv !! k = Some n -> Around sv k (view sv n).
Proof using All.
  exact (server_node order work budget from_slice version_is_supported negotiate_version retry_packet hmac_sign
    spki encode max_conn_id_len ttl settings base64_decode config auth_enabled verify ip_policy tun local nshards max reuse some_sources
    negotiate_nonempty retry_nonempty sv k n).
Qed.

(** C4: The server is its parts.  Scope: shards interleave round by round, and every
    packet that arrives is no replay ([replays]: an Initial whose Retry token is
    still valid and made the id of a live connection that the peer has since
    retired, the subject of [retired_replay_panics]) and finds a connection number
    left.  However such rounds and the HTTP/2 tasks interleave, every round that can
    start ends without a panic; the tables of the shards together are those of a
    listener that runs as [IngressProps] says; every connection of every shard is
    one that runs as [ClientProps] says, with its own number; a route to a connection is for an address leased to that
    stream, a route to an HTTP/2 connection for an address its stream holds; and
    the queues between shards and to HTTP/2 streams keep their bounds. *)
Theorem server_refines sv :
  Reachable sv ->
  (forall k r n, Ready sv k r n -> exists n' report, run_round r n = Ok (n', report)) /\
  Ingress_ok (tables sv) /\
  (forall k n key t, live sv k n key t ->
     Reach (Ingress.client_index t) (whole t (owned n (Ingress.client_index t))) /\
     forall j m key2 t2, live sv j m key2 t2 -> Ingress.client_index t2 = Ingress.client_index t -> j = k /\ key2 = key) /\
  (forall a o, Routing.lookup (sv_routing sv) a = Some o ->
     (forall k n key t, live sv k n key t -> Ingress.client_index t = conn_id o ->
        leased (world (owned n (conn_id o))) (Routing.stream_id o) a) /\
     (conn_id o ∈ http2_connections sv -> exists l, http2_leases sv !! o = Some l /\ a ∈ l)) /\
  (forall k q, sv_shard_queues sv !! k = Some q -> Z.of_nat (length q) <= SHARD_FORWARD_QUEUE_CAPACITY) /\
  (forall o capacity q, sv_http2_queues sv !! o = Some (capacity, q) -> (length q <= capacity)%nat).
Proof using All.
  intros Hr. pose proof (reachable_inv_ sv Hr) as Hsv. split; [intros; by eapply ready_round_|].
  assert (sys_ok (tables sv)) as Hok by by apply tables_ok_.
  destruct Hsv as [H1 H2 H3 H4 H5 H6 H7 H8 H9 H10 H11 H12]. split; [done|]. split_and!.
  - intros k n key t Hl. split; [by apply (H2 k n key t)|]. intros j m key2 t2 [Hj Ht2] He. destruct Hl as [Hk Ht].
    apply locals_shards in Hk, Hj.
    destruct (live_number (tables sv) j (shard m) k (shard n) key2 t2 key t Hok Hj Hk Ht2 Ht He) as [<- _]. split; [done|].
    pose proof (so_numbers _ Hok) as Hnum. rewrite <- (clients_at _ _ _ _ Hj) in Ht2. rewrite <- (clients_at _ _ _ _ Hk) in Ht.
    apply (nu_conn _ _ _ _ Hnum) in Ht, Ht2. congruence.
  - intros a o Ho. split; [intros k n key t; by apply H5|by apply H7].
  - intros k q Hq%H11. unfold SHARD_FORWARD_QUEUE_CAPACITY in *. lia.
  - intros o c q Hq. by apply (H12 o).
Qed.

(** The connection with a number has it. *)
Lemma find_number sv k n i key t :
  Inv sv -> locals sv !! k = Some n -> find i (view sv n) = Some (key, t) -> live sv k n key t /\ Ingress.client_index t = i.
Proof using All.
  intros Hsv Hk [Hi Ht]%find_Some. split; [by split|]. cbn in Hi, Ht.
  assert (sys_ok (tables sv)) as Hok by by apply tables_ok_.
  pose proof (locals_shards _ _ _ Hk) as Hs. assert (numbers (tables sv) k i = Some key) as Hn by (unfold numbers; by rewrite Hs).
  destruct (nu_back _ _ _ _ (so_numbers _ Hok) _ _ _ Hn) as (t' & Ht' & <-). rewrite (clients_at _ _ _ _ Hs), Ht in Ht'. by injection Ht' as ->.
Qed.

(** What a packet for [o] may do to the shard that has it. *)
Definition delivered (sv : Server) (k : nat) (n : Node) (o : TunnelOwner) (dst : IpAddr) (packet : bytes) (more : bool) (n' : Node) : Prop :=
  exists key t c', live sv k n key t /\ Ingress.client_index t = conn_id o /\
    leased (world (owned n (conn_id o))) (Routing.stream_id o) dst /\
    relay_tun_to (Routing.stream_id o) packet (whole t (owned n (conn_id o))) = Ok (more, c') /\
    owned n' (conn_id o) = c' /\ Ingress.connections (shard n') !! key = Some (transport_of t c') /\
    (forall key', key' <> key -> Ingress.connections (shard n') !! key' = Ingress.connections (shard n) !! key') /\
    (forall i, i <> conn_id o -> owned n' i = owned n i) /\
    shard_queues n' = sv_shard_queues sv /\ http2_queues n' = sv_http2_queues sv.

Lemma relay_tun_local_delivers sv k n o dst packet :
  Inv sv -> locals sv !! k = Some n -> Routing.lookup (sv_routing sv) dst = Some o ->
  exists more n', relay_tun_local o packet (view sv n) = Ok (more, n') /\
    (n' = view sv n \/ delivered sv k n o dst packet more n').
Proof using All.
  intros Hsv Hk Ho. assert (exists x, relay_tun_local o packet (view sv n) = Ok x) as ([more n'] & He).
  { destruct (relay_tun_local_ok order work budget from_slice version_is_supported negotiate_version retry_packet hmac_sign
      spki encode max_conn_id_len ttl settings base64_decode config auth_enabled verify ip_policy tun local nshards max reuse k _ _ _ _ _
      some_sources negotiate_nonempty retry_nonempty split (fun _ _ _ _ => Ok 0%nat) (fun _ _ _ _ _ => Ok 0) ltac:(done) ltac:(done)
      o packet (view sv n) (server_node_ sv k n Hsv Hk)) as (x & Hx & _). by exists x. }
  exists more, n'. split; [done|]. unfold relay_tun_local in He.
  destruct (find (conn_id o) (view sv n)) as [[key t]|] eqn:Hf; [right|injection He as <- <-; by left].
  destruct (find_number sv k n _ key t Hsv Hk Hf) as [Hl Hi]. unfold on_key in He. rewrite Hi in He.
  change (owned (view sv n) (conn_id o)) with (owned n (conn_id o)) in He.
  destruct (relay_tun_to (Routing.stream_id o) packet (whole t (owned n (conn_id o)))) as [[a c']|[]|] eqn:Hrun; cbn [noerr mbind result_bind] in He; [|done].
  exists key, t, c'.
  assert (more = a /\ exists n1, n1 = put key t c' (view sv n) /\ owned n' = owned n1 /\ Ingress.connections (shard n') = Ingress.connections (shard n1) /\
    shard_queues n' = shard_queues n1 /\ http2_queues n' = http2_queues n1) as (-> & n1 & -> & E1 & E2 & E3 & E4).
  { destruct (bool_decide _ && _); injection He as <- <-; split; try done; by eexists. }
  rewrite E1, E2, E3, E4, put_owned, Hi, decide_True by done. split_and!; try done.
  - destruct Hsv as [_ _ _ _ Hrt _ _ _ _ _ _ _]. exact (Hrt _ _ _ _ _ _ Ho Hl Hi).
  - apply lookup_insert_eq.
  - intros key' Hne. cbn. by rewrite lookup_insert_ne.
  - intros i Hne. rewrite put_owned, Hi. by rewrite decide_False.
Qed.

Lemma node_place sv k n : Inv sv -> locals sv !! k = Some n -> shard_index (shard n) = k.
Proof using All. intros Hsv Hk. by apply (so_index _ (tables_ok_ sv Hsv)), locals_shards. Qed.
Lemma owner_queue sv k n i j :
  Inv sv -> locals sv !! k = Some n -> index_shard (sv_shared sv) !! i = Some j -> is_Some (sv_shard_queues sv !! j).
Proof using All.
  intros Hsv Hk Hj.
  pose proof (index_shard_bound order work budget from_slice version_is_supported negotiate_version retry_packet hmac_sign
    spki encode max_conn_id_len ttl settings base64_decode config auth_enabled verify ip_policy tun local nshards max reuse k _ _ _ _ _
    some_sources negotiate_nonempty retry_nonempty split (fun _ _ _ _ => Ok 0%nat) (fun _ _ _ _ _ => Ok 0) ltac:(done) ltac:(done)
    (view sv n) i j (server_node_ sv k n Hsv Hk) Hj) as Hlt.
  destruct Hsv as [_ _ _ _ _ _ _ _ _ Hqs _ _]. by apply Hqs.
Qed.
Lemma http2_holds sv o dst capacity q :
  Inv sv -> Routing.lookup (sv_routing sv) dst = Some o -> sv_http2_queues sv !! o = Some (capacity, q) ->
  exists l, http2_leases sv !! o = Some l /\ dst ∈ l.
Proof.
  intros [_ _ _ _ _ _ Hrt Hle _ _ _ Hat] Ho Hq. destruct (Hat _ _ _ Hq) as [[l Hl] _]. by apply Hrt, (Hle _ _ Hl).
Qed.


(** C15: A shutdown ends.  A shard starts to drain exactly at the shutdown event,
    with a deadline five seconds later that no later round moves, and its loop ends
    in no other way.  While it drains it takes up no connection, it waits no longer
    than until the deadline, and a round ends the loop when no connection is left or
    the deadline has come; the addresses of connections that are left then are
    given back. *)
Theorem drain_bounded sv k r n :
  Reachable sv -> Ready sv k r n ->
  exists n' report, run_round r n = Ok (n', report) /\
    drain_deadline n' = deadline_after r n /\
    (forall d, drain_deadline n = Some d ->
       (wakeup n).1 <= d /\ forall key, is_Some (Ingress.connections (shard n') !! key) -> is_Some (Ingress.connections (shard n) !! key)) /\
    ended report = match deadline_after r n with
                   | Some d => bool_decide (Ingress.connections (shard n') = ∅) || bool_decide (d <= at_exit r)
                   | None => false
                   end /\
    (ended report = true -> walks (walk r) -> frees n').
Proof using All.
  intros Hsv Hr. destruct (ready_round_ sv k r n Hsv Hr) as (n' & report & Hrun). exists n', report. split; [done|].
  pose proof Hrun as Hrd. apply round_deadline in Hrd as [Hd Hnone]. split; [done|].
  destruct (handle_event order work from_slice version_is_supported negotiate_version retry_packet hmac_sign spki
    encode max_conn_id_len ttl settings base64_decode config auth_enabled local r (begin_round n) (output (begin_round n)))
    as [[n1 out]|e|] eqn:He; [|unfold round in Hrun; rewrite He in Hrun; done..].
  pose proof He as H1. apply handle_deadline in H1. change (deadline_after r (begin_round n)) with (deadline_after r n) in H1.
  assert (forall d, deadline_after r n = Some d -> shrinks n1 n' /\
    ended report = bool_decide (Ingress.connections (shard n') = ∅) || bool_decide (d <= at_exit r) /\
    (ended report = true -> walks (walk r) -> frees n')) as Hdrain.
  { intros d Hda. rewrite Hda in H1. exact (draining_round order work budget from_slice version_is_supported negotiate_version retry_packet
      hmac_sign spki encode max_conn_id_len ttl settings base64_decode config auth_enabled ip_policy tun local r n n1 out n' report d He H1 Hrun). }
  split.
  - intros d Hdr. split; [by apply wakeup_bound|]. destruct Hr as (_ & (n0 & _ & Hsel & Hev) & _).
    assert (selectable tun n (event r) = true) as Hsel'.
    { destruct (event r); cbn in Hev; repeat case_match; simplify_eq/=; done. }
    destruct (draining_event order work from_slice version_is_supported negotiate_version retry_packet
      hmac_sign spki encode max_conn_id_len ttl settings base64_decode config auth_enabled tun local r n d _ n1 out Hdr Hsel' He) as [Hsh Hda].
    intros key Hk. by apply (proj2 Hsh), (proj2 (proj1 (Hdrain d Hda))).
  - destruct (deadline_after r n) as [d|]; [by apply (Hdrain d)|]. rewrite Hnone by done. done.
Qed.
End guarantees.

(** ** Witnesses *)

(** A client connects to a server with one shard and asks for an IP tunnel; its
    password is found right, and 10.89.0.7 is leased to it. *)
#[local] Existing Instance ClientProps.sample_library.
#[local] Existing Instance ClientProps.sample_world.
#[local] Existing Instance ClientProps.sample_laws.
#[local] Existing Instance ClientProps.sample_outside_laws.
#[local] Existing Instance ClientProps.sample_walk.
#[local] Existing Instance exact_allocator.
#[local] Existing Instance Retry.sample_aead.
Definition no_output (_ : conn) : nat := 0.
Definition sample_check (_ : Client.Credential) (password : bytes) : bool := bool_decide (password = str "pw").
Definition open_settings : Settings :=
  {| Ingress.max_connections := 10; Ingress.retry_mode := Off; Ingress.retry_connection_threshold := 0; Ingress.idle_timeout_secs := 30;
     has_basic_auth := true; client_certs := None |}.
Definition round_of (e : Event) (at_ : Z) : Round :=
  {| event := e; moments := fun _ => IngressProps.sample_moment; at_event := at_; at_timers := at_; at_sweep := at_; at_exit := at_;
     generation := 0; roster := None; walk := fun m => (map_to_list m).*1; Shard.sendmmsg := fun _ _ _ ms => Ok (length ms);
     Shard.send_to := fun _ _ _ p _ => Ok (zlen p); reply_mmsg := fun _ ms => Ok (length ms); reply_to := fun _ p _ => Ok (zlen p) |}.

Abbreviation sample_round := (round elements ClientProps.sample_work no_output sample_header sample_supported sample_negotiate
  IngressProps.sample_retry sample_hmac (fun _ => None) (fun l => l) 20 10 open_settings Some Validation.sample_config true
  Policy.sample_policy true Retry.sample_local).
Abbreviation sample_ready := (ready elements ClientProps.sample_work sample_header sample_supported sample_negotiate
  IngressProps.sample_retry sample_hmac (fun _ => None) (fun l => l) 20 10 open_settings Some Validation.sample_config true sample_check
  Policy.sample_policy true Retry.sample_local).
Abbreviation sample_server := (server_reachable elements ClientProps.sample_work no_output sample_header sample_supported sample_negotiate
  IngressProps.sample_retry sample_hmac (fun _ => None) (fun l => l) 20 10 open_settings Some Validation.sample_config true sample_check
  Policy.sample_policy true Retry.sample_local 1 4 false).

Definition node_of (sv : Server) : Node :=
  match locals sv !! 0%nat with Some n => n | None => node_new (tables sv) 0 IngressProps.sample_shard 0 0 true 1 end.
Definition ran (r : Round) (sv : Server) : Node * Report :=
  match sample_round r (view sv (node_of sv)) with Ok x => x | _ => (node_of sv, {| replied := None; served := []; ended := false |}) end.
Definition advance (r : Round) (sv : Server) : Server :=
  publish sv 0 (ran r sv).1 <| running ::= fun ks => if ended (ran r sv).2 then ks ∖ {[0%nat]} else ks |>.
Definition arrival : Round := round_of (PacketBatch [(initial_packet, Retry.sample_source)]) 1.
Definition decision : Round := round_of (AuthDone 0 0 sample_connect true) 2.
Definition server_0 : Server := server_new 1 4 false 0 0 true.
Definition server_1 : Server := advance arrival server_0.
Definition server_2 : Server := advance decision server_1.

#[local] Instance sample_cid_laws : CidLaws ClientProps.sample_work.
Proof.
  split; try done. intros q id t b a. unfold ClientProps.sample_work. rewrite !existsb_app. cbn. rewrite !orb_false_r. lia.
Qed.
#[local] Instance sample_send_laws : SendLaws no_output.
Proof. split; try done. Qed.
#[local] Instance sample_allocator_laws : AllocatorLaws.
Proof. intros n. unfold with_capacity, exact_allocator. lia. Qed.

Lemma advance_reachable r sv :
  sample_server sv -> sample_ready sv 0 r (view sv (node_of sv)) -> sample_round r (view sv (node_of sv)) = Ok (ran r sv) ->
  sample_server (advance r sv).
Proof.
  intros (start & generation & gso & Hr) Hready Hrun. exists start, generation, gso. eapply rtc_r; [exact Hr|].
  eapply sv_round; [exact Hready|]. rewrite Hrun. by destruct (ran r sv).
Qed.
Lemma round_of_socket e at_ : socket_ok (round_of e at_).
Proof. by split_and!. Qed.
Lemma server_0_reachable : sample_server server_0.
Proof. exists 0, 0, true. apply rtc_refl. Qed.
Lemma server_1_reachable : sample_server server_1.
Proof.
  apply advance_reachable; [exact server_0_reachable| |vm_compute; reflexivity]. split; [vm_compute; reflexivity|]. split.
  - exists (node_of server_0). split_and!; [vm_compute; reflexivity|reflexivity|reflexivity].
  - split; [apply round_of_socket|]. intros _. cbn [packets_ok event arrival round_of]. split.
    + split; vm_compute; reflexivity.
    + by destruct (receive _ _ _ _ _ _ _ _ _ _ _ _ _ _ _ _ _ _ _).
Qed.
Lemma server_2_reachable : sample_server server_2.
Proof.
  apply advance_reachable; [exact server_1_reachable| |vm_compute; reflexivity]. split; [vm_compute; reflexivity|]. split.
  - exists (node_of server_1). split_and!; [vm_compute; reflexivity|vm_compute; reflexivity|reflexivity].
  - split; [apply round_of_socket|]. intros key t Hf.
    assert (Ingress.client_index t = 0) as -> by (revert Hf; vm_compute; by intros [= <- <-]).
    exists sample_credential, (str "pw"), 0%nat, 3%nat. split; [|done]. apply list_elem_of_lookup. exists 3%nat. vm_compute. reflexivity.
Qed.
Lemma four_sources : (0 < 4)%nat.
Proof. lia. Qed.
Lemma sample_negotiate_nonempty a b p : sample_negotiate a b = Some p -> 0 < zlen p.
Proof. by intros [= <-]. Qed.
Lemma sample_retry_nonempty a b c t v p : IngressProps.sample_retry a b c t v = Some p -> 0 < zlen p.
Proof. by intros [= <-]. Qed.

Lemma server_refines_witness :
  Routing.lookup (sv_routing server_2) (IpV4 0x0a590007) = Some {| conn_id := 0; Routing.stream_id := 0 |} /\
  forall k n key t, live server_2 k n key t -> Ingress.client_index t = 0 -> leased (world (owned n 0)) 0 (IpV4 0x0a590007).
Proof.
  assert (Routing.lookup (sv_routing server_2) (IpV4 0x0a590007) = Some {| conn_id := 0; Routing.stream_id := 0 |}) as Ho by (vm_compute; reflexivity).
  split; [exact Ho|].
  destruct (server_refines elements ClientProps.sample_work no_output sample_header sample_supported sample_negotiate
    IngressProps.sample_retry sample_hmac (fun _ => None) (fun l => l) 20 10 open_settings Some Validation.sample_config true sample_check
    Policy.sample_policy true Retry.sample_local 1 4 false four_sources sample_negotiate_nonempty sample_retry_nonempty sample_split
    server_2 server_2_reachable) as (_ & _ & _ & Hroutes & _).
  exact (proj1 (Hroutes _ _ Ho)).
Defined.

(* from 1.1.1.1 to 10.89.0.7 *)
Definition return_packet : bytes := [0x45; 0; 0; 20; 0; 0; 0; 0; 64; 17; 0; 0; 1; 1; 1; 1; 10; 89; 0; 7].

Lemma drain_bounded_witness :
  exists n' report, sample_round (round_of Shutdown 3) (view server_2 (node_of server_2)) = Ok (n', report) /\
    drain_deadline n' = Some (3 + DRAIN_TIMEOUT).
Proof.
  assert (sample_ready server_2 0 (round_of Shutdown 3) (view server_2 (node_of server_2))) as Hr.
  { split; [vm_compute; reflexivity|]. split; [|by split; [apply round_of_socket|]].
    exists (node_of server_2). split_and!; [vm_compute; reflexivity|vm_compute; reflexivity|reflexivity]. }
  destruct (drain_bounded elements ClientProps.sample_work no_output sample_header sample_supported sample_negotiate
    IngressProps.sample_retry sample_hmac (fun _ => None) (fun l => l) 20 10 open_settings Some Validation.sample_config true sample_check
    Policy.sample_policy true Retry.sample_local 1 4 false four_sources sample_negotiate_nonempty sample_retry_nonempty sample_split
    server_2 0%nat _ _ server_2_reachable Hr) as (n' & report & He & Hd & _).
  exists n', report. split; [exact He|exact Hd].
Defined.
